(* ===== verification/_CoqProject ===== *)
-Q . S2P
Prelude.v
Types.v
ByteOrder.v
EntryCodec.v
AppendFile.v
HPFile.v
EntryFile.v
TwigMtFile.v
Hasher.v
Twig.v
YoungestTwig.v
Tree.v
ActiveBits.v
UpperNodes.v
TreeInv.v
TreeAppend.v
TreeRun.v
MerkleProof.v
ProofComplete.v
LoadDump.v
RocksDB.v
MetaDB.v
BTreeSpec.v
BTree.v
BTreePages.v
BTreeInv.v
BTreeFind.v
BTreeLeaves.v
BTreeSet.v
BTreePut.v
BTreeUnderflow.v
BTreeUnderflowX.v
BTreeDelete.v
BTreeEnum.v
BTreeLaws.v
IndexTree.v
IndexHistory.v
DataTreeSpec.v
MockDataTree.v
DataTreeImpl.v
StoreTypes.v
Client.v
CacheStore.v
CacheBTree.v
MockIndexTree.v
MergeIter.v
RootSpec.v
TrunkStore.v
TrunkRun.v
PrefixStore.v
MockRoot.v
Rabbit.v
RabbitInv.v
RabbitRun.v
RabbitBlock.v
OnvaKV.v
Relink.v
Buckets.v
OnvaKVInv.v
OnvaKVRead.v
OnvaKVBlock.v
OnvaKVReap.v
OnvaKVPrepare.v
OnvaKVSets.v
OnvaKVRun.v
OnvaKVCreate.v
OnvaKVStore.v
OnvaKVCompact.v
RootStore.v
RootStoreRun.v
System.v
