(* ===== verification/Prelude.v ===== *)
(** * OnvaKV: verification of an authenticated key-value store

    ** The program

    OnvaKV is a key-value store whose state has a Merkle root, written in Go.
    A client works in blocks. It announces the keys a block may write
    ([PrepareForUpdate], [PrepareForDeletion]), begins the writing, sets and
    deletes keys, and ends the block, which yields the root hash. Below this
    façade ([src/onvakv.go]) are three parts.

    - The _data tree_ ([src/datatree]) is an append-only sequence of entries.
      2048 consecutive entries form a twig: a Merkle tree over the records of
      the entries and one over their active bits. The twigs are the leaves of
      a tree of upper nodes. Records live in the entry file, the Merkle trees
      of finished twigs in the twig file; both are head-prunable files cut
      into block files. Hashing is done in batches run on all CPUs.
    - The _index tree_ ([src/indextree]) maps a key to the position of its
      entry: a B-tree in memory for the present, RocksDB for the history.
    - The _metadata_ ([src/metadb]) are the counters, file sizes and twig
      heights kept in the same RocksDB.

    Above the façade is the store layer ([src/store]): a block of transactions
    works on caches. A _multi store_ collects the changes of a transaction over
    a _trunk store_, which collects those of the block over a _root store_;
    closing one with write-back hands its changes down. A _prefixed store_ is
    the part of a multi store under a prefix, and a _rabbit store_ keeps
    entries under eight-byte keys in a hash table over a trunk.

    Entries form a list linked by [NextKey] between two guards, so that the
    absence of a key is provable; ending a block relinks the changed keys.

    ** The files of the development

    - [Prelude] (this file): the result of a Go call ([outcome]: a value or a
      panic), bytes, slices with Go's bounds checks, integers of a given
      width, and the tactics and lemmas the components share.
    - [Types] (types/types.go), [ByteOrder] ([bytes.Compare]).
    - [EntryCodec] (datatree/entryfile.go, the encoding of entries).
    - [AppendFile]: the interface between files; [HPFile]
      (datatree/hpfile.go) implements it; [EntryFile]
      (datatree/entryfile.go) and [TwigMtFile] (datatree/twigmtfile.go) are
      verified against it.
    - [Hasher] (datatree/hasher.go): batches of hash jobs on a memory with
      addressable slices, sequentially and as a parallel step relation.
    - [Twig], [YoungestTwig], [ActiveBits], [UpperNodes], [Tree]
      (datatree/tree.go, datatree/check.go): the operations, and for each of
      the three incremental syncs that it recomputes what changed.
      [TreeInv], [TreeAppend], [TreeRun]: the invariant of the tree, its
      preservation, the tree as a state machine.
    - [MerkleProof], [ProofComplete] (datatree/proof.go): format, verifier and
      prover; two accepted proofs agree unless SHA-256 collides, and the
      prover is complete.
    - [LoadDump] (datatree/load_dump.go): dump, load and recovery.
    - [RocksDB] (indextree/rocks_db.go), [MetaDB] (metadb/metadb.go).
    - [BTreeSpec]: the interface of the B-tree; [IndexTree], [IndexHistory]
      (indextree/indextree.go) are verified against it. [BTree]
      (indextree/b/btree_nocgo.go) is the B+tree on a heap of pages;
      [BTreePages], [BTreeInv] (its arrays, its shape), [BTreeFind] (the
      descent), [BTreeLeaves], [BTreeSet], [BTreePut] (insertion, splitting),
      [BTreeUnderflow], [BTreeUnderflowX], [BTreeDelete] (borrowing and
      merging), [BTreeEnum] (enumerators) lead to [BTreeLaws]: it keeps the
      laws of the interface. [CacheBTree]: the trees of indextree/b and of
      store/b/btree.go. [MockIndexTree] (indextree/mock_indextree.go).
    - [DataTreeSpec]: the interface of the data tree towards the store;
      [MockDataTree] (datatree/mock_datatree.go) and [DataTreeImpl] (the tree
      of [Tree] on its files) implement it.
    - [OnvaKV] (onvakv.go); [Relink], [Buckets], [OnvaKVInv], [OnvaKVRead],
      [OnvaKVBlock], [OnvaKVReap] (compaction), [OnvaKVPrepare], [OnvaKVSets],
      [OnvaKVRun], [OnvaKVCreate]: the steps of its refinement proof;
      [OnvaKVStore], [OnvaKVCompact]: what a client can rely on.

    - [StoreTypes] (store/types/types.go): store keys, serializable objects,
      iterators, and the state monad of the store layer; [Client]: prepared
      keys and writes, and what they mean for a map.
    - [CacheStore] (store/cache.go, [Value] of store/b/btree.go), verified
      against the interface of the B-tree; [MergeIter] (store/mergeiter.go),
      verified for any two iterators.
    - [RootSpec]: the interface of the root store; [TrunkStore], [TrunkRun]
      (store/trunk.go, store/multi.go) and [PrefixStore] (store/prefix.go) are
      verified against it; [MockRoot] (store/mock_root.go) implements it, and so
      do [RootStore] and [RootStoreRun] (store/root.go), over [OnvaKV].
      [System]: a client of the whole stack, from transactions to the files.
    - [Rabbit] (store/rabbit), [RabbitInv] (the chains of short keys, without
      caches), [RabbitRun] and [RabbitBlock] (its refinement).

    A method [M] of a Go type is the definition [M] (with the type in the name
    where two types share a method name), from the state it reads to an
    [outcome] of the state it leaves. Go structs are records with the fields
    of the source, Go maps with comparable keys are [gmap]s, integers are [Z]
    with their wrap-around written out where it can be reached.

    ** What is proved

    - _Refinement_. A session - creating a store on an empty directory and
      running any number of blocks - ends in a store whose reads are the map
      that the writes of the blocks mean, whose keys are linked in order, and
      whose iterators and consistency check agree with it
      ([OnvaKVStore.store_refines_map], [store_iterators_exact],
      [CheckConsistency_exact]). Blocks may compact: the entries of the oldest
      twig move to the end, which changes their serial numbers only, and the
      tree is left with at most twice as many entries as there are active ones
      ([OnvaKVCompact.store_stays_compact]). It is proved against the interfaces of data
      tree and B-tree, which the data tree on head-prunable files and the
      B+tree implement. A B+tree under any calls gives the answers of a map
      ([BTreeLaws.btree_answers_as_a_map]). The history in RocksDB answers [GetAtHeight] as the list of the
      blocks' writes does, after any compaction, for keys none of which is a
      prefix of another and none of which ends in 255, live at the height or
      later ([IndexHistory.GetAtHeight_history]).
      Above any root store, a block of transactions ends in the root with the
      effect of the committed ones ([TrunkRun.trunk_block_refines]), a
      transaction reads what it wrote over the layers below
      ([transactions_read_their_writes]), a prefixed store is the part of the
      map under its prefix ([PrefixStore.prefixed_store_is_part]), and a rabbit
      store is a map ([RabbitBlock.rabbit_block_refines]). The two refinements
      meet in [System.system_refines_map]: blocks of transactions over trunk,
      root store, store and data tree mean what the same blocks mean for a map.
      Its witness is a run of the whole program: the index and the caches are
      the B+trees of [CacheBTree], the data tree is that of [DataTreeImpl].
    - _Types_. A reachable B+tree is well formed: the bounds between which its
      index pages and leaves are filled, the order of its keys under their
      separators, the list of its leaves, its logarithmic height
      ([BTreeLaws.reachable_trees_well_formed]).
    - _Authentication_. After any run of appends, deactivations and evictions
      that has filled the first twig, the end of a block leaves a tree that
      passes every check of check.go ([TreeRun.tree_run_consistent]); the prover then has an accepted proof
      for every entry ([ProofComplete.GetProof_complete]), and accepted proofs
      bind ([MerkleProof.Check_binding]).
    - _Equivalence_ of optimised routines with plain ones: incremental hashing
      against full recomputation, raw rewriting of records against
      re-encoding, buffered against direct reads, parallel against sequential
      hashing.
    - _Round trips_: entry records, proofs, files reopened, trees flushed and
      loaded, metadata committed and reloaded, the index rebuilt from its
      records.
    - _Errors and bounds_: the panics and wrong results the code can reach,
      each as a theorem about the definitions; they are the findings of the
      manifest.

    ** Bounds and fuel

    Loops without a structural measure have a fuel argument. The theorems
    either fix an amount that suffices for the given data and show that it
    does, or hold for every fuel above a stated bound, so that a loop that did
    not end would make them false: syncing the youngest twig takes 12 rounds
    (2048 leaves are 11 levels), scanning the entry file one step per eight
    bytes at most ([size - pos + 1]), loading twigs and nodes one step per
    record, iterators one step per key ([size + 1]), descending a B+tree one step per
    level (there are fewer levels than index pages and one), scanning and merging
    caches one step per entry, the search for escaped magic bytes one step per
    byte. The reaping loop takes one step
    per twig that was full when the block began.

    A session on [OnvaKV] or on the whole stack is served within a capacity,
    which [blocks_ok] and [system_ok] add up block by block: a block takes at
    most six serial numbers for each key it prepares, and one for each active
    entry, and one more, when it may compact. A block that may compact (that
    leaves more than [StartReapThres] entries) must be small against the
    contents, six times its keys and one twig at most ([reap_served]): the loop
    then stops before it comes to a twig that is still in the write buffer,
    which the pre-reader cannot read. And the data tree must give raw records
    back: [DataTreeImpl] promises it for as long as the entry file has one
    block file, 2^18 entries of up to 4096 bytes with the file size of the
    program, because a buffered read of a record that ends exactly where a
    block file ends panics ([HPFile.buffered_read_agrees_or_panics]). Stores
    that never compact have no such bound.

    ** Parameters

    SHA-256 is a function with 32-byte results; no theorem assumes that it is
    injective, [Check_binding] concludes with the collision. The checksum of
    the package meow and gorocksdb (class [Rocks], with the laws of a sorted map
    with ordered batches) are the other parameters; each class has a concrete
    instance for the witnesses. The B-tree ([BTreeOps], [BTreeLaws]) is
    a parameter of its clients, because the program is built with either of
    two; the one in Go is an instance. System calls on open files succeed.

    Objects of the store layer are values of a type with the class
    [Serializable]: the code moves, copies, or hands them out as read-only. The
    order in which Go visits a map is an argument, and the theorems hold for
    every order.

    [DataTreeImpl] and [MockDataTree] carry the log of what was appended
    beside the state of the code; no operation of the code reads it.

    ** Not modelled

    - The C++ B-tree behind cgo and its wrapper (a build tag puts it in the
      place of the B+tree), and programs that test, fuzz or measure; the
      B-tree in indextree/b/cppbtree/fuzz is a verbatim copy of the one that
      is modelled.
    - The release of resources ([Close] of files, databases and enumerators),
      and the reuse of pages by the pools: a page taken from a pool is zero.
    - Locks: the operations of one object run one at a time. The parallelism
      of hashing is modelled as a step relation. The goroutines behind
      [GetActiveEntriesInTwig] and [ScanEntries] are run to their end before
      the loop that receives from their channel.
    - Reopening a store: the code panics there (finding on
      [NewOnvaKV]); recovery of the data tree is modelled without
      a theorem about its result.
    - Of the store layer: closed stores are given up, so the nil fields a use
      after [Close] would meet are not modelled.
    - Theorems about pruning ([PruneBeforeHeight]) and about recovery are
      missing: the operations are definitions. *)
From Stdlib Require Export ZArith Lia.
From stdpp Require Export base tactics list gmap strings sorting.

#[export] Set Default Goal Selector "!".
Global Open Scope Z_scope.

(** ** Outcomes: a Go call returns a value or panics *)

Inductive outcome (A : Type) : Type :=
| Ret (a : A)
| Panic (why : string).
Arguments Ret {A} a.
Arguments Panic {A} why.

#[export] Instance outcome_ret : MRet outcome := @Ret.
#[export] Instance outcome_bind : MBind outcome := λ A B f m,
  match m with Ret a => f a | Panic w => Panic w end.
#[export] Instance outcome_fmap : FMap outcome := λ A B f m,
  match m with Ret a => Ret (f a) | Panic w => Panic w end.

(** A guard of the form [if !b { panic(why) }]. *)
Definition require (b : bool) (why : string) : outcome unit :=
  if b then Ret tt else Panic why.

Definition is_ret {A} (m : outcome A) : bool :=
  match m with Ret _ => true | Panic _ => false end.

Lemma outcome_bind_Ret {A B} (m : outcome A) (f : A → outcome B) (b : B) :
  m ≫= f = Ret b ↔ ∃ a, m = Ret a ∧ f a = Ret b.
Proof. destruct m; naive_solver. Qed.

Lemma require_Ret b why u : require b why = Ret u ↔ b = true.
Proof. destruct b, u; naive_solver. Qed.

(** Inverts every bind and guard of a computation known to return. *)
Ltac invert_ret :=
  repeat match goal with
  | H : _ ≫= _ = Ret _ |- _ =>
      apply outcome_bind_Ret in H; destruct H as (? & ? & H)
  | H : require _ _ = Ret _ |- _ => apply require_Ret in H
  | H : mret _ = Ret _ |- _ => unfold mret, outcome_ret in H
  | H : Ret _ = Ret _ |- _ => injection H as H; try subst
  | H : Panic _ = Ret _ |- _ => discriminate H
  end.

(** ** Methods as state transformers *)

Definition stM (S A : Type) : Type := S → outcome (A * S).
#[export] Instance stM_ret S : MRet (stM S) := λ A a s, Ret (a, s).
#[export] Instance stM_bind S : MBind (stM S) := λ A B f m s, '(a, s) ← m s; f a s.
Definition st_panic {S A} (why : string) : stM S A := λ _, Panic why.
Definition st_lift {S A} (m : outcome A) : stM S A := λ s, a ← m; Ret (a, s).

(** [method s] returns from every state with [P] and then has [Q]. *)
Definition returns {S A} (P : S → Prop) (m : stM S A) (Q : A → S → Prop) : Prop :=
  ∀ s, P s → ∃ a s', m s = Ret (a, s') ∧ Q a s'.

Lemma returns_ret {S A} (P : S → Prop) (a : A) : returns P (mret a) (λ x s, x = a ∧ P s).
Proof. intros s Hs. by exists a, s. Qed.
Lemma returns_bind {S A B} (P : S → Prop) (m : stM S A) (f : A → stM S B) Q R :
  returns P m Q → (∀ a, returns (Q a) (f a) R) → returns P (m ≫= f) R.
Proof.
  intros Hm Hf s Hs. destruct (Hm s Hs) as (a & s' & E & Ha). destruct (Hf a s' Ha) as (b & s2 & E2 & Hb).
  exists b, s2. split; [|done]. unfold mbind, stM_bind. rewrite E. exact E2.
Qed.
Lemma returns_pre {S A} (P P' : S → Prop) (m : stM S A) Q : (∀ s, P s → P' s) → returns P' m Q → returns P m Q.
Proof. intros H Hm s Hs. apply Hm. auto. Qed.
Lemma returns_post {S A} (P : S → Prop) (m : stM S A) (Q Q' : A → S → Prop) :
  (∀ a s, Q a s → Q' a s) → returns P m Q → returns P m Q'.
Proof. intros H Hm s Hs. destruct (Hm s Hs) as (a & s' & E & Ha). exists a, s'. auto. Qed.
Lemma returns_pure {S A} (φ : Prop) (P : S → Prop) (m : stM S A) Q :
  (φ → returns P m Q) → returns (λ s, φ ∧ P s) m Q.
Proof. intros H s [Hφ Hs]. by apply H. Qed.
Lemma returns_ex {S A X} (P : X → S → Prop) (m : stM S A) Q :
  (∀ x, returns (P x) m Q) → returns (λ s, ∃ x, P x s) m Q.
Proof. intros H s [x Hs]. by apply (H x). Qed.

(** The next step of a method. *)
Lemma stM_Ret {S A B} (m : stM S A) (f : A → stM S B) s a s' : m s = Ret (a, s') → (m ≫= f) s = f a s'.
Proof. unfold mbind, stM_bind. by intros ->. Qed.
Lemma stM_Panic {S A B} (m : stM S A) (f : A → stM S B) s why : m s = Panic why → (m ≫= f) s = Panic why.
Proof. unfold mbind, stM_bind. by intros ->. Qed.
Lemma stM_bind_inv {S A B} (m : stM S A) (f : A → stM S B) s s' b : (m ≫= f) s = Ret (b, s') → ∃ a s1, m s = Ret (a, s1) ∧ f a s1 = Ret (b, s').
Proof. unfold mbind, stM_bind. destruct (m s) as [[a s1]|]; [|done]. intros H. by exists a, s1. Qed.

(** A part of a state: methods on the part are methods on the whole. *)
Record lens (S A : Type) := Lens { lget : S → A; lset : A → S → S }.
Arguments Lens {S A}.
Arguments lget {S A}.
Arguments lset {S A}.
Definition zoom {S A X} (L : lens S A) (m : stM A X) : stM S X :=
  λ s, '(x, a) ← m (lget L s); Ret (x, lset L a s).
Lemma zoom_Ret {S A X} (L : lens S A) (m : stM A X) s x a : m (lget L s) = Ret (x, a) → zoom L m s = Ret (x, lset L a s).
Proof. unfold zoom. by intros ->. Qed.

(** ** Machine integers *)

Definition to_uint (w z : Z) : Z := z mod 2 ^ w.
Definition to_int (w z : Z) : Z :=
  let m := z mod 2 ^ w in if m <? 2 ^ (w - 1) then m else m - 2 ^ w.
Definition to_uint64 (z : Z) : Z := to_uint 64 z.
Definition to_int64 (z : Z) : Z := to_int 64 z.
Definition is_int64 (z : Z) : Prop := - 2 ^ 63 ≤ z < 2 ^ 63.
Definition MinInt64 : Z := - 2 ^ 63.
Definition MaxUint32 : Z := 2 ^ 32 - 1.
Definition MaxUint64 : Z := 2 ^ 64 - 1.

#[export] Instance is_int64_dec z : Decision (is_int64 z).
Proof. unfold is_int64; apply _. Defined.

Lemma to_int64_uint64 z : is_int64 z → to_int64 (to_uint64 z) = z.
Proof.
  unfold is_int64, to_int64, to_int, to_uint64, to_uint. intros Hz.
  rewrite Zmod_mod. change (2 ^ (64 - 1)) with (2 ^ 63).
  destruct (Z.ltb_spec (z mod 2 ^ 64) (2 ^ 63)) as [H|H];
    pose proof (Z.mod_pos_bound z (2 ^ 64)); pose proof (Z.div_mod z (2 ^ 64));
    change (2 ^ 64) with (2 * 2 ^ 63) in *; nia.
Qed.

(** A bitwise or with a shifted word is an addition when the bits do not meet. *)
Lemma lor_shiftl a b k : 0 ≤ k → 0 ≤ a < 2 ^ k → Z.lor a (Z.shiftl b k) = a + b * 2 ^ k.
Proof.
  intros Hk Ha. rewrite <- Z.shiftl_mul_pow2 by done.
  assert (Z.land a (Z.shiftl b k) = 0) as Hl.
  { apply Z.bits_inj'. intros i Hi. rewrite Z.land_spec, Z.bits_0.
    destruct (Z.ltb_spec i k).
    - by rewrite Z.shiftl_spec_low, andb_false_r by lia.
    - rewrite <- (Z.mod_small a (2 ^ k)), Z.mod_pow2_bits_high by lia. done. }
  pose proof (Z.add_lor_land a (Z.shiftl b k)). lia.
Qed.
(** Reassembling a 24-bit word from its bytes. *)
Lemma lor_three_bytes n : Z.lor (Z.lor (n mod 256) (Z.shiftl (n / 256 mod 256) 8)) (Z.shiftl (n / 65536 mod 256) 16) = n mod 2^24.
Proof.
  pose proof (Z.mod_pos_bound n 256). pose proof (Z.mod_pos_bound (n/256) 256).  pose proof (Z.mod_pos_bound (n/65536) 256).
  rewrite (lor_shiftl (n mod 256)) by lia. change (2^8) with 256. 
  rewrite lor_shiftl by (change (2^16) with 65536; lia).
  change (2^16) with 65536; change (2^24) with 16777216.
  assert (n / 65536 = n/256/256) as -> by (rewrite Z.div_div by lia; done).
  assert (n mod 16777216 = n mod 256 + 256 * ((n/256) mod 65536)) as ->.
  { rewrite <- Z.rem_mul_r by lia. done. }
  assert ((n/256) mod 65536 = (n/256) mod 256 + 256 * ((n/256/256) mod 256)) as ->.
  { rewrite <- Z.rem_mul_r by lia. done. }
  lia.
Qed.

(** ** Byte strings *)

Notation bytes := (list Z).
Definition zlen {A} (l : list A) : Z := Z.of_nat (length l).

Lemma zlen_app {A} (l k : list A) : zlen (l ++ k) = zlen l + zlen k.
Proof. unfold zlen. rewrite length_app. lia. Qed.
Lemma zlen_nonneg {A} (l : list A) : 0 ≤ zlen l.
Proof. unfold zlen. lia. Qed.
Lemma zlen_cons {A} (x : A) l : zlen (x :: l) = 1 + zlen l.
Proof. unfold zlen. simpl length. lia. Qed.
Lemma zlen_nil A : zlen (@nil A) = 0.
Proof. reflexivity. Qed.
Lemma zlen_replicate {A} n (x : A) : zlen (replicate n x) = Z.of_nat n.
Proof. unfold zlen. by rewrite length_replicate. Qed.

(** [b\[lo:hi\]]: Go panics when the bounds are out of range. *)
Definition slice {A} (b : list A) (lo hi : Z) : outcome (list A) :=
  if (0 <=? lo) && (lo <=? hi) && (hi <=? zlen b)
  then Ret (take (Z.to_nat (hi - lo)) (drop (Z.to_nat lo) b))
  else Panic "slice bounds out of range".

(** [b\[i\]] with the run-time bounds check. *)
Definition index {A} (b : list A) (i : Z) : outcome A :=
  if 0 <=? i then
    match b !! Z.to_nat i with
    | Some x => Ret x
    | None => Panic "index out of range"
    end
  else Panic "index out of range".

(** [copy(b\[off:\], src)], for a [src] that fits. *)
Definition splice {A} (b : list A) (off : nat) (src : list A) : list A :=
  take off b ++ src ++ drop (off + length src) b.

(** ** Endianness: [binary.LittleEndian] and [binary.BigEndian] *)

Fixpoint le_bytes (n : nat) (z : Z) : bytes :=
  match n with
  | O => []
  | S n => z mod 256 :: le_bytes n (z / 256)
  end.

Fixpoint le_val (bs : bytes) : Z :=
  match bs with
  | [] => 0
  | b :: bs => b + 256 * le_val bs
  end.

Definition be_bytes (n : nat) (z : Z) : bytes := rev (le_bytes n z).
Definition be_val (bs : bytes) : Z := le_val (rev bs).

Lemma length_le_bytes n z : length (le_bytes n z) = n.
Proof. revert z; induction n; intros z; simpl; auto. Qed.
Lemma zlen_le_bytes n z : zlen (le_bytes n z) = Z.of_nat n.
Proof. unfold zlen. by rewrite length_le_bytes. Qed.

Lemma le_val_bytes n z : le_val (le_bytes n z) = z mod 2 ^ (8 * Z.of_nat n).
Proof.
  revert z; induction n as [|n IH]; intros z.
  { simpl. by rewrite Z.mod_1_r. }
  cbn [le_bytes le_val]. rewrite IH, Nat2Z.inj_succ.
  replace (8 * Z.succ (Z.of_nat n)) with (8 + 8 * Z.of_nat n) by lia.
  rewrite Z.pow_add_r by lia. change (2 ^ 8) with 256.
  rewrite Z.rem_mul_r by (try apply Z.pow_pos_nonneg; lia). lia.
Qed.

Lemma le_bytes_mod n z : le_bytes n (z mod 2 ^ (8 * Z.of_nat n)) = le_bytes n z.
Proof.
  revert z; induction n as [|n IH]; intros z; [done|].
  cbn [le_bytes]. rewrite Nat2Z.inj_succ.
  replace (8 * Z.succ (Z.of_nat n)) with (8 + 8 * Z.of_nat n) by lia.
  rewrite Z.pow_add_r by lia. change (2 ^ 8) with 256.
  assert (0 < 2 ^ (8 * Z.of_nat n)) by (apply Z.pow_pos_nonneg; lia).
  rewrite Z.rem_mul_r by lia.
  rewrite <- (Z.mul_comm _ 256), Z.mod_add, Z.div_add by lia.
  rewrite Zmod_mod, (Z.div_small (z mod 256)), Z.add_0_l
    by (apply Z.mod_pos_bound; lia).
  by rewrite IH.
Qed.

Lemma le_val_uint64 z : le_val (le_bytes 8 z) = to_uint64 z.
Proof. apply le_val_bytes. Qed.

(** A 64-bit integer that goes through its eight bytes. *)
Lemma int64_bytes z : is_int64 z → to_int64 (le_val (le_bytes 8 (to_uint64 z))) = z.
Proof.
  intros Hz. rewrite le_val_uint64. unfold to_uint64 at 1, to_uint at 1.
  rewrite Z.mod_small by (apply Z.mod_pos_bound; lia). by apply to_int64_uint64.
Qed.

Lemma le_val_small n z :
  0 ≤ z < 2 ^ (8 * Z.of_nat n) → le_val (le_bytes n z) = z.
Proof. intros. rewrite le_val_bytes. by apply Z.mod_small. Qed.

Lemma be_val_bytes n z : be_val (be_bytes n z) = z mod 2 ^ (8 * Z.of_nat n).
Proof. unfold be_val, be_bytes. rewrite rev_involutive. apply le_val_bytes. Qed.

(** ** Slices and in-place copies *)

Section slices.
Context {A : Type}.
Implicit Types (a b c l : list A) (lo hi : Z).

Lemma slice_Ret l lo hi r :
  slice l lo hi = Ret r ↔
  0 ≤ lo ≤ hi ∧ hi ≤ zlen l ∧
  r = take (Z.to_nat (hi - lo)) (drop (Z.to_nat lo) l).
Proof.
  unfold slice.
  destruct (Z.leb_spec 0 lo), (Z.leb_spec lo hi), (Z.leb_spec hi (zlen l));
    simpl; split; intros; try discriminate; destruct_and?; subst; try lia;
    naive_solver lia.
Qed.

Lemma slice_in_bounds l lo hi :
  0 ≤ lo ≤ hi → hi ≤ zlen l → ∃ r, slice l lo hi = Ret r.
Proof. intros. eexists. by apply slice_Ret. Qed.

Lemma slice_mid a b c lo hi :
  lo = zlen a → hi = zlen a + zlen b → slice (a ++ b ++ c) lo hi = Ret b.
Proof.
  intros -> ->. apply slice_Ret. rewrite !zlen_app.
  pose proof (zlen_nonneg a). pose proof (zlen_nonneg b).
  pose proof (zlen_nonneg c). split_and!; [lia..|].
  unfold zlen. rewrite Nat2Z.id, drop_app_length.
  replace (Z.to_nat _) with (length b) by lia. by rewrite take_app_length.
Qed.

Lemma slice_end a b lo hi :
  lo = zlen a → hi = zlen a + zlen b → slice (a ++ b) lo hi = Ret b.
Proof. intros. rewrite <- (app_nil_r b) at 1. by apply slice_mid. Qed.

Lemma slice_start a b lo hi :
  lo = 0 → hi = zlen a → slice (a ++ b) lo hi = Ret a.
Proof. intros. by apply (slice_mid [] a b). Qed.

Lemma slice_all l hi : hi = zlen l → slice l 0 hi = Ret l.
Proof. intros. by apply (slice_end [] l). Qed.

Lemma slice_length l lo hi r :
  slice l lo hi = Ret r → zlen r = hi - lo.
Proof.
  intros (?&?&->)%slice_Ret. unfold zlen in *.
  rewrite length_take, length_drop. lia.
Qed.

Lemma length_splice l off s :
  (off + length s ≤ length l)%nat → length (splice l off s) = length l.
Proof.
  intros. unfold splice.
  rewrite !length_app, length_take, length_drop. lia.
Qed.

(** A copy changes exactly the positions it covers. *)
Lemma lookup_splice l off s (i : nat) :
  (off + length s ≤ length l)%nat →
  splice l off s !! i =
    if decide (off ≤ i < off + length s)%nat then s !! (i - off)%nat
    else l !! i.
Proof.
  intros Hl. unfold splice.
  assert (Ht : length (take off l) = off) by (rewrite length_take; lia).
  case_decide as Hd.
  - rewrite lookup_app_r, lookup_app_l, Ht by lia. done.
  - destruct (decide (i < off)%nat).
    + rewrite lookup_app_l, lookup_take_lt by lia. done.
    + rewrite !lookup_app_r by lia. rewrite lookup_drop, Ht. f_equal. lia.
Qed.

Lemma splice_app_r a b off s :
  splice (a ++ b) (length a + off) s = a ++ splice b off s.
Proof.
  unfold splice. rewrite take_app_add'; [|done].
  replace (length a + off + length s)%nat with (length a + (off + length s))%nat by lia.
  rewrite drop_app_add' by done. by rewrite <- app_assoc.
Qed.

Lemma take_min_length (n : nat) l : take (n `min` length l) l = take n l.
Proof.
  destruct (Nat.le_gt_cases n (length l)).
  - by rewrite Nat.min_l.
  - rewrite Nat.min_r by lia. by rewrite !take_ge by lia.
Qed.

Lemma index_Ret l i x :
  index l i = Ret x ↔ 0 ≤ i ∧ l !! Z.to_nat i = Some x.
Proof.
  unfold index. destruct (Z.leb_spec 0 i).
  - destruct (l !! _); naive_solver.
  - split; [done|lia].
Qed.

(** Two lists of the same length that agree at every position are equal. *)
Lemma take_lookup_window l (p n : nat) w :
  take n (drop p l) = w →
  ∀ i, (i < length w)%nat → l !! (p + i)%nat = w !! i.
Proof.
  intros <- i Hi. rewrite length_take in Hi.
  rewrite lookup_take_lt by lia. by rewrite lookup_drop.
Qed.
End slices.

(** ** Arrays: in-place updates by index *)

Definition zget {A} (l : list A) (i : Z) : option A :=
  if 0 <=? i then l !! Z.to_nat i else None.
Definition zset {A} (l : list A) (i : Z) (x : A) : list A :=
  if 0 <=? i then <[Z.to_nat i := x]> l else l.

(** [b\[i\] = x] with the run-time bounds check. *)
Definition store_index {A} (l : list A) (i : Z) (x : A) : outcome (list A) :=
  _ ← index l i; mret (zset l i x).

Section arrays.
Context {A : Type}.
Implicit Types (l : list A) (i j : Z) (x y : A).

Lemma length_zset l i x : length (zset l i x) = length l.
Proof. unfold zset. case_match; [apply length_insert|done]. Qed.
Lemma zlen_zset l i x : zlen (zset l i x) = zlen l.
Proof. unfold zlen. by rewrite length_zset. Qed.

Lemma zget_set_eq l i x : 0 ≤ i < zlen l → zget (zset l i x) i = Some x.
Proof.
  intros Hi. unfold zget, zset, zlen in *. destruct (Z.leb_spec 0 i); [|lia].
  apply list_lookup_insert_eq. lia.
Qed.
Lemma zget_set_ne l i j x : i ≠ j → zget (zset l i x) j = zget l j.
Proof.
  intros Hi. unfold zget, zset. destruct (Z.leb_spec 0 i), (Z.leb_spec 0 j); try done.
  apply list_lookup_insert_ne. lia.
Qed.
Lemma zset_comm l i j x y : i ≠ j → zset (zset l i x) j y = zset (zset l j y) i x.
Proof.
  intros Hi. unfold zset. destruct (Z.leb_spec 0 i), (Z.leb_spec 0 j); try done.
  apply list_insert_insert_ne. lia.
Qed.
Lemma zset_twice l i x y : zset (zset l i x) i y = zset l i y.
Proof. unfold zset. case_match; [apply list_insert_insert_eq|done]. Qed.

Lemma zget_Some l i : 0 ≤ i < zlen l → ∃ x, zget l i = Some x.
Proof.
  intros Hi. unfold zget, zlen in *. destruct (Z.leb_spec 0 i); [|lia].
  apply lookup_lt_is_Some. lia.
Qed.
Lemma zget_bounds l i x : zget l i = Some x → 0 ≤ i < zlen l.
Proof.
  unfold zget, zlen. destruct (Z.leb_spec 0 i); [|done]. intros ?%lookup_lt_Some. lia.
Qed.
Lemma index_zget l i x : zget l i = Some x → index l i = Ret x.
Proof.
  intros Hx. pose proof (zget_bounds _ _ _ Hx). apply index_Ret. split; [lia|].
  unfold zget in Hx. destruct (Z.leb_spec 0 i); [done|lia].
Qed.
Lemma store_index_Ret l i x : 0 ≤ i < zlen l → store_index l i x = Ret (zset l i x).
Proof. intros [y Hy]%zget_Some. unfold store_index. by rewrite (index_zget _ _ _ Hy). Qed.
End arrays.
#[export] Hint Rewrite @zlen_zset : zlen.

(** ** Loops that may panic *)

(** [for _, x := range l { f(x) }], for an [f] without effects. *)
Fixpoint for_each {A} (f : A → outcome unit) (l : list A) : outcome unit :=
  match l with
  | [] => mret tt
  | x :: l => _ ← f x; for_each f l
  end.

(** The same loop threading a state. *)
Fixpoint for_state {S A} (f : S → A → outcome S) (s : S) (l : list A) : outcome S :=
  match l with
  | [] => mret s
  | x :: l => s ← f s x; for_state f s l
  end.

Lemma for_each_Ret {A} (f : A → outcome unit) l :
  for_each f l = Ret tt ↔ ∀ x, x ∈ l → f x = Ret tt.
Proof.
  induction l as [|x l IH]; cbn; [split; [set_solver|done]|].
  rewrite outcome_bind_Ret. split.
  - intros ([] & Hx & Hl) y [->|Hy]%elem_of_cons; [done|by apply IH].
  - intros H. exists tt. split; [apply H; by left|]. apply IH. intros y Hy. apply H. by right.
Qed.

Lemma for_state_step {S A} (f : S → A → outcome S) s s' x l :
  f s x = Ret s' → for_state f s (x :: l) = for_state f s' l.
Proof. cbn. by intros ->. Qed.

Lemma for_state_app {S A} (f : S → A → outcome S) s l k :
  for_state f s (l ++ k) = (s ← for_state f s l; for_state f s k).
Proof.
  revert s. induction l as [|x l IH]; intros s; [done|].
  cbn. destruct (f s x); [apply IH|done].
Qed.

Create HintDb onva.
#[export] Hint Rewrite @zlen_app zlen_nil @zlen_cons @zlen_replicate zlen_le_bytes : zlen.

(** Normalises the [zlen] of concatenations and closes the arithmetic. *)
Ltac zlen :=
  autorewrite with zlen in *;
  repeat match goal with
  | |- context [zlen ?l] => unless (0 ≤ zlen l) by assumption; pose proof (zlen_nonneg l)
  | _ : context [zlen ?l] |- _ => unless (0 ≤ zlen l) by assumption; pose proof (zlen_nonneg l)
  end; lia.

(** Linear arithmetic with divisions and remainders by constants. *)
Ltac zdiv := Z.to_euclidean_division_equations; lia.

(** Proves a closed decidable proposition by evaluation. *)
Ltac vm_decide := apply (bool_decide_unpack _); vm_compute; exact I.

#[export] Instance outcome_eq_dec `{EqDecision A} : EqDecision (outcome A).
Proof. solve_decision. Defined.

(** An invariant of the body of a loop holds at its end. *)
Lemma for_state_inv {S A} (P : S → Prop) (f : S → A → outcome S) l s s' :
  (∀ s x s', P s → x ∈ l → f s x = Ret s' → P s') → P s → for_state f s l = Ret s' → P s'.
Proof.
  revert s. induction l as [|x l IH]; intros s Hf Hs; cbn; [by intros [= <-]|].
  intros (s1 & E & H)%outcome_bind_Ret. apply (IH s1); [|eapply Hf; [done|by left|done]|done].
  intros s2 y s3 H2 Hy. apply Hf; [done|by right].
Qed.
