(* ===== verification/Types.v ===== *)
(** * Shared data types (types/types.go)

    The record [Entry] as the data tree stores it, the operation tag of a hot
    entry, and the hot entry [OnvaKV] keeps while a block executes. A Go
    [\[\]byte] whose nil-ness the program observes is an [option bytes]: only
    [Value] is such a field ([isFakeInserted] tests [Value == nil]). *)
From S2P Require Import Prelude.

Record Entry : Type := mkEntry {
  Key : bytes;
  Value : option bytes;
  NextKey : bytes;
  Height : Z;
  LastHeight : Z;
  SerialNum : Z
}.

(** [len(entry.Value)] and the bytes [copy] takes from it: nil is empty. *)
Definition ValueBytes (e : Entry) : bytes := default [] (Value e).

Record EntryX : Type := mkEntryX {
  xEntry : Entry;
  xPos : Z;
  xDeactivedSNList : list Z
}.

Record KeyAndPos : Type := mkKeyAndPos { kpKey : bytes; kpPos : Z }.

Inductive OperationOnEntry : Type :=
| OpNone
| OpDelete
| OpInsertOrChange.

#[export] Instance OperationOnEntry_eq_dec : EqDecision OperationOnEntry.
Proof. solve_decision. Defined.

Record HotEntry : Type := mkHotEntry {
  EntryPtr : Entry;
  Operation : OperationOnEntry;
  IsModified : bool;
  IsTouchedByNext : bool
}.

#[export] Instance Entry_eq_dec : EqDecision Entry.
Proof. solve_decision. Defined.
#[export] Instance HotEntry_eq_dec : EqDecision HotEntry.
Proof. solve_decision. Defined.
