(* ===== verification/ByteOrder.v ===== *)
(** * The order of byte strings ([bytes.Compare])

    The lexicographic order on which the B-trees, RocksDB and all iterators
    agree, and sorted lists of the items of a map. *)
From S2P Require Import Prelude.

Fixpoint bytes_compare (a b : bytes) : comparison :=
  match a, b with
  | [], [] => Eq
  | [], _ :: _ => Lt
  | _ :: _, [] => Gt
  | x :: a, y :: b => match Z.compare x y with Eq => bytes_compare a b | c => c end
  end.

Definition bytes_lt (a b : bytes) : Prop := bytes_compare a b = Lt.
Definition bytes_le (a b : bytes) : Prop := bytes_compare a b ≠ Gt.
(** [bytes.Compare(a, b) < 0] and [>= 0] *)
Definition bytes_ltb (a b : bytes) : bool := match bytes_compare a b with Lt => true | _ => false end.

Infix "<b" := bytes_lt (at level 70) : bytes_scope.
Infix "≤b" := bytes_le (at level 70) : bytes_scope.
Open Scope bytes_scope.

Lemma bytes_compare_refl a : bytes_compare a a = Eq.
Proof. induction a as [|x a IH]; [done|]. cbn. by rewrite Z.compare_refl. Qed.

Lemma bytes_compare_Eq a b : bytes_compare a b = Eq ↔ a = b.
Proof.
  split; [|intros ->; apply bytes_compare_refl]. revert b.
  induction a as [|x a IH]; intros [|y b]; cbn; try done.
  destruct (Z.compare_spec x y) as [->|?|?]; [|done|done]. intros H. by rewrite (IH b H).
Qed.

Lemma bytes_compare_antisym a b : bytes_compare b a = CompOpp (bytes_compare a b).
Proof.
  revert b. induction a as [|x a IH]; intros [|y b]; cbn; try done.
  rewrite (Z.compare_antisym x y). destruct (Z.compare x y); cbn; auto.
Qed.

Lemma bytes_lt_trans a b c : a <b b → b <b c → a <b c.
Proof.
  unfold bytes_lt. revert b c. induction a as [|x a IH]; intros [|y b] [|z c]; cbn; try done.
  destruct (Z.compare_spec x y), (Z.compare_spec y z), (Z.compare_spec x z); try done; try lia.
  apply IH.
Qed.

#[export] Instance bytes_lt_strict : StrictOrder bytes_lt.
Proof.
  split.
  - intros a H. unfold bytes_lt in H. by rewrite bytes_compare_refl in H.
  - intros a b c. apply bytes_lt_trans.
Qed.

#[export] Instance bytes_lt_dec a b : Decision (bytes_lt a b).
Proof. unfold bytes_lt. solve_decision. Defined.
#[export] Instance bytes_le_dec a b : Decision (bytes_le a b).
Proof. unfold bytes_le. solve_decision. Defined.

Lemma bytes_ltb_lt a b : bytes_ltb a b = true ↔ a <b b.
Proof. unfold bytes_ltb, bytes_lt. destruct (bytes_compare a b); naive_solver. Qed.
Lemma bytes_ltb_ge a b : bytes_ltb a b = false ↔ b ≤b a.
Proof.
  unfold bytes_ltb, bytes_le. rewrite (bytes_compare_antisym a b). destruct (bytes_compare a b); naive_solver.
Qed.

Lemma bytes_le_lteq a b : a ≤b b ↔ a <b b ∨ a = b.
Proof.
  unfold bytes_le, bytes_lt. rewrite <- bytes_compare_Eq. destruct (bytes_compare a b); naive_solver.
Qed.
Lemma bytes_nlt_ge a b : ¬ a <b b ↔ b ≤b a.
Proof. rewrite <- bytes_ltb_ge, <- bytes_ltb_lt. destruct (bytes_ltb a b); naive_solver. Qed.
Lemma bytes_nle_gt a b : ¬ a ≤b b ↔ b <b a.
Proof. rewrite <- bytes_nlt_ge. destruct (decide (b <b a)); naive_solver. Qed.
Lemma bytes_le_refl a : a ≤b a.
Proof. apply bytes_le_lteq. by right. Qed.
Lemma bytes_lt_le a b : a <b b → a ≤b b.
Proof. rewrite bytes_le_lteq. by left. Qed.
Lemma bytes_le_lt_trans a b c : a ≤b b → b <b c → a <b c.
Proof. intros [H| ->]%bytes_le_lteq; [by apply bytes_lt_trans|done]. Qed.
Lemma bytes_lt_le_trans a b c : a <b b → b ≤b c → a <b c.
Proof. intros H [H'| <-]%bytes_le_lteq; [by eapply bytes_lt_trans|done]. Qed.
Lemma bytes_le_trans a b c : a ≤b b → b ≤b c → a ≤b c.
Proof. intros [H| ->]%bytes_le_lteq H'; [|done]. by eapply bytes_lt_le, bytes_lt_le_trans. Qed.
Lemma bytes_lt_neq a b : a <b b → a ≠ b.
Proof. intros H ->. by apply (irreflexivity bytes_lt b). Qed.
Lemma bytes_le_antisym a b : a ≤b b → b ≤b a → a = b.
Proof.
  intros [H|?]%bytes_le_lteq H'; [|done]. exfalso. apply (irreflexivity bytes_lt a).
  by eapply bytes_lt_le_trans.
Qed.
Lemma bytes_lt_total a b : a <b b ∨ a = b ∨ b <b a.
Proof.
  destruct (decide (a <b b)) as [|H]; [by left|right]. apply bytes_nlt_ge, bytes_le_lteq in H. naive_solver.
Qed.
Lemma bytes_nil_le a : [] ≤b a.
Proof. by destruct a. Qed.

(** ** Prefixes and suffixes *)

Lemma bytes_compare_prefix p a b : bytes_compare (p ++ a) (p ++ b) = bytes_compare a b.
Proof. induction p as [|x p IH]; [done|]. cbn. by rewrite Z.compare_refl. Qed.

(** Strings of the same length are compared before their suffixes. *)
Lemma bytes_compare_app a b c d : length a = length b →
  bytes_compare (a ++ c) (b ++ d) = match bytes_compare a b with Eq => bytes_compare c d | r => r end.
Proof.
  revert b. induction a as [|x a IH]; intros [|y b]; cbn; try done.
  intros [= H]. destruct (Z.compare x y); auto.
Qed.

(** Big-endian numbers are ordered like numbers. *)
Lemma be_bytes_S n z : be_bytes (S n) z = be_bytes n (z / 256) ++ [z mod 256].
Proof. done. Qed.

Lemma length_be_bytes n z : length (be_bytes n z) = n.
Proof. unfold be_bytes. by rewrite length_rev, length_le_bytes. Qed.

Lemma be_bytes_compare n x y : 0 ≤ x < 2 ^ (8 * Z.of_nat n) → 0 ≤ y < 2 ^ (8 * Z.of_nat n) →
  bytes_compare (be_bytes n x) (be_bytes n y) = Z.compare x y.
Proof.
  revert x y. induction n as [|n IH]; intros x y Hx Hy.
  { change (2 ^ (8 * Z.of_nat 0)) with 1 in *. replace x with y by lia. by rewrite Z.compare_refl. }
  rewrite !be_bytes_S, bytes_compare_app by (by rewrite !length_be_bytes).
  rewrite Nat2Z.inj_succ, Z.mul_succ_r, Z.add_comm, Z.pow_add_r in Hx, Hy by lia. change (2 ^ 8) with 256 in *.
  assert (∀ z p, 0 ≤ z < 256 * p → 0 ≤ z / 256 < p) as Hd by (intros; zdiv).
  rewrite IH by (by apply Hd). cbn.
  destruct (Z.compare_spec (x / 256) (y / 256)), (Z.compare_spec x y); try zdiv;
    destruct (Z.compare_spec (x mod 256) (y mod 256)); try done; zdiv.
Qed.

Lemma be_bytes_inj n x y : 0 ≤ x < 2 ^ (8 * Z.of_nat n) → 0 ≤ y < 2 ^ (8 * Z.of_nat n) →
  be_bytes n x = be_bytes n y → x = y.
Proof.
  intros Hx Hy H. apply Z.compare_eq. rewrite <- (be_bytes_compare n) by done. by apply bytes_compare_Eq.
Qed.

(** ** The items of a map, in order *)

Section items.
Context {V : Type}.
Implicit Types (m : gmap bytes V) (l : list (bytes * V)).

Definition key_lt (a b : bytes * V) : Prop := a.1 <b b.1.
Definition key_gt (a b : bytes * V) : Prop := b.1 <b a.1.

(** [l] lists the items whose keys satisfy [P], in the order [R]. *)
Definition items_in (R : bytes * V → bytes * V → Prop) m (P : bytes → Prop) l : Prop :=
  StronglySorted R l ∧ ∀ k v, (k, v) ∈ l ↔ m !! k = Some v ∧ P k.

Definition ascending := items_in key_lt.
Definition descending := items_in key_gt.

#[export] Instance key_lt_irrefl : Irreflexive key_lt.
Proof. intros [k v] H. by apply (irreflexivity bytes_lt k). Qed.
#[export] Instance key_gt_irrefl : Irreflexive key_gt.
Proof. intros [k v] H. by apply (irreflexivity bytes_lt k). Qed.

Lemma sorted_ext (R : bytes * V → bytes * V → Prop) l k :
  (∀ x y, R x y → R y x → False) → Irreflexive R →
  StronglySorted R l → StronglySorted R k → (∀ x, x ∈ l ↔ x ∈ k) → l = k.
Proof.
  intros Has Hirr Hl. revert k. induction Hl as [|x l Hl IH Hx]; intros k Hk Hin.
  { destruct k as [|y k]; [done|]. exfalso. apply (not_elem_of_nil y), Hin. by left. }
  destruct Hk as [|y k Hk Hy]; [exfalso; apply (not_elem_of_nil x), Hin; by left|].
  rewrite Forall_forall in Hx, Hy.
  assert (x = y) as ->.
  { assert (x ∈ y :: k) as Hxk by (apply Hin; by left). assert (y ∈ x :: l) as Hyl by (apply Hin; by left).
    apply elem_of_cons in Hxk as [?|Hxk]; [done|]. apply elem_of_cons in Hyl as [?|Hyl]; [done|].
    destruct (Has x y); auto. }
  f_equal. apply IH; [done|]. intros z. split; intros Hz.
  - assert (z ∈ y :: k) as Hz' by (apply Hin; by right). apply elem_of_cons in Hz' as [->|?]; [|done].
    destruct (Hirr y). by apply Hx.
  - assert (z ∈ y :: l) as Hz' by (apply Hin; by right). apply elem_of_cons in Hz' as [->|?]; [|done].
    destruct (Hirr y). by apply Hy.
Qed.

Lemma ascending_unique m P l k : ascending m P l → ascending m P k → l = k.
Proof.
  intros [Sl Hl] [Sk Hk]. eapply sorted_ext; [|apply key_lt_irrefl|done|done|].
  - intros [a v] [b w] H1 H2. apply (irreflexivity bytes_lt a). by eapply bytes_lt_trans.
  - intros [a v]. by rewrite Hl, Hk.
Qed.
Lemma descending_unique m P l k : descending m P l → descending m P k → l = k.
Proof.
  intros [Sl Hl] [Sk Hk]. eapply sorted_ext; [|apply key_gt_irrefl|done|done|].
  - intros [a v] [b w] H1 H2. apply (irreflexivity bytes_lt a). by eapply bytes_lt_trans.
  - intros [a v]. by rewrite Hl, Hk.
Qed.

(** The first and the last item whose key satisfies [P]. *)
Definition first_in m (P : bytes → Prop) (o : option (bytes * V)) : Prop :=
  match o with
  | Some (k, v) => m !! k = Some v ∧ P k ∧ ∀ k', P k' → is_Some (m !! k') → k ≤b k'
  | None => ∀ k, P k → m !! k = None
  end.
Definition last_in m (P : bytes → Prop) (o : option (bytes * V)) : Prop :=
  match o with
  | Some (k, v) => m !! k = Some v ∧ P k ∧ ∀ k', P k' → is_Some (m !! k') → k' ≤b k
  | None => ∀ k, P k → m !! k = None
  end.

Lemma first_in_unique m P o o' : first_in m P o → first_in m P o' → o = o'.
Proof.
  destruct o as [[k v]|], o' as [[k' v']|]; cbn.
  - intros (Hm & HP & Hle) (Hm' & HP' & Hle').
    assert (k = k') as -> by (apply bytes_le_antisym; [apply Hle|apply Hle']; eauto). congruence.
  - intros (Hm & HP & _) H. rewrite (H k HP) in Hm. done.
  - intros H (Hm & HP & _). rewrite (H k' HP) in Hm. done.
  - done.
Qed.

Lemma last_in_unique m P o o' : last_in m P o → last_in m P o' → o = o'.
Proof.
  destruct o as [[k v]|], o' as [[k' v']|]; cbn.
  - intros (Hm & HP & Hle) (Hm' & HP' & Hle').
    assert (k = k') as -> by (apply bytes_le_antisym; [apply Hle'|apply Hle]; eauto). congruence.
  - intros (Hm & HP & _) H. rewrite (H k HP) in Hm. done.
  - intros H (Hm & HP & _). rewrite (H k' HP) in Hm. done.
  - done.
Qed.

(** Searching a list of items for the extreme one. *)
Definition better (first : bool) (a b : bytes * V) : bool :=
  if first then bytes_ltb a.1 b.1 else bytes_ltb b.1 a.1.
Fixpoint extreme (first : bool) (l : list (bytes * V)) : option (bytes * V) :=
  match l with
  | [] => None
  | x :: l => match extreme first l with None => Some x | Some y => Some (if better first y x then y else x) end
  end.

Lemma extreme_spec first l : match extreme first l with
  | None => l = []
  | Some x => x ∈ l ∧ ∀ y, y ∈ l → if first then x.1 ≤b y.1 else y.1 ≤b x.1
  end.
Proof.
  induction l as [|x l IH]; [done|]. cbn. destruct (extreme first l) as [y|].
  2:{ subst l. split; [by left|]. intros y ->%list_elem_of_singleton. destruct first; apply bytes_le_refl. }
  destruct IH as [Hy Hle]. unfold better. destruct first.
  - destruct (bytes_ltb y.1 x.1) eqn:E; [apply bytes_ltb_lt in E|apply bytes_ltb_ge in E].
    + split; [by right|]. intros z [->|Hz]%elem_of_cons; [by apply bytes_lt_le|auto].
    + split; [by left|]. intros z [->|Hz]%elem_of_cons; [apply bytes_le_refl|]. eapply bytes_le_trans; [done|auto].
  - destruct (bytes_ltb x.1 y.1) eqn:E; [apply bytes_ltb_lt in E|apply bytes_ltb_ge in E].
    + split; [by right|]. intros z [->|Hz]%elem_of_cons; [by apply bytes_lt_le|auto].
    + split; [by left|]. intros z [->|Hz]%elem_of_cons; [apply bytes_le_refl|]. eapply bytes_le_trans; [|done]. auto.
Qed.

Definition find_first m (P : bytes → bool) : option (bytes * V) :=
  extreme true (filter (λ x, P x.1 = true) (map_to_list m)).
Definition find_last m (P : bytes → bool) : option (bytes * V) :=
  extreme false (filter (λ x, P x.1 = true) (map_to_list m)).

Lemma find_first_spec m (P : bytes → bool) : first_in m (λ k, P k = true) (find_first m P).
Proof.
  unfold find_first. pose proof (extreme_spec true (filter (λ x, P x.1 = true) (map_to_list m))) as H.
  destruct (extreme true _) as [[k v]|]; cbn.
  - destruct H as [[HP Hin%elem_of_map_to_list]%list_elem_of_filter Hle]. split_and!; [done|done|].
    intros k' HP' [v' Hv']. apply (Hle (k', v')). apply list_elem_of_filter. split; [done|by apply elem_of_map_to_list].
  - intros k HP. apply eq_None_not_Some. intros [v Hv%elem_of_map_to_list].
    apply (not_elem_of_nil (k, v)). rewrite <- H. by apply list_elem_of_filter.
Qed.
Lemma find_last_spec m (P : bytes → bool) : last_in m (λ k, P k = true) (find_last m P).
Proof.
  unfold find_last. pose proof (extreme_spec false (filter (λ x, P x.1 = true) (map_to_list m))) as H.
  destruct (extreme false _) as [[k v]|]; cbn.
  - destruct H as [[HP Hin%elem_of_map_to_list]%list_elem_of_filter Hle]. split_and!; [done|done|].
    intros k' HP' [v' Hv']. apply (Hle (k', v')). apply list_elem_of_filter. split; [done|by apply elem_of_map_to_list].
  - intros k HP. apply eq_None_not_Some. intros [v Hv%elem_of_map_to_list].
    apply (not_elem_of_nil (k, v)). rewrite <- H. by apply list_elem_of_filter.
Qed.
End items.

(** ** Sorting the items *)

Section sorting.
Context {V : Type}.
Implicit Types (m : gmap bytes V) (l : list (bytes * V)) (P : bytes → Prop).

Definition key_le (a b : bytes * V) : Prop := a.1 ≤b b.1.
#[export] Instance key_le_dec a b : Decision (key_le a b).
Proof. unfold key_le. apply _. Defined.
#[export] Instance key_le_total : Total key_le.
Proof.
  intros a b. unfold key_le. destruct (bytes_lt_total a.1 b.1) as [H|[H|H]].
  - left. by apply bytes_lt_le.
  - left. rewrite H. apply bytes_le_refl.
  - right. by apply bytes_lt_le.
Qed.
#[export] Instance key_le_trans : Transitive key_le.
Proof. intros a b c. unfold key_le. apply bytes_le_trans. Qed.

Definition items (P : bytes → bool) m : list (bytes * V) :=
  merge_sort key_le (filter (λ x, P x.1 = true) (map_to_list m)).

Lemma strict_of_le l : StronglySorted key_le l → NoDup l.*1 → StronglySorted key_lt l.
Proof.
  induction 1 as [|x l Hs IH Hx]; intros Hn; [constructor|]. cbn in Hn. apply NoDup_cons in Hn as [Hni Hn].
  constructor; [by apply IH|]. rewrite Forall_forall in Hx |- *. intros y Hy. specialize (Hx y Hy).
  apply bytes_le_lteq in Hx as [?|E]; [done|]. destruct Hni. apply list_elem_of_fmap. by exists y.
Qed.

Lemma filter_keys_NoDup (P : bytes → bool) (l : list (bytes * V)) :
  NoDup l.*1 → NoDup (filter (λ x, P x.1 = true) l).*1.
Proof.
  induction l as [|x l IH]; intros Hn; [constructor|]. cbn in Hn. apply NoDup_cons in Hn as [Hni Hn].
  rewrite filter_cons. case_decide; [|by apply IH]. cbn. apply NoDup_cons. split; [|by apply IH].
  intros (y & E & [_ Hy]%list_elem_of_filter)%list_elem_of_fmap. destruct Hni. apply list_elem_of_fmap. by exists y.
Qed.

Lemma items_ascending (P : bytes → bool) m : ascending m (λ k, P k = true) (items P m).
Proof.
  unfold items. split.
  - apply strict_of_le; [apply (StronglySorted_merge_sort key_le)|].
    rewrite merge_sort_Permutation. apply filter_keys_NoDup, NoDup_fst_map_to_list.
  - intros k v. rewrite merge_sort_Permutation, list_elem_of_filter, elem_of_map_to_list. cbn. tauto.
Qed.

Lemma StronglySorted_snoc {A} (R : A → A → Prop) (k : list A) x :
  StronglySorted R k → Forall (λ y, R y x) k → StronglySorted R (k ++ [x]).
Proof.
  intros Hs. induction Hs as [|y k Hs IH Hy]; intros Hx; cbn; [repeat constructor|].
  apply Forall_cons in Hx as [Hyx Hx]. constructor; [by apply IH|]. apply Forall_app. split; [done|by repeat constructor].
Qed.

Lemma descending_rev m P l : ascending m P l → descending m P (rev l).
Proof.
  intros [Hs Hin]. split.
  - clear Hin. induction Hs as [|x l Hs IH Hx]; [constructor|]. cbn. apply StronglySorted_snoc; [done|].
    rewrite Forall_forall in Hx |- *. intros y Hy. apply Hx. by rewrite list_elem_of_In, <- in_rev, <- list_elem_of_In in Hy.
  - intros k v. by rewrite <- Hin, !list_elem_of_In, <- in_rev.
Qed.

(** The head of a sorted list of items is the first of them. *)
Lemma ascending_cons m P k v l : ascending m P ((k, v) :: l) →
  first_in m P (Some (k, v)) ∧ ascending m (λ k', P k' ∧ k <b k') l.
Proof.
  intros [Hs Hin]. inversion Hs as [|? ? Hs' Hx]; subst. rewrite Forall_forall in Hx.
  destruct (proj1 (Hin k v)) as [Hm HP]; [by left|]. split.
  - split_and!; [done|done|]. intros k' HP' [v' Hv']. assert ((k', v') ∈ (k, v) :: l) as [[= -> ->]|Hk]%elem_of_cons by (by apply Hin);
      [apply bytes_le_refl|]. by apply bytes_lt_le, (Hx (k', v')).
  - split; [done|]. intros k' v'. split.
    + intros Hk. destruct (proj1 (Hin k' v')) as [? ?]; [by right|]. split_and!; [done|done|]. by apply (Hx (k', v')).
    + intros (Hm' & HP' & Hlt). assert ((k', v') ∈ (k, v) :: l) as [[= -> ->]|Hk]%elem_of_cons by (by apply Hin);
      [by apply (irreflexivity bytes_lt) in Hlt|done].
Qed.
Lemma descending_cons m P k v l : descending m P ((k, v) :: l) →
  last_in m P (Some (k, v)) ∧ descending m (λ k', P k' ∧ k' <b k) l.
Proof.
  intros [Hs Hin]. inversion Hs as [|? ? Hs' Hx]; subst. rewrite Forall_forall in Hx.
  destruct (proj1 (Hin k v)) as [Hm HP]; [by left|]. split.
  - split_and!; [done|done|]. intros k' HP' [v' Hv']. assert ((k', v') ∈ (k, v) :: l) as [[= -> ->]|Hk]%elem_of_cons by (by apply Hin);
      [apply bytes_le_refl|]. by apply bytes_lt_le, (Hx (k', v')).
  - split; [done|]. intros k' v'. split.
    + intros Hk. destruct (proj1 (Hin k' v')) as [? ?]; [by right|]. split_and!; [done|done|]. by apply (Hx (k', v')).
    + intros (Hm' & HP' & Hlt). assert ((k', v') ∈ (k, v) :: l) as [[= -> ->]|Hk]%elem_of_cons by (by apply Hin);
      [by apply (irreflexivity bytes_lt) in Hlt|done].
Qed.

Lemma ascending_nil m P : ascending m P [] → ∀ k, P k → m !! k = None.
Proof.
  intros [_ Hin] k HP. apply eq_None_not_Some. intros [v Hv]. apply (not_elem_of_nil (k, v)). by apply Hin.
Qed.
Lemma descending_nil m P : descending m P [] → ∀ k, P k → m !! k = None.
Proof.
  intros [_ Hin] k HP. apply eq_None_not_Some. intros [v Hv]. apply (not_elem_of_nil (k, v)). by apply Hin.
Qed.

Lemma items_in_iff R m P Q l : (∀ k, is_Some (m !! k) → P k ↔ Q k) → items_in R m P l → items_in R m Q l.
Proof.
  intros HPQ [Hs Hin]. split; [done|]. intros k v. rewrite Hin. split; intros [Hm H]; (split; [done|]);
    by apply (HPQ k ltac:(by eexists)).
Qed.

Lemma ascending_length m P l : ascending m P l → (length l ≤ size m)%nat.
Proof.
  intros [Hs Hin]. rewrite <- length_map_to_list. apply NoDup_incl_length.
  - clear Hin. induction Hs as [|x l Hs IH Hx]; constructor; [|done]. rewrite Forall_forall in Hx.
    intros Hx'. apply list_elem_of_In in Hx'. by apply (irreflexivity bytes_lt x.1), (Hx x).
  - intros [k v] H%list_elem_of_In. apply list_elem_of_In, elem_of_map_to_list, (Hin k v). done.
Qed.
End sorting.

(** The same first and last item for the same set of keys. *)
Lemma first_in_iff {V} (m : gmap bytes V) (P Q : bytes → Prop) o : (∀ k, P k ↔ Q k) → first_in m P o → first_in m Q o.
Proof. intros HPQ. destruct o as [[k v]|]; cbn; naive_solver. Qed.
Lemma last_in_iff {V} (m : gmap bytes V) (P Q : bytes → Prop) o : (∀ k, P k ↔ Q k) → last_in m P o → last_in m Q o.
Proof. intros HPQ. destruct o as [[k v]|]; cbn; naive_solver. Qed.

(** Searching a set of keys closed upwards, within bounds closed downwards:
    the first item of the set is the first one of the list within the bounds,
    or beyond the bounds when the list is empty; and the other way round. *)
Lemma first_in_ascending {V} (m : gmap bytes V) (P Q : bytes → Prop) o l :
  (∀ k k', P k → k <b k' → P k') → (∀ k k', Q k' → k <b k' → Q k) → first_in m P o → ascending m (λ k, P k ∧ Q k) l →
  match l with
  | [] => ∀ k v, o = Some (k, v) → ¬ Q k
  | (k, v) :: l' => o = Some (k, v) ∧ Q k ∧ ascending m (λ k', k <b k' ∧ Q k') l'
  end.
Proof.
  intros Hup Hdown Ho Hl. destruct l as [|[k v] l].
  - intros k v -> HQ. destruct Ho as (Hk & HP & _). by rewrite (ascending_nil _ _ Hl k) in Hk.
  - apply ascending_cons in Hl as [(Hk & [HP HQ] & Hmin) Hl]. split_and!; [|done|].
    + destruct o as [[k1 v1]|]; [|by rewrite (Ho k) in Hk]. destruct Ho as (Hk1 & HP1 & Hmin1).
      assert (k1 = k) as ->; [|congruence]. pose proof (Hmin1 k HP ltac:(by eexists)) as [Hlt| ?]%bytes_le_lteq; [|done].
      apply bytes_le_antisym; [by apply bytes_lt_le|]. apply Hmin; [|by eexists]. split; [done|]. by eapply Hdown.
    + eapply items_in_iff; [|exact Hl]. intros k' _. split; [tauto|]. intros [? ?]. split_and!; [by eapply Hup|done|done].
Qed.
Lemma last_in_descending {V} (m : gmap bytes V) (P Q : bytes → Prop) o l :
  (∀ k k', P k' → k <b k' → P k) → (∀ k k', Q k → k <b k' → Q k') → last_in m P o → descending m (λ k, P k ∧ Q k) l →
  match l with
  | [] => ∀ k v, o = Some (k, v) → ¬ Q k
  | (k, v) :: l' => o = Some (k, v) ∧ Q k ∧ descending m (λ k', k' <b k ∧ Q k') l'
  end.
Proof.
  intros Hdown Hup Ho Hl. destruct l as [|[k v] l].
  - intros k v -> HQ. destruct Ho as (Hk & HP & _). by rewrite (descending_nil _ _ Hl k) in Hk.
  - apply descending_cons in Hl as [(Hk & [HP HQ] & Hmax) Hl]. split_and!; [|done|].
    + destruct o as [[k1 v1]|]; [|by rewrite (Ho k) in Hk]. destruct Ho as (Hk1 & HP1 & Hmax1).
      assert (k1 = k) as ->; [|congruence]. pose proof (Hmax1 k HP ltac:(by eexists)) as [Hlt| ?]%bytes_le_lteq; [|done].
      apply bytes_le_antisym; [|by apply bytes_lt_le]. apply Hmax; [|by eexists]. split; [done|]. by eapply Hup.
    + eapply items_in_iff; [|exact Hl]. intros k' _. split; [tauto|]. intros [? ?]. split_and!; [by eapply Hdown|done|done].
Qed.

(** Where the enumerators of a reverse iterator over [..., end) stand. *)
Lemma last_in_hit {V} (m : gmap bytes V) end_ o : is_Some (m !! end_) → last_in m (λ k, k ≤b end_) o → ∃ v, o = Some (end_, v).
Proof.
  intros Hhit Ho. destruct o as [[k v]|]; [|by rewrite (Ho end_ (bytes_le_refl _)) in Hhit; destruct Hhit].
  destruct Ho as (Hk & Hle & Hmax). exists v. by rewrite (bytes_le_antisym k end_ Hle (Hmax end_ (bytes_le_refl _) Hhit)).
Qed.

(** The items of a map whose values are mapped. *)
Definition map_items {V W} (f : V → W) (l : list (bytes * V)) : list (bytes * W) := prod_map id f <$> l.
Lemma elem_of_map_items {V W} (f : V → W) l k w : (k, w) ∈ map_items f l ↔ ∃ v, w = f v ∧ (k, v) ∈ l.
Proof.
  unfold map_items. rewrite list_elem_of_fmap. split.
  - intros [[k' v] [[= -> ->] H]]. eauto.
  - intros (v & -> & H). exists (k, v). done.
Qed.
Lemma sorted_map_items {V W} (f : V → W) (R : bytes * V → bytes * V → Prop) (R' : bytes * W → bytes * W → Prop) l :
  (∀ x y, R x y → R' (prod_map id f x) (prod_map id f y)) → StronglySorted R l → StronglySorted R' (map_items f l).
Proof.
  intros HR. induction 1 as [|x l Hs IH Hx]; cbn; constructor; [done|]. apply Forall_fmap. eapply Forall_impl; [done|]. intros y. apply HR.
Qed.
Lemma ascending_fmap {V W} (f : V → W) (m : gmap bytes V) P l : ascending m P l → ascending (f <$> m) P (map_items f l).
Proof.
  intros [Hs Hin]. split; [eapply sorted_map_items; [|done]; by intros [] []|]. intros k w.
  rewrite elem_of_map_items, lookup_fmap, fmap_Some. setoid_rewrite Hin. naive_solver.
Qed.
Lemma descending_fmap {V W} (f : V → W) (m : gmap bytes V) P l : descending m P l → descending (f <$> m) P (map_items f l).
Proof.
  intros [Hs Hin]. split; [eapply sorted_map_items; [|done]; by intros [] []|]. intros k w.
  rewrite elem_of_map_items, lookup_fmap, fmap_Some. setoid_rewrite Hin. naive_solver.
Qed.

(** The keys from [start] on and below [end_]. *)
Definition in_bounds (start end_ k : bytes) : Prop := start ≤b k ∧ k <b end_.
Lemma ascending_bounds_nil {V} (m : gmap bytes V) start end_ l : ¬ start <b end_ → ascending m (in_bounds start end_) l → l = [].
Proof.
  intros Hn [_ Hl]. destruct l as [|[k v] l]; [done|]. destruct (proj1 (Hl k v)) as (_ & H1 & H2); [by left|].
  destruct Hn. by eapply bytes_le_lt_trans.
Qed.
Lemma descending_bounds_nil {V} (m : gmap bytes V) start end_ l : ¬ start <b end_ → descending m (in_bounds start end_) l → l = [].
Proof.
  intros Hn [_ Hl]. destruct l as [|[k v] l]; [done|]. destruct (proj1 (Hl k v)) as (_ & H1 & H2); [by left|].
  destruct Hn. by eapply bytes_le_lt_trans.
Qed.
Definition bounded (start end_ k : bytes) : bool := negb (bytes_ltb k start) && bytes_ltb k end_.
Lemma bounded_iff start end_ k : bounded start end_ k = true ↔ in_bounds start end_ k.
Proof. unfold bounded, in_bounds. by rewrite andb_true_iff, negb_true_iff, bytes_ltb_ge, bytes_ltb_lt. Qed.
Lemma bounded_items {V} (m : gmap bytes V) start end_ : ascending m (in_bounds start end_) (items (bounded start end_) m).
Proof. eapply items_in_iff; [|apply items_ascending]. intros k _. apply bounded_iff. Qed.
