(* ===== verification/EntryCodec.v ===== *)
(** * The on-disk encoding of entries (datatree/entryfile.go, lines 11 to 326)

    An entry record starts (after the eight magic bytes the entry file adds)
    with a one-byte count of deactivated serial numbers and a three-byte
    length; then comes the list of the payload positions where the magic
    bytes were overwritten with zeros, the terminator [0xFFFFFFFF], the
    payload, and the deactivated serial numbers. *)
From S2P Require Import Prelude Types.

Definition MaxEntryBytes : Z := 2 ^ 24 - 1.
Definition MagicBytes : bytes := [255; 254; 253; 252; 252; 253; 254; 255].

Definition dummy_str : bytes := [100; 117; 109; 109; 121].

Definition DummyEntry (sn : Z) : Entry :=
  mkEntry dummy_str (Some dummy_str) dummy_str (-2) (-2) sn.

Definition NullEntry : Entry := mkEntry [] (Some []) [] (-1) (-1) (-1).

Definition PutUint24 (n : Z) : bytes := le_bytes 3 n.

Definition GetUint24 (b : bytes) : outcome Z :=
  b0 ← index b 0; b1 ← index b 1; b2 ← index b 2;
  mret (Z.lor (Z.lor b0 (Z.shiftl b1 8)) (Z.shiftl b2 16)).

(** [binary.LittleEndian.Uint32(b\[i:i+4\])] and its 64-bit version. *)
Definition Uint32At (b : bytes) (i : Z) : outcome Z :=
  w ← slice b i (i + 4); mret (le_val w).
Definition Int64At (b : bytes) (i : Z) : outcome Z :=
  w ← slice b i (i + 8); mret (to_int64 (le_val w)).

(** ** Searching for the magic bytes *)

Definition has_prefix (s sep : bytes) : bool :=
  bool_decide (take (length sep) s = sep).

(** [bytes.Index]: the first position where [sep] occurs in [s]. *)
Fixpoint Index (s sep : bytes) : option nat :=
  if has_prefix s sep then Some O
  else match s with
       | [] => None
       | _ :: s => S <$> Index s sep
       end.

Fixpoint getAllPos_from (fuel : nat) (s sep : bytes) (start : nat) : list nat :=
  match fuel with
  | O => []
  | S fuel =>
      if (start + length sep <? length s)%nat then
        match Index (drop start s) sep with
        | None => []
        | Some pos =>
            (pos + start)%nat ::
            getAllPos_from fuel s sep (start + (pos + length sep))
        end
      else []
  end.

(** Every iteration advances [start] by at least [len(sep)], so [len(s)]
    iterations are enough (lemma [getAllPos_fuel]). *)
Definition getAllPos (s sep : bytes) : list nat :=
  getAllPos_from (length s) s sep 0.

(** ** Writing *)

Definition SNListToBytes (deactivedSerialNumList : list Z) : bytes :=
  concat (map (le_bytes 8) deactivedSerialNumList).

(** The three length-prefixed strings, the part searched for magic bytes. *)
Definition payload_strings (e : Entry) : bytes :=
  le_bytes 4 (zlen (Key e)) ++ Key e ++
  le_bytes 4 (zlen (ValueBytes e)) ++ ValueBytes e ++
  le_bytes 4 (zlen (NextKey e)) ++ NextKey e.

Definition payload_ints (e : Entry) : bytes :=
  le_bytes 8 (Height e) ++ le_bytes 8 (LastHeight e) ++ le_bytes 8 (SerialNum e).

Definition writeEntryPayload (e : Entry) (sns : list Z) : bytes :=
  payload_strings e ++ payload_ints e ++ SNListToBytes sns.

Definition zeroBuf : bytes := replicate 8 0.

(** [for _, pos := range ps { copy(b\[pos:pos+8\], w) }]. *)
Definition overwrite (w b : bytes) (ps : list nat) : bytes :=
  foldl (λ b p, splice b p w) b ps.

(** The loop overwriting each occurrence of the magic bytes with zeros. *)
Definition zero_magic (b : bytes) (ps : list nat) : bytes := overwrite zeroBuf b ps.

Definition entry_length (e : Entry) (sns : list Z) : Z :=
  4 + 4
  + (4 * 3 + zlen (Key e) + zlen (ValueBytes e) + zlen (NextKey e))
  + 8 * 3
  + zlen sns * 8.

Definition EntryToBytes (e : Entry) (sns : list Z) : bytes :=
  let length := entry_length e sns in
  let b := writeEntryPayload e sns in
  let stop := length - zlen sns * 8 - 3 * 8 - 8 in
  let magicBytesPosList := getAllPos (take (Z.to_nat stop) b) MagicBytes in
  match magicBytesPosList with
  | [] =>
      [to_uint 8 (zlen sns)] ++ PutUint24 (length - 4 - zlen sns * 8) ++
      le_bytes 4 MaxUint32 ++ b
  | _ =>
      let b := zero_magic b magicBytesPosList in
      let bytesAdded := 4 * zlen magicBytesPosList in
      let length := length + bytesAdded in
      [to_uint 8 (zlen sns)] ++ PutUint24 (length - 4 - zlen sns * 8) ++
      concat (map (λ pos, le_bytes 4 (Z.of_nat pos + bytesAdded)) magicBytesPosList) ++
      le_bytes 4 MaxUint32 ++ b
  end.

Definition ExtractSerialNum (entryBz : bytes) : outcome Z :=
  Int64At entryBz (zlen entryBz - 8).

Definition UpdateSerialNum (entryBz : bytes) (sn : Z) : outcome bytes :=
  _ ← slice entryBz (zlen entryBz - 8) (zlen entryBz);
  mret (splice entryBz (length entryBz - 8) (le_bytes 8 sn)).

(** ** Reading *)

Fixpoint read_SNs (b : bytes) (i : Z) (n : nat) : outcome (list Z) :=
  match n with
  | O => mret []
  | S n =>
      sn ← Int64At b i;
      rest ← read_SNs b (i + 8) n;
      mret (sn :: rest)
  end.

Definition EntryFromBytes (b : bytes) (numberOfSN : nat) : outcome (Entry * list Z) :=
  let i := 0 in
  length ← Uint32At b i;
  let i := i + 4 in
  key ← slice b i (i + length);
  let i := i + length in
  length ← Uint32At b i;
  let i := i + 4 in
  value ← slice b i (i + length);
  let i := i + length in
  length ← Uint32At b i;
  let i := i + 4 in
  nextKey ← slice b i (i + length);
  let i := i + length in
  height ← Int64At b i;
  let i := i + 8 in
  lastHeight ← Int64At b i;
  let i := i + 8 in
  serialNum ← Int64At b i;
  let i := i + 8 in
  sns ← read_SNs b i numberOfSN;
  mret (mkEntry key (Some value) nextKey height lastHeight serialNum, sns).

(** The loop of [recoverMagicBytes], from index [n]; the copy writes the magic
    bytes at [pos + 4], inside the same buffer. *)
Fixpoint recoverMagicBytes_from (fuel : nat) (b : bytes) (n : Z) : outcome (bytes * Z) :=
  match fuel with
  | O => Panic "out of fuel"
  | S fuel =>
      if n + 4 <? zlen b then
        pos ← Uint32At b n;
        if pos =? MaxUint32 then mret (b, n + 4)
        else if MaxEntryBytes <=? pos then Panic "Position to large"
        else
          _ ← slice b (pos + 4) (pos + 12);
          recoverMagicBytes_from fuel (splice b (Z.to_nat (pos + 4)) MagicBytes) (n + 4)
      else mret (b, n)
  end.

(** [n] grows by four at each iteration and stays below [len(b)]. *)
Definition recoverMagicBytes (b : bytes) : outcome (bytes * Z) :=
  recoverMagicBytes_from (S (length b)) b 0.

(** [(bb\[0\]&bb\[1\]&bb\[2\]&bb\[3\]) == 0xFF]: no magic bytes to recover. *)
Definition no_magic_marker (bb : bytes) : outcome bool :=
  b0 ← index bb 0; b1 ← index bb 1; b2 ← index bb 2; b3 ← index bb 3;
  mret (Z.land (Z.land (Z.land b0 b1) b2) b3 =? 255).

Definition ExtractKeyFromRawBytes (b : bytes) : outcome bytes :=
  bb ← slice b 4 (zlen b);
  plain ← no_magic_marker bb;
  if (plain : bool) then
    length ← Uint32At bb 4;
    slice bb 8 (8 + length)
  else
    '(bb, n) ← recoverMagicBytes bb;
    bb ← slice bb n (zlen bb);
    length ← Uint32At bb 0;
    slice bb 4 (4 + length).

Definition EntryFromRawBytes (b : bytes) : outcome Entry :=
  bb ← slice b 4 (zlen b);
  plain ← no_magic_marker bb;
  if (plain : bool) then
    bb ← slice bb 4 (zlen bb);
    fst <$> EntryFromBytes bb 0
  else
    '(bb, n) ← recoverMagicBytes bb;
    bb ← slice bb (n + 4) (zlen bb);
    fst <$> EntryFromBytes bb 0.

(** The part of [readEntry] after the record is in memory: recover the magic
    bytes in [b\[12:\]] and drop the position list. *)
Definition recover_payload (b : bytes) : outcome bytes :=
  '(b, n) ← recoverMagicBytes b;
  slice b n (zlen b).

Definition getPaddingSize (length : Z) : Z :=
  let rem := Z.rem length 8 in
  if rem =? 0 then 0 else 8 - rem.

Definition getNextPos (off length : Z) : Z :=
  let length := length + (8 + 4) in
  let paddingSize := getPaddingSize length in
  off + (length + paddingSize).

(** ** Lemmas: searching *)

Definition occurs (s sep : bytes) (p : nat) : Prop :=
  take (length sep) (drop p s) = sep.

#[export] Instance occurs_dec s sep p : Decision (occurs s sep p).
Proof. unfold occurs; apply _. Defined.

Lemma occurs_bound s sep p : occurs s sep p → (p + length sep ≤ length s)%nat ∨ sep = [].
Proof.
  unfold occurs. intros H. destruct sep as [|x sep]; [by right|left].
  apply (f_equal length) in H. rewrite length_take, length_drop in H. cbn [length] in *. lia.
Qed.

Lemma occurs_lookup s sep p :
  occurs s sep p → ∀ i, (i < length sep)%nat → s !! (p + i)%nat = sep !! i.
Proof. apply take_lookup_window. Qed.

Lemma occurs_intro s sep p :
  (p + length sep ≤ length s)%nat →
  (∀ i, (i < length sep)%nat → s !! (p + i)%nat = sep !! i) → occurs s sep p.
Proof.
  intros Hl H. apply list_eq. intros i.
  destruct (decide (i < length sep)%nat).
  - rewrite lookup_take_lt, lookup_drop by done. auto.
  - rewrite !lookup_ge_None_2; [done|lia|rewrite length_take; lia].
Qed.

Lemma has_prefix_spec s sep : has_prefix s sep = true ↔ occurs s sep 0.
Proof. unfold has_prefix, occurs. rewrite bool_decide_eq_true. by rewrite drop_0. Qed.

Lemma Index_Some s sep p :
  Index s sep = Some p → occurs s sep p ∧ ∀ q, (q < p)%nat → ¬ occurs s sep q.
Proof.
  revert p. induction s as [|x s IH]; intros p; cbn [Index];
    (destruct (has_prefix _ _) eqn:E; [intros [= <-]; split; [by apply has_prefix_spec|lia]|]).
  { done. }
  destruct (Index s sep) as [p'|] eqn:E'; simpl; intros [= <-].
  destruct (IH p') as [Ho Hq]; [done|]. split; [exact Ho|].
  intros [|q] ? Hn.
  - apply has_prefix_spec in Hn. congruence.
  - eapply Hq; [|exact Hn]. lia.
Qed.

Lemma Index_None s sep : Index s sep = None → ∀ q, (q ≤ length s)%nat → ¬ occurs s sep q.
Proof.
  induction s as [|x s IH]; cbn [Index]; intros H q Hq Ho;
    destruct (has_prefix _ _) eqn:E; try done.
  - simpl in Hq. assert (q = 0%nat) as -> by lia. apply has_prefix_spec in Ho. congruence.
  - destruct (Index s sep) eqn:E'; [done|]. destruct q as [|q].
    + apply has_prefix_spec in Ho. congruence.
    + eapply (IH eq_refl q); [simpl in Hq; lia|exact Ho].
Qed.

Lemma occurs_drop s sep start q : occurs (drop start s) sep q ↔ occurs s sep (start + q).
Proof. unfold occurs. by rewrite drop_drop. Qed.

Lemma getAllPos_from_sound fuel s sep start p :
  p ∈ getAllPos_from fuel s sep start → occurs s sep p.
Proof.
  revert start. induction fuel as [|fuel IH]; intros start; cbn [getAllPos_from].
  { by intros ?%elem_of_nil. }
  destruct (_ <? _)%nat; [|by intros ?%elem_of_nil].
  destruct (Index _ _) as [pos|] eqn:E; [|by intros ?%elem_of_nil].
  intros [->|H]%elem_of_cons; [|eauto].
  apply Index_Some in E as [Ho _]. apply occurs_drop in Ho.
  by rewrite Nat.add_comm.
Qed.

Lemma getAllPos_sound s sep p : p ∈ getAllPos s sep → occurs s sep p.
Proof. apply getAllPos_from_sound. Qed.

(** Every occurrence overlaps one that is reported, except an occurrence at the
    very end of [s] when the search has reached it: the loop stops as soon as
    exactly [len(sep)] bytes are left. *)
Lemma getAllPos_from_complete fuel s sep start q :
  sep ≠ [] → (length s ≤ fuel + start)%nat →
  occurs s sep q → (start ≤ q)%nat →
  (∃ p, p ∈ getAllPos_from fuel s sep start ∧ (p ≤ q < p + length sep)%nat) ∨
  (q + length sep = length s)%nat.
Proof.
  intros Hne. revert start. induction fuel as [|fuel IH]; intros start Hf Ho Hq.
  { destruct (occurs_bound _ _ _ Ho); [|done]. destruct sep; [done|simpl in *; lia]. }
  destruct (occurs_bound _ _ _ Ho) as [Hb|]; [|done].
  assert (0 < length sep)%nat by (destruct sep; simpl; [done|lia]).
  cbn [getAllPos_from]. destruct (Nat.ltb_spec (start + length sep) (length s)); [|right; lia].
  destruct (Index (drop start s) sep) as [pos|] eqn:E.
  - apply Index_Some in E as [_ Hmin].
    assert (¬ (q < start + pos)%nat).
    { intros ?. apply (Hmin (q - start)%nat); [lia|]. apply occurs_drop.
      by replace (start + (q - start))%nat with q by lia. }
    destruct (decide (q < start + pos + length sep)%nat).
    + left. exists (pos + start)%nat. split; [apply elem_of_cons; by left|lia].
    + destruct (IH (start + (pos + length sep))%nat) as [(p & Hp & ?)|]; try lia; auto.
      left. exists p. split; [|done]. apply elem_of_cons; by right.
  - exfalso. apply (Index_None _ _ E (q - start)%nat); [rewrite length_drop; lia|].
    apply occurs_drop. by replace (start + (q - start))%nat with q by lia.
Qed.

(** The fuel of [getAllPos] is enough: more of it changes nothing. *)
Lemma getAllPos_fuel s sep start fuel :
  sep ≠ [] → (length s ≤ fuel + start)%nat →
  getAllPos_from (S fuel) s sep start = getAllPos_from fuel s sep start.
Proof.
  intros Hne. assert (0 < length sep)%nat by (destruct sep; simpl; [done|lia]).
  revert start. induction fuel as [|fuel IH]; intros start Hf.
  - cbn [getAllPos_from]. destruct (Nat.ltb_spec (start + length sep) (length s)); [lia|done].
  - cbn [getAllPos_from]. destruct (Nat.ltb_spec (start + length sep) (length s)); [|done].
    destruct (Index _ _) as [pos|] eqn:E; [|done]. f_equal.
    apply IH. lia.
Qed.

(** ** Lemmas: overwriting and restoring *)

Definition covered (w : bytes) (ps : list nat) (i : nat) : Prop :=
  ∃ p, p ∈ ps ∧ (p ≤ i < p + length w)%nat.

Lemma length_overwrite w b ps :
  (∀ p, p ∈ ps → (p + length w ≤ length b)%nat) → length (overwrite w b ps) = length b.
Proof.
  revert b. induction ps as [|p ps IH]; intros b H; [done|]. simpl.
  rewrite IH; [apply length_splice|]; intros;
    rewrite ?length_splice; apply H; (apply elem_of_cons; auto).
Qed.

Lemma overwrite_outside w b ps i :
  (∀ p, p ∈ ps → (p + length w ≤ length b)%nat) →
  ¬ covered w ps i → overwrite w b ps !! i = b !! i.
Proof.
  revert b. induction ps as [|p ps IH]; intros b H Hn; [done|]. simpl.
  assert (p + length w ≤ length b)%nat by (apply H, elem_of_cons; auto).
  rewrite IH.
  - rewrite lookup_splice by done. rewrite decide_False; [done|].
    intros ?. apply Hn. exists p. split; [apply elem_of_cons; auto|lia].
  - intros q Hq. rewrite length_splice by done. apply H, elem_of_cons; auto.
  - intros (q & Hq & ?). apply Hn. exists q. split; [apply elem_of_cons; auto|lia].
Qed.

Lemma overwritten_lookup w x b ps i :
  (∀ p, p ∈ ps → (p + length w ≤ length b)%nat) → (∀ y, y ∈ w → y = x) →
  covered w ps i → overwrite w b ps !! i = Some x.
Proof.
  revert b. induction ps as [|p ps IH]; intros b H Hw Hc.
  { by destruct Hc as (p & ?%elem_of_nil & _). }
  assert (p + length w ≤ length b)%nat by (apply H, elem_of_cons; auto). simpl.
  assert (∀ q, q ∈ ps → (q + length w ≤ length (splice b p w))%nat) as H'
    by (intros; rewrite length_splice by done; apply H, elem_of_cons; auto).
  destruct (decide (Exists (λ q, (q ≤ i < q + length w)%nat) ps)) as [Hd|Hd].
  - apply Exists_exists in Hd as (q & ? & ?). apply IH; [done|done|by exists q].
  - rewrite overwrite_outside by (try done; intros (q & ? & ?); apply Hd, Exists_exists; by exists q).
    destruct Hc as (q & [->|Hq]%elem_of_cons & Hqi).
    2: { exfalso. apply Hd, Exists_exists. by exists q. }
    rewrite lookup_splice, decide_True by done.
    destruct (lookup_lt_is_Some_2 w (i - p)%nat) as [y Hy]; [lia|].
    rewrite Hy. f_equal. apply Hw. by eapply list_elem_of_lookup_2.
Qed.

(** Overwriting with [w] at positions where [o] holds [w] gives [o] back, when
    the buffer agrees with [o] everywhere else. *)
Lemma overwrite_restores w o b ps :
  length b = length o → (∀ p, p ∈ ps → occurs o w p) → w ≠ [] →
  (∀ i, covered w ps i ∨ b !! i = o !! i) → overwrite w b ps = o.
Proof.
  intros Hl Ho Hw. revert b Hl Ho. induction ps as [|p ps IH]; intros b Hl Ho Hc.
  - apply list_eq. intros i. destruct (Hc i) as [(p & []%elem_of_nil & _)|]; done.
  - simpl. assert (Hp : occurs o w p) by (apply Ho, elem_of_cons; auto).
    destruct (occurs_bound _ _ _ Hp) as [Hb|]; [|done].
    apply IH.
    + rewrite length_splice; lia.
    + intros q Hq. apply Ho, elem_of_cons; auto.
    + intros i. rewrite lookup_splice by lia. case_decide as Hd.
      * right. rewrite <- (occurs_lookup _ _ _ Hp) by lia. f_equal. lia.
      * destruct (Hc i) as [(q & [->|Hq]%elem_of_cons & ?)|]; [lia|left|by right].
        exists q. done.
Qed.

(** ** Lemmas: the position list *)

Definition pos_list (k : Z) (ps : list nat) : bytes :=
  concat (map (λ pos, le_bytes 4 (Z.of_nat pos + 4 * k)) ps).

Lemma pos_list_app k ps qs : pos_list k (ps ++ qs) = pos_list k ps ++ pos_list k qs.
Proof. unfold pos_list. by rewrite map_app, concat_app. Qed.

Lemma zlen_pos_list k ps : zlen (pos_list k ps) = 4 * zlen ps.
Proof.
  induction ps as [|p ps IH]; [done|].
  change (pos_list k (p :: ps)) with (le_bytes 4 (Z.of_nat p + 4 * k) ++ pos_list k ps).
  rewrite zlen_app, IH, zlen_cons, zlen_le_bytes. lia.
Qed.
#[export] Hint Rewrite zlen_pos_list : zlen.

Lemma le_bytes_MaxUint32 : le_bytes 4 MaxUint32 = [255; 255; 255; 255].
Proof. reflexivity. Qed.

(** [b] read up to cursor [i] leaves [c]. *)
Definition cursor (b : bytes) (i : Z) (c : bytes) : Prop :=
  0 ≤ i ≤ zlen b ∧ drop (Z.to_nat i) b = c.

Lemma cursor_app a c i : i = zlen a → cursor (a ++ c) i c.
Proof.
  intros ->. split; [pose proof (zlen_nonneg a); pose proof (zlen_nonneg c); zlen|].
  unfold zlen. by rewrite Nat2Z.id, drop_app_length.
Qed.

Lemma cursor_slice b i x c j :
  cursor b i (x ++ c) → j = i + zlen x → slice b i j = Ret x ∧ cursor b j c.
Proof.
  intros [Hi Hd] ->. pose proof (zlen_nonneg x). pose proof (zlen_nonneg c).
  assert (zlen (x ++ c) = zlen b - i) as Hz.
  { rewrite <- Hd. unfold zlen in *. rewrite length_drop. lia. }
  rewrite zlen_app in Hz. split.
  - apply slice_Ret. split_and!; [lia..|]. rewrite Hd.
    replace (Z.to_nat _) with (length x) by (unfold zlen in *; lia).
    by rewrite take_app_length.
  - split; [lia|]. replace (Z.to_nat (i + zlen x)) with (Z.to_nat i + length x)%nat
      by (unfold zlen in *; lia).
    by rewrite <- drop_drop, Hd, drop_app_length.
Qed.

Lemma cursor_uint32 b i v c :
  cursor b i (le_bytes 4 v ++ c) → 0 ≤ v < 2 ^ 32 → Uint32At b i = Ret v ∧ cursor b (i + 4) c.
Proof.
  intros H Hv. unfold Uint32At. destruct (cursor_slice _ _ _ _ (i + 4) H) as [-> ?]; [zlen|].
  cbn [mbind outcome_bind]. rewrite le_val_small; [done|lia].
Qed.

Lemma cursor_int64 b i v c :
  cursor b i (le_bytes 8 v ++ c) → is_int64 v → Int64At b i = Ret v ∧ cursor b (i + 8) c.
Proof.
  intros H Hv. unfold Int64At. destruct (cursor_slice _ _ _ _ (i + 8) H) as [-> ?]; [zlen|].
  cbn [mbind outcome_bind]. by rewrite le_val_uint64, to_int64_uint64.
Qed.

Lemma Uint32At_mid a v c i :
  i = zlen a → 0 ≤ v < 2 ^ 32 → Uint32At (a ++ le_bytes 4 v ++ c) i = Ret v.
Proof. intros Hi Hv. by destruct (cursor_uint32 _ _ v c (cursor_app a _ i Hi) Hv). Qed.

(** One iteration of [recoverMagicBytes] that restores an occurrence. *)
Lemma recover_step fuel a q c n :
  n = zlen a → c ≠ [] → 0 ≤ q < MaxEntryBytes → q + 12 ≤ zlen a + 4 + zlen c →
  recoverMagicBytes_from (S fuel) (a ++ le_bytes 4 q ++ c) n =
  recoverMagicBytes_from fuel
    (splice (a ++ le_bytes 4 q ++ c) (Z.to_nat (q + 4)) MagicBytes) (n + 4).
Proof.
  unfold MaxEntryBytes. intros -> Hc Hq Hl. cbn [recoverMagicBytes_from].
  assert (0 < zlen c) by (destruct c; [done|zlen]).
  destruct (Z.ltb_spec (zlen a + 4) (zlen (a ++ le_bytes 4 q ++ c))); [|zlen].
  rewrite Uint32At_mid by lia. cbn [mbind outcome_bind].
  unfold MaxUint32, MaxEntryBytes.
  destruct (Z.eqb_spec q (2 ^ 32 - 1)); [lia|].
  destruct (Z.leb_spec (2 ^ 24 - 1) q); [lia|].
  destruct (slice_in_bounds (a ++ le_bytes 4 q ++ c) (q + 4) (q + 12)) as [r ->]; [lia|zlen|done].
Qed.

(** The terminator ends the loop. *)
Lemma recover_stop fuel a c n :
  n = zlen a → c ≠ [] →
  recoverMagicBytes_from (S fuel) (a ++ le_bytes 4 MaxUint32 ++ c) n =
  Ret (a ++ le_bytes 4 MaxUint32 ++ c, n + 4).
Proof.
  intros -> Hc. cbn [recoverMagicBytes_from].
  assert (0 < zlen c) by (destruct c; [done|zlen]).
  destruct (Z.ltb_spec (zlen a + 4) (zlen (a ++ le_bytes 4 MaxUint32 ++ c))); [|zlen].
  rewrite Uint32At_mid by (unfold MaxUint32; lia).
  cbn [mbind outcome_bind]. by rewrite Z.eqb_refl.
Qed.

Lemma splice_ne_nil (l : bytes) off s :
  (off + length s ≤ length l)%nat → l ≠ [] → splice l off s ≠ [].
Proof.
  intros Hl Hn E. apply (f_equal length) in E. rewrite length_splice in E by done.
  by destruct l.
Qed.

Lemma recover_loop fuel k (done_ todo : list nat) (X : bytes) :
  k = zlen (done_ ++ todo) →
  (length todo < fuel)%nat → X ≠ [] →
  (∀ p, p ∈ todo → (p + 8 ≤ length X)%nat ∧ Z.of_nat p + 4 * k < MaxEntryBytes) →
  recoverMagicBytes_from fuel
    (pos_list k (done_ ++ todo) ++ le_bytes 4 MaxUint32 ++ X) (4 * zlen done_)
  = Ret (pos_list k (done_ ++ todo) ++ le_bytes 4 MaxUint32 ++ overwrite MagicBytes X todo,
         4 * k + 4).
Proof.
  revert done_ X fuel. induction todo as [|p todo IH]; intros done_ X fuel Hk Hf HX Hps;
    (destruct fuel as [|fuel]; [simpl in Hf; lia|]).
  { rewrite app_nil_r in Hk. rewrite recover_stop by (rewrite ?app_nil_r; zlen || done).
    by rewrite Hk. }
  destruct (Hps p) as [Hp1 Hp2]; [apply elem_of_cons; auto|].
  assert (k = zlen done_ + 1 + zlen todo) as Hk' by zlen.
  pose proof (zlen_nonneg done_). pose proof (zlen_nonneg todo).
  set (q := Z.of_nat p + 4 * k) in *.
  set (Q := pos_list k (done_ ++ p :: todo) ++ le_bytes 4 MaxUint32).
  assert (Z.to_nat (q + 4) = length Q + p)%nat as HQ.
  { assert (zlen Q = 4 * k + 4) as HzQ by (unfold Q; zlen). unfold zlen in *. lia. }
  assert (pos_list k (done_ ++ p :: todo) ++ le_bytes 4 MaxUint32 ++ X =
          pos_list k done_ ++ le_bytes 4 q ++ pos_list k todo ++ le_bytes 4 MaxUint32 ++ X)
    as Hb by (rewrite pos_list_app; cbn [pos_list map concat]; by rewrite <- !app_assoc).
  rewrite Hb at 1. rewrite recover_step; [|zlen|by intros [_ ?]%app_eq_nil|lia|].
  2: { assert (Z.of_nat p + 8 ≤ zlen X) by (unfold zlen; lia). zlen. }
  rewrite <- Hb, HQ, app_assoc. fold Q. rewrite splice_app_r. unfold Q.
  rewrite <- !app_assoc.
  specialize (IH (done_ ++ [p]) (splice X p MagicBytes) fuel).
  rewrite <- !app_assoc in IH. cbn [app] in IH.
  replace (4 * zlen (done_ ++ [p])) with (4 * zlen done_ + 4) in IH by zlen.
  apply IH; [done|simpl in Hf; lia|by apply splice_ne_nil|].
  intros r Hr. rewrite length_splice by (simpl; lia). apply Hps, elem_of_cons; auto.
Qed.

(** ** Lemmas: the shape of a record *)

Definition magic_positions (e : Entry) : list nat := getAllPos (payload_strings e) MagicBytes.

(** The value of the 24-bit length field: everything after the first four
    bytes, the serial-number list excluded. *)
Definition body_length (e : Entry) : Z :=
  4 * zlen (magic_positions e) + 4 + zlen (payload_strings e) + 24.

Definition entry_body (e : Entry) : bytes :=
  pos_list (zlen (magic_positions e)) (magic_positions e) ++ le_bytes 4 MaxUint32 ++
  zero_magic (payload_strings e) (magic_positions e) ++ payload_ints e.

(** An entry the file format can hold: 64-bit integers, and a record shorter
    than [MaxEntryBytes]. *)
Definition entry_ok (e : Entry) : Prop :=
  is_int64 (Height e) ∧ is_int64 (LastHeight e) ∧ is_int64 (SerialNum e) ∧
  body_length e < MaxEntryBytes.

#[export] Instance entry_ok_dec e : Decision (entry_ok e).
Proof. unfold entry_ok; apply _. Defined.

(** What is read back: a nil value becomes an empty one. *)
Definition read_back (e : Entry) : Entry :=
  mkEntry (Key e) (Some (ValueBytes e)) (NextKey e) (Height e) (LastHeight e) (SerialNum e).

Lemma zlen_payload_strings e :
  zlen (payload_strings e) = 12 + zlen (Key e) + zlen (ValueBytes e) + zlen (NextKey e).
Proof. unfold payload_strings. zlen. Qed.

Lemma zlen_payload_ints e : zlen (payload_ints e) = 24.
Proof. unfold payload_ints. zlen. Qed.

Lemma zlen_SNListToBytes sns : zlen (SNListToBytes sns) = 8 * zlen sns.
Proof.
  induction sns as [|sn sns IH]; [done|].
  change (SNListToBytes (sn :: sns)) with (le_bytes 8 sn ++ SNListToBytes sns). zlen.
Qed.
#[export] Hint Rewrite zlen_payload_ints zlen_SNListToBytes : zlen.

Lemma magic_position_bound e p :
  p ∈ magic_positions e → (p + 8 ≤ length (payload_strings e))%nat.
Proof. intros H%getAllPos_sound. by destruct (occurs_bound _ _ _ H). Qed.

Lemma overwrite_app_l w a b ps :
  (∀ p, p ∈ ps → (p + length w ≤ length a)%nat) → overwrite w (a ++ b) ps = overwrite w a ps ++ b.
Proof.
  revert a. induction ps as [|p ps IH]; intros a H; [done|]. simpl.
  assert (p + length w ≤ length a)%nat by (apply H, elem_of_cons; auto).
  rewrite <- IH.
  - f_equal. unfold splice. rewrite take_app_le, drop_app_le by lia. by rewrite <- !app_assoc.
  - intros q Hq. rewrite length_splice by done. apply H, elem_of_cons; auto.
Qed.

Lemma zlen_zero_magic e :
  zlen (zero_magic (payload_strings e) (magic_positions e)) = zlen (payload_strings e).
Proof. unfold zlen, zero_magic. rewrite length_overwrite; [done|apply magic_position_bound]. Qed.
#[export] Hint Rewrite zlen_zero_magic : zlen.

Lemma zlen_entry_body e : zlen (entry_body e) = body_length e.
Proof. unfold entry_body, body_length. zlen. Qed.
#[export] Hint Rewrite zlen_entry_body : zlen.

Lemma body_length_pos e : 40 ≤ body_length e.
Proof.
  unfold body_length. pose proof (zlen_payload_strings e). zlen.
Qed.

(** Both branches of [EntryToBytes] build the same record: count, length,
    position list, payload with the magic bytes zeroed, serial numbers. *)
Lemma EntryToBytes_shape e sns :
  EntryToBytes e sns =
  [to_uint 8 (zlen sns)] ++ PutUint24 (body_length e) ++ entry_body e ++ SNListToBytes sns.
Proof.
  unfold EntryToBytes, entry_length, writeEntryPayload.
  assert (zlen (payload_strings e) = Z.of_nat (length (payload_strings e))) as Hz by done.
  rewrite take_app_length'; [|pose proof (zlen_payload_strings e); lia].
  fold (magic_positions e). unfold body_length, entry_body.
  rewrite zlen_payload_strings. unfold zero_magic.
  destruct (magic_positions e) as [|p ps] eqn:E.
  - cbn [pos_list map concat overwrite foldl app]. f_equal. f_equal; [|by rewrite <- ?app_assoc].
    f_equal. zlen.
  - rewrite <- E, overwrite_app_l by apply magic_position_bound.
    unfold pos_list. rewrite <- !app_assoc. f_equal. f_equal. f_equal. lia.
Qed.

(** Zeroing and then restoring the magic bytes is the identity. *)
Lemma zero_magic_restored e Y :
  overwrite MagicBytes (zero_magic (payload_strings e) (magic_positions e) ++ Y)
    (magic_positions e) = payload_strings e ++ Y.
Proof.
  rewrite overwrite_app_l.
  2: { intros p Hp%magic_position_bound. unfold zero_magic.
       rewrite length_overwrite by apply magic_position_bound. done. }
  f_equal. apply overwrite_restores; [|by intros p Hp%getAllPos_sound|done|].
  { apply length_overwrite, magic_position_bound. }
  intros i. destruct (decide (Exists (λ p, (p ≤ i < p + 8)%nat) (magic_positions e))) as [Hc|Hc].
  - left. apply Exists_exists in Hc as (p & ? & ?). by exists p.
  - right. apply overwrite_outside; [apply magic_position_bound|].
    intros (p & ? & ?). apply Hc, Exists_exists. by exists p.
Qed.

Lemma recover_entry_body e Y :
  body_length e < MaxEntryBytes →
  recover_payload (entry_body e ++ Y) = Ret (payload_strings e ++ payload_ints e ++ Y).
Proof.
  intros Hl. unfold recover_payload, recoverMagicBytes, entry_body. rewrite <- !app_assoc.
  pose proof (recover_loop (S (length (pos_list (zlen (magic_positions e)) (magic_positions e) ++
    le_bytes 4 MaxUint32 ++ zero_magic (payload_strings e) (magic_positions e) ++ payload_ints e ++ Y)))
    (zlen (magic_positions e)) [] (magic_positions e)
    (zero_magic (payload_strings e) (magic_positions e) ++ payload_ints e ++ Y)) as H.
  cbn [app] in H. change (4 * zlen (@nil nat)) with 0 in H. rewrite H; clear H; [|done|..].
  - cbn [mbind outcome_bind]. rewrite zero_magic_restored, app_assoc.
    apply slice_end; zlen.
  - rewrite !length_app. pose proof (zlen_pos_list (zlen (magic_positions e)) (magic_positions e)).
    unfold zlen in *. lia.
  - intros E. apply (f_equal zlen) in E. revert E. pose proof (zlen_payload_strings e). zlen.
  - intros p Hp%magic_position_bound. rewrite length_app.
    pose proof (zlen_zero_magic e). pose proof (zlen_nonneg (magic_positions e)).
    unfold body_length, zlen in *. lia.
Qed.

Lemma read_SNs_spec b i sns c :
  Forall is_int64 sns → cursor b i (SNListToBytes sns ++ c) →
  read_SNs b i (length sns) = Ret sns.
Proof.
  intros H. revert i. induction H as [|sn sns Hsn _ IH]; intros i Hc; [done|].
  cbn [length read_SNs].
  change (SNListToBytes (sn :: sns)) with (le_bytes 8 sn ++ SNListToBytes sns) in Hc.
  rewrite <- app_assoc in Hc. destruct (cursor_int64 _ _ _ _ Hc Hsn) as [-> Hc'].
  cbn [mbind outcome_bind]. by rewrite IH.
Qed.

(** One step of a decoder: consume the field at the cursor. *)
Ltac cursor_step Hc :=
  let E := fresh "E" in
  first
    [ destruct (cursor_uint32 _ _ _ _ Hc) as [E Hc']; [lia|]
    | destruct (cursor_int64 _ _ _ _ Hc) as [E Hc']; [assumption|]
    | destruct (cursor_slice _ _ _ _ _ Hc eq_refl) as [E Hc'] ];
  rewrite E; clear E Hc; rename Hc' into Hc; cbn [mbind outcome_bind].

Lemma EntryFromBytes_payload e sns c :
  entry_ok e → Forall is_int64 sns →
  EntryFromBytes (payload_strings e ++ payload_ints e ++ SNListToBytes sns ++ c) (length sns)
  = Ret (read_back e, sns).
Proof.
  intros (Hh & Hlh & Hsn & Hl) Hsns.
  assert (12 + zlen (Key e) + zlen (ValueBytes e) + zlen (NextKey e) < 2 ^ 24) as Hlen.
  { unfold body_length in Hl. pose proof (zlen_payload_strings e).
    unfold MaxEntryBytes in Hl. zlen. }
  pose proof (zlen_nonneg (Key e)). pose proof (zlen_nonneg (ValueBytes e)).
  pose proof (zlen_nonneg (NextKey e)).
  remember (payload_strings e ++ _) as b eqn:Eb.
  assert (cursor b 0 b) as Hc by (apply (cursor_app []); done).
  rewrite Eb in Hc at 2. clear Eb.
  unfold payload_strings, payload_ints in Hc. rewrite <- !app_assoc in Hc.
  unfold EntryFromBytes. do 9 cursor_step Hc.
  by rewrite (read_SNs_spec _ _ _ _ Hsns Hc).
Qed.

Lemma no_magic_marker_body e Y :
  body_length e < MaxEntryBytes →
  no_magic_marker (entry_body e ++ Y) = Ret (bool_decide (magic_positions e = [])).
Proof.
  intros Hl. unfold entry_body. destruct (magic_positions e) as [|p ps] eqn:E.
  { cbn [pos_list map concat app]. rewrite le_bytes_MaxUint32. by vm_compute. }
  assert (p + 8 ≤ length (payload_strings e))%nat as Hp.
  { apply magic_position_bound. rewrite E. apply elem_of_cons; auto. }
  unfold body_length, MaxEntryBytes in Hl. rewrite E in Hl.
  cbn [pos_list map concat]. rewrite <- !app_assoc.
  set (q := Z.of_nat p + 4 * zlen (p :: ps)).
  assert (0 ≤ q < 2 ^ 24) as Hq by (pose proof (zlen_nonneg (p :: ps)); unfold q, zlen in *; lia).
  cbn [le_bytes app]. unfold no_magic_marker, index.
  cbn [Z.leb Z.compare]. change (Z.to_nat 0) with 0%nat. change (Z.to_nat 1) with 1%nat.
  change (Z.to_nat 2) with 2%nat. change (Z.to_nat 3) with 3%nat.
  cbn [lookup list_lookup mbind outcome_bind mret outcome_ret].
  replace (q / 256 / 256 / 256) with 0 by (rewrite !Z.div_div by lia; symmetry; apply Z.div_small; lia).
  change (0 mod 256) with 0. by rewrite Z.land_0_r.
Qed.

Lemma EntryToBytes_raw e sns :
  EntryToBytes e sns = ([to_uint 8 (zlen sns)] ++ PutUint24 (body_length e)) ++
                       entry_body e ++ SNListToBytes sns.
Proof. by rewrite EntryToBytes_shape, <- !app_assoc. Qed.

Lemma slice_record e sns :
  slice (EntryToBytes e sns) 4 (zlen (EntryToBytes e sns)) = Ret (entry_body e ++ SNListToBytes sns).
Proof.
  rewrite EntryToBytes_raw. apply slice_end; unfold PutUint24; zlen.
Qed.

Lemma GetUint24_PutUint24 n c : GetUint24 (PutUint24 n ++ c) = Ret (n mod 2 ^ 24).
Proof.
  unfold GetUint24, PutUint24, index. cbn [le_bytes app Z.leb Z.compare].
  change (Z.to_nat 0) with 0%nat. change (Z.to_nat 1) with 1%nat. change (Z.to_nat 2) with 2%nat.
  cbn [lookup list_lookup mbind outcome_bind mret outcome_ret]. f_equal.
  rewrite !Z.div_div by lia. apply lor_three_bytes.
Qed.

Definition set_SerialNum (e : Entry) (sn : Z) : Entry :=
  mkEntry (Key e) (Value e) (NextKey e) (Height e) (LastHeight e) sn.

Lemma EntryToBytes_snoc_SerialNum e :
  ∃ pre, ∀ sn, EntryToBytes (set_SerialNum e sn) [] = pre ++ le_bytes 8 sn.
Proof.
  exists ([0] ++ PutUint24 (body_length e) ++
     pos_list (zlen (magic_positions e)) (magic_positions e) ++ le_bytes 4 MaxUint32 ++
     zero_magic (payload_strings e) (magic_positions e) ++
     le_bytes 8 (Height e) ++ le_bytes 8 (LastHeight e)).
  intros sn. rewrite EntryToBytes_shape.
  unfold entry_body, payload_ints, SNListToBytes. rewrite <- !app_assoc, app_nil_r. done.
Qed.

(** A raw record, as the scans of a twig read it: without its list, but with
    the length the list has. *)
Definition raw_bytes (n : Z) (e : Entry) : bytes := [n] ++ PutUint24 (body_length e) ++ entry_body e.

Lemma raw_bytes_0 e : EntryToBytes e [] = raw_bytes 0 e.
Proof. rewrite EntryToBytes_shape. unfold raw_bytes. by rewrite app_nil_r. Qed.

Lemma raw_bytes_record n e sns : splice (raw_bytes n e) 0 [to_uint 8 (zlen sns)] ++ SNListToBytes sns = EntryToBytes e sns.
Proof. rewrite EntryToBytes_shape. unfold raw_bytes, splice. cbn [take app length Nat.add drop]. by rewrite drop_0, <- !app_assoc. Qed.

Lemma raw_bytes_serial n e : ∃ pre, ∀ sn, raw_bytes n (set_SerialNum e sn) = pre ++ le_bytes 8 sn.
Proof.
  destruct (EntryToBytes_snoc_SerialNum e) as [pre Hpre]. exists (n :: drop 1 pre). intros sn. specialize (Hpre sn).
  rewrite raw_bytes_0 in Hpre. unfold raw_bytes in *. destruct pre as [|x pre].
  - exfalso. apply (f_equal length) in Hpre. revert Hpre. rewrite !length_app, length_le_bytes.
    pose proof (zlen_entry_body (set_SerialNum e sn)) as Hb. pose proof (body_length_pos (set_SerialNum e sn)). unfold zlen in Hb. cbn [length]. lia.
  - apply (f_equal (drop 1)) in Hpre. cbn [app drop] in Hpre |- *. by rewrite drop_0 in *; f_equal.
Qed.

Lemma raw_bytes_update n e sn : UpdateSerialNum (raw_bytes n e) sn = Ret (raw_bytes n (set_SerialNum e sn)).
Proof.
  destruct (raw_bytes_serial n e) as [pre Hpre]. assert (raw_bytes n e = pre ++ le_bytes 8 (SerialNum e)) as E by (by rewrite <- Hpre; destruct e).
  unfold UpdateSerialNum. rewrite E, slice_end by zlen. cbn [mbind outcome_bind]. unfold mret, outcome_ret. f_equal.
  rewrite length_app, length_le_bytes, Nat.add_sub, <- (Nat.add_0_r (length pre)), splice_app_r, Hpre. unfold splice.
  rewrite length_le_bytes, take_0, Nat.add_0_l, (drop_ge (le_bytes 8 (SerialNum e))) by (rewrite length_le_bytes; lia). by rewrite app_nil_r.
Qed.

Lemma raw_bytes_ExtractSerialNum n e : entry_ok e → ExtractSerialNum (raw_bytes n e) = Ret (SerialNum e).
Proof.
  intros (_ & _ & Hsn & _). destruct (raw_bytes_serial n e) as [pre Hpre].
  assert (raw_bytes n e = pre ++ le_bytes 8 (SerialNum e)) as -> by (by rewrite <- Hpre; destruct e).
  unfold ExtractSerialNum. rewrite <- (app_nil_r (le_bytes 8 _)). eapply cursor_int64; [|done]. apply cursor_app. zlen.
Qed.

Lemma raw_bytes_append n e sns : zset (raw_bytes n e) 0 (to_uint 8 (zlen sns)) ++ SNListToBytes sns = EntryToBytes e sns.
Proof. rewrite <- (raw_bytes_record n). done. Qed.

(** The key of a decoded payload, behind any prefix. *)
Lemma key_cursor e :
  body_length e < MaxEntryBytes →
  (∀ a, Uint32At (a ++ payload_strings e ++ payload_ints e) (zlen a) = Ret (zlen (Key e))) ∧
  (∀ a, slice (a ++ payload_strings e ++ payload_ints e) (zlen a + 4) (zlen a + 4 + zlen (Key e))
        = Ret (Key e)).
Proof.
  intros Hl. assert (0 ≤ zlen (Key e) < 2 ^ 32) as Hk.
  { unfold body_length, MaxEntryBytes in Hl. pose proof (zlen_payload_strings e).
    pose proof (zlen_nonneg (ValueBytes e)). pose proof (zlen_nonneg (NextKey e)). zlen. }
  assert (∀ a : bytes, cursor (a ++ payload_strings e ++ payload_ints e) (zlen a)
    (le_bytes 4 (zlen (Key e)) ++ Key e ++ le_bytes 4 (zlen (ValueBytes e)) ++ ValueBytes e ++
     le_bytes 4 (zlen (NextKey e)) ++ NextKey e ++ payload_ints e)) as Hc.
  { intros a. unfold payload_strings. rewrite <- !app_assoc. by apply cursor_app. }
  split; intros a; destruct (cursor_uint32 _ _ _ _ (Hc a) Hk) as [Hu Hc']; [done|].
  by destruct (cursor_slice _ _ _ _ _ Hc' eq_refl).
Qed.

(** ** Properties *)

(** C16: whatever bytes the key, the value and the next key hold - occurrences
    of the magic bytes included - reading a record back gives the entry that
    was written and the list of deactivated serial numbers written with it. *)
Theorem EntryToBytes_roundtrip (e : Entry) (sns : list Z) :
  entry_ok e → Forall is_int64 sns →
  (b ← slice (EntryToBytes e sns) 4 (zlen (EntryToBytes e sns));
   p ← recover_payload b;
   EntryFromBytes p (length sns)) = Ret (read_back e, sns).
Proof.
  intros He Hs. rewrite slice_record. cbn [mbind outcome_bind].
  rewrite recover_entry_body by apply He. cbn [mbind outcome_bind].
  rewrite <- (app_nil_r (SNListToBytes sns)). by apply EntryFromBytes_payload.
Qed.

(** C20: rewriting the serial number of a raw record, setting its first byte to
    the size of a new list and appending that list gives exactly the record of
    the entry with the new serial number: moving an entry without decoding it
    is the same as decoding and writing it again. *)
Theorem raw_rewrite_is_reencoding (e : Entry) (sn : Z) (sns : list Z) :
  ∃ bz, UpdateSerialNum (EntryToBytes e []) sn = Ret bz ∧
    splice bz 0 [to_uint 8 (zlen sns)] ++ SNListToBytes sns =
    EntryToBytes (set_SerialNum e sn) sns.
Proof.
  exists (raw_bytes 0 (set_SerialNum e sn)). rewrite raw_bytes_0. split; [apply raw_bytes_update|apply raw_bytes_record].
Qed.

(** C32: in a written record, the part searched for magic bytes (the three
    strings) contains them at most at its very end, so that no record can be
    mistaken for the start of another one inside its strings. *)
Theorem escaped_strings_magic_free (e : Entry) (q : nat) :
  occurs (zero_magic (payload_strings e) (magic_positions e)) MagicBytes q →
  Z.of_nat q + 8 = zlen (payload_strings e).
Proof.
  intros Ho. destruct (occurs_bound _ _ _ Ho) as [Hb|]; [|done].
  pose proof (zlen_zero_magic e) as Hz.
  assert (∀ p, p ∈ magic_positions e → (p + 8 ≤ length (payload_strings e))%nat) as Hps
    by apply magic_position_bound.
  (* a zeroed byte is not a magic byte *)
  assert (∀ i, (i < 8)%nat → ¬ covered zeroBuf (magic_positions e) (q + i)) as Hcov.
  { intros i Hi (p & Hp & Hpi). simpl in Hpi.
    assert (zero_magic (payload_strings e) (magic_positions e) !! (q + i)%nat = Some 0) as H0.
    { apply overwritten_lookup; [done| |by exists p].
      intros y Hy. by apply elem_of_replicate in Hy as [-> _]. }
    rewrite (occurs_lookup _ _ _ Ho i Hi) in H0.
    do 8 (destruct i as [|i]; [discriminate H0|]). lia. }
  assert (occurs (payload_strings e) MagicBytes q) as Ho'.
  { apply occurs_intro; [unfold zlen in Hz; simpl in *; lia|]. intros i Hi.
    rewrite <- (occurs_lookup _ _ _ Ho i Hi). symmetry.
    apply overwrite_outside; [done|]. by apply Hcov. }
  destruct (getAllPos_from_complete (length (payload_strings e)) (payload_strings e)
    MagicBytes 0 q) as [(p & Hp & Hpq)|Hend]; [done|lia|done|lia|..].
  - exfalso. apply (Hcov 0%nat); [lia|]. rewrite Nat.add_0_r. exists p. done.
  - unfold zlen. change (length MagicBytes) with 8%nat in *. lia.
Qed.

(** The raw readers used by the twig scans see the key and the serial
    number of the entry, whether the record is escaped or not. *)
Theorem raw_readers_correct (e : Entry) :
  entry_ok e →
  ExtractKeyFromRawBytes (EntryToBytes e []) = Ret (Key e) ∧
  ExtractSerialNum (EntryToBytes e []) = Ret (SerialNum e).
Proof.
  intros (Hh & Hlh & Hsn & Hl). split.
  - unfold ExtractKeyFromRawBytes. rewrite slice_record. cbn [mbind outcome_bind SNListToBytes map concat].
    rewrite no_magic_marker_body by done. cbn [mbind outcome_bind].
    pose proof (key_cursor e Hl) as [Hu Hk].
    case_bool_decide as E.
    + unfold entry_body. rewrite E. cbn [pos_list map concat zero_magic overwrite foldl].
      rewrite app_nil_r. cbn [app]. specialize (Hu (le_bytes 4 MaxUint32)).
      specialize (Hk (le_bytes 4 MaxUint32)). change (zlen (le_bytes 4 MaxUint32)) with 4 in *.
      rewrite Hu. exact Hk.
    + pose proof (recover_entry_body e [] Hl) as Hr. unfold recover_payload in Hr.
      destruct (recoverMagicBytes _) as [[bb n]|]; [|done]. cbn [mbind outcome_bind] in Hr |- *.
      rewrite Hr, app_nil_r. cbn [mbind outcome_bind].
      specialize (Hu []). specialize (Hk []). cbn [app] in Hu, Hk.
      change (zlen (@nil Z)) with 0 in Hu, Hk. rewrite Hu. exact Hk.
  - rewrite raw_bytes_0. by apply raw_bytes_ExtractSerialNum.
Qed.

Lemma raw_bytes_ExtractKey n e : entry_ok e → ExtractKeyFromRawBytes (raw_bytes n e) = Ret (Key e).
Proof.
  intros He. rewrite <- (proj1 (raw_readers_correct e He)), raw_bytes_0. unfold ExtractKeyFromRawBytes, raw_bytes.
  rewrite !(app_assoc _ (PutUint24 _)), !slice_end by (unfold PutUint24; zlen). done.
Qed.

(** An entry full of magic bytes: twice in the value, twice at the end of the
    next key. *)
Definition magic_entry : Entry :=
  mkEntry [1; 2] (Some (MagicBytes ++ [7] ++ MagicBytes)) (MagicBytes ++ MagicBytes) 5 (-2) 7.

(** What a decoder returned was there to be read. *)
Lemma slice_room {A} (b : list A) lo hi r : slice b lo hi = Ret r → hi ≤ zlen b ∧ zlen r = hi - lo.
Proof. intros H. split; [by apply slice_Ret in H as (_ & ? & _)|by apply slice_length in H]. Qed.

Lemma Int64At_room b i z : Int64At b i = Ret z → i + 8 ≤ zlen b.
Proof. intros (w & H%slice_room & _)%outcome_bind_Ret. lia. Qed.

Lemma EntryFromBytes_room b e sns :
  EntryFromBytes b 0 = Ret (e, sns) → 36 + zlen (Key e) + zlen (ValueBytes e) + zlen (NextKey e) ≤ zlen b.
Proof.
  unfold EntryFromBytes. intros H.
  repeat (let E := fresh "E" in apply outcome_bind_Ret in H; destruct H as (? & E & H)).
  injection H as <- <-. cbn.
  repeat match goal with
  | E : slice _ _ _ = Ret _ |- _ => apply slice_room in E
  | E : Int64At _ _ = Ret _ |- _ => apply Int64At_room in E
  end. lia.
Qed.

(** C33: [EntryFromRawBytes] gives back the entry of a record exactly when the
    record holds no escaped magic bytes: of an escaped one it skips four bytes
    too many after the list of positions, and what is left is too short to
    hold the entry. [ExtractKeyFromRawBytes] reads the key of both. *)
Theorem EntryFromRawBytes_only_unescaped e :
  entry_ok e →
  (EntryFromRawBytes (EntryToBytes e []) = Ret (read_back e) ↔ magic_positions e = []) ∧
  ExtractKeyFromRawBytes (EntryToBytes e []) = Ret (Key e).
Proof.
  intros He. assert (body_length e < MaxEntryBytes) as Hl by apply He.
  split; [|by rewrite raw_bytes_0; apply raw_bytes_ExtractKey].
  unfold EntryFromRawBytes.
  rewrite slice_record. cbn [mbind outcome_bind]. rewrite no_magic_marker_body by done.
  case_bool_decide as E; cbn [mbind outcome_bind].
  - split; [done|intros _]. unfold entry_body. rewrite E.
    cbn [pos_list map concat zero_magic overwrite foldl app]. rewrite <- !app_assoc.
    rewrite (slice_end (le_bytes 4 MaxUint32)) by (try done; zlen). cbn [mbind outcome_bind].
    pose proof (EntryFromBytes_payload e [] [] He (Forall_nil_2 _)) as Hp.
    change (SNListToBytes []) with (@nil Z) in *. rewrite ?app_nil_r in *.
    cbn [length] in Hp. by rewrite Hp.
  - split; [|done]. intros H. exfalso.
    pose proof (recover_entry_body e [] Hl) as Hr. unfold recover_payload in Hr.
    change (SNListToBytes []) with (@nil Z) in H.
    destruct (recoverMagicBytes _) as [[bb n]|]; [|done]. cbn [mbind outcome_bind] in Hr, H.
    apply slice_room in Hr as [_ Hlen].
    apply outcome_bind_Ret in H as (rest & Hs & H). apply slice_room in Hs as [_ Hs].
    destruct (EntryFromBytes rest 0) as [[e' sns]|] eqn:Ed; [|done].
    injection H as ->. apply EntryFromBytes_room in Ed. cbn in Ed.
    revert Hlen. pose proof (zlen_payload_strings e). zlen.
Qed.

(** ** Witnesses *)

Lemma EntryToBytes_roundtrip_witness :
  (b ← slice (EntryToBytes magic_entry [3; -1]) 4 (zlen (EntryToBytes magic_entry [3; -1]));
   p ← recover_payload b;
   EntryFromBytes p 2) = Ret (magic_entry, [3; -1]).
Proof.
  apply (EntryToBytes_roundtrip magic_entry [3; -1]); vm_decide.
Defined.

Lemma escaped_strings_magic_free_witness :
  Z.of_nat 39 + 8 = zlen (payload_strings magic_entry).
Proof. apply (escaped_strings_magic_free magic_entry 39). vm_decide. Defined.

Lemma EntryFromRawBytes_only_unescaped_witness :
  (magic_positions magic_entry ≠ [] ∧ EntryFromRawBytes (EntryToBytes magic_entry []) ≠ Ret (read_back magic_entry)) ∧
  EntryFromRawBytes (EntryToBytes (DummyEntry 7) []) = Ret (DummyEntry 7).
Proof.
  assert (magic_positions magic_entry ≠ []) as Hm by vm_decide. split.
  - split; [exact Hm|]. intros H. apply Hm. refine (proj1 (proj1 (EntryFromRawBytes_only_unescaped magic_entry _)) H). vm_decide.
  - refine (proj2 (proj1 (EntryFromRawBytes_only_unescaped (DummyEntry 7) _)) _); vm_decide.
Defined.

Lemma raw_readers_correct_witness :
  ExtractKeyFromRawBytes (EntryToBytes magic_entry []) = Ret [1; 2] ∧
  ExtractSerialNum (EntryToBytes magic_entry []) = Ret 7.
Proof. apply (raw_readers_correct magic_entry). vm_decide. Defined.
