(* ===== verification/AppendFile.v ===== *)
(** * The interface between the files of the data tree and their storage

    What the entry file and the twig Merkle-tree file need from a
    head-prunable file: an address space to which byte strings are appended,
    where what has been appended at an address can be read back once the file
    is flushed. [HPFile] provides the operations and discharges the laws;
    [EntryFile] and [TwigMtFile] are written and proved against this class. *)
From S2P Require Import Prelude.

Inductive ioerr : Type :=
| EOF
| ErrInvalid
| ErrFileNotFound (fileID : Z)
| ErrInvalidSize.

#[export] Instance ioerr_eq_dec : EqDecision ioerr.
Proof. solve_decision. Defined.

Class AppendFile (F : Type) : Type := {
  af_Append : F → list bytes → outcome (F * Z);
  af_ReadAt : F → nat → Z → bool → outcome (F * (ioerr + bytes));
  af_Size : F → Z;
  af_Flush : F → outcome F;
  af_Truncate : F → Z → outcome F;
  af_PruneHead : F → Z → F
}.

Class AppendFileLaws (F : Type) `{!AppendFile F} : Type := {
  af_ok : F → Prop;
  af_flushed : F → Prop;
  (** the largest number of bytes one call may append *)
  af_limit : F → Z;
  (** [bs] was appended at the address *)
  af_holds : F → Z → bytes → Prop;
  (** [bs] is at the address in the storage itself, where a read finds it
      before the next flush *)
  af_durable : F → Z → bytes → Prop;
  (** the addresses below are stored in one piece *)
  af_block : F → Z;
  (** the file has the window that reads through the pre-reader fill *)
  af_window : F → Prop;
  (** everything appended to the first file is still in the second *)
  af_keeps : F → F → Prop;

  af_keeps_preorder :: PreOrder af_keeps;
  af_holds_keeps f f' off bs : af_keeps f f' → af_holds f off bs → af_holds f' off bs;
  af_limit_keeps f f' : af_keeps f f' → af_limit f' = af_limit f;
  af_block_keeps f f' : af_keeps f f' → af_block f' = af_block f;
  af_window_keeps f f' : af_keeps f f' → af_window f → af_window f';

  af_durable_flushed f off bs : af_flushed f → af_holds f off bs → af_durable f off bs;
  af_durable_keeps f f' off bs : af_keeps f f' → af_durable f off bs → af_durable f' off bs;
  af_durable_prefix f off a b : af_durable f off (a ++ b) → af_durable f off a;
  af_durable_join f off a b : af_durable f off a → af_durable f (off + zlen a) b →
    off + zlen a + zlen b ≤ af_block f → af_durable f off (a ++ b);

  af_Append_ok f bufs :
    af_ok f → zlen (concat bufs) ≤ af_limit f →
    ∃ f', af_Append f bufs = Ret (f', af_Size f) ∧ af_ok f' ∧ af_keeps f f' ∧
      af_holds f' (af_Size f) (concat bufs) ∧
      af_Size f' = af_Size f + zlen (concat bufs);

  af_Flush_ok f :
    af_ok f → ∃ f', af_Flush f = Ret f' ∧ af_ok f' ∧ af_keeps f f' ∧ af_flushed f' ∧
      af_Size f' = af_Size f;

  (** a direct read of appended bytes *)
  af_ReadAt_direct f off bs : af_durable f off bs → af_ReadAt f (length bs) off false = Ret (f, inr bs);

  (** a read through the pre-reader, which needs a further byte in the file *)
  af_ReadAt_buffered f off bs rest :
    af_ok f → af_window f → af_durable f off (bs ++ rest) → rest ≠ [] →
    ∃ f', af_ReadAt f (length bs) off true = Ret (f', inr bs) ∧ af_ok f' ∧
      (af_flushed f → af_flushed f') ∧ af_keeps f f' ∧ af_Size f' = af_Size f
}.

(** How the entry file and the twig Merkle-tree file read: an error panics. *)
Definition read_or_panic {F} `{!AppendFile F} (f : F) (n : nat) (off : Z) (withBuf : bool) :
    outcome (F * bytes) :=
  '(f, r) ← af_ReadAt f n off withBuf;
  match r with
  | inr bs => mret (f, bs)
  | inl _ => Panic "read error"
  end.

Section read.
Context {F : Type} `{!AppendFile F, !AppendFileLaws F}.

Lemma read_direct ef off bs rest :
  af_durable ef off (bs ++ rest) →
  read_or_panic ef (length bs) off false = Ret (ef, bs).
Proof.
  intros Hh%af_durable_prefix. unfold read_or_panic.
  by rewrite (af_ReadAt_direct ef off bs Hh).
Qed.

Lemma read_buffered ef off bs rest :
  af_ok ef → af_window ef → af_durable ef off (bs ++ rest) → rest ≠ [] →
  ∃ ef', read_or_panic ef (length bs) off true = Ret (ef', bs) ∧ af_ok ef' ∧
    (af_flushed ef → af_flushed ef') ∧ af_keeps ef ef' ∧ af_Size ef' = af_Size ef.
Proof.
  intros Hok Hw Hh Hr. destruct (af_ReadAt_buffered ef off bs rest Hok Hw Hh Hr) as (ef' & E & H).
  exists ef'. unfold read_or_panic. by rewrite E.
Qed.

End read.
