(* ===== verification/HPFile.v ===== *)
(** * Head-prunable files (datatree/hpfile.go)

    A logical file cut into block files [dir/<id>-<blockSize>]. Appends go
    through a write buffer; when the youngest block file reaches the block
    size, the next one is opened and starts with as many zero bytes as the
    last append overshot, so that the bytes of one append always lie in one
    block file and the addresses stay contiguous.

    The [*os.File] handles are modelled with their data and their cursor, as
    the Go standard library documents them: [Write] writes at the cursor,
    [ReadAt] does not move it and reports [io.EOF] on a short read. System
    calls on open files succeed. Every method of [HPFile] runs under its
    lock, and [FlushAsync] takes the lock before it returns and releases it
    after flushing, so that later operations see it as [Flush]. The data of
    the directory is the data of the open handles: [NewHPFile] opens every
    file of the directory, and [Append], [Truncate] and [PruneHead] create,
    remove and open files together with their handles. *)
From S2P Require Import Prelude AppendFile.

(** ** Files of the operating system *)

Record osfile : Type := mkosfile { f_data : bytes; f_off : Z }.

Definition os_Write (f : osfile) (b : bytes) : osfile :=
  let off := Z.to_nat (f_off f) in
  let d := f_data f ++ replicate (off - length (f_data f)) 0 in
  mkosfile (take off d ++ b ++ drop (off + length b) d) (f_off f + zlen b).

Definition os_ReadAt (f : osfile) (n : nat) (pos : Z) : bytes * option ioerr :=
  if pos <? 0 then ([], Some ErrInvalid)
  else
    let got := take n (drop (Z.to_nat pos) (f_data f)) in
    (got, if (length got <? n)%nat then Some EOF else None).

Definition os_Truncate (f : osfile) (size : Z) : osfile :=
  let n := Z.to_nat size in
  mkosfile (take n (f_data f) ++ replicate (n - length (f_data f)) 0) (f_off f).

Definition os_SeekEnd (f : osfile) : osfile := mkosfile (f_data f) (zlen (f_data f)).

(** ** The pre-reader: one cached window of one block file *)

Definition PreReadBufSize : Z := 256 * 1024.
Definition fill_count : nat := Z.to_nat PreReadBufSize.

Record PreReader : Type := mkPreReader {
  pr_buf : bytes;
  pr_fileID : Z;
  pr_start : Z;
  pr_end : Z
}.

Definition PreReader_zero : PreReader := mkPreReader [] 0 0 0.

Definition PreReader_Init (pr : PreReader) : PreReader :=
  mkPreReader (replicate fill_count 0) (-1) (pr_start pr) (pr_end pr).

(** [copy(buf, pr.buf\[start-pr.start:\])] into a zeroed [buf] of [n] bytes. *)
Definition copy_out (n : nat) (src : bytes) : bytes := take n src ++ replicate (n - length src) 0.

Definition TryRead (pr : PreReader) (fileID start : Z) (n : nat) : outcome (option bytes) :=
  if (fileID =? pr_fileID pr) && (pr_start pr <=? start) && (start + Z.of_nat n <? pr_end pr) then
    src ← slice (pr_buf pr) (start - pr_start pr) (zlen (pr_buf pr));
    mret (Some (copy_out n src))
  else mret None.

(** The window of [end_ - start] bytes at the start of the buffer, which a
    pre-reader that was not initialised does not have. *)
Definition GetToFill (pr : PreReader) (fileID start end_ : Z) : outcome (PreReader * nat) :=
  _ ← slice (pr_buf pr) 0 (end_ - start);
  mret (mkPreReader (pr_buf pr) fileID start end_, Z.to_nat (end_ - start)).

(** [GetToFill] followed by [f.ReadAt(part, pos)] into the window; on a short
    read [readAtWithBuf] sets the end of the window to what was read. *)
Definition PreReader_fill (pr : PreReader) (f : osfile) (fileID pos : Z) : outcome (PreReader * option ioerr) :=
  '(pr, n) ← GetToFill pr fileID pos (pos + PreReadBufSize);
  let '(got, err) := os_ReadAt f n pos in
  let buf := got ++ drop (length got) (pr_buf pr) in
  let end_ := match err with
              | Some EOF => pos + zlen got
              | _ => pr_end pr
              end in
  mret (mkPreReader buf (pr_fileID pr) (pr_start pr) end_, err).

(** ** The file *)

Record HPFile : Type := mkHPFile {
  fileMap : gmap Z osfile;
  blockSize : Z;
  largestID : Z;
  latestFileSize : Z;
  bufferSize : Z;
  buffer : bytes;
  preReader : PreReader
}.

Definition set_fileMap (hpf : HPFile) fm : HPFile :=
  mkHPFile fm (blockSize hpf) (largestID hpf) (latestFileSize hpf) (bufferSize hpf)
    (buffer hpf) (preReader hpf).
Definition set_largestID (hpf : HPFile) id : HPFile :=
  mkHPFile (fileMap hpf) (blockSize hpf) id (latestFileSize hpf) (bufferSize hpf)
    (buffer hpf) (preReader hpf).
Definition set_latestFileSize (hpf : HPFile) n : HPFile :=
  mkHPFile (fileMap hpf) (blockSize hpf) (largestID hpf) n (bufferSize hpf)
    (buffer hpf) (preReader hpf).
Definition set_buffer (hpf : HPFile) b : HPFile :=
  mkHPFile (fileMap hpf) (blockSize hpf) (largestID hpf) (latestFileSize hpf) (bufferSize hpf)
    b (preReader hpf).
Definition set_preReader (hpf : HPFile) pr : HPFile :=
  mkHPFile (fileMap hpf) (blockSize hpf) (largestID hpf) (latestFileSize hpf) (bufferSize hpf)
    (buffer hpf) pr.

(** A directory listing: the id and the size parsed from each file name, and
    the file's content. *)
Definition NewHPFile (bufSize blkSize : Z) (dir : list (Z * Z * bytes)) : outcome (ioerr + HPFile) :=
  if negb (Z.rem blkSize bufSize =? 0) then Panic "Invalid blockSize"
  else if negb (forallb (λ '(_, size, _), size =? blkSize) dir) then mret (inl ErrInvalidSize)
  else
    let largest := foldl (λ m '(id, _, _), if m <? id then id else m) 0 dir in
    let open_file '(id, _, data) :=
      (id, if id =? largest then os_SeekEnd (mkosfile data 0) else mkosfile data 0) in
    let files := list_to_map (map open_file dir) in
    let files := match dir with [] => {[ 0 := mkosfile [] 0 ]} | _ => files end in
    let latest := match files !! largest with Some f => f_off f | None => 0 end in
    mret (inr (mkHPFile files blkSize largest latest bufSize [] PreReader_zero)).

Definition InitPreReader (hpf : HPFile) : HPFile :=
  set_preReader hpf (PreReader_Init (preReader hpf)).

Definition Size (hpf : HPFile) : Z := largestID hpf * blockSize hpf + latestFileSize hpf.

(** [hpf.fileMap\[hpf.largestID\].Write(b)]; a missing handle is a nil
    [*os.File], whose error both callers of the file turn into a panic. *)
Definition write_latest (hpf : HPFile) (b : bytes) : outcome HPFile :=
  match fileMap hpf !! largestID hpf with
  | Some f => mret (set_fileMap hpf (<[largestID hpf := os_Write f b]> (fileMap hpf)))
  | None => Panic "invalid argument"
  end.

Definition flush (hpf : HPFile) : outcome HPFile :=
  if negb (zlen (buffer hpf) =? 0) then
    hpf ← write_latest hpf (buffer hpf);
    mret (set_buffer hpf [])
  else mret hpf.

Definition Flush := flush.
Definition FlushAsync := flush.

(** ** Truncation and pruning *)

Fixpoint Truncate_files (fuel : nat) (hpf : HPFile) (size : Z) : outcome HPFile :=
  match fuel with
  | O => Panic "out of fuel"
  | S fuel =>
      if size <? largestID hpf * blockSize hpf then
        match fileMap hpf !! largestID hpf with
        | Some _ =>
            Truncate_files fuel
              (set_largestID (set_fileMap hpf (delete (largestID hpf) (fileMap hpf)))
                 (largestID hpf - 1)) size
        | None => Panic "invalid argument"
        end
      else mret hpf
  end.

(** The loop removes at most one file per block, so [largestID + 1] rounds are
    enough for a non-negative size. The last file is closed and opened again:
    the new handle's cursor is at the start of the file. *)
Definition Truncate (hpf : HPFile) (size : Z) : outcome HPFile :=
  hpf ← Truncate_files (S (Z.to_nat (largestID hpf))) hpf size;
  let size := size - largestID hpf * blockSize hpf in
  match fileMap hpf !! largestID hpf with
  | Some f =>
      let f := mkosfile (f_data f) 0 in
      let hpf := set_latestFileSize hpf size in
      mret (set_fileMap hpf (<[largestID hpf := os_Truncate f size]> (fileMap hpf)))
  | None => Panic "invalid argument"
  end.

Definition PruneHead (hpf : HPFile) (off : Z) : HPFile :=
  let fileID := Z.quot off (blockSize hpf) in
  set_fileMap hpf (filter (λ '(id, _), ¬ (id < fileID)) (fileMap hpf)).

(** ** Reading *)

Definition readAtWithBuf (hpf : HPFile) (n : nat) (off : Z) : outcome (HPFile * (ioerr + bytes)) :=
  let fileID := Z.quot off (blockSize hpf) in
  let pos := Z.rem off (blockSize hpf) in
  match fileMap hpf !! fileID with
  | None => mret (hpf, inl (ErrFileNotFound fileID))
  | Some f =>
      ok ← TryRead (preReader hpf) fileID pos n;
      match (ok : option bytes) with
      | Some bs => mret (hpf, inr bs)
      | None =>
          if (PreReadBufSize <=? Z.of_nat n) || (blockSize hpf <? pos + Z.of_nat n) then
            match os_ReadAt f n pos with
            | (bs, None) => mret (hpf, inr bs)
            | (_, Some e) => mret (hpf, inl e)
            end
          else
            '(pr, err) ← PreReader_fill (preReader hpf) f fileID pos;
            let hpf := set_preReader hpf pr in
            match (err : option ioerr) with
            | Some EOF | None =>
                ok ← TryRead pr fileID pos n;
                match (ok : option bytes) with
                | Some bs => mret (hpf, inr bs)
                | None => Panic "Cannot read data just fetched"
                end
            | Some e => mret (hpf, inl e)
            end
      end
  end.

Definition ReadAt (hpf : HPFile) (n : nat) (off : Z) (withBuf : bool) : outcome (HPFile * (ioerr + bytes)) :=
  if withBuf then readAtWithBuf hpf n off
  else
    let fileID := Z.quot off (blockSize hpf) in
    let pos := Z.rem off (blockSize hpf) in
    match fileMap hpf !! fileID with
    | None => mret (hpf, inl (ErrFileNotFound fileID))
    | Some f =>
        match os_ReadAt f n pos with
        | (bs, None) => mret (hpf, inr bs)
        | (_, Some e) => mret (hpf, inl e)
        end
    end.

(** ** Appending *)

(** One round of the loop of [Append]: through the buffer, writing it out when
    it is full. *)
Definition append_buf (hpf : HPFile) (buf : bytes) : outcome HPFile :=
  if bufferSize hpf <? zlen buf then Panic "buf is too large"
  else
    let hpf := set_latestFileSize hpf (latestFileSize hpf + zlen buf) in
    let extraBytes := zlen (buffer hpf) + zlen buf - bufferSize hpf in
    if 0 <? extraBytes then
      head ← slice buf 0 (zlen buf - extraBytes);
      tail ← slice buf (zlen buf - extraBytes) (zlen buf);
      let hpf := set_buffer hpf (buffer hpf ++ head) in
      hpf ← write_latest hpf (buffer hpf);
      mret (set_buffer hpf tail)
    else mret (set_buffer hpf (buffer hpf ++ buf)).

Fixpoint append_bufs (hpf : HPFile) (bufList : list bytes) : outcome HPFile :=
  match bufList with
  | [] => mret hpf
  | buf :: bufList => hpf ← append_buf hpf buf; append_bufs hpf bufList
  end.

(** The end of [Append]: when the block is full, flush it and open the next
    one, with zeros in place of the bytes that went over the block size. The
    capacity of the buffer is [bufferSize]. *)
Definition roll_over (hpf : HPFile) : outcome HPFile :=
  let overflowByteCount := latestFileSize hpf - blockSize hpf in
  if 0 <=? overflowByteCount then
    hpf ← flush hpf;
    let hpf := set_largestID hpf (largestID hpf + 1) in
    hpf ← (if negb (overflowByteCount =? 0) then
             if bufferSize hpf <? overflowByteCount then Panic "slice bounds out of range"
             else mret (set_buffer hpf (replicate (Z.to_nat overflowByteCount) 0))
           else mret hpf);
    let hpf := set_fileMap hpf (<[largestID hpf := mkosfile [] 0]> (fileMap hpf)) in
    mret (set_latestFileSize hpf overflowByteCount)
  else mret hpf.

Definition Append (hpf : HPFile) (bufList : list bytes) : outcome (HPFile * Z) :=
  let startPos := largestID hpf * blockSize hpf + latestFileSize hpf in
  hpf ← append_bufs hpf bufList;
  hpf ← roll_over hpf;
  mret (hpf, startPos).

(** ** The abstract view: the bytes of each block file, buffer included *)

Definition view (hpf : HPFile) (id : Z) : option bytes :=
  f ← fileMap hpf !! id;
  mret (f_data f ++ if decide (id = largestID hpf) then buffer hpf else []).

(** [bs] has been appended at the logical address [off]. *)
Definition holds (hpf : HPFile) (off : Z) (bs : bytes) : Prop :=
  0 ≤ off ∧ ∃ pre post,
    view hpf (Z.quot off (blockSize hpf)) = Some (pre ++ bs ++ post) ∧
    zlen pre = Z.rem off (blockSize hpf).

Definition flushed (hpf : HPFile) : Prop := buffer hpf = [].

(** The cached window agrees with the block file it was read from. *)
Definition cache_ok (hpf : HPFile) : Prop :=
  let pr := preReader hpf in
  pr_fileID pr ≤ largestID hpf ∧ 0 ≤ pr_start pr ∧
  ∀ f, fileMap hpf !! pr_fileID pr = Some f → pr_start pr < pr_end pr →
    pr_end pr ≤ zlen (f_data f) ∧
    let n := Z.to_nat (pr_end pr - pr_start pr) in
    take n (pr_buf pr) = take n (drop (Z.to_nat (pr_start pr)) (f_data f)).

(** The pre-reader was initialised: it has its buffer. *)
Definition windowed (hpf : HPFile) : Prop := zlen (pr_buf (preReader hpf)) = PreReadBufSize.

(** What [append_bufs] maintains: everything but the room left in the block. *)
Record hpf_ok0 (hpf : HPFile) : Prop := mk_ok0 {
  ok_sizes : 0 < bufferSize hpf ≤ blockSize hpf;
  ok_id : 0 ≤ largestID hpf;
  ok_latest : ∃ f, fileMap hpf !! largestID hpf = Some f ∧ f_off f = zlen (f_data f) ∧
    latestFileSize hpf = zlen (f_data f) + zlen (buffer hpf);
  ok_buffer : zlen (buffer hpf) ≤ bufferSize hpf;
  ok_above : ∀ id, largestID hpf < id → fileMap hpf !! id = None;
  ok_cache : cache_ok hpf
}.

Definition hpf_ok (hpf : HPFile) : Prop := hpf_ok0 hpf ∧ latestFileSize hpf < blockSize hpf.

(** What is in a file of the second was there, or came behind it. *)
Definition data_grows (hpf hpf' : HPFile) : Prop := ∀ id f, fileMap hpf !! id = Some f →
  ∃ f' b, fileMap hpf' !! id = Some f' ∧ f_data f' = f_data f ++ b.

#[export] Instance data_grows_preorder : PreOrder data_grows.
Proof.
  split.
  - intros h id f Hf. exists f, []. by rewrite app_nil_r.
  - intros h1 h2 h3 H12 H23 id f Hf. destruct (H12 id f Hf) as (f2 & a & Hf2 & E2).
    destruct (H23 id f2 Hf2) as (f3 & b & Hf3 & E3). exists f3, (a ++ b). by rewrite E3, E2, app_assoc.
Qed.

Lemma data_grows_insert h h' id f b off : fileMap h !! id = Some f →
  fileMap h' = <[id := mkosfile (f_data f ++ b) off]> (fileMap h) → data_grows h h'.
Proof.
  intros Hf E i g Hg. rewrite E. destruct (decide (i = id)) as [->|Hne].
  - rewrite lookup_insert_eq. replace g with f by congruence. by eexists _, b.
  - rewrite lookup_insert_ne by done. exists g, []. by rewrite app_nil_r.
Qed.

(** [hpf'] is [hpf] with [b] appended to its youngest block. *)
Record extends (hpf hpf' : HPFile) (b : bytes) : Prop := mk_extends {
  ext_blockSize : blockSize hpf' = blockSize hpf;
  ext_bufferSize : bufferSize hpf' = bufferSize hpf;
  ext_largestID : largestID hpf' = largestID hpf;
  ext_latest : latestFileSize hpf' = latestFileSize hpf + zlen b;
  ext_view : view hpf' (largestID hpf) = (λ d, d ++ b) <$> view hpf (largestID hpf);
  ext_other : ∀ id, id ≠ largestID hpf → view hpf' id = view hpf id;
  ext_data : data_grows hpf hpf';
  ext_preReader : preReader hpf' = preReader hpf
}.

(** ** Lemmas *)

Lemma os_Write_end f b :
  f_off f = zlen (f_data f) →
  os_Write f b = mkosfile (f_data f ++ b) (zlen (f_data f ++ b)).
Proof.
  intros Ho. unfold os_Write. rewrite Ho. unfold zlen. rewrite Nat2Z.id, Nat.sub_diag.
  cbn [replicate]. rewrite app_nil_r, firstn_all.
  rewrite (drop_ge (f_data f)) by lia. rewrite app_nil_r. f_equal.
  rewrite length_app. lia.
Qed.

Lemma extends_refl hpf : extends hpf hpf [].
Proof.
  split; try done; [rewrite zlen_nil; lia|].
  destruct (view hpf (largestID hpf)); [|done]. simpl. by rewrite app_nil_r.
Qed.

Lemma extends_trans h1 h2 h3 a b :
  extends h1 h2 a → extends h2 h3 b → extends h1 h3 (a ++ b).
Proof.
  intros [E1 E2 E3 E4 E5 E6 E7 E8] [F1 F2 F3 F4 F5 F6 F7 F8]. split; try congruence.
  - rewrite zlen_app. lia.
  - rewrite E3 in F5. rewrite F5, E5. destruct (view h1 (largestID h1)); [|done].
    simpl. by rewrite app_assoc.
  - intros id Hid. rewrite F6 by congruence. auto.
  - by transitivity h2.
Qed.

(** Writing the buffer to the youngest file does not change the view. *)
Lemma write_latest_ok hpf b :
  (∃ f, fileMap hpf !! largestID hpf = Some f ∧ f_off f = zlen (f_data f)) →
  cache_ok hpf → (∀ id, largestID hpf < id → fileMap hpf !! id = None) →
  ∃ f, fileMap hpf !! largestID hpf = Some f ∧
    write_latest hpf b =
      Ret (set_fileMap hpf (<[largestID hpf := mkosfile (f_data f ++ b) (zlen (f_data f ++ b))]> (fileMap hpf))) ∧
    cache_ok (set_fileMap hpf (<[largestID hpf := mkosfile (f_data f ++ b) (zlen (f_data f ++ b))]> (fileMap hpf))).
Proof.
  intros (f & Hf & Ho) (Hc1 & Hc2 & Hc3) Ha. exists f. split; [done|]. split.
  { unfold write_latest. rewrite Hf. by rewrite os_Write_end. }
  split; [done|]. split; [done|]. intros g. cbn [fileMap set_fileMap preReader].
  destruct (decide (pr_fileID (preReader hpf) = largestID hpf)) as [E|E].
  - rewrite E, lookup_insert_eq. intros [= <-] Hlt. cbn [f_data].
    destruct (Hc3 f) as [H1 H2]; [by rewrite E|done|]. rewrite zlen_app.
    pose proof (zlen_nonneg b). split; [lia|]. cbn zeta in *. rewrite H2.
    unfold zlen in *. rewrite drop_app_le, take_app_le by (rewrite ?length_drop; lia). done.
  - rewrite lookup_insert_ne by done. apply Hc3.
Qed.

Lemma view_latest hpf f :
  fileMap hpf !! largestID hpf = Some f → view hpf (largestID hpf) = Some (f_data f ++ buffer hpf).
Proof. intros Hf. unfold view. rewrite Hf. cbn. by rewrite decide_True. Qed.

Lemma view_other hpf id :
  id ≠ largestID hpf → view hpf id = f_data <$> fileMap hpf !! id.
Proof.
  intros Hid. unfold view. destruct (fileMap hpf !! id); [|done]. cbn.
  by rewrite decide_False, app_nil_r.
Qed.

(** The buffer has room for [buf]. *)
Lemma append_buf_fits hpf buf :
  hpf_ok0 hpf → zlen (buffer hpf) + zlen buf ≤ bufferSize hpf →
  ∃ hpf', append_buf hpf buf = Ret hpf' ∧ hpf_ok0 hpf' ∧ extends hpf hpf' buf.
Proof.
  intros [Hs Hi (f & Hf & Ho & Hl) Hb Ha Hc] Hx. unfold append_buf. cbv zeta.
  pose proof (zlen_nonneg (buffer hpf)).
  destruct (Z.ltb_spec (bufferSize hpf) (zlen buf)); [lia|].
  cbn [bufferSize buffer set_latestFileSize].
  destruct (Z.ltb_spec 0 (zlen (buffer hpf) + zlen buf - bufferSize hpf)); [lia|].
  eexists. split; [done|]. split.
  - split; cbn; try done; [|by rewrite zlen_app].
    exists f. rewrite zlen_app. split_and!; [done|done|lia].
  - split; cbn; try done.
    + rewrite (view_latest hpf f Hf). unfold view. cbn. rewrite Hf. cbn.
      rewrite decide_True by done. by rewrite <- app_assoc.
    + intros id Hid. by rewrite !view_other.
    + intros id g Hg. exists g, []. by rewrite app_nil_r.
Qed.

(** The buffer is filled up, written out, and starts again with the rest. *)
Lemma append_buf_spills hpf buf :
  hpf_ok0 hpf → zlen buf ≤ bufferSize hpf → bufferSize hpf < zlen (buffer hpf) + zlen buf →
  ∃ hpf', append_buf hpf buf = Ret hpf' ∧ hpf_ok0 hpf' ∧ extends hpf hpf' buf.
Proof.
  intros [Hs Hi (f & Hf & Ho & Hl) Hb Ha Hc] Hbuf Hx. unfold append_buf. cbv zeta.
  destruct (Z.ltb_spec (bufferSize hpf) (zlen buf)); [lia|].
  cbn [bufferSize buffer set_latestFileSize].
  set (extra := zlen (buffer hpf) + zlen buf - bufferSize hpf).
  destruct (Z.ltb_spec 0 extra); [|lia].
  set (n := Z.to_nat (zlen buf - extra)).
  assert (slice buf 0 (zlen buf - extra) = Ret (take n buf)) as ->.
  { apply slice_Ret. rewrite Z.sub_0_r. split_and!; [lia..|done]. }
  assert (slice buf (zlen buf - extra) (zlen buf) = Ret (drop n buf)) as ->.
  { apply slice_Ret. split_and!; [lia..|]. symmetry. apply take_ge. rewrite length_drop.
    unfold n, zlen in *. lia. }
  cbn [mbind outcome_bind].
  destruct (write_latest_ok (set_buffer (set_latestFileSize hpf (latestFileSize hpf + zlen buf))
    (buffer hpf ++ take n buf)) (buffer hpf ++ take n buf)) as (f' & Hf' & Hw & Hc'); [eauto|done|done|].
  cbn in Hf', Hw |- *. rewrite Hf in Hf'. injection Hf' as <-. rewrite Hw. clear Hw. cbn.
  assert (zlen (drop n buf) = extra) as Hd by (unfold n, zlen in *; rewrite length_drop; lia).
  assert (zlen (take n buf) + zlen (drop n buf) = zlen buf) as Htd by (by rewrite <- zlen_app, take_drop).
  eexists. split; [done|]. split; split; cbn; try done.
  - eexists. rewrite lookup_insert_eq. split; [done|]. split; [done|]. cbn [f_data].
    rewrite Hl, !zlen_app. lia.
  - lia.
  - intros id Hid. rewrite lookup_insert_ne by lia. auto.
  - rewrite (view_latest hpf f Hf). unfold view. cbn. rewrite lookup_insert_eq. cbn.
    rewrite decide_True by done. by rewrite <- !app_assoc, take_drop.
  - intros id Hid. rewrite !view_other by done. cbn. by rewrite lookup_insert_ne by done.
  - by eapply data_grows_insert.
Qed.

Lemma append_bufs_ok hpf bufs :
  hpf_ok0 hpf → (∀ buf, buf ∈ bufs → zlen buf ≤ bufferSize hpf) →
  ∃ hpf', append_bufs hpf bufs = Ret hpf' ∧ hpf_ok0 hpf' ∧ extends hpf hpf' (concat bufs).
Proof.
  revert hpf. induction bufs as [|buf bufs IH]; intros hpf Hok Hb.
  { exists hpf. split; [done|]. split; [done|]. apply extends_refl. }
  assert (∃ h1, append_buf hpf buf = Ret h1 ∧ hpf_ok0 h1 ∧ extends hpf h1 buf) as (h1 & E1 & Hok1 & X1).
  { assert (zlen buf ≤ bufferSize hpf) by (apply Hb, elem_of_cons; auto).
    destruct (Z.le_gt_cases (zlen (buffer hpf) + zlen buf) (bufferSize hpf));
      [by apply append_buf_fits|by apply append_buf_spills]. }
  destruct (IH h1) as (h2 & E2 & Hok2 & X2); [done| |].
  { intros b Hin. rewrite (ext_bufferSize _ _ _ X1). apply Hb, elem_of_cons; auto. }
  exists h2. cbn [append_bufs]. rewrite E1. cbn [mbind outcome_bind]. split; [done|].
  split; [done|]. by eapply extends_trans.
Qed.

(** [h'] keeps every byte of [h] at its address, and in its file if it is in one. *)
Definition keeps (h h' : HPFile) : Prop :=
  blockSize h' = blockSize h ∧ bufferSize h' = bufferSize h ∧
  (∀ id d, view h id = Some d → ∃ ext, view h' id = Some (d ++ ext)) ∧ data_grows h h' ∧
  (windowed h → windowed h').

#[export] Instance keeps_preorder : PreOrder keeps.
Proof.
  split.
  - intros h. split_and!; [done..| |done|done]. intros id d Hv. exists []. by rewrite app_nil_r.
  - intros h1 h2 h3 (E1 & E2 & H12 & D12 & W12) (F1 & F2 & H23 & D23 & W23).
    split_and!; [congruence..| |by transitivity h2|auto].
    intros id d Hv. destruct (H12 _ _ Hv) as [x Hx]. destruct (H23 _ _ Hx) as [y Hy].
    exists (x ++ y). by rewrite app_assoc.
Qed.

Lemma extends_keeps h h' b : extends h h' b → keeps h h'.
Proof.
  intros [E1 E2 E3 E4 E5 E6 E7 E8]. split_and!; [done..| |done|unfold windowed; by rewrite E8]. intros id d Hv.
  destruct (decide (id = largestID h)) as [->|Hne].
  - exists b. by rewrite E5, Hv.
  - exists []. by rewrite E6, Hv, app_nil_r.
Qed.

Lemma holds_keeps h h' off bs : keeps h h' → holds h off bs → holds h' off bs.
Proof.
  intros (E1 & _ & Hk & _) (Ho & pre & post & Hv & Hp). split; [done|].
  destruct (Hk _ _ Hv) as [x Hx]. exists pre, (post ++ x). rewrite E1. split; [|done].
  by rewrite Hx, <- !app_assoc.
Qed.

Lemma flush_ok h :
  hpf_ok0 h → ∃ h', flush h = Ret h' ∧ hpf_ok0 h' ∧ extends h h' [] ∧ flushed h'.
Proof.
  intros Hok. unfold flush. destruct (Z.eqb_spec (zlen (buffer h)) 0) as [E|E]; cbn [negb].
  { exists h. split; [done|]. split; [done|]. split; [apply extends_refl|].
    unfold flushed, zlen in *. destruct (buffer h); [done|cbn [length] in E; lia]. }
  destruct Hok as [Hs Hi (f & Hf & Ho & Hl) Hb Ha Hc].
  destruct (write_latest_ok h (buffer h)) as (f' & Hf' & -> & Hc'); [eauto|done..|].
  rewrite Hf in Hf'. injection Hf' as <-. cbn [mbind outcome_bind mret outcome_ret].
  eexists. split; [done|]. split; [|split; [|done]]; split; cbn; try done.
  - eexists. rewrite lookup_insert_eq. split; [done|]. split; [done|]. cbn [f_data].
    rewrite Hl, zlen_app, zlen_nil. lia.
  - rewrite zlen_nil. lia.
  - intros id Hid. rewrite lookup_insert_ne by lia. auto.
  - rewrite zlen_nil. lia.
  - rewrite (view_latest h f Hf). unfold view. cbn. rewrite lookup_insert_eq. cbn.
    rewrite decide_True by done. done.
  - intros id Hid. rewrite !view_other by done. cbn. by rewrite lookup_insert_ne by done.
  - by eapply data_grows_insert.
Qed.

Lemma roll_over_ok h :
  hpf_ok0 h → latestFileSize h - blockSize h < blockSize h →
  latestFileSize h - blockSize h ≤ bufferSize h →
  ∃ h', roll_over h = Ret h' ∧ hpf_ok h' ∧ keeps h h' ∧ Size h' = Size h.
Proof.
  intros Hok Hl1 Hl2. unfold roll_over. cbv zeta.
  set (n := latestFileSize h - blockSize h) in *.
  destruct (Z.leb_spec 0 n) as [Hn|Hn].
  2: { exists h. split; [done|]. split; [split; [done|lia]|]. done. }
  destruct (flush_ok h Hok) as (h1 & -> & Hok1 & X1 & Hfl). cbn [mbind outcome_bind].
  set (h2 := set_buffer (set_largestID h1 (largestID h1 + 1)) (replicate (Z.to_nat n) 0)).
  assert ((if negb (n =? 0) then
             if bufferSize (set_largestID h1 (largestID h1 + 1)) <? n
             then Panic "slice bounds out of range"
             else mret h2
           else mret (set_largestID h1 (largestID h1 + 1))) = Ret h2) as ->.
  { destruct (Z.eqb_spec n 0) as [E|E]; cbn [negb].
    - unfold h2. rewrite E. unfold flushed in Hfl. destruct h1; cbn in *. by rewrite Hfl.
    - cbn. rewrite (ext_bufferSize _ _ _ X1). by destruct (Z.ltb_spec (bufferSize h) n); [lia|]. }
  cbn [mbind outcome_bind mret outcome_ret]. eexists. split; [done|].
  pose proof (ext_blockSize _ _ _ X1) as Eb. pose proof (ext_bufferSize _ _ _ X1) as Ebf.
  pose proof (ext_largestID _ _ _ X1) as Eid.
  destruct Hok1 as [Hs Hi (f & Hf & Ho & Hlt) Hb Ha (Hc1 & Hc2 & Hc3)].
  split; [|split].
  - split; [|cbn; lia]. split; cbn; try done.
    + lia.
    + eexists. rewrite lookup_insert_eq. split; [done|]. split; [done|]. cbn.
      rewrite zlen_replicate, zlen_nil. lia.
    + rewrite zlen_replicate. lia.
    + intros id Hid. rewrite lookup_insert_ne by lia. apply Ha. lia.
    + split; [cbn; lia|]. split; [done|]. intros g. cbn.
      rewrite lookup_insert_ne by lia. apply Hc3.
  - transitivity h1; [by eapply extends_keeps|]. split_and!; [done..| | |done].
    2:{ intros id g Hg. exists g, []. rewrite app_nil_r. cbn. rewrite lookup_insert_ne; [done|].
        intros <-. rewrite Ha in Hg by lia. done. }
    intros id d Hv. exists []. rewrite app_nil_r.
    destruct (decide (id = largestID h1 + 1)) as [->|Hne].
    { unfold view in Hv. rewrite Ha in Hv by lia. done. }
    rewrite view_other by done. cbn. rewrite lookup_insert_ne by done.
    unfold view in Hv. destruct (fileMap h1 !! id) as [g|] eqn:Eg; [|done]. cbn in *.
    unfold flushed in Hfl. rewrite Hfl in Hv. destruct (decide _); by rewrite app_nil_r in Hv.
  - unfold Size. cbn. lia.
Qed.

Lemma view_latest_size h :
  hpf_ok0 h → ∃ d, view h (largestID h) = Some d ∧ zlen d = latestFileSize h.
Proof.
  intros [? ? (f & Hf & _ & Hl)]. exists (f_data f ++ buffer h).
  rewrite (view_latest _ f Hf), zlen_app. done.
Qed.

Lemma Size_address h :
  hpf_ok h → 0 ≤ Size h ∧ Z.quot (Size h) (blockSize h) = largestID h ∧
  Z.rem (Size h) (blockSize h) = latestFileSize h.
Proof.
  intros [Hok Hr]. destruct (view_latest_size h Hok) as (d & _ & Hd). pose proof (zlen_nonneg d).
  destruct Hok as [Hs Hi _ _ _ _]. unfold Size.
  assert (0 ≤ largestID h * blockSize h + latestFileSize h) by nia.
  split; [done|]. rewrite Z.quot_div_nonneg, Z.rem_mod_nonneg by lia.
  rewrite Z.add_comm. split.
  - rewrite Z.div_add, Z.div_small by lia. lia.
  - rewrite Z.mod_add, Z.mod_small by lia. done.
Qed.

(** The functional specification of [Append]. *)
Lemma Append_ok h bufs :
  hpf_ok h → zlen (concat bufs) ≤ bufferSize h →
  ∃ h', Append h bufs = Ret (h', Size h) ∧ hpf_ok h' ∧ keeps h h' ∧
    holds h' (Size h) (concat bufs) ∧ Size h' = Size h + zlen (concat bufs).
Proof.
  intros Hok Hlen. destruct (Size_address h Hok) as (Hs0 & Hq & Hr). destruct Hok as [Hok Hroom].
  assert (∀ buf, buf ∈ bufs → zlen buf ≤ bufferSize h) as Hb.
  { intros buf (b1 & b2 & ->)%list_elem_of_split. rewrite concat_app in Hlen. cbn [concat] in Hlen.
    zlen. }
  destruct (append_bufs_ok h bufs Hok Hb) as (h1 & E1 & Hok1 & X1).
  pose proof (ok_sizes _ Hok) as Hs. pose proof (ext_latest _ _ _ X1) as El.
  pose proof (ext_blockSize _ _ _ X1) as Eb. pose proof (ext_bufferSize _ _ _ X1) as Ebf.
  destruct (roll_over_ok h1) as (h2 & E2 & Hok2 & K2 & Hsz); [done|lia..|].
  exists h2. unfold Append. cbv zeta. rewrite E1. cbn [mbind outcome_bind]. rewrite E2.
  split; [done|]. split; [done|]. split; [transitivity h1; [by eapply extends_keeps|done]|].
  split.
  - apply (holds_keeps h1); [done|]. split; [done|].
    destruct (view_latest_size h Hok) as (d & Hd & Hdl). exists d, [].
    rewrite Eb, Hq, Hr, (ext_view _ _ _ X1), Hd, app_nil_r. done.
  - rewrite Hsz. unfold Size. rewrite Eb, El, (ext_largestID _ _ _ X1). lia.
Qed.

(** ** Reading *)

Lemma view_flushed h id : flushed h → view h id = f_data <$> fileMap h !! id.
Proof.
  intros Hfl. unfold view. destruct (fileMap h !! id); [|done]. cbn.
  rewrite Hfl. by destruct (decide _); rewrite app_nil_r.
Qed.

(** [bs] is at the address in a block file. *)
Definition durable (h : HPFile) (off : Z) (bs : bytes) : Prop :=
  0 ≤ off ∧ ∃ f pre post, fileMap h !! Z.quot off (blockSize h) = Some f ∧
    f_data f = pre ++ bs ++ post ∧ zlen pre = Z.rem off (blockSize h).

Lemma durable_flushed h off bs : flushed h → holds h off bs → durable h off bs.
Proof.
  intros Hfl (Ho & pre & post & Hv & Hp). split; [done|]. rewrite view_flushed in Hv by done.
  destruct (fileMap h !! _) as [f|] eqn:E; [|done]. injection Hv as Hv. eauto 10.
Qed.

Lemma durable_keeps h h' off bs : keeps h h' → durable h off bs → durable h' off bs.
Proof.
  intros (E1 & _ & _ & Hd & _) (Ho & f & pre & post & Hf & E & Hp). split; [done|]. rewrite E1.
  destruct (Hd _ _ Hf) as (f' & b & Hf' & E'). exists f', pre, (post ++ b).
  split_and!; [done|by rewrite E', E, <- !app_assoc|done].
Qed.

Lemma durable_prefix h off a b : durable h off (a ++ b) → durable h off a.
Proof.
  intros (Ho & f & pre & post & Hf & E & Hp). split; [done|]. exists f, pre, (b ++ post).
  split_and!; [done|by rewrite E, <- app_assoc|done].
Qed.

Lemma durable_join h off a b : durable h off a → durable h (off + zlen a) b →
  off + zlen a + zlen b ≤ blockSize h → durable h off (a ++ b).
Proof.
  intros (Ho & f & pre & post & Hf & E & Hp) (_ & g & pre' & post' & Hg & E' & Hp') Hle. split; [done|].
  destruct b as [|x b]; [rewrite app_nil_r; by exists f, pre, post|].
  assert (0 < zlen (x :: b)) by (rewrite zlen_cons; pose proof (zlen_nonneg b); lia).
  pose proof (zlen_nonneg a). rewrite Z.quot_small, Z.rem_small in * by lia.
  replace g with f in * by congruence. exists f, pre, post'. split_and!; [done| |done].
  rewrite E in E'. rewrite (app_assoc pre a post) in E'.
  apply app_inj_1 in E' as [<- ->]; [by rewrite E, <- !app_assoc|].
  rewrite length_app. unfold zlen in *. lia.
Qed.

Lemma os_ReadAt_mid f pre bs post pos :
  f_data f = pre ++ bs ++ post → zlen pre = pos →
  os_ReadAt f (length bs) pos = (bs, None).
Proof.
  intros Hd <-. unfold os_ReadAt. pose proof (zlen_nonneg pre).
  destruct (Z.ltb_spec (zlen pre) 0); [lia|].
  unfold zlen. rewrite Hd, Nat2Z.id, drop_app_length, take_app_length.
  by rewrite Nat.ltb_irrefl.
Qed.

Lemma ReadAt_direct h off bs : durable h off bs → ReadAt h (length bs) off false = Ret (h, inr bs).
Proof.
  intros (_ & f & pre & post & Hf & Hd & Hp).
  unfold ReadAt. rewrite Hf. by rewrite (os_ReadAt_mid f pre bs post).
Qed.

Lemma os_ReadAt_spec f n pos :
  0 ≤ pos ≤ zlen (f_data f) →
  let got := take n (drop (Z.to_nat pos) (f_data f)) in
  zlen got = Z.min (Z.of_nat n) (zlen (f_data f) - pos) ∧
  os_ReadAt f n pos =
    (got, if Z.of_nat n <=? zlen (f_data f) - pos then None else Some EOF).
Proof.
  intros Hp got. assert (zlen got = Z.min (Z.of_nat n) (zlen (f_data f) - pos)) as Hg.
  { unfold got, zlen in *. rewrite length_take, length_drop. lia. }
  split; [done|]. unfold os_ReadAt. destruct (Z.ltb_spec pos 0); [lia|]. f_equal. fold got.
  unfold zlen in *.
  destruct (Nat.ltb_spec (length got) n), (Z.leb_spec (Z.of_nat n) (Z.of_nat (length (f_data f)) - pos));
    try done; lia.
Qed.

Lemma fill_count_Z : Z.of_nat fill_count = PreReadBufSize.
Proof. apply Z2Nat.id. done. Qed.

(** The window of the pre-reader after a fill. *)
Lemma PreReader_fill_ok h f id pos :
  hpf_ok0 h → windowed h → fileMap h !! id = Some f → 0 ≤ pos ≤ zlen (f_data f) →
  ∃ pr err, PreReader_fill (preReader h) f id pos = Ret (pr, err) ∧
    (err = None ∨ err = Some EOF) ∧ hpf_ok0 (set_preReader h pr) ∧ windowed (set_preReader h pr) ∧
    pr_fileID pr = id ∧ pr_start pr = pos ∧
    pr_end pr = Z.min (pos + PreReadBufSize) (zlen (f_data f)).
Proof.
  intros [Hs Hi Hlt Hb Ha Hc] Hw Hf Hp. unfold windowed in Hw. unfold PreReader_fill, GetToFill.
  assert (0 ≤ PreReadBufSize) as HN by done.
  replace (pos + PreReadBufSize - pos) with PreReadBufSize by lia.
  destruct (slice_in_bounds (pr_buf (preReader h)) 0 PreReadBufSize) as [part ->]; [lia..|].
  apply Z2Nat.id in HN. revert HN. generalize (Z.to_nat PreReadBufSize). intros N HN.
  cbn [mbind outcome_bind mret outcome_ret].
  destruct (os_ReadAt_spec f N pos Hp) as [Hg ->]. cbn zeta in Hg.
  set (got := take N (drop (Z.to_nat pos) (f_data f))) in *.
  set (err := if Z.of_nat N <=? zlen (f_data f) - pos then None else Some EOF).
  cbn [pr_buf pr_end pr_fileID pr_start].
  set (end_ := match err with Some EOF => pos + zlen got | _ => pos + PreReadBufSize end).
  assert (end_ = Z.min (pos + PreReadBufSize) (zlen (f_data f))) as He.
  { unfold end_, err. destruct (Z.leb_spec (Z.of_nat N) (zlen (f_data f) - pos)); lia. }
  eexists _, err. split; [done|].
  split; [unfold err; destruct (_ <=? _); auto|]. split; [|split; [|done]].
  2: { unfold windowed. cbn. unfold zlen in *. rewrite length_app, length_drop. lia. }
  split; try done. split; cbn.
  { destruct (decide (id ≤ largestID h)); [done|]. rewrite Ha in Hf; [done|lia]. }
  split; [lia|]. intros g Hg'. rewrite Hf in Hg'. injection Hg' as <-. intros Hlt'.
  split; [lia|]. fold end_. rewrite He.
  replace (Z.to_nat (Z.min (pos + PreReadBufSize) (zlen (f_data f)) - pos)) with (length got)
    by (unfold zlen in *; lia).
  rewrite take_app_length. unfold got. by rewrite length_take, take_min_length.
Qed.

(** The condition under which [TryRead] serves a read from the window *)
Definition in_window (pr : PreReader) (id pos : Z) (n : nat) : Prop :=
  id = pr_fileID pr ∧ pr_start pr ≤ pos ∧ pos + Z.of_nat n < pr_end pr.

(** What the pre-reader returns is what the file holds. *)
Lemma TryRead_ok h f id pos n :
  hpf_ok0 h → fileMap h !! id = Some f →
  (in_window (preReader h) id pos n ∧ pos + Z.of_nat n < zlen (f_data f) ∧
   TryRead (preReader h) id pos n = Ret (Some (take n (drop (Z.to_nat pos) (f_data f))))) ∨
  (¬ in_window (preReader h) id pos n ∧ TryRead (preReader h) id pos n = Ret None).
Proof.
  intros [_ _ _ _ _ (_ & Hc2 & Hc3)] Hf. unfold TryRead, in_window.
  destruct (Z.eqb_spec id (pr_fileID (preReader h))) as [->|]; [|right; split; [lia|done]].
  destruct (Z.leb_spec (pr_start (preReader h)) pos); [|right; split; [lia|done]].
  destruct (Z.ltb_spec (pos + Z.of_nat n) (pr_end (preReader h))); [|right; split; [lia|done]].
  left. split; [done|]. destruct (Hc3 f Hf) as [He Hw]; [lia|]. split; [lia|]. cbn [andb].
  set (k := Z.to_nat (pos - pr_start (preReader h))).
  assert (Z.to_nat (pr_end (preReader h) - pr_start (preReader h)) ≤ length (pr_buf (preReader h)))%nat as Hlen.
  { apply (f_equal length) in Hw. cbn zeta in Hw. rewrite !length_take, length_drop in Hw. unfold zlen in He. lia. }
  assert (slice (pr_buf (preReader h)) (pos - pr_start (preReader h)) (zlen (pr_buf (preReader h))) =
    Ret (drop k (pr_buf (preReader h)))) as ->.
  { apply slice_Ret. unfold zlen. split_and!; [lia..|]. rewrite take_ge; [done|]. rewrite length_drop. lia. }
  cbn [mbind outcome_bind]. unfold copy_out. rewrite length_drop.
  replace (n - (length (pr_buf (preReader h)) - k))%nat with 0%nat by lia.
  cbn [replicate]. rewrite app_nil_r. unfold mret, outcome_ret. do 2 f_equal.
  apply (f_equal (λ l, take n (drop k l))) in Hw. cbn zeta in Hw.
  rewrite !take_drop_commute, !take_take, !Nat.min_l in Hw by lia.
  rewrite <- !take_drop_commute, drop_drop in Hw. rewrite Hw. do 2 f_equal. lia.
Qed.

Lemma ReadAt_buffered h off bs rest :
  hpf_ok h → windowed h → durable h off (bs ++ rest) → rest ≠ [] →
  ∃ pr, ReadAt h (length bs) off true = Ret (set_preReader h pr, inr bs) ∧
    hpf_ok (set_preReader h pr) ∧ windowed (set_preReader h pr).
Proof.
  intros [Hok Hroom] Hwin (_ & f & pre & post & Hf & Hd & Hp) Hr.
  set (id := Z.quot off (blockSize h)) in *. set (pos := Z.rem off (blockSize h)) in *.
  assert (take (length bs) (drop (Z.to_nat pos) (f_data f)) = bs) as Hbs.
  { rewrite Hd, <- Hp. unfold zlen. rewrite Nat2Z.id, drop_app_length, <- app_assoc.
    apply take_app_length. }
  assert (0 ≤ pos ∧ pos + zlen bs < zlen (f_data f)) as [Hp0 Hp1].
  { rewrite <- Hp, Hd. assert (0 < zlen rest) by (destruct rest; [done|zlen]). zlen. }
  assert (∃ pr, set_preReader h pr = h) as [pr0 Epr0] by (exists (preReader h); by destruct h).
  unfold ReadAt, readAtWithBuf. cbv zeta. fold id pos. rewrite Hf.
  destruct (TryRead_ok h f id pos (length bs) Hok Hf) as [(_ & _ & ->)|[_ ->]]; cbn [mbind outcome_bind].
  { exists pr0. by rewrite Epr0, Hbs. }
  destruct (_ || _) eqn:Eb.
  { rewrite (os_ReadAt_mid f pre bs (rest ++ post)); [|by rewrite Hd, <- app_assoc|done].
    exists pr0. by rewrite Epr0. }
  apply orb_false_iff in Eb as [Eb1%Z.leb_gt Eb2%Z.ltb_ge].
  destruct (PreReader_fill_ok h f id pos) as (pr & err & -> & Herr & Hok' & Hwin' & Hid & Hst & Hen);
    [done|done|done|pose proof (zlen_nonneg bs); lia|]. cbn [mbind outcome_bind].
  exists pr. split; [|by split].
  destruct (TryRead_ok (set_preReader h pr) f id pos (length bs) Hok' Hf) as [(_ & _ & E)|[Hno _]].
  - cbn [preReader set_preReader] in E. rewrite E, Hbs. cbn [mbind outcome_bind]. by destruct Herr as [->| ->].
  - exfalso. apply Hno. unfold in_window. cbn. rewrite Hid, Hst, Hen. unfold zlen in *. lia.
Qed.

(** ** The interface *)

#[export] Instance HPFile_AppendFile : AppendFile HPFile := {|
  af_Append := Append;
  af_ReadAt := ReadAt;
  af_Size := Size;
  af_Flush := flush;
  af_Truncate := Truncate;
  af_PruneHead := PruneHead
|}.

Lemma Flush_ok h :
  hpf_ok h → ∃ h', flush h = Ret h' ∧ hpf_ok h' ∧ keeps h h' ∧ flushed h' ∧ Size h' = Size h.
Proof.
  intros [Hok Hr]. destruct (flush_ok h Hok) as (h' & E & Hok' & X & Hfl).
  pose proof (ext_latest _ _ _ X) as El. rewrite zlen_nil in El.
  pose proof (ext_blockSize _ _ _ X) as Eb. pose proof (ext_largestID _ _ _ X) as Eid.
  exists h'. split; [done|]. split; [split; [done|lia]|].
  split; [by eapply extends_keeps|]. split; [done|]. unfold Size. rewrite Eb, El, Eid. lia.
Qed.

Lemma keeps_set_preReader h pr : (windowed h → windowed (set_preReader h pr)) → keeps h (set_preReader h pr).
Proof.
  intros Hw. split_and!; [done..| | |done].
  - intros id d Hv. exists []. by rewrite app_nil_r.
  - intros id g Hg. exists g, []. by rewrite app_nil_r.
Qed.

#[export] Program Instance HPFile_AppendFileLaws : AppendFileLaws HPFile := {|
  af_ok := hpf_ok;
  af_flushed := flushed;
  af_limit := bufferSize;
  af_holds := holds;
  af_durable := durable;
  af_block := blockSize;
  af_window := windowed;
  af_keeps := keeps
|}.
Next Obligation. apply holds_keeps. Qed.
Next Obligation. intros f f' (_ & E & _). exact E. Qed.
Next Obligation. intros f f' (E & _). exact E. Qed.
Next Obligation. intros f f' (_ & _ & _ & _ & Hw). exact Hw. Qed.
Next Obligation. apply durable_flushed. Qed.
Next Obligation. apply durable_keeps. Qed.
Next Obligation. apply durable_prefix. Qed.
Next Obligation. apply durable_join. Qed.
Next Obligation. apply Append_ok. Qed.
Next Obligation. apply Flush_ok. Qed.
Next Obligation. apply ReadAt_direct. Qed.
Next Obligation.
  intros f off bs rest Hok Hw Hh Hr.
  destruct (ReadAt_buffered f off bs rest Hok Hw Hh Hr) as (pr & E & Hok' & Hw').
  exists (set_preReader f pr). split_and!; [done|done|done|by apply keeps_set_preReader|done].
Qed.

Lemma InitPreReader_windowed h : windowed (InitPreReader h).
Proof. unfold windowed, InitPreReader, PreReader_Init. cbn [preReader set_preReader pr_buf]. by rewrite zlen_replicate, fill_count_Z. Qed.
Lemma InitPreReader_ok h : hpf_ok h → preReader h = PreReader_zero → hpf_ok (InitPreReader h).
Proof.
  intros [[Hs Hi Hl Hb Ha _] Hr] E. split; [|done]. split; try done.
  unfold cache_ok, InitPreReader, PreReader_Init. cbn. rewrite E. cbn. split_and!; [lia|done|lia].
Qed.

(** ** Opening, pruning *)

(** The directory a file leaves behind. *)
Definition dir_listing (h : HPFile) : list (Z * Z * bytes) :=
  map (λ '(id, f), (id, blockSize h, f_data f)) (map_to_list (fileMap h)).

Lemma largest_spec (m0 : Z) (dir : list (Z * Z * bytes)) M :
  (∀ x, x ∈ dir → x.1.1 ≤ M) → m0 ≤ M → (m0 = M ∨ ∃ x, x ∈ dir ∧ x.1.1 = M) →
  foldl (λ m '(id, _, _), if m <? id then id else m) m0 dir = M.
Proof.
  revert m0. induction dir as [|[[id sz] d] dir IH]; intros m0 Hle Hm Hex; simpl.
  { destruct Hex as [|(x & []%elem_of_nil & _)]; done. }
  assert (id ≤ M) by (apply (Hle (id, sz, d)), elem_of_cons; auto).
  apply IH.
  - intros x Hx. apply Hle, elem_of_cons; auto.
  - destruct (Z.ltb_spec m0 id); lia.
  - destruct Hex as [->|(x & [->|Hx]%elem_of_cons & Hm')].
    + left. destruct (Z.ltb_spec M id); lia.
    + left. cbn in Hm'. destruct (Z.ltb_spec m0 id); lia.
    + right. eauto.
Qed.

Lemma lookup_map_to_list_fmap {A} (g : Z → osfile → A) (m : gmap Z osfile) :
  (list_to_map (map (λ '(id, f), (id, g id f)) (map_to_list m)) : gmap Z A) =
  map_imap (λ id f, Some (g id f)) m.
Proof.
  apply map_eq. intros i. rewrite map_lookup_imap.
  assert (NoDup (map (λ '(id, f), (id, g id f)) (map_to_list m)).*1) as Hnd.
  { replace (_.*1) with ((map_to_list m).*1); [apply NoDup_fst_map_to_list|].
    induction (map_to_list m) as [|[k f] l IHl]; [done|]. cbn. by f_equal. }
  destruct (m !! i) as [f|] eqn:E; cbn.
  - apply elem_of_list_to_map; [done|]. apply list_elem_of_In, in_map_iff.
    exists (i, f). split; [done|]. by apply list_elem_of_In, elem_of_map_to_list.
  - apply not_elem_of_list_to_map_1. intros H.
    apply list_elem_of_In, in_map_iff in H as ([k a] & Hk & Hin). cbn in Hk. subst k.
    apply in_map_iff in Hin as ([k f] & [= -> _] & Hin).
    apply list_elem_of_In, elem_of_map_to_list in Hin. congruence.
Qed.

Lemma holds_above h off bs : hpf_ok h → holds h off bs → Z.quot off (blockSize h) ≤ largestID h.
Proof.
  intros [Hok _] (_ & pre & post & Hv & _).
  destruct (Z.le_gt_cases (Z.quot off (blockSize h)) (largestID h)) as [|Hlt]; [done|].
  unfold view in Hv. by rewrite (ok_above _ Hok) in Hv.
Qed.

Lemma lookup_PruneHead h off id :
  fileMap (PruneHead h off) !! id =
    if decide (id < Z.quot off (blockSize h)) then None else fileMap h !! id.
Proof.
  cbn. rewrite map_lookup_filter. destruct (fileMap h !! id) as [f|]; cbn; repeat case_decide; done.
Qed.

Lemma view_PruneHead h off id :
  view (PruneHead h off) id = if decide (id < Z.quot off (blockSize h)) then None else view h id.
Proof.
  unfold view. rewrite lookup_PruneHead. destruct (decide (id < _)); [done|].
  done.
Qed.

Lemma PruneHead_ok h off :
  hpf_ok h → Z.quot off (blockSize h) ≤ largestID h → hpf_ok (PruneHead h off).
Proof.
  intros [[Hs Hi (f & Hf & Ho & Hl) Hb Ha (Hc1 & Hc2 & Hc3)] Hr] Hq.
  split; [|done]. split; try done.
  - exists f. rewrite lookup_PruneHead. cbn. by rewrite decide_False by lia.
  - intros id Hid. rewrite lookup_PruneHead. case_decide; [done|]. by apply Ha.
  - split; [done|]. split; [done|]. intros g. rewrite lookup_PruneHead.
    case_decide; [done|]. apply Hc3.
Qed.

Lemma dir_listing_spec h x :
  x ∈ dir_listing h ↔ ∃ g, fileMap h !! x.1.1 = Some g ∧ x = (x.1.1, blockSize h, f_data g).
Proof.
  destruct x as [[i sz] d]. unfold dir_listing. rewrite list_elem_of_In, in_map_iff. split.
  - intros ([k g] & [= -> <- <-] & Hin). apply list_elem_of_In, elem_of_map_to_list in Hin. eauto.
  - cbn. intros (g & Hg & [= -> ->]). exists (i, g). split; [done|].
    by apply list_elem_of_In, elem_of_map_to_list.
Qed.

Lemma dir_listing_largest h :
  hpf_ok h →
  foldl (λ m '(id, _, _), if m <? id then id else m) 0 (dir_listing h) = largestID h.
Proof.
  intros [[_ Hi (f & Hf & _) _ Ha _] _]. apply largest_spec; [|done|].
  - intros x (g & Hg & _)%dir_listing_spec.
    destruct (Z.le_gt_cases x.1.1 (largestID h)); [done|]. rewrite Ha in Hg; [done|lia].
  - right. exists (largestID h, blockSize h, f_data f). split; [|done].
    apply dir_listing_spec. eauto.
Qed.

(** The handle [NewHPFile] opens on a file of the directory. *)
Definition reopened (largest id : Z) (f : osfile) : osfile :=
  if id =? largest then os_SeekEnd (mkosfile (f_data f) 0) else mkosfile (f_data f) 0.

Lemma NewHPFile_files h :
  hpf_ok h → Z.rem (blockSize h) (bufferSize h) = 0 →
  NewHPFile (bufferSize h) (blockSize h) (dir_listing h) =
  Ret (inr (mkHPFile (map_imap (λ id f, Some (reopened (largestID h) id f)) (fileMap h))
    (blockSize h) (largestID h)
    (match fileMap h !! largestID h with Some f => zlen (f_data f) | None => 0 end)
    (bufferSize h) [] PreReader_zero)).
Proof.
  intros Hok Hrem. unfold NewHPFile. rewrite Hrem. cbn [Z.eqb negb].
  assert (forallb (λ '(_, size, _), size =? blockSize h) (dir_listing h) = true) as ->.
  { apply forallb_forall. intros [[? sz] ?] Hin. unfold dir_listing in Hin.
    apply in_map_iff in Hin as ([? ?] & [= _ <- _] & _). apply Z.eqb_refl. }
  cbn [negb]. cbv zeta. rewrite dir_listing_largest by done.
  destruct Hok as [[_ _ (f & Hf & _) _ _ _] _].
  assert (dir_listing h ≠ []) as Hne.
  { intros E. assert ((largestID h, blockSize h, f_data f) ∈ dir_listing h) as Hin
      by (apply dir_listing_spec; eauto). rewrite E in Hin. by apply elem_of_nil in Hin. }
  assert (list_to_map (map (λ '(id, _, data), (id, if id =? largestID h
      then os_SeekEnd (mkosfile data 0) else mkosfile data 0)) (dir_listing h)) =
    map_imap (λ id f, Some (reopened (largestID h) id f)) (fileMap h)) as ->.
  { rewrite <- lookup_map_to_list_fmap. unfold dir_listing. rewrite map_map. f_equal.
    apply map_ext. by intros [id g]. }
  destruct (dir_listing h); [done|]. rewrite map_lookup_imap, Hf. cbn.
  unfold reopened. by rewrite Z.eqb_refl.
Qed.

(** ** Properties *)

(** C17: an append returns the size of the file as its address; once the file
    is flushed, the bytes appended are read back at that address, whichever way
    the buffer and the block boundary cut them, and so is everything that was
    appended before. *)
Theorem append_flush_read (h : HPFile) (bufs : list bytes) :
  hpf_ok h → zlen (concat bufs) ≤ bufferSize h →
  ∃ h1 h2, Append h bufs = Ret (h1, Size h) ∧ Flush h1 = Ret h2 ∧ hpf_ok h2 ∧
    Size h2 = Size h + zlen (concat bufs) ∧
    ReadAt h2 (length (concat bufs)) (Size h) false = Ret (h2, inr (concat bufs)) ∧
    ∀ off bs, holds h off bs → ReadAt h2 (length bs) off false = Ret (h2, inr bs).
Proof.
  intros Hok Hlen. destruct (Append_ok h bufs Hok Hlen) as (h1 & E1 & Hok1 & K1 & Hh & Hs).
  destruct (Flush_ok h1 Hok1) as (h2 & E2 & Hok2 & K2 & Hfl & Hs2).
  exists h1, h2. split_and!; [done..|lia| |].
  - apply ReadAt_direct, durable_flushed; [done|]. by eapply holds_keeps.
  - intros off bs Hb. apply ReadAt_direct, durable_flushed; [done|].
    eapply holds_keeps; [|done]. by transitivity h1.
Qed.

(** C34: a read through the pre-reader, on a file whose pre-reader was
    initialised, gives the bytes of the file when at least one more byte
    follows them in the block file; a short read that ends exactly at the end
    of the block file panics, because [TryRead] asks for one byte too many. On
    a file whose pre-reader was never initialised every short read panics,
    because [GetToFill] slices a nil buffer. *)
Theorem buffered_read_agrees_or_panics (h : HPFile) (off : Z) (bs rest : bytes) :
  hpf_ok h → flushed h → 0 ≤ off →
  (∃ pre, view h (Z.quot off (blockSize h)) = Some (pre ++ bs ++ rest) ∧
     zlen pre = Z.rem off (blockSize h)) →
  (windowed h → rest ≠ [] →
     ∃ h', ReadAt h (length bs) off true = Ret (h', inr bs) ∧ hpf_ok h' ∧ windowed h') ∧
  (zlen bs < PreReadBufSize → Z.rem off (blockSize h) + zlen bs ≤ blockSize h →
     (windowed h → rest = [] →
        ReadAt h (length bs) off true = Panic "Cannot read data just fetched") ∧
     (preReader h = PreReader_zero →
        ReadAt h (length bs) off true = Panic "slice bounds out of range")).
Proof.
  intros Hok Hfl Hoff (pre & Hv & Hp). split.
  { intros Hw Hr. destruct (ReadAt_buffered h off bs rest) as (pr & E & Hok'); [done|done| |done|eauto].
    apply durable_flushed; [done|]. split; [done|]. exists pre, []. by rewrite app_nil_r. }
  intros Hn Hb. destruct Hok as [Hok _].
  set (id := Z.quot off (blockSize h)) in *. set (pos := Z.rem off (blockSize h)) in *.
  rewrite view_flushed in Hv by done. destruct (fileMap h !! id) as [f|] eqn:Hf; [|done].
  injection Hv as Hv. assert (zlen (f_data f) = pos + zlen bs + zlen rest) as Hz by (rewrite Hv; zlen).
  pose proof (zlen_nonneg pre). pose proof (zlen_nonneg bs). pose proof (zlen_nonneg rest).
  assert ((PreReadBufSize <=? Z.of_nat (length bs)) || (blockSize h <? pos + Z.of_nat (length bs)) = false) as Eb.
  { apply orb_false_iff. rewrite Z.leb_gt, Z.ltb_ge. unfold zlen in *. lia. }
  unfold ReadAt, readAtWithBuf. cbv zeta. fold id pos. rewrite Hf. split.
  - intros Hw ->. rewrite zlen_nil in Hz.
    destruct (TryRead_ok h f id pos (length bs) Hok Hf) as [(_ & ? & _)|[_ ->]]; [unfold zlen in *; lia|].
    cbn [mbind outcome_bind]. rewrite Eb.
    destruct (PreReader_fill_ok h f id pos) as (pr & err & -> & Herr & Hok' & _ & Hid & Hst & Hen);
      [done|done|done|lia|]. cbn [mbind outcome_bind].
    destruct (TryRead_ok (set_preReader h pr) f id pos (length bs) Hok' Hf) as [(_ & ? & _)|[_ E]];
      [unfold zlen in *; lia|]. cbn [preReader set_preReader] in E. rewrite E. by destruct Herr as [->| ->].
  - intros E0.
    destruct (TryRead_ok h f id pos (length bs) Hok Hf) as [((_ & _ & Hin) & _)|[_ ->]].
    { rewrite E0 in Hin. cbn in Hin. unfold zlen in *. lia. }
    cbn [mbind outcome_bind]. rewrite Eb, E0. unfold PreReader_fill, GetToFill. cbn [pr_buf PreReader_zero].
    replace (pos + PreReadBufSize - pos) with PreReadBufSize by lia. done.
Qed.

(** Pruning the head removes the block files before the one that holds the
    address, and nothing else: what was appended in the remaining files is
    still there, and reads of the removed ones report a missing file. *)
Theorem PruneHead_keeps_tail (h : HPFile) (off : Z) :
  hpf_ok h → Z.quot off (blockSize h) ≤ largestID h →
  hpf_ok (PruneHead h off) ∧ Size (PruneHead h off) = Size h ∧
  (∀ o bs, Z.quot off (blockSize h) ≤ Z.quot o (blockSize h) →
     holds h o bs → holds (PruneHead h off) o bs) ∧
  (∀ o n, Z.quot o (blockSize h) < Z.quot off (blockSize h) →
     ReadAt (PruneHead h off) n o false =
       Ret (PruneHead h off, inl (ErrFileNotFound (Z.quot o (blockSize h))))).
Proof.
  intros Hok Hq. split; [by apply PruneHead_ok|]. split; [done|]. split.
  - intros o bs Ho (? & pre & post & Hv & Hp). split; [done|]. exists pre, post.
    rewrite view_PruneHead. cbn [blockSize PruneHead set_fileMap]. by rewrite decide_False by lia.
  - intros o n Ho. unfold ReadAt. rewrite lookup_PruneHead.
    cbn [blockSize PruneHead set_fileMap]. by rewrite decide_True.
Qed.

(** C35: closing a flushed file and opening its directory again gives a file
    with the same bytes at the same addresses. *)
Theorem reopen_roundtrip (h : HPFile) :
  hpf_ok h → flushed h → Z.rem (blockSize h) (bufferSize h) = 0 →
  ∃ h', NewHPFile (bufferSize h) (blockSize h) (dir_listing h) = Ret (inr h') ∧
    hpf_ok h' ∧ flushed h' ∧ Size h' = Size h ∧ ∀ id, view h' id = view h id.
Proof.
  intros Hok Hfl Hrem. eexists. split; [by apply NewHPFile_files|].
  destruct Hok as [[Hs Hi (f & Hf & Ho & Hl) Hb Ha _] Hr]. rewrite Hf.
  unfold flushed in Hfl. rewrite Hfl, zlen_nil in Hl. split; [|split; [done|]].
  - split; [|cbn; lia]. split; cbn; try done.
    + exists (reopened (largestID h) (largestID h) f). rewrite map_lookup_imap, Hf.
      split; [done|]. unfold reopened. rewrite Z.eqb_refl. cbn. rewrite zlen_nil. lia.
    + rewrite zlen_nil. lia.
    + intros id Hid. by rewrite map_lookup_imap, Ha.
  - split; [unfold Size; cbn; lia|]. intros id. rewrite !view_flushed by done. cbn.
    rewrite map_lookup_imap. destruct (fileMap h !! id) as [g|]; [|done]. cbn.
    unfold reopened. by destruct (id =? largestID h).
Qed.

(** Truncating inside the youngest block leaves the new handle at the
    start of the file: what is appended afterwards is reported at the new end
    of the file, but is written over the first bytes of the block. *)
Theorem Truncate_then_Append_overwrites (h : HPFile) (size : Z) (buf : bytes) :
  hpf_ok h → flushed h → largestID h * blockSize h ≤ size ≤ Size h →
  0 < zlen buf ≤ bufferSize h → size + zlen buf < (largestID h + 1) * blockSize h →
  ∃ h1 h2 h3, Truncate h size = Ret h1 ∧ Append h1 [buf] = Ret (h2, size) ∧
    Flush h2 = Ret h3 ∧
    ReadAt h3 (length buf) (largestID h * blockSize h) false = Ret (h3, inr buf).
Proof.
  intros [[Hs Hi (f & Hf & Ho & Hl) Hb Ha Hc] Hr] Hfl Hsz Hbuf Hroom.
  set (sz := size - largestID h * blockSize h).
  set (f1 := os_Truncate (mkosfile (f_data f) 0) sz).
  set (h1 := set_fileMap (set_latestFileSize h sz) (<[largestID h := f1]> (fileMap h))).
  assert (Truncate h size = Ret h1) as E1.
  { unfold Truncate. cbn [Truncate_files]. destruct (Z.ltb_spec size (largestID h * blockSize h)); [lia|].
    cbn. by rewrite Hf. }
  unfold flushed in Hfl.
  set (h2 := set_buffer (set_latestFileSize h1 (sz + zlen buf)) buf).
  assert (Append h1 [buf] = Ret (h2, size)) as E2.
  { unfold Append. cbn [append_bufs]. unfold append_buf. cbv zeta. cbn. rewrite Hfl. change (zlen (@nil Z)) with 0. cbn [app].
    destruct (Z.ltb_spec (bufferSize h) (zlen buf)); [lia|].
    destruct (Z.ltb_spec 0 (0 + zlen buf - bufferSize h)); [lia|]. cbn.
    unfold roll_over. cbn. destruct (Z.leb_spec 0 (sz + zlen buf - blockSize h)); [lia|]. cbn.
    f_equal. f_equal. lia. }
  set (h3 := set_buffer (set_fileMap h2 (<[largestID h := os_Write f1 buf]> (fileMap h2))) []).
  exists h1, h2, h3. split; [done|]. split; [done|]. split.
  { unfold Flush, flush. cbn. destruct (Z.eqb_spec (zlen buf) 0); [lia|]. cbn.
    unfold write_latest. cbn. by rewrite lookup_insert_eq. }
  unfold ReadAt. cbn. rewrite Z.quot_mul, Z.rem_mul by lia. rewrite lookup_insert_eq.
  rewrite (os_ReadAt_mid _ [] buf (drop (length buf) (f_data f1))); [done| |done].
  unfold os_Write. cbn. by rewrite app_nil_r.
Qed.

(** ** Witnesses *)

(** A flushed file of five bytes, with a 16-byte buffer and 64-byte blocks, and
    the same file with a pre-reader. *)
Definition file5 : HPFile :=
  mkHPFile {[ 0 := mkosfile [1; 2; 3; 4; 5] 5 ]} 64 0 5 16 [] PreReader_zero.
Definition file5w : HPFile := InitPreReader file5.

Lemma file5_ok : hpf_ok file5.
Proof.
  split; [|done]. split; cbn; try done.
  - by exists (mkosfile [1; 2; 3; 4; 5] 5).
  - intros id Hid. by rewrite lookup_singleton_ne by lia.
Qed.

Lemma append_flush_read_witness :
  ∃ h1 h2, Append file5 [[6; 7]; []; [8]] = Ret (h1, 5) ∧ Flush h1 = Ret h2 ∧
    ReadAt h2 3 5 false = Ret (h2, inr [6; 7; 8]).
Proof.
  destruct (append_flush_read file5 [[6; 7]; []; [8]]) as (h1 & h2 & E1 & E2 & _ & _ & E3 & _);
    [apply file5_ok|vm_decide|]. exists h1, h2. split_and!; [exact E1|exact E2|exact E3].
Defined.

Lemma buffered_read_agrees_or_panics_witness :
  ReadAt file5w 5 0 true = Panic "Cannot read data just fetched" ∧
  (∃ h', ReadAt file5w 4 0 true = Ret (h', inr [1; 2; 3; 4])) ∧
  ReadAt file5 4 0 true = Panic "slice bounds out of range".
Proof.
  split_and!.
  - destruct (buffered_read_agrees_or_panics file5w 0 [1; 2; 3; 4; 5] []) as [_ H];
      [by apply InitPreReader_ok; [apply file5_ok|]|done|done|by exists []|]. apply H; [done|done|apply InitPreReader_windowed|done].
  - destruct (buffered_read_agrees_or_panics file5w 0 [1; 2; 3; 4] [5]) as [H _];
      [by apply InitPreReader_ok; [apply file5_ok|]|done|done|by exists []|].
    destruct H as (h' & H & _); [apply InitPreReader_windowed|done|]. exists h'. exact H.
  - destruct (buffered_read_agrees_or_panics file5 0 [1; 2; 3; 4] [5]) as [_ H];
      [apply file5_ok|done|done|by exists []|]. apply H; done.
Defined.

Lemma PruneHead_keeps_tail_witness :
  hpf_ok (PruneHead file5 60) ∧ Size (PruneHead file5 60) = 5.
Proof.
  destruct (PruneHead_keeps_tail file5 60) as (H1 & H2 & _); [apply file5_ok|vm_decide|].
  split; [exact H1|exact H2].
Defined.

Lemma reopen_roundtrip_witness :
  ∃ h', NewHPFile 16 64 (dir_listing file5) = Ret (inr h') ∧ view h' 0 = Some [1; 2; 3; 4; 5].
Proof.
  destruct (reopen_roundtrip file5) as (h' & H1 & _ & _ & _ & H2); [apply file5_ok|done|done|].
  exists h'. split; [exact H1|]. rewrite H2. reflexivity.
Defined.

Lemma Truncate_then_Append_overwrites_witness :
  ∃ h1 h2 h3, Truncate file5 3 = Ret h1 ∧ Append h1 [[9; 9]] = Ret (h2, 3) ∧
    Flush h2 = Ret h3 ∧ ReadAt h3 2 0 false = Ret (h3, inr [9; 9]).
Proof.
  apply (Truncate_then_Append_overwrites file5 3 [9; 9]);
    [apply file5_ok|done|vm_decide|vm_decide|vm_decide].
Defined.
