(* ===== verification/EntryFile.v ===== *)
(** * The entry file (datatree/entryfile.go, from line 213)

    Records are appended at eight-byte boundaries, each behind the magic
    bytes, and are read back by address: decoded, decoded with their list of
    deactivated serial numbers, or raw. Written against [AppendFile]. *)
From S2P Require Import Prelude Types EntryCodec AppendFile HPFile.

(** [NewEntryFile]: the file of a directory, with a pre-reader. *)
Definition NewEntryFile (bufferSize blockSize : Z) (dir : list (Z * Z * bytes)) : outcome (ioerr + HPFile) :=
  res ← NewHPFile bufferSize blockSize dir;
  mret (match res with inl err => inl err | inr h => inr (InitPreReader h) end).

Section entry_file.
Context {F : Type} `{!AppendFile F}.

Definition readMagicBytesAndLength (ef : F) (off : Z) (withBuf : bool) : outcome (F * (Z * nat)) :=
  '(ef, buf) ← read_or_panic ef 12 off withBuf;
  magic ← slice buf 0 8;
  _ ← require (bool_decide (magic = MagicBytes)) "Invalid MagicBytes";
  len3 ← slice buf 9 12;
  length ← GetUint24 len3;
  _ ← require (length <? MaxEntryBytes) "Entry to long";
  numberOfSN ← index buf 8;
  mret (ef, (length, Z.to_nat numberOfSN)).

Definition readEntry (ef : F) (off : Z) (withSNList useRaw withBuf : bool) :
    outcome (F * (bytes * nat * Z)) :=
  '(ef, (length, numberOfSN)) ← readMagicBytesAndLength ef off withBuf;
  let nextPos := getNextPos off (length + 8 * Z.of_nat numberOfSN) in
  let '(length, numberOfSN) :=
    if withSNList then (length + 8 * Z.of_nat numberOfSN, numberOfSN) else (length, O) in
  '(ef, origB) ← read_or_panic ef (Z.to_nat (12 + length)) off withBuf;
  if useRaw then
    entrybz ← slice origB 8 (zlen origB);
    mret (ef, (entrybz, numberOfSN, nextPos))
  else
    b ← slice origB 12 (zlen origB);
    entrybz ← recover_payload b;
    mret (ef, (entrybz, numberOfSN, nextPos)).

Definition ReadEntryAndSNList (ef : F) (off : Z) : outcome (F * (Entry * list Z * Z)) :=
  '(ef, (entryBz, numberOfSN, nextPos)) ← readEntry ef off true false true;
  '(entry, deactivedSerialNumList) ← EntryFromBytes entryBz numberOfSN;
  mret (ef, (entry, deactivedSerialNumList, nextPos)).

Definition ReadEntry (ef : F) (off : Z) : outcome (F * (Entry * Z)) :=
  '(ef, (entryBz, numberOfSN, nextPos)) ← readEntry ef off false false false;
  '(entry, _) ← EntryFromBytes entryBz numberOfSN;
  mret (ef, (entry, nextPos)).

Definition ReadEntryRawBytes (ef : F) (off : Z) : outcome (F * (bytes * Z)) :=
  '(ef, (entryBz, _, nextPos)) ← readEntry ef off false true true;
  mret (ef, (entryBz, nextPos)).

(** The four buffers [Append] hands to the file: magic bytes, the two parts of
    the record, zero padding up to a multiple of eight. *)
Definition record_buffers (b0 b1 : bytes) : list bytes :=
  [MagicBytes; b0; b1; replicate (Z.to_nat (getPaddingSize (zlen b0 + zlen b1))) 0].

Definition EntryFile_Append (ef : F) (b : bytes * bytes) : outcome (F * Z) :=
  '(ef, pos) ← af_Append ef (record_buffers b.1 b.2);
  _ ← require (Z.rem pos 8 =? 0) "Entries are not aligned";
  mret (ef, pos).

(** The loop of [GetActiveEntriesInTwig], from the [i]-th of [n] remaining
    entries: the channel's contents, in order. *)
Fixpoint active_entries_from (ef : F) (start : Z) (getBit : Z → bool) (i : Z) (n : nat) :
    outcome (F * list bytes) :=
  match n with
  | O => mret (ef, [])
  | S n =>
      if getBit i then
        '(ef, (entryBz, next)) ← ReadEntryRawBytes ef start;
        '(ef, rest) ← active_entries_from ef next getBit (i + 1) n;
        mret (ef, entryBz :: rest)
      else
        '(ef, (length, numberOfSN)) ← readMagicBytesAndLength ef start true;
        active_entries_from ef (getNextPos start (length + 8 * Z.of_nat numberOfSN)) getBit (i + 1) n
  end.

(** [ScanEntries] (datatree/load_dump.go): every record from [pos] to the size
    the file had at the start, as the channel carries them. *)
Fixpoint ScanEntries_from (fuel : nat) (ef : F) (pos size : Z) : outcome (F * list EntryX) :=
  match fuel with
  | O => Panic "out of fuel"
  | S fuel =>
      if pos <? size then
        '(ef, (entry, sns, nextPos)) ← ReadEntryAndSNList ef pos;
        '(ef, rest) ← ScanEntries_from fuel ef nextPos size;
        mret (ef, mkEntryX entry pos sns :: rest)
      else mret (ef, [])
  end.

Fixpoint ScanEntriesLite_from (fuel : nat) (ef : F) (pos size : Z) : outcome (F * list KeyAndPos) :=
  match fuel with
  | O => Panic "out of fuel"
  | S fuel =>
      if pos <? size then
        '(ef, (entryBz, next)) ← ReadEntryRawBytes ef pos;
        key ← ExtractKeyFromRawBytes entryBz;
        '(ef, rest) ← ScanEntriesLite_from fuel ef next size;
        mret (ef, mkKeyAndPos key pos :: rest)
      else mret (ef, [])
  end.
End entry_file.

(** ** Records and their sizes *)

Definition padding (e : Entry) (sns : list Z) : bytes :=
  replicate (Z.to_nat (getPaddingSize (zlen (EntryToBytes e sns)))) 0.

(** What an append of the entry adds to the file. *)
Definition record (e : Entry) (sns : list Z) : bytes :=
  MagicBytes ++ EntryToBytes e sns ++ padding e sns.

Lemma zlen_MagicBytes : zlen MagicBytes = 8.
Proof. reflexivity. Qed.
#[export] Hint Rewrite zlen_MagicBytes : zlen.

Lemma getPaddingSize_spec n : 0 ≤ n →
  0 ≤ getPaddingSize n < 8 ∧ (n + getPaddingSize n) mod 8 = 0.
Proof.
  intros Hn. unfold getPaddingSize. rewrite Z.rem_mod_nonneg by lia.
  pose proof (Z.mod_pos_bound n 8). pose proof (Z.div_mod n 8).
  destruct (Z.eqb_spec (n mod 8) 0) as [E|E].
  - rewrite Z.add_0_r. lia.
  - split; [lia|]. replace (n + (8 - n mod 8)) with ((n / 8 + 1) * 8) by lia.
    by rewrite Z.mod_mul.
Qed.

Lemma zlen_EntryToBytes e sns : zlen (EntryToBytes e sns) = 4 + body_length e + 8 * zlen sns.
Proof. rewrite EntryToBytes_shape. unfold PutUint24. zlen. Qed.

Lemma zlen_padding e sns : zlen (padding e sns) = getPaddingSize (zlen (EntryToBytes e sns)).
Proof.
  unfold padding. rewrite zlen_replicate, Z2Nat.id; [done|].
  apply getPaddingSize_spec, zlen_nonneg.
Qed.

Lemma zlen_record e sns off :
  off + zlen (record e sns) = getNextPos off (body_length e + 8 * zlen sns).
Proof.
  unfold record, getNextPos. rewrite !zlen_app, zlen_padding, zlen_EntryToBytes.
  change (zlen MagicBytes) with 8. unfold getPaddingSize.
  pose proof (body_length_pos e). pose proof (zlen_nonneg sns).
  rewrite !Z.rem_mod_nonneg by lia.
  replace (body_length e + 8 * zlen sns + (8 + 4)) with (4 + body_length e + 8 * zlen sns + 1 * 8) by lia.
  rewrite Z.mod_add by lia. lia.
Qed.

Lemma record_aligned e sns off : off mod 8 = 0 → (off + zlen (record e sns)) mod 8 = 0.
Proof.
  intros Ho. unfold record. rewrite !zlen_app, zlen_padding.
  destruct (getPaddingSize_spec (zlen (EntryToBytes e sns))) as [_ Hp]; [apply zlen_nonneg|].
  change (zlen MagicBytes) with (1 * 8).
  rewrite Z.add_mod, Ho, Z.add_comm, Z.add_0_r, Zmod_mod, (Z.add_comm (1 * 8)), Z.mod_add by lia.
  done.
Qed.

(** ** Reading one record *)

Definition first12 (e : Entry) (sns : list Z) : bytes :=
  MagicBytes ++ [to_uint 8 (zlen sns)] ++ PutUint24 (body_length e).

Lemma record_first12 e sns :
  record e sns = first12 e sns ++ entry_body e ++ SNListToBytes sns ++ padding e sns.
Proof. unfold record, first12. rewrite EntryToBytes_shape. by rewrite <- !app_assoc. Qed.

(** What [readEntry] reads after the header, with or without the list. *)
Definition read_part (withSNList : bool) (e : Entry) (sns : list Z) : bytes :=
  first12 e sns ++ entry_body e ++ SNListToBytes (if withSNList then sns else []).

Lemma zlen_first12 e sns : zlen (first12 e sns) = 12.
Proof. unfold first12, PutUint24. zlen. Qed.

Lemma length_first12 e sns : length (first12 e sns) = 12%nat.
Proof. pose proof (zlen_first12 e sns). unfold zlen in *. lia. Qed.

Lemma length_read_part w e sns :
  length (read_part w e sns) =
    Z.to_nat (12 + (body_length e + 8 * (if w then zlen sns else 0))).
Proof.
  assert (zlen (read_part w e sns) = 12 + (body_length e + 8 * (if w then zlen sns else 0))) as H.
  { unfold read_part. rewrite !zlen_app, zlen_first12, zlen_entry_body, zlen_SNListToBytes.
    destruct w; cbv iota; rewrite ?zlen_nil; lia. }
  unfold zlen in H at 1. lia.
Qed.

Section reading.
Context {F : Type} `{!AppendFile F, !AppendFileLaws F}.
Implicit Types (ef : F) (e : Entry) (sns : list Z).

Lemma readMagic_ok ef ef' off wb e sns :
  entry_ok e → zlen sns < 256 →
  read_or_panic ef 12 off wb = Ret (ef', first12 e sns) →
  readMagicBytesAndLength ef off wb = Ret (ef', (body_length e, length sns)).
Proof.
  intros (_ & _ & _ & Hl) Hs Hr. unfold readMagicBytesAndLength. rewrite Hr. cbn [mbind outcome_bind].
  pose proof (body_length_pos e). unfold MaxEntryBytes in Hl.
  unfold first12. rewrite (slice_start MagicBytes _ 0 8) by done. cbn [mbind outcome_bind require].
  rewrite bool_decide_true by done. cbn [require mbind outcome_bind].
  rewrite (app_assoc MagicBytes), slice_end by done. cbn [mbind outcome_bind].
  rewrite <- (app_nil_r (PutUint24 _)), GetUint24_PutUint24, Z.mod_small by lia.
  cbn [mbind outcome_bind]. unfold MaxEntryBytes.
  destruct (Z.ltb_spec (body_length e) (2 ^ 24 - 1)); [|lia]. cbn [require mbind outcome_bind].
  rewrite <- app_assoc. unfold MagicBytes. cbn [app index].
  change (index _ 8) with (Ret (to_uint 8 (zlen sns))). cbn [mbind outcome_bind].
  unfold to_uint. rewrite Z.mod_small by (pose proof (zlen_nonneg sns); lia).
  unfold zlen. by rewrite Nat2Z.id.
Qed.

(** The raw and the decoded form of one [readEntry], given its two reads. *)
Lemma readEntry_ok ef ef1 ef2 off w raw wb e sns :
  entry_ok e → zlen sns < 256 →
  read_or_panic ef 12 off wb = Ret (ef1, first12 e sns) →
  read_or_panic ef1 (length (read_part w e sns)) off wb = Ret (ef2, read_part w e sns) →
  readEntry ef off w raw wb =
    Ret (ef2, (if raw then [to_uint 8 (zlen sns)] ++ PutUint24 (body_length e) ++ entry_body e ++
                           SNListToBytes (if w then sns else [])
               else payload_strings e ++ payload_ints e ++ SNListToBytes (if w then sns else []),
               if w then length sns else O, off + zlen (record e sns))).
Proof.
  intros He Hs H1 H2. unfold readEntry. rewrite (readMagic_ok _ _ _ _ e sns He Hs H1).
  cbn [mbind outcome_bind]. change (Z.of_nat (length sns)) with (zlen sns).
  rewrite <- zlen_record. rewrite length_read_part in H2.
  set (L := body_length e + 8 * (if w then zlen sns else 0)) in *.
  assert ((if w then (body_length e + 8 * zlen sns, length sns) else (body_length e, O)) =
          (L, if w then length sns else O)) as ->
    by (unfold L; destruct w; f_equal; lia).
  rewrite H2. cbn [mbind outcome_bind]. unfold read_part. destruct raw.
  - unfold first12. rewrite <- !app_assoc. rewrite slice_end by (try done; zlen). done.
  - rewrite slice_end by (rewrite ?zlen_app, zlen_first12; lia). cbn [mbind outcome_bind].
    by rewrite recover_entry_body by apply He.
Qed.

Lemma ReadEntry_ok ef off e sns rest :
  entry_ok e → zlen sns < 256 → af_durable ef off (record e sns ++ rest) →
  ReadEntry ef off = Ret (ef, (read_back e, off + zlen (record e sns))).
Proof.
  intros He Hs Hh. rewrite record_first12 in Hh.
  assert (read_or_panic ef 12 off false = Ret (ef, first12 e sns)) as H1.
  { rewrite <- (length_first12 e sns). eapply read_direct.
    rewrite <- !app_assoc in Hh. exact Hh. }
  assert (read_or_panic ef (length (read_part false e sns)) off false
          = Ret (ef, read_part false e sns)) as H2.
  { eapply read_direct with (rest := SNListToBytes sns ++ padding e sns ++ rest).
    unfold read_part. change (SNListToBytes (if false then sns else [])) with (@nil Z).
    rewrite app_nil_r, <- !app_assoc. by rewrite <- !app_assoc in Hh. }
  unfold ReadEntry. rewrite (readEntry_ok ef ef ef off false false false e sns He Hs H1 H2).
  cbn [mbind outcome_bind]. change 0%nat with (length (@nil Z)).
  rewrite <- (app_nil_r (SNListToBytes [])).
  by rewrite EntryFromBytes_payload.
Qed.

(** The two buffered reads of a record that is followed by at least one byte,
    be it of its own padding. *)
Lemma buffered_reads ef off e sns rest (w : bool) :
  af_ok ef → af_window ef → af_durable ef off (record e sns ++ rest) →
  padding e sns ++ rest ≠ [] →
  ∃ ef1 ef2, read_or_panic ef 12 off true = Ret (ef1, first12 e sns) ∧
    read_or_panic ef1 (length (read_part w e sns)) off true = Ret (ef2, read_part w e sns) ∧
    af_ok ef2 ∧ (af_flushed ef → af_flushed ef2) ∧ af_keeps ef ef2 ∧ af_Size ef2 = af_Size ef.
Proof.
  intros Hok Hw Hh Hne. rewrite record_first12, <- !app_assoc in Hh.
  destruct (read_buffered ef off (first12 e sns) _ Hok Hw Hh) as (ef1 & E1 & Hok1 & Hfl1 & K1 & S1).
  { intros Hz. apply (f_equal zlen) in Hz. revert Hz. pose proof (body_length_pos e). zlen. }
  rewrite length_first12 in E1.
  set (tail := (if w then [] else SNListToBytes sns) ++ padding e sns ++ rest).
  destruct (read_buffered ef1 off (read_part w e sns) tail Hok1 (af_window_keeps _ _ K1 Hw))
    as (ef2 & E2 & Hok2 & Hfl2 & K2 & S2).
  { apply (af_durable_keeps ef); [done|]. unfold read_part, tail. rewrite <- !app_assoc.
    destruct w; by rewrite <- ?app_assoc. }
  { unfold tail. by intros [_ ?]%app_eq_nil. }
  exists ef1, ef2. split_and!; [done|done|done|tauto|by transitivity ef1|lia].
Qed.

Lemma ReadEntryAndSNList_ok ef off e sns rest :
  entry_ok e → Forall is_int64 sns → zlen sns < 256 →
  af_ok ef → af_window ef → af_durable ef off (record e sns ++ rest) →
  padding e sns ++ rest ≠ [] →
  ∃ ef', ReadEntryAndSNList ef off = Ret (ef', (read_back e, sns, off + zlen (record e sns))) ∧
    af_ok ef' ∧ (af_flushed ef → af_flushed ef') ∧ af_keeps ef ef' ∧ af_Size ef' = af_Size ef.
Proof.
  intros He Hi Hs Hok Hw Hh Hne.
  destruct (buffered_reads ef off e sns rest true Hok Hw Hh Hne) as (ef1 & ef2 & H1 & H2 & H).
  exists ef2. split; [|done]. unfold ReadEntryAndSNList.
  rewrite (readEntry_ok ef ef1 ef2 off true false true e sns He Hs H1 H2).
  cbn [mbind outcome_bind]. rewrite <- (app_nil_r (SNListToBytes sns)).
  by rewrite EntryFromBytes_payload.
Qed.

(** The raw form of a record, without its list. *)
Definition raw_record e sns : bytes := raw_bytes (to_uint 8 (zlen sns)) e.

Lemma ReadEntryRawBytes_ok ef off e sns rest :
  entry_ok e → zlen sns < 256 →
  af_ok ef → af_window ef → af_durable ef off (record e sns ++ rest) →
  padding e sns ++ rest ≠ [] →
  ∃ ef', ReadEntryRawBytes ef off = Ret (ef', (raw_record e sns, off + zlen (record e sns))) ∧
    af_ok ef' ∧ (af_flushed ef → af_flushed ef') ∧ af_keeps ef ef' ∧ af_Size ef' = af_Size ef.
Proof.
  intros He Hs Hok Hw Hh Hne.
  destruct (buffered_reads ef off e sns rest false Hok Hw Hh Hne) as (ef1 & ef2 & H1 & H2 & H).
  exists ef2. split; [|done]. unfold ReadEntryRawBytes.
  rewrite (readEntry_ok ef ef1 ef2 off false true true e sns He Hs H1 H2).
  cbn [mbind outcome_bind]. unfold raw_record, raw_bytes. by rewrite app_nil_r.
Qed.

Lemma readMagic_buffered ef off e sns rest :
  entry_ok e → zlen sns < 256 →
  af_ok ef → af_window ef → af_durable ef off (record e sns ++ rest) →
  ∃ ef', readMagicBytesAndLength ef off true = Ret (ef', (body_length e, length sns)) ∧
    af_ok ef' ∧ (af_flushed ef → af_flushed ef') ∧ af_keeps ef ef' ∧ af_Size ef' = af_Size ef.
Proof.
  intros He Hs Hok Hw Hh. rewrite record_first12, <- !app_assoc in Hh.
  destruct (read_buffered ef off (first12 e sns) _ Hok Hw Hh) as (ef1 & E1 & H).
  { intros Hz. apply (f_equal zlen) in Hz. revert Hz. pose proof (body_length_pos e). zlen. }
  rewrite length_first12 in E1. exists ef1. split; [|done]. by apply readMagic_ok.
Qed.

(** ** A run of records *)

(** From [pos] to [end_] the file holds the records of [l], each readable
    through the pre-reader. *)
Inductive stored ef : Z → list (Entry * list Z) → Z → Prop :=
| stored_nil pos : stored ef pos [] pos
| stored_cons pos e sns rest l end_ :
    entry_ok e → Forall is_int64 sns → zlen sns < 256 →
    af_durable ef pos (record e sns ++ rest) → padding e sns ++ rest ≠ [] →
    stored ef (pos + zlen (record e sns)) l end_ →
    stored ef pos ((e, sns) :: l) end_.

Lemma stored_keeps ef ef' pos l end_ :
  af_keeps ef ef' → stored ef pos l end_ → stored ef' pos l end_.
Proof.
  intros K H. induction H; [constructor|]. econstructor; eauto using af_durable_keeps.
Qed.

Lemma zlen_record_pos e sns : 0 < zlen (record e sns).
Proof.
  rewrite record_first12, zlen_app, zlen_first12. pose proof (body_length_pos e). zlen.
Qed.

Lemma stored_bound ef pos l end_ : stored ef pos l end_ → pos + zlen l ≤ end_.
Proof.
  induction 1 as [|pos e sns rest l end_ He Hi Hs Hh Hne Hst IH]; [rewrite zlen_nil; lia|].
  pose proof (zlen_record_pos e sns). rewrite zlen_cons. lia.
Qed.

Lemma stored_snoc ef pos l end_ e sns :
  entry_ok e → Forall is_int64 sns → zlen sns < 256 → padding e sns ≠ [] →
  af_durable ef end_ (record e sns) → stored ef pos l end_ →
  stored ef pos (l ++ [(e, sns)]) (end_ + zlen (record e sns)).
Proof.
  intros He Hi Hs Hp Hh. induction 1; cbn [app]; [|econstructor; eauto].
  eapply (stored_cons _ _ _ _ []); rewrite ?app_nil_r; eauto using stored_nil.
Qed.

(** The scan of a run, as the channel receives it. *)
Fixpoint scanned (pos : Z) (l : list (Entry * list Z)) : list EntryX :=
  match l with
  | [] => []
  | (e, sns) :: l => mkEntryX (read_back e) pos sns :: scanned (pos + zlen (record e sns)) l
  end.

(** The raw records of the active entries of a run. *)
Fixpoint active_raw (getBit : Z → bool) (i : Z) (l : list (Entry * list Z)) : list bytes :=
  match l with
  | [] => []
  | (e, sns) :: l =>
      if getBit i then raw_record e sns :: active_raw getBit (i + 1) l
      else active_raw getBit (i + 1) l
  end.

Lemma active_entries_ok l : ∀ ef pos end_ getBit i, af_ok ef → af_window ef → stored ef pos l end_ →
  ∃ ef', active_entries_from ef pos getBit i (length l) = Ret (ef', active_raw getBit i l) ∧
    af_ok ef' ∧ (af_flushed ef → af_flushed ef') ∧ af_keeps ef ef' ∧ af_Size ef' = af_Size ef.
Proof.
  induction l as [|[e sns] l IH]; intros ef pos end_ getBit i Hok Hw Hst; [by exists ef|].
  inversion Hst as [|? ? ? rest ? ? He Hi Hs Hh Hne Hst']; subst.
  cbn [active_entries_from length active_raw]. destruct (getBit i).
  - destruct (ReadEntryRawBytes_ok ef pos e sns rest) as (ef1 & -> & Hok1 & Hfl1 & K1 & S1); [done..|].
    cbn [mbind outcome_bind].
    destruct (IH ef1 (pos + zlen (record e sns)) end_ getBit (i + 1)) as (ef2 & -> & Hok2 & Hfl2 & K2 & S2);
      [done|by eapply af_window_keeps|by eapply stored_keeps|]. exists ef2. split_and!; [done|done|tauto|by transitivity ef1|lia].
  - destruct (readMagic_buffered ef pos e sns rest) as (ef1 & -> & Hok1 & Hfl1 & K1 & S1); [done..|].
    cbn [mbind outcome_bind]. change (Z.of_nat (length sns)) with (zlen sns). rewrite <- zlen_record.
    destruct (IH ef1 (pos + zlen (record e sns)) end_ getBit (i + 1)) as (ef2 & -> & Hok2 & Hfl2 & K2 & S2);
      [done|by eapply af_window_keeps|by eapply stored_keeps|]. exists ef2. split_and!; [done|done|tauto|by transitivity ef1|lia].
Qed.

(** ** Properties *)

(** C26: an entry appended with a list of deactivated serial numbers gets the
    current size of the file as its position, an eight-byte boundary; after a
    flush, [ReadEntry] at that position gives the entry back, together with
    the position of the next record. *)
Theorem append_then_ReadEntry ef e sns :
  af_ok ef → 0 ≤ af_Size ef → af_Size ef mod 8 = 0 →
  entry_ok e → zlen sns < 256 → zlen (record e sns) ≤ af_limit ef →
  ∃ ef1 ef2, EntryFile_Append ef (EntryToBytes e sns, []) = Ret (ef1, af_Size ef) ∧
    af_Flush ef1 = Ret ef2 ∧ af_Size ef1 mod 8 = 0 ∧
    ReadEntry ef2 (af_Size ef) = Ret (ef2, (read_back e, af_Size ef1)).
Proof.
  intros Hok H0 Hal He Hs Hlim.
  assert (concat (record_buffers (EntryToBytes e sns) []) = record e sns) as Hc.
  { unfold record, padding. cbn. by rewrite zlen_nil, Z.add_0_r, app_nil_r. }
  destruct (af_Append_ok ef (record_buffers (EntryToBytes e sns) []) Hok) as (ef1 & E1 & Hok1 & K1 & Hh & S1);
    [by rewrite Hc|]. rewrite Hc in Hh, S1.
  destruct (af_Flush_ok ef1 Hok1) as (ef2 & E2 & Hok2 & K2 & Hfl & S2).
  exists ef1, ef2. split_and!; [|done|rewrite S1; by apply record_aligned|].
  - unfold EntryFile_Append. cbn [fst snd]. rewrite E1. cbn [mbind outcome_bind].
    by rewrite Z.rem_mod_nonneg, Hal by lia.
  - rewrite S1. apply (ReadEntry_ok ef2 _ e sns []); [done..|]. rewrite app_nil_r.
    apply af_durable_flushed; [done|]. by eapply af_holds_keeps.
Qed.

(** C27: on a file with a pre-reader, scanning a run of records to the end of
    the file gives exactly the entries that were written, with their positions
    and their lists, in order, when every record of the run has a further byte
    behind its list in its block file, be it of its own padding ([stored]): a
    record that ends exactly where its block file ends cannot be read through
    the pre-reader. A fuel above the number of bytes left is enough. *)
Theorem ScanEntries_exact ef pos l fuel :
  af_ok ef → af_window ef → stored ef pos l (af_Size ef) →
  (Z.to_nat (af_Size ef - pos) < fuel)%nat →
  ∃ ef', ScanEntries_from fuel ef pos (af_Size ef) = Ret (ef', scanned pos l).
Proof.
  intros Hok Hw Hst Hf. remember (af_Size ef) as size eqn:Es.
  revert ef Hok Hw Es fuel Hf Hst. revert pos. induction l as [|[e sns] l IH];
    intros pos ef Hok Hw Es fuel Hf Hst; (destruct fuel as [|fuel]; [lia|]);
    inversion Hst as [|? ? ? rest ? ? He Hi Hs Hh Hne Hst']; subst; cbn [ScanEntries_from scanned].
  { rewrite Z.ltb_irrefl. by exists ef. }
  pose proof (zlen_record_pos e sns). pose proof (stored_bound _ _ _ _ Hst') as Hb.
  pose proof (zlen_nonneg l). destruct (Z.ltb_spec pos (af_Size ef)); [|lia].
  destruct (ReadEntryAndSNList_ok ef pos e sns rest) as (ef1 & -> & Hok1 & _ & K1 & S1); [done..|].
  cbn [mbind outcome_bind].
  destruct (IH (pos + zlen (record e sns)) ef1 Hok1 (af_window_keeps _ _ K1 Hw) (eq_sym S1) fuel) as (ef2 & ->);
    [lia|by eapply stored_keeps|]. by exists ef2.
Qed.
End reading.

(** ** Witnesses: on [HPFile] *)

Definition two_records : list (Entry * list Z) := [(DummyEntry 7, []); (magic_entry, [3; -1])].

Definition two_bytes : bytes := record (DummyEntry 7) [] ++ record magic_entry [3; -1].

(** A flushed file with the two records, and an empty one. *)
Definition file_of (data : bytes) : HPFile :=
  mkHPFile {[ 0 := mkosfile data (zlen data) ]} 1024 0 (zlen data) 512 [] PreReader_zero.

Lemma file_of_ok data : zlen data < 1024 → hpf_ok (file_of data).
Proof.
  intros Hd. split; [|done]. split; cbn; try done.
  - exists (mkosfile data (zlen data)). rewrite lookup_singleton_eq, zlen_nil. cbn.
    split_and!; [done|done|lia].
  - intros id Hid. by rewrite lookup_singleton_ne by lia.
Qed.

(** The same with the pre-reader that [NewEntryFile] gives its file *)
Definition entry_file_of (data : bytes) : HPFile := InitPreReader (file_of data).

Lemma two_records_stored : stored (entry_file_of two_bytes) 0 two_records (af_Size (entry_file_of two_bytes)).
Proof.
  apply (stored_cons _ _ _ _ (record magic_entry [3; -1])); [vm_decide|vm_decide|vm_decide| |vm_decide|].
  { split; [done|]. exists (mkosfile two_bytes (zlen two_bytes)), [], []. rewrite app_nil_r. split_and!; vm_compute; reflexivity. }
  apply (stored_cons _ _ _ _ []); [vm_decide|vm_decide|vm_decide| |vm_decide|].
  { split; [vm_decide|]. exists (mkosfile two_bytes (zlen two_bytes)), (record (DummyEntry 7) []), []. rewrite !app_nil_r. split_and!; vm_compute; reflexivity. }
  replace (af_Size (entry_file_of two_bytes)) with
    (0 + zlen (record (DummyEntry 7) []) + zlen (record magic_entry [3; -1])) by reflexivity.
  constructor.
Qed.

Lemma append_then_ReadEntry_witness :
  ∃ ef1 ef2, EntryFile_Append (file_of []) (EntryToBytes magic_entry [3; -1], []) = Ret (ef1, 0) ∧
    flush ef1 = Ret ef2 ∧ ReadEntry ef2 0 = Ret (ef2, (magic_entry, 120)).
Proof.
  destruct (append_then_ReadEntry (file_of []) magic_entry [3; -1]) as (ef1 & ef2 & E1 & E2 & _ & E3);
    [by apply file_of_ok|done|done|vm_decide|vm_decide|vm_decide|].
  exists ef1, ef2. split; [exact E1|]. split; [exact E2|].
  assert (af_Size ef1 = 120) as Hs.
  { assert (Hr : EntryFile_Append (file_of []) (EntryToBytes magic_entry [3; -1], []) = Ret (ef1, 0))
      by exact E1. vm_compute in Hr. by injection Hr as <-. }
  rewrite <- Hs. exact E3.
Defined.

Lemma ScanEntries_exact_witness :
  ∃ ef', ScanEntries_from 1000 (entry_file_of two_bytes) 0 (af_Size (entry_file_of two_bytes)) =
    Ret (ef', scanned 0 two_records).
Proof.
  apply (ScanEntries_exact (entry_file_of two_bytes) 0 two_records 1000);
    [by apply InitPreReader_ok; [apply file_of_ok|]|apply InitPreReader_windowed|apply two_records_stored|vm_decide].
Defined.
