(* ===== verification/TwigMtFile.v ===== *)
(** * The twig Merkle-tree file (datatree/twigmtfile.go)

    One record of fixed size per finished twig: the position of its first
    entry with a checksum, and the 4095 hashes of its Merkle tree. *)
From S2P Require Import Prelude AppendFile HPFile EntryFile.

(** The checksum is the package meow: any function with 4-byte results. *)
Class Meow : Type := {
  meow32 : bytes → bytes;
  meow32_length b : length (meow32 b) = 4%nat
}.

Definition TwigMtEntryCount : Z := 4095.
Definition TwigMtSize : Z := 12 + TwigMtEntryCount * 32.

Section twig_mt_file.
Context {F : Type} `{!AppendFile F, Hmeow : !Meow}.

Definition append_piece (tf : F) (piece : list bytes) : outcome F :=
  '(tf, _) ← af_Append tf piece; mret tf.

Definition position_pieces (firstEntryPos : Z) : list bytes :=
  let buf := le_bytes 8 (to_uint64 firstEntryPos) in [buf; meow32 buf].

Definition AppendTwig (tf : F) (mtree : list bytes) (firstEntryPos : Z) : outcome F :=
  _ ← require (negb (firstEntryPos <? 0)) "Invalid first entry position";
  _ ← require (zlen mtree =? TwigMtEntryCount) "len(mtree) != TwigMtEntryCount";
  tf ← append_piece tf (position_pieces firstEntryPos);
  for_state (λ tf h, append_piece tf [h]) tf mtree.

Definition GetFirstEntryPos (tf : F) (twigID : Z) : outcome (F * Z) :=
  '(tf, buf) ← read_or_panic tf 12 (twigID * TwigMtSize) false;
  pos ← slice buf 0 8;
  sum ← slice buf 8 12;
  _ ← require (bool_decide (sum = meow32 pos)) "Checksum Error!";
  mret (tf, to_int64 (le_val pos)).

Definition GetHashNode (tf : F) (twigID hashID : Z) : outcome (F * bytes) :=
  _ ← require (negb ((hashID <=? 0) || (hashID >=? 4096))) "Invalid hashID";
  read_or_panic tf 32 (twigID * TwigMtSize + 12 + (hashID - 1) * 32) false.
End twig_mt_file.

Section laws.
Context {F : Type} `{!AppendFile F, !AppendFileLaws F, Hmeow : !Meow}.
Implicit Types (tf : F).

(** The record of the twig is in the file. *)
Definition twig_stored tf (twigID : Z) (mtree : list bytes) (firstEntryPos : Z) : Prop :=
  af_holds tf (twigID * TwigMtSize) (concat (position_pieces firstEntryPos)) ∧
  ∀ i, 1 ≤ i < 4096 → ∃ h, zget mtree (i - 1) = Some h ∧
    af_holds tf (twigID * TwigMtSize + 12 + (i - 1) * 32) h.

Lemma twig_stored_keeps tf tf' id mtree p : af_keeps tf tf' →
  twig_stored tf id mtree p → twig_stored tf' id mtree p.
Proof.
  intros Hk [H1 H2]. split; [by eapply af_holds_keeps|].
  intros i Hi. destruct (H2 i Hi) as (h & E & Hh). exists h. split; [done|]. by eapply af_holds_keeps.
Qed.

Lemma append_piece_ok tf piece : af_ok tf → zlen (concat piece) ≤ af_limit tf →
  ∃ tf', append_piece tf piece = Ret tf' ∧ af_ok tf' ∧ af_keeps tf tf' ∧
    af_holds tf' (af_Size tf) (concat piece) ∧ af_Size tf' = af_Size tf + zlen (concat piece).
Proof.
  intros Hok Hl. destruct (af_Append_ok tf piece Hok Hl) as (tf' & E & HH).
  exists tf'. unfold append_piece. by rewrite E.
Qed.

Lemma append_hashes tf mtree : af_ok tf → 32 ≤ af_limit tf → (∀ h, h ∈ mtree → zlen h = 32) →
  ∃ tf', for_state (λ tf h, append_piece tf [h]) tf mtree = Ret tf' ∧ af_ok tf' ∧ af_keeps tf tf' ∧
    af_Size tf' = af_Size tf + 32 * zlen mtree ∧
    ∀ i h, mtree !! i = Some h → af_holds tf' (af_Size tf + 32 * Z.of_nat i) h.
Proof.
  revert tf. induction mtree as [|h mtree IH]; intros tf Hok Hlim Hh; cbn [for_state].
  { exists tf. rewrite zlen_nil. split_and!; [done|done|done|lia|done]. }
  assert (zlen (concat [h]) = 32) as Hl by (cbn; rewrite app_nil_r; apply Hh; by left).
  destruct (append_piece_ok tf [h] Hok) as (tf1 & -> & Hok1 & K1 & Hh1 & S1); [lia|].
  cbn [mbind outcome_bind].
  destruct (IH tf1) as (tf2 & E2 & Hok2 & K2 & S2 & H2);
    [done|by rewrite (af_limit_keeps tf tf1)|intros; apply Hh; by right|].
  exists tf2. split_and!; [done|done|by etrans|rewrite zlen_cons; lia|].
  intros [|i] x Hx; cbn in Hx.
  - injection Hx as ->. rewrite Z.add_0_r. cbn in Hh1. rewrite app_nil_r in Hh1.
    by eapply af_holds_keeps.
  - replace (af_Size tf + 32 * Z.of_nat (S i)) with (af_Size tf1 + 32 * Z.of_nat i) by lia.
    by apply H2.
Qed.

Lemma zlen_position_pieces p : zlen (concat (position_pieces p)) = 12.
Proof.
  unfold position_pieces. cbn [concat]. rewrite app_nil_r, zlen_app, zlen_le_bytes.
  unfold zlen. rewrite meow32_length. done.
Qed.

Lemma AppendTwig_ok tf id mtree p : af_ok tf → 32 ≤ af_limit tf → af_Size tf = id * TwigMtSize →
  0 ≤ p → zlen mtree = TwigMtEntryCount → (∀ h, h ∈ mtree → zlen h = 32) →
  ∃ tf', AppendTwig tf mtree p = Ret tf' ∧ af_ok tf' ∧ af_keeps tf tf' ∧
    af_Size tf' = (id + 1) * TwigMtSize ∧ twig_stored tf' id mtree p.
Proof.
  intros Hok Hlim Hsz Hp Hl Hh. unfold AppendTwig.
  destruct (Z.ltb_spec p 0); [lia|]. rewrite (proj2 (Z.eqb_eq _ _) Hl). cbn [negb require mbind outcome_bind].
  destruct (append_piece_ok tf (position_pieces p) Hok) as (tf1 & -> & Hok1 & K1 & Hh1 & S1);
    [rewrite zlen_position_pieces; lia|].
  rewrite zlen_position_pieces in S1. cbn [mbind outcome_bind].
  destruct (append_hashes tf1 mtree) as (tf2 & E2 & Hok2 & K2 & S2 & H2);
    [done|by rewrite (af_limit_keeps tf tf1)|done|].
  exists tf2. split_and!; [done|done|by etrans|unfold TwigMtSize, TwigMtEntryCount in *; lia|]. split.
  - rewrite <- Hsz. by eapply af_holds_keeps.
  - intros i Hi. destruct (zget_Some mtree (i - 1)) as [h E]; [unfold TwigMtEntryCount in *; lia|]. exists h. split; [done|].
    unfold zget in E. destruct (Z.leb_spec 0 (i - 1)); [|done].
    replace (id * TwigMtSize + 12 + (i - 1) * 32) with (af_Size tf1 + 32 * Z.of_nat (Z.to_nat (i - 1)))
      by lia.
    by apply H2.
Qed.

Lemma GetFirstEntryPos_ok tf id mtree p : af_flushed tf → 0 ≤ p < 2 ^ 63 →
  twig_stored tf id mtree p → GetFirstEntryPos tf id = Ret (tf, p).
Proof.
  intros Hfl Hp [Hh _]. unfold GetFirstEntryPos.
  assert (length (concat (position_pieces p)) = 12%nat) as Hl.
  { pose proof (zlen_position_pieces p). unfold zlen in *. lia. }
  rewrite <- Hl. rewrite (read_direct tf _ _ []) by (rewrite app_nil_r; by apply af_durable_flushed).
  cbn [mbind outcome_bind]. unfold position_pieces. cbn [concat]. rewrite app_nil_r.
  pose proof (zlen_le_bytes 8 (to_uint64 p)) as Hb. set (buf := le_bytes 8 (to_uint64 p)) in *.
  assert (zlen (meow32 buf) = 4) as Hm by (unfold zlen; by rewrite meow32_length).
  rewrite (slice_start buf (meow32 buf) 0 8) by (done || lia). cbn [mbind outcome_bind].
  rewrite (slice_end buf (meow32 buf) 8 12) by lia.
  cbn [mbind outcome_bind]. rewrite bool_decide_true by done. cbn [require mbind outcome_bind].
  unfold mret, outcome_ret, buf. rewrite le_val_uint64. do 2 f_equal.
  unfold to_uint64 at 2. unfold to_uint. rewrite (Z.mod_small p) by lia.
  apply to_int64_uint64. unfold is_int64. lia.
Qed.

Lemma GetHashNode_ok tf id mtree p i h : af_flushed tf → twig_stored tf id mtree p →
  1 ≤ i < 4096 → zget mtree (i - 1) = Some h → zlen h = 32 → GetHashNode tf id i = Ret (tf, h).
Proof.
  intros Hfl [_ Hh] Hi E Hl. unfold GetHashNode.
  destruct (Z.leb_spec i 0), (Z.geb_spec i 4096); try lia. cbn [orb negb require mbind outcome_bind].
  destruct (Hh i Hi) as (h' & E' & Hh'). rewrite E in E'. injection E' as <-.
  replace 32%nat with (length h) by (unfold zlen in Hl; lia).
  apply (read_direct tf _ _ []). rewrite app_nil_r. by apply af_durable_flushed.
Qed.

(** The Merkle tree of a twig, appended as the next record of the file
    and flushed, is read back by twig id: the position of the first entry with
    its checksum, and every hash at its index; the file grows by exactly one
    record. *)
Theorem AppendTwig_roundtrip tf id mtree p :
  af_ok tf → 32 ≤ af_limit tf → af_Size tf = id * TwigMtSize →
  0 ≤ p < 2 ^ 63 → zlen mtree = TwigMtEntryCount → (∀ h, h ∈ mtree → zlen h = 32) →
  ∃ tf1 tf2, AppendTwig tf mtree p = Ret tf1 ∧ af_Flush tf1 = Ret tf2 ∧
    af_Size tf2 = (id + 1) * TwigMtSize ∧ GetFirstEntryPos tf2 id = Ret (tf2, p) ∧
    ∀ i, 1 ≤ i < 4096 → ∃ h, zget mtree (i - 1) = Some h ∧ GetHashNode tf2 id i = Ret (tf2, h).
Proof.
  intros Hok Hlim Hsz Hp Hl Hh.
  destruct (AppendTwig_ok tf id mtree p) as (tf1 & E1 & Hok1 & K1 & S1 & Hst); [done..|lia|done|done|].
  destruct (af_Flush_ok tf1 Hok1) as (tf2 & E2 & Hok2 & K2 & Hfl & S2).
  pose proof (twig_stored_keeps _ _ _ _ _ K2 Hst) as Hst2.
  exists tf1, tf2. split_and!; [done|done|by rewrite S2|by eapply GetFirstEntryPos_ok|].
  intros i Hi. destruct (zget_Some mtree (i - 1)) as [h E];
    [unfold TwigMtEntryCount in *; lia|]. exists h. split; [done|].
  eapply GetHashNode_ok; [done|done|done|done|]. apply Hh.
  unfold zget in E. destruct (0 <=? i - 1); [|done]. by eapply list_elem_of_lookup_2.
Qed.
End laws.

(** ** Witness: the first record of an empty file *)

Program Definition toy_meow : Meow := {|
  meow32 b := le_bytes 4 (foldl (λ a x, (a * 31 + x + 1) mod 2 ^ 32) 5 b)
|}.
Next Obligation. intros b. apply length_le_bytes. Qed.

Section witness.
#[local] Existing Instance toy_meow.

Lemma AppendTwig_roundtrip_witness :
  ∃ tf1 tf2, AppendTwig (file_of []) (replicate 4095 (replicate 32 7)) 40 = Ret tf1 ∧
    af_Flush tf1 = Ret tf2 ∧ GetFirstEntryPos tf2 0 = Ret (tf2, 40) ∧
    GetHashNode tf2 0 1 = Ret (tf2, replicate 32 7).
Proof.
  destruct (AppendTwig_roundtrip (file_of []) 0 (replicate 4095 (replicate 32 7)) 40)
    as (tf1 & tf2 & E1 & E2 & _ & E3 & E4).
  - by apply file_of_ok.
  - vm_decide.
  - done.
  - lia.
  - vm_decide.
  - intros h Hh. by apply elem_of_replicate in Hh as [-> _].
  - exists tf1, tf2. split_and!; [done|done|done|].
    destruct (E4 1) as (h & Eh & ->); [lia|].
    change (zget (replicate 32 7 :: replicate 4094 (replicate 32 7)) 0 = Some h) in Eh.
    injection Eh as <-. done.
Defined.
End witness.
