(* ===== verification/Hasher.v ===== *)
(** * Batches of hash jobs (datatree/hasher.go)

    A [Hasher] collects jobs, each of which hashes two 32-byte slices and
    copies the digest over a third one; [Run] executes them on all CPUs. The
    slices alias the tree, so the model runs the jobs on a memory with
    addressable slices ([HashMem]). [Run] is sequential in the model; the
    step relation [pstep] is the parallel execution the code performs, and
    [ParrallelRun_deterministic] shows that on independent jobs every
    execution of it ends in the memory of the sequential run. *)
From S2P Require Import Prelude.

(** SHA-256 is the package sha256-simd: any function with 32-byte digests. *)
Class Sha256 : Type := {
  sha256 : bytes → bytes;
  sha256_length b : length (sha256 b) = 32%nat
}.

Definition hash `{Sha256} (b : bytes) : bytes := sha256 b.
Definition hash2 `{Sha256} (level : Z) (a b : bytes) : bytes := sha256 (level :: a ++ b).

(** A memory of hash slots, addressed by [L]. *)
Class HashMem (M L : Type) : Type := {
  mload : M → L → bytes;
  mstore : M → L → bytes → M;
  (** the slot exists and holds 32 bytes *)
  mvalid : M → L → Prop
}.

Class HashMemLaws (M L : Type) `{!HashMem M L, !EqDecision L} : Prop := {
  mload_eq m l v : mvalid m l → mload (mstore m l v) l = v;
  mload_ne m l l' v : l ≠ l' → mload (mstore m l v) l' = mload m l';
  mvalid_store m l v l' : mvalid (mstore m l v) l' ↔ mvalid m l';
  mstore_comm m l l' v v' : l ≠ l' → mstore (mstore m l v) l' v' = mstore (mstore m l' v') l v;
  mstore_twice m l v v' : mstore (mstore m l v) l v' = mstore m l v'
}.

Section hasher.
Context `{!Sha256} {M L : Type} `{!HashMem M L}.

(** A slice argument of [Add]: a slot of the memory, or a local copy. *)
Inductive slot : Type :=
| At (l : L)
| Copy (v : bytes).

Record hashJob : Type := mkJob {
  target : L;
  level : Z;
  srcA : slot;
  srcB : slot
}.

Definition slot_load (m : M) (s : slot) : bytes :=
  match s with At l => mload m l | Copy v => v end.

Definition job_digest (m : M) (job : hashJob) : bytes :=
  hash2 (level job) (slot_load m (srcA job)) (slot_load m (srcB job)).

Definition run (m : M) (job : hashJob) : M := mstore m (target job) (job_digest m job).

Definition run_jobs (m : M) (jobs : list hashJob) : M := foldl run m jobs.

Definition MinimumJobsInGoroutine : Z := 20.

(** [Run]: short batches are run in place, and then, since the first branch
    does not return, again by the workers. *)
Definition Run (m : M) (jobs : list hashJob) : M :=
  let m := if zlen jobs <? MinimumJobsInGoroutine then run_jobs m jobs else m in
  run_jobs m jobs.

(** ** The parallel execution *)

(** A worker is between two jobs, about to read the sources of job [i], about
    to write the digest of job [i], or finished. *)
Inductive worker : Type :=
| Idle
| Reading (i : nat)
| Writing (i : nat) (digest : bytes)
| Done.

Record pconfig : Type := mkConfig { p_mem : M; p_next : nat; p_workers : list worker }.

Inductive pstep (jobs : list hashJob) : pconfig → pconfig → Prop :=
| pstep_fetch m next ws w :
    ws !! w = Some Idle → (next < length jobs)%nat →
    pstep jobs (mkConfig m next ws) (mkConfig m (S next) (<[w := Reading next]> ws))
| pstep_exit m next ws w :
    ws !! w = Some Idle → (length jobs ≤ next)%nat →
    pstep jobs (mkConfig m next ws) (mkConfig m (S next) (<[w := Done]> ws))
| pstep_read m next ws w i job :
    ws !! w = Some (Reading i) → jobs !! i = Some job →
    pstep jobs (mkConfig m next ws) (mkConfig m next (<[w := Writing i (job_digest m job)]> ws))
| pstep_write m next ws w i digest job :
    ws !! w = Some (Writing i digest) → jobs !! i = Some job →
    pstep jobs (mkConfig m next ws)
      (mkConfig (mstore m (target job) digest) next (<[w := Idle]> ws)).

Definition pinit (m : M) (workerCount : nat) : pconfig := mkConfig m 0 (replicate workerCount Idle).

(** No job reads what a job of the batch writes, and no two write the same slot. *)
Definition reads (job : hashJob) (l : L) : Prop := srcA job = At l ∨ srcB job = At l.

Record independent (jobs : list hashJob) : Prop := mk_independent {
  ind_targets : NoDup (target <$> jobs);
  ind_sources j j' : j ∈ jobs → j' ∈ jobs → ¬ reads j (target j')
}.
End hasher.
Arguments slot L : clear implicits.
Arguments hashJob L : clear implicits.
Arguments worker : clear implicits.
Arguments pconfig M : clear implicits.

#[export] Instance reads_dec {L} `{!EqDecision L} (j : hashJob L) l : Decision (reads j l).
Proof.
  unfold reads. assert (∀ s : slot L, Decision (s = At l)) as Hd.
  { intros [l'|v]; [|by right]. destruct (decide (l' = l)) as [->|Hne]; [by left|right; by injection]. }
  apply or_dec; apply Hd.
Defined.

#[export] Instance independent_dec {L} `{!EqDecision L} (js : list (hashJob L)) :
  Decision (independent js).
Proof.
  refine (cast_if (decide (NoDup (target <$> js) ∧
    Forall (λ j, Forall (λ j', ¬ reads j (target j')) js) js))).
  - abstract (destruct_and?; split; [done|]; intros j j' Hj Hj';
      match goal with H : Forall _ _ |- _ =>
        exact (proj1 (Forall_forall _ _) (proj1 (Forall_forall _ _) H j Hj) j' Hj') end).
  - abstract (intros [Hn Hs]; match goal with H : ¬ _ |- _ => apply H end; split; [done|];
      apply Forall_forall; intros j Hj; apply Forall_forall; intros j' Hj'; by apply Hs).
Defined.

Section laws.
Context `{!Sha256} {M L : Type} `{!HashMem M L, !EqDecision L, !HashMemLaws M L}.
Implicit Types (m : M) (job j : hashJob L) (jobs js : list (hashJob L)).

Lemma hash2_length lv a b : length (hash2 lv a b) = 32%nat.
Proof. apply sha256_length. Qed.

Lemma slot_load_store m l v s : s ≠ At l → slot_load (mstore m l v) s = slot_load m s.
Proof. destruct s as [l'|]; [|done]. intros Hne. cbn. apply mload_ne. by intros ->. Qed.

Lemma job_digest_store m l v j : ¬ reads j l → job_digest (mstore m l v) j = job_digest m j.
Proof.
  intros Hr. unfold job_digest, reads in *.
  rewrite !slot_load_store; [done|..]; naive_solver.
Qed.

(** ** The sequential run *)

Lemma run_jobs_app m js js' : run_jobs m (js ++ js') = run_jobs (run_jobs m js) js'.
Proof. apply foldl_app. Qed.

Lemma run_jobs_digest m js j :
  (∀ j', j' ∈ js → ¬ reads j (target j')) → job_digest (run_jobs m js) j = job_digest m j.
Proof.
  revert m. induction js as [|j' js IH]; intros m Hr; [done|].
  cbn. change (foldl run (run m j') js) with (run_jobs (run m j') js).
  rewrite IH by (intros; apply Hr; by right).
  apply job_digest_store, Hr. by left.
Qed.

Lemma run_jobs_other m js l : l ∉ target <$> js → mload (run_jobs m js) l = mload m l.
Proof.
  revert m. induction js as [|j js IH]; intros m Hl; [done|].
  cbn in Hl. apply not_elem_of_cons in Hl as [Hne Hl].
  cbn. change (foldl run (run m j) js) with (run_jobs (run m j) js).
  rewrite IH by done. by apply mload_ne.
Qed.

Lemma run_jobs_valid m js l : mvalid (run_jobs m js) l ↔ mvalid m l.
Proof.
  revert m. induction js as [|j js IH]; intros m; [done|].
  cbn. change (foldl run (run m j) js) with (run_jobs (run m j) js).
  rewrite IH. apply mvalid_store.
Qed.

Lemma independent_cons j js : independent (j :: js) →
  target j ∉ target <$> js ∧ independent js ∧
  (∀ j', j' ∈ js → ¬ reads j (target j')) ∧ (∀ j', j' ∈ j :: js → ¬ reads j' (target j)).
Proof.
  intros [Hnd Hs]. cbn in Hnd. apply NoDup_cons in Hnd as [Hn Hnd].
  split_and!; [done|split; [done|]|..]; intros; apply Hs; set_solver.
Qed.

(** Every target ends up with the digest of its sources, as they were before
    and as they are after the run. *)
Lemma run_jobs_target m js j : independent js → j ∈ js → mvalid m (target j) →
  mload (run_jobs m js) (target j) = job_digest m j ∧
  job_digest (run_jobs m js) j = job_digest m j.
Proof.
  intros Hi Hj Hv. split; [|apply run_jobs_digest; intros; by apply (ind_sources _ Hi)].
  revert m Hv. induction js as [|j0 js IH]; intros m Hv; [by apply elem_of_nil in Hj|].
  pose proof (independent_cons _ _ Hi) as (Hn & Hi' & Hr & Hr0).
  cbn. change (foldl run (run m j0) js) with (run_jobs (run m j0) js).
  apply elem_of_cons in Hj as [->|Hj].
  - rewrite run_jobs_other by done. by apply mload_eq.
  - rewrite IH; [|done..|by apply mvalid_store].
    apply job_digest_store, Hr0. by right.
Qed.

Lemma run_comm m j j' : target j ≠ target j' → ¬ reads j (target j') → ¬ reads j' (target j) →
  run (run m j) j' = run (run m j') j.
Proof.
  intros Hne Hr Hr'. unfold run. rewrite mstore_comm by done.
  by rewrite !job_digest_store by done.
Qed.

Lemma independent_perm js js' : js ≡ₚ js' → independent js → independent js'.
Proof.
  intros Hp [Hnd Hs]. split.
  - by rewrite <- Hp.
  - intros j j' Hj Hj'. apply Hs; by rewrite Hp.
Qed.

(** Independent jobs can be run in any order. *)
Lemma run_jobs_perm m js js' : js ≡ₚ js' → independent js → run_jobs m js = run_jobs m js'.
Proof.
  intros Hp. revert m. induction Hp as [|j js js' Hp IH|j j' js|js1 js2 js3 H1 IH1 H2 IH2];
    intros m Hi; [done|..].
  - cbn. apply IH. by apply independent_cons in Hi as (_ & ? & _).
  - cbn. f_equal. destruct Hi as [Hnd Hs]. cbn in Hnd.
    apply NoDup_cons in Hnd as [Hn _]. apply not_elem_of_cons in Hn as [Hne _].
    apply run_comm; [done|apply Hs; set_solver..].
  - rewrite IH1 by done. apply IH2. by eapply independent_perm.
Qed.

(** Running independent jobs a second time changes nothing. *)
Lemma run_jobs_twice m js : independent js → run_jobs (run_jobs m js) js = run_jobs m js.
Proof.
  revert m. induction js as [|j js IH]; intros m Hi; [done|].
  pose proof (independent_cons _ _ Hi) as (Hn & Hi' & Hr & Hr0).
  assert (∀ a, run (run a j) j = run a j) as Hrr.
  { intros a. unfold run. rewrite mstore_twice. f_equal. apply job_digest_store, Hr0. by left. }
  assert (∀ a, run_jobs a (j :: js) = run (run_jobs a js) j) as Hlast.
  { intros a. rewrite (run_jobs_perm a (j :: js) (js ++ [j])), run_jobs_app;
      [done|by rewrite Permutation_cons_append|done]. }
  assert (∀ a, run_jobs a (j :: js) = run_jobs (run a j) js) as Hfirst by done.
  rewrite Hfirst, Hlast, Hrr, <- Hfirst, Hlast, IH by done. done.
Qed.

Lemma Run_eq m js : independent js → Run m js = run_jobs m js.
Proof. intros Hi. unfold Run. case_match; [by apply run_jobs_twice|done]. Qed.
End laws.

(** ** The parallel run *)

Section parallel.
Context `{!Sha256} {M L : Type} `{!HashMem M L, !EqDecision L, !HashMemLaws M L}.
Variable jobs : list (hashJob L).
Implicit Types (c : pconfig M) (ws : list worker).

Definition held (x : worker) : list nat :=
  match x with Reading i | Writing i _ => [i] | _ => [] end.

Definition all_held ws : list nat := concat (held <$> ws).

Definition jobs_at (idx : list nat) : list (hashJob L) := omap (jobs !!.) idx.

Lemma all_held_insert ws w x : ws !! w = Some x →
  ∃ rest, all_held ws ≡ₚ held x ++ rest ∧ ∀ y, all_held (<[w := y]> ws) ≡ₚ held y ++ rest.
Proof.
  intros Hw. pose proof (lookup_lt_Some _ _ _ Hw).
  exists (all_held (take w ws) ++ all_held (drop (S w) ws)). unfold all_held. split.
  - rewrite <- (take_drop_middle ws w x) at 1 by done.
    rewrite fmap_app, fmap_cons, concat_app. cbn [concat]. solve_Permutation.
  - intros y. rewrite insert_take_drop by done.
    rewrite fmap_app, fmap_cons, concat_app. cbn [concat]. solve_Permutation.
Qed.

(** The finished jobs [fin] were run in some order, the held ones are the
    other fetched indices, and a digest waiting to be written is the one the
    job has in the initial memory. *)
Record pinv (m0 : M) c : Prop := mk_pinv {
  pinv_mem : ∃ fin, fin ++ all_held (p_workers c) ≡ₚ seq 0 (min (p_next c) (length jobs)) ∧
    p_mem c = run_jobs m0 (jobs_at fin);
  pinv_digest w i d job : p_workers c !! w = Some (Writing i d) → jobs !! i = Some job →
    d = job_digest m0 job;
  pinv_done : Done ∈ p_workers c → (length jobs ≤ p_next c)%nat
}.

Lemma jobs_at_elem idx j : j ∈ jobs_at idx → j ∈ jobs.
Proof.
  unfold jobs_at. rewrite list_elem_of_omap. intros (i & _ & Hi). by eapply list_elem_of_lookup_2.
Qed.

Lemma jobs_at_all : jobs_at (seq 0 (length jobs)) = jobs.
Proof.
  unfold jobs_at. induction jobs as [|j js IH] using rev_ind; [done|].
  rewrite length_app, Nat.add_1_r, seq_S, omap_app. cbn.
  rewrite lookup_app_r, Nat.sub_diag by done. cbn. f_equal.
  rewrite <- IH at 2. apply list_omap_ext, Forall2_same_length_lookup_2; [done|].
  intros i a b Ha Hb. rewrite Ha in Hb. injection Hb as <-.
  apply lookup_lt_Some in Ha as Hl. rewrite length_seq in Hl.
  apply lookup_seq in Ha as [-> _]. by rewrite lookup_app_l by lia.
Qed.

Lemma pinv_init m0 n : pinv m0 (pinit m0 n).
Proof.
  split; cbn.
  - exists []. split; [|done]. cbn. induction n as [|n IH]; [done|]. exact IH.
  - intros w i d job Hw. by apply lookup_replicate in Hw as [? _].
  - intros Hd. by apply elem_of_replicate in Hd as [? _].
Qed.

Lemma pinv_digest_insert m0 ws w x :
  (∀ w i d job, ws !! w = Some (Writing i d) → jobs !! i = Some job → d = job_digest m0 job) →
  (∀ i d job, x = Writing i d → jobs !! i = Some job → d = job_digest m0 job) →
  ∀ w' i d job, <[w := x]> ws !! w' = Some (Writing i d) → jobs !! i = Some job →
    d = job_digest m0 job.
Proof.
  intros Hws Hx w' i d job Hl Hj. apply list_lookup_insert_Some in Hl as [(_ & E & _)|[_ Hl]];
    [by eapply Hx|by eapply Hws].
Qed.

Lemma Done_insert ws w x : x ≠ Done → Done ∈ <[w := x]> ws → Done ∈ ws.
Proof.
  intros Hx (i & Hi)%list_elem_of_lookup.
  apply list_lookup_insert_Some in Hi as [(_ & ? & _)|[_ Hl]]; [done|].
  by eapply list_elem_of_lookup_2.
Qed.

Lemma pinv_step m0 c c' : independent jobs → pinv m0 c → pstep jobs c c' → pinv m0 c'.
Proof.
  intros Hi [(fin & Hp & Hm) Hd Hdone] Hs.
  destruct Hs as [m next ws w Hw Hn|m next ws w Hw Hn|m next ws w i job Hw Hj|m next ws w i d job Hw Hj];
    cbn [p_mem p_next p_workers] in *; destruct (all_held_insert _ _ _ Hw) as (rest & Hr & Hr'); cbn [held] in Hr.
  - split; cbn [p_mem p_next p_workers]; [|by apply pinv_digest_insert|].
    + exists fin. split; [|done]. rewrite Hr', Nat.min_l, seq_S by lia. cbn [held].
      rewrite Nat.min_l, Hr in Hp by lia. rewrite Nat.add_0_l, <- Hp. solve_Permutation.
    + intros Hx. apply Done_insert in Hx; [|done]. specialize (Hdone Hx). lia.
  - split; cbn [p_mem p_next p_workers]; [|by apply pinv_digest_insert|lia].
    exists fin. split; [|done]. rewrite Hr'. cbn [held]. rewrite app_nil_l, <- (app_nil_l rest), <- Hr, Hp.
    by rewrite !Nat.min_r by lia.
  - split; cbn [p_mem p_next p_workers].
    + exists fin. split; [|done]. rewrite Hr'. cbn [held]. by rewrite <- Hp, Hr.
    + apply pinv_digest_insert; [done|]. intros i' d' job' [= -> <-] Hj'.
      rewrite Hj in Hj'. injection Hj' as <-. rewrite Hm. apply run_jobs_digest.
      intros j' Hj'. apply jobs_at_elem in Hj'. apply (ind_sources _ Hi); [|done].
      by eapply list_elem_of_lookup_2.
    + intros Hx. apply Hdone. by apply Done_insert in Hx.
  - split; cbn [p_mem p_next p_workers]; [|by apply pinv_digest_insert|].
    + exists (fin ++ [i]). split.
      * rewrite Hr'. cbn [held]. rewrite Hr in Hp. rewrite <- Hp. solve_Permutation.
      * unfold jobs_at. rewrite omap_app. cbn. rewrite Hj, run_jobs_app. cbn.
        unfold run. rewrite Hm. f_equal. rewrite (Hd w i d job) by done.
        symmetry. apply run_jobs_digest. intros j' Hj'. apply jobs_at_elem in Hj'.
        apply (ind_sources _ Hi); [|done]. by eapply list_elem_of_lookup_2.
    + intros Hx. apply Hdone. by apply Done_insert in Hx.
Qed.

(** A configuration without a step is one where every worker is done. *)
Lemma pstuck m0 c : pinv m0 c → (¬ ∃ c', pstep jobs c c') → Forall (λ x, x = Done) (p_workers c).
Proof.
  intros [(fin & Hp & Hm) Hd Hdone] Hstuck. destruct c as [m next ws].
  cbn [p_mem p_next p_workers] in *.
  apply Forall_lookup_2. intros w x Hw.
  assert (∀ i, i ∈ held x → is_Some (jobs !! i)) as Hheld.
  { intros i Hi. destruct (all_held_insert _ _ _ Hw) as (rest & Hr & _).
    assert (i ∈ seq 0 (min next (length jobs))) as Hin.
    { rewrite <- Hp, Hr. set_solver. }
    apply elem_of_seq in Hin. apply lookup_lt_is_Some. lia. }
  destruct x as [|i|i d|]; [..|done]; exfalso; apply Hstuck.
  - destruct (Nat.lt_ge_cases next (length jobs)); eexists; [by eapply pstep_fetch|by eapply pstep_exit].
  - destruct (Hheld i) as [job Hj]; [by left|]. eexists; by eapply pstep_read.
  - destruct (Hheld i) as [job Hj]; [by left|]. eexists; by eapply pstep_write.
Qed.

Lemma all_done_stuck c : Forall (λ x, x = Done) (p_workers c) → ¬ ∃ c', pstep jobs c c'.
Proof.
  intros Hall (c' & Hs).
  destruct Hs as [m next ws w Hw|m next ws w Hw|m next ws w i job Hw|m next ws w i d job Hw];
    cbn in Hall; rewrite Forall_lookup in Hall; by specialize (Hall w _ Hw).
Qed.

Definition weight (x : worker) : nat :=
  match x with Idle => 1 | Reading _ => 3 | Writing _ _ => 2 | Done => 0 end.

Definition pmeasure c : nat := 3 * (length jobs - p_next c) + sum_list_with weight (p_workers c).

Lemma weight_insert ws w x y : ws !! w = Some x →
  (sum_list_with weight (<[w := y]> ws) + weight x = sum_list_with weight ws + weight y)%nat.
Proof.
  revert w. induction ws as [|z ws IH]; intros [|w] Hw; [done|done|..].
  - cbn in *. injection Hw as ->. lia.
  - specialize (IH w Hw). change (<[S w := y]> (z :: ws)) with (z :: <[w := y]> ws).
    cbn [sum_list_with]. lia.
Qed.

Lemma pmeasure_step c c' : pstep jobs c c' → (pmeasure c' < pmeasure c)%nat.
Proof.
  intros Hs. destruct Hs as [m next ws w Hw Hn|m next ws w Hw Hn|m next ws w i job Hw Hj|m next ws w i d job Hw Hj];
    unfold pmeasure; cbn [p_next p_workers];
    match goal with |- context [<[w := ?y]> ws] => pose proof (weight_insert _ _ _ y Hw) as E end;
    cbn [weight] in E; lia.
Qed.

Lemma pinv_final m0 n c : independent jobs → (0 < n)%nat → length (p_workers c) = n →
  pinv m0 c → Forall (λ x, x = Done) (p_workers c) → p_mem c = run_jobs m0 jobs.
Proof.
  intros Hi Hn Hl [(fin & Hp & Hm) _ Hdone] Hall.
  assert (Done ∈ p_workers c) as Hd.
  { destruct (p_workers c) as [|x ws] eqn:E; cbn in Hl; [lia|].
    apply Forall_cons in Hall as [-> _]. by left. }
  specialize (Hdone Hd). rewrite Nat.min_r in Hp by done.
  assert (all_held (p_workers c) = []) as Hh.
  { unfold all_held. clear -Hall. induction Hall as [|x ws -> _ IH]; [done|]. exact IH. }
  rewrite Hh, app_nil_r in Hp. rewrite Hm.
  assert (jobs_at fin ≡ₚ jobs) as Hpj.
  { transitivity (jobs_at (seq 0 (length jobs))); [by unfold jobs_at; rewrite Hp|].
    by rewrite jobs_at_all. }
  apply run_jobs_perm; [done|]. by eapply independent_perm.
Qed.

Lemma pnsteps m0 n k c : independent jobs → nsteps (pstep jobs) k (pinit m0 n) c →
  pinv m0 c ∧ length (p_workers c) = n ∧ (k + pmeasure c ≤ pmeasure (pinit m0 n))%nat.
Proof.
  intros Hi Hk. remember (pinit m0 n) as c0 eqn:E.
  assert (pinv m0 c0 ∧ length (p_workers c0) = n) as [Hinv Hlen].
  { subst c0. split; [apply pinv_init|]. apply length_replicate. }
  clear E. induction Hk as [c|k c1 c2 c3 Hs Hk IH]; [done|].
  destruct IH as (? & ? & ?); [by eapply pinv_step|by destruct Hs; cbn in *; rewrite length_insert|].
  pose proof (pmeasure_step _ _ Hs). split_and!; [done|done|lia].
Qed.

(** C31: whatever the scheduler does, [ParrallelRun] on independent jobs stops
    after at most three steps per job and one per worker, and when it stops,
    every worker has finished and the memory is the one of running the jobs in
    order: also of [Run], which may have run them before. *)
Theorem ParrallelRun_deterministic m0 n k c :
  independent jobs → (0 < n)%nat → nsteps (pstep jobs) k (pinit m0 n) c →
  (k ≤ 3 * length jobs + n)%nat ∧
  ((¬ ∃ c', pstep jobs c c') →
    Forall (λ x, x = Done) (p_workers c) ∧ p_mem c = run_jobs m0 jobs ∧ p_mem c = Run m0 jobs).
Proof.
  intros Hi Hn Hk. destruct (pnsteps _ _ _ _ Hi Hk) as (Hinv & Hlen & Hb). split.
  - unfold pmeasure at 2 in Hb. cbn in Hb.
    assert (sum_list_with weight (replicate n Idle) = n) as Hs.
    { clear. induction n as [|n IH]; cbn; [done|]. by rewrite IH. }
    rewrite Hs in Hb. lia.
  - intros Hst. pose proof (pstuck _ _ Hinv Hst) as Hd.
    split; [done|]. rewrite Run_eq by done. split; by eapply pinv_final.
Qed.
End parallel.

(** ** Witness: two jobs on two workers, the second finishing first *)

(** A digest that depends on every byte, for the concrete runs. *)
Program Definition toy_sha256 : Sha256 := {|
  sha256 b := le_bytes 32 (foldl (λ a x, (a * 257 + x + 1) mod 2 ^ 256) 7 b)
|}.
Next Obligation. intros b. apply length_le_bytes. Qed.

Section witness.
#[local] Existing Instance toy_sha256.

Instance map_mem : HashMem (gmap nat bytes) nat := {|
  mload m l := default [] (m !! l);
  mstore m l v := <[l := v]> m;
  mvalid _ _ := True
|}.

Instance map_mem_laws : HashMemLaws (gmap nat bytes) nat.
Proof.
  split; cbn; intros.
  - by rewrite lookup_insert_eq.
  - by rewrite lookup_insert_ne.
  - done.
  - by rewrite insert_insert_ne.
  - by rewrite insert_insert_eq.
Qed.

Definition two_jobs : list (hashJob nat) :=
  [mkJob 2%nat 0 (At 4%nat) (At 5%nat); mkJob 3%nat 0 (At 6%nat) (Copy [1])].

Lemma two_jobs_independent : independent two_jobs.
Proof.
  split.
  - apply (bool_decide_unpack _). by vm_compute.
  - intros j j' Hj Hj'. unfold two_jobs in *. unfold reads. set_solver.
Qed.

Lemma ParrallelRun_deterministic_witness :
  ∃ c, nsteps (pstep two_jobs) 8 (pinit ∅ 2) c ∧ p_mem c = run_jobs (∅ : gmap nat bytes) two_jobs.
Proof.
  exists (mkConfig (run_jobs ∅ two_jobs) 4 [Done; Done]).
  assert (nsteps (pstep two_jobs) 8 (pinit ∅ 2) (mkConfig (run_jobs ∅ two_jobs) 4 [Done; Done])) as Hk.
  { eapply nsteps_l; [apply (pstep_fetch _ _ _ _ 0); [done|cbn; lia]|].
    eapply nsteps_l; [apply (pstep_fetch _ _ _ _ 1); [done|cbn; lia]|].
    eapply nsteps_l; [by eapply (pstep_read _ _ _ _ 1)|].
    eapply nsteps_l; [by eapply (pstep_write _ _ _ _ 1)|].
    eapply nsteps_l; [apply (pstep_exit _ _ _ _ 1); [done|cbn; lia]|].
    eapply nsteps_l; [by eapply (pstep_read _ _ _ _ 0)|].
    eapply nsteps_l; [by eapply (pstep_write _ _ _ _ 0)|].
    eapply nsteps_l; [apply (pstep_exit _ _ _ _ 0); [done|cbn; lia]|].
    cbn [list_insert insert]. constructor. }
  split; [exact Hk|].
  destruct (ParrallelRun_deterministic two_jobs ∅ 2 8 _ two_jobs_independent ltac:(lia) Hk) as [_ H].
  apply H. apply all_done_stuck. by repeat constructor.
Defined.
End witness.
