(* ===== verification/Twig.v ===== *)
(** * Twigs (datatree/tree.go, first half; datatree/check.go)

    A twig stands for 2048 consecutive entries: their active bits with the
    three levels of hashes above them, the root of the Merkle tree of their
    records ([leftRoot]) and the root of the twig. The Merkle tree of the
    youngest twig is an array of 4096 hashes whose entry [i] has the children
    [2*i] and [2*i+1]. *)
From S2P Require Import Prelude Types EntryCodec Hasher.

Definition FirstLevelAboveTwig : Z := 13.
Definition TwigShift : Z := 11.
Definition LeafCountInTwig : Z := 2048.
Definition TwigMask : Z := LeafCountInTwig - 1.

Record Twig : Type := mkTwig {
  activeBits : bytes;
  activeBitsMTL1 : list bytes;
  activeBitsMTL2 : list bytes;
  activeBitsMTL3 : bytes;
  leftRoot : bytes;
  twigRoot : bytes;
  FirstEntryPos : Z
}.

#[export] Instance Twig_eq_dec : EqDecision Twig.
Proof. solve_decision. Defined.

Definition set_activeBits (t : Twig) b : Twig :=
  mkTwig b (activeBitsMTL1 t) (activeBitsMTL2 t) (activeBitsMTL3 t) (leftRoot t) (twigRoot t)
    (FirstEntryPos t).
Definition set_MTL1 (t : Twig) l : Twig :=
  mkTwig (activeBits t) l (activeBitsMTL2 t) (activeBitsMTL3 t) (leftRoot t) (twigRoot t)
    (FirstEntryPos t).
Definition set_MTL2 (t : Twig) l : Twig :=
  mkTwig (activeBits t) (activeBitsMTL1 t) l (activeBitsMTL3 t) (leftRoot t) (twigRoot t)
    (FirstEntryPos t).
Definition set_MTL3 (t : Twig) h : Twig :=
  mkTwig (activeBits t) (activeBitsMTL1 t) (activeBitsMTL2 t) h (leftRoot t) (twigRoot t)
    (FirstEntryPos t).
Definition set_leftRoot (t : Twig) h : Twig :=
  mkTwig (activeBits t) (activeBitsMTL1 t) (activeBitsMTL2 t) (activeBitsMTL3 t) h (twigRoot t)
    (FirstEntryPos t).
Definition set_twigRoot (t : Twig) h : Twig :=
  mkTwig (activeBits t) (activeBitsMTL1 t) (activeBitsMTL2 t) (activeBitsMTL3 t) (leftRoot t) h
    (FirstEntryPos t).
Definition set_FirstEntryPos (t : Twig) p : Twig :=
  mkTwig (activeBits t) (activeBitsMTL1 t) (activeBitsMTL2 t) (activeBitsMTL3 t) (leftRoot t)
    (twigRoot t) p.

(** Go zeroes a [Twig] declared without a value. *)
Definition zero32 : bytes := replicate 32 0.
Definition zeroTwig : Twig :=
  mkTwig (replicate 256 0) (replicate 4 zero32) (replicate 2 zero32) zero32 zero32 zero32 0.

(** The arrays have the lengths of their Go types. *)
Record twig_shape (t : Twig) : Prop := mk_twig_shape {
  shape_bits : zlen (activeBits t) = 256;
  shape_L1 : zlen (activeBitsMTL1 t) = 4;
  shape_L2 : zlen (activeBitsMTL2 t) = 2
}.

(** ** Active bits *)

Definition bit_mask (offset : Z) : Z := Z.shiftl 1 (Z.land offset 7).

Definition valid_offset (offset : Z) : bool := negb ((offset <? 0) || (offset >? LeafCountInTwig)).

Definition setBit (twig : Twig) (offset : Z) : outcome Twig :=
  _ ← require (valid_offset offset) "Invalid ID";
  let pos := Z.shiftr offset 3 in
  b ← index (activeBits twig) pos;
  mret (set_activeBits twig (zset (activeBits twig) pos (Z.lor b (bit_mask offset)))).

Definition clearBit (twig : Twig) (offset : Z) : outcome Twig :=
  _ ← require (valid_offset offset) "Invalid ID";
  let pos := Z.shiftr offset 3 in
  b ← index (activeBits twig) pos;
  mret (set_activeBits twig (zset (activeBits twig) pos (Z.land b (Z.lxor (bit_mask offset) 255)))).

Definition getBit (twig : Twig) (offset : Z) : outcome bool :=
  _ ← require (valid_offset offset) "Invalid ID";
  b ← index (activeBits twig) (Z.shiftr offset 3);
  mret (negb (Z.land b (bit_mask offset) =? 0)).

(** ** The hash slots of a twig *)

Inductive twig_slot : Type :=
| SBits (k : Z)      (* activeBits[32*k : 32*(k+1)] *)
| SL1 (k : Z)        (* activeBitsMTL1[k] *)
| SL2 (k : Z)        (* activeBitsMTL2[k] *)
| SL3                (* activeBitsMTL3 *)
| SLeft              (* leftRoot *)
| STop.              (* twigRoot *)

#[export] Instance twig_slot_eq_dec : EqDecision twig_slot.
Proof. solve_decision. Defined.

Definition bits32 (b : bytes) (k : Z) : bytes := take 32 (drop (Z.to_nat (32 * k)) b).

Definition twig_load (t : Twig) (s : twig_slot) : bytes :=
  match s with
  | SBits k => bits32 (activeBits t) k
  | SL1 k => default [] (zget (activeBitsMTL1 t) k)
  | SL2 k => default [] (zget (activeBitsMTL2 t) k)
  | SL3 => activeBitsMTL3 t
  | SLeft => leftRoot t
  | STop => twigRoot t
  end.

(** No job targets the active bits. *)
Definition twig_store (t : Twig) (s : twig_slot) (v : bytes) : Twig :=
  match s with
  | SBits k => t
  | SL1 k => set_MTL1 t (zset (activeBitsMTL1 t) k v)
  | SL2 k => set_MTL2 t (zset (activeBitsMTL2 t) k v)
  | SL3 => set_MTL3 t v
  | SLeft => set_leftRoot t v
  | STop => set_twigRoot t v
  end.

Definition twig_slot_valid (t : Twig) (s : twig_slot) : Prop :=
  match s with
  | SBits k => False
  | SL1 k => 0 ≤ k < zlen (activeBitsMTL1 t)
  | SL2 k => 0 ≤ k < zlen (activeBitsMTL2 t)
  | _ => True
  end.

#[export] Instance twig_mem : HashMem Twig twig_slot := {|
  mload := twig_load;
  mstore := twig_store;
  mvalid := twig_slot_valid
|}.

#[export] Instance twig_mem_laws : HashMemLaws Twig twig_slot.
Proof.
  split; cbn.
  - intros m l v Hv. destruct l; cbn in *; try done; by rewrite zget_set_eq.
  - intros m l l' v Hne. destruct l, l'; cbn; try done;
      rewrite zget_set_ne; [done|congruence|done|congruence].
  - intros m l v l'. destruct l, l'; cbn; rewrite ?zlen_zset; done.
  - intros m l l' v v' Hne. destruct l, l'; cbn; try done; unfold set_MTL1, set_MTL2; cbn;
      rewrite zset_comm; [done|congruence|done|congruence].
  - intros m l v v'. destruct l; cbn; try done; unfold set_MTL1, set_MTL2; cbn; by rewrite zset_twice.
Qed.

(** The jobs that [syncL1], [syncL2], [syncL3] and [syncTop] add, for a twig
    whose slots have the addresses [at_] in the memory. *)
Section jobs.
Context {L : Type} (at_ : twig_slot → L).

Definition slot_job (target : twig_slot) (level : Z) (a b : twig_slot) : hashJob L :=
  mkJob (at_ target) level (At (at_ a)) (At (at_ b)).

Definition syncL1 (pos : Z) : outcome (hashJob L) :=
  match pos with
  | 0 => mret (slot_job (SL1 0) 8 (SBits 0) (SBits 1))
  | 1 => mret (slot_job (SL1 1) 8 (SBits 2) (SBits 3))
  | 2 => mret (slot_job (SL1 2) 8 (SBits 4) (SBits 5))
  | 3 => mret (slot_job (SL1 3) 8 (SBits 6) (SBits 7))
  | _ => Panic "Can not reach here!"
  end.

Definition syncL2 (pos : Z) : outcome (hashJob L) :=
  match pos with
  | 0 => mret (slot_job (SL2 0) 9 (SL1 0) (SL1 1))
  | 1 => mret (slot_job (SL2 1) 9 (SL1 2) (SL1 3))
  | _ => Panic "Can not reach here!"
  end.

Definition syncL3 : hashJob L := slot_job SL3 10 (SL2 0) (SL2 1).
Definition syncTop : hashJob L := slot_job STop 11 SLeft SL3.
End jobs.

(** ** The null twig and the null Merkle tree ([init] of tree.go) *)

Section null.
Context `{!Sha256}.

(** One level of [NullMT4Twig] per round: [2^n] copies of the level's hash, in
    front of the levels below it. *)
Fixpoint NullMT4Twig_from (n : nat) (level : Z) (nullHash : bytes) (below : list bytes) : list bytes :=
  let here := replicate (Nat.pow 2 n) nullHash ++ below in
  match n with
  | O => here
  | S n => NullMT4Twig_from n (level + 1) (hash2 level nullHash nullHash) here
  end.

Definition NullMT4Twig : list bytes :=
  zero32 :: NullMT4Twig_from 11 0 (hash (EntryToBytes NullEntry [])) [].

Definition jobs_of (js : list (outcome (hashJob twig_slot))) : list (hashJob twig_slot) :=
  omap (λ o, match o with Ret j => Some j | Panic _ => None end) js.

Definition NullTwig : Twig :=
  let t := set_FirstEntryPos zeroTwig (-1) in
  let t := Run t (jobs_of [syncL1 id 0; syncL1 id 1; syncL1 id 2; syncL1 id 3]) in
  let t := Run t (jobs_of [syncL2 id 0; syncL2 id 1]) in
  let t := Run t [syncL3 id] in
  let t := set_leftRoot t (default [] (zget NullMT4Twig 1)) in
  Run t [syncTop id].

Definition CopyNullTwig : Twig := NullTwig.

(** [NullNodeInHigherTree\[i\]]; the entries below 13 stay zero. *)
Fixpoint null_node (k : nat) : bytes :=
  match k with
  | O => hash2 (FirstLevelAboveTwig - 1) (twigRoot NullTwig) (twigRoot NullTwig)
  | S k' => hash2 (FirstLevelAboveTwig + Z.of_nat k') (null_node k') (null_node k')
  end.

Definition NullNodeInHigherTree : list bytes :=
  replicate 13 zero32 ++ (null_node <$> seq 0 51).

(** ** The checkers of check.go *)

Definition hashEqual (tag : string) (a b : bytes) : outcome unit :=
  require (bool_decide (a = b)) tag.

Definition checkTwig (t : Twig) : outcome unit :=
  let L1 k := default [] (zget (activeBitsMTL1 t) k) in
  let L2 k := default [] (zget (activeBitsMTL2 t) k) in
  let bits64 k := slice (activeBits t) (64 * k) (64 * (k + 1)) in
  _ ← (b ← bits64 0; hashEqual "L1-0" (L1 0) (sha256 (8 :: b)));
  _ ← (b ← bits64 1; hashEqual "L1-1" (L1 1) (sha256 (8 :: b)));
  _ ← (b ← bits64 2; hashEqual "L1-2" (L1 2) (sha256 (8 :: b)));
  _ ← (b ← bits64 3; hashEqual "L1-3" (L1 3) (sha256 (8 :: b)));
  _ ← hashEqual "L2-0" (L2 0) (sha256 (9 :: L1 0 ++ L1 1));
  _ ← hashEqual "L2-1" (L2 1) (sha256 (9 :: L1 2 ++ L1 3));
  _ ← hashEqual "L3" (activeBitsMTL3 t) (sha256 (10 :: L2 0 ++ L2 1));
  hashEqual "Top" (twigRoot t) (sha256 (11 :: leftRoot t ++ activeBitsMTL3 t)).

Definition checkMT_at (mt : list bytes) (level i : Z) : outcome unit :=
  l ← index mt (2 * i);
  r ← index mt (2 * i + 1);
  self ← index mt i;
  require (bool_decide (self = sha256 (level :: l ++ r))) "Mismatch".

(** Stripes 1, 2, ..., 1024 with the levels 10, 9, ..., 0. *)
Definition checkMT (mt : list bytes) : outcome unit :=
  for_each (λ k, for_each (checkMT_at mt (10 - k)) (seqZ (2 ^ k) (2 ^ k))) (seqZ 0 11).
End null.

(** ** Active bits: lemmas *)

Lemma land_bit b k : 0 ≤ k → (Z.land b (Z.shiftl 1 k) =? 0) = negb (Z.testbit b k).
Proof.
  intros Hk. destruct (Z.testbit b k) eqn:E; cbn.
  - apply Z.eqb_neq. intros H0.
    assert (Z.testbit (Z.land b (Z.shiftl 1 k)) k = false) as Hf by (rewrite H0; apply Z.bits_0).
    rewrite Z.land_spec, E, Z.shiftl_spec, Z.sub_diag in Hf by done. done.
  - apply Z.eqb_eq, Z.bits_inj'. intros i Hi. rewrite Z.land_spec, Z.bits_0, Z.shiftl_spec by done.
    destruct (decide (i = k)) as [->|Hne]; [by rewrite E|].
    replace (Z.testbit 1 (i - k)) with false; [apply andb_false_r|].
    destruct (Z.ltb_spec (i - k) 0); [by rewrite Z.testbit_neg_r|].
    symmetry. change 1 with (2 ^ 0). apply Z.pow2_bits_false. lia.
Qed.

Lemma testbit_mask i k : 0 ≤ k → 0 ≤ i → Z.testbit (Z.shiftl 1 k) i = bool_decide (i = k).
Proof.
  intros Hk Hi. rewrite Z.shiftl_spec by done. destruct (bool_decide_reflect (i = k)) as [->|Hne].
  - by rewrite Z.sub_diag.
  - destruct (Z.ltb_spec (i - k) 0); [by rewrite Z.testbit_neg_r|].
    change 1 with (2 ^ 0). apply Z.pow2_bits_false. lia.
Qed.

(** The [i]-th active bit, as a function. *)
Definition active (t : Twig) (i : Z) : bool :=
  Z.testbit (default 0 (zget (activeBits t) (i / 8))) (i mod 8).

Lemma bit_position i : 0 ≤ i → Z.land i 7 = i mod 8 ∧ Z.shiftr i 3 = i / 8.
Proof.
  intros Hi. split; [|by rewrite Z.shiftr_div_pow2].
  change 7 with (Z.ones 3). by rewrite Z.land_ones.
Qed.

Lemma div8_bound i : 0 ≤ i < 2048 → 0 ≤ i / 8 < 256.
Proof. intros. split; [apply Z.div_pos|apply Z.div_lt_upper_bound]; lia. Qed.

Lemma valid_offset_true i : 0 ≤ i < 2048 → valid_offset i = true.
Proof. unfold valid_offset, LeafCountInTwig. destruct (Z.ltb_spec i 0), (Z.gtb_spec i 2048); lia || done. Qed.

Lemma getBit_Ret t i : twig_shape t → 0 ≤ i < 2048 → getBit t i = Ret (active t i).
Proof.
  intros [Hb _ _] Hi. unfold getBit, active, bit_mask. rewrite valid_offset_true by done.
  destruct (bit_position i) as [-> ->]; [lia|]. cbn [require mbind outcome_bind].
  pose proof (div8_bound i Hi). pose proof (Z.mod_pos_bound i 8).
  destruct (zget_Some (activeBits t) (i / 8)) as [b Eb]; [lia|].
  rewrite (index_zget _ _ _ Eb), Eb. cbn. by rewrite land_bit, negb_involutive by lia.
Qed.

Lemma store_bit t i b' : twig_shape t → 0 ≤ i < 2048 →
  (∀ k, 0 ≤ k < 8 → k ≠ i mod 8 →
    Z.testbit b' k = Z.testbit (default 0 (zget (activeBits t) (i / 8))) k) →
  let t' := set_activeBits t (zset (activeBits t) (i / 8) b') in
  twig_shape t' ∧ active t' i = Z.testbit b' (i mod 8) ∧
  (∀ j, 0 ≤ j < 2048 → j ≠ i → active t' j = active t j).
Proof.
  intros [Hb H1 H2] Hi Hk. pose proof (div8_bound i Hi). split_and!.
  - by split; cbn; rewrite ?zlen_zset.
  - unfold active. cbn. by rewrite zget_set_eq by lia.
  - intros j Hj Hne. unfold active. cbn.
    destruct (decide (i / 8 = j / 8)) as [E|E]; [|by rewrite zget_set_ne].
    rewrite <- E, zget_set_eq by lia. cbn. apply Hk; [apply Z.mod_pos_bound; lia|].
    intros E'. apply Hne. rewrite (Z.div_mod j 8), (Z.div_mod i 8) by lia. lia.
Qed.

Lemma setBit_Ret t i : twig_shape t → 0 ≤ i < 2048 →
  ∃ b', setBit t i = Ret (set_activeBits t (zset (activeBits t) (i / 8) b')) ∧
    (∀ k, 0 ≤ k < 8 → Z.testbit b' k =
      bool_decide (k = i mod 8) || Z.testbit (default 0 (zget (activeBits t) (i / 8))) k).
Proof.
  intros [Hb _ _] Hi. unfold setBit, bit_mask. rewrite valid_offset_true by done.
  destruct (bit_position i) as [-> ->]; [lia|]. cbn [require mbind outcome_bind].
  pose proof (div8_bound i Hi). pose proof (Z.mod_pos_bound i 8).
  destruct (zget_Some (activeBits t) (i / 8)) as [b Eb]; [lia|].
  rewrite (index_zget _ _ _ Eb), Eb. cbn [mbind outcome_bind]. eexists. split; [done|].
  intros k Hk. rewrite Z.lor_spec, testbit_mask by lia. cbn. apply orb_comm.
Qed.

Lemma clearBit_Ret t i : twig_shape t → 0 ≤ i < 2048 →
  ∃ b', clearBit t i = Ret (set_activeBits t (zset (activeBits t) (i / 8) b')) ∧
    (∀ k, 0 ≤ k < 8 → Z.testbit b' k =
      negb (bool_decide (k = i mod 8)) && Z.testbit (default 0 (zget (activeBits t) (i / 8))) k).
Proof.
  intros [Hb _ _] Hi. unfold clearBit, bit_mask. rewrite valid_offset_true by done.
  destruct (bit_position i) as [-> ->]; [lia|]. cbn [require mbind outcome_bind].
  pose proof (div8_bound i Hi). pose proof (Z.mod_pos_bound i 8).
  destruct (zget_Some (activeBits t) (i / 8)) as [b Eb]; [lia|].
  rewrite (index_zget _ _ _ Eb), Eb. cbn [mbind outcome_bind]. eexists. split; [done|].
  intros k Hk. rewrite Z.land_spec, Z.lxor_spec, testbit_mask by lia.
  change 255 with (Z.ones 8). rewrite Z.ones_spec_low by lia. cbn.
  rewrite xorb_true_r. apply andb_comm.
Qed.

(** On an offset below 2048, [setBit] and [clearBit] set the bit that
    [getBit] reads and leave every other bit as it was. *)
Theorem active_bits_array (t : Twig) (i j : Z) :
  twig_shape t → 0 ≤ i < LeafCountInTwig → 0 ≤ j < LeafCountInTwig →
  ∃ ts tc b, setBit t i = Ret ts ∧ clearBit t i = Ret tc ∧ getBit t j = Ret b ∧
    twig_shape ts ∧ twig_shape tc ∧
    getBit ts j = Ret (bool_decide (j = i) || b) ∧
    getBit tc j = Ret (negb (bool_decide (j = i)) && b).
Proof.
  intros Ht Hi Hj. unfold LeafCountInTwig in *.
  destruct (setBit_Ret t i Ht Hi) as (bs & Es & Hs).
  destruct (clearBit_Ret t i Ht Hi) as (bc & Ec & Hc).
  destruct (store_bit t i bs Ht Hi) as (Hss & Hsi & Hsj).
  { intros k Hk Hne. rewrite Hs by done. by rewrite bool_decide_false. }
  destruct (store_bit t i bc Ht Hi) as (Hcs & Hci & Hcj).
  { intros k Hk Hne. rewrite Hc by done. by rewrite bool_decide_false. }
  eexists _, _, _. split_and!; [done|done|by apply getBit_Ret|done|done|..];
    rewrite getBit_Ret by done; f_equal;
    pose proof (Z.mod_pos_bound i 8);
    (destruct (decide (j = i)) as [->|Hne];
      [rewrite (bool_decide_true (i = i)) by done|rewrite (bool_decide_false (j = i)) by done]); cbn [orb negb andb].
  - rewrite Hsi, Hs by lia. by rewrite bool_decide_true.
  - by apply Hsj.
  - rewrite Hci, Hc by lia. by rewrite bool_decide_true.
  - by apply Hcj.
Qed.

Lemma zeroTwig_shape : twig_shape zeroTwig.
Proof. by split. Qed.

Lemma active_bits_array_witness :
  ∃ ts tc b, setBit zeroTwig 9 = Ret ts ∧ clearBit zeroTwig 9 = Ret tc ∧ getBit zeroTwig 9 = Ret b ∧
    twig_shape ts ∧ twig_shape tc ∧
    getBit ts 9 = Ret (bool_decide (9 = 9) || b) ∧
    getBit tc 9 = Ret (negb (bool_decide (9 = 9)) && b).
Proof. apply (active_bits_array zeroTwig 9 9); [apply zeroTwig_shape|done|done]. Defined.

(** The guard of the bit operations lets the offset 2048 through: they
    stop at the bounds of [activeBits], not at the guard that names the
    invalid id; from 2049 on the guard stops them. *)
Theorem bit_guard_off_by_one (t : Twig) (offset : Z) :
  twig_shape t → LeafCountInTwig ≤ offset →
  getBit t offset = Panic (if offset =? LeafCountInTwig then "index out of range" else "Invalid ID") ∧
  setBit t offset = Panic (if offset =? LeafCountInTwig then "index out of range" else "Invalid ID").
Proof.
  unfold LeafCountInTwig. intros [Hb _ _] Ho. unfold getBit, setBit.
  destruct (Z.eqb_spec offset 2048) as [->|Hne].
  - change (valid_offset 2048) with true. cbn [require mbind outcome_bind].
    change (Z.shiftr 2048 3) with 256.
    assert (index (activeBits t) 256 = Panic "index out of range") as ->; [|done].
    unfold index. cbn. rewrite lookup_ge_None_2; [done|]. unfold zlen in Hb. lia.
  - assert (valid_offset offset = false) as ->; [|done].
    unfold valid_offset, LeafCountInTwig.
    destruct (Z.ltb_spec offset 0), (Z.gtb_spec offset 2048); lia || done.
Qed.

Lemma bit_guard_off_by_one_witness :
  getBit zeroTwig 2048 = Panic "index out of range" ∧ setBit zeroTwig 2048 = Panic "index out of range".
Proof. apply (bit_guard_off_by_one zeroTwig 2048); [apply zeroTwig_shape|done]. Defined.

(** ** Consistent hashes *)

Section consistent.
Context `{!Sha256}.
Implicit Types (t : Twig) (mt : list bytes).

Definition slot_ok t (s : twig_slot) (level : Z) (a b : twig_slot) : Prop :=
  twig_load t s = hash2 level (twig_load t a) (twig_load t b).

Definition L1_ok t k : Prop := slot_ok t (SL1 k) 8 (SBits (2 * k)) (SBits (2 * k + 1)).
Definition L2_ok t k : Prop := slot_ok t (SL2 k) 9 (SL1 (2 * k)) (SL1 (2 * k + 1)).
Definition L3_ok t : Prop := slot_ok t SL3 10 (SL2 0) (SL2 1).
Definition Top_ok t : Prop := slot_ok t STop 11 SLeft SL3.

Record twig_ok t : Prop := mk_twig_ok {
  ok_L1 k : 0 ≤ k < 4 → L1_ok t k;
  ok_L2 k : 0 ≤ k < 2 → L2_ok t k;
  ok_L3 : L3_ok t;
  ok_Top : Top_ok t
}.

Lemma slice_bits64 b k : zlen b = 256 → 0 ≤ k < 4 →
  slice b (64 * k) (64 * (k + 1)) = Ret (bits32 b (2 * k) ++ bits32 b (2 * k + 1)).
Proof.
  intros Hb Hk. apply slice_Ret. split_and!; [lia|lia|lia|].
  unfold bits32. replace (Z.to_nat (64 * (k + 1) - 64 * k)) with (32 + 32)%nat by lia.
  replace (32 * (2 * k + 1)) with (64 * k + 32) by lia. replace (32 * (2 * k)) with (64 * k) by lia.
  rewrite Z2Nat.inj_add by lia. rewrite <- drop_drop.
  generalize (drop (Z.to_nat (64 * k)) b) as l. intros l.
  rewrite <- (take_drop 32 l) at 3. rewrite take_app. f_equal; [by rewrite take_take|].
  rewrite length_take. change (Z.to_nat 32) with 32%nat.
  destruct (Nat.le_gt_cases 32 (length l)).
  - f_equal. lia.
  - by rewrite (drop_ge l), !take_nil by lia.
Qed.

Lemma bind_slice_hash b k tag h level : zlen b = 256 → 0 ≤ k < 4 →
  (b ← slice b (64 * k) (64 * (k + 1)); hashEqual tag h (sha256 (level :: b))) =
  hashEqual tag h (hash2 level (bits32 b (2 * k)) (bits32 b (2 * k + 1))).
Proof. intros Hb Hk. by rewrite slice_bits64. Qed.

Lemma hashEqual_then tag a b {A} (k : outcome A) r :
  (_ ← hashEqual tag a b; k) = Ret r ↔ a = b ∧ k = Ret r.
Proof.
  unfold hashEqual. rewrite outcome_bind_Ret. split.
  - intros ([] & Hab & Hk). apply require_Ret, bool_decide_eq_true in Hab. done.
  - intros [-> Hk]. exists tt. by rewrite bool_decide_true.
Qed.

Lemma checkTwig_Ret t : twig_shape t → checkTwig t = Ret tt ↔ twig_ok t.
Proof.
  intros [Hb _ _]. unfold checkTwig. cbv zeta.
  rewrite !bind_slice_hash by (done || lia). rewrite !hashEqual_then.
  assert (∀ tag a b, hashEqual tag a b = Ret tt ↔ a = b) as ->.
  { intros. unfold hashEqual. rewrite require_Ret. apply bool_decide_eq_true. }
  split.
  - intros (? & ? & ? & ? & ? & ? & ? & ?). split; [..|done|done].
    + intros k Hk. assert (k = 0 ∨ k = 1 ∨ k = 2 ∨ k = 3) as [->|[->|[->| ->]]] by lia; done.
    + intros k Hk. assert (k = 0 ∨ k = 1) as [->| ->] by lia; done.
  - intros [H1 H2 H3 H4].
    split_and!; [apply (H1 0)|apply (H1 1)|apply (H1 2)|apply (H1 3)|apply (H2 0)|apply (H2 1)|exact H3|exact H4]; lia.
Qed.

(** *** The Merkle tree of the youngest twig *)

Definition mt_at mt (i : Z) : bytes := default [] (zget mt i).
Definition mt_level (p : Z) : Z := 10 - Z.log2 p.
Definition mt_node_ok mt (p : Z) : Prop :=
  mt_at mt p = hash2 (mt_level p) (mt_at mt (2 * p)) (mt_at mt (2 * p + 1)).
Definition mt_ok mt : Prop := ∀ p, 1 ≤ p < 2048 → mt_node_ok mt p.

Lemma checkMT_at_Ret mt level i : zlen mt = 4096 → 1 ≤ i < 2048 →
  checkMT_at mt level i = Ret tt ↔
  mt_at mt i = hash2 level (mt_at mt (2 * i)) (mt_at mt (2 * i + 1)).
Proof.
  intros Hl Hi. unfold checkMT_at, mt_at.
  destruct (zget_Some mt i) as [s Es]; [lia|]. destruct (zget_Some mt (2 * i)) as [l El]; [lia|].
  destruct (zget_Some mt (2 * i + 1)) as [r Er]; [lia|].
  rewrite !(index_zget _ _ _ Es), !(index_zget _ _ _ El), !(index_zget _ _ _ Er), Es, El, Er.
  cbn [mbind outcome_bind default]. rewrite require_Ret. apply bool_decide_eq_true.
Qed.

Lemma log2_row k p : 0 ≤ k → 2 ^ k ≤ p < 2 * 2 ^ k → Z.log2 p = k.
Proof. intros Hk Hp. apply Z.log2_unique; [done|]. rewrite Z.pow_succ_r by done. done. Qed.

Lemma log2_bounds p : 1 ≤ p < 2048 → 0 ≤ Z.log2 p < 11 ∧ 2 ^ Z.log2 p ≤ p < 2 * 2 ^ Z.log2 p.
Proof.
  intros Hp. pose proof (Z.log2_spec p ltac:(lia)) as Hs. pose proof (Z.log2_nonneg p).
  rewrite Z.pow_succ_r in Hs by done. split; [|lia]. split; [done|].
  apply Z.log2_lt_pow2; lia.
Qed.

Lemma checkMT_Ret mt : zlen mt = 4096 → checkMT mt = Ret tt ↔ mt_ok mt.
Proof.
  intros Hl. unfold checkMT. rewrite for_each_Ret.
  assert (∀ k p, 0 ≤ k < 11 → 2 ^ k ≤ p < 2 ^ k + 2 ^ k → 1 ≤ p < 2048) as Hrow.
  { intros k p Hk Hp. assert (2 ^ 0 ≤ 2 ^ k) by (apply Z.pow_le_mono_r; lia).
    assert (2 ^ k ≤ 2 ^ 10) by (apply Z.pow_le_mono_r; lia).
    change (2 ^ 0) with 1 in *. change (2 ^ 10) with 1024 in *. lia. }
  split.
  - intros Hc p Hp. destruct (log2_bounds p Hp) as [Hk Hr].
    assert (Z.log2 p ∈ seqZ 0 11) as Hin by (apply elem_of_seqZ; lia).
    specialize (Hc _ Hin). rewrite for_each_Ret in Hc.
    apply checkMT_at_Ret, Hc; [done|done|]. apply elem_of_seqZ. lia.
  - intros Hc k Hk%elem_of_seqZ. apply for_each_Ret. intros p Hp%elem_of_seqZ.
    assert (1 ≤ p < 2048) by (apply (Hrow k); lia).
    apply checkMT_at_Ret; [done|done|]. rewrite <- (log2_row k p) by lia. by apply Hc.
Qed.
End consistent.

(** ** The null twig and the null Merkle tree are consistent *)

Section null_ok.
Context `{!Sha256}.

Fixpoint null_hash (j : nat) : bytes :=
  match j with
  | O => hash (EntryToBytes NullEntry [])
  | S j => hash2 (Z.of_nat j) (null_hash j) (null_hash j)
  end.

Lemma NullMT4Twig_from_below n lv h below :
  ∃ pre, NullMT4Twig_from n lv h below = pre ++ below ∧ (length pre + 1 = 2 ^ (n + 1))%nat.
Proof.
  revert lv h below. induction n as [|n IH]; intros lv h below; cbn [NullMT4Twig_from].
  { exists [h]. done. }
  destruct (IH (lv + 1) (hash2 lv h h) (replicate (2 ^ S n) h ++ below)) as (pre & -> & Hl).
  exists (pre ++ replicate (2 ^ S n) h). rewrite <- app_assoc, length_app, length_replicate.
  split; [done|]. replace (S n + 1)%nat with (S (S n)) by lia.
  replace (n + 1)%nat with (S n) in Hl by lia. rewrite (Nat.pow_succ_r' 2 (S n)). lia.
Qed.

Lemma NullMT4Twig_from_row n j below k r : (k ≤ n)%nat → (r < 2 ^ k)%nat →
  NullMT4Twig_from n (Z.of_nat j) (null_hash j) below !! (2 ^ k - 1 + r)%nat =
    Some (null_hash (j + n - k)).
Proof.
  revert j below. induction n as [|n IH]; intros j below Hk Hr.
  { assert (k = 0%nat) as -> by lia. cbn in *. assert (r = 0%nat) as -> by lia.
    cbn. do 2 f_equal. lia. }
  cbn [NullMT4Twig_from]. destruct (decide (k = S n)) as [->|Hne].
  - destruct (NullMT4Twig_from_below n (Z.of_nat j + 1)
      (hash2 (Z.of_nat j) (null_hash j) (null_hash j)) (replicate (2 ^ S n) (null_hash j) ++ below))
      as (pre & -> & Hl). replace (n + 1)%nat with (S n) in Hl by lia.
    rewrite lookup_app_r by lia. rewrite lookup_app_l by (rewrite length_replicate; lia).
    apply lookup_replicate. split; [|lia]. do 2 f_equal; lia.
  - replace (Z.of_nat j + 1) with (Z.of_nat (S j)) by lia.
    change (hash2 _ _ _) with (null_hash (S j)). rewrite IH by lia. do 2 f_equal. lia.
Qed.

Lemma zlen_NullMT4Twig : zlen NullMT4Twig = 4096.
Proof.
  unfold NullMT4Twig, zlen. cbn [length].
  destruct (NullMT4Twig_from_below 11 0 (hash (EntryToBytes NullEntry [])) []) as (pre & -> & Hl).
  rewrite app_nil_r. change (2 ^ (11 + 1))%nat with 4096%nat in Hl. lia.
Qed.

Lemma NullMT4Twig_at p : 1 ≤ p < 4096 →
  mt_at NullMT4Twig p = null_hash (11 - Z.to_nat (Z.log2 p)).
Proof.
  intros Hp. pose proof (Z.log2_spec p ltac:(lia)) as Hs. pose proof (Z.log2_nonneg p).
  rewrite Z.pow_succ_r in Hs by done.
  assert (Z.log2 p < 12) by (apply Z.log2_lt_pow2; lia).
  unfold mt_at, NullMT4Twig, zget. destruct (Z.leb_spec 0 p); [|lia].
  set (k := Z.to_nat (Z.log2 p)).
  assert (2 ^ Z.log2 p = Z.of_nat (2 ^ k)) as E.
  { rewrite Nat2Z.inj_pow. f_equal. lia. }
  replace (Z.to_nat p) with (S (2 ^ k - 1 + (Z.to_nat p - 2 ^ k)))%nat by lia.
  cbn [lookup list_lookup].
  rewrite (NullMT4Twig_from_row 11 0 [] k) by lia. cbn. done.
Qed.

Lemma NullMT4Twig_ok : mt_ok NullMT4Twig.
Proof.
  intros p Hp. destruct (log2_bounds p Hp) as [Hk Hr]. unfold mt_node_ok, mt_level.
  rewrite !NullMT4Twig_at by lia.
  rewrite (log2_row (Z.log2 p + 1) (2 * p)), (log2_row (Z.log2 p + 1) (2 * p + 1))
    by (rewrite ?Z.pow_add_r; lia).
  replace (11 - Z.to_nat (Z.log2 p))%nat with (S (11 - Z.to_nat (Z.log2 p + 1))) by lia.
  cbn [null_hash]. f_equal. lia.
Qed.

Lemma NullMT4Twig_hashes h : h ∈ NullMT4Twig → zlen h = 32.
Proof.
  assert (∀ n lv x below, zlen x = 32 → (∀ h, h ∈ below → zlen h = 32) →
    ∀ h, h ∈ NullMT4Twig_from n lv x below → zlen h = 32) as Hfrom.
  { assert (∀ n (x : bytes) below, zlen x = 32 → (∀ h, h ∈ below → zlen h = 32) →
      ∀ h, h ∈ replicate n x ++ below → zlen h = 32) as Hr.
    { intros n x below Hx Hb h' [Hh|Hh]%elem_of_app; [|by apply Hb].
      by apply elem_of_replicate in Hh as [-> _]. }
    induction n as [|n IH]; intros lv x below Hx Hb; cbn [NullMT4Twig_from]; [by apply Hr|].
    apply IH; [|by apply Hr]. unfold zlen. by rewrite hash2_length. }
  unfold NullMT4Twig. intros [->|Hh]%elem_of_cons; [done|].
  eapply Hfrom; [| |exact Hh]; [unfold zlen, hash; by rewrite sha256_length|].
  intros h' Hh'. by apply elem_of_nil in Hh'.
Qed.

(** [NullTwig] with any hash in the place of the root of the null tree. *)
Lemma NullTwig_ok : twig_shape NullTwig ∧ twig_ok NullTwig.
Proof.
  unfold NullTwig. generalize (default [] (zget NullMT4Twig 1)) as h. intros h.
  split; split.
  1-3: by vm_compute.
  - intros k Hk. assert (k = 0 ∨ k = 1 ∨ k = 2 ∨ k = 3) as [->|[->|[->| ->]]] by lia; by vm_compute.
  - intros k Hk. assert (k = 0 ∨ k = 1) as [->| ->] by lia; by vm_compute.
  - by vm_compute.
  - by vm_compute.
Qed.

Lemma NullTwig_leftRoot : leftRoot NullTwig = mt_at NullMT4Twig 1.
Proof.
  unfold NullTwig, mt_at. generalize (default [] (zget NullMT4Twig 1)) as h. intros h.
  by vm_compute.
Qed.

(** what [init] computes is consistent, whatever the hash function: the
    null twig and the null Merkle tree pass the checks of check.go, and the
    root of the null tree is the left root of the null twig. *)
Theorem init_consistent :
  checkTwig NullTwig = Ret tt ∧ checkMT NullMT4Twig = Ret tt ∧
  zget NullMT4Twig 1 = Some (leftRoot NullTwig).
Proof.
  destruct NullTwig_ok as [Hs Ho]. split_and!.
  - by apply checkTwig_Ret.
  - apply checkMT_Ret; [apply zlen_NullMT4Twig|apply NullMT4Twig_ok].
  - rewrite NullTwig_leftRoot. unfold mt_at.
    destruct (zget_Some NullMT4Twig 1) as [x ->]; [rewrite zlen_NullMT4Twig; lia|done].
Qed.
End null_ok.
