(* ===== verification/YoungestTwig.v ===== *)
(** * Syncing the Merkle tree of the youngest twig (tree.go, [syncMT4YoungestTwig])

    The leaves between [mtree4YTChangeStart] and [mtree4YTChangeEnd] are
    rehashed and the inner nodes above them recomputed level by level. The
    theorem: if the tree was consistent apart from the ancestors of the
    changed leaves, it is consistent afterwards. *)
From S2P Require Import Prelude Hasher Twig.

#[export] Instance mt_mem : HashMem (list bytes) Z := {|
  mload mt i := mt_at mt i;
  mstore mt i v := zset mt i v;
  mvalid mt i := 0 ≤ i < zlen mt
|}.

#[export] Instance mt_mem_laws : HashMemLaws (list bytes) Z.
Proof.
  split; cbn; unfold mt_at; intros.
  - by rewrite zget_set_eq.
  - by rewrite zget_set_ne.
  - by rewrite zlen_zset.
  - by apply zset_comm.
  - apply zset_twice.
Qed.

Section sync.
Context `{!Sha256}.
Implicit Types (mt : list bytes).

(** [leave4YoungestTwig\[i\]]: [None] when its first slice is nil. *)
Definition leaf : Type := option (bytes * bytes).

(** The body of a worker of [ParrallelRun] for one index. *)
Definition hash_leaf (s : list bytes * list leaf) (myIdx : Z) : list bytes * list leaf :=
  let '(mt, leave) := s in
  match zget leave myIdx with
  | Some (Some (b0, b1)) =>
      (zset mt (LeafCountInTwig + myIdx) (sha256 (b0 ++ b1)), zset leave myIdx None)
  | _ => s
  end.

Definition hash_leaves (mt : list bytes) (leave : list leaf) : list bytes * list leaf :=
  foldl hash_leaf (mt, leave) (seqZ 0 (zlen leave)).

(** The [j] of [for j := start; j <= endRound && j+1 < base; j += 2]. *)
Fixpoint pair_starts (fuel : nat) (j endRound base : Z) : list Z :=
  match fuel with
  | O => []
  | S fuel =>
      if (j <=? endRound) && (j + 1 <? base) then j :: pair_starts fuel (j + 2) endRound base
      else []
  end.

Definition mt_job (level base j : Z) : hashJob Z :=
  let i := base + j in mkJob (Z.quot i 2) level (At i) (At (i + 1)).

(** The jobs of one round; [start &^ 1] clears the lowest bit. *)
Definition round_jobs (level base start end_ : Z) : list (hashJob Z) :=
  let endRound := if Z.rem end_ 2 =? 1 then end_ + 1 else end_ in
  mt_job level base <$> pair_starts (Z.to_nat base) (Z.ldiff start 1) endRound base.

Fixpoint sync_rounds (fuel : nat) (mt : list bytes) (base start end_ level : Z) : list bytes :=
  match fuel with
  | O => mt
  | S fuel =>
      if 2 <=? base then
        let mt := Run mt (round_jobs level base start end_) in
        sync_rounds fuel mt (Z.shiftr base 1) (Z.shiftr start 1) (Z.shiftr end_ 1) (level + 1)
      else mt
  end.

(** Eleven rounds take [base] from 2048 down to 2. *)
Definition sync_mt (mt : list bytes) (start end_ : Z) : list bytes :=
  sync_rounds 12 mt LeafCountInTwig start end_ 0.

(** ** One round *)

Lemma elem_of_pair_starts fuel j endRound base x : (base - j < 2 * Z.of_nat fuel + 2) →
  x ∈ pair_starts fuel j endRound base ↔
  ∃ k, 0 ≤ k ∧ x = j + 2 * k ∧ x ≤ endRound ∧ x + 1 < base.
Proof.
  revert j. induction fuel as [|fuel IH]; intros j Hf; cbn [pair_starts].
  { rewrite elem_of_nil. split; [done|]. intros (k & ? & -> & ? & ?). zdiv. }
  destruct (Z.leb_spec j endRound); cbn [andb].
  2:{ rewrite elem_of_nil. split; [done|]. intros (k & ? & -> & ? & ?). zdiv. }
  destruct (Z.ltb_spec (j + 1) base).
  2:{ rewrite elem_of_nil. split; [done|]. intros (k & ? & -> & ? & ?). zdiv. }
  rewrite elem_of_cons, IH by zdiv. split.
  - intros [->|(k & ? & -> & ? & ?)]; [exists 0; zdiv|exists (k + 1); zdiv].
  - intros (k & ? & -> & ? & ?). destruct (decide (k = 0)) as [->|]; [left; zdiv|].
    right. exists (k - 1). zdiv.
Qed.

Lemma NoDup_pair_starts fuel j endRound base : NoDup (pair_starts fuel j endRound base) ∧
  ∀ x, x ∈ pair_starts fuel j endRound base → j ≤ x ∧ x mod 2 = j mod 2.
Proof.
  revert j. induction fuel as [|fuel IH]; intros j; cbn [pair_starts].
  { split; [constructor|]. intros x Hx. by apply elem_of_nil in Hx. }
  case_match.
  2:{ split; [constructor|]. intros x Hx. by apply elem_of_nil in Hx. }
  destruct (IH (j + 2)) as [Hn Hx]. split.
  - constructor; [|done]. intros Hj%Hx. zdiv.
  - intros x [->|Hj]%elem_of_cons; [zdiv|]. apply Hx in Hj as [? ->].
    split; [zdiv|]. by rewrite Zplus_mod, Z_mod_same_full, Z.add_0_r, Zmod_mod.
Qed.

Lemma clear_low start : 0 ≤ start → Z.ldiff start 1 = 2 * (start / 2).
Proof.
  intros Hs. change 1 with (Z.ones 1). rewrite Z.ldiff_ones_r by zdiv.
  rewrite Z.shiftl_mul_pow2, Z.shiftr_div_pow2 by zdiv. change (2 ^ 1) with 2. zdiv.
Qed.

(** The parents of a round: from the parent of the first changed node to the
    parent of the last, or one further where the last is odd. *)
Lemma round_targets level base start end_ b : base = 2 * b → 0 < b →
  0 ≤ start ≤ end_ → end_ < base →
  ∀ p, p ∈ target <$> round_jobs level base start end_ ↔
    b + start / 2 ≤ p ≤ b + (end_ + 1) / 2 ∧ p < base.
Proof.
  intros -> Hb Hse He p. unfold round_jobs. rewrite clear_low by zdiv.
  rewrite <- list_fmap_compose, list_elem_of_fmap.
  assert ((if Z.rem end_ 2 =? 1 then end_ + 1 else end_) = 2 * ((end_ + 1) / 2)) as ->.
  { rewrite Z.rem_mod_nonneg by zdiv. destruct (Z.eqb_spec (end_ mod 2) 1); zdiv. }
  setoid_rewrite elem_of_pair_starts; [|zdiv]. cbn. split.
  - intros (j & -> & k & Hk & -> & Hje & Hj1).
    replace (2 * b + (2 * (start / 2) + 2 * k)) with ((b + start / 2 + k) * 2) by zdiv.
    rewrite Z.quot_mul by zdiv. zdiv.
  - intros [Hp Hpb]. exists (2 * (p - b)). split.
    + replace (2 * b + 2 * (p - b)) with (p * 2) by zdiv. by rewrite Z.quot_mul.
    + exists (p - b - start / 2). zdiv.
Qed.

Lemma round_job_at level base start end_ b j : base = 2 * b → 0 < b → 0 ≤ start →
  j ∈ round_jobs level base start end_ →
  ∃ p, b ≤ p < base ∧ j = mkJob p level (At (2 * p)) (At (2 * p + 1)).
Proof.
  intros -> Hb Hs. unfold round_jobs. rewrite clear_low by zdiv. rewrite list_elem_of_fmap.
  intros (x & -> & Hx). pose proof Hx as Hx2.
  apply NoDup_pair_starts in Hx2 as [Hx0 Hx1].
  apply elem_of_pair_starts in Hx as (k & Hk & -> & _ & Hlt); [|zdiv].
  exists (b + start / 2 + k). split; [zdiv|].
  unfold mt_job. replace (2 * b + (2 * (start / 2) + 2 * k)) with ((b + start / 2 + k) * 2) by zdiv.
  rewrite Z.quot_mul by zdiv. do 2 f_equal; zdiv.
Qed.

Lemma round_independent level base start end_ b : base = 2 * b → 0 < b → 0 ≤ start →
  independent (round_jobs level base start end_).
Proof.
  intros Hb Hb0 Hs. split.
  - unfold round_jobs. rewrite <- list_fmap_compose. apply NoDup_fmap_2_strong; [|apply NoDup_pair_starts].
    intros x y Hx Hy. cbn. rewrite clear_low in Hx, Hy by zdiv.
    apply NoDup_pair_starts in Hx as [? Hx]. apply NoDup_pair_starts in Hy as [? Hy].
    subst base. intros E. rewrite !Z.quot_div_nonneg in E by zdiv. zdiv.
  - intros j j' Hj Hj'.
    destruct (round_job_at _ _ _ _ b j Hb Hb0 Hs Hj) as (p & Hp & ->).
    destruct (round_job_at _ _ _ _ b j' Hb Hb0 Hs Hj') as (p' & Hp' & ->).
    intros [E|E]; cbn in E; injection E; zdiv.
Qed.

(** Inner nodes above the nodes from [base + start] to [base + end_]. *)
Definition above (base start end_ p : Z) : Prop :=
  ∃ c d, 1 ≤ d ∧ base + start ≤ c ≤ base + end_ ∧ p = c / 2 ^ d.

(** Consistent but for the ancestors of the changed nodes of the row at [base]. *)
Definition mt_ok_but (base start end_ : Z) mt : Prop :=
  zlen mt = 4096 ∧
  ∀ p, 1 ≤ p < 2048 → base ≤ p ∨ ¬ above base start end_ p → mt_node_ok mt p.

Lemma mt_run_other mt js p : p ∉ target <$> js → mt_at (run_jobs mt js) p = mt_at mt p.
Proof. apply (run_jobs_other (HashMem0 := mt_mem) mt). Qed.

Lemma run_round mt level base start end_ b : base = 2 * b → 0 < b → base ≤ 2048 →
  0 ≤ start ≤ end_ → end_ < base → zlen mt = 4096 → mt_level b = level →
  let mt' := Run mt (round_jobs level base start end_) in
  zlen mt' = 4096 ∧
  (∀ p, ¬ (b + start / 2 ≤ p ≤ b + (end_ + 1) / 2 ∧ p < base) → mt_at mt' p = mt_at mt p) ∧
  (∀ p, b + start / 2 ≤ p ≤ b + (end_ + 1) / 2 → p < base →
    mt_at mt' p = hash2 level (mt_at mt (2 * p)) (mt_at mt (2 * p + 1))).
Proof.
  intros Hb Hb0 Hmax Hse He Hl Hlv mt'. subst mt'.
  pose proof (round_independent level base start end_ b Hb Hb0 ltac:(lia)) as Hi.
  pose proof (round_targets level base start end_ b Hb Hb0 Hse He) as Ht.
  rewrite Run_eq by done. split_and!.
  - pose proof (run_jobs_valid mt (round_jobs level base start end_) 4095) as H1.
    pose proof (run_jobs_valid mt (round_jobs level base start end_) 4096) as H2.
    cbn in H1, H2. rewrite Hl in *. lia.
  - intros p Hp. rewrite <- Ht in Hp. by apply mt_run_other.
  - intros p Hp Hpb. assert (p ∈ target <$> round_jobs level base start end_) as Hj by (by apply Ht).
    apply list_elem_of_fmap in Hj as (j & -> & Hj).
    destruct (round_job_at level base start end_ b j Hb Hb0 ltac:(lia) Hj) as (q & Hq & ->).
    destruct (run_jobs_target (HashMem0 := mt_mem) mt _ _ Hi Hj) as [E _]; [cbn; lia|]. exact E.
Qed.

Lemma above_half base start end_ b p : base = 2 * b → 0 < b → 0 ≤ start ≤ end_ → end_ < base →
  above base start end_ p → b + start / 2 ≤ p ≤ b + end_ / 2 ∨ above b (start / 2) (end_ / 2) p.
Proof.
  intros -> Hb Hse He (c & d & Hd & Hc & ->). destruct (decide (d = 1)) as [->|Hne].
  - left. change (2 ^ 1) with 2. zdiv.
  - right. exists (c / 2), (d - 1). split_and!; [lia|zdiv|zdiv|].
    rewrite Z.div_div by lia. rewrite <- Z.pow_succ_r by lia. do 2 f_equal. lia.
Qed.

Lemma above_lt base start end_ p : 0 ≤ start ≤ end_ → end_ < base →
  above base start end_ p → p < base.
Proof.
  intros Hse He (c & d & Hd & Hc & ->). apply Z.div_lt_upper_bound; [lia|].
  assert (2 ^ 1 ≤ 2 ^ d) by (apply Z.pow_le_mono_r; lia). change (2 ^ 1) with 2 in *. nia.
Qed.

Lemma round_ok mt level base start end_ b n : base = 2 * b → b = 2 ^ n → 0 ≤ n ≤ 10 → level = 10 - n →
  0 ≤ start ≤ end_ → end_ < base → mt_ok_but base start end_ mt →
  mt_ok_but b (start / 2) (end_ / 2) (Run mt (round_jobs level base start end_)).
Proof.
  intros Hb Hbn Hn Hlv Hse He [Hl Hok].
  assert (0 < b) as Hb0 by (subst b; lia).
  assert (base ≤ 2048) as Hmax.
  { subst base b. assert (2 ^ n ≤ 2 ^ 10) by (apply Z.pow_le_mono_r; lia).
    change (2 ^ 10) with 1024 in *. lia. }
  assert (∀ p, b ≤ p < base → mt_level p = level) as Hrow.
  { intros p Hp. unfold mt_level. rewrite (log2_row n p); subst; lia. }
  destruct (run_round mt level base start end_ b) as (Hl' & Hsame & Hnew); [done|lia|lia|done|done|done| |].
  { apply Hrow. lia. }
  set (mt' := Run mt _) in *. split; [done|]. intros p Hp Hcase.
  assert (p < b → ∀ q, q = 2 * p ∨ q = 2 * p + 1 → mt_at mt' q = mt_at mt q) as Hchild.
  { intros Hpb q Hq. destruct Hcase as [?|Hna]; [lia|].
    destruct (decide (b + start / 2 ≤ q ≤ b + (end_ + 1) / 2 ∧ q < base)) as [[Hq1 Hq2]|Hq1];
      [|by apply Hsame].
    destruct (decide (q ≤ b + end_ / 2)) as [Hle|Hgt].
    { exfalso. apply Hna. exists q, 1. split_and!; [lia|lia|lia|]. change (2 ^ 1) with 2. zdiv. }
    rewrite Hnew by done. rewrite <- (Hrow q) by zdiv. symmetry. apply Hok; [lia|]. right.
    intros [Hin|Hin]%(above_half base start end_ b); [zdiv| |done|lia|done|done].
    apply above_lt in Hin; [zdiv|zdiv|zdiv]. }
  unfold mt_node_ok. destruct (decide (b + start / 2 ≤ p ≤ b + (end_ + 1) / 2 ∧ p < base)) as [[Hp1 Hp2]|Hp1].
  - rewrite Hnew, (Hrow p) by (done || zdiv). rewrite !Hsame by zdiv. done.
  - rewrite (Hsame p) by done. destruct (decide (p < b)) as [Hpb|Hpb].
    + rewrite !Hchild by tauto. apply Hok; [done|]. right.
      destruct Hcase as [?|Hna]; [lia|].
      intros [Hin|Hin]%(above_half base start end_ b); [zdiv|done|done|lia|done|done].
    + rewrite !Hsame by zdiv. apply Hok; [done|].
      destruct (decide (base ≤ p)); [by left|right].
      intros [Hin|Hin]%(above_half base start end_ b); [zdiv| |done|lia|done|done].
      apply above_lt in Hin; [zdiv|zdiv|zdiv].
Qed.

Lemma sync_rounds_ok n fuel mt start end_ level : (n < fuel)%nat → (n ≤ 11)%nat →
  level = 11 - Z.of_nat n → 0 ≤ start ≤ end_ → end_ < 2 ^ Z.of_nat n →
  mt_ok_but (2 ^ Z.of_nat n) start end_ mt →
  zlen (sync_rounds fuel mt (2 ^ Z.of_nat n) start end_ level) = 4096 ∧
  mt_ok (sync_rounds fuel mt (2 ^ Z.of_nat n) start end_ level).
Proof.
  revert fuel mt start end_ level. induction n as [|n IH];
    intros [|fuel] mt start end_ level Hf Hn Hlv Hse He Hok; try lia; cbn [sync_rounds].
  - destruct Hok as [Hl Hok]. split; [done|]. intros p Hp. apply Hok; [done|]. left. cbn. lia.
  - rewrite Nat2Z.inj_succ, Z.pow_succ_r in * by lia.
    destruct (Z.leb_spec 2 (2 * 2 ^ Z.of_nat n)); [|lia].
    rewrite !Z.shiftr_div_pow2 by lia. change (2 ^ 1) with 2.
    replace (2 * 2 ^ Z.of_nat n / 2) with (2 ^ Z.of_nat n) by zdiv.
    apply IH; [lia|lia|lia|zdiv|zdiv|].
    apply (round_ok mt level _ start end_ _ (Z.of_nat n)); try done; lia.
Qed.

Lemma sync_mt_ok mt start end_ : 0 ≤ start ≤ end_ → end_ < 2048 →
  mt_ok_but 2048 start end_ mt →
  zlen (sync_mt mt start end_) = 4096 ∧ mt_ok (sync_mt mt start end_).
Proof.
  intros Hse He Hok. unfold sync_mt, LeafCountInTwig. change 2048 with (2 ^ Z.of_nat 11).
  apply sync_rounds_ok; [lia|lia|lia|done|done|exact Hok].
Qed.

(** The leaves are not written by the rounds. *)
Lemma sync_rounds_leaf fuel mt base start end_ level p : base ≤ 2048 → 0 ≤ start ≤ end_ →
  2048 ≤ p → (end_ < base ∨ base ≤ 1) → (∃ n, base = 2 ^ n ∧ 0 ≤ n) →
  mt_at (sync_rounds fuel mt base start end_ level) p = mt_at mt p.
Proof.
  revert mt base start end_ level. induction fuel as [|fuel IH];
    intros mt base start end_ level Hb Hse Hp He (n & Hn & Hn0); cbn [sync_rounds]; [done|].
  destruct (Z.leb_spec 2 base); [|done].
  assert (1 ≤ n) as Hn1 by (destruct (decide (n = 0)); subst; cbn in *; lia).
  assert (base = 2 * 2 ^ (n - 1)) as E.
  { rewrite <- Z.pow_succ_r by lia. rewrite Hn. f_equal. lia. }
  rewrite !Z.shiftr_div_pow2 by lia. change (2 ^ 1) with 2.
  rewrite IH; [|zdiv|zdiv|done|zdiv|].
  - rewrite Run_eq by (apply (round_independent _ _ _ _ (2 ^ (n - 1))); lia).
    apply mt_run_other. rewrite (round_targets _ _ _ _ (2 ^ (n - 1))); lia.
  - exists (n - 1). split; zdiv.
Qed.

(** ** The leaves *)

Definition leaf_hash (mt : list bytes) (leave : list leaf) (i : Z) : bytes :=
  match zget leave i with
  | Some (Some (b0, b1)) => sha256 (b0 ++ b1)
  | _ => mt_at mt (LeafCountInTwig + i)
  end.

Definition pending (leave : list leaf) (i : Z) : Prop := ∃ b, zget leave i = Some (Some b).

Lemma hash_leaf_other mt leave i p : p ≠ LeafCountInTwig + i →
  mt_at (hash_leaf (mt, leave) i).1 p = mt_at mt p.
Proof.
  intros Hp. unfold hash_leaf. repeat case_match; try done. cbn. unfold mt_at. by rewrite zget_set_ne.
Qed.

Lemma hash_leaf_self mt leave i : zlen mt = 4096 → 0 ≤ i < 2048 →
  mt_at (hash_leaf (mt, leave) i).1 (LeafCountInTwig + i) = leaf_hash mt leave i.
Proof.
  intros Hl Hi. unfold hash_leaf, leaf_hash, LeafCountInTwig. repeat case_match; try done.
  cbn. unfold mt_at. by rewrite zget_set_eq by lia.
Qed.

Lemma hash_leaf_lens mt leave i :
  zlen (hash_leaf (mt, leave) i).1 = zlen mt ∧ zlen (hash_leaf (mt, leave) i).2 = zlen leave ∧
  (∀ j, j ≠ i → zget (hash_leaf (mt, leave) i).2 j = zget leave j) ∧
  ¬ pending (hash_leaf (mt, leave) i).2 i.
Proof.
  unfold hash_leaf, pending. destruct (zget leave i) as [[[b0 b1]|]|] eqn:E; cbn; rewrite ?zlen_zset.
  - split_and!; try done; [intros j Hj; by rewrite zget_set_ne|].
    intros [b Hb]. rewrite zget_set_eq in Hb; [done|]. by eapply zget_bounds.
  - split_and!; try done. intros [b Hb]. congruence.
  - split_and!; try done. intros [b Hb]. congruence.
Qed.

Lemma hash_leaves_from n start mt leave : zlen mt = 4096 → 0 ≤ start → start + Z.of_nat n ≤ 2048 →
  let '(mt', leave') := foldl hash_leaf (mt, leave) (seqZ start (Z.of_nat n)) in
  zlen mt' = 4096 ∧ zlen leave' = zlen leave ∧
  (∀ i, start ≤ i < start + Z.of_nat n →
    mt_at mt' (LeafCountInTwig + i) = leaf_hash mt leave i ∧ ¬ pending leave' i) ∧
  (∀ p, ¬ (start ≤ p - LeafCountInTwig < start + Z.of_nat n) → mt_at mt' p = mt_at mt p) ∧
  (∀ i, i < start → zget leave' i = zget leave i).
Proof.
  revert start mt leave. induction n as [|n IH]; intros start mt leave Hl Hs Hn.
  { cbn. split_and!; try done. intros i Hi. lia. }
  rewrite Nat2Z.inj_succ, seqZ_cons by lia. cbn [foldl].
  destruct (hash_leaf (mt, leave) start) as [mt1 leave1] eqn:E1.
  pose proof (hash_leaf_lens mt leave start) as (Hl1 & Hl2 & Hl3 & Hl4).
  pose proof (hash_leaf_self mt leave start Hl ltac:(lia)) as Hself.
  pose proof (hash_leaf_other mt leave start) as Hoth. rewrite E1 in *. cbn [fst snd] in *.
  replace (Z.pred (Z.succ (Z.of_nat n))) with (Z.of_nat n) by lia.
  specialize (IH (Z.succ start) mt1 leave1).
  destruct (foldl hash_leaf (mt1, leave1) (seqZ (Z.succ start) (Z.of_nat n))) as [mt' leave'].
  destruct IH as (H1 & H2 & H3 & H4 & H5); [lia|lia|lia|].
  split_and!; [done|lia| | |].
  - intros i Hi. destruct (decide (i = start)) as [->|Hne].
    + rewrite H4, Hself by lia. split; [done|]. unfold pending in *. by rewrite H5 by lia.
    + destruct (H3 i) as [E Hp]; [lia|]. split; [|done]. rewrite E.
      unfold leaf_hash. rewrite Hl3 by lia. by rewrite Hoth by lia.
  - intros p Hp. rewrite H4 by lia. apply Hoth. lia.
  - intros i Hi. rewrite H5 by lia. apply Hl3. lia.
Qed.

Lemma hash_leaves_ok mt leave : zlen mt = 4096 → zlen leave = 2048 →
  let '(mt', leave') := hash_leaves mt leave in
  zlen mt' = 4096 ∧ zlen leave' = 2048 ∧
  (∀ i, 0 ≤ i < 2048 → mt_at mt' (LeafCountInTwig + i) = leaf_hash mt leave i) ∧
  (∀ p, p < 2048 → mt_at mt' p = mt_at mt p) ∧ (∀ i, ¬ pending leave' i).
Proof.
  intros Hl Hv. unfold hash_leaves. rewrite Hv. change 2048 with (Z.of_nat 2048) at 1.
  pose proof (hash_leaves_from 2048 0 mt leave Hl) as Hh.
  change (Z.of_nat 2048) with 2048 in *.
  destruct (foldl hash_leaf (mt, leave) (seqZ 0 2048)) as [mt' leave'].
  destruct Hh as (H1 & H2 & H3 & H4 & H5); [lia|lia|]. unfold LeafCountInTwig in *.
  split_and!; [done|lia| | |].
  - intros i Hi. apply H3. lia.
  - intros p Hp. apply H4. lia.
  - intros i [b Hb]. pose proof (zget_bounds _ _ _ Hb). apply (H3 i); [lia|]. by exists b.
Qed.

(** Every entry of the array is a 32-byte hash. *)
Definition hashes32 (mt : list bytes) : Prop := ∀ h, h ∈ mt → zlen h = 32.

Lemma zlen_sha256 b : zlen (sha256 b) = 32.
Proof. unfold zlen. by rewrite sha256_length. Qed.

Lemma hashes32_zset mt i v : hashes32 mt → zlen v = 32 → hashes32 (zset mt i v).
Proof.
  intros Hm Hv h Hh. unfold zset in Hh. destruct (0 <=? i); [|by apply Hm].
  apply list_elem_of_lookup in Hh as [j Hj].
  apply list_lookup_insert_Some in Hj as [(_ & <- & _)|[_ Hj]]; [done|].
  apply Hm. by eapply list_elem_of_lookup_2.
Qed.

Lemma hashes32_run mt js : hashes32 mt → hashes32 (run_jobs mt js).
Proof.
  revert mt. induction js as [|j js IH]; intros mt Hm; [done|]. cbn. apply IH.
  apply hashes32_zset; [done|]. apply zlen_sha256.
Qed.

Lemma hashes32_rounds fuel mt base start end_ lv : hashes32 mt →
  hashes32 (sync_rounds fuel mt base start end_ lv).
Proof.
  revert mt base start end_ lv. induction fuel as [|fuel IH]; intros mt base start end_ lv Hm; cbn [sync_rounds]; [done|].
  case_match; [|done]. apply IH. unfold Run. case_match; repeat apply hashes32_run; done.
Qed.

Lemma hashes32_sync mt start end_ : hashes32 mt → hashes32 (sync_mt mt start end_).
Proof. apply hashes32_rounds. Qed.

Lemma hashes32_leaves mt leave : hashes32 mt → hashes32 (hash_leaves mt leave).1.
Proof.
  unfold hash_leaves. generalize (seqZ 0 (zlen leave)) as l. intros l. revert mt leave.
  induction l as [|i l IH]; intros mt leave Hm; [done|]. cbn [foldl].
  assert (hashes32 (hash_leaf (mt, leave) i).1) as H1.
  { unfold hash_leaf. repeat case_match; try done. cbn. by apply hashes32_zset, zlen_sha256. }
  destruct (hash_leaf (mt, leave) i) as [mt1 leave1]. by apply IH.
Qed.

Lemma hashes32_drop mt n : hashes32 mt → hashes32 (drop n mt).
Proof.
  intros Hm h Hh. apply Hm. rewrite <- (take_drop n mt). apply elem_of_app. by right.
Qed.

(** ** The reference: a Merkle root computed from the leaves *)

Fixpoint subtree (d : nat) (leaf_at : Z → bytes) (p : Z) : bytes :=
  match d with
  | O => leaf_at p
  | S d => hash2 (Z.of_nat d) (subtree d leaf_at (2 * p)) (subtree d leaf_at (2 * p + 1))
  end.

Lemma mt_ok_subtree mt leaf_at d p : mt_ok mt →
  (∀ i, 0 ≤ i < 2048 → mt_at mt (LeafCountInTwig + i) = leaf_at (LeafCountInTwig + i)) →
  (d ≤ 11)%nat → 2 ^ (11 - Z.of_nat d) ≤ p < 2 * 2 ^ (11 - Z.of_nat d) →
  mt_at mt p = subtree d leaf_at p.
Proof.
  intros Hok Hleaf. revert p. induction d as [|d IH]; intros p Hd Hp; cbn [subtree].
  { cbn in Hp. replace p with (LeafCountInTwig + (p - 2048)) by (unfold LeafCountInTwig; lia).
    apply Hleaf. lia. }
  assert (2 ^ (11 - Z.of_nat d) = 2 * 2 ^ (11 - Z.of_nat (S d))) as E.
  { rewrite <- Z.pow_succ_r by lia. f_equal. lia. }
  assert (2 ^ 0 ≤ 2 ^ (11 - Z.of_nat (S d)) ≤ 2 ^ 10) as Hb by (split; apply Z.pow_le_mono_r; lia).
  change (2 ^ 0) with 1 in Hb. change (2 ^ 10) with 1024 in Hb.
  rewrite Hok by lia. unfold mt_level. rewrite (log2_row (11 - Z.of_nat (S d))) by lia.
  rewrite !IH by lia. f_equal. lia.
Qed.

Lemma hash_leaves_ok_but mt leave start end_ : zlen mt = 4096 → zlen leave = 2048 →
  0 ≤ start ≤ end_ → (∀ i, pending leave i → start ≤ i ≤ end_) →
  mt_ok_but 2048 start end_ mt → mt_ok_but 2048 start end_ (hash_leaves mt leave).1.
Proof.
  intros Hl Hv Hse Hp [_ Hok]. pose proof (hash_leaves_ok mt leave Hl Hv) as Hh.
  destruct (hash_leaves mt leave) as [mt' leave']. cbn. destruct Hh as (Hl' & _ & Hleaf & Hin & _).
  split; [done|]. intros p Hp1 Hp2.
  assert (∀ q, q = 2 * p ∨ q = 2 * p + 1 → mt_at mt' q = mt_at mt q) as Hchild.
  { intros q Hq. destruct (decide (q < 2048)) as [|Hge]; [by apply Hin|].
    replace q with (LeafCountInTwig + (q - 2048)) by (unfold LeafCountInTwig; lia).
    rewrite Hleaf by lia. unfold leaf_hash.
    destruct (zget leave (q - 2048)) as [[b|]|] eqn:E; try done. exfalso.
    destruct (Hp (q - 2048)) as [H1 H2]; [by exists b|].
    destruct Hp2 as [?|Hna]; [lia|]. apply Hna. exists q, 1. split_and!; [lia|lia|lia|].
    change (2 ^ 1) with 2. zdiv. }
  unfold mt_node_ok. rewrite Hin by lia. rewrite !Hchild by tauto. by apply Hok.
Qed.

Lemma sync_youngest_ok mt leave start end_ : zlen mt = 4096 → zlen leave = 2048 →
  0 ≤ start ≤ end_ → end_ < 2048 → (∀ i, pending leave i → start ≤ i ≤ end_) →
  mt_ok_but 2048 start end_ mt →
  let mt' := sync_mt (hash_leaves mt leave).1 start end_ in
  zlen mt' = 4096 ∧ mt_ok mt' ∧
  (∀ i, 0 ≤ i < 2048 → mt_at mt' (LeafCountInTwig + i) = leaf_hash mt leave i).
Proof.
  intros Hl Hv Hse He Hp Hok mt'. pose proof (hash_leaves_ok mt leave Hl Hv) as Hh.
  destruct (sync_mt_ok (hash_leaves mt leave).1 start end_) as [Hl' Hok']; [done|done|by apply hash_leaves_ok_but|].
  split_and!; [done|done|]. intros i Hi. subst mt'. unfold sync_mt.
  rewrite sync_rounds_leaf; [|unfold LeafCountInTwig; lia|done|unfold LeafCountInTwig; lia|
    unfold LeafCountInTwig; lia|by exists 11].
  destruct (hash_leaves mt leave) as [mt1 leave1]. by apply Hh.
Qed.

(** C25: the incremental sync is a full recomputation. When the Merkle tree of
    the youngest twig was consistent but for the ancestors of the leaves from
    [start] to [end_], and the pending leaves are among these, then hashing
    the leaves and syncing the range gives a tree that passes [checkMT] and
    whose root is the Merkle root of all 2048 leaves. *)
Theorem syncMT4YoungestTwig_recomputes mt leave start end_ :
  zlen mt = 4096 → zlen leave = 2048 → 0 ≤ start ≤ end_ → end_ < 2048 →
  (∀ i, pending leave i → start ≤ i ≤ end_) → mt_ok_but 2048 start end_ mt →
  let mt' := sync_mt (hash_leaves mt leave).1 start end_ in
  checkMT mt' = Ret tt ∧
  mt_at mt' 1 = subtree 11 (λ p, leaf_hash mt leave (p - LeafCountInTwig)) 1 ∧
  (∀ i, 0 ≤ i < 2048 → mt_at mt' (LeafCountInTwig + i) = leaf_hash mt leave i) ∧
  (∀ i, ¬ pending (hash_leaves mt leave).2 i).
Proof.
  intros Hl Hv Hse He Hp Hok mt'.
  destruct (sync_youngest_ok mt leave start end_) as (Hl' & Hok' & Hleaf); [done..|].
  split_and!; [by apply checkMT_Ret| |done|].
  - apply mt_ok_subtree; [done| |lia|done].
    intros i Hi. rewrite Hleaf by done. f_equal. lia.
  - pose proof (hash_leaves_ok mt leave Hl Hv) as Hh.
    destruct (hash_leaves mt leave) as [mt1 leave1]. by apply Hh.
Qed.
End sync.

(** ** Witness: two leaves written into the null tree *)

Section witness.
#[local] Existing Instance toy_sha256.

Definition two_leaves : list leaf :=
  replicate 5 None ++ [Some ([1; 2], []); Some ([3], [4])] ++ replicate 2041 None.

Lemma two_leaves_pending i : pending two_leaves i → 5 ≤ i ≤ 6.
Proof.
  intros [b Hb]. unfold zget, two_leaves in Hb. destruct (Z.leb_spec 0 i); [|done].
  apply lookup_app_Some in Hb as [Hb|[Hi Hb]]; [by apply lookup_replicate in Hb as [? _]|].
  rewrite length_replicate in *.
  apply lookup_app_Some in Hb as [Hb|[Hi' Hb]]; [|by apply lookup_replicate in Hb as [? _]].
  apply lookup_lt_Some in Hb. cbn in Hb. lia.
Qed.

Lemma syncMT4YoungestTwig_recomputes_witness :
  checkMT (sync_mt (hash_leaves NullMT4Twig two_leaves).1 5 6) = Ret tt ∧
  mt_at (sync_mt (hash_leaves NullMT4Twig two_leaves).1 5 6) 1 =
    subtree 11 (λ p, leaf_hash NullMT4Twig two_leaves (p - LeafCountInTwig)) 1.
Proof.
  destruct (syncMT4YoungestTwig_recomputes NullMT4Twig two_leaves 5 6) as (H1 & H2 & _).
  - apply zlen_NullMT4Twig.
  - vm_compute. reflexivity.
  - lia.
  - lia.
  - apply two_leaves_pending.
  - split; [apply zlen_NullMT4Twig|]. intros p Hp _. by apply NullMT4Twig_ok.
  - by split.
Defined.
End witness.
