(* ===== verification/Tree.v ===== *)
(** * The data tree (datatree/tree.go)

    The twigs, the nodes above them, the two files and the bookkeeping of the
    block being executed. Every method that changes the tree is a definition
    from [Tree] to an outcome; the maps [activeTwigs] and [nodes] hold
    pointers in Go that are never shared between two keys, so a store through
    one is an [alter] of the map. *)
From S2P Require Import Prelude Types EntryCodec Hasher AppendFile HPFile EntryFile TwigMtFile.
From S2P Require Import Twig YoungestTwig.

Definition MinPruneCount : Z := 2.
Definition DeactivedSNListMaxLen : Z := 64.

(** [math/bits] *)
Definition LeadingZeros64 (x : Z) : Z := if x =? 0 then 64 else 63 - Z.log2 x.

Definition Pos (level n : Z) : Z := to_int64 (Z.lor (Z.shiftl level 56) n).

Record EdgeNode : Type := mkEdgeNode { enPos : Z; enValue : bytes }.

Record Tree (F : Type) : Type := mkTree {
  entryFile : F;
  twigMtFile : F;
  nodes : gmap Z bytes;
  youngestTwigID : Z;
  activeTwigs : gmap Z Twig;
  mtree4YoungestTwig : list bytes;
  leave4YoungestTwig : list leaf;
  mtree4YTChangeStart : Z;
  mtree4YTChangeEnd : Z;
  twigsToBeDeleted : list Z;
  touchedPosOf512b : gset Z;
  deactivedSNList : list Z
}.
Arguments mkTree {F}.
Arguments entryFile {F}.
Arguments twigMtFile {F}.
Arguments nodes {F}.
Arguments youngestTwigID {F}.
Arguments activeTwigs {F}.
Arguments mtree4YoungestTwig {F}.
Arguments leave4YoungestTwig {F}.
Arguments mtree4YTChangeStart {F}.
Arguments mtree4YTChangeEnd {F}.
Arguments twigsToBeDeleted {F}.
Arguments touchedPosOf512b {F}.
Arguments deactivedSNList {F}.

Section setters.
Context {F : Type}.
Implicit Types (t : Tree F).

Definition set_entryFile t f := mkTree f (twigMtFile t) (nodes t) (youngestTwigID t) (activeTwigs t)
  (mtree4YoungestTwig t) (leave4YoungestTwig t) (mtree4YTChangeStart t) (mtree4YTChangeEnd t)
  (twigsToBeDeleted t) (touchedPosOf512b t) (deactivedSNList t).
Definition set_twigMtFile t f := mkTree (entryFile t) f (nodes t) (youngestTwigID t) (activeTwigs t)
  (mtree4YoungestTwig t) (leave4YoungestTwig t) (mtree4YTChangeStart t) (mtree4YTChangeEnd t)
  (twigsToBeDeleted t) (touchedPosOf512b t) (deactivedSNList t).
Definition set_nodes t n := mkTree (entryFile t) (twigMtFile t) n (youngestTwigID t) (activeTwigs t)
  (mtree4YoungestTwig t) (leave4YoungestTwig t) (mtree4YTChangeStart t) (mtree4YTChangeEnd t)
  (twigsToBeDeleted t) (touchedPosOf512b t) (deactivedSNList t).
Definition set_youngest t y := mkTree (entryFile t) (twigMtFile t) (nodes t) y (activeTwigs t)
  (mtree4YoungestTwig t) (leave4YoungestTwig t) (mtree4YTChangeStart t) (mtree4YTChangeEnd t)
  (twigsToBeDeleted t) (touchedPosOf512b t) (deactivedSNList t).
Definition set_activeTwigs t m := mkTree (entryFile t) (twigMtFile t) (nodes t) (youngestTwigID t) m
  (mtree4YoungestTwig t) (leave4YoungestTwig t) (mtree4YTChangeStart t) (mtree4YTChangeEnd t)
  (twigsToBeDeleted t) (touchedPosOf512b t) (deactivedSNList t).
Definition set_mtree t mt leave s e := mkTree (entryFile t) (twigMtFile t) (nodes t)
  (youngestTwigID t) (activeTwigs t) mt leave s e
  (twigsToBeDeleted t) (touchedPosOf512b t) (deactivedSNList t).
Definition set_toDelete t l := mkTree (entryFile t) (twigMtFile t) (nodes t) (youngestTwigID t)
  (activeTwigs t) (mtree4YoungestTwig t) (leave4YoungestTwig t) (mtree4YTChangeStart t)
  (mtree4YTChangeEnd t) l (touchedPosOf512b t) (deactivedSNList t).
Definition set_touched t s := mkTree (entryFile t) (twigMtFile t) (nodes t) (youngestTwigID t)
  (activeTwigs t) (mtree4YoungestTwig t) (leave4YoungestTwig t) (mtree4YTChangeStart t)
  (mtree4YTChangeEnd t) (twigsToBeDeleted t) s (deactivedSNList t).
Definition set_deactived t l := mkTree (entryFile t) (twigMtFile t) (nodes t) (youngestTwigID t)
  (activeTwigs t) (mtree4YoungestTwig t) (leave4YoungestTwig t) (mtree4YTChangeStart t)
  (mtree4YTChangeEnd t) (twigsToBeDeleted t) (touchedPosOf512b t) l.
End setters.

(** Reduces the fields of an updated tree. *)
Ltac tree_fields := cbn [entryFile twigMtFile nodes youngestTwigID activeTwigs mtree4YoungestTwig
  leave4YoungestTwig mtree4YTChangeStart mtree4YTChangeEnd twigsToBeDeleted touchedPosOf512b deactivedSNList
  set_entryFile set_twigMtFile set_nodes set_youngest set_activeTwigs set_mtree set_toDelete set_touched set_deactived].

(** ** The slots of the active twigs and of the nodes *)

#[export] Instance twigs_mem : HashMem (gmap Z Twig) (Z * twig_slot) := {|
  mload m l := match m !! l.1 with Some t => twig_load t l.2 | None => [] end;
  mstore m l v := alter (λ t, twig_store t l.2 v) l.1 m;
  mvalid m l := match m !! l.1 with Some t => twig_slot_valid t l.2 | None => False end
|}.

#[export] Instance twigs_mem_laws : HashMemLaws (gmap Z Twig) (Z * twig_slot).
Proof.
  split.
  - intros m [id s] v. cbn. rewrite lookup_alter_eq. destruct (m !! id) as [t|]; [|done].
    apply (mload_eq (HashMem0 := twig_mem) t s v).
  - intros m [id s] [id' s'] v Hne. cbn. destruct (decide (id = id')) as [->|].
    + rewrite lookup_alter_eq. destruct (m !! id') as [t|]; [|done].
      apply (mload_ne (HashMem0 := twig_mem) t s s' v). congruence.
    + by rewrite lookup_alter_ne.
  - intros m [id s] v [id' s']. cbn. destruct (decide (id = id')) as [->|].
    + rewrite lookup_alter_eq. destruct (m !! id') as [t|]; [|done]. apply (mvalid_store (HashMem0 := twig_mem) t s v s').
    + by rewrite lookup_alter_ne.
  - intros m [id s] [id' s'] v v' Hne. cbn. destruct (decide (id = id')) as [->|].
    + rewrite !alter_alter_eq. apply map_eq. intros i.
      destruct (decide (i = id')) as [->|]; [|by rewrite !lookup_alter_ne].
      rewrite !lookup_alter_eq. destruct (m !! id') as [t|]; [|done]. cbn. f_equal.
      apply (mstore_comm (HashMem0 := twig_mem) t s s' v v'). congruence.
    + by apply alter_alter_ne.
  - intros m [id s] v v'. cbn. rewrite alter_alter_eq. apply map_eq. intros i.
    destruct (decide (i = id)) as [->|]; [|by rewrite !lookup_alter_ne].
    rewrite !lookup_alter_eq. destruct (m !! id) as [t|]; [|done]. cbn. f_equal.
    apply (mstore_twice (HashMem0 := twig_mem) t s v v').
Qed.

#[export] Instance nodes_mem : HashMem (gmap Z bytes) Z := {|
  mload m p := default [] (m !! p);
  mstore m p v := alter (λ _, v) p m;
  mvalid m p := is_Some (m !! p)
|}.

#[export] Instance nodes_mem_laws : HashMemLaws (gmap Z bytes) Z.
Proof.
  split; cbn.
  - intros m p v [x Hx]. by rewrite lookup_alter_eq, Hx.
  - intros m p p' v Hne. by rewrite lookup_alter_ne.
  - intros m p v p'. destruct (decide (p = p')) as [->|]; [|by rewrite lookup_alter_ne].
    rewrite lookup_alter_eq. by rewrite fmap_is_Some.
  - intros m p p' v v' Hne. by rewrite alter_alter_ne.
  - intros m p v v'. by rewrite alter_alter_eq.
Qed.

Section tree.
Context `{!Sha256, !Meow} {F : Type} `{!AppendFile F}.
Implicit Types (tree : Tree F).

(** [tree.activeTwigs\[id\].m()]: a missing key gives a nil pointer. *)
Definition get_twig tree (id : Z) : outcome Twig :=
  match activeTwigs tree !! id with
  | Some t => mret t
  | None => Panic "nil pointer dereference"
  end.

Definition put_twig tree (id : Z) (t : Twig) : Tree F := set_activeTwigs tree (<[id := t]> (activeTwigs tree)).

(** Two new files make a new tree. *)
Definition NewEmptyTree (entries twigMt : F) : Tree F :=
  mkTree entries twigMt {[ Pos FirstLevelAboveTwig 0 := zero32 ]} 0 {[ 0 := CopyNullTwig ]}
    NullMT4Twig (replicate 2048 None) (-1) (-1) [] ∅ [].

Definition calcMaxLevel (youngest : Z) : Z :=
  FirstLevelAboveTwig + 63 - LeadingZeros64 (to_uint64 youngest).

Definition GetFileSizes tree : Z * Z := (af_Size (entryFile tree), af_Size (twigMtFile tree)).

Definition TruncateFiles tree (entryFileSize twigMtFileSize : Z) : outcome (Tree F) :=
  ef ← af_Truncate (entryFile tree) entryFileSize;
  tf ← af_Truncate (twigMtFile tree) twigMtFileSize;
  mret (set_twigMtFile (set_entryFile tree ef) tf).

Definition Tree_ReadEntry tree (pos : Z) : outcome (Tree F * Entry) :=
  '(ef, (entry, _)) ← ReadEntry (entryFile tree) pos;
  mret (set_entryFile tree ef, entry).

Definition GetActiveBit tree (sn : Z) : outcome bool :=
  t ← get_twig tree (Z.shiftr sn TwigShift);
  getBit t (Z.land sn TwigMask).

(** ** Entries *)

Definition setEntryActiviation tree (sn : Z) (active : bool) : outcome (Tree F) :=
  let twigID := Z.shiftr sn TwigShift in
  t ← get_twig tree twigID;
  tree ← (if active then
      t ← setBit t (Z.land sn TwigMask); mret (put_twig tree twigID t)
    else
      t ← clearBit t (Z.land sn TwigMask);
      mret (set_deactived (put_twig tree twigID t) (deactivedSNList tree ++ [sn])));
  mret (set_touched tree ({[ Z.quot sn 512 ]} ∪ touchedPosOf512b tree)).

Definition ActiviateEntry tree (sn : Z) : outcome (Tree F) := setEntryActiviation tree sn true.

Definition DeactiviateEntry tree (sn : Z) : outcome (Tree F * Z) :=
  tree ← setEntryActiviation tree sn false;
  mret (tree, zlen (deactivedSNList tree)).

(** ** Syncing the Merkle trees *)

Definition syncMT4YoungestTwig tree : outcome (Tree F) :=
  if mtree4YTChangeStart tree =? -1 then mret tree
  else
    let '(mt, leave) := hash_leaves (mtree4YoungestTwig tree) (leave4YoungestTwig tree) in
    let mt := sync_mt mt (mtree4YTChangeStart tree) (mtree4YTChangeEnd tree) in
    let tree := set_mtree tree mt leave (-1) 0 in
    t ← get_twig tree (youngestTwigID tree);
    root ← index mt 1;
    mret (put_twig tree (youngestTwigID tree) (set_leftRoot t root)).

(** [if len(newList) == 0 || newList\[len(newList)-1\] != x] *)
Definition push_new (newList : list Z) (x : Z) : list Z :=
  if bool_decide (last newList = Some x) then newList else newList ++ [x].

(** One of the loops of [syncMT4ActiveBits]: the jobs and the next list. *)
Definition twig_jobs tree (nList : list Z) (twigID_of parent : Z → Z)
    (job : (twig_slot → Z * twig_slot) → Z → outcome (hashJob (Z * twig_slot))) :
    outcome (list (hashJob (Z * twig_slot)) * list Z) :=
  for_state (λ '(jobs, newList) i,
    _ ← get_twig tree (twigID_of i);
    j ← job (λ s, (twigID_of i, s)) i;
    mret (jobs ++ [j], push_new newList (parent i))) ([], []) nList.

Definition run_twigs tree (jobs : list (hashJob (Z * twig_slot))) : Tree F :=
  set_activeTwigs tree (Run (activeTwigs tree) jobs).

(** [sort.Slice] of the keys of [touchedPosOf512b]. *)
Definition sorted_touched tree : list Z := merge_sort Z.le (elements (touchedPosOf512b tree)).

Definition syncMT4ActiveBits tree : outcome (Tree F * list Z) :=
  let nList := sorted_touched tree in
  '(jobs, nList) ← twig_jobs tree nList (λ i, Z.shiftr i 2) (λ i, Z.quot i 2)
    (λ at_ i, syncL1 at_ (Z.land i 3));
  let tree := run_twigs tree jobs in
  '(jobs, nList) ← twig_jobs tree nList (λ i, Z.shiftr i 1) (λ i, Z.shiftr i 1)
    (λ at_ i, syncL2 at_ (Z.land i 1));
  let tree := run_twigs tree jobs in
  '(jobs, _) ← twig_jobs tree nList id id (λ at_ _, mret (syncL3 at_));
  let tree := run_twigs tree jobs in
  '(jobs, newList) ← twig_jobs tree nList id (λ i, Z.quot i 2) (λ at_ _, mret (syncTop at_));
  mret (run_twigs tree jobs, newList).

Definition maxNAtLevel (youngest level : Z) : outcome Z :=
  _ ← require (negb (level <? FirstLevelAboveTwig)) "level is too small";
  mret (Z.shiftr youngest (level - FirstLevelAboveTwig)).

Definition getTwigRoot tree (n : Z) : option bytes :=
  match activeTwigs tree !! n with
  | Some t => Some (twigRoot t)
  | None => nodes tree !! Pos (FirstLevelAboveTwig - 1) n
  end.

(** The body of the loop of [syncNodesByLevel]: the tree with the nodes it
    creates, and the job. *)
Definition node_job tree (level maxN i : Z) : outcome (Tree F * hashJob Z) :=
  let nodePos := Pos level i in
  let tree := match nodes tree !! nodePos with
              | Some _ => tree
              | None => set_nodes tree (<[nodePos := zero32]> (nodes tree))
              end in
  if level =? FirstLevelAboveTwig then
    match getTwigRoot tree (2 * i) with
    | None => Panic "Cannot find left twig root"
    | Some left_ =>
        let right_ := default (twigRoot NullTwig) (getTwigRoot tree (2 * i + 1)) in
        mret (tree, mkJob nodePos (level - 1) (Copy left_) (Copy right_))
    end
  else
    let nodePosL := Pos (level - 1) (2 * i) in
    let nodePosR := Pos (level - 1) (2 * i + 1) in
    _ ← require (bool_decide (is_Some (nodes tree !! nodePosL))) "Failed to find the left child";
    tree ← match nodes tree !! nodePosR with
           | Some _ => mret tree
           | None =>
               h ← index NullNodeInHigherTree level;
               _ ← require (negb (negb (2 * i =? maxN) && negb (2 * i + 1 =? maxN)))
                     "Not at the right edge, bug here";
               mret (set_nodes tree (<[nodePosR := h]> (nodes tree)))
           end;
    mret (tree, mkJob nodePos (level - 1) (At nodePosL) (At nodePosR)).

Definition syncNodesByLevel tree (level : Z) (nList : list Z) : outcome (Tree F * list Z) :=
  maxN ← maxNAtLevel (youngestTwigID tree) level;
  '(tree, jobs, newList) ← for_state (λ '(tree, jobs, newList) i,
      '(tree, j) ← node_job tree level maxN i;
      mret (tree, jobs ++ [j], push_new newList (Z.quot i 2))) (tree, [], []) nList;
  mret (set_nodes tree (Run (nodes tree) jobs), newList).

Definition syncUpperNodes tree (nList : list Z) : outcome (Tree F) :=
  let maxLevel := calcMaxLevel (youngestTwigID tree) in
  '(tree, _) ← for_state (λ '(tree, nList) level, syncNodesByLevel tree level nList)
    (tree, nList) (seqZ FirstLevelAboveTwig (maxLevel + 1 - FirstLevelAboveTwig));
  mret tree.

Definition get_node tree (pos : Z) : outcome bytes :=
  match nodes tree !! pos with
  | Some h => mret h
  | None => Panic "nil pointer dereference"
  end.

Definition syncMT tree : outcome (Tree F * bytes) :=
  let maxLevel := calcMaxLevel (youngestTwigID tree) in
  tree ← syncMT4YoungestTwig tree;
  '(tree, nList) ← syncMT4ActiveBits tree;
  tree ← syncUpperNodes tree nList;
  let tree := set_touched tree ∅ in
  root ← get_node tree (Pos maxLevel 0);
  mret (tree, root).

(** ** Appending *)

Definition appendEntry tree (bzTwo : bytes * bytes) (sn : Z) : outcome (Tree F * Z) :=
  let twigID := Z.shiftr sn TwigShift in
  let tree := set_youngest tree twigID in
  tree ← ActiviateEntry tree sn;
  let position := Z.land sn TwigMask in
  let start := if mtree4YTChangeStart tree =? -1 then position else mtree4YTChangeStart tree in
  '(ef, pos) ← EntryFile_Append (entryFile tree) bzTwo;
  let tree := set_entryFile tree ef in
  let tree := set_mtree tree (mtree4YoungestTwig tree)
                (zset (leave4YoungestTwig tree) position (Some bzTwo)) start position in
  if position =? 0 then
    t ← get_twig tree twigID;
    mret (put_twig tree twigID (set_FirstEntryPos t pos), pos)
  else if position =? TwigMask then
    tree ← syncMT4YoungestTwig tree;
    t ← get_twig tree twigID;
    tf ← AppendTwig (twigMtFile tree) (drop 1 (mtree4YoungestTwig tree)) (FirstEntryPos t);
    let tree := set_twigMtFile tree tf in
    let tree := set_youngest tree (youngestTwigID tree + 1) in
    let tree := put_twig tree (youngestTwigID tree) CopyNullTwig in
    let tree := set_mtree tree NullMT4Twig (leave4YoungestTwig tree)
                  (mtree4YTChangeStart tree) (mtree4YTChangeEnd tree) in
    let tree := set_touched tree ({[ Z.quot (sn + 1) 512 ]} ∪ touchedPosOf512b tree) in
    mret (tree, pos)
  else mret (tree, pos).

Definition AppendEntry tree (entry : Entry) : outcome (Tree F * Z) :=
  let bz := EntryToBytes entry (deactivedSNList tree) in
  appendEntry (set_deactived tree []) (bz, []) (SerialNum entry).

Definition AppendEntryRawBytes tree (entryBz : bytes) (sn : Z) : outcome (Tree F * Z) :=
  entryBz ← store_index entryBz 0 (to_uint 8 (zlen (deactivedSNList tree)));
  let bz := SNListToBytes (deactivedSNList tree) in
  appendEntry (set_deactived tree []) (entryBz, bz) sn.

(** [GetActiveEntriesInTwig]: what the channel carries. The code sends it from
    a goroutine while the receiver deactivates and appends what it received;
    the goroutine looks at each active bit before it sends the entry, and reads
    only records that were written before, so what it sends does not depend on
    how the two are interleaved. *)
Definition GetActiveEntriesInTwig tree (twigID : Z) : outcome (Tree F * list bytes) :=
  t ← get_twig tree twigID;
  '(ef, res) ← active_entries_from (entryFile tree) (FirstEntryPos t) (active t) 0
    (Z.to_nat LeafCountInTwig);
  mret (set_entryFile tree ef, res).

(** ** Eviction and the end of a block *)

Definition TwigCanBePruned tree (twigID : Z) : bool :=
  bool_decide (activeTwigs tree !! twigID = None).

Definition EvictTwig tree (twigID : Z) : Tree F := set_toDelete tree (twigsToBeDeleted tree ++ [twigID]).

Definition delete_twig tree (twigID : Z) : outcome (Tree F) :=
  t ← get_twig tree twigID;
  let tree := set_nodes tree (<[Pos (FirstLevelAboveTwig - 1) twigID := twigRoot t]> (nodes tree)) in
  mret (set_activeTwigs tree (delete twigID (activeTwigs tree))).

Definition EndBlock tree : outcome (Tree F * bytes) :=
  '(tree, rootHash) ← syncMT tree;
  tree ← for_state delete_twig tree (twigsToBeDeleted tree);
  let tree := set_toDelete tree [] in
  ef ← af_Flush (entryFile tree);
  tf ← af_Flush (twigMtFile tree);
  mret (set_twigMtFile (set_entryFile tree ef) tf, rootHash).

(** ** Pruning *)

Definition EdgeNodesToBytes (edgeNodes : list EdgeNode) : outcome bytes :=
  for_state (λ res node,
    _ ← require (zlen (enValue node) =? 32) "len(node.Value) != 32";
    mret (res ++ le_bytes 8 (to_uint64 (enPos node)) ++ enValue node)) [] edgeNodes.

(** The nodes of a level before [end] that are of no use, with a margin of one. *)
Definition level_end (end_ level : Z) : Z :=
  if negb (Z.rem end_ 2 =? 0) && negb (level =? FirstLevelAboveTwig - 1) then end_ - 1 else end_.

Definition removeUselessNodes tree (start end_ : Z) : Tree F :=
  let maxLevel := calcMaxLevel (youngestTwigID tree) in
  let '(ns, _, _) := foldl (λ '(ns, start, end_) level,
      (foldl (λ ns i, delete (Pos level i) ns) ns
         (seqZ (start - 1) (level_end end_ level - (start - 1))),
       Z.shiftr start 1, Z.shiftr end_ 1))
    (nodes tree, start, end_)
    (seqZ (FirstLevelAboveTwig - 1) (maxLevel + 1 - (FirstLevelAboveTwig - 1))) in
  set_nodes tree ns.

Definition getEdgeNodes tree (end_ : Z) : outcome (list EdgeNode) :=
  let maxLevel := calcMaxLevel (youngestTwigID tree) in
  '(res, _) ← for_state (λ '(res, end_) level,
      let pos := Pos level (level_end end_ level) in
      match nodes tree !! pos with
      | Some h => mret (res ++ [mkEdgeNode pos h], Z.shiftr end_ 1)
      | None => Panic "What? can not find"
      end)
    ([], end_) (seqZ (FirstLevelAboveTwig - 1) (maxLevel + 1 - (FirstLevelAboveTwig - 1)));
  mret res.

Definition ReapNodes tree (start end_ : Z) : outcome (Tree F * bytes) :=
  let tree := removeUselessNodes tree start end_ in
  edge ← getEdgeNodes tree end_;
  bz ← EdgeNodesToBytes edge;
  mret (tree, bz).

Definition PruneTwigs tree (startID endID : Z) : outcome (Tree F * bytes) :=
  _ ← require (negb (endID - startID <? MinPruneCount)) "The count of pruned twigs is too small";
  '(tf, first) ← GetFirstEntryPos (twigMtFile tree) endID;
  let tree := set_entryFile tree (af_PruneHead (entryFile tree) first) in
  let tree := set_twigMtFile tree (af_PruneHead tf (endID * TwigMtSize)) in
  ReapNodes tree startID endID.

(** ** The checkers of check.go *)

Definition node_level (pos : Z) : Z := Z.shiftr pos 56.
Definition node_index (pos : Z) : Z := to_int64 (Z.shiftl pos 8) / 2 ^ 8.

Definition checkNode tree (pos : Z) (parentHash : bytes) : outcome unit :=
  let level := node_level pos in
  let n := node_index pos in
  let children :=
    if level =? FirstLevelAboveTwig then
      match getTwigRoot tree (2 * n) with
      | Some l => Some (l, default (twigRoot NullTwig) (getTwigRoot tree (2 * n + 1)))
      | None => None
      end
    else
      match nodes tree !! Pos (level - 1) (2 * n), nodes tree !! Pos (level - 1) (2 * n + 1) with
      | Some l, Some r => Some (l, r)
      | _, _ => None
      end in
  match children with
  | None => mret tt
  | Some (l, r) =>
      require (bool_decide (sha256 (to_uint 8 (level - 1) :: l ++ r) = parentHash)) "Mismatch"
  end.

Definition checkUpperNodes tree : outcome unit :=
  for_each (λ '(pos, h), checkNode tree pos h) (map_to_list (nodes tree)).

Definition checkAllTwigs tree : outcome unit :=
  for_each (λ '(_, t), checkTwig t) (map_to_list (activeTwigs tree)).

Definition CheckHashConsistency tree : outcome unit :=
  _ ← checkAllTwigs tree;
  _ ← checkUpperNodes tree;
  checkMT (mtree4YoungestTwig tree).
End tree.
