(* ===== verification/ActiveBits.v ===== *)
(** * Syncing the active bits (tree.go, [syncMT4ActiveBits])

    Every block touches some of the 512-bit groups of active bits; the four
    rounds of [syncMT4ActiveBits] recompute the hashes above these groups.
    Afterwards every active twig passes [checkTwig]. *)
From S2P Require Import Prelude Types Hasher AppendFile TwigMtFile Twig YoungestTwig Tree.

(** ** The lists of parents *)

Definition push_all (l : list Z) : list Z := foldl push_new [] l.

Lemma push_all_snoc l x : push_all (l ++ [x]) = push_new (push_all l) x.
Proof. unfold push_all. by rewrite foldl_app. Qed.

Lemma push_all_spec l : StronglySorted Z.le l →
  StronglySorted Z.lt (push_all l) ∧ (∀ x, x ∈ push_all l ↔ x ∈ l) ∧ last (push_all l) = last l.
Proof.
  induction l as [|x l IH] using rev_ind; intros Hs; [by split_and!; [constructor|..]|].
  apply StronglySorted_app in Hs as (Hle & Hl & _). destruct (IH Hl) as (IH1 & IH2 & IH3).
  rewrite push_all_snoc, last_snoc. unfold push_new.
  destruct (bool_decide_reflect (last (push_all l) = Some x)) as [E|E].
  - split_and!; [done| |done]. intros y. rewrite elem_of_app, list_elem_of_singleton, IH2.
    split; [by left|]. intros [?| ->]; [done|]. apply IH2. by apply last_Some_elem_of.
  - split_and!; [|intros y; by rewrite !elem_of_app, IH2|by rewrite last_snoc].
    apply StronglySorted_app. split_and!; [|done|by repeat constructor].
    intros y z Hy Hz%list_elem_of_singleton. subst z.
    apply IH2 in Hy as Hyl. pose proof (Hle y x Hyl ltac:(by apply list_elem_of_singleton)).
    destruct (decide (y = x)) as [->|]; [|lia]. exfalso. apply E.
    destruct (last (push_all l)) as [z|] eqn:Ez; [|apply last_None in Ez; rewrite Ez in Hy; by apply elem_of_nil in Hy].
    apply last_Some_elem_of in Ez as Hz.
    assert (z ≤ x) by (apply Hle; [by apply IH2|by apply list_elem_of_singleton]).
    assert (x ≤ z); [|f_equal; lia].
    apply last_Some in Ez as [l' El]. rewrite El in Hy, IH1.
    apply StronglySorted_app in IH1 as (Hlt & _ & _).
    apply elem_of_app in Hy as [Hy|Hy]; [|apply list_elem_of_singleton in Hy; lia].
    specialize (Hlt x z Hy ltac:(by apply list_elem_of_singleton)). lia.
Qed.

Lemma StronglySorted_lt_NoDup (l : list Z) : StronglySorted Z.lt l → NoDup l.
Proof.
  induction 1 as [|x l Hs IH Hx]; constructor; [|done].
  intros Hin. rewrite Forall_forall in Hx. specialize (Hx x Hin). lia.
Qed.

Lemma StronglySorted_fmap_mono (f : Z → Z) l : (∀ x y, x ≤ y → f x ≤ f y) →
  StronglySorted Z.lt l → StronglySorted Z.le (f <$> l).
Proof.
  intros Hf. induction 1 as [|x l Hs IH Hx]; cbn; constructor; [done|].
  apply Forall_fmap. eapply Forall_impl; [done|]. cbn. intros y Hy. apply Hf. lia.
Qed.

(** The parents of a strictly sorted list, under a monotone function. *)
Lemma parents_spec (f : Z → Z) l : (∀ x y, x ≤ y → f x ≤ f y) → StronglySorted Z.lt l →
  StronglySorted Z.lt (push_all (f <$> l)) ∧ (∀ x, x ∈ push_all (f <$> l) ↔ ∃ y, x = f y ∧ y ∈ l).
Proof.
  intros Hf Hl. destruct (push_all_spec (f <$> l)) as (H1 & H2 & _);
    [by apply StronglySorted_fmap_mono|].
  split; [done|]. intros x. rewrite H2. apply list_elem_of_fmap.
Qed.

Section rounds.
Context `{Hsha : !Sha256, Hmeow : !Meow} {F : Type} `{!AppendFile F}.
Implicit Types (tree : Tree F) (t : Twig) (m : gmap Z Twig).

Lemma sorted_touched_spec tree :
  StronglySorted Z.lt (sorted_touched tree) ∧
  ∀ i, i ∈ sorted_touched tree ↔ i ∈ touchedPosOf512b tree.
Proof.
  unfold sorted_touched.
  pose proof (merge_sort_Permutation Z.le (elements (touchedPosOf512b tree))) as Hp.
  split; [|intros i; by rewrite Hp, elem_of_elements].
  assert (StronglySorted Z.le (merge_sort Z.le (elements (touchedPosOf512b tree)))) as Hs
    by (apply StronglySorted_merge_sort; [by apply _|by apply _]).
  assert (NoDup (merge_sort Z.le (elements (touchedPosOf512b tree)))) as Hn
    by (rewrite Hp; apply NoDup_elements).
  revert Hs Hn. generalize (merge_sort Z.le (elements (touchedPosOf512b tree))) as l.
  induction 1 as [|x l Hs IH Hx]; intros Hn; constructor; apply NoDup_cons in Hn as [Hnx Hn].
  - by apply IH.
  - rewrite Forall_forall in *. intros y Hy. specialize (Hx y Hy).
    assert (x ≠ y) by (intros ->; done). lia.
Qed.

Lemma twig_jobs_from tree nList twigID_of parent
    (job : (twig_slot → Z * twig_slot) → Z → outcome (hashJob (Z * twig_slot))) (jb : Z → hashJob (Z * twig_slot)) js0 nl0 :
  (∀ i, i ∈ nList → is_Some (activeTwigs tree !! twigID_of i) ∧
    job (λ s, (twigID_of i, s)) i = Ret (jb i)) →
  for_state (λ '(jobs, newList) i,
    _ ← get_twig tree (twigID_of i);
    j ← job (λ s, (twigID_of i, s)) i;
    mret (jobs ++ [j], push_new newList (parent i))) (js0, nl0) nList =
  Ret (js0 ++ (jb <$> nList), foldl push_new nl0 (parent <$> nList)).
Proof.
  revert js0 nl0. induction nList as [|i l IH]; intros js0 nl0 Hj; [by rewrite app_nil_r|].
  destruct (Hj i) as [[t Ht] Hi]; [by left|].
  erewrite for_state_step by (unfold get_twig; by rewrite Ht, Hi).
  rewrite IH by (intros; apply Hj; by right). by rewrite <- app_assoc.
Qed.

Lemma twig_jobs_Ret tree nList twigID_of parent
    (job : (twig_slot → Z * twig_slot) → Z → outcome (hashJob (Z * twig_slot))) (jb : Z → hashJob (Z * twig_slot)) :
  (∀ i, i ∈ nList → is_Some (activeTwigs tree !! twigID_of i) ∧
    job (λ s, (twigID_of i, s)) i = Ret (jb i)) →
  twig_jobs tree nList twigID_of parent job = Ret (jb <$> nList, push_all (parent <$> nList)).
Proof. intros Hj. unfold twig_jobs. by rewrite (twig_jobs_from _ _ _ _ _ jb). Qed.

(** ** One round on the twigs *)

(** What a round keeps of a twig besides the hash slots. *)
Definition same_twig t t' : Prop :=
  activeBits t' = activeBits t ∧ FirstEntryPos t' = FirstEntryPos t ∧ (twig_shape t → twig_shape t').

#[export] Instance same_twig_preorder : PreOrder same_twig.
Proof.
  split; [by intros t|]. intros t1 t2 t3 (H1 & H2 & H3) (H4 & H5 & H6).
  split_and!; [congruence|congruence|tauto].
Qed.

Lemma twig_store_same t s v : same_twig t (twig_store t s v).
Proof.
  destruct s; cbn; split_and!; try done; intros [H1 H2 H3]; split; cbn; rewrite ?zlen_zset; done.
Qed.

Lemma run_twigs_frame m js id : option_Forall2 same_twig (m !! id) (run_jobs m js !! id).
Proof.
  revert m. induction js as [|j js IH]; intros m; cbn; [by destruct (m !! id); constructor|].
  etrans; [|apply IH]. unfold run. cbn. destruct (decide (id = (target j).1)) as [->|Hne].
  - rewrite lookup_alter_eq. destruct (m !! _); constructor. apply twig_store_same.
  - rewrite lookup_alter_ne by done. by destruct (m !! id); constructor.
Qed.

Lemma twigs_run_other m js id t t' s : (id, s) ∉ target <$> js → m !! id = Some t →
  run_jobs m js !! id = Some t' → twig_load t' s = twig_load t s.
Proof.
  intros Hn Ht Ht'. pose proof (run_jobs_other (HashMem0 := twigs_mem) m js (id, s) Hn) as E.
  cbn in E. by rewrite Ht, Ht' in E.
Qed.

Lemma twigs_run_target m js id t t' s lv a b : independent js →
  slot_job (pair id) s lv a b ∈ js → m !! id = Some t → run_jobs m js !! id = Some t' →
  twig_slot_valid t s → slot_ok t' s lv a b.
Proof.
  intros Hi Hj Ht Ht' Hv.
  destruct (run_jobs_target (HashMem0 := twigs_mem) m js _ Hi Hj) as [E1 E2].
  { cbn. by rewrite Ht. }
  rewrite <- E2 in E1. unfold job_digest in E1. cbn in E1. by rewrite Ht' in E1.
Qed.

Lemma twigs_slot_ok_other m js id t t' s lv a b :
  (id, s) ∉ target <$> js → (id, a) ∉ target <$> js → (id, b) ∉ target <$> js →
  m !! id = Some t → run_jobs m js !! id = Some t' →
  slot_ok t s lv a b → slot_ok t' s lv a b.
Proof.
  intros Hs Ha Hb Ht Ht' Hok. unfold slot_ok in *.
  by rewrite !(twigs_run_other m js id t t') by done.
Qed.

(** The jobs of a round: for each element of the list one slot of one twig. *)
Definition round (twig_of : Z → Z) (s : Z → twig_slot) (lv : Z) (a b : Z → twig_slot) (l : list Z) :
    list (hashJob (Z * twig_slot)) :=
  (λ i, slot_job (pair (twig_of i)) (s i) lv (a i) (b i)) <$> l.

Lemma elem_of_round_targets twig_of s lv a b l id x :
  (id, x) ∈ target <$> round twig_of s lv a b l ↔ ∃ i, i ∈ l ∧ id = twig_of i ∧ x = s i.
Proof.
  unfold round. rewrite <- list_fmap_compose, list_elem_of_fmap. cbn. split.
  - intros (i & [= -> ->] & Hi). eauto.
  - intros (i & Hi & -> & ->). eauto.
Qed.

Lemma round_indep twig_of s lv a b l : NoDup l →
  (∀ i j, i ∈ l → j ∈ l → twig_of i = twig_of j → s i = s j → i = j) →
  (∀ i j, s i ≠ a j ∧ s i ≠ b j) → independent (round twig_of s lv a b l).
Proof.
  intros Hn Hinj Hd. split.
  - unfold round. rewrite <- list_fmap_compose. apply NoDup_fmap_2_strong; [|done].
    intros i j Hi Hj [= E1 E2]. by apply Hinj.
  - intros j j' (i & -> & Hi)%list_elem_of_fmap (i' & -> & Hi')%list_elem_of_fmap.
    unfold reads. cbn. destruct (Hd i' i). intros [E|E]; injection E; congruence.
Qed.

(** What may be stale at which level of which twig. *)
Definition partly_ok m (S1 S2 : Z → Z → Prop) (S3 S4 : Z → Prop) : Prop :=
  ∀ id t, m !! id = Some t → twig_shape t ∧
    (∀ k, 0 ≤ k < 4 → S1 id k ∨ L1_ok t k) ∧ (∀ k, 0 ≤ k < 2 → S2 id k ∨ L2_ok t k) ∧
    (S3 id ∨ L3_ok t) ∧ (S4 id ∨ Top_ok t).

Definition none1 (id : Z) : Prop := False.
Definition none2 (id k : Z) : Prop := False.

Lemma partly_ok_all m : partly_ok m none2 none2 none1 none1 ↔
  ∀ id t, m !! id = Some t → twig_shape t ∧ twig_ok t.
Proof.
  unfold none1, none2. split.
  - intros H id t Ht. destruct (H id t Ht) as (? & H1 & H2 & H3 & H4). split; [done|].
    split; [..|tauto|tauto]; intros k Hk; [destruct (H1 k Hk)|destruct (H2 k Hk)]; tauto.
  - intros H id t Ht. destruct (H id t Ht) as (? & [H1 H2 H3 H4]).
    split_and!; [done|..]; try (intros; right); auto.
Qed.

Lemma round_lookup m js id t' : run_jobs m js !! id = Some t' →
  ∃ t, m !! id = Some t ∧ same_twig t t'.
Proof.
  intros Ht'. pose proof (run_twigs_frame m js id) as Hf. rewrite Ht' in Hf.
  inversion Hf; subst. eauto.
Qed.

(** The four rounds, on the twigs. *)
Definition round1 := round (λ i, i / 4) (λ i, SL1 (i mod 4)) 8
  (λ i, SBits (2 * (i mod 4))) (λ i, SBits (2 * (i mod 4) + 1)).
Definition round2 := round (λ i, i / 2) (λ i, SL2 (i mod 2)) 9
  (λ i, SL1 (2 * (i mod 2))) (λ i, SL1 (2 * (i mod 2) + 1)).
Definition round3 := round id (λ _, SL3) 10 (λ _, SL2 0) (λ _, SL2 1).
Definition round4 := round id (λ _, STop) 11 (λ _, SLeft) (λ _, SL3).

(** Re-establishes [slot_ok] at a slot the round does not touch. *)
Ltac untouched :=
  eapply twigs_slot_ok_other; try eassumption;
  rewrite elem_of_round_targets; intros (? & ? & ? & ?); simplify_eq/=.

Lemma round1_ok m l S2 S3 S4 : NoDup l → (∀ i, i ∈ l → 0 ≤ i) →
  (∀ i id k, i ∈ l → i = 4 * id + 2 * k ∨ i = 4 * id + 2 * k + 1 → S2 id k) →
  partly_ok m (λ id k, 4 * id + k ∈ l) S2 S3 S4 → partly_ok (run_jobs m (round1 l)) none2 S2 S3 S4.
Proof.
  intros Hn Hpos H2 Hok id t' Ht'. destruct (round_lookup _ _ _ _ Ht') as (t & Ht & _ & _ & Hsh).
  destruct (Hok id t Ht) as (Hs & O1 & O2 & O3 & O4). unfold round1 in *.
  assert (independent (round1 l)) as Hi.
  { apply round_indep; [done| |done]. intros i j Hi Hj E1 [= E2]. zdiv. }
  split_and!; [tauto|..].
  - intros k Hk. right. destruct (decide (4 * id + k ∈ l)) as [Hin|Hin].
    + eapply twigs_run_target; [exact Hi| |done|exact Ht'|cbn; by rewrite (shape_L1 t Hs)].
      apply list_elem_of_fmap. exists (4 * id + k). split; [|done].
      replace ((4 * id + k) / 4) with id by zdiv. by replace ((4 * id + k) mod 4) with k by zdiv.
    + destruct (O1 k Hk) as [?|O]; [done|]. untouched. apply Hin.
      by replace (4 * _ + _) with x by zdiv.
  - intros k Hk. destruct (O2 k Hk) as [?|O]; [by left|].
    destruct (decide (4 * id + 2 * k ∈ l)) as [Hin|Ha]; [left; eauto|].
    destruct (decide (4 * id + 2 * k + 1 ∈ l)) as [Hin|Hb]; [left; eauto|]. right.
    untouched; [apply Ha; by replace (4 * _ + _) with x by zdiv|].
    apply Hb; by replace (4 * _ + _ + 1) with x by zdiv.
  - destruct O3 as [?|O]; [by left|]. right. untouched.
  - destruct O4 as [?|O]; [by left|]. right. untouched.
Qed.

Lemma round2_ok m l S3 S4 : NoDup l → (∀ i, i ∈ l → 0 ≤ i) →
  (∀ i id, i ∈ l → i = 2 * id ∨ i = 2 * id + 1 → S3 id) →
  partly_ok m none2 (λ id k, 2 * id + k ∈ l) S3 S4 → partly_ok (run_jobs m (round2 l)) none2 none2 S3 S4.
Proof.
  intros Hn Hpos H2 Hok id t' Ht'. destruct (round_lookup _ _ _ _ Ht') as (t & Ht & _ & _ & Hsh).
  destruct (Hok id t Ht) as (Hs & O1 & O2 & O3 & O4). unfold round2 in *.
  assert (independent (round2 l)) as Hi.
  { apply round_indep; [done| |done]. intros i j Hi Hj E1 [= E2]. zdiv. }
  split_and!; [tauto|..].
  - intros k Hk. destruct (O1 k Hk) as [?|O]; [done|]. right. untouched.
  - intros k Hk. right. destruct (decide (2 * id + k ∈ l)) as [Hin|Hin].
    + eapply twigs_run_target; [exact Hi| |done|exact Ht'|cbn; by rewrite (shape_L2 t Hs)].
      apply list_elem_of_fmap. exists (2 * id + k). split; [|done].
      replace ((2 * id + k) / 2) with id by zdiv. by replace ((2 * id + k) mod 2) with k by zdiv.
    + destruct (O2 k Hk) as [?|O]; [done|]. untouched. apply Hin.
      by replace (2 * _ + _) with x by zdiv.
  - destruct O3 as [?|O]; [by left|].
    destruct (decide (2 * id ∈ l)) as [Hin|Ha]; [left; eauto|].
    destruct (decide (2 * id + 1 ∈ l)) as [Hin|Hb]; [left; eauto|]. right.
    untouched; [apply Ha; by replace (2 * _) with x by zdiv|].
    apply Hb; by replace (2 * _ + 1) with x by zdiv.
  - destruct O4 as [?|O]; [by left|]. right. untouched.
Qed.

Lemma round3_ok m l (S4 : Z → Prop) : NoDup l → (∀ id, id ∈ l → S4 id) →
  partly_ok m none2 none2 (λ id, id ∈ l) S4 → partly_ok (run_jobs m (round3 l)) none2 none2 none1 S4.
Proof.
  intros Hn H4 Hok id t' Ht'. destruct (round_lookup _ _ _ _ Ht') as (t & Ht & _ & _ & Hsh).
  destruct (Hok id t Ht) as (Hs & O1 & O2 & O3 & O4). unfold round3 in *.
  assert (independent (round3 l)) as Hi by (by apply round_indep).
  split_and!; [tauto|..].
  - intros k Hk. destruct (O1 k Hk) as [?|O]; [done|]. right. untouched.
  - intros k Hk. destruct (O2 k Hk) as [?|O]; [done|]. right. untouched.
  - right. destruct (decide (id ∈ l)) as [Hin|Hin].
    + eapply twigs_run_target; [exact Hi| |done|exact Ht'|done]. apply list_elem_of_fmap. by exists id.
    + destruct O3 as [?|O]; [done|]. by untouched.
  - destruct O4 as [?|O]; [by left|].
    destruct (decide (id ∈ l)) as [Hin|Hin]; [left; auto|]. right. by untouched.
Qed.

Lemma round4_ok m l : NoDup l → partly_ok m none2 none2 none1 (λ id, id ∈ l) →
  partly_ok (run_jobs m (round4 l)) none2 none2 none1 none1.
Proof.
  intros Hn Hok id t' Ht'. destruct (round_lookup _ _ _ _ Ht') as (t & Ht & _ & _ & Hsh).
  destruct (Hok id t Ht) as (Hs & O1 & O2 & O3 & O4). unfold round4 in *.
  assert (independent (round4 l)) as Hi by (by apply round_indep).
  split_and!; [tauto|..].
  - intros k Hk. destruct (O1 k Hk) as [?|O]; [done|]. right. untouched.
  - intros k Hk. destruct (O2 k Hk) as [?|O]; [done|]. right. untouched.
  - destruct O3 as [?|O]; [done|]. right. untouched.
  - right. destruct (decide (id ∈ l)) as [Hin|Hin].
    + eapply twigs_run_target; [exact Hi| |done|exact Ht'|done]. apply list_elem_of_fmap. by exists id.
    + destruct O4 as [?|O]; [done|]. by untouched.
Qed.

(** ** The whole of [syncMT4ActiveBits] *)

(** The twigs are consistent but for the hashes above the touched groups, and
    the touched groups are groups of active twigs. *)
Definition touched_ok m (touched : gset Z) : Prop :=
  partly_ok m (λ id k, 4 * id + k ∈ touched) (λ id k, ∃ i, i ∈ touched ∧ i / 2 = 2 * id + k)
    (λ id, ∃ i, i ∈ touched ∧ i / 4 = id) (λ id, ∃ i, i ∈ touched ∧ i / 4 = id) ∧
  ∀ i, i ∈ touched → 0 ≤ i ∧ is_Some (m !! (i / 4)).

Lemma partly_ok_iff m (S1 S1' S2 S2' : Z → Z → Prop) (S3 S3' S4 S4' : Z → Prop) :
  (∀ id k, 0 ≤ k < 4 → S1 id k → S1' id k) → (∀ id k, 0 ≤ k < 2 → S2 id k → S2' id k) →
  (∀ id, S3 id → S3' id) → (∀ id, S4 id → S4' id) →
  partly_ok m S1 S2 S3 S4 → partly_ok m S1' S2' S3' S4'.
Proof.
  intros H1 H2 H3 H4 Hok id t Ht. destruct (Hok id t Ht) as (? & O1 & O2 & O3 & O4).
  split_and!; [done|..].
  - intros k Hk. destruct (O1 k Hk); [left; by apply H1|by right].
  - intros k Hk. destruct (O2 k Hk); [left; by apply H2|by right].
  - destruct O3; [left; by apply H3|by right].
  - destruct O4; [left; by apply H4|by right].
Qed.

Lemma twig_jobs_round tree nList twig_of s lv a b twigID_of parent job :
  (∀ i, i ∈ nList → is_Some (activeTwigs tree !! twig_of i) ∧ twigID_of i = twig_of i ∧
    job (pair (twig_of i)) i = Ret (slot_job (pair (twig_of i)) (s i) lv (a i) (b i))) →
  twig_jobs tree nList twigID_of parent job =
    Ret (round twig_of s lv a b nList, push_all (parent <$> nList)).
Proof.
  intros Hj. unfold round. apply twig_jobs_Ret. intros i Hi. by destruct (Hj i Hi) as (? & -> & ?).
Qed.

Lemma run_jobs_some m js id : is_Some (run_jobs m js !! id) ↔ is_Some (m !! id).
Proof.
  pose proof (run_twigs_frame m js id) as Hf.
  split; intros [t Ht]; rewrite Ht in Hf; inversion Hf; eauto.
Qed.

(** The twigs after the four rounds. *)
Definition synced_twigs m (l0 l1 l2 : list Z) : gmap Z Twig :=
  run_jobs (run_jobs (run_jobs (run_jobs m (round1 l0)) (round2 l1)) (round3 l2)) (round4 l2).

Lemma syncL1_mod L (at_ : twig_slot → L) i :
  syncL1 at_ (i mod 4) = Ret (slot_job at_ (SL1 (i mod 4)) 8 (SBits (2 * (i mod 4))) (SBits (2 * (i mod 4) + 1))).
Proof.
  assert (i mod 4 = 0 ∨ i mod 4 = 1 ∨ i mod 4 = 2 ∨ i mod 4 = 3) as [->|[->|[->| ->]]] by zdiv; done.
Qed.
Lemma syncL2_mod L (at_ : twig_slot → L) i :
  syncL2 at_ (i mod 2) = Ret (slot_job at_ (SL2 (i mod 2)) 9 (SL1 (2 * (i mod 2))) (SL1 (2 * (i mod 2) + 1))).
Proof. assert (i mod 2 = 0 ∨ i mod 2 = 1) as [->| ->] by zdiv; done. Qed.

Lemma round_sub_indep twig_of (s a b : Z → twig_slot) lv l : StronglySorted Z.lt l →
  (∀ i j, twig_of i = twig_of j → s i = s j → i = j) → (∀ i j, s i ≠ a j ∧ s i ≠ b j) →
  independent (round twig_of s lv a b l).
Proof. intros Hl Hinj Hd. apply round_indep; [by apply StronglySorted_lt_NoDup|auto|done]. Qed.

Lemma synced_twigs_load m l0 l1 l2 id t t' : m !! id = Some t → synced_twigs m l0 l1 l2 !! id = Some t' →
  leftRoot t' = leftRoot t ∧ (id ∉ l2 → twigRoot t' = twigRoot t).
Proof.
  intros Ht Ht'. unfold synced_twigs in Ht'.
  destruct (round_lookup _ _ _ _ Ht') as (t3 & Ht3 & _).
  destruct (round_lookup _ _ _ _ Ht3) as (t2 & Ht2 & _).
  destruct (round_lookup _ _ _ _ Ht2) as (t1 & Ht1 & _).
  assert (∀ tw s lv a b l mm x u u', mm !! id = Some u → run_jobs mm (round tw s lv a b l) !! id = Some u' →
    (∀ i, i ∈ l → id = tw i → x ≠ s i) → twig_load u' x = twig_load u x) as Hkeep.
  { intros tw s lv a b l mm x u u' Hu Hu' Hx. eapply twigs_run_other; [|exact Hu|exact Hu'].
    rewrite elem_of_round_targets. intros (i & Hi & E & E'). by apply (Hx i). }
  assert (∀ x, x = SLeft ∨ x = STop ∧ id ∉ l2 → twig_load t' x = twig_load t x) as Hall.
  { intros x Hx. unfold round1, round2, round3, round4 in *.
    rewrite (Hkeep _ _ _ _ _ _ _ x t3 t' Ht3 Ht'), (Hkeep _ _ _ _ _ _ _ x t2 t3 Ht2 Ht3),
      (Hkeep _ _ _ _ _ _ _ x t1 t2 Ht1 Ht2), (Hkeep _ _ _ _ _ _ _ x t t1 Ht Ht1); [done|..];
      intros i Hi E; destruct Hx as [->|[-> Hn]]; try done.
    intros _. apply Hn. by subst id. }
  split; [apply (Hall SLeft); by left|]. intros Hn. apply (Hall STop). by right.
Qed.

Lemma synced_twigs_frame m l0 l1 l2 id :
  option_Forall2 same_twig (m !! id) (synced_twigs m l0 l1 l2 !! id).
Proof.
  unfold synced_twigs. etrans; [|apply run_twigs_frame]. etrans; [|apply run_twigs_frame].
  etrans; apply run_twigs_frame.
Qed.

Lemma synced_twigs_ok m touched l0 l1 l2 : touched_ok m touched →
  StronglySorted Z.lt l0 → StronglySorted Z.lt l1 → StronglySorted Z.lt l2 →
  (∀ i, i ∈ l0 ↔ i ∈ touched) → (∀ x, x ∈ l1 ↔ ∃ i, x = i / 2 ∧ i ∈ l0) →
  (∀ x, x ∈ l2 ↔ ∃ i, x = i / 2 ∧ i ∈ l1) →
  partly_ok (synced_twigs m l0 l1 l2) none2 none2 none1 none1.
Proof.
  intros [Hok Hin] S0 S1 S2 E0 E1 E2. unfold synced_twigs.
  assert (∀ i, i ∈ l0 → 0 ≤ i) as P0 by (intros i Hi; by apply Hin, E0).
  assert (∀ i, i ∈ l1 → 0 ≤ i) as P1.
  { intros x (i & -> & Hi)%E1. specialize (P0 i Hi). zdiv. }
  apply round4_ok; [by apply StronglySorted_lt_NoDup|].
  apply round3_ok; [by apply StronglySorted_lt_NoDup|done|].
  apply round2_ok; [by apply StronglySorted_lt_NoDup|done| |].
  { intros i id Hi Hc. apply E2. exists i. split; [zdiv|done]. }
  apply round1_ok; [by apply StronglySorted_lt_NoDup|done| |].
  { intros i id k Hi Hc. apply E1. exists i. split; [zdiv|done]. }
  revert Hok. apply partly_ok_iff.
  - intros id k _. by rewrite E0.
  - intros id k Hk (i & Hi & E). apply E1. exists i. by rewrite E0.
  - intros id (i & Hi & <-). apply E2. exists (i / 2). split; [zdiv|]. apply E1. exists i. by rewrite E0.
  - intros id (i & Hi & <-). apply E2. exists (i / 2). split; [zdiv|]. apply E1. exists i. by rewrite E0.
Qed.

Lemma run_twigs_eq tree js : independent js →
  run_twigs tree js = set_activeTwigs tree (run_jobs (activeTwigs tree) js).
Proof. intros Hi. unfold run_twigs. by rewrite Run_eq. Qed.

Lemma syncMT4ActiveBits_eq tree : touched_ok (activeTwigs tree) (touchedPosOf512b tree) →
  let l0 := sorted_touched tree in
  let l1 := push_all ((λ i, i / 2) <$> l0) in
  let l2 := push_all ((λ i, i / 2) <$> l1) in
  syncMT4ActiveBits tree =
    Ret (set_activeTwigs tree (synced_twigs (activeTwigs tree) l0 l1 l2), push_all ((λ i, i / 2) <$> l2)).
Proof.
  intros [_ Hin] l0 l1 l2. destruct (sorted_touched_spec tree) as [S0 E0].
  assert (∀ x y, x ≤ y → x / 2 ≤ y / 2) as Hmono by (intros; by apply Z.div_le_mono).
  destruct (parents_spec (λ i, i / 2) l0 Hmono S0) as [S1 E1].
  destruct (parents_spec (λ i, i / 2) l1 Hmono S1) as [S2 E2]. fold l1 in S1, E1. fold l2 in S2, E2.
  assert (∀ i, i ∈ l0 → 0 ≤ i ∧ is_Some (activeTwigs tree !! (i / 4))) as P0 by (intros i Hi; by apply Hin, E0).
  assert (∀ i, i ∈ l1 → 0 ≤ i ∧ is_Some (activeTwigs tree !! (i / 2))) as P1.
  { intros x (i & -> & Hi)%E1. destruct (P0 i Hi). rewrite Z.div_div by lia. split; [zdiv|done]. }
  assert (∀ i, i ∈ l2 → 0 ≤ i ∧ is_Some (activeTwigs tree !! i)) as P2.
  { intros x (i & -> & Hi)%E2. destruct (P1 i Hi). split; [zdiv|done]. }
  assert (∀ (f g : Z → Z) (l : list Z), (∀ i, i ∈ l → f i = g i) → f <$> l = g <$> l) as Hext.
  { intros f g l Hfg. apply list_fmap_ext. intros i x Hx. apply Hfg. by eapply list_elem_of_lookup_2. }
  unfold syncMT4ActiveBits. fold l0. cbv zeta.
  rewrite (twig_jobs_round tree l0 (λ i, i / 4) (λ i, SL1 (i mod 4)) 8
    (λ i, SBits (2 * (i mod 4))) (λ i, SBits (2 * (i mod 4) + 1))).
  2:{ intros i Hi. destruct (P0 i Hi) as [? ?]. split_and!; [done|by rewrite Z.shiftr_div_pow2|].
      change 3 with (Z.ones 2). rewrite Z.land_ones by lia. apply syncL1_mod. }
  cbn [mbind outcome_bind]. fold round1.
  rewrite (Hext (λ i, Z.quot i 2) (λ i, i / 2) l0) by (intros i Hi; destruct (P0 i Hi); by rewrite Z.quot_div_nonneg).
  fold l1. rewrite (run_twigs_eq _ (round1 l0)) by (apply round_sub_indep; [done| |done]; intros i j ? [= ?]; zdiv).
  rewrite (twig_jobs_round _ l1 (λ i, i / 2) (λ i, SL2 (i mod 2)) 9
    (λ i, SL1 (2 * (i mod 2))) (λ i, SL1 (2 * (i mod 2) + 1))).
  2:{ intros i Hi. destruct (P1 i Hi) as [? ?]. split_and!; [|by rewrite Z.shiftr_div_pow2|].
      - cbn. by rewrite run_jobs_some.
      - change 1 with (Z.ones 1). rewrite Z.land_ones by lia. apply syncL2_mod. }
  cbn [mbind outcome_bind]. fold round2.
  rewrite (Hext (λ i, Z.shiftr i 1) (λ i, i / 2) l1) by (intros i Hi; by rewrite Z.shiftr_div_pow2).
  fold l2. rewrite (run_twigs_eq _ (round2 l1)) by (apply round_sub_indep; [done| |done]; intros i j ? [= ?]; zdiv).
  rewrite (twig_jobs_round _ l2 id (λ _, SL3) 10 (λ _, SL2 0) (λ _, SL2 1)).
  2:{ intros i Hi. destruct (P2 i Hi) as [? ?]. split_and!; [|done|done].
      cbn. by rewrite !run_jobs_some. }
  cbn [mbind outcome_bind]. fold round3. rewrite (run_twigs_eq _ (round3 l2)) by (by apply round_sub_indep).
  rewrite (twig_jobs_round _ l2 id (λ _, STop) 11 (λ _, SLeft) (λ _, SL3)).
  2:{ intros i Hi. destruct (P2 i Hi) as [? ?]. split_and!; [|done|done].
      cbn. by rewrite !run_jobs_some. }
  cbn [mbind outcome_bind]. fold round4. rewrite (run_twigs_eq _ (round4 l2)) by (by apply round_sub_indep).
  rewrite (Hext (λ i, Z.quot i 2) (λ i, i / 2) l2) by (intros i Hi; destruct (P2 i Hi); by rewrite Z.quot_div_nonneg).
  done.
Qed.

Lemma syncMT4ActiveBits_ok tree : touched_ok (activeTwigs tree) (touchedPosOf512b tree) →
  ∃ m nl, syncMT4ActiveBits tree = Ret (set_activeTwigs tree m, nl) ∧
    (∀ id t, m !! id = Some t → twig_shape t ∧ twig_ok t) ∧
    (∀ id, option_Forall2 same_twig (activeTwigs tree !! id) (m !! id)) ∧
    (∀ id t t', activeTwigs tree !! id = Some t → m !! id = Some t' →
      leftRoot t' = leftRoot t ∧
      ((∀ i, i ∈ touchedPosOf512b tree → i / 4 ≠ id) → twigRoot t' = twigRoot t)) ∧
    StronglySorted Z.lt nl ∧ (∀ n, n ∈ nl ↔ ∃ i, i ∈ touchedPosOf512b tree ∧ n = i / 8).
Proof.
  intros Ht. pose proof (syncMT4ActiveBits_eq tree Ht) as Heq. cbv zeta in Heq.
  destruct (sorted_touched_spec tree) as [S0 E0].
  assert (∀ x y, x ≤ y → x / 2 ≤ y / 2) as Hmono by (intros; by apply Z.div_le_mono).
  set (l0 := sorted_touched tree) in *.
  destruct (parents_spec (λ i, i / 2) l0 Hmono S0) as [S1 E1]. set (l1 := push_all ((λ i, i / 2) <$> l0)) in *.
  destruct (parents_spec (λ i, i / 2) l1 Hmono S1) as [S2 E2]. set (l2 := push_all ((λ i, i / 2) <$> l1)) in *.
  destruct (parents_spec (λ i, i / 2) l2 Hmono S2) as [S3 E3].
  assert (∀ x, x ∈ l2 ↔ ∃ i, i ∈ touchedPosOf512b tree ∧ x = i / 4) as E4.
  { intros x. rewrite E2. split.
    - intros (y & -> & (i & -> & Hi)%E1). exists i. apply E0 in Hi. split; [done|]. zdiv.
    - intros (i & Hi & ->). exists (i / 2). split; [zdiv|]. apply E1. exists i. by rewrite E0. }
  eexists _, _. split_and!; [exact Heq|..].
  - apply partly_ok_all. by eapply synced_twigs_ok.
  - intros id. apply synced_twigs_frame.
  - intros id t t' Hid Hid'. destruct (synced_twigs_load _ _ _ _ _ _ _ Hid Hid') as [Hl Hr].
    split; [done|]. intros Hnt. apply Hr. rewrite E4. intros (i & Hi & ->). by eapply Hnt.
  - done.
  - intros n. rewrite E3. split.
    + intros (y & -> & (i & Hi & ->)%E4). exists i. split; [done|]. zdiv.
    + intros (i & Hi & ->). exists (i / 4). split; [zdiv|]. apply E4. eauto.
Qed.
End rounds.
