(* ===== verification/UpperNodes.v ===== *)
(** * Syncing the nodes above the twigs (tree.go, [syncUpperNodes])

    [anc t L] is the index at level [L] of the ancestor of twig [t]. The nodes
    that are not ancestors of a touched twig are consistent before the sync;
    the sync recomputes the ancestors of the touched twigs level by level,
    creating the nodes that do not exist yet and a placeholder to the right of
    the youngest one. *)
From S2P Require Import Prelude Types Hasher AppendFile TwigMtFile Twig YoungestTwig Tree.
From S2P Require Import ActiveBits.

(** ** Positions *)

Lemma Pos_eq L n : 0 ≤ L < 128 → 0 ≤ n < 2 ^ 56 → Pos L n = L * 2 ^ 56 + n.
Proof.
  intros HL Hn. unfold Pos. rewrite Z.lor_comm, lor_shiftl by lia.
  unfold to_int64, to_int. change (2 ^ 64) with (256 * 2 ^ 56). change (2 ^ (64 - 1)) with (128 * 2 ^ 56).
  rewrite Z.mod_small by lia. destruct (Z.ltb_spec (n + L * 2 ^ 56) (128 * 2 ^ 56)); lia.
Qed.

Lemma Pos_inj L n L' n' : 0 ≤ L < 128 → 0 ≤ n < 2 ^ 56 → 0 ≤ L' < 128 → 0 ≤ n' < 2 ^ 56 →
  Pos L n = Pos L' n' → L = L' ∧ n = n'.
Proof. intros ? ? ? ?. rewrite !Pos_eq by done. lia. Qed.

Lemma node_level_Pos L n : 0 ≤ L < 128 → 0 ≤ n < 2 ^ 56 → node_level (Pos L n) = L.
Proof.
  intros. unfold node_level. rewrite Pos_eq, Z.shiftr_div_pow2 by lia.
  rewrite Z.div_add_l, Z.div_small by lia. lia.
Qed.

Lemma node_index_Pos L n : 0 ≤ L < 128 → 0 ≤ n < 2 ^ 55 → node_index (Pos L n) = n.
Proof.
  intros. unfold node_index. rewrite Pos_eq, Z.shiftl_mul_pow2 by lia.
  replace ((L * 2 ^ 56 + n) * 2 ^ 8) with (n * 2 ^ 8 + L * 2 ^ 64) by lia.
  unfold to_int64, to_int. rewrite Z.mod_add by lia.
  change (2 ^ 64) with (2 ^ 56 * 2 ^ 8). change (2 ^ (64 - 1)) with (2 ^ 55 * 2 ^ 8).
  rewrite Z.mod_small by lia. destruct (Z.ltb_spec (n * 2 ^ 8) (2 ^ 55 * 2 ^ 8)); [|lia].
  by rewrite Z.div_mul.
Qed.

(** ** Ancestors *)

Definition anc (t L : Z) : Z := t / 2 ^ (L - 12).

Lemma anc_12 t : anc t 12 = t.
Proof. unfold anc. cbn. apply Z.div_1_r. Qed.

Lemma anc_succ t L : 12 ≤ L → anc t (L + 1) = anc t L / 2.
Proof.
  intros HL. unfold anc. rewrite Z.div_div by lia. f_equal.
  replace (L + 1 - 12) with (Z.succ (L - 12)) by lia. rewrite Z.pow_succ_r by lia. lia.
Qed.

Lemma anc_pred t L : 13 ≤ L → anc t L = anc t (L - 1) / 2.
Proof. intros HL. rewrite <- anc_succ by lia. f_equal. lia. Qed.

Lemma anc_mono t t' L : 12 ≤ L → t ≤ t' → anc t L ≤ anc t' L.
Proof. intros. apply Z.div_le_mono; lia. Qed.

Lemma anc_bound t L : 12 ≤ L → 0 ≤ t → 0 ≤ anc t L ≤ t.
Proof.
  intros. unfold anc. split; [apply Z.div_pos; lia|].
  apply Z.div_le_upper_bound; [lia|]. nia.
Qed.

Lemma calcMaxLevel_eq y : 0 < y < 2 ^ 50 → calcMaxLevel y = 13 + Z.log2 y.
Proof.
  intros Hy. unfold calcMaxLevel, FirstLevelAboveTwig, LeadingZeros64, to_uint64, to_uint.
  rewrite Z.mod_small by lia. destruct (Z.eqb_spec y 0); lia.
Qed.

Lemma calcMaxLevel_bound y : 0 ≤ y < 2 ^ 50 → 12 ≤ calcMaxLevel y < 63 ∧ (0 < y → 13 ≤ calcMaxLevel y).
Proof.
  intros Hy. destruct (decide (y = 0)) as [->|Hne]; [by vm_compute|].
  rewrite calcMaxLevel_eq by lia. pose proof (Z.log2_nonneg y).
  assert (Z.log2 y < 50) by (apply Z.log2_lt_pow2; lia). lia.
Qed.

(** The youngest twig's ancestor at the top level is the root. *)
Lemma anc_top y : 0 < y < 2 ^ 50 → anc y (calcMaxLevel y) = 0.
Proof.
  intros Hy. rewrite calcMaxLevel_eq by lia. unfold anc. apply Z.div_small.
  pose proof (Z.log2_spec y ltac:(lia)). replace (13 + Z.log2 y - 12) with (Z.succ (Z.log2 y)) by lia. lia.
Qed.

Lemma push_all_half_anc (D : Z → Prop) L l : 12 ≤ L → StronglySorted Z.lt l →
  (∀ n, n ∈ l ↔ ∃ t, D t ∧ n = anc t L) →
  StronglySorted Z.lt (push_all ((λ i, i / 2) <$> l)) ∧
  ∀ n, n ∈ push_all ((λ i, i / 2) <$> l) ↔ ∃ t, D t ∧ n = anc t (L + 1).
Proof.
  intros HL Hs Hl. destruct (parents_spec (λ i, i / 2) l) as [H1 H2]; [|done|].
  { intros. by apply Z.div_le_mono. }
  split; [done|]. intros n. rewrite H2. split.
  - intros (y & -> & (t & Ht & ->)%Hl). exists t. by rewrite anc_succ.
  - intros (t & Ht & ->). exists (anc t L). rewrite anc_succ by done. split; [done|]. apply Hl. eauto.
Qed.

Lemma zget_NullNode `{Hsha : !Sha256} L : 13 ≤ L < 64 → zget NullNodeInHigherTree L = Some (null_node (Z.to_nat (L - 13))).
Proof.
  intros HL. unfold NullNodeInHigherTree, zget. destruct (Z.leb_spec 0 L); [|lia].
  rewrite lookup_app_r by (rewrite length_replicate; lia). rewrite length_replicate.
  rewrite list_lookup_fmap, lookup_seq_lt by lia. cbn. do 2 f_equal. lia.
Qed.

#[local] Opaque Pos null_node NullNodeInHigherTree NullTwig hash2 Z.pow.

Section upper.
Context `{Hsha : !Sha256, Hmeow : !Meow} {F : Type} `{!AppendFile F}.
Implicit Types (tree : Tree F) (ns : gmap Z bytes) (nl : list Z).

(** The hash of a child: of a twig at level 12, of a node above. *)
Definition child tree (L n : Z) : option bytes :=
  if L =? 12 then getTwigRoot tree n else nodes tree !! Pos L n.

(** The right child a node is hashed with. *)
Definition right_child tree (L n : Z) : option bytes :=
  if L =? 13 then Some (default (twigRoot NullTwig) (getTwigRoot tree (2 * n + 1)))
  else nodes tree !! Pos (L - 1) (2 * n + 1).

(** A node whose left child exists is the hash of its children. *)
Definition node_ok tree (L n : Z) : Prop :=
  ∀ l, child tree (L - 1) (2 * n) = Some l →
  ∃ r, right_child tree L n = Some r ∧ nodes tree !! Pos L n = Some (hash2 (L - 1) l r).

(** ** One level *)

(** What the loop of [syncNodesByLevel] adds to the nodes. *)
Definition added tree (L : Z) (nl : list Z) ns ns' : Prop :=
  ns ⊆ ns' ∧ ∀ p, is_Some (ns' !! p) → is_Some (ns !! p) ∨
    (∃ i, i ∈ nl ∧ p = Pos L i) ∨
    (13 < L ∧ ∃ i, i ∈ nl ∧ p = Pos (L - 1) (2 * i + 1) ∧ 2 * i = anc (youngestTwigID tree) (L - 1)).

Definition job_of tree (L i : Z) : hashJob Z :=
  mkJob (Pos L i) (L - 1)
    (if L =? 13 then Copy (default [] (getTwigRoot tree (2 * i))) else At (Pos (L - 1) (2 * i)))
    (if L =? 13 then Copy (default (twigRoot NullTwig) (getTwigRoot tree (2 * i + 1)))
     else At (Pos (L - 1) (2 * i + 1))).

Definition level_ready tree (L : Z) (nl : list Z) : Prop :=
  ∀ i, i ∈ nl → 0 ≤ i < 2 ^ 54 ∧ is_Some (child tree (L - 1) (2 * i)) ∧
    (13 < L → is_Some (nodes tree !! Pos (L - 1) (2 * i + 1)) ∨
              2 * i = anc (youngestTwigID tree) (L - 1)).

(** The twig roots do not depend on the nodes above. *)
Lemma getTwigRoot_added tree L nl ns n : 13 ≤ L < 64 → (∀ i, i ∈ nl → 0 ≤ i < 2 ^ 54) → 0 ≤ n < 2 ^ 56 →
  added tree L nl (nodes tree) ns → getTwigRoot (set_nodes tree ns) n = getTwigRoot tree n.
Proof.
  intros HL Hnl Hn [Hsub Hadd]. unfold getTwigRoot. cbn. destruct (activeTwigs tree !! n); [done|].
  unfold FirstLevelAboveTwig. destruct (nodes tree !! Pos (13 - 1) n) as [h|] eqn:E.
  - by eapply lookup_weaken.
  - destruct (ns !! Pos (13 - 1) n) eqn:E'; [|done]. exfalso.
    destruct (Hadd (Pos (13 - 1) n)) as [[x Hx]|[(i & Hi & Hp)|(HL' & i & Hi & Hp & _)]]; [by eexists|congruence|..];
      apply Pos_inj in Hp as [? ?]; try lia; specialize (Hnl i Hi); lia.
Qed.

Lemma added_insert tree L nl ns ns' p v : added tree L nl ns ns' → ns' !! p = None →
  (∃ i, i ∈ nl ∧ p = Pos L i) ∨
  (13 < L ∧ ∃ i, i ∈ nl ∧ p = Pos (L - 1) (2 * i + 1) ∧ 2 * i = anc (youngestTwigID tree) (L - 1)) →
  added tree L nl ns (<[p := v]> ns').
Proof.
  intros [Hs Ha] Hp Hc. split.
  - etrans; [done|]. by apply insert_subseteq.
  - intros q [x Hq]. destruct (decide (p = q)) as [->|Hne]; [by right|].
    rewrite lookup_insert_ne in Hq by done. apply Ha. by eexists.
Qed.

Lemma node_job_ok tree L nl ns i : 13 ≤ L < 64 → level_ready tree L nl → i ∈ nl →
  added tree L nl (nodes tree) ns →
  ∃ ns', node_job (set_nodes tree ns) L (anc (youngestTwigID tree) (L - 1)) i =
      Ret (set_nodes tree ns', job_of tree L i) ∧
    added tree L nl (nodes tree) ns' ∧ ns ⊆ ns' ∧ is_Some (ns' !! Pos L i) ∧
    (13 < L → is_Some (ns' !! Pos (L - 1) (2 * i + 1))).
Proof.
  intros HL Hready Hi Hadd. pose proof (λ j Hj, proj1 (Hready j Hj)) as Hnl.
  destruct (Hready i Hi) as (Hir & [l Hl] & Hright).
  unfold node_job, job_of. cbn [nodes set_nodes].
  set (ns1 := match ns !! Pos L i with Some _ => ns | None => <[Pos L i := zero32]> ns end).
  assert (added tree L nl (nodes tree) ns1 ∧ ns ⊆ ns1 ∧ is_Some (ns1 !! Pos L i)) as (A1 & S1 & P1).
  { subst ns1. destruct (ns !! Pos L i) eqn:E; [done|]. split_and!.
    - apply added_insert; eauto.
    - by apply insert_subseteq.
    - rewrite lookup_insert_eq. by eexists. }
  assert (match ns !! Pos L i with
          | Some _ => set_nodes tree ns
          | None => set_nodes (set_nodes tree ns) (<[Pos L i:=zero32]> ns) end = set_nodes tree ns1) as ->
    by (subst ns1; by destruct (ns !! Pos L i)).
  unfold child in Hl. destruct (Z.eqb_spec L FirstLevelAboveTwig) as [->|HL13]; unfold FirstLevelAboveTwig in *.
  - change (13 - 1 =? 12) with true in Hl. cbn in Hl.
    rewrite !(getTwigRoot_added tree 13 nl ns1) by (done || lia). rewrite Hl. cbn.
    exists ns1. split_and!; [done|done|done|done|lia].
  - destruct (Z.eqb_spec (L - 1) 12); [lia|]. destruct (Z.eqb_spec L 13); [lia|].
    cbn [nodes set_nodes]. rewrite bool_decide_true.
    2:{ exists l. eapply lookup_weaken; [|apply A1]. done. }
    cbn [require mbind outcome_bind].
    destruct (ns1 !! Pos (L - 1) (2 * i + 1)) as [r|] eqn:Er.
    + cbn [mret outcome_ret mbind outcome_bind]. exists ns1. split_and!; [done|done|done|done|]. intros _. by eexists.
    + destruct Hright as [[r Hr]|Hedge]; [lia| |].
      { exfalso. eapply lookup_weaken in Hr; [|apply A1]. congruence. }
      rewrite (index_zget _ _ _ (zget_NullNode L HL)). cbn [mbind outcome_bind].
      rewrite (proj2 (Z.eqb_eq _ _) Hedge). cbn [negb andb require mbind outcome_bind mret outcome_ret].
      eexists. split_and!; [done|..].
      * apply added_insert; [done|done|]. right. split; [lia|]. by exists i.
      * etrans; [done|]. by apply insert_subseteq.
      * rewrite lookup_insert_is_Some. destruct (decide (Pos (L - 1) (2 * i + 1) = Pos L i)); tauto.
      * intros _. rewrite lookup_insert_eq. by eexists.
Qed.

Lemma level_loop tree maxN L nl l ns js0 nl0 : maxN = anc (youngestTwigID tree) (L - 1) →
  13 ≤ L < 64 → level_ready tree L nl →
  (∀ i, i ∈ l → i ∈ nl) → added tree L nl (nodes tree) ns →
  ∃ ns', for_state (λ '(tree, jobs, newList) i,
      '(tree, j) ← node_job tree L maxN i;
      mret (tree, jobs ++ [j], push_new newList (Z.quot i 2))) (set_nodes tree ns, js0, nl0) l =
    Ret (set_nodes tree ns', js0 ++ (job_of tree L <$> l), foldl push_new nl0 ((λ i, Z.quot i 2) <$> l)) ∧
    added tree L nl (nodes tree) ns' ∧ ns ⊆ ns' ∧
    ∀ i, i ∈ l → is_Some (ns' !! Pos L i) ∧ (13 < L → is_Some (ns' !! Pos (L - 1) (2 * i + 1))).
Proof.
  intros -> HL Hready. revert ns js0 nl0. induction l as [|i l IH]; intros ns js0 nl0 Hsub Hadd.
  { exists ns. cbn. rewrite app_nil_r. split_and!; [done|done|done|]. intros i Hi. by apply elem_of_nil in Hi. }
  destruct (node_job_ok tree L nl ns i) as (ns1 & E & A1 & S1 & P1 & Q1); [done|done|apply Hsub; by left|done|].
  destruct (IH ns1 (js0 ++ [job_of tree L i]) (push_new nl0 (Z.quot i 2))) as (ns2 & E2 & A2 & S2 & P2);
    [intros; apply Hsub; by right|done|].
  exists ns2. split_and!; [|done|by etrans|].
  - erewrite for_state_step by (cbn [youngestTwigID set_nodes]; rewrite E; reflexivity).
    rewrite E2. by rewrite <- app_assoc.
  - assert (∀ p, is_Some (ns1 !! p) → is_Some (ns2 !! p)) as Hw.
    { intros p [x Hx]. exists x. by eapply lookup_weaken. }
    intros j [->|Hj]%elem_of_cons; [|by apply P2]. split; [by apply Hw|]. intros ?. by apply Hw, Q1.
Qed.

Lemma job_of_indep tree L nl : 13 ≤ L < 64 → StronglySorted Z.lt nl → (∀ i, i ∈ nl → 0 ≤ i < 2 ^ 54) →
  independent (job_of tree L <$> nl).
Proof.
  intros HL Hs Hb. split.
  - rewrite <- list_fmap_compose. apply NoDup_fmap_2_strong; [|by apply StronglySorted_lt_NoDup].
    intros i j Hi Hj E. cbn in E. pose proof (Hb i Hi). pose proof (Hb j Hj).
    apply Pos_inj in E; lia.
  - intros j j' (i & -> & Hi)%list_elem_of_fmap (i' & -> & Hi')%list_elem_of_fmap.
    pose proof (Hb i Hi). pose proof (Hb i' Hi'). unfold reads, job_of. cbn.
    destruct (L =? 13); [by intros [?|?]|].
    intros [[= E]|[= E]]; apply Pos_inj in E; lia.
Qed.

(** What one level of the sync does to the nodes. *)
Lemma level_ok tree L nl : 13 ≤ L < 64 → StronglySorted Z.lt nl → level_ready tree L nl →
  ∃ ns, syncNodesByLevel tree L nl = Ret (set_nodes tree ns, push_all ((λ i, i / 2) <$> nl)) ∧
    (∀ p, (∀ i, i ∈ nl → p ≠ Pos L i) → is_Some (nodes tree !! p) → ns !! p = nodes tree !! p) ∧
    (∀ p, is_Some (ns !! p) ↔ is_Some (nodes tree !! p) ∨ (∃ i, i ∈ nl ∧ p = Pos L i) ∨
      (13 < L ∧ ∃ i, i ∈ nl ∧ p = Pos (L - 1) (2 * i + 1) ∧ 2 * i = anc (youngestTwigID tree) (L - 1) ∧
        nodes tree !! p = None)) ∧
    (∀ i, i ∈ nl → node_ok (set_nodes tree ns) L i).
Proof.
  intros HL Hs Hready. pose proof (λ j Hj, proj1 (Hready j Hj)) as Hnl.
  destruct (level_loop tree _ L nl nl (nodes tree) [] [] eq_refl) as (ns & E & Hadd & _ & Hin);
    [done|done|done|split; [done|by left]|].
  pose proof (job_of_indep tree L nl HL Hs Hnl) as Hind.
  assert (set_nodes tree (nodes tree) = tree) as Eid by (by destruct tree). rewrite Eid in E.
  exists (run_jobs ns (job_of tree L <$> nl)).
  assert (∀ p, (∀ i, i ∈ nl → p ≠ Pos L i) → run_jobs ns (job_of tree L <$> nl) !! p = ns !! p) as Hother.
  { intros p Hp. pose proof (run_jobs_other (HashMem0 := nodes_mem) ns (job_of tree L <$> nl) p) as Ho.
    pose proof (run_jobs_valid (HashMem0 := nodes_mem) ns (job_of tree L <$> nl) p) as Hv.
    cbn in Ho, Hv. assert (p ∉ target <$> (job_of tree L <$> nl)) as Hn.
    { rewrite <- list_fmap_compose. intros (i & -> & Hi)%list_elem_of_fmap. by apply (Hp i Hi). }
    specialize (Ho Hn). destruct (run_jobs ns _ !! p) eqn:E1, (ns !! p) eqn:E2; cbn in *; try done.
    - by subst.
    - destruct Hv as [Hv _]. destruct Hv; by eauto.
    - destruct Hv as [_ Hv]. destruct Hv; by eauto. }
  assert (∀ p, is_Some (run_jobs ns (job_of tree L <$> nl) !! p) ↔ is_Some (ns !! p)) as Hdom
    by (intros p; apply (run_jobs_valid (HashMem0 := nodes_mem) ns _ p)).
  split_and!.
  - unfold syncNodesByLevel, maxNAtLevel, FirstLevelAboveTwig. destruct (Z.ltb_spec L 13); [lia|].
    cbn [negb require mbind outcome_bind mret outcome_ret].
    rewrite Z.shiftr_div_pow2 by lia. replace (L - 13) with (L - 1 - 12) by lia.
    change (youngestTwigID tree / 2 ^ (L - 1 - 12)) with (anc (youngestTwigID tree) (L - 1)).
    rewrite E. cbn [mbind outcome_bind app]. cbn [nodes set_nodes]. rewrite Run_eq by done.
    change (foldl push_new [] ?l) with (push_all l). do 3 f_equal. apply list_fmap_ext.
    intros j x Hx%list_elem_of_lookup_2. pose proof (Hnl x Hx). by rewrite Z.quot_div_nonneg by lia.
  - intros p Hp [x Hx]. rewrite Hother by done. rewrite Hx. by eapply lookup_weaken; [|apply Hadd].
  - intros p. rewrite Hdom. split.
    + intros Hp. destruct Hadd as [_ Ha]. destruct (nodes tree !! p) eqn:Ep; [left; by eexists|].
      destruct (Ha p Hp) as [[? ?]|[?|(? & i & ? & ? & ?)]]; [congruence|tauto|].
      right; right. split; [done|]. exists i. done.
    + intros [[x Hx]|[(i & Hi & ->)|(HL' & i & Hi & -> & _)]].
      * exists x. by eapply lookup_weaken; [|apply Hadd].
      * by apply Hin.
      * by apply Hin.
  - intros i Hi l Hl. set (ns' := run_jobs ns (job_of tree L <$> nl)) in *.
    assert (job_of tree L i ∈ job_of tree L <$> nl) as Hj by (apply list_elem_of_fmap; eauto).
    destruct (Hin i Hi) as [Hself Hr]. pose proof (Hnl i Hi) as Hib.
    destruct (run_jobs_target (HashMem0 := nodes_mem) ns _ _ Hind Hj Hself) as [D1 D2].
    rewrite <- D2 in D1. fold ns' in D1. apply Hdom in Hself as [h Hh]. cbn in D1. fold ns' in Hh.
    rewrite Hh in D1. cbn in D1. subst h. cbn [nodes set_nodes]. rewrite Hh.
    assert (∀ n, 0 ≤ n < 2 ^ 56 → L = 13 → getTwigRoot (set_nodes tree ns') n = getTwigRoot tree n) as Htr.
    { intros n Hn ->. rewrite <- (getTwigRoot_added tree 13 nl ns n) by done.
      unfold getTwigRoot. cbn [activeTwigs nodes set_nodes]. rewrite Hother; [done|].
      intros j Hj' E'. pose proof (Hnl j Hj'). unfold FirstLevelAboveTwig in E'. apply Pos_inj in E'; lia. }
    unfold child in Hl. unfold right_child, job_digest, job_of. cbn [level srcA srcB].
    destruct (Z.eqb_spec L 13) as [->|HL13].
    + change (13 - 1 =? 12) with true in Hl. cbv iota in Hl.
      rewrite Htr in Hl |- * by (done || lia). rewrite Hl. cbn [slot_load default]. eauto.
    + destruct (Z.eqb_spec (L - 1) 12); [lia|]. destruct Hr as [r Hr]; [lia|].
      assert (is_Some (ns' !! Pos (L - 1) (2 * i + 1))) as [r' Hr'] by (apply Hdom; eauto).
      cbn [nodes set_nodes] in *. exists r'. split; [done|]. cbn [slot_load mload nodes_mem].
      by rewrite Hl, Hr'.
Qed.

(** ** All levels *)

Definition odd_edge (y L n : Z) : Prop := 12 < L ∧ n = anc y L + 1 ∧ n mod 2 = 1.

(** The nodes while the levels up to [Lv] are synced: [D] are the touched
    twigs, and nothing from twig [O] on has been pruned. *)
Record upper_inv tree (D : Z → Prop) (O Lv : Z) : Prop := mk_upper_inv {
  ui_range : 0 ≤ O ≤ youngestTwigID tree ∧ youngestTwigID tree < 2 ^ 50;
  ui_dirty t : D t → O ≤ t ≤ youngestTwigID tree;
  ui_twigs id : is_Some (activeTwigs tree !! id) → 0 ≤ id ≤ youngestTwigID tree;
  ui_keys p : is_Some (nodes tree !! p) → ∃ L n, p = Pos L n ∧
    12 ≤ L ≤ Z.max 13 (calcMaxLevel (youngestTwigID tree)) ∧ 0 ≤ n ∧
    (n ≤ anc (youngestTwigID tree) L ∨ odd_edge (youngestTwigID tree) L n);
  ui_present L n : 12 ≤ L ≤ calcMaxLevel (youngestTwigID tree) →
    2 * anc O (L + 1) ≤ n ≤ anc (youngestTwigID tree) L →
    is_Some (child tree L n) ∨ (Lv < L ∧ ∃ t, D t ∧ n = anc t L);
  ui_ok L n : 13 ≤ L ≤ calcMaxLevel (youngestTwigID tree) → 0 ≤ n ≤ anc (youngestTwigID tree) L →
    L ≤ Lv ∨ (∀ t, D t → anc t L ≠ n) → node_ok tree L n
}.

Lemma half_anc_le t y L : 13 ≤ L → 0 ≤ t ≤ y → 2 * anc t L ≤ anc y (L - 1).
Proof.
  intros HL Ht. rewrite (anc_pred t L) by done. pose proof (anc_mono t y (L - 1)). zdiv.
Qed.

Lemma upper_inv_ready tree D O L nl : 13 ≤ L ≤ calcMaxLevel (youngestTwigID tree) →
  upper_inv tree D O (L - 1) → (∀ n, n ∈ nl ↔ ∃ t, D t ∧ n = anc t L) → level_ready tree L nl.
Proof.
  intros HL [Hr Hd Ht Hk Hp Ho] Hnl i (t & Dt & ->)%Hnl. pose proof (Hd t Dt).
  pose proof (anc_bound t L). pose proof (half_anc_le t (youngestTwigID tree) L ltac:(lia) ltac:(lia)).
  pose proof (anc_mono O t L ltac:(lia) ltac:(lia)).
  split_and!; [lia|lia| |].
  - destruct (Hp (L - 1) (2 * anc t L)) as [?|[? _]]; [lia| |done|lia].
    replace (L - 1 + 1) with L by lia. lia.
  - intros HL13. destruct (decide (2 * anc t L = anc (youngestTwigID tree) (L - 1))) as [|Hne]; [by right|left].
    destruct (Hp (L - 1) (2 * anc t L + 1)) as [Hc|[? _]]; [lia| | |lia].
    { replace (L - 1 + 1) with L by lia. lia. }
    unfold child in Hc. destruct (Z.eqb_spec (L - 1) 12); [lia|done].
Qed.

(** The nodes [ns] left by one level, seen through [child]. *)
Lemma child_step tree D O L nl ns : 13 ≤ L ≤ calcMaxLevel (youngestTwigID tree) →
  upper_inv tree D O (L - 1) → (∀ n, n ∈ nl ↔ ∃ t, D t ∧ n = anc t L) →
  (∀ p, (∀ i, i ∈ nl → p ≠ Pos L i) → is_Some (nodes tree !! p) → ns !! p = nodes tree !! p) →
  (∀ p, is_Some (ns !! p) ↔ is_Some (nodes tree !! p) ∨ (∃ i, i ∈ nl ∧ p = Pos L i) ∨
      (13 < L ∧ ∃ i, i ∈ nl ∧ p = Pos (L - 1) (2 * i + 1) ∧ 2 * i = anc (youngestTwigID tree) (L - 1) ∧
        nodes tree !! p = None)) →
  ∀ L' n, 12 ≤ L' < 64 → 0 ≤ n < 2 ^ 54 → ¬ (L' = L ∧ n ∈ nl) →
    (∀ h, child tree L' n = Some h → child (set_nodes tree ns) L' n = Some h) ∧
    (∀ h, n mod 2 = 0 → child (set_nodes tree ns) L' n = Some h → child tree L' n = Some h) ∧
    (L' = 12 → child (set_nodes tree ns) L' n = child tree L' n).
Proof.
  intros HL Hinv Hnl Hsame Hdom L' n HL' Hn Hnot. destruct (ui_range _ _ _ _ Hinv) as [Hr Hr'].
  pose proof (calcMaxLevel_bound (youngestTwigID tree) ltac:(lia)) as [Hmax _].
  assert (∀ i, i ∈ nl → 0 ≤ i < 2 ^ 50) as Hb.
  { intros i (t & Dt & ->)%Hnl. pose proof (ui_dirty _ _ _ _ Hinv t Dt). pose proof (anc_bound t L). lia. }
  assert (∀ i, i ∈ nl → Pos L' n ≠ Pos L i) as Hnt.
  { intros i Hi E. pose proof (Hb i Hi). apply Pos_inj in E as [-> ->]; [|lia..]. by apply Hnot. }
  assert (∀ h, nodes tree !! Pos L' n = Some h → ns !! Pos L' n = Some h) as H1.
  { intros h Hh. rewrite Hsame; [done|done|by eexists]. }
  assert (∀ h, n mod 2 = 0 ∨ L' = 12 → ns !! Pos L' n = Some h → nodes tree !! Pos L' n = Some h) as H2.
  { intros h Heven Hh. assert (is_Some (ns !! Pos L' n)) as Hs by by eexists.
    apply Hdom in Hs as [Hs|[(i & Hi & E)|(HL13 & i & Hi & E & _)]].
    - rewrite <- Hh. symmetry. by apply Hsame.
    - by destruct (Hnt i Hi).
    - pose proof (Hb i Hi). apply Pos_inj in E as [-> ->]; [|lia..]. zdiv. }
  unfold child, getTwigRoot, FirstLevelAboveTwig. cbn [activeTwigs nodes set_nodes].
  destruct (Z.eqb_spec L' 12) as [->|Hne].
  - change (13 - 1) with 12. destruct (activeTwigs tree !! n); [done|].
    split_and!; [done|intros h Hm; apply H2; by left|]. intros _.
    destruct (ns !! Pos 12 n) as [h|] eqn:E; [symmetry; auto|].
    destruct (nodes tree !! Pos 12 n) as [h|] eqn:E'; [|done]. by discriminate (H1 h eq_refl).
  - split_and!; [done|intros h Hm; apply H2; by left|intros; lia].
Qed.

Lemma upper_inv_step tree D O L nl ns : 13 ≤ L ≤ calcMaxLevel (youngestTwigID tree) →
  upper_inv tree D O (L - 1) → (∀ n, n ∈ nl ↔ ∃ t, D t ∧ n = anc t L) →
  (∀ p, (∀ i, i ∈ nl → p ≠ Pos L i) → is_Some (nodes tree !! p) → ns !! p = nodes tree !! p) →
  (∀ p, is_Some (ns !! p) ↔ is_Some (nodes tree !! p) ∨ (∃ i, i ∈ nl ∧ p = Pos L i) ∨
      (13 < L ∧ ∃ i, i ∈ nl ∧ p = Pos (L - 1) (2 * i + 1) ∧ 2 * i = anc (youngestTwigID tree) (L - 1) ∧
        nodes tree !! p = None)) →
  (∀ i, i ∈ nl → node_ok (set_nodes tree ns) L i) → upper_inv (set_nodes tree ns) D O L.
Proof.
  intros HL Hinv Hnl Hsame Hdom Hok.
  pose proof (child_step tree D O L nl ns HL Hinv Hnl Hsame Hdom) as Hchild.
  destruct Hinv as [Hr Hd Ht Hk Hp Ho].
  pose proof (calcMaxLevel_bound (youngestTwigID tree) ltac:(lia)) as [Hmax _].
  split; cbn [youngestTwigID activeTwigs nodes set_nodes]; [done|done|done|..].
  - intros p [?|[(i & (t & Dt & ->)%Hnl & ->)|(HL13 & i & (t & Dt & ->)%Hnl & -> & E & _)]]%Hdom; [by apply Hk|..];
      pose proof (Hd t Dt); pose proof (anc_bound t L).
    + exists L, (anc t L). split_and!; [done|lia|lia|lia|]. left. apply anc_mono; lia.
    + exists (L - 1), (2 * anc t L + 1). split_and!; [done|lia|lia|lia|]. right.
      split_and!; [lia|lia|]. zdiv.
  - intros L' n HL' Hn.
    assert (0 ≤ n < 2 ^ 54) as Hnb.
    { pose proof (anc_bound (youngestTwigID tree) L'). pose proof (anc_bound O (L' + 1)). lia. }
    destruct (decide (L' = L ∧ n ∈ nl)) as [[-> Hin]|Hnot].
    + left. unfold child. destruct (Z.eqb_spec L 12); [lia|]. apply Hdom. right; left. eauto.
    + destruct (Hchild L' n) as (H1 & _ & _); [lia|done|done|].
      destruct (Hp L' n HL' Hn) as [[h Hh]|[HLt Hdirty]]; [left; eexists; by apply H1|].
      right. split; [|done]. destruct (decide (L' = L)) as [->|]; [|lia].
      exfalso. apply Hnot. split; [done|]. by apply Hnl.
  - intros L' n HL' Hn Hc. destruct (decide (L' = L ∧ n ∈ nl)) as [[-> Hin]|Hnot]; [by apply Hok|].
    assert (node_ok tree L' n) as Hold.
    { apply Ho; [done|done|]. destruct Hc as [Hc|Hc]; [|by right].
      destruct (decide (L' = L)) as [->|]; [|left; lia]. right. intros t Dt E.
      apply Hnot. split; [done|]. apply Hnl. eauto. }
    assert (0 ≤ n < 2 ^ 50) as Hnb by (pose proof (anc_bound (youngestTwigID tree) L'); lia).
    assert (∀ m, m = 2 * n ∨ m = 2 * n + 1 → ¬ (L' - 1 = L ∧ m ∈ nl)) as Hm.
    { intros m Em [E (t & Dt & Ea)%Hnl]. destruct Hc as [Hc|Hc]; [lia|]. apply (Hc t Dt).
      rewrite anc_pred by lia. rewrite E, <- Ea. zdiv. }
    destruct (Hchild (L' - 1) (2 * n)) as (_ & H2 & _); [lia|lia|apply Hm; by left|].
    destruct (Hchild (L' - 1) (2 * n + 1)) as (R1 & _ & R3); [lia|lia|apply Hm; by right|].
    destruct (Hchild L' n) as (N1 & _ & _); [lia|lia|done|].
    intros l Hl. apply H2 in Hl; [|zdiv]. destruct (Hold l Hl) as (r & Er & En).
    exists r. split.
    + unfold right_child in *. unfold child in R1, R3.
      destruct (Z.eqb_spec L' 13) as [->|]; cbn [nodes set_nodes] in *.
      * change (13 - 1) with 12 in *. cbn [Z.eqb Pos.eqb] in *. by rewrite R3.
      * destruct (Z.eqb_spec (L' - 1) 12); [lia|]. by apply R1.
    + unfold child in N1. destruct (Z.eqb_spec L' 12); [lia|]. by apply N1.
Qed.

Lemma levels_loop (cnt : nat) tree (D : Z → Prop) O L nl :
  13 ≤ L → L + Z.of_nat cnt = calcMaxLevel (youngestTwigID tree) + 1 →
  upper_inv tree D O (L - 1) → StronglySorted Z.lt nl → (∀ n, n ∈ nl ↔ ∃ t, D t ∧ n = anc t L) →
  ∃ ns nl', for_state (λ '(tree, nList) level, syncNodesByLevel tree level nList) (tree, nl)
      (seqZ L (Z.of_nat cnt)) = Ret (set_nodes tree ns, nl') ∧
    upper_inv (set_nodes tree ns) D O (calcMaxLevel (youngestTwigID tree)).
Proof.
  revert tree L nl. induction cnt as [|cnt IH]; intros tree L nl HL Hc Hinv Hs Hnl.
  { exists (nodes tree), nl. assert (set_nodes tree (nodes tree) = tree) as -> by (by destruct tree).
    split; [done|]. by replace (calcMaxLevel (youngestTwigID tree)) with (L - 1) by lia. }
  rewrite seqZ_cons by lia.
  destruct (ui_range _ _ _ _ Hinv) as [Hr Hr'].
  pose proof (calcMaxLevel_bound (youngestTwigID tree) ltac:(lia)) as [Hmax _].
  assert (level_ready tree L nl) as Hready by (eapply upper_inv_ready; [lia|done|done]).
  destruct (level_ok tree L nl ltac:(lia) Hs Hready) as (ns & E & Hsame & Hdom & Hok).
  erewrite for_state_step by exact E.
  destruct (push_all_half_anc D L nl ltac:(lia) Hs Hnl) as [Hs' Hnl'].
  replace (Z.pred (Z.of_nat (S cnt))) with (Z.of_nat cnt) by lia.
  replace (Z.succ L) with (L + 1) by lia.
  destruct (IH (set_nodes tree ns) (L + 1) (push_all ((λ i, i / 2) <$> nl))) as (ns' & nl' & E' & Hinv');
    [lia|cbn [youngestTwigID set_nodes]; lia| |done|done|].
  { replace (L + 1 - 1) with L by lia. eapply upper_inv_step; try done. lia. }
  exists ns', nl'. done.
Qed.

Lemma syncUpperNodes_ok tree (D : Z → Prop) O nl : upper_inv tree D O 12 → StronglySorted Z.lt nl →
  (∀ n, n ∈ nl ↔ ∃ t, D t ∧ n = anc t 13) →
  ∃ ns, syncUpperNodes tree nl = Ret (set_nodes tree ns) ∧
    upper_inv (set_nodes tree ns) D O (calcMaxLevel (youngestTwigID tree)).
Proof.
  intros Hinv Hs Hnl. destruct (ui_range _ _ _ _ Hinv) as [Hr Hr'].
  pose proof (calcMaxLevel_bound (youngestTwigID tree) ltac:(lia)) as [Hmax _].
  unfold syncUpperNodes, FirstLevelAboveTwig.
  destruct (levels_loop (Z.to_nat (calcMaxLevel (youngestTwigID tree) + 1 - 13)) tree D O 13 nl)
    as (ns & nl' & E & Hinv'); [lia|lia|done|done|done|].
  rewrite Z2Nat.id in E by lia. rewrite E. by exists ns.
Qed.

(** ** The check *)

Lemma checkUpperNodes_ok tree O (D : Z → Prop) : upper_inv tree D O (calcMaxLevel (youngestTwigID tree)) →
  0 < youngestTwigID tree → checkUpperNodes tree = Ret tt.
Proof.
  intros [Hr Hd Ht Hk Hp Ho] Hy. pose proof (calcMaxLevel_bound (youngestTwigID tree) ltac:(lia)) as [Hmax Hmin].
  unfold checkUpperNodes. apply for_each_Ret. intros [p h] Hin. apply elem_of_map_to_list in Hin.
  destruct (Hk p ltac:(by eexists)) as (L & n & -> & HL & Hn & Hcase).
  pose proof (anc_bound (youngestTwigID tree) L ltac:(lia) ltac:(lia)) as Hb.
  assert (n < 2 ^ 51) as Hn' by (destruct Hcase as [?|(? & ? & ?)]; lia).
  unfold checkNode. rewrite node_level_Pos, node_index_Pos by lia. cbv zeta.
  unfold FirstLevelAboveTwig. rewrite Z.max_r in HL by lia.
  assert (∀ m, is_Some (nodes tree !! Pos 11 m) → m < 2 ^ 54 → 0 ≤ m → False) as H11.
  { intros m (L' & n' & E & HL' & Hn'' & Hc)%Hk Hm Hm'.
    pose proof (anc_bound (youngestTwigID tree) L' ltac:(lia) ltac:(lia)).
    apply Pos_inj in E; try lia. destruct Hc as [?|(? & ? & ?)]; lia. }
  assert (∀ m, L ≠ 12 → m = 2 * n → ¬ n ≤ anc (youngestTwigID tree) L → child tree (L - 1) m = None) as Hedge.
  { intros m HL12 -> Hgt. destruct Hcase as [?|(_ & En & Hodd)]; [lia|].
    rewrite anc_pred in En by lia. unfold child, getTwigRoot, FirstLevelAboveTwig.
    assert (nodes tree !! Pos (L - 1) (2 * n) = None) as Hnone.
    { apply eq_None_not_Some. intros (L' & n' & E & HL' & Hn'' & Hc)%Hk.
      pose proof (anc_bound (youngestTwigID tree) L' ltac:(lia) ltac:(lia)).
      apply Pos_inj in E as [<- <-]; [|lia|lia|lia|destruct Hc as [?|(? & ? & ?)]; lia].
      destruct Hc as [?|(? & ? & ?)]; zdiv. }
    destruct (Z.eqb_spec (L - 1) 12) as [E12|]; [|done].
    assert (L = 13) as -> by lia. change (13 - 1) with 12 in *. rewrite anc_12 in En.
    destruct (activeTwigs tree !! (2 * n)) eqn:Ea; [|done].
    specialize (Ht (2 * n) ltac:(by eexists)). zdiv. }
  destruct (decide (L = 12)) as [->|HL12].
  { change (12 =? 13) with false. cbv iota. change (12 - 1) with 11.
    destruct (nodes tree !! Pos 11 (2 * n)) eqn:E; [|done]. exfalso. apply (H11 (2 * n)); [by eexists|lia|lia]. }
  destruct (decide (n ≤ anc (youngestTwigID tree) L)) as [Hle|Hgt].
  - pose proof (Ho L n ltac:(lia) ltac:(lia) ltac:(left; lia)) as Hok.
    unfold node_ok, child, right_child in Hok. destruct (Z.eqb_spec L 13) as [->|].
    + change (13 - 1 =? 12) with true in Hok. cbv iota in Hok.
      destruct (getTwigRoot tree (2 * n)) as [l|]; [|done].
      destruct (Hok l eq_refl) as (r & [= <-] & E). rewrite Hin in E. injection E as ->.
      by rewrite bool_decide_true.
    + destruct (Z.eqb_spec (L - 1) 12); [lia|].
      destruct (nodes tree !! Pos (L - 1) (2 * n)) as [l|]; [|done].
      destruct (Hok l eq_refl) as (r & -> & E). rewrite Hin in E. injection E as ->.
      rewrite bool_decide_true; [done|]. unfold to_uint. by rewrite Z.mod_small by lia.
  - specialize (Hedge (2 * n) HL12 eq_refl Hgt). unfold child in Hedge.
    destruct (Z.eqb_spec L 13) as [->|].
    + change (13 - 1 =? 12) with true in Hedge. cbv iota in Hedge. by rewrite Hedge.
    + destruct (Z.eqb_spec (L - 1) 12); [lia|]. by rewrite Hedge.
Qed.

(** The root is there as soon as there are two twigs. *)
Lemma root_present tree (D : Z → Prop) O : upper_inv tree D O (calcMaxLevel (youngestTwigID tree)) →
  0 < youngestTwigID tree → is_Some (nodes tree !! Pos (calcMaxLevel (youngestTwigID tree)) 0).
Proof.
  intros [Hr Hd Ht Hk Hp Ho] Hy. pose proof (calcMaxLevel_bound (youngestTwigID tree) ltac:(lia)) as [Hmax Hmin].
  specialize (Hmin Hy). pose proof (anc_top (youngestTwigID tree) ltac:(lia)) as Htop.
  destruct (Hp (calcMaxLevel (youngestTwigID tree)) 0) as [Hc|[? _]]; [lia| | |lia].
  - rewrite anc_succ by lia. pose proof (anc_mono O (youngestTwigID tree) (calcMaxLevel (youngestTwigID tree))).
    pose proof (anc_bound O (calcMaxLevel (youngestTwigID tree))). rewrite Htop in *. zdiv.
  - unfold child in Hc. destruct (Z.eqb_spec (calcMaxLevel (youngestTwigID tree)) 12); [lia|done].
Qed.
End upper.
