(* ===== verification/TreeInv.v ===== *)
(** * The invariant of the data tree, and the end of a block

    [tree_inv] says what holds of a tree between two calls: the hashes are
    consistent but for what the pending changes reach. [EndBlock] makes all of
    them consistent, which is what check.go checks. *)
From S2P Require Import Prelude Types EntryCodec Hasher AppendFile HPFile EntryFile TwigMtFile.
From S2P Require Import Twig YoungestTwig Tree ActiveBits UpperNodes.

#[local] Opaque Pos null_node NullNodeInHigherTree NullTwig hash2 Z.pow NullMT4Twig.

Section inv.
Context `{Hsha : !Sha256, Hmeow : !Meow} {F : Type} `{!AppendFile F}.
Implicit Types (tree : Tree F) (t : Twig).

(** The twigs that have been touched in this block. *)
Definition dirty tree (id : Z) : Prop := ∃ i, i ∈ touchedPosOf512b tree ∧ i / 4 = id.

Record tree_inv tree (O : Z) : Prop := mk_tree_inv {
  ti_upper : upper_inv tree (dirty tree) O 12;
  ti_touched : touched_ok (activeTwigs tree) (touchedPosOf512b tree);
  ti_youngest : ∃ t, activeTwigs tree !! youngestTwigID tree = Some t ∧
    (mtree4YTChangeStart tree = -1 → leftRoot t = mt_at (mtree4YoungestTwig tree) 1);
  ti_mt_len : zlen (mtree4YoungestTwig tree) = 4096;
  ti_leave_len : zlen (leave4YoungestTwig tree) = 2048;
  ti_clean : mtree4YTChangeStart tree = -1 →
    mt_ok (mtree4YoungestTwig tree) ∧ ∀ i, ¬ pending (leave4YoungestTwig tree) i;
  ti_changed : mtree4YTChangeStart tree ≠ -1 →
    0 ≤ mtree4YTChangeStart tree ≤ mtree4YTChangeEnd tree ∧ mtree4YTChangeEnd tree < 2048 ∧
    (∀ i, pending (leave4YoungestTwig tree) i →
      mtree4YTChangeStart tree ≤ i ≤ mtree4YTChangeEnd tree) ∧
    mt_ok_but 2048 (mtree4YTChangeStart tree) (mtree4YTChangeEnd tree) (mtree4YoungestTwig tree) ∧
    dirty tree (youngestTwigID tree);
  ti_evict : NoDup (twigsToBeDeleted tree) ∧
    ∀ id, id ∈ twigsToBeDeleted tree → id ≠ youngestTwigID tree ∧ is_Some (activeTwigs tree !! id)
}.

(** The upper nodes only see the roots of the twigs; those of touched twigs
    may change. *)
Lemma upper_inv_twigs tree m (D : Z → Prop) O : upper_inv tree D O 12 →
  (∀ id, is_Some (m !! id) ↔ is_Some (activeTwigs tree !! id)) →
  (∀ n, ¬ D n → getTwigRoot (set_activeTwigs tree m) n = getTwigRoot tree n) →
  upper_inv (set_activeTwigs tree m) D O 12.
Proof.
  intros [Hr Hd Ht Hk Hp Ho] Hdom Hroot.
  assert (∀ n, is_Some (getTwigRoot (set_activeTwigs tree m) n) ↔ is_Some (getTwigRoot tree n)) as Hsome.
  { intros n. unfold getTwigRoot. cbn. specialize (Hdom n).
    destruct (m !! n) as [t1|], (activeTwigs tree !! n) as [t2|].
    - split; intros _; by eexists.
    - by destruct (proj1 Hdom (ex_intro _ _ eq_refl)) as [? [=]].
    - by destruct (proj2 Hdom (ex_intro _ _ eq_refl)) as [? [=]].
    - done. }
  split; cbn [youngestTwigID activeTwigs nodes set_activeTwigs]; [done|done|..].
  - intros id Hid%Hdom. by apply Ht.
  - done.
  - intros L n HL Hn. destruct (Hp L n HL Hn) as [Hc|?]; [left|by right].
    unfold child in *. destruct (L =? 12); [by apply Hsome|done].
  - intros L n HL Hn Hc. specialize (Ho L n HL Hn Hc). destruct Hc as [?|Hc]; [lia|].
    unfold node_ok, child, right_child in *. cbn [nodes set_activeTwigs].
    destruct (Z.eqb_spec L 13) as [->|]; [|destruct (Z.eqb_spec (L - 1) 12); [lia|done]].
    change (13 - 1 =? 12) with true in *. cbv iota in *.
    rewrite !Hroot; [done|..]; intros Dn; apply (Hc _ Dn); rewrite anc_pred by lia;
      change (13 - 1) with 12; rewrite anc_12; zdiv.
Qed.

Lemma dirty_touched tree m tch : dirty (set_touched (set_activeTwigs tree m) tch) =
  λ id, ∃ i, i ∈ tch ∧ i / 4 = id.
Proof. done. Qed.

(** ** Syncing the youngest twig *)

Lemma touched_ok_leftRoot m (touched : gset Z) id t h : touched_ok m touched → m !! id = Some t →
  (∃ i, i ∈ touched ∧ i / 4 = id) ∨ leftRoot t = h → touched_ok (<[id := set_leftRoot t h]> m) touched.
Proof.
  intros [Hok Hin] Hid Hc. split.
  - intros id' t' Ht'. apply lookup_insert_Some in Ht' as [[<- <-]|[Hne Ht']]; [|by apply Hok].
    destruct (Hok id t Hid) as ([S1 S2 S3] & O1 & O2 & O3 & O4).
    split_and!; [by split|exact O1|exact O2|exact O3|].
    destruct Hc as [Hc|<-]; [by left|]. destruct O4 as [?|O4]; [by left|right; exact O4].
  - intros i Hi. destruct (Hin i Hi) as [? ?]. split; [done|].
    destruct (decide (id = i / 4)) as [<-|]; [rewrite lookup_insert_eq; by eexists|by rewrite lookup_insert_ne].
Qed.

Lemma getTwigRoot_put tree id t t' n : activeTwigs tree !! id = Some t → twigRoot t' = twigRoot t →
  getTwigRoot (put_twig tree id t') n = getTwigRoot tree n.
Proof.
  intros Hid Hr. unfold getTwigRoot, put_twig. cbn. destruct (decide (id = n)) as [->|Hne].
  - by rewrite lookup_insert_eq, Hid, Hr.
  - by rewrite lookup_insert_ne.
Qed.

Lemma put_twig_dom tree id t t' n : activeTwigs tree !! id = Some t →
  is_Some (activeTwigs (put_twig tree id t') !! n) ↔ is_Some (activeTwigs tree !! n).
Proof.
  intros Hid. unfold put_twig. cbn. destruct (decide (id = n)) as [->|Hne].
  - rewrite lookup_insert_eq, Hid. split; intros; by eexists.
  - by rewrite lookup_insert_ne.
Qed.

Lemma syncMT4YoungestTwig_ok tree O : tree_inv tree O →
  ∃ tree', syncMT4YoungestTwig tree = Ret tree' ∧ tree_inv tree' O ∧
    mtree4YTChangeStart tree' = -1 ∧
    youngestTwigID tree' = youngestTwigID tree ∧ touchedPosOf512b tree' = touchedPosOf512b tree ∧
    twigsToBeDeleted tree' = twigsToBeDeleted tree ∧ nodes tree' = nodes tree ∧
    entryFile tree' = entryFile tree ∧ twigMtFile tree' = twigMtFile tree ∧
    deactivedSNList tree' = deactivedSNList tree ∧
    (∀ id, option_Forall2 (λ t t', activeBits t' = activeBits t ∧ FirstEntryPos t' = FirstEntryPos t)
      (activeTwigs tree !! id) (activeTwigs tree' !! id)) ∧
    (∀ i, 0 ≤ i < 2048 → mt_at (mtree4YoungestTwig tree') (LeafCountInTwig + i) =
      leaf_hash (mtree4YoungestTwig tree) (leave4YoungestTwig tree) i).
Proof.
  intros Hinv. unfold syncMT4YoungestTwig. destruct (Z.eqb_spec (mtree4YTChangeStart tree) (-1)) as [E|E].
  { exists tree. destruct (ti_clean _ _ Hinv E) as [_ Hnp]. split_and!; try done.
    - intros id. destruct (activeTwigs tree !! id); by constructor.
    - intros i Hi. unfold leaf_hash. destruct (zget _ i) as [[b|]|] eqn:Ez; try done.
      exfalso. apply (Hnp i). by exists b. }
  destruct Hinv as [Hup Hto (t & Ht & _) Hml Hll _ Hch Hev].
  destruct (Hch E) as (Hse & He & Hpend & Hbut & Hdy).
  pose proof (sync_youngest_ok _ _ _ _ Hml Hll Hse He Hpend Hbut) as Hs. cbv zeta in Hs.
  pose proof (hash_leaves_ok _ _ Hml Hll) as Hh.
  destruct (hash_leaves (mtree4YoungestTwig tree) (leave4YoungestTwig tree)) as [mt leave].
  destruct Hh as (_ & Hll' & _ & _ & Hnp). cbn [fst] in Hs.
  set (mt' := sync_mt mt (mtree4YTChangeStart tree) (mtree4YTChangeEnd tree)) in *.
  destruct Hs as (Hml' & Hmok & Hleaf).
  unfold get_twig. cbn [activeTwigs set_mtree youngestTwigID]. rewrite Ht. cbn [mbind outcome_bind mret outcome_ret].
  destruct (zget_Some mt' 1) as [root Hroot]; [lia|].
  rewrite (index_zget _ _ _ Hroot). cbn [mbind outcome_bind mret outcome_ret]. eexists. split; [done|].
  assert (∀ n, getTwigRoot (put_twig tree (youngestTwigID tree) (set_leftRoot t root)) n = getTwigRoot tree n) as Hgr
    by (intros n; by apply (getTwigRoot_put tree _ t)).
  split_and!; try done; [|..].
  - split; cbn [youngestTwigID activeTwigs nodes touchedPosOf512b mtree4YoungestTwig leave4YoungestTwig
      mtree4YTChangeStart twigsToBeDeleted put_twig set_activeTwigs set_mtree]; try done.
    + pose proof (upper_inv_twigs tree (<[youngestTwigID tree := set_leftRoot t root]> (activeTwigs tree))
        (dirty tree) O Hup (λ n, put_twig_dom tree _ t _ n Ht) (λ n _, Hgr n)) as [H1 H2 H3 H4 H5 H6].
      by split.
    + apply touched_ok_leftRoot; [done|done|left; exact Hdy].
    + eexists. rewrite lookup_insert_eq. split; [done|]. intros _. unfold mt_at. by rewrite Hroot.
    + destruct Hev as [Hn Hev]. split; [done|]. intros id Hid. destruct (Hev id Hid) as [? ?].
      split; [done|]. by rewrite lookup_insert_ne.
  - intros id. cbn. destruct (decide (id = youngestTwigID tree)) as [->|].
    + rewrite lookup_insert_eq, Ht. by constructor.
    + rewrite lookup_insert_ne by done. destruct (activeTwigs tree !! id); by constructor.
Qed.

Lemma syncMT4YoungestTwig_frame tree tree' : syncMT4YoungestTwig tree = Ret tree' →
  (hashes32 (mtree4YoungestTwig tree) → hashes32 (mtree4YoungestTwig tree')) ∧
  ∀ id, id ≠ youngestTwigID tree → activeTwigs tree' !! id = activeTwigs tree !! id.
Proof.
  unfold syncMT4YoungestTwig. case_match; [intros [= <-]; done|].
  destruct (hash_leaves _ _) as [mt leave] eqn:Eh. intros Hs. invert_ret.
  cbn [mtree4YoungestTwig put_twig set_activeTwigs set_mtree activeTwigs youngestTwigID].
  split; [|intros id Hid; by rewrite lookup_insert_ne].
  intros Hm. apply hashes32_sync. pose proof (hashes32_leaves _ (leave4YoungestTwig tree) Hm) as Hl.
  by rewrite Eh in Hl.
Qed.

(** ** [syncMT] *)

Lemma upper_inv_synced tree (D D' : Z → Prop) O : (∀ u, ¬ D' u) →
  upper_inv tree D O (calcMaxLevel (youngestTwigID tree)) → upper_inv tree D' O 12.
Proof.
  intros HD [Hr Hd Ht Hk Hp Ho]. split; [done|naive_solver|done|done|..].
  - intros L n HL Hn. left. destruct (Hp L n HL Hn) as [?|[? _]]; [done|lia].
  - intros L n HL Hn _. apply Ho; [done|done|left; lia].
Qed.

(** Without touched twigs, the level up to which the nodes are synced is moot. *)
Lemma upper_inv_mono tree (D : Z → Prop) O Lv : (∀ u, ¬ D u) → upper_inv tree D O 12 → upper_inv tree (λ _, False) O Lv.
Proof.
  intros HD [Hr Hd Ht Hk Hp Ho]. split; [done|done|done|done|..].
  - intros L n HL Hn. left. destruct (Hp L n HL Hn) as [?|(_ & t & Dt & _)]; [done|by destruct (HD t)].
  - intros L n HL Hn _. apply Ho; [done|done|right]. intros t Dt. by destruct (HD t).
Qed.

(** A tree whose hashes are all consistent. *)
Record synced tree (O : Z) : Prop := mk_synced {
  sy_inv : tree_inv tree O;
  sy_untouched : touchedPosOf512b tree = ∅;
  sy_start : mtree4YTChangeStart tree = -1
}.

Lemma synced_twig tree O id t : synced tree O → activeTwigs tree !! id = Some t → twig_shape t ∧ twig_ok t.
Proof.
  intros [[_ [Hok _] _ _ _ _ _ _] Hu _] Ht. rewrite Hu in Hok. apply (proj1 (partly_ok_all (activeTwigs tree))) with id; [|done].
  eapply partly_ok_iff; [..|exact Hok]; unfold none1, none2; set_solver.
Qed.

Lemma synced_check tree O : synced tree O → 0 < youngestTwigID tree → CheckHashConsistency tree = Ret tt.
Proof.
  intros Hsy Hy. unfold CheckHashConsistency.
  assert (checkAllTwigs tree = Ret tt) as ->.
  { apply for_each_Ret. intros [id t] Hin%elem_of_map_to_list.
    destruct (synced_twig _ _ _ _ Hsy Hin). by apply checkTwig_Ret. }
  destruct Hsy as [[Hup _ _ Hml _ Hc _ _] Hu Hs]. destruct (Hc Hs) as [Hmt _].
  cbn [mbind outcome_bind]. rewrite (checkUpperNodes_ok tree O (λ _, False)); [|idtac|done].
  2:{ eapply upper_inv_mono; [|exact Hup]. unfold dirty. rewrite Hu. set_solver. }
  cbn [mbind outcome_bind]. by apply checkMT_Ret.
Qed.

(** What a sync keeps. *)
Record same_data tree tree' : Prop := mk_same_data {
  sd_young : youngestTwigID tree' = youngestTwigID tree;
  sd_entryFile : entryFile tree' = entryFile tree;
  sd_twigMtFile : twigMtFile tree' = twigMtFile tree;
  sd_evict : twigsToBeDeleted tree' = twigsToBeDeleted tree;
  sd_deactived : deactivedSNList tree' = deactivedSNList tree;
  sd_twigs id : option_Forall2 (λ t t', (activeBits t' = activeBits t ∧ FirstEntryPos t' = FirstEntryPos t) ∧
      (id ≠ youngestTwigID tree → leftRoot t' = leftRoot t))
    (activeTwigs tree !! id) (activeTwigs tree' !! id);
  sd_hashes : hashes32 (mtree4YoungestTwig tree) → hashes32 (mtree4YoungestTwig tree');
  sd_leaves i : 0 ≤ i < 2048 → mt_at (mtree4YoungestTwig tree') (LeafCountInTwig + i) =
    leaf_hash (mtree4YoungestTwig tree) (leave4YoungestTwig tree) i
}.

Lemma option_Forall2_trans {A} (R1 R2 R3 : A → A → Prop) x y z :
  (∀ a b c, R1 a b → R2 b c → R3 a c) → option_Forall2 R1 x y → option_Forall2 R2 y z → option_Forall2 R3 x z.
Proof. intros H H1 H2. destruct H1; inversion H2; subst; constructor; eauto. Qed.

Lemma syncMT_ok tree O : tree_inv tree O → 0 < youngestTwigID tree →
  ∃ tree' root, syncMT tree = Ret (tree', root) ∧ synced tree' O ∧ same_data tree tree' ∧
    nodes tree' !! Pos (calcMaxLevel (youngestTwigID tree)) 0 = Some root.
Proof.
  intros Hinv Hy. unfold syncMT. cbv zeta.
  destruct (syncMT4YoungestTwig_ok tree O Hinv) as
    (t1 & E1 & Hinv1 & Hs1 & Ey & Et & Ed & En & Eef & Etf & Edl & Htw1 & Hlv1).
  destruct (syncMT4YoungestTwig_frame _ _ E1) as [Hh32 Hsame]. rewrite E1.
  cbn [mbind outcome_bind].
  destruct (syncMT4ActiveBits_ok t1 (ti_touched _ _ Hinv1)) as (m & nl & -> & Hok & Hfr & Hroots & Hsort & Hnl).
  cbn [mbind outcome_bind]. destruct (ui_range _ _ _ _ (ti_upper _ _ Hinv1)) as [HO HY].
  assert (∀ id, is_Some (m !! id) ↔ is_Some (activeTwigs t1 !! id)) as Hdom.
  { intros id. specialize (Hfr id). split; intros [x Hx]; rewrite Hx in Hfr; inversion Hfr; by eexists. }
  assert (upper_inv (set_activeTwigs t1 m) (dirty t1) O 12) as Hup.
  { apply upper_inv_twigs; [apply Hinv1|done|]. intros n Hn. unfold getTwigRoot. cbn [activeTwigs set_activeTwigs nodes].
    specialize (Hfr n). destruct (m !! n) as [t'|] eqn:Em, (activeTwigs t1 !! n) as [t|] eqn:Ea;
      [|inversion Hfr|inversion Hfr|done].
    f_equal. apply (Hroots n t t' Ea Em). intros i Hi E. apply Hn. by exists i. }
  destruct (syncUpperNodes_ok (set_activeTwigs t1 m) (dirty t1) O nl Hup Hsort) as (ns & -> & Hup').
  { intros n. rewrite Hnl. split.
    - intros (i & Hi & ->). exists (i / 4). split; [by exists i|]. rewrite anc_pred by lia.
      change (13 - 1) with 12. rewrite anc_12. zdiv.
    - intros (x & (i & Hi & <-) & ->). exists i. split; [done|]. rewrite anc_pred by lia.
      change (13 - 1) with 12. rewrite anc_12. zdiv. }
  cbn [mbind outcome_bind]. cbn [youngestTwigID set_activeTwigs] in Hup'.
  set (t3 := set_touched (set_nodes (set_activeTwigs t1 m) ns) ∅).
  assert (upper_inv t3 (dirty t3) O 12) as Hup3.
  { apply (upper_inv_synced t3 (dirty t1)); [unfold dirty, t3; set_solver|].
    destruct Hup' as [H1 H2 H3 H4 H5 H6]. by split. }
  assert (synced t3 O) as Hsy.
  { split; [|done|exact Hs1].
    destruct Hinv1 as [_ _ (t & Ht & Hl) Hml Hll Hcl Hch [Hnd Hev]].
    split; try done.
    - split; [|unfold t3; set_solver]. eapply partly_ok_iff; [..|apply partly_ok_all, Hok]; done.
    - cbn. specialize (Hfr (youngestTwigID t1)). rewrite Ht in Hfr.
      destruct (m !! youngestTwigID t1) as [t'|] eqn:Em; [|inversion Hfr].
      exists t'. split; [done|]. intros _. destruct (Hroots _ _ _ Ht Em) as [-> _]. by apply Hl.
    - split; [done|]. intros id Hid. destruct (Hev id Hid) as [? ?]. split; [done|]. cbn. by apply Hdom. }
  destruct (root_present (set_nodes (set_activeTwigs t1 m) ns) (dirty t1) O Hup') as [root Hroot].
  { cbn. by rewrite Ey. }
  cbn [youngestTwigID set_nodes set_activeTwigs nodes] in Hroot. rewrite Ey in Hroot.
  unfold get_node. cbn [nodes t3 set_touched set_nodes]. rewrite Hroot. cbn [mbind outcome_bind mret outcome_ret].
  exists t3, root. split_and!; [done|done| |done].
  split; [done..|exact Eef|exact Etf|exact Ed|exact Edl| | |exact Hlv1].
  - intros id. cbn. specialize (Htw1 id). specialize (Hfr id).
    destruct (activeTwigs tree !! id) as [a|] eqn:Ea, (activeTwigs t1 !! id) as [b|] eqn:Eb,
      (m !! id) as [c|] eqn:Ec; try (by inversion Htw1); try (by inversion Hfr); constructor.
    inversion Htw1 as [? ? [X1 X2]|]; subst. inversion Hfr as [? ? (X3 & X4 & _)|]; subst.
    split; [split; congruence|]. intros Hne. destruct (Hroots id b c Eb Ec) as [-> _].
    specialize (Hsame id Hne). congruence.
  - exact Hh32.
Qed.

(** ** [EndBlock] *)

Lemma delete_twig_ok tree O id : synced tree O → twigsToBeDeleted tree = [] → id ≠ youngestTwigID tree → is_Some (activeTwigs tree !! id) →
  ∃ tree', delete_twig tree id = Ret tree' ∧
    synced tree' O ∧
    youngestTwigID tree' = youngestTwigID tree ∧
    entryFile tree' = entryFile tree ∧ twigMtFile tree' = twigMtFile tree ∧
    twigsToBeDeleted tree' = twigsToBeDeleted tree ∧ deactivedSNList tree' = deactivedSNList tree ∧
    activeTwigs tree' = delete id (activeTwigs tree) ∧ mtree4YoungestTwig tree' = mtree4YoungestTwig tree ∧
    (∀ n, 0 ≤ n < 2 ^ 54 → getTwigRoot tree' n = getTwigRoot tree n) ∧
    (∀ L n, 13 ≤ L < 128 → 0 ≤ n < 2 ^ 54 → nodes tree' !! Pos L n = nodes tree !! Pos L n).
Proof.
  intros Hsy Hnil Hne [t Ht]. unfold delete_twig, get_twig. rewrite Ht. cbn [mbind outcome_bind mret outcome_ret].
  eexists. split; [done|].
  destruct Hsy as [Hinv Hu Hs]. destruct (ui_range _ _ _ _ (ti_upper _ _ Hinv)) as [HO HY].
  pose proof (ui_twigs _ _ _ _ (ti_upper _ _ Hinv) id ltac:(by eexists)) as Hid.
  set (tree' := set_activeTwigs _ _).
  assert (∀ n, 0 ≤ n < 2 ^ 54 → getTwigRoot tree' n = getTwigRoot tree n) as Hgr.
  { intros n Hn. unfold getTwigRoot, tree', FirstLevelAboveTwig. change (13 - 1) with 12.
    cbn [activeTwigs nodes set_activeTwigs set_nodes].
    destruct (decide (id = n)) as [->|Hne'].
    - by rewrite lookup_delete_eq, lookup_insert_eq, Ht.
    - rewrite lookup_delete_ne by done. destruct (activeTwigs tree !! n); [done|].
      rewrite lookup_insert_ne; [done|]. intros E. apply Pos_inj in E; lia. }
  assert (∀ L n, 13 ≤ L < 128 → 0 ≤ n < 2 ^ 54 → nodes tree' !! Pos L n = nodes tree !! Pos L n) as Hns.
  { intros L n HL Hn. unfold tree', FirstLevelAboveTwig. cbn [nodes set_activeTwigs set_nodes].
    rewrite lookup_insert_ne; [done|]. intros E. apply Pos_inj in E; lia. }
  split_and!; try done.
  destruct Hinv as [Hup [Hto Hin] Hyo Hml Hll Hcl Hch [Hnd Hev]].
  pose proof (calcMaxLevel_bound (youngestTwigID tree) ltac:(lia)) as [Hmax _].
  split; [|done|done]. split; try done.
  - destruct Hup as [Hr Hd Htw Hk Hp Ho].
    assert (∀ L n, 12 ≤ L < 64 → 0 ≤ n < 2 ^ 54 → child tree' L n = child tree L n) as Hchild.
    { intros L n HL Hn. unfold child. destruct (Z.eqb_spec L 12); [by apply Hgr|apply Hns; lia]. }
    split; [done|done|..].
    + intros id' [x Hx]. cbn in Hx. apply lookup_delete_Some in Hx as [_ Hx]. apply Htw. by eexists.
    + intros p [h Hh]. cbn in Hh. apply lookup_insert_Some in Hh as [[<- _]|[_ Hh]]; [|apply Hk; by eexists].
      exists 12, id. unfold FirstLevelAboveTwig. change (13 - 1) with 12. cbn [youngestTwigID tree' set_activeTwigs set_nodes].
      rewrite anc_12. split_and!; [done|lia|lia|lia|left; lia].
    + intros L n HL Hn. cbn [youngestTwigID tree' set_activeTwigs set_nodes] in HL, Hn.
      pose proof (anc_bound O (L + 1)). pose proof (anc_bound (youngestTwigID tree) L).
      rewrite Hchild by lia. by apply Hp.
    + intros L n HL Hn Hc. cbn [youngestTwigID tree' set_activeTwigs set_nodes] in HL, Hn.
      pose proof (anc_bound (youngestTwigID tree) L).
      specialize (Ho L n HL Hn Hc). unfold node_ok. rewrite Hchild by lia. intros l Hl. destruct (Ho l Hl) as (r & Hr' & Hn').
      exists r. rewrite Hns by lia. split; [|done].
      unfold right_child in *. destruct (Z.eqb_spec L 13); [rewrite Hgr by lia; done|rewrite Hns by lia; done].
  - split; [|cbn; rewrite Hu; set_solver].
    intros id' t' Ht'. cbn in Ht'. apply lookup_delete_Some in Ht' as [_ Ht']. by apply Hto.
  - destruct Hyo as (y & Hyt & Hyl). exists y. cbn. rewrite lookup_delete_ne by done. done.
  - cbn. rewrite Hnil. split; [constructor|]. intros id' Hid'. by apply elem_of_nil in Hid'.
Qed.

(** What the deletions keep. *)
Record same_roots tree tree' : Prop := mk_same_roots {
  sr_young : youngestTwigID tree' = youngestTwigID tree;
  sr_entryFile : entryFile tree' = entryFile tree;
  sr_twigMtFile : twigMtFile tree' = twigMtFile tree;
  sr_evict : twigsToBeDeleted tree' = twigsToBeDeleted tree;
  sr_deactived : deactivedSNList tree' = deactivedSNList tree;
  sr_mtree : mtree4YoungestTwig tree' = mtree4YoungestTwig tree;
  sr_root n : 0 ≤ n < 2 ^ 54 → getTwigRoot tree' n = getTwigRoot tree n;
  sr_nodes L n : 13 ≤ L < 128 → 0 ≤ n < 2 ^ 54 → nodes tree' !! Pos L n = nodes tree !! Pos L n
}.

#[export] Instance same_roots_preorder : PreOrder same_roots.
Proof.
  split; [by split|]. intros t1 t2 t3 [] []. split; try congruence.
  - intros n Hn. rewrite <- sr_root0 by done. auto.
  - intros L n HL Hn. rewrite <- sr_nodes0 by done. auto.
Qed.

Lemma delete_twigs_ok tree O l : synced tree O → twigsToBeDeleted tree = [] → NoDup l →
  (∀ id, id ∈ l → id ≠ youngestTwigID tree ∧ is_Some (activeTwigs tree !! id)) →
  ∃ tree', for_state delete_twig tree l = Ret tree' ∧ synced tree' O ∧ same_roots tree tree' ∧
    ∀ id, activeTwigs tree' !! id = if decide (id ∈ l) then None else activeTwigs tree !! id.
Proof.
  revert tree. induction l as [|id l IH]; intros tree Hsy Hnil Hnd Hl.
  { exists tree. split_and!; [done|done|done|]. intros id. by rewrite decide_False by apply not_elem_of_nil. }
  apply NoDup_cons in Hnd as [Hni Hnd]. destruct (Hl id) as [Hne Hid]; [by left|].
  destruct (delete_twig_ok tree O id Hsy Hnil Hne Hid) as
    (t1 & E1 & Hsy1 & Ey & Eef & Etf & Etd & Edl & Ea & Em & Hr & Hn).
  destruct (IH t1) as (t2 & E2 & Hsy2 & Hs2 & Ha2); [done|congruence|done| |].
  { intros id' Hid'. rewrite Ey, Ea. destruct (Hl id') as [? ?]; [by right|]. split; [done|].
    rewrite lookup_delete_ne; [done|]. intros ->. done. }
  exists t2. rewrite (for_state_step _ _ _ _ _ E1). split_and!; [done|done| |].
  - etrans; [|exact Hs2]. by split.
  - intros id'. rewrite Ha2, Ea. destruct (decide (id' = id)) as [->|Hne'].
    + rewrite lookup_delete_eq. destruct (decide (id ∈ l)), (decide (id ∈ id :: l)); set_solver.
    + rewrite lookup_delete_ne by done.
      destruct (decide (id' ∈ l)), (decide (id' ∈ id :: l)); set_solver.
Qed.

Lemma delete_twigs_toDelete tree l k :
  for_state delete_twig (set_toDelete tree k) l =
    (t ← for_state delete_twig tree l; mret (set_toDelete t k)).
Proof.
  revert tree. induction l as [|id l IH]; intros tree; [done|]. cbn [for_state].
  assert (delete_twig (set_toDelete tree k) id = (t ← delete_twig tree id; mret (set_toDelete t k))) as ->.
  { unfold delete_twig, get_twig. cbn [activeTwigs set_toDelete]. by destruct (activeTwigs tree !! id). }
  destruct (delete_twig tree id) as [t1|]; [|done]. cbn [mbind outcome_bind mret outcome_ret]. apply IH.
Qed.

Lemma synced_toDelete tree O : synced tree O → synced (set_toDelete tree []) O.
Proof.
  intros [[Hup Hto Hyo Hml Hll Hcl Hch _] Hu Hs]. split; [|done|done]. split; try done.
  - destruct Hup as [H1 H2 H3 H4 H5 H6]. by split.
  - cbn. split; [constructor|]. intros id Hid. by apply elem_of_nil in Hid.
Qed.

Lemma synced_files tree O ef tf : synced tree O → synced (set_twigMtFile (set_entryFile tree ef) tf) O.
Proof.
  intros [[Hup Hto Hyo Hml Hll Hcl Hch Hev] Hu Hs]. split; [|done|done]. split; try done.
  destruct Hup as [H1 H2 H3 H4 H5 H6]. by split.
Qed.

Context `{!AppendFileLaws F}.

Lemma EndBlock_ok tree O : tree_inv tree O → 0 < youngestTwigID tree →
  af_ok (entryFile tree) → af_ok (twigMtFile tree) →
  ∃ (t1 tree' : Tree F) root, EndBlock tree = Ret (tree', root) ∧ synced tree' O ∧
    synced t1 O ∧ same_data tree t1 ∧ twigsToBeDeleted tree' = [] ∧
    youngestTwigID tree' = youngestTwigID tree ∧ deactivedSNList tree' = deactivedSNList tree ∧
    mtree4YoungestTwig tree' = mtree4YoungestTwig t1 ∧
    (∀ n, 0 ≤ n < 2 ^ 54 → getTwigRoot tree' n = getTwigRoot t1 n) ∧
    (∀ id, activeTwigs tree' !! id =
      if decide (id ∈ twigsToBeDeleted tree) then None else activeTwigs t1 !! id) ∧
    nodes tree' !! Pos (calcMaxLevel (youngestTwigID tree)) 0 = Some root ∧
    af_ok (entryFile tree') ∧ af_keeps (entryFile tree) (entryFile tree') ∧ af_flushed (entryFile tree') ∧
    af_ok (twigMtFile tree') ∧ af_keeps (twigMtFile tree) (twigMtFile tree') ∧ af_flushed (twigMtFile tree') ∧
    af_Size (entryFile tree') = af_Size (entryFile tree) ∧ af_Size (twigMtFile tree') = af_Size (twigMtFile tree).
Proof.
  intros Hinv Hy Hef Htf. destruct (syncMT_ok tree O Hinv Hy) as (t1 & root & E1 & Hsy1 & Hsd & Hroot).
  destruct (ti_evict _ _ (sy_inv _ _ Hsy1)) as [Hnd Hev].
  destruct (delete_twigs_ok (set_toDelete t1 []) O (twigsToBeDeleted t1)) as (t2 & E2 & Hsy2 & Hsr & Ha);
    [by apply synced_toDelete|done|done|done|].
  rewrite delete_twigs_toDelete in E2.
  destruct (for_state delete_twig t1 (twigsToBeDeleted t1)) as [t2'|] eqn:E2'; [|done].
  cbn [mbind outcome_bind mret outcome_ret] in E2. injection E2 as E2.
  destruct (af_Flush_ok _ Hef) as (ef & Ee & Hoke & Ke & Hfe & Se).
  destruct (af_Flush_ok _ Htf) as (tf & Et & Hokt & Kt & Hft & St).
  destruct (ui_range _ _ _ _ (ti_upper _ _ Hinv)) as [HO HY].
  pose proof (calcMaxLevel_bound (youngestTwigID tree) ltac:(lia)) as [Hmax Hmin]. specialize (Hmin Hy).
  exists t1, (set_twigMtFile (set_entryFile t2 ef) tf), root.
  unfold EndBlock. rewrite E1. cbn [mbind outcome_bind]. rewrite E2'. cbn [mbind outcome_bind]. rewrite E2.
  destruct Hsr as [R1 R2 R3 R4 R5 R6 R7 R8], Hsd as [D1 D2 D3 D4 D5 D6 D7]. cbn in R1, R2, R3, R5, R6.
  rewrite R2, R3, D2, D3, Ee. cbn [mbind outcome_bind]. rewrite Et.
  split_and!; try done.
  - by apply synced_files.
  - cbn. congruence.
  - cbn. congruence.
  - intros id. cbn. rewrite Ha, D4. done.
  - cbn [nodes set_twigMtFile set_entryFile]. rewrite R8 by lia. exact Hroot.
Qed.

End inv.
