(* ===== verification/TreeAppend.v ===== *)
(** * Appending and deactivating entries keep the invariant of the tree *)
From S2P Require Import Prelude Types EntryCodec Hasher AppendFile HPFile EntryFile TwigMtFile.
From S2P Require Import Twig YoungestTwig Tree ActiveBits UpperNodes TreeInv.

#[local] Opaque Pos null_node NullNodeInHigherTree NullTwig hash2 Z.pow NullMT4Twig.

Lemma bits32_zset b p v k : 0 ≤ p → 0 ≤ k → p / 32 ≠ k → bits32 (zset b p v) k = bits32 b k.
Proof.
  intros Hp Hk Hne. unfold bits32, zset. destruct (Z.leb_spec 0 p); [|lia].
  apply list_eq. intros i. destruct (decide (i < 32)%nat).
  - rewrite !lookup_take_lt, !lookup_drop by done. apply list_lookup_insert_ne.
    intros E. apply Hne. assert (p = 32 * k + Z.of_nat i) as -> by lia. zdiv.
  - rewrite !lookup_take_ge by lia. done.
Qed.

Section append.
Context `{Hsha : !Sha256, Hmeow : !Meow} {F : Type} `{!AppendFile F}.
Implicit Types (tree : Tree F) (t : Twig).

Lemma upper_inv_more tree (D D' : Z → Prop) O : (∀ u, D u → D' u) →
  (∀ u, D' u → O ≤ u ≤ youngestTwigID tree) → upper_inv tree D O 12 → upper_inv tree D' O 12.
Proof.
  intros HD HD' [Hr Hd Ht Hk Hp Ho]. split; try done.
  - intros L n HL Hn. destruct (Hp L n HL Hn) as [?|(? & u & ? & ?)]; [by left|right]. eauto.
  - intros L n HL Hn [?|Hc]; [lia|]. apply Ho; [done|done|right]. intros u Du. by apply Hc, HD.
Qed.

(** Changing one bit makes the hashes above its 512-bit group stale. *)
Lemma touched_ok_bit m (touched : gset Z) id t off b' : touched_ok m touched → m !! id = Some t →
  0 ≤ id → 0 ≤ off < 2048 →
  touched_ok (<[id := set_activeBits t (zset (activeBits t) (off / 8) b')]> m)
    ({[4 * id + off / 512]} ∪ touched).
Proof.
  intros [Hok Hin] Hid H0 Hoff. split.
  - intros id' t' Ht'. apply lookup_insert_Some in Ht' as [[<- <-]|[Hne Ht']].
    + destruct (Hok id t Hid) as ([S1 S2 S3] & O1 & O2 & O3 & O4).
      split_and!; [split; cbn; by rewrite ?zlen_zset|..].
      * intros k Hk. destruct (decide (k = off / 512)) as [->|Hne]; [left; set_solver|].
        destruct (O1 k Hk) as [?|O1']; [left; set_solver|right].
        unfold L1_ok, slot_ok in *. cbn in *.
        rewrite !bits32_zset; [done|zdiv|lia|zdiv|zdiv|lia|zdiv].
      * intros k Hk. destruct (O2 k Hk) as [(i & ? & ?)|O2']; [left; exists i; set_solver|right; exact O2'].
      * destruct O3 as [(i & ? & ?)|O3']; [left; exists i; set_solver|right; exact O3'].
      * destruct O4 as [(i & ? & ?)|O4']; [left; exists i; set_solver|right; exact O4'].
    + assert (touched ⊆ {[4 * id + off / 512]} ∪ touched) as Hsub by set_solver.
      destruct (Hok id' t' Ht') as (Hs & O1 & O2 & O3 & O4). split_and!; [done|..].
      * intros k Hk. destruct (O1 k Hk); [left; set_solver|by right].
      * intros k Hk. destruct (O2 k Hk) as [(i & ? & ?)|?]; [left; exists i; set_solver|by right].
      * destruct O3 as [(i & ? & ?)|?]; [left; exists i; set_solver|by right].
      * destruct O4 as [(i & ? & ?)|?]; [left; exists i; set_solver|by right].
  - intros i [->%elem_of_singleton|Hi]%elem_of_union.
    + split; [zdiv|]. replace ((4 * id + off / 512) / 4) with id by zdiv.
      rewrite lookup_insert_eq. by eexists.
    + destruct (Hin i Hi) as [? ?]. split; [done|]. rewrite lookup_insert_is_Some.
      destruct (decide (id = i / 4)); tauto.
Qed.

(** What [setEntryActiviation] leaves alone. *)
Record same_but_bits tree tree' : Prop := mk_same_but_bits {
  sb_young : youngestTwigID tree' = youngestTwigID tree;
  sb_entryFile : entryFile tree' = entryFile tree;
  sb_twigMtFile : twigMtFile tree' = twigMtFile tree;
  sb_mtree : mtree4YoungestTwig tree' = mtree4YoungestTwig tree;
  sb_leave : leave4YoungestTwig tree' = leave4YoungestTwig tree;
  sb_start : mtree4YTChangeStart tree' = mtree4YTChangeStart tree;
  sb_end : mtree4YTChangeEnd tree' = mtree4YTChangeEnd tree;
  sb_twigs id : option_Forall2 (λ t t', FirstEntryPos t' = FirstEntryPos t ∧ leftRoot t' = leftRoot t)
    (activeTwigs tree !! id) (activeTwigs tree' !! id)
}.

Lemma sn_parts sn : 0 ≤ sn → Z.shiftr sn TwigShift = sn / 2048 ∧ Z.land sn TwigMask = sn mod 2048 ∧
  Z.quot sn 512 = 4 * (sn / 2048) + (sn mod 2048) / 512 ∧ 0 ≤ sn mod 2048 < 2048.
Proof.
  intros Hs. unfold TwigShift. change TwigMask with (Z.ones 11).
  rewrite Z.shiftr_div_pow2, Z.land_ones, Z.quot_div_nonneg by lia.
  change (2 ^ 11) with 2048. split_and!; [done|done|zdiv|apply Z.mod_pos_bound; lia..].
Qed.

Lemma setEntryActiviation_ok tree O sn (act : bool) : tree_inv tree O → 0 ≤ sn → O ≤ sn / 2048 →
  is_Some (activeTwigs tree !! (sn / 2048)) →
  ∃ tree', setEntryActiviation tree sn act = Ret tree' ∧ tree_inv tree' O ∧ same_but_bits tree tree' ∧
    dirty tree' (sn / 2048) ∧ (∀ u, dirty tree u → dirty tree' u) ∧
    deactivedSNList tree' = (if act then deactivedSNList tree else deactivedSNList tree ++ [sn]) ∧
    twigsToBeDeleted tree' = twigsToBeDeleted tree ∧
    ∀ sn', 0 ≤ sn' → is_Some (activeTwigs tree !! (sn' / 2048)) →
      GetActiveBit tree' sn' = if decide (sn' = sn) then Ret act else GetActiveBit tree sn'.
Proof.
  intros Hinv Hsn HO [t Ht]. destruct (sn_parts sn Hsn) as (E1 & E2 & E3 & Hoff).
  destruct (ti_touched _ _ Hinv) as [Hok Hin].
  pose proof (proj1 (Hok _ _ Ht)) as Hsh.
  assert (∃ b', (if act then setBit t (sn mod 2048) else clearBit t (sn mod 2048)) =
      Ret (set_activeBits t (zset (activeBits t) (sn mod 2048 / 8) b')) ∧
    (∀ j, 0 ≤ j < 2048 → getBit (set_activeBits t (zset (activeBits t) (sn mod 2048 / 8) b')) j =
      if decide (j = sn mod 2048) then Ret act else getBit t j)) as (b' & Eb & Hget).
  { pose proof (Z.mod_pos_bound (sn mod 2048) 8).
    destruct act; [destruct (setBit_Ret t _ Hsh Hoff) as (b' & Eb & Hb)|
                   destruct (clearBit_Ret t _ Hsh Hoff) as (b' & Eb & Hb)];
      exists b'; (split; [done|]); intros j Hj;
      (destruct (store_bit t _ b' Hsh Hoff) as (Hs' & Hi' & Hj');
        [intros k Hk Hne; rewrite Hb by done; by rewrite bool_decide_false|]);
      rewrite !getBit_Ret by done; (case_decide; [subst j; rewrite Hi', Hb, bool_decide_true by lia; done|by rewrite Hj']). }
  set (t' := set_activeBits t _) in *.
  set (tree' := set_touched (set_deactived (put_twig tree (sn / 2048) t')
    (if act then deactivedSNList tree else deactivedSNList tree ++ [sn]))
    ({[ Z.quot sn 512 ]} ∪ touchedPosOf512b tree)).
  assert (setEntryActiviation tree sn act = Ret tree') as Erun.
  { unfold setEntryActiviation, get_twig. rewrite E1, E2, Ht. cbn [mbind outcome_bind mret outcome_ret].
    destruct act; rewrite Eb; reflexivity. }
  exists tree'. pose proof (ui_range _ _ _ _ (ti_upper _ _ Hinv)) as HY.
  pose proof (ui_twigs _ _ _ _ (ti_upper _ _ Hinv) _ (ex_intro _ t Ht)) as Hidr.
  assert (dirty tree' (sn / 2048)) as Hdy.
  { exists (Z.quot sn 512). cbn. split; [set_solver|]. rewrite E3. zdiv. }
  assert (∀ u, dirty tree u → dirty tree' u) as Hmono.
  { intros u (i & Hi & Eu). exists i. cbn. split; [set_solver|done]. }
  split_and!; [done| | |done|done|by destruct act|done|].
  - destruct Hinv as [Hup Hto (y & Hy & Hyl) Hml Hll Hcl Hch [Hnd Hev]]. split; try done.
    + assert (upper_inv (set_activeTwigs tree (<[sn / 2048 := t']> (activeTwigs tree))) (dirty tree) O 12) as [H1 H2 H3 H4 H5 H6].
      { apply upper_inv_twigs; [done|intros id; by apply (put_twig_dom tree _ t)|].
        intros n _. by apply (getTwigRoot_put tree _ t). }
      assert (upper_inv tree' (dirty tree) O 12) as Hup' by (by split).
      apply (upper_inv_more _ (dirty tree)); [done| |done].
      intros u (i & Hi & <-). cbn in Hi. apply elem_of_union in Hi as [Hi|Hi].
      * apply elem_of_singleton in Hi as ->. rewrite E3. replace (_ / 4) with (sn / 2048) by zdiv. cbn. lia.
      * apply (ui_dirty _ _ _ _ Hup). by exists i.
    + cbn. rewrite E3. apply touched_ok_bit; [done|done|zdiv|done].
    + cbn. destruct (decide (sn / 2048 = youngestTwigID tree)) as [E|E].
      * rewrite E, lookup_insert_eq. eexists. split; [done|]. rewrite E in Ht. rewrite Ht in Hy.
        injection Hy as <-. exact Hyl.
      * rewrite lookup_insert_ne by done. eauto.
    + intros Hs. destruct (Hch Hs) as (? & ? & ? & ? & ?). cbn. split_and!; try done; [lia..|]. by apply Hmono.
    + split; [done|]. intros id Hid. destruct (Hev id Hid) as [? ?]. split; [done|]. by apply (put_twig_dom tree _ t).
  - split; try done. intros id. cbn. destruct (decide (sn / 2048 = id)) as [<-|Hne].
    + rewrite lookup_insert_eq, Ht. by constructor.
    + rewrite lookup_insert_ne by done. destruct (activeTwigs tree !! id); by constructor.
  - intros sn' Hsn' [t2 Ht2]. destruct (sn_parts sn' Hsn') as (F1 & F2 & _ & Foff).
    unfold GetActiveBit, get_twig. rewrite F1, F2. cbn [activeTwigs tree' set_touched set_deactived put_twig set_activeTwigs].
    destruct (decide (sn / 2048 = sn' / 2048)) as [E|E].
    + rewrite <- E, lookup_insert_eq, Ht. cbn [mbind outcome_bind mret outcome_ret].
      rewrite Hget by done. destruct (decide (sn' = sn)) as [->|Hne]; [by rewrite decide_True|].
      rewrite decide_False; [done|]. intros E'. apply Hne. zdiv.
    + rewrite lookup_insert_ne, Ht2 by done. rewrite decide_False; [done|]. by intros ->.
Qed.

(** ** The new leaf *)

Lemma above_wider s e e' p : e ≤ e' → above 2048 s e p → above 2048 s e' p.
Proof. intros He (c & d & ? & ? & ->). exists c, d. split_and!; [lia|lia|lia|done]. Qed.

Lemma tree_inv_leaf tree O pos b : tree_inv tree O → 0 ≤ pos < 2048 →
  (mtree4YTChangeStart tree ≠ -1 → mtree4YTChangeEnd tree < pos) → dirty tree (youngestTwigID tree) →
  tree_inv (set_mtree tree (mtree4YoungestTwig tree) (zset (leave4YoungestTwig tree) pos (Some b))
    (if mtree4YTChangeStart tree =? -1 then pos else mtree4YTChangeStart tree) pos) O.
Proof.
  intros [Hup Hto (y & Hy & Hyl) Hml Hll Hcl Hch Hev] Hpos Hend Hdy.
  set (start := if mtree4YTChangeStart tree =? -1 then pos else mtree4YTChangeStart tree).
  assert (0 ≤ start ≤ pos ∧ start ≠ -1 ∧ mt_ok_but 2048 start pos (mtree4YoungestTwig tree) ∧
    ∀ i, pending (leave4YoungestTwig tree) i → start ≤ i ≤ pos) as (Hs & Hs1 & Hbut & Hpend).
  { subst start. destruct (Z.eqb_spec (mtree4YTChangeStart tree) (-1)) as [E|E].
    - destruct (Hcl E) as [Hok Hnp]. split_and!; [lia|lia|lia| |].
      + split; [done|]. intros p Hp _. by apply Hok.
      + intros i Hi. by destruct (Hnp i).
    - destruct (Hch E) as (? & ? & Hp & [_ Hb] & _). specialize (Hend E). split_and!; [lia|lia|lia| |].
      + split; [done|]. intros p Hp' [?|Hna]; [apply Hb; [done|by left]|].
        apply Hb; [done|right]. intros Ha. apply Hna. eapply above_wider; [|done]. lia.
      + intros i Hi. specialize (Hp i Hi). lia. }
  split; try done.
  - destruct Hup as [H1 H2 H3 H4 H5 H6]. by split.
  - exists y. split; [exact Hy|]. intros E. by destruct Hs1.
  - cbn. by rewrite zlen_zset.
  - intros _. cbn. split_and!; [lia|lia|lia| |exact Hbut|exact Hdy].
    intros i [b' Hb']. destruct (decide (pos = i)) as [->|Hne]; [lia|].
    rewrite zget_set_ne in Hb' by done. apply Hpend. by exists b'.
Qed.

Lemma tree_inv_entryFile tree O ef : tree_inv tree O → tree_inv (set_entryFile tree ef) O.
Proof.
  intros [Hup Hto Hyo Hml Hll Hcl Hch Hev]. split; try done.
  destruct Hup as [H1 H2 H3 H4 H5 H6]. by split.
Qed.

Lemma tree_inv_FirstEntryPos tree O id t pos : tree_inv tree O → activeTwigs tree !! id = Some t →
  tree_inv (put_twig tree id (set_FirstEntryPos t pos)) O.
Proof.
  intros [Hup [Hok Hin] (y & Hy & Hyl) Hml Hll Hcl Hch [Hnd Hev]] Hid. split; try done.
  - pose proof (upper_inv_twigs tree (<[id := set_FirstEntryPos t pos]> (activeTwigs tree)) (dirty tree) O Hup
      (λ n, put_twig_dom tree _ t _ n Hid) (λ n _, getTwigRoot_put tree _ t (set_FirstEntryPos t pos) n Hid eq_refl))
      as [H1 H2 H3 H4 H5 H6]. by split.
  - split.
    + intros id' t' Ht'. cbn in Ht'. apply lookup_insert_Some in Ht' as [[<- <-]|[_ Ht']]; [|by apply Hok].
      destruct (Hok id t Hid) as ([S1 S2 S3] & O1 & O2 & O3 & O4). split_and!; [by split|done..].
    + intros i Hi. destruct (Hin i Hi) as [? ?]. split; [done|]. by apply (put_twig_dom tree _ t).
  - cbn. destruct (decide (id = youngestTwigID tree)) as [->|Hne].
    + rewrite lookup_insert_eq. eexists. split; [done|]. rewrite Hid in Hy. injection Hy as <-. exact Hyl.
    + rewrite lookup_insert_ne by done. eauto.
  - split; [done|]. intros id' Hid'. destruct (Hev id' Hid') as [? ?]. split; [done|].
    by apply (put_twig_dom tree _ t).
Qed.

(** ** The next twig *)

Definition next_twig tree (tf : F) (sn : Z) : Tree F :=
  let tree := set_twigMtFile tree tf in
  let tree := set_youngest tree (youngestTwigID tree + 1) in
  let tree := put_twig tree (youngestTwigID tree) CopyNullTwig in
  let tree := set_mtree tree NullMT4Twig (leave4YoungestTwig tree)
                (mtree4YTChangeStart tree) (mtree4YTChangeEnd tree) in
  set_touched tree ({[ Z.quot (sn + 1) 512 ]} ∪ touchedPosOf512b tree).

Lemma anc_next y L : 12 ≤ L → 0 ≤ y → anc y L ≤ anc (y + 1) L ≤ anc y L + 1.
Proof.
  intros HL Hy. split; [apply anc_mono; lia|]. unfold anc.
  assert (0 < 2 ^ (L - 12)) by lia.
  transitivity ((y + 1 * 2 ^ (L - 12)) / 2 ^ (L - 12)); [apply Z.div_le_mono; lia|].
  rewrite Z.div_add by lia. lia.
Qed.

Lemma calcMaxLevel_next y : 0 ≤ y → y + 1 < 2 ^ 50 →
  calcMaxLevel y ≤ calcMaxLevel (y + 1) ≤ calcMaxLevel y + 1.
Proof.
  intros Hy Hy'. destruct (decide (y = 0)) as [->|Hne]; [by vm_compute|].
  rewrite !calcMaxLevel_eq by lia.
  pose proof (Z.log2_le_mono y (y + 1) ltac:(lia)). pose proof (Z.log2_succ_le y). change (Z.succ y) with (y + 1) in *. lia.
Qed.

Lemma upper_inv_next tree (D : Z → Prop) O tf sn : upper_inv tree D O 12 → D (youngestTwigID tree) →
  youngestTwigID tree + 1 < 2 ^ 50 →
  upper_inv (next_twig tree tf sn) (λ u, D u ∨ u = youngestTwigID tree + 1) O 12.
Proof.
  intros [[HO HY] Hd Ht Hk Hp Ho] HDy HY1. set (Y := youngestTwigID tree) in *.
  pose proof (calcMaxLevel_next Y ltac:(lia) HY1) as HM.
  assert (activeTwigs tree !! (Y + 1) = None) as Hnone.
  { apply eq_None_not_Some. intros Hs%Ht. lia. }
  assert (∀ n, n ≠ Y + 1 → getTwigRoot (next_twig tree tf sn) n = getTwigRoot tree n) as Hgr.
  { intros n Hn. unfold getTwigRoot. cbn. by rewrite lookup_insert_ne by done. }
  assert (∀ L, 12 ≤ L → calcMaxLevel Y < L → L ≤ calcMaxLevel (Y + 1) → anc (Y + 1) L = 0) as Htop.
  { intros L _ HL HL'. replace L with (calcMaxLevel (Y + 1)) by lia. apply anc_top. lia. }
  split; cbn [youngestTwigID next_twig set_touched set_mtree put_twig set_activeTwigs set_youngest set_twigMtFile nodes activeTwigs];
    fold Y.
  - lia.
  - intros u [Du| ->]; [specialize (Hd u Du)|]; lia.
  - intros id [x Hx]. apply lookup_insert_Some in Hx as [[<- _]|[_ Hx]]; [lia|].
    specialize (Ht id ltac:(by eexists)). lia.
  - intros p (L & n & -> & HL & Hn & Hc)%Hk. exists L, n. pose proof (anc_next Y L ltac:(lia) ltac:(lia)).
    split_and!; [done|lia|lia|lia|]. fold Y in Hc. destruct Hc as [?|(? & ? & ?)]; [left; lia|].
    destruct (decide (anc (Y + 1) L = anc Y L)) as [E|]; [right; unfold odd_edge; by rewrite E|left; lia].
  - intros L n HL Hn. pose proof (anc_next Y L ltac:(lia) ltac:(lia)).
    destruct (decide (n = anc (Y + 1) L)) as [->|Hne].
    + destruct (decide (L = 12)) as [->|]; [|right; split; [lia|]; exists (Y + 1); tauto].
      left. unfold child. cbn. rewrite anc_12. unfold getTwigRoot. cbn.
      change (youngestTwigID tree) with Y. rewrite lookup_insert_eq. by eexists.
    + destruct (decide (calcMaxLevel Y < L)) as [Hgt|].
      { rewrite (Htop L) in * by lia. pose proof (anc_bound O (L + 1)). lia. }
      destruct (Hp L n) as [Hc|(? & u & ? & ?)]; [lia|fold Y; lia| |right; split; [done|]; exists u; tauto].
      left. unfold child in *. destruct (Z.eqb_spec L 12) as [->|]; [|exact Hc].
      rewrite Hgr; [done|]. rewrite anc_12 in Hne. done.
  - intros L n HL Hn [?|Hc]; [lia|]. pose proof (anc_next Y L ltac:(lia) ltac:(lia)).
    assert (n ≠ anc (Y + 1) L) as Hne by (intros ->; by apply (Hc (Y + 1)); [right|]).
    destruct (decide (calcMaxLevel Y < L)) as [Hgt|]; [rewrite (Htop L) in * by lia; lia|].
    assert (∀ u, D u → anc u L ≠ n) as Hnd by (intros u Du; apply Hc; by left).
    specialize (Ho L n ltac:(fold Y; lia) ltac:(fold Y; lia) (or_intror Hnd)).
    unfold node_ok, child, right_child in *. cbn [nodes next_twig set_touched set_mtree put_twig set_activeTwigs set_youngest set_twigMtFile].
    destruct (Z.eqb_spec L 13) as [->|]; [|destruct (Z.eqb_spec (L - 1) 12); [lia|exact Ho]].
    change (13 - 1 =? 12) with true in *. cbv iota in *.
    assert (anc (Y + 1) 13 = (Y + 1) / 2) as E.
    { rewrite anc_pred by lia. change (13 - 1) with 12. by rewrite anc_12. }
    rewrite !Hgr by (rewrite E in Hne; zdiv). exact Ho.
Qed.

Lemma touched_ok_next m (touched : gset Z) Y sn : touched_ok m touched → m !! (Y + 1) = None → 0 ≤ Y →
  sn + 1 = 2048 * (Y + 1) → touched_ok (<[Y + 1 := NullTwig]> m) ({[ Z.quot (sn + 1) 512 ]} ∪ touched).
Proof.
  intros [Hok Hin] Hnone HY Hsn. rewrite Hsn, Z.quot_div_nonneg by lia.
  replace (2048 * (Y + 1) / 512) with (4 * (Y + 1)) by zdiv. split.
  - intros id t Ht. apply lookup_insert_Some in Ht as [[<- <-]|[Hne Ht]].
    + destruct NullTwig_ok as [Hs [O1 O2 O3 O4]]. split_and!; [done|..]; auto.
    + destruct (Hok id t Ht) as (Hs & O1 & O2 & O3 & O4). split_and!; [done|..].
      * intros k Hk. destruct (O1 k Hk); [left; set_solver|by right].
      * intros k Hk. destruct (O2 k Hk) as [(i & ? & ?)|?]; [left; exists i; set_solver|by right].
      * destruct O3 as [(i & ? & ?)|?]; [left; exists i; set_solver|by right].
      * destruct O4 as [(i & ? & ?)|?]; [left; exists i; set_solver|by right].
  - intros i [->%elem_of_singleton|Hi]%elem_of_union.
    + split; [lia|]. replace (4 * (Y + 1) / 4) with (Y + 1) by zdiv. rewrite lookup_insert_eq. by eexists.
    + destruct (Hin i Hi) as [? ?]. split; [done|]. rewrite lookup_insert_is_Some.
      destruct (decide (Y + 1 = i / 4)); tauto.
Qed.

Lemma tree_inv_next tree O tf sn : tree_inv tree O → mtree4YTChangeStart tree = -1 →
  dirty tree (youngestTwigID tree) → youngestTwigID tree + 1 < 2 ^ 50 →
  sn + 1 = 2048 * (youngestTwigID tree + 1) → tree_inv (next_twig tree tf sn) O.
Proof.
  intros [Hup Hto Hyo Hml Hll Hcl Hch [Hnd Hev]] Hs Hdy HY1 Hsn.
  destruct (ui_range _ _ _ _ Hup) as [HO HY].
  assert (activeTwigs tree !! (youngestTwigID tree + 1) = None) as Hnone.
  { apply eq_None_not_Some. intros Hx%(ui_twigs _ _ _ _ Hup). lia. }
  assert (Z.quot (sn + 1) 512 / 4 = youngestTwigID tree + 1) as Eq.
  { rewrite Hsn, Z.quot_div_nonneg by lia. zdiv. }
  destruct (Hcl Hs) as [_ Hnp]. split; try done.
  - apply (upper_inv_more _ (λ u, dirty tree u ∨ u = youngestTwigID tree + 1)); [| |by apply upper_inv_next].
    + intros u [(i & Hi & Eu)| ->].
      * exists i. cbn. split; [set_solver|done].
      * exists (Z.quot (sn + 1) 512). cbn. split; [set_solver|done].
    + intros u (i & Hi & <-). cbn in Hi.
      change (youngestTwigID (next_twig tree tf sn)) with (youngestTwigID tree + 1). apply elem_of_union in Hi as [Hi|Hi].
      * apply elem_of_singleton in Hi as ->. rewrite Eq. lia.
      * pose proof (ui_dirty _ _ _ _ Hup (i / 4) ltac:(by exists i)). lia.
  - apply (touched_ok_next (activeTwigs tree) _ (youngestTwigID tree)); [done|done|lia|done].
  - exists NullTwig. cbn. rewrite lookup_insert_eq. split; [done|]. intros _. apply NullTwig_leftRoot.
  - intros _. split; [apply NullMT4Twig_ok|exact Hnp].
  - split; [done|]. intros id Hid. destruct (Hev id Hid) as [Hne [x Hx]]. cbn. split.
    + pose proof (ui_twigs _ _ _ _ Hup id (ex_intro _ x Hx)). lia.
    + rewrite lookup_insert_is_Some. destruct (decide (youngestTwigID tree + 1 = id)); [by left|right; eauto].
Qed.

(** ** The files, and the sequence of serial numbers *)

Record seq_inv tree (N : Z) : Prop := mk_seq_inv {
  sq_next : 0 ≤ N;
  sq_young : youngestTwigID tree = N / 2048;
  sq_end : mtree4YTChangeStart tree ≠ -1 → mtree4YTChangeEnd tree < N mod 2048
}.

Context `{!AppendFileLaws F}.

(** The record of a finished twig: a consistent Merkle tree. *)
Definition twig_on_disk (tf : F) (id : Z) (root : bytes) : Prop :=
  ∃ mt p, twig_stored tf id (drop 1 mt) p ∧ zlen mt = 4096 ∧ hashes32 mt ∧ mt_ok mt ∧ mt_at mt 1 = root.

Record files_inv tree (N : Z) : Prop := mk_files_inv {
  fi_entry : af_ok (entryFile tree) ∧ af_Size (entryFile tree) mod 8 = 0 ∧ 0 ≤ af_Size (entryFile tree);
  fi_mt : af_ok (twigMtFile tree) ∧ 32 ≤ af_limit (twigMtFile tree) ∧
    af_Size (twigMtFile tree) = youngestTwigID tree * TwigMtSize;
  fi_first t : N mod 2048 ≠ 0 → activeTwigs tree !! youngestTwigID tree = Some t → 0 ≤ FirstEntryPos t;
  fi_hashes : hashes32 (mtree4YoungestTwig tree);
  fi_stored id t : id ≠ youngestTwigID tree → activeTwigs tree !! id = Some t →
    twig_on_disk (twigMtFile tree) id (leftRoot t)
}.

Lemma twig_on_disk_keeps tf tf' id root : af_keeps tf tf' → twig_on_disk tf id root → twig_on_disk tf' id root.
Proof.
  intros Hk (mt & p & Hst & H). exists mt, p. split; [|done]. by eapply twig_stored_keeps.
Qed.

Lemma EntryFile_Append_ok (ef : F) (e : Entry) sns b0 b1 : af_ok ef → af_Size ef mod 8 = 0 → 0 ≤ af_Size ef →
  b0 ++ b1 = EntryToBytes e sns → zlen (record e sns) ≤ af_limit ef →
  ∃ ef', EntryFile_Append ef (b0, b1) = Ret (ef', af_Size ef) ∧ af_ok ef' ∧ af_keeps ef ef' ∧
    af_holds ef' (af_Size ef) (record e sns) ∧
    af_Size ef' = af_Size ef + zlen (record e sns) ∧ af_Size ef' mod 8 = 0.
Proof.
  intros Hok Hal H0 Hb Hlim.
  assert (concat (record_buffers b0 b1) = record e sns) as Hc.
  { unfold record, padding. cbn. rewrite <- zlen_app, Hb, app_nil_r, <- Hb.
    by rewrite <- !app_assoc. }
  destruct (af_Append_ok ef (record_buffers b0 b1) Hok) as (ef1 & E1 & Hok1 & K1 & Hh & S1); [by rewrite Hc|].
  rewrite Hc in Hh, S1. exists ef1. unfold EntryFile_Append. cbn [fst snd]. rewrite E1. cbn [mbind outcome_bind].
  rewrite Z.rem_mod_nonneg, Hal by lia. split_and!; try done. rewrite S1. by apply record_aligned.
Qed.

(** ** [appendEntry] *)

Definition bits_same tree tree' : Prop := ∀ id t, activeTwigs tree !! id = Some t →
  ∃ t', activeTwigs tree' !! id = Some t' ∧ activeBits t' = activeBits t.

Lemma bits_same_GetActiveBit tree tree' sn : bits_same tree tree' → 0 ≤ sn →
  is_Some (activeTwigs tree !! (sn / 2048)) → GetActiveBit tree' sn = GetActiveBit tree sn.
Proof.
  intros Hs Hsn [t Ht]. destruct (sn_parts sn Hsn) as (E & _). unfold GetActiveBit, get_twig. rewrite E.
  destruct (Hs _ _ Ht) as (t' & Ht' & Eb). rewrite Ht, Ht'. cbn [mbind outcome_bind mret outcome_ret].
  unfold getBit. by rewrite Eb.
Qed.

Lemma set_youngest_id tree : set_youngest tree (youngestTwigID tree) = tree.
Proof. by destruct tree. Qed.

(** The tree after the leaf of entry [N] has been recorded. *)
Record leaf_added tree tree' (O N : Z) (ef : F) (bz : bytes * bytes) : Prop := mk_leaf_added {
  la_inv : tree_inv tree' O;
  la_young : youngestTwigID tree' = youngestTwigID tree;
  la_ef : entryFile tree' = ef;
  la_tf : twigMtFile tree' = twigMtFile tree;
  la_mt : mtree4YoungestTwig tree' = mtree4YoungestTwig tree;
  la_start : mtree4YTChangeStart tree' ≠ -1;
  la_end : mtree4YTChangeEnd tree' = N mod 2048;
  la_dirty : dirty tree' (youngestTwigID tree);
  la_deactived : deactivedSNList tree' = deactivedSNList tree;
  la_evict : twigsToBeDeleted tree' = twigsToBeDeleted tree;
  la_leaf : zget (leave4YoungestTwig tree') (N mod 2048) = Some (Some bz);
  la_twigs id : option_Forall2 (λ t t', FirstEntryPos t' = FirstEntryPos t ∧ leftRoot t' = leftRoot t)
    (activeTwigs tree !! id) (activeTwigs tree' !! id);
  la_bits sn : 0 ≤ sn → is_Some (activeTwigs tree !! (sn / 2048)) →
    GetActiveBit tree' sn = if decide (sn = N) then Ret true else GetActiveBit tree sn
}.

Lemma add_leaf tree O N ef bz : tree_inv tree O → seq_inv tree N →
  ∃ (t1 tree' : Tree F), ActiviateEntry tree N = Ret t1 ∧ entryFile t1 = entryFile tree ∧
    tree' = set_mtree (set_entryFile t1 ef) (mtree4YoungestTwig t1)
      (zset (leave4YoungestTwig t1) (N mod 2048) (Some bz))
      (if mtree4YTChangeStart t1 =? -1 then N mod 2048 else mtree4YTChangeStart t1) (N mod 2048) ∧
    leaf_added tree tree' O N ef bz.
Proof.
  intros Hinv [HN HY Hend]. destruct (ti_youngest _ _ Hinv) as (y & Hy & _).
  destruct (ui_range _ _ _ _ (ti_upper _ _ Hinv)) as [HO _].
  destruct (setEntryActiviation_ok tree O N true Hinv HN) as
    (t1 & E1 & Hinv1 & [B1 B2 B3 B4 B5 B6 B7 B8] & Hdy & Hmono & Edl & Eev & Hbits); [lia|rewrite <- HY; by eexists|].
  pose proof (Z.mod_pos_bound N 2048 ltac:(lia)) as Hpos.
  eexists t1, _. split_and!; [exact E1|done|reflexivity|].
  assert (dirty t1 (youngestTwigID t1)) as Hdy1 by (rewrite B1, HY; exact Hdy).
  split; cbn [youngestTwigID entryFile twigMtFile mtree4YoungestTwig mtree4YTChangeStart mtree4YTChangeEnd
    deactivedSNList twigsToBeDeleted leave4YoungestTwig activeTwigs set_mtree set_entryFile]; try done.
  - apply (tree_inv_leaf (set_entryFile t1 ef)); [by apply tree_inv_entryFile|done| |exact Hdy1].
    cbn. rewrite B6, B7. exact Hend.
  - destruct (Z.eqb_spec (mtree4YTChangeStart t1) (-1)); lia.
  - by rewrite <- B1.
  - apply zget_set_eq. rewrite (ti_leave_len _ _ Hinv1). lia.
Qed.

Lemma seq_next_small N : 0 ≤ N → N mod 2048 ≠ 2047 →
  (N + 1) / 2048 = N / 2048 ∧ (N + 1) mod 2048 = N mod 2048 + 1.
Proof. intros. zdiv. Qed.

Lemma files_inv_leaf tree tree' O N ef bz : files_inv tree N → leaf_added tree tree' O N ef bz →
  hashes32 (mtree4YoungestTwig tree') ∧
  ∀ id t, id ≠ youngestTwigID tree' → activeTwigs tree' !! id = Some t →
    twig_on_disk (twigMtFile tree') id (leftRoot t).
Proof.
  intros [_ _ _ Hh Hst] Hla. split; [by rewrite (la_mt _ _ _ _ _ _ Hla)|].
  intros id t Hne Ht. rewrite (la_young _ _ _ _ _ _ Hla) in Hne. rewrite (la_tf _ _ _ _ _ _ Hla).
  pose proof (la_twigs _ _ _ _ _ _ Hla id) as Hfr. rewrite Ht in Hfr.
  destruct (activeTwigs tree !! id) as [t0|] eqn:E0; [|inversion Hfr].
  inversion Hfr as [? ? [_ El]|]; subst. rewrite El. by apply Hst.
Qed.

(** What an append guarantees. *)
Record appended tree tree' (O N : Z) (rec : bytes) : Prop := mk_appended {
  ap_inv : tree_inv tree' O;
  ap_seq : seq_inv tree' (N + 1);
  ap_files : files_inv tree' (N + 1);
  ap_keeps : af_keeps (entryFile tree) (entryFile tree') ∧ af_keeps (twigMtFile tree) (twigMtFile tree');
  ap_holds : af_holds (entryFile tree') (af_Size (entryFile tree)) rec;
  ap_size : af_Size (entryFile tree') = af_Size (entryFile tree) + zlen rec;
  ap_deactived : deactivedSNList tree' = deactivedSNList tree;
  ap_evict : twigsToBeDeleted tree' = twigsToBeDeleted tree;
  ap_bits sn : 0 ≤ sn → is_Some (activeTwigs tree !! (sn / 2048)) →
    GetActiveBit tree' sn = if decide (sn = N) then Ret true else GetActiveBit tree sn;
  (** a twig starts where its first entry was appended *)
  ap_first id t' : id * 2048 ≤ N → activeTwigs tree' !! id = Some t' →
    ∃ t, activeTwigs tree !! id = Some t ∧
      FirstEntryPos t' = if decide (id * 2048 = N) then af_Size (entryFile tree) else FirstEntryPos t
}.

Lemma leaf_added_first tree tree' O N ef bz id t' : leaf_added tree tree' O N ef bz → activeTwigs tree' !! id = Some t' →
  ∃ t, activeTwigs tree !! id = Some t ∧ FirstEntryPos t' = FirstEntryPos t.
Proof.
  intros Hla Ht. pose proof (la_twigs _ _ _ _ _ _ Hla id) as Hfr. rewrite Ht in Hfr.
  destruct (activeTwigs tree !! id) as [t|]; inversion Hfr as [? ? [Ef _]|]; subst. eauto.
Qed.

Section one_append.
Variables (tree tl : Tree F) (O N : Z) (ef : F) (bz : bytes * bytes) (rec : bytes).
Hypothesis Hfiles : files_inv tree N.
Hypothesis Hseq : seq_inv tree N.
Hypothesis Hla : leaf_added tree tl O N ef bz.
Hypothesis Hef : af_ok ef ∧ af_Size ef mod 8 = 0 ∧ 0 ≤ af_Size ef.
Hypothesis Hkeep : af_keeps (entryFile tree) ef.
Hypothesis Hholds : af_holds ef (af_Size (entryFile tree)) rec.
Hypothesis Hsize : af_Size ef = af_Size (entryFile tree) + zlen rec.

Lemma append_middle : N mod 2048 ≠ 0 → N mod 2048 ≠ 2047 → appended tree tl O N rec.
Proof.
  intros H0 H1. destruct Hseq as [HN HY Hend]. destruct (seq_next_small N HN H1) as [E1 E2].
  destruct (files_inv_leaf _ _ _ _ _ _ Hfiles Hla) as [Hh Hst].
  destruct Hla as [L1 L2 L3 L4 L5 L6 L7 L8 L9 L10 L11 L12 L13]. destruct Hfiles as [F1 F2 F3 F4 F5].
  split; rewrite ?L3; try done.
  - split; [lia|by rewrite L2, E1|intros _; rewrite L7, E2; lia].
  - split; rewrite ?L3, ?L4, ?L2; try done; [|by rewrite <- L2, <- L4].
    intros t _ Ht. specialize (L12 (youngestTwigID tree)). rewrite Ht in L12.
    destruct (activeTwigs tree !! youngestTwigID tree) as [t0|] eqn:E0; [|inversion L12].
    inversion L12 as [? ? [Ef _]|]; subst. rewrite Ef. by apply F3.
  - split; [done|by rewrite L4].
  - intros id t' Hid Ht'. destruct (leaf_added_first _ _ _ _ _ _ _ _ Hla Ht') as (t & ? & ->). exists t. split; [done|].
    rewrite decide_False by (clear -H0; intros <-; by rewrite Z.mod_mul in H0). done.
Qed.

Lemma append_first t : N mod 2048 = 0 → activeTwigs tl !! youngestTwigID tree = Some t →
  appended tree (put_twig tl (youngestTwigID tree) (set_FirstEntryPos t (af_Size (entryFile tree)))) O N rec.
Proof.
  intros H0 Ht. destruct Hseq as [HN HY Hend]. destruct (seq_next_small N HN ltac:(lia)) as [E1 E2].
  destruct (files_inv_leaf _ _ _ _ _ _ Hfiles Hla) as [Hh Hst].
  destruct Hla as [L1 L2 L3 L4 L5 L6 L7 L8 L9 L10 L11 L12 L13]. destruct Hfiles as [[F1 [F1' F1'']] F2 F3 F4 F5].
  set (t' := set_FirstEntryPos t _).
  assert (bits_same tl (put_twig tl (youngestTwigID tree) t')) as Hbs.
  { intros id u Hu. cbn. destruct (decide (youngestTwigID tree = id)) as [<-|Hne].
    - rewrite lookup_insert_eq. rewrite Ht in Hu. injection Hu as <-. by eexists.
    - rewrite lookup_insert_ne by done. eauto. }
  split; cbn [entryFile twigMtFile deactivedSNList twigsToBeDeleted put_twig set_activeTwigs]; rewrite ?L3; try done.
  - by apply tree_inv_FirstEntryPos.
  - split; cbn [youngestTwigID mtree4YTChangeStart mtree4YTChangeEnd put_twig set_activeTwigs];
      [lia|by rewrite L2, E1|intros _; rewrite L7, E2; lia].
  - split; cbn [entryFile twigMtFile youngestTwigID mtree4YoungestTwig activeTwigs put_twig set_activeTwigs];
      rewrite ?L3, ?L4, ?L2; try done.
    + intros u _ Hu. rewrite lookup_insert_eq in Hu. injection Hu as <-. exact F1''.
    + intros id u Hne Hu. rewrite lookup_insert_ne in Hu by done. rewrite <- L4. apply Hst; [by rewrite L2|done].
  - split; [done|by rewrite L4].
  - intros sn Hsn Hact. rewrite <- L13 by done. apply bits_same_GetActiveBit; [done|done|].
    specialize (L12 (sn / 2048)). destruct Hact as [x Hx]. rewrite Hx in L12. inversion L12; by eexists.
  - intros id u Hid. cbn [activeTwigs put_twig set_activeTwigs]. destruct (decide (id = youngestTwigID tree)) as [->|Hne].
    + rewrite lookup_insert_eq. intros [= <-]. destruct (leaf_added_first _ _ _ _ _ _ _ _ Hla Ht) as (t0 & ? & _).
      exists t0. split; [done|]. rewrite decide_True by (rewrite HY; clear -H0; zdiv). done.
    + rewrite lookup_insert_ne by done. intros Hu. destruct (leaf_added_first _ _ _ _ _ _ _ _ Hla Hu) as (t0 & ? & ->).
      exists t0. split; [done|]. rewrite decide_False; [done|]. intros <-. rewrite Z.div_mul in HY by done. congruence.
Qed.

Lemma append_last ts tf t : N mod 2048 = 2047 → youngestTwigID tree + 1 < 2 ^ 50 →
  syncMT4YoungestTwig tl = Ret ts → activeTwigs ts !! youngestTwigID tree = Some t →
  AppendTwig (twigMtFile ts) (drop 1 (mtree4YoungestTwig ts)) (FirstEntryPos t) = Ret tf →
  af_ok tf → af_keeps (twigMtFile tree) tf → af_Size tf = (youngestTwigID tree + 1) * TwigMtSize →
  twig_stored tf (youngestTwigID tree) (drop 1 (mtree4YoungestTwig ts)) (FirstEntryPos t) →
  appended tree (next_twig ts tf N) O N rec.
Proof.
  intros H1 HY1 Es Ht _ Hoktf Hktf Hsztf Hsto. destruct Hseq as [HN HY Hend].
  assert ((N + 1) / 2048 = N / 2048 + 1 ∧ (N + 1) mod 2048 = 0) as [E1 E2] by zdiv.
  destruct (files_inv_leaf _ _ _ _ _ _ Hfiles Hla) as [Hh Hst].
  destruct Hla as [L1 L2 L3 L4 L5 L6 L7 L8 L9 L10 L11 L12 L13]. destruct Hfiles as [F1 F2 F3 F4 F5].
  destruct (syncMT4YoungestTwig_ok tl O L1) as (ts' & Es' & Hinv & Hs1 & Ey & Et & Ed & En & Eef & Etf & Edl & Htw & Hlv).
  rewrite Es in Es'. injection Es' as <-.
  destruct (syncMT4YoungestTwig_frame _ _ Es) as [Hh' Hsame]. specialize (Hh' Hh).
  assert (youngestTwigID ts = youngestTwigID tree) as Ey' by congruence.
  destruct (ui_range _ _ _ _ (ti_upper _ _ Hinv)) as [HO HYb].
  assert (activeTwigs ts !! (youngestTwigID tree + 1) = None) as Hnone.
  { apply eq_None_not_Some. intros Hx%(ui_twigs _ _ _ _ (ti_upper _ _ Hinv)). lia. }
  assert (bits_same tl (next_twig ts tf N)) as Hbs.
  { intros id u Hu. specialize (Htw id). rewrite Hu in Htw.
    destruct (activeTwigs ts !! id) as [u'|] eqn:Eu; [|inversion Htw].
    inversion Htw as [? ? [Eb _]|]; subst. exists u'. split; [|done].
    unfold next_twig. cbn. rewrite lookup_insert_ne; [done|]. rewrite Ey'. intros <-. congruence. }
  split; cbn [entryFile twigMtFile deactivedSNList twigsToBeDeleted next_twig set_touched set_mtree put_twig
    set_activeTwigs set_youngest set_twigMtFile]; rewrite ?Eef, ?L3; try done.
  - apply tree_inv_next; [done|done| |by rewrite Ey'|].
    + destruct L8 as (i & Hi & E). exists i. rewrite Et, Ey'. done.
    + rewrite Ey'. zdiv.
  - split; cbn [youngestTwigID mtree4YTChangeStart mtree4YTChangeEnd next_twig set_touched set_mtree put_twig
      set_activeTwigs set_youngest set_twigMtFile]; [lia|rewrite Ey', E1; lia|]. intros Hne. by destruct Hne.
  - split; cbn [entryFile twigMtFile youngestTwigID mtree4YoungestTwig activeTwigs next_twig set_touched set_mtree
      put_twig set_activeTwigs set_youngest set_twigMtFile]; rewrite ?Eef, ?L3, ?Ey'; try done.
    + split_and!; [done|by rewrite (af_limit_keeps _ _ Hktf); apply F2|done].
    + intros h Hh2. by apply NullMT4Twig_hashes.
    + intros id u Hne Hu. rewrite lookup_insert_ne in Hu by done.
      destruct (decide (id = youngestTwigID tree)) as [->|Hne2].
      * rewrite Ht in Hu. injection Hu as <-. destruct (ti_clean _ _ Hinv Hs1) as [Hmt _].
        exists (mtree4YoungestTwig ts), (FirstEntryPos t).
        split_and!; [done|apply (ti_mt_len _ _ Hinv)|done|done|].
        destruct (ti_youngest _ _ Hinv) as (t2 & Ht2 & Hl). rewrite Ey', Ht in Ht2. injection Ht2 as <-.
        symmetry. by apply Hl.
      * rewrite Hsame in Hu by congruence. specialize (L12 id). rewrite Hu in L12.
        destruct (activeTwigs tree !! id) as [t0|] eqn:E0; [|inversion L12].
        inversion L12 as [? ? [_ El]|]; subst. rewrite El.
        eapply twig_on_disk_keeps; [exact Hktf|]. by apply F5.
  - cbn. congruence.
  - cbn. congruence.
  - intros sn Hsn Hact. rewrite <- L13 by done. apply bits_same_GetActiveBit; [done|done|].
    specialize (L12 (sn / 2048)). destruct Hact as [x Hx]. rewrite Hx in L12. inversion L12; by eexists.
  - intros id u Hid. cbn [activeTwigs next_twig set_touched set_mtree put_twig set_activeTwigs set_youngest set_twigMtFile youngestTwigID].
    rewrite lookup_insert_ne by (rewrite Ey'; clear -Hid HY; zdiv). intros Hu. specialize (Htw id). rewrite Hu in Htw.
    destruct (activeTwigs tl !! id) as [ul|] eqn:El; inversion Htw as [? ? [_ Ef]|]; subst. rewrite Ef.
    destruct (leaf_added_first _ _ _ _ _ _ _ _ Hla El) as (t0 & ? & ->). exists t0. split; [done|].
    rewrite decide_False by (clear -H1; zdiv). done.
Qed.
End one_append.

Lemma appendEntry_ok tree O N (e : Entry) sns b0 b1 : tree_inv tree O → seq_inv tree N → files_inv tree N →
  N / 2048 + 1 < 2 ^ 50 → b0 ++ b1 = EntryToBytes e sns → zlen (record e sns) ≤ af_limit (entryFile tree) →
  ∃ tree', appendEntry tree (b0, b1) N = Ret (tree', af_Size (entryFile tree)) ∧
    appended tree tree' O N (record e sns).
Proof.
  intros Hinv Hseq Hfiles HN1 Hb Hlim. pose proof Hseq as [HN HY Hend].
  destruct (fi_entry _ _ Hfiles) as (Hok & Hal & H0).
  destruct (EntryFile_Append_ok (entryFile tree) e sns b0 b1) as (ef & Ee & Hoke & Ke & Hh & Sz & Hal'); [done..|].
  destruct (add_leaf tree O N ef (b0, b1) Hinv Hseq) as (t1 & tl & E1 & Eef & Etl & Hla).
  assert (af_ok ef ∧ af_Size ef mod 8 = 0 ∧ 0 ≤ af_Size ef) as Hef by (pose proof (zlen_nonneg (record e sns)); split_and!; [done|done|lia]).
  destruct (sn_parts N HN) as (P1 & P2 & _ & Pr). unfold appendEntry. rewrite P1, P2, <- HY, set_youngest_id, E1.
  cbn [mbind outcome_bind]. rewrite Eef, Ee. cbn [mbind outcome_bind].
  change (leave4YoungestTwig (set_entryFile t1 ef)) with (leave4YoungestTwig t1).
  change (mtree4YoungestTwig (set_entryFile t1 ef)) with (mtree4YoungestTwig t1). rewrite <- Etl.
  destruct (ti_youngest _ _ (la_inv _ _ _ _ _ _ Hla)) as (t & Ht & _). rewrite (la_young _ _ _ _ _ _ Hla) in Ht.
  destruct (Z.eqb_spec (N mod 2048) 0) as [Z0|Z0].
  { unfold get_twig. rewrite Ht. cbn [mbind outcome_bind mret outcome_ret]. eexists. split; [done|].
    by eapply append_first. }
  change TwigMask with 2047. destruct (Z.eqb_spec (N mod 2048) 2047) as [Zl|Zl].
  2:{ eexists. split; [done|]. by eapply append_middle. }
  destruct (syncMT4YoungestTwig_ok tl O (la_inv _ _ _ _ _ _ Hla)) as
    (ts & Es & Hinv2 & Hs1 & Ey & Et & Ed & En & Eef2 & Etf & Edl & Htw & Hlv).
  rewrite Es. cbn [mbind outcome_bind].
  destruct (syncMT4YoungestTwig_frame _ _ Es) as [Hh32 _].
  specialize (Hh32 ltac:(rewrite (la_mt _ _ _ _ _ _ Hla); apply Hfiles)).
  pose proof (la_twigs _ _ _ _ _ _ Hla (youngestTwigID tree)) as Hfr. rewrite Ht in Hfr.
  destruct (activeTwigs tree !! youngestTwigID tree) as [t0|] eqn:E0; [|inversion Hfr].
  inversion Hfr as [? ? [Ef0 _]|]; subst.
  pose proof (Htw (youngestTwigID tree)) as Hfr2. rewrite Ht in Hfr2.
  destruct (activeTwigs ts !! youngestTwigID tree) as [t2|] eqn:E2; [|inversion Hfr2].
  inversion Hfr2 as [? ? [_ Ef2]|]; subst.
  unfold get_twig at 1. rewrite E2. cbn [mbind outcome_bind mret outcome_ret].
  destruct (fi_mt _ _ Hfiles) as (Hokt & Hlimt & Hszt).
  rewrite <- (la_tf _ _ _ _ _ _ Hla), <- Etf in Hokt, Hlimt, Hszt.
  pose proof (fi_first _ _ Hfiles t0 ltac:(lia) E0) as Hfp.
  destruct (AppendTwig_ok (twigMtFile ts) (youngestTwigID tree) (drop 1 (mtree4YoungestTwig ts)) (FirstEntryPos t2))
    as (tf & Etw & Hoktf & Ktf & Sztf & Hsto); [done|done|done|congruence| |by apply hashes32_drop|].
  { unfold zlen, TwigMtEntryCount. rewrite length_drop. pose proof (ti_mt_len _ _ Hinv2) as Hl. unfold zlen in Hl. lia. }
  rewrite Etw. cbn [mbind outcome_bind]. eexists. split; [reflexivity|].
  change (appended tree (next_twig ts tf N) O N (record e sns)).
  eapply (append_last tree _ O N ef (b0, b1) (record e sns) Hfiles Hseq Hla Hef Ke Hh Sz ts tf t2); try done; [lia|].
  rewrite <- (la_tf _ _ _ _ _ _ Hla), <- Etf. exact Ktf.
Qed.
End append.
