(* ===== verification/TreeRun.v ===== *)
(** * The data tree as a state machine

    The operations of a block - append the next entry, deactivate an entry,
    evict a twig, end the block - are the steps of [tree_run]; every tree they
    lead to from an empty one satisfies the invariant, and its next [EndBlock]
    passes the checks of check.go. *)
From S2P Require Import Prelude Types EntryCodec Hasher AppendFile HPFile EntryFile TwigMtFile.
From S2P Require Import Twig YoungestTwig Tree ActiveBits UpperNodes TreeInv TreeAppend.

#[local] Opaque Pos null_node NullNodeInHigherTree NullTwig hash2 Z.pow NullMT4Twig.

Section run.
Context `{Hsha : !Sha256, Hmeow : !Meow} {F : Type} `{!AppendFile F, !AppendFileLaws F}.
Implicit Types (tree : Tree F).

(** C12: at the end of a block the tree is consistent. From a tree on which
    the invariant holds and whose first twig is full, [EndBlock] succeeds
    (in the first twig it panics: see [EndBlock_in_first_twig_panics]); the
    result passes every check of check.go - the twigs, the upper nodes and
    the Merkle tree of the youngest twig -, the root it returns is the top
    node, the evicted twigs are gone from memory with their roots kept, both
    files are flushed, and the invariant holds again. *)
Theorem EndBlock_consistent tree O : tree_inv tree O → 0 < youngestTwigID tree →
  af_ok (entryFile tree) → af_ok (twigMtFile tree) →
  ∃ tree' root, EndBlock tree = Ret (tree', root) ∧ CheckHashConsistency tree' = Ret tt ∧
    nodes tree' !! Pos (calcMaxLevel (youngestTwigID tree')) 0 = Some root ∧
    (∀ id, id ∈ twigsToBeDeleted tree → activeTwigs tree' !! id = None ∧
      is_Some (nodes tree' !! Pos 12 id)) ∧
    af_flushed (entryFile tree') ∧ af_flushed (twigMtFile tree') ∧ tree_inv tree' O.
Proof.
  intros Hinv Hy Hef Htf. destruct (EndBlock_ok tree O Hinv Hy Hef Htf) as (t1 & tree' & root & E & Hsy &
    Hsy1 & Hsd & Etd & Ey & Edl & Em & Hgr & Ha & Hroot & H1 & H2 & H3 & H4 & H5 & H6 & H7 & H8).
  exists tree', root. split_and!; [done|eapply synced_check; [done|lia]|by rewrite Ey| |done|done|apply Hsy].
  intros id Hid. rewrite Ha, decide_True by done. split; [done|].
  destruct (ti_evict _ _ Hinv) as [_ Hev]. destruct (Hev id Hid) as [_ [t Ht]].
  pose proof (ui_twigs _ _ _ _ (ti_upper _ _ Hinv) id ltac:(by eexists)) as Hidr.
  destruct (ui_range _ _ _ _ (ti_upper _ _ Hinv)) as [HO HY].
  specialize (Hgr id ltac:(lia)). unfold getTwigRoot, FirstLevelAboveTwig in Hgr.
  rewrite Ha, decide_True in Hgr by done. change (13 - 1) with 12 in Hgr.
  pose proof (sd_twigs _ _ Hsd id) as Hfr. rewrite Ht in Hfr.
  destruct (activeTwigs t1 !! id); [|inversion Hfr]. rewrite Hgr. by eexists.
Qed.

Lemma EndBlock_seq_files tree O N tree' root : tree_inv tree O → seq_inv tree N → files_inv tree N →
  0 < youngestTwigID tree → EndBlock tree = Ret (tree', root) → seq_inv tree' N ∧ files_inv tree' N.
Proof.
  intros Hinv [HN HY Hend] [F1 F2 F3 F4 F5] Hy E.
  destruct (EndBlock_ok tree O Hinv Hy (proj1 F1) (proj1 F2)) as (t1 & tree2 & root2 & E2 & Hsy &
    Hsy1 & Hsd & Etd & Ey & Edl & Em & Hgr & Ha & Hroot & H1 & H2 & H3 & H4 & H5 & H6 & H7 & H8).
  rewrite E in E2. injection E2 as <- <-. split.
  - split; [done|by rewrite Ey|]. intros Hne. by destruct Hne; apply Hsy.
  - destruct Hsd as [D1 D2 D3 D4 D5 D6 D7 D8].
    assert (∀ id t, activeTwigs tree' !! id = Some t → ∃ t0, activeTwigs tree !! id = Some t0 ∧
      FirstEntryPos t = FirstEntryPos t0 ∧ (id ≠ youngestTwigID tree → leftRoot t = leftRoot t0)) as Htw.
    { intros id t Ht. rewrite Ha in Ht. case_decide; [done|]. specialize (D6 id). rewrite Ht in D6.
      destruct (activeTwigs tree !! id) as [t0|]; [|inversion D6].
      inversion D6 as [? ? [[_ X1] X2]|]; subst. eauto. }
    split.
    + rewrite H7. split_and!; [done|apply F1|apply F1].
    + rewrite H8, Ey. split_and!; [done|rewrite (af_limit_keeps _ _ H5); apply F2|apply F2].
    + rewrite Ey. intros t H0 Ht. destruct (Htw _ _ Ht) as (t0 & Ht0 & -> & _). by apply F3.
    + rewrite Em. by apply D7.
    + rewrite Ey. intros id t Hne Ht. destruct (Htw _ _ Ht) as (t0 & Ht0 & _ & El).
      rewrite El by done. eapply twig_on_disk_keeps; [done|]. by apply F5.
Qed.

(** ** New trees, appends, deactivations, evictions *)

Lemma NewEmptyTree_ok (ef tf : F) : af_ok ef → af_ok tf → 32 ≤ af_limit tf → af_Size ef = 0 → af_Size tf = 0 →
  tree_inv (NewEmptyTree ef tf) 0 ∧ seq_inv (NewEmptyTree ef tf) 0 ∧ files_inv (NewEmptyTree ef tf) 0.
Proof.
  intros Hef Htf Hlim Se St. split_and!.
  - split; cbn [youngestTwigID activeTwigs touchedPosOf512b mtree4YoungestTwig leave4YoungestTwig
      mtree4YTChangeStart twigsToBeDeleted NewEmptyTree].
    + split; cbn [youngestTwigID activeTwigs nodes NewEmptyTree].
      * lia.
      * intros u (i & Hi & _). cbn in Hi. set_solver.
      * intros id [x Hx]. apply lookup_singleton_Some in Hx as [<- _]. lia.
      * intros q [x Hx]. apply lookup_singleton_Some in Hx as [<- _]. exists 13, 0.
        split_and!; [done|done|done|done|]. left. done.
      * intros L n HL Hn. assert (L = 12) as -> by (change (calcMaxLevel 0) with 12 in HL; lia).
        rewrite anc_12 in Hn. change (anc 0 (12 + 1)) with 0 in Hn. assert (n = 0) as -> by lia.
        left. unfold child, getTwigRoot. cbn [activeTwigs NewEmptyTree]. change (12 =? 12) with true. cbv iota.
        rewrite lookup_singleton_eq. by eexists.
      * intros L n HL. change (calcMaxLevel 0) with 12 in HL. lia.
    + split; [|intros i Hi; set_solver]. intros id t Ht. apply lookup_singleton_Some in Ht as [<- <-].
      destruct NullTwig_ok as [Hs [O1 O2 O3 O4]]. split_and!; auto.
    + exists NullTwig. split; [apply lookup_singleton_eq|]. intros _. apply NullTwig_leftRoot.
    + apply zlen_NullMT4Twig.
    + by rewrite zlen_replicate.
    + intros _. split; [apply NullMT4Twig_ok|]. intros i [b Hb]. unfold zget in Hb.
      destruct (0 <=? i); [|done]. by apply lookup_replicate in Hb as [? _].
    + intros Hne. by destruct Hne.
    + split; [constructor|]. intros id Hid. by apply elem_of_nil in Hid.
  - split; [done|done|]. intros Hne. by destruct Hne.
  - split; cbn [entryFile twigMtFile youngestTwigID activeTwigs mtree4YoungestTwig NewEmptyTree].
    + rewrite Se. done.
    + rewrite St. done.
    + intros t Hne. by destruct Hne.
    + intros h Hh. by apply NullMT4Twig_hashes.
    + intros id t Hne Ht. apply lookup_singleton_Some in Ht as [<- _]. done.
Qed.

Lemma AppendEntry_appended tree O N e : tree_inv tree O → seq_inv tree N → files_inv tree N →
  N / 2048 + 1 < 2 ^ 50 → SerialNum e = N →
  zlen (record e (deactivedSNList tree)) ≤ af_limit (entryFile tree) →
  ∃ tree', AppendEntry tree e = Ret (tree', af_Size (entryFile tree)) ∧
    appended (set_deactived tree []) tree' O N (record e (deactivedSNList tree)).
Proof.
  intros Hinv Hseq Hfiles HN He Hlim. unfold AppendEntry. rewrite He.
  apply (appendEntry_ok (set_deactived tree [])); [..|done|by rewrite app_nil_r|done].
  - destruct Hinv as [[H1 H2 H3 H4 H5 H6] Hto Hyo Hml Hll Hcl Hch Hev]. split; try done.
  - destruct Hseq. by split.
  - destruct Hfiles. by split.
Qed.

Lemma AppendEntryRawBytes_appended tree O N e n : tree_inv tree O → seq_inv tree N → files_inv tree N →
  N / 2048 + 1 < 2 ^ 50 →
  zlen (record e (deactivedSNList tree)) ≤ af_limit (entryFile tree) →
  ∃ tree', AppendEntryRawBytes tree (raw_bytes n e) N = Ret (tree', af_Size (entryFile tree)) ∧
    appended (set_deactived tree []) tree' O N (record e (deactivedSNList tree)).
Proof.
  intros Hinv Hseq Hfiles HN Hlim. unfold AppendEntryRawBytes. rewrite store_index_Ret by (unfold raw_bytes; rewrite zlen_app, zlen_cons, zlen_nil; pose proof (zlen_nonneg (PutUint24 (body_length e) ++ entry_body e)); lia).
  cbn [mbind outcome_bind].
  apply (appendEntry_ok (set_deactived tree [])); [..|done|apply raw_bytes_append|done].
  - destruct Hinv as [[H1 H2 H3 H4 H5 H6] Hto Hyo Hml Hll Hcl Hch Hev]. split; try done.
  - destruct Hseq. by split.
  - destruct Hfiles. by split.
Qed.

(** C15: appending an entry with the next serial number succeeds: the entry
    goes to the end of the entry file together with the pending list of
    deactivated serial numbers, which is emptied; its bit and no other bit is
    set; when the twig is full, its Merkle tree has gone to the twig file and a
    fresh twig has taken its place; after a flush the entry is read back at the
    returned position; and the invariants hold for the next serial number. *)
Theorem AppendEntry_correct tree O N e :
  tree_inv tree O → seq_inv tree N → files_inv tree N → N / 2048 + 1 < 2 ^ 50 → SerialNum e = N →
  entry_ok e → zlen (deactivedSNList tree) < 256 →
  zlen (record e (deactivedSNList tree)) ≤ af_limit (entryFile tree) →
  ∃ tree', AppendEntry tree e = Ret (tree', af_Size (entryFile tree)) ∧
    tree_inv tree' O ∧ seq_inv tree' (N + 1) ∧ files_inv tree' (N + 1) ∧ deactivedSNList tree' = [] ∧
    (∀ sn, 0 ≤ sn → is_Some (activeTwigs tree !! (sn / 2048)) →
      GetActiveBit tree' sn = if decide (sn = N) then Ret true else GetActiveBit tree sn) ∧
    (∃ ef, af_Flush (entryFile tree') = Ret ef ∧
      ReadEntry ef (af_Size (entryFile tree)) = Ret (ef, (read_back e, af_Size (entryFile tree')))).
Proof.
  intros Hinv Hseq Hfiles HN He Hok Hsn Hlim.
  destruct (AppendEntry_appended tree O N e) as (tree' & E & [A1 A2 A3 [A4 A4'] A5 A6 A7 A8 A9 A10]); [done..|].
  exists tree'. split_and!; [done|done|done|done|done|exact A9|].
  destruct (af_Flush_ok _ (proj1 (fi_entry _ _ A3))) as (ef & Ef & _ & K & Hfl & _).
  exists ef. split; [done|]. cbn [entryFile set_deactived] in *. rewrite A6.
  apply (ReadEntry_ok ef _ e (deactivedSNList tree) []); [done|done|]. rewrite app_nil_r.
  apply af_durable_flushed; [done|]. by eapply af_holds_keeps.
Qed.

Lemma same_but_bits_inv tree tree' N : same_but_bits tree tree' → seq_inv tree N → files_inv tree N →
  seq_inv tree' N ∧ files_inv tree' N.
Proof.
  intros [B1 B2 B3 B4 B5 B6 B7 B8] [HN HY Hend] [F1 F2 F3 F4 F5]. split.
  - split; [done|by rewrite B1|by rewrite B6, B7].
  - assert (∀ id t, activeTwigs tree' !! id = Some t → ∃ t0, activeTwigs tree !! id = Some t0 ∧
      FirstEntryPos t = FirstEntryPos t0 ∧ leftRoot t = leftRoot t0) as Htw.
    { intros id t Ht. specialize (B8 id). rewrite Ht in B8.
      destruct (activeTwigs tree !! id) as [t0|]; [|inversion B8].
      inversion B8 as [? ? [X1 X2]|]; subst. eauto. }
    split; rewrite ?B1, ?B2, ?B3, ?B4; try done.
    + intros t H0 Ht. destruct (Htw _ _ Ht) as (t0 & Ht0 & -> & _). by apply F3.
    + intros id t Hne Ht. destruct (Htw _ _ Ht) as (t0 & Ht0 & _ & ->). by apply F5.
Qed.

(** C36: deactivating an entry clears its bit and no other, queues its serial
    number for the next record and returns the length of the queue. *)
Theorem DeactiviateEntry_correct tree O N sn :
  tree_inv tree O → seq_inv tree N → files_inv tree N → 0 ≤ sn → O ≤ sn / 2048 →
  is_Some (activeTwigs tree !! (sn / 2048)) →
  ∃ tree', DeactiviateEntry tree sn = Ret (tree', zlen (deactivedSNList tree) + 1) ∧
    tree_inv tree' O ∧ seq_inv tree' N ∧ files_inv tree' N ∧
    deactivedSNList tree' = deactivedSNList tree ++ [sn] ∧
    (∀ sn', 0 ≤ sn' → is_Some (activeTwigs tree !! (sn' / 2048)) →
      GetActiveBit tree' sn' = if decide (sn' = sn) then Ret false else GetActiveBit tree sn').
Proof.
  intros Hinv Hseq Hfiles Hsn HO Hact.
  destruct (setEntryActiviation_ok tree O sn false Hinv Hsn HO Hact) as
    (tree' & E & Hinv' & Hsb & _ & _ & Edl & _ & Hbits).
  destruct (same_but_bits_inv _ _ _ Hsb Hseq Hfiles) as [Hseq' Hfiles'].
  exists tree'. unfold DeactiviateEntry. rewrite E. cbn [mbind outcome_bind mret outcome_ret].
  rewrite Edl. split_and!; [f_equal; f_equal; zlen|done|done|done|done|done].
Qed.

Lemma EvictTwig_inv tree O id : tree_inv tree O → id ≠ youngestTwigID tree →
  is_Some (activeTwigs tree !! id) → id ∉ twigsToBeDeleted tree → tree_inv (EvictTwig tree id) O.
Proof.
  intros [[H1 H2 H3 H4 H5 H6] Hto Hyo Hml Hll Hcl Hch [Hnd Hev]] Hne Hact Hni. split; try done.
  cbn. split.
  - rewrite <- Permutation_cons_append. by constructor.
  - intros id' [Hid|Hid]%elem_of_app; [by apply Hev|].
    by apply list_elem_of_singleton in Hid as ->.
Qed.

(** ** Runs *)

Inductive tree_run (ef tf : F) : Tree F → Z → Prop :=
| run_new : tree_run ef tf (NewEmptyTree ef tf) 0
| run_append tree N e tree' pos :
    tree_run ef tf tree N → N / 2048 + 1 < 2 ^ 50 → SerialNum e = N → entry_ok e →
    zlen (deactivedSNList tree) < 256 →
    zlen (record e (deactivedSNList tree)) ≤ af_limit (entryFile tree) →
    AppendEntry tree e = Ret (tree', pos) → tree_run ef tf tree' (N + 1)
| run_deactivate tree N sn tree' n :
    tree_run ef tf tree N → 0 ≤ sn → is_Some (activeTwigs tree !! (sn / 2048)) →
    DeactiviateEntry tree sn = Ret (tree', n) → tree_run ef tf tree' N
| run_evict tree N id :
    tree_run ef tf tree N → id ≠ youngestTwigID tree → is_Some (activeTwigs tree !! id) →
    id ∉ twigsToBeDeleted tree → tree_run ef tf (EvictTwig tree id) N
| run_EndBlock tree N tree' root :
    tree_run ef tf tree N → 2048 ≤ N → EndBlock tree = Ret (tree', root) → tree_run ef tf tree' N.

Lemma tree_run_inv (ef tf : F) tree N : af_ok ef → af_ok tf → 32 ≤ af_limit tf → af_Size ef = 0 → af_Size tf = 0 →
  tree_run ef tf tree N → tree_inv tree 0 ∧ seq_inv tree N ∧ files_inv tree N.
Proof.
  intros Hef Htf Hlim Se St. induction 1 as [|tree N e tree' pos Hrun (I1 & I2 & I3) HN He Hok Hsn Hl E|
    tree N sn tree' n Hrun (I1 & I2 & I3) Hsn Hact E|tree N id Hrun (I1 & I2 & I3) Hne Hact Hni|
    tree N tree' root Hrun (I1 & I2 & I3) HN E].
  - by apply NewEmptyTree_ok.
  - destruct (AppendEntry_appended tree 0 N e) as (t & E' & [A1 A2 A3]); [done..|].
    rewrite E in E'. injection E' as <- _. done.
  - destruct (setEntryActiviation_ok tree 0 sn false I1 Hsn) as
      (t & E' & Hinv' & Hsb & _ & _ & Edl & _ & _); [apply Z.div_pos; lia|done|].
    unfold DeactiviateEntry in E. rewrite E' in E. injection E as <- _.
    split; [done|]. by eapply same_but_bits_inv.
  - split_and!; [by apply EvictTwig_inv|by destruct I2; split|by destruct I3; split].
  - assert (0 < youngestTwigID tree) as Hy by (rewrite (sq_young _ _ I2); zdiv).
    destruct (EndBlock_seq_files _ _ _ _ _ I1 I2 I3 Hy E) as [J2 J3].
    destruct (EndBlock_ok tree 0 I1 Hy (proj1 (fi_entry _ _ I3)) (proj1 (fi_mt _ _ I3))) as
      (t1 & t2 & r2 & E2 & Hsy & _). rewrite E in E2. injection E2 as <- _. split_and!; [apply Hsy|done|done].
Qed.

(** C4: every tree that appends, deactivations, evictions and earlier blocks
    lead to from an empty one satisfies the invariants, and once the first twig
    is full, ending the block succeeds and leaves a tree that passes the checks
    of check.go. *)
Theorem tree_run_consistent (ef tf : F) tree N :
  af_ok ef → af_ok tf → 32 ≤ af_limit tf → af_Size ef = 0 → af_Size tf = 0 → tree_run ef tf tree N →
  (tree_inv tree 0 ∧ seq_inv tree N ∧ files_inv tree N) ∧
  (2048 ≤ N → ∃ tree' root, EndBlock tree = Ret (tree', root) ∧ CheckHashConsistency tree' = Ret tt ∧
    tree_run ef tf tree' N).
Proof.
  intros Hef Htf Hlim Se St Hrun. destruct (tree_run_inv ef tf tree N Hef Htf Hlim Se St Hrun) as (I1 & I2 & I3).
  split; [done|]. intros HN. assert (0 < youngestTwigID tree) as Hy by (rewrite (sq_young _ _ I2); zdiv).
  destruct (EndBlock_ok tree 0 I1 Hy (proj1 (fi_entry _ _ I3)) (proj1 (fi_mt _ _ I3))) as
    (t1 & tree' & root & E & Hsy & _ & _ & _ & Ey & _).
  exists tree', root. split_and!; [done|eapply synced_check; [done|lia]|by eapply run_EndBlock].
Qed.

(** C37: a block that ends while the first twig is still the youngest one does
    not get a root: [calcMaxLevel] is one below the first level of nodes, the
    node looked up there does not exist, and [EndBlock] dereferences nil. *)
Theorem EndBlock_in_first_twig_panics tree O :
  tree_inv tree O → youngestTwigID tree = 0 → nodes tree !! Pos 12 0 = None →
  EndBlock tree = Panic "nil pointer dereference".
Proof.
  intros Hinv Hy Hnone. unfold EndBlock, syncMT. cbv zeta.
  destruct (syncMT4YoungestTwig_ok tree O Hinv) as (t1 & -> & Hinv1 & _ & Ey & _ & _ & En & _).
  cbn [mbind outcome_bind].
  destruct (syncMT4ActiveBits_ok t1 (ti_touched _ _ Hinv1)) as (m & nl & -> & _). cbn [mbind outcome_bind].
  unfold syncUpperNodes. cbn [youngestTwigID set_activeTwigs]. rewrite Ey, Hy.
  change (calcMaxLevel 0) with 12. change (seqZ FirstLevelAboveTwig (12 + 1 - FirstLevelAboveTwig)) with ([] : list Z).
  cbn [for_state mbind outcome_bind mret outcome_ret]. unfold get_node.
  cbn [nodes set_touched set_activeTwigs]. by rewrite En, Hnone.
Qed.
End run.

(** ** Witnesses: on [HPFile], with the toy hash functions *)

Section witness.
#[local] Existing Instance toy_sha256.
#[local] Existing Instance toy_meow.

(** Appending dummies, as many as one likes. *)
Lemma dummies_run (n : nat) : Z.of_nat n / 2048 + 1 < 2 ^ 50 →
  ∃ tree, tree_run (file_of []) (file_of []) tree (Z.of_nat n) ∧ deactivedSNList tree = [] ∧
    af_limit (entryFile tree) = 512 ∧ af_Size (entryFile tree) ≤ 512 * Z.of_nat n.
Proof.
  induction n as [|n IH]; intros Hn; [eexists; split; [apply run_new|split_and!; [done|done|vm_decide]]|].
  assert (Z.of_nat n / 2048 + 1 < 2 ^ 50) as Hn' by (pose proof (Z.div_le_mono (Z.of_nat n) (Z.of_nat (S n)) 2048); lia).
  destruct (IH Hn') as (tree & Hrun & Hd & Hl & Hsz).
  destruct (tree_run_inv (file_of []) (file_of []) tree (Z.of_nat n)) as (I1 & I2 & I3);
    [by apply file_of_ok|by apply file_of_ok|done|done|done|done|].
  assert (zlen (record (DummyEntry (Z.of_nat n)) []) ≤ 512) as Hrec.
  { pose proof (zlen_record (DummyEntry (Z.of_nat n)) [] 0) as E. rewrite Z.add_0_l in E. rewrite E. vm_decide. }
  assert (Z.of_nat n < 2 ^ 61) as Hsmall.
  { pose proof (Z.div_mod (Z.of_nat n) 2048 ltac:(lia)). pose proof (Z.mod_pos_bound (Z.of_nat n) 2048 ltac:(lia)). lia. }
  destruct (AppendEntry_appended tree 0 (Z.of_nat n) (DummyEntry (Z.of_nat n))) as (tree' & E & Ha);
    [done|done|done|done|done|by rewrite Hd, Hl|].
  exists tree'. replace (Z.of_nat (S n)) with (Z.of_nat n + 1) by lia. split_and!.
  - apply (run_append _ _ tree _ (DummyEntry (Z.of_nat n)) tree'
      (af_Size (entryFile tree)) Hrun);
      [done|done| |by rewrite Hd|by rewrite Hd, Hl|exact E].
    split_and!; [done|done|split; cbn; lia|vm_decide].
  - by rewrite (ap_deactived _ _ _ _ _ Ha).
  - rewrite <- Hl. apply (af_limit_keeps (entryFile tree)). apply (ap_keeps _ _ _ _ _ Ha).
  - rewrite (ap_size _ _ _ _ _ Ha). cbn [entryFile set_deactived]. rewrite Hd. lia.
Qed.

(** A tree with one full twig and seven more entries. *)
Lemma small_tree : ∃ tree, tree_run (file_of []) (file_of []) tree 2055 ∧
  (tree_inv tree 0 ∧ seq_inv tree 2055 ∧ files_inv tree 2055) ∧
  deactivedSNList tree = [] ∧ af_limit (entryFile tree) = 512 ∧ af_Size (entryFile tree) < 2 ^ 63.
Proof.
  destruct (dummies_run 2055) as (tree & Hrun & Hd & Hl & Hsz); [vm_decide|].
  exists tree. split; [exact Hrun|]. split; [|split_and!; [done|done|]].
  2:{ eapply Z.le_lt_trans; [exact Hsz|]. vm_decide. }
  destruct (tree_run_inv (file_of []) (file_of []) tree 2055) as (I1 & I2 & I3);
    [by apply file_of_ok|by apply file_of_ok|vm_decide|done|done|exact Hrun|by split_and!].
Qed.

Lemma EndBlock_consistent_witness : ∃ (tree tree' : Tree HPFile) root,
  EndBlock tree = Ret (tree', root) ∧ CheckHashConsistency tree' = Ret tt.
Proof.
  destruct small_tree as (tree & _ & (I1 & I2 & I3) & _).
  destruct (EndBlock_consistent tree 0 I1) as (tree' & root & E & Hc & _).
  - rewrite (sq_young _ _ I2). vm_decide.
  - apply I3.
  - apply I3.
  - by exists tree, tree', root.
Defined.

Lemma AppendEntry_correct_witness : ∃ (tree tree' : Tree HPFile),
  AppendEntry tree (DummyEntry 2055) = Ret (tree', af_Size (entryFile tree)) ∧ seq_inv tree' 2056.
Proof.
  destruct small_tree as (tree & _ & (I1 & I2 & I3) & Hd & Hl & _).
  destruct (AppendEntry_correct tree 0 2055 (DummyEntry 2055) I1 I2 I3) as (tree' & E & _ & Hs & _).
  - vm_decide.
  - done.
  - vm_decide.
  - by rewrite Hd.
  - rewrite Hd, Hl. vm_decide.
  - by exists tree, tree'.
Defined.

Lemma DeactiviateEntry_correct_witness : ∃ (tree tree' : Tree HPFile),
  DeactiviateEntry tree 2050 = Ret (tree', 1) ∧ deactivedSNList tree' = [2050].
Proof.
  destruct small_tree as (tree & _ & (I1 & I2 & I3) & Hd & _).
  destruct (DeactiviateEntry_correct tree 0 2055 2050 I1 I2 I3) as (tree' & E & _ & _ & _ & Edl & _).
  - done.
  - done.
  - destruct (ti_youngest _ _ I1) as (t & Ht & _). rewrite (sq_young _ _ I2) in Ht. by exists t.
  - rewrite Hd in E, Edl. by exists tree, tree'.
Defined.

Lemma tree_run_consistent_witness : ∃ (tree tree' : Tree HPFile) root,
  tree_run (file_of []) (file_of []) tree 2055 ∧ EndBlock tree = Ret (tree', root) ∧
  CheckHashConsistency tree' = Ret tt.
Proof.
  destruct small_tree as (tree & Hrun & _).
  destruct (tree_run_consistent (file_of []) (file_of []) tree 2055) as [_ H];
    [by apply file_of_ok|by apply file_of_ok|vm_decide|done|done|exact Hrun|].
  destruct H as (tree' & root & E & Hc & _); [done|]. by exists tree, tree', root.
Defined.

Lemma EndBlock_in_first_twig_panics_witness :
  EndBlock (NewEmptyTree (file_of []) (file_of [])) = Panic "nil pointer dereference".
Proof.
  apply (EndBlock_in_first_twig_panics (NewEmptyTree (file_of []) (file_of [])) 0).
  - apply NewEmptyTree_ok; [by apply file_of_ok|by apply file_of_ok|vm_decide|done|done].
  - done.
  - unfold NewEmptyTree. cbn [nodes]. rewrite lookup_singleton_ne; [done|]. vm_decide.
Defined.
End witness.
