(* ===== verification/MerkleProof.v ===== *)
(** * Merkle proofs (datatree/proof.go)

    A proof path goes from a leaf of a twig to the root: eleven nodes to the
    left root of the twig, three nodes from its active bits, and the nodes
    above. [ToBytes] and [BytesToProofPath] are its wire format, [Check] the
    verifier, [GetProof] the prover. The section [binding] shows that two
    accepted proofs are equal or exhibit a collision of SHA-256; [complete]
    that the prover's paths are accepted. *)
From S2P Require Import Prelude Types EntryCodec Hasher AppendFile HPFile EntryFile TwigMtFile.
From S2P Require Import Twig YoungestTwig Tree ActiveBits UpperNodes TreeInv TreeAppend TreeRun.

Record ProofNode : Type := mkNode { SelfHash : bytes; PeerHash : bytes; PeerAtLeft : bool }.

Record ProofPath : Type := mkPath {
  LeftOfTwig : list ProofNode;
  RightOfTwig : list ProofNode;
  UpperPath : list ProofNode;
  ppSerialNum : Z;
  ppRoot : bytes
}.

#[export] Instance ProofNode_eq_dec : EqDecision ProofNode.
Proof. solve_decision. Defined.
#[export] Instance ProofPath_eq_dec : EqDecision ProofPath.
Proof. solve_decision. Defined.

(** The sizes of the Go arrays. *)
Definition LeftLen : Z := 11.
Definition RightLen : Z := 3.
Definition OtherNodeCount : Z := 1 + 11 + 1 + 3 + 1.

Definition set_self (nd : ProofNode) (h : bytes) : ProofNode := mkNode h (PeerHash nd) (PeerAtLeft nd).

(** [path\[0\].SelfHash] and the assignment to it. *)
Definition first_self (l : list ProofNode) : bytes := default [] (SelfHash <$> head l).
Definition set_first_self (l : list ProofNode) (h : bytes) : list ProofNode :=
  match l with [] => [] | nd :: l => set_self nd h :: l end.

(** ** The wire format *)

Definition ToBytes (pp : ProofPath) : bytes :=
  le_bytes 8 (to_uint64 (ppSerialNum pp)) ++
  first_self (LeftOfTwig pp) ++ concat (PeerHash <$> LeftOfTwig pp) ++
  first_self (RightOfTwig pp) ++ concat (PeerHash <$> RightOfTwig pp) ++
  concat (PeerHash <$> UpperPath pp) ++ ppRoot pp.

Definition sn_bit (sn i : Z) : bool := Z.land (Z.shiftr sn i) 1 =? 1.

(** [copy(hash\[:\], bz\[:32\]); bz = bz\[32:\]] *)
Definition next32 (bz : bytes) : outcome (bytes * bytes) :=
  h ← slice bz 0 32; bz ← slice bz 32 (zlen bz); mret (h, bz).

(** A loop that reads the peers of a path, with the bits of the serial number
    from [bit] on. *)
Fixpoint read_peers (n : nat) (sn bit : Z) (bz : bytes) : outcome (list ProofNode * bytes) :=
  match n with
  | O => mret ([], bz)
  | S n =>
      '(h, bz) ← next32 bz;
      '(l, bz) ← read_peers n sn (bit + 1) bz;
      mret (mkNode zero32 h (sn_bit sn bit) :: l, bz)
  end.

(** [None] is the error "Invalid byte slice length". *)
Definition BytesToProofPath (bz : bytes) : outcome (option ProofPath) :=
  let n := zlen bz - 8 in
  let upperCount := Z.quot n 32 - OtherNodeCount in
  if negb (Z.rem n 32 =? 0) || (upperCount <? 0) then mret None
  else
    sn8 ← slice bz 0 8;
    let sn := to_int64 (le_val sn8) in
    bz ← slice bz 8 (zlen bz);
    '(leafHash, bz) ← next32 bz;
    '(left_, bz) ← read_peers (Z.to_nat LeftLen) sn 0 bz;
    '(bits, bz) ← next32 bz;
    '(right_, bz) ← read_peers (Z.to_nat RightLen) sn 8 bz;
    '(upper, bz) ← read_peers (Z.to_nat upperCount) sn (FirstLevelAboveTwig - 2) bz;
    root ← slice bz 0 32;
    mret (Some (mkPath (set_first_self left_ leafHash) (set_first_self right_ bits) upper sn root)).

(** ** The verifier *)

Inductive proof_error : Type :=
| ErrLeft (level : Z)
| ErrRight (level : Z)
| ErrTwigTop
| ErrUpper (level : Z)
| ErrRoot.

Section check.
Context `{Hsha : !Sha256}.

Definition node_hash (level : Z) (nd : ProofNode) : bytes :=
  if PeerAtLeft nd then hash2 (to_uint 8 level) (PeerHash nd) (SelfHash nd)
  else hash2 (to_uint 8 level) (SelfHash nd) (PeerHash nd).

(** The loop over a path: every hash is stored in the next node when
    [complete], compared with it otherwise. The result is the path and the
    level of a mismatch or the hash of the last node. *)
Fixpoint climb (complete : bool) (level : Z) (nd : ProofNode) (rest : list ProofNode) :
    list ProofNode * (Z + bytes) :=
  let res := node_hash level nd in
  match rest with
  | [] => ([nd], inr res)
  | nx :: rest' =>
      if complete then
        let '(l, r) := climb complete (level + 1) (set_self nx res) rest' in (nd :: l, r)
      else if bool_decide (res = SelfHash nx) then
        let '(l, r) := climb complete (level + 1) nx rest' in (nd :: l, r)
      else (nd :: rest, inl level)
  end.

Definition climb_path (complete : bool) (level : Z) (path : list ProofNode) :
    outcome (list ProofNode * (Z + bytes)) :=
  match path with
  | [] => Panic "index out of range"
  | nd :: rest => mret (climb complete level nd rest)
  end.

(** The check of the twig root against the first node of the upper path. *)
Definition twig_top (complete : bool) (upper : list ProofNode) (twigRoot : bytes) :
    outcome (option (list ProofNode)) :=
  match upper with
  | [] => Panic "index out of range"
  | nd :: rest =>
      if complete then mret (Some (set_self nd twigRoot :: rest))
      else mret (if bool_decide (twigRoot = SelfHash nd) then Some upper else None)
  end.

Definition ProofPath_Check (complete : bool) (pp : ProofPath) : outcome (ProofPath * option proof_error) :=
  let 'mkPath left_ right_ upper sn root := pp in
  '(left_, r) ← climb_path complete 0 left_;
  match r with
  | inl level => mret (mkPath left_ right_ upper sn root, Some (ErrLeft level))
  | inr leafMTRoot =>
  '(right_, r) ← climb_path complete 8 right_;
  match r with
  | inl level => mret (mkPath left_ right_ upper sn root, Some (ErrRight (level - 8)))
  | inr activeBitsMTL3 =>
  top ← twig_top complete upper (hash2 11 leafMTRoot activeBitsMTL3);
  match top with
  | None => mret (mkPath left_ right_ upper sn root, Some ErrTwigTop)
  | Some upper =>
  '(upper, r) ← climb_path complete (FirstLevelAboveTwig - 1) upper;
  mret (mkPath left_ right_ upper sn root,
    match r with
    | inl level => Some (ErrUpper level)
    | inr res => if bool_decide (res = root) then None else Some ErrRoot
    end)
  end end end.
End check.

(** ** The prover *)

Section prover.
Context `{Hsha : !Sha256, Hmeow : !Meow} {F : Type} `{!AppendFile F}.
Implicit Types (tree : Tree F).

(** The loop of [getUpperPathAndRoot]; [fuel] bounds [maxLevel - level]. *)
Fixpoint upper_nodes tree (fuel : nat) (level n : Z) : outcome (list ProofNode) :=
  match fuel with
  | O => mret []
  | S fuel =>
      self ← get_node tree (Pos level n);
      peer ← get_node tree (Pos level (Z.lxor n 1));
      rest ← upper_nodes tree fuel (level + 1) (Z.quot n 2);
      mret (mkNode self peer (negb (Z.land n 1 =? 0)) :: rest)
  end.

(** [None] is a nil path: the twig has been pruned. *)
Definition getUpperPathAndRoot tree (twigID : Z) : outcome (option (list ProofNode * bytes)) :=
  let maxLevel := calcMaxLevel (youngestTwigID tree) in
  let peerHash := default (twigRoot NullTwig) (getTwigRoot tree (Z.lxor twigID 1)) in
  match getTwigRoot tree twigID with
  | None => mret None
  | Some selfHash =>
      rest ← upper_nodes tree (Z.to_nat (maxLevel - FirstLevelAboveTwig)) FirstLevelAboveTwig (Z.quot twigID 2);
      root ← get_node tree (Pos maxLevel 0);
      mret (Some (mkNode selfHash peerHash (negb (Z.land twigID 1 =? 0)) :: rest, root))
  end.

Definition right_node (arr : list bytes) (self : Z) : outcome ProofNode :=
  let peer := Z.lxor self 1 in
  s ← index arr self;
  p ← index arr peer;
  mret (mkNode s p (Z.land peer 1 =? 0)).

Definition getRightPath (twig : Twig) (sn : Z) : outcome (list ProofNode) :=
  let n := Z.land sn TwigMask in
  let self := Z.quot n 256 in
  let peer := Z.lxor self 1 in
  s ← slice (activeBits twig) (self * 32) (self * 32 + 32);
  p ← slice (activeBits twig) (peer * 32) (peer * 32 + 32);
  n1 ← right_node (activeBitsMTL1 twig) (Z.quot n 512);
  n2 ← right_node (activeBitsMTL2 twig) (Z.quot n 1024);
  mret [mkNode s p (Z.land peer 1 =? 0); n1; n2].

(** [getLeftPath] for a reader of hashes with a state of its own. *)
Definition left_node {S} (getHash : S → Z → outcome (S * bytes)) (n : Z) (st : S * list ProofNode)
    (level : Z) : outcome (S * list ProofNode) :=
  let '(s, acc) := st in
  let stripe := Z.shiftr 2048 level in
  let self := Z.shiftr n level in
  let peer := Z.lxor self 1 in
  '(s, selfHash) ← getHash s (stripe + self);
  '(s, peerHash) ← getHash s (stripe + peer);
  mret (s, acc ++ [mkNode selfHash peerHash (Z.land peer 1 =? 0)]).

Definition getLeftPath {S} (getHash : S → Z → outcome (S * bytes)) (s : S) (sn : Z) :
    outcome (S * list ProofNode) :=
  for_state (left_node getHash (Z.land sn TwigMask)) (s, []) (seqZ 0 11).

Definition getLeftPathInMem (mt4twig : list bytes) (sn : Z) : outcome (list ProofNode) :=
  '(_, left_) ← getLeftPath (λ mt i, h ← index mt i; mret (mt, h)) mt4twig sn;
  mret left_.

Definition getLeftPathOnDisk (tf : F) (twigID sn : Z) : outcome (F * list ProofNode) :=
  getLeftPath (λ tf i, GetHashNode tf twigID i) tf sn.

(** [None] is a nil path. *)
Definition GetProof tree (sn : Z) : outcome (Tree F * option ProofPath) :=
  let twigID := Z.shiftr sn TwigShift in
  _ ← require (negb ((twigID >? youngestTwigID tree) || (twigID <? 0))) "Invalid sn";
  up ← getUpperPathAndRoot tree twigID;
  match up with
  | None => mret (tree, None)
  | Some (upper, root) =>
      '(tree, left_) ← (if twigID =? youngestTwigID tree then
          l ← getLeftPathInMem (mtree4YoungestTwig tree) sn; mret (tree, l)
        else
          '(tf, l) ← getLeftPathOnDisk (twigMtFile tree) twigID sn;
          mret (set_twigMtFile tree tf, l));
      right_ ← getRightPath (default NullTwig (activeTwigs tree !! twigID)) sn;
      mret (tree, Some (mkPath left_ right_ upper sn root))
  end.
End prover.

#[local] Opaque Pos null_node NullNodeInHigherTree NullTwig hash2 Z.pow NullMT4Twig.

(** ** What an accepted path is *)

Section accepted.
Context `{Hsha : !Sha256}.
Implicit Types (nd nx : ProofNode) (rest : list ProofNode).

(** Every node of the path carries the hash of the one below; [top] is the
    hash of the last. *)
Fixpoint chain (level : Z) nd rest (top : bytes) : Prop :=
  match rest with
  | [] => node_hash level nd = top
  | nx :: rest => node_hash level nd = SelfHash nx ∧ chain (level + 1) nx rest top
  end.

(** The nodes but for their own hashes, which [complete] fills in. *)
Definition strip (nd : ProofNode) : ProofNode := set_self nd zero32.

Lemma set_self_strip nd : set_self (strip nd) (SelfHash nd) = nd.
Proof. by destruct nd. Qed.

Lemma climb_chain (complete : bool) level nd rest l top :
  climb complete level nd rest = (l, inr top) →
  ∃ rest', l = nd :: rest' ∧ chain level nd rest' top ∧ strip <$> rest' = strip <$> rest ∧
    (complete = false → rest' = rest).
Proof.
  revert level nd l. induction rest as [|nx rest IH]; intros level nd l; cbn.
  { intros [= <- <-]. by exists []. }
  destruct complete.
  - destruct (climb true (level + 1) _ rest) as [l' r] eqn:E. intros [= <- ->].
    destruct (IH _ _ _ E) as (rest' & -> & Hc & Hs & _). eexists. split_and!; [done|split; [done|exact Hc]| |done].
    cbn. by rewrite Hs.
  - case_bool_decide as Hh; [|done].
    destruct (climb false (level + 1) nx rest) as [l' r] eqn:E. intros [= <- ->].
    destruct (IH _ _ _ E) as (rest' & -> & Hc & Hs & Hf). rewrite (Hf eq_refl) in *. by exists (nx :: rest).
Qed.

Lemma chain_climb (complete : bool) level nd rest top : chain level nd rest top →
  climb complete level nd (if complete then strip <$> rest else rest) = (nd :: rest, inr top).
Proof.
  revert level nd. induction rest as [|nx rest IH]; intros level nd.
  { intros <-. by destruct complete. }
  intros [Hh Hc]. specialize (IH _ _ Hc). destruct complete; cbn [climb fmap list_fmap].
  - rewrite Hh, set_self_strip. cbn in IH. by rewrite IH.
  - rewrite bool_decide_true by done. by rewrite IH.
Qed.

(** The path of a proof that [Check] accepts, with the parts named. *)
Record accepted (pp : ProofPath) : Prop := mk_accepted {
  ac_shape : ∃ l0 ls r0 rs u0 us lroot bits3, LeftOfTwig pp = l0 :: ls ∧ RightOfTwig pp = r0 :: rs ∧
    UpperPath pp = u0 :: us ∧ chain 0 l0 ls lroot ∧ chain 8 r0 rs bits3 ∧
    hash2 11 lroot bits3 = SelfHash u0 ∧ chain 12 u0 us (ppRoot pp)
}.

Definition stripped (l : list ProofNode) : list ProofNode :=
  match l with [] => [] | nd :: l => nd :: (strip <$> l) end.

(** What the wire format carries of a proof. *)
Definition strip_path (pp : ProofPath) : ProofPath :=
  mkPath (stripped (LeftOfTwig pp)) (stripped (RightOfTwig pp)) (strip <$> UpperPath pp)
    (ppSerialNum pp) (ppRoot pp).

Lemma Check_accepted (complete : bool) pp pp' : ProofPath_Check complete pp = Ret (pp', None) →
  accepted pp' ∧ strip_path pp' = strip_path pp ∧ (complete = false → pp' = pp).
Proof.
  destruct pp as [[|l0 ls] [|r0 rs] us sn root]; cbn [ProofPath_Check climb_path mbind outcome_bind mret outcome_ret];
    try done.
  - by destruct (climb complete 0 l0 ls) as [? [?|?]].
  - destruct (climb complete 0 l0 ls) as [l [?|lroot]] eqn:El; [done|].
    destruct (climb complete 8 r0 rs) as [r [?|b3]] eqn:Er; [done|].
    destruct (climb_chain _ _ _ _ _ _ El) as (ls' & -> & Hcl & Hsl & Hfl).
    destruct (climb_chain _ _ _ _ _ _ Er) as (rs' & -> & Hcr & Hsr & Hfr).
    destruct us as [|u0 us]; [done|]. cbn [twig_top].
    assert (∀ v0, SelfHash v0 = hash2 11 lroot b3 → strip v0 = strip u0 → (complete = false → v0 = u0) →
      ('(upper, r) ← climb_path complete (FirstLevelAboveTwig - 1) (v0 :: us);
       mret (mkPath (l0 :: ls') (r0 :: rs') upper sn root,
         match r with inl level => Some (ErrUpper level)
         | inr res => if bool_decide (res = root) then None else Some ErrRoot end)) = Ret (pp', None) →
      accepted pp' ∧ strip_path pp' = strip_path (mkPath (l0 :: ls) (r0 :: rs) (u0 :: us) sn root) ∧
      (complete = false → pp' = mkPath (l0 :: ls) (r0 :: rs) (u0 :: us) sn root)) as Hfin.
    { intros v0 Hv Hs Hf. cbn [climb_path mbind outcome_bind mret outcome_ret].
      destruct (climb complete (FirstLevelAboveTwig - 1) v0 us) as [u [?|res]] eqn:Eu; [done|].
      case_bool_decide; [|done]. intros [= <-]. subst res.
      destruct (climb_chain _ _ _ _ _ _ Eu) as (us' & -> & Hcu & Hsu & Hfu). split_and!.
      - split. by repeat eexists.
      - unfold strip_path. cbn. by rewrite Hsl, Hsr, Hsu, Hs.
      - intros ->. by rewrite Hfl, Hfr, Hfu, Hf. }
    destruct complete; cbn [mbind outcome_bind mret outcome_ret].
    + by apply Hfin.
    + case_bool_decide; [|done]. by apply Hfin.
Qed.

Lemma accepted_Check (complete : bool) pp : accepted pp →
  ProofPath_Check complete (if complete then strip_path pp else pp) = Ret (pp, None).
Proof.
  intros [(l0 & ls & r0 & rs & u0 & us & lroot & b3 & E1 & E2 & E3 & H1 & H2 & H3 & H4)].
  destruct pp as [left_ right_ upper sn root]. cbn in E1, E2, E3, H4. subst.
  pose proof (chain_climb complete _ _ _ _ H1) as C1. pose proof (chain_climb complete _ _ _ _ H2) as C2.
  pose proof (chain_climb complete _ _ _ _ H4) as C3.
  destruct complete; unfold strip_path;
    cbn [ProofPath_Check climb_path twig_top mbind outcome_bind mret outcome_ret LeftOfTwig RightOfTwig UpperPath
      ppSerialNum ppRoot stripped fmap list_fmap] in *; rewrite C1;
    cbn [mbind outcome_bind mret outcome_ret]; rewrite C2; cbn [mbind outcome_bind mret outcome_ret].
  - rewrite H3, set_self_strip. change (FirstLevelAboveTwig - 1) with 12. rewrite C3. cbn. by rewrite bool_decide_true.
  - rewrite bool_decide_true by done. cbn [mbind outcome_bind mret outcome_ret climb_path].
    change (FirstLevelAboveTwig - 1) with 12. rewrite C3. cbn. by rewrite bool_decide_true.
Qed.
End accepted.

(** ** The wire format *)

Section wire.
Implicit Types (nd : ProofNode) (l : list ProofNode).

(** A path of 32-byte hashes with the directions that the serial number gives. *)
Definition peers_ok (sn bit : Z) l : Prop :=
  ∀ i nd, l !! i = Some nd → zlen (PeerHash nd) = 32 ∧ PeerAtLeft nd = sn_bit sn (bit + Z.of_nat i).

Record path_ok (pp : ProofPath) : Prop := mk_path_ok {
  po_left : zlen (LeftOfTwig pp) = LeftLen ∧ peers_ok (ppSerialNum pp) 0 (LeftOfTwig pp);
  po_right : zlen (RightOfTwig pp) = RightLen ∧ peers_ok (ppSerialNum pp) 8 (RightOfTwig pp);
  po_upper : peers_ok (ppSerialNum pp) 11 (UpperPath pp);
  po_self : zlen (first_self (LeftOfTwig pp)) = 32 ∧ zlen (first_self (RightOfTwig pp)) = 32;
  po_root : zlen (ppRoot pp) = 32;
  po_sn : is_int64 (ppSerialNum pp)
}.

Lemma peers_ok_cons sn bit nd l : peers_ok sn bit (nd :: l) ↔
  (zlen (PeerHash nd) = 32 ∧ PeerAtLeft nd = sn_bit sn bit) ∧ peers_ok sn (bit + 1) l.
Proof.
  split.
  - intros H. split; [rewrite <- (Z.add_0_r bit) at 1; by apply (H 0%nat)|].
    intros i x Hx. replace (bit + 1 + Z.of_nat i) with (bit + Z.of_nat (S i)) by lia. by apply H.
  - intros [Hn H] [|i] x Hx; cbn in Hx.
    + injection Hx as <-. by rewrite Z.add_0_r.
    + replace (bit + Z.of_nat (S i)) with (bit + 1 + Z.of_nat i) by lia. by apply H.
Qed.

Lemma next32_app h rest : zlen h = 32 → next32 (h ++ rest) = Ret (h, rest).
Proof.
  intros Hh. unfold next32. rewrite (slice_start h rest 0 32) by lia. cbn [mbind outcome_bind].
  rewrite (slice_end h rest) by (rewrite ?zlen_app; lia). done.
Qed.

Lemma next32_Ret bz h rest : next32 bz = Ret (h, rest) → zlen h = 32.
Proof. unfold next32. intros H. invert_ret. by match goal with E : slice _ 0 _ = _ |- _ => apply slice_length in E end. Qed.

Lemma read_peers_ok sn bit l rest : peers_ok sn bit l →
  read_peers (length l) sn bit (concat (PeerHash <$> l) ++ rest) = Ret (strip <$> l, rest).
Proof.
  revert bit. induction l as [|nd l IH]; intros bit; [done|]. intros [[Hl Hb] Hok]%peers_ok_cons.
  cbn [length read_peers fmap list_fmap concat]. rewrite <- app_assoc, next32_app by done.
  cbn [mbind outcome_bind]. rewrite (IH (bit + 1)) by done. cbn. unfold strip at 2, set_self. by rewrite Hb.
Qed.

Lemma read_peers_inv n sn bit bz l rest : read_peers n sn bit bz = Ret (l, rest) →
  length l = n ∧ peers_ok sn bit l ∧ strip <$> l = l.
Proof.
  revert bit bz l. induction n as [|n IH]; intros bit bz l; cbn.
  { intros [= <- _]. done. }
  destruct (next32 bz) as [[h bz1]|] eqn:E; [|done]. cbn.
  destruct (read_peers n sn (bit + 1) bz1) as [[l' bz2]|] eqn:E'; [|done]. intros [= <- <-].
  destruct (IH _ _ _ E') as (<- & Hok & Hs). split_and!; [done| |cbn; by rewrite Hs].
  apply peers_ok_cons. split; [|done]. split; [by eapply next32_Ret|done].
Qed.

Lemma zlen_peers sn bit l : peers_ok sn bit l → zlen (concat (PeerHash <$> l)) = 32 * zlen l.
Proof.
  revert bit. induction l as [|nd l IH]; intros bit; [done|]. intros [[Hl _] Hok]%peers_ok_cons.
  cbn [fmap list_fmap concat]. rewrite zlen_app, zlen_cons, (IH _ Hok). lia.
Qed.

Lemma first_self_strip l h : first_self l = h → l ≠ [] → set_first_self (strip <$> l) h = stripped l.
Proof. destruct l as [|nd l]; [done|]. intros <- _. destruct nd. done. Qed.

Lemma decode_encode pp : path_ok pp → BytesToProofPath (ToBytes pp) = Ret (Some (strip_path pp)).
Proof.
  intros [[Ll Hl] [Lr Hr] Hu [S1 S2] Hroot Hsn]. destruct pp as [left_ right_ upper sn root].
  cbn [LeftOfTwig RightOfTwig UpperPath ppSerialNum ppRoot] in *. unfold BytesToProofPath.
  assert (zlen (ToBytes (mkPath left_ right_ upper sn root)) = 8 + 32 * (zlen upper + OtherNodeCount)) as Hlen.
  { unfold ToBytes. cbn [LeftOfTwig RightOfTwig UpperPath ppSerialNum ppRoot].
    rewrite !zlen_app, (zlen_peers _ _ _ Hl), (zlen_peers _ _ _ Hr), (zlen_peers _ _ _ Hu), zlen_le_bytes.
    unfold LeftLen, RightLen, OtherNodeCount in *. lia. }
  pose proof (zlen_nonneg upper). cbv zeta. rewrite Hlen.
  replace (8 + 32 * (zlen upper + OtherNodeCount) - 8) with ((zlen upper + OtherNodeCount) * 32) by lia.
  rewrite Z.rem_mul, Z.quot_mul, Z.add_simpl_r by lia. destruct (Z.ltb_spec (zlen upper) 0); [lia|].
  cbn [negb orb Z.eqb]. unfold ToBytes. cbn [LeftOfTwig RightOfTwig UpperPath ppSerialNum ppRoot].
  rewrite (slice_start (le_bytes 8 (to_uint64 sn)) _ 0 8) by (by rewrite ?zlen_le_bytes). cbn [mbind outcome_bind].
  rewrite (slice_end (le_bytes 8 (to_uint64 sn))) by (rewrite ?zlen_app, ?zlen_le_bytes, ?(zlen_peers _ _ _ Hl), ?(zlen_peers _ _ _ Hr), ?(zlen_peers _ _ _ Hu); unfold LeftLen, RightLen, OtherNodeCount in *; lia).
  cbn [mbind outcome_bind]. rewrite next32_app by done. cbn [mbind outcome_bind].
  rewrite int64_bytes by done.
  replace (Z.to_nat LeftLen) with (length left_) by (unfold zlen in Ll; lia).
  rewrite (read_peers_ok sn 0 left_) by done. cbn [mbind outcome_bind].
  rewrite next32_app by done. cbn [mbind outcome_bind].
  replace (Z.to_nat RightLen) with (length right_) by (unfold zlen in Lr; lia).
  rewrite (read_peers_ok sn 8 right_) by done. cbn [mbind outcome_bind].
  replace (Z.to_nat (zlen upper)) with (length upper) by (unfold zlen; lia).
  rewrite (read_peers_ok sn (FirstLevelAboveTwig - 2) upper) by done. cbn [mbind outcome_bind].
  rewrite slice_all by done. cbn [mbind outcome_bind mret outcome_ret].
  rewrite !(first_self_strip _ _ eq_refl); [done| |]; by intros ->.
Qed.
Lemma to_int64_range z : is_int64 (to_int64 z).
Proof.
  unfold is_int64, to_int64, to_int. pose proof (Z.mod_pos_bound z (2 ^ 64)). cbv zeta.
  change (2 ^ (64 - 1)) with (2 ^ 63). change (2 ^ 64) with (2 * 2 ^ 63) in *.
  destruct (Z.ltb_spec (z mod (2 * 2 ^ 63)) (2 ^ 63)); lia.
Qed.

Lemma first_self_set l h : l ≠ [] → first_self (set_first_self l h) = h.
Proof. by destruct l. Qed.

Lemma peers_ok_set sn bit l h : peers_ok sn bit l → peers_ok sn bit (set_first_self l h).
Proof. destruct l as [|nd l]; [done|]. intros [? ?]%peers_ok_cons. by apply peers_ok_cons. Qed.

Lemma stripped_set l h : strip <$> l = l → stripped (set_first_self l h) = set_first_self l h.
Proof. destruct l as [|nd l]; [done|]. cbn. intros [= _ ->]. done. Qed.

Lemma decode_path_ok bz pp : BytesToProofPath bz = Ret (Some pp) → path_ok pp ∧ strip_path pp = pp.
Proof.
  unfold BytesToProofPath. cbv zeta. destruct (_ || _); [done|]. intros H.
  repeat (apply outcome_bind_Ret in H; destruct H as (? & ? & H);
    try match type of H with (let '(_, _) := ?p in _) = _ => destruct p end).
  injection H as <-.
  repeat match goal with
  | E : next32 _ = _ |- _ => apply next32_Ret in E
  | E : read_peers _ _ _ _ = _ |- _ => apply read_peers_inv in E; destruct E as (? & ? & ?)
  | E : slice _ 0 32 = _ |- _ => apply slice_length in E
  end.
  assert (∀ (k : list ProofNode) n, length k = Z.to_nat n → 0 < n → k ≠ [] ∧ zlen k = n) as Hlen.
  { intros [|nd k] n; cbn; [lia|]. intros E Hn. split; [done|]. unfold zlen. cbn. lia. }
  destruct (Hlen l1 LeftLen) as [? ?]; [done..|]. destruct (Hlen l5 RightLen) as [? ?]; [done..|].
  assert (∀ (k : list ProofNode) h, zlen (set_first_self k h) = zlen k) as Hset by (by intros [|? ?]).
  split.
  - split; cbn; rewrite ?Hset, ?first_self_set by done;
      split_and?; try lia; try (by apply peers_ok_set); try done; apply to_int64_range.
  - unfold strip_path. cbn. rewrite !stripped_set by done. congruence.
Qed.
End wire.

(** ** Two accepted proofs are the same, or collide *)

Section binding.
Context `{Hsha : !Sha256}.
Implicit Types (nd nx : ProofNode) (rest : list ProofNode).

(** What the verifier hashes at a node. *)
Definition node_input (level : Z) nd : bytes :=
  to_uint 8 level :: (if PeerAtLeft nd then PeerHash nd ++ SelfHash nd else SelfHash nd ++ PeerHash nd).

Fixpoint inputs (level : Z) (l : list ProofNode) : list bytes :=
  match l with [] => [] | nd :: l => node_input level nd :: inputs (level + 1) l end.

(** The hash of the last node of a path. *)
Fixpoint path_top (level : Z) (l : list ProofNode) : bytes :=
  match l with [] => [] | [nd] => node_hash level nd | _ :: l => path_top (level + 1) l end.

(** Everything the verifier hashes for a proof. *)
Definition hashed (pp : ProofPath) : list bytes :=
  inputs 0 (LeftOfTwig pp) ++ inputs 8 (RightOfTwig pp) ++
  [11 :: path_top 0 (LeftOfTwig pp) ++ path_top 8 (RightOfTwig pp)] ++ inputs 12 (UpperPath pp).

Definition collide (A B : list bytes) : Prop :=
  ∃ a b, a ∈ A ∧ b ∈ B ∧ a ≠ b ∧ sha256 a = sha256 b.

#[local] Transparent hash2.
Lemma node_hash_input level nd : node_hash level nd = sha256 (node_input level nd).
Proof. unfold node_hash, node_input, hash2. by destruct (PeerAtLeft nd). Qed.
Lemma zlen_hash2 level a b : zlen (hash2 level a b) = 32.
Proof. apply zlen_sha256. Qed.
#[local] Opaque hash2.

Lemma collide_mono A B A' B' : A ⊆ A' → B ⊆ B' → collide A B → collide A' B'.
Proof. intros HA HB (a & b & Ha & Hb & H). exists a, b. auto. Qed.

Lemma chain_top level nd rest top : chain level nd rest top → path_top level (nd :: rest) = top.
Proof.
  revert level nd. induction rest as [|nx rest IH]; intros level nd; [done|].
  intros [_ Hc]. by apply (IH (level + 1)).
Qed.

Lemma node_input_inj level nd nd' : node_input level nd = node_input level nd' →
  PeerAtLeft nd = PeerAtLeft nd' → zlen (SelfHash nd) = 32 → zlen (SelfHash nd') = 32 →
  zlen (PeerHash nd) = 32 → zlen (PeerHash nd') = 32 → nd = nd'.
Proof.
  unfold node_input, zlen. intros [= H] Hd ? ? ? ?. destruct nd as [s p d], nd' as [s' p' d']. cbn in *. subst d'.
  destruct d; apply app_inj_1 in H as [-> ->]; done || lia.
Qed.

Lemma zlen_node_hash level nd : zlen (node_hash level nd) = 32.
Proof. rewrite node_hash_input. apply zlen_sha256. Qed.

Lemma chain_binding sn bit level nd rest nd' rest' top : length rest = length rest' →
  peers_ok sn bit (nd :: rest) → peers_ok sn bit (nd' :: rest') →
  zlen (SelfHash nd) = 32 → zlen (SelfHash nd') = 32 →
  chain level nd rest top → chain level nd' rest' top →
  nd :: rest = nd' :: rest' ∨ collide (inputs level (nd :: rest)) (inputs level (nd' :: rest')).
Proof.
  assert (∀ level nd nd' (tl tl' : list bytes), node_hash level nd = node_hash level nd' →
    PeerAtLeft nd = PeerAtLeft nd' → zlen (SelfHash nd) = 32 → zlen (SelfHash nd') = 32 →
    zlen (PeerHash nd) = 32 → zlen (PeerHash nd') = 32 →
    nd = nd' ∨ collide (node_input level nd :: tl) (node_input level nd' :: tl')) as Hone.
  { intros lv n n' tl tl' Hh ? ? ? ? ?. destruct (decide (node_input lv n = node_input lv n')) as [Hi|Hi].
    - left. by eapply node_input_inj.
    - right. exists (node_input lv n), (node_input lv n'). rewrite <- !node_hash_input.
      split_and!; [by left|by left|done|done]. }
  revert bit level nd nd' rest'. induction rest as [|nx rest IH]; intros bit level nd nd' [|nx' rest'] Hlen;
    try discriminate Hlen.
  - intros [[P1 B1] _]%peers_ok_cons [[P2 B2] _]%peers_ok_cons S1 S2 H1 H2.
    destruct (Hone level nd nd' [] []) as [->|?]; [cbn in *; congruence|congruence|done..|by left|by right].
  - intros [[P1 B1] O1]%peers_ok_cons [[P2 B2] O2]%peers_ok_cons S1 S2 [L1 H1] [L2 H2].
    destruct (IH (bit + 1) (level + 1) nx nx' rest') as [E|Hc]; [by injection Hlen|done|done|
      rewrite <- L1; apply zlen_node_hash|rewrite <- L2; apply zlen_node_hash|done|done| |].
    + injection E as <- <-. destruct (Hone level nd nd' (inputs (level + 1) (nx :: rest)) (inputs (level + 1) (nx :: rest)))
        as [->|?]; [congruence|congruence|done..|by left|by right].
    + right. eapply collide_mono; [..|exact Hc]; intros x Hx; by right.
Qed.

(** The hash at the top of a path is tagged with its level. *)
Lemma chain_last level nd rest top : chain level nd rest top →
  ∃ tl, to_uint 8 (level + zlen rest) :: tl ∈ inputs level (nd :: rest) ∧
    sha256 (to_uint 8 (level + zlen rest) :: tl) = top.
Proof.
  revert level nd. induction rest as [|nx rest IH]; intros level nd.
  - intros <-. rewrite zlen_nil, Z.add_0_r. eexists. split; [by left|by rewrite node_hash_input].
  - intros [_ Hc]. destruct (IH _ _ Hc) as (tl & Hin & Hh). exists tl.
    replace (level + zlen (nx :: rest)) with (level + 1 + zlen rest) by (rewrite zlen_cons; lia).
    split; [by right|done].
Qed.
Lemma hashed_parts pp : inputs 0 (LeftOfTwig pp) ⊆ hashed pp ∧ inputs 8 (RightOfTwig pp) ⊆ hashed pp ∧
  [11 :: path_top 0 (LeftOfTwig pp) ++ path_top 8 (RightOfTwig pp)] ⊆ hashed pp ∧
  inputs 12 (UpperPath pp) ⊆ hashed pp.
Proof. unfold hashed. split_and!; intros x Hx; rewrite !elem_of_app; tauto. Qed.

#[local] Transparent hash2.
Lemma zlen_path_top sn level l : (0 < zlen l) → peers_ok sn level l → zlen (path_top level l) = 32.
Proof.
  revert level. induction l as [|nd l IH]; intros level Hl; [done|]. destruct l as [|nx l].
  - intros _. apply zlen_node_hash.
  - intros [_ Hok]%peers_ok_cons. apply IH; [zlen|done].
Qed.

Lemma hash2_binding a b a' b' : zlen a = 32 → zlen a' = 32 → hash2 11 a b = hash2 11 a' b' →
  (a = a' ∧ b = b') ∨ collide [11 :: a ++ b] [11 :: a' ++ b'].
Proof.
  intros Ha Ha' Hh. destruct (decide (a ++ b = a' ++ b')) as [E|E].
  - left. by apply app_inj_1 in E; [|unfold zlen in *; lia].
  - right. exists (11 :: a ++ b), (11 :: a' ++ b'). split_and!; [by left|by left|congruence|exact Hh].
Qed.
#[local] Opaque hash2.

(** Accepted paths for one serial number and root. *)
Lemma accepted_binding p q : path_ok p → path_ok q → accepted p → accepted q →
  ppSerialNum p = ppSerialNum q → ppRoot p = ppRoot q →
  zlen (UpperPath p) < 240 → zlen (UpperPath q) < 240 →
  p = q ∨ collide (hashed p) (hashed q).
Proof.
  intros [[Ll Pl] [Lr Pr] Pu [S1 S2] _ _] [[Ll' Pl'] [Lr' Pr'] Pu' [S1' S2'] _ _]
    [(l0 & ls & r0 & rs & u0 & us & lroot & b3 & E1 & E2 & E3 & H1 & H2 & H3 & H4)]
    [(l0' & ls' & r0' & rs' & u0' & us' & lroot' & b3' & E1' & E2' & E3' & H1' & H2' & H3' & H4')] Hsn Hroot Hup Hup'.
  destruct (hashed_parts p) as (A1 & A2 & A3 & A4), (hashed_parts q) as (B1 & B2 & B3 & B4).
  destruct p as [? ? ? sn root], q as [? ? ? sn' root']. cbn in E1, E2, E3, E1', E2', E3', Hsn, Hroot. subst.
  cbn [LeftOfTwig RightOfTwig UpperPath ppSerialNum ppRoot] in *. unfold LeftLen, RightLen in *.
  destruct (decide (length us = length us')) as [Hlen|Hlen].
  2:{ right. destruct (chain_last _ _ _ _ H4) as (tl & Hin & Hh). destruct (chain_last _ _ _ _ H4') as (tl' & Hin' & Hh').
    eexists _, _. split_and!; [apply A4, Hin|apply B4, Hin'| |by rewrite Hh, Hh'].
    intros [= E _]. unfold to_uint in E. rewrite !zlen_cons in *. pose proof (zlen_nonneg us). pose proof (zlen_nonneg us').
    change (2 ^ 8) with 256 in E. rewrite !Z.mod_small in E by lia. unfold zlen in *. lia. }
  destruct (chain_binding sn' 11 12 u0 us u0' us' root') as [E|Hc]; [done|done|done|
    rewrite <- H3; apply zlen_hash2|rewrite <- H3'; apply zlen_hash2|done|done| |right; exact (collide_mono _ _ _ _ A4 B4 Hc)].
  injection E as <- <-. rewrite (chain_top _ _ _ _ H1), (chain_top _ _ _ _ H2) in A3.
  rewrite (chain_top _ _ _ _ H1'), (chain_top _ _ _ _ H2') in B3.
  assert (zlen lroot = 32 ∧ zlen lroot' = 32) as [Zl Zl'].
  { rewrite <- (chain_top _ _ _ _ H1), <- (chain_top _ _ _ _ H1'). split; eapply zlen_path_top; try done; lia. }
  destruct (hash2_binding lroot b3 lroot' b3') as [[<- <-]|Hc]; [done|done|congruence| |right; exact (collide_mono _ _ _ _ A3 B3 Hc)].
  destruct (chain_binding sn' 0 0 l0 ls l0' ls' lroot) as [E|Hc];
    [unfold zlen in Ll, Ll'; cbn in Ll, Ll'; lia|done|done|done|done|done|done| |right; exact (collide_mono _ _ _ _ A1 B1 Hc)].
  injection E as <- <-.
  destruct (chain_binding sn' 8 8 r0 rs r0' rs' b3) as [E|Hc];
    [unfold zlen in Lr, Lr'; cbn in Lr, Lr'; lia|done|done|done|done|done|done|by left; injection E as <- <-|
    right; exact (collide_mono _ _ _ _ A2 B2 Hc)].
Qed.

Lemma peers_ok_strip sn bit l k : strip <$> l = strip <$> k → peers_ok sn bit k → peers_ok sn bit l.
Proof.
  revert bit k. induction l as [|nd l IH]; intros bit [|nx k] E; try discriminate E; [done|].
  injection E as Ep Ed E. intros [[? ?] ?]%peers_ok_cons. apply peers_ok_cons.
  rewrite Ep, Ed. split; [done|by eapply IH].
Qed.

(** C8: a proof binds. Two byte strings that decode to proofs for the same
    serial number and root, with upper paths short enough for the byte that
    holds a level (fewer than 240 nodes), and that [Check] accepts, decode to
    the same proof - the same leaf, the same active bits, the same path -, or the
    verifier has hashed two different inputs to one SHA-256 digest. *)
Theorem Check_binding bz1 bz2 pp1 pp2 q1 q2 :
  BytesToProofPath bz1 = Ret (Some pp1) → BytesToProofPath bz2 = Ret (Some pp2) →
  ppSerialNum pp1 = ppSerialNum pp2 → ppRoot pp1 = ppRoot pp2 →
  zlen (UpperPath pp1) < 240 → zlen (UpperPath pp2) < 240 →
  ProofPath_Check true pp1 = Ret (q1, None) → ProofPath_Check true pp2 = Ret (q2, None) →
  pp1 = pp2 ∨ collide (hashed q1) (hashed q2).
Proof.
  intros [Ok1 St1]%decode_path_ok [Ok2 St2]%decode_path_ok Hsn Hroot Hu1 Hu2
    (A1 & Es1 & _)%Check_accepted (A2 & Es2 & _)%Check_accepted.
  assert (∀ p q, strip_path q = strip_path p → path_ok p → path_ok q ∧ ppSerialNum q = ppSerialNum p ∧
    ppRoot q = ppRoot p ∧ zlen (UpperPath q) = zlen (UpperPath p)) as Hst.
  { intros [l r u sn root] [l' r' u' sn' root'] Es [[Ll Pl] [Lr Pr] Pu [S1 S2] ? ?].
    unfold strip_path in Es. cbn in *. injection Es as El Er Eu -> ->.
    assert (∀ k k', stripped k = stripped k' → strip <$> k = strip <$> k' ∧ first_self k = first_self k' ∧
      zlen k = zlen k') as Hk.
    { intros [|n k] [|n' k']; cbn; try done. intros [= -> E]. rewrite E.
      apply (f_equal length) in E. rewrite !length_fmap in E. rewrite !zlen_cons. unfold zlen. by rewrite E. }
    destruct (Hk _ _ El) as (? & E1 & E2), (Hk _ _ Er) as (? & E3 & E4).
    assert (zlen u' = zlen u) as Hu by (apply (f_equal length) in Eu; rewrite !length_fmap in Eu; unfold zlen; by rewrite Eu).
    split_and!; [|done|done|done]. split; cbn; rewrite ?E1, ?E2, ?E3, ?E4; try done;
      eauto using peers_ok_strip. }
  destruct (Hst _ _ Es1 Ok1) as (O1 & N1 & R1 & L1), (Hst _ _ Es2 Ok2) as (O2 & N2 & R2 & L2).
  destruct (accepted_binding q1 q2) as [E|?]; [done|done|done|done|congruence|congruence|lia|lia|left|by right].
  by rewrite <- St1, <- St2, <- Es1, <- Es2, E.
Qed.
End binding.

(** ** Decoding is total; short proofs *)

Section short.
Context `{Hsha : !Sha256}.

Lemma next32_total bz : 32 ≤ zlen bz → ∃ h rest, next32 bz = Ret (h, rest) ∧ zlen rest = zlen bz - 32.
Proof.
  intros Hl. destruct (slice_in_bounds bz 0 32) as [h Eh]; [lia|lia|].
  destruct (slice_in_bounds bz 32 (zlen bz)) as [rest Er]; [lia|lia|].
  exists h, rest. unfold next32. rewrite Eh. cbn [mbind outcome_bind]. rewrite Er. split; [done|].
  by apply slice_length in Er.
Qed.

Lemma read_peers_total n sn bit bz : 32 * Z.of_nat n ≤ zlen bz →
  ∃ l rest, read_peers n sn bit bz = Ret (l, rest) ∧ zlen rest = zlen bz - 32 * Z.of_nat n.
Proof.
  revert bit bz. induction n as [|n IH]; intros bit bz Hl; [exists [], bz; split; [done|lia]|].
  destruct (next32_total bz) as (h & bz1 & E1 & L1); [lia|].
  destruct (IH (bit + 1) bz1) as (l & rest & E2 & L2); [lia|].
  eexists _, rest. cbn [read_peers]. rewrite E1. cbn [mbind outcome_bind]. rewrite E2. split; [done|lia].
Qed.

Lemma decode_total bz k : 0 ≤ k → zlen bz = 8 + 32 * (k + OtherNodeCount) →
  ∃ pp, BytesToProofPath bz = Ret (Some pp) ∧ zlen (UpperPath pp) = k ∧ LeftOfTwig pp ≠ [] ∧ RightOfTwig pp ≠ [].
Proof.
  intros Hk Hl. unfold BytesToProofPath. cbv zeta.
  replace (zlen bz - 8) with ((k + OtherNodeCount) * 32) by lia.
  rewrite Z.rem_mul, Z.quot_mul, Z.add_simpl_r by lia. destruct (Z.ltb_spec k 0); [lia|]. cbn [negb orb Z.eqb].
  unfold OtherNodeCount in Hl.
  destruct (slice_in_bounds bz 0 8) as [sn8 E0]; [lia|lia|]. rewrite E0. cbn [mbind outcome_bind].
  destruct (slice_in_bounds bz 8 (zlen bz)) as [b0 E1]; [lia|lia|]. rewrite E1. cbn [mbind outcome_bind].
  apply slice_length in E1. set (sn := to_int64 (le_val sn8)).
  destruct (next32_total b0) as (h1 & b1 & -> & L1); [lia|]. cbn [mbind outcome_bind].
  destruct (read_peers_total (Z.to_nat LeftLen) sn 0 b1) as (l & b2 & R1 & L2); [unfold LeftLen; lia|].
  rewrite R1. cbn [mbind outcome_bind]. unfold LeftLen in L2.
  destruct (next32_total b2) as (h2 & b3 & -> & L3); [lia|]. cbn [mbind outcome_bind].
  destruct (read_peers_total (Z.to_nat RightLen) sn 8 b3) as (r & b4 & R2 & L4); [unfold RightLen; lia|].
  rewrite R2. cbn [mbind outcome_bind]. unfold RightLen in L4.
  destruct (read_peers_total (Z.to_nat k) sn (FirstLevelAboveTwig - 2) b4) as (u & b5 & R3 & L5); [lia|].
  rewrite R3. cbn [mbind outcome_bind].
  destruct (slice_in_bounds b5 0 32) as [root ->]; [lia|lia|]. eexists. split; [reflexivity|].
  apply read_peers_inv in R1 as (N1 & _), R2 as (N2 & _), R3 as (N3 & _). cbn. split_and!.
  - unfold zlen. lia.
  - by destruct l.
  - by destruct r.
Qed.

(** [BytesToProofPath] never panics: the length alone decides between a
    proof and an error, and it accepts a proof without upper nodes (552
    bytes). On such a proof, whatever its bytes, [Check(true)] reads
    [UpperPath\[0\]] and panics: the client of a prover can be crashed. *)
Theorem decode_total_but_short_proofs_panic bz :
  (BytesToProofPath bz = Ret None ∨
   ∃ pp, BytesToProofPath bz = Ret (Some pp) ∧ zlen bz = 552 + 32 * zlen (UpperPath pp)) ∧
  (zlen bz = 552 → ∃ pp, BytesToProofPath bz = Ret (Some pp) ∧
    ProofPath_Check true pp = Panic "index out of range").
Proof.
  split.
  - destruct (decide (Z.rem (zlen bz - 8) 32 = 0 ∧ 0 ≤ Z.quot (zlen bz - 8) 32 - OtherNodeCount)) as [[H1 H2]|Hno].
    + right. destruct (decode_total bz (Z.quot (zlen bz - 8) 32 - OtherNodeCount)) as (pp & E & Hu & _);
        [done|pose proof (Z.quot_rem (zlen bz - 8) 32); lia|].
      exists pp. split; [done|]. rewrite Hu. unfold OtherNodeCount. pose proof (Z.quot_rem (zlen bz - 8) 32). lia.
    + left. unfold BytesToProofPath. cbv zeta.
      destruct (Z.eqb_spec (Z.rem (zlen bz - 8) 32) 0), (Z.ltb_spec (Z.quot (zlen bz - 8) 32 - OtherNodeCount) 0);
        try done. lia.
  - intros Hl. destruct (decode_total bz 0) as ([left_ right_ upper sn root] & E & Hu & Hnl & Hnr); [done|done|].
    cbn in Hu, Hnl, Hnr. eexists. split; [exact E|]. destruct left_ as [|l0 ls]; [done|]. destruct right_ as [|r0 rs]; [done|].
    destruct upper as [|? ?]; [|rewrite zlen_cons in Hu; pose proof (zlen_nonneg upper); lia].
    assert (∀ level nd rest, ∃ l h, climb true level nd rest = (l, inr h)) as Hc.
    { intros level nd rest. revert level nd. induction rest as [|nx rest IH]; intros level nd; cbn; [eauto|].
      destruct (IH (level + 1) (set_self nx (node_hash level nd))) as (l & h & ->). eauto. }
    cbn [ProofPath_Check climb_path mbind outcome_bind mret outcome_ret].
    destruct (Hc 0 l0 ls) as (l & h & ->). cbn [mbind outcome_bind].
    destruct (Hc 8 r0 rs) as (r & h' & ->). done.
Qed.
End short.

(** ** Witnesses *)

Section witness.
#[local] Existing Instance toy_sha256.

(** A proof of zeros, with the root the verifier computes. *)
Definition zero_node : ProofNode := mkNode zero32 zero32 false.
Definition zero_root : bytes :=
  match ProofPath_Check true (mkPath (replicate 11 zero_node) (replicate 3 zero_node) [zero_node] 0 zero32) with
  | Ret (mkPath _ _ [u0] _ _, _) => node_hash 12 u0
  | _ => []
  end.
Definition zero_proof : ProofPath := mkPath (replicate 11 zero_node) (replicate 3 zero_node) [zero_node] 0 zero_root.

Lemma Check_binding_witness : ∃ q, BytesToProofPath (ToBytes zero_proof) = Ret (Some zero_proof) ∧
  ProofPath_Check true zero_proof = Ret (q, None) ∧ (zero_proof = zero_proof ∨ collide (hashed q) (hashed q)).
Proof.
  assert (BytesToProofPath (ToBytes zero_proof) = Ret (Some zero_proof)) as E by vm_decide.
  assert (∃ q, ProofPath_Check true zero_proof = Ret (q, None)) as [q Eq] by (eexists; vm_compute; reflexivity).
  exists q. split; [exact E|]. split; [exact Eq|].
  exact (Check_binding _ _ _ _ _ _ E E eq_refl eq_refl eq_refl eq_refl Eq Eq).
Defined.

Lemma decode_total_but_short_proofs_panic_witness : ∃ pp, BytesToProofPath (replicate 552 7) = Ret (Some pp) ∧
  ProofPath_Check true pp = Panic "index out of range".
Proof. apply (decode_total_but_short_proofs_panic (replicate 552 7)). reflexivity. Defined.
End witness.
