(* ===== verification/ProofComplete.v ===== *)
(** * The prover is complete (datatree/proof.go, GetProof)

    On a tree whose hashes are consistent, the path [GetProof] collects is
    accepted by [Check] and goes through the wire format. The three parts of a
    path are instances of [tree_path], a path in a tree of hashes given by
    level and index. *)
From S2P Require Import Prelude Types EntryCodec Hasher AppendFile HPFile EntryFile TwigMtFile.
From S2P Require Import Twig YoungestTwig Tree ActiveBits UpperNodes TreeInv TreeAppend TreeRun MerkleProof.

#[local] Opaque Pos null_node NullNodeInHigherTree NullTwig hash2 Z.pow NullMT4Twig.

(** ** Siblings *)

Lemma lxor1 n : 0 ≤ n → Z.lxor n 1 = if Z.odd n then n - 1 else n + 1.
Proof. destruct n as [|[p|p|]|p]; intros; [done|done|done|done|lia]. Qed.

Lemma land1 n : Z.land n 1 = if Z.odd n then 1 else 0.
Proof. rewrite <- Zmod_odd. change 1 with (Z.ones 1). by rewrite Z.land_ones by lia. Qed.

Lemma peer_even n : 0 ≤ n → (Z.land (Z.lxor n 1) 1 =? 0) = Z.odd n.
Proof.
  intros Hn. rewrite land1, lxor1 by done. destruct (Z.odd n) eqn:E.
  - by rewrite Z.odd_sub, E.
  - by rewrite Z.odd_add, E.
Qed.

Lemma sn_bit_testbit sn i : 0 ≤ i → sn_bit sn i = Z.testbit sn i.
Proof. intros Hi. unfold sn_bit. rewrite land1, Z.testbit_odd. by destruct (Z.odd _). Qed.

Lemma odd_div_testbit n i : 0 ≤ i → Z.odd (n / 2 ^ i) = Z.testbit n i.
Proof. intros Hi. by rewrite Z.testbit_odd, Z.shiftr_div_pow2. Qed.

Lemma div_pow_succ n i : 0 ≤ i → n / 2 / 2 ^ i = n / 2 ^ (i + 1).
Proof. intros Hi. rewrite Z.div_div, <- Z.pow_succ_r by (try apply Z.pow_pos_nonneg; lia). done. Qed.

(** ** Paths in a tree of hashes *)

Section tree_path.
Context `{Hsha : !Sha256} (f : Z → Z → bytes).

Definition path_node (L n : Z) : ProofNode := mkNode (f L n) (f L (Z.lxor n 1)) (Z.odd n).

Fixpoint tree_path (cnt : nat) (L n : Z) : list ProofNode :=
  match cnt with
  | O => []
  | S cnt => path_node L n :: tree_path cnt (L + 1) (n / 2)
  end.

(** The parent is the hash of its children. *)
Definition pair_hashed (L n : Z) : Prop :=
  f (L + 1) (n / 2) = hash2 (to_uint 8 L) (f L (2 * (n / 2))) (f L (2 * (n / 2) + 1)).

Lemma path_node_hash L n : 0 ≤ n → pair_hashed L n → node_hash L (path_node L n) = f (L + 1) (n / 2).
Proof.
  intros Hn Hp. unfold node_hash, path_node. cbn [PeerAtLeft PeerHash SelfHash]. rewrite Hp, lxor1 by done.
  pose proof (Zmod_odd n) as Hm. destruct (Z.odd n).
  - replace (2 * (n / 2)) with (n - 1) by zdiv. replace (n - 1 + 1) with n by lia. done.
  - replace (2 * (n / 2)) with n by zdiv. done.
Qed.

Lemma tree_path_chain cnt L n : 0 ≤ n →
  (∀ i, 0 ≤ i ≤ Z.of_nat cnt → pair_hashed (L + i) (n / 2 ^ i)) →
  chain L (path_node L n) (tree_path cnt (L + 1) (n / 2)) (f (L + Z.of_nat cnt + 1) (n / 2 ^ (Z.of_nat cnt + 1))).
Proof.
  revert L n. induction cnt as [|cnt IH]; intros L n Hn Hp.
  - cbn [tree_path chain]. change (2 ^ (Z.of_nat 0 + 1)) with 2. rewrite Z.add_0_r. apply path_node_hash; [done|].
    specialize (Hp 0 ltac:(lia)). change (2 ^ 0) with 1 in Hp. by rewrite Z.add_0_r, Z.div_1_r in Hp.
  - cbn [tree_path chain]. split.
    + apply path_node_hash; [done|].
      specialize (Hp 0 ltac:(lia)). change (2 ^ 0) with 1 in Hp. by rewrite Z.add_0_r, Z.div_1_r in Hp.
    + replace (L + Z.of_nat (S cnt) + 1) with (L + 1 + Z.of_nat cnt + 1) by lia.
      replace (Z.of_nat (S cnt) + 1) with (Z.of_nat cnt + 1 + 1) by lia.
      rewrite <- (div_pow_succ n) by lia. apply IH; [apply Z.div_pos; lia|].
      intros i Hi. rewrite div_pow_succ by lia. replace (L + 1 + i) with (L + (i + 1)) by lia. apply Hp. lia.
Qed.

Lemma tree_path_peers sn bit cnt L n :
  (∀ i, 0 ≤ i < Z.of_nat cnt → Z.odd (n / 2 ^ i) = sn_bit sn (bit + i) ∧
    zlen (f (L + i) (Z.lxor (n / 2 ^ i) 1)) = 32) → peers_ok sn bit (tree_path cnt L n).
Proof.
  revert bit L n. induction cnt as [|cnt IH]; intros bit L n Hf; cbn [tree_path].
  { intros i nd. by rewrite lookup_nil. }
  apply peers_ok_cons. split.
  - specialize (Hf 0 ltac:(lia)). change (2 ^ 0) with 1 in Hf. rewrite Z.div_1_r, !Z.add_0_r in Hf. cbn. tauto.
  - apply IH. intros i Hi. rewrite div_pow_succ by lia.
    replace (bit + 1 + i) with (bit + (i + 1)) by lia. replace (L + 1 + i) with (L + (i + 1)) by lia. apply Hf. lia.
Qed.

Lemma length_tree_path cnt L n : length (tree_path cnt L n) = cnt.
Proof. revert L n. induction cnt as [|cnt IH]; intros L n; cbn; [done|by rewrite IH]. Qed.
End tree_path.

(** ** The left path: the Merkle tree of the twig *)

Section left_path.
Context `{Hsha : !Sha256}.

Definition left_hash (mt : list bytes) (L n : Z) : bytes := mt_at mt (2048 / 2 ^ L + n).

Lemma stripe_bounds L n : 0 ≤ L ≤ 10 → 0 ≤ n < 2048 →
  2048 / 2 ^ L = 2 * 2 ^ (10 - L) ∧ 0 ≤ n / 2 ^ L < 2048 / 2 ^ L ∧ 2 ≤ 2048 / 2 ^ L ≤ 2048.
Proof.
  intros HL Hn. assert (0 < 2 ^ L) as Hp by (apply Z.pow_pos_nonneg; lia).
  assert (2048 = 2 ^ L * (2 * 2 ^ (10 - L))) as E.
  { rewrite Z.mul_assoc, (Z.mul_comm (2 ^ L)), <- Z.mul_assoc, <- Z.pow_add_r by lia.
    replace (L + (10 - L)) with 10 by lia. done. }
  assert (2048 / 2 ^ L = 2 * 2 ^ (10 - L)) as E'.
  { rewrite E. rewrite Z.mul_comm. by rewrite Z.div_mul by lia. }
  rewrite E'. assert (2 ^ 0 ≤ 2 ^ (10 - L) ≤ 2 ^ 10) as Hb by (split; apply Z.pow_le_mono_r; lia).
  change (2 ^ 0) with 1 in Hb. change (2 ^ 10) with 1024 in Hb. split_and!; try lia.
  - apply Z.div_pos; lia.
  - apply Z.div_lt_upper_bound; lia.
Qed.

Lemma lxor1_bounds k n : 0 ≤ n < 2 * k → 0 ≤ Z.lxor n 1 < 2 * k.
Proof. intros Hn. rewrite lxor1 by lia. pose proof (Zmod_odd n). destruct (Z.odd n); zdiv. Qed.

Lemma left_loop {S} (getHash : S → Z → outcome (S * bytes)) s mt n cnt L acc :
  0 ≤ n < 2048 → 0 ≤ L → L + Z.of_nat cnt ≤ 11 →
  (∀ i, 1 ≤ i < 4096 → getHash s i = Ret (s, mt_at mt i)) →
  for_state (left_node getHash n) (s, acc) (seqZ L (Z.of_nat cnt)) =
  Ret (s, acc ++ tree_path (left_hash mt) cnt L (n / 2 ^ L)).
Proof.
  intros Hn. revert L acc. induction cnt as [|cnt IH]; intros L acc HL Hc Hg.
  { cbn. by rewrite app_nil_r. }
  destruct (stripe_bounds L n) as (Es & Hb & Hs); [lia|lia|].
  rewrite seqZ_cons by lia. cbn [tree_path].
  replace (Z.pred (Z.of_nat (Datatypes.S cnt))) with (Z.of_nat cnt) by lia.
  erewrite for_state_step.
  2:{ unfold left_node. rewrite !Z.shiftr_div_pow2 by lia. pose proof (lxor1_bounds (2 ^ (10 - L)) (n / 2 ^ L)).
      rewrite Hg by lia. cbn [mbind outcome_bind]. rewrite Hg by lia. cbn [mbind outcome_bind mret outcome_ret].
      rewrite peer_even by lia. reflexivity. }
  change (Z.succ L) with (L + 1). rewrite IH by (done || lia). rewrite <- app_assoc. cbn [app].
  rewrite Z.div_div, Z.mul_comm by (try apply Z.pow_pos_nonneg; lia). rewrite <- Z.pow_succ_r by lia. done.
Qed.

Lemma sn_offset sn : 0 ≤ sn → Z.land sn TwigMask = sn mod 2048 ∧ 0 ≤ sn mod 2048 < 2048.
Proof. intros Hsn. destruct (sn_parts sn Hsn) as (_ & E & _). split; [done|zdiv]. Qed.

Lemma getLeftPath_ok {S} (getHash : S → Z → outcome (S * bytes)) s mt sn : 0 ≤ sn →
  (∀ i, 1 ≤ i < 4096 → getHash s i = Ret (s, mt_at mt i)) →
  getLeftPath getHash s sn = Ret (s, tree_path (left_hash mt) 11 0 (sn mod 2048)).
Proof.
  intros Hsn Hg. destruct (sn_offset sn Hsn) as [E Hb]. unfold getLeftPath. rewrite E.
  change (seqZ 0 11) with (seqZ 0 (Z.of_nat 11)).
  rewrite (left_loop getHash s mt (sn mod 2048) 11 0 []) by (done || lia). change (2 ^ 0) with 1.
  by rewrite Z.div_1_r.
Qed.

Lemma left_pair mt n L : mt_ok mt → 0 ≤ n < 2048 → 0 ≤ L ≤ 10 → pair_hashed (left_hash mt) L (n / 2 ^ L).
Proof.
  intros Hok Hn HL. destruct (stripe_bounds L n) as (Es & Hb & Hs); [lia|lia|]. unfold pair_hashed, left_hash.
  assert (2048 / 2 ^ (L + 1) = 2 ^ (10 - L)) as E1.
  { rewrite <- div_pow_succ by lia. change (2048 / 2) with 1024.
    apply Z.mul_reg_l with 2; [lia|]. rewrite <- Es. rewrite Z.pow_sub_r in Es by lia.
    replace 2048 with (1024 * 2) at 1 by lia.
    assert (1024 = 2 ^ (10 - L) * 2 ^ L) as E by (rewrite <- Z.pow_add_r by lia; replace (10 - L + L) with 10 by lia; done).
    assert (0 < 2 ^ L) by (apply Z.pow_pos_nonneg; lia).
    rewrite E at 1 2. rewrite Z.div_mul by lia.
    replace (2 ^ (10 - L) * 2 ^ L * 2) with (2 * 2 ^ (10 - L) * 2 ^ L) by lia. by rewrite Z.div_mul by lia. }
  set (m := n / 2 ^ L / 2). assert (0 ≤ m < 2 ^ (10 - L)) as Hm by (subst m; zdiv).
  assert (2 ^ (10 - L) ≤ 2 ^ 10) as Hle by (apply Z.pow_le_mono_r; lia). change (2 ^ 10) with 1024 in Hle.
  rewrite E1, Es. rewrite (Hok (2 ^ (10 - L) + m)) by lia. unfold mt_level.
  rewrite (log2_row (10 - L)) by lia. replace (10 - (10 - L)) with L by lia.
  unfold to_uint. rewrite Z.mod_small by (change (2 ^ 8) with 256; lia).
  f_equal; f_equal; lia.
Qed.

Lemma left_chain mt n : mt_ok mt → 0 ≤ n < 2048 →
  chain 0 (path_node (left_hash mt) 0 n) (tree_path (left_hash mt) 10 1 (n / 2)) (mt_at mt 1).
Proof.
  intros Hok Hn. pose proof (tree_path_chain (left_hash mt) 10 0 n) as H.
  change (0 + Z.of_nat 10 + 1) with 11 in H. change (2 ^ (Z.of_nat 10 + 1)) with 2048 in H.
  change (left_hash mt 11 0) with (mt_at mt 1) in H.
  rewrite (Z.div_small n 2048 Hn) in H. apply H; [lia|]. intros i Hi. by apply left_pair.
Qed.

Lemma left_peers sn mt : 0 ≤ sn → zlen mt = 4096 → hashes32 mt →
  peers_ok sn 0 (tree_path (left_hash mt) 11 0 (sn mod 2048)).
Proof.
  intros Hsn Hl Hh. apply tree_path_peers. intros i Hi. rewrite Z.add_0_l. split.
  - rewrite odd_div_testbit, sn_bit_testbit by lia. change 2048 with (2 ^ 11).
    rewrite Z.mod_pow2_bits_low by lia. done.
  - destruct (stripe_bounds i (sn mod 2048)) as (Es & Hb & Hs); [lia|apply sn_offset; lia|].
    pose proof (lxor1_bounds (2 ^ (10 - i)) (sn mod 2048 / 2 ^ i) ltac:(lia)) as Hx.
    unfold left_hash, mt_at. destruct (zget_Some mt (2048 / 2 ^ i + Z.lxor (sn mod 2048 / 2 ^ i) 1)) as [h Eh]; [lia|].
    rewrite Eh. cbn. apply Hh. unfold zget in Eh. case_match; [|done]. by eapply list_elem_of_lookup_2.
Qed.
End left_path.

(** ** The right path: the active bits of the twig *)

Section right_path.
Context `{Hsha : !Sha256}.
Implicit Types (t : Twig).

Definition right_hash t (L k : Z) : bytes :=
  if L =? 8 then twig_load t (SBits k) else if L =? 9 then twig_load t (SL1 k)
  else if L =? 10 then twig_load t (SL2 k) else twig_load t SL3.

Lemma bits_slice t k : twig_shape t → 0 ≤ k < 8 →
  slice (activeBits t) (k * 32) (k * 32 + 32) = Ret (bits32 (activeBits t) k) ∧ zlen (bits32 (activeBits t) k) = 32.
Proof.
  intros [Hb _ _] Hk.
  assert (slice (activeBits t) (k * 32) (k * 32 + 32) = Ret (bits32 (activeBits t) k)) as E.
  { apply slice_Ret. split_and!; [lia|lia|lia|]. unfold bits32. f_equal; [lia|]. f_equal. lia. }
  split; [done|]. rewrite (slice_length _ _ _ _ E). lia.
Qed.

Lemma right_node_ok arr self : 0 ≤ self < zlen arr → zlen arr mod 2 = 0 →
  right_node arr self = Ret (mkNode (default [] (zget arr self)) (default [] (zget arr (Z.lxor self 1))) (Z.odd self)).
Proof.
  intros Hs Hev. unfold right_node. pose proof (lxor1_bounds (zlen arr / 2) self ltac:(zdiv)) as Hx.
  destruct (zget_Some arr self) as [s Es]; [lia|].
  destruct (zget_Some arr (Z.lxor self 1)) as [p Ep]; [zdiv|].
  rewrite (index_zget _ _ _ Es). cbn [mbind outcome_bind]. rewrite (index_zget _ _ _ Ep). cbn [mbind outcome_bind].
  rewrite peer_even, Es, Ep by lia. done.
Qed.

Lemma getRightPath_ok t sn : twig_shape t → 0 ≤ sn →
  getRightPath t sn = Ret (tree_path (right_hash t) 3 8 (sn mod 2048 / 256)).
Proof.
  intros Hs Hsn. destruct (sn_offset sn Hsn) as [E Hb]. unfold getRightPath. rewrite E.
  rewrite !Z.quot_div_nonneg by lia. set (n := sn mod 2048) in *.
  pose proof (lxor1_bounds 4 (n / 256) ltac:(zdiv)) as Hx.
  rewrite (proj1 (bits_slice t (n / 256) Hs ltac:(zdiv))). cbn [mbind outcome_bind].
  rewrite (proj1 (bits_slice t (Z.lxor (n / 256) 1) Hs Hx)). cbn [mbind outcome_bind].
  destruct Hs as [_ H1 H2].
  rewrite right_node_ok by (rewrite ?H1, ?H2; done || zdiv). cbn [mbind outcome_bind].
  rewrite right_node_ok by (rewrite ?H1, ?H2; done || zdiv). cbn [mbind outcome_bind mret outcome_ret].
  rewrite peer_even by zdiv. cbn [tree_path]. unfold path_node.
  replace (n / 256 / 2) with (n / 512) by zdiv. replace (n / 512 / 2) with (n / 1024) by zdiv. done.
Qed.

Lemma right_pair t n i : twig_ok t → 0 ≤ n < 8 → 0 ≤ i ≤ 2 → pair_hashed (right_hash t) (8 + i) (n / 2 ^ i).
Proof.
  intros [H1 H2 H3 _] Hn Hi. unfold pair_hashed.
  assert (i = 0 ∨ i = 1 ∨ i = 2) as [->|[->| ->]] by lia.
  - change (2 ^ 0) with 1. rewrite Z.div_1_r. apply (H1 (n / 2)). zdiv.
  - change (2 ^ 1) with 2. apply (H2 (n / 2 / 2)). zdiv.
  - change (2 ^ 2) with 4. replace (n / 4 / 2) with 0 by zdiv. exact H3.
Qed.

Lemma right_chain t n : twig_ok t → 0 ≤ n < 8 →
  chain 8 (path_node (right_hash t) 8 n) (tree_path (right_hash t) 2 9 (n / 2)) (activeBitsMTL3 t).
Proof.
  intros Hok Hn. pose proof (tree_path_chain (right_hash t) 2 8 n) as H.
  change (2 ^ (Z.of_nat 2 + 1)) with 8 in H. rewrite (Z.div_small n 8 Hn) in H.
  apply H; [lia|]. intros i Hi. by apply right_pair.
Qed.

Lemma right_peers sn t : 0 ≤ sn → twig_shape t → twig_ok t →
  peers_ok sn 8 (tree_path (right_hash t) 3 8 (sn mod 2048 / 256)).
Proof.
  intros Hsn Hs [H1 H2 H3 _]. destruct (sn_offset sn Hsn) as [_ Hb]. apply tree_path_peers. intros i Hi. split.
  - change 256 with (2 ^ 8). rewrite Z.div_div, <- Z.pow_add_r by (try apply Z.pow_pos_nonneg; lia).
    rewrite odd_div_testbit, sn_bit_testbit by lia. change 2048 with (2 ^ 11).
    rewrite Z.mod_pow2_bits_low by lia. done.
  - set (n := sn mod 2048) in *. assert (i = 0 ∨ i = 1 ∨ i = 2) as [->|[->| ->]] by lia.
    + change (2 ^ 0) with 1. rewrite Z.div_1_r. apply (bits_slice t _ Hs). apply (lxor1_bounds 4). zdiv.
    + change (2 ^ 1) with 2. change (zlen (twig_load t (SL1 (Z.lxor (n / 256 / 2) 1))) = 32).
      rewrite (H1 _ (lxor1_bounds 2 (n / 256 / 2) ltac:(zdiv))). apply zlen_hash2.
    + change (2 ^ 2) with 4. change (zlen (twig_load t (SL2 (Z.lxor (n / 256 / 4) 1))) = 32).
      rewrite (H2 _ (lxor1_bounds 1 (n / 256 / 4) ltac:(zdiv))). apply zlen_hash2.
Qed.
End right_path.

(** ** The upper path *)

Section upper_path.
Context `{Hsha : !Sha256, Hmeow : !Meow} {F : Type} `{!AppendFile F}.
Implicit Types (tree : Tree F) (t : Twig).

Definition upper_hash tree (L n : Z) : bytes :=
  if L =? 12 then default (twigRoot NullTwig) (getTwigRoot tree n) else default [] (nodes tree !! Pos L n).

(** Above a twig that has not been pruned, both children and their parent are
    there, and the parent is the hash of the children. *)
Lemma upper_children tree O id L : upper_inv tree (λ _, False) O (calcMaxLevel (youngestTwigID tree)) →
  O ≤ id ≤ youngestTwigID tree → 12 ≤ L < calcMaxLevel (youngestTwigID tree) →
  ∃ l r, child tree L (2 * anc id (L + 1)) = Some l ∧ right_child tree (L + 1) (anc id (L + 1)) = Some r ∧
    nodes tree !! Pos (L + 1) (anc id (L + 1)) = Some (hash2 L l r).
Proof.
  intros [Hr _ _ _ Hp Ho] Hid HL.
  pose proof (anc_mono O id (L + 1)). pose proof (anc_mono id (youngestTwigID tree) (L + 1)).
  pose proof (anc_bound id (L + 1)). pose proof (half_anc_le id (youngestTwigID tree) (L + 1) ltac:(lia) ltac:(lia)) as Hh.
  rewrite Z.add_simpl_r in Hh.
  destruct (Hp L (2 * anc id (L + 1))) as [[l Hl]|[_ (? & [] & _)]]; [lia|lia|].
  destruct (Ho (L + 1) (anc id (L + 1))) with (l := l) as (r & Hrc & Hn); [lia|lia|left; lia|by rewrite Z.add_simpl_r|].
  rewrite Z.add_simpl_r in Hn. exists l, r. done.
Qed.

Lemma upper_hash_child tree L n l : child tree L n = Some l → upper_hash tree L n = l.
Proof. unfold child, upper_hash. case_match; by intros ->. Qed.

Lemma upper_hash_right tree L n r : right_child tree (L + 1) n = Some r → upper_hash tree L (2 * n + 1) = r.
Proof.
  unfold right_child, upper_hash. rewrite Z.add_simpl_r.
  destruct (Z.eqb_spec (L + 1) 13), (Z.eqb_spec L 12); try lia; [by intros [= ->]|by intros ->].
Qed.

Lemma upper_pair tree O id L : upper_inv tree (λ _, False) O (calcMaxLevel (youngestTwigID tree)) →
  O ≤ id ≤ youngestTwigID tree → 12 ≤ L < calcMaxLevel (youngestTwigID tree) →
  pair_hashed (upper_hash tree) L (anc id L).
Proof.
  intros Hup Hid HL. destruct (upper_children tree O id L Hup Hid HL) as (l & r & Hl & Hr & Hn).
  destruct (ui_range _ _ _ _ Hup) as [HO HY]. pose proof (calcMaxLevel_bound (youngestTwigID tree) ltac:(lia)) as [Hmax _].
  unfold pair_hashed. rewrite <- anc_succ by lia.
  rewrite (upper_hash_child _ _ _ _ Hl), (upper_hash_right _ _ _ _ Hr).
  unfold to_uint. rewrite Z.mod_small by (change (2 ^ 8) with 256; lia).
  unfold upper_hash. destruct (Z.eqb_spec (L + 1) 12); [lia|]. by rewrite Hn.
Qed.

Lemma get_node_hash tree L n : 13 ≤ L → is_Some (nodes tree !! Pos L n) → get_node tree (Pos L n) = Ret (upper_hash tree L n).
Proof.
  intros HL [h Hh]. unfold get_node, upper_hash. destruct (Z.eqb_spec L 12); [lia|]. by rewrite Hh.
Qed.

(** Both nodes of a pair, whichever is the self. *)
Lemma pair_present tree O id L : upper_inv tree (λ _, False) O (calcMaxLevel (youngestTwigID tree)) →
  O ≤ id ≤ youngestTwigID tree → 13 ≤ L < calcMaxLevel (youngestTwigID tree) →
  is_Some (nodes tree !! Pos L (anc id L)) ∧ is_Some (nodes tree !! Pos L (Z.lxor (anc id L) 1)).
Proof.
  intros Hup Hid HL. destruct (upper_children tree O id L Hup Hid ltac:(lia)) as (l & r & Hl & Hr & _).
  destruct (ui_range _ _ _ _ Hup) as [HO HY]. pose proof (anc_bound id L ltac:(lia) ltac:(lia)).
  unfold child in Hl. unfold right_child in Hr. rewrite Z.add_simpl_r in Hr.
  destruct (Z.eqb_spec L 12), (Z.eqb_spec (L + 1) 13); try lia.
  rewrite anc_succ in Hl, Hr by lia. pose proof (Zmod_odd (anc id L)) as Hm.
  rewrite lxor1 by lia. destruct (Z.odd (anc id L)).
  - replace (2 * (anc id L / 2) + 1) with (anc id L) in Hr by zdiv.
    replace (2 * (anc id L / 2)) with (anc id L - 1) in Hl by zdiv. rewrite Hl, Hr. eauto.
  - replace (2 * (anc id L / 2)) with (anc id L) in * by zdiv. rewrite Hl, Hr. eauto.
Qed.

Lemma upper_nodes_ok tree O id cnt L : upper_inv tree (λ _, False) O (calcMaxLevel (youngestTwigID tree)) →
  O ≤ id ≤ youngestTwigID tree → 13 ≤ L → L + Z.of_nat cnt ≤ calcMaxLevel (youngestTwigID tree) →
  upper_nodes tree cnt L (anc id L) = Ret (tree_path (upper_hash tree) cnt L (anc id L)).
Proof.
  intros Hup Hid. revert L. induction cnt as [|cnt IH]; intros L HL Hc; [done|].
  destruct (pair_present tree O id L Hup Hid ltac:(lia)) as [Hs Hp]. cbn [upper_nodes tree_path].
  rewrite !get_node_hash by done. cbn [mbind outcome_bind].
  destruct (ui_range _ _ _ _ Hup) as [HO HY]. pose proof (anc_bound id L ltac:(lia) ltac:(lia)).
  rewrite Z.quot_div_nonneg, <- anc_succ, IH by lia. cbn [mbind outcome_bind mret outcome_ret].
  rewrite land1. unfold path_node. by destruct (Z.odd (anc id L)).
Qed.
End upper_path.

(** ** The nodes hold 32-byte hashes *)

Section nodes32.
Context `{Hsha : !Sha256, Hmeow : !Meow} {F : Type} `{!AppendFile F}.
Implicit Types (tree : Tree F) (t : Twig) (ns : gmap Z bytes).

Definition nodes32 ns : Prop := map_Forall (λ _ h, zlen h = 32) ns.

#[local] Transparent null_node NullNodeInHigherTree.
Lemma null_node_len k : zlen (null_node k) = 32.
Proof. destruct k; apply zlen_hash2. Qed.

Lemma NullNode_len i h : index NullNodeInHigherTree i = Ret h → zlen h = 32.
Proof.
  intros [_ H]%index_Ret. apply list_elem_of_lookup_2 in H. unfold NullNodeInHigherTree in H.
  apply elem_of_app in H as [H|H].
  - apply elem_of_replicate in H as [-> _]. done.
  - apply list_elem_of_fmap in H as (k & -> & _). apply null_node_len.
Qed.
#[local] Opaque null_node NullNodeInHigherTree.

Lemma nodes32_insert ns p h : nodes32 ns → zlen h = 32 → nodes32 (<[p := h]> ns).
Proof. intros. by apply map_Forall_insert_2. Qed.

Lemma nodes32_run ns js : nodes32 ns → nodes32 (run_jobs ns js).
Proof.
  revert ns. induction js as [|j js IH]; intros ns Hn; [done|]. cbn. apply IH.
  intros p h. cbn. destruct (decide (target j = p)) as [<-|Hne].
  - rewrite lookup_alter_eq. destruct (ns !! target j); [|done]. intros [= <-]. apply zlen_hash2.
  - rewrite lookup_alter_ne by done. apply Hn.
Qed.

Lemma nodes32_Run ns js : nodes32 ns → nodes32 (Run ns js).
Proof. intros Hn. unfold Run. case_match; by repeat apply nodes32_run. Qed.

Lemma node_job_nodes32 tree L maxN i tree' j : node_job tree L maxN i = Ret (tree', j) →
  nodes32 (nodes tree) → nodes32 (nodes tree').
Proof.
  unfold node_job. intros H Hn.
  set (t0 := match nodes tree !! Pos L i with Some _ => tree | None => set_nodes tree (<[Pos L i := zero32]> (nodes tree)) end) in H.
  assert (nodes32 (nodes t0)) as H0 by (subst t0; destruct (nodes tree !! Pos L i); [done|by apply nodes32_insert]).
  clearbody t0. destruct (L =? FirstLevelAboveTwig).
  - destruct (getTwigRoot t0 (2 * i)); [|done]. by injection H as <- _.
  - apply outcome_bind_Ret in H as (_ & _ & H). apply outcome_bind_Ret in H as (t1 & H1 & H).
    injection H as <- _. destruct (nodes t0 !! Pos (L - 1) (2 * i + 1)); [by injection H1 as <-|].
    invert_ret. apply nodes32_insert; [done|]. by eapply NullNode_len.
Qed.

Lemma syncUpperNodes_nodes32 tree nl tree' : syncUpperNodes tree nl = Ret tree' →
  nodes32 (nodes tree) → nodes32 (nodes tree').
Proof.
  unfold syncUpperNodes. intros H Hn. apply outcome_bind_Ret in H as ([t2 nl2] & Hf & [= <-]).
  apply (for_state_inv (λ s, nodes32 (nodes s.1))) in Hf; [done| |done].
  clear. intros [t nl] L [t' nl'] Hn _. cbn. unfold syncNodesByLevel. intros H.
  apply outcome_bind_Ret in H as (maxN & _ & H). apply outcome_bind_Ret in H as ([[t1 jobs] nl1] & Hf & [= <- _]).
  cbn [nodes set_nodes]. apply nodes32_Run.
  apply (for_state_inv (λ s, nodes32 (nodes s.1.1))) in Hf; [done| |done].
  clear. intros [[t2 jobs2] nl2] i [[t' jobs'] nl''] Hn _. cbn. intros H.
  apply outcome_bind_Ret in H as ([t3 j] & Hj & [= <- _ _]). by eapply node_job_nodes32.
Qed.

(** The operations of a block leave the nodes alone. *)
Lemma syncMT4YoungestTwig_nodes tree tree' : syncMT4YoungestTwig tree = Ret tree' → nodes tree' = nodes tree.
Proof.
  unfold syncMT4YoungestTwig. case_match; [by intros [= <-]|]. destruct (hash_leaves _ _). intros Hs. by invert_ret.
Qed.

Lemma syncMT4ActiveBits_nodes tree tree' nl : syncMT4ActiveBits tree = Ret (tree', nl) → nodes tree' = nodes tree.
Proof.
  unfold syncMT4ActiveBits. intros H.
  repeat (apply outcome_bind_Ret in H; destruct H as ([? ?] & _ & H)). by injection H as <- _.
Qed.

Lemma setEntryActiviation_nodes tree sn act tree' : setEntryActiviation tree sn act = Ret tree' → nodes tree' = nodes tree.
Proof. unfold setEntryActiviation. intros H. destruct act; by invert_ret. Qed.

Lemma appendEntry_nodes tree bz sn tree' pos : appendEntry tree bz sn = Ret (tree', pos) → nodes tree' = nodes tree.
Proof.
  unfold appendEntry. intros H. apply outcome_bind_Ret in H as (t1 & E1%setEntryActiviation_nodes & H).
  apply outcome_bind_Ret in H as ([ef p] & _ & H). rewrite <- (eq_trans E1 eq_refl : nodes t1 = nodes tree).
  destruct (_ =? 0); [|destruct (_ =? TwigMask)].
  - apply outcome_bind_Ret in H as (t & _ & H). by injection H as <- _.
  - apply outcome_bind_Ret in H as (t2 & E2%syncMT4YoungestTwig_nodes & H).
    apply outcome_bind_Ret in H as (t & _ & H). apply outcome_bind_Ret in H as (tf & _ & H).
    injection H as <- _. exact E2.
  - by injection H as <- _.
Qed.

Lemma twigRoot_len tree O id t : synced tree O → activeTwigs tree !! id = Some t → zlen (twigRoot t) = 32.
Proof.
  intros Hsy Ht. destruct (synced_twig _ _ _ _ Hsy Ht) as [_ [_ _ _ Htop]].
  change (twigRoot t) with (twig_load t STop). rewrite Htop. apply zlen_hash2.
Qed.

Lemma EndBlock_nodes32 tree O tree' root : tree_inv tree O → 0 < youngestTwigID tree →
  EndBlock tree = Ret (tree', root) → nodes32 (nodes tree) → nodes32 (nodes tree').
Proof.
  intros Hinv Hy H Hn. destruct (syncMT_ok tree O Hinv Hy) as (t1 & r1 & E1 & Hsy & _ & _).
  unfold EndBlock in H. rewrite E1 in H. cbn [mbind outcome_bind] in H.
  assert (nodes32 (nodes t1)) as Hn1.
  { unfold syncMT in E1. apply outcome_bind_Ret in E1 as (a & Ea%syncMT4YoungestTwig_nodes & E1).
    apply outcome_bind_Ret in E1 as ([b nl] & Eb%syncMT4ActiveBits_nodes & E1).
    apply outcome_bind_Ret in E1 as (c & Ec & E1). apply outcome_bind_Ret in E1 as (? & _ & E1).
    injection E1 as <- _. cbn [nodes set_touched]. eapply syncUpperNodes_nodes32; [done|]. by rewrite Eb, Ea. }
  apply outcome_bind_Ret in H as (t2 & E2 & H). apply outcome_bind_Ret in H as (ef & _ & H).
  apply outcome_bind_Ret in H as (tf & _ & H). injection H as <- _. cbn [nodes set_twigMtFile set_entryFile set_toDelete].
  apply (for_state_inv (λ s, nodes32 (nodes s) ∧ ∀ id t, activeTwigs s !! id = Some t → zlen (twigRoot t) = 32)) in E2;
    [apply E2| |split; [done|intros id t Ht; by eapply twigRoot_len]].
  clear. intros s id s' [Hs Ht] _ H. unfold delete_twig, get_twig in H. destruct (activeTwigs s !! id) as [t|] eqn:E; [|done].
  injection H as <-. cbn [nodes activeTwigs set_nodes set_activeTwigs]. split; [apply nodes32_insert; eauto|].
  intros id' t' [_ H]%lookup_delete_Some. eauto.
Qed.
End nodes32.

(** ** The prover *)

Section complete.
Context `{Hsha : !Sha256, Hmeow : !Meow} {F : Type} `{!AppendFile F, !AppendFileLaws F}.
Implicit Types (tree : Tree F) (t : Twig).

Lemma upper_hash_twig_len tree O id : synced tree O → nodes32 (nodes tree) → zlen (upper_hash tree 12 id) = 32.
Proof.
  intros Hsy Hn. unfold upper_hash. change (12 =? 12) with true. cbv iota. unfold getTwigRoot.
  destruct (activeTwigs tree !! id) as [t|] eqn:E; [by eapply twigRoot_len|].
  destruct (nodes tree !! _) as [h|] eqn:Eh; [by apply Hn in Eh|]. cbn.
  change (twigRoot NullTwig) with (twig_load NullTwig STop).
  destruct NullTwig_ok as [_ [_ _ _ Htop]]. rewrite Htop. apply zlen_hash2.
Qed.

Lemma synced_upper tree O : synced tree O → upper_inv tree (λ _, False) O (calcMaxLevel (youngestTwigID tree)).
Proof.
  intros [Hinv Hu _]. eapply upper_inv_mono; [|exact (ti_upper _ _ Hinv)]. unfold dirty. rewrite Hu. set_solver.
Qed.

Lemma upper_part tree O sn root : synced tree O → 0 < youngestTwigID tree → nodes32 (nodes tree) → 0 ≤ sn →
  O ≤ sn / 2048 ≤ youngestTwigID tree → nodes tree !! Pos (calcMaxLevel (youngestTwigID tree)) 0 = Some root →
  is_Some (getTwigRoot tree (sn / 2048)) →
  ∃ us, let u0 := path_node (upper_hash tree) 12 (sn / 2048) in
    getUpperPathAndRoot tree (sn / 2048) = Ret (Some (u0 :: us, root)) ∧ chain 12 u0 us root ∧
    peers_ok sn 11 (u0 :: us).
Proof.
  intros Hsy Hy Hn Hsn Hid Hroot [self Hself]. pose proof (synced_upper _ _ Hsy) as Hup.
  destruct (ui_range _ _ _ _ Hup) as [HO HY].
  pose proof (calcMaxLevel_bound (youngestTwigID tree) ltac:(lia)) as [Hmax Hmin]. specialize (Hmin Hy).
  set (id := sn / 2048) in *. set (M := calcMaxLevel (youngestTwigID tree)) in *.
  set (cnt := Z.to_nat (M - 13)). exists (tree_path (upper_hash tree) cnt 13 (id / 2)). cbv zeta. split_and!.
  - unfold getUpperPathAndRoot. rewrite Hself. fold M. change (FirstLevelAboveTwig) with 13.
    rewrite Z.quot_div_nonneg by lia. pose proof (upper_nodes_ok tree O id cnt 13 Hup ltac:(lia)) as Hu.
    assert (anc id 13 = id / 2) as E13 by (change 13 with (12 + 1); rewrite anc_succ, anc_12 by lia; done).
    rewrite E13 in Hu. fold cnt. rewrite Hu by (unfold cnt; lia). cbn [mbind outcome_bind].
    unfold get_node. rewrite Hroot. cbn [mbind outcome_bind mret outcome_ret]. unfold path_node.
    rewrite land1. do 4 f_equal. f_equal; [|by destruct (Z.odd id)].
    unfold upper_hash. change (12 =? 12) with true. cbv iota. by rewrite Hself.
  - pose proof (tree_path_chain (upper_hash tree) cnt 12 id ltac:(lia)) as H.
    replace (12 + Z.of_nat cnt + 1) with M in H by (unfold cnt; lia).
    replace (Z.of_nat cnt + 1) with (M - 12) in H by (unfold cnt; lia).
    change (id / 2 ^ (M - 12)) with (anc id M) in H.
    assert (anc id M = 0) as E0.
    { pose proof (anc_mono id (youngestTwigID tree) M). pose proof (anc_bound id M).
      pose proof (anc_top (youngestTwigID tree) ltac:(lia)) as Ht. fold M in Ht. lia. }
    rewrite E0 in H. replace (upper_hash tree M 0) with root in H; [|unfold upper_hash; destruct (Z.eqb_spec M 12); [lia|by rewrite Hroot]].
    apply H. intros i Hi. replace (id / 2 ^ i) with (anc id (12 + i)); [|unfold anc; f_equal; f_equal; lia].
    eapply upper_pair; [done|lia|fold M; unfold cnt in Hi; lia].
  - change (path_node (upper_hash tree) 12 id :: tree_path (upper_hash tree) cnt 13 (id / 2)) with
      (tree_path (upper_hash tree) (S cnt) 12 id).
    apply tree_path_peers. intros i Hi. split.
    + unfold id. change 2048 with (2 ^ 11). rewrite Z.div_div, <- Z.pow_add_r by (try apply Z.pow_pos_nonneg; lia).
      rewrite odd_div_testbit, sn_bit_testbit by lia. done.
    + destruct (decide (i = 0)) as [->|]; [by eapply upper_hash_twig_len|].
      replace (id / 2 ^ i) with (anc id (12 + i)); [|unfold anc; f_equal; f_equal; lia].
      destruct (pair_present tree O id (12 + i) Hup ltac:(lia)) as [_ [h Hh]]; [fold M; unfold cnt in Hi; lia|].
      unfold upper_hash. destruct (Z.eqb_spec (12 + i) 12); [lia|]. rewrite Hh. by apply Hn in Hh.
Qed.

(** The Merkle tree of the twig: in memory for the youngest, else on disk. *)
Definition twig_mt tree (id : Z) (mt : list bytes) : Prop :=
  mt_ok mt ∧ zlen mt = 4096 ∧ hashes32 mt ∧
  ((id = youngestTwigID tree ∧ mt = mtree4YoungestTwig tree) ∨
   (id ≠ youngestTwigID tree ∧ af_flushed (twigMtFile tree) ∧ ∃ p, twig_stored (twigMtFile tree) id (drop 1 mt) p)).

Lemma zget_drop1 (mt : list bytes) i : zlen mt = 4096 → 1 ≤ i < 4096 → zget (drop 1 mt) (i - 1) = Some (mt_at mt i).
Proof.
  intros Hl Hi. assert (zget (drop 1 mt) (i - 1) = zget mt i) as ->.
  { unfold zget. destruct (Z.leb_spec 0 i), (Z.leb_spec 0 (i - 1)); try lia.
    rewrite lookup_drop. f_equal. lia. }
  destruct (zget_Some mt i) as [h Eh]; [lia|]. unfold mt_at. by rewrite Eh.
Qed.

Lemma mt_at_len mt i : hashes32 mt → zlen mt = 4096 → 0 ≤ i < 4096 → zlen (mt_at mt i) = 32.
Proof.
  intros Hh Hl Hi. destruct (zget_Some mt i) as [h Eh]; [lia|]. unfold mt_at. rewrite Eh. apply Hh.
  unfold zget in Eh. case_match; [|done]. by eapply list_elem_of_lookup_2.
Qed.

Lemma left_part tree sn mt : 0 ≤ sn → twig_mt tree (sn / 2048) mt →
  (if sn / 2048 =? youngestTwigID tree then
     l ← getLeftPathInMem (mtree4YoungestTwig tree) sn; mret (tree, l)
   else '(tf, l) ← getLeftPathOnDisk (twigMtFile tree) (sn / 2048) sn; mret (set_twigMtFile tree tf, l)) =
  Ret (tree, tree_path (left_hash mt) 11 0 (sn mod 2048)).
Proof.
  intros Hsn (Hok & Hl & Hh & [[E ->]|[E (Hfl & p & Hst)]]).
  - rewrite (proj2 (Z.eqb_eq _ _) E). unfold getLeftPathInMem.
    rewrite (getLeftPath_ok _ _ (mtree4YoungestTwig tree)); [done|done|].
    intros i Hi. destruct (zget_Some (mtree4YoungestTwig tree) i) as [h Eh]; [lia|].
    rewrite (index_zget _ _ _ Eh). unfold mt_at. by rewrite Eh.
  - destruct (Z.eqb_spec (sn / 2048) (youngestTwigID tree)); [done|]. unfold getLeftPathOnDisk.
    rewrite (getLeftPath_ok _ _ mt); [by destruct tree|done|].
    intros i Hi. eapply GetHashNode_ok; [done|done|done|by apply zget_drop1|apply mt_at_len; done || lia].
Qed.

Lemma GetProof_ok tree O sn root mt t : synced tree O → 0 < youngestTwigID tree → nodes32 (nodes tree) →
  0 ≤ sn → is_int64 sn → O ≤ sn / 2048 ≤ youngestTwigID tree →
  nodes tree !! Pos (calcMaxLevel (youngestTwigID tree)) 0 = Some root →
  t = default NullTwig (activeTwigs tree !! (sn / 2048)) → twig_shape t → twig_ok t →
  getTwigRoot tree (sn / 2048) = Some (hash2 11 (mt_at mt 1) (activeBitsMTL3 t)) → twig_mt tree (sn / 2048) mt →
  ∃ pp, GetProof tree sn = Ret (tree, Some pp) ∧ accepted pp ∧ path_ok pp ∧ ppSerialNum pp = sn ∧ ppRoot pp = root ∧
    first_self (LeftOfTwig pp) = mt_at mt (LeafCountInTwig + sn mod 2048) ∧
    first_self (RightOfTwig pp) = bits32 (activeBits t) (sn mod 2048 / 256).
Proof.
  intros Hsy Hy Hn Hsn H64 Hid Hroot -> Hshape Hok Htr Hmt. destruct (sn_offset sn Hsn) as [_ Hoff].
  destruct (upper_part tree O sn root Hsy Hy Hn Hsn Hid Hroot ltac:(by rewrite Htr)) as (us & Eu & Hcu & Hpu).
  assert (upper_hash tree 12 (sn / 2048) = hash2 11 (mt_at mt 1) (activeBitsMTL3 (default NullTwig (activeTwigs tree !! (sn / 2048))))) as Hself.
  { unfold upper_hash. change (12 =? 12) with true. cbv iota. by rewrite Htr. }
  destruct (Hmt) as (Hmok & Hml & Hmh & _). destruct (sn_parts sn Hsn) as (Esh & _ & _).
  eexists (mkPath (tree_path (left_hash mt) 11 0 (sn mod 2048))
    (tree_path (right_hash (default NullTwig (activeTwigs tree !! (sn / 2048)))) 3 8 (sn mod 2048 / 256)) _ sn root).
  split_and!.
  - unfold GetProof. rewrite Esh. cbv zeta.
    destruct (Z.gtb_spec (sn / 2048) (youngestTwigID tree)); [lia|]. destruct (Z.ltb_spec (sn / 2048) 0); [zdiv|].
    cbn [orb negb require mbind outcome_bind]. rewrite Eu. cbn [mbind outcome_bind].
    pose proof (left_part tree sn mt Hsn Hmt) as Hleft. cbn [mbind outcome_bind] in Hleft. rewrite Hleft.
    cbn [mbind outcome_bind mret outcome_ret]. rewrite getRightPath_ok by done. reflexivity.
  - split. do 8 eexists. split_and!; [reflexivity|reflexivity|reflexivity|by apply left_chain|apply right_chain; [done|zdiv]| |exact Hcu].
    exact (eq_sym Hself).
  - split; cbn [LeftOfTwig RightOfTwig UpperPath ppSerialNum ppRoot].
    + split; [done|]. by apply left_peers.
    + split; [done|]. by apply right_peers.
    + exact Hpu.
    + split.
      { change (zlen (mt_at mt (2048 + sn mod 2048)) = 32). apply mt_at_len; [done|done|lia]. }
      apply bits_slice; [done|zdiv].
    + by apply Hn in Hroot.
    + done.
  - done.
  - done.
  - done.
  - done.
Qed.
End complete.

(** ** Proofs after a block *)

Section after_block.
Context `{Hsha : !Sha256, Hmeow : !Meow} {F : Type} `{!AppendFile F, !AppendFileLaws F}.
Implicit Types (tree : Tree F) (t : Twig).

(** The hash over the active bits depends on nothing else. *)
Lemma twig_ok_L3 t t' : twig_ok t → twig_ok t' → activeBits t = activeBits t' → activeBitsMTL3 t = activeBitsMTL3 t'.
Proof.
  intros [A1 A2 A3 _] [B1 B2 B3 _] Eb.
  change (twig_load t SL3 = twig_load t' SL3). rewrite A3, B3.
  rewrite (A2 0), (A2 1), (B2 0), (B2 1) by lia. change (2 * 0 + 1) with 1. change (2 * 1 + 1) with 3. change (2 * 0) with 0. change (2 * 1) with 2.
  rewrite (A1 0), (A1 1), (A1 2), (A1 3), (B1 0), (B1 1), (B1 2), (B1 3) by lia. cbn [twig_load]. by rewrite Eb.
Qed.

#[local] Transparent NullTwig.
Lemma NullTwig_bits : activeBits NullTwig = replicate 256 0.
Proof. unfold NullTwig. generalize (default [] (zget NullMT4Twig 1)) as h. intros h. by vm_compute. Qed.
#[local] Opaque NullTwig.

Lemma tree_run_nodes32 (ef tf : F) tree N : af_ok ef → af_ok tf → 32 ≤ af_limit tf → af_Size ef = 0 → af_Size tf = 0 →
  tree_run ef tf tree N → nodes32 (nodes tree).
Proof.
  intros Hef Htf Hlim Se St. induction 1 as [|tree N e tree' pos Hrun IH HN He Hok Hsn Hl E|
    tree N sn tree' n Hrun IH Hsn Hact E|tree N id Hrun IH Hne Hact Hni|tree N tree' root Hrun IH HN E].
  - cbn. by apply map_Forall_singleton.
  - unfold AppendEntry in E. apply appendEntry_nodes in E. by rewrite E.
  - unfold DeactiviateEntry in E. apply outcome_bind_Ret in E as (t & E%setEntryActiviation_nodes & [= <- _]).
    by rewrite E.
  - done.
  - destruct (tree_run_inv ef tf tree N Hef Htf Hlim Se St Hrun) as (I1 & I2 & I3).
    eapply EndBlock_nodes32; [done|rewrite (sq_young _ _ I2); zdiv|done|done].
Qed.

(** The twig of an entry after the block: in memory, or evicted with no bit set. *)
Lemma proof_twig tree (t1 : Tree F) tree' t : (∀ id, activeTwigs tree' !! id = if decide (id ∈ twigsToBeDeleted tree) then None else activeTwigs t1 !! id) →
  ∀ O id s, synced t1 O → activeTwigs t1 !! id = Some s → activeBits s = activeBits t →
  (∀ n, 0 ≤ n < 2 ^ 54 → getTwigRoot tree' n = getTwigRoot t1 n) → 0 ≤ id < 2 ^ 54 →
  (id ∉ twigsToBeDeleted tree ∨ activeBits t = replicate 256 0) →
  let t' := default NullTwig (activeTwigs tree' !! id) in
  twig_shape t' ∧ twig_ok t' ∧ activeBits t' = activeBits t ∧
  getTwigRoot tree' id = Some (hash2 11 (leftRoot s) (activeBitsMTL3 t')).
Proof.
  intros Ha O id s Hsy Hs Eb Hgr Hid Hcase t'. destruct (synced_twig _ _ _ _ Hsy Hs) as [Hsh Hok].
  assert (getTwigRoot tree' id = Some (hash2 11 (leftRoot s) (activeBitsMTL3 s))) as Hroot.
  { rewrite Hgr by done. unfold getTwigRoot. rewrite Hs. f_equal. apply (ok_Top _ Hok). }
  subst t'. rewrite Ha. case_decide as Hdel; cbn [default].
  - destruct Hcase as [Hno|Hz]; [done|]. destruct NullTwig_ok as [Hns Hno].
    assert (activeBits NullTwig = activeBits s) as EN by (rewrite NullTwig_bits; congruence).
    split_and!; [done|done|congruence|]. rewrite Hroot. do 2 f_equal. symmetry. by apply twig_ok_L3.
  - rewrite Hs. done.
Qed.

(** C5: the prover is complete. After any block of any run, an entry whose
    twig is in memory, or has been evicted in this block with no active bit,
    has a proof for the root of the block. [Check] accepts it as it is; its
    leaf is the hash of the entry when the twig is the youngest one, its right
    leaf are the active bits of the twig; and what a client decodes from its
    bytes is accepted too, with [Check] filling in the path of the prover. *)
Theorem GetProof_complete (ef tf : F) tree N tree' root sn t :
  af_ok ef → af_ok tf → 32 ≤ af_limit tf → af_Size ef = 0 → af_Size tf = 0 →
  tree_run ef tf tree N → 2048 ≤ N → EndBlock tree = Ret (tree', root) →
  0 ≤ sn → activeTwigs tree !! (sn / 2048) = Some t →
  (sn / 2048 ∉ twigsToBeDeleted tree ∨ activeBits t = replicate 256 0) →
  ∃ pp, GetProof tree' sn = Ret (tree', Some pp) ∧ ProofPath_Check false pp = Ret (pp, None) ∧
    ppSerialNum pp = sn ∧ ppRoot pp = root ∧
    (sn / 2048 = N / 2048 → first_self (LeftOfTwig pp) =
      leaf_hash (mtree4YoungestTwig tree) (leave4YoungestTwig tree) (sn mod 2048)) ∧
    first_self (RightOfTwig pp) = bits32 (activeBits t) (sn mod 2048 / 256) ∧
    ∃ pp', BytesToProofPath (ToBytes pp) = Ret (Some pp') ∧ ProofPath_Check true pp' = Ret (pp, None).
Proof.
  intros Hef Htf Hlim Se St Hrun HN E Hsn Ht Hcase.
  destruct (tree_run_inv ef tf tree N Hef Htf Hlim Se St Hrun) as (I1 & I2 & I3).
  pose proof (tree_run_nodes32 ef tf tree N Hef Htf Hlim Se St Hrun) as Hn.
  assert (0 < youngestTwigID tree) as Hy by (rewrite (sq_young _ _ I2); zdiv).
  pose proof (EndBlock_nodes32 _ _ _ _ I1 Hy E Hn) as Hn'.
  destruct (EndBlock_seq_files _ _ _ _ _ I1 I2 I3 Hy E) as [J2 J3].
  destruct (EndBlock_ok tree 0 I1 Hy (proj1 (fi_entry _ _ I3)) (proj1 (fi_mt _ _ I3))) as
    (t1 & tree2 & root2 & E2 & Hsy & Hsy1 & Hsd & _ & Ey & _ & Em & Hgr & Ha & Hroot & _ & _ & _ & _ & K5 & K6 & _).
  rewrite E in E2. injection E2 as <- <-.
  destruct (ui_range _ _ _ _ (ti_upper _ _ I1)) as [HO HY].
  pose proof (ui_twigs _ _ _ _ (ti_upper _ _ I1) (sn / 2048) ltac:(by eexists)) as Hid.
  pose proof (sd_twigs _ _ Hsd (sn / 2048)) as Hfr. rewrite Ht in Hfr.
  destruct (activeTwigs t1 !! (sn / 2048)) as [s|] eqn:Es; [|inversion Hfr].
  inversion Hfr as [? ? [[Eb _] El]|]; subst.
  destruct (proof_twig tree t1 tree' t Ha 0 (sn / 2048) s Hsy1 Es Eb Hgr ltac:(lia) Hcase) as (T1 & T2 & T3 & T4).
  assert (∃ mt, mt_at mt 1 = leftRoot s ∧ twig_mt tree' (sn / 2048) mt ∧
    (sn / 2048 = youngestTwigID tree → mt = mtree4YoungestTwig tree')) as (mt & Eroot & Hmt & Hyoung).
  { destruct (decide (sn / 2048 = youngestTwigID tree)) as [Eid|Hne].
    - exists (mtree4YoungestTwig tree'). destruct Hsy as [J1 _ Hs]. pose proof (ti_clean _ _ J1 Hs) as [Hmok _].
      destruct (ti_youngest _ _ (sy_inv _ _ Hsy1)) as (ty & Hty & Hlr).
      rewrite (sd_young _ _ Hsd), <- Eid, Es in Hty. injection Hty as <-.
      rewrite Em. split_and!; [by rewrite Hlr by apply Hsy1| |done].
      rewrite <- Em. split_and!; [done|apply J1|apply J3|]. left. by rewrite Ey.
    - destruct (fi_stored _ _ I3 _ _ Hne Ht) as (mt & p & Hst & Hl & Hh & Hmok & Er).
      exists mt. split_and!; [by rewrite El| |done]. split_and!; [done|done|done|]. right. rewrite Ey.
      split_and!; [done|done|]. exists p. by eapply twig_stored_keeps. }
  destruct (GetProof_ok tree' 0 sn root mt (default NullTwig (activeTwigs tree' !! (sn / 2048))) Hsy ltac:(lia) Hn' Hsn) as (pp & Ep & Hacc & Hpok & Hpsn & Hpr & Hleft & Hright);
    [unfold is_int64; zdiv|lia|by rewrite Ey|reflexivity|done|done|by rewrite Eroot|done|].
  exists pp. split_and!; [done|apply (accepted_Check false); done|done|done| |by rewrite Hright, T3|].
  - intros Eid. rewrite <- (sq_young _ _ I2) in Eid. rewrite Hleft, (Hyoung Eid), Em.
    apply (sd_leaves _ _ Hsd). by apply sn_offset.
  - exists (strip_path pp). split; [by apply decode_encode|]. by apply (accepted_Check true).
Qed.
End after_block.

(** ** Witness *)

Section witness.
#[local] Existing Instance toy_sha256.
#[local] Existing Instance toy_meow.

Lemma GetProof_complete_witness : ∃ (tree tree' : Tree HPFile) root pp,
  EndBlock tree = Ret (tree', root) ∧ GetProof tree' 2050 = Ret (tree', Some pp) ∧
  ProofPath_Check false pp = Ret (pp, None).
Proof.
  destruct small_tree as (tree & Hrun & (I1 & I2 & I3) & _).
  assert (0 < youngestTwigID tree) as Hy by (rewrite (sq_young _ _ I2); vm_decide).
  destruct (EndBlock_ok tree 0 I1 Hy (proj1 (fi_entry _ _ I3)) (proj1 (fi_mt _ _ I3))) as (t1 & tree' & root & E & _).
  destruct (ti_youngest _ _ I1) as (t & Ht & _). rewrite (sq_young _ _ I2) in Ht.
  destruct (GetProof_complete (file_of []) (file_of []) tree 2055 tree' root 2050 t) as (pp & Ep & Hc & _);
    [by apply file_of_ok|by apply file_of_ok|vm_decide|done|done|exact Hrun|done|exact E|done|exact Ht| |by exists tree, tree', root, pp].
  left. intros Hin. destruct (ti_evict _ _ I1) as [_ Hev]. destruct (Hev _ Hin) as [Hne _].
  apply Hne. rewrite (sq_young _ _ I2). done.
Defined.
End witness.
