(* ===== verification/LoadDump.v ===== *)
(** * Dumping, loading and recovering a data tree (datatree/load_dump.go)

    [Flush] writes the twigs, the nodes and the Merkle tree of the youngest
    twig to three files, each part with a checksum; [LoadTree] reads them back.
    [RecoverTree] rebuilds a tree from the entry file and the twig file. A file
    that is read is the bytes not yet read. *)
From S2P Require Import Prelude Types EntryCodec Hasher AppendFile HPFile EntryFile TwigMtFile.
From S2P Require Import Twig YoungestTwig Tree ActiveBits UpperNodes TreeInv TreeAppend TreeRun.
From S2P Require Import MerkleProof ProofComplete.

(** ** Reading a file *)

(** [infile.Read(buf)]: nothing left is [io.EOF]; a short read fills the start
    of the buffer and is no error. *)
Definition Read (buf rem : bytes) : option (bytes * bytes) :=
  match rem with
  | [] => None
  | _ => Some (splice buf 0 (take (length buf) rem), drop (length buf) rem)
  end.

(** Reads into one buffer after the other; [None] is [io.EOF]. *)
Fixpoint read_slices (bufs : list bytes) (rem : bytes) : option (list bytes * bytes) :=
  match bufs with
  | [] => Some ([], rem)
  | buf :: bufs =>
      match Read buf rem with
      | None => None
      | Some (b, rem) =>
          match read_slices bufs rem with
          | None => None
          | Some (l, rem) => Some (b :: l, rem)
          end
      end
  end.

Inductive load_error : Type := IoEOF | ChecksumMismatch.

Section twigs.
Context `{Hmeow : !Meow}.

(** ** Twigs *)

Definition twig_slices (twigID : Z) (twig : Twig) : list bytes :=
  [le_bytes 8 (to_uint64 twigID); le_bytes 8 (to_uint64 (FirstEntryPos twig)); activeBits twig] ++
  activeBitsMTL1 twig ++ activeBitsMTL2 twig ++ [activeBitsMTL3 twig; leftRoot twig; twigRoot twig].

Definition Twig_Dump (twigID : Z) (twig : Twig) : bytes :=
  let bz := concat (twig_slices twigID twig) in bz ++ meow32 bz.

Definition twig_bufs : list bytes :=
  (λ n, replicate n 0) <$> [8; 8; 256; 32; 32; 32; 32; 32; 32; 32; 32; 32; 4]%nat.

Definition LoadTwigFromFile (infile : bytes) : load_error + (Z * Twig * bytes) :=
  match read_slices twig_bufs infile with
  | Some (([b0; b1; bits; p0; p1; p2; p3; q0; q1; l3; left_; root; sum] as slices), infile) =>
      if bool_decide (sum = meow32 (concat (take 12 slices))) then
        inr (to_int64 (le_val b0),
          mkTwig bits [p0; p1; p2; p3] [q0; q1] l3 left_ root (to_int64 (le_val b1)), infile)
      else inl ChecksumMismatch
  | _ => inl IoEOF
  end.

(** The loop of [LoadTree] over the twig file. *)
Fixpoint load_twigs (fuel : nat) (infile : bytes) (twigs : gmap Z Twig) (youngest : Z) :
    outcome (gmap Z Twig * Z) :=
  match fuel with
  | O => Panic "out of fuel"
  | S fuel =>
      match LoadTwigFromFile infile with
      | inl IoEOF => mret (twigs, youngest)
      | inl ChecksumMismatch => Panic "Checksum mismatch"
      | inr (twigID, twig, infile) =>
          load_twigs fuel infile (<[twigID := twig]> twigs) (if youngest <? twigID then twigID else youngest)
      end
  end.

(** ** Nodes *)

Fixpoint edge_nodes_from (n : nat) (bz : bytes) (i : Z) : outcome (list EdgeNode) :=
  match n with
  | O => mret []
  | S n =>
      pos ← slice bz (i * 40) (i * 40 + 8);
      value ← slice bz (i * 40 + 8) ((i + 1) * 40);
      rest ← edge_nodes_from n bz (i + 1);
      mret (mkEdgeNode (to_int64 (le_val pos)) value :: rest)
  end.

Definition BytesToEdgeNodes (bz : bytes) : outcome (list EdgeNode) :=
  _ ← require (Z.rem (zlen bz) 40 =? 0) "Invalid byteslice length for EdgeNodes";
  edge_nodes_from (Z.to_nat (Z.quot (zlen bz) 40)) bz 0.

(** Go ranges over the map of the nodes in any order, [order]. *)
Definition DumpNodes (order : list (Z * bytes)) : outcome bytes :=
  for_state (λ out '(pos, h),
    bz ← EdgeNodesToBytes [mkEdgeNode pos h];
    mret (out ++ bz ++ meow32 bz)) [] order.

(** The buffer lives across the iterations. *)
Fixpoint load_nodes (fuel : nat) (buf infile : bytes) (ns : gmap Z bytes) : outcome (load_error + gmap Z bytes) :=
  match fuel with
  | O => Panic "out of fuel"
  | S fuel =>
      match Read buf infile with
      | None => mret (inr ns)
      | Some (buf, infile) =>
          body ← slice buf 0 40;
          sum ← slice buf 40 44;
          if bool_decide (sum = meow32 body) then
            edgeNodes ← BytesToEdgeNodes body;
            node ← index edgeNodes 0;
            load_nodes fuel buf infile (<[enPos node := enValue node]> ns)
          else mret (inl ChecksumMismatch)
      end
  end.

Definition LoadNodes (ns : gmap Z bytes) (infile : bytes) : outcome (load_error + gmap Z bytes) :=
  load_nodes (S (length infile)) (replicate 44 0) infile ns.

(** ** The Merkle tree of the youngest twig *)

Definition DumpMtree4YT (mt : list bytes) : bytes := concat mt ++ meow32 (concat mt).

Definition LoadMtree4YT (mt : list bytes) (infile : bytes) : load_error + list bytes :=
  match read_slices mt infile with
  | None => inl IoEOF
  | Some (mt, infile) =>
      match Read (replicate 4 0) infile with
      | None => inl IoEOF
      | Some (sum, _) => if bool_decide (sum = meow32 (concat mt)) then inr mt else inl ChecksumMismatch
      end
  end.
End twigs.

(** ** The whole tree *)

(** The files twigs.dat, nodes.dat and mtree4YT.dat. *)
Record dump : Type := mkDump { twigsFile : bytes; nodesFile : bytes; mt4ytFile : bytes }.

Definition load_or_panic {A} (r : load_error + A) : outcome A :=
  match r with
  | inr a => mret a
  | inl IoEOF => Panic "EOF"
  | inl ChecksumMismatch => Panic "Checksum mismatch"
  end.

Section dump_tree.
Context `{Hsha : !Sha256, Hmeow : !Meow} {F : Type} `{!AppendFile F}.
Implicit Types (tree : Tree F).

Definition sorted_twigs tree : list Z := merge_sort Z.le (elements (dom (activeTwigs tree))).

Definition Tree_Flush tree (order : list (Z * bytes)) : outcome (Tree F * dump) :=
  ef ← af_Flush (entryFile tree);
  tf ← af_Flush (twigMtFile tree);
  twigsFile ← for_state (λ out twigID, t ← get_twig tree twigID; mret (out ++ Twig_Dump twigID t))
    [] (sorted_twigs tree);
  nodesFile ← DumpNodes order;
  mret (set_twigMtFile (set_entryFile tree ef) tf,
    mkDump twigsFile nodesFile (DumpMtree4YT (mtree4YoungestTwig tree))).

(** A tree over two opened files, before anything is loaded. *)
Definition zero_mtree : list bytes := replicate 4096 zero32.

Definition LoadTree (ef tf : F) (d : dump) : outcome (Tree F) :=
  '(twigs, youngest) ← load_twigs (S (length (twigsFile d))) (twigsFile d) ∅ 0;
  r ← LoadNodes ∅ (nodesFile d);
  ns ← load_or_panic r;
  mt ← load_or_panic (LoadMtree4YT zero_mtree (mt4ytFile d));
  mret (mkTree ef tf ns youngest twigs mt (replicate 2048 None) (-1) (-1) [] ∅ []).

(** ** Recovery *)

(** The loop over the list of deactivated serial numbers: the bits are
    cleared without touching their groups. *)
Definition recover_deactived tree (oldestActiveTwigID : Z) (sns : list Z) : outcome (Tree F) :=
  for_state (λ tree sn,
    let twigID := Z.shiftr sn TwigShift in
    if twigID >=? oldestActiveTwigID then
      t ← get_twig tree twigID;
      t ← clearBit t (Z.land sn TwigMask);
      mret (put_twig tree twigID t)
    else mret tree) tree sns.

Definition RecoverEntry tree (pos : Z) (entry : Entry) (deactived : list Z) (oldestActiveTwigID : Z) :
    outcome (Tree F) :=
  tree ← recover_deactived tree oldestActiveTwigID deactived;
  let twigID := Z.shiftr (SerialNum entry) TwigShift in
  let tree := set_youngest tree twigID in
  tree ← ActiviateEntry tree (SerialNum entry);
  let position := Z.land (SerialNum entry) TwigMask in
  let start := if mtree4YTChangeStart tree =? -1 then position else mtree4YTChangeStart tree in
  let bz := EntryToBytes entry deactived in
  mt ← store_index (mtree4YoungestTwig tree) (LeafCountInTwig + position) (hash bz);
  let tree := set_mtree tree mt (leave4YoungestTwig tree) start position in
  if position =? 0 then
    t ← get_twig tree twigID;
    mret (put_twig tree twigID (set_FirstEntryPos t pos))
  else if position =? TwigMask then
    tree ← syncMT4YoungestTwig tree;
    let tree := set_youngest tree (youngestTwigID tree + 1) in
    let tree := put_twig tree (youngestTwigID tree) CopyNullTwig in
    mret (set_mtree tree NullMT4Twig (leave4YoungestTwig tree)
            (mtree4YTChangeStart tree) (mtree4YTChangeEnd tree))
  else mret tree.

(** Every record takes at least one byte of the file: [size - pos] reads are
    enough. *)
Definition ScanEntries tree (oldestActiveTwigID : Z) : outcome (Tree F * list EntryX) :=
  '(tf, pos) ← GetFirstEntryPos (twigMtFile tree) oldestActiveTwigID;
  let size := af_Size (entryFile tree) in
  '(ef, l) ← ScanEntries_from (S (Z.to_nat (size - pos))) (entryFile tree) pos size;
  mret (set_entryFile (set_twigMtFile tree tf) ef, l).

Definition ScanEntriesLite tree (oldestActiveTwigID : Z) : outcome (Tree F * list KeyAndPos) :=
  '(tf, pos) ← GetFirstEntryPos (twigMtFile tree) oldestActiveTwigID;
  let size := af_Size (entryFile tree) in
  '(ef, l) ← ScanEntriesLite_from (S (Z.to_nat (size - pos))) (entryFile tree) pos size;
  mret (set_entryFile (set_twigMtFile tree tf) ef, l).

Definition RecoverActiveTwigs tree (oldestActiveTwigID : Z) : outcome (Tree F * list Z) :=
  '(tree, entries) ← ScanEntries tree oldestActiveTwigID;
  tree ← for_state (λ tree e, RecoverEntry tree (xPos e) (xEntry e) (xDeactivedSNList e) oldestActiveTwigID)
    tree entries;
  tree ← syncMT4YoungestTwig tree;
  '(tree, nList) ← syncMT4ActiveBits tree;
  mret (set_touched tree ∅, nList).

(** [copy(buf\[:\], value)] into a 32-byte array. *)
Definition copy32 (value : bytes) : bytes := take 32 (value ++ drop (length value) zero32).

Definition RecoverUpperNodes tree (edgeNodes : list EdgeNode) (nList : list Z) : outcome (Tree F) :=
  let tree := set_nodes tree
    (foldl (λ ns e, <[enPos e := copy32 (enValue e)]> ns) (nodes tree) edgeNodes) in
  syncUpperNodes tree nList.

Definition RecoverInactiveTwigRoots tree (lastPrunedTwigID oldestActiveTwigID : Z) : outcome (Tree F * list Z) :=
  _ ← require (negb (1 + Z.quot (oldestActiveTwigID - lastPrunedTwigID) 2 <? 0)) "makeslice: cap out of range";
  for_state (λ '(tree, newList) twigID,
    '(tf, left_) ← GetHashNode (twigMtFile tree) twigID 1;
    let root := hash2 11 left_ (activeBitsMTL3 NullTwig) in
    let tree := set_nodes (set_twigMtFile tree tf)
      (<[Pos (FirstLevelAboveTwig - 1) twigID := root]> (nodes tree)) in
    mret (tree, push_new newList (Z.quot twigID 2)))
    (tree, []) (seqZ lastPrunedTwigID (oldestActiveTwigID - lastPrunedTwigID)).

Definition join_lists (nList0 nList : list Z) : list Z :=
  match last nList0, nList with
  | Some x, y :: rest => if x =? y then nList0 ++ rest else nList0 ++ nList
  | _, _ => nList0 ++ nList
  end.

Definition RecoverTree (ef tf : F) (edgeNodes : list EdgeNode)
    (lastPrunedTwigID oldestActiveTwigID youngestTwigID : Z) : outcome (Tree F) :=
  let tree := mkTree ef tf ∅ youngestTwigID {[ oldestActiveTwigID := CopyNullTwig ]} NullMT4Twig
    (replicate 2048 None) (-1) (-1) [] ∅ [] in
  let startingInactiveTwigID :=
    if Z.rem lastPrunedTwigID 2 =? 1 then lastPrunedTwigID - 1 else lastPrunedTwigID in
  '(tree, nList0) ← RecoverInactiveTwigRoots tree startingInactiveTwigID oldestActiveTwigID;
  '(tree, nList) ← RecoverActiveTwigs tree oldestActiveTwigID;
  RecoverUpperNodes tree edgeNodes (join_lists nList0 nList).

(** ** Comparisons *)

Definition same_bytes (why : string) (a b : bytes) : outcome unit := require (bool_decide (a = b)) why.

Definition CompareTwig (a b : Twig) : outcome unit :=
  _ ← same_bytes "activeBits differ" (activeBits a) (activeBits b);
  _ ← require (bool_decide (activeBitsMTL1 a = activeBitsMTL1 b)) "activeBitsMTL1 differ";
  _ ← require (bool_decide (activeBitsMTL2 a = activeBitsMTL2 b)) "activeBitsMTL2 differ";
  _ ← same_bytes "activeBitsMTL3 differ" (activeBitsMTL3 a) (activeBitsMTL3 b);
  _ ← same_bytes "leftRoot differ" (leftRoot a) (leftRoot b);
  _ ← same_bytes "twigRoot differ" (twigRoot a) (twigRoot b);
  require (FirstEntryPos a =? FirstEntryPos b) "FirstEntryPos differ".

Definition CompareTreeTwigs (treeA treeB : Tree F) : outcome unit :=
  for_each (λ '(twigID, a), b ← get_twig treeB twigID; CompareTwig a b) (map_to_list (activeTwigs treeA)).

Definition CompareTreeNodes (treeA treeB : Tree F) : outcome unit :=
  _ ← require (Nat.eqb (size (nodes treeA)) (size (nodes treeB))) "Different nodes count";
  same ← for_state (λ allSame '(pos, hashA), hashB ← get_node treeB pos; mret (allSame && bool_decide (hashA = hashB)))
    true (map_to_list (nodes treeA));
  require same "Nodes Differ".
End dump_tree.

(** ** Reading back what was written *)

Lemma Read_app buf h rest : length h = length buf → h ≠ [] → Read buf (h ++ rest) = Some (h, rest).
Proof.
  intros Hl Hne. unfold Read. rewrite <- Hl, take_app_length, drop_app_length.
  destruct h as [|x h]; [done|]. cbn [app]. f_equal. f_equal. unfold splice.
  rewrite take_0, drop_ge by (cbn in *; lia). cbn. by rewrite app_nil_r.
Qed.

Definition fits (b h : bytes) : Prop := length h = length b ∧ h ≠ [].

Lemma fits_intro n h : length h = S n → fits (replicate (S n) 0) h.
Proof. intros Hl. split; [by rewrite length_replicate|by destruct h]. Qed.

Lemma read_slices_app bufs hs rest : Forall2 fits bufs hs →
  read_slices bufs (concat hs ++ rest) = Some (hs, rest).
Proof.
  induction 1 as [|b h bufs hs [Hl Hne] _ IH]; [done|]. cbn [read_slices concat].
  rewrite <- app_assoc, Read_app by done. by rewrite IH.
Qed.

(** Go's fixed sizes: all hashes are arrays of 32 bytes. *)
Record twig_sizes (t : Twig) : Prop := mk_twig_sizes {
  ts_bits : length (activeBits t) = 256%nat;
  ts_L1 : length (activeBitsMTL1 t) = 4%nat ∧ Forall (λ h, length h = 32%nat) (activeBitsMTL1 t);
  ts_L2 : length (activeBitsMTL2 t) = 2%nat ∧ Forall (λ h, length h = 32%nat) (activeBitsMTL2 t);
  ts_rest : length (activeBitsMTL3 t) = 32%nat ∧ length (leftRoot t) = 32%nat ∧ length (twigRoot t) = 32%nat;
  ts_pos : is_int64 (FirstEntryPos t)
}.

Section roundtrip.
Context `{Hmeow : !Meow}.

Lemma LoadTwig_Dump id t rest : is_int64 id → twig_sizes t →
  LoadTwigFromFile (Twig_Dump id t ++ rest) = inr (id, t, rest).
Proof.
  intros Hid [Hb [H1 F1] [H2 F2] [H3 [Hlr Htr]] Hp]. destruct t as [bits L1 L2 l3 lr tr pos].
  cbn [activeBits activeBitsMTL1 activeBitsMTL2 activeBitsMTL3 leftRoot twigRoot FirstEntryPos] in *.
  destruct L1 as [|p0 [|p1 [|p2 [|p3 [|]]]]]; try discriminate H1.
  destruct L2 as [|q0 [|q1 [|]]]; try discriminate H2.
  repeat match goal with H : Forall _ (_ :: _) |- _ => apply Forall_cons in H as [? H] end.
  pose (T := mkTwig bits [p0; p1; p2; p3] [q0; q1] l3 lr tr pos). fold T.
  assert (Twig_Dump id T = concat (twig_slices id T ++ [meow32 (concat (twig_slices id T))])) as ->.
  { rewrite concat_app. unfold Twig_Dump. f_equal. symmetry. apply app_nil_r. }
  unfold LoadTwigFromFile. pose proof (meow32_length (concat (twig_slices id T))) as Hsum.
  rewrite read_slices_app.
  2:{ unfold twig_slices, twig_bufs, T. cbn [activeBits activeBitsMTL1 activeBitsMTL2 activeBitsMTL3 leftRoot twigRoot FirstEntryPos app fmap list_fmap].
      repeat (apply Forall2_cons; split; [apply fits_intro; (assumption || apply length_le_bytes)|]).
      constructor. }
  unfold twig_slices at 1, T. cbn [activeBits activeBitsMTL1 activeBitsMTL2 activeBitsMTL3 leftRoot twigRoot FirstEntryPos app].
  rewrite bool_decide_true by reflexivity. by rewrite !int64_bytes.
Qed.

(** Inserting the pairs of a map in any order rebuilds it. *)
Definition insert_all {A} (m : gmap Z A) (l : list (Z * A)) : gmap Z A := foldl (λ m p, <[p.1 := p.2]> m) m l.

Lemma insert_all_map {A} (m : gmap Z A) l : l ≡ₚ map_to_list m → insert_all ∅ l = m.
Proof.
  intros Hp. assert (insert_all ∅ l = list_to_map (reverse l)) as ->.
  { rewrite <- (reverse_involutive l) at 1. generalize (reverse l) as k. intros k. unfold insert_all.
    induction k as [|p k IH]; [done|]. rewrite reverse_cons, foldl_app. cbn. by rewrite IH. }
  rewrite (list_to_map_proper (reverse l) (map_to_list m)); [apply list_to_map_to_list| |by rewrite reverse_Permutation].
  rewrite reverse_Permutation, Hp. apply NoDup_fst_map_to_list.
Qed.

Lemma Twig_Dump_ne id t : Twig_Dump id t ≠ [].
Proof. done. Qed.

Lemma load_twigs_ok (l : list (Z * Twig)) fuel m y : (length l < fuel)%nat →
  (∀ id t, (id, t) ∈ l → is_int64 id ∧ twig_sizes t) →
  load_twigs fuel (concat ((λ p, Twig_Dump p.1 p.2) <$> l)) m y =
  Ret (insert_all m l, foldl (λ y id, if y <? id then id else y) y l.*1).
Proof.
  revert fuel m y. induction l as [|[id t] l IH]; intros [|fuel] m y Hf Hl; try (cbn in Hf; lia); [done|].
  destruct (Hl id t) as [Hid Ht]; [by left|]. cbn [load_twigs fmap list_fmap concat fst snd].
  rewrite LoadTwig_Dump by done. cbn in Hf. rewrite IH; [done|lia|]. intros id' t' Hin. apply Hl. by right.
Qed.

Lemma foldl_max l y : (∀ x, x ∈ l → x ≤ y) → foldl (λ y id, if y <? id then id else y) y l = y.
Proof.
  induction l as [|x l IH]; intros Hl; [done|]. cbn. destruct (Z.ltb_spec y x).
  - specialize (Hl x ltac:(by left)). lia.
  - apply IH. intros z Hz. apply Hl. by right.
Qed.

Lemma foldl_max_in l y x : y ≤ x → x ∈ l → (∀ z, z ∈ l → z ≤ x) → foldl (λ y id, if y <? id then id else y) y l = x.
Proof.
  revert y. induction l as [|z l IH]; intros y Hy Hin Hle; [by apply elem_of_nil in Hin|]. cbn.
  pose proof (Hle z ltac:(by left)). assert (∀ w, w ∈ l → w ≤ x) as Hle' by (intros w Hw; apply Hle; by right).
  destruct (decide (z = x)) as [->|Hne].
  - destruct (Z.ltb_spec y x); [by apply foldl_max|]. replace x with y in * by lia. by apply foldl_max.
  - apply elem_of_cons in Hin as [->|Hin]; [done|]. destruct (Z.ltb_spec y z); by apply IH.
Qed.

(** *** Edge nodes *)

Definition edge_bytes (e : EdgeNode) : bytes := le_bytes 8 (to_uint64 (enPos e)) ++ enValue e.
Definition edge_ok (e : EdgeNode) : Prop := is_int64 (enPos e) ∧ zlen (enValue e) = 32.

Lemma EdgeNodesToBytes_ok l : Forall edge_ok l → EdgeNodesToBytes l = Ret (concat (edge_bytes <$> l)).
Proof.
  intros Hl. unfold EdgeNodesToBytes. change (concat (edge_bytes <$> l)) with ([] ++ concat (edge_bytes <$> l)).
  generalize (@nil Z) as acc. induction Hl as [|e l [_ Hv] _ IH]; intros acc; cbn [for_state fmap list_fmap concat].
  { by rewrite app_nil_r. }
  rewrite (proj2 (Z.eqb_eq _ _) Hv). cbn [require mbind outcome_bind mret outcome_ret]. rewrite IH.
  f_equal. rewrite <- !app_assoc. unfold edge_bytes at 2. by rewrite <- !app_assoc.
Qed.

Lemma zlen_edge_bytes l : Forall edge_ok l → zlen (concat (edge_bytes <$> l)) = 40 * zlen l.
Proof.
  induction 1 as [|e l [_ Hv] _ IH]; [done|]. cbn [fmap list_fmap concat]. rewrite zlen_app, zlen_cons, IH.
  unfold edge_bytes. rewrite zlen_app, zlen_le_bytes. lia.
Qed.

Lemma edge_nodes_from_ok l1 l2 : Forall edge_ok l1 → Forall edge_ok l2 →
  edge_nodes_from (length l2) (concat (edge_bytes <$> l1 ++ l2)) (zlen l1) = Ret l2.
Proof.
  intros H1 H2. revert l1 H1. induction H2 as [|e l2 [Hp Hv] _ IH]; intros l1 H1; [done|].
  pose proof (zlen_edge_bytes _ H1) as L1. pose proof (zlen_le_bytes 8 (to_uint64 (enPos e))) as L8.
  assert (concat (edge_bytes <$> l1 ++ e :: l2) =
    concat (edge_bytes <$> l1) ++ le_bytes 8 (to_uint64 (enPos e)) ++ enValue e ++ concat (edge_bytes <$> l2)) as E.
  { rewrite fmap_app, concat_app. cbn [fmap list_fmap concat]. unfold edge_bytes at 2. by rewrite <- app_assoc. }
  cbn [length edge_nodes_from].
  replace (slice _ (zlen l1 * 40) (zlen l1 * 40 + 8)) with (Ret (le_bytes 8 (to_uint64 (enPos e)))).
  2:{ rewrite E. symmetry. apply slice_mid; lia. }
  cbn [mbind outcome_bind].
  replace (slice _ (zlen l1 * 40 + 8) ((zlen l1 + 1) * 40)) with (Ret (enValue e)).
  2:{ rewrite E, app_assoc. symmetry. apply slice_mid; rewrite zlen_app; lia. }
  cbn [mbind outcome_bind]. specialize (IH (l1 ++ [e])). rewrite zlen_app, <- app_assoc in IH.
  change (zlen [e]) with 1 in IH. cbn [app] in IH. rewrite IH; [|apply Forall_app; split; [done|by apply Forall_singleton]].
  cbn [mbind outcome_bind mret outcome_ret]. rewrite int64_bytes by done. by destruct e.
Qed.

Lemma BytesToEdgeNodes_ok l : Forall edge_ok l → BytesToEdgeNodes (concat (edge_bytes <$> l)) = Ret l.
Proof.
  intros Hl. unfold BytesToEdgeNodes. rewrite zlen_edge_bytes by done.
  rewrite (Z.mul_comm 40), Z.rem_mul, Z.quot_mul by lia. cbn [Z.eqb require mbind outcome_bind].
  unfold zlen. rewrite Nat2Z.id. apply (edge_nodes_from_ok [] l); [constructor|done].
Qed.

(** *** The file of the nodes *)

Definition node_bytes (p : Z * bytes) : bytes :=
  let bz := edge_bytes (mkEdgeNode p.1 p.2) in bz ++ meow32 bz.
Definition node_sizes (p : Z * bytes) : Prop := edge_ok (mkEdgeNode p.1 p.2).

Lemma length_node_bytes p : node_sizes p → length (node_bytes p) = 44%nat.
Proof.
  intros [_ Hv]. cbn in Hv. unfold node_bytes, edge_bytes. cbn [enPos enValue].
  rewrite !length_app, length_le_bytes, meow32_length. unfold zlen in Hv. lia.
Qed.

Lemma DumpNodes_ok l : Forall node_sizes l → DumpNodes l = Ret (concat (node_bytes <$> l)).
Proof.
  intros Hl. unfold DumpNodes. change (concat (node_bytes <$> l)) with ([] ++ concat (node_bytes <$> l)).
  generalize (@nil Z) as acc. induction Hl as [|[p h] l Hp _ IH]; intros acc; cbn [for_state fmap list_fmap concat].
  { by rewrite app_nil_r. }
  rewrite EdgeNodesToBytes_ok by (by apply Forall_singleton). cbn [fmap list_fmap concat]. rewrite app_nil_r.
  cbn [mbind outcome_bind mret outcome_ret]. rewrite IH.
  change (node_bytes (p, h)) with (edge_bytes (mkEdgeNode p h) ++ meow32 (edge_bytes (mkEdgeNode p h))).
  by rewrite <- !app_assoc.
Qed.

Lemma load_nodes_ok l fuel buf ns : (length l < fuel)%nat → length buf = 44%nat → Forall node_sizes l →
  load_nodes fuel buf (concat (node_bytes <$> l)) ns = Ret (inr (insert_all ns l)).
Proof.
  intros Hf Hb Hl. revert fuel buf ns Hf Hb. induction Hl as [|p l Hp _ IH]; intros [|fuel] buf ns Hf Hb;
    try (cbn in Hf; lia); [done|].
  pose proof (length_node_bytes p Hp) as Hn. cbn [load_nodes fmap list_fmap concat].
  rewrite Read_app by (congruence || (intros E; by rewrite E in Hn)).
  set (bz := edge_bytes (mkEdgeNode p.1 p.2)).
  assert (node_bytes p = bz ++ meow32 bz) as Enb by done. rewrite Enb.
  assert (zlen bz = 40) as Hz.
  { pose proof (zlen_edge_bytes [mkEdgeNode p.1 p.2] ltac:(by apply Forall_singleton)) as E. cbn [fmap list_fmap concat] in E.
    rewrite app_nil_r in E. exact E. }
  assert (zlen (meow32 bz) = 4) as Hm by (unfold zlen; by rewrite meow32_length).
  rewrite (slice_start bz _ 0 40) by lia. cbn [mbind outcome_bind]. rewrite (slice_end bz _ 40 44) by lia. cbn [mbind outcome_bind].
  rewrite bool_decide_true by done.
  pose proof (BytesToEdgeNodes_ok [mkEdgeNode p.1 p.2] ltac:(by apply Forall_singleton)) as E. cbn [fmap list_fmap concat] in E.
  rewrite app_nil_r in E. fold bz in E. rewrite E. cbn [mbind outcome_bind index enPos enValue].
  cbn in Hf. apply IH; [lia|by rewrite <- Enb].
Qed.

(** *** The Merkle tree of the youngest twig *)

Lemma read_slices_zeros mt rest : Forall (λ h : bytes, length h = 32%nat) mt →
  read_slices (replicate (length mt) zero32) (concat mt ++ rest) = Some (mt, rest).
Proof.
  intros Hm. apply read_slices_app. induction Hm as [|h mt Hh _ IH]; [constructor|].
  cbn [length replicate]. constructor; [by apply fits_intro|done].
Qed.

Lemma LoadMtree_Dump mt : length mt = 4096%nat → Forall (λ h : bytes, length h = 32%nat) mt →
  LoadMtree4YT zero_mtree (DumpMtree4YT mt) = inr mt.
Proof.
  intros Hl Hm. unfold LoadMtree4YT, DumpMtree4YT, zero_mtree. rewrite <- Hl, read_slices_zeros by done.
  pose proof (meow32_length (concat mt)) as Hs. rewrite <- (app_nil_r (meow32 _)) at 1.
  rewrite Read_app; [by rewrite bool_decide_true|by rewrite Hs|intros E; by rewrite E in Hs].
Qed.
End roundtrip.

#[local] Opaque Pos null_node NullNodeInHigherTree NullTwig hash2 Z.pow NullMT4Twig.

(** ** The whole tree *)

Section load_tree.
Context `{Hsha : !Sha256, Hmeow : !Meow} {F : Type} `{!AppendFile F, !AppendFileLaws F}.
Implicit Types (tree : Tree F) (t : Twig).

Record dumpable tree : Prop := mk_dumpable {
  du_twigs id t : activeTwigs tree !! id = Some t → is_int64 id ∧ twig_sizes t;
  du_young : is_Some (activeTwigs tree !! youngestTwigID tree);
  du_range id : is_Some (activeTwigs tree !! id) → 0 ≤ id ≤ youngestTwigID tree;
  du_nodes p h : nodes tree !! p = Some h → is_int64 p ∧ zlen h = 32;
  du_mt : length (mtree4YoungestTwig tree) = 4096%nat ∧ Forall (λ h : bytes, length h = 32%nat) (mtree4YoungestTwig tree)
}.

Definition twig_pairs tree : list (Z * Twig) := omap (λ id, (id,.) <$> activeTwigs tree !! id) (sorted_twigs tree).

Lemma elem_of_sorted_twigs tree id : id ∈ sorted_twigs tree ↔ is_Some (activeTwigs tree !! id).
Proof. unfold sorted_twigs. rewrite merge_sort_Permutation, elem_of_elements. apply elem_of_dom. Qed.

Lemma twig_pairs_map tree : twig_pairs tree ≡ₚ map_to_list (activeTwigs tree).
Proof.
  unfold twig_pairs, sorted_twigs. apply NoDup_Permutation; [|apply NoDup_map_to_list|].
  - assert (NoDup (merge_sort Z.le (elements (dom (activeTwigs tree))))) as Hn
      by (rewrite merge_sort_Permutation; apply NoDup_elements).
    induction Hn as [|x l Hx Hn IH]; [constructor|]. cbn. destruct (activeTwigs tree !! x); [|done]. cbn.
    constructor; [|done]. rewrite list_elem_of_omap. intros (y & Hy & E).
    destruct (activeTwigs tree !! y); [|done]. injection E as -> _. done.
  - intros [id t]. rewrite list_elem_of_omap, elem_of_map_to_list. split.
    + intros (y & _ & E). destruct (activeTwigs tree !! y) eqn:Ey; [|done]. by injection E as -> ->.
    + intros Ht. exists id. rewrite Ht. split; [|done]. apply elem_of_sorted_twigs. by eexists.
Qed.

Lemma dump_twigs tree l out : (∀ id, id ∈ l → is_Some (activeTwigs tree !! id)) →
  for_state (λ out twigID, t ← get_twig tree twigID; mret (out ++ Twig_Dump twigID t)) out l =
  Ret (out ++ concat ((λ p, Twig_Dump p.1 p.2) <$> omap (λ id, (id,.) <$> activeTwigs tree !! id) l)).
Proof.
  revert out. induction l as [|id l IH]; intros out Hl; [cbn; by rewrite app_nil_r|].
  destruct (Hl id) as [t Ht]; [by left|].
  erewrite for_state_step; [|unfold get_twig; rewrite Ht; reflexivity].
  rewrite IH by (intros; apply Hl; by right).
  set (f := λ id, (id,.) <$> activeTwigs tree !! id).
  assert (omap f (id :: l) = (id, t) :: omap f l) as -> by (subst f; cbn; by rewrite Ht).
  cbn [fmap list_fmap concat fst snd]. by rewrite <- app_assoc.
Qed.

Lemma length_concat_ne {A} (l : list (list A)) : Forall (λ x, x ≠ []) l → (length l ≤ length (concat l))%nat.
Proof.
  induction 1 as [|x l Hx _ IH]; [done|]. cbn. rewrite length_app. destruct x; [done|]. cbn. lia.
Qed.

Lemma Flush_Load_ok tree order : dumpable tree → order ≡ₚ map_to_list (nodes tree) →
  af_ok (entryFile tree) → af_ok (twigMtFile tree) →
  ∃ ef tf d, Tree_Flush tree order = Ret (set_twigMtFile (set_entryFile tree ef) tf, d) ∧
    af_Flush (entryFile tree) = Ret ef ∧ af_Flush (twigMtFile tree) = Ret tf ∧
    LoadTree ef tf d = Ret (mkTree ef tf (nodes tree) (youngestTwigID tree) (activeTwigs tree)
      (mtree4YoungestTwig tree) (replicate 2048 None) (-1) (-1) [] ∅ []).
Proof.
  intros [Dt Dy Dr Dn [Dl Dm]] Hp Hef Htf.
  destruct (af_Flush_ok _ Hef) as (ef & Ee & _). destruct (af_Flush_ok _ Htf) as (tf & Et & _).
  assert (Forall node_sizes order) as Hns.
  { apply Forall_forall. intros [p h] Hin. rewrite Hp, elem_of_map_to_list in Hin. by apply Dn. }
  unfold Tree_Flush. rewrite Ee. cbn [mbind outcome_bind]. rewrite Et. cbn [mbind outcome_bind].
  rewrite dump_twigs by apply elem_of_sorted_twigs. fold (twig_pairs tree). cbn [mbind outcome_bind app].
  rewrite DumpNodes_ok by done. cbn [mbind outcome_bind mret outcome_ret].
  eexists ef, tf, _. split; [reflexivity|]. split_and!; [done|done|].
  unfold LoadTree. cbn [twigsFile nodesFile mt4ytFile].
  rewrite load_twigs_ok.
  2:{ apply Nat.lt_succ_r. rewrite <- (length_fmap (λ p, Twig_Dump p.1 p.2)) at 1. apply length_concat_ne.
      apply Forall_fmap, Forall_forall. intros [id t] _. apply Twig_Dump_ne. }
  2:{ intros id t Hin. rewrite twig_pairs_map, elem_of_map_to_list in Hin. by apply Dt. }
  cbn [mbind outcome_bind]. rewrite (insert_all_map (activeTwigs tree)) by apply twig_pairs_map.
  unfold LoadNodes. rewrite load_nodes_ok.
  2:{ apply Nat.lt_succ_r. rewrite <- (length_fmap node_bytes) at 1. apply length_concat_ne.
      apply Forall_fmap. eapply Forall_impl; [done|]. intros p Hps E. pose proof (length_node_bytes p Hps) as Hl. by rewrite E in Hl. }
  2:{ done. }
  2:{ done. }
  cbn [mbind outcome_bind load_or_panic mret outcome_ret]. rewrite (insert_all_map (nodes tree)) by done.
  rewrite LoadMtree_Dump by done. cbn [mbind outcome_bind load_or_panic mret outcome_ret].
  do 2 f_equal. destruct Dy as [ty Hty]. apply foldl_max_in.
  - apply (Dr (youngestTwigID tree)). by eexists.
  - apply list_elem_of_fmap. exists (youngestTwigID tree, ty). split; [done|].
    by rewrite twig_pairs_map, elem_of_map_to_list.
  - intros z Hz. apply list_elem_of_fmap in Hz as ([id t] & -> & Hin). rewrite twig_pairs_map, elem_of_map_to_list in Hin.
    apply Dr. by eexists.
Qed.

#[local] Transparent Pos.
Lemma Pos_int64 L n : is_int64 (Pos L n).
Proof. apply to_int64_range. Qed.
#[local] Opaque Pos.

Lemma length_zlen {A} (l : list A) n : zlen l = Z.of_nat n → length l = n.
Proof. unfold zlen. lia. Qed.

(** The lists of hashes of a consistent twig. *)
Lemma twig_ok_sizes t : twig_shape t → twig_ok t → zlen (leftRoot t) = 32 → is_int64 (FirstEntryPos t) → twig_sizes t.
Proof.
  intros [Sb S1 S2] [O1 O2 O3 O4] Hl Hp. split; [by apply length_zlen| | | |done].
  - split; [by apply length_zlen|]. apply Forall_lookup. intros k h Hk.
    assert (twig_load t (SL1 (Z.of_nat k)) = h) as E.
    { cbn. unfold zget. destruct (Z.leb_spec 0 (Z.of_nat k)); [|lia]. by rewrite Nat2Z.id, Hk. }
    apply lookup_lt_Some in Hk. unfold zlen in S1. apply length_zlen.
    rewrite <- E, (O1 (Z.of_nat k)) by lia. apply zlen_hash2.
  - split; [by apply length_zlen|]. apply Forall_lookup. intros k h Hk.
    assert (twig_load t (SL2 (Z.of_nat k)) = h) as E.
    { cbn. unfold zget. destruct (Z.leb_spec 0 (Z.of_nat k)); [|lia]. by rewrite Nat2Z.id, Hk. }
    apply lookup_lt_Some in Hk. unfold zlen in S2. apply length_zlen.
    rewrite <- E, (O2 (Z.of_nat k)) by lia. apply zlen_hash2.
  - split_and!; apply length_zlen; [|done|].
    + change (activeBitsMTL3 t) with (twig_load t SL3). rewrite O3. apply zlen_hash2.
    + change (twigRoot t) with (twig_load t STop). rewrite O4. apply zlen_hash2.
Qed.

Lemma synced_dumpable tree O N : synced tree O → files_inv tree N → nodes32 (nodes tree) →
  (∀ id t, activeTwigs tree !! id = Some t → is_int64 (FirstEntryPos t)) → dumpable tree.
Proof.
  intros Hsy Hfi Hn Hp. pose proof (sy_inv _ _ Hsy) as Hinv.
  destruct (ui_range _ _ _ _ (ti_upper _ _ Hinv)) as [HO HY]. split.
  - intros id t Ht. pose proof (ui_twigs _ _ _ _ (ti_upper _ _ Hinv) id ltac:(by eexists)) as Hid.
    split; [unfold is_int64; lia|]. destruct (synced_twig _ _ _ _ Hsy Ht) as [Hs Hok].
    apply twig_ok_sizes; [done|done| |by eapply Hp].
    destruct (decide (id = youngestTwigID tree)) as [->|Hne].
    + destruct (ti_youngest _ _ Hinv) as (ty & Hty & Hlr). rewrite Ht in Hty. injection Hty as <-.
      rewrite Hlr by apply Hsy. apply mt_at_len; [apply Hfi|apply Hinv|lia].
    + destruct (fi_stored _ _ Hfi _ _ Hne Ht) as (mt & p & _ & Hl & Hh & _ & <-). apply mt_at_len; [done|done|lia].
  - destruct (ti_youngest _ _ Hinv) as (ty & Hty & _). by eexists.
  - apply (ui_twigs _ _ _ _ (ti_upper _ _ Hinv)).
  - intros p h Hh. split; [|by apply Hn in Hh].
    destruct (ui_keys _ _ _ _ (ti_upper _ _ Hinv) p ltac:(by eexists)) as (L & n & -> & _). apply Pos_int64.
  - split; [apply length_zlen, Hinv|]. apply Forall_forall. intros h Hh. apply length_zlen. by apply (fi_hashes _ _ Hfi).
Qed.

(** What is loaded is a consistent tree again, ready for the next entry. *)
Lemma synced_loaded tree ef tf O N : synced tree O → seq_inv tree N → files_inv tree N →
  af_Flush (entryFile tree) = Ret ef → af_Flush (twigMtFile tree) = Ret tf →
  let loaded := mkTree ef tf (nodes tree) (youngestTwigID tree) (activeTwigs tree)
    (mtree4YoungestTwig tree) (replicate 2048 None) (-1) (-1) [] ∅ [] in
  synced loaded O ∧ seq_inv loaded N ∧ files_inv loaded N.
Proof.
  intros [[[U1 U2 U3 U4 U5 U6] Hto Hyo Hml Hll Hcl Hch Hev] Hu Hs] [S1 S2 S3] [F1 F2 F3 F4 F5] Ee Et loaded.
  destruct (af_Flush_ok _ (proj1 F1)) as (ef' & Ee' & Oe & Ke & _ & Ze). rewrite Ee in Ee'. injection Ee' as <-.
  destruct (af_Flush_ok _ (proj1 F2)) as (tf' & Et' & Ot & Kt & _ & Zt). rewrite Et in Et'. injection Et' as <-.
  assert (dirty loaded = dirty tree) as Hd by (unfold dirty, loaded; tree_fields; by rewrite Hu).
  split_and!.
  - split; [|done|done]. split; unfold loaded; tree_fields; try done.
    + fold loaded. rewrite Hd. by split.
    + by rewrite Hu in Hto.
    + destruct Hyo as (ty & Hty & Hlr). exists ty. split; [done|]. intros _. by apply Hlr.
    + intros _. split; [by apply Hcl|]. intros i [b Hb]. unfold zget in Hb. destruct (0 <=? i); [|done].
      by apply lookup_replicate in Hb as [? _].
    + split; [constructor|]. intros id Hid. by apply elem_of_nil in Hid.
  - split; [done|done|]. intros Hne. by destruct Hne.
  - split; unfold loaded; tree_fields; try done.
    + rewrite Ze. split_and!; [done|apply F1|apply F1].
    + rewrite Zt, (af_limit_keeps _ _ Kt). split_and!; [done|apply F2|apply F2].
    + intros id t Hne Ht. eapply twig_on_disk_keeps; [done|]. by apply F5.
Qed.

(** The first entry of a twig lies in the entry file. *)
Definition first_ok (m : gmap Z Twig) (size : Z) : Prop :=
  ∀ id t, m !! id = Some t → -1 ≤ FirstEntryPos t ≤ size.

Lemma first_ok_insert m size id t : first_ok m size → -1 ≤ FirstEntryPos t ≤ size → first_ok (<[id := t]> m) size.
Proof. intros Hm Ht id' t' [[_ <-]|[_ H]]%lookup_insert_Some; [done|by eapply Hm]. Qed.

Lemma first_ok_mono m size size' : size ≤ size' → first_ok m size → first_ok m size'.
Proof. intros Hs Hm id t Ht. specialize (Hm id t Ht). lia. Qed.

Lemma get_twig_Ret tree id t : get_twig tree id = Ret t → activeTwigs tree !! id = Some t.
Proof. unfold get_twig. destruct (activeTwigs tree !! id); [by intros [= ->]|done]. Qed.

Lemma setEntryActiviation_first tree sn act tree' size : setEntryActiviation tree sn act = Ret tree' →
  first_ok (activeTwigs tree) size → first_ok (activeTwigs tree') size.
Proof.
  unfold setEntryActiviation, setBit, clearBit. intros H Hf. apply outcome_bind_Ret in H as (t & Ht%get_twig_Ret & H).
  destruct act; invert_ret; cbn; (apply first_ok_insert; [done|]); apply (Hf _ _ Ht).
Qed.

Lemma syncMT4YoungestTwig_first tree tree' size : syncMT4YoungestTwig tree = Ret tree' →
  first_ok (activeTwigs tree) size → first_ok (activeTwigs tree') size.
Proof.
  unfold syncMT4YoungestTwig. case_match; [by intros [= <-]|]. destruct (hash_leaves _ _) as [mt lv]. intros Hr Hf.
  apply outcome_bind_Ret in Hr as (t & Ht%get_twig_Ret & Hr). invert_ret. cbn.
  apply first_ok_insert; [done|]. apply (Hf _ _ Ht).
Qed.

#[local] Transparent NullTwig.
Lemma NullTwig_first : FirstEntryPos NullTwig = -1.
Proof. unfold NullTwig. generalize (default [] (zget NullMT4Twig 1)) as h. intros h. by vm_compute. Qed.
#[local] Opaque NullTwig.

Lemma appendEntry_first tree bz sn tree' pos size : appendEntry tree bz sn = Ret (tree', pos) →
  -1 ≤ pos ≤ size → first_ok (activeTwigs tree) size → first_ok (activeTwigs tree') size.
Proof.
  unfold appendEntry. intros H Hpos Hf. apply outcome_bind_Ret in H as (t1 & E1 & H).
  eapply setEntryActiviation_first in E1; [|exact Hf].
  apply outcome_bind_Ret in H as ([ef p] & _ & H). destruct (_ =? 0); [|destruct (_ =? TwigMask)].
  - apply outcome_bind_Ret in H as (t & Ht%get_twig_Ret & H). injection H as <- ->. cbn in *. by apply first_ok_insert.
  - apply outcome_bind_Ret in H as (t2 & E2 & H). eapply syncMT4YoungestTwig_first in E2; [|exact E1].
    apply outcome_bind_Ret in H as (t & _ & H). apply outcome_bind_Ret in H as (tf & _ & H).
    injection H as <- _. cbn. apply first_ok_insert; [done|]. unfold CopyNullTwig. rewrite NullTwig_first. lia.
  - by injection H as <- _.
Qed.

Lemma EndBlock_first tree O N tree' root size : tree_inv tree O → files_inv tree N → 0 < youngestTwigID tree →
  EndBlock tree = Ret (tree', root) → first_ok (activeTwigs tree) size → first_ok (activeTwigs tree') size.
Proof.
  intros I1 I3 Hy E Hf. destruct (EndBlock_ok tree O I1 Hy (proj1 (fi_entry _ _ I3)) (proj1 (fi_mt _ _ I3))) as
    (t1 & t2 & r2 & E2 & _ & _ & Hsd & _ & _ & _ & _ & _ & Ha & _). rewrite E in E2. injection E2 as <- <-.
  intros id t Ht. rewrite Ha in Ht. case_decide; [done|]. pose proof (sd_twigs _ _ Hsd id) as Hfr. rewrite Ht in Hfr.
  destruct (activeTwigs tree !! id) as [t0|] eqn:E0; [|inversion Hfr].
  inversion Hfr as [? ? [[_ Ep] _]|]; subst. rewrite Ep. by apply (Hf _ _ E0).
Qed.

Lemma tree_run_first (ef tf : F) tree N : af_ok ef → af_ok tf → 32 ≤ af_limit tf → af_Size ef = 0 → af_Size tf = 0 →
  tree_run ef tf tree N → first_ok (activeTwigs tree) (af_Size (entryFile tree)).
Proof.
  intros Hef Htf Hlim Se St. induction 1 as [|tree N e tree' pos Hrun IH HN He Hok Hsn Hl E|
    tree N sn tree' n Hrun IH Hsn Hact E|tree N id Hrun IH Hne Hact Hni|tree N tree' root Hrun IH HN E].
  - intros id t Ht. unfold NewEmptyTree in Ht. cbn [activeTwigs] in Ht. apply lookup_singleton_Some in Ht as [_ <-]. cbn [entryFile NewEmptyTree].
    unfold CopyNullTwig. rewrite NullTwig_first. lia.
  - destruct (tree_run_inv ef tf tree N Hef Htf Hlim Se St Hrun) as (I1 & I2 & I3).
    destruct (AppendEntry_appended tree 0 N e I1 I2 I3 HN He Hl) as (t & E' & Ha). rewrite E in E'. injection E' as <- ->.
    pose proof (zlen_nonneg (record e (deactivedSNList tree))). destruct (fi_entry _ _ I3) as (_ & _ & H0).
    pose proof (ap_size _ _ _ _ _ Ha) as Hs. cbn [entryFile set_deactived] in Hs.
    unfold AppendEntry in E. eapply appendEntry_first; [exact E|lia|].
    eapply first_ok_mono; [|exact IH]. lia.
  - unfold DeactiviateEntry in E. apply outcome_bind_Ret in E as (t & E & [= <- _]).
    destruct (tree_run_inv ef tf tree N Hef Htf Hlim Se St Hrun) as (I1 & I2 & I3).
    destruct (setEntryActiviation_ok tree 0 sn false I1 Hsn) as (t' & E' & _ & Hsb & _); [apply Z.div_pos; lia|done|].
    rewrite E in E'. injection E' as <-. rewrite (sb_entryFile _ _ Hsb). by eapply setEntryActiviation_first.
  - done.
  - destruct (tree_run_inv ef tf tree N Hef Htf Hlim Se St Hrun) as (I1 & I2 & I3).
    assert (0 < youngestTwigID tree) as Hy by (rewrite (sq_young _ _ I2); zdiv).
    destruct (EndBlock_ok tree 0 I1 Hy (proj1 (fi_entry _ _ I3)) (proj1 (fi_mt _ _ I3))) as
      (t1 & t2 & r2 & E2 & H). rewrite E in E2. injection E2 as <- <-.
    destruct H as (_ & _ & _ & _ & _ & _ & _ & _ & _ & _ & _ & _ & _ & _ & _ & _ & Hs & _). rewrite Hs.
    by eapply EndBlock_first.
Qed.

(** C10: a tree survives a restart. After a block, [Flush] in whatever order Go
    ranges over the nodes, and [LoadTree] on what it wrote, give back the same
    nodes, twigs and Merkle tree; the loaded tree passes the checks of
    check.go, equals the dumped one for [CompareTreeTwigs], and satisfies the
    invariants that the next append, deactivation and block need. *)
Theorem LoadTree_roundtrip (ef tf : F) tree N tree' root order :
  af_ok ef → af_ok tf → 32 ≤ af_limit tf → af_Size ef = 0 → af_Size tf = 0 →
  tree_run ef tf tree N → 2048 ≤ N → EndBlock tree = Ret (tree', root) →
  af_Size (entryFile tree) < 2 ^ 63 → order ≡ₚ map_to_list (nodes tree') →
  ∃ tree2 d loaded, Tree_Flush tree' order = Ret (tree2, d) ∧
    LoadTree (entryFile tree2) (twigMtFile tree2) d = Ret loaded ∧
    nodes loaded = nodes tree' ∧ activeTwigs loaded = activeTwigs tree' ∧
    mtree4YoungestTwig loaded = mtree4YoungestTwig tree' ∧ youngestTwigID loaded = youngestTwigID tree' ∧
    deactivedSNList loaded = [] ∧
    CheckHashConsistency loaded = Ret tt ∧ CompareTreeTwigs tree' loaded = Ret tt ∧
    tree_inv loaded 0 ∧ seq_inv loaded N ∧ files_inv loaded N.
Proof.
  intros Hef Htf Hlim Se St Hrun HN E Hsz Hord.
  destruct (tree_run_inv ef tf tree N Hef Htf Hlim Se St Hrun) as (I1 & I2 & I3).
  assert (0 < youngestTwigID tree) as Hy by (rewrite (sq_young _ _ I2); zdiv).
  pose proof (EndBlock_first _ _ _ _ _ _ I1 I3 Hy E (tree_run_first ef tf tree N Hef Htf Hlim Se St Hrun)) as Hf'.
  pose proof (EndBlock_nodes32 _ _ _ _ I1 Hy E (tree_run_nodes32 ef tf tree N Hef Htf Hlim Se St Hrun)) as Hn'.
  destruct (EndBlock_seq_files _ _ _ _ _ I1 I2 I3 Hy E) as [J2 J3].
  destruct (EndBlock_ok tree 0 I1 Hy (proj1 (fi_entry _ _ I3)) (proj1 (fi_mt _ _ I3))) as
    (t1 & t2 & r2 & E2 & Hsy & _ & _ & _ & Ey & _). rewrite E in E2. injection E2 as <- <-.
  destruct (Flush_Load_ok tree' order) as (ef' & tf' & d & Efl & Ee & Et & El);
    [eapply synced_dumpable; [done|done|done|]; intros id t Ht; specialize (Hf' id t Ht); unfold is_int64; lia|
     done|apply J3|apply J3|].
  destruct (synced_loaded tree' ef' tf' 0 N Hsy J2 J3 Ee Et) as (L1 & L2 & L3).
  eexists _, d, _. split; [exact Efl|]. split; [exact El|].
  split_and!; [done|done|done|done|done|eapply synced_check; [exact L1|cbn; lia]| |apply L1|done|done].
  apply for_each_Ret. intros [id t] Hin%elem_of_map_to_list. unfold get_twig. cbn [activeTwigs]. rewrite Hin.
  cbn [mbind outcome_bind mret outcome_ret]. unfold CompareTwig, same_bytes. by rewrite !bool_decide_true, Z.eqb_refl.
Qed.
End load_tree.

(** ** Witness *)

Section witness.
#[local] Existing Instance toy_sha256.
#[local] Existing Instance toy_meow.

Lemma LoadTree_roundtrip_witness : ∃ (tree' : Tree HPFile) tree2 d loaded,
  Tree_Flush tree' (map_to_list (nodes tree')) = Ret (tree2, d) ∧
  LoadTree (entryFile tree2) (twigMtFile tree2) d = Ret loaded ∧ CheckHashConsistency loaded = Ret tt.
Proof.
  destruct small_tree as (tree & Hrun & (I1 & I2 & I3) & _ & _ & Hsz).
  assert (0 < youngestTwigID tree) as Hy by (rewrite (sq_young _ _ I2); vm_decide).
  destruct (EndBlock_ok tree 0 I1 Hy (proj1 (fi_entry _ _ I3)) (proj1 (fi_mt _ _ I3))) as (t1 & tree' & root & E & _).
  destruct (LoadTree_roundtrip (file_of []) (file_of []) tree 2055 tree' root (map_to_list (nodes tree'))) as
    (tree2 & d & loaded & Ef & El & _ & _ & _ & _ & _ & Hc & _);
    [by apply file_of_ok|by apply file_of_ok|vm_decide|done|done|exact Hrun|done|exact E|exact Hsz|done|].
  by exists tree', tree2, d, loaded.
Defined.
End witness.
