(* ===== verification/RocksDB.v ===== *)
(** * The RocksDB wrapper (indextree/rocks_db.go)

    gorocksdb is a parameter: the class [Rocks] has its calls, [RocksLaws] what
    its documentation promises - a sorted map of byte strings, iterators over
    it, batches that are applied in order. On top of it the wrapper keeps the
    batch of the current block and the height filter for compactions. *)
From S2P Require Import Prelude ByteOrder.

(** ** gorocksdb *)

Inductive batch_op : Type :=
| BatchPut (k v : bytes)
| BatchDelete (k : bytes).

Definition apply_op (m : gmap bytes bytes) (op : batch_op) : gmap bytes bytes :=
  match op with BatchPut k v => <[k := v]> m | BatchDelete k => delete k m end.

Class Rocks (D : Type) : Type := {
  rk_Get : D → bytes → option bytes;
  rk_Put : D → bytes → bytes → D;
  rk_Delete : D → bytes → D;
  rk_Write : D → list batch_op → D;
  (** the item an iterator is at; [None] is an iterator that is not valid *)
  rk_Seek : D → bytes → option (bytes * bytes);
  rk_SeekToFirst : D → option (bytes * bytes);
  rk_SeekToLast : D → option (bytes * bytes);
  rk_Next : D → bytes → option (bytes * bytes);
  rk_Prev : D → bytes → option (bytes * bytes)
}.

Class RocksLaws (D : Type) `{!Rocks D} : Type := {
  rk_map : D → gmap bytes bytes;
  rk_Get_map d k : rk_Get d k = rk_map d !! k;
  rk_Put_map d k v : rk_map (rk_Put d k v) = <[k := v]> (rk_map d);
  rk_Delete_map d k : rk_map (rk_Delete d k) = delete k (rk_map d);
  rk_Write_map d ops : rk_map (rk_Write d ops) = foldl apply_op (rk_map d) ops;
  rk_Seek_first d k : first_in (rk_map d) (λ k', k ≤b k') (rk_Seek d k);
  rk_SeekToFirst_first d : first_in (rk_map d) (λ _, True) (rk_SeekToFirst d);
  rk_SeekToLast_last d : last_in (rk_map d) (λ _, True) (rk_SeekToLast d);
  rk_Next_first d k : first_in (rk_map d) (λ k', k <b k') (rk_Next d k);
  rk_Prev_last d k : last_in (rk_map d) (λ k', k' <b k) (rk_Prev d k)
}.

(** A map of byte strings is such a library. *)
#[export] Instance map_rocks : Rocks (gmap bytes bytes) := {|
  rk_Get m k := m !! k;
  rk_Put m k v := <[k := v]> m;
  rk_Delete m k := delete k m;
  rk_Write m ops := foldl apply_op m ops;
  rk_Seek m k := find_first m (λ k', negb (bytes_ltb k' k));
  rk_SeekToFirst m := find_first m (λ _, true);
  rk_SeekToLast m := find_last m (λ _, true);
  rk_Next m k := find_first m (λ k', bytes_ltb k k');
  rk_Prev m k := find_last m (λ k', bytes_ltb k' k)
|}.

#[export] Instance map_rocks_laws : RocksLaws (gmap bytes bytes).
Proof.
  refine {| rk_map := id |}; try done.
  - intros d k. eapply first_in_iff; [|apply find_first_spec]. intros k'. cbn.
    rewrite <- bytes_nlt_ge, <- bytes_ltb_lt. by destruct (bytes_ltb k' k).
  - intros d. eapply first_in_iff; [|apply find_first_spec]. done.
  - intros d. eapply last_in_iff; [|apply find_last_spec]. done.
  - intros d k. eapply first_in_iff; [|apply find_first_spec]. intros k'. cbn. apply bytes_ltb_lt.
  - intros d k. eapply last_in_iff; [|apply find_last_spec]. intros k'. cbn. apply bytes_ltb_lt.
Defined.

(** ** The wrapper *)

Record HeightCompactionFilter : Type := mkFilter { pruneHeight : Z; pruneEnable : bool }.

(** Whether the compaction removes the record. *)
Definition Filter (f : HeightCompactionFilter) (key : bytes) : bool :=
  if zlen key <? 8 then false
  else if negb (bool_decide (head key = Some 0)) then false
  else pruneEnable f && (pruneHeight f >? be_val (drop (length key - 8) key)).

Record RocksDB (D : Type) : Type := mkRocksDB {
  rdb : D;
  filter_ : HeightCompactionFilter;
  batch : option (list batch_op)
}.
Arguments mkRocksDB {D}.
Arguments rdb {D}.
Arguments filter_ {D}.
Arguments batch {D}.

Section rocksdb.
Context {D : Type} `{!Rocks D}.
Implicit Types (db : RocksDB D).

Definition set_rdb db d : RocksDB D := mkRocksDB d (filter_ db) (batch db).
Definition set_batch db b : RocksDB D := mkRocksDB (rdb db) (filter_ db) b.

Definition NewRocksDB (d : D) : RocksDB D := mkRocksDB d (mkFilter 0 false) None.

Definition SetPruneHeight db (h : Z) : RocksDB D :=
  mkRocksDB (rdb db) (mkFilter (if pruneHeight (filter_ db) <? h then h else pruneHeight (filter_ db)) true) (batch db).
Definition GetPruneHeight db : Z * bool := (pruneHeight (filter_ db), pruneEnable (filter_ db)).

(** [nonNilBytes]: a nil slice becomes the empty one; the model has one empty string. *)
Definition RocksDB_Get db (key : bytes) : option bytes := rk_Get (rdb db) key.
Definition RocksDB_Has db (key : bytes) : bool := bool_decide (is_Some (RocksDB_Get db key)).
Definition RocksDB_Set db (key value : bytes) : RocksDB D := set_rdb db (rk_Put (rdb db) key value).
Definition RocksDB_SetSync db (key value : bytes) : RocksDB D := set_rdb db (rk_Put (rdb db) key value).
Definition RocksDB_Delete db (key : bytes) : RocksDB D := set_rdb db (rk_Delete (rdb db) key).
Definition RocksDB_DeleteSync db (key : bytes) : RocksDB D := set_rdb db (rk_Delete (rdb db) key).

(** [CurrBatch().Set] and [CurrBatch().Delete]: without a batch the receiver is nil. *)
Definition batch_add db (op : batch_op) : outcome (RocksDB D) :=
  match batch db with
  | Some ops => mret (set_batch db (Some (ops ++ [op])))
  | None => Panic "nil pointer dereference"
  end.
Definition batch_Set db (key value : bytes) : outcome (RocksDB D) := batch_add db (BatchPut key value).
Definition batch_Delete db (key : bytes) : outcome (RocksDB D) := batch_add db (BatchDelete key).

Definition OpenNewBatch db : RocksDB D := set_batch db (Some []).
Definition CloseOldBatch db : RocksDB D :=
  match batch db with
  | Some ops => mkRocksDB (rk_Write (rdb db) ops) (filter_ db) None
  | None => db
  end.

(** ** Iterators

    [start] and [end] are slices that may be nil. The methods have value
    receivers: the flag [isInvalid] is assigned on a copy and stays false. *)

Record rocksDBIterator : Type := mkRocksIter {
  source : option (bytes * bytes);
  it_start : option bytes;
  it_end : option bytes;
  isReverse : bool
}.

Definition newRocksDBIterator (d : D) (start end_ : option bytes) (isReverse : bool) : rocksDBIterator :=
  let source :=
    if isReverse then
      match end_ with
      | None => rk_SeekToLast d
      | Some e =>
          match rk_Seek d e with
          | Some (eoakey, v) => if bytes_ltb eoakey e then Some (eoakey, v) else rk_Prev d eoakey
          | None => rk_SeekToLast d
          end
      end
    else
      match start with
      | None => rk_SeekToFirst d
      | Some s => rk_Seek d s
      end in
  mkRocksIter source start end_ isReverse.

Definition rocks_Iterator db (start end_ : option bytes) : rocksDBIterator :=
  newRocksDBIterator (rdb db) start end_ false.
Definition rocks_ReverseIterator db (start end_ : option bytes) : rocksDBIterator :=
  newRocksDBIterator (rdb db) start end_ true.

Definition it_Valid (itr : rocksDBIterator) : bool :=
  match source itr with
  | None => false
  | Some (key, _) =>
      if isReverse itr then
        match it_start itr with Some s => negb (bytes_ltb key s) | None => true end
      else
        match it_end itr with Some e => bytes_ltb key e | None => true end
  end.

Definition assertIsValid (itr : rocksDBIterator) : outcome (bytes * bytes) :=
  match source itr, it_Valid itr with
  | Some kv, true => mret kv
  | _, _ => Panic "rocksDBIterator is invalid"
  end.

Definition it_Key (itr : rocksDBIterator) : outcome bytes := '(k, _) ← assertIsValid itr; mret k.
Definition it_Value (itr : rocksDBIterator) : outcome bytes := '(_, v) ← assertIsValid itr; mret v.
Definition it_Next (d : D) (itr : rocksDBIterator) : outcome rocksDBIterator :=
  '(k, _) ← assertIsValid itr;
  mret (mkRocksIter (if isReverse itr then rk_Prev d k else rk_Next d k) (it_start itr) (it_end itr) (isReverse itr)).

(** The loop [for ; itr.Valid(); itr.Next() { .. itr.Key(), itr.Value() .. }]. *)
Fixpoint it_collect (fuel : nat) (d : D) (itr : rocksDBIterator) : outcome (list (bytes * bytes)) :=
  match fuel with
  | O => Panic "out of fuel"
  | S fuel =>
      if it_Valid itr then
        k ← it_Key itr; v ← it_Value itr; itr' ← it_Next d itr;
        l ← it_collect fuel d itr'; mret ((k, v) :: l)
      else mret []
  end.
End rocksdb.

(** ** Batches and compactions *)

Section batches.
Context {D : Type} `{HD : !Rocks D} `{!RocksLaws D}.
Implicit Types (db : RocksDB D).

(** The store once the open batch is written. *)
Definition pending_map db : gmap bytes bytes := foldl apply_op (rk_map (rdb db)) (default [] (batch db)).

Lemma batch_add_ok db op : is_Some (batch db) → ∃ db', batch_add db op = Ret db' ∧ is_Some (batch db') ∧
  rdb db' = rdb db ∧ filter_ db' = filter_ db ∧ pending_map db' = apply_op (pending_map db) op.
Proof.
  intros [ops E]. unfold batch_add. rewrite E. eexists. split; [reflexivity|]. unfold pending_map.
  cbn. rewrite E. cbn. by rewrite foldl_app.
Qed.

Lemma CloseOldBatch_map db : rk_map (rdb (CloseOldBatch db)) = pending_map db.
Proof. unfold CloseOldBatch, pending_map. destruct (batch db); [apply rk_Write_map|done]. Qed.
Lemma OpenNewBatch_map db : pending_map (OpenNewBatch db) = rk_map (rdb db).
Proof. done. Qed.

(** What compactions leave of a store: they remove only records the filter
    gives up. *)
Definition compacted db (d : D) : Prop :=
  ∀ k, rk_map d !! k = rk_map (rdb db) !! k ∨ Filter (filter_ db) k = true ∧ rk_map d !! k = None.

Lemma compacted_keeps db d k : compacted db d → Filter (filter_ db) k = false → rk_map d !! k = rk_map (rdb db) !! k.
Proof. intros H Hk. destruct (H k) as [?|[H' _]]; [done|]. congruence. Qed.

(** Records that do not start with a zero byte are never given up. *)
Lemma Filter_nonzero f k ks : k ≠ 0 → Filter f (k :: ks) = false.
Proof.
  intros Hk. unfold Filter. destruct (_ <? _); [done|]. cbn [head].
  rewrite bool_decide_eq_false_2; [done|]. congruence.
Qed.
End batches.

(** ** Iterators give the items of their range, in order *)

Definition above (start : option bytes) (k : bytes) : Prop := match start with Some s => s ≤b k | None => True end.
Definition below (end_ : option bytes) (k : bytes) : Prop := match end_ with Some e => k <b e | None => True end.
Definition in_range (start end_ : option bytes) (k : bytes) : Prop := above start k ∧ below end_ k.

Section iterators.
Context {D : Type} `{HD : !Rocks D} `{!RocksLaws D}.
Implicit Types (d : D) (itr : rocksDBIterator) (l : list (bytes * bytes)).

Lemma above_mono start k k' : above start k → k <b k' → above start k'.
Proof. destruct start; [|done]. cbn. intros H H'. by eapply bytes_le_trans, bytes_lt_le. Qed.
Lemma below_mono end_ k k' : below end_ k' → k <b k' → below end_ k.
Proof. destruct end_; [|done]. cbn. intros H H'. by eapply bytes_lt_trans. Qed.

Lemma it_Valid_forward itr k v : isReverse itr = false → source itr = Some (k, v) →
  it_Valid itr = true ↔ below (it_end itr) k.
Proof. unfold it_Valid. intros -> ->. destruct (it_end itr); [apply bytes_ltb_lt|done]. Qed.
Lemma it_Valid_reverse itr k v : isReverse itr = true → source itr = Some (k, v) →
  it_Valid itr = true ↔ above (it_start itr) k.
Proof.
  unfold it_Valid. intros -> ->. destruct (it_start itr) as [s|]; [|done]. cbn.
  rewrite negb_true_iff. apply bytes_ltb_ge.
Qed.

(** One round of the loop at a valid item. *)
Lemma it_collect_step fuel d itr k v itr' l :
  it_Valid itr = true → source itr = Some (k, v) → itr' = mkRocksIter (if isReverse itr then rk_Prev d k else rk_Next d k) (it_start itr) (it_end itr) (isReverse itr) →
  it_collect fuel d itr' = Ret l → it_collect (S fuel) d itr = Ret ((k, v) :: l).
Proof.
  intros HV HS -> Hl. cbn [it_collect]. rewrite HV. unfold it_Key, it_Value, it_Next, assertIsValid.
  rewrite HS, HV. cbn. by rewrite Hl.
Qed.
Lemma it_collect_stop fuel d itr : it_Valid itr = false → it_collect (S fuel) d itr = Ret [].
Proof. cbn. by intros ->. Qed.

Lemma it_collect_forward d l : ∀ fuel itr (P : bytes → Prop),
  isReverse itr = false → (∀ k k', P k → k <b k' → P k') → first_in (rk_map d) P (source itr) →
  ascending (rk_map d) (λ k, P k ∧ below (it_end itr) k) l → (length l < fuel)%nat → it_collect fuel d itr = Ret l.
Proof.
  induction l as [|[k v] l IH]; intros [|fuel] itr P Hr HP Hsrc Hl Hfuel; cbn [length] in Hfuel; try lia.
  - apply it_collect_stop, not_true_iff_false. destruct (source itr) as [[k v]|] eqn:HS.
    2:{ unfold it_Valid. by rewrite HS. }
    rewrite (it_Valid_forward _ _ _ Hr HS). intros Hb. destruct Hsrc as (Hk & HPk & _).
    by rewrite (ascending_nil _ _ Hl k) in Hk.
  - apply ascending_cons in Hl as [(Hk & [HPk Hb] & Hmin) Hl].
    destruct (source itr) as [[k1 v1]|] eqn:HS; [|by rewrite (Hsrc k) in Hk]. destruct Hsrc as (Hk1 & HPk1 & Hmin1).
    assert (k1 = k) as ->.
    { pose proof (Hmin1 k HPk ltac:(by eexists)) as [Hlt| ?]%bytes_le_lteq; [|done]. apply bytes_le_antisym; [by apply bytes_lt_le|].
      apply Hmin; [|by eexists]. split; [done|]. by eapply below_mono. }
    assert (v1 = v) as -> by congruence.
    eapply it_collect_step; [by apply (it_Valid_forward _ _ _ Hr HS)|done|done|]. rewrite Hr.
    apply (IH _ _ (λ k', k <b k')); cbn; [done| |apply rk_Next_first| |lia].
    + intros a b Ha Hab. by eapply bytes_lt_trans.
    + eapply items_in_iff; [|exact Hl]. intros k' _. split; [tauto|]. intros [? ?]. split_and!; [by eapply HP|done|done].
Qed.

Lemma it_collect_reverse d l : ∀ fuel itr (P : bytes → Prop),
  isReverse itr = true → (∀ k k', P k' → k <b k' → P k) → last_in (rk_map d) P (source itr) →
  descending (rk_map d) (λ k, P k ∧ above (it_start itr) k) l → (length l < fuel)%nat → it_collect fuel d itr = Ret l.
Proof.
  induction l as [|[k v] l IH]; intros [|fuel] itr P Hr HP Hsrc Hl Hfuel; cbn [length] in Hfuel; try lia.
  - apply it_collect_stop, not_true_iff_false. destruct (source itr) as [[k v]|] eqn:HS.
    2:{ unfold it_Valid. by rewrite HS. }
    rewrite (it_Valid_reverse _ _ _ Hr HS). intros Hb. destruct Hsrc as (Hk & HPk & _).
    by rewrite (descending_nil _ _ Hl k) in Hk.
  - apply descending_cons in Hl as [(Hk & [HPk Hb] & Hmax) Hl].
    destruct (source itr) as [[k1 v1]|] eqn:HS; [|by rewrite (Hsrc k) in Hk]. destruct Hsrc as (Hk1 & HPk1 & Hmax1).
    assert (k1 = k) as ->.
    { pose proof (Hmax1 k HPk ltac:(by eexists)) as [Hlt| ?]%bytes_le_lteq; [|done]. apply bytes_le_antisym; [|by apply bytes_lt_le].
      apply Hmax; [|by eexists]. split; [done|]. by eapply above_mono. }
    assert (v1 = v) as -> by congruence.
    eapply it_collect_step; [by apply (it_Valid_reverse _ _ _ Hr HS)|done|done|]. rewrite Hr.
    apply (IH _ _ (λ k', k' <b k)); cbn; [done| |apply rk_Prev_last| |lia].
    + intros a b Ha Hab. by eapply bytes_lt_trans.
    + eapply items_in_iff; [|exact Hl]. intros k' _. split; [tauto|]. intros [? ?]. split_and!; [by eapply HP|done|done].
Qed.

(** The source a new iterator starts at. *)
Lemma new_forward_source d start end_ : first_in (rk_map d) (above start) (source (newRocksDBIterator d start end_ false)).
Proof.
  destruct start as [s|]; [apply rk_Seek_first|].
  eapply first_in_iff; [|apply rk_SeekToFirst_first]. done.
Qed.
Lemma new_reverse_source d start end_ : last_in (rk_map d) (below end_) (source (newRocksDBIterator d start end_ true)).
Proof.
  destruct end_ as [e|]; cbn.
  2:{ eapply last_in_iff; [|apply rk_SeekToLast_last]. done. }
  pose proof (rk_Seek_first d e) as Hf. destruct (rk_Seek d e) as [[k v]|]; cbn in Hf.
  - destruct Hf as (Hk & Hek & Hmin). destruct (bytes_ltb k e) eqn:E.
    { apply bytes_ltb_lt in E. apply bytes_nlt_ge in Hek. done. }
    pose proof (rk_Prev_last d k) as Hp. destruct (rk_Prev d k) as [[k1 v1]|]; cbn in *.
    + destruct Hp as (Hk1 & Hlt & Hmax). split_and!; [done| |].
      * apply bytes_nle_gt. intros Hle. specialize (Hmin k1 Hle ltac:(by eexists)). by apply bytes_nle_gt in Hlt.
      * intros k' Hk' Hs. apply Hmax; [|done]. by eapply bytes_lt_le_trans.
    + intros k' Hk'. apply Hp. by eapply bytes_lt_le_trans.
  - pose proof (rk_SeekToLast_last d) as Hp. destruct (rk_SeekToLast d) as [[k1 v1]|]; cbn in *.
    + destruct Hp as (Hk1 & _ & Hmax). split_and!; [done| |naive_solver].
      apply bytes_nle_gt. intros Hle. by rewrite (Hf k1 Hle) in Hk1.
    + intros k' Hk'. by apply Hp.
Qed.

#[export] Instance above_dec start k : Decision (above start k).
Proof. destruct start; cbn; apply _. Defined.
#[export] Instance below_dec end_ k : Decision (below end_ k).
Proof. destruct end_; cbn; apply _. Defined.
#[export] Instance in_range_dec start end_ k : Decision (in_range start end_ k).
Proof. unfold in_range. apply _. Defined.

(** C30: for every store, the loop over an iterator terminates - after one
    round per item - and gives exactly the records whose keys are in
    [\[start, end)], in ascending order; the loop over the reverse iterator
    gives the same records in descending order. A nil bound is no bound, and
    an [end] that is below, at or above every key is handled alike. *)
Theorem rocks_iterators_exact (db : RocksDB D) start end_ fuel :
  (size (rk_map (rdb db)) < fuel)%nat →
  ∃ l, ascending (rk_map (rdb db)) (in_range start end_) l ∧
    it_collect fuel (rdb db) (rocks_Iterator db start end_) = Ret l ∧
    it_collect fuel (rdb db) (rocks_ReverseIterator db start end_) = Ret (rev l).
Proof.
  intros Hfuel. set (m := rk_map (rdb db)).
  pose proof (items_ascending (λ k, bool_decide (in_range start end_ k)) m) as Hl.
  set (l := items _ m) in Hl. exists l.
  assert (ascending m (in_range start end_) l) as Hl'.
  { eapply items_in_iff; [|exact Hl]. intros k _. apply bool_decide_eq_true. }
  pose proof (ascending_length _ _ _ Hl'). split; [done|]. split.
  - apply (it_collect_forward _ _ _ _ (above start)); [done|intros *; apply above_mono|apply new_forward_source|done|].
    subst m. lia.
  - apply (it_collect_reverse _ _ _ _ (below end_)); [done|intros *; apply below_mono|apply new_reverse_source| |].
    + apply descending_rev in Hl'. eapply items_in_iff; [|exact Hl']. unfold in_range. cbn. tauto.
    + rewrite length_rev. subst m. lia.
Qed.
End iterators.

Definition iterator_db : RocksDB (gmap bytes bytes) :=
  NewRocksDB (<[[1] := [10]]> (<[[1; 0] := [11]]> (<[[2] := [12]]> (<[[] := []]> ∅)))).
Lemma rocks_iterators_exact_witness :
  (size (rk_map (rdb iterator_db)) < 5)%nat ∧
  it_collect 5 (rdb iterator_db) (rocks_ReverseIterator iterator_db (Some [1]) (Some [1; 7])) = Ret [([1; 0], [11]); ([1], [10])] ∧
  ∃ l, ascending (rk_map (rdb iterator_db)) (in_range (Some [1]) (Some [1; 7])) l ∧
    it_collect 5 (rdb iterator_db) (rocks_Iterator iterator_db (Some [1]) (Some [1; 7])) = Ret l ∧
    it_collect 5 (rdb iterator_db) (rocks_ReverseIterator iterator_db (Some [1]) (Some [1; 7])) = Ret (rev l).
Proof.
  assert (size (rk_map (rdb iterator_db)) < 5)%nat as H by (vm_compute; lia).
  split_and!; [exact H|vm_compute; reflexivity|].
  exact (rocks_iterators_exact iterator_db (Some [1]) (Some [1; 7]) 5 H).
Defined.
