(* ===== verification/MetaDB.v ===== *)
(** * Metadata of the store (metadb/metadb.go)

    [MetaDBWithTMDB] keeps four counters in memory and writes them, and the
    file sizes and twig heights, under one-byte keys of the RocksDB, through
    the batch of the block. The RocksDB is shared with the index tree and the
    store: the operations take it and give it back. *)
From S2P Require Import Prelude ByteOrder RocksDB Twig.

Definition ByteCurrHeight : Z := 0x10.
Definition ByteTwigMtFileSize : Z := 0x11.
Definition ByteEntryFileSize : Z := 0x12.
Definition ByteTwigHeight : Z := 0x13.
Definition ByteLastPrunedTwig : Z := 0x14.
Definition ByteEdgeNodes : Z := 0x15.
Definition ByteMaxSerialNum : Z := 0x16.
Definition ByteOldestActiveTwigID : Z := 0x18.
Definition ByteIsRunning : Z := 0x19.

(** [binary.LittleEndian.Uint64] and [PutUint64] through a signed integer. *)
Definition LE_Uint64 (b : bytes) : outcome Z := b ← slice b 0 8; mret (le_val b).
Definition get_int64 (b : bytes) : outcome Z := u ← LE_Uint64 b; mret (to_int64 u).
Definition put_int64 (z : Z) : bytes := le_bytes 8 (to_uint64 z).

Lemma LE_Uint64_bytes z : LE_Uint64 (le_bytes 8 (to_uint64 z)) = Ret (to_uint64 z).
Proof.
  unfold LE_Uint64. rewrite slice_all by done. cbn [mbind outcome_bind]. rewrite le_val_uint64. unfold to_uint64, to_uint.
  by rewrite Zmod_mod.
Qed.
Lemma get_put_int64 z : is_int64 z → get_int64 (put_int64 z) = Ret z.
Proof. intros. unfold get_int64, put_int64. rewrite LE_Uint64_bytes. cbn. by rewrite to_int64_uint64. Qed.

Record MetaDB : Type := mkMetaDB {
  currHeight : Z;
  lastPrunedTwig : Z;
  maxSerialNum : Z;
  oldestActiveTwigID : Z
}.

Section metadb.
Context {D : Type} `{!Rocks D}.
Implicit Types (m : MetaDB) (kvdb : RocksDB D).

Definition NewMetaDB : MetaDB := mkMetaDB 0 0 0 0.

(** [bz := kvdb.Get(k); if bz != nil { int64(Uint64(bz)) }], else 0. *)
Definition reload_int64 kvdb (k : bytes) : outcome Z :=
  match RocksDB_Get kvdb k with Some bz => get_int64 bz | None => mret 0 end.

Definition ReloadFromKVDB kvdb : outcome MetaDB :=
  h ← reload_int64 kvdb [ByteCurrHeight];
  t ← reload_int64 kvdb [ByteLastPrunedTwig];
  s ← reload_int64 kvdb [ByteMaxSerialNum];
  o ← reload_int64 kvdb [ByteOldestActiveTwigID];
  mret (mkMetaDB h t s o).

Definition Commit m kvdb : outcome (RocksDB D) :=
  kvdb ← batch_Set kvdb [ByteCurrHeight] (put_int64 (currHeight m));
  kvdb ← batch_Set kvdb [ByteLastPrunedTwig] (put_int64 (lastPrunedTwig m));
  kvdb ← batch_Set kvdb [ByteMaxSerialNum] (put_int64 (maxSerialNum m));
  batch_Set kvdb [ByteOldestActiveTwigID] (put_int64 (oldestActiveTwigID m)).

Definition SetCurrHeight m (h : Z) : MetaDB := mkMetaDB h (lastPrunedTwig m) (maxSerialNum m) (oldestActiveTwigID m).
Definition GetCurrHeight m : Z := currHeight m.

Definition SetTwigMtFileSize kvdb (size : Z) : outcome (RocksDB D) := batch_Set kvdb [ByteTwigMtFileSize] (put_int64 size).
Definition GetTwigMtFileSize kvdb : outcome Z := reload_int64 kvdb [ByteTwigMtFileSize].
Definition SetEntryFileSize kvdb (size : Z) : outcome (RocksDB D) := batch_Set kvdb [ByteEntryFileSize] (put_int64 size).
Definition GetEntryFileSize kvdb : outcome Z := reload_int64 kvdb [ByteEntryFileSize].

Definition twig_height_key (twigID : Z) : bytes := ByteTwigHeight :: put_int64 twigID.
Definition setTwigHeight kvdb (twigID height : Z) : outcome (RocksDB D) :=
  batch_Set kvdb (twig_height_key twigID) (put_int64 height).
Definition GetTwigHeight kvdb (twigID : Z) : outcome Z :=
  let bz := default [] (RocksDB_Get kvdb (twig_height_key twigID)) in
  if zlen bz =? 0 then mret (-1) else get_int64 bz.
Definition DeleteTwigHeight kvdb (twigID : Z) : RocksDB D := RocksDB_Delete kvdb (twig_height_key twigID).

Definition SetLastPrunedTwig m (twigID : Z) : MetaDB :=
  mkMetaDB (currHeight m) twigID (maxSerialNum m) (oldestActiveTwigID m).
Definition GetLastPrunedTwig m : Z := lastPrunedTwig m.

Definition GetEdgeNodes kvdb : option bytes := RocksDB_Get kvdb [ByteEdgeNodes].
Definition SetEdgeNodes kvdb (bz : bytes) : RocksDB D := RocksDB_Set kvdb [ByteEdgeNodes] bz.

Definition GetMaxSerialNum m : Z := maxSerialNum m.
Definition set_maxSerialNum m (s : Z) : MetaDB := mkMetaDB (currHeight m) (lastPrunedTwig m) s (oldestActiveTwigID m).
Definition IncrMaxSerialNum m kvdb : outcome (MetaDB * RocksDB D) :=
  let m := set_maxSerialNum m (to_int64 (maxSerialNum m + 1)) in
  if Z.rem (maxSerialNum m) LeafCountInTwig =? 0 then
    kvdb ← setTwigHeight kvdb (Z.quot (maxSerialNum m) LeafCountInTwig) (currHeight m);
    mret (m, kvdb)
  else mret (m, kvdb).

Definition GetOldestActiveTwigID m : Z := oldestActiveTwigID m.
Definition IncrOldestActiveTwigID m : MetaDB :=
  mkMetaDB (currHeight m) (lastPrunedTwig m) (maxSerialNum m) (to_int64 (oldestActiveTwigID m + 1)).

Definition GetIsRunning kvdb : bool :=
  match default [] (RocksDB_Get kvdb [ByteIsRunning]) with [] => true | b :: _ => negb (b =? 0) end.
Definition SetIsRunning kvdb (isRunning : bool) : RocksDB D :=
  RocksDB_SetSync kvdb [ByteIsRunning] (if isRunning then [1] else [0]).

Definition MetaDB_Init kvdb : outcome (MetaDB * RocksDB D) :=
  let kvdb := SetIsRunning kvdb false in
  let m := mkMetaDB 0 (-1) 0 0 in
  kvdb ← SetTwigMtFileSize kvdb 0;
  kvdb ← SetEntryFileSize kvdb 0;
  kvdb ← Commit m kvdb;
  mret (m, kvdb).
End metadb.

(** ** The counters survive a restart *)

Section restart.
Context {D : Type} `{HD : !Rocks D} `{!RocksLaws D}.
Implicit Types (m : MetaDB) (kvdb : RocksDB D).

Definition int64_fields m : Prop :=
  is_int64 (currHeight m) ∧ is_int64 (lastPrunedTwig m) ∧ is_int64 (maxSerialNum m) ∧ is_int64 (oldestActiveTwigID m).

Lemma batch_Set_ok kvdb k v : is_Some (batch kvdb) → ∃ kvdb', batch_Set kvdb k v = Ret kvdb' ∧ is_Some (batch kvdb') ∧
  rdb kvdb' = rdb kvdb ∧ filter_ kvdb' = filter_ kvdb ∧ pending_map kvdb' = <[k := v]> (pending_map kvdb).
Proof. apply (batch_add_ok kvdb (BatchPut k v)). Qed.

Lemma reload_int64_put kvdb k z : is_int64 z → rk_map (rdb kvdb) !! k = Some (put_int64 z) → reload_int64 kvdb k = Ret z.
Proof. intros Hz Hk. unfold reload_int64, RocksDB_Get. rewrite rk_Get_map, Hk. by apply get_put_int64. Qed.

Lemma Commit_ok m kvdb : is_Some (batch kvdb) → ∃ kvdb', Commit m kvdb = Ret kvdb' ∧ is_Some (batch kvdb') ∧
  rdb kvdb' = rdb kvdb ∧ filter_ kvdb' = filter_ kvdb ∧
  pending_map kvdb' = <[[ByteOldestActiveTwigID] := put_int64 (oldestActiveTwigID m)]>
    (<[[ByteMaxSerialNum] := put_int64 (maxSerialNum m)]> (<[[ByteLastPrunedTwig] := put_int64 (lastPrunedTwig m)]>
    (<[[ByteCurrHeight] := put_int64 (currHeight m)]> (pending_map kvdb)))).
Proof.
  intros H0. unfold Commit.
  destruct (batch_Set_ok kvdb [ByteCurrHeight] (put_int64 (currHeight m)) H0) as (d1 & -> & H1 & E1 & F1 & P1).
  destruct (batch_Set_ok d1 [ByteLastPrunedTwig] (put_int64 (lastPrunedTwig m)) H1) as (d2 & E & H2 & E2 & F2 & P2).
  cbn [mbind outcome_bind]. rewrite E. clear E. cbn [mbind outcome_bind].
  destruct (batch_Set_ok d2 [ByteMaxSerialNum] (put_int64 (maxSerialNum m)) H2) as (d3 & -> & H3 & E3 & F3 & P3).
  destruct (batch_Set_ok d3 [ByteOldestActiveTwigID] (put_int64 (oldestActiveTwigID m)) H3) as (d4 & E & H4 & E4 & F4 & P4).
  cbn [mbind outcome_bind]. rewrite E. exists d4. split_and!; [done|done|congruence|congruence|].
  by rewrite P4, P3, P2, P1.
Qed.

(** The counters read from a store that holds them. *)
Lemma Reload_ok m kvdb : int64_fields m →
  rk_map (rdb kvdb) !! [ByteCurrHeight] = Some (put_int64 (currHeight m)) →
  rk_map (rdb kvdb) !! [ByteLastPrunedTwig] = Some (put_int64 (lastPrunedTwig m)) →
  rk_map (rdb kvdb) !! [ByteMaxSerialNum] = Some (put_int64 (maxSerialNum m)) →
  rk_map (rdb kvdb) !! [ByteOldestActiveTwigID] = Some (put_int64 (oldestActiveTwigID m)) →
  ReloadFromKVDB kvdb = Ret m.
Proof.
  intros (I1 & I2 & I3 & I4) H1 H2 H3 H4. unfold ReloadFromKVDB.
  rewrite (reload_int64_put _ _ _ I1 H1), (reload_int64_put _ _ _ I2 H2), (reload_int64_put _ _ _ I3 H3), (reload_int64_put _ _ _ I4 H4).
  by destruct m.
Qed.

(** C18: what the end of a block writes - the file sizes, the counters - and
    commits with the batch is what a reopened store reads back, whatever
    compactions ran in between: the filter never gives up a metadata record. *)
Theorem Commit_Reload_roundtrip m kvdb es ts :
  is_Some (batch kvdb) → int64_fields m → is_int64 es → is_int64 ts →
  ∃ kvdb', (kvdb ← SetEntryFileSize kvdb es; kvdb ← SetTwigMtFileSize kvdb ts; kvdb ← Commit m kvdb;
            mret (CloseOldBatch kvdb)) = Ret kvdb' ∧
    ∀ d, compacted kvdb' d →
      let reopened := set_rdb kvdb' d in
      ReloadFromKVDB reopened = Ret m ∧ GetEntryFileSize reopened = Ret es ∧ GetTwigMtFileSize reopened = Ret ts ∧
      (∀ t, GetTwigHeight reopened t = GetTwigHeight (CloseOldBatch kvdb) t) ∧
      GetIsRunning reopened = GetIsRunning (CloseOldBatch kvdb) ∧ GetEdgeNodes reopened = GetEdgeNodes (CloseOldBatch kvdb).
Proof.
  intros H0 Hm Hes Hts. unfold SetEntryFileSize, SetTwigMtFileSize.
  destruct (batch_Set_ok kvdb [ByteEntryFileSize] (put_int64 es) H0) as (d1 & -> & H1 & E1 & F1 & P1).
  destruct (batch_Set_ok d1 [ByteTwigMtFileSize] (put_int64 ts) H1) as (d2 & E & H2 & E2 & F2 & P2).
  cbn [mbind outcome_bind]. rewrite E. clear E.
  destruct (Commit_ok m d2 H2) as (d3 & E & H3 & E3 & F3 & P3). cbn [mbind outcome_bind]. rewrite E. clear E.
  eexists. split; [reflexivity|]. intros d Hd. cbn zeta.
  assert (∀ k ks, k ≠ 0 → rk_map (rdb (set_rdb (CloseOldBatch d3) d)) !! (k :: ks) = pending_map d3 !! (k :: ks)) as Hk.
  { intros k ks Hk0. cbn. rewrite (compacted_keeps _ _ _ Hd) by (by apply Filter_nonzero). by rewrite CloseOldBatch_map. }
  rewrite P2, P1 in P3.
  assert (∀ k ks, k ≠ 0 → k ∉ [ByteOldestActiveTwigID; ByteMaxSerialNum; ByteLastPrunedTwig; ByteCurrHeight; ByteTwigMtFileSize; ByteEntryFileSize] →
    RocksDB_Get (set_rdb (CloseOldBatch d3) d) (k :: ks) = RocksDB_Get (CloseOldBatch kvdb) (k :: ks)) as Hother.
  { intros k ks Hk0 Hn. unfold RocksDB_Get. rewrite !rk_Get_map, Hk, CloseOldBatch_map, P3 by done.
    rewrite !lookup_insert_ne; [done|..]; intros [= <- _]; apply Hn; set_solver. }
  split_and!.
  - apply Reload_ok; [done|..]; rewrite Hk, P3 by done; by simplify_map_eq.
  - apply reload_int64_put; [done|]. rewrite Hk, P3 by done. by simplify_map_eq.
  - apply reload_int64_put; [done|]. rewrite Hk, P3 by done. by simplify_map_eq.
  - intros t. unfold GetTwigHeight, twig_height_key. rewrite Hother; [done|done|]. by vm_decide.
  - unfold GetIsRunning. rewrite Hother; [done|done|]. by vm_decide.
  - unfold GetEdgeNodes. apply Hother; [done|]. by vm_decide.
Qed.

(** The serial numbers handed out in a block. *)
Fixpoint IncrMaxSerialNum_times (n : nat) m kvdb : outcome (MetaDB * RocksDB D) :=
  match n with
  | O => mret (m, kvdb)
  | S n => '(m, kvdb) ← IncrMaxSerialNum m kvdb; IncrMaxSerialNum_times n m kvdb
  end.

Lemma put_int64_inj x y : is_int64 x → is_int64 y → put_int64 x = put_int64 y → x = y.
Proof.
  intros Hx Hy H. pose proof (get_put_int64 x Hx) as E. rewrite H, get_put_int64 in E by done. by injection E.
Qed.

Lemma to_int64_small z : is_int64 z → to_int64 z = z.
Proof.
  unfold is_int64, to_int64, to_int. intros Hz. change (2 ^ (64 - 1)) with (2 ^ 63).
  destruct (Z.ltb_spec (z mod 2 ^ 64) (2 ^ 63)) as [H|H];
    pose proof (Z.mod_pos_bound z (2 ^ 64)); pose proof (Z.div_mod z (2 ^ 64));
    change (2 ^ 64) with (2 * 2 ^ 63) in *; nia.
Qed.

Lemma GetTwigHeight_pending kvdb t : GetTwigHeight (CloseOldBatch kvdb) t =
  let bz := default [] (pending_map kvdb !! twig_height_key t) in if zlen bz =? 0 then mret (-1) else get_int64 bz.
Proof. unfold GetTwigHeight, RocksDB_Get. by rewrite rk_Get_map, CloseOldBatch_map. Qed.

Lemma IncrMaxSerialNum_ok m kvdb : is_Some (batch kvdb) → 0 ≤ maxSerialNum m < 2 ^ 63 - 1 → is_int64 (currHeight m) →
  ∃ kvdb', IncrMaxSerialNum m kvdb = Ret (set_maxSerialNum m (maxSerialNum m + 1), kvdb') ∧ is_Some (batch kvdb') ∧
    ∀ t, is_int64 t → GetTwigHeight (CloseOldBatch kvdb') t =
      if decide (maxSerialNum m + 1 = t * LeafCountInTwig) then Ret (currHeight m) else GetTwigHeight (CloseOldBatch kvdb) t.
Proof.
  intros H0 Hm Hh. unfold IncrMaxSerialNum. rewrite to_int64_small by (unfold is_int64; lia). cbn [maxSerialNum set_maxSerialNum currHeight].
  unfold LeafCountInTwig in *. destruct (Z.eqb_spec (Z.rem (maxSerialNum m + 1) 2048) 0) as [E|E].
  - destruct (batch_Set_ok kvdb (twig_height_key (Z.quot (maxSerialNum m + 1) 2048)) (put_int64 (currHeight m)) H0)
      as (d1 & Ed & H1 & _ & _ & P1). unfold setTwigHeight. rewrite Ed. exists d1. split_and!; [done|done|].
    intros t Ht. rewrite !GetTwigHeight_pending, P1. cbn zeta. case_decide as Ht'.
    + replace (Z.quot _ _) with t by zdiv. rewrite lookup_insert_eq. by apply get_put_int64.
    + rewrite lookup_insert_ne; [done|]. intros H%(f_equal tail). apply put_int64_inj in H; [|unfold is_int64; zdiv|done].
      apply Ht'. zdiv.
  - exists kvdb. split_and!; [done|done|]. intros t Ht. rewrite decide_False; [done|]. zdiv.
Qed.

End restart.

Definition meta_store : RocksDB (gmap bytes bytes) := OpenNewBatch (NewRocksDB ∅).

Lemma Commit_Reload_roundtrip_witness :
  let m := mkMetaDB 7 (-1) 4096 1 in
  (is_Some (batch meta_store) ∧ int64_fields m ∧ is_int64 5000 ∧ is_int64 0) ∧
  ∃ kvdb', (kvdb ← SetEntryFileSize meta_store 5000; kvdb ← SetTwigMtFileSize kvdb 0; kvdb ← Commit m kvdb;
            mret (CloseOldBatch kvdb)) = Ret kvdb' ∧
    ∀ d, compacted kvdb' d →
      let reopened := set_rdb kvdb' d in
      ReloadFromKVDB reopened = Ret m ∧ GetEntryFileSize reopened = Ret 5000 ∧ GetTwigMtFileSize reopened = Ret 0 ∧
      (∀ t, GetTwigHeight reopened t = GetTwigHeight (CloseOldBatch meta_store) t) ∧
      GetIsRunning reopened = GetIsRunning (CloseOldBatch meta_store) ∧ GetEdgeNodes reopened = GetEdgeNodes (CloseOldBatch meta_store).
Proof.
  cbn zeta.
  assert (is_Some (batch meta_store)) as H1 by (eexists; reflexivity).
  assert (int64_fields (mkMetaDB 7 (-1) 4096 1)) as H2 by (unfold int64_fields, is_int64; cbn; lia).
  assert (is_int64 5000) as H3 by (unfold is_int64; lia).
  assert (is_int64 0) as H4 by (unfold is_int64; lia).
  split; [split_and!; assumption|]. exact (Commit_Reload_roundtrip _ _ _ _ H1 H2 H3 H4).
Defined.

