(* ===== verification/BTreeSpec.v ===== *)
(** * What the index tree relies on: the interface of the B-tree

    The package indextree/b is used through [Get], [Set], [PutNewAndGetOld],
    [Delete], [Len], [Seek] and the enumerator's [Next] and [Prev]. The class
    [BTreeOps] has these calls and [BTreeLaws] what they promise over the map a
    tree stands for; the clients are verified against the classes. The same
    interface serves the tree of store/b, whose values are of another type and
    which is also used through [Put] and [SeekFirst]. *)
From S2P Require Import Prelude ByteOrder.

Class BTreeOps (V T E : Type) : Type := {
  bt_TreeNew : T;
  bt_Len : T → Z;
  bt_Get : T → bytes → outcome (option V);
  bt_Set : T → bytes → V → outcome T;
  bt_PutNewAndGetOld : T → bytes → V → outcome (option V * T);
  (** the callback gets the old value and returns the one to write, if any;
      [X] is what it leaves in the variables of its caller *)
  bt_Put {X} : T → bytes → (option V → outcome (X * option V)) → outcome (X * T);
  bt_Delete : T → bytes → outcome (bool * T);
  (** an enumerator, and whether the key was found *)
  bt_Seek : T → bytes → outcome (E * bool);
  (** [None] for io.EOF *)
  bt_SeekFirst : T → outcome (option E);
  (** the item the enumerator was at, [None] for io.EOF, and the moved enumerator *)
  en_Next : T → E → outcome (option (bytes * V) * E);
  en_Prev : T → E → outcome (option (bytes * V) * E)
}.

Class BTreeLaws (V T E : Type) `{!BTreeOps V T E} : Type := {
  bt_ok : T → Prop;
  bt_map : T → gmap bytes V;
  (** the enumerator goes forward, or backward, through the keys of a set *)
  en_fwd : T → E → (bytes → Prop) → Prop;
  en_bwd : T → E → (bytes → Prop) → Prop;
  bt_TreeNew_ok : bt_ok bt_TreeNew ∧ bt_map bt_TreeNew = ∅;
  bt_Len_ok t : bt_ok t → bt_Len t = Z.of_nat (size (bt_map t));
  bt_Get_ok t k : bt_ok t → bt_Get t k = Ret (bt_map t !! k);
  bt_Set_ok t k v : bt_ok t → ∃ t', bt_Set t k v = Ret t' ∧ bt_ok t' ∧ bt_map t' = <[k := v]> (bt_map t);
  bt_Put_ok t k v : bt_ok t → ∃ t', bt_PutNewAndGetOld t k v = Ret (bt_map t !! k, t') ∧ bt_ok t' ∧ bt_map t' = <[k := v]> (bt_map t);
  bt_Upd_ok {X} t k (upd : option V → outcome (X * option V)) x w : bt_ok t → upd (bt_map t !! k) = Ret (x, w) →
    ∃ t', bt_Put t k upd = Ret (x, t') ∧ bt_ok t' ∧ bt_map t' = match w with Some v => <[k := v]> (bt_map t) | None => bt_map t end;
  bt_Delete_ok t k : bt_ok t → ∃ t', bt_Delete t k = Ret (bool_decide (is_Some (bt_map t !! k)), t') ∧ bt_ok t' ∧ bt_map t' = delete k (bt_map t);
  bt_Seek_ok t k : bt_ok t → ∃ e, bt_Seek t k = Ret (e, bool_decide (is_Some (bt_map t !! k))) ∧
    en_fwd t e (λ k', k ≤b k') ∧ en_bwd t e (λ k', k' ≤b k);
  bt_SeekFirst_ok t : bt_ok t → ∃ o, bt_SeekFirst t = Ret o ∧
    match o with Some e => en_fwd t e (λ _, True) | None => bt_map t = ∅ end;
  en_Next_ok t e P : bt_ok t → en_fwd t e P → ∃ o e', en_Next t e = Ret (o, e') ∧ first_in (bt_map t) P o ∧
    match o with Some (k, _) => en_fwd t e' (λ k', k <b k') | None => True end;
  en_Prev_ok t e P : bt_ok t → en_bwd t e P → ∃ o e', en_Prev t e = Ret (o, e') ∧ last_in (bt_map t) P o ∧
    match o with Some (k, _) => en_bwd t e' (λ k', k' <b k) | None => True end
}.

(** The specification itself is such a tree: a map, whose enumerators are the
    sets of keys that are left in the two directions. *)
Section map_btree.
Context {V : Type}.

Definition map_enum : Type := (bytes → bool) * (bytes → bool).

#[export] Instance map_btree : BTreeOps V (gmap bytes V) map_enum := {|
  bt_TreeNew := ∅;
  bt_Len m := Z.of_nat (size m);
  bt_Get m k := Ret (m !! k);
  bt_Set m k v := Ret (<[k := v]> m);
  bt_PutNewAndGetOld m k v := Ret (m !! k, <[k := v]> m);
  bt_Put X m k upd := '(x, w) ← upd (m !! k); Ret (x, match w with Some v => <[k := v]> m | None => m end);
  bt_Delete m k := Ret (bool_decide (is_Some (m !! k)), delete k m);
  bt_Seek m k := Ret ((λ k', negb (bytes_ltb k' k), λ k', negb (bytes_ltb k k')), bool_decide (is_Some (m !! k)));
  bt_SeekFirst m := Ret (if bool_decide (size m = 0%nat) then None else Some (λ _, true, λ _, false));
  en_Next m e := let o := find_first m e.1 in Ret (o, match o with Some (k, _) => (λ k', bytes_ltb k k', e.2) | None => e end);
  en_Prev m e := let o := find_last m e.2 in Ret (o, match o with Some (k, _) => (e.1, λ k', bytes_ltb k' k) | None => e end)
|}.

Lemma negb_ltb_le (a b : bytes) : negb (bytes_ltb a b) = true ↔ b ≤b a.
Proof. rewrite negb_true_iff. apply bytes_ltb_ge. Qed.

#[export] Instance map_btree_laws : BTreeLaws V (gmap bytes V) map_enum.
Proof.
  refine {| bt_ok m := True; bt_map m := m; en_fwd _ e P := ∀ k, P k ↔ e.1 k = true; en_bwd _ e P := ∀ k, P k ↔ e.2 k = true |}.
  - done.
  - done.
  - done.
  - intros t k v _. by eexists.
  - intros t k v _. by eexists.
  - intros X t k upd x w _ E. cbn. rewrite E. by eexists.
  - intros t k _. by eexists.
  - intros t k _. eexists. split; [reflexivity|]. cbn. split; intros k'; by rewrite negb_ltb_le.
  - intros t _. eexists. split; [reflexivity|]. case_bool_decide as He; [by apply map_size_empty_iff|done].
  - intros t e P _ HP. eexists _, _. split; [reflexivity|].
    assert (first_in t P (find_first t e.1)) as H by (eapply first_in_iff; [|apply find_first_spec]; naive_solver).
    split; [exact H|]. destruct (find_first t e.1) as [[k v]|]; [|done]. intros k'. cbn. by rewrite bytes_ltb_lt.
  - intros t e P _ HP. eexists _, _. split; [reflexivity|].
    assert (last_in t P (find_last t e.2)) as H by (eapply last_in_iff; [|apply find_last_spec]; naive_solver).
    split; [exact H|]. destruct (find_last t e.2) as [[k v]|]; [|done]. intros k'. cbn. by rewrite bytes_ltb_lt.
Defined.
End map_btree.
