(* ===== verification/BTree.v ===== *)
(** * The B+tree in Go (indextree/b/btree_nocgo.go)

    The pages of a tree live on a heap: data pages, which hold the items and
    are linked into a list, and index pages, whose children are pages of either
    kind. Arrays have the fixed length of the code, with the slots behind [c]
    holding whatever the code left there. Pages that go back to a pool are
    zeroed; a page taken from a pool is zero and in no use, so the model takes
    it from a fresh address. All trees compare keys with [bytes.Compare].

    A method is a transformer of the tree with its heap. [store/b/btree.go] is
    the same code at another type of values ([CacheBTree]). *)
From S2P Require Import Prelude ByteOrder BTreeSpec.

Definition kx : Z := 32.
Definition kd : Z := 32.
Definition ptr : Type := positive.

(** ** Pages *)

(** [d], with [de] a key with its value *)
Record d_page (V : Type) := mk_d { d_c : Z; d_d : list (bytes * V); d_n : option ptr; d_p : option ptr }.
Arguments mk_d {V}.
Arguments d_c {V}.
Arguments d_d {V}.
Arguments d_n {V}.
Arguments d_p {V}.

(** A value of type [interface\{\}] that is nil, an [*x] or a [*d] *)
Inductive page := NilPage | XPage (q : ptr) | DPage (q : ptr).
#[export] Instance page_eq_dec : EqDecision page.
Proof. solve_decision. Defined.

Record xe := mk_xe { ch : page; xk : bytes }.
(** [x] *)
Record x_page := mk_x { x_c : Z; x_x : list xe }.

Definition zk : bytes := [].
Definition zxe : xe := mk_xe NilPage zk.
Definition zx : x_page := mk_x 0 (replicate (Z.to_nat (2 * kx + 2)) zxe).

(** [copy(b\[lo:hi\], src)] *)
Definition copy_to {A} (b : list A) (lo hi : Z) (src : list A) : outcome (list A) :=
  if (0 <=? lo) && (lo <=? hi) && (hi <=? zlen b) then Ret (splice b (Z.to_nat lo) (take (Z.to_nat (hi - lo)) src))
  else Panic "slice bounds out of range".
Definition copy_from {A} (b : list A) (lo : Z) (src : list A) : outcome (list A) := copy_to b lo (zlen b) src.

(** ** Index pages *)

Implicit Types (xp : x_page).

Definition set_ch xp (i : Z) (c : page) : outcome x_page :=
  e ← index (x_x xp) i; l ← store_index (x_x xp) i (mk_xe c (xk e)); mret (mk_x (x_c xp) l).
Definition set_k xp (i : Z) (k : bytes) : outcome x_page :=
  e ← index (x_x xp) i; l ← store_index (x_x xp) i (mk_xe (ch e) k); mret (mk_x (x_c xp) l).
Definition set_xe xp (i : Z) (e : xe) : outcome x_page :=
  l ← store_index (x_x xp) i e; mret (mk_x (x_c xp) l).
Definition get_ch xp (i : Z) : outcome page := e ← index (x_x xp) i; mret (ch e).
Definition get_k xp (i : Z) : outcome bytes := e ← index (x_x xp) i; mret (xk e).
Definition set_xc xp (c : Z) : x_page := mk_x c (x_x xp).
(** [copy(q.x\[lo:\], src)] *)
Definition x_copy xp (lo : Z) (src : list xe) : outcome x_page :=
  l ← copy_from (x_x xp) lo src; mret (mk_x (x_c xp) l).

Definition x_extract xp (i : Z) : outcome x_page :=
  let xp := set_xc xp (x_c xp - 1) in
  let c := x_c xp in
  if i <? c then
    src ← slice (x_x xp) (i + 1) (c + 1);
    xp ← x_copy xp i src;
    last ← get_ch xp (c + 1);
    xp ← set_ch xp c last;
    xp ← set_k xp c zk;
    set_xe xp (c + 1) zxe
  else mret xp.

Definition x_insert xp (i : Z) (k : bytes) (c' : page) : outcome x_page :=
  let c := x_c xp in
  xp ← (if i <? c then
          last ← get_ch xp c;
          xp ← set_ch xp (c + 1) last;
          src ← slice (x_x xp) (i + 1) c;
          xp ← x_copy xp (i + 2) src;
          ki ← get_k xp i;
          set_k xp (i + 1) ki
        else mret xp);
  let xp := set_xc xp (c + 1) in
  xp ← set_k xp i k;
  set_ch xp (i + 1) c'.

(** What [t.catX] does to the parent of the merged pages [pi] and [pi + 1] *)
Definition catX_parent xp (pi : Z) : outcome x_page :=
  let xp := set_xc xp (x_c xp - 1) in
  let pc := x_c xp in
  if pi <? pc then
    k1 ← get_k xp (pi + 1);
    xp ← set_k xp pi k1;
    src ← slice (x_x xp) (pi + 2) (pc + 1);
    xp ← x_copy xp (pi + 1) src;
    last ← get_ch xp (pc + 1);
    xp ← set_ch xp pc last;
    xp ← set_k xp pc zk;
    set_ch xp (pc + 1) NilPage
  else mret xp.

Definition d_of (c : page) : outcome ptr :=
  match c with DPage q => Ret q | _ => Panic "interface conversion: interface is not *d" end.
Definition x_of (c : page) : outcome ptr :=
  match c with XPage q => Ret q | _ => Panic "interface conversion: interface is not *x" end.

(** The children left and right of child [i], the first and the second absent at the ends *)
Definition left_child xp (i : Z) (to : page → outcome ptr) : outcome (option ptr) :=
  if 0 <? i then c ← get_ch xp (i - 1); l ← to c; mret (Some l) else mret None.
Definition right_child xp (i : Z) (to : page → outcome ptr) : outcome (option ptr) :=
  if (0 <=? i) && (i <? x_c xp) then c ← get_ch xp (i + 1); r ← to c; mret (Some r) else mret None.
Definition x_siblings xp (i : Z) : outcome (option ptr * option ptr) :=
  l ← left_child xp i d_of; r ← right_child xp i d_of; mret (l, r).

(** [x\[:c\]] of the keys, as far as the binary search reads it: [t.find] on
    the keys that [key] reads. *)
Fixpoint find_loop (key : Z → outcome bytes) (k : bytes) (fuel : nat) (l h : Z) : outcome (Z * bool) :=
  if l <=? h then
    match fuel with
    | O => Panic "out of fuel"
    | S fuel =>
        let m := Z.shiftr (l + h) 1 in
        mk ← key m;
        match bytes_compare k mk with
        | Gt => find_loop key k fuel (m + 1) h
        | Eq => mret (m, true)
        | Lt => find_loop key k fuel l (m - 1)
        end
    end
  else mret (l, false).

(** ** Data pages *)

Section btree.
Context {V : Type} (zv : V).
Notation item := (bytes * V)%type.
Notation dp := (d_page V).

Definition zde : item := ([], zv).
Definition zd : dp := mk_d 0 (replicate (Z.to_nat (2 * kd + 1)) zde) None None.

Definition set_dc (pg : dp) (c : Z) : dp := mk_d c (d_d pg) (d_n pg) (d_p pg).
Definition set_dd (pg : dp) (l : list item) : dp := mk_d (d_c pg) l (d_n pg) (d_p pg).
Definition set_dn (pg : dp) (n : option ptr) : dp := mk_d (d_c pg) (d_d pg) n (d_p pg).
Definition set_dp (pg : dp) (p : option ptr) : dp := mk_d (d_c pg) (d_d pg) (d_n pg) p.
Definition d_set (pg : dp) (i : Z) (kv : item) : outcome dp := l ← store_index (d_d pg) i kv; mret (set_dd pg l).

(** [t.extract] and [t.insert], as far as they change the page *)
Definition d_extract (pg : dp) (i : Z) : outcome dp :=
  let pg := set_dc pg (d_c pg - 1) in
  let c := d_c pg in
  pg ← (if i <? c then src ← slice (d_d pg) (i + 1) (c + 1); l ← copy_from (d_d pg) i src; mret (set_dd pg l) else mret pg);
  d_set pg c zde.
Definition d_insert (pg : dp) (i : Z) (k : bytes) (v : V) : outcome dp :=
  let c := d_c pg in
  pg ← (if i <? c then src ← slice (d_d pg) i c; l ← copy_from (d_d pg) (i + 1) src; mret (set_dd pg l) else mret pg);
  d_set (set_dc pg (c + 1)) i (k, v).

(** ** Trees *)

Record BTree := mkBTree {
  t_c : Z;
  t_first : option ptr;
  t_last : option ptr;
  t_r : page;
  t_ver : Z;
  t_ds : gmap ptr dp;
  t_xs : gmap ptr x_page;
  t_next : ptr
}.
Implicit Types (t : BTree) (q : page).
Notation M A := (stM BTree A).

Definition TreeNew : BTree := mkBTree 0 None None NilPage 0 ∅ ∅ 1%positive.

Definition set_ds t ds : BTree := mkBTree (t_c t) (t_first t) (t_last t) (t_r t) (t_ver t) ds (t_xs t) (t_next t).
Definition set_xs t xs : BTree := mkBTree (t_c t) (t_first t) (t_last t) (t_r t) (t_ver t) (t_ds t) xs (t_next t).
Definition set_tc t c : BTree := mkBTree c (t_first t) (t_last t) (t_r t) (t_ver t) (t_ds t) (t_xs t) (t_next t).
Definition set_first t f : BTree := mkBTree (t_c t) f (t_last t) (t_r t) (t_ver t) (t_ds t) (t_xs t) (t_next t).
Definition set_last t l : BTree := mkBTree (t_c t) (t_first t) l (t_r t) (t_ver t) (t_ds t) (t_xs t) (t_next t).
Definition set_root t r : BTree := mkBTree (t_c t) (t_first t) (t_last t) r (t_ver t) (t_ds t) (t_xs t) (t_next t).
Definition incr_ver t : BTree := mkBTree (t_c t) (t_first t) (t_last t) (t_r t) (to_int64 (t_ver t + 1)) (t_ds t) (t_xs t) (t_next t).

Definition t_do (f : BTree → BTree) : M unit := λ t, Ret (tt, f t).
Definition t_get {A} (f : BTree → A) : M A := λ t, Ret (f t, t).

(** Reading and writing pages through pointers *)
Definition deref (p : option ptr) : M ptr := match p with Some p => mret p | None => st_panic "nil pointer dereference" end.
Definition d_load (p : ptr) : M dp := λ t, match t_ds t !! p with Some pg => Ret (pg, t) | None => Panic "nil pointer dereference" end.
Definition x_load (p : ptr) : M x_page := λ t, match t_xs t !! p with Some pg => Ret (pg, t) | None => Panic "nil pointer dereference" end.
Definition d_store (p : ptr) (pg : dp) : M unit := t_do (λ t, set_ds t (<[p := pg]> (t_ds t))).
Definition x_store (p : ptr) (pg : x_page) : M unit := t_do (λ t, set_xs t (<[p := pg]> (t_xs t))).
Definition d_mod (p : ptr) (f : dp → outcome dp) : M unit := pg ← d_load p; pg ← st_lift (f pg); d_store p pg.
Definition x_mod (p : ptr) (f : x_page → outcome x_page) : M unit := pg ← x_load p; pg ← st_lift (f pg); x_store p pg.

(** Taking a page from its pool *)
Definition new_d : M ptr := λ t,
  Ret (t_next t, mkBTree (t_c t) (t_first t) (t_last t) (t_r t) (t_ver t) (<[t_next t := zd]> (t_ds t)) (t_xs t) (Pos.succ (t_next t))).
Definition new_x : M ptr := λ t,
  Ret (t_next t, mkBTree (t_c t) (t_first t) (t_last t) (t_r t) (t_ver t) (t_ds t) (<[t_next t := zx]> (t_xs t)) (Pos.succ (t_next t))).

Definition newX (ch0 : page) : M ptr :=
  r ← new_x; _ ← x_mod r (λ xp, set_ch xp 0 ch0); mret r.

Definition mvL (l r : ptr) (c : Z) : M unit :=
  rp ← d_load r;
  src ← st_lift (slice (d_d rp) 0 c);
  _ ← d_mod l (λ lp, dd ← copy_from (d_d lp) (d_c lp) src; mret (set_dd lp dd));
  _ ← d_mod r (λ rp, src ← slice (d_d rp) c (d_c rp); dd ← copy_from (d_d rp) 0 src; mret (set_dd rp dd));
  _ ← d_mod l (λ lp, mret (set_dc lp (d_c lp + c)));
  d_mod r (λ rp, mret (set_dc rp (d_c rp - c))).

Definition mvR (l r : ptr) (c : Z) : M unit :=
  _ ← d_mod r (λ rp, src ← slice (d_d rp) 0 (d_c rp); dd ← copy_from (d_d rp) c src; mret (set_dd rp dd));
  lp ← d_load l;
  src ← st_lift (slice (d_d lp) (d_c lp - c) (zlen (d_d lp)));
  _ ← d_mod r (λ rp, dd ← copy_to (d_d rp) 0 c src; mret (set_dd rp dd));
  _ ← d_mod r (λ rp, mret (set_dc rp (d_c rp + c)));
  d_mod l (λ lp, mret (set_dc lp (d_c lp - c))).

(** Zeroing the page of the root, which then goes back to its pool *)
Definition free_root : M unit :=
  r ← t_get t_r;
  match r with
  | XPage x => x_store x zx
  | DPage d => d_store d zd
  | NilPage => mret tt
  end.

Fixpoint clr (fuel : nat) q : M unit :=
  match fuel with
  | O => st_panic "out of fuel"
  | S fuel =>
      match q with
      | XPage x =>
          xp ← x_load x;
          _ ← (fix go (i n : nat) : M unit :=
                 match n with
                 | O => mret tt
                 | S n => c ← st_lift (get_ch xp (Z.of_nat i)); _ ← clr fuel c; go (S i) n
                 end) 0%nat (Z.to_nat (x_c xp + 1));
          x_store x zx
      | DPage d => d_store d zd
      | NilPage => mret tt
      end
  end.

(** Every level of a tree has a page: more steps than index pages are never needed. *)
Definition depth t : nat := S (S (size (t_xs t))).

Definition Clear : M unit := λ t,
  if bool_decide (t_r t = NilPage) then Ret (tt, t) else
  (_ ← clr (depth t) (t_r t);
   t_do (λ t, incr_ver (set_root (set_last (set_first (set_tc t 0) None) None) NilPage))) t.

(** [Close] zeroes the tree, which goes back to its pool. *)
Definition Tree_Close : M unit :=
  _ ← Clear;
  t_do (λ t, mkBTree 0 None None NilPage 0 (t_ds t) (t_xs t) (t_next t)).

Definition find q (k : bytes) : M (Z * bool) :=
  match q with
  | XPage x => xp ← x_load x; st_lift (find_loop (get_k xp) k (Z.to_nat (x_c xp)) 0 (x_c xp - 1))
  | DPage d => pg ← d_load d; st_lift (find_loop (λ m, e ← index (d_d pg) m; mret e.1) k (Z.to_nat (d_c pg)) 0 (d_c pg - 1))
  | NilPage => mret (0, false)
  end.

Definition t_extract (d : ptr) (i : Z) : M unit :=
  _ ← t_do incr_ver;
  _ ← d_mod d (λ pg, d_extract pg i);
  t_do (λ t, set_tc t (t_c t - 1)).
Definition t_insert (d : ptr) (i : Z) (k : bytes) (v : V) : M unit :=
  _ ← t_do incr_ver;
  _ ← d_mod d (λ pg, d_insert pg i k v);
  t_do (λ t, set_tc t (t_c t + 1)).

(** ** Deleting *)

(** [r], behind [q] in the list of leaves, leaves it. *)
Definition unlink (q r : ptr) : M unit :=
  rp ← d_load r;
  _ ← match d_n rp with
      | Some n => d_mod n (λ np, mret (set_dp np (Some q)))
      | None => t_do (λ t, set_last t (Some q))
      end;
  _ ← d_mod q (λ qp, mret (set_dn qp (d_n rp)));
  d_store r zd.

Definition cat (p q r : ptr) (pi : Z) : M unit :=
  _ ← t_do incr_ver;
  rp ← d_load r;
  _ ← mvL q r (d_c rp);
  _ ← unlink q r;
  pp ← x_load p;
  if 1 <? x_c pp then
    _ ← x_mod p (λ pp, x_extract pp pi);
    x_mod p (λ pp, set_ch pp pi (DPage q))
  else
    _ ← free_root;
    t_do (λ t, set_root t (DPage q)).

Definition catX (p q r : ptr) (pi : Z) : M unit :=
  _ ← t_do incr_ver;
  pp ← x_load p;
  pk ← st_lift (get_k pp pi);
  _ ← x_mod q (λ qp, set_k qp (x_c qp) pk);
  rp ← x_load r;
  src ← st_lift (slice (x_x rp) 0 (x_c rp));
  _ ← x_mod q (λ qp, x_copy qp (x_c qp + 1) src);
  _ ← x_mod q (λ qp, mret (set_xc qp (x_c qp + x_c rp + 1)));
  lastch ← st_lift (get_ch rp (x_c rp));
  _ ← x_mod q (λ qp, set_ch qp (x_c qp) lastch);
  _ ← x_store r zx;
  if 1 <? x_c pp then
    x_mod p (λ pp, catX_parent pp pi)
  else
    _ ← free_root;
    t_do (λ t, set_root t (XPage q)).

(** [o != nil && f(o.c)] for a page of each kind *)
Definition d_test (o : option ptr) (f : Z → bool) : M bool :=
  match o with Some q => pg ← d_load q; mret (f (d_c pg)) | None => mret false end.
Definition x_test (o : option ptr) (f : Z → bool) : M bool :=
  match o with Some q => pg ← x_load q; mret (f (x_c pg)) | None => mret false end.
(** [q.d\[0\].k] *)
Definition first_key (q : ptr) : M bytes := pg ← d_load q; e ← st_lift (index (d_d pg) 0); mret e.1.

Definition underflow (p q : ptr) (pi : Z) : M unit :=
  _ ← t_do incr_ver;
  pp ← x_load p;
  '(l, r) ← st_lift (x_siblings pp pi);
  qp ← d_load q;
  b ← d_test l (λ lc, 2 * kd <=? lc + d_c qp);
  if (b : bool) then
    l ← deref l;
    _ ← mvR l q 1;
    k ← first_key q;
    x_mod p (λ pp, set_k pp (pi - 1) k)
  else
  b ← d_test r (λ rc, 2 * kd <=? d_c qp + rc);
  if (b : bool) then
    r ← deref r;
    _ ← mvL q r 1;
    k ← first_key r;
    _ ← x_mod p (λ pp, set_k pp pi k);
    d_mod r (λ rp, d_set rp (d_c rp) zde)
  else
  match l with
  | Some l => cat p l q (pi - 1)
  | None => r ← deref r; cat p q r pi
  end.

(** The page the descent goes on with, and the index in it *)
Definition underflowX (p : option ptr) (q : ptr) (pi i : Z) : M (ptr * Z) :=
  _ ← t_do incr_ver;
  '(l, r) ← (if 0 <=? pi then
    p ← deref p; pp ← x_load p;
    l ← st_lift (left_child pp pi x_of); r ← st_lift (right_child pp pi x_of); mret (l, r)
  else mret (None, None));
  b ← x_test l (λ lc, kx <? lc);
  if (b : bool) then
    l ← deref l; p ← deref p;
    _ ← x_mod q (λ qp, c ← get_ch qp (x_c qp); set_ch qp (x_c qp + 1) c);
    _ ← x_mod q (λ qp, src ← slice (x_x qp) 0 (x_c qp); x_copy qp 1 src);
    lp ← x_load l; c ← st_lift (get_ch lp (x_c lp));
    _ ← x_mod q (λ qp, set_ch qp 0 c);
    pp ← x_load p; k ← st_lift (get_k pp (pi - 1));
    _ ← x_mod q (λ qp, set_k qp 0 k);
    _ ← x_mod q (λ qp, mret (set_xc qp (x_c qp + 1)));
    _ ← x_mod l (λ lp, mret (set_xc lp (x_c lp - 1)));
    lp ← x_load l; k ← st_lift (get_k lp (x_c lp));
    _ ← x_mod p (λ pp, set_k pp (pi - 1) k);
    mret (q, i + 1)
  else
  b ← x_test r (λ rc, kx <? rc);
  if (b : bool) then
    r ← deref r; p ← deref p;
    pp ← x_load p; k ← st_lift (get_k pp pi);
    _ ← x_mod q (λ qp, set_k qp (x_c qp) k);
    _ ← x_mod q (λ qp, mret (set_xc qp (x_c qp + 1)));
    rp ← x_load r; c ← st_lift (get_ch rp 0);
    _ ← x_mod q (λ qp, set_ch qp (x_c qp) c);
    k ← st_lift (get_k rp 0);
    _ ← x_mod p (λ pp, set_k pp pi k);
    _ ← x_mod r (λ rp, src ← slice (x_x rp) 1 (x_c rp); x_copy rp 0 src);
    _ ← x_mod r (λ rp, mret (set_xc rp (x_c rp - 1)));
    _ ← x_mod r (λ rp, c ← get_ch rp (x_c rp + 1); set_ch rp (x_c rp) c);
    _ ← x_mod r (λ rp, set_k rp (x_c rp) zk);
    _ ← x_mod r (λ rp, set_ch rp (x_c rp + 1) NilPage);
    mret (q, i)
  else
  p ← deref p;
  match l with
  | Some l =>
      lp ← x_load l;
      let i := i + (x_c lp + 1) in
      _ ← catX p l q (pi - 1);
      mret (l, i)
  | None => r ← deref r; _ ← catX p q r pi; mret (q, i)
  end.

(** [find] at an index page goes to the child right of a key that is equal. *)
Fixpoint delete_loop (fuel : nat) (k : bytes) (pi : Z) (p : option ptr) q : M bool :=
  match fuel with
  | O => st_panic "out of fuel"
  | S fuel =>
      '(i, ok) ← find q k;
      r ← t_get t_r;
      match q with
      | XPage x =>
          xp ← x_load x;
          '(x, i) ← (if (x_c xp <? kx) && negb (bool_decide (q = r)) then underflowX p x pi i else mret (x, i));
          let pi := if (ok : bool) then i + 1 else i in
          xp ← x_load x;
          q ← st_lift (get_ch xp pi);
          delete_loop fuel k pi (Some x) q
      | DPage x =>
          if (ok : bool) then
            _ ← t_extract x i;
            pg ← d_load x;
            if kd <=? d_c pg then mret true else
            c ← t_get t_c;
            _ ← (if negb (bool_decide (q = r)) then p ← deref p; underflow p x pi
                 else if c =? 0 then Clear else mret tt);
            mret true
          else mret false
      | NilPage => delete_loop fuel k pi p q
      end
  end.

Definition Tree_Delete (k : bytes) : M bool := λ t,
  if bool_decide (t_r t = NilPage) then Ret (false, t) else delete_loop (depth t) k (-1) None (t_r t) t.

(** ** Setting *)

(** A new page is linked behind [q] and gets the second half of its items. *)
Definition link_new (q : ptr) : M ptr :=
  r ← new_d;
  qp ← d_load q;
  _ ← match d_n qp with
      | Some n =>
          _ ← d_mod r (λ rp, mret (set_dn rp (Some n)));
          d_mod n (λ np, mret (set_dp np (Some r)))
      | None => t_do (λ t, set_last t (Some r))
      end;
  _ ← d_mod q (λ qp, mret (set_dn qp (Some r)));
  _ ← d_mod r (λ rp, mret (set_dp rp (Some q)));
  mret r.
Definition halve (q r : ptr) : M unit :=
  qp ← d_load q;
  src ← st_lift (slice (d_d qp) kd (2 * kd));
  _ ← d_mod r (λ rp, dd ← copy_from (d_d rp) 0 src; mret (set_dd rp dd));
  _ ← d_mod q (λ qp, mret (set_dd qp (splice (d_d qp) (Z.to_nat kd) (replicate (length (d_d qp) - Z.to_nat kd) zde))));
  _ ← d_mod q (λ qp, mret (set_dc qp kd));
  d_mod r (λ rp, mret (set_dc rp kd)).

(** The new page [r] right of child [pi], [q], gets its place in the parent,
    which is a new root when [q] was the root. *)
Definition add_child (p : option ptr) (pi : Z) (q : page) (k : bytes) (r : page) : M unit :=
  if 0 <=? pi then p ← deref p; x_mod p (λ pp, x_insert pp pi k r)
  else x ← newX q; _ ← x_mod x (λ xp, x_insert xp 0 k r); t_do (λ t, set_root t (XPage x)).

Definition split (p : option ptr) (q : ptr) (pi i : Z) (k : bytes) (v : V) : M unit :=
  _ ← t_do incr_ver;
  r ← link_new q;
  _ ← halve q r;
  _ ← (if kd <? i then t_insert r (i - kd) k v else mret tt);
  k0 ← first_key r;
  _ ← add_child p pi (DPage q) k0 (DPage r);
  if kd <? i then mret tt else t_insert q i k v.

Definition overflow (p : option ptr) (q : ptr) (pi i : Z) (k : bytes) (v : V) : M unit :=
  _ ← t_do incr_ver;
  '(l, r) ← (if 0 <=? pi then p ← deref p; pp ← x_load p; st_lift (x_siblings pp pi) else mret (None, None));
  b ← d_test l (λ lc, (lc <? 2 * kd) && negb (i =? 0));
  if (b : bool) then
    l ← deref l; p ← deref p;
    _ ← mvL l q 1;
    _ ← t_insert q (i - 1) k v;
    k0 ← first_key q;
    x_mod p (λ pp, set_k pp (pi - 1) k0)
  else
  b ← d_test r (λ rc, rc <? 2 * kd);
  if (b : bool) then
    r ← deref r; p ← deref p;
    if i <? 2 * kd then
      _ ← mvR q r 1;
      _ ← t_insert q i k v;
      k0 ← first_key r;
      x_mod p (λ pp, set_k pp pi k0)
    else
      _ ← t_insert r 0 k v;
      x_mod p (λ pp, set_k pp pi k)
  else split p q pi i k v.

Definition splitX (p : option ptr) (q : ptr) (pi i : Z) : M (ptr * Z) :=
  _ ← t_do incr_ver;
  r ← new_x;
  qp ← x_load q;
  src ← st_lift (slice (x_x qp) (kx + 1) (zlen (x_x qp)));
  _ ← x_mod r (λ rp, x_copy rp 0 src);
  _ ← x_mod q (λ qp, mret (set_xc qp kx));
  _ ← x_mod r (λ rp, mret (set_xc rp kx));
  qp ← x_load q; k ← st_lift (get_k qp kx);
  _ ← add_child p pi (XPage q) k (XPage r);
  _ ← x_mod q (λ qp, set_k qp kx zk);
  _ ← x_mod q (λ qp, mret (mk_x (x_c qp) (splice (x_x qp) (Z.to_nat (kx + 1)) (replicate (length (x_x qp) - Z.to_nat (kx + 1)) zxe))));
  if kx <? i then mret (r, i - (kx + 1)) else mret (q, i).

(** A new item for the data page [q] *)
Definition add_item (p : option ptr) (q : ptr) (pi i : Z) (k : bytes) (v : V) : M unit :=
  pg ← d_load q;
  if d_c pg <? 2 * kd then t_insert q i k v else overflow p q pi i k v.

(** The first item of a tree without pages *)
Definition first_item (k : bytes) (v : V) : M unit :=
  z ← new_d;
  _ ← t_insert z 0 k v;
  t_do (λ t, set_last (set_first (set_root t (DPage z)) (Some z)) (Some z)).

Fixpoint set_loop (fuel : nat) (k : bytes) (v : V) (pi : Z) (p : option ptr) q : M unit :=
  match fuel with
  | O => st_panic "out of fuel"
  | S fuel =>
      '(i, ok) ← find q k;
      match q with
      | XPage x =>
          let i := if (ok : bool) then i + 1 else i in
          xp ← x_load x;
          '(x, i) ← (if 2 * kx <? x_c xp then splitX p x pi i else mret (x, i));
          xp ← x_load x;
          q ← st_lift (get_ch xp i);
          set_loop fuel k v i (Some x) q
      | DPage x =>
          if (ok : bool) then d_mod x (λ pg, e ← index (d_d pg) i; d_set pg i (e.1, v)) else
          add_item p x pi i k v
      | NilPage => set_loop fuel k v pi p q
      end
  end.

Definition Tree_Set (k : bytes) (v : V) : M unit := λ t,
  if bool_decide (t_r t = NilPage) then first_item k v t else set_loop (depth t) k v (-1) None (t_r t) t.

(** [upd] gets the old value, if there is one, and returns the new one, if it
    is to be written; [X] is what it leaves in the variables of its caller.
    The result has the old value ([zv] for none), and whether one was written. *)
Fixpoint put_loop {X} (fuel : nat) (k : bytes) (upd : option V → outcome (X * option V)) (pi : Z) (p : option ptr) q : M (X * (V * bool)) :=
  match fuel with
  | O => st_panic "out of fuel"
  | S fuel =>
      '(i, ok) ← find q k;
      match q with
      | XPage x =>
          let i := if (ok : bool) then i + 1 else i in
          xp ← x_load x;
          '(x, i) ← (if 2 * kx <? x_c xp then splitX p x pi i else mret (x, i));
          xp ← x_load x;
          q ← st_lift (get_ch xp i);
          put_loop fuel k upd i (Some x) q
      | DPage x =>
          if (ok : bool) then
            xp ← d_load x;
            e ← st_lift (index (d_d xp) i);
            '(a, newV) ← st_lift (upd (Some e.2));
            match newV with
            | None => mret (a, (e.2, false))
            | Some v => _ ← d_mod x (λ pg, e ← index (d_d pg) i; d_set pg i (e.1, v)); mret (a, (e.2, true))
            end
          else
            '(a, newV) ← st_lift (upd None);
            match newV with
            | None => mret (a, (zv, false))
            | Some v => _ ← add_item p x pi i k v; mret (a, (zv, true))
            end
      | NilPage => put_loop fuel k upd pi p q
      end
  end.

Definition Tree_Put {X} (k : bytes) (upd : option V → outcome (X * option V)) : M (X * (V * bool)) := λ t,
  if bool_decide (t_r t = NilPage) then
    ('(a, newV) ← st_lift (upd None);
     match newV with
     | None => mret (a, (zv, false))
     | Some v => _ ← first_item k v; mret (a, (zv, true))
     end) t
  else put_loop (depth t) k upd (-1) None (t_r t) t.

(** [oldVExists] is assigned by the closure. *)
Definition PutNewAndGetOld (k : bytes) (newV : V) : M (V * bool) :=
  '(oldVExists, (oldV, _)) ← Tree_Put k (λ old, Ret (bool_decide (is_Some old), Some newV));
  mret (oldV, oldVExists).

(** ** Reading *)

Fixpoint get_loop (fuel : nat) (k : bytes) q : M (option V) :=
  match fuel with
  | O => st_panic "out of fuel"
  | S fuel =>
      '(i, ok) ← find q k;
      match q with
      | XPage x => xp ← x_load x; q ← st_lift (get_ch xp (if (ok : bool) then i + 1 else i)); get_loop fuel k q
      | DPage x => if (ok : bool) then pg ← d_load x; e ← st_lift (index (d_d pg) i); mret (Some e.2) else mret None
      | NilPage => if (ok : bool) then get_loop fuel k q else mret None
      end
  end.
Definition Tree_Get (k : bytes) : M (option V) := λ t,
  if bool_decide (t_r t = NilPage) then Ret (None, t) else get_loop (depth t) k (t_r t) t.

Definition Tree_Len t : Z := t_c t.

Definition First : M (option item) :=
  f ← t_get t_first;
  match f with Some q => pg ← d_load q; e ← st_lift (index (d_d pg) 0); mret (Some e) | None => mret None end.
Definition Last : M (option item) :=
  l ← t_get t_last;
  match l with Some q => pg ← d_load q; e ← st_lift (index (d_d pg) (d_c pg - 1)); mret (Some e) | None => mret None end.

(** ** Enumerators *)

(** [err] is nil or io.EOF; [t] is the tree the methods get. *)
Record Enumerator := mkEnum { e_err : bool; e_hit : bool; e_i : Z; e_k : bytes; e_q : option ptr; e_ver : Z }.
Implicit Types (e : Enumerator).

Fixpoint seek_loop (fuel : nat) (k : bytes) q : M (Enumerator * bool) :=
  match fuel with
  | O => st_panic "out of fuel"
  | S fuel =>
      '(i, ok) ← find q k;
      match q with
      | XPage x => xp ← x_load x; q ← st_lift (get_ch xp (if (ok : bool) then i + 1 else i)); seek_loop fuel k q
      | DPage x => ver ← t_get t_ver; mret (mkEnum false ok i k (Some x) ver, ok)
      | NilPage => seek_loop fuel k q
      end
  end.
Definition Seek (k : bytes) : M (Enumerator * bool) := λ t,
  if bool_decide (t_r t = NilPage) then Ret ((mkEnum false false 0 k None (t_ver t), false), t) else seek_loop (depth t) k (t_r t) t.

(** [None] for io.EOF *)
Definition SeekFirst : M (option Enumerator) :=
  f ← t_get t_first; ver ← t_get t_ver;
  match f with
  | None => mret None
  | Some q => k ← first_key q; mret (Some (mkEnum false true 0 k (Some q) ver))
  end.
Definition SeekLast : M (option Enumerator) :=
  l ← t_get t_last; ver ← t_get t_ver;
  match l with
  | None => mret None
  | Some q =>
      pg ← d_load q; e ← st_lift (index (d_d pg) (d_c pg - 1));
      mret (Some (mkEnum false true (d_c pg - 1) e.1 (Some q) ver))
  end.

Definition set_err e : Enumerator := mkEnum true (e_hit e) (e_i e) (e_k e) (e_q e) (e_ver e).
Definition set_pos e (q : option ptr) (i : Z) : Enumerator := mkEnum (e_err e) (e_hit e) i (e_k e) q (e_ver e).
Definition set_hit e (k : bytes) : Enumerator := mkEnum (e_err e) true (e_i e) k (e_q e) (e_ver e).

(** [e.next()] and [e.prev()]; whether they return an error is [e_err] of the result. *)
Definition e_next e : M Enumerator :=
  match e_q e with
  | None => mret (set_err e)
  | Some q =>
      pg ← d_load q;
      if e_i e <? d_c pg - 1 then mret (set_pos e (Some q) (e_i e + 1)) else
      let e := set_pos e (d_n pg) 0 in
      mret (if bool_decide (d_n pg = None) then set_err e else e)
  end.
Definition e_prev e : M Enumerator :=
  match e_q e with
  | None => mret (set_err e)
  | Some q =>
      if 0 <? e_i e then mret (set_pos e (Some q) (e_i e - 1)) else
      pg ← d_load q;
      match d_p pg with
      | None => mret (set_err (set_pos e None (e_i e)))
      | Some q' => pg' ← d_load q'; mret (set_pos e (Some q') (d_c pg' - 1))
      end
  end.

(** A tree that was changed since is searched again. *)
Definition resync e : M Enumerator :=
  ver ← t_get t_ver;
  if bool_decide (e_ver e = ver) then mret e else '(f, _) ← Seek (e_k e); mret f.

(** The item at the enumerator, which moves on by [move] *)
Definition e_item (move : Enumerator → M Enumerator) e : M (option item * Enumerator) :=
  q ← deref (e_q e);
  pg ← d_load q;
  i ← st_lift (index (d_d pg) (e_i e));
  e ← move (set_hit e i.1);
  mret (Some i, e).

Definition Next e : M (option item * Enumerator) :=
  if e_err e then mret (None, e) else
  e ← resync e;
  match e_q e with
  | None => mret (None, set_err e)
  | Some q =>
      pg ← d_load q;
      e ← (if d_c pg <=? e_i e then e_next e else mret e);
      if e_err e then mret (None, e) else e_item e_next e
  end.

Definition Prev e : M (option item * Enumerator) :=
  if e_err e then mret (None, e) else
  e ← resync e;
  match e_q e with
  | None => mret (None, set_err e)
  | Some _ =>
      e ← (if e_hit e then mret e else e_prev e);
      if e_err e then mret (None, e) else
      q ← deref (e_q e);
      pg ← d_load q;
      e ← (if d_c pg <=? e_i e then e_prev e else mret e);
      if e_err e then mret (None, e) else e_item e_prev e
  end.

(** ** The interface of the B-tree *)

#[export] Instance btree_ops : BTreeOps V BTree Enumerator := {|
  bt_TreeNew := TreeNew;
  bt_Len := Tree_Len;
  bt_Get t k := '(o, _) ← Tree_Get k t; Ret o;
  bt_Set t k v := '(_, t) ← Tree_Set k v t; Ret t;
  bt_PutNewAndGetOld t k v := '((old, exists_), t) ← PutNewAndGetOld k v t; Ret (if (exists_ : bool) then Some old else None, t);
  bt_Put X t k upd := '((a, _), t) ← Tree_Put k upd t; Ret (a, t);
  bt_Delete t k := Tree_Delete k t;
  bt_Seek t k := '(r, _) ← Seek k t; Ret r;
  bt_SeekFirst t := '(r, _) ← SeekFirst t; Ret r;
  en_Next t e := '(r, _) ← Next e t; Ret r;
  en_Prev t e := '(r, _) ← Prev e t; Ret r
|}.
End btree.
Arguments BTree V : clear implicits.
