(* ===== verification/BTreePages.v ===== *)
(** * The pages of the B+tree, one at a time

    A data page _has_ a list of items when its array starts with them; an index
    page has a row of entries, each a child with the key on its left. What the
    operations on single pages and the binary search do to these lists. *)
From S2P Require Import Prelude ByteOrder BTreeSpec BTree.

(** ** Arrays in pieces *)

Section pieces.
Context {A : Type}.
Implicit Types (x y z l : list A) (e : A) (i lo hi : Z).

Lemma index_app l x e y i : l = x ++ e :: y → i = zlen x → index l i = Ret e.
Proof.
  intros -> ->. apply index_Ret. split; [apply zlen_nonneg|]. unfold zlen. rewrite Nat2Z.id. by apply list_lookup_middle.
Qed.
Lemma store_index_app l x e y i e' : l = x ++ e :: y → i = zlen x → store_index l i e' = Ret (x ++ e' :: y).
Proof.
  intros -> ->. unfold store_index. rewrite (index_app _ x e y) by done. unfold zset, zlen. cbn.
  rewrite (proj2 (Z.leb_le 0 _)) by lia. rewrite Nat2Z.id. f_equal. rewrite <- (Nat.add_0_r (length x)). by rewrite insert_app_r.
Qed.
Lemma copy_to_app l x y z src lo hi : l = x ++ y ++ z → lo = zlen x → zlen src = zlen y → lo + zlen src ≤ hi ≤ zlen l →
  copy_to l lo hi src = Ret (x ++ src ++ z).
Proof.
  intros -> -> Hs Hh. unfold copy_to. pose proof (zlen_nonneg x). pose proof (zlen_nonneg src).
  rewrite (proj2 (Z.leb_le 0 _)), (proj2 (Z.leb_le _ hi)), (proj2 (Z.leb_le hi _)) by lia. cbn. f_equal.
  rewrite take_ge by (unfold zlen in *; lia). unfold splice, zlen in *. rewrite Nat2Z.id, take_app_length. do 2 f_equal.
  rewrite app_assoc, drop_app_length'; [done|]. rewrite length_app. lia.
Qed.
Lemma copy_from_app l x y z src lo : l = x ++ y ++ z → lo = zlen x → zlen src = zlen y → copy_from l lo src = Ret (x ++ src ++ z).
Proof. intros -> -> Hs. unfold copy_from. eapply copy_to_app; [done..|]. zlen. Qed.

(** A copy of more than fits stops at the end of the destination. *)
Lemma copy_to_cut l x y z src rest lo hi : l = x ++ y ++ z → lo = zlen x → zlen src = zlen y → hi = lo + zlen src →
  copy_to l lo hi (src ++ rest) = Ret (x ++ src ++ z).
Proof.
  intros -> -> Hs ->. rewrite <- (copy_to_app _ x y z src _ (zlen x + zlen src) eq_refl eq_refl Hs) by zlen.
  assert (take (Z.to_nat (zlen x + zlen src - zlen x)) (src ++ rest) = take (Z.to_nat (zlen x + zlen src - zlen x)) src) as E.
  { unfold zlen. apply take_app_le. lia. }
  unfold copy_to. by rewrite E.
Qed.

Lemma split_at l (n : Z) : 0 ≤ n ≤ zlen l → ∃ x y, l = x ++ y ∧ zlen x = n.
Proof.
  intros Hn. exists (take (Z.to_nat n) l), (drop (Z.to_nat n) l). split; [by rewrite take_drop|].
  unfold zlen in *. rewrite length_take. lia.
Qed.
Lemma list_snoc l : 0 < zlen l → ∃ x e, l = x ++ [e].
Proof. intros Hl. destruct l as [|e l _] using rev_ind; [zlen|]. by eexists _, _. Qed.
Lemma list_cons l : 0 < zlen l → ∃ e x, l = e :: x.
Proof. destruct l as [|e x]; [zlen|]. intros _. by eexists _, _. Qed.
End pieces.

(** ** Data pages *)

Section data_pages.
Context {V : Type} (zv : V).
Notation item := (bytes * V)%type.
Notation dp := (d_page V).
Implicit Types (pg : dp) (its a b : list item) (n p : option ptr).

Definition d_has pg its n p : Prop :=
  d_n pg = n ∧ d_p pg = p ∧ d_c pg = zlen its ∧ zlen (d_d pg) = 2 * kd + 1 ∧ ∃ junk, d_d pg = its ++ junk.

Lemma zd_has : d_has (zd zv) [] None None.
Proof. split_and!; [done..|]. by eexists. Qed.

Lemma d_has_n pg its n p n' : d_has pg its n p → d_has (set_dn pg n') its n' p.
Proof. intros (_ & ? & ? & ? & ?). by split_and!. Qed.
Lemma d_has_p pg its n p p' : d_has pg its n p → d_has (set_dp pg p') its n p'.
Proof. intros (? & _ & ? & ? & ?). by split_and!. Qed.

Lemma d_index pg a e b n p i : d_has pg (a ++ e :: b) n p → i = zlen a → index (d_d pg) i = Ret e.
Proof. intros (_ & _ & _ & _ & junk & E) ->. eapply index_app; [|done]. by rewrite E, <- app_assoc. Qed.

Lemma d_set_ok pg a e b n p i e' : d_has pg (a ++ e :: b) n p → i = zlen a →
  ∃ pg', d_set pg i e' = Ret pg' ∧ d_has pg' (a ++ e' :: b) n p.
Proof.
  intros (? & ? & Hc & Hl & junk & E) ->. unfold d_set.
  rewrite (store_index_app _ a e (b ++ junk)) by (done || by rewrite E, <- app_assoc). cbn.
  eexists. split; [reflexivity|]. split_and!; cbn; [done|done|rewrite Hc; zlen| |exists junk; by rewrite <- app_assoc].
  rewrite E in Hl. zlen.
Qed.

(** A write behind the items *)
Lemma d_set_past pg its n p i e : d_has pg its n p → i = zlen its → zlen its ≤ 2 * kd → ∃ pg', d_set pg i e = Ret pg' ∧ d_has pg' its n p.
Proof.
  intros (? & ? & Hc & Hl & junk & E) -> Hn. rewrite E in Hl. destruct (list_cons junk) as (j & junk' & ->); [zlen|].
  unfold d_set. rewrite (store_index_app _ its j junk') by done. eexists. split; [reflexivity|]. split_and!; cbn; [done..|zlen|by eexists].
Qed.

Lemma d_insert_ok pg a b n p i k v : d_has pg (a ++ b) n p → i = zlen a → zlen (a ++ b) ≤ 2 * kd →
  ∃ pg', d_insert pg i k v = Ret pg' ∧ d_has pg' (a ++ (k, v) :: b) n p.
Proof.
  intros (? & ? & Hc & Hl & junk & E) -> Hb. rewrite E, !zlen_app in Hl. rewrite zlen_app in *.
  destruct (list_cons junk) as (j & junk' & ->); [lia|]. unfold d_insert. rewrite Hc.
  assert (∃ pg1, (if zlen a <? zlen a + zlen b then
      src ← slice (d_d pg) (zlen a) (zlen a + zlen b); l ← copy_from (d_d pg) (zlen a + 1) src; mret (set_dd pg l)
    else mret pg) = Ret pg1 ∧ (∃ j', d_d pg1 = a ++ j' :: b ++ junk') ∧ d_n pg1 = n ∧ d_p pg1 = p) as (pg1 & -> & [j' E1] & Hn & Hp).
  { destruct (Z.ltb_spec (zlen a) (zlen a + zlen b)) as [Hlt|Hge].
    - destruct b as [|b0 b]; [zlen|]. rewrite E, <- app_assoc.
      rewrite (slice_mid a (b0 :: b) (j :: junk')) by done. cbn [mbind outcome_bind].
      rewrite (copy_from_app _ (a ++ [b0]) (b ++ [j]) junk') by (try (by rewrite <- !app_assoc); zlen). cbn.
      eexists. split; [reflexivity|]. cbn. split; [|done]. exists b0. by rewrite <- !app_assoc.
    - destruct b; [|zlen]. exists pg. split; [done|]. split; [|done]. exists j. by rewrite E, app_nil_r. }
  cbn [mbind outcome_bind]. unfold d_set. cbn [d_d set_dc]. rewrite (store_index_app _ a j' (b ++ junk')) by done. cbn.
  eexists. split; [reflexivity|]. split_and!; cbn; [done|done|zlen|zlen|]. exists junk'. by rewrite <- app_assoc.
Qed.

Lemma d_extract_ok pg a e b n p i : d_has pg (a ++ e :: b) n p → i = zlen a →
  ∃ pg', d_extract zv pg i = Ret pg' ∧ d_has pg' (a ++ b) n p.
Proof.
  intros (? & ? & Hc & Hl & junk & E) ->. rewrite E in Hl. rewrite <- !app_assoc in E. cbn in E.
  unfold d_extract. cbn [d_c set_dc]. rewrite Hc, zlen_app, zlen_cons.
  replace (zlen a + (1 + zlen b) - 1) with (zlen a + zlen b) by lia. set (pg0 := set_dc pg _).
  assert (∃ pg1, (if zlen a <? zlen a + zlen b then
      src ← slice (d_d pg0) (zlen a + 1) (zlen a + zlen b + 1); l ← copy_from (d_d pg0) (zlen a) src; mret (set_dd pg0 l)
    else mret pg0) = Ret pg1 ∧ (∃ j, d_d pg1 = (a ++ b) ++ j :: junk) ∧ d_n pg1 = n ∧ d_p pg1 = p ∧ d_c pg1 = zlen a + zlen b) as (pg1 & -> & [j E1] & Hn & Hp & Hc1).
  { destruct (Z.ltb_spec (zlen a) (zlen a + zlen b)) as [Hlt|Hge].
    - destruct (list_snoc b) as (b' & l & ->); [lia|].
      assert (d_d pg0 = (a ++ [e]) ++ (b' ++ [l]) ++ junk) as E0 by (subst pg0; cbn; by rewrite E, <- !app_assoc).
      rewrite E0, slice_mid by zlen. cbn [mbind outcome_bind].
      rewrite (copy_from_app _ a (e :: b') (l :: junk)) by (try (by rewrite <- !app_assoc); zlen). cbn.
      eexists. split; [reflexivity|]. cbn. split_and!; try done. exists l. by rewrite <- !app_assoc.
    - destruct b; [|zlen]. exists pg0. split; [done|]. subst pg0. cbn. split_and!; try done. exists e. by rewrite E, app_nil_r. }
  cbn [mbind outcome_bind]. unfold d_set. rewrite (store_index_app _ (a ++ b) j junk) by (done || zlen). cbn.
  eexists. split; [reflexivity|]. split_and!; cbn; [done|done|zlen|zlen|]. by eexists.
Qed.
End data_pages.

(** ** Index pages *)

(** An entry: the key on the left of a child, absent for the first of a level. *)
Notation row := (list (option bytes * page)).
Implicit Types (xp : x_page) (lo : option bytes) (k : bytes) (c l : page) (xs : list xe) (E R : row) (i : Z).

(** The entries of the array [xs] followed by the child [l]; [lo] is on the left of the page. *)
Fixpoint ents lo xs l : row := match xs with [] => [(lo, l)] | x :: xs => (lo, ch x) :: ents (Some (xk x)) xs l end.
(** The entries of all of [xs], and the key after them *)
Fixpoint pre lo xs : row := match xs with [] => [] | x :: xs => (lo, ch x) :: pre (Some (xk x)) xs end.
Fixpoint endk lo xs : option bytes := match xs with [] => lo | x :: xs => endk (Some (xk x)) xs end.

Lemma ents_app lo xs ys l : ents lo (xs ++ ys) l = pre lo xs ++ ents (endk lo xs) ys l.
Proof. revert lo. induction xs as [|x xs IH]; intros lo; [done|]. cbn. by rewrite IH. Qed.
Lemma ents_pre lo xs l : ents lo xs l = pre lo xs ++ [(endk lo xs, l)].
Proof. rewrite <- (app_nil_r xs) at 1. apply ents_app. Qed.
Lemma zlen_pre lo xs : zlen (pre lo xs) = zlen xs.
Proof. revert lo. induction xs as [|x xs IH]; intros lo; [done|]. cbn. by rewrite !zlen_cons, IH. Qed.
Lemma zlen_ents lo xs l : zlen (ents lo xs l) = zlen xs + 1.
Proof. rewrite ents_pre, zlen_app, zlen_pre. done. Qed.
Lemma ents_head lo xs l : ∃ c R, ents lo xs l = (lo, c) :: R.
Proof. destruct xs; by eexists _, _. Qed.
Lemma endk_snoc lo xs x : endk lo (xs ++ [x]) = Some (xk x).
Proof. revert lo. induction xs as [|y xs IH]; intros lo; [done|]. apply IH. Qed.

(** The entry at a position comes from an element of the array, or is the last. *)
Lemma ents_split lo xs l E1 s c E2 : ents lo xs l = E1 ++ (s, c) :: E2 →
  (∃ a k b, xs = a ++ mk_xe c k :: b ∧ E1 = pre lo a ∧ s = endk lo a ∧ E2 = ents (Some k) b l) ∨
  (E1 = pre lo xs ∧ s = endk lo xs ∧ c = l ∧ E2 = []).
Proof.
  revert lo E1. induction xs as [|[c0 k0] xs IH]; intros lo E1 H; cbn in H.
  { right. destruct E1 as [|? [|]]; by simplify_eq/=. }
  destruct E1 as [|e E1]; cbn in H; [injection H as <- <- <-; left; by exists [], k0, xs|]. injection H as <- H.
  destruct (IH _ _ H) as [(a & k & b & -> & -> & -> & ->)|(-> & -> & -> & ->)]; [left; by exists (mk_xe c0 k0 :: a), k, b|by right].
Qed.

Definition x_has xp lo E : Prop :=
  ∃ xs l k junk, E = ents lo xs l ∧ x_c xp = zlen xs ∧ x_x xp = xs ++ mk_xe l k :: junk ∧ zlen (x_x xp) = 2 * kx + 2.

Lemma x_has_intro xs l k junk (n : Z) lo E : E = ents lo xs l → n = zlen xs → zlen (xs ++ mk_xe l k :: junk) = 2 * kx + 2 →
  x_has (mk_x n (xs ++ mk_xe l k :: junk)) lo E.
Proof. intros -> -> ?. by exists xs, l, k, junk. Qed.
Lemma x_has_c xp lo E : x_has xp lo E → x_c xp = zlen E - 1.
Proof. intros (xs & l & k & junk & -> & -> & _). rewrite zlen_ents. lia. Qed.
Lemma x_has_len xp lo E : x_has xp lo E → 1 ≤ zlen E ≤ 2 * kx + 2.
Proof. intros (xs & l & k & junk & -> & _ & E1 & Hl). rewrite zlen_ents. rewrite E1 in Hl. zlen. Qed.
Lemma x_has_head xp lo E : x_has xp lo E → ∃ c R, E = (lo, c) :: R.
Proof. intros (xs & l & k & junk & -> & _). apply ents_head. Qed.

Lemma get_ch_app xp xs e ys i : x_x xp = xs ++ e :: ys → i = zlen xs → get_ch xp i = Ret (ch e).
Proof. intros E ->. unfold get_ch. by rewrite (index_app _ xs e ys). Qed.
Lemma get_k_app xp xs e ys i : x_x xp = xs ++ e :: ys → i = zlen xs → get_k xp i = Ret (xk e).
Proof. intros E ->. unfold get_k. by rewrite (index_app _ xs e ys). Qed.
Lemma set_ch_app xp xs e ys i c : x_x xp = xs ++ e :: ys → i = zlen xs → set_ch xp i c = Ret (mk_x (x_c xp) (xs ++ mk_xe c (xk e) :: ys)).
Proof. intros E ->. unfold set_ch. rewrite (index_app _ xs e ys) by done. cbn. by rewrite (store_index_app _ xs e ys). Qed.
Lemma set_k_app xp xs e ys i k : x_x xp = xs ++ e :: ys → i = zlen xs → set_k xp i k = Ret (mk_x (x_c xp) (xs ++ mk_xe (ch e) k :: ys)).
Proof. intros E ->. unfold set_k. rewrite (index_app _ xs e ys) by done. cbn. by rewrite (store_index_app _ xs e ys). Qed.
Lemma x_copy_app xp xs ys zs src i : x_x xp = xs ++ ys ++ zs → i = zlen xs → zlen src = zlen ys → x_copy xp i src = Ret (mk_x (x_c xp) (xs ++ src ++ zs)).
Proof. intros E -> Hs. unfold x_copy. by rewrite (copy_from_app _ xs ys zs src). Qed.

Lemma x_get_ch xp lo E1 e E2 i : x_has xp lo (E1 ++ e :: E2) → i = zlen E1 → get_ch xp i = Ret e.2.
Proof.
  intros (xs & l & k & junk & HE & Hc & Hx & _) ->. destruct e as [s c].
  destruct (ents_split _ _ _ _ _ _ _ (eq_sym HE)) as [(a & k' & b & -> & -> & _ & _)|(-> & _ & -> & _)].
  - rewrite <- app_assoc in Hx. apply (get_ch_app xp a (mk_xe c k') (b ++ mk_xe l k :: junk)); [done|apply zlen_pre].
  - apply (get_ch_app xp xs (mk_xe l k) junk); [done|apply zlen_pre].
Qed.
(** The key left of an entry that is not the first *)
Lemma x_get_k xp lo E1 s c E2 i : x_has xp lo (E1 ++ (s, c) :: E2) → zlen E1 = i + 1 → 0 ≤ i → ∃ k, s = Some k ∧ get_k xp i = Ret k.
Proof.
  intros (xs & l & k & junk & HE & Hc & Hx & _) HE1 Hi.
  destruct (list_snoc E1) as (E1' & [s0 c0] & ->); [lia|]. rewrite <- app_assoc in HE. cbn in HE.
  destruct (ents_split _ _ _ _ _ _ _ (eq_sym HE)) as [(a & k' & b & -> & -> & _ & HE2)|(_ & _ & _ & ?)]; [|done].
  destruct (ents_head (Some k') b l) as (c1 & R & HR). rewrite HR in HE2. simplify_eq. exists k'. split; [done|].
  rewrite <- app_assoc in Hx. apply (get_k_app xp a (mk_xe c0 k') (b ++ mk_xe l k :: junk)); [done|]. rewrite zlen_app, zlen_pre in HE1. zlen.
Qed.

Lemma x_set_k xp lo E1 s c E2 i k : x_has xp lo (E1 ++ (s, c) :: E2) → zlen E1 = i + 1 → 0 ≤ i →
  ∃ xp', set_k xp i k = Ret xp' ∧ x_has xp' lo (E1 ++ (Some k, c) :: E2).
Proof.
  intros (xs & l & k0 & junk & HE & Hc & Hx & Hl) HE1 Hi.
  destruct (list_snoc E1) as (E1' & [s0 c0] & ->); [lia|]. rewrite <- app_assoc in HE. cbn in HE.
  destruct (ents_split _ _ _ _ _ _ _ (eq_sym HE)) as [(a & k' & b & -> & -> & -> & HE2)|(_ & _ & _ & ?)]; [|done].
  rewrite zlen_app, zlen_pre in HE1. rewrite <- app_assoc in Hx. cbn in Hx.
  eexists. split; [eapply set_k_app; [exact Hx|zlen]|]. rewrite Hx in Hl.
  exists (a ++ mk_xe c0 k :: b), l, k0, junk. cbn. split_and!; [|rewrite Hc; zlen|by rewrite <- app_assoc|zlen].
  rewrite <- app_assoc, ents_app. cbn. do 2 f_equal. destruct b; cbn in *; congruence.
Qed.

(** A page filled by the first child only *)
Lemma newX_page lo c : ∃ xp, set_ch zx 0 c = Ret xp ∧ x_has xp lo [(lo, c)].
Proof.
  eexists. split; [by apply (set_ch_app zx [] zxe (replicate (Z.to_nat (2 * kx + 1)) zxe))|].
  apply (x_has_intro [] c zk (replicate (Z.to_nat (2 * kx + 1)) zxe)); done.
Qed.

Lemma x_insert_ok xp lo E1 E2 i k c : x_has xp lo (E1 ++ E2) → zlen E1 = i + 1 → 0 ≤ i → zlen (E1 ++ E2) ≤ 2 * kx + 1 →
  ∃ xp', x_insert xp i k c = Ret xp' ∧ x_has xp' lo (E1 ++ (Some k, c) :: E2).
Proof.
  intros (xs & l & k0 & junk & HE & Hc & Hx & Hl) HE1 Hi Hlen. rewrite HE, zlen_ents in Hlen. rewrite Hx, zlen_app, zlen_cons in Hl.
  destruct (list_cons junk) as ([cj kj] & junk' & ->); [lia|].
  destruct (list_snoc E1) as (E1' & [s0 c0] & ->); [lia|]. rewrite <- app_assoc in HE. cbn in HE. rewrite zlen_app in HE1.
  unfold x_insert. rewrite Hc.
  destruct (ents_split _ _ _ _ _ _ _ (eq_sym HE)) as [(a & k' & b & -> & -> & -> & HE2)|(-> & -> & -> & ->)]; rewrite zlen_pre in HE1.
  - rewrite (proj2 (Z.ltb_lt _ _)) by zlen. rewrite <- !app_assoc in Hx. cbn in Hx.
    rewrite (get_ch_app xp (a ++ mk_xe c0 k' :: b) (mk_xe l k0) (mk_xe cj kj :: junk')) by (try (by rewrite Hx, <- app_assoc); done). cbn [mbind outcome_bind].
    rewrite (set_ch_app xp ((a ++ mk_xe c0 k' :: b) ++ [mk_xe l k0]) (mk_xe cj kj) junk') by (try (by rewrite Hx, <- !app_assoc); zlen). cbn [mbind outcome_bind x_x x_c xk].
    assert (∃ j, x_copy (mk_x (x_c xp) (((a ++ mk_xe c0 k' :: b) ++ [mk_xe l k0]) ++ mk_xe l kj :: junk')) (i + 2) b =
      Ret (mk_x (x_c xp) ((a ++ [mk_xe c0 k']) ++ j :: (b ++ mk_xe l kj :: junk')))) as [j Ej].
    { destruct b as [|b0 b].
      - exists (mk_xe l k0). rewrite (x_copy_app _ ((a ++ [mk_xe c0 k']) ++ [mk_xe l k0]) [] (mk_xe l kj :: junk')) by (try (by cbn; rewrite <- !app_assoc); zlen). by rewrite <- !app_assoc.
      - exists b0. rewrite (x_copy_app _ ((a ++ [mk_xe c0 k']) ++ [b0]) (b ++ [mk_xe l k0]) (mk_xe l kj :: junk')) by (try (by cbn; rewrite <- !app_assoc); zlen).
        by rewrite <- !app_assoc. }
    replace (slice _ (i + 1) _) with (Ret b) by (symmetry; rewrite <- !app_assoc; cbn; rewrite (cons_middle (mk_xe c0 k')), !app_assoc, <- app_assoc; apply slice_mid; zlen).
    cbn [mbind outcome_bind ch]. rewrite Ej. cbn [mbind outcome_bind].
    rewrite (get_k_app _ a (mk_xe c0 k') (j :: b ++ mk_xe l kj :: junk')) by (try (by cbn; rewrite <- app_assoc); zlen). cbn [mbind outcome_bind xk].
    rewrite (set_k_app _ (a ++ [mk_xe c0 k']) j (b ++ mk_xe l kj :: junk')) by (done || zlen). cbn [mbind outcome_bind set_xc x_x x_c].
    rewrite (set_k_app _ a (mk_xe c0 k') (mk_xe (ch j) k' :: b ++ mk_xe l kj :: junk')) by (try (by cbn; rewrite <- app_assoc); zlen). cbn [mbind outcome_bind x_x x_c ch].
    rewrite (set_ch_app _ (a ++ [mk_xe c0 k]) (mk_xe (ch j) k') (b ++ mk_xe l kj :: junk')) by (try (by cbn; rewrite <- app_assoc); zlen). cbn [x_x x_c xk set_xc].
    eexists. split; [reflexivity|]. rewrite (cons_middle (mk_xe c k')), (app_assoc _ [_]), (app_assoc _ b).
    apply x_has_intro; [|zlen|zlen]. rewrite <- !app_assoc, ents_app. cbn. do 3 f_equal. by rewrite HE2.
  - replace i with (zlen xs) by zlen. rewrite Z.ltb_irrefl. cbn [mbind outcome_bind mret outcome_ret].
    rewrite (set_k_app _ xs (mk_xe l k0) (mk_xe cj kj :: junk')) by done. cbn [mbind outcome_bind x_x x_c ch set_xc].
    rewrite (set_ch_app _ (xs ++ [mk_xe l k]) (mk_xe cj kj) junk') by (try (by cbn; rewrite <- app_assoc); zlen). cbn [x_x x_c xk set_xc].
    eexists. split; [reflexivity|]. apply x_has_intro; [|zlen|zlen]. rewrite ents_app. cbn. by rewrite <- app_assoc.
Qed.

(** Reassociates concatenations to compare them. *)
Ltac app_eq := cbn [x_x x_c set_xc app]; rewrite <- ?app_assoc; cbn [app]; rewrite <- ?app_assoc; first [reflexivity|eassumption|by f_equal].

(** Both blocks that take the entry right of a merged pair out of the parent *)
Lemma x_extract_ok xp lo E1 s c e2 E2 i q : x_has xp lo (E1 ++ (s, c) :: e2 :: E2) → i = zlen E1 →
  ∃ xp1 xp2, x_extract xp i = Ret xp1 ∧ set_ch xp1 i q = Ret xp2 ∧ x_has xp2 lo (E1 ++ (s, q) :: E2).
Proof.
  intros (xs & l & k0 & junk & HE & Hc & Hx & Hl) ->. rewrite Hx, zlen_app, zlen_cons in Hl. unfold x_extract. cbn [x_c set_xc]. rewrite Hc.
  destruct (ents_split _ _ _ _ _ _ _ (eq_sym HE)) as [(a & k & b & -> & -> & -> & HE2)|(_ & _ & _ & ?)]; [|done]. rewrite !zlen_pre, zlen_app, zlen_cons in *.
  rewrite <- app_assoc in Hx. cbn [app] in Hx. destruct b as [|[c2 k2] b]; cbn in HE2; injection HE2 as -> ->.
  - replace (zlen a + (1 + zlen [])  - 1) with (zlen a) by zlen. rewrite Z.ltb_irrefl. eexists _, _. split; [reflexivity|].
    split; [apply (set_ch_app _ a (mk_xe c k) (mk_xe l k0 :: junk)); done|]. apply x_has_intro; [by rewrite ents_pre|done|zlen].
  - rewrite (proj2 (Z.ltb_lt _ _)) by zlen. remember (mk_xe c2 k2 :: b) as B eqn:HB. set (n := zlen a + (1 + zlen B) - 1).
    destruct (list_snoc B) as (b' & z & Hz); [subst B; zlen|]. assert (n = zlen a + zlen B) as Hn by (subst n; lia).
    cbn [x_x set_xc]. rewrite Hx. replace (slice _ (zlen a + 1) (n + 1)) with (Ret B) by
      (symmetry; rewrite (cons_middle (mk_xe c k)), (app_assoc a); apply slice_mid; zlen). cbn [mbind outcome_bind].
    rewrite (x_copy_app _ a (mk_xe c k :: b') (z :: mk_xe l k0 :: junk)) by (try (cbn [x_x set_xc]; rewrite Hx, Hz; app_eq); rewrite ?Hz; zlen). cbn [mbind outcome_bind].
    rewrite (get_ch_app _ (a ++ B ++ [z]) (mk_xe l k0) junk) by (try app_eq; zlen). cbn [mbind outcome_bind ch].
    rewrite (set_ch_app _ (a ++ B) z (mk_xe l k0 :: junk)) by (try app_eq; zlen). cbn [mbind outcome_bind x_c].
    rewrite (set_k_app _ (a ++ B) (mk_xe l (xk z)) (mk_xe l k0 :: junk)) by (try app_eq; zlen). cbn [mbind outcome_bind x_c ch].
    unfold set_xe. rewrite (store_index_app _ ((a ++ B) ++ [mk_xe l zk]) (mk_xe l k0) junk) by (try app_eq; zlen). cbn [mbind outcome_bind x_c].
    eexists _, _. split; [reflexivity|]. split; [apply (set_ch_app _ a (mk_xe c2 k2) (b ++ mk_xe l zk :: zxe :: junk)); [rewrite HB; app_eq|done]|].
    cbn [x_c set_xc xk]. rewrite app_comm_cons, app_assoc. apply x_has_intro; [by rewrite ents_app|subst n B; zlen|subst B; zlen].
Qed.

Lemma catX_parent_ok xp lo E1 e e2 E2 i : x_has xp lo (E1 ++ e :: e2 :: E2) → i = zlen E1 →
  ∃ xp', catX_parent xp i = Ret xp' ∧ x_has xp' lo (E1 ++ e :: E2).
Proof.
  destruct e as [s c]. intros (xs & l & k0 & junk & HE & Hc & Hx & Hl) ->. rewrite Hx, zlen_app, zlen_cons in Hl. unfold catX_parent. cbn [x_c set_xc]. rewrite Hc.
  destruct (ents_split _ _ _ _ _ _ _ (eq_sym HE)) as [(a & k & b & -> & -> & -> & HE2)|(_ & _ & _ & ?)]; [|done]. rewrite !zlen_pre, zlen_app, zlen_cons in *.
  rewrite <- app_assoc in Hx. cbn [app] in Hx. destruct b as [|[c2 k2] b]; cbn in HE2; injection HE2 as -> ->.
  - replace (zlen a + (1 + zlen []) - 1) with (zlen a) by zlen. rewrite Z.ltb_irrefl. eexists. split; [reflexivity|].
    exists a, c, k, (mk_xe l k0 :: junk). cbn. split_and!; [by rewrite ents_pre|done|exact Hx|rewrite Hx; zlen].
  - rewrite (proj2 (Z.ltb_lt _ _)) by zlen. set (n := zlen a + (1 + zlen (mk_xe c2 k2 :: b)) - 1). assert (n = zlen a + zlen b + 1) as Hn by (subst n; zlen).
    rewrite (get_k_app _ (a ++ [mk_xe c k]) (mk_xe c2 k2) (b ++ mk_xe l k0 :: junk)) by (try (cbn [x_x set_xc]; rewrite Hx; app_eq); zlen). cbn [mbind outcome_bind xk].
    rewrite (set_k_app _ a (mk_xe c k) (mk_xe c2 k2 :: b ++ mk_xe l k0 :: junk)) by (try (cbn [x_x set_xc]; rewrite Hx; app_eq); zlen). cbn [mbind outcome_bind x_x x_c ch].
    replace (slice _ (zlen a + 2) (n + 1)) with (Ret b) by
      (symmetry; rewrite (cons_middle (mk_xe c k2)), (cons_middle (mk_xe c2 k2)), !(app_assoc a), (app_assoc _ [_]); apply slice_mid; zlen). cbn [mbind outcome_bind].
    destruct (list_snoc (mk_xe c2 k2 :: b)) as (b' & z & Hz); [zlen|]. assert (zlen b' = zlen b) by (apply (f_equal zlen) in Hz; zlen).
    rewrite (x_copy_app _ (a ++ [mk_xe c k2]) b' (z :: mk_xe l k0 :: junk)) by (try (cbn [x_x]; rewrite (app_comm_cons b), Hz; app_eq); zlen). cbn [mbind outcome_bind x_c set_xc].
    rewrite (get_ch_app _ (a ++ [mk_xe c k2] ++ b ++ [z]) (mk_xe l k0) junk) by (try app_eq; zlen). cbn [mbind outcome_bind ch].
    rewrite (set_ch_app _ (a ++ [mk_xe c k2] ++ b) z (mk_xe l k0 :: junk)) by (try app_eq; zlen). cbn [mbind outcome_bind x_c].
    rewrite (set_k_app _ (a ++ [mk_xe c k2] ++ b) (mk_xe l (xk z)) (mk_xe l k0 :: junk)) by (try app_eq; zlen). cbn [mbind outcome_bind x_c ch].
    rewrite (set_ch_app _ ((a ++ [mk_xe c k2] ++ b) ++ [mk_xe l zk]) (mk_xe l k0) junk) by (try app_eq; zlen). cbn [x_c xk].
    eexists. split; [reflexivity|]. rewrite <- (app_assoc _ [_]). cbn [app]. apply x_has_intro; [by rewrite ents_app|zlen|zlen].
Qed.

(** Splitting a full page *)
Lemma splitX_pages xp lo E : x_has xp lo E → zlen E = 2 * kx + 2 → ∃ Ea k c Eb src rp xp',
  E = Ea ++ (Some k, c) :: Eb ∧ zlen Ea = kx + 1 ∧ get_k xp kx = Ret k ∧
  slice (x_x xp) (kx + 1) (zlen (x_x xp)) = Ret src ∧ x_copy zx 0 src = Ret rp ∧ x_has (set_xc rp kx) (Some k) ((Some k, c) :: Eb) ∧
  set_k (set_xc xp kx) kx zk = Ret xp' ∧
  x_has (mk_x (x_c xp') (splice (x_x xp') (Z.to_nat (kx + 1)) (replicate (length (x_x xp') - Z.to_nat (kx + 1)) zxe))) lo Ea.
Proof.
  intros (xs & l & k0 & junk & -> & Hc & Hx & Hl) Hn. rewrite zlen_ents in Hn.
  destruct (split_at xs kx) as (a & [|[c k] b] & -> & Ha); [unfold kx in *; lia|zlen|]. rewrite <- app_assoc in Hx. cbn [app] in Hx. rewrite ents_app. cbn [ents ch xk].
  destruct (ents_head (Some k) b l) as (c1 & R & HR). exists (pre lo a ++ [(endk lo a, c)]), k, c1, R, (b ++ mk_xe l k0 :: junk).
  rewrite (get_k_app xp a (mk_xe c k) (b ++ mk_xe l k0 :: junk)) by done.
  assert (slice (x_x xp) (kx + 1) (zlen (x_x xp)) = Ret (b ++ mk_xe l k0 :: junk)) as ->.
  { rewrite Hx, (cons_middle (mk_xe c k)), (app_assoc a). apply slice_end; zlen. }
  destruct (split_at (replicate (Z.to_nat (2 * kx + 2)) zxe) (zlen (b ++ mk_xe l k0 :: junk))) as (z1 & z2 & Hz & Hz1); [rewrite Hx in Hl; unfold kx in *; zlen|].
  rewrite (x_copy_app zx [] z1 z2) by (done || by cbn; rewrite Hz). rewrite (set_k_app _ a (mk_xe c k) (b ++ mk_xe l k0 :: junk)) by done.
  eexists _, _. split_and!; [by rewrite HR, <- app_assoc|rewrite zlen_app, zlen_pre; zlen|done..| |done|].
  - cbn [set_xc x_x x_c app]. rewrite <- app_assoc. cbn [app]. rewrite <- HR. apply x_has_intro; [done|zlen|].
    apply (f_equal zlen) in Hz. unfold kx in *. zlen.
  - cbn [set_xc x_x x_c ch]. rewrite <- ents_pre.
    replace (Z.to_nat (kx + 1)) with (length (a ++ [mk_xe c zk]) + 0)%nat by (unfold zlen in *; rewrite length_app; cbn; lia).
    rewrite (cons_middle (mk_xe c zk)), app_assoc, splice_app_r, <- app_assoc. cbn [app]. rewrite Hx in Hl.
    apply x_has_intro; [done|lia|]. unfold splice. cbn [take app].
    assert (∀ (A B : list xe), (length (A ++ B) - (length A + 0))%nat = length B) as -> by (intros; rewrite length_app; lia).
    rewrite drop_ge by (rewrite length_replicate; lia). rewrite app_nil_r. clear - Hl. unfold zlen in *.
    repeat (rewrite length_app || rewrite length_replicate || cbn [length] || rewrite take_0 || rewrite length_app in Hl || cbn [length] in Hl). lia.
Qed.

(** Joining two pages with the key between them *)
Lemma catX_pages xp lo E yp s c0 F pk : x_has xp lo E → x_has yp s ((s, c0) :: F) → zlen E + zlen F ≤ 2 * kx + 1 →
  ∃ x1 src x2 c x4, set_k xp (x_c xp) pk = Ret x1 ∧ slice (x_x yp) 0 (x_c yp) = Ret src ∧ x_copy x1 (x_c x1 + 1) src = Ret x2 ∧
    get_ch yp (x_c yp) = Ret c ∧ set_ch (set_xc x2 (x_c x2 + x_c yp + 1)) (x_c x2 + x_c yp + 1) c = Ret x4 ∧ x_has x4 lo (E ++ (Some pk, c0) :: F).
Proof.
  intros (xs & l & k & junk & -> & Hc & Hx & Hl) (ys & m & k1 & junk1 & HF & Hc1 & Hy & Hl1) Hn.
  assert (zlen F = zlen ys) as HlF by (apply (f_equal zlen) in HF; rewrite zlen_ents in HF; zlen). rewrite zlen_ents, HlF in Hn. rewrite Hx in Hl.
  rewrite (set_k_app xp xs (mk_xe l k) junk) by done. rewrite Hy, slice_start by (done || lia). cbn [x_c].
  destruct (split_at junk (zlen ys)) as (j1 & j2 & -> & Hj1); [zlen|]. destruct (list_cons j2) as ([cj kj] & j3 & ->); [zlen|].
  rewrite (get_ch_app yp ys (mk_xe m k1) junk1) by done. cbn [ch].
  eexists _, ys, _, m, _. split_and!; [done|done|apply (x_copy_app _ (xs ++ [mk_xe l pk]) j1 (mk_xe cj kj :: j3)); [app_eq|cbn [x_c]; zlen|done]|done| |].
  - apply (set_ch_app _ ((xs ++ [mk_xe l pk]) ++ ys) (mk_xe cj kj) j3); [app_eq|cbn [x_c set_xc]; zlen].
  - cbn [x_c set_xc xk]. apply x_has_intro; [|zlen|zlen]. rewrite <- app_assoc, ents_app, (ents_pre lo xs), <- app_assoc. cbn. do 2 f_equal.
    destruct ys; cbn in *; congruence.
Qed.

(** Moving the last child of a page to the front of the page on its right *)
Lemma borrow_left lp lo E k c yp s c0 F pk : x_has lp lo (E ++ [(Some k, c)]) → 0 < zlen E → x_has yp s ((s, c0) :: F) → zlen F < 2 * kx →
  ∃ lc y1 src y2 cl y3 y4, get_ch yp (x_c yp) = Ret lc ∧ set_ch yp (x_c yp + 1) lc = Ret y1 ∧ slice (x_x y1) 0 (x_c y1) = Ret src ∧
    x_copy y1 1 src = Ret y2 ∧ get_ch lp (x_c lp) = Ret cl ∧ set_ch y2 0 cl = Ret y3 ∧ set_k y3 0 pk = Ret y4 ∧
    x_has (set_xc y4 (x_c y4 + 1)) (Some k) ((Some k, c) :: (Some pk, c0) :: F) ∧
    get_k (set_xc lp (x_c lp - 1)) (x_c lp - 1) = Ret k ∧ x_has (set_xc lp (x_c lp - 1)) lo E.
Proof.
  intros (xs & l & k' & junk & HE & Hc & Hx & Hl) HE0 (ys & m & k1 & junk1 & HF & Hc1 & Hy & Hl1) Hn.
  assert (zlen F = zlen ys) as HlF by (apply (f_equal zlen) in HF; rewrite zlen_ents in HF; zlen). rewrite HlF in Hn. rewrite Hy in Hl1.
  destruct (list_cons junk1) as ([cj kj] & j & ->); [zlen|].
  destruct (list_snoc E) as (E' & [s1 c1] & ->); [done|]. rewrite <- app_assoc in HE. cbn in HE.
  destruct (ents_split _ _ _ _ _ _ _ (eq_sym HE)) as [(a & k2 & b & -> & -> & -> & HE2)|(_ & _ & _ & ?)]; [|done].
  destruct b as [|b0 [|]]; cbn in HE2; [|done..]. injection HE2 as -> ->. rewrite <- app_assoc in Hx. cbn in Hx. rewrite Hx in Hl.
  rewrite (get_ch_app yp ys (mk_xe m k1) (mk_xe cj kj :: j)) by done. cbn [ch].
  destruct (list_cons (ys ++ [mk_xe m k1])) as (z & zs & Hz); [zlen|]. assert (zlen zs = zlen ys) by (apply (f_equal zlen) in Hz; zlen).
  rewrite (get_ch_app lp (a ++ [mk_xe c1 k2]) (mk_xe l k') junk) by (try (rewrite Hx; app_eq); done). cbn [ch].
  eexists m, _, ys, _, l, _, _. split_and!; [done|apply (set_ch_app yp (ys ++ [mk_xe m k1]) (mk_xe cj kj) j); [rewrite Hy; app_eq|zlen]| | | | | | | |].
  - cbn [x_x x_c xk]. rewrite <- app_assoc. by apply slice_start.
  - apply (x_copy_app _ [z] zs (mk_xe m kj :: j)); [rewrite Hz; app_eq|done|done].
  - done.
  - apply (set_ch_app _ [] z (ys ++ mk_xe m kj :: j)); [app_eq|done].
  - apply (set_k_app _ [] (mk_xe l (xk z)) (ys ++ mk_xe m kj :: j)); [app_eq|done].
  - cbn [x_c set_xc ch app]. apply (x_has_intro (mk_xe l pk :: ys)); [|zlen|zlen]. cbn. f_equal. destruct ys; cbn in *; congruence.
  - apply (get_k_app _ a (mk_xe c1 k2) (mk_xe l k' :: junk)); [by rewrite <- Hx|zlen].
  - cbn [x_c set_xc]. rewrite <- ents_pre, Hc. exists a, c1, k2, (mk_xe l k' :: junk). cbn. split_and!; [done|zlen|done|rewrite Hx; zlen].
Qed.

(** Moving the first child of a page to the end of the page on its left *)
Lemma borrow_right xp lo E yp s c0 k c1 F pk : x_has xp lo E → x_has yp s ((s, c0) :: (Some k, c1) :: F) → zlen E ≤ 2 * kx →
  ∃ x1 x3 src y2 lc y4 y5 y6, set_k xp (x_c xp) pk = Ret x1 ∧ get_ch yp 0 = Ret c0 ∧ set_ch (set_xc x1 (x_c x1 + 1)) (x_c x1 + 1) c0 = Ret x3 ∧
    x_has x3 lo (E ++ [(Some pk, c0)]) ∧ get_k yp 0 = Ret k ∧ slice (x_x yp) 1 (x_c yp) = Ret src ∧ x_copy yp 0 src = Ret y2 ∧
    get_ch (set_xc y2 (x_c y2 - 1)) (x_c y2 - 1 + 1) = Ret lc ∧ set_ch (set_xc y2 (x_c y2 - 1)) (x_c y2 - 1) lc = Ret y4 ∧
    set_k y4 (x_c y4) zk = Ret y5 ∧ set_ch y5 (x_c y5 + 1) NilPage = Ret y6 ∧ x_has y6 (Some k) ((Some k, c1) :: F).
Proof.
  intros (xs & l & k' & junk & -> & Hc & Hx & Hl) (ys & m & k1 & junk1 & HF & Hc1 & Hy & Hl1) Hn. rewrite zlen_ents in Hn. rewrite Hx in Hl. rewrite Hy in Hl1.
  destruct ys as [|[c0' k0'] ys]; cbn in HF; [done|]. injection HF as <- HF.
  assert (k0' = k) as -> by (destruct ys; cbn in HF; congruence). cbn in Hy.
  destruct (list_cons junk) as ([cj kj] & j & ->); [zlen|].
  rewrite (set_k_app xp xs (mk_xe l k') (mk_xe cj kj :: j)) by done. rewrite (get_ch_app yp [] (mk_xe c0 k) (ys ++ mk_xe m k1 :: junk1)) by done.
  rewrite (get_k_app yp [] (mk_xe c0 k) (ys ++ mk_xe m k1 :: junk1)) by done. cbn [ch xk].
  destruct (list_snoc (mk_xe c0 k :: ys)) as (zs & z & Hz); [zlen|]. assert (zlen zs = zlen ys) by (apply (f_equal zlen) in Hz; zlen).
  eexists _, _, ys, _, m, _, _, _. split_and!; [done|done| | |done| | | | | | |].
  - apply (set_ch_app _ (xs ++ [mk_xe l pk]) (mk_xe cj kj) j); [app_eq|cbn [x_c set_xc]; zlen].
  - cbn [x_c set_xc xk]. apply x_has_intro; [|zlen|zlen]. by rewrite ents_app, ents_pre, <- app_assoc.
  - rewrite Hy, Hc1. apply (slice_mid [mk_xe c0 k] ys); zlen.
  - apply (x_copy_app _ [] zs (z :: mk_xe m k1 :: junk1)); [|done|done]. rewrite Hy, (app_comm_cons ys), Hz. app_eq.
  - apply (get_ch_app _ (ys ++ [z]) (mk_xe m k1) junk1); [app_eq|cbn [x_c]; zlen].
  - apply (set_ch_app _ ys z (mk_xe m k1 :: junk1)); [app_eq|cbn [x_c]; zlen].
  - apply (set_k_app _ ys (mk_xe m (xk z)) (mk_xe m k1 :: junk1)); [app_eq|cbn [x_c set_xc]; zlen].
  - apply (set_ch_app _ (ys ++ [mk_xe m zk]) (mk_xe m k1) junk1); [app_eq|cbn [x_c set_xc]; zlen].
  - cbn [x_c set_xc xk ch]. rewrite <- app_assoc. cbn [app]. apply x_has_intro; [done|zlen|zlen].
Qed.
