(* ===== verification/BTreeInv.v ===== *)
(** * The shape of the B+tree

    A level of a tree is a row of pages, each with the key on its left; the
    children of the pages of a level, one after the other, are the next level.
    The lowest level, the leaves, is also a doubly linked list. The keys on the
    left of pages and the keys of the items, in the order in which they appear
    in the leaves, are the _marks_: the tree is ordered when they are. *)
From S2P Require Import Prelude ByteOrder BTreeSpec BTree BTreePages.

(** ** Marks *)

(** A key on the left of a page is before the same key in an item, and no key
    is before all keys. *)
Definition mark : Type := option bytes * bool.
Definition opt_lt (a b : option bytes) : Prop :=
  match a, b with None, Some _ => True | Some a, Some b => a <b b | _, None => False end.
Definition mark_lt (x y : mark) : Prop := opt_lt x.1 y.1 ∨ (x.1 = y.1 ∧ x.2 = false ∧ y.2 = true).

#[export] Instance opt_lt_strict : StrictOrder opt_lt.
Proof.
  split; [intros [a|] H; cbn in H; [by apply (irreflexivity bytes_lt a)|done]|].
  intros [a|] [b|] [c|]; cbn; try done. apply bytes_lt_trans.
Qed.
#[export] Instance mark_lt_strict : StrictOrder mark_lt.
Proof.
  split.
  - intros [a i] [H|(_ & H1 & H2)]; cbn in *; [by apply (irreflexivity opt_lt) in H|congruence].
  - intros [a i] [b j] [c k] [H1|(H1 & H2 & H3)] [H4|(H4 & H5 & H6)]; cbn in *; subst; [|by left|by left|done].
    left; cbn. by etrans.
Qed.

Notation sorted := (StronglySorted mark_lt).
Definition item_mark (k : bytes) : mark := (Some k, true).
Definition page_mark (s : option bytes) : mark := (s, false).

Lemma item_mark_lt j k : mark_lt (item_mark j) (item_mark k) ↔ j <b k.
Proof. unfold mark_lt; cbn. naive_solver. Qed.
Lemma page_item_lt s k : mark_lt (page_mark s) (item_mark k) ↔ match s with Some j => j ≤b k | None => True end.
Proof. unfold mark_lt; destruct s as [s|]; cbn; [rewrite bytes_le_lteq; naive_solver|naive_solver]. Qed.
Lemma item_page_lt s k : mark_lt (item_mark k) (page_mark s) ↔ ∃ j, s = Some j ∧ k <b j.
Proof. unfold mark_lt; destruct s as [s|]; cbn; naive_solver. Qed.
Lemma page_mark_lt s k : mark_lt (page_mark s) (page_mark k) ↔ opt_lt s k.
Proof. unfold mark_lt; cbn. naive_solver. Qed.
(** The mark of a page can be as far right as its first item. *)
Lemma item_before_page j k : j <b k → mark_lt (item_mark j) (page_mark (Some k)).
Proof. intros H. by left. Qed.

Section sorted.
Context {A : Type} (R : A → A → Prop) `{!StrictOrder R}.
Implicit Types (l : list A) (x y : A).

Lemma sorted_app l l' : StronglySorted R (l ++ l') ↔ StronglySorted R l ∧ StronglySorted R l' ∧ ∀ x y, x ∈ l → y ∈ l' → R x y.
Proof.
  induction l as [|x l IH]; cbn; [split; [intros H; split_and!; [constructor|done|by intros ? ? ?%not_elem_of_nil]|by intros (_ & ? & _)]|].
  split.
  - intros H. apply StronglySorted_inv in H as [H Hx]. apply IH in H as (H1 & H2 & H3). apply Forall_app in Hx as [Hx1 Hx2].
    rewrite Forall_forall in Hx2. split_and!; [by constructor|done|]. intros y z [->|Hy]%elem_of_cons Hz; auto.
  - intros (H1 & H2 & H3). apply StronglySorted_inv in H1 as [H1 Hx]. constructor.
    + apply IH. split_and!; [done|done|]. intros y z Hy Hz. apply H3; [by right|done].
    + apply Forall_app. split; [done|]. rewrite Forall_forall. intros z Hz. apply H3; [by left|done].
Qed.
Lemma sorted_cons x l : StronglySorted R (x :: l) ↔ StronglySorted R l ∧ ∀ y, y ∈ l → R x y.
Proof.
  split; [intros [H1 H2]%StronglySorted_inv; by rewrite Forall_forall in H2|intros [? ?]; constructor; [done|by rewrite Forall_forall]].
Qed.
(** Something that fits between two parts fits in. *)
Lemma sorted_insert l x l' : StronglySorted R (l ++ l') → (∀ y, y ∈ l → R y x) → (∀ y, y ∈ l' → R x y) → StronglySorted R (l ++ x :: l').
Proof.
  intros (H1 & H2 & H3)%sorted_app Hl Hr. apply sorted_app. split_and!; [done|by apply sorted_cons|].
  intros y z Hy [->|Hz]%elem_of_cons; auto.
Qed.
Lemma sorted_sublist l l' : l `sublist_of` l' → StronglySorted R l' → StronglySorted R l.
Proof.
  induction 1 as [|x l l' Hs IH|x l l' Hs IH]; intros H; [done| |].
  - apply sorted_cons in H as [H Hx]. apply sorted_cons. split; [by apply IH|]. intros y Hy. apply Hx. by eapply sublist_subseteq.
  - apply IH. by apply sorted_cons in H as [H _].
Qed.
Lemma sorted_left l x l' y : StronglySorted R (l ++ x :: l') → R x y → ∀ z, z ∈ l ++ [x] → R z y.
Proof.
  intros (_ & _ & H)%sorted_app Hy z [Hz| ->%list_elem_of_singleton]%elem_of_app; [|done]. etrans; [|exact Hy]. apply H; [done|by left].
Qed.
Lemma sorted_right l x y : StronglySorted R (x :: l) → R y x → ∀ z, z ∈ x :: l → R y z.
Proof. intros [_ H]%sorted_cons Hy z [->|Hz]%elem_of_cons; [done|]. etrans; [exact Hy|]. by apply H. Qed.
End sorted.

(** ** Leaves *)

Section leaves.
Context {V : Type}.
Notation item := (bytes * V)%type.
Notation dp := (d_page V).

Record leaf := Leaf { lf_lo : option bytes; lf_q : ptr; lf_its : list item }.
Implicit Types (l : leaf) (LL : list leaf) (ds : gmap ptr dp) (prev nxt : option ptr).

Definition flat LL : list item := LL ≫= lf_its.
Definition leaf_row LL : row := (λ l, (lf_lo l, DPage (lf_q l))) <$> LL.
Definition item_marks (its : list item) : list mark := (λ it, item_mark it.1) <$> its.
Definition leaf_marks l : list mark := page_mark (lf_lo l) :: item_marks (lf_its l).
Definition marks LL : list mark := LL ≫= leaf_marks.

Definition head_q LL nxt : option ptr := match LL with [] => nxt | l :: _ => Some (lf_q l) end.
Fixpoint last_q prev LL : option ptr := match LL with [] => prev | l :: LL => last_q (Some (lf_q l)) LL end.

(** The pages are on the heap, linked between [prev] and [nxt]. *)
Fixpoint chain ds prev LL nxt : Prop :=
  match LL with
  | [] => True
  | l :: LL => (∃ pg, ds !! lf_q l = Some pg ∧ d_has pg (lf_its l) (head_q LL nxt) prev) ∧ chain ds (Some (lf_q l)) LL nxt
  end.

Lemma flat_app LL MM : flat (LL ++ MM) = flat LL ++ flat MM.
Proof. apply bind_app. Qed.
Lemma marks_app LL MM : marks (LL ++ MM) = marks LL ++ marks MM.
Proof. apply bind_app. Qed.
Lemma flat_cons l LL : flat (l :: LL) = lf_its l ++ flat LL.
Proof. done. Qed.
Lemma marks_cons l LL : marks (l :: LL) = page_mark (lf_lo l) :: item_marks (lf_its l) ++ marks LL.
Proof. done. Qed.
Lemma leaf_row_app LL MM : leaf_row (LL ++ MM) = leaf_row LL ++ leaf_row MM.
Proof. apply fmap_app. Qed.
Lemma item_marks_app (a b : list item) : item_marks (a ++ b) = item_marks a ++ item_marks b.
Proof. apply fmap_app. Qed.
Lemma head_q_app LL MM nxt : head_q (LL ++ MM) nxt = head_q LL (head_q MM nxt).
Proof. by destruct LL. Qed.
Lemma last_q_app prev LL MM : last_q prev (LL ++ MM) = last_q (last_q prev LL) MM.
Proof. revert prev. induction LL as [|l LL IH]; intros prev; [done|]. apply IH. Qed.

Lemma chain_app ds prev LL MM nxt : chain ds prev (LL ++ MM) nxt ↔ chain ds prev LL (head_q MM nxt) ∧ chain ds (last_q prev LL) MM nxt.
Proof.
  revert prev. induction LL as [|l LL IH]; intros prev; cbn; [tauto|]. rewrite IH, head_q_app. tauto.
Qed.
Lemma chain_frame ds ds' prev LL nxt : (∀ l, l ∈ LL → ds' !! lf_q l = ds !! lf_q l) → chain ds prev LL nxt → chain ds' prev LL nxt.
Proof.
  revert prev. induction LL as [|l LL IH]; intros prev Hf; cbn; [done|]. intros [(pg & E & H) Hc]. split.
  - exists pg. by rewrite Hf by (by left).
  - apply IH; [|done]. intros l' Hl'. apply Hf. by right.
Qed.
Lemma chain_lookup ds prev LL nxt l : chain ds prev LL nxt → l ∈ LL → ∃ pg n p, ds !! lf_q l = Some pg ∧ d_has pg (lf_its l) n p.
Proof.
  revert prev. induction LL as [|l' LL IH]; intros prev; [by intros _ ?%not_elem_of_nil|]. cbn. intros [(pg & E & H) Hc] [->|Hl]%elem_of_cons; [by eexists _, _, _|by eapply IH].
Qed.

Lemma marks_items LL : item_marks (flat LL) `sublist_of` marks LL.
Proof.
  induction LL as [|l LL IH]; [done|]. rewrite flat_cons, marks_cons, item_marks_app. apply sublist_cons. by apply sublist_app.
Qed.
Lemma marks_pages LL : (λ e : option bytes * page, page_mark e.1) <$> leaf_row LL `sublist_of` marks LL.
Proof.
  induction LL as [|l LL IH]; [done|]. rewrite marks_cons. cbn. apply sublist_skip. by apply sublist_inserts_l.
Qed.

(** The items of an ordered tree are sorted by their keys. *)
Lemma sorted_items (its : list item) : sorted (item_marks its) ↔ StronglySorted key_lt its.
Proof.
  induction its as [|x its IH]; [split; constructor|]. change (item_marks (x :: its)) with (item_mark x.1 :: item_marks its).
  rewrite !sorted_cons, IH. unfold item_marks. f_equiv. split.
  - intros H y Hy. unfold key_lt. apply item_mark_lt, H. apply list_elem_of_fmap. by exists y.
  - intros H m (y & -> & Hy)%list_elem_of_fmap. by apply item_mark_lt, (H y).
Qed.
Lemma sorted_flat LL : sorted (marks LL) → StronglySorted key_lt (flat LL).
Proof. intros H. apply sorted_items. eapply sorted_sublist; [apply marks_items|done]. Qed.

(** A leaf whose left mark moves right, up to its first item *)
Lemma sorted_relabel (M1 M2 : list mark) lo (j k : bytes) : sorted (M1 ++ item_mark j :: lo :: item_mark k :: M2) → sorted (M1 ++ item_mark j :: item_mark k :: M2).
Proof. apply sorted_sublist. apply sublist_app; [done|]. by apply sublist_skip, sublist_cons. Qed.
End leaves.
Arguments leaf V : clear implicits.

Section levels.
(** ** Levels *)

Record node := Node { nd_lo : option bytes; nd_q : ptr; nd_row : row }.
Implicit Types (n : node) (G : list node) (xs : gmap ptr x_page) (U : gset ptr) (R B E : row) (k : bytes).

Definition heads G : row := (λ n, (nd_lo n, XPage (nd_q n))) <$> G.
Definition children G : row := G ≫= nd_row.
Definition addrs G : gset ptr := list_to_set (nd_q <$> G).
Definition page_marks R : list mark := (λ e : option bytes * page, page_mark e.1) <$> R.

(** An index page has at least two children. *)
Definition node_ok xs n : Prop := ∃ xp, xs !! nd_q n = Some xp ∧ x_has xp (nd_lo n) (nd_row n) ∧ 2 ≤ zlen (nd_row n).
(** An index page has at least [kx] children, unless it is alone in its level:
    only the root can be. *)
Definition enough G n : Prop := kx ≤ zlen (nd_row n) ∨ G = [n].
(** A level of index pages, none of them in [U] *)
Definition level xs U G : Prop := (∀ n, n ∈ G → node_ok xs n) ∧ (NoDup (nd_q <$> G) ∧ ∀ n, n ∈ G → enough G n) ∧ addrs G ## U.

(** Below the row [R] are [h] levels of index pages, then the row [B]; [U] are
    the index pages of the levels above. *)
Fixpoint shape xs U (h : nat) R B : Prop :=
  match h with
  | O => R = B
  | S h => ∃ G, R = heads G ∧ level xs U G ∧ shape xs (addrs G ∪ U) h (children G) B
  end.

Lemma page_marks_app R B : page_marks (R ++ B) = page_marks R ++ page_marks B.
Proof. apply fmap_app. Qed.
Lemma children_app G G' : children (G ++ G') = children G ++ children G'.
Proof. apply bind_app. Qed.
Lemma heads_app G G' : heads (G ++ G') = heads G ++ heads G'.
Proof. apply fmap_app. Qed.
Lemma addrs_app G G' : addrs (G ++ G') = addrs G ∪ addrs G'.
Proof. unfold addrs. rewrite fmap_app. apply list_to_set_app_L. Qed.
Lemma elem_of_addrs n G : n ∈ G → nd_q n ∈ addrs G.
Proof. intros H. apply elem_of_list_to_set, list_elem_of_fmap. by exists n. Qed.
Lemma elem_of_page_marks m R : m ∈ page_marks R ↔ ∃ e, m = page_mark e.1 ∧ e ∈ R.
Proof. apply list_elem_of_fmap. Qed.

Lemma node_head xs n : node_ok xs n → ∃ c R, nd_row n = (nd_lo n, c) :: R.
Proof. intros (xp & _ & H & _). by eapply x_has_head. Qed.

Lemma level_frame xs xs' U G : (∀ a, a ∈ addrs G → xs' !! a = xs !! a) → level xs U G → level xs' U G.
Proof.
  intros Hf (Hn & ? & ?). split; [|done]. intros n Hin. destruct (Hn n Hin) as (xp & E & He). exists xp.
  by rewrite Hf by (by apply elem_of_addrs).
Qed.
Lemma shape_frame xs xs' U h R B : (∀ a, a ∉ U → xs' !! a = xs !! a) → shape xs U h R B → shape xs' U h R B.
Proof.
  revert U R. induction h as [|h IH]; intros U R Hf; [done|]. intros (G & -> & HG & Hs). exists G. split; [done|]. split.
  - eapply level_frame; [|done]. intros a Ha. apply Hf. destruct HG as (_ & _ & Hd). set_solver.
  - apply IH; [|done]. intros a Ha. apply Hf. set_solver.
Qed.
(** Addresses without a page are in no level. *)
Lemma shape_mono xs U U' h R B : (∀ a, a ∈ U' → a ∈ U ∨ xs !! a = None) → shape xs U h R B → shape xs U' h R B.
Proof.
  revert U U' R. induction h as [|h IH]; intros U U' R Hu; [done|]. intros (G & -> & HG & Hs). exists G. split; [done|].
  destruct HG as (Hn & Hd & HU). split.
  - split; [done|]. split; [done|]. intros a Ha Ha'. destruct (Hu a Ha') as [?|Hx]; [set_solver|].
    apply elem_of_list_to_set, list_elem_of_fmap in Ha as (n & -> & Hin). destruct (Hn n Hin) as (xp & E & _). congruence.
  - eapply IH; [|done]. intros a [Ha|Ha]%elem_of_union; [left; set_solver|]. destruct (Hu a Ha); [left; set_solver|by right].
Qed.

Lemma shape_marks xs U h R B : shape xs U h R B → page_marks R `sublist_of` page_marks B.
Proof.
  revert U R. induction h as [|h IH]; intros U R; [by intros ->|]. intros (G & -> & (Hn & _) & Hs).
  etrans; [|by eapply IH]. clear Hs. induction G as [|n G IHG]; [done|].
  destruct (node_head xs n) as (c & R & E); [apply Hn; by left|]. change (children (n :: G)) with (nd_row n ++ children G).
  rewrite page_marks_app, E. cbn. apply sublist_skip, sublist_inserts_l, IHG. intros n' Hn'. apply Hn. by right.
Qed.

Lemma children_nonempty xs G : (∀ n, n ∈ G → node_ok xs n) → heads G ≠ [] → children G ≠ [].
Proof.
  intros Hn. destruct G as [|n G]; [done|]. destruct (node_head xs n) as (c & R & E); [apply Hn; by left|]. intros _. cbn. by rewrite E.
Qed.
Lemma shape_depth xs U h R B : R ≠ [] → U ⊆ dom xs → shape xs U h R B → (size U + h ≤ size xs)%nat.
Proof.
  revert U R. induction h as [|h IH]; intros U R HR HU.
  { intros _. rewrite <- (size_dom xs). pose proof (subseteq_size U (dom xs) HU). lia. }
  intros (G & -> & (Hn & Hd & HGU) & Hs). specialize (IH (addrs G ∪ U) (children G)).
  assert (size (addrs G ∪ U) = size (addrs G) + size U)%nat by (by apply size_union).
  assert (0 < size (addrs G))%nat.
  { destruct G as [|n G]; [done|]. apply Nat.neq_0_lt_0, size_non_empty_iff. intros E%leibniz_equiv. pose proof (elem_of_addrs n (n :: G)). set_solver. }
  cut (size (addrs G ∪ U) + h ≤ size xs)%nat; [lia|]. apply IH; [by eapply children_nonempty| |done].
  apply union_subseteq. split; [|done]. intros a Ha. apply elem_of_list_to_set, list_elem_of_fmap in Ha as (n & -> & Hin).
  destruct (Hn n Hin) as (xp & E & _). by apply elem_of_dom.
Qed.

Lemma elem_mid {A} (l l' : list A) x : x ∈ l ++ x :: l'.
Proof. apply elem_of_app. right. by left. Qed.
Lemma node_addr G n G' : nd_q n ∈ addrs (G ++ n :: G').
Proof. apply elem_of_addrs, elem_mid. Qed.

(** ** Where a key belongs *)

Definition located k R B : Prop :=
  (∀ m, m ∈ page_marks R → mark_lt m (item_mark k)) ∧ (∀ m, m ∈ page_marks B → mark_lt (item_mark k) m).

Lemma located_down xs G1 n G2 E1 e E2 k : (∀ n', n' ∈ G1 ++ n :: G2 → node_ok xs n') → sorted (page_marks (children (G1 ++ n :: G2))) →
  nd_row n = E1 ++ e :: E2 → located k (heads (G1 ++ [n])) (heads G2) → located k (E1 ++ [e]) E2 →
  located k (children G1 ++ E1 ++ [e]) (E2 ++ children G2).
Proof.
  intros Hn Hs HE [Hl Hr] [Hl1 Hr1].
  destruct (node_head xs n) as (c & R & Hrow); [apply Hn; set_solver|].
  assert (mark_lt (page_mark (nd_lo n)) (item_mark k)) as Hlo by (apply Hl; rewrite heads_app, page_marks_app; set_solver).
  rewrite children_app, page_marks_app in Hs. change (children (n :: G2)) with (nd_row n ++ children G2) in Hs. split.
  - intros m Hm. rewrite page_marks_app in Hm. apply elem_of_app in Hm as [Hm|Hm]; [|by apply Hl1].
    rewrite Hrow in Hs. eapply (sorted_left _ _ (page_mark (nd_lo n))); [exact Hs|done|]. apply elem_of_app. by left.
  - intros m Hm. rewrite page_marks_app in Hm. apply elem_of_app in Hm as [Hm|Hm]; [by apply Hr1|].
    apply sorted_app in Hs as (_ & Hs & _). rewrite page_marks_app in Hs. apply sorted_app in Hs as (_ & Hs & _).
    destruct G2 as [|n2 G2]; [by apply not_elem_of_nil in Hm|]. destruct (node_head xs n2) as (c2 & R2 & Hrow2); [apply Hn; set_solver|].
    change (children (n2 :: G2)) with (nd_row n2 ++ children G2) in *. rewrite Hrow2 in *. eapply (sorted_right mark_lt); [exact Hs| |exact Hm].
    apply Hr. by left.
Qed.
End levels.

(** ** Trees *)

Section trees.
Context {V : Type}.
Implicit Types (t : BTree V) (l : leaf V) (LL : list (leaf V)) (k : bytes).

(** Pages are taken from addresses that are in no use. *)
Definition fresh t : Prop := ∀ a : ptr, (t_next t ≤ a)%positive → t_ds t !! a = None ∧ t_xs t !! a = None.

(** A leaf is at least half full, unless it is the only one. *)
Definition leaf_full (l : leaf V) : Prop := kd ≤ zlen (lf_its l) ≤ 2 * kd.
Definition leaf_sizes LL : Prop := (∀ l, l ∈ LL → leaf_full l) ∨ ∃ l, LL = [l] ∧ 1 ≤ zlen (lf_its l) ≤ 2 * kd.

Record leaves t LL : Prop := {
  lv_chain : chain (t_ds t) None LL None;
  lv_nodup : NoDup (lf_q <$> LL);
  lv_first : t_first t = head_q LL None;
  lv_last : t_last t = last_q None LL;
  lv_count : t_c t = zlen (flat LL);
  lv_sorted : sorted (marks LL);
  lv_sizes : leaf_sizes LL
}.

Lemma sizes_bound LL : leaf_sizes LL → ∀ l, l ∈ LL → 1 ≤ zlen (lf_its l) ≤ 2 * kd.
Proof. intros [Hf|(l' & -> & Hs)] l Hl; [specialize (Hf l Hl); unfold leaf_full, kd in *; lia|by apply list_elem_of_singleton in Hl as ->]. Qed.
Lemma lv_size t LL : leaves t LL → ∀ l, l ∈ LL → 1 ≤ zlen (lf_its l) ≤ 2 * kd.
Proof. intros Hl. apply sizes_bound, (lv_sizes _ _ Hl). Qed.
Lemma sizes_many LL : leaf_sizes LL → 2 ≤ zlen LL → ∀ l, l ∈ LL → leaf_full l.
Proof. intros [Hf|(l & -> & _)] H; [done|]. rewrite zlen_cons, zlen_nil in H. lia. Qed.
Lemma sizes_grow A l l' B : leaf_sizes (A ++ l :: B) → zlen (lf_its l) ≤ zlen (lf_its l') ≤ 2 * kd → leaf_sizes (A ++ l' :: B).
Proof.
  intros [Hf|(x & E & Hs)] Hl.
  - left. intros m [Hm|[->|Hm]%elem_of_cons]%elem_of_app; [apply Hf; set_solver| |apply Hf; set_solver].
    specialize (Hf l ltac:(set_solver)). unfold leaf_full in *. lia.
  - right. exists l'. destruct A as [|? [|]]; [|done|done]. destruct B; [|done]. injection E as ->. split; [done|lia].
Qed.
(** The other leaves are as they were, when they were more than one in place of two. *)
Lemma sizes_put A L B l1 l2 : leaf_sizes (A ++ L ++ B) → 1 ≤ zlen L → leaf_full l1 → leaf_full l2 → leaf_sizes (A ++ l1 :: l2 :: B).
Proof.
  intros H HL H1 H2. left. intros m [Hm|[->|[->|Hm]%elem_of_cons]%elem_of_cons]%elem_of_app; try done.
  - apply (sizes_many _ H); [|set_solver]. destruct A; [by apply not_elem_of_nil in Hm|]. pose proof (zlen_nonneg A). pose proof (zlen_nonneg B). zlen.
  - apply (sizes_many _ H); [|set_solver]. destruct B; [by apply not_elem_of_nil in Hm|]. pose proof (zlen_nonneg A). pose proof (zlen_nonneg B). zlen.
Qed.

Definition root_ok t LL : Prop := (t_r t = NilPage ∧ LL = []) ∨ ∃ h, shape (t_xs t) ∅ h [(None, t_r t)] (leaf_row LL).
Definition repr t LL : Prop := fresh t ∧ leaves t LL ∧ root_ok t LL.

(** The items along the list of leaves *)
Fixpoint chain_items (ds : gmap ptr (d_page V)) (n : nat) (q : option ptr) : list (bytes * V) :=
  match n, q with
  | S n, Some q => match ds !! q with Some pg => take (Z.to_nat (d_c pg)) (d_d pg) ++ chain_items ds n (d_n pg) | None => [] end
  | _, _ => []
  end.
Definition tree_map t : gmap bytes V := list_to_map (chain_items (t_ds t) (size (t_ds t)) (t_first t)).

Lemma chain_items_flat ds prev LL n : chain ds prev LL None → (length LL ≤ n)%nat → chain_items ds n (head_q LL None) = flat LL.
Proof.
  revert prev n. induction LL as [|l LL IH]; intros prev n; [by destruct n|]. intros [(pg & E & Hn & _ & Hc & _ & junk & Hd) H] Hle.
  destruct n as [|n]; [cbn in Hle; lia|]. cbn. rewrite E, Hc, Hd, Hn. unfold zlen. rewrite Nat2Z.id, take_app_length. f_equal. eapply IH; [done|]. cbn in Hle. lia.
Qed.
Lemma tree_map_flat t LL : leaves t LL → tree_map t = list_to_map (flat LL).
Proof.
  intros H. unfold tree_map. rewrite (lv_first _ _ H). erewrite chain_items_flat; [done|apply (lv_chain _ _ H)|].
  rewrite <- (length_fmap lf_q LL), <- (size_list_to_set (C := gset ptr)) by apply (lv_nodup _ _ H). rewrite <- (size_dom (t_ds t)).
  apply subseteq_size. intros a (l & -> & Hl)%elem_of_list_to_set%list_elem_of_fmap.
  destruct (chain_lookup _ _ _ _ _ (lv_chain _ _ H) Hl) as (pg & n & p & E & _). by apply elem_of_dom.
Qed.

Lemma sorted_keys_NoDup (its : list (bytes * V)) : StronglySorted key_lt its → NoDup its.*1.
Proof.
  induction its as [|x its IH]; [constructor|]. intros [H Hx]%(sorted_cons key_lt). cbn. apply NoDup_cons. split; [|by apply IH].
  intros (y & E & Hy)%list_elem_of_fmap. specialize (Hx y Hy). unfold key_lt in Hx. rewrite E in Hx. by apply (irreflexivity bytes_lt) in Hx.
Qed.
Lemma flat_keys t LL : leaves t LL → NoDup (flat LL).*1.
Proof. intros H. by apply sorted_keys_NoDup, sorted_flat, (lv_sorted _ _ H). Qed.

(** Around the leaf a key belongs to *)
Lemma located_marks L1 l L2 k : sorted (marks (L1 ++ l :: L2)) → located k (leaf_row (L1 ++ [l])) (leaf_row L2) →
  (∀ m, m ∈ marks L1 ++ [page_mark (lf_lo l)] → mark_lt m (item_mark k)) ∧ (∀ m, m ∈ marks L2 → mark_lt (item_mark k) m).
Proof.
  intros Hs [Hl Hr]. rewrite marks_app, marks_cons in Hs. split.
  - assert (mark_lt (page_mark (lf_lo l)) (item_mark k)) as Hlo.
    { apply Hl. rewrite leaf_row_app, page_marks_app. apply elem_of_app. right. by left. }
    by apply (sorted_left mark_lt _ _ _ _ Hs).
  - intros m Hm. apply (sorted_app mark_lt) in Hs as (_ & Hs & _). rewrite app_comm_cons in Hs. apply (sorted_app mark_lt) in Hs as (_ & Hs & _).
    destruct L2 as [|l2 L2]; [by apply not_elem_of_nil in Hm|]. rewrite marks_cons in *. eapply (sorted_right mark_lt); [exact Hs| |exact Hm]. apply Hr. by left.
Qed.
Lemma elem_of_item_marks it (its : list (bytes * V)) : it ∈ its → item_mark it.1 ∈ item_marks its.
Proof. intros H. apply list_elem_of_fmap. by exists it. Qed.
Lemma elem_of_marks it LL : it ∈ flat LL → item_mark it.1 ∈ marks LL.
Proof. intros H. eapply sublist_subseteq; [apply marks_items|]. by apply elem_of_item_marks. Qed.
Lemma located_items L1 l L2 k : sorted (marks (L1 ++ l :: L2)) → located k (leaf_row (L1 ++ [l])) (leaf_row L2) →
  (∀ it, it ∈ flat L1 → it.1 <b k) ∧ (∀ it, it ∈ flat L2 → k <b it.1).
Proof.
  intros Hs Hl. destruct (located_marks _ _ _ _ Hs Hl) as [H1 H2]. split; intros it Hit; apply item_mark_lt.
  - apply H1, elem_of_app. left. by apply elem_of_marks.
  - by apply H2, elem_of_marks.
Qed.

Lemma leaf_sorted t LL l : leaves t LL → l ∈ LL → StronglySorted key_lt (lf_its l).
Proof.
  intros H (L1 & L2 & ->)%list_elem_of_split. pose proof (sorted_flat _ (lv_sorted _ _ H)) as Hs. rewrite flat_app, flat_cons in Hs.
  apply (sorted_app key_lt) in Hs as (_ & Hs & _). by apply (sorted_app key_lt) in Hs as (Hs & _).
Qed.

(** What a map of sorted items has at a key *)
Lemma list_to_map_found (I1 I2 : list (bytes * V)) k v : StronglySorted key_lt (I1 ++ (k, v) :: I2) → (list_to_map (I1 ++ (k, v) :: I2) : gmap bytes V) !! k = Some v.
Proof. intros H. apply elem_of_list_to_map; [by apply sorted_keys_NoDup|]. apply elem_of_app. right. by left. Qed.
Lemma list_to_map_missed (I1 I2 : list (bytes * V)) k : (∀ it, it ∈ I1 → it.1 <b k) → (∀ it, it ∈ I2 → k <b it.1) → (list_to_map (I1 ++ I2) : gmap bytes V) !! k = None.
Proof.
  intros H1 H2. apply not_elem_of_list_to_map. rewrite fmap_app. intros [Hk|Hk]%elem_of_app; apply list_elem_of_fmap in Hk as (it & -> & Hit).
  - specialize (H1 it Hit). by apply (irreflexivity bytes_lt) in H1.
  - specialize (H2 it Hit). by apply (irreflexivity bytes_lt) in H2.
Qed.
Lemma list_to_map_put (I1 I2 : list (bytes * V)) k v : (∀ it, it ∈ I1 → it.1 <b k) →
  list_to_map (I1 ++ (k, v) :: I2) = <[k := v]> (list_to_map (I1 ++ I2) : gmap bytes V).
Proof.
  induction I1 as [|[k1 v1] I1 IH]; intros H1; [done|]. cbn. rewrite IH by (intros it Hit; apply H1; by right).
  apply insert_insert_ne. intros ->. specialize (H1 (k, v1) ltac:(by left)). by apply (irreflexivity bytes_lt) in H1.
Qed.
Lemma list_to_map_replace (I1 I2 : list (bytes * V)) k v v' : (∀ it, it ∈ I1 → it.1 <b k) →
  list_to_map (I1 ++ (k, v') :: I2) = <[k := v']> (list_to_map (I1 ++ (k, v) :: I2) : gmap bytes V).
Proof. intros H1. rewrite !list_to_map_put by done. by rewrite insert_insert_eq. Qed.
Lemma list_to_map_remove (I1 I2 : list (bytes * V)) k v : StronglySorted key_lt (I1 ++ (k, v) :: I2) →
  list_to_map (I1 ++ I2) = delete k (list_to_map (I1 ++ (k, v) :: I2) : gmap bytes V).
Proof.
  intros Hs. apply (sorted_app key_lt) in Hs as (_ & [_ H2]%(sorted_cons key_lt) & H1).
  assert (∀ it, it ∈ I1 → it.1 <b k) as H1' by (intros it Hit; apply (H1 it (k, v)); [done|by left]).
  rewrite list_to_map_put by done. symmetry. rewrite delete_insert_eq. apply delete_id. apply list_to_map_missed; [done|]. intros it Hit. by apply (H2 it).
Qed.
End trees.
