(* ===== verification/BTreeFind.v ===== *)
(** * Searching the B+tree

    The binary search of a page, the descent to the leaf a key belongs to, and
    what [Get] finds there. *)
From S2P Require Import Prelude ByteOrder BTreeSpec BTree BTreePages BTreeInv.

(** ** The binary search *)

Section find_loop.
Context (key : Z → outcome bytes) (ks : list bytes) (k : bytes).
Hypothesis Hkey : ∀ a e b, ks = a ++ e :: b → key (zlen a) = Ret e.
Hypothesis Hsorted : StronglySorted bytes_lt ks.

(** Between [A], keys below [k], and [B], keys above it, [M] is left to search. *)
Lemma find_loop_ok fuel : ∀ A M B l h, ks = A ++ M ++ B → l = zlen A → h = l + zlen M - 1 → zlen M ≤ Z.of_nat fuel →
  (∀ j, j ∈ A → j <b k) → (∀ j, j ∈ B → k <b j) →
  (∃ a b, ks = a ++ k :: b ∧ find_loop key k fuel l h = Ret (zlen a, true)) ∨
  (∃ a b, ks = a ++ b ∧ (∀ j, j ∈ a → j <b k) ∧ (∀ j, j ∈ b → k <b j) ∧ find_loop key k fuel l h = Ret (zlen a, false)).
Proof.
  induction fuel as [|fuel IH]; intros A M B l h E -> -> Hf HA HB; cbn [find_loop].
  all: destruct (Z.leb_spec (zlen A) (zlen A + zlen M - 1)) as [Hle|Hgt].
  1: zlen. 1, 3: right; destruct M; [|zlen]; by exists A, B.
  set (m := Z.shiftr _ 1). assert (zlen A ≤ m ≤ zlen A + zlen M - 1) as Hm.
  { subst m. rewrite Z.shiftr_div_pow2 by lia. change (2 ^ 1) with 2. zdiv. }
  destruct (split_at M (m - zlen A)) as (M1 & [|e M2] & -> & HM1); [zlen|zlen|].
  assert (key m = Ret e) as ->.
  { replace m with (zlen (A ++ M1)) by zlen. apply (Hkey _ _ (M2 ++ B)). by rewrite E, <- !app_assoc. }
  cbn [mbind outcome_bind]. rewrite E in Hsorted.
  assert (∀ j, j ∈ M1 → j <b e) as H1.
  { intros j Hj. rewrite <- app_assoc in Hsorted. apply (sorted_app bytes_lt) in Hsorted as (_ & Hs & _).
    apply (sorted_app bytes_lt) in Hs as (_ & _ & Hs). apply Hs; [done|by left]. }
  assert (∀ j, j ∈ M2 → e <b j) as H2.
  { intros j Hj. rewrite <- app_assoc in Hsorted. apply (sorted_app bytes_lt) in Hsorted as (_ & Hs & _).
    apply (sorted_app bytes_lt) in Hs as (_ & Hs & _). apply (sorted_cons bytes_lt) in Hs as [_ Hs]. apply Hs, elem_of_app. by left. }
  destruct (bytes_compare k e) eqn:C.
  - apply bytes_compare_Eq in C as ->. left. exists (A ++ M1), (M2 ++ B). split; [by rewrite E, <- !app_assoc|].
    replace (zlen (A ++ M1)) with m by zlen. done.
  - apply (IH A M1 (e :: M2 ++ B)); [by rewrite E, <- app_assoc|done|zlen|zlen|done|].
    intros j [->|[Hj|Hj]%elem_of_app]%elem_of_cons; [done| |by apply HB]. by eapply bytes_lt_trans; [|apply H2].
  - assert (e <b k) as C' by (unfold bytes_lt; by rewrite bytes_compare_antisym, C).
    apply (IH (A ++ M1 ++ [e]) M2 B); [by rewrite E, <- !app_assoc|zlen|zlen|zlen| |done].
    intros j [Hj|[Hj| ->%list_elem_of_singleton]%elem_of_app]%elem_of_app; [by apply HA| |done]. by eapply bytes_lt_trans; [apply H1|].
Qed.
End find_loop.

Lemma find_loop_keys key ks k n : (∀ a e b, ks = a ++ e :: b → key (zlen a) = Ret e) → StronglySorted bytes_lt ks → n = zlen ks →
  (∃ a b, ks = a ++ k :: b ∧ find_loop key k (Z.to_nat n) 0 (n - 1) = Ret (zlen a, true)) ∨
  (∃ a b, ks = a ++ b ∧ (∀ j, j ∈ a → j <b k) ∧ (∀ j, j ∈ b → k <b j) ∧ find_loop key k (Z.to_nat n) 0 (n - 1) = Ret (zlen a, false)).
Proof.
  intros Hkey Hs ->. apply (find_loop_ok key ks k Hkey Hs _ [] ks []); [by rewrite app_nil_r|done|lia| |by intros j ?%not_elem_of_nil..].
  pose proof (zlen_nonneg ks). lia.
Qed.

(** The keys of an index page *)
Lemma x_has_keys xp lo E : x_has xp lo E → ∃ ks, page_marks E = page_mark lo :: (page_mark ∘ Some <$> ks) ∧ x_c xp = zlen ks ∧
  ∀ a e b, ks = a ++ e :: b → get_k xp (zlen a) = Ret e.
Proof.
  intros (xs & l & k & junk & -> & Hc & Hx & _). exists (xk <$> xs). split_and!.
  - clear. revert lo. induction xs as [|x xs IH]; intros lo; [done|]. cbn. f_equal. apply IH.
  - rewrite Hc. unfold zlen. by rewrite length_fmap.
  - intros a e b E. apply fmap_app_inv in E as (xa & xb & -> & E & ->). apply eq_sym, fmap_cons_inv in E as (x & xb' & -> & -> & ->).
    rewrite <- app_assoc in Hx. eapply get_k_app; [exact Hx|]. unfold zlen. by rewrite length_fmap.
Qed.

Section find.
Context {V : Type}.
Implicit Types (t : BTree V) (l : leaf V) (LL : list (leaf V)) (k : bytes).

(** The child of an index page a key belongs to *)
Lemma find_x t x xp lo E k : t_xs t !! x = Some xp → x_has xp lo E → sorted (page_marks E) → mark_lt (page_mark lo) (item_mark k) →
  ∃ i (ok : bool) E1 e E2, find (XPage x) k t = Ret ((i, ok), t) ∧ E = E1 ++ e :: E2 ∧ (if ok then i + 1 else i) = zlen E1 ∧ located k (E1 ++ [e]) E2.
Proof.
  intros Hx HE Hs Hlo. unfold find. destruct (x_has_keys _ _ _ HE) as (ks & Hm & Hc & Hk).
  rewrite Hm in Hs. apply sorted_cons in Hs as [Hs _].
  assert (StronglySorted bytes_lt ks) as Hks.
  { clear -Hs. induction ks as [|j ks IH]; [constructor|]. cbn in Hs. apply sorted_cons in Hs as [Hs Hj].
    apply (sorted_cons bytes_lt). split; [by apply IH|]. intros i Hi. apply (proj1 (page_mark_lt (Some j) (Some i))), (Hj (page_mark (Some i))), list_elem_of_fmap. by exists i. }
  assert (zlen E = zlen ks + 1) as HlE by (apply (f_equal zlen) in Hm; unfold zlen in *; unfold page_marks in Hm; cbn in Hm; rewrite !length_fmap in Hm; lia).
  assert (∀ (n : Z) ka kb, ks = ka ++ kb → (∀ j, j ∈ ka → j ≤b k) → (∀ j, j ∈ kb → k <b j) → n = zlen ka →
    ∃ E1 e E2, E = E1 ++ e :: E2 ∧ n = zlen E1 ∧ located k (E1 ++ [e]) E2) as Hsplit.
  { intros n ka kb -> Ha Hb ->. destruct (split_at E (zlen ka)) as (E1 & [|e E2] & -> & HE1); [zlen|zlen|]. exists E1, e, E2. split; [done|]. split; [done|].
    assert (page_marks (E1 ++ [e]) = page_mark lo :: (page_mark ∘ Some <$> ka) ∧ page_marks E2 = page_mark ∘ Some <$> kb) as [M1 M2].
    { rewrite cons_middle, app_assoc, page_marks_app, fmap_app, app_comm_cons in Hm. apply app_inj_1 in Hm; [done|].
      unfold zlen, page_marks in *. cbn. rewrite !length_fmap, length_app. cbn. lia. }
    split; rewrite ?M1, ?M2.
    - intros m [->|(j & -> & Hj)%list_elem_of_fmap]%elem_of_cons; [done|]. by apply page_item_lt, Ha.
    - intros m (j & -> & Hj)%list_elem_of_fmap. apply item_page_lt. exists j. split; [done|by apply Hb]. }
  erewrite stM_Ret; [|unfold x_load; by rewrite Hx].
  destruct (find_loop_keys (get_k xp) ks k (x_c xp) Hk Hks Hc) as [(a & b & -> & E1)|(a & b & -> & Ha & Hb & E1)]; unfold st_lift; rewrite E1; cbn [mbind outcome_bind].
  - apply (sorted_app bytes_lt) in Hks as (_ & Hks & Hab). apply (sorted_cons bytes_lt) in Hks as [_ Hb].
    destruct (Hsplit (zlen a + 1) (a ++ [k]) b) as (E1' & e & E2 & -> & Hn & Hl); [by rewrite <- app_assoc| |done|zlen|].
    { intros j [Hj| ->%list_elem_of_singleton]%elem_of_app; [apply bytes_lt_le, Hab; [done|by left]|apply bytes_le_refl]. }
    by exists (zlen a), true, E1', e, E2.
  - destruct (Hsplit (zlen a) a b) as (E1' & e & E2 & -> & Hn & Hl); [done|intros j Hj; by apply bytes_lt_le, Ha|done|done|].
    by exists (zlen a), false, E1', e, E2.
Qed.

(** The position of a key in a data page *)
Lemma find_d t d pg its n p k : t_ds t !! d = Some pg → d_has pg its n p → StronglySorted key_lt its →
  (∃ a v b, its = a ++ (k, v) :: b ∧ find (DPage d) k t = Ret ((zlen a, true), t)) ∨
  (∃ a b, its = a ++ b ∧ (∀ it, it ∈ a → it.1 <b k) ∧ (∀ it, it ∈ b → k <b it.1) ∧ find (DPage d) k t = Ret ((zlen a, false), t)).
Proof.
  intros Hd HE Hs. unfold find. erewrite stM_Ret; [|unfold d_load; by rewrite Hd].
  assert (StronglySorted bytes_lt its.*1) as Hks.
  { clear -Hs. induction its as [|x its IH]; [constructor|]. apply (sorted_cons key_lt) in Hs as [Hs Hx]. cbn. apply (sorted_cons bytes_lt). split; [by apply IH|].
    intros y (z & -> & Hz)%list_elem_of_fmap. by apply (Hx z). }
  destruct (find_loop_keys (λ m, e ← index (d_d pg) m; mret e.1) its.*1 k (d_c pg)) as [(a & b & Hk & E1)|(a & b & Hk & Ha & Hb & E1)]; [| |destruct HE as (_ & _ & -> & _); unfold zlen; by rewrite length_fmap| |].
  - intros a e b Hk. apply fmap_app_inv in Hk as (xa & xb & -> & Hk & ->). apply eq_sym, fmap_cons_inv in Hk as (x & xb' & -> & -> & ->).
    unfold zlen. rewrite length_fmap. by rewrite (d_index pg xa x xb' _ _ _ HE).
  - done.
  - left. unfold st_lift. rewrite E1. apply fmap_app_inv in Hk as (xa & xb & -> & Hk & ->). apply eq_sym, fmap_cons_inv in Hk as ([k' v] & xb' & E' & -> & ->).
    cbn in E'. subst k'. exists xa, v, xb'. split; [done|]. unfold zlen. by rewrite length_fmap.
  - right. unfold st_lift. rewrite E1. apply fmap_app_inv in Hk as (xa & xb & -> & -> & ->). exists xa, xb. split; [done|]. split_and!.
    + intros it Hit. apply Ha, list_elem_of_fmap. by exists it.
    + intros it Hit. apply Hb, list_elem_of_fmap. by exists it.
    + unfold zlen. by rewrite length_fmap.
Qed.

(** ** The descent *)

(** A loop that goes on at the child the key belongs to arrives at a leaf. *)
Lemma descend {R} (F : nat → page → stM (BTree V) R) t k U :
  (∀ fuel x xp i (ok : bool) c, find (XPage x) k t = Ret ((i, ok), t) → t_xs t !! x = Some xp → get_ch xp (if ok then i + 1 else i) = Ret c →
    F (S fuel) (XPage x) t = F fuel c t) →
  ∀ h R1 s q R2 LL, shape (t_xs t) U h (R1 ++ (s, q) :: R2) (leaf_row LL) → sorted (marks LL) → located k (R1 ++ [(s, q)]) R2 →
  ∃ L1 l L2, LL = L1 ++ l :: L2 ∧ located k (leaf_row (L1 ++ [l])) (leaf_row L2) ∧ ∀ fuel, F (h + fuel)%nat q t = F fuel (DPage (lf_q l)) t.
Proof.
  intros HF h. revert U. induction h as [|h IH]; intros U R1 s q R2 LL; cbn [shape].
  - intros HR _ Hl. apply eq_sym, fmap_app_inv in HR as (L1 & L & -> & E & ->). apply eq_sym, fmap_cons_inv in E as (l & L2 & [= -> ->] & -> & ->).
    exists L1, l, L2. split; [done|]. split; [by rewrite leaf_row_app|done].
  - intros (G & HR & HG & Hs) Hsorted Hl.
    apply eq_sym, fmap_app_inv in HR as (G1 & G' & -> & E & ->). apply eq_sym, fmap_cons_inv in E as (n & G2 & [= -> ->] & -> & ->).
    pose proof (sorted_sublist _ _ _ (marks_pages LL) Hsorted) as Hpages.
    pose proof (sorted_sublist _ _ _ (shape_marks _ _ _ _ _ Hs) Hpages) as Hch.
    destruct HG as [Hn HG]. destruct (Hn n) as (xp & Ex & Hhas & Hlen); [set_solver|].
    assert (sorted (page_marks (nd_row n))) as Hrow.
    { rewrite children_app, page_marks_app in Hch. apply (sorted_app mark_lt) in Hch as (_ & Hch & _).
      change (children (n :: G2)) with (nd_row n ++ children G2) in Hch. rewrite page_marks_app in Hch. by apply (sorted_app mark_lt) in Hch as (Hch & _). }
    assert (mark_lt (page_mark (nd_lo n)) (item_mark k)) as Hlo by (apply Hl; rewrite page_marks_app; set_solver).
    destruct (find_x t (nd_q n) xp (nd_lo n) (nd_row n) k Ex Hhas Hrow Hlo) as (i & ok & E1 & [s' c] & E2 & Ef & HE & Hi & Hle).
    assert (located k (children G1 ++ E1 ++ [(s', c)]) (E2 ++ children G2)) as Hdown.
    { eapply located_down; [exact Hn|exact Hch|exact HE|by rewrite heads_app|exact Hle]. }
    rewrite HE in Hhas. pose proof (x_get_ch _ _ _ _ _ _ Hhas Hi) as Hget. cbn in Hget.
    rewrite children_app in Hs. change (children (n :: G2)) with (nd_row n ++ children G2) in Hs. rewrite HE, <- app_assoc, (app_assoc (children G1)) in Hs.
    rewrite app_assoc in Hdown. destruct (IH _ _ _ _ _ _ Hs Hsorted Hdown) as (L1 & l & L2 & -> & Hl2 & Hfuel).
    exists L1, l, L2. split; [done|]. split; [done|]. intros fuel. rewrite <- Hfuel. by eapply HF.
Qed.

(** From the root, with the fuel that the size of a tree gives *)
Lemma descend_root {R} (F : nat → page → stM (BTree V) R) t LL k :
  (∀ fuel x xp i (ok : bool) c, find (XPage x) k t = Ret ((i, ok), t) → t_xs t !! x = Some xp → get_ch xp (if ok then i + 1 else i) = Ret c →
    F (S fuel) (XPage x) t = F fuel c t) →
  repr t LL → t_r t ≠ NilPage →
  ∃ L1 l L2 fuel, LL = L1 ++ l :: L2 ∧ located k (leaf_row (L1 ++ [l])) (leaf_row L2) ∧ F (depth t) (t_r t) t = F (S fuel) (DPage (lf_q l)) t.
Proof.
  intros HF (_ & Hl & [[? _]|[h Hs]]) Hr; [done|].
  destruct (descend F t k ∅ HF h [] None (t_r t) [] LL Hs (lv_sorted _ _ Hl)) as (L1 & l & L2 & -> & Hloc & Hfuel).
  { split; [|by intros m ?%not_elem_of_nil]. intros m ->%list_elem_of_singleton. by apply page_item_lt. }
  pose proof Hs as Hd. apply shape_depth in Hd; [|done|set_solver]. rewrite size_empty in Hd. cbn in Hd.
  exists L1, l, L2, (S (size (t_xs t) - h))%nat. split; [done|]. split; [done|]. rewrite <- Hfuel. f_equal. unfold depth. lia.
Qed.

(** A key is found in the leaf it belongs to, or fits between the items there. *)
Definition found t k (L1 : list (leaf V)) l (L2 : list (leaf V)) (r : Z * bool) : Prop :=
  (∃ a v b, lf_its l = a ++ (k, v) :: b ∧ r = (zlen a, true)) ∨
  (∃ a b, lf_its l = a ++ b ∧ r = (zlen a, false) ∧ (∀ it, it ∈ flat L1 ++ a → it.1 <b k) ∧ (∀ it, it ∈ b ++ flat L2 → k <b it.1)).

Lemma find_leaf t L1 l L2 k : leaves t (L1 ++ l :: L2) → located k (leaf_row (L1 ++ [l])) (leaf_row L2) →
  ∃ pg n p r, t_ds t !! lf_q l = Some pg ∧ d_has pg (lf_its l) n p ∧ find (DPage (lf_q l)) k t = Ret (r, t) ∧ found t k L1 l L2 r.
Proof.
  intros Hl Hloc. destruct (chain_lookup _ _ _ _ l (lv_chain _ _ Hl)) as (pg & n & p & E & Hd); [set_solver|].
  assert (StronglySorted key_lt (lf_its l)) as Hs by (eapply leaf_sorted; [done|set_solver]).
  destruct (located_items _ _ _ _ (lv_sorted _ _ Hl) Hloc) as [H1 H2].
  destruct (find_d t _ pg _ n p k E Hd Hs) as [(a & v & b & Hits & Ef)|(a & b & Hits & Ha & Hb & Ef)].
  - exists pg, n, p, (zlen a, true). split_and!; [done..|]. left. by exists a, v, b.
  - exists pg, n, p, (zlen a, false). split_and!; [done..|]. right. exists a, b. split_and!; [done|done| |].
    + intros it [?|?]%elem_of_app; auto.
    + intros it [?|?]%elem_of_app; auto.
Qed.
Lemma found_lookup t k L1 l L2 i ok : leaves t (L1 ++ l :: L2) → found t k L1 l L2 (i, ok) →
  if ok then ∃ a v b, lf_its l = a ++ (k, v) :: b ∧ i = zlen a ∧ tree_map t !! k = Some v else tree_map t !! k = None.
Proof.
  intros Hl Hf. rewrite (tree_map_flat _ _ Hl), flat_app, flat_cons. pose proof (sorted_flat _ (lv_sorted _ _ Hl)) as Hs. rewrite flat_app, flat_cons in Hs.
  destruct Hf as [(a & v & b & Hits & [= -> ->])|(a & b & Hits & [= -> ->] & H1 & H2)]; rewrite Hits in *.
  - exists a, v, b. split_and!; [done|done|]. rewrite <- app_assoc, app_assoc in *. by apply list_to_map_found.
  - rewrite <- app_assoc, app_assoc. by apply list_to_map_missed.
Qed.

Lemma repr_nil t LL : repr t LL → t_r t = NilPage → LL = [].
Proof.
  intros (_ & Hl & [[_ ?]|[[|h] Hs]]) Hr; [done| |]; rewrite Hr in Hs; cbn in Hs.
  - destruct LL; done.
  - destruct Hs as (G & HG & _). destruct G; done.
Qed.
Lemma tree_map_nil t : repr t [] → tree_map t = ∅.
Proof. intros (_ & Hl & _). by rewrite (tree_map_flat _ _ Hl). Qed.

Lemma Tree_Get_ok t LL k : repr t LL → Tree_Get k t = Ret (tree_map t !! k, t).
Proof.
  intros HR. unfold Tree_Get. case_bool_decide as Hr.
  { rewrite (repr_nil _ _ HR Hr) in HR. by rewrite (tree_map_nil _ HR), lookup_empty. }
  destruct (descend_root (λ fuel q, get_loop fuel k q) t LL k) as (L1 & l & L2 & fuel & -> & Hloc & ->); [|done|done|].
  { intros fuel x xp i ok c Ef Ex Ec. cbn [get_loop]. rewrite (stM_Ret _ _ _ _ _ Ef). unfold x_load, st_lift.
    rewrite (stM_Ret _ _ _ xp t) by (by rewrite Ex). by rewrite (stM_Ret _ _ _ c t) by (by rewrite Ec). }
  destruct HR as (_ & Hl & _). destruct (find_leaf _ _ _ _ _ Hl Hloc) as (pg & n & p & [i ok] & E & Hd & Ef & Hf).
  pose proof (found_lookup _ _ _ _ _ _ _ Hl Hf) as Hm. cbn [get_loop]. rewrite (stM_Ret _ _ _ _ _ Ef). destruct ok.
  - destruct Hm as (a & v & b & Hits & -> & ->). rewrite Hits in Hd. unfold d_load, st_lift. rewrite (stM_Ret _ _ _ pg t) by (by rewrite E).
    by rewrite (stM_Ret _ _ _ (k, v) t) by (by rewrite (d_index pg a (k, v) b _ _ _ Hd)).
  - by rewrite Hm.
Qed.
End find.
