(* ===== verification/BTreeLeaves.v ===== *)
(** * Operations on the leaves of the B+tree

    What the operations on data pages do to the list of leaves: to its links
    and items ([linked]) and to the order of its marks. *)
From S2P Require Import Prelude ByteOrder BTreeSpec BTree BTreePages BTreeInv.

(** ** The order of the marks *)

Section marks.
Context {V : Type}.
Notation item := (bytes * V)%type.
Implicit Types (l : leaf V) (A B : list (leaf V)) (a b xs ys : list item) (k : bytes) (v : V) (lo : option bytes) (q : ptr).

Lemma marks_put A lo q a b B k v : sorted (marks (A ++ Leaf lo q (a ++ b) :: B)) →
  (∀ m, m ∈ marks A ++ [page_mark lo] → mark_lt m (item_mark k)) → (∀ it, it ∈ a → it.1 <b k) →
  (∀ it, it ∈ b → k <b it.1) → (∀ m, m ∈ marks B → mark_lt (item_mark k) m) → sorted (marks (A ++ Leaf lo q (a ++ (k, v) :: b) :: B)).
Proof.
  rewrite !marks_app, !marks_cons. cbn [lf_lo lf_its]. rewrite !item_marks_app, <- !app_assoc. change (item_marks ((k, v) :: b)) with (item_mark k :: item_marks b).
  assert (∀ M, marks A ++ page_mark lo :: item_marks a ++ M = ((marks A ++ [page_mark lo]) ++ item_marks a) ++ M) as Ea by (intros; by rewrite <- !app_assoc).
  rewrite !Ea. intros Hs HA Ha Hb HB. cbn [app].
  apply (sorted_insert mark_lt); [done| |].
  - intros m [Hm|(it & -> & Hit)%list_elem_of_fmap]%elem_of_app; [by apply HA|]. by apply item_mark_lt, Ha.
  - intros m [(it & -> & Hit)%list_elem_of_fmap|Hm]%elem_of_app; [by apply item_mark_lt, Hb|by apply HB].
Qed.

Lemma marks_merge A lo q a lo' q' b B q1 : sorted (marks (A ++ Leaf lo q a :: Leaf lo' q' b :: B)) → sorted (marks (A ++ Leaf lo q1 (a ++ b) :: B)).
Proof.
  apply sorted_sublist. rewrite !marks_app, !marks_cons. cbn [lf_lo lf_its]. rewrite item_marks_app, <- app_assoc.
  apply sublist_app; [done|]. apply sublist_skip, sublist_app; [done|]. by apply sublist_cons.
Qed.

Lemma marks_split A lo q xs y ys B q1 q2 : sorted (marks (A ++ Leaf lo q (xs ++ y :: ys) :: B)) → xs ≠ [] →
  sorted (marks (A ++ Leaf lo q1 xs :: Leaf (Some y.1) q2 (y :: ys) :: B)).
Proof.
  rewrite !marks_app, !marks_cons. cbn [lf_lo lf_its]. rewrite item_marks_app, <- app_assoc. intros Hs Hx.
  destruct xs as [|z xs _] using rev_ind; [done|]. set (P := marks A ++ page_mark lo :: item_marks xs).
  assert (∀ M, marks A ++ page_mark lo :: item_marks (xs ++ [z]) ++ M = (P ++ [item_mark z.1]) ++ M) as Ea
    by (intros; subst P; by rewrite item_marks_app, <- !app_assoc).
  rewrite Ea in *. change (item_marks (y :: ys)) with (item_mark y.1 :: item_marks ys) in *. cbn [app] in *.
  apply (sorted_app mark_lt) in Hs as (H1 & H2 & H3). apply (sorted_app mark_lt) in H1 as H1'. destruct H1' as (_ & _ & H0).
  assert (z.1 <b y.1) as Hzy by (apply item_mark_lt, H3; [apply elem_of_app; right; by left|by left]).
  apply (sorted_insert mark_lt); [by apply sorted_app| |].
  - intros m [Hm| ->%list_elem_of_singleton]%elem_of_app; [|by apply item_before_page].
    transitivity (item_mark z.1); [apply H0; [done|by left]|by apply item_before_page].
  - apply (sorted_cons mark_lt) in H2 as [_ H2]. assert (mark_lt (page_mark (Some y.1)) (item_mark y.1)) as Hy by (apply page_item_lt, bytes_le_refl).
    intros m [->|Hm]%elem_of_cons; [done|]. transitivity (item_mark y.1); [done|by apply H2].
Qed.

(** The border between two leaves moves. *)
Lemma marks_border A lo q a lo' q' b B xs y ys : sorted (marks (A ++ Leaf lo q a :: Leaf lo' q' b :: B)) → a ++ b = xs ++ y :: ys → xs ≠ [] →
  sorted (marks (A ++ Leaf lo q xs :: Leaf (Some y.1) q' (y :: ys) :: B)).
Proof. intros Hs E Hx. apply (marks_split A lo q xs y ys B q q'); [|done]. rewrite <- E. by eapply marks_merge. Qed.
Lemma marks_remove A lo q a e b B : sorted (marks (A ++ Leaf lo q (a ++ e :: b) :: B)) → sorted (marks (A ++ Leaf lo q (a ++ b) :: B)).
Proof.
  apply sorted_sublist. rewrite !marks_app, !marks_cons. cbn [lf_lo lf_its]. rewrite !item_marks_app, <- !app_assoc.
  apply sublist_app; [done|]. apply sublist_skip, sublist_app; [done|]. by apply sublist_cons.
Qed.
End marks.

(** ** Steps *)

Section steps.
Context {V : Type} (zv : V).
Implicit Types (t : BTree V) (pg : d_page V) (xp : x_page).

Lemma d_load_Ret t p pg : t_ds t !! p = Some pg → d_load p t = Ret (pg, t).
Proof. unfold d_load. by intros ->. Qed.
Lemma x_load_Ret t p xp : t_xs t !! p = Some xp → x_load p t = Ret (xp, t).
Proof. unfold x_load. by intros ->. Qed.
Lemma st_lift_Ret {A} (m : outcome A) t a : m = Ret a → st_lift m t = Ret (a, t).
Proof. unfold st_lift. by intros ->. Qed.
Lemma t_do_Ret t f : t_do f t = Ret (tt, f t).
Proof. done. Qed.
Lemma d_mod_Ret t p pg pg' f : t_ds t !! p = Some pg → f pg = Ret pg' → d_mod p f t = Ret (tt, set_ds t (<[p := pg']> (t_ds t))).
Proof. intros E Ef. unfold d_mod. rewrite (stM_Ret _ _ _ _ _ (d_load_Ret _ _ _ E)), (stM_Ret _ _ _ _ _ (st_lift_Ret _ _ _ Ef)). done. Qed.
Lemma x_mod_Ret t p xp xp' f : t_xs t !! p = Some xp → f xp = Ret xp' → x_mod p f t = Ret (tt, set_xs t (<[p := xp']> (t_xs t))).
Proof. intros E Ef. unfold x_mod. rewrite (stM_Ret _ _ _ _ _ (x_load_Ret _ _ _ E)), (stM_Ret _ _ _ _ _ (st_lift_Ret _ _ _ Ef)). done. Qed.
End steps.

(** Looks a page up among the ones just written; runs one step of a method,
    by a fact about it. *)
Ltac look := cbn; repeat (rewrite lookup_insert_eq || rewrite lookup_insert_ne by (done || congruence)); done.
Ltac run H := rewrite (stM_Ret _ _ _ _ _ H); cbn beta.

(** ** The list of leaves on the heap *)

Section linked.
Context {V : Type} (zv : V).
Notation item := (bytes * V)%type.
Implicit Types (t : BTree V) (l : leaf V) (A B LL : list (leaf V)) (a b xs ys : list item) (k : bytes) (v : V) (lo : option bytes) (q : ptr) (pg : d_page V).

Record linked t LL : Prop := {
  lk_chain : chain (t_ds t) None LL None;
  lk_nodup : NoDup (lf_q <$> LL);
  lk_first : t_first t = head_q LL None;
  lk_last : t_last t = last_q None LL
}.
Lemma leaves_linked t LL : leaves t LL → linked t LL.
Proof. intros []. by split. Qed.
Lemma linked_leaves t LL : linked t LL → t_c t = zlen (flat LL) → sorted (marks LL) → leaf_sizes LL → leaves t LL.
Proof. intros [] ? ? ?. by split. Qed.

(** What a step on data pages leaves alone; [n] items were added. *)
Record data_step (n : Z) t t' : Prop := {
  ds_count : t_c t' = t_c t + n;
  ds_root : t_r t' = t_r t;
  ds_xs : t_xs t' = t_xs t;
  ds_next : t_next t' = t_next t;
  ds_dom : dom (t_ds t') = dom (t_ds t)
}.
Lemma data_step_trans n m t t' t2 : data_step n t t' → data_step m t' t2 → data_step (n + m) t t2.
Proof. intros [] []. split; [lia|congruence..]. Qed.
Lemma data_step_fresh n t t' : data_step n t t' → fresh t → fresh t'.
Proof.
  intros [_ _ Hx Hn Hd] Hf a Ha. rewrite Hn in Ha. destruct (Hf a Ha) as [H1 H2]. rewrite Hx. split; [|done].
  apply not_elem_of_dom. rewrite Hd. by apply not_elem_of_dom.
Qed.

Lemma linked_get t A l B : linked t (A ++ l :: B) → ∃ pg, t_ds t !! lf_q l = Some pg ∧ d_has pg (lf_its l) (head_q B None) (last_q None A).
Proof. intros [Hc _ _ _]. by apply chain_app in Hc as [_ [H _]]. Qed.

Lemma addresses_eq (LL LM : list (leaf V)) : lf_q <$> LL = lf_q <$> LM → (∀ nxt, head_q LL nxt = head_q LM nxt) ∧ ∀ prev, last_q prev LL = last_q prev LM.
Proof.
  revert LM. induction LL as [|l LL IH]; intros [|m LM] E; try done. cbn in E. injection E as E1 E2. split; intros prev; cbn; [by rewrite E1|].
  rewrite E1. by apply IH.
Qed.

(** Writing to the page of a leaf *)
Lemma linked_put t A l B pg its lo : linked t (A ++ l :: B) → d_has pg its (head_q B None) (last_q None A) →
  linked (set_ds t (<[lf_q l := pg]> (t_ds t))) (A ++ Leaf lo (lf_q l) its :: B).
Proof.
  intros [Hc Hn Hf Hl] Hp.
  assert (lf_q <$> A ++ Leaf lo (lf_q l) its :: B = lf_q <$> A ++ l :: B) as Ea by (by rewrite !fmap_app).
  destruct (addresses_eq _ _ Ea) as [Eh El]. split; cbn; [|by rewrite Ea|by rewrite Eh|by rewrite El].
  apply chain_app in Hc as [HA [_ HB]]. rewrite fmap_app in Hn. apply NoDup_app in Hn as (_ & Hnd & Hn). cbn in Hn. apply NoDup_cons in Hn as [Hn _].
  apply chain_app. cbn. split; [|split].
  - eapply chain_frame; [|exact HA]. intros l' Hl'. apply lookup_insert_ne. intros E. apply (Hnd (lf_q l')); [apply list_elem_of_fmap; by exists l'|].
    cbn. rewrite E. by left.
  - exists pg. by rewrite lookup_insert_eq.
  - eapply chain_frame; [|exact HB]. intros l' Hl'. apply lookup_insert_ne. intros E. apply Hn. rewrite E. apply list_elem_of_fmap. by exists l'.
Qed.
Lemma linked_relabel t A lo q its lo' B : linked t (A ++ Leaf lo q its :: B) → linked t (A ++ Leaf lo' q its :: B).
Proof.
  intros [Hc Hn Hf Hl]. assert (lf_q <$> A ++ Leaf lo' q its :: B = lf_q <$> A ++ Leaf lo q its :: B) as Ea by (by rewrite !fmap_app).
  destruct (addresses_eq _ _ Ea) as [Eh El]. split; cbn; [|by rewrite Ea|by rewrite Eh|by rewrite El].
  apply chain_app in Hc as [HA HB]. apply chain_app. by split.
Qed.
Lemma data_step_put t q pg pg' : t_ds t !! q = Some pg → data_step 0 t (set_ds t (<[q := pg']> (t_ds t))).
Proof. intros E. split; cbn; try done; [lia|]. rewrite dom_insert_L. apply elem_of_dom_2 in E. set_solver. Qed.
Lemma linked_ne t A l r B : linked t (A ++ l :: r :: B) → lf_q l ≠ lf_q r.
Proof.
  intros [_ Hn _ _]. rewrite fmap_app in Hn. apply NoDup_app in Hn as (_ & _ & Hn). cbn in Hn. apply NoDup_cons in Hn as [Hn _].
  intros E. apply Hn. rewrite E. by left.
Qed.

(** ** One page *)

Lemma t_insert_ok t A lo q a b B i k v : linked t (A ++ Leaf lo q (a ++ b) :: B) → i = zlen a → zlen (a ++ b) ≤ 2 * kd →
  ∃ t', t_insert q i k v t = Ret (tt, t') ∧ linked t' (A ++ Leaf lo q (a ++ (k, v) :: b) :: B) ∧ data_step 1 t t'.
Proof.
  intros Hl Hi Hlen. destruct (linked_get _ _ _ _ Hl) as (pg & E & Hp). cbn in *. destruct (d_insert_ok pg a b _ _ i k v Hp Hi Hlen) as (pg' & Ei & Hp').
  eexists. split; [|split].
  - unfold t_insert. run (t_do_Ret t incr_ver). run (d_mod_Ret (incr_ver t) q pg pg' (λ pg, d_insert pg i k v) E Ei). apply t_do_Ret.
  - pose proof (linked_put _ _ _ _ _ _ lo Hl Hp') as [? ? ? ?]. by split.
  - destruct (data_step_put _ _ _ pg' E) as [? ? ? ? Hd]. split; cbn; try done.
Qed.
Lemma t_extract_ok t A lo q a e b B i : linked t (A ++ Leaf lo q (a ++ e :: b) :: B) → i = zlen a →
  ∃ t', t_extract zv q i t = Ret (tt, t') ∧ linked t' (A ++ Leaf lo q (a ++ b) :: B) ∧ data_step (-1) t t'.
Proof.
  intros Hl Hi. destruct (linked_get _ _ _ _ Hl) as (pg & E & Hp). cbn in *. destruct (d_extract_ok zv pg a e b _ _ i Hp Hi) as (pg' & Ei & Hp').
  eexists. split; [|split].
  - unfold t_extract. run (t_do_Ret t incr_ver). run (d_mod_Ret (incr_ver t) q pg pg' (λ pg, d_extract zv pg i) E Ei). apply t_do_Ret.
  - pose proof (linked_put _ _ _ _ _ _ lo Hl Hp') as [? ? ? ?]. by split.
  - destruct (data_step_put _ _ _ pg' E) as [? ? ? ? Hd]. split; cbn; done.
Qed.
Lemma first_key_ok t A lo q e b B : linked t (A ++ Leaf lo q (e :: b) :: B) → first_key q t = Ret (e.1, t).
Proof.
  intros Hl. destruct (linked_get _ _ _ _ Hl) as (pg & E & Hp). cbn in *. unfold first_key. run (d_load_Ret _ _ _ E).
  by run (st_lift_Ret _ t _ (d_index pg [] e b _ _ 0 Hp eq_refl)).
Qed.

(** ** Two pages *)

Lemma two_writes (ds : gmap ptr (d_page V)) (l r : ptr) lp1 lp2 rp1 rp2 : l ≠ r →
  <[r := rp2]> (<[l := lp2]> (<[r := rp1]> (<[l := lp1]> ds))) = <[r := rp2]> (<[l := lp2]> ds).
Proof. intros H. rewrite (insert_insert_ne _ l r) by done. by rewrite !insert_insert_eq. Qed.

(** Both pages of a pair of neighbours are written. *)
Lemma linked_put2 t A lo (l : ptr) il lo' (r : ptr) ir B lp rp il' ir' lo1 lo2 : linked t (A ++ Leaf lo l il :: Leaf lo' r ir :: B) →
  d_has lp il' (Some r) (last_q None A) → d_has rp ir' (head_q B None) (Some l) →
  linked (set_ds t (<[r := rp]> (<[l := lp]> (t_ds t)))) (A ++ Leaf lo1 l il' :: Leaf lo2 r ir' :: B) ∧
  data_step 0 t (set_ds t (<[r := rp]> (<[l := lp]> (t_ds t)))).
Proof.
  intros Hl Hlp Hrp. pose proof (linked_put _ _ _ _ lp il' lo1 Hl Hlp) as H1. cbn in H1. rewrite cons_middle, app_assoc in H1. split.
  - rewrite (cons_middle (Leaf lo1 l il')), app_assoc. apply (linked_put _ _ _ _ rp ir' lo2 H1). by rewrite last_q_app.
  - destruct (linked_get _ _ _ _ Hl) as (lp0 & El & _). destruct (linked_get _ _ _ _ H1) as (rp0 & Er & _).
    eapply (data_step_trans 0 0); [by eapply (data_step_put t)|]. by eapply (data_step_put (set_ds t _)).
Qed.

Lemma mvL_ok t A lo (l : ptr) il lo' (r : ptr) ia ib B c lo2 : linked t (A ++ Leaf lo l il :: Leaf lo' r (ia ++ ib) :: B) → c = zlen ia → zlen il + c ≤ 2 * kd + 1 →
  ∃ t', mvL l r c t = Ret (tt, t') ∧ linked t' (A ++ Leaf lo l (il ++ ia) :: Leaf lo2 r ib :: B) ∧ data_step 0 t t'.
Proof.
  intros Hl -> Hn. pose proof (linked_ne _ _ _ _ _ Hl) as Hne. cbn in Hne.
  destruct (linked_get _ _ _ _ Hl) as (lp & El & Hln & Hlp & Hlc & Hll & jl & Hld). pose proof Hl as Hl'. rewrite cons_middle, app_assoc in Hl'.
  destruct (linked_get _ _ _ _ Hl') as (rp & Er & Hrn & Hrp & Hrc & Hrl & jr & Hrd). rewrite last_q_app in Hrp. cbn in *. clear Hl'.
  rewrite Hld in Hll. rewrite Hrd in Hrl. rewrite <- app_assoc in Hrd.
  destruct (split_at jl (zlen ia)) as (j1 & j2 & -> & Hj1); [zlen|].
  destruct (split_at (ia ++ ib) (zlen ib)) as (r1 & r2 & Hr12 & Hr1); [zlen|].
  set (lp1 := set_dd lp (il ++ ia ++ j2)). set (rp1 := set_dd rp (ib ++ r2 ++ jr)). set (lp2 := set_dc lp1 (d_c lp + zlen ia)). set (rp2 := set_dc rp1 (d_c rp - zlen ia)).
  destruct (linked_put2 _ _ _ _ _ _ _ _ _ lp2 rp2 (il ++ ia) ib lo lo2 Hl) as [H1 H2].
  { split_and!; cbn; [done|done|rewrite Hlc; zlen|zlen|]. exists j2. by rewrite <- app_assoc. }
  { split_and!; cbn; [done|done|rewrite Hrc; zlen| |by eexists]. apply (f_equal zlen) in Hr12. zlen. }
  eexists. split; [|split; [exact H1|exact H2]]. unfold mvL.
  run (d_load_Ret _ _ _ Er). assert (slice (d_d rp) 0 (zlen ia) = Ret ia) as Es by (rewrite Hrd; by apply slice_start). run (st_lift_Ret _ t _ Es).
  erewrite stM_Ret; [|apply (d_mod_Ret _ _ lp lp1); [done|by rewrite (copy_from_app _ il j1 j2)]].
  erewrite stM_Ret; [|apply (d_mod_Ret _ _ rp rp1); [look|]].
  2:{ rewrite Hrd, Hrc, slice_mid by zlen. cbn. rewrite (copy_from_app _ [] r1 (r2 ++ jr)); [done| |done|done]. by rewrite app_assoc, Hr12, <- app_assoc. }
  erewrite stM_Ret; [|apply (d_mod_Ret _ _ lp1 lp2); [look|done]].
  erewrite (d_mod_Ret _ _ rp1 rp2); [|look|done].
  cbn. do 2 f_equal. unfold set_ds. cbn. by rewrite two_writes.
Qed.

Lemma mvR_ok t A lo (l : ptr) ia ib lo' (r : ptr) ir B c lo2 : linked t (A ++ Leaf lo l (ia ++ ib) :: Leaf lo' r ir :: B) → c = zlen ib → zlen ir + c ≤ 2 * kd + 1 →
  ∃ t', mvR l r c t = Ret (tt, t') ∧ linked t' (A ++ Leaf lo l ia :: Leaf lo2 r (ib ++ ir) :: B) ∧ data_step 0 t t'.
Proof.
  intros Hl -> Hn. pose proof (linked_ne _ _ _ _ _ Hl) as Hne. cbn in Hne.
  destruct (linked_get _ _ _ _ Hl) as (lp & El & Hln & Hlp & Hlc & Hll & jl & Hld). pose proof Hl as Hl'. rewrite cons_middle, app_assoc in Hl'.
  destruct (linked_get _ _ _ _ Hl') as (rp & Er & Hrn & Hrp & Hrc & Hrl & jr & Hrd). rewrite last_q_app in Hrp. cbn in *. clear Hl'.
  rewrite Hld in Hll. rewrite <- app_assoc in Hld.
  destruct (split_at (ir ++ jr) (zlen ib)) as (x & yz & Hx & Hlx); [rewrite <- Hrd; pose proof (zlen_nonneg ir); zlen|].
  destruct (split_at yz (zlen ir)) as (y & z & -> & Hly); [rewrite Hrd, Hx in Hrl; zlen|]. rewrite Hx in Hrd.
  set (rp1 := set_dd rp (x ++ ir ++ z)). set (rp2 := set_dd rp1 (ib ++ ir ++ z)). set (rp3 := set_dc rp2 (d_c rp + zlen ib)). set (lp1 := set_dc lp (d_c lp - zlen ib)).
  destruct (linked_put2 _ _ _ _ _ _ _ _ _ lp1 rp3 ia (ib ++ ir) lo lo2 Hl) as [H1 H2].
  { split_and!; cbn; [done|done|rewrite Hlc; zlen|rewrite Hld; zlen|]. exists (ib ++ jl). by rewrite Hld. }
  { split_and!; cbn; [done|done|rewrite Hrc; zlen|rewrite Hrd in Hrl; zlen|]. exists z. by rewrite <- app_assoc. }
  eexists. split; [|split; [exact H1|exact H2]]. unfold mvR.
  erewrite stM_Ret; [|apply (d_mod_Ret _ _ rp rp1); [done|]].
  2:{ rewrite Hrc. replace (slice (d_d rp) 0 (zlen ir)) with (Ret ir) by (symmetry; rewrite Hrd, <- Hx; by apply slice_start). cbn. by rewrite (copy_from_app _ x y z). }
  erewrite stM_Ret; [|apply (d_load_Ret _ _ lp); by cbn; rewrite lookup_insert_ne].
  assert (slice (d_d lp) (d_c lp - zlen ib) (zlen (d_d lp)) = Ret (ib ++ jl)) as Es by (rewrite Hlc, Hld; apply slice_end; zlen).
  erewrite stM_Ret; [|apply (st_lift_Ret _ _ _ Es)].
  erewrite stM_Ret; [|apply (d_mod_Ret _ _ rp1 rp2); [look|]].
  2:{ cbn [d_d rp1 set_dd]. by rewrite (copy_to_cut _ [] x (ir ++ z) ib jl). }
  erewrite stM_Ret; [|apply (d_mod_Ret _ _ rp2 rp3); [look|done]].
  erewrite (d_mod_Ret _ _ lp lp1); [|look|done].
  cbn. do 2 f_equal. unfold set_ds. cbn. rewrite !insert_insert_eq. by rewrite insert_insert_ne.
Qed.

(** ** Pages that enter and leave the list *)

Lemma chain_addr ds prev LL nxt p pg : chain ds prev LL nxt → p ∉ lf_q <$> LL → chain (<[p := pg]> ds) prev LL nxt.
Proof.
  intros Hc Hp. eapply chain_frame; [|exact Hc]. intros l Hl. apply lookup_insert_ne. intros ->. apply Hp, list_elem_of_fmap. by exists l.
Qed.
(** The neighbour behind a place gets a new predecessor. *)
Lemma chain_prev ds prev prev' l LL nxt pg : chain ds prev (l :: LL) nxt → ds !! lf_q l = Some pg → lf_q l ∉ lf_q <$> LL →
  chain (<[lf_q l := set_dp pg prev']> ds) prev' (l :: LL) nxt.
Proof.
  intros [(pg' & E & Hp) Hc] E' Hn. cbn. split; [|by apply chain_addr]. assert (pg' = pg) as -> by congruence.
  eexists. rewrite lookup_insert_eq. split; [done|]. by eapply d_has_p.
Qed.

Lemma linked_fresh t LL (p : ptr) : linked t LL → t_ds t !! p = None → p ∉ lf_q <$> LL.
Proof.
  intros [Hc _ _ _] E (l & -> & Hl)%list_elem_of_fmap. destruct (chain_lookup _ _ _ _ _ Hc Hl) as (pg & n & p' & E' & _). congruence.
Qed.

Definition grow t t' : Prop :=
  t_c t' = t_c t ∧ t_r t' = t_r t ∧ t_xs t' = t_xs t ∧ t_next t' = Pos.succ (t_next t) ∧ dom (t_ds t') = {[t_next t]} ∪ dom (t_ds t).
Lemma grow_fresh t t' : grow t t' → fresh t → fresh t'.
Proof.
  intros (_ & _ & Hx & Hn & Hd) Hf a Ha. rewrite Hn in Ha. destruct (Hf a) as [H1 H2]; [lia|]. rewrite Hx. split; [|done].
  apply not_elem_of_dom. rewrite Hd. apply not_elem_of_dom in H1. assert (a ≠ t_next t) by lia. set_solver.
Qed.

Lemma link_new_ok t A lo q its B lo' : fresh t → linked t (A ++ Leaf lo q its :: B) →
  ∃ t', link_new zv q t = Ret (t_next t, t') ∧ linked t' (A ++ Leaf lo q its :: Leaf lo' (t_next t) [] :: B) ∧ grow t t'.
Proof.
  intros Hf Hl. pose proof (linked_fresh t _ (t_next t) Hl (proj1 (Hf (t_next t) ltac:(lia)))) as Hr.
  destruct (linked_get _ _ _ _ Hl) as (qp & Eq & Hqp). cbn in Eq, Hqp. pose proof Hqp as (Hqn & _). set (r := t_next t) in *.
  rewrite fmap_app, fmap_cons in Hr. cbn in Hr. apply not_elem_of_app in Hr as [HrA [Hrq HrB]%not_elem_of_cons].
  destruct Hl as [Hc Hnd Hfi Hla]. apply chain_app in Hc as [HA [_ HB]]. cbn in HB. pose proof Hnd as Hnd'. rewrite fmap_app, fmap_cons in Hnd'. cbn in Hnd'.
  apply NoDup_app in Hnd' as (_ & HAB & Hnd'). apply NoDup_cons in Hnd' as [HqB HndB].
  assert (q ∉ lf_q <$> A) as HqA by (intros H; apply (HAB _ H); by left).
  set (qp' := set_dn qp (Some r)). set (rp' := set_dp (set_dn (zd zv) (head_q B None)) (Some q)).
  assert (∃ t', link_new zv q t = Ret (r, t') ∧ grow t t' ∧ t_first t' = t_first t ∧ t_last t' = last_q (Some r) B ∧
    t_ds t' !! q = Some qp' ∧ t_ds t' !! r = Some rp' ∧ chain (t_ds t') None A (Some q) ∧ chain (t_ds t') (Some r) B None) as (t' & E & Hg & Hfi' & Hla' & Eq' & Er' & HA' & HB').
  2:{ exists t'. split; [done|]. split; [|done]. split.
      - apply chain_app. cbn. split; [done|]. split; [|split; [|done]].
        + exists qp'. split; [done|]. by eapply d_has_n.
        + exists rp'. split; [done|]. split_and!; try done. by eexists.
      - rewrite fmap_app, !fmap_cons. cbn. apply NoDup_app. rewrite fmap_app, fmap_cons in Hnd. apply NoDup_app in Hnd as (? & ? & ?). split_and!; [done| |].
        + intros a Ha. specialize (HAB a Ha). apply not_elem_of_cons in HAB as [? ?]. rewrite !not_elem_of_cons. split_and!; [done| |done]. intros ->. done.
        + rewrite !NoDup_cons, not_elem_of_cons. by split_and!.
      - rewrite Hfi', Hfi, !head_q_app. done.
      - rewrite Hla', last_q_app. done. }
  unfold link_new. rewrite (stM_Ret _ _ _ r _ eq_refl). cbn beta. set (t1 := mkBTree _ _ _ _ _ _ _ _).
  assert (t_ds t1 !! q = Some qp) as Eq1 by (cbn; by rewrite lookup_insert_ne). run (d_load_Ret _ _ _ Eq1). rewrite Hqn.
  destruct B as [|lb B]; cbn [head_q].
  - erewrite stM_Ret; [|apply t_do_Ret]. erewrite stM_Ret; [|by apply (d_mod_Ret _ _ qp qp')].
    erewrite stM_Ret; [|apply (d_mod_Ret _ _ (zd zv) rp'); [look|done]].
    eexists. split; [reflexivity|]. cbn. split_and!; try done.
    + split_and!; cbn; try done. rewrite !dom_insert_L. apply elem_of_dom_2 in Eq. clear -Eq. set_solver.
    + look.
    + look.
    + by repeat apply chain_addr.
  - destruct HB as [(bp & Eb & Hb) HB]. cbn in HrB, HqB, HndB. apply not_elem_of_cons in HrB as [Hrb HrB]. apply not_elem_of_cons in HqB as [Hqb HqB]. apply NoDup_cons in HndB as [Hbb _].
    assert (lf_q lb ∉ lf_q <$> A) as HbA by (intros H; apply (HAB _ H); right; by left).
    erewrite stM_Ret; [|erewrite stM_Ret; [|apply (d_mod_Ret _ _ (zd zv) (set_dn (zd zv) (Some (lf_q lb)))); [look|done]];
      apply (d_mod_Ret _ _ bp (set_dp bp (Some r))); [look|done]].
    erewrite stM_Ret; [|apply (d_mod_Ret _ _ qp qp'); [look|done]].
    erewrite stM_Ret; [|apply (d_mod_Ret _ _ (set_dn (zd zv) (Some (lf_q lb))) rp'); [look|done]].
    eexists. split; [reflexivity|]. cbn. split_and!; try done.
    + split_and!; cbn; try done. rewrite !dom_insert_L. apply elem_of_dom_2 in Eq, Eb. clear -Eq Eb. set_solver.
    + rewrite Hla, last_q_app. done.
    + look.
    + look.
    + by repeat apply chain_addr.
    + exists (set_dp bp (Some r)). rewrite !lookup_insert_ne, lookup_insert_eq by done. split; [done|]. by eapply d_has_p.
    + by repeat apply chain_addr.
Qed.

Lemma halve_ok t A lo q xs ys lo' r B lo2 : linked t (A ++ Leaf lo q (xs ++ ys) :: Leaf lo' r [] :: B) → zlen xs = kd → zlen ys = kd →
  ∃ t', halve zv q r t = Ret (tt, t') ∧ linked t' (A ++ Leaf lo q xs :: Leaf lo2 r ys :: B) ∧ data_step 0 t t'.
Proof.
  intros Hl Hx Hy. pose proof (linked_ne _ _ _ _ _ Hl) as Hne. cbn in Hne.
  destruct (linked_get _ _ _ _ Hl) as (qp & Eq & Hqn & Hqp & Hqc & Hql & jq & Hqd). pose proof Hl as Hl'. rewrite cons_middle, app_assoc in Hl'.
  destruct (linked_get _ _ _ _ Hl') as (rp & Er & Hrn & Hrp & Hrc & Hrl & jr & Hrd). rewrite last_q_app in Hrp. cbn in *. clear Hl'.
  rewrite Hqd in Hql. rewrite <- app_assoc in Hqd. rewrite Hrd in Hrl.
  destruct (split_at jr (zlen ys)) as (j1 & j2 & -> & Hj1); [unfold kd in *; zlen|].
  set (rp1 := set_dd rp (ys ++ j2)). set (rp2 := set_dc rp1 kd).
  set (qd := splice (d_d qp) (Z.to_nat kd) (replicate (length (d_d qp) - Z.to_nat kd) (zde zv))). set (qp1 := set_dd qp qd). set (qp2 := set_dc qp1 kd).
  assert (qd = xs ++ replicate (length (ys ++ jq)) (zde zv)) as Hqd'.
  { subst qd. rewrite Hqd. replace (Z.to_nat kd) with (length xs + 0)%nat by (unfold zlen in Hx; lia). rewrite splice_app_r, length_app.
    replace (length xs + length (ys ++ jq) - (length xs + 0))%nat with (length (ys ++ jq)) by lia. unfold splice. cbn [take app].
    rewrite drop_ge by (rewrite length_replicate; lia). by rewrite take_0, app_nil_r. }
  destruct (linked_put2 _ _ _ _ _ _ _ _ _ qp2 rp2 xs ys lo lo2 Hl) as [H1 H2].
  { split_and!; cbn; [done|done|done| |by eexists]. rewrite Hqd'. rewrite zlen_app, zlen_replicate. unfold zlen in *. rewrite !length_app in *. lia. }
  { split_and!; cbn; [done|done|done|zlen|by eexists]. }
  eexists. split; [|split; [exact H1|exact H2]]. unfold halve. run (d_load_Ret _ _ _ Eq).
  assert (slice (d_d qp) kd (2 * kd) = Ret ys) as Es by (rewrite Hqd; apply slice_mid; unfold kd in *; lia). run (st_lift_Ret _ t _ Es).
  erewrite stM_Ret; [|apply (d_mod_Ret _ _ rp rp1); [done|by rewrite (copy_from_app _ [] j1 j2)]].
  erewrite stM_Ret; [|apply (d_mod_Ret _ _ qp qp1); [look|done]].
  erewrite stM_Ret; [|apply (d_mod_Ret _ _ qp1 qp2); [look|done]].
  erewrite (d_mod_Ret _ _ rp1 rp2); [|look|done].
  cbn. do 2 f_equal. unfold set_ds. cbn. rewrite insert_insert_eq. rewrite (insert_insert_ne _ q r) by done. by rewrite insert_insert_eq.
Qed.

Lemma unlink_ok t A lo q its lo' r ir B : linked t (A ++ Leaf lo q its :: Leaf lo' r ir :: B) →
  ∃ t', unlink zv q r t = Ret (tt, t') ∧ linked t' (A ++ Leaf lo q its :: B) ∧ data_step 0 t t'.
Proof.
  intros Hl. pose proof (linked_ne _ _ _ _ _ Hl) as Hne. cbn in Hne.
  destruct (linked_get _ _ _ _ Hl) as (qp & Eq & Hqp). pose proof Hl as Hl'. rewrite cons_middle, app_assoc in Hl'.
  destruct (linked_get _ _ _ _ Hl') as (rp & Er & Hrp). rewrite last_q_app in Hrp. cbn in *. clear Hl'. pose proof Hrp as (Hrn & _).
  destruct Hl as [Hc Hnd Hfi Hla]. apply chain_app in Hc as [HA [_ [_ HB]]]. cbn in HB. pose proof Hnd as Hnd'. rewrite fmap_app, !fmap_cons in Hnd'. cbn in Hnd'.
  apply NoDup_app in Hnd' as (HndA & HAB & Hnd'). apply NoDup_cons in Hnd' as [HqB HndB]. apply NoDup_cons in HndB as [HrB HndB]. apply not_elem_of_cons in HqB as [_ HqB].
  assert (q ∉ lf_q <$> A) as HqA by (intros H; apply (HAB _ H); by left). assert (r ∉ lf_q <$> A) as HrA by (intros H; apply (HAB _ H); right; by left).
  set (qp' := set_dn qp (head_q B None)).
  assert (∃ t', unlink zv q r t = Ret (tt, t') ∧ data_step 0 t t' ∧ t_first t' = t_first t ∧ t_last t' = last_q (Some q) B ∧
    t_ds t' !! q = Some qp' ∧ chain (t_ds t') None A (Some q) ∧ chain (t_ds t') (Some q) B None) as (t' & E & Hg & Hfi' & Hla' & Eq' & HA' & HB').
  2:{ exists t'. split; [done|]. split; [|done]. split.
      - apply chain_app. cbn. split; [done|]. split; [|done]. exists qp'. split; [done|]. by eapply d_has_n.
      - rewrite fmap_app, fmap_cons. cbn. apply NoDup_app. split_and!; [done| |by apply NoDup_cons].
        intros a Ha. specialize (HAB a Ha). rewrite !not_elem_of_cons in HAB. rewrite not_elem_of_cons. tauto.
      - rewrite Hfi', Hfi, !head_q_app. done.
      - rewrite Hla', last_q_app. done. }
  unfold unlink. run (d_load_Ret _ _ _ Er). rewrite Hrn. apply elem_of_dom_2 in Eq as Dq. apply elem_of_dom_2 in Er as Dr. destruct B as [|lb B]; cbn [head_q].
  - erewrite stM_Ret; [|apply t_do_Ret]. erewrite stM_Ret; [|by apply (d_mod_Ret _ _ qp qp')]. unfold d_store. eexists. split; [reflexivity|]. cbn. split_and!; try done.
    + split; cbn; try done; [lia|]. rewrite !dom_insert_L. set_solver.
    + look.
    + by repeat apply chain_addr.
  - destruct HB as [(bp & Eb & Hb) HB]. cbn in HrB, HqB, HndB. apply not_elem_of_cons in HrB as [Hrb HrB]. apply not_elem_of_cons in HqB as [Hqb HqB]. apply NoDup_cons in HndB as [Hbb _].
    assert (lf_q lb ∉ lf_q <$> A) as HbA by (intros H; apply (HAB _ H); do 2 right; by left). apply elem_of_dom_2 in Eb as Db.
    erewrite stM_Ret; [|apply (d_mod_Ret _ _ bp (set_dp bp (Some q))); done]. erewrite stM_Ret; [|apply (d_mod_Ret _ _ qp qp'); [look|done]].
    unfold d_store. eexists. split; [reflexivity|]. cbn. split_and!; try done.
    + split; cbn; try done; [lia|]. rewrite !dom_insert_L. set_solver.
    + rewrite Hla, last_q_app. done.
    + look.
    + by repeat apply chain_addr.
    + exists (set_dp bp (Some q)). rewrite !lookup_insert_ne, lookup_insert_eq by done. split; [done|]. by eapply d_has_p.
    + by repeat apply chain_addr.
Qed.
End linked.
