(* ===== verification/BTreeSet.v ===== *)
(** * Setting keys in the B+tree

    [Set] and [Put] insert into the leaf a key belongs to; a full leaf gives an
    item to a neighbour or is split, and a full index page is split on the way
    down. *)
From S2P Require Import Prelude ByteOrder BTreeSpec BTree BTreePages BTreeInv BTreeFind BTreeLeaves.

Section set.
Context {V : Type} (zv : V).
Notation item := (bytes * V)%type.
Implicit Types (t : BTree V) (L A B LL : list (leaf V)) (a b xs ys : list item) (k : bytes) (v : V) (lo : option bytes) (q p : ptr) (xp : x_page) (R : row).

(** ** Neighbours *)

Lemma siblings_ok xp lo L1 l L2 : x_has xp lo (leaf_row (L1 ++ l :: L2)) → x_siblings xp (zlen L1) = Ret (lf_q <$> last L1, lf_q <$> head L2).
Proof.
  intros Hx. unfold x_siblings, left_child, right_child. pose proof (x_has_c _ _ _ Hx) as Hc. rewrite leaf_row_app in *. cbn in Hx, Hc.
  assert (∀ M : list (leaf V), zlen (leaf_row M) = zlen M) as Hlen by (intros; unfold zlen, leaf_row; by rewrite length_fmap).
  assert ((if 0 <? zlen L1 then c ← get_ch xp (zlen L1 - 1); l ← d_of c; mret (Some l) else mret None) = Ret (lf_q <$> last L1)) as ->.
  { destruct L1 as [|l1 L1 _] using rev_ind; [done|]. rewrite last_snoc. rewrite (proj2 (Z.ltb_lt _ _)) by zlen.
    rewrite leaf_row_app, <- app_assoc in Hx. cbn in Hx. by rewrite (x_get_ch _ _ _ _ _ _ Hx) by (rewrite Hlen; zlen). }
  cbn [mbind outcome_bind]. assert ((if (0 <=? zlen L1) && (zlen L1 <? x_c xp) then c ← get_ch xp (zlen L1 + 1); r ← d_of c; mret (Some r) else mret None) = Ret (lf_q <$> head L2)) as ->; [|done].
  rewrite (proj2 (Z.leb_le 0 _)) by zlen. cbn [andb]. rewrite Hc, zlen_app, zlen_cons, Hlen. destruct L2 as [|l2 L2]; cbn.
  - by rewrite (proj2 (Z.ltb_ge _ _)) by zlen.
  - rewrite (proj2 (Z.ltb_lt _ _)) by zlen. cbn in Hx. rewrite cons_middle, app_assoc in Hx. by rewrite (x_get_ch _ _ _ _ _ _ Hx) by (rewrite zlen_app, Hlen; zlen).
Qed.
Lemma d_test_ok t A l B f : linked t (A ++ l :: B) → d_test (Some (lf_q l)) f t = Ret (f (zlen (lf_its l)), t).
Proof.
  intros Hl. destruct (linked_get _ _ _ _ Hl) as (pg & E & _ & _ & Hc & _). unfold d_test. run (d_load_Ret _ _ _ E). by rewrite Hc.
Qed.

(** ** One leaf and its neighbours *)

(** An index page was written; the rest of the index is as before. *)
Definition kept t t' p xp : Prop := t_xs t' = <[p := xp]> (t_xs t) ∧ t_r t' = t_r t ∧ (fresh t → fresh t').

Lemma linked_ver t LL : linked t LL → linked (incr_ver t) LL.
Proof. intros []. by split. Qed.
Lemma linked_xs t LL (xp : gmap ptr x_page) : linked t LL → linked (set_xs t xp) LL.
Proof. intros []. by split. Qed.
Lemma fresh_put t p xp xp0 : fresh t → t_xs t !! p = Some xp0 → fresh (set_xs t (<[p := xp]> (t_xs t))).
Proof. intros Hf E a Ha. destruct (Hf a Ha) as [H1 H2]. cbn. split; [done|]. rewrite lookup_insert_ne; [done|intros ->; congruence]. Qed.
Lemma kept_put n t t1 p xp xp0 : t_xs t !! p = Some xp0 → data_step n t t1 → kept t (set_xs t1 (<[p := xp]> (t_xs t1))) p xp.
Proof.
  intros E H. pose proof (data_step_fresh _ _ _ H) as Hf. destruct H as [_ Hr Hx _ _]. split_and!; cbn; [by rewrite Hx|done|].
  intros Hfr. apply (fresh_put _ _ _ xp0); [by apply Hf|by rewrite Hx].
Qed.

Lemma insert_leaf_ok t A lo q a b B i k v : leaves t (A ++ Leaf lo q (a ++ b) :: B) → sorted (marks (A ++ Leaf lo q (a ++ (k, v) :: b) :: B)) →
  i = zlen a → zlen (a ++ b) < 2 * kd →
  ∃ t', t_insert q i k v t = Ret (tt, t') ∧ leaves t' (A ++ Leaf lo q (a ++ (k, v) :: b) :: B) ∧ data_step 1 t t'.
Proof.
  intros Hl Hs Hi Hn. destruct (t_insert_ok t A lo q a b B i k v (leaves_linked _ _ Hl) Hi) as (t' & E & Hk & Hd); [lia|].
  exists t'. split; [done|]. split; [|done]. apply linked_leaves; [done| |done|].
  - rewrite (ds_count _ _ _ Hd), (lv_count _ _ Hl), !flat_app, !flat_cons. cbn. zlen.
  - eapply sizes_grow; [apply (lv_sizes _ _ Hl)|]. cbn. zlen.
Qed.

Lemma two_full t A l1 l2 B : leaves t (A ++ l1 :: l2 :: B) → leaf_full l1 ∧ leaf_full l2.
Proof.
  intros Hl. pose proof (sizes_many _ (lv_sizes _ _ Hl)) as H. pose proof (zlen_nonneg A). pose proof (zlen_nonneg B).
  split; apply H; [zlen|set_solver|zlen|set_solver].
Qed.

Lemma overflow_left t A lol l il loq q e a b B p xp lo R1 R2 pi i k v : leaves t (A ++ Leaf lol l il :: Leaf loq q ((e :: a) ++ b) :: B) →
  sorted (marks (A ++ Leaf lol l il :: Leaf loq q ((e :: a) ++ (k, v) :: b) :: B)) →
  t_xs t !! p = Some xp → x_has xp lo (R1 ++ (loq, DPage q) :: R2) → pi = zlen R1 → 1 ≤ pi → i = zlen (e :: a) → zlen il < 2 * kd →
  ∃ t' k0 xp', (_ ← mvL l q 1; _ ← t_insert q (i - 1) k v; k0 ← first_key q; x_mod p (λ pp, set_k pp (pi - 1) k0)) t = Ret (tt, t') ∧
    leaves t' (A ++ Leaf lol l (il ++ [e]) :: Leaf (Some k0) q (a ++ (k, v) :: b) :: B) ∧ kept t t' p xp' ∧ x_has xp' lo (R1 ++ (Some k0, DPage q) :: R2).
Proof.
  intros Hl Hs Ep Hx -> Hpi -> Hil. destruct (two_full _ _ _ _ _ Hl) as [Hfl Hn]. unfold leaf_full in Hfl, Hn. cbn [lf_its] in Hfl, Hn.
  destruct (mvL_ok t A lol l il loq q [e] (a ++ b) B 1 loq (leaves_linked _ _ Hl)) as (t1 & E1 & K1 & D1); [done|zlen|].
  rewrite cons_middle, app_assoc in K1. destruct (t_insert_ok t1 _ loq q a b B (zlen (e :: a) - 1) k v K1) as (t2 & E2 & K2 & D2); [zlen|zlen|].
  pose proof (data_step_trans _ _ _ _ _ D1 D2) as D.
  destruct (list_cons (a ++ (k, v) :: b)) as (e0 & its & Hits); [zlen|]. rewrite Hits in K2. pose proof (f_equal zlen Hits) as Hlen.
  destruct (x_set_k xp lo R1 loq (DPage q) R2 (zlen R1 - 1) e0.1 Hx) as (xp' & Ek & Hx'); [lia|lia|].
  eexists _, e0.1, xp'. split; [|split; [|split; [by eapply kept_put|done]]].
  - run E1. run E2. run (first_key_ok _ _ _ _ _ _ _ K2). apply (x_mod_Ret t2 p xp xp'); [by rewrite (ds_xs _ _ _ D)|done].
  - rewrite Hits. rewrite (cons_middle (Leaf lol l _)), app_assoc. apply linked_leaves; [by apply linked_xs, (linked_relabel t2 _ loq)| | |].
    + cbn. rewrite (ds_count _ _ _ D), (lv_count _ _ Hl), !flat_app, !flat_cons. cbn. zlen.
    + rewrite <- app_assoc. eapply marks_border; [exact Hs|by rewrite <- app_assoc, <- Hits|by destruct il].
    + rewrite <- app_assoc. eapply (sizes_put A [_; _]); [apply (lv_sizes _ _ Hl)|done|unfold leaf_full; cbn; zlen..].
Qed.

Lemma overflow_right t A lor r ir loq q a b B p xp lo R1 R2 pi i k v :
  leaves t (A ++ Leaf loq q (a ++ b) :: Leaf lor r ir :: B) → sorted (marks (A ++ Leaf loq q (a ++ (k, v) :: b) :: Leaf lor r ir :: B)) →
  t_xs t !! p = Some xp → x_has xp lo (R1 ++ (lor, DPage r) :: R2) → pi + 1 = zlen R1 → 0 ≤ pi → i = zlen a → zlen ir < 2 * kd → zlen (a ++ b) = 2 * kd →
  ∃ t' k0 xp' iq ir', (if i <? 2 * kd then _ ← mvR q r 1; _ ← t_insert q i k v; k0 ← first_key r; x_mod p (λ pp, set_k pp pi k0)
      else _ ← t_insert r 0 k v; x_mod p (λ pp, set_k pp pi k)) t = Ret (tt, t') ∧ iq ++ ir' = (a ++ (k, v) :: b) ++ ir ∧
    leaves t' (A ++ Leaf loq q iq :: Leaf (Some k0) r ir' :: B) ∧ kept t t' p xp' ∧ x_has xp' lo (R1 ++ (Some k0, DPage r) :: R2).
Proof.
  intros Hl Hs Ep Hx Hpi Hpi0 -> Hir Hn. destruct (two_full _ _ _ _ _ Hl) as [_ Hfr]. unfold leaf_full in Hfr. cbn [lf_its] in Hfr. destruct (Z.ltb_spec (zlen a) (2 * kd)) as [Hlt|Hge].
  - destruct (list_snoc b) as (b' & e & ->); [zlen|]. rewrite app_assoc in Hl. pose proof (leaves_linked _ _ Hl) as K.
    destruct (mvR_ok t A loq q (a ++ b') [e] lor r ir B 1 lor K) as (t1 & E1 & K1 & D1); [done|zlen|].
    destruct (t_insert_ok t1 _ loq q a b' _ (zlen a) k v K1) as (t2 & E2 & K2 & D2); [done|zlen|]. pose proof (data_step_trans _ _ _ _ _ D1 D2) as D.
    destruct (x_set_k xp lo R1 lor (DPage r) R2 pi e.1 Hx) as (xp' & Ek & Hx'); [lia|lia|]. pose proof K2 as K2'. rewrite cons_middle, app_assoc in K2'.
    eexists _, e.1, xp', (a ++ (k, v) :: b'), (e :: ir). split; [|split; [|split; [|split; [by eapply kept_put|done]]]].
    + run E1. run E2. run (first_key_ok _ _ _ _ _ _ _ K2'). apply (x_mod_Ret t2 p xp xp'); [by rewrite (ds_xs _ _ _ D)|done].
    + rewrite <- !app_assoc. cbn. by rewrite <- app_assoc.
    + apply linked_leaves; [apply linked_xs; rewrite cons_middle, app_assoc; by eapply linked_relabel| | |].
      * cbn. rewrite (ds_count _ _ _ D), (lv_count _ _ Hl), !flat_app, !flat_cons. cbn. zlen.
      * eapply marks_border; [exact Hs|rewrite <- !app_assoc; cbn; by rewrite <- app_assoc|by destruct a].
      * eapply (sizes_put A [_; _]); [apply (lv_sizes _ _ Hl)|done|unfold leaf_full; cbn; unfold kd in *; zlen..].
  - assert (b = []) as -> by (destruct b; [done|zlen]). rewrite app_nil_r in *. pose proof (leaves_linked _ _ Hl) as K. pose proof K as K'. rewrite cons_middle, app_assoc in K'.
    destruct (t_insert_ok t _ lor r [] ir B 0 k v K') as (t1 & E1 & K1 & D); [done|cbn; lia|].
    destruct (x_set_k xp lo R1 lor (DPage r) R2 pi k Hx) as (xp' & Ek & Hx'); [lia|lia|].
    eexists _, k, xp', a, ((k, v) :: ir). split; [|split; [|split; [|split; [by eapply kept_put|done]]]].
    + run E1. apply (x_mod_Ret t1 p xp xp'); [by rewrite (ds_xs _ _ _ D)|done].
    + by rewrite <- app_assoc.
    + apply linked_leaves; [rewrite cons_middle, app_assoc; apply linked_xs; by eapply linked_relabel| | |].
      * cbn. rewrite (ds_count _ _ _ D), (lv_count _ _ Hl), !flat_app, !flat_cons. cbn. zlen.
      * apply (marks_border _ _ _ _ _ _ _ _ a (k, v) ir Hs); [by rewrite <- app_assoc|]. intros ->. unfold kd in *. zlen.
      * eapply (sizes_put A [_; _]); [apply (lv_sizes _ _ Hl)|done|unfold leaf_full; cbn; unfold kd in *; zlen..].
Qed.

(** ** A new page in the index *)

(** Index pages and the root were written, data pages not. *)
Definition idx_step t t' : Prop := t_ds t' = t_ds t ∧ t_first t' = t_first t ∧ t_last t' = t_last t ∧ t_c t' = t_c t.
Lemma linked_idx t t' LL : idx_step t t' → linked t LL → linked t' LL.
Proof. intros (Hd & Hf & Hl & _) []. split; congruence. Qed.

Lemma add_child_parent t p xp lo R1 e R2 pi (q : page) k (r : page) : t_xs t !! p = Some xp → x_has xp lo (R1 ++ e :: R2) → pi = zlen R1 → zlen (R1 ++ e :: R2) ≤ 2 * kx + 1 →
  ∃ xp', add_child (Some p) pi q k r t = Ret (tt, set_xs t (<[p := xp']> (t_xs t))) ∧ x_has xp' lo (R1 ++ e :: (Some k, r) :: R2).
Proof.
  intros Ep Hx -> Hn. rewrite cons_middle, app_assoc in Hx, Hn. destruct (x_insert_ok xp lo _ R2 (zlen R1) k r Hx) as (xp' & E & Hx'); [zlen|zlen|done|].
  exists xp'. unfold add_child. rewrite (proj2 (Z.leb_le 0 _)) by zlen. cbn [deref]. rewrite (stM_Ret _ _ _ p t eq_refl).
  rewrite (x_mod_Ret t p xp xp') by done. split; [done|]. by rewrite <- app_assoc in Hx'.
Qed.
Lemma add_child_root t (p : option ptr) pi (q : page) k (r : page) : pi < 0 → fresh t → ∃ t' xp, add_child p pi q k r t = Ret (tt, t') ∧ idx_step t t' ∧ fresh t' ∧
  t_r t' = XPage (t_next t) ∧ t_xs t' = <[t_next t := xp]> (t_xs t) ∧ t_next t' = Pos.succ (t_next t) ∧ x_has xp None [(None, q); (Some k, r)].
Proof.
  intros Hpi Hf. destruct (newX_page None q) as (x1 & E1 & Hx1). destruct (x_insert_ok x1 None [(None, q)] [] 0 k r) as (x2 & E2 & Hx2); [done|done|lia|done|].
  eexists _, x2. split; [|split; [|split; [|split; [|split; [|split; [|exact Hx2]]]]]].
  - unfold add_child. rewrite (proj2 (Z.leb_gt 0 pi)) by done. unfold newX.
    erewrite stM_Ret; [|erewrite stM_Ret; [|reflexivity]; erewrite stM_Ret; [|apply (x_mod_Ret _ _ zx x1); [look|done]]; reflexivity].
    erewrite stM_Ret; [|apply (x_mod_Ret _ _ x1 x2); [look|done]]. reflexivity.
  - done.
  - intros a Ha. cbn in *. destruct (Hf a) as [H1 H2]; [lia|]. split; [done|]. rewrite !lookup_insert_ne by lia. done.
  - done.
  - cbn. by rewrite !insert_insert_eq.
  - done.
Qed.

(** ** Splitting a leaf *)

Lemma split_ok t A lo q a b B (p : option ptr) pi i k v (Q : gmap ptr x_page → page → bytes → Prop) : fresh t → leaves t (A ++ Leaf lo q (a ++ b) :: B) →
  sorted (marks (A ++ Leaf lo q (a ++ (k, v) :: b) :: B)) → i = zlen a → zlen (a ++ b) = 2 * kd →
  (∀ t3 k0, t_xs t3 = t_xs t → t_r t3 = t_r t → fresh t3 →
    ∃ t4, add_child p pi (DPage q) k0 (DPage (t_next t)) t3 = Ret (tt, t4) ∧ idx_step t3 t4 ∧ fresh t4 ∧ Q (t_xs t4) (t_r t4) k0) →
  ∃ t' k0 iq ir, split zv p q pi i k v t = Ret (tt, t') ∧ iq ++ ir = a ++ (k, v) :: b ∧
    leaves t' (A ++ Leaf lo q iq :: Leaf (Some k0) (t_next t) ir :: B) ∧ fresh t' ∧ Q (t_xs t') (t_r t') k0.
Proof.
  intros Hf Hl Hs -> Hn HQ. set (r := t_next t) in *. pose proof (linked_ver _ _ (leaves_linked _ _ Hl)) as K.
  assert (fresh (incr_ver t)) as Hfv by exact Hf.
  destruct (split_at (a ++ b) kd) as (x & y & Hxy & Hx); [unfold kd in *; lia|]. assert (zlen y = kd) as Hy by (apply (f_equal zlen) in Hxy; unfold kd in *; zlen).
  destruct (link_new_ok zv _ A lo q (a ++ b) B lo Hfv K) as (t1 & E1 & K1 & G1). change (t_next (incr_ver t)) with r in *.
  rewrite Hxy in K1. destruct (halve_ok zv t1 A lo q x y lo r B lo K1 Hx Hy) as (t2 & E2 & K2 & D2).
  pose proof (data_step_fresh _ _ _ D2 (grow_fresh _ _ G1 Hfv)) as Hf2. destruct G1 as (Gc & Gr & Gx & _ & _). cbn in Gc, Gr, Gx.
  assert (∃ t' k0 iq y0 ir, split zv p q pi (zlen a) k v t = Ret (tt, t') ∧ iq ++ y0 :: ir = a ++ (k, v) :: b ∧ y0.1 = k0 ∧ kd ≤ zlen iq ≤ 2 * kd ∧ kd ≤ zlen ir + 1 ≤ 2 * kd ∧
    linked t' (A ++ Leaf lo q iq :: Leaf lo r (y0 :: ir) :: B) ∧ t_c t' = t_c t + 1 ∧ fresh t' ∧ Q (t_xs t') (t_r t') k0) as (t' & k0 & iq & y0 & ir & E & Hits & <- & Hiq & Hir & K' & Hc & Hf' & HQ').
  2:{ exists t', y0.1, iq, (y0 :: ir). split_and!; try done. apply linked_leaves.
      - rewrite cons_middle, app_assoc in *. by eapply linked_relabel.
      - rewrite Hc, (lv_count _ _ Hl), !flat_app, !flat_cons. cbn. apply (f_equal zlen) in Hits. zlen.
      - eapply marks_split; [by rewrite Hits|]. intros ->. cbn in Hiq. unfold kd in *. zlen.
      - eapply (sizes_put A [_]); [apply (lv_sizes _ _ Hl)|done|unfold leaf_full; cbn; zlen..]. }
  unfold split. run (t_do_Ret t incr_ver). run E1. run E2. destruct (Z.ltb_spec kd (zlen a)) as [Hlt|Hge].
  - destruct (split_at a kd) as (x' & a2 & -> & Hx'); [unfold kd in *; lia|]. rewrite <- app_assoc in Hxy. apply app_inj_1 in Hxy as [-> <-]; [|unfold zlen in *; lia].
    pose proof K2 as K2'. rewrite cons_middle, app_assoc in K2'.
    destruct (t_insert_ok t2 _ lo r a2 b B (zlen (x ++ a2) - kd) k v K2') as (t3 & E3 & K3 & D3); [zlen|unfold kd in *; lia|]. run E3.
    destruct (list_cons a2) as (y0 & a3 & ->); [zlen|]. run (first_key_ok _ _ _ _ _ _ _ K3).
    destruct (HQ t3 y0.1) as (t4 & E4 & I4 & Hf4 & H4); [by rewrite (ds_xs _ _ _ D3), (ds_xs _ _ _ D2)|by rewrite (ds_root _ _ _ D3), (ds_root _ _ _ D2)|by eapply data_step_fresh|].
    run E4. exists t4, y0.1, x, y0, (a3 ++ (k, v) :: b). split_and!; try done.
    + by rewrite <- app_assoc.
    + unfold kd in *. lia.
    + unfold kd in *. lia.
    + unfold kd in *. zlen.
    + unfold kd in *. zlen.
    + rewrite <- app_assoc in K3. by apply (linked_idx _ _ _ I4).
    + destruct I4 as (_ & _ & _ & ->). rewrite (ds_count _ _ _ D3), (ds_count _ _ _ D2). lia.
  - rewrite (stM_Ret _ _ _ tt t2 eq_refl). destruct (list_cons y) as (y0 & ir & ->); [unfold kd in *; lia|].
    pose proof K2 as K2'. rewrite cons_middle, app_assoc in K2'. run (first_key_ok _ _ _ _ _ _ _ K2').
    destruct (HQ t2 y0.1) as (t4 & E4 & I4 & Hf4 & H4); [by rewrite (ds_xs _ _ _ D2)|by rewrite (ds_root _ _ _ D2)|done|]. run E4.
    destruct (split_at b (kd - zlen a)) as (b1 & b2 & -> & Hb1); [zlen|]. rewrite app_assoc in Hxy. apply app_inj_1 in Hxy as [<- ->]; [|unfold zlen in *; rewrite length_app in *; lia].
    destruct (t_insert_ok t4 A lo q a b1 _ (zlen a) k v (linked_idx _ _ _ I4 K2)) as (t5 & E5 & K5 & D5); [done|unfold kd in *; lia|].
    exists t5, y0.1, (a ++ (k, v) :: b1), y0, ir. split_and!; try done.
    + by rewrite <- app_assoc.
    + unfold kd in *. zlen.
    + unfold kd in *. zlen.
    + unfold kd in *. zlen.
    + unfold kd in *. zlen.
    + rewrite (ds_count _ _ _ D5). destruct I4 as (_ & _ & _ & ->). rewrite (ds_count _ _ _ D2). lia.
    + by eapply data_step_fresh.
    + by rewrite (ds_xs _ _ _ D5), (ds_root _ _ _ D5).
Qed.

(** ** Splitting an index page *)

Lemma idx_step_trans t t' t2 : idx_step t t' → idx_step t' t2 → idx_step t t2.
Proof. intros (? & ? & ? & ?) (? & ? & ? & ?). split_and!; congruence. Qed.
Lemma leaves_idx t t' LL : idx_step t t' → leaves t LL → leaves t' LL.
Proof. intros (Hd & Hf & Hl & Hc) []. split; congruence || done. Qed.

Lemma splitX_ok t (p : option ptr) x xp lo E pi i (Q : ptr → x_page → page → bytes → Prop) : fresh t → t_xs t !! x = Some xp → x_has xp lo E → zlen E = 2 * kx + 2 →
  (∀ t3 k0 xp1 rp1, idx_step t t3 → t_r t3 = t_r t → t_xs t3 = <[x := xp1]> (<[t_next t := rp1]> (t_xs t)) → fresh t3 →
    ∃ t4 p' pp, add_child p pi (XPage x) k0 (XPage (t_next t)) t3 = Ret (tt, t4) ∧ idx_step t3 t4 ∧ fresh t4 ∧
      t_xs t4 = <[p' := pp]> (t_xs t3) ∧ p' ≠ x ∧ p' ≠ t_next t ∧ Q p' pp (t_r t4) k0) →
  ∃ t' k0 p' pp Ea c Eb xp' rp, splitX p x pi i t = Ret (if kx <? i then (t_next t, i - (kx + 1)) else (x, i), t') ∧
    E = Ea ++ (Some k0, c) :: Eb ∧ zlen Ea = kx + 1 ∧ idx_step t t' ∧ fresh t' ∧ p' ≠ x ∧ p' ≠ t_next t ∧ x ≠ t_next t ∧ Q p' pp (t_r t') k0 ∧
    t_xs t' = <[x := xp']> (<[p' := pp]> (<[t_next t := rp]> (t_xs t))) ∧ x_has xp' lo Ea ∧ x_has rp (Some k0) ((Some k0, c) :: Eb).
Proof.
  intros Hf Ex Hx Hn HQ. set (r := t_next t) in *. destruct (splitX_pages xp lo E Hx Hn) as (Ea & k0 & c & Eb & src & rp1 & xp1 & HE & Hea & Ek & Es & Er & Hr & Ez & Hx').
  assert (t_xs t !! r = None) as Hrn by (apply (Hf r); subst r; lia). assert (x ≠ r) as Hxr by congruence. set (xp0 := set_xc xp kx) in *. set (rp := set_xc rp1 kx) in *.
  set (t1 := mkBTree (t_c t) (t_first t) (t_last t) (t_r t) (to_int64 (t_ver t + 1)) (t_ds t) (<[x := xp0]> (<[r := rp]> (t_xs t))) (Pos.succ r)).
  destruct (HQ t1 k0 xp0 rp) as (t4 & p' & pp & E4 & I4 & Hf4 & Hxs4 & Hp1 & Hp2 & HQ4); [done..| |].
  { intros b Hb. cbn in *. destruct (Hf b) as [H1 H2]; [lia|]. split; [done|]. assert (b ≠ r) by (subst r; lia). rewrite !lookup_insert_ne; [done|done|]. intros ->. congruence. }
  set (xp' := mk_x _ _) in Hx'. exists (set_xs t4 (<[x := xp']> (<[p' := pp]> (<[r := rp]> (t_xs t))))), k0, p', pp, Ea, c, Eb, xp', rp.
  assert (t_xs t4 !! x = Some xp0) as Ex4 by (rewrite Hxs4; look).
  split_and!; try done.
  - unfold splitX. run (t_do_Ret t incr_ver). rewrite (stM_Ret new_x _ (incr_ver t) r _ eq_refl). cbn beta.
    erewrite stM_Ret; [|apply (x_load_Ret _ _ xp); look]. erewrite stM_Ret; [|apply (st_lift_Ret _ _ _ Es)].
    erewrite stM_Ret; [|apply (x_mod_Ret _ _ zx rp1); [look|done]]. erewrite stM_Ret; [|apply (x_mod_Ret _ _ xp xp0); [look|done]].
    erewrite stM_Ret; [|apply (x_mod_Ret _ _ rp1 rp); [look|done]]. erewrite stM_Ret; [|apply (x_load_Ret _ _ xp0); look].
    erewrite stM_Ret; [|by apply (st_lift_Ret _ _ k0)].
    match goal with |- (add_child _ _ _ _ _ ≫= _) ?s = _ => replace s with t1 end.
    2:{ subst t1. cbn. f_equal. rewrite insert_insert_eq, (insert_insert_ne (<[r := rp1]> (t_xs t)) r x) by done. by rewrite insert_insert_eq. }
    run E4. erewrite stM_Ret; [|by apply (x_mod_Ret _ _ xp0 xp1)]. erewrite stM_Ret; [|apply (x_mod_Ret _ _ xp1 xp'); [look|done]].
    destruct (kx <? i); unfold mret, stM_ret; do 2 f_equal; unfold set_xs; cbn; rewrite Hxs4; cbn; f_equal; rewrite insert_insert_eq, !(insert_insert_ne _ x p') by done; by rewrite insert_insert_eq.
  - intros b Hb. cbn in *. destruct (Hf4 b Hb) as [H1 H2]. split; [done|]. rewrite Hxs4 in H2. cbn in H2.
    apply lookup_insert_None in H2 as [H2 H3]. apply lookup_insert_None in H2 as [H2 H4]. rewrite !lookup_insert_None in *. split_and!; naive_solver.
Qed.
End set.
