(* ===== verification/BTreePut.v ===== *)
(** * [Put] and [Set] of the B+tree

    The descent with its splits, from the root to a leaf: [Put] is an update of
    the map of a tree, and [Set] is [Put] with a constant. *)
From S2P Require Import Prelude ByteOrder BTreeSpec BTree BTreePages BTreeInv BTreeFind BTreeLeaves BTreeSet.

Section put.
Context {V : Type} (zv : V).
Notation item := (bytes * V)%type.
Implicit Types (t : BTree V) (L A B LL : list (leaf V)) (a b : list item) (k : bytes) (v : V) (lo : option bytes) (q p : ptr) (xp : x_page) (R : row) (G : list node) (n : node) (U : gset ptr).

(** ** Levels after a write *)

(** A page that has enough children for its place in a level *)
Definition fits G1 R G2 : Prop := kx ≤ zlen R ∨ (G1 = [] ∧ G2 = []).
Lemma one_node G1 n G2 m : G1 ++ n :: G2 = [m] → G1 = [] ∧ n = m ∧ G2 = [].
Proof. destruct G1 as [|? [|]]; [|done|done]. by intros [= -> ->]. Qed.
Lemma level_grow xs U G1 n G2 R : level xs U (G1 ++ n :: G2) → zlen (nd_row n) ≤ zlen R → fits G1 R G2.
Proof. intros (_ & (_ & He) & _) HR. destruct (He n (elem_mid G1 G2 n)) as [?|(-> & _ & ->)%one_node]; [left; lia|by right]. Qed.
Lemma level_put xs U G1 n G2 xp lo R : level xs U (G1 ++ n :: G2) → x_has xp lo R → 2 ≤ zlen R → fits G1 R G2 →
  level (<[nd_q n := xp]> xs) U (G1 ++ Node lo (nd_q n) R :: G2).
Proof.
  intros (Hn & [Hd He] & HU) Hx HR HF. rewrite fmap_app, fmap_cons in Hd. apply NoDup_app in Hd as HD. destruct HD as (_ & H1 & H2). apply NoDup_cons in H2 as [H2 _].
  split_and!.
  - intros m [Hm|[->|Hm]%elem_of_cons]%elem_of_app; [| |].
    + destruct (Hn m) as (xp' & E & H); [set_solver|]. exists xp'. rewrite lookup_insert_ne; [done|]. intros E'. apply (H1 (nd_q m)); [apply list_elem_of_fmap; by exists m|]. rewrite E'. by left.
    + exists xp. cbn. by rewrite lookup_insert_eq.
    + destruct (Hn m) as (xp' & E & H); [set_solver|]. exists xp'. rewrite lookup_insert_ne; [done|]. intros E'. apply H2. rewrite E'. apply list_elem_of_fmap. by exists m.
  - by rewrite fmap_app, fmap_cons.
  - assert (∀ m, enough (G1 ++ n :: G2) m → m ∈ G1 ++ G2 → kx ≤ zlen (nd_row m)) as Hother by (intros m [?|(-> & -> & ->)%one_node]; [done|by intros ?%not_elem_of_nil]).
    intros m [Hm|[->|Hm]%elem_of_cons]%elem_of_app.
    + left. apply Hother; [apply He; set_solver|set_solver].
    + destruct HF as [?|[-> ->]]; [by left|by right].
    + left. apply Hother; [apply He; set_solver|set_solver].
  - unfold addrs in *. rewrite fmap_app, fmap_cons in *. exact HU.
Qed.
Lemma level_node xs U G1 n G2 : level xs U (G1 ++ n :: G2) → node_ok xs n.
Proof. intros [Hn _]. apply Hn. set_solver. Qed.
Lemma addrs_put G1 n G2 lo R : addrs (G1 ++ Node lo (nd_q n) R :: G2) = addrs (G1 ++ n :: G2).
Proof. unfold addrs. by rewrite !fmap_app. Qed.
Lemma heads_put G1 n G2 R : heads (G1 ++ Node (nd_lo n) (nd_q n) R :: G2) = heads (G1 ++ n :: G2).
Proof. unfold heads. by rewrite !fmap_app. Qed.
Lemma children_mid G1 n G2 : children (G1 ++ n :: G2) = children G1 ++ nd_row n ++ children G2.
Proof. by rewrite children_app. Qed.

(** ** A leaf below an index page *)

Lemma put_leaf t LA L1 lq q a b L2 LB p xp lo k v i : fresh t → leaves t (LA ++ (L1 ++ Leaf lq q (a ++ b) :: L2) ++ LB) →
  sorted (marks (LA ++ (L1 ++ Leaf lq q (a ++ (k, v) :: b) :: L2) ++ LB)) → t_xs t !! p = Some xp → x_has xp lo (leaf_row (L1 ++ Leaf lq q (a ++ b) :: L2)) →
  zlen (L1 ++ Leaf lq q (a ++ b) :: L2) ≤ 2 * kx + 1 → i = zlen a →
  ∃ t' L' xp', add_item zv (Some p) q (zlen L1) i k v t = Ret (tt, t') ∧
    leaves t' (LA ++ L' ++ LB) ∧ flat L' = flat L1 ++ (a ++ (k, v) :: b) ++ flat L2 ∧ kept t t' p xp' ∧ x_has xp' lo (leaf_row L') ∧ zlen L1 + zlen L2 < zlen L'.
Proof.
  intros Hf Hl Hs Ep Hx Hlen ->. rewrite <- app_assoc, app_assoc in Hl, Hs. cbn [app] in Hl, Hs.
  destruct (linked_get _ _ _ _ (leaves_linked _ _ Hl)) as (pg & E & _ & _ & Hc & _). cbn in E, Hc.
  pose proof (lv_size _ _ Hl (Leaf lq q (a ++ b)) ltac:(set_solver)) as Hsz. cbn [lf_its] in Hsz. unfold add_item. run (d_load_Ret _ _ _ E). rewrite Hc.
  assert (∀ M : list (leaf V), zlen (leaf_row M) = zlen M) as Hrow by (intros; unfold zlen, leaf_row; by rewrite length_fmap).
  destruct (Z.ltb_spec (zlen (a ++ b)) (2 * kd)) as [Hlt|Hge].
  { destruct (insert_leaf_ok t _ lq q a b _ (zlen a) k v Hl Hs eq_refl Hlt) as (t' & E1 & Hl' & D).
    exists t', (L1 ++ Leaf lq q (a ++ (k, v) :: b) :: L2), xp. split_and!; try done.
    - by rewrite <- app_assoc, app_assoc.
    - by rewrite flat_app, flat_cons.
    - split_and!; [rewrite (ds_xs _ _ _ D); symmetry; by apply insert_id|apply D|by eapply data_step_fresh].
    - by rewrite leaf_row_app in *.
    - zlen. }
  pose proof (linked_ver _ _ (leaves_linked _ _ Hl)) as Kv.
  assert (∀ LM, leaves t LM → leaves (incr_ver t) LM) as Hver by (by intros LM []).
  unfold overflow. run (t_do_Ret t incr_ver). rewrite (proj2 (Z.leb_le 0 (zlen L1))) by zlen.
  assert (((if true then p0 ← deref (Some p); pp ← x_load p0; st_lift (x_siblings pp (zlen L1)) else mret (None, None)) : stM (BTree V) _) (incr_ver t) =
    Ret ((lf_q <$> last L1, lf_q <$> head L2), incr_ver t)) as E1.
  { cbn [deref]. rewrite (stM_Ret _ _ _ p _ eq_refl). run (x_load_Ret (incr_ver t) p xp Ep). apply st_lift_Ret. by apply (siblings_ok xp lo L1 (Leaf lq q (a ++ b))). }
  run E1. clear E1.
  assert ((d_test (lf_q <$> last L1) (λ lc, (lc <? 2 * kd) && negb (zlen a =? 0))) (incr_ver t) =
    Ret (match last L1 with Some l => (zlen (lf_its l) <? 2 * kd) && negb (zlen a =? 0) | None => false end, incr_ver t)) as E1.
  { destruct (last L1) as [l|] eqn:El; [|done]. apply last_Some in El as [L1' ->]. rewrite app_assoc, <- app_assoc in Kv. cbn in Kv.
    rewrite <- app_assoc in Kv. cbn in Kv. rewrite app_assoc in Kv. by rewrite (d_test_ok _ _ _ _ _ Kv). }
  run E1. clear E1. destruct (match last L1 with Some l => _ | None => false end) eqn:Eb1.
  { destruct (last L1) as [[lol l il]|] eqn:El; [|done]. apply last_Some in El as [L1' ->]. apply andb_true_iff in Eb1 as [Hil%Z.ltb_lt Ha%negb_true_iff%Z.eqb_neq]. cbn in Hil.
    destruct (list_cons a) as (e & a' & ->); [zlen|]. cbn [deref]. rewrite (stM_Ret _ _ _ l _ eq_refl), (stM_Ret _ _ _ p _ eq_refl).
    rewrite leaf_row_app, leaf_row_app in Hx. cbn in Hx. rewrite app_assoc, <- !app_assoc in Hl, Hs. cbn [app] in Hl, Hs.
    destruct (overflow_left (incr_ver t) (LA ++ L1') lol l il lq q e a' b (L2 ++ LB) p xp lo (leaf_row L1' ++ [(lol, DPage l)]) (leaf_row L2) (zlen (L1' ++ [Leaf lol l il])) (zlen (e :: a')) k v)
      as (t' & k0 & xp' & E' & Hl' & Hk & Hx'); [apply Hver; by rewrite <- app_assoc|by rewrite <- app_assoc|done|done|rewrite !zlen_app, Hrow; zlen|zlen|done|done|].
    exists t', (L1' ++ Leaf lol l (il ++ [e]) :: Leaf (Some k0) q (a' ++ (k, v) :: b) :: L2), xp'. split_and!.
    - exact E'.
    - rewrite <- !app_assoc in *. exact Hl'.
    - rewrite !flat_app, !flat_cons. cbn. by rewrite <- !app_assoc.
    - exact Hk.
    - rewrite leaf_row_app. cbn. by rewrite <- app_assoc in Hx'.
    - zlen. }
  clear Eb1. assert ((d_test (lf_q <$> head L2) (λ rc, rc <? 2 * kd)) (incr_ver t) =
    Ret (match head L2 with Some r => zlen (lf_its r) <? 2 * kd | None => false end, incr_ver t)) as E1.
  { destruct L2 as [|r L2]; [done|]. cbn in Kv. rewrite cons_middle, app_assoc in Kv. cbn [head fmap option_fmap option_map]. by rewrite (d_test_ok _ _ _ _ _ Kv). }
  run E1. clear E1. destruct (match head L2 with Some r => _ | None => false end) eqn:Eb2.
  { destruct L2 as [|[lor r ir] L2]; [done|]. cbn in Eb2. apply Z.ltb_lt in Eb2. cbn [deref head fmap option_fmap option_map]. rewrite (stM_Ret _ _ _ r _ eq_refl), (stM_Ret _ _ _ p _ eq_refl).
    rewrite leaf_row_app in Hx. cbn in Hx. rewrite cons_middle, app_assoc in Hx.
    destruct (overflow_right (incr_ver t) (LA ++ L1) lor r ir lq q a b (L2 ++ LB) p xp lo _ _ (zlen L1) (zlen a) k v (Hver _ Hl) Hs Ep Hx) as (t' & k0 & xp' & iq & ir' & E' & Hits & Hl' & Hk & Hx');
      [rewrite zlen_app, Hrow; zlen|zlen|done|done|lia|].
    exists t', (L1 ++ Leaf lq q iq :: Leaf (Some k0) r ir' :: L2), xp'. split_and!.
    - exact E'.
    - rewrite <- !app_assoc in *. exact Hl'.
    - rewrite !flat_app, !flat_cons. cbn. rewrite (app_assoc iq), Hits. by rewrite <- !app_assoc.
    - exact Hk.
    - rewrite leaf_row_app. cbn. by rewrite <- app_assoc in Hx'.
    - zlen. }
  rewrite leaf_row_app in Hx. cbn in Hx.
  destruct (split_ok zv (incr_ver t) (LA ++ L1) lq q a b (L2 ++ LB) (Some p) (zlen L1) (zlen a) k v
    (λ xs r k0, r = t_r t ∧ ∃ xp', xs = <[p := xp']> (t_xs t) ∧ x_has xp' lo (leaf_row L1 ++ (lq, DPage q) :: (Some k0, DPage (t_next t)) :: leaf_row L2)))
    as (t' & k0 & iq & ir & E' & Hits & Hl' & Hf' & Hr' & xp' & Hxs' & Hx'); [done|by apply Hver|done|done|lia| |].
  { intros t3 k0 Hxs Hr Hf3. cbn in Hxs, Hr. destruct (add_child_parent t3 p xp lo (leaf_row L1) (lq, DPage q) (leaf_row L2) (zlen L1) (DPage q) k0 (DPage (t_next t))) as (xp' & E' & Hx');
      [by rewrite Hxs|done|by rewrite Hrow|rewrite zlen_app, zlen_cons, !Hrow; zlen|].
    eexists. split; [exact E'|]. split; [done|]. split; [apply (fresh_put _ _ _ xp); [done|by rewrite Hxs]|]. cbn. split; [done|]. exists xp'. by rewrite Hxs. }
  exists t', (L1 ++ Leaf lq q iq :: Leaf (Some k0) (t_next t) ir :: L2), xp'. split_and!; try done.
  - rewrite <- !app_assoc in *. exact Hl'.
  - rewrite !flat_app, !flat_cons. cbn. rewrite (app_assoc iq), Hits. done.
  - by rewrite leaf_row_app.
  - zlen.
Qed.

(** ** A value that is replaced *)

Lemma set_value_ok t A lo q a k v b B i v' : leaves t (A ++ Leaf lo q (a ++ (k, v) :: b) :: B) → i = zlen a →
  ∃ t', d_mod q (λ pg, e ← index (d_d pg) i; d_set pg i (e.1, v')) t = Ret (tt, t') ∧ leaves t' (A ++ Leaf lo q (a ++ (k, v') :: b) :: B) ∧ data_step 0 t t'.
Proof.
  intros Hl ->. pose proof (leaves_linked _ _ Hl) as K. destruct (linked_get _ _ _ _ K) as (pg & E & Hp). cbn in E, Hp.
  destruct (d_set_ok pg a (k, v) b _ _ (zlen a) (k, v') Hp eq_refl) as (pg' & E1 & Hp').
  eexists. split; [apply (d_mod_Ret t q pg pg'); [done|by rewrite (d_index pg a (k, v) b _ _ _ Hp eq_refl)]|]. pose proof (data_step_put t q pg pg' E) as D. split; [|done].
  apply linked_leaves; [by apply (linked_put t A (Leaf lo q (a ++ (k, v) :: b)) B)| | |].
  - cbn. rewrite (lv_count _ _ Hl), !flat_app, !flat_cons. cbn. zlen.
  - pose proof (lv_sorted _ _ Hl) as Hs. rewrite !marks_app, !marks_cons in *. cbn [lf_its lf_lo] in *. by rewrite !item_marks_app in *.
  - eapply sizes_grow; [apply (lv_sizes _ _ Hl)|]. cbn. pose proof (lv_size _ _ Hl (Leaf lo q (a ++ (k, v) :: b)) ltac:(set_solver)) as Hsz. cbn in Hsz. zlen.
Qed.

(** ** The end of the descent *)

(** What an update leaves in the map *)
Definition updated (m : gmap bytes V) k (w : option V) : gmap bytes V := match w with Some v => <[k := v]> m | None => m end.
(** The old value and whether one was written, as [Put] returns them *)
Definition put_result (o w : option V) : V * bool := (default zv o, bool_decide (is_Some w)).

(** What [put_loop] does in a leaf; [new] inserts the item. *)
Definition put_at {X} k (upd : option V → outcome (X * option V)) q (new : Z → V → stM (BTree V) unit) : stM (BTree V) (X * (V * bool)) :=
  '(i, ok) ← find (DPage q) k;
  if (ok : bool) then
    xp ← d_load q;
    e ← st_lift (index (d_d xp) i);
    '(a, newV) ← st_lift (upd (Some e.2));
    match newV with
    | None => mret (a, (e.2, false))
    | Some v => _ ← d_mod q (λ pg, e ← index (d_d pg) i; d_set pg i (e.1, v)); mret (a, (e.2, true))
    end
  else
    '(a, newV) ← st_lift (upd None);
    match newV with
    | None => mret (a, (zv, false))
    | Some v => _ ← new i v; mret (a, (zv, true))
    end.

(** If inserting an item works, all of it does; [P] is what is known of the index afterwards. *)
Lemma put_at_ok {X} k (upd : option V → outcome (X * option V)) (x : X) w t A l B new (P : BTree V → list (leaf V) → Prop) : leaves t (A ++ l :: B) → fresh t →
  located k (leaf_row (A ++ [l])) (leaf_row B) → upd (tree_map t !! k) = Ret (x, w) →
  (∀ t' a b, data_step 0 t t' → P t' (A ++ Leaf (lf_lo l) (lf_q l) (a ++ b) :: B)) →
  (∀ a b v, lf_its l = a ++ b → w = Some v → sorted (marks (A ++ Leaf (lf_lo l) (lf_q l) (a ++ (k, v) :: b) :: B)) →
    ∃ t' LL', new (zlen a) v t = Ret (tt, t') ∧ leaves t' LL' ∧ flat LL' = flat A ++ (a ++ (k, v) :: b) ++ flat B ∧ fresh t' ∧ P t' LL') →
  ∃ t' LL', put_at k upd (lf_q l) new t = Ret ((x, put_result (tree_map t !! k) w), t') ∧ leaves t' LL' ∧ tree_map t' = updated (tree_map t) k w ∧ fresh t' ∧ P t' LL'.
Proof.
  intros Hl Hf Hloc Hupd HP Hnew. destruct (find_leaf _ _ _ _ _ Hl Hloc) as (pg & n & p & [i ok] & E & Hd & Ef & Hfound).
  unfold put_at. run Ef. pose proof (found_lookup _ _ _ _ _ _ _ Hl Hfound) as Hm. pose proof (lv_sorted _ _ Hl) as Hs.
  destruct (located_marks _ _ _ _ Hs Hloc) as [Hm1 Hm2]. destruct l as [lo q its]. cbn in *.
  assert (data_step 0 t t) as D0 by (split; try done; lia).
  destruct ok; cbn [lf_its] in Hm, Hfound.
  - destruct Hm as (a & v & b & -> & -> & Hm). rewrite Hm in Hupd |- *. run (d_load_Ret _ _ _ E). run (st_lift_Ret _ t _ (d_index pg a (k, v) b _ _ _ Hd eq_refl)). cbn [snd].
    run (st_lift_Ret _ t _ Hupd). destruct w as [v'|].
    + destruct (set_value_ok t A lo q a k v b B _ v' Hl eq_refl) as (t' & E1 & Hl' & D). run E1.
      exists t', (A ++ Leaf lo q (a ++ (k, v') :: b) :: B). split; [done|]. split; [done|]. split; [|split; [by eapply data_step_fresh|by apply HP]].
      rewrite (tree_map_flat _ _ Hl'), (tree_map_flat _ _ Hl), !flat_app, !flat_cons. cbn [lf_its]. rewrite <- !app_assoc, !(app_assoc (flat A)). cbn [app updated].
      apply list_to_map_replace. intros it Hit. pose proof (sorted_flat _ Hs) as Hsf. rewrite flat_app, flat_cons in Hsf. cbn [lf_its] in Hsf.
      rewrite <- app_assoc, (app_assoc (flat A)) in Hsf. cbn [app] in Hsf. apply (sorted_app key_lt) in Hsf as (_ & _ & Hsf). apply (Hsf it (k, v)); [done|by left].
    + exists t, (A ++ Leaf lo q (a ++ (k, v) :: b) :: B). split; [done|]. split; [done|]. split; [done|]. split; [done|]. by apply HP.
  - rewrite Hm in Hupd |- *. run (st_lift_Ret _ t _ Hupd). destruct w as [v'|].
    + destruct Hfound as [(? & ? & ? & ? & ?)|(a & b & Hits & [= ->] & H1 & H2)]; [done|]. cbn in Hits. subst its.
      destruct (Hnew a b v' eq_refl eq_refl) as (t' & LL' & E1 & Hl' & Hfl & Hf' & HP').
      { apply marks_put; [done|done| |intros it Hit; apply H2; set_solver|done]. intros it Hit. apply H1. set_solver. }
      run E1. exists t', LL'. split; [done|]. split; [done|]. split; [|done].
      rewrite (tree_map_flat _ _ Hl'), (tree_map_flat _ _ Hl), Hfl, flat_app, flat_cons. cbn [lf_its]. rewrite <- !app_assoc, !(app_assoc (flat A)). cbn [app updated].
      by apply list_to_map_put.
    + exists t, (A ++ Leaf lo q its :: B). split; [done|]. split; [done|]. split; [done|]. split; [done|].
      destruct Hfound as [(? & ? & ? & ? & ?)|(a & b & Hits & _)]; [done|]. cbn in Hits. subst its. by apply HP.
Qed.

(** ** The descent *)

Lemma leaf_row_len LL : zlen (leaf_row LL) = zlen LL.
Proof. unfold zlen, leaf_row. by rewrite length_fmap. Qed.
Lemma leaf_row_inv R1 R2 LL : R1 ++ R2 = leaf_row LL → ∃ L1 L2, LL = L1 ++ L2 ∧ R1 = leaf_row L1 ∧ R2 = leaf_row L2.
Proof. intros E. apply eq_sym, fmap_app_inv in E as (L1 & L2 & -> & -> & ->). by exists L1, L2. Qed.
Lemma leaf_row_cons_inv e R LL : e :: R = leaf_row LL → ∃ l L, LL = l :: L ∧ e = (lf_lo l, DPage (lf_q l)) ∧ R = leaf_row L.
Proof. intros E. apply eq_sym, fmap_cons_inv in E as (l & L & -> & -> & ->). by exists l, L. Qed.
Lemma heads_inv R1 R2 G : R1 ++ R2 = heads G → ∃ G1 G2, G = G1 ++ G2 ∧ R1 = heads G1 ∧ R2 = heads G2.
Proof. intros E. apply eq_sym, fmap_app_inv in E as (L1 & L2 & -> & -> & ->). by exists L1, L2. Qed.
Lemma heads_cons_inv e R G : e :: R = heads G → ∃ n G', G = n :: G' ∧ e = (nd_lo n, XPage (nd_q n)) ∧ R = heads G'.
Proof. intros E. apply eq_sym, fmap_cons_inv in E as (n & L & -> & -> & ->). by exists n, L. Qed.

(** The parent of a leaf after an update below it *)
Definition parent_ok t n LA LB t' LL' : Prop := ∃ L' xp, LL' = LA ++ L' ++ LB ∧ kept t t' (nd_q n) xp ∧ x_has xp (nd_lo n) (leaf_row L') ∧ 2 ≤ zlen L' ∧ zlen (nd_row n) ≤ zlen L'.

Lemma put_below {X} k (upd : option V → outcome (X * option V)) (x : X) w t LA n LB L1 l L2 fuel : fresh t → leaves t (LA ++ (L1 ++ l :: L2) ++ LB) →
  node_ok (t_xs t) n → nd_row n = leaf_row (L1 ++ l :: L2) → zlen (nd_row n) ≤ 2 * kx + 1 → located k (leaf_row (LA ++ L1 ++ [l])) (leaf_row (L2 ++ LB)) → upd (tree_map t !! k) = Ret (x, w) →
  ∃ t' LL', put_loop zv (S fuel) k upd (zlen L1) (Some (nd_q n)) (DPage (lf_q l)) t = Ret ((x, put_result (tree_map t !! k) w), t') ∧
    leaves t' LL' ∧ tree_map t' = updated (tree_map t) k w ∧ fresh t' ∧ parent_ok t n LA LB t' LL'.
Proof.
  intros Hf Hl (xp & Ep & Hx & H2) Hrow Hlen Hloc Hupd. rewrite Hrow in Hx, Hlen, H2. rewrite leaf_row_len in Hlen, H2.
  assert (∀ M : leaf V, (LA ++ L1) ++ M :: (L2 ++ LB) = LA ++ (L1 ++ M :: L2) ++ LB) as Ea by (intros; by rewrite <- !app_assoc).
  rewrite <- Ea in Hl. rewrite app_assoc in Hloc.
  apply (put_at_ok k upd x w t (LA ++ L1) l (L2 ++ LB) (λ i v, add_item zv (Some (nd_q n)) (lf_q l) (zlen L1) i k v) (parent_ok t n LA LB) Hl Hf Hloc Hupd).
  - intros t' a b D. exists (L1 ++ Leaf (lf_lo l) (lf_q l) (a ++ b) :: L2), xp. split_and!; [by rewrite Ea| |by rewrite leaf_row_app in *|zlen|rewrite Hrow, leaf_row_len; zlen].
    split_and!; [rewrite (ds_xs _ _ _ D); symmetry; by apply insert_id|apply D|by eapply data_step_fresh].
  - intros a b v Hits _ Hs. destruct l as [lo q its]. cbn in *. subst its. rewrite Ea in Hl, Hs.
    destruct (put_leaf t LA L1 lo q a b L2 LB (nd_q n) xp (nd_lo n) k v (zlen a) Hf Hl Hs Ep Hx Hlen eq_refl) as (t' & L' & xp' & E & Hl' & Hfl & Hk & Hx' & HL').
    exists t', (LA ++ L' ++ LB). split; [exact E|]. split; [done|]. split; [|split; [by apply Hk|]].
    + rewrite !flat_app, Hfl. by rewrite <- !app_assoc.
    + exists L', xp'. rewrite Hrow, leaf_row_len. split_and!; try done; zlen.
Qed.

(** One round at an index page, without and with a split *)
Lemma put_loop_down {X} fuel k (upd : option V → outcome (X * option V)) pi (p : option ptr) x t xp i (ok : bool) c :
  find (XPage x) k t = Ret ((i, ok), t) → t_xs t !! x = Some xp → x_c xp ≤ 2 * kx → get_ch xp (if ok then i + 1 else i) = Ret c →
  put_loop zv (S fuel) k upd pi p (XPage x) t = put_loop zv fuel k upd (if ok then i + 1 else i) (Some x) c t.
Proof.
  intros Ef Ex Hc Eg. cbn [put_loop]. run Ef. run (x_load_Ret _ _ _ Ex). rewrite (proj2 (Z.ltb_ge _ _)) by done.
  rewrite (stM_Ret _ _ _ (x, if ok then i + 1 else i) t eq_refl). run (x_load_Ret _ _ _ Ex). by run (st_lift_Ret _ t _ Eg).
Qed.
Lemma put_loop_split {X} fuel k (upd : option V → outcome (X * option V)) pi (p : option ptr) x t xp i (ok : bool) t1 y j yp c :
  find (XPage x) k t = Ret ((i, ok), t) → t_xs t !! x = Some xp → 2 * kx < x_c xp → splitX p x pi (if ok then i + 1 else i) t = Ret ((y, j), t1) →
  t_xs t1 !! y = Some yp → get_ch yp j = Ret c → put_loop zv (S fuel) k upd pi p (XPage x) t = put_loop zv fuel k upd j (Some y) c t1.
Proof.
  intros Ef Ex Hc Es Ey Eg. cbn [put_loop]. run Ef. run (x_load_Ret _ _ _ Ex). rewrite (proj2 (Z.ltb_lt _ _)) by done.
  run Es. run (x_load_Ret _ _ _ Ey). by run (st_lift_Ret _ t1 _ Eg).
Qed.

(** The halves of a page in its level *)
Lemma level_split xs U G1 n G2 xp rp s r R1 R2 : level xs U (G1 ++ n :: G2) → x_has xp (nd_lo n) R1 → kx ≤ zlen R1 → x_has rp s R2 → kx ≤ zlen R2 →
  xs !! r = None → r ∉ U → level (<[nd_q n := xp]> (<[r := rp]> xs)) U (G1 ++ Node (nd_lo n) (nd_q n) R1 :: Node s r R2 :: G2).
Proof.
  intros (Hn & [Hd He] & HU) Hx H1 Hr H2 Hrn HrU.
  assert (∀ m, m ∈ G1 ++ n :: G2 → r ≠ nd_q m) as Hne by (intros m Hm ->; destruct (Hn m Hm) as (? & ? & _); congruence).
  rewrite fmap_app, fmap_cons in Hd. apply NoDup_app in Hd as (Hd1 & H3 & H4). apply NoDup_cons in H4 as [H4 Hd2].
  assert (r ∉ nd_q <$> G1) as Hr1 by (intros (m & E & Hm)%list_elem_of_fmap; apply (Hne m); [set_solver|done]).
  assert (r ∉ nd_q <$> G2) as Hr2 by (intros (m & E & Hm)%list_elem_of_fmap; apply (Hne m); [set_solver|done]).
  assert (r ≠ nd_q n) as Hrn' by (apply Hne; set_solver).
  split_and!.
  - intros m [Hm|[->|[->|Hm]%elem_of_cons]%elem_of_cons]%elem_of_app.
    + destruct (Hn m) as (xp' & E & H); [set_solver|]. exists xp'. rewrite !lookup_insert_ne; [done|apply Hne; set_solver|].
      intros E'. apply (H3 (nd_q m)); [apply list_elem_of_fmap; by exists m|]. rewrite E'. by left.
    + exists xp. cbn. rewrite lookup_insert_eq. split_and!; [done..|unfold kx in *; lia].
    + exists rp. cbn. rewrite lookup_insert_ne, lookup_insert_eq by done. split_and!; [done..|unfold kx in *; lia].
    + destruct (Hn m) as (xp' & E & H); [set_solver|]. exists xp'. rewrite !lookup_insert_ne; [done|apply Hne; set_solver|].
      intros E'. apply H4. rewrite E'. apply list_elem_of_fmap. by exists m.
  - rewrite fmap_app, !fmap_cons. cbn. apply NoDup_app. split_and!; [done| |].
    + intros a Ha. specialize (H3 a Ha). rewrite not_elem_of_cons in H3. rewrite !not_elem_of_cons. split_and!; [tauto| |tauto]. by intros ->.
    + rewrite !NoDup_cons, not_elem_of_cons. by split_and!.
  - intros m Hm. left. assert (∀ m, m ∈ G1 ++ G2 → kx ≤ zlen (nd_row m)) as Hother.
    { intros m' Hm'. destruct (He m') as [?|(-> & -> & ->)%one_node]; [set_solver|done|by apply not_elem_of_nil in Hm']. }
    apply elem_of_app in Hm as [Hm|[->|[->|Hm]%elem_of_cons]%elem_of_cons]; [apply Hother; set_solver|done|done|apply Hother; set_solver].
  - rewrite addrs_app in *. change (addrs (n :: G2)) with ({[nd_q n]} ∪ addrs G2) in HU. change (addrs (_ :: _ :: G2)) with ({[nd_q n]} ∪ ({[r]} ∪ addrs G2)). set_solver.
Qed.

Lemma tree_map_idx t t' : idx_step t t' → tree_map t' = tree_map t.
Proof. intros (Hd & Hf & _). unfold tree_map. by rewrite Hd, Hf. Qed.
Lemma children_split G1 n G2 lo1 q1 R1 lo2 q2 R2 : nd_row n = R1 ++ R2 → children (G1 ++ Node lo1 q1 R1 :: Node lo2 q2 R2 :: G2) = children (G1 ++ n :: G2).
Proof. intros E. rewrite !children_app. f_equal. change (R1 ++ R2 ++ children G2 = nd_row n ++ children G2). by rewrite E, <- app_assoc. Qed.

(** The entries of a split page in the half that has the position *)
Lemma half_left {C} (E1 E2 Ea Eb : list C) e : E1 ++ e :: E2 = Ea ++ Eb → zlen E1 < zlen Ea → ∃ E2a, Ea = E1 ++ e :: E2a ∧ E2 = E2a ++ Eb.
Proof.
  intros E Hlen. destruct (split_at Ea (zlen E1)) as (E1' & [|e' E2a] & -> & H1); [zlen|zlen|].
  rewrite <- app_assoc in E. apply app_inj_1 in E as [-> E]; [|unfold zlen in *; lia]. cbn in E. injection E as -> ->. by exists E2a.
Qed.
Lemma half_right {C} (E1 E2 Ea Eb : list C) e : E1 ++ e :: E2 = Ea ++ Eb → zlen Ea ≤ zlen E1 → ∃ E1b, Eb = E1b ++ e :: E2 ∧ E1 = Ea ++ E1b.
Proof.
  intros E Hlen. destruct (split_at E1 (zlen Ea)) as (Ea' & E1b & -> & H1); [zlen|].
  rewrite <- app_assoc in E. apply app_inj_1 in E as [-> <-]; [|unfold zlen in *; lia]. by exists E1b.
Qed.

(** A full page is split below a parent with room. *)
Lemma splitX_below t U G1 n G2 E1 m E2 H1 H2 i : fresh t → level (t_xs t) U (G1 ++ n :: G2) → level (t_xs t) (addrs (G1 ++ n :: G2) ∪ U) (H1 ++ m :: H2) →
  (∀ u, u ∈ U → is_Some (t_xs t !! u)) → nd_row n = E1 ++ (nd_lo m, XPage (nd_q m)) :: E2 → zlen (nd_row n) ≤ 2 * kx + 1 → zlen (nd_row m) = 2 * kx + 2 →
  ∃ t1 Ea k0 Eb, let r := t_next t in let m1 := Node (nd_lo m) (nd_q m) Ea in let m2 := Node (Some k0) r Eb in
    let n' := Node (nd_lo n) (nd_q n) (E1 ++ (nd_lo m, XPage (nd_q m)) :: (Some k0, XPage r) :: E2) in
    splitX (Some (nd_q n)) (nd_q m) (zlen E1) i t = Ret (if kx <? i then (r, i - (kx + 1)) else (nd_q m, i), t1) ∧ nd_row m = Ea ++ Eb ∧ zlen Ea = kx + 1 ∧
    idx_step t t1 ∧ fresh t1 ∧ t_r t1 = t_r t ∧ level (t_xs t1) U (G1 ++ n' :: G2) ∧ level (t_xs t1) (addrs (G1 ++ n :: G2) ∪ U) (H1 ++ m1 :: m2 :: H2) ∧
    t_xs t !! r = None ∧ r ∉ addrs (G1 ++ n :: G2) ∪ U ∧ (∀ a : ptr, a ≠ nd_q m → a ≠ nd_q n → a ≠ r → t_xs t1 !! a = t_xs t !! a).
Proof.
  intros Hf HG HH HU Hrow Hn Hm. destruct (level_node _ _ _ _ _ HG) as (np & En & Hnx & _). destruct (level_node _ _ _ _ _ HH) as (mp & Em & Hmx & _).
  set (r := t_next t). assert (t_xs t !! r = None) as Hr by (apply (Hf r); subst r; lia).
  assert (nd_q n ≠ nd_q m) as Hnm. { intros E. destruct HH as (_ & _ & HH). apply (HH (nd_q m)); [apply node_addr|]. rewrite <- E. apply elem_of_union_l, node_addr. }
  assert (r ∉ addrs (G1 ++ n :: G2) ∪ U) as HrU.
  { intros [Ha|Ha]%elem_of_union; [|destruct (HU r Ha) as [? ?]; congruence]. apply elem_of_list_to_set, list_elem_of_fmap in Ha as (n' & E & Hin).
    destruct HG as (HG & _). destruct (HG n' Hin) as (? & E' & _). congruence. }
  assert (nd_q n ≠ r) as Hnr by congruence.
  destruct (splitX_ok t (Some (nd_q n)) (nd_q m) mp (nd_lo m) (nd_row m) (zlen E1) i
    (λ p' pp rt k0, p' = nd_q n ∧ rt = t_r t ∧ x_has pp (nd_lo n) (E1 ++ (nd_lo m, XPage (nd_q m)) :: (Some k0, XPage r) :: E2))) as
    (t1 & k0 & p' & pp & Ea & c & Eb & xp' & rp & Es & HE & HEa & Hi & Hf1 & _ & _ & Hxr & (-> & Hrt & Hpp) & Hxs & Hx1 & Hx2); [done..| |].
  { intros t3 k0 xp1 rp1 Hi Hrt Hxs3 Hf3. rewrite Hrow in Hnx, Hn. assert (t_xs t3 !! nd_q n = Some np) as En3 by (rewrite Hxs3; look).
    destruct (add_child_parent t3 (nd_q n) np (nd_lo n) E1 _ E2 (zlen E1) (XPage (nd_q m)) k0 (XPage r) En3 Hnx eq_refl Hn) as (pp & Ea & Hpp).
    eexists _, (nd_q n), pp. split; [exact Ea|]. split_and!; try done. by apply (fresh_put _ _ _ np). }
  exists t1, Ea, k0, ((Some k0, c) :: Eb). cbn zeta. split_and!; try done.
  - assert (level (<[nd_q n := pp]> (t_xs t)) U (G1 ++ Node (nd_lo n) (nd_q n) (E1 ++ (nd_lo m, XPage (nd_q m)) :: (Some k0, XPage r) :: E2) :: G2)) as HL.
    { pose proof (zlen_nonneg E1). pose proof (zlen_nonneg E2). apply level_put; [done|done|zlen|]. eapply level_grow; [exact HG|]. rewrite Hrow. zlen. }
    eapply level_frame; [|exact HL]. intros a Ha. rewrite addrs_put in Ha. rewrite Hxs.
    assert (a ≠ nd_q m). { intros ->. destruct HH as (_ & _ & HH). apply (HH (nd_q m)); [apply node_addr|by apply elem_of_union_l]. }
    assert (a ≠ r) by set_solver. destruct (decide (a = nd_q n)) as [->|]; [look|]. by rewrite !lookup_insert_ne.
  - assert (level (<[nd_q m := xp']> (<[r := rp]> (t_xs t))) (addrs (G1 ++ n :: G2) ∪ U) (H1 ++ Node (nd_lo m) (nd_q m) Ea :: Node (Some k0) r ((Some k0, c) :: Eb) :: H2)) as HL.
    { rewrite HE, zlen_app, zlen_cons in Hm. apply level_split; try done; [unfold kx in *; lia|]. rewrite zlen_cons. unfold kx in *. lia. }
    eapply level_frame; [|exact HL]. intros a Ha. rewrite Hxs.
    assert (a ≠ nd_q n). { intros ->. destruct HL as (_ & _ & HL). apply (HL (nd_q n)); [done|]. apply elem_of_union_l, node_addr. }
    destruct (decide (a = nd_q m)) as [->|]; [look|]. rewrite !(lookup_insert_ne _ (nd_q m)) by done. by rewrite lookup_insert_ne by done.
  - intros a Ha1 Ha2 Ha3. rewrite Hxs. by rewrite !lookup_insert_ne.
Qed.

(** What the descent below [n] promises: an updated tree, with the pages of [U] as they were. *)
Definition put_promise {X} k (upd : option V → outcome (X * option V)) (x : X) w t U (R : row) h (run : outcome (X * (V * bool) * BTree V)) : Prop :=
  ∃ t' LL', run = Ret ((x, put_result (tree_map t !! k) w), t') ∧ leaves t' LL' ∧ tree_map t' = updated (tree_map t) k w ∧ fresh t' ∧ t_r t' = t_r t ∧
    (∀ u, u ∈ U → t_xs t' !! u = t_xs t !! u) ∧ shape (t_xs t') U h R (leaf_row LL').

Lemma find_in_level t U H1 m H2 h LL k : leaves t LL → level (t_xs t) U (H1 ++ m :: H2) → shape (t_xs t) (addrs (H1 ++ m :: H2) ∪ U) h (children (H1 ++ m :: H2)) (leaf_row LL) →
  located k (heads (H1 ++ [m])) (heads H2) →
  ∃ mp i (ok : bool) E1 e E2, t_xs t !! nd_q m = Some mp ∧ x_has mp (nd_lo m) (nd_row m) ∧ find (XPage (nd_q m)) k t = Ret ((i, ok), t) ∧ nd_row m = E1 ++ e :: E2 ∧
    (if ok then i + 1 else i) = zlen E1 ∧ located k (children H1 ++ E1 ++ [e]) (E2 ++ children H2).
Proof.
  intros Hl HH Hs Hloc. destruct (level_node _ _ _ _ _ HH) as (mp & Em & Hx & _). exists mp.
  pose proof (sorted_sublist _ _ _ (marks_pages LL) (lv_sorted _ _ Hl)) as Hpages.
  pose proof (sorted_sublist _ _ _ (shape_marks _ _ _ _ _ Hs) Hpages) as Hch.
  assert (sorted (page_marks (nd_row m))) as Hrow.
  { rewrite children_mid, page_marks_app in Hch. apply (sorted_app mark_lt) in Hch as (_ & Hch & _). rewrite page_marks_app in Hch. by apply (sorted_app mark_lt) in Hch as (Hch & _). }
  assert (mark_lt (page_mark (nd_lo m)) (item_mark k)) as Hlo by (apply Hloc; rewrite heads_app, page_marks_app; set_solver).
  destruct (find_x t (nd_q m) mp (nd_lo m) (nd_row m) k Em Hx Hrow Hlo) as (i & ok & E1 & e & E2 & Ef & HE & Hi & Hle).
  exists i, ok, E1, e, E2. split_and!; try done. destruct HH as [Hn _]. by eapply located_down.
Qed.

Lemma put_loop_ok {X} k (upd : option V → outcome (X * option V)) (x : X) w fuel : ∀ h t U G1 n G2 E1 e E2 LL,
  fresh t → leaves t LL → level (t_xs t) U (G1 ++ n :: G2) → (∀ u, u ∈ U → is_Some (t_xs t !! u)) →
  shape (t_xs t) (addrs (G1 ++ n :: G2) ∪ U) h (children (G1 ++ n :: G2)) (leaf_row LL) →
  nd_row n = E1 ++ e :: E2 → zlen (nd_row n) ≤ 2 * kx + 1 → located k (children G1 ++ E1 ++ [e]) (E2 ++ children G2) → upd (tree_map t !! k) = Ret (x, w) →
  put_promise k upd x w t U (heads (G1 ++ n :: G2)) (S h) (put_loop zv (S (h + fuel)) k upd (zlen E1) (Some (nd_q n)) e.2 t).
Proof.
  induction h as [|h IH]; intros t U G1 n G2 E1 e E2 LL Hf Hl HG HU Hs HE Hn Hloc Hupd; rewrite children_mid, HE in Hs.
  - cbn [shape] in Hs. destruct (leaf_row_inv _ _ _ Hs) as (LA & L' & -> & HA & Hs1). destruct (leaf_row_inv _ _ _ Hs1) as (L & LB & -> & HL & HB).
    destruct (leaf_row_inv _ _ _ HL) as (L1 & L'' & -> & H1 & HL1). destruct (leaf_row_cons_inv _ _ _ HL1) as (l & L2 & -> & -> & ->).
    rewrite HA, HB, H1 in *. cbn [snd]. destruct (put_below k upd x w t LA n LB L1 l L2 fuel) as (t' & LL' & E & Hl' & Hm & Hf' & L3 & xp & -> & (Hxs & Hr & _) & Hx & H3 & H4); [done|done|by eapply level_node|by rewrite HE, leaf_row_app|done| |done|].
    { by rewrite !leaf_row_app. }
    exists t', (LA ++ L3 ++ LB). rewrite leaf_row_len. split; [exact E|]. split_and!; try done.
    + intros u Hu. rewrite Hxs. apply lookup_insert_ne. intros <-. destruct HG as (_ & _ & HG). apply (HG (nd_q n)); [apply node_addr|done].
    + exists (G1 ++ Node (nd_lo n) (nd_q n) (leaf_row L3) :: G2). split; [by rewrite heads_put|]. split; [rewrite Hxs; apply level_put; rewrite ?leaf_row_len; try done; eapply level_grow; [exact HG|by rewrite leaf_row_len]|].
      cbn [shape]. rewrite children_mid, !leaf_row_app. cbn. by rewrite HA, HB.
  - destruct Hs as (G & HGe & HH & Hs). rewrite <- app_assoc, app_assoc in HGe. destruct (heads_inv _ _ _ HGe) as (H1 & G' & -> & HH1 & HGe'). cbn [app] in HGe'.
    destruct (heads_cons_inv _ _ _ HGe') as (m & H2 & -> & -> & HH2). cbn [snd].
    assert (located k (heads (H1 ++ [m])) (heads H2)) as Hloc' by (by rewrite heads_app, <- HH1, <- HH2, <- app_assoc).
    destruct (find_in_level _ _ _ _ _ _ _ _ Hl HH Hs Hloc') as (mp & i & ok & E1' & e' & E2' & Em & Hmx & Ef & HE' & Hi & Hdown).
    pose proof (x_has_c _ _ _ Hmx) as Hc. pose proof (x_has_len _ _ _ Hmx) as Hlen. destruct (Z.leb_spec (x_c mp) (2 * kx)) as [Hle|Hgt].
    + cbn [Nat.add]. rewrite (put_loop_down _ k upd _ _ _ _ mp i ok e'.2 Ef Em Hle) by (rewrite HE' in Hmx; by apply (x_get_ch _ _ _ _ _ _ Hmx)). rewrite Hi.
      destruct (IH t (addrs (G1 ++ n :: G2) ∪ U) H1 m H2 E1' e' E2' LL) as (t' & LL' & E & Hl' & Hm & Hf' & Hr & Hu & Hs'); try done; [|lia|].
      { intros u [Hu|Hu]%elem_of_union; [|by apply HU]. apply elem_of_list_to_set, list_elem_of_fmap in Hu as (n' & -> & Hin). destruct HG as [HG _]. destruct (HG n' Hin) as (? & -> & _). by eexists. }
      exists t', LL'. split_and!; try done; [intros u Hu'; apply Hu; by apply elem_of_union_r|]. exists (G1 ++ n :: G2). split; [done|]. split.
      * eapply level_frame; [|exact HG]. intros a Ha. apply Hu. by apply elem_of_union_l.
      * by rewrite children_mid, HE, <- app_assoc, app_assoc, HGe.
    + destruct (splitX_below t U G1 n G2 E1 m E2 H1 H2 (if ok then i + 1 else i)) as (t1 & Ea & k0 & Eb & Es & HEab & HEa & Hi1 & Hf1 & Hr1 & HG1 & HH1' & Hrn & HrU & Hsame); [done|done|done|done|done|done|lia|].
      cbn zeta in *. set (r := t_next t) in *. set (m1 := Node (nd_lo m) (nd_q m) Ea) in *. set (m2 := Node (Some k0) r Eb) in *. set (n' := Node (nd_lo n) (nd_q n) _) in *.
      assert (addrs (G1 ++ n' :: G2) = addrs (G1 ++ n :: G2)) as Han by apply addrs_put.
      assert (addrs (H1 ++ m1 :: m2 :: H2) = {[r]} ∪ addrs (H1 ++ m :: H2)) as Ham.
      { rewrite !addrs_app. change (addrs (m1 :: m2 :: H2)) with ({[nd_q m]} ∪ ({[r]} ∪ addrs H2)). change (addrs (m :: H2)) with ({[nd_q m]} ∪ addrs H2). clear. set_solver. }
      assert (children (G1 ++ n' :: G2) = heads (H1 ++ m1 :: m2 :: H2)) as Hch.
      { rewrite children_mid, heads_app. change (heads (m1 :: m2 :: H2)) with ((nd_lo m, XPage (nd_q m)) :: (Some k0, XPage r) :: heads H2).
        subst n'. cbn [nd_row]. by rewrite <- HH1, <- HH2, <- !app_assoc. }
      assert (children (H1 ++ m1 :: m2 :: H2) = children (H1 ++ m :: H2)) as Hch' by (by apply children_split).
      assert (shape (t_xs t1) (addrs (H1 ++ m1 :: m2 :: H2) ∪ (addrs (G1 ++ n :: G2) ∪ U)) h (children (H1 ++ m1 :: m2 :: H2)) (leaf_row LL)) as Hs1.
      { rewrite Hch', Ham. apply (shape_frame (t_xs t)).
        - intros a Ha. apply Hsame; intros ->; apply Ha; [|apply elem_of_union_r, elem_of_union_l, node_addr|apply elem_of_union_l, elem_of_union_l; by apply elem_of_singleton].
          apply elem_of_union_l, elem_of_union_r, node_addr.
        - eapply shape_mono; [|exact Hs]. intros a Ha. destruct (decide (a = r)) as [->|]; [by right|left]. clear -Ha n0. set_solver. }
      assert (∀ u, u ∈ addrs (G1 ++ n :: G2) ∪ U → is_Some (t_xs t1 !! u)) as HU1.
      { intros u Hu. destruct (decide (u = nd_q n)) as [->|].
        - destruct (level_node _ _ _ _ _ HG1) as (? & E & _). eexists. exact E.
        - rewrite Hsame; [|intros ->; destruct HH as (_ & _ & HH); apply (HH (nd_q m)); [apply node_addr|done]|done|intros ->; done].
          apply elem_of_union in Hu as [Hu|Hu]; [|by apply HU]. apply elem_of_list_to_set, list_elem_of_fmap in Hu as (nu & -> & Hin). destruct HG as [HG _]. destruct (HG nu Hin) as (? & -> & _). by eexists. }
      pose proof (leaves_idx _ _ _ Hi1 Hl) as Hl1. pose proof (tree_map_idx _ _ Hi1) as Hm1. rewrite HE' in HEab.
      assert (∃ H1' m' H2' E1'' E2'' j, H1 ++ m1 :: m2 :: H2 = H1' ++ m' :: H2' ∧ nd_row m' = E1'' ++ e' :: E2'' ∧ zlen (nd_row m') ≤ 2 * kx + 1 ∧
        splitX (Some (nd_q n)) (nd_q m) (zlen E1) (if ok then i + 1 else i) t = Ret ((nd_q m', j), t1) ∧ j = zlen E1'' ∧
        located k (children H1' ++ E1'' ++ [e']) (E2'' ++ children H2')) as (H1' & m' & H2' & E1'' & E2'' & j & HHe & HE'' & Hm' & Es' & -> & Hdown').
      { destruct (Z.ltb_spec kx (if ok then i + 1 else i)) as [Hlt|Hge]; rewrite Hi in *.
        - destruct (half_right _ _ _ _ _ HEab) as (E1b & HEb & HE1); [lia|].
          exists (H1 ++ [m1]), m2, H2, E1b, E2', (zlen E1' - (kx + 1)). subst m1 m2. split_and!; try done.
          + by rewrite <- app_assoc.
          + cbn. rewrite HE', HEab, zlen_app in Hlen. unfold kx in *. lia.
          + rewrite HE1, zlen_app. lia.
          + rewrite children_app, HE1 in *. cbn. by rewrite app_nil_r, <- !app_assoc in *.
        - destruct (half_left _ _ _ _ _ HEab) as (E2a & HEa' & HE2); [unfold kx in *; lia|].
          exists H1, m1, (m2 :: H2), E1', E2a, (zlen E1'). subst m1 m2. split_and!; try done.
          + cbn. unfold kx in *. lia.
          + change (children (_ :: H2)) with (Eb ++ children H2). by rewrite HE2, <- app_assoc in Hdown. }
      rewrite HHe in *. destruct (level_node _ _ _ _ _ HH1') as (yp & Ey & Hyx & _). rewrite HE'' in Hyx.
      cbn [Nat.add]. rewrite (put_loop_split _ k upd _ _ _ _ mp i ok t1 _ _ yp e'.2 Ef Em Hgt Es' Ey) by (by apply (x_get_ch _ _ _ _ _ _ Hyx)).
      destruct (IH t1 (addrs (G1 ++ n :: G2) ∪ U) H1' m' H2' E1'' e' E2'' LL) as (t' & LL' & E & Hl' & Hm & Hf' & Hr & Hu & Hs'); try done; [by rewrite Hm1|].
      exists t', LL'. rewrite Hm1 in *. split_and!; try done.
      * by rewrite Hr.
      * intros u Hu'. rewrite Hu by (by apply elem_of_union_r). apply Hsame; [intros ->; destruct HH as (_ & _ & HH); apply (HH (nd_q m)); [apply node_addr|by apply elem_of_union_r]| |intros ->; apply HrU; by apply elem_of_union_r].
        intros ->. destruct HG as (_ & _ & HG). apply (HG (nd_q n)); [apply node_addr|done].
      * exists (G1 ++ n' :: G2). split; [by rewrite <- (heads_put _ _ _ (nd_row n'))|]. split.
        -- eapply level_frame; [|exact HG1]. intros a Ha. rewrite Han in Ha. apply Hu. by apply elem_of_union_l.
        -- rewrite Han, Hch. exact Hs'.
Qed.

(** ** From the root *)

Lemma leaf_row_one s (q : page) LL : [(s, q)] = leaf_row LL → ∃ l, LL = [l] ∧ s = lf_lo l ∧ q = DPage (lf_q l).
Proof. intros E. destruct LL as [|l [|]]; [done| |done]. injection E as -> ->. by exists l. Qed.
Lemma heads_one s (q : page) G : [(s, q)] = heads G → ∃ n, G = [n] ∧ s = nd_lo n ∧ q = XPage (nd_q n).
Proof. intros E. destruct G as [|n [|]]; [done| |done]. injection E as -> ->. by exists n. Qed.
Lemma located_root k s (q : page) : s = None → located k [(s, q)] [].
Proof. intros ->. split; [intros m ->%list_elem_of_singleton; by apply page_item_lt|by intros m ?%not_elem_of_nil]. Qed.

(** The first item *)
Lemma first_item_ok t k v : repr t [] → t_r t = NilPage → ∃ t' LL', first_item zv k v t = Ret (tt, t') ∧ repr t' LL' ∧ tree_map t' = {[k := v]}.
Proof.
  intros (Hf & Hl & _) Hr. set (z := t_next t). destruct (d_insert_ok (zd zv) [] [] None None 0 k v (zd_has zv) eq_refl) as (pg & E & Hp); [done|].
  eexists _, [Leaf None z [(k, v)]]. split; [|split].
  - unfold first_item. rewrite (stM_Ret (new_d zv) _ t z _ eq_refl). unfold t_insert.
    erewrite stM_Ret; [|erewrite stM_Ret; [|apply t_do_Ret]; erewrite stM_Ret; [|apply (d_mod_Ret _ z (zd zv) pg); [look|done]]; apply t_do_Ret]. apply t_do_Ret.
  - split; [|split].
    + intros a Ha. cbn in *. destruct (Hf a) as [H1 H2]; [lia|]. split; [|done]. rewrite !lookup_insert_ne by (subst z; lia). done.
    + split; cbn; try done.
      * split; [|done]. exists pg. by rewrite lookup_insert_eq.
      * apply NoDup_singleton.
      * rewrite (lv_count _ _ Hl). done.
      * apply SSorted_cons; [apply SSorted_cons; constructor|]. apply Forall_singleton. by apply page_item_lt.
      * right. by eexists.
    + right. by exists 0%nat.
  - unfold tree_map. cbn -[Z.to_nat]. rewrite insert_insert_eq. destruct Hp as (Hn & _ & Hc & _ & junk & Hd).
    assert (t_ds t !! z = None) as Hz by (apply (Hf z); subst z; lia). rewrite map_size_insert_None by done. cbn [chain_items]. rewrite lookup_insert_eq, Hc, Hd, Hn. cbn.
    by destruct (size _).
Qed.

(** A root that is a leaf *)
Lemma put_root_leaf {X} k (upd : option V → outcome (X * option V)) (x : X) w t l fuel : fresh t → leaves t [l] → lf_lo l = None → t_r t = DPage (lf_q l) → upd (tree_map t !! k) = Ret (x, w) →
  ∃ t' LL', put_loop zv (S fuel) k upd (-1) None (DPage (lf_q l)) t = Ret ((x, put_result (tree_map t !! k) w), t') ∧
    leaves t' LL' ∧ tree_map t' = updated (tree_map t) k w ∧ fresh t' ∧ root_ok t' LL'.
Proof.
  intros Hf Hl Hlo Hr Hupd. apply (put_at_ok k upd x w t [] l [] (λ i v, add_item zv None (lf_q l) (-1) i k v) root_ok Hl Hf); [by apply located_root|done| |].
  - intros t' a b D. right. exists 0%nat. cbn. by rewrite (ds_root _ _ _ D), Hr, Hlo.
  - intros a b v Hits _ Hs. destruct l as [lo q its]. cbn in *. subst its lo. destruct (linked_get t [] (Leaf None q (a ++ b)) [] (leaves_linked _ _ Hl)) as (pg & E & _ & _ & Hc & _). cbn in E, Hc.
    unfold add_item. run (d_load_Ret _ _ _ E). rewrite Hc. destruct (Z.ltb_spec (zlen (a ++ b)) (2 * kd)) as [Hlt|Hge].
    { destruct (insert_leaf_ok t [] None q a b [] (zlen a) k v Hl Hs eq_refl Hlt) as (t' & E1 & Hl' & D). exists t', [Leaf None q (a ++ (k, v) :: b)].
      split; [exact E1|]. split_and!; [done|done|by eapply data_step_fresh|]. right. exists 0%nat. cbn. by rewrite (ds_root _ _ _ D), Hr. }
    pose proof (lv_size _ _ Hl (Leaf None q (a ++ b)) ltac:(by left)) as Hsz. cbn in Hsz.
    destruct (split_ok zv (incr_ver t) [] None q a b [] None (-1) (zlen a) k v
      (λ xs r k0, ∃ y yp, r = XPage y ∧ xs !! y = Some yp ∧ x_has yp None [(None, DPage q); (Some k0, DPage (t_next t))])) as (t' & k0 & iq & ir & E1 & Hits & Hl' & Hf' & y & yp & Hr' & Ey & Hy); [done| |done|done|lia| |].
    { by destruct Hl. }
    { intros t3 k0 Hxs Hr3 Hf3. destruct (add_child_root t3 None (-1) (DPage q) k0 (DPage (t_next t))) as (t4 & yp & E1 & Hi & Hf4 & Hr4 & Hxs4 & _ & Hy); [lia|done|].
      exists t4. split_and!; try done. exists (t_next t3), yp. split_and!; [done|by rewrite Hxs4, lookup_insert_eq|done]. }
    exists t', [Leaf None q iq; Leaf (Some k0) (t_next t) ir]. split; [exact E1|]. split_and!; [done| |done|].
    + cbn. rewrite app_nil_r, Hits. by rewrite app_nil_r.
    + right. exists 1%nat. cbn [shape]. exists [Node None y [(None, DPage q); (Some k0, DPage (t_next t))]]. split; [by rewrite Hr'|]. split; [|done].
      split_and!; [intros n ->%list_elem_of_singleton; by exists yp|apply NoDup_singleton|by intros n ->%list_elem_of_singleton; right|set_solver].
Qed.

(** A full root that is an index page *)
Lemma splitX_root t m i : fresh t → level (t_xs t) ∅ [m] → nd_lo m = None → zlen (nd_row m) = 2 * kx + 2 →
  ∃ t1 y Ea k0 Eb, let r := t_next t in let m1 := Node None (nd_q m) Ea in let m2 := Node (Some k0) r Eb in
    let n' := Node None y [(None, XPage (nd_q m)); (Some k0, XPage r)] in
    splitX None (nd_q m) (-1) i t = Ret (if kx <? i then (r, i - (kx + 1)) else (nd_q m, i), t1) ∧ nd_row m = Ea ++ Eb ∧ zlen Ea = kx + 1 ∧
    idx_step t t1 ∧ fresh t1 ∧ t_r t1 = XPage y ∧ level (t_xs t1) ∅ [n'] ∧ level (t_xs t1) {[y]} [m1; m2] ∧
    t_xs t !! r = None ∧ t_xs t !! y = None ∧ (∀ a : ptr, a ≠ nd_q m → a ≠ y → a ≠ r → t_xs t1 !! a = t_xs t !! a).
Proof.
  intros Hf HH Hlo Hm. destruct (level_node _ _ [] _ [] HH) as (mp & Em & Hmx & _). rewrite Hlo in Hmx.
  set (r := t_next t). assert (t_xs t !! r = None) as Hr by (apply (Hf r); subst r; lia).
  destruct (splitX_ok t None (nd_q m) mp None (nd_row m) (-1) i
    (λ p' pp rt k0, rt = XPage p' ∧ t_xs t !! p' = None ∧ x_has pp None [(None, XPage (nd_q m)); (Some k0, XPage r)])) as
    (t1 & k0 & y & pp & Ea & c & Eb & xp' & rp & Es & HE & HEa & Hi & Hf1 & Hym & Hyr & Hxr & (Hrt & Hy & Hpp) & Hxs & Hx1 & Hx2); [done..| |].
  { intros t3 k0 xp1 rp1 Hi Hrt Hxs3 Hf3. destruct (add_child_root t3 None (-1) (XPage (nd_q m)) k0 (XPage r)) as (t4 & yp & E1 & Hi4 & Hf4 & Hr4 & Hxs4 & _ & Hy); [lia|done|].
    destruct (Hf3 (t_next t3)) as [_ H3]; [lia|]. rewrite Hxs3 in H3. apply lookup_insert_None in H3 as [H3 H4]. apply lookup_insert_None in H3 as [H3 H5].
    exists t4, (t_next t3), yp. split_and!; done. }
  exists t1, y, Ea, k0, ((Some k0, c) :: Eb). cbn zeta. split_and!; try done.
  - split_and!; [|apply NoDup_singleton|by intros n ->%list_elem_of_singleton; right|set_solver]. intros n ->%list_elem_of_singleton. exists pp. split; [|done]. cbn. rewrite Hxs. look.
  - assert (level (<[nd_q m := xp']> (<[r := rp]> (t_xs t))) {[y]} [Node None (nd_q m) Ea; Node (Some k0) r ((Some k0, c) :: Eb)]) as HL.
    { rewrite HE, zlen_app, zlen_cons in Hm. pose proof (level_split (t_xs t) {[y]} [] m [] xp' rp (Some k0) r Ea ((Some k0, c) :: Eb)) as H. cbn [app] in H. rewrite Hlo in H.
      apply H; clear H; try done; [|unfold kx in *; lia|rewrite zlen_cons; unfold kx in *; lia|by apply not_elem_of_singleton].
      destruct HH as (? & ? & _). split; [done|]. split; [done|]. unfold addrs. cbn. clear -Hym. set_solver. }
    eapply level_frame; [|exact HL]. intros a Ha. rewrite Hxs.
    assert (a ≠ y). { intros ->. destruct HL as (_ & _ & HL). apply (HL y); [done|by apply elem_of_singleton]. }
    destruct (decide (a = nd_q m)) as [->|]; [look|]. rewrite !(lookup_insert_ne _ (nd_q m)) by done. by rewrite lookup_insert_ne by done.
  - intros a Ha1 Ha2 Ha3. rewrite Hxs. by rewrite !lookup_insert_ne.
Qed.

Lemma put_root_page {X} k (upd : option V → outcome (X * option V)) (x : X) w t LL m h fuel : fresh t → leaves t LL → level (t_xs t) ∅ [m] → nd_lo m = None →
  t_r t = XPage (nd_q m) → shape (t_xs t) (addrs [m] ∪ ∅) h (children [m]) (leaf_row LL) → upd (tree_map t !! k) = Ret (x, w) →
  ∃ t' LL', put_loop zv (S (S (h + fuel))) k upd (-1) None (t_r t) t = Ret ((x, put_result (tree_map t !! k) w), t') ∧
    leaves t' LL' ∧ tree_map t' = updated (tree_map t) k w ∧ fresh t' ∧ root_ok t' LL'.
Proof.
  intros Hf Hl HH Hlo Hr Hs Hupd. rewrite Hr.
  destruct (find_in_level t ∅ [] m [] h LL k Hl HH Hs) as (mp & i & ok & E1 & e & E2 & Em & Hmx & Ef & HE & Hi & Hdown); [by apply located_root|].
  pose proof (x_has_c _ _ _ Hmx) as Hc. pose proof (x_has_len _ _ _ Hmx) as Hlen. cbn [app] in *. destruct (Z.leb_spec (x_c mp) (2 * kx)) as [Hle|Hgt].
  - rewrite (put_loop_down _ k upd _ _ _ _ mp i ok e.2 Ef Em Hle) by (rewrite HE in Hmx; by apply (x_get_ch _ _ _ _ _ _ Hmx)). rewrite Hi.
    destruct (put_loop_ok k upd x w fuel h t ∅ [] m [] E1 e E2 LL) as (t' & LL' & E & Hl' & Hm & Hf' & Hr' & _ & Hs'); try done; [lia|].
    exists t', LL'. split_and!; try done. right. exists (S h). by rewrite Hr', Hr, <- Hlo.
  - destruct (splitX_root t m (if ok then i + 1 else i)) as (t1 & y & Ea & k0 & Eb & Es & HEab & HEa & Hi1 & Hf1 & Hr1 & HG1 & HH1 & Hrn & Hyn & Hsame); [done|done|done|lia|].
    cbn zeta in *. set (r := t_next t) in *. set (m1 := Node None (nd_q m) Ea) in *. set (m2 := Node (Some k0) r Eb) in *. set (n' := Node None y _) in *.
    pose proof (leaves_idx _ _ _ Hi1 Hl) as Hl1. pose proof (tree_map_idx _ _ Hi1) as Hm1. rewrite HE in HEab.
    assert (children [m1; m2] = children [m]) as Hch by (cbn; by rewrite app_assoc, HE, <- HEab).
    assert (shape (t_xs t1) (addrs [m1; m2] ∪ {[y]}) h (children [m1; m2]) (leaf_row LL)) as Hs1.
    { rewrite Hch. apply (shape_frame (t_xs t)).
      - intros a Ha. apply Hsame; intros ->; apply Ha; [|by apply elem_of_union_r, elem_of_singleton|]; apply elem_of_union_l; [apply (elem_of_addrs m1); by left|apply (elem_of_addrs m2); right; by left].
      - eapply shape_mono; [|exact Hs]. unfold addrs. cbn. intros a Ha. destruct (decide (a = r)) as [->|]; [by right|]. destruct (decide (a = y)) as [->|]; [by right|left]. clear -Ha n n0. set_solver. }
    assert (∃ H1' m' H2' E1'' E2'' j, [m1; m2] = H1' ++ m' :: H2' ∧ nd_row m' = E1'' ++ e :: E2'' ∧ zlen (nd_row m') ≤ 2 * kx + 1 ∧
      splitX None (nd_q m) (-1) (if ok then i + 1 else i) t = Ret ((nd_q m', j), t1) ∧ j = zlen E1'' ∧
      located k (children H1' ++ E1'' ++ [e]) (E2'' ++ children H2')) as (H1' & m' & H2' & E1'' & E2'' & j & HHe & HE'' & Hm' & Es' & -> & Hdown').
    { destruct (Z.ltb_spec kx (if ok then i + 1 else i)) as [Hlt|Hge]; rewrite Hi in *.
      - destruct (half_right _ _ _ _ _ HEab) as (E1b & HEb & HE1); [lia|]. exists [m1], m2, [], E1b, E2, (zlen E1 - (kx + 1)). subst m1 m2. split_and!; try done.
        + cbn. rewrite HE, HEab, zlen_app in Hlen. unfold kx in *. lia.
        + rewrite HE1, zlen_app. lia.
        + rewrite HE1, <- app_assoc in Hdown. change (children [_]) with (Ea ++ []). by rewrite app_nil_r.
      - destruct (half_left _ _ _ _ _ HEab) as (E2a & HEa' & HE2); [unfold kx in *; lia|]. exists [], m1, [m2], E1, E2a, (zlen E1). subst m1 m2. split_and!; try done.
        + cbn. unfold kx in *. lia.
        + rewrite HE2 in Hdown. cbn in *. by rewrite !app_nil_r in *. }
    rewrite HHe in *. destruct (level_node _ _ _ _ _ HH1) as (yp & Ey & Hyx & _). rewrite HE'' in Hyx.
    rewrite (put_loop_split _ k upd _ _ _ _ mp i ok t1 _ _ yp e.2 Ef Em Hgt Es' Ey) by (by apply (x_get_ch _ _ _ _ _ _ Hyx)).
    destruct (put_loop_ok k upd x w fuel h t1 {[y]} H1' m' H2' E1'' e E2'' LL) as (t' & LL' & E & Hl' & Hm & Hf' & Hr' & Hu & Hs'); try done; [|by rewrite Hm1|].
    { intros u ->%elem_of_singleton. destruct (level_node _ _ [] _ [] HG1) as (? & E & _). eexists. exact E. }
    exists t', LL'. rewrite Hm1 in *. split_and!; try done. right. exists (S (S h)), [n']. split; [by rewrite Hr', Hr1|]. split.
    + eapply level_frame; [|exact HG1]. intros a Ha. apply Hu. unfold addrs in Ha. cbn in Ha. clear -Ha. set_solver.
    + change (children [n']) with (heads [m1; m2]). rewrite HHe. replace (addrs [n'] ∪ ∅) with ({[y]} : gset ptr) by (unfold addrs; cbn; clear; set_solver). exact Hs'.
Qed.

(** [Put] updates the map of a tree by what the callback returns. *)
Lemma Tree_Put_ok {X} t LL k (upd : option V → outcome (X * option V)) (x : X) w : repr t LL → upd (tree_map t !! k) = Ret (x, w) →
  ∃ t' LL', Tree_Put zv k upd t = Ret ((x, put_result (tree_map t !! k) w), t') ∧ repr t' LL' ∧ tree_map t' = updated (tree_map t) k w.
Proof.
  intros HR Hupd. unfold Tree_Put. case_bool_decide as Hr.
  { pose proof (repr_nil _ _ HR Hr) as ->. rewrite (tree_map_nil _ HR), lookup_empty in *. run (st_lift_Ret _ t _ Hupd). destruct w as [v|]; [|exists t, []; split_and!; [done|done|by rewrite (tree_map_nil _ HR)]].
    destruct (first_item_ok t k v HR Hr) as (t' & LL' & E & HR' & Hm). run E. by exists t', LL'. }
  destruct HR as (Hf & Hl & [[? _]|[h Hs]]); [done|]. pose proof Hs as Hd. apply shape_depth in Hd; [|done|set_solver]. rewrite size_empty in Hd. cbn [Nat.add] in Hd.
  assert (∃ t' LL', put_loop zv (depth t) k upd (-1) None (t_r t) t = Ret ((x, put_result (tree_map t !! k) w), t') ∧
    leaves t' LL' ∧ tree_map t' = updated (tree_map t) k w ∧ fresh t' ∧ root_ok t' LL') as (t' & LL' & E & Hl' & Hm & Hf' & Hr'); [|by exists t', LL'].
  destruct h as [|h].
  - cbn [shape] in Hs. destruct (leaf_row_one _ _ _ Hs) as (l & -> & Hlo & Hq). rewrite Hq. by apply put_root_leaf.
  - destruct Hs as (G & HG & HH & Hs). destruct (heads_one _ _ _ HG) as (m & -> & Hlo & Hq). unfold depth.
    replace (size (t_xs t)) with (h + (size (t_xs t) - h))%nat by lia. by apply (put_root_page k upd x w t LL m).
Qed.

(** ** [Set] *)

(** A run without its result *)
Definition forget {Y} (r : outcome (Y * BTree V)) : outcome (unit * BTree V) := '(_, t) ← r; Ret (tt, t).
Lemma forget_bind {Y C} (m : stM (BTree V) Y) (f : Y → stM (BTree V) unit) (g : Y → stM (BTree V) C) t :
  (∀ y t, f y t = forget (g y t)) → (m ≫= f) t = forget ((m ≫= g) t).
Proof. intros H. unfold mbind, stM_bind, forget. destruct (m t) as [[a t']|]; [|done]. cbn. apply H. Qed.

Lemma set_loop_put fuel k v : ∀ pi (p : option ptr) (q : page) t, set_loop zv fuel k v pi p q t = forget (put_loop zv fuel k (λ _, Ret (tt, Some v)) pi p q t).
Proof.
  induction fuel as [|fuel IH]; intros pi p q t; [done|]. cbn [set_loop put_loop]. apply forget_bind. intros [i ok] t1. destruct q as [|x|x]; [apply IH| |].
  - apply forget_bind. intros xp t2. apply forget_bind. intros [y j] t3. apply forget_bind. intros yp t4. apply forget_bind. intros c t5. apply IH.
  - destruct ok; [|unfold mbind, stM_bind, forget, st_lift; cbn; by destruct (add_item _ _ _ _ _ _ _ _) as [[[] ?]|]].
    unfold d_mod. unfold mbind, stM_bind, forget, d_load, st_lift. destruct (t_ds t1 !! x) as [pg|] eqn:E; [|done]. cbn.
    destruct (index (d_d pg) i) as [e|] eqn:E2; [|done]. cbn. rewrite E. cbn. rewrite E2. cbn. by destruct (d_set _ _ _).
Qed.
Lemma Tree_Set_put k v t : Tree_Set zv k v t = forget (Tree_Put zv k (λ _, Ret (tt, Some v)) t).
Proof.
  unfold Tree_Set, Tree_Put. case_bool_decide; [|apply set_loop_put]. unfold mbind, stM_bind, forget, st_lift. cbn. by destruct (first_item _ _ _ _) as [[[] ?]|].
Qed.
Lemma Tree_Set_ok t LL k v : repr t LL → ∃ t' LL', Tree_Set zv k v t = Ret (tt, t') ∧ repr t' LL' ∧ tree_map t' = <[k := v]> (tree_map t).
Proof.
  intros HR. destruct (Tree_Put_ok t LL k (λ _, Ret (tt, Some v)) tt (Some v) HR eq_refl) as (t' & LL' & E & HR' & Hm).
  exists t', LL'. by rewrite Tree_Set_put, E.
Qed.
Lemma PutNewAndGetOld_ok t LL k v : repr t LL →
  ∃ t' LL', PutNewAndGetOld zv k v t = Ret ((default zv (tree_map t !! k), bool_decide (is_Some (tree_map t !! k))), t') ∧ repr t' LL' ∧ tree_map t' = <[k := v]> (tree_map t).
Proof.
  intros HR. destruct (Tree_Put_ok t LL k (λ old, Ret (bool_decide (is_Some old), Some v)) _ (Some v) HR eq_refl) as (t' & LL' & E & HR' & Hm).
  exists t', LL'. unfold PutNewAndGetOld. by run E.
Qed.
End put.
