(* ===== verification/BTreeUnderflow.v ===== *)
(** * Filling up pages of the B+tree

    [Delete] fills up index pages that are less than half full on its way down,
    and afterwards the leaf it took an item from: from a neighbour, or by
    joining the two, which can make the root superfluous. *)
From S2P Require Import Prelude ByteOrder BTreeSpec BTree BTreePages BTreeInv BTreeFind BTreeLeaves BTreeSet BTreePut.

Section delete.
Context {V : Type} (zv : V).
Notation item := (bytes * V)%type.
Implicit Types (t : BTree V) (L A B LL : list (leaf V)) (a b its : list item) (k : bytes) (v : V) (lo : option bytes) (q p : ptr) (xp : x_page) (R : row) (G : list node) (n m : node) (U : gset ptr).

(** ** A leaf that has become too small *)

(** Everything but the sizes of the leaves. *)
Record loose t LL : Prop := {
  ls_linked : linked t LL;
  ls_count : t_c t = zlen (flat LL);
  ls_sorted : sorted (marks LL)
}.
Lemma loose_leaves t LL : loose t LL → leaf_sizes LL → leaves t LL.
Proof. intros [] ?. by apply linked_leaves. Qed.
Lemma loose_full t LL : loose t LL → (∀ l, l ∈ LL → leaf_full l) → leaves t LL.
Proof. intros. apply loose_leaves; [done|by left]. Qed.

Lemma borrow_from_left t A lol l il lq q its B p xp lo R1 R2 pi : loose t (A ++ Leaf lol l il :: Leaf lq q its :: B) → 1 < zlen il → zlen its < kd →
  t_xs t !! p = Some xp → x_has xp lo (R1 ++ (lq, DPage q) :: R2) → pi = zlen R1 → 1 ≤ pi →
  ∃ t' k0 il' iq xp', (_ ← mvR l q 1; k ← first_key q; x_mod p (λ pp, set_k pp (pi - 1) k)) t = Ret (tt, t') ∧ il' ++ iq = il ++ its ∧ zlen il' = zlen il - 1 ∧
    loose t' (A ++ Leaf lol l il' :: Leaf (Some k0) q iq :: B) ∧ kept t t' p xp' ∧ x_has xp' lo (R1 ++ (Some k0, DPage q) :: R2).
Proof.
  intros [K Hc Hs] Hil Hits Ep Hx -> Hpi. destruct (list_snoc il) as (x & e & ->); [lia|].
  destruct (mvR_ok t A lol l x [e] lq q its B 1 lq K) as (t1 & E1 & K1 & D); [done|unfold kd in *; zlen|].
  pose proof K1 as K1'. rewrite cons_middle, app_assoc in K1'.
  destruct (x_set_k xp lo R1 lq (DPage q) R2 (zlen R1 - 1) e.1 Hx) as (xp' & Ek & Hx'); [lia|lia|].
  eexists _, e.1, x, (e :: its), xp'. split; [|split; [by rewrite <- app_assoc|split; [zlen|split; [|split; [by eapply kept_put|done]]]]].
  - run E1. run (first_key_ok _ _ _ _ _ _ _ K1'). apply (x_mod_Ret t1 p xp xp'); [by rewrite (ds_xs _ _ _ D)|done].
  - split; [apply linked_xs; rewrite cons_middle, app_assoc; by eapply linked_relabel| |].
    + cbn. rewrite (ds_count _ _ _ D), Hc, !flat_app, !flat_cons. cbn. zlen.
    + eapply marks_border; [exact Hs|by rewrite <- app_assoc|]. intros ->. zlen.
Qed.

Lemma borrow_from_right t A lq q its lor r ir B p xp lo R1 R2 pi : loose t (A ++ Leaf lq q its :: Leaf lor r ir :: B) → 1 < zlen ir ≤ 2 * kd → zlen its < kd →
  t_xs t !! p = Some xp → x_has xp lo (R1 ++ (lor, DPage r) :: R2) → pi + 1 = zlen R1 → 0 ≤ pi →
  ∃ t' k0 iq ir' xp', (_ ← mvL q r 1; k ← first_key r; _ ← x_mod p (λ pp, set_k pp pi k); d_mod r (λ rp, d_set rp (d_c rp) (zde zv))) t = Ret (tt, t') ∧
    iq ++ ir' = its ++ ir ∧ zlen ir' = zlen ir - 1 ∧
    loose t' (A ++ Leaf lq q iq :: Leaf (Some k0) r ir' :: B) ∧ kept t t' p xp' ∧ x_has xp' lo (R1 ++ (Some k0, DPage r) :: R2).
Proof.
  intros [K Hc Hs] Hir Hits Ep Hx Hpi Hpi0. destruct (list_cons ir) as (e & ir1 & ->); [lia|]. destruct (list_cons ir1) as (e1 & ir2 & ->); [zlen|].
  destruct (mvL_ok t A lq q its lor r [e] (e1 :: ir2) B 1 lor K) as (t1 & E1 & K1 & D); [done|unfold kd in *; lia|].
  pose proof K1 as K1'. rewrite cons_middle, app_assoc in K1'.
  destruct (x_set_k xp lo R1 lor (DPage r) R2 pi e1.1 Hx) as (xp' & Ek & Hx'); [lia|lia|].
  destruct (linked_get _ _ _ _ K1') as (rp & Er & Hr). cbn in Er, Hr. destruct (d_set_past rp _ _ _ (d_c rp) (zde zv) Hr) as (rp' & Es & Hr'); [apply Hr|zlen|].
  pose proof (data_step_put t1 r rp rp' Er) as D2. pose proof (data_step_trans _ _ _ _ _ D D2) as D3.
  eexists (set_xs (set_ds t1 (<[r := rp']> (t_ds t1))) (<[p := xp']> (t_xs t1))), e1.1, (its ++ [e]), (e1 :: ir2), xp'. split; [|split; [by rewrite <- app_assoc|split; [zlen|split; [|split; [|done]]]]].
  - run E1. run (first_key_ok _ _ _ _ _ _ _ K1'). erewrite stM_Ret; [|apply (x_mod_Ret t1 p xp xp'); [by rewrite (ds_xs _ _ _ D)|done]].
    by rewrite (d_mod_Ret _ r rp rp').
  - pose proof (linked_put t1 _ (Leaf lor r (e1 :: ir2)) B rp' (e1 :: ir2) (Some e1.1) K1' Hr') as Kp. split; [| |].
    + rewrite cons_middle, app_assoc. apply (linked_xs (set_ds t1 (<[r := rp']> (t_ds t1))) _ _ Kp).
    + cbn. rewrite (ds_count _ _ _ D), Hc, !flat_app, !flat_cons. cbn. zlen.
    + eapply marks_border; [exact Hs|by rewrite <- app_assoc|]. by destruct its.
  - exact (kept_put _ _ _ p xp' xp Ep D3).
Qed.

(** Two leaves are joined. *)
Definition root_leaf t LL : Prop := ∃ l, LL = [l] ∧ t_r t = DPage (lf_q l).
Lemma cat_ok t A lq q its lor r ir B p xp lo R1 s c R2 e2 pi : loose t (A ++ Leaf lq q its :: Leaf lor r ir :: B) → zlen its + zlen ir ≤ 2 * kd + 1 →
  t_xs t !! p = Some xp → x_has xp lo (R1 ++ (s, c) :: e2 :: R2) → pi = zlen R1 →
  (0 < zlen R1 + zlen R2 ∨ (A = [] ∧ B = [] ∧ t_r t = XPage p)) → fresh t →
  ∃ t' , cat zv p q r pi t = Ret (tt, t') ∧ loose t' (A ++ Leaf lq q (its ++ ir) :: B) ∧ fresh t' ∧
    ((0 < zlen R1 + zlen R2 ∧ ∃ xp', kept t t' p xp' ∧ x_has xp' lo (R1 ++ (s, DPage q) :: R2)) ∨ (zlen R1 + zlen R2 = 0 ∧ t_r t' = DPage q)).
Proof.
  intros [K Hc Hs] Hn Ep Hx -> Hroot Hf. pose proof (linked_ver _ _ K) as Kv.
  pose proof Kv as Kv'. rewrite cons_middle, app_assoc in Kv'. destruct (linked_get _ _ _ _ Kv') as (rp & Er & _ & _ & Hrc & _). cbn in Er, Hrc.
  rewrite <- (app_nil_r ir) in Kv. destruct (mvL_ok (incr_ver t) A lq q its lor r ir [] B (zlen ir) lor Kv) as (t1 & E1 & K1 & D1); [done|lia|].
  destruct (unlink_ok zv t1 A lq q (its ++ ir) lor r [] B K1) as (t2 & E2 & K2 & D2). pose proof (data_step_trans _ _ _ _ _ D1 D2) as D.
  assert (t_xs t2 !! p = Some xp) as Ep2 by (by rewrite (ds_xs _ _ _ D)). assert (x_c xp = zlen R1 + zlen R2 + 1) as Hxc by (rewrite (x_has_c _ _ _ Hx); zlen).
  assert (fresh t2) as Hf2 by (by eapply data_step_fresh).
  unfold cat. run (t_do_Ret t incr_ver). run (d_load_Ret (incr_ver t) r rp Er). rewrite Hrc. run E1. run E2. run (x_load_Ret _ _ _ Ep2). rewrite Hxc.
  assert (∀ t', idx_step t2 t' → loose t' (A ++ Leaf lq q (its ++ ir) :: B)) as Hls.
  { intros t' Hi. split; [by eapply linked_idx| |by eapply marks_merge]. destruct Hi as (_ & _ & _ & ->). rewrite (ds_count _ _ _ D). cbn. rewrite Hc, !flat_app, !flat_cons. cbn. zlen. }
  destruct (Z.ltb_spec 1 (zlen R1 + zlen R2 + 1)) as [Hlt|Hge].
  - destruct (x_extract_ok xp lo R1 s c e2 R2 (zlen R1) (DPage q) Hx eq_refl) as (xp1 & xp2 & X1 & X2 & Hx2).
    erewrite stM_Ret; [|apply (x_mod_Ret t2 p xp xp1); done]. erewrite (x_mod_Ret _ p xp1 xp2); [|look|done]. cbn. rewrite insert_insert_eq.
    eexists. split; [reflexivity|]. split; [by apply Hls|]. split; [by apply (fresh_put t2 p xp2 xp)|]. left. split; [lia|]. exists xp2. split; [|done].
    split_and!; cbn; [by rewrite (ds_xs _ _ _ D)|apply D|]. intros _. by apply (fresh_put t2 p xp2 xp).
  - destruct Hroot as [?|(-> & -> & Hr)]; [lia|]. assert (t_r t2 = XPage p) as Hr2 by (rewrite (ds_root _ _ _ D); done).
    eexists. split; [|split; [|split]].
    + erewrite stM_Ret; [|unfold free_root; erewrite stM_Ret; [|reflexivity]; rewrite Hr2; reflexivity]. reflexivity.
    + by apply Hls.
    + apply (fresh_put t2 p zx xp) in Hf2; [|done]. exact Hf2.
    + right. split; [|done]. pose proof (zlen_nonneg R1). pose proof (zlen_nonneg R2). lia.
Qed.

Lemma sizes_two (P : leaf V → Prop) A l1 l2 B : (∀ l, l ∈ A ++ B → P l) → P l1 → P l2 → ∀ l, l ∈ A ++ l1 :: l2 :: B → P l.
Proof. intros H H1 H2 l [Hl|[->|[->|Hl]%elem_of_cons]%elem_of_cons]%elem_of_app; try done; apply H, elem_of_app; auto. Qed.
Lemma sizes_one (P : leaf V → Prop) A l1 B : (∀ l, l ∈ A ++ B → P l) → P l1 → ∀ l, l ∈ A ++ l1 :: B → P l.
Proof. intros H H1 l [Hl|[->|Hl]%elem_of_cons]%elem_of_app; try done; apply H, elem_of_app; auto. Qed.
Lemma loose_ver t LL : loose t LL → loose (incr_ver t) LL.
Proof. intros [K ? ?]. split; [by apply linked_ver|done..]. Qed.

(** The parent [p] of the leaves [L'], as they are now: it is there, or it was
    the root and its only leaf is the root now. *)
Definition filled (root : Prop) p lo t t' (L' : list (leaf V)) : Prop :=
  (∃ xp', kept t t' p xp' ∧ x_has xp' lo (leaf_row L') ∧ 2 ≤ zlen L' ∧ (kx ≤ zlen L' ∨ root)) ∨
  (root ∧ ∃ l, L' = [l] ∧ lf_lo l = lo ∧ t_r t' = DPage (lf_q l)).

Section underflow.
Context (t : BTree V) (LA LB : list (leaf V)) (p : ptr) (xp : x_page) (lo : option bytes).
Hypothesis Hf : fresh t.
Hypothesis Ep : t_xs t !! p = Some xp.
(** Whether [p] is the root *)
Context (root : Prop).
Hypothesis Hroot : root → LA = [] ∧ LB = [] ∧ t_r t = XPage p.

Definition fill_ok (run : outcome (unit * BTree V)) (its : list item) : Prop :=
  ∃ t' L', run = Ret (tt, t') ∧ leaves t' (LA ++ L' ++ LB) ∧ flat L' = its ∧ fresh t' ∧ filled root p lo t t' L'.

(** Room for one leaf less than there are *)
Definition room (L : list (leaf V)) : Prop := kx + 1 ≤ zlen L ∨ (2 ≤ zlen L ∧ root).

Lemma room_len L L' : zlen L = zlen L' → room L → room L'.
Proof. unfold room. by intros ->. Qed.

Lemma cat_fill L1 lq q its lor r ir L2 pi : loose t (LA ++ (L1 ++ Leaf lq q its :: Leaf lor r ir :: L2) ++ LB) →
  (∀ l, l ∈ (LA ++ L1) ++ L2 ++ LB → leaf_full l) → kd ≤ zlen its + zlen ir ≤ 2 * kd →
  x_has xp lo (leaf_row (L1 ++ Leaf lq q its :: Leaf lor r ir :: L2)) → pi = zlen L1 → room (L1 ++ Leaf lq q its :: Leaf lor r ir :: L2) →
  fill_ok (cat zv p q r pi (incr_ver t)) (flat L1 ++ (its ++ ir) ++ flat L2).
Proof.
  intros Hl Hsz Hn Hx -> Hroom. rewrite <- app_assoc, app_assoc in Hl. cbn [app] in Hl. apply loose_ver in Hl. rewrite leaf_row_app in Hx. cbn in Hx.
  destruct (cat_ok (incr_ver t) (LA ++ L1) lq q its lor r ir (L2 ++ LB) p xp lo (leaf_row L1) lq (DPage q) (leaf_row L2) (lor, DPage r) (zlen L1))
    as (t' & E & Hl' & Hf' & H); [done|lia|done|done|by rewrite leaf_row_len| |done|].
  { rewrite !leaf_row_len. destruct Hroom as [H3|[H2 Hr]]; [left; unfold kx in *; zlen|]. destruct L1; [|left; zlen]. destruct L2; [|left; zlen]. right. destruct (Hroot Hr) as (-> & -> & Hr1). done. }
  exists t', (L1 ++ Leaf lq q (its ++ ir) :: L2). split; [done|]. split; [|split; [|split; [done|]]].
  - rewrite <- app_assoc, app_assoc. apply loose_full; [done|]. apply sizes_one; [done|]. unfold leaf_full. cbn. zlen.
  - by rewrite flat_app, flat_cons.
  - rewrite !leaf_row_len in H. destruct H as [(H2 & xp' & Hk & Hx')|[H2 Hr']].
    + left. exists xp'. split; [done|]. split; [by rewrite leaf_row_app|]. split; [zlen|]. destruct Hroom as [?|[_ ?]]; [left; unfold kx in *; zlen|by right].
    + right. destruct L1; [|zlen]. destruct L2; [|zlen]. split; [destruct Hroom as [?|[_ ?]]; [unfold kx in *; zlen|done]|]. exists (Leaf lq q (its ++ ir)). cbn. split; [done|].
      split; [|done]. destruct (x_has_head _ _ _ Hx) as (? & ? & E'). cbn in E'. by injection E'.
Qed.

Lemma fill_pair M1 l1 l2 M2 t' xp' run : run = Ret (tt, t') → loose t' ((LA ++ M1) ++ l1 :: l2 :: M2 ++ LB) →
  (∀ l, l ∈ (LA ++ M1) ++ M2 ++ LB → leaf_full l) → leaf_full l1 → leaf_full l2 →
  kept t t' p xp' → x_has xp' lo (leaf_row (M1 ++ l1 :: l2 :: M2)) → room (M1 ++ l1 :: l2 :: M2) → fill_ok run (flat M1 ++ (lf_its l1 ++ lf_its l2) ++ flat M2).
Proof.
  intros E Hl Hsz H1 H2 Hk Hx Hroom. exists t', (M1 ++ l1 :: l2 :: M2). split; [done|].
  split; [|split; [|split; [by apply Hk|left; exists xp'; split_and!; [done|done|zlen|destruct Hroom as [?|[_ ?]]; [left; lia|by right]]]]].
  - rewrite <- app_assoc, app_assoc. apply loose_full; [done|]. by apply sizes_two.
  - rewrite !flat_app, !flat_cons. by rewrite <- app_assoc.
Qed.

Lemma left_fill L1 lol l il lq q its L2 pi : loose t ((LA ++ L1) ++ Leaf lol l il :: Leaf lq q its :: L2 ++ LB) →
  (∀ l, l ∈ (LA ++ L1) ++ L2 ++ LB → leaf_full l) → zlen il ≤ 2 * kd → zlen its + 1 = kd → 2 * kd ≤ zlen il + zlen its →
  x_has xp lo (leaf_row (L1 ++ Leaf lol l il :: Leaf lq q its :: L2)) → pi = zlen L1 + 1 → room (L1 ++ Leaf lol l il :: Leaf lq q its :: L2) →
  fill_ok ((_ ← mvR l q 1; k ← first_key q; x_mod p (λ pp, set_k pp (pi - 1) k)) (incr_ver t)) (flat L1 ++ (il ++ its) ++ flat L2).
Proof.
  intros Hl Hsz Hil Hn Hge Hx -> Hroom. rewrite leaf_row_app in Hx. cbn in Hx. rewrite cons_middle, app_assoc in Hx.
  destruct (borrow_from_left (incr_ver t) (LA ++ L1) lol l il lq q its (L2 ++ LB) p xp lo (leaf_row L1 ++ [(lol, DPage l)]) (leaf_row L2) (zlen L1 + 1) (loose_ver _ _ Hl)) as (t' & k0 & il' & iq & xp' & E' & Hits & Hil' & Hls & Hk & Hx');
    [unfold kd in *; lia|unfold kd in *; lia|done|exact Hx|rewrite zlen_app, leaf_row_len; zlen|zlen|].
  pose proof (f_equal zlen Hits) as Hlen. rewrite <- Hits. apply (fill_pair L1 (Leaf lol l il') (Leaf (Some k0) q iq) L2 t' xp'); cbn; try done; [unfold leaf_full; cbn; unfold kd in *; zlen|unfold leaf_full; cbn; unfold kd in *; zlen| |by eapply room_len; [|exact Hroom]; zlen].
  rewrite leaf_row_app. cbn. by rewrite <- app_assoc in Hx'.
Qed.
Lemma right_fill L1 lq q its lor r ir L2 pi : loose t ((LA ++ L1) ++ Leaf lq q its :: Leaf lor r ir :: L2 ++ LB) →
  (∀ l, l ∈ (LA ++ L1) ++ L2 ++ LB → leaf_full l) → zlen ir ≤ 2 * kd → zlen its + 1 = kd → 2 * kd ≤ zlen its + zlen ir →
  x_has xp lo (leaf_row (L1 ++ Leaf lq q its :: Leaf lor r ir :: L2)) → pi = zlen L1 → room (L1 ++ Leaf lq q its :: Leaf lor r ir :: L2) →
  fill_ok ((_ ← mvL q r 1; k ← first_key r; _ ← x_mod p (λ pp, set_k pp pi k); d_mod r (λ rp, d_set rp (d_c rp) (zde zv))) (incr_ver t)) (flat L1 ++ (its ++ ir) ++ flat L2).
Proof.
  intros Hl Hsz Hir Hn Hge Hx -> Hroom. rewrite leaf_row_app in Hx. cbn in Hx. rewrite cons_middle, app_assoc in Hx.
  destruct (borrow_from_right (incr_ver t) (LA ++ L1) lq q its lor r ir (L2 ++ LB) p xp lo (leaf_row L1 ++ [(lq, DPage q)]) (leaf_row L2) (zlen L1) (loose_ver _ _ Hl)) as (t' & k0 & iq & ir' & xp' & E' & Hits & Hir' & Hls & Hk & Hx');
    [unfold kd in *; lia|unfold kd in *; lia|done|exact Hx|rewrite zlen_app, leaf_row_len; zlen|zlen|].
  pose proof (f_equal zlen Hits) as Hlen. rewrite <- Hits. apply (fill_pair L1 (Leaf lq q iq) (Leaf (Some k0) r ir') L2 t' xp'); cbn; try done; [unfold leaf_full; cbn; unfold kd in *; zlen|unfold leaf_full; cbn; unfold kd in *; zlen| |by eapply room_len; [|exact Hroom]; zlen].
  rewrite leaf_row_app. cbn. by rewrite <- app_assoc in Hx'.
Qed.

Lemma underflow_ok L1 lq q its L2 : loose t (LA ++ (L1 ++ Leaf lq q its :: L2) ++ LB) →
  (∀ l, l ∈ (LA ++ L1) ++ L2 ++ LB → leaf_full l) → zlen its + 1 = kd →
  x_has xp lo (leaf_row (L1 ++ Leaf lq q its :: L2)) → room (L1 ++ Leaf lq q its :: L2) →
  fill_ok (underflow zv p q (zlen L1) t) (flat L1 ++ its ++ flat L2).
Proof.
  intros Hl Hsz Hn Hx Hroom. pose proof Hl as Hl'. rewrite <- app_assoc, app_assoc in Hl'. cbn [app] in Hl'. pose proof (ls_linked _ _ (loose_ver _ _ Hl')) as K.
  destruct (linked_get _ _ _ _ K) as (pg & E & _ & _ & Hc & _). cbn in E, Hc.
  unfold underflow. run (t_do_Ret t incr_ver). run (x_load_Ret (incr_ver t) p xp Ep).
  run (st_lift_Ret _ (incr_ver t) _ (siblings_ok xp lo L1 (Leaf lq q its) L2 Hx)). run (d_load_Ret (incr_ver t) q pg E). rewrite Hc. clear pg E Hc.
  assert (d_test (lf_q <$> head L2) (λ rc, 2 * kd <=? zlen its + rc) (incr_ver t) =
    Ret (match head L2 with Some r => 2 * kd <=? zlen its + zlen (lf_its r) | None => false end, incr_ver t)) as E2.
  { destruct L2 as [|r L2]; [done|]. cbn in K. rewrite cons_middle, app_assoc in K. cbn [head fmap option_fmap option_map]. by rewrite (d_test_ok _ _ _ _ _ K). }
  assert (∀ lor r ir L2', L2 = Leaf lor r ir :: L2' → kd ≤ zlen ir ≤ 2 * kd ∧ ∀ x, x ∈ (LA ++ L1) ++ L2' ++ LB → leaf_full x) as HR.
  { intros lor r ir L2' ->. split; [apply (Hsz (Leaf lor r ir)); rewrite !elem_of_app; right; left; by left|]. intros x Hin. apply Hsz. clear -Hin. set_solver. }
  assert (2 ≤ zlen L1 + 1 + zlen L2) as H2 by (destruct Hroom as [?|[? _]]; unfold kx in *; zlen).
  destruct (last L1) as [[lol l il]|] eqn:El.
  - apply last_Some in El as [L1' ->]. rewrite app_assoc, <- app_assoc in K. cbn in K. cbn [fmap option_fmap option_map]. run (d_test_ok _ _ _ _ (λ lc, 2 * kd <=? lc + zlen its) K). cbn [lf_its].
    assert (kd ≤ zlen il ≤ 2 * kd ∧ ∀ x, x ∈ (LA ++ L1') ++ L2 ++ LB → leaf_full x) as [Hil Hsz'].
    { split; [apply (Hsz (Leaf lol l il)); rewrite !elem_of_app; left; right; right; by left|]. intros x Hin. apply Hsz. clear -Hin. set_solver. }
    pose proof Hl as Hla. pose proof Hx as Hxa. rewrite <- (app_assoc L1') in Hla, Hxa, Hroom. cbn [app] in Hla, Hxa, Hroom. pose proof Hl' as Hlb. rewrite app_assoc, <- app_assoc in Hlb. cbn [app] in Hlb.
    assert (flat (L1' ++ [Leaf lol l il]) ++ its ++ flat L2 = flat L1' ++ (il ++ its) ++ flat L2) as Efl by (rewrite flat_app; cbn; by rewrite app_nil_r, <- !app_assoc).
    destruct (Z.leb_spec (2 * kd) (zlen il + zlen its)) as [Hge|Hlt].
    + cbn [deref lf_q]. rewrite (stM_Ret _ _ _ l _ eq_refl), Efl. eapply left_fill; try done; [lia|zlen].
    + run E2. destruct (head L2) as [[lor r ir]|] eqn:Er; [destruct L2 as [|? L2]; [done|]; cbn in Er; injection Er as ->; cbn [lf_its]; destruct (Z.leb_spec (2 * kd) (zlen its + zlen ir)) as [Hge|Hlt']|].
      1: { destruct (HR _ _ _ _ eq_refl) as [Hir HszR]. cbn [deref fmap option_fmap option_map lf_q]. rewrite (stM_Ret _ _ _ r _ eq_refl). cbn in Hl'.
        rewrite (flat_cons (Leaf lor r ir)). cbn [lf_its]. rewrite (app_assoc its). eapply right_fill; try done; [lia|eapply room_len; [|exact Hroom]; zlen]. }
      all: rewrite Efl; cbn [lf_q]; eapply cat_fill; try done; [unfold kd in *; zlen|zlen].
  - apply last_None in El as ->. cbn [last fmap option_fmap option_map]. run (eq_refl : d_test None (λ lc, 2 * kd <=? lc + zlen its) (incr_ver t) = Ret (false, incr_ver t)). run E2.
    destruct L2 as [|[lor r ir] L2]; [zlen|]. destruct (HR _ _ _ _ eq_refl) as [Hir HszR]. cbn [head deref fmap option_fmap option_map lf_q lf_its]. rewrite (flat_cons (Leaf lor r ir)). cbn [lf_its]. rewrite (app_assoc its).
    destruct (Z.leb_spec (2 * kd) (zlen its + zlen ir)) as [Hge|Hlt]; rewrite (stM_Ret _ _ _ r _ eq_refl).
    + eapply right_fill; try done; lia.
    + eapply cat_fill; try done. unfold kd in *. zlen.
Qed.
End underflow.
End delete.
