(* ===== verification/BTreeUnderflowX.v ===== *)
(** * Filling up index pages of the B+tree

    An index page that is less than half full gets a child from a neighbour, or
    is joined with it. The children of the level stay the same. *)
From S2P Require Import Prelude ByteOrder BTreeSpec BTree BTreePages BTreeInv BTreeFind BTreeLeaves BTreeSet BTreePut.

(** Neighbours of a child *)
Lemma left_child_ok xp lo (E1 E2 : row) e (to : page → outcome ptr) : x_has xp lo (E1 ++ e :: E2) →
  left_child xp (zlen E1) to = match last E1 with Some e1 => l ← to e1.2; mret (Some l) | None => mret None end.
Proof.
  intros Hx. unfold left_child. destruct E1 as [|e1 E1 _] using rev_ind; [done|]. rewrite last_snoc, (proj2 (Z.ltb_lt _ _)) by zlen.
  rewrite <- app_assoc in Hx. by rewrite (x_get_ch _ _ _ _ _ _ Hx) by zlen.
Qed.
Lemma right_child_ok xp lo (E1 E2 : row) e (to : page → outcome ptr) : x_has xp lo (E1 ++ e :: E2) →
  right_child xp (zlen E1) to = match head E2 with Some e2 => r ← to e2.2; mret (Some r) | None => mret None end.
Proof.
  intros Hx. unfold right_child. pose proof (x_has_c _ _ _ Hx) as Hc. rewrite (proj2 (Z.leb_le 0 _)) by zlen. cbn [andb]. rewrite Hc.
  destruct E2 as [|e2 E2]; cbn [head].
  - by rewrite (proj2 (Z.ltb_ge _ _)) by zlen.
  - rewrite (proj2 (Z.ltb_lt _ _)) by zlen. rewrite cons_middle, app_assoc in Hx. by rewrite (x_get_ch _ _ _ _ _ _ Hx) by zlen.
Qed.

Section underflowX.
Context {V : Type} (zv : V).
Implicit Types (t : BTree V) (lo s : option bytes) (q p l r : ptr) (xp : x_page) (E F P : row) (k : bytes).

(** Pages of the index were written, and no other page entered the heap. *)
Definition idx_write t t' : Prop := idx_step t t' ∧ t_next t' = t_next t ∧ dom (t_xs t') ⊆ dom (t_xs t).
Lemma idx_write_fresh t t' : idx_write t t' → fresh t → fresh t'.
Proof.
  intros ((Hd & _) & Hn & Hx) Hf a Ha. rewrite Hn in Ha. destruct (Hf a Ha) as [H1 H2]. rewrite Hd. split; [done|].
  apply not_elem_of_dom. intros H. apply Hx in H. by apply not_elem_of_dom in H2.
Qed.

Lemma borrowX_left t p l q pp lp qp lo P1 s cq P2 lol E k c loq c0 F pi i : l ≠ q → p ≠ l → p ≠ q →
  t_xs t !! p = Some pp → t_xs t !! l = Some lp → t_xs t !! q = Some qp →
  x_has pp lo (P1 ++ (s, cq) :: P2) → pi = zlen P1 → 1 ≤ pi → x_has lp lol (E ++ [(Some k, c)]) → 0 < zlen E → x_has qp loq ((loq, c0) :: F) → zlen F < 2 * kx →
  ∃ t' pk pp' lp' qp', (l ← deref (Some l); p ← deref (Some p);
    _ ← x_mod q (λ qp, c ← get_ch qp (x_c qp); set_ch qp (x_c qp + 1) c);
    _ ← x_mod q (λ qp, src ← slice (x_x qp) 0 (x_c qp); x_copy qp 1 src);
    lp ← x_load l; c ← st_lift (get_ch lp (x_c lp));
    _ ← x_mod q (λ qp, set_ch qp 0 c);
    pp ← x_load p; k ← st_lift (get_k pp (pi - 1));
    _ ← x_mod q (λ qp, set_k qp 0 k);
    _ ← x_mod q (λ qp, mret (set_xc qp (x_c qp + 1)));
    _ ← x_mod l (λ lp, mret (set_xc lp (x_c lp - 1)));
    lp ← x_load l; k ← st_lift (get_k lp (x_c lp));
    _ ← x_mod p (λ pp, set_k pp (pi - 1) k);
    mret (q, i + 1)) t = Ret ((q, i + 1), t') ∧ s = Some pk ∧ idx_write t t' ∧ t_r t' = t_r t ∧
    t_xs t' = <[p := pp']> (<[l := lp']> (<[q := qp']> (t_xs t))) ∧
    x_has pp' lo (P1 ++ (Some k, cq) :: P2) ∧ x_has lp' lol E ∧ x_has qp' (Some k) ((Some k, c) :: (Some pk, c0) :: F).
Proof.
  intros Hlq Hpl Hpq Ep El Eq Hpp -> Hpi Hlp HE Hqp HF.
  destruct (x_get_k pp lo P1 s cq P2 (zlen P1 - 1) Hpp) as (pk & -> & Epk); [lia|lia|].
  destruct (x_set_k pp lo P1 (Some pk) cq P2 (zlen P1 - 1) k Hpp) as (pp' & Epp & Hpp'); [lia|lia|].
  destruct (borrow_left lp lol E k c qp loq c0 F pk Hlp HE Hqp HF) as (lc & y1 & src & y2 & cl & y3 & y4 & A1 & A2 & A3 & A4 & A5 & A6 & A7 & Hy & A8 & Hl').
  eexists _, pk, pp', (set_xc lp (x_c lp - 1)), (set_xc y4 (x_c y4 + 1)). split; [|split; [done|split; [|split; [|split; [|done]]]]].
  - cbn [deref]. rewrite (stM_Ret _ _ _ l t eq_refl), (stM_Ret _ _ _ p t eq_refl).
    erewrite stM_Ret; [|apply (x_mod_Ret _ _ qp y1); [done|by rewrite A1]].
    erewrite stM_Ret; [|apply (x_mod_Ret _ _ y1 y2); [look|by rewrite A3]].
    erewrite stM_Ret; [|apply (x_load_Ret _ _ lp); look]. erewrite stM_Ret; [|apply (st_lift_Ret _ _ _ A5)].
    erewrite stM_Ret; [|apply (x_mod_Ret _ _ y2 y3); [look|done]].
    erewrite stM_Ret; [|apply (x_load_Ret _ _ pp); look]. erewrite stM_Ret; [|apply (st_lift_Ret _ _ _ Epk)].
    erewrite stM_Ret; [|apply (x_mod_Ret _ _ y3 y4); [look|done]].
    erewrite stM_Ret; [|apply (x_mod_Ret _ _ y4 (set_xc y4 (x_c y4 + 1))); [look|done]].
    erewrite stM_Ret; [|apply (x_mod_Ret _ _ lp (set_xc lp (x_c lp - 1))); [look|done]].
    erewrite stM_Ret; [|apply (x_load_Ret _ _ (set_xc lp (x_c lp - 1))); look]. erewrite stM_Ret; [|apply (st_lift_Ret _ _ _ A8)].
    erewrite stM_Ret; [|apply (x_mod_Ret _ _ pp pp'); [look|done]]. reflexivity.
  - split_and!; try done. cbn. rewrite !dom_insert. apply elem_of_dom_2 in Ep, El, Eq. clear -Ep El Eq. set_solver.
  - done.
  - cbn. by rewrite !insert_insert_eq.
Qed.

Lemma borrowX_right t p q r pp qp rp lo P1 s cr P2 loq E lor c0 k c1 F pi (i : Z) : q ≠ r → p ≠ q → p ≠ r →
  t_xs t !! p = Some pp → t_xs t !! q = Some qp → t_xs t !! r = Some rp →
  x_has pp lo (P1 ++ (s, cr) :: P2) → pi + 1 = zlen P1 → 0 ≤ pi → x_has qp loq E → zlen E ≤ 2 * kx → x_has rp lor ((lor, c0) :: (Some k, c1) :: F) →
  ∃ t' pk pp' qp' rp', (r ← deref (Some r); p ← deref (Some p);
    pp ← x_load p; k ← st_lift (get_k pp pi);
    _ ← x_mod q (λ qp, set_k qp (x_c qp) k);
    _ ← x_mod q (λ qp, mret (set_xc qp (x_c qp + 1)));
    rp ← x_load r; c ← st_lift (get_ch rp 0);
    _ ← x_mod q (λ qp, set_ch qp (x_c qp) c);
    k ← st_lift (get_k rp 0);
    _ ← x_mod p (λ pp, set_k pp pi k);
    _ ← x_mod r (λ rp, src ← slice (x_x rp) 1 (x_c rp); x_copy rp 0 src);
    _ ← x_mod r (λ rp, mret (set_xc rp (x_c rp - 1)));
    _ ← x_mod r (λ rp, c ← get_ch rp (x_c rp + 1); set_ch rp (x_c rp) c);
    _ ← x_mod r (λ rp, set_k rp (x_c rp) zk);
    _ ← x_mod r (λ rp, set_ch rp (x_c rp + 1) NilPage);
    mret (q, i)) t = Ret ((q, i), t') ∧ s = Some pk ∧ idx_write t t' ∧ t_r t' = t_r t ∧
    t_xs t' = <[p := pp']> (<[q := qp']> (<[r := rp']> (t_xs t))) ∧
    x_has pp' lo (P1 ++ (Some k, cr) :: P2) ∧ x_has qp' loq (E ++ [(Some pk, c0)]) ∧ x_has rp' (Some k) ((Some k, c1) :: F).
Proof.
  intros Hqr Hpq Hpr Ep Eq Er Hpp HP Hpi Hqp HE Hrp.
  destruct (x_get_k pp lo P1 s cr P2 pi Hpp) as (pk & -> & Epk); [lia|lia|].
  destruct (x_set_k pp lo P1 (Some pk) cr P2 pi k Hpp) as (pp' & Epp & Hpp'); [lia|lia|].
  destruct (borrow_right qp loq E rp lor c0 k c1 F pk Hqp Hrp HE) as (x1 & x3 & src & y2 & lc & y4 & y5 & y6 & A1 & A2 & A3 & Hq & A4 & A5 & A6 & A7 & A8 & A9 & A10 & Hr).
  eexists _, pk, pp', x3, y6. split; [|split; [done|split; [|split; [|split; [|done]]]]].
  - cbn [deref]. rewrite (stM_Ret _ _ _ r t eq_refl), (stM_Ret _ _ _ p t eq_refl). run (x_load_Ret _ _ _ Ep). run (st_lift_Ret _ t _ Epk).
    erewrite stM_Ret; [|apply (x_mod_Ret _ _ qp x1); [done|done]].
    erewrite stM_Ret; [|apply (x_mod_Ret _ _ x1 (set_xc x1 (x_c x1 + 1))); [look|done]].
    erewrite stM_Ret; [|apply (x_load_Ret _ _ rp); look]. erewrite stM_Ret; [|apply (st_lift_Ret _ _ _ A2)].
    erewrite stM_Ret; [|apply (x_mod_Ret _ _ (set_xc x1 (x_c x1 + 1)) x3); [look|done]].
    erewrite stM_Ret; [|apply (st_lift_Ret _ _ _ A4)].
    erewrite stM_Ret; [|apply (x_mod_Ret _ _ pp pp'); [look|done]].
    erewrite stM_Ret; [|apply (x_mod_Ret _ _ rp y2); [look|by rewrite A5]].
    erewrite stM_Ret; [|apply (x_mod_Ret _ _ y2 (set_xc y2 (x_c y2 - 1))); [look|done]].
    erewrite stM_Ret; [|apply (x_mod_Ret _ _ (set_xc y2 (x_c y2 - 1)) y4); [look|cbn [x_c set_xc]; by rewrite A7]].
    erewrite stM_Ret; [|apply (x_mod_Ret _ _ y4 y5); [look|done]].
    erewrite stM_Ret; [|apply (x_mod_Ret _ _ y5 y6); [look|done]]. reflexivity.
  - split_and!; try done. cbn. rewrite !dom_insert. apply elem_of_dom_2 in Ep, Eq, Er. clear -Ep Eq Er. set_solver.
  - done.
  - cbn. rewrite !insert_insert_eq. rewrite (insert_insert_ne _ r p) by done. by rewrite (insert_insert_ne _ r q).
Qed.

(** The page [r], on the right of [q], is joined with it. *)
Lemma catX_ok t p q r pp qp rp lo P1 e e2 P2 loq E lor c0 F pi : q ≠ r → p ≠ q → p ≠ r →
  t_xs t !! p = Some pp → t_xs t !! q = Some qp → t_xs t !! r = Some rp →
  x_has pp lo (P1 ++ e :: e2 :: P2) → pi = zlen P1 → x_has qp loq E → x_has rp lor ((lor, c0) :: F) → zlen E + zlen F ≤ 2 * kx + 1 →
  (0 < zlen P1 + zlen P2 ∨ t_r t = XPage p) →
  ∃ t' pk pp' qp', catX zv p q r pi t = Ret (tt, t') ∧ e2.1 = Some pk ∧ idx_write t t' ∧
    t_xs t' = <[p := pp']> (<[r := zx]> (<[q := qp']> (t_xs t))) ∧ x_has qp' loq (E ++ (Some pk, c0) :: F) ∧
    ((0 < zlen P1 + zlen P2 ∧ t_r t' = t_r t ∧ x_has pp' lo (P1 ++ e :: P2)) ∨ (zlen P1 + zlen P2 = 0 ∧ t_r t' = XPage q)).
Proof.
  intros Hqr Hpq Hpr Ep Eq Er Hpp -> Hqp Hrp Hn Hroot. pose proof (x_has_c _ _ _ Hpp) as Hc. rewrite zlen_app, !zlen_cons in Hc.
  pose proof (zlen_nonneg P1). pose proof (zlen_nonneg P2).
  pose proof Hpp as Hpp1. destruct e2 as [s2 c2]. rewrite cons_middle, app_assoc in Hpp1. destruct (x_get_k pp lo _ s2 c2 P2 (zlen P1) Hpp1) as (pk & -> & Epk); [zlen|lia|]. clear Hpp1.
  destruct (catX_pages qp loq E rp lor c0 F pk Hqp Hrp Hn) as (x1 & src & x2 & c & x4 & A1 & A2 & A3 & A4 & A5 & Hq).
  assert (∀ t1 t', idx_step t t1 → t_next t1 = t_next t → t_xs t1 = <[r := zx]> (<[q := x4]> (t_xs t)) → idx_step t1 t' → t_next t' = t_next t1 → (∃ pp', t_xs t' = <[p := pp']> (t_xs t1)) → idx_write t t') as Hw.
  { intros t1 t' Hi Hnx Hx Hi' Hnx' [pp' Hx']. split; [by eapply idx_step_trans|]. split; [congruence|]. rewrite Hx', Hx, !dom_insert. apply elem_of_dom_2 in Ep, Eq, Er. clear -Ep Eq Er. set_solver. }
  set (t1 := set_xs (incr_ver t) (<[r := zx]> (<[q := x4]> (t_xs t)))). assert (t_xs t1 !! p = Some pp) as Ep1 by look.
  assert (catX zv p q r (zlen P1) t = (if 1 <? x_c pp then x_mod p (λ pp, catX_parent pp (zlen P1)) else _ ← free_root zv; t_do (λ t, set_root t (XPage q))) t1) as ->.
  { unfold catX. run (t_do_Ret t incr_ver). run (x_load_Ret (incr_ver t) p pp Ep). run (st_lift_Ret _ (incr_ver t) _ Epk).
    erewrite stM_Ret; [|apply (x_mod_Ret _ _ qp x1); [done|done]].
    erewrite stM_Ret; [|apply (x_load_Ret _ _ rp); look]. erewrite stM_Ret; [|apply (st_lift_Ret _ _ _ A2)].
    erewrite stM_Ret; [|apply (x_mod_Ret _ _ x1 x2); [look|done]].
    erewrite stM_Ret; [|apply (x_mod_Ret _ _ x2 (set_xc x2 (x_c x2 + x_c rp + 1))); [look|done]].
    erewrite stM_Ret; [|apply (st_lift_Ret _ _ _ A4)].
    erewrite stM_Ret; [|apply (x_mod_Ret _ _ (set_xc x2 (x_c x2 + x_c rp + 1)) x4); [look|done]].
    erewrite stM_Ret; [|reflexivity].
    match goal with |- _ ?s = _ => replace s with t1; [done|] end. subst t1. cbn. unfold set_xs. cbn. by rewrite !insert_insert_eq. }
  rewrite Hc. destruct (Z.ltb_spec 1 (zlen P1 + (1 + (1 + zlen P2)) - 1)) as [Hlt|Hge].
  - destruct (catX_parent_ok pp lo P1 e (Some pk, c2) P2 (zlen P1) Hpp eq_refl) as (pp' & Epp & Hpp').
    exists (set_xs t1 (<[p := pp']> (t_xs t1))), pk, pp', x4. split; [by apply (x_mod_Ret t1 p pp pp')|]. split; [done|]. split; [apply (Hw t1); try done; by exists pp'|].
    split; [done|]. split; [done|]. left. split; [lia|done].
  - destruct Hroot as [?|Hr]; [lia|]. exists (set_root (set_xs t1 (<[p := zx]> (t_xs t1))) (XPage q)), pk, zx, x4.
    split. { erewrite stM_Ret; [|unfold free_root; erewrite stM_Ret; [|reflexivity]; cbn [t_r t1 set_xs incr_ver]; rewrite Hr; reflexivity]. reflexivity. }
    split; [done|]. split; [apply (Hw t1); try done; by exists zx|]. split; [done|]. split; [done|]. right. split; [lia|done].
Qed.
End underflowX.

(** ** In the levels of a tree *)

Section levels.
Implicit Types (xs : gmap ptr x_page) (U : gset ptr) (G H : list node) (n m : node) (R E P : row).

Lemma level_put2 xs U H1 m1 m2 H2 xp1 xp2 lo1 lo2 R1 R2 : level xs U (H1 ++ m1 :: m2 :: H2) → x_has xp1 lo1 R1 → kx ≤ zlen R1 → x_has xp2 lo2 R2 → kx ≤ zlen R2 →
  level (<[nd_q m1 := xp1]> (<[nd_q m2 := xp2]> xs)) U (H1 ++ Node lo1 (nd_q m1) R1 :: Node lo2 (nd_q m2) R2 :: H2).
Proof.
  intros HH Hx1 H1R Hx2 H2R. rewrite (cons_middle m1), (app_assoc H1) in HH. apply (level_put _ _ _ _ _ xp2 lo2 R2) in HH; [|done|unfold kx in *; lia|by left].
  rewrite <- app_assoc in HH. cbn [app] in HH. apply level_put; [done|done|unfold kx in *; lia|by left].
Qed.
Lemma level_sub xs U H1 m H2 : level xs U (H1 ++ m :: H2) → level xs U (H1 ++ H2).
Proof.
  intros (Hn & [Hd He] & HU). assert (H1 ++ H2 ⊆ H1 ++ m :: H2) as Hsub by (clear; set_solver). split_and!.
  - intros m' Hm'. by apply Hn, Hsub.
  - eapply sublist_NoDup; [exact Hd|]. apply fmap_sublist. apply sublist_app; [done|]. by apply sublist_cons.
  - intros m' Hm'. left. destruct (He m' (Hsub _ Hm')) as [?|(-> & _ & ->)%one_node]; [done|by apply not_elem_of_nil in Hm'].
  - rewrite addrs_app in *. change (addrs (m :: H2)) with ({[nd_q m]} ∪ addrs H2) in HU. clear -HU. set_solver.
Qed.
Lemma level_ne xs U H1 m1 m2 H2 : level xs U (H1 ++ m1 :: m2 :: H2) → nd_q m1 ≠ nd_q m2.
Proof.
  intros (_ & [Hd _] & _). rewrite fmap_app in Hd. apply NoDup_app in Hd as (_ & _ & Hd). cbn in Hd. apply NoDup_cons in Hd as [Hd _]. intros E. apply Hd. rewrite E. by left.
Qed.
(** Two pages of one level have enough children. *)
Lemma level_pair xs U H1 m1 m2 H2 : level xs U (H1 ++ m1 :: m2 :: H2) → kx ≤ zlen (nd_row m1) ∧ kx ≤ zlen (nd_row m2).
Proof.
  intros (_ & (_ & He) & _). split.
  - destruct (He m1) as [?|(_ & _ & ?)%one_node]; [apply elem_mid|done|done].
  - rewrite (cons_middle m1), (app_assoc H1) in He. destruct (He m2) as [?|(E & _)%one_node]; [apply elem_mid|done|]. by apply app_eq_nil in E as [_ ?].
Qed.

(** The parent is written after its children. *)
Lemma refit_levels xs xs1 U G1 n G2 H H' pp R : level xs U (G1 ++ n :: G2) → addrs H ## addrs (G1 ++ n :: G2) ∪ U →
  (∀ a, a ∉ addrs H → xs1 !! a = xs !! a) → level xs1 (addrs (G1 ++ n :: G2) ∪ U) H' → x_has pp (nd_lo n) R → 2 ≤ zlen R → fits G1 R G2 →
  level (<[nd_q n := pp]> xs1) U (G1 ++ Node (nd_lo n) (nd_q n) R :: G2) ∧ level (<[nd_q n := pp]> xs1) (addrs (G1 ++ n :: G2) ∪ U) H'.
Proof.
  intros HG Hd Hs HH Hx HR HF. split.
  - apply (level_put _ _ _ _ _ pp (nd_lo n) R) in HG; [|done..]. eapply level_frame; [|exact HG]. intros a Ha. rewrite addrs_put in Ha.
    destruct (decide (a = nd_q n)) as [->|]; [by rewrite !lookup_insert_eq|]. rewrite !lookup_insert_ne by done. apply Hs. clear -Hd Ha. set_solver.
  - eapply level_frame; [|exact HH]. intros a Ha. apply lookup_insert_ne. intros <-. destruct HH as (_ & _ & HH). apply (HH (nd_q n)); [done|]. apply elem_of_union_l, node_addr.
Qed.
End levels.

Section refit.
Context {V : Type} (zv : V).
Implicit Types (t : BTree V) (U : gset ptr) (G H : list node) (n m : node) (R E P F : row) (e : option bytes * page).

(** The only page of its level, the highest *)
Definition at_root t U G1 n G2 : Prop := U = ∅ ∧ G1 = [] ∧ G2 = [] ∧ t_r t = XPage (nd_q n).
(** A page that can lose a child *)
Definition roomy t U G1 n G2 : Prop := kx + 1 ≤ zlen (nd_row n) ∨ at_root t U G1 n G2.

(** The children [H] of a level were regrouped, around [m']: the parent [n] has
    them, or it was the root, with two children, and [m'] is the root now. *)
Definition refit t t' U G1 n G2 H H1' m' H2' : Prop :=
  idx_write t t' ∧ (∀ a : ptr, a ∉ addrs (G1 ++ n :: G2) ∪ addrs H → t_xs t' !! a = t_xs t !! a) ∧
  addrs (H1' ++ m' :: H2') ⊆ addrs H ∧ children (H1' ++ m' :: H2') = children H ∧ kx + 1 ≤ zlen (nd_row m') ∧
  ((∃ R, let G' := G1 ++ Node (nd_lo n) (nd_q n) R :: G2 in
      t_r t' = t_r t ∧ level (t_xs t') U G' ∧ level (t_xs t') (addrs (G1 ++ n :: G2) ∪ U) (H1' ++ m' :: H2') ∧ children G' = heads (H1' ++ m' :: H2')) ∨
   (at_root t U G1 n G2 ∧ t_r t' = XPage (nd_q m') ∧ nd_lo m' = nd_lo n ∧ H1' = [] ∧ H2' = [] ∧ level (t_xs t') ∅ [m'])).

Section pair.
Context (t : BTree V) (U : gset ptr) (G1 : list node) (n : node) (G2 H1 : list node) (m1 m2 : node) (H2 : list node) (E1 E2 : row).
Hypothesis HG : level (t_xs t) U (G1 ++ n :: G2).
Hypothesis HH : level (t_xs t) (addrs (G1 ++ n :: G2) ∪ U) (H1 ++ m1 :: m2 :: H2).
Hypothesis Hrow : nd_row n = E1 ++ (nd_lo m1, XPage (nd_q m1)) :: (nd_lo m2, XPage (nd_q m2)) :: E2.
Hypothesis Hleft : children G1 ++ E1 = heads H1.
Hypothesis Hright : E2 ++ children G2 = heads H2.

Lemma pair_pages : ∃ pp xp1 xp2, t_xs t !! nd_q n = Some pp ∧ t_xs t !! nd_q m1 = Some xp1 ∧ t_xs t !! nd_q m2 = Some xp2 ∧
  x_has pp (nd_lo n) (nd_row n) ∧ x_has xp1 (nd_lo m1) (nd_row m1) ∧ x_has xp2 (nd_lo m2) (nd_row m2) ∧ kx ≤ zlen (nd_row m1) ∧ kx ≤ zlen (nd_row m2) ∧
  nd_q m1 ≠ nd_q m2 ∧ nd_q n ≠ nd_q m1 ∧ nd_q n ≠ nd_q m2.
Proof.
  destruct (level_node _ _ _ _ _ HG) as (pp & Ep & Hp & _). destruct (level_node _ _ _ _ _ HH) as (xp1 & E1' & Hx1 & Hm1).
  pose proof HH as HH'. rewrite (cons_middle m1), (app_assoc H1) in HH'. destruct (level_node _ _ _ _ _ HH') as (xp2 & E2' & Hx2 & Hm2).
  destruct (level_pair _ _ _ _ _ _ HH) as [Hk1 Hk2]. exists pp, xp1, xp2. split_and!; try done; [by eapply level_ne| |].
  all: intros E; destruct HH as (_ & _ & Hd); apply (Hd (nd_q n)); [rewrite E|apply elem_of_union_l, node_addr].
  - apply node_addr.
  - rewrite (cons_middle m1), (app_assoc H1). apply node_addr.
Qed.

(** The border between the pages moves. *)
Lemma refit_pair t' pp xp1 xp2 lo2 R1 R2 (sel : bool) : idx_write t t' → t_r t' = t_r t →
  t_xs t' = <[nd_q n := pp]> (<[nd_q m1 := xp1]> (<[nd_q m2 := xp2]> (t_xs t))) →
  x_has pp (nd_lo n) (E1 ++ (nd_lo m1, XPage (nd_q m1)) :: (lo2, XPage (nd_q m2)) :: E2) → x_has xp1 (nd_lo m1) R1 → x_has xp2 lo2 R2 →
  R1 ++ R2 = nd_row m1 ++ nd_row m2 → kx ≤ zlen R1 → kx ≤ zlen R2 → kx + 1 ≤ zlen (if sel then R1 else R2) →
  let m1' := Node (nd_lo m1) (nd_q m1) R1 in let m2' := Node lo2 (nd_q m2) R2 in
  if sel then refit t t' U G1 n G2 (H1 ++ m1 :: m2 :: H2) H1 m1' (m2' :: H2) else refit t t' U G1 n G2 (H1 ++ m1 :: m2 :: H2) (H1 ++ [m1']) m2' H2.
Proof.
  intros Hw Hr Hxs Hp Hx1 Hx2 HR HR1 HR2 Hsel m1' m2'.
  assert (addrs (H1 ++ m1' :: m2' :: H2) = addrs (H1 ++ m1 :: m2 :: H2)) as Ha by (unfold addrs; by rewrite !fmap_app).
  assert (children (H1 ++ m1' :: m2' :: H2) = children (H1 ++ m1 :: m2 :: H2)) as Hc.
  { rewrite !children_app. f_equal. change (R1 ++ R2 ++ children H2 = nd_row m1 ++ nd_row m2 ++ children H2). by rewrite !app_assoc, HR. }
  pose proof (level_put2 _ _ _ _ _ _ xp1 xp2 (nd_lo m1) lo2 R1 R2 HH Hx1 HR1 Hx2 HR2) as HL.
  destruct (refit_levels (t_xs t) (<[nd_q m1 := xp1]> (<[nd_q m2 := xp2]> (t_xs t))) U G1 n G2 (H1 ++ m1 :: m2 :: H2) (H1 ++ m1' :: m2' :: H2) pp (E1 ++ (nd_lo m1, XPage (nd_q m1)) :: (lo2, XPage (nd_q m2)) :: E2) HG) as [HG' HH'] ; [apply HH| |exact HL|exact Hp|rewrite zlen_app, !zlen_cons; pose proof (zlen_nonneg E1); pose proof (zlen_nonneg E2); lia|eapply level_grow; [exact HG|]; rewrite Hrow; zlen|].
  { intros a Hna. assert (a ≠ nd_q m1) by (intros ->; apply Hna, node_addr). assert (a ≠ nd_q m2) by (intros ->; apply Hna; rewrite (cons_middle m1), (app_assoc H1); apply node_addr). by rewrite !lookup_insert_ne. }
  rewrite <- Hxs in HG', HH'.
  assert (∀ a : ptr, a ∉ addrs (G1 ++ n :: G2) ∪ addrs (H1 ++ m1 :: m2 :: H2) → t_xs t' !! a = t_xs t !! a) as Hsame.
  { intros a Hna. rewrite not_elem_of_union in Hna. destruct Hna as [Hna Hnb]. rewrite Hxs.
    rewrite !lookup_insert_ne; [done| | |]; intros <-; [apply Hnb; rewrite (cons_middle m1), (app_assoc H1); apply node_addr|apply Hnb, node_addr|apply Hna, node_addr]. }
  assert (children (G1 ++ Node (nd_lo n) (nd_q n) (E1 ++ (nd_lo m1, XPage (nd_q m1)) :: (lo2, XPage (nd_q m2)) :: E2) :: G2) = heads (H1 ++ m1' :: m2' :: H2)) as Hch.
  { rewrite children_mid, heads_app. cbn. rewrite <- app_assoc, app_assoc, Hleft. cbn. by rewrite Hright. }
  assert (∀ A B m', A ++ m' :: B = H1 ++ m1' :: m2' :: H2 → kx + 1 ≤ zlen (nd_row m') → refit t t' U G1 n G2 (H1 ++ m1 :: m2 :: H2) A m' B) as Hfin.
  { intros A B m' E Hm. unfold refit. rewrite E, Ha, Hc. split_and!; try done. left. eexists. split_and!; done. }
  destruct sel; [by apply Hfin|]. apply Hfin; [by rewrite <- app_assoc|done].
Qed.

(** The pages are joined. *)
Lemma catX_refit pi : zlen (nd_row m1) + zlen (nd_row m2) ≤ 2 * kx + 2 → pi = zlen E1 → roomy t U G1 n G2 →
  ∃ t', catX zv (nd_q n) (nd_q m1) (nd_q m2) pi t = Ret (tt, t') ∧
    refit t t' U G1 n G2 (H1 ++ m1 :: m2 :: H2) H1 (Node (nd_lo m1) (nd_q m1) (nd_row m1 ++ nd_row m2)) H2.
Proof.
  intros Hlen -> Hroom. destruct pair_pages as (pp & xp1 & xp2 & Ep & Ex1 & Ex2 & Hp & Hx1 & Hx2 & Hm1 & Hm2 & Hne & Hn1 & Hn2).
  rewrite Hrow in Hp. destruct (x_has_head _ _ _ Hx2) as (c0 & F & HF). pose proof Hx2 as Hx2'. rewrite HF in Hx2'.
  destruct (catX_ok zv t (nd_q n) (nd_q m1) (nd_q m2) pp xp1 xp2 (nd_lo n) E1 (nd_lo m1, XPage (nd_q m1)) (nd_lo m2, XPage (nd_q m2)) E2 (nd_lo m1) (nd_row m1) (nd_lo m2) c0 F (zlen E1)) as
    (t' & pk & pp' & qp' & Ec & Hpk & Hw & Hxs & Hq & Hres); try done; [rewrite HF in Hlen; rewrite zlen_cons in Hlen; lia| |].
  { destruct Hroom as [H3|(_ & _ & _ & Hr)]; [left|by right]. rewrite Hrow, zlen_app, !zlen_cons in H3. unfold kx in *. lia. }
  cbn in Hpk. rewrite <- Hpk, <- HF in Hq. exists t'. split; [done|]. set (m' := Node _ _ _).
  pose proof HH as HH1. rewrite (cons_middle m1), (app_assoc H1) in HH1. apply level_sub in HH1. rewrite <- app_assoc in HH1. cbn [app] in HH1.
  apply (level_put _ _ _ _ _ qp' (nd_lo m1) (nd_row m1 ++ nd_row m2)) in HH1; [|done|unfold kx in *; zlen|left; zlen].
  assert (nd_q m2 ∉ addrs (H1 ++ m' :: H2)) as Hm2'.
  { destruct HH as (_ & [Hnd _] & _). clear -Hnd. rewrite fmap_app in Hnd. apply NoDup_app in Hnd as (_ & HA & HB). cbn in HB. apply NoDup_cons in HB as [HB HC]. apply NoDup_cons in HC as [HC _].
    rewrite addrs_app. change (addrs (m' :: H2)) with ({[nd_q m1]} ∪ addrs H2). rewrite !not_elem_of_union, not_elem_of_singleton. unfold addrs. rewrite !not_elem_of_list_to_set. split_and!; [| |done].
    - intros Hin. apply (HA _ Hin). right. by left.
    - intros E. apply HB. rewrite E. by left. }
  assert (level (<[nd_q m2 := zx]> (<[nd_q m1 := qp']> (t_xs t))) (addrs (G1 ++ n :: G2) ∪ U) (H1 ++ m' :: H2)) as HL.
  { eapply level_frame; [|exact HH1]. intros a Ha. apply lookup_insert_ne. intros <-. done. }
  assert (addrs (H1 ++ m' :: H2) ⊆ addrs (H1 ++ m1 :: m2 :: H2)) as Hsub.
  { rewrite !addrs_app. change (addrs (m' :: H2)) with ({[nd_q m1]} ∪ addrs H2). change (addrs (m1 :: m2 :: H2)) with ({[nd_q m1]} ∪ ({[nd_q m2]} ∪ addrs H2)). clear. set_solver. }
  assert (children (H1 ++ m' :: H2) = children (H1 ++ m1 :: m2 :: H2)) as Hc.
  { rewrite !children_app. f_equal. change ((nd_row m1 ++ nd_row m2) ++ children H2 = nd_row m1 ++ nd_row m2 ++ children H2). by rewrite app_assoc. }
  assert (∀ a : ptr, a ∉ addrs (H1 ++ m1 :: m2 :: H2) → <[nd_q m2 := zx]> (<[nd_q m1 := qp']> (t_xs t)) !! a = t_xs t !! a) as Hout.
  { intros a Hna. rewrite !lookup_insert_ne; [done| |]; intros <-; apply Hna; [apply node_addr|rewrite (cons_middle m1), (app_assoc H1); apply node_addr]. }
  assert (∀ a : ptr, a ∉ addrs (G1 ++ n :: G2) ∪ addrs (H1 ++ m1 :: m2 :: H2) → t_xs t' !! a = t_xs t !! a) as Hsame.
  { intros a Hna. rewrite not_elem_of_union in Hna. destruct Hna as [Hna Hnb]. rewrite Hxs, lookup_insert_ne; [by apply Hout|]. intros <-. apply Hna, node_addr. }
  unfold refit. split_and!; try done; [subst m'; cbn; unfold kx in *; zlen|]. destruct Hres as [(Hlt & Hr & Hp')|[Hz Hr]].
  - left. exists (E1 ++ (nd_lo m1, XPage (nd_q m1)) :: E2). cbn zeta. split; [done|].
    destruct (refit_levels (t_xs t) (<[nd_q m2 := zx]> (<[nd_q m1 := qp']> (t_xs t))) U G1 n G2 (H1 ++ m1 :: m2 :: H2) (H1 ++ m' :: H2) pp' (E1 ++ (nd_lo m1, XPage (nd_q m1)) :: E2) HG (proj2 (proj2 HH)) Hout HL Hp') as [HG' HH'];
      [zlen|destruct Hroom as [H3|(_ & -> & -> & _)]; [left; rewrite Hrow in H3; zlen|by right]|]. rewrite <- Hxs in HG', HH'.
    split_and!; [done|done|]. rewrite children_mid, heads_app. cbn. rewrite <- app_assoc, app_assoc, Hleft. cbn. by rewrite Hright.
  - right. assert (at_root t U G1 n G2) as Hat. { destruct Hroom as [H3|?]; [|done]. rewrite Hrow, zlen_app, !zlen_cons in H3. unfold kx in *. lia. }
    pose proof Hat as (-> & -> & -> & _). pose proof (zlen_nonneg E1). pose proof (zlen_nonneg E2). destruct E1; [|zlen]. destruct E2; [|zlen]. cbn in Hleft, Hright.
    destruct H1; [|done]. destruct H2; [|done]. split_and!; try done.
    + destruct (x_has_head _ _ _ Hp) as (? & ? & E). by injection E.
    + destruct HL as (Hn & [Hnd _] & _). split_and!; [|done|by intros x ->%list_elem_of_singleton; right|set_solver]. intros x ->%list_elem_of_singleton. destruct (Hn m') as (xq & Exq & Hxq); [by left|]. exists xq. split; [|done].
      rewrite Hxs, lookup_insert_ne; [done|]. done.
Qed.
End pair.

Lemma x_test_ok t (a : ptr) xp f : t_xs t !! a = Some xp → x_test (Some a) f t = Ret (f (x_c xp), t).
Proof. intros E. unfold x_test. by run (x_load_Ret t a xp E). Qed.

(** The page of an enlarged level in which the descent goes on *)
Definition refit_at t U G1 n G2 H1 m H2 F1 e F2 i (run : outcome (ptr * Z * BTree V)) : Prop :=
  ∃ t' H1' m' H2' F1' F2' d, run = Ret ((nd_q m', i + d), t') ∧ refit t t' U G1 n G2 (H1 ++ m :: H2) H1' m' H2' ∧
    nd_row m' = F1' ++ e :: F2' ∧ zlen F1' = zlen F1 + d ∧ children H1' ++ F1' = children H1 ++ F1 ∧ F2' ++ children H2' = F2 ++ children H2.

Section underflowX.
Context (t : BTree V) (U : gset ptr) (G1 : list node) (n : node) (G2 H1 : list node) (m : node) (H2 : list node) (E1 E2 F1 : row) (e : option bytes * page) (F2 : row) (i : Z).
Hypothesis HG : level (t_xs t) U (G1 ++ n :: G2).
Hypothesis Hfew : zlen (nd_row m) ≤ kx.
Hypothesis Hroom : roomy t U G1 n G2.
Hypothesis HF : nd_row m = F1 ++ e :: F2.

(** [ml] is the page on the left. *)
Section left.
Context (H0 : list node) (ml : node) (E0 : row).
Hypothesis HH : level (t_xs t) (addrs (G1 ++ n :: G2) ∪ U) (H0 ++ ml :: m :: H2).
Hypothesis Hrow : nd_row n = E0 ++ (nd_lo ml, XPage (nd_q ml)) :: (nd_lo m, XPage (nd_q m)) :: E2.
Hypothesis Hleft : children G1 ++ E0 = heads H0.
Hypothesis Hright : E2 ++ children G2 = heads H2.

Lemma refit_left pi : kx + 1 < zlen (nd_row ml) → pi = zlen E0 + 1 →
  refit_at t U G1 n G2 (H0 ++ [ml]) m H2 F1 e F2 i ((l ← deref (Some (nd_q ml)); p ← deref (Some (nd_q n));
    _ ← x_mod (nd_q m) (λ qp, c ← get_ch qp (x_c qp); set_ch qp (x_c qp + 1) c);
    _ ← x_mod (nd_q m) (λ qp, src ← slice (x_x qp) 0 (x_c qp); x_copy qp 1 src);
    lp ← x_load l; c ← st_lift (get_ch lp (x_c lp));
    _ ← x_mod (nd_q m) (λ qp, set_ch qp 0 c);
    pp ← x_load p; k ← st_lift (get_k pp (pi - 1));
    _ ← x_mod (nd_q m) (λ qp, set_k qp 0 k);
    _ ← x_mod (nd_q m) (λ qp, mret (set_xc qp (x_c qp + 1)));
    _ ← x_mod l (λ lp, mret (set_xc lp (x_c lp - 1)));
    lp ← x_load l; k ← st_lift (get_k lp (x_c lp));
    _ ← x_mod p (λ pp, set_k pp (pi - 1) k);
    mret (nd_q m, i + 1)) t).
Proof.
  intros Hml ->. destruct (pair_pages t U G1 n G2 H0 ml m H2 HG HH) as (pp & lp & qp & Ep & El & Eq & Hp & Hl & Hq & Hl2 & Hm2 & Hne & Hn1 & Hn2).
  destruct (list_snoc (nd_row ml)) as (E & [s c] & HE); [unfold kx in *; lia|]. rewrite HE in Hl, Hml. rewrite zlen_app in Hml. cbn in Hml.
  destruct (x_get_k lp (nd_lo ml) E s c [] (zlen E - 1) Hl) as (k & -> & _); [lia|unfold kx in *; zlen|].
  destruct (x_has_head _ _ _ Hq) as (c0 & F & Hqr). pose proof Hq as Hq'. rewrite Hqr in Hq'. rewrite Hrow, cons_middle, app_assoc in Hp.
  destruct (borrowX_left t (nd_q n) (nd_q ml) (nd_q m) pp lp qp (nd_lo n) (E0 ++ [(nd_lo ml, XPage (nd_q ml))]) (nd_lo m) (XPage (nd_q m)) E2 (nd_lo ml) E k c (nd_lo m) c0 F (zlen E0 + 1) i) as
    (t' & pk & pp' & lp' & qp' & Er & Hpk & Hw & Hr & Hxs & Hp' & Hl' & Hq1); try done; [zlen|zlen|unfold kx in *; zlen|rewrite Hqr in Hfew; unfold kx in *; zlen|].
  rewrite <- Hpk, <- Hqr in Hq1. rewrite <- app_assoc in Hp'. cbn [app] in Hp'.
  exists t', (H0 ++ [Node (nd_lo ml) (nd_q ml) E]), (Node (Some k) (nd_q m) ((Some k, c) :: nd_row m)), H2, ((Some k, c) :: F1), F2, 1.
  split; [exact Er|]. split; [|split; [by rewrite HF|split; [zlen|split; [|done]]]].
  - rewrite <- app_assoc. apply (refit_pair t U G1 n G2 H0 ml m H2 E0 E2 HG HH Hrow Hleft Hright t' pp' lp' qp' (Some k) E ((Some k, c) :: nd_row m) false); try done; [by rewrite HE, <- app_assoc|unfold kx in *; zlen|unfold kx in *; zlen|unfold kx in *; zlen].
  - rewrite !children_app. cbn. by rewrite HE, !app_nil_r, <- !app_assoc.
Qed.

Lemma refit_catX_left pi j : zlen (nd_row ml) ≤ kx + 1 → pi = zlen E0 → j = zlen (nd_row ml) →
  refit_at t U G1 n G2 (H0 ++ [ml]) m H2 F1 e F2 i ((_ ← catX zv (nd_q n) (nd_q ml) (nd_q m) pi; mret (nd_q ml, i + j)) t).
Proof.
  intros Hml -> ->. destruct (catX_refit t U G1 n G2 H0 ml m H2 E0 E2 HG HH Hrow Hleft Hright (zlen E0)) as (t' & E & Hre); [unfold kx in *; lia|done|done|].
  exists t', H0, (Node (nd_lo ml) (nd_q ml) (nd_row ml ++ nd_row m)), H2, (nd_row ml ++ F1), F2, (zlen (nd_row ml)).
  split; [by run E|]. split; [by rewrite <- app_assoc|]. split; [cbn; by rewrite HF, <- app_assoc|]. split; [zlen|]. split; [|done].
  rewrite children_app. cbn. by rewrite app_nil_r, <- app_assoc.
Qed.
End left.

(** [mr] is the page on the right. *)
Section right.
Context (mr : node) (H3 : list node) (E3 : row).
Hypothesis HH : level (t_xs t) (addrs (G1 ++ n :: G2) ∪ U) (H1 ++ m :: mr :: H3).
Hypothesis Hrow : nd_row n = E1 ++ (nd_lo m, XPage (nd_q m)) :: (nd_lo mr, XPage (nd_q mr)) :: E3.
Hypothesis Hleft : children G1 ++ E1 = heads H1.
Hypothesis Hright : E3 ++ children G2 = heads H3.

Lemma refit_right pi : kx + 1 < zlen (nd_row mr) → pi = zlen E1 →
  refit_at t U G1 n G2 H1 m (mr :: H3) F1 e F2 i ((r ← deref (Some (nd_q mr)); p ← deref (Some (nd_q n));
    pp ← x_load p; k ← st_lift (get_k pp pi);
    _ ← x_mod (nd_q m) (λ qp, set_k qp (x_c qp) k);
    _ ← x_mod (nd_q m) (λ qp, mret (set_xc qp (x_c qp + 1)));
    rp ← x_load r; c ← st_lift (get_ch rp 0);
    _ ← x_mod (nd_q m) (λ qp, set_ch qp (x_c qp) c);
    k ← st_lift (get_k rp 0);
    _ ← x_mod p (λ pp, set_k pp pi k);
    _ ← x_mod r (λ rp, src ← slice (x_x rp) 1 (x_c rp); x_copy rp 0 src);
    _ ← x_mod r (λ rp, mret (set_xc rp (x_c rp - 1)));
    _ ← x_mod r (λ rp, c ← get_ch rp (x_c rp + 1); set_ch rp (x_c rp) c);
    _ ← x_mod r (λ rp, set_k rp (x_c rp) zk);
    _ ← x_mod r (λ rp, set_ch rp (x_c rp + 1) NilPage);
    mret (nd_q m, i)) t).
Proof.
  intros Hmr ->. destruct (pair_pages t U G1 n G2 H1 m mr H3 HG HH) as (pp & qp & rp & Ep & Eq & Er & Hp & Hq & Hr & Hm2 & Hr2 & Hne & Hn1 & Hn2).
  destruct (x_has_head _ _ _ Hr) as (c0 & F & Hrr). rewrite Hrr in Hr, Hmr. destruct (list_cons F) as ([s c1] & F' & ->); [unfold kx in *; zlen|].
  destruct (x_get_k rp (nd_lo mr) [(nd_lo mr, c0)] s c1 F' 0 Hr) as (k & -> & _); [done|lia|]. rewrite Hrow, cons_middle, app_assoc in Hp.
  destruct (borrowX_right t (nd_q n) (nd_q m) (nd_q mr) pp qp rp (nd_lo n) (E1 ++ [(nd_lo m, XPage (nd_q m))]) (nd_lo mr) (XPage (nd_q mr)) E3 (nd_lo m) (nd_row m) (nd_lo mr) c0 k c1 F' (zlen E1) i) as
    (t' & pk & pp' & qp' & rp' & Ex & Hpk & Hw & Hrt & Hxs & Hp' & Hq' & Hr'); try done; [zlen|zlen|unfold kx in *; lia|].
  rewrite <- Hpk in Hq'. rewrite <- app_assoc in Hp'. cbn [app] in Hp'.
  exists t', H1, (Node (nd_lo m) (nd_q m) (nd_row m ++ [(nd_lo mr, c0)])), (Node (Some k) (nd_q mr) ((Some k, c1) :: F') :: H3), F1, (F2 ++ [(nd_lo mr, c0)]), 0.
  split; [by rewrite Z.add_0_r|]. split; [|split; [cbn; by rewrite HF, <- app_assoc|split; [lia|split; [done|]]]].
  - apply (refit_pair t U G1 n G2 H1 m mr H3 E1 E3 HG HH Hrow Hleft Hright t' pp' qp' rp' (Some k) (nd_row m ++ [(nd_lo mr, c0)]) ((Some k, c1) :: F') true); try done; [by rewrite Hrr, <- app_assoc|unfold kx in *; zlen|unfold kx in *; zlen|unfold kx in *; zlen].
  - rewrite <- app_assoc. change (children (mr :: H3)) with (nd_row mr ++ children H3). by rewrite Hrr.
Qed.
Lemma refit_catX_right pi : zlen (nd_row mr) ≤ kx + 1 → pi = zlen E1 →
  refit_at t U G1 n G2 H1 m (mr :: H3) F1 e F2 i ((_ ← catX zv (nd_q n) (nd_q m) (nd_q mr) pi; mret (nd_q m, i)) t).
Proof.
  intros Hmr ->. destruct (catX_refit t U G1 n G2 H1 m mr H3 E1 E3 HG HH Hrow Hleft Hright (zlen E1)) as (t' & E & Hre); [unfold kx in *; lia|done|done|].
  exists t', H1, (Node (nd_lo m) (nd_q m) (nd_row m ++ nd_row mr)), H3, F1, (F2 ++ nd_row mr), 0.
  split; [rewrite Z.add_0_r; by run E|]. split; [done|]. split; [cbn; by rewrite HF, <- app_assoc|]. split; [lia|]. split; [done|]. by rewrite <- app_assoc.
Qed.
End right.
End underflowX.

Lemma heads_snoc_inv (R : row) e G : R ++ [e] = heads G → ∃ G' n, G = G' ++ [n] ∧ R = heads G' ∧ e = (nd_lo n, XPage (nd_q n)).
Proof.
  intros E. destruct (heads_inv _ _ _ E) as (G1 & G2 & -> & -> & E2). destruct (heads_cons_inv _ _ _ E2) as (n & G3 & -> & -> & E3). destruct G3; [|done]. by exists G1, n.
Qed.

Lemma underflowX_ok t U G1 n G2 H1 m H2 E1 E2 F1 e F2 i : level (t_xs t) U (G1 ++ n :: G2) → level (t_xs t) (addrs (G1 ++ n :: G2) ∪ U) (H1 ++ m :: H2) →
  nd_row n = E1 ++ (nd_lo m, XPage (nd_q m)) :: E2 → children G1 ++ E1 = heads H1 → E2 ++ children G2 = heads H2 →
  zlen (nd_row m) ≤ kx → roomy t U G1 n G2 → nd_row m = F1 ++ e :: F2 →
  refit_at t U G1 n G2 H1 m H2 F1 e F2 i (underflowX zv (Some (nd_q n)) (nd_q m) (zlen E1) i t).
Proof.
  intros HG HH Hrow Hleft Hright Hfew Hroom HF.
  destruct (level_node _ _ _ _ _ HG) as (pp & Ep & Hp & H2n). rewrite Hrow in Hp.
  assert (∀ a, a ∈ H1 ++ m :: H2 → ∃ xp, t_xs t !! nd_q a = Some xp ∧ x_c xp = zlen (nd_row a) - 1) as Hnode.
  { intros a Ha. destruct HH as [Hn _]. destruct (Hn a Ha) as (xp & E & Hx & _). exists xp. split; [done|]. by eapply x_has_c. }
  unfold underflowX. run (t_do_Ret t incr_ver). rewrite (proj2 (Z.leb_le 0 _)) by zlen.
  set (ol := last E1). set (or := head E2).
  assert (∀ Y (K : option ptr * option ptr → stM (BTree V) Y) l r, left_child pp (zlen E1) x_of = Ret l → right_child pp (zlen E1) x_of = Ret r →
    ((p ← deref (Some (nd_q n)); pp ← x_load p; l ← st_lift (left_child pp (zlen E1) x_of); r ← st_lift (right_child pp (zlen E1) x_of); mret (l, r)) ≫= K) (incr_ver t) = K (l, r) (incr_ver t)) as Hsib.
  { intros Y K l r El Er. rewrite (stM_Ret _ _ _ (l, r) (incr_ver t)); [done|]. cbn [deref]. rewrite (stM_Ret _ _ _ (nd_q n) (incr_ver t) eq_refl).
    run (x_load_Ret (incr_ver t) _ _ Ep). run (st_lift_Ret _ (incr_ver t) _ El). by run (st_lift_Ret _ (incr_ver t) _ Er). }
  rewrite (left_child_ok _ _ _ _ _ x_of Hp) in Hsib. rewrite (right_child_ok _ _ _ _ _ x_of Hp) in Hsib.
  assert (∃ orr, match or with Some e2 => r ← x_of e2.2; mret (Some r) | None => mret None end = Ret (nd_q <$> orr) ∧
    match orr with Some mr => ∃ E3 H3, E2 = (nd_lo mr, XPage (nd_q mr)) :: E3 ∧ H2 = mr :: H3 ∧ E3 ++ children G2 = heads H3 | None => E2 = [] end) as (orr & Eor & Hor).
  { subst or. destruct E2 as [|e2 E3]; [by exists None|]. destruct (heads_cons_inv _ _ _ Hright) as (mr & H3 & -> & -> & HH3). exists (Some mr). split; [done|]. by exists E3, H3. }
  assert (∃ oll, match ol with Some e1 => l ← x_of e1.2; mret (Some l) | None => mret None end = Ret (nd_q <$> oll) ∧
    match oll with Some ml => ∃ E0 H0, E1 = E0 ++ [(nd_lo ml, XPage (nd_q ml))] ∧ H1 = H0 ++ [ml] ∧ children G1 ++ E0 = heads H0 | None => E1 = [] end) as (oll & Eol & Hol).
  { subst ol. destruct E1 as [|e1 E0 _] using rev_ind; [by exists None|]. rewrite last_snoc. rewrite app_assoc in Hleft. destruct (heads_snoc_inv _ _ _ Hleft) as (H0 & ml & -> & HH0 & ->).
    exists (Some ml). split; [done|]. by exists E0, H0. }
  rewrite (Hsib _ _ _ _ Eol Eor). clear Hsib Eol Eor ol or. cbn beta iota.
  assert (∃ b : bool, x_test (nd_q <$> orr) (λ rc, kx <? rc) (incr_ver t) = Ret (b, incr_ver t) ∧ match orr with Some mr => b = (kx + 1 <? zlen (nd_row mr)) | None => b = false end) as (br & Ebr & Hbr).
  { destruct orr as [mr|]; [|by exists false]. destruct Hor as (E3 & H3 & -> & -> & _). destruct (Hnode mr) as (xp & Ex & Hc); [clear; set_solver|]. eexists. split; [by apply (x_test_ok (incr_ver t) _ xp)|]. rewrite Hc.
    destruct (Z.ltb_spec kx (zlen (nd_row mr) - 1)), (Z.ltb_spec (kx + 1) (zlen (nd_row mr))); try done; lia. }
  destruct oll as [ml|].
  - destruct Hol as (E0 & H0 & -> & -> & HL0). destruct (Hnode ml) as (lp & El & Hlc); [clear; set_solver|].
    pose proof Hrow as Hrow0. rewrite <- (app_assoc E0) in Hrow0. cbn [app] in Hrow0. pose proof HH as HH0. rewrite <- (app_assoc H0) in HH0. cbn [app] in HH0.
    cbn [fmap option_fmap option_map]. run (x_test_ok (incr_ver t) (nd_q ml) lp (λ lc, kx <? lc) El). rewrite Hlc.
    destruct (Z.ltb_spec kx (zlen (nd_row ml) - 1)) as [Hlt|Hge].
    + apply (refit_left (incr_ver t) U G1 n G2 m H2 E2 F1 e F2 i HG Hfew HF H0 ml E0 HH0 Hrow0 HL0 Hright); [lia|zlen].
    + run Ebr. destruct br.
      * destruct orr as [mr|]; [|done]. destruct Hor as (E3 & H3 & -> & -> & HR3). apply eq_sym, Z.ltb_lt in Hbr.
        by apply (refit_right (incr_ver t) U G1 n G2 (H0 ++ [ml]) m (E0 ++ [(nd_lo ml, XPage (nd_q ml))]) F1 e F2 i HG Hfew HF mr H3 E3).
      * cbn [deref]. rewrite (stM_Ret _ _ _ (nd_q n) (incr_ver t) eq_refl). run (x_load_Ret (incr_ver t) _ _ El). rewrite Hlc.
        apply (refit_catX_left (incr_ver t) U G1 n G2 m H2 E2 F1 e F2 i HG Hfew Hroom HF H0 ml E0 HH0 Hrow0 HL0 Hright); [lia|zlen|lia].
  - subst E1. cbn [fmap option_fmap option_map]. run (eq_refl : x_test None (λ lc, kx <? lc) (incr_ver t) = Ret (false, incr_ver t)).
    change (option_map nd_q orr) with (nd_q <$> orr). run Ebr. destruct orr as [mr|].
    2:{ subst E2. destruct Hroom as [H3|(-> & -> & -> & _)]; rewrite Hrow in *; cbn in *; unfold kx in *; zlen. }
    destruct Hor as (E3 & H3 & -> & -> & HR3). destruct br; apply eq_sym in Hbr; [apply Z.ltb_lt in Hbr|apply Z.ltb_ge in Hbr].
    + by apply (refit_right (incr_ver t) U G1 n G2 H1 m [] F1 e F2 i HG Hfew HF mr H3 E3).
    + cbn [deref fmap option_fmap option_map]. rewrite (stM_Ret _ _ _ (nd_q n) (incr_ver t) eq_refl), (stM_Ret _ _ _ (nd_q mr) (incr_ver t) eq_refl).
      by apply (refit_catX_right (incr_ver t) U G1 n G2 H1 m [] F1 e F2 i HG Hfew Hroom HF mr H3 E3).
Qed.
End refit.
