(* ===== verification/BTreeDelete.v ===== *)
(** * [Delete] of the B+tree

    The descent with its joins, from the root to a leaf: [Delete] takes a key
    out of the map of a tree. *)
From S2P Require Import Prelude ByteOrder BTreeSpec BTree BTreePages BTreeInv BTreeFind BTreeLeaves BTreeSet BTreePut BTreeUnderflow BTreeUnderflowX.

Section delete.
Context {V : Type} (zv : V).
Notation item := (bytes * V)%type.
Implicit Types (t : BTree V) (L A B LL : list (leaf V)) (a b its : list item) (k : bytes) (v : V) (lo : option bytes) (q p : ptr) (xp : x_page) (E : row) (G H : list node) (n m : node) (U : gset ptr).

(** ** In a leaf *)

Lemma extract_at k t A l B : leaves t (A ++ l :: B) → located k (leaf_row (A ++ [l])) (leaf_row B) →
  (∃ i, find (DPage (lf_q l)) k t = Ret ((i, false), t) ∧ tree_map t !! k = None) ∨
  ∃ i its t1 pg, find (DPage (lf_q l)) k t = Ret ((i, true), t) ∧ is_Some (tree_map t !! k) ∧ t_extract zv (lf_q l) i t = Ret (tt, t1) ∧ data_step (-1) t t1 ∧
    loose t1 (A ++ Leaf (lf_lo l) (lf_q l) its :: B) ∧ list_to_map (flat A ++ its ++ flat B) = delete k (tree_map t) ∧ zlen its + 1 = zlen (lf_its l) ∧
    t_ds t1 !! lf_q l = Some pg ∧ d_c pg = zlen its.
Proof.
  intros Hl Hloc. destruct (find_leaf _ _ _ _ _ Hl Hloc) as (pg & n & p & [i ok] & E & Hd & Ef & Hfound).
  pose proof (found_lookup _ _ _ _ _ _ _ Hl Hfound) as Hm. pose proof (lv_sorted _ _ Hl) as Hs. destruct ok; [right|left; by exists i].
  destruct l as [lo q its]. cbn in *. destruct Hm as (a & v & b & -> & -> & Hm).
  destruct (t_extract_ok zv t A lo q a (k, v) b B (zlen a) (leaves_linked _ _ Hl) eq_refl) as (t1 & Ee & K1 & D1).
  destruct (linked_get _ _ _ _ K1) as (pg1 & E1 & _ & _ & Hc1 & _). cbn in E1, Hc1.
  exists (zlen a), (a ++ b), t1, pg1. split_and!; try done.
  - split; [done| |by eapply marks_remove]. rewrite (ds_count _ _ _ D1), (lv_count _ _ Hl), !flat_app, !flat_cons. cbn. zlen.
  - pose proof (sorted_flat _ Hs) as Hsf. rewrite (tree_map_flat _ _ Hl), flat_app, flat_cons in *. cbn [lf_its] in *.
    rewrite <- !app_assoc, !(app_assoc (flat A)) in *. cbn [app] in *. by eapply list_to_map_remove.
  - zlen.
Qed.

(** ** Below an index page *)

(** What is left of the tree below the level of [n] *)
Definition delete_left t t' U G1 n G2 h LL : Prop :=
  (t_r t' = t_r t ∧ (∀ u, u ∈ U → t_xs t' !! u = t_xs t !! u) ∧ shape (t_xs t') U (S h) (heads (G1 ++ n :: G2)) (leaf_row LL)) ∨
  (at_root t U G1 n G2 ∧ ∃ h', shape (t_xs t') ∅ h' [(nd_lo n, t_r t')] (leaf_row LL)).
Definition delete_promise k t U G1 n G2 h (run : outcome (bool * BTree V)) : Prop :=
  ∃ t' LL', run = Ret (bool_decide (is_Some (tree_map t !! k)), t') ∧ leaves t' LL' ∧ tree_map t' = delete k (tree_map t) ∧ fresh t' ∧ delete_left t t' U G1 n G2 h LL'.

Lemma delete_none k t LL U G1 n G2 h : fresh t → leaves t LL → tree_map t !! k = None → shape (t_xs t) U (S h) (heads (G1 ++ n :: G2)) (leaf_row LL) →
  delete_promise k t U G1 n G2 h (Ret (false, t)).
Proof.
  intros Hf Hl Hm Hs. exists t, LL. rewrite Hm. split_and!; try done; [by rewrite delete_id|]. by left.
Qed.

Lemma delete_below k t U G1 n G2 LA L1 l L2 LB fuel : fresh t → leaves t (LA ++ (L1 ++ l :: L2) ++ LB) → level (t_xs t) U (G1 ++ n :: G2) →
  children G1 = leaf_row LA → nd_row n = leaf_row (L1 ++ l :: L2) → children G2 = leaf_row LB → roomy t U G1 n G2 → DPage (lf_q l) ≠ t_r t →
  located k (leaf_row (LA ++ L1 ++ [l])) (leaf_row (L2 ++ LB)) →
  delete_promise k t U G1 n G2 0 (delete_loop zv (S fuel) k (zlen L1) (Some (nd_q n)) (DPage (lf_q l)) t).
Proof.
  intros Hf Hl HG HA Hrow HB Hroom Hr Hloc.
  assert (∀ M : leaf V, (LA ++ L1) ++ M :: (L2 ++ LB) = LA ++ (L1 ++ M :: L2) ++ LB) as Ea by (intros; by rewrite <- !app_assoc).
  assert (shape (t_xs t) U 1 (heads (G1 ++ n :: G2)) (leaf_row (LA ++ (L1 ++ l :: L2) ++ LB))) as Hsh.
  { exists (G1 ++ n :: G2). split; [done|]. split; [done|]. cbn. by rewrite children_mid, HA, HB, Hrow, !leaf_row_app. }
  rewrite <- Ea in Hl. rewrite app_assoc in Hloc. cbn [delete_loop].
  destruct (extract_at k t (LA ++ L1) l (L2 ++ LB) Hl Hloc) as [(i & Ef & Hm)|(i & its & t1 & pg & Ef & Hm & Ee & D1 & Hls & Hmap & Hlen & Epg & Hpg)]; run Ef.
  { rewrite Ea in Hl. change (delete_promise k t U G1 n G2 0 (Ret (false, t))). by apply (delete_none k t _ U G1 n G2 0 Hf Hl). }
  rewrite (stM_Ret _ _ _ (t_r t) t eq_refl). run Ee. run (d_load_Ret _ _ _ Epg). rewrite Hpg. destruct l as [lo q its0]. cbn [lf_lo lf_q lf_its] in *.
  assert (∀ x, x ∈ (LA ++ L1) ++ Leaf lo q its0 :: L2 ++ LB → leaf_full x) as Hsz.
  { apply (sizes_many _ (lv_sizes _ _ Hl)). destruct (level_node _ _ _ _ _ HG) as (xp & _ & _ & H2). rewrite Hrow, leaf_row_len in H2.
    pose proof (zlen_nonneg LA). pose proof (zlen_nonneg LB). zlen. }
  assert (kd ≤ zlen its0 ≤ 2 * kd) as Hsz0 by (apply (Hsz (Leaf lo q its0)); set_solver).
  assert (∀ x, x ∈ (LA ++ L1) ++ L2 ++ LB → leaf_full x) as Hsz' by (intros x Hx; apply Hsz; clear -Hx; set_solver).
  destruct (Z.leb_spec kd (zlen its)) as [Hge|Hlt].
  - exists t1, (LA ++ (L1 ++ Leaf lo q its :: L2) ++ LB). split; [by rewrite bool_decide_eq_true_2|]. rewrite <- Ea.
    assert (leaves t1 ((LA ++ L1) ++ Leaf lo q its :: L2 ++ LB)) as Hl1 by (apply loose_full; [done|]; apply sizes_one; [done|]; unfold leaf_full; cbn; unfold kd in *; lia).
    split; [done|]. split; [rewrite (tree_map_flat _ _ Hl1), flat_app, flat_cons; exact Hmap|]. split; [by eapply data_step_fresh|]. left. rewrite (ds_xs _ _ _ D1). split_and!; [apply D1|done|].
    rewrite Ea. by rewrite !leaf_row_app in *.
  - rewrite (stM_Ret _ _ _ (t_c t1) t1 eq_refl). rewrite (bool_decide_eq_false_2 (DPage q = t_r t)) by done. cbn [negb deref]. rewrite Ea in Hls.
    destruct (level_node _ _ _ _ _ HG) as (xp & Ep & Hx & H2). rewrite Hrow in Hx, H2.
    assert (fill_ok t1 LA LB (nd_q n) (nd_lo n) (at_root t U G1 n G2) (underflow zv (nd_q n) q (zlen L1) t1) (flat L1 ++ its ++ flat L2)) as (t2 & L' & Eu & Hl2 & Hfl & Hf2 & Hfill).
    { apply (underflow_ok zv t1 LA LB (nd_q n) xp (nd_lo n)) with (lq := lo); try done.
      - by eapply data_step_fresh.
      - by rewrite (ds_xs _ _ _ D1).
      - intros (_ & -> & -> & Hroot). destruct LA; [|done]. destruct LB; [|done]. by rewrite (ds_root _ _ _ D1).
      - lia.
      - by rewrite leaf_row_app in *.
      - unfold room. assert (zlen (L1 ++ Leaf lo q its :: L2) = zlen (nd_row n)) as -> by (rewrite Hrow, leaf_row_len; zlen). destruct Hroom as [?|?]; [by left|right]. split; [|done]. by rewrite Hrow. }
    erewrite stM_Ret; [|erewrite (stM_Ret _ _ _ (nd_q n)); [exact Eu|done]]. exists t2, (LA ++ L' ++ LB). split; [by rewrite bool_decide_eq_true_2|]. split; [done|].
    split; [rewrite (tree_map_flat _ _ Hl2), !flat_app, Hfl; rewrite !flat_app, <- !app_assoc in Hmap; by rewrite <- !app_assoc|]. split; [done|].
    destruct Hfill as [(xp' & (Hxs & Hrt & _) & Hx' & H2' & Hk')|(Hat & l' & -> & Hlo & Hrt)].
    + left. rewrite Hrt, (ds_root _ _ _ D1), Hxs, (ds_xs _ _ _ D1). split_and!; [done| |].
      * intros u Hu. apply lookup_insert_ne. intros <-. destruct HG as (_ & _ & HG). apply (HG (nd_q n)); [apply node_addr|done].
      * exists (G1 ++ Node (nd_lo n) (nd_q n) (leaf_row L') :: G2). split; [by rewrite heads_put|]. split; [apply level_put; rewrite ?leaf_row_len; try done; unfold fits; rewrite leaf_row_len; destruct Hk' as [?|(_ & -> & -> & _)]; auto|].
        cbn. by rewrite children_mid, HA, HB, !leaf_row_app.
    + right. split; [done|]. exists 0%nat. destruct Hat as (_ & -> & -> & _). destruct LA; [|done]. destruct LB; [|done]. cbn. by rewrite Hrt, Hlo.
Qed.

(** ** The descent *)

(** One round at an index page, without and with filling it up *)
Lemma delete_loop_down fuel k pi (p : option ptr) x t xp i (ok : bool) c : find (XPage x) k t = Ret ((i, ok), t) → t_xs t !! x = Some xp → kx ≤ x_c xp ∨ XPage x = t_r t →
  get_ch xp (if ok then i + 1 else i) = Ret c → delete_loop zv (S fuel) k pi p (XPage x) t = delete_loop zv fuel k (if ok then i + 1 else i) (Some x) c t.
Proof.
  intros Ef Ex Hc Eg. cbn [delete_loop]. run Ef. rewrite (stM_Ret _ _ _ (t_r t) t eq_refl). run (x_load_Ret _ _ _ Ex).
  assert ((x_c xp <? kx) && negb (bool_decide (XPage x = t_r t)) = false) as ->.
  { destruct Hc as [Hc|Hc]; [by rewrite (proj2 (Z.ltb_ge _ _))|]. rewrite bool_decide_eq_true_2 by done. apply andb_false_r. }
  rewrite (stM_Ret _ _ _ (x, i) t eq_refl). run (x_load_Ret _ _ _ Ex). by run (st_lift_Ret _ t _ Eg).
Qed.
Lemma delete_loop_fill fuel k pi (p : option ptr) x t xp i (ok : bool) t1 y j yp c : find (XPage x) k t = Ret ((i, ok), t) → t_xs t !! x = Some xp → x_c xp < kx → XPage x ≠ t_r t →
  underflowX zv p x pi i t = Ret ((y, j), t1) → t_xs t1 !! y = Some yp → get_ch yp (if ok then j + 1 else j) = Ret c →
  delete_loop zv (S fuel) k pi p (XPage x) t = delete_loop zv fuel k (if ok then j + 1 else j) (Some y) c t1.
Proof.
  intros Ef Ex Hc Hr Eu Ey Eg. cbn [delete_loop]. run Ef. rewrite (stM_Ret _ _ _ (t_r t) t eq_refl). run (x_load_Ret _ _ _ Ex).
  rewrite (proj2 (Z.ltb_lt _ _)), bool_decide_eq_false_2 by done. cbn [andb negb]. run Eu. run (x_load_Ret _ _ _ Ey). by run (st_lift_Ret _ t1 _ Eg).
Qed.

(** [refit] keeps everything below the children. *)
Lemma refit_shape t t' U G1 n G2 H H1' m' H2' (U' : gset ptr) h R : refit t t' U G1 n G2 H H1' m' H2' → shape (t_xs t) (addrs H ∪ (addrs (G1 ++ n :: G2) ∪ U)) h (children H) R →
  U' ⊆ addrs (G1 ++ n :: G2) ∪ U → shape (t_xs t') (addrs (H1' ++ m' :: H2') ∪ U') h (children (H1' ++ m' :: H2')) R.
Proof.
  intros (_ & Hsame & Hsub & Hc & _) Hs HU. rewrite Hc. apply (shape_mono _ (addrs H ∪ (addrs (G1 ++ n :: G2) ∪ U))); [intros a Ha; left; clear -Ha Hsub HU; set_solver|].
  eapply shape_frame; [|exact Hs]. intros a Ha. apply Hsame. clear -Ha. set_solver.
Qed.

Lemma delete_loop_ok k fuel : ∀ h t U G1 n G2 E1 e E2 LL, fresh t → leaves t LL → level (t_xs t) U (G1 ++ n :: G2) →
  shape (t_xs t) (addrs (G1 ++ n :: G2) ∪ U) h (children (G1 ++ n :: G2)) (leaf_row LL) → nd_row n = E1 ++ e :: E2 → roomy t U G1 n G2 →
  (∃ r, t_r t = XPage r ∧ r ∈ addrs (G1 ++ n :: G2) ∪ U) → located k (children G1 ++ E1 ++ [e]) (E2 ++ children G2) →
  delete_promise k t U G1 n G2 h (delete_loop zv (S (h + fuel)) k (zlen E1) (Some (nd_q n)) e.2 t).
Proof.
  induction h as [|h IH]; intros t U G1 n G2 E1 e E2 LL Hf Hl HG Hs HE Hroom (r & Hr & HrU) Hloc; rewrite children_mid, HE in Hs.
  - cbn [shape] in Hs. destruct (leaf_row_inv _ _ _ Hs) as (LA & L' & -> & HA & Hs1). destruct (leaf_row_inv _ _ _ Hs1) as (L & LB & -> & HL & HB).
    destruct (leaf_row_inv _ _ _ HL) as (L1 & L'' & -> & H1 & HL1). destruct (leaf_row_cons_inv _ _ _ HL1) as (l & L2 & -> & -> & ->).
    rewrite HA, HB, H1 in *. cbn [snd]. rewrite leaf_row_len. apply (delete_below k t U G1 n G2 LA L1 l L2 LB fuel); try done; [by rewrite HE, leaf_row_app|by rewrite Hr|].
    by rewrite !leaf_row_app.
  - destruct Hs as (H & HGe & HH & Hs). rewrite <- app_assoc, app_assoc in HGe. destruct (heads_inv _ _ _ HGe) as (H1 & H' & -> & HH1 & HGe'). cbn [app] in HGe'.
    destruct (heads_cons_inv _ _ _ HGe') as (m & H2 & -> & -> & HH2). cbn [snd].
    assert (located k (heads (H1 ++ [m])) (heads H2)) as Hloc' by (by rewrite heads_app, <- HH1, <- HH2, <- app_assoc).
    destruct (find_in_level _ _ _ _ _ _ _ _ Hl HH Hs Hloc') as (mp & i & ok & F1 & e' & F2 & Em & Hmx & Ef & HF & Hi & Hdown).
    pose proof (x_has_c _ _ _ Hmx) as Hc. assert (XPage (nd_q m) ≠ t_r t) as Hmr.
    { rewrite Hr. intros [= <-]. destruct HH as (_ & _ & HH). apply (HH (nd_q m)); [apply node_addr|done]. }
    cbn [Nat.add]. destruct (Z.leb_spec kx (x_c mp)) as [Hge|Hlt].
    + rewrite (delete_loop_down _ k _ _ _ _ mp i ok e'.2 Ef Em (or_introl Hge)) by (rewrite HF in Hmx; by apply (x_get_ch _ _ _ _ _ _ Hmx)). rewrite Hi.
      destruct (IH t (addrs (G1 ++ n :: G2) ∪ U) H1 m H2 F1 e' F2 LL) as (t' & LL' & E & Hl' & Hm & Hf' & Hleft); try done.
      { left. unfold kx in *. lia. }
      { exists r. split; [done|]. by apply elem_of_union_r. }
      exists t', LL'. split_and!; try done. left. destruct Hleft as [(Hr' & Hu & Hs')|[(HU & _) _]].
      2:{ exfalso. pose proof (node_addr G1 n G2) as Hn. clear -Hn HU. set_solver. }
      split; [done|]. split; [intros u Hu'; apply Hu; by apply elem_of_union_r|]. exists (G1 ++ n :: G2). split; [done|]. split.
      * eapply level_frame; [|exact HG]. intros a Ha. apply Hu. by apply elem_of_union_l.
      * by rewrite children_mid, HE, <- app_assoc, app_assoc, HGe.
    + destruct (underflowX_ok zv t U G1 n G2 H1 m H2 E1 E2 F1 e' F2 i) as (t1 & H1' & m' & H2' & F1' & F2' & d & Eu & Hre & HF' & Hd & HA & HB); try done; [lia|].
      pose proof Hre as (Hw & Hsame & Hsub & Hch & H3 & Hcase). pose proof (leaves_idx _ _ _ (proj1 Hw) Hl) as Hl1. pose proof (tree_map_idx _ _ (proj1 Hw)) as Hm1. pose proof (idx_write_fresh _ _ Hw Hf) as Hf1.
      assert (∃ yp, t_xs t1 !! nd_q m' = Some yp ∧ x_has yp (nd_lo m') (nd_row m')) as (yp & Ey & Hy).
      { destruct Hcase as [(R0 & _ & _ & HHm & _)|(_ & _ & _ & -> & -> & HHm)].
        - destruct (level_node _ _ _ _ _ HHm) as (yp & Hy1 & Hy2 & _). by exists yp.
        - destruct (level_node _ _ [] _ [] HHm) as (yp & Hy1 & Hy2 & _). by exists yp. }
      rewrite HF' in Hy. assert ((if ok then i + d + 1 else i + d) = zlen F1') as Hj by (destruct ok; lia).
      rewrite (delete_loop_fill _ k _ _ _ _ mp i ok t1 (nd_q m') (i + d) yp e'.2 Ef Em Hlt Hmr Eu Ey) by (by apply (x_get_ch _ _ _ _ _ _ Hy)). rewrite Hj.
      assert (located k (children H1' ++ F1' ++ [e']) (F2' ++ children H2')) as Hdown' by (by rewrite HB, app_assoc, HA, <- app_assoc).
      destruct Hcase as [(R0 & Hr1 & HG1 & HHm & Hch1)|(Hat & Hr1 & Hlo & -> & -> & HHm)].
      * destruct (IH t1 (addrs (G1 ++ n :: G2) ∪ U) H1' m' H2' F1' e' F2' LL) as (t' & LL' & E & Hl' & Hm & Hf' & Hleft); try done.
        { by eapply refit_shape. }
        { by left. }
        { exists r. rewrite Hr1. split; [done|]. by apply elem_of_union_r. }
        exists t', LL'. rewrite Hm1 in *. split_and!; try done. left. destruct Hleft as [(Hr' & Hu & Hs')|[(HU & _) _]].
        2:{ exfalso. pose proof (node_addr G1 n G2) as Hn. clear -Hn HU. set_solver. }
        split; [by rewrite Hr'|]. split.
        { intros u Hu'. rewrite Hu by (by apply elem_of_union_r). apply Hsame. destruct HG as (_ & _ & HG). destruct HH as (_ & _ & HH). intros [Ha|Ha]%elem_of_union; [by apply (HG u)|apply (HH u); [done|by apply elem_of_union_r]]. }
        exists (G1 ++ Node (nd_lo n) (nd_q n) R0 :: G2). split; [by rewrite heads_put|]. rewrite addrs_put. split; [|by rewrite Hch1].
        eapply level_frame; [|exact HG1]. intros a Ha. apply Hu. rewrite addrs_put in Ha. by apply elem_of_union_l.
      * destruct (IH t1 ∅ [] m' [] F1' e' F2' LL) as (t' & LL' & E & Hl' & Hm & Hf' & Hleft); try done.
        { eapply (refit_shape _ _ _ _ _ _ _ [] m' []); [exact Hre|exact Hs|apply empty_subseteq]. }
        { by left. }
        { exists (nd_q m'). split; [done|]. apply elem_of_union_l, (node_addr [] m' []). }
        exists t', LL'. rewrite Hm1 in *. split_and!; try done. right. split; [done|]. rewrite <- Hlo. destruct Hleft as [(Hr' & _ & Hs')|[_ Hs']]; [|done].
        exists (S h). by rewrite Hr', Hr1.
Qed.

(** ** From the root *)

(** Some pages of [t0] were zeroed. *)
Definition zeroed t0 t : Prop := dom (t_ds t) = dom (t_ds t0) ∧ t_next t = t_next t0 ∧
  ∀ a : ptr, t_xs t !! a = t_xs t0 !! a ∨ (is_Some (t_xs t0 !! a) ∧ t_xs t !! a = Some zx).

Lemma zeroed_page t0 t (x : ptr) : zeroed t0 t → is_Some (t_xs t0 !! x) → ∃ t', x_store x zx t = Ret (tt, t') ∧ zeroed t0 t'.
Proof.
  intros (Hd & Hn & Hx) E. eexists. split; [reflexivity|]. split_and!; [done|done|]. intros a. cbn. destruct (decide (a = x)) as [->|]; [right; by rewrite lookup_insert_eq|by rewrite lookup_insert_ne].
Qed.
Lemma clr_ok t0 LL : (∀ l, l ∈ LL → is_Some (t_ds t0 !! lf_q l)) → ∀ h U R fuel e t, shape (t_xs t0) U h R (leaf_row LL) → zeroed t0 t → (h < fuel)%nat → e ∈ R →
  ∃ t', clr zv fuel e.2 t = Ret (tt, t') ∧ zeroed t0 t'.
Proof.
  intros HL. induction h as [|h IH]; intros U R [|fuel] e t Hs Hz Hf He; try lia; cbn [shape] in Hs.
  - subst R. apply list_elem_of_fmap in He as (l & -> & Hl). cbn. eexists. split; [reflexivity|]. destruct Hz as (Hd & Hn & Hx). split_and!; [|done|done].
    cbn. rewrite dom_insert_L, Hd. destruct (HL l Hl) as [pg E]. apply elem_of_dom_2 in E. clear -E. set_solver.
  - destruct Hs as (G & -> & (Hn & _) & Hs). apply list_elem_of_fmap in He as (n & -> & Hin). destruct (Hn n Hin) as (xp & Ex & Hx & _). cbn [clr snd].
    pose proof Hz as (_ & _ & Hzx). assert (is_Some (t_xs t0 !! nd_q n)) as Hsome by by eexists. destruct (Hzx (nd_q n)) as [E|[_ E]].
    2:{ run (x_load_Ret _ _ _ E). destruct fuel as [|fuel]; [lia|]. by apply zeroed_page. }
    rewrite Ex in E. run (x_load_Ret _ _ _ E). rewrite (x_has_c _ _ _ Hx), Z.sub_add. unfold zlen. rewrite Nat2Z.id.
    match goal with |- ∃ _, (?g 0%nat _ ≫= _) _ = _ ∧ _ => set (go := g) end.
    assert (∀ R2 R1 t, nd_row n = R1 ++ R2 → zeroed t0 t → ∃ t', go (length R1) (length R2) t = Ret (tt, t') ∧ zeroed t0 t') as Hgo.
    { clear t Hz Hzx E. induction R2 as [|e R2 IHr]; intros R1 t HR Hz; [by exists t|]. cbn [length]. unfold go at 1; fold go.
      rewrite HR in Hx. rewrite (stM_Ret _ _ _ e.2 t) by (apply st_lift_Ret; by apply (x_get_ch _ _ _ _ _ _ Hx)).
      destruct (IH (addrs G ∪ U) (children G) fuel e t Hs Hz) as (t1 & E1 & Hz1); [lia|apply list_elem_of_bind; exists n; split; [rewrite HR; apply elem_mid|done]|]. run E1.
      destruct (IHr (R1 ++ [e]) t1) as (t2 & E2 & Hz2); [by rewrite <- app_assoc|done|]. exists t2. split; [|done]. rewrite <- E2, length_app, Nat.add_1_r. reflexivity. }
    destruct (Hgo (nd_row n) [] t eq_refl Hz) as (t1 & E1 & Hz1). cbn [length] in E1. run E1. by apply zeroed_page.
Qed.

Lemma tree_map_first t : t_first t = None → tree_map t = ∅.
Proof. intros H. unfold tree_map. rewrite H. by destruct (size (t_ds t)). Qed.

(** [Clear] leaves the empty tree. *)
Lemma Clear_ok t LL h : fresh t → shape (t_xs t) ∅ h [(None, t_r t)] (leaf_row LL) → (∀ l, l ∈ LL → is_Some (t_ds t !! lf_q l)) →
  ∃ t', Clear zv t = Ret (tt, t') ∧ repr t' [] ∧ tree_map t' = ∅.
Proof.
  intros Hf Hs HL. unfold Clear. rewrite bool_decide_eq_false_2.
  2:{ intros Hr. rewrite Hr in Hs. destruct h; cbn [shape] in Hs; [by destruct (leaf_row_one _ _ _ Hs) as (l & _ & _ & [=])|]. destruct Hs as (G & HG & _). by destruct (heads_one _ _ _ HG) as (n & _ & _ & [=]). }
  pose proof Hs as Hd. apply shape_depth in Hd; [|done|apply empty_subseteq]. rewrite size_empty in Hd. cbn [Nat.add] in Hd.
  destruct (clr_ok t LL HL h ∅ [(None, t_r t)] (depth t) (None, t_r t) t Hs) as (t1 & E1 & Hdd & Hn & Hx); [split_and!; auto|unfold depth; lia|by left|].
  cbn [snd] in E1. run E1. eexists. split; [reflexivity|].
  split; [|by apply tree_map_first]. split; [|split; [|by left]].
  - intros a Ha. cbn in *. rewrite Hn in Ha. destruct (Hf a Ha) as [H1 H2]. split; [apply not_elem_of_dom; rewrite Hdd; by apply not_elem_of_dom|].
    destruct (Hx a) as [->|[[? ?] _]]; congruence.
  - split; cbn; try done; [constructor|constructor|by left; intros ? ?%not_elem_of_nil].
Qed.
Lemma Tree_Close_ok t LL : repr t LL → ∃ t', Tree_Close zv t = Ret (tt, t') ∧ repr t' [] ∧ tree_map t' = ∅.
Proof.
  intros HR. assert (∃ t1, Clear zv t = Ret (tt, t1) ∧ repr t1 []) as (t1 & E1 & Hf & _ & _).
  { pose proof HR as (Hf & Hl & [[Hr ->]|[h Hs]]); [exists t; unfold Clear; by rewrite bool_decide_eq_true_2|].
    destruct (Clear_ok t LL h Hf Hs) as (t1 & E & H & _); [|by exists t1]. intros l Hin. destruct (chain_lookup _ _ _ _ _ (lv_chain _ _ Hl) Hin) as (pg & ? & ? & E & _). by exists pg. }
  eexists. split; [unfold Tree_Close; run E1; reflexivity|].
  split; [|by apply tree_map_first]. split; [exact Hf|split; [|by left]]. split; cbn; try done; [constructor|constructor|by left; intros ? ?%not_elem_of_nil].
Qed.

Lemma delete_root_leaf k t l fuel : fresh t → leaves t [l] → lf_lo l = None → t_r t = DPage (lf_q l) →
  ∃ t' LL', delete_loop zv (S fuel) k (-1) None (DPage (lf_q l)) t = Ret (bool_decide (is_Some (tree_map t !! k)), t') ∧ repr t' LL' ∧ tree_map t' = delete k (tree_map t).
Proof.
  intros Hf Hl Hlo Hr. cbn [delete_loop].
  destruct (extract_at k t [] l [] Hl) as [(i & Ef & Hm)|(i & its & t1 & pg & Ef & Hm & Ee & D1 & Hls & Hmap & Hlen & Epg & Hpg)]; [by apply located_root| |]; run Ef.
  { exists t, [l]. rewrite Hm. split; [done|]. split; [|by rewrite delete_id]. split; [done|]. split; [done|]. right. exists 0%nat. by rewrite Hr, <- Hlo. }
  rewrite (stM_Ret _ _ _ (t_r t) t eq_refl). run Ee. run (d_load_Ret _ _ _ Epg). rewrite Hpg, (bool_decide_eq_true_2 (is_Some (tree_map t !! k))) by done. destruct l as [lo q its0]. cbn [lf_lo lf_q lf_its app] in *. subst lo.
  pose proof (lv_size _ _ Hl (Leaf None q its0) ltac:(by left)) as Hsz. cbn [lf_its] in Hsz. cbn in Hmap. rewrite app_nil_r in Hmap.
  assert (its ≠ [] → leaves t1 [Leaf None q its]) as Hl1.
  { intros Hne. apply loose_leaves; [done|]. right. eexists. split; [done|]. cbn. destruct its; [done|zlen]. }
  assert (∀ t2, t2 = t1 → its ≠ [] → ∃ LL', repr t2 LL' ∧ tree_map t2 = delete k (tree_map t)) as Hkeep.
  { intros t2 -> Hne. exists [Leaf None q its]. rewrite (tree_map_flat _ _ (Hl1 Hne)). cbn. rewrite app_nil_r. split; [|done].
    split; [by eapply data_step_fresh|]. split; [by apply Hl1|]. right. exists 0%nat. by rewrite (ds_root _ _ _ D1), Hr. }
  destruct (Z.leb_spec kd (zlen its)) as [Hge|Hlt].
  { destruct (Hkeep t1 eq_refl) as (LL' & HR & Hmm); [intros ->; unfold kd in *; zlen|]. by exists t1, LL'. }
  rewrite (stM_Ret _ _ _ (t_c t1) t1 eq_refl), Hr, (bool_decide_eq_true_2 (DPage q = DPage q)) by done. cbn [negb].
  rewrite (ls_count _ _ Hls). cbn. rewrite app_nil_r. destruct its as [|e its].
  - destruct (Clear_ok t1 [Leaf None q []] 0) as (t2 & Ec & HR & Hmm); [by eapply data_step_fresh|cbn; by rewrite (ds_root _ _ _ D1), Hr|intros x ->%list_elem_of_singleton; by eexists|].
    cbn. run Ec. exists t2, []. split; [done|]. split; [done|]. by rewrite Hmm, <- Hmap.
  - rewrite (proj2 (Z.eqb_neq _ _)) by zlen. rewrite (stM_Ret _ _ _ tt t1 eq_refl). destruct (Hkeep t1 eq_refl) as (LL' & HR & Hmm); [done|]. by exists t1, LL'.
Qed.

(** [Delete] removes the key, and returns whether it was there. *)
Lemma Tree_Delete_ok t LL k : repr t LL → ∃ t' LL', Tree_Delete zv k t = Ret (bool_decide (is_Some (tree_map t !! k)), t') ∧ repr t' LL' ∧ tree_map t' = delete k (tree_map t).
Proof.
  intros HR. unfold Tree_Delete. case_bool_decide as Hr.
  { pose proof (repr_nil _ _ HR Hr) as ->. exists t, []. rewrite (tree_map_nil _ HR), lookup_empty, delete_empty. done. }
  destruct HR as (Hf & Hl & [[? _]|[h Hs]]); [done|]. pose proof Hs as Hd. apply shape_depth in Hd; [|done|apply empty_subseteq]. rewrite size_empty in Hd. cbn [Nat.add] in Hd.
  destruct h as [|h]; cbn [shape] in Hs.
  { destruct (leaf_row_one _ _ _ Hs) as (l & -> & Hlo & Hq). rewrite Hq. by apply delete_root_leaf. }
  destruct Hs as (G & HG & HH & Hs). destruct (heads_one _ _ _ HG) as (m & -> & Hlo & Hq).
  destruct (find_in_level t ∅ [] m [] h LL k Hl HH Hs) as (mp & i & ok & E1 & e & E2 & Em & Hmx & Ef & HE & Hi & Hdown); [by apply located_root|]. cbn [app] in *.
  rewrite Hq. unfold depth. replace (size (t_xs t)) with (h + (size (t_xs t) - h))%nat by lia.
  rewrite (delete_loop_down _ k _ _ _ _ mp i ok e.2 Ef Em (or_intror (eq_sym Hq))) by (rewrite HE in Hmx; by apply (x_get_ch _ _ _ _ _ _ Hmx)). rewrite Hi.
  destruct (level_node _ _ [] _ [] HH) as (mp' & _ & _ & H2).
  destruct (delete_loop_ok k (size (t_xs t) - h) h t ∅ [] m [] E1 e E2 LL) as (t' & LL' & E & Hl' & Hm & Hf' & Hleft); try done; [by right|exists (nd_q m); split; [done|]; apply elem_of_union_l, (node_addr [] m [])|].
  exists t', LL'. split; [exact E|]. split; [|done]. split; [done|]. split; [done|]. right. rewrite Hlo. destruct Hleft as [(Hr' & _ & Hs')|[_ Hs']]; [|done].
  exists (S h). by rewrite Hr', Hq.
Qed.
End delete.
