(* ===== verification/BTreeEnum.v ===== *)
(** * Enumerators of the B+tree, and its interface

    An enumerator stands at an item of a leaf or behind the last one; the items
    of the tree are split there. [Next] and [Prev] go through the two parts, and
    so the B+tree keeps the promises of [BTreeLaws]. *)
From S2P Require Import Prelude ByteOrder BTreeSpec BTree BTreePages BTreeInv BTreeFind BTreeLeaves BTreeSet BTreePut BTreeDelete.

(** ** Sorted items in two parts *)

Section parts.
Context {V : Type}.
Implicit Types (X Y : list (bytes * V)) (P : bytes → Prop).

Lemma first_in_parts X Y P : StronglySorted key_lt (X ++ Y) → (∀ it, it ∈ X → ¬ P it.1) → (∀ it, it ∈ Y → P it.1) → first_in (list_to_map (X ++ Y)) P (head Y).
Proof.
  intros Hs HX HY. pose proof (sorted_keys_NoDup _ Hs) as Hnd.
  assert (∀ k v, (list_to_map (X ++ Y) : gmap bytes V) !! k = Some v → P k → (k, v) ∈ Y) as Hin.
  { intros k v [H|H]%(elem_of_list_to_map_2)%elem_of_app HP; [|done]. by destruct (HX _ H). }
  destruct Y as [|[k v] Y]; cbn.
  - intros k HP. destruct (_ !! k) as [v|] eqn:E; [|done]. apply Hin in E; [|done]. by apply not_elem_of_nil in E.
  - split_and!; [by apply list_to_map_found|by apply (HY (k, v)); left|]. intros k' HP [v' E]. apply Hin in E; [|done].
    apply elem_of_cons in E as [[= -> ->]|E]; [apply bytes_le_refl|]. apply (sorted_app key_lt) in Hs as (_ & Hs & _). apply (sorted_cons key_lt) in Hs as [_ Hs].
    apply bytes_lt_le. by apply (Hs (k', v')).
Qed.
Lemma last_in_parts X Y P : StronglySorted key_lt (X ++ Y) → (∀ it, it ∈ X → P it.1) → (∀ it, it ∈ Y → ¬ P it.1) → last_in (list_to_map (X ++ Y)) P (last X).
Proof.
  intros Hs HX HY. pose proof (sorted_keys_NoDup _ Hs) as Hnd.
  assert (∀ k v, (list_to_map (X ++ Y) : gmap bytes V) !! k = Some v → P k → (k, v) ∈ X) as Hin.
  { intros k v [H|H]%(elem_of_list_to_map_2)%elem_of_app HP; [done|]. by destruct (HY _ H). }
  destruct X as [|[k v] X _] using rev_ind; [|rewrite last_snoc]; cbn.
  - intros k HP. destruct (_ !! k) as [v|] eqn:E; [|done]. apply Hin in E; [|done]. by apply not_elem_of_nil in E.
  - split_and!; [rewrite <- app_assoc in *; by apply list_to_map_found|apply (HX (k, v)), elem_of_app; right; by left|]. intros k' HP [v' E]. apply Hin in E; [|done].
    apply elem_of_app in E as [E|[= -> ->]%list_elem_of_singleton]; [|apply bytes_le_refl]. rewrite <- app_assoc in Hs. apply (sorted_app key_lt) in Hs as (_ & _ & Hs).
    apply bytes_lt_le. apply (Hs (k', v') (k, v)); [done|by left].
Qed.
End parts.

Section enum.
Context {V : Type}.
Notation item := (bytes * V)%type.
Implicit Types (t : BTree V) (e : Enumerator) (A B LL : list (leaf V)) (X Y : list item) (it : item) (k : bytes).

(** ** Positions *)

Definition at_item LL e X it Y : Prop := ∃ A l B a b, LL = A ++ l :: B ∧ lf_its l = a ++ it :: b ∧ e_q e = Some (lf_q l) ∧ e_i e = zlen a ∧ X = flat A ++ a ∧ Y = b ++ flat B.
(** Behind the last item of a leaf *)
Definition at_end LL e X Y : Prop := ∃ A l B, LL = A ++ l :: B ∧ e_q e = Some (lf_q l) ∧ e_i e = zlen (lf_its l) ∧ X = flat A ++ lf_its l ∧ Y = flat B.

(** What [e_next] and [e_prev] leave alone *)
Definition same_enum e e' : Prop := e_hit e' = e_hit e ∧ e_k e' = e_k e ∧ e_ver e' = e_ver e.

Lemma leaf_page t LL A l B : leaves t LL → LL = A ++ l :: B → ∃ pg, t_ds t !! lf_q l = Some pg ∧ d_has pg (lf_its l) (head_q B None) (last_q None A) ∧ 1 ≤ zlen (lf_its l).
Proof.
  intros Hl ->. destruct (linked_get _ _ _ _ (leaves_linked _ _ Hl)) as (pg & E & H). exists pg. split_and!; [done|done|]. apply (lv_size _ _ Hl), elem_mid.
Qed.

(** To the first item of the page after [l] *)
Lemma next_page t LL A l B e : leaves t LL → LL = A ++ l :: B → e_err e = false → e_q e = Some (lf_q l) → zlen (lf_its l) - 1 ≤ e_i e →
  ∃ e', e_next e t = Ret (e', t) ∧ same_enum e e' ∧
    ((flat B = [] ∧ e_err e' = true) ∨ (∃ it Y, flat B = it :: Y ∧ e_err e' = false ∧ at_item LL e' (flat A ++ lf_its l) it Y)).
Proof.
  intros Hl HLL He Hq Hi. destruct (leaf_page _ _ _ _ _ Hl HLL) as (pg & E & (Hn & _ & Hc & _) & _). unfold e_next. rewrite Hq. run (d_load_Ret _ _ _ E).
  rewrite Hc, (proj2 (Z.ltb_ge _ _)) by lia. eexists. split; [reflexivity|]. rewrite Hn. destruct B as [|l2 B]; cbn [head_q].
  - rewrite bool_decide_eq_true_2 by done. split; [done|]. by left.
  - rewrite bool_decide_eq_false_2 by done. split; [done|]. right. pose proof HLL as HLL'. rewrite cons_middle, app_assoc in HLL'.
    destruct (leaf_page _ _ _ _ _ Hl HLL') as (pg2 & _ & _ & H2). destruct (list_cons (lf_its l2)) as (it & b & Hits); [lia|]. exists it, (b ++ flat B).
    rewrite flat_cons, Hits. split; [done|]. split; [done|]. exists (A ++ [l]), l2, B, [], b. split_and!; try done. rewrite flat_app. cbn. by rewrite !app_nil_r.
Qed.

Lemma e_next_item t LL e X it Y : leaves t LL → e_err e = false → at_item LL e X it Y →
  ∃ e', e_next e t = Ret (e', t) ∧ same_enum e e' ∧ ((Y = [] ∧ e_err e' = true) ∨ (∃ it' Y', Y = it' :: Y' ∧ e_err e' = false ∧ at_item LL e' (X ++ [it]) it' Y')).
Proof.
  intros Hl He (A & l & B & a & b & HLL & Hits & Hq & Hi & -> & ->). destruct b as [|it' b].
  - destruct (next_page t LL A l B e Hl HLL He Hq) as (e' & E & Hs & H); [rewrite Hits; zlen|]. exists e'. split_and!; [done..|].
    by rewrite Hits, app_assoc in H.
  - destruct (leaf_page _ _ _ _ _ Hl HLL) as (pg & E & (_ & _ & Hc & _) & _). unfold e_next. rewrite Hq. run (d_load_Ret _ _ _ E).
    rewrite Hc, Hits, (proj2 (Z.ltb_lt _ _)) by zlen. eexists. split; [reflexivity|]. split; [done|]. right. exists it', (b ++ flat B). split_and!; [done|done|].
    exists A, l, B, (a ++ [it]), b. split_and!; try done; [by rewrite <- app_assoc|cbn; zlen|by rewrite app_assoc].
Qed.
Lemma e_next_end t LL e X Y : leaves t LL → e_err e = false → at_end LL e X Y →
  ∃ e', e_next e t = Ret (e', t) ∧ same_enum e e' ∧ ((Y = [] ∧ e_err e' = true) ∨ (∃ it' Y', Y = it' :: Y' ∧ e_err e' = false ∧ at_item LL e' X it' Y')).
Proof. intros Hl He (A & l & B & HLL & Hq & Hi & -> & ->). eapply next_page; try done. lia. Qed.

(** From the position behind [a] in the leaf [l] *)
Lemma e_prev_at t LL e A l B a b : leaves t LL → LL = A ++ l :: B → lf_its l = a ++ b → e_err e = false → e_q e = Some (lf_q l) → e_i e = zlen a →
  ∃ e', e_prev e t = Ret (e', t) ∧ same_enum e e' ∧
    ((flat A ++ a = [] ∧ e_err e' = true) ∨ (∃ X' it', flat A ++ a = X' ++ [it'] ∧ e_err e' = false ∧ at_item LL e' X' it' (b ++ flat B))).
Proof.
  intros Hl HLL Hits He Hq Hi. unfold e_prev. rewrite Hq, Hi. destruct a as [|it a _] using rev_ind.
  - change (0 <? zlen []) with false. cbn beta iota. destruct (leaf_page _ _ _ _ _ Hl HLL) as (pg & E & (_ & Hp & _) & _). run (d_load_Ret _ _ _ E). rewrite Hp.
    destruct A as [|l1 A _] using rev_ind; [eexists; split; [reflexivity|]; split; [done|by left]|].
    rewrite last_q_app. cbn. pose proof HLL as HLL'. rewrite <- app_assoc in HLL'. destruct (leaf_page _ _ _ _ _ Hl HLL') as (pg1 & E1 & (_ & _ & Hc1 & _) & H1).
    run (d_load_Ret _ _ _ E1). eexists. split; [reflexivity|]. split; [done|]. right. destruct (list_snoc (lf_its l1)) as (a1 & it & Hits1); [lia|].
    exists (flat A ++ a1), it. rewrite flat_app. cbn. rewrite !app_nil_r, Hits1, app_assoc. split; [done|]. split; [done|]. exists A, l1, (l :: B), a1, []. split_and!; try done.
    + cbn. rewrite Hc1, Hits1. zlen.
    + cbn. by rewrite Hits.
  - rewrite (proj2 (Z.ltb_lt _ _)) by zlen. eexists. split; [reflexivity|]. split; [done|]. right. exists (flat A ++ a), it. split; [by rewrite app_assoc|]. split; [done|].
    exists A, l, B, a, b. split_and!; try done; [by rewrite Hits, <- app_assoc|cbn; zlen].
Qed.
Lemma e_prev_item t LL e X it Y : leaves t LL → e_err e = false → at_item LL e X it Y →
  ∃ e', e_prev e t = Ret (e', t) ∧ same_enum e e' ∧ ((X = [] ∧ e_err e' = true) ∨ (∃ X' it', X = X' ++ [it'] ∧ e_err e' = false ∧ at_item LL e' X' it' (it :: Y))).
Proof. intros Hl He (A & l & B & a & b & HLL & Hits & Hq & Hi & -> & ->). apply (e_prev_at t LL e A l B a (it :: b)); done. Qed.
Lemma e_prev_end t LL e X Y : leaves t LL → e_err e = false → at_end LL e X Y →
  ∃ e', e_prev e t = Ret (e', t) ∧ same_enum e e' ∧ ((X = [] ∧ e_err e' = true) ∨ (∃ X' it', X = X' ++ [it'] ∧ e_err e' = false ∧ at_item LL e' X' it' Y)).
Proof. intros Hl He (A & l & B & HLL & Hq & Hi & -> & ->). apply (e_prev_at t LL e A l B (lf_its l) []); try done. by rewrite app_nil_r. Qed.

(** ** [Next] and [Prev] *)

(** The enumerator of a tree that did not change since is there. *)
Definition live t e : Prop := e_err e = false ∧ e_ver e = t_ver t.

Definition fwd_at t LL e X Y : Prop := flat LL = X ++ Y ∧
  ((e_err e = true ∧ Y = []) ∨ (live t e ∧ e_q e = None ∧ Y = []) ∨ (live t e ∧ ∃ it Y', Y = it :: Y' ∧ at_item LL e X it Y') ∨ (live t e ∧ at_end LL e X Y)).
Definition bwd_at t LL e X Y : Prop := flat LL = X ++ Y ∧
  ((e_err e = true ∧ X = []) ∨ (live t e ∧ e_q e = None ∧ X = []) ∨ (live t e ∧ e_hit e = true ∧ ∃ X' it, X = X' ++ [it] ∧ at_item LL e X' it Y) ∨
   (live t e ∧ e_hit e = false ∧ ((∃ it Y', Y = it :: Y' ∧ at_item LL e X it Y') ∨ at_end LL e X Y))).

Lemma resync_live t e : live t e → resync e t = Ret (e, t).
Proof. intros [_ Hv]. unfold resync. rewrite (stM_Ret _ _ _ (t_ver t) t eq_refl). by rewrite bool_decide_eq_true_2. Qed.

Lemma at_item_flat LL e X it Y : at_item LL e X it Y → flat LL = X ++ it :: Y.
Proof. intros (A & l & B & a & b & -> & Hits & _ & _ & -> & ->). rewrite flat_app, flat_cons, Hits. by rewrite <- !app_assoc. Qed.

(** The page at an item *)
Lemma at_item_page t LL e X it Y : leaves t LL → at_item LL e X it Y → ∃ q pg, e_q e = Some q ∧ t_ds t !! q = Some pg ∧ e_i e < d_c pg ∧ index (d_d pg) (e_i e) = Ret it.
Proof.
  intros Hl (A & l & B & a & b & HLL & Hits & Hq & Hi & -> & ->). destruct (leaf_page _ _ _ _ _ Hl HLL) as (pg & E & Hd & _). exists (lf_q l), pg.
  rewrite Hits in Hd. split_and!; [done|done| |by eapply d_index]. destruct Hd as (_ & _ & -> & _). rewrite Hi. zlen.
Qed.

Lemma e_item_ok t LL e X it Y (move : Enumerator → stM (BTree V) Enumerator) e' : leaves t LL → at_item LL e X it Y → move (set_hit e it.1) t = Ret (e', t) →
  e_item move e t = Ret ((Some it, e'), t).
Proof.
  intros Hl Ha Hm. destruct (at_item_page _ _ _ _ _ _ Hl Ha) as (q & pg & Hq & E & Hi & Hix). unfold e_item. rewrite Hq. cbn [deref]. rewrite (stM_Ret _ _ _ q t eq_refl).
  run (d_load_Ret _ _ _ E). run (st_lift_Ret _ t _ Hix). by run Hm.
Qed.

Lemma next_at_item t LL e X it Y : leaves t LL → live t e → at_item LL e X it Y → ∃ e', e_item e_next e t = Ret ((Some it, e'), t) ∧ fwd_at t LL e' (X ++ [it]) Y.
Proof.
  intros Hl [He Hv] Ha. pose proof (at_item_flat _ _ _ _ _ Ha) as Hfl. destruct (e_next_item t LL (set_hit e it.1) X it Y Hl He Ha) as (e' & E & (_ & _ & Hs) & H).
  exists e'. split; [by apply (e_item_ok t LL e X it Y)|]. split; [by rewrite <- app_assoc|]. destruct H as [[-> H]|(it' & Y' & -> & H & Ha')]; [by left|].
  right; right; left. split; [split; [done|by rewrite Hs]|]. by exists it', Y'.
Qed.
Lemma prev_at_item t LL e X it Y : leaves t LL → live t e → at_item LL e X it Y → ∃ e', e_item e_prev e t = Ret ((Some it, e'), t) ∧ bwd_at t LL e' X (it :: Y).
Proof.
  intros Hl [He Hv] Ha. pose proof (at_item_flat _ _ _ _ _ Ha) as Hfl. destruct (e_prev_item t LL (set_hit e it.1) X it Y Hl He Ha) as (e' & E & (Hh & _ & Hs) & H).
  exists e'. split; [by apply (e_item_ok t LL e X it Y)|]. split; [done|]. destruct H as [[-> H]|(X' & it' & -> & H & Ha')]; [by left|].
  right; right; left. split; [split; [done|by rewrite Hs]|]. split; [by rewrite Hh|]. by exists X', it'.
Qed.

Lemma Next_ok t LL e X Y : leaves t LL → fwd_at t LL e X Y →
  ∃ e', Next e t = Ret ((head Y, e'), t) ∧ match Y with it :: Y' => fwd_at t LL e' (X ++ [it]) Y' | [] => True end.
Proof.
  intros Hl [Hfl [[He ->]|[(Hlv & Hq & ->)|[(Hlv & it & Y' & -> & Ha)|(Hlv & Ha)]]]]; unfold Next.
  - rewrite He. by exists e.
  - rewrite (proj1 Hlv). run (resync_live _ _ Hlv). rewrite Hq. by eexists.
  - rewrite (proj1 Hlv). run (resync_live _ _ Hlv). destruct (at_item_page _ _ _ _ _ _ Hl Ha) as (q & pg & -> & E & Hi & _). run (d_load_Ret _ _ _ E).
    rewrite (proj2 (Z.leb_gt _ _)) by done. rewrite (stM_Ret _ _ _ e t eq_refl), (proj1 Hlv). by apply next_at_item.
  - pose proof (proj1 Hlv) as He. rewrite He. run (resync_live _ _ Hlv). destruct (e_next_end _ _ _ _ _ Hl He Ha) as (e1 & E1 & (_ & _ & Hs) & H).
    destruct Ha as (A & l & B & HLL & Hq & Hi & -> & ->). rewrite Hq. destruct (leaf_page _ _ _ _ _ Hl HLL) as (pg & E & (_ & _ & Hc & _) & _). run (d_load_Ret _ _ _ E).
    rewrite Hc, Hi, Z.leb_refl. run E1. destruct H as [[-> H]|(it' & Y' & -> & H & Ha')]; rewrite H; [by eexists|].
    apply next_at_item; [done| |done]. split; [done|]. rewrite Hs. apply Hlv.
Qed.

Lemma Prev_ok t LL e X Y : leaves t LL → bwd_at t LL e X Y →
  ∃ e', Prev e t = Ret ((last X, e'), t) ∧ ∀ X' it, X = X' ++ [it] → bwd_at t LL e' X' (it :: Y).
Proof.
  intros Hl [Hfl H]. assert (∀ e1 X' it, X = X' ++ [it] → live t e1 → at_item LL e1 X' it Y →
    ∃ e', (q ← deref (e_q e1); pg ← d_load q; e ← (if d_c pg <=? e_i e1 then e_prev e1 else mret e1); if e_err e then mret (None, e) else e_item e_prev e) t = Ret ((last X, e'), t) ∧
      ∀ X' it, X = X' ++ [it] → bwd_at t LL e' X' (it :: Y)) as Hitem.
  { intros e1 X' it -> Hlv Ha. destruct (at_item_page _ _ _ _ _ _ Hl Ha) as (q & pg & -> & E & Hi & _). cbn [deref]. rewrite (stM_Ret _ _ _ q t eq_refl). run (d_load_Ret _ _ _ E).
    rewrite (proj2 (Z.leb_gt _ _)) by done. rewrite (stM_Ret _ _ _ e1 t eq_refl), (proj1 Hlv), last_snoc. destruct (prev_at_item _ _ _ _ _ _ Hl Hlv Ha) as (e' & Ee & Hb).
    exists e'. split; [done|]. intros X2 it2 [-> [= ->]]%app_inj_2; done. }
  destruct H as [[He ->]|[(Hlv & Hq & ->)|[(Hlv & Hh & X' & it & HX & Ha)|(Hlv & Hh & Ha)]]]; unfold Prev.
  - rewrite He. exists e. split; [done|]. by intros [] ?.
  - rewrite (proj1 Hlv). run (resync_live _ _ Hlv). rewrite Hq. eexists. split; [done|]. by intros [] ?.
  - rewrite (proj1 Hlv). run (resync_live _ _ Hlv). destruct (at_item_page _ _ _ _ _ _ Hl Ha) as (q & pg & Hq & _). rewrite Hq, Hh, (stM_Ret _ _ _ e t eq_refl), (proj1 Hlv).
    by eapply Hitem.
  - pose proof (proj1 Hlv) as He. rewrite He. run (resync_live _ _ Hlv). rewrite Hh.
    assert (∃ e1 q, e_q e = Some q ∧ e_prev e t = Ret (e1, t) ∧ same_enum e e1 ∧ ((X = [] ∧ e_err e1 = true) ∨ (∃ X' it', X = X' ++ [it'] ∧ e_err e1 = false ∧ at_item LL e1 X' it' Y))) as
      (e1 & q & -> & E1 & (_ & _ & Hs) & H1).
    { destruct Ha as [(it & Y' & -> & Ha)|Ha].
      - destruct (at_item_page _ _ _ _ _ _ Hl Ha) as (q & pg & Hq & _). destruct (e_prev_item _ _ _ _ _ _ Hl He Ha) as (e1 & H). by exists e1, q.
      - destruct (e_prev_end _ _ _ _ _ Hl He Ha) as (e1 & H). destruct Ha as (A & l & B & _ & Hq & _). by exists e1, (lf_q l). }
    run E1. destruct H1 as [[-> H1]|(X' & it & HX & H1 & Ha1)]; rewrite H1.
    + eexists. split; [done|]. by intros [] ?.
    + eapply Hitem; [exact HX| |done]. split; [done|]. rewrite Hs. apply Hlv.
Qed.

(** ** [Seek] *)

Lemma Seek_ok t LL k : repr t LL → ∃ e X Y, Seek k t = Ret ((e, bool_decide (is_Some (tree_map t !! k))), t) ∧
  fwd_at t LL e X Y ∧ (∀ it, it ∈ X → it.1 <b k) ∧ (∀ it, it ∈ Y → k ≤b it.1) ∧
  ∃ X' Y', bwd_at t LL e X' Y' ∧ (∀ it, it ∈ X' → it.1 ≤b k) ∧ (∀ it, it ∈ Y' → k <b it.1).
Proof.
  intros HR. unfold Seek. case_bool_decide as Hr.
  { pose proof (repr_nil _ _ HR Hr) as ->. rewrite (tree_map_nil _ HR), lookup_empty. eexists _, [], []. split; [reflexivity|].
    split; [split; [done|]; right; by left|]. split; [by intros ? ?%not_elem_of_nil|]. split; [by intros ? ?%not_elem_of_nil|].
    exists [], []. split; [split; [done|]; right; by left|]. by split; intros ? ?%not_elem_of_nil. }
  destruct (descend_root (λ fuel q, seek_loop fuel k q) t LL k) as (A & l & B & fuel & -> & Hloc & ->); [|done|done|].
  { intros fuel x xp i ok c Ef Ex Ec. cbn [seek_loop]. run Ef. run (x_load_Ret _ _ _ Ex). by run (st_lift_Ret _ t _ Ec). }
  destruct HR as (_ & Hl & _). destruct (find_leaf _ _ _ _ _ Hl Hloc) as (pg & n & p & [i ok] & E & Hd & Ef & Hf).
  pose proof (found_lookup _ _ _ _ _ _ _ Hl Hf) as Hm. cbn [seek_loop]. run Ef. rewrite (stM_Ret _ _ _ (t_ver t) t eq_refl).
  assert (live t (mkEnum false ok i k (Some (lf_q l)) (t_ver t))) as Hlv by done. set (e := mkEnum _ _ _ _ _ _) in *.
  pose proof (sorted_flat _ (lv_sorted _ _ Hl)) as Hs. rewrite flat_app, flat_cons in Hs. destruct ok.
  - destruct Hm as (a & v & b & Hits & -> & Hm). rewrite Hm, bool_decide_eq_true_2 by by eexists.
    rewrite Hits, <- app_assoc, (app_assoc (flat A)) in Hs. cbn [app] in Hs.
    assert (at_item (A ++ l :: B) e (flat A ++ a) (k, v) (b ++ flat B)) as Ha by (exists A, l, B, a, b; done). pose proof (at_item_flat _ _ _ _ _ Ha) as Hfl.
    apply (sorted_app key_lt) in Hs as (_ & [_ H2]%(sorted_cons key_lt) & H1).
    exists e, (flat A ++ a), ((k, v) :: b ++ flat B). split; [done|]. split; [split; [done|right; right; left; split; [done|by eexists _, _]]|].
    split; [intros x Hx; apply (H1 x (k, v)); [done|by left]|]. split; [intros x [->|Hx]%elem_of_cons; [apply bytes_le_refl|apply bytes_lt_le; by apply (H2 x)]|].
    exists ((flat A ++ a) ++ [(k, v)]), (b ++ flat B). split; [split; [by rewrite <- app_assoc|right; right; left; split; [done|split; [done|by eexists _, _]]]|]. split.
    + intros x [Hx| ->%list_elem_of_singleton]%elem_of_app; [|apply bytes_le_refl]. apply bytes_lt_le. apply (H1 x (k, v)); [done|by left].
    + intros x Hx. by apply (H2 x).
  - rewrite Hm. destruct Hf as [(? & ? & ? & ? & [=])|(a & b & Hits & [= ->] & H1 & H2)].
    assert (flat (A ++ l :: B) = (flat A ++ a) ++ b ++ flat B) as Hfl by (rewrite flat_app, flat_cons, Hits; by rewrite <- !app_assoc).
    assert ((∃ it Y', b ++ flat B = it :: Y' ∧ at_item (A ++ l :: B) e (flat A ++ a) it Y') ∨ at_end (A ++ l :: B) e (flat A ++ a) (b ++ flat B)) as Ha.
    { destruct b as [|it b]; [right|left].
      - rewrite app_nil_r in Hits. subst a. by exists A, l, B.
      - exists it, (b ++ flat B). split; [done|]. by exists A, l, B, a, b. }
    exists e, (flat A ++ a), (b ++ flat B). split; [done|]. split; [split; [done|]; right; right; destruct Ha; [by left|by right]|]. split; [done|].
    split; [intros x Hx; apply bytes_lt_le; by apply (H2 x)|]. exists (flat A ++ a), (b ++ flat B). split; [split; [done|]; right; right; right; by split_and!|].
    split; [intros x Hx; apply bytes_lt_le; by apply (H1 x)|done].
Qed.

Lemma SeekFirst_ok t LL : repr t LL → ∃ o, SeekFirst t = Ret (o, t) ∧ match o with Some e => fwd_at t LL e [] (flat LL) | None => tree_map t = ∅ end.
Proof.
  intros HR. pose proof HR as (_ & Hl & _). unfold SeekFirst. rewrite (stM_Ret _ _ _ (t_first t) t eq_refl), (stM_Ret _ _ _ (t_ver t) t eq_refl). cbn beta. rewrite (lv_first _ _ Hl).
  destruct LL as [|l LL]; cbn [head_q]; [exists None; split; [done|by apply tree_map_nil]|].
  destruct (leaf_page t (l :: LL) [] l LL Hl eq_refl) as (pg & E & _ & H1). destruct (list_cons (lf_its l)) as (it & b & Hits); [lia|].
  pose proof (leaves_linked _ _ Hl) as K. destruct l as [lo q its]. cbn in Hits. subst its. run (first_key_ok t [] lo q it b LL K). eexists. split; [reflexivity|].
  cbn beta iota. split; [done|]. right; right; left. split; [done|]. exists it, (b ++ flat LL). split; [done|]. by exists [], (Leaf lo q (it :: b)), LL, [], b.
Qed.

(** The last leaf, and its last item *)
Lemma last_leaf t LL : leaves t LL → LL ≠ [] → ∃ A lo q a it pg n p, LL = A ++ [Leaf lo q (a ++ [it])] ∧ t_last t = Some q ∧ t_ds t !! q = Some pg ∧ d_has pg (a ++ [it]) n p.
Proof.
  intros Hl Hne. destruct LL as [|l A _] using rev_ind; [done|]. destruct (leaf_page _ _ _ _ _ Hl eq_refl) as (pg & E & Hd & H1).
  destruct l as [lo q its]. cbn in *. destruct (list_snoc its) as (a & it & ->); [lia|]. exists A, lo, q, a, it, pg. eexists _, _. split_and!; [done| |done|exact Hd].
  by rewrite (lv_last _ _ Hl), last_q_app.
Qed.
Lemma SeekLast_ok t LL : repr t LL → ∃ o, SeekLast t = Ret (o, t) ∧ match o with Some e => bwd_at t LL e (flat LL) [] | None => tree_map t = ∅ end.
Proof.
  intros HR. pose proof HR as (_ & Hl & _). unfold SeekLast. rewrite (stM_Ret _ _ _ (t_last t) t eq_refl), (stM_Ret _ _ _ (t_ver t) t eq_refl). cbn beta.
  destruct (decide (LL = [])) as [->|Hne]; [rewrite (lv_last _ _ Hl); exists None; split; [done|by apply tree_map_nil]|].
  destruct (last_leaf t LL Hl Hne) as (A & lo & q & a & it & pg & n & p & HLL & -> & E & Hd). run (d_load_Ret _ _ _ E).
  pose proof Hd as (_ & _ & Hc & _). run (st_lift_Ret _ t _ (d_index pg a it [] n p (d_c pg - 1) Hd ltac:(rewrite Hc; zlen))). eexists. split; [reflexivity|].
  assert (flat LL = (flat A ++ a) ++ [it]) as Hfl by (rewrite HLL, flat_app; cbn; by rewrite app_nil_r, app_assoc).
  split; [by rewrite app_nil_r|]. right; right; left. split; [done|]. split; [done|]. exists (flat A ++ a), it. split; [done|].
  exists A, (Leaf lo q (a ++ [it])), [], a, []. split_and!; try done. cbn. rewrite Hc. zlen.
Qed.
Lemma First_ok t LL : repr t LL → First t = Ret (head (flat LL), t).
Proof.
  intros (_ & Hl & _). unfold First. rewrite (stM_Ret _ _ _ (t_first t) t eq_refl). cbn beta. rewrite (lv_first _ _ Hl).
  destruct LL as [|l LL]; [done|]. destruct (leaf_page t (l :: LL) [] l LL Hl eq_refl) as (pg & E & Hd & H1). destruct (list_cons (lf_its l)) as (it & b & Hits); [lia|].
  cbn [head_q]. run (d_load_Ret _ _ _ E). rewrite Hits in Hd. run (st_lift_Ret _ t _ (d_index pg [] it b _ _ 0 Hd eq_refl)). by rewrite flat_cons, Hits.
Qed.
Lemma Last_ok t LL : repr t LL → Last t = Ret (last (flat LL), t).
Proof.
  intros (_ & Hl & _). unfold Last. rewrite (stM_Ret _ _ _ (t_last t) t eq_refl). cbn beta.
  destruct (decide (LL = [])) as [->|Hne]; [by rewrite (lv_last _ _ Hl)|].
  destruct (last_leaf t LL Hl Hne) as (A & lo & q & a & it & pg & n & p & -> & -> & E & Hd). run (d_load_Ret _ _ _ E).
  pose proof Hd as (_ & _ & Hc & _). run (st_lift_Ret _ t _ (d_index pg a it [] n p (d_c pg - 1) Hd ltac:(rewrite Hc; zlen))).
  rewrite flat_app. cbn. by rewrite app_nil_r, app_assoc, last_snoc.
Qed.
End enum.
