(* ===== verification/BTreeLaws.v ===== *)
(** * The B+tree keeps the promises of its interface

    The laws of [BTreeLaws] for the Go B+tree, and what follows for whole
    sequences of calls: a tree answers as a map would, no call panics or runs
    out of fuel, and the tree stays well formed. *)
From S2P Require Import Prelude ByteOrder BTreeSpec BTree BTreePages BTreeInv BTreeFind BTreeLeaves BTreeSet BTreePut BTreeDelete BTreeEnum.

(** ** The laws *)

Section laws.
Context {V : Type} (zv : V).
Implicit Types (t : BTree V) (e : Enumerator) (LL : list (leaf V)) (P : bytes → Prop).

Lemma TreeNew_ok : repr (TreeNew (V := V)) [].
Proof.
  split; [|split; [|by left]].
  - intros a _. cbn. by rewrite !lookup_empty.
  - split; cbn; try done; [constructor|constructor|by left; intros ? ?%not_elem_of_nil].
Qed.
Lemma Tree_Len_ok t LL : repr t LL → Tree_Len t = Z.of_nat (size (tree_map t)).
Proof.
  intros (_ & Hl & _). unfold Tree_Len. rewrite (tree_map_flat _ _ Hl), (lv_count _ _ Hl), map_size_list_to_map; [done|]. by eapply flat_keys.
Qed.

Definition tree_ok t : Prop := ∃ LL, repr t LL.
Definition ahead t e P : Prop := ∃ LL X Y, repr t LL ∧ fwd_at t LL e X Y ∧ (∀ it, it ∈ X → ¬ P it.1) ∧ (∀ it, it ∈ Y → P it.1).
Definition behind t e P : Prop := ∃ LL X Y, repr t LL ∧ bwd_at t LL e X Y ∧ (∀ it, it ∈ X → P it.1) ∧ (∀ it, it ∈ Y → ¬ P it.1).

Lemma not_le (a b : bytes) : ¬ a ≤b b ↔ b <b a.
Proof.
  rewrite <- bytes_ltb_lt, <- (bytes_ltb_ge b a). destruct (bytes_ltb b a); naive_solver.
Qed.
Lemma not_lt_refl (a : bytes) : ¬ a <b a.
Proof. apply (irreflexivity bytes_lt). Qed.
Lemma not_lt (a b : bytes) : a ≤b b → ¬ b <b a.
Proof. intros H ?%not_le. done. Qed.

Lemma en_Next_laws t e P : ahead t e P → ∃ o e', Next e t = Ret ((o, e'), t) ∧ first_in (tree_map t) P o ∧
  match o with Some (k, _) => ahead t e' (λ k', k <b k') | None => True end.
Proof.
  intros (LL & X & Y & HR & Hf & HX & HY). pose proof HR as (_ & Hl & _). destruct (Next_ok t LL e X Y Hl Hf) as (e' & E & H).
  pose proof Hf as [Hfl _]. pose proof (sorted_flat _ (lv_sorted _ _ Hl)) as Hs. rewrite Hfl in Hs.
  exists (head Y), e'. split; [done|]. split; [rewrite (tree_map_flat _ _ Hl), Hfl; by apply first_in_parts|]. destruct Y as [|[k v] Y]; cbn; [done|].
  apply (sorted_app key_lt) in Hs as (_ & [_ H2]%(sorted_cons key_lt) & H1). exists LL, (X ++ [(k, v)]), Y. split_and!; [done|done| |intros it Hit; by apply (H2 it)].
  intros it [Hit| ->%list_elem_of_singleton]%elem_of_app; [|apply not_lt_refl]. apply not_lt, bytes_lt_le, (H1 it (k, v)); [done|by left].
Qed.
Lemma en_Prev_laws t e P : behind t e P → ∃ o e', Prev e t = Ret ((o, e'), t) ∧ last_in (tree_map t) P o ∧
  match o with Some (k, _) => behind t e' (λ k', k' <b k) | None => True end.
Proof.
  intros (LL & X & Y & HR & Hb & HX & HY). pose proof HR as (_ & Hl & _). destruct (Prev_ok t LL e X Y Hl Hb) as (e' & E & H).
  pose proof Hb as [Hfl _]. pose proof (sorted_flat _ (lv_sorted _ _ Hl)) as Hs. rewrite Hfl in Hs.
  exists (last X), e'. split; [done|]. split; [rewrite (tree_map_flat _ _ Hl), Hfl; by apply last_in_parts|].
  destruct X as [|[k v] X _] using rev_ind; [done|]. rewrite last_snoc. specialize (H X (k, v) eq_refl). rewrite <- app_assoc in Hs.
  apply (sorted_app key_lt) in Hs as (_ & [_ H2]%(sorted_cons key_lt) & H1). exists LL, X, ((k, v) :: Y). split_and!; [done|done|intros it Hit; apply (H1 it (k, v)); [done|by left]|].
  intros it [->|Hit]%elem_of_cons; [apply not_lt_refl|]. apply not_lt, bytes_lt_le. by apply (H2 it).
Qed.

#[export] Instance btree_laws : @BTreeLaws V (BTree V) Enumerator (btree_ops zv).
Proof.
  refine {| bt_ok := tree_ok; bt_map := tree_map; en_fwd := ahead; en_bwd := behind |}.
  - split; [by eexists; apply TreeNew_ok|]. by apply tree_map_nil, TreeNew_ok.
  - intros t [LL HR]. by eapply Tree_Len_ok.
  - intros t k [LL HR]. cbn. by rewrite (Tree_Get_ok t LL k HR).
  - intros t k v [LL HR]. cbn. destruct (Tree_Set_ok zv t LL k v HR) as (t' & LL' & -> & HR' & Hm). exists t'. split_and!; [done|by exists LL'|done].
  - intros t k v [LL HR]. cbn. destruct (PutNewAndGetOld_ok zv t LL k v HR) as (t' & LL' & -> & HR' & Hm). exists t'. split_and!; [|by exists LL'|done]. cbn. by destruct (tree_map t !! k).
  - intros X t k upd x w [LL HR] Hupd. cbn. destruct (Tree_Put_ok zv t LL k upd x w HR Hupd) as (t' & LL' & -> & HR' & Hm). exists t'. split_and!; [done|by exists LL'|done].
  - intros t k [LL HR]. cbn. destruct (Tree_Delete_ok zv t LL k HR) as (t' & LL' & -> & HR' & Hm). exists t'. split_and!; [done|by exists LL'|done].
  - intros t k [LL HR]. cbn. destruct (Seek_ok t LL k HR) as (e & X & Y & -> & Hf & HX & HY & X' & Y' & Hb & HX' & HY'). exists e. split; [done|]. split.
    + exists LL, X, Y. split_and!; [done|done| |done]. intros it Hit. by apply not_le, HX.
    + exists LL, X', Y'. split_and!; [done|done|done|]. intros it Hit. by apply not_le, HY'.
  - intros t [LL HR]. cbn. destruct (SeekFirst_ok t LL HR) as (o & -> & Ho). exists o. split; [done|]. destruct o as [e|]; [|done].
    exists LL, [], (flat LL). split_and!; [done|done|by intros ? ?%not_elem_of_nil|done].
  - intros t e P _ H. cbn. destruct (en_Next_laws t e P H) as (o & e' & -> & H1 & H2). by exists o, e'.
  - intros t e P _ H. cbn. destruct (en_Prev_laws t e P H) as (o & e' & -> & H1 & H2). by exists o, e'.
Defined.
End laws.

(** ** Sequences of calls *)

(** The calls of the interface; the scans read up to [n] items from a key on. *)
Inductive bt_call (V : Type) :=
  | CGet (k : bytes)
  | CSet (k : bytes) (v : V)
  | CPutNewAndGetOld (k : bytes) (v : V)
  | CPut (k : bytes) (upd : option V → option V)
  | CDelete (k : bytes)
  | CLen
  | CScan (k : bytes) (n : nat)
  | CScanBack (k : bytes) (n : nat)
  | CScanFirst (n : nat).
Arguments CGet {V}.
Arguments CSet {V}.
Arguments CPutNewAndGetOld {V}.
Arguments CPut {V}.
Arguments CDelete {V}.
Arguments CLen {V}.
Arguments CScan {V}.
Arguments CScanBack {V}.
Arguments CScanFirst {V}.
Inductive bt_answer (V : Type) :=
  | ADone
  | AValue (o : option V)
  | AFound (b : bool)
  | ALen (n : Z)
  | AItems (found : bool) (its : list (bytes * V)).
Arguments ADone {V}.
Arguments AValue {V}.
Arguments AFound {V}.
Arguments ALen {V}.
Arguments AItems {V}.

Section calls.
Context {V T E : Type} `{BO : !BTreeOps V T E}.

Fixpoint scan (move : E → outcome (option (bytes * V) * E)) (n : nat) (e : E) : outcome (list (bytes * V)) :=
  match n with
  | O => mret []
  | S n => '(o, e) ← move e; match o with None => mret [] | Some it => its ← scan move n e; mret (it :: its) end
  end.
Definition do_call (t : T) (c : bt_call V) : outcome (bt_answer V * T) :=
  match c with
  | CGet k => o ← bt_Get t k; mret (AValue o, t)
  | CSet k v => t ← bt_Set t k v; mret (ADone, t)
  | CPutNewAndGetOld k v => '(o, t) ← bt_PutNewAndGetOld t k v; mret (AValue o, t)
  | CPut k upd => '(o, t) ← bt_Put t k (λ o, Ret (o, upd o)); mret (AValue o, t)
  | CDelete k => '(b, t) ← bt_Delete t k; mret (AFound b, t)
  | CLen => mret (ALen (bt_Len t), t)
  | CScan k n => '(e, ok) ← bt_Seek t k; its ← scan (en_Next t) n e; mret (AItems ok its, t)
  | CScanBack k n => '(e, ok) ← bt_Seek t k; its ← scan (en_Prev t) n e; mret (AItems ok its, t)
  | CScanFirst n => o ← bt_SeekFirst t; its ← match o with Some e => scan (en_Next t) n e | None => mret [] end; mret (AItems false its, t)
  end.
Fixpoint do_calls (t : T) (cs : list (bt_call V)) : outcome (list (bt_answer V) * T) :=
  match cs with
  | [] => mret ([], t)
  | c :: cs => '(a, t) ← do_call t c; '(l, t) ← do_calls t cs; mret (a :: l, t)
  end.
End calls.

(** Two implementations of the interface that stand for the same map give the
    same answers. *)
Section agree.
Context {V T1 E1 T2 E2 : Type} `{BO1 : !BTreeOps V T1 E1, !BTreeLaws V T1 E1, BO2 : !BTreeOps V T2 E2, !BTreeLaws V T2 E2}.

Definition agree (t1 : T1) (t2 : T2) : Prop := bt_ok t1 ∧ bt_ok t2 ∧ bt_map t1 = bt_map t2.

Lemma scan_fwd_agree t1 t2 n : agree t1 t2 → ∀ e1 e2 P, en_fwd t1 e1 P → en_fwd t2 e2 P → ∃ its, scan (en_Next t1) n e1 = Ret its ∧ scan (en_Next t2) n e2 = Ret its.
Proof.
  intros (H1 & H2 & Hm). induction n as [|n IH]; intros e1 e2 P F1 F2; [by exists []|]. cbn [scan].
  destruct (en_Next_ok t1 e1 P H1 F1) as (o1 & e1' & -> & O1 & N1). destruct (en_Next_ok t2 e2 P H2 F2) as (o2 & e2' & -> & O2 & N2). rewrite Hm in O1.
  rewrite (first_in_unique _ _ _ _ O1 O2) in *. cbn. destruct o2 as [[k v]|]; [|by exists []]. destruct (IH _ _ _ N1 N2) as (its & -> & ->). by exists ((k, v) :: its).
Qed.
Lemma scan_bwd_agree t1 t2 n : agree t1 t2 → ∀ e1 e2 P, en_bwd t1 e1 P → en_bwd t2 e2 P → ∃ its, scan (en_Prev t1) n e1 = Ret its ∧ scan (en_Prev t2) n e2 = Ret its.
Proof.
  intros (H1 & H2 & Hm). induction n as [|n IH]; intros e1 e2 P F1 F2; [by exists []|]. cbn [scan].
  destruct (en_Prev_ok t1 e1 P H1 F1) as (o1 & e1' & -> & O1 & N1). destruct (en_Prev_ok t2 e2 P H2 F2) as (o2 & e2' & -> & O2 & N2). rewrite Hm in O1.
  rewrite (last_in_unique _ _ _ _ O1 O2) in *. cbn. destruct o2 as [[k v]|]; [|by exists []]. destruct (IH _ _ _ N1 N2) as (its & -> & ->). by exists ((k, v) :: its).
Qed.

Lemma do_call_agree t1 t2 c : agree t1 t2 → ∃ a t1' t2', do_call t1 c = Ret (a, t1') ∧ do_call t2 c = Ret (a, t2') ∧ agree t1' t2'.
Proof.
  intros H. pose proof H as (H1 & H2 & Hm). destruct c as [k|k v|k v|k upd|k| |k n|k n|n]; cbn [do_call].
  - rewrite (bt_Get_ok t1 k H1), (bt_Get_ok t2 k H2), Hm. by eexists _, _, _.
  - destruct (bt_Set_ok t1 k v H1) as (t1' & -> & H1' & M1), (bt_Set_ok t2 k v H2) as (t2' & -> & H2' & M2). eexists _, _, _. split_and!; [done..|]. split_and!; [done..|by rewrite M1, M2, Hm].
  - destruct (bt_Put_ok t1 k v H1) as (t1' & -> & H1' & M1), (bt_Put_ok t2 k v H2) as (t2' & -> & H2' & M2). rewrite Hm. eexists _, _, _. split_and!; [done..|]. split_and!; [done..|by rewrite M1, M2, Hm].
  - destruct (bt_Upd_ok t1 k (λ o, Ret (o, upd o)) _ _ H1 eq_refl) as (t1' & -> & H1' & M1), (bt_Upd_ok t2 k (λ o, Ret (o, upd o)) _ _ H2 eq_refl) as (t2' & -> & H2' & M2).
    rewrite Hm in *. eexists _, _, _. split_and!; [done..|]. split_and!; [done..|by rewrite M1, M2].
  - destruct (bt_Delete_ok t1 k H1) as (t1' & -> & H1' & M1), (bt_Delete_ok t2 k H2) as (t2' & -> & H2' & M2). rewrite Hm. eexists _, _, _. split_and!; [done..|]. split_and!; [done..|by rewrite M1, M2, Hm].
  - rewrite (bt_Len_ok t1 H1), (bt_Len_ok t2 H2), Hm. by eexists _, _, _.
  - destruct (bt_Seek_ok t1 k H1) as (e1 & -> & F1 & _), (bt_Seek_ok t2 k H2) as (e2 & -> & F2 & _). cbn. rewrite Hm. destruct (scan_fwd_agree t1 t2 n H _ _ _ F1 F2) as (its & -> & ->). by eexists _, _, _.
  - destruct (bt_Seek_ok t1 k H1) as (e1 & -> & _ & F1), (bt_Seek_ok t2 k H2) as (e2 & -> & _ & F2). cbn. rewrite Hm. destruct (scan_bwd_agree t1 t2 n H _ _ _ F1 F2) as (its & -> & ->). by eexists _, _, _.
  - destruct (bt_SeekFirst_ok t1 H1) as (o1 & -> & F1), (bt_SeekFirst_ok t2 H2) as (o2 & -> & F2). cbn. destruct o1 as [e1|], o2 as [e2|].
    + destruct (scan_fwd_agree t1 t2 n H _ _ _ F1 F2) as (its & -> & ->). by eexists _, _, _.
    + destruct (en_Next_ok t1 e1 _ H1 F1) as ([[k v]|] & e' & E & O & _); destruct n as [|n]; cbn [scan]; rewrite ?E; try by eexists _, _, _.
      destruct O as [O _]. rewrite Hm, F2, lookup_empty in O. done.
    + destruct (en_Next_ok t2 e2 _ H2 F2) as ([[k v]|] & e' & E & O & _); destruct n as [|n]; cbn [scan]; rewrite ?E; try by eexists _, _, _.
      destruct O as [O _]. rewrite <- Hm, F1, lookup_empty in O. done.
    + by eexists _, _, _.
Qed.
Lemma do_calls_agree cs : ∀ t1 t2, agree t1 t2 → ∃ a t1' t2', do_calls t1 cs = Ret (a, t1') ∧ do_calls t2 cs = Ret (a, t2') ∧ agree t1' t2'.
Proof.
  induction cs as [|c cs IH]; intros t1 t2 H; [by exists [], t1, t2|]. cbn. destruct (do_call_agree t1 t2 c H) as (a & t1' & t2' & -> & -> & H').
  cbn. destruct (IH _ _ H') as (l & t1'' & t2'' & -> & -> & H''). by exists (a :: l), t1'', t2''.
Qed.
End agree.

Section btree.
Context {V : Type} (zv : V).
Implicit Types (t : BTree V) (e : Enumerator) (LL : list (leaf V)) (k : bytes) (v : V).
#[local] Existing Instance btree_ops.
#[local] Existing Instance btree_laws.

Lemma new_trees_agree : agree (BO1 := btree_ops zv) (BO2 := map_btree) TreeNew ∅.
Proof. split_and!; [by eexists; apply TreeNew_ok|done|by apply tree_map_nil, TreeNew_ok]. Qed.
Lemma do_calls_tree_ok cs answers t : do_calls (BO := btree_ops zv) TreeNew cs = Ret (answers, t) → tree_ok t.
Proof.
  intros E. destruct (do_calls_agree cs TreeNew ∅ new_trees_agree) as (a & t' & m & E1 & _ & H & _). rewrite E in E1. by injection E1 as <- <-.
Qed.

(** C6: however a B+tree is used, from [TreeNew] on: no call panics or runs out
    of fuel, the answers (values, lengths, whether keys were found, the items of
    scans in both directions) are those of a map, and so are the items at the end. *)
Theorem btree_answers_as_a_map (cs : list (bt_call V)) :
  ∃ answers t m, do_calls (BO := btree_ops zv) TreeNew cs = Ret (answers, t) ∧ do_calls (T := gmap bytes V) ∅ cs = Ret (answers, m) ∧ tree_map t = m.
Proof.
  destruct (do_calls_agree cs TreeNew ∅ new_trees_agree) as (a & t & m & E1 & E2 & H). exists a, t, m. split_and!; try done. apply H.
Qed.

(** *** The shape of a tree *)

Lemma shape_size xs U h R B : shape xs U h R B → zlen R * 2 ^ Z.of_nat h ≤ zlen B.
Proof.
  revert U R. induction h as [|h IH]; intros U R; cbn [shape]; [intros ->; lia|]. intros (G & -> & (Hn & _) & Hs). specialize (IH _ _ Hs).
  assert (2 * zlen (heads G) ≤ zlen (children G)) as HG.
  { clear -Hn. induction G as [|n G IH]; [done|]. change (heads (n :: G)) with ((nd_lo n, XPage (nd_q n)) :: heads G). change (children (n :: G)) with (nd_row n ++ children G).
    destruct (Hn n) as (xp & _ & _ & H2); [by left|]. rewrite zlen_cons, zlen_app. specialize (IH (λ m Hm, Hn m (list_elem_of_further _ _ _ Hm))). lia. }
  rewrite Nat2Z.inj_succ, Z.pow_succ_r by lia. pose proof (Z.pow_pos_nonneg 2 (Z.of_nat h)). nia.
Qed.
Lemma flat_size LL : (∀ l, l ∈ LL → 1 ≤ zlen (lf_its l)) → zlen LL ≤ zlen (flat LL).
Proof.
  induction LL as [|l LL IH]; intros H; [done|]. rewrite flat_cons, zlen_cons, zlen_app. specialize (IH (λ m Hm, H m (list_elem_of_further _ _ _ Hm))). pose proof (H l ltac:(by left)). lia.
Qed.

(** Below the row [R] are [h] levels of index pages, then the row [B]: a page of
    a level has the separators and children of its row ([node_ok]), it is at one
    place of one level only ([level]), the pages of a level have the next level
    as their children, and a page has at most [2 * kx + 2] children and at least
    [kx]; only the one page of a level that has no other has two at least. *)
Fixpoint levels (xs : gmap ptr x_page) (U : gset ptr) (h : nat) (R B : row) : Prop :=
  match h with
  | O => R = B
  | S h => ∃ G, R = heads G ∧ level xs U G ∧
      (∀ n, n ∈ G → (kx ≤ zlen (nd_row n) ∨ G = [n] ∧ 2 ≤ zlen (nd_row n)) ∧ zlen (nd_row n) ≤ 2 * kx + 2) ∧ levels xs (addrs G ∪ U) h (children G) B
  end.
Lemma shape_levels xs U h R B : shape xs U h R B → levels xs U h R B.
Proof.
  revert U R. induction h as [|h IH]; intros U R; [done|]. intros (G & -> & HG & Hs). exists G. split_and!; [done|by apply HG..| |by apply IH].
  intros n Hin. destruct HG as (Hn & [_ He] & _). destruct (Hn n Hin) as (xp & _ & Hx & H2). pose proof (x_has_len _ _ _ Hx).
  split; [|lia]. destruct (He n Hin) as [?|?]; [by left|by right].
Qed.

(** What is left of a leaf is before its separator, its own items and what is
    right of it are not. *)
Definition separated LL : Prop := ∀ A l B s, LL = A ++ l :: B → lf_lo l = Some s →
  (∀ it, it ∈ flat A → it.1 <b s) ∧ (∀ it, it ∈ lf_its l ++ flat B → s ≤b it.1).
Lemma sorted_separated LL : sorted (marks LL) → separated LL.
Proof.
  intros Hs A l B s -> Hlo. rewrite marks_app, marks_cons, Hlo in Hs. apply (sorted_app mark_lt) in Hs as (_ & [_ Hr]%(sorted_cons mark_lt) & Hl). split; intros it Hit.
  - destruct (proj1 (item_page_lt (Some s) it.1)) as (? & [= <-] & ?); [|done]. apply Hl; [by apply elem_of_marks|by left].
  - apply (page_item_lt (Some s) it.1), Hr. apply elem_of_app. apply elem_of_app in Hit as [Hit|Hit]; [left; by apply elem_of_item_marks|right; by apply elem_of_marks].
Qed.

(** A tree is empty, or its root stands [h] levels of index pages above the
    leaves: so all leaves are at one depth. The pages are filled between their
    bounds, index pages ([levels]) and leaves: [kd] to [2 * kd] items, from one
    on when there is a single leaf ([leaf_sizes]). The leaves are linked in both
    directions; their separators and items, read from left to right, ascend
    ([sorted], [separated]), and the separators in the index pages are those of
    leaves. The tree counts its items, and its height is logarithmic. *)
Definition well_formed t : Prop :=
  (t_r t = NilPage ∧ t_c t = 0) ∨
  ∃ h LL, levels (t_xs t) ∅ h [(None, t_r t)] (leaf_row LL) ∧ chain (t_ds t) None LL None ∧ t_first t = head_q LL None ∧ t_last t = last_q None LL ∧
    leaf_sizes LL ∧ sorted (marks LL) ∧ separated LL ∧ StronglySorted key_lt (flat LL) ∧ t_c t = zlen (flat LL) ∧ 2 ^ Z.of_nat h ≤ t_c t.

(** C14: every tree that calls can produce is well formed: all leaves at one
    depth, index pages and leaves filled between their bounds, the keys in
    order under their separators, the leaves linked in order, and a height that
    is logarithmic in the number of items. *)
Theorem reachable_trees_well_formed cs answers t : do_calls (BO := btree_ops zv) TreeNew cs = Ret (answers, t) → well_formed t.
Proof.
  intros E. destruct (do_calls_tree_ok _ _ _ E) as (LL & _ & Hl & [[Hr ->]|[h Hs]]); [left; split; [done|apply (lv_count _ _ Hl)]|right].
  exists h, LL. pose proof (lv_size _ _ Hl) as Hsz. pose proof (lv_sorted _ _ Hl) as Hm. pose proof (lv_count _ _ Hl) as Hc.
  destruct Hl. split_and!; try done; [by apply shape_levels|by apply sorted_separated|by apply sorted_flat|]. rewrite Hc. etrans; [|apply flat_size; intros l Hin; by apply Hsz].
  apply shape_size in Hs. by rewrite leaf_row_len, zlen_cons, Z.mul_1_l in Hs.
Qed.

(** C21: [Set] does what [Put] does with a constant, on any tree, whether it is
    well formed or not. *)
Theorem Set_is_Put_of_a_constant k v t : Tree_Set zv k v t = ('(_, t') ← Tree_Put zv k (λ _, Ret (tt, Some v)) t; Ret (tt, t')).
Proof. apply Tree_Set_put. Qed.

(** *** Enumerators of a tree that was changed *)

Lemma Next_resync t e f : e_err e = false → resync e t = Ret (f, t) → live t f → Next e t = Next f t.
Proof. intros He E Hf. unfold Next. rewrite He, (proj1 Hf). run E. by run (resync_live _ _ Hf). Qed.
Lemma Prev_resync t e f : e_err e = false → resync e t = Ret (f, t) → live t f → Prev e t = Prev f t.
Proof. intros He E Hf. unfold Prev. rewrite He, (proj1 Hf). run E. by run (resync_live _ _ Hf). Qed.
Lemma Seek_live t LL k e b : repr t LL → Seek k t = Ret ((e, b), t) → live t e.
Proof.
  intros HR. unfold Seek. case_bool_decide as Hr; [by intros [= <- <-]|].
  destruct (descend_root (λ fuel q, seek_loop fuel k q) t LL k) as (A & l & B & fuel & -> & Hloc & ->); [|done|done|].
  { intros fuel x xp i ok c Ef Ex Ec. cbn [seek_loop]. run Ef. run (x_load_Ret _ _ _ Ex). by run (st_lift_Ret _ t _ Ec). }
  destruct HR as (_ & Hl & _). destruct (find_leaf _ _ _ _ _ Hl Hloc) as (pg & n & p & [i ok] & _ & _ & Ef & _). cbn [seek_loop]. run Ef. by intros [= <- <-].
Qed.

(** C40: an enumerator whose tree was changed resumes at the first item, or the
    last one, from the key on that it returned last, that key included: when
    the key is still there, its item is returned a second time. *)
Theorem enumerator_resumes_at_returned_key t e : tree_ok t → e_err e = false → e_ver e ≠ t_ver t →
  (∃ o e', Next e t = Ret ((o, e'), t) ∧ first_in (tree_map t) (λ k, e_k e ≤b k) o) ∧
  (∃ o e', Prev e t = Ret ((o, e'), t) ∧ last_in (tree_map t) (λ k, k ≤b e_k e) o) ∧
  ∀ v, tree_map t !! e_k e = Some v → ∃ e', Next e t = Ret ((Some (e_k e, v), e'), t).
Proof.
  intros [LL HR] He Hv. destruct (Seek_ok t LL (e_k e) HR) as (f & X & Y & E & Hf & HX & HY & X' & Y' & Hb & HX' & HY'). pose proof (Seek_live _ _ _ _ _ HR E) as Hlive.
  assert (resync e t = Ret (f, t)) as Er by (unfold resync; rewrite (stM_Ret _ _ _ (t_ver t) t eq_refl), bool_decide_eq_false_2 by done; by run E).
  destruct (en_Next_laws t f (λ k, e_k e ≤b k)) as (o & e' & En & Ho & _). { exists LL, X, Y. split_and!; [done|done| |done]. intros it Hit. by apply not_le, HX. }
  destruct (en_Prev_laws t f (λ k, k ≤b e_k e)) as (o2 & e2 & Ep & Ho2 & _). { exists LL, X', Y'. split_and!; [done|done|done|]. intros it Hit. by apply not_le, HY'. }
  rewrite (Next_resync t e f), (Prev_resync t e f) by done. split_and!; [by exists o, e'|by exists o2, e2|]. intros v Hm. exists e'. rewrite En. do 3 f_equal.
  apply (first_in_unique _ _ _ _ Ho). cbn. split_and!; [done|apply bytes_le_refl|done].
Qed.
End btree.

(** ** Runs *)

(** Two hundred keys, of which every third is deleted again *)
Definition sample_calls : list (bt_call Z) :=
  ((λ i, CSet [Z.of_nat i] (Z.of_nat i)) <$> seq 0 200) ++ ((λ i, CDelete [Z.of_nat (3 * i)]) <$> seq 0 60).
Definition result_tree {A} (o : outcome (A * BTree Z)) : BTree Z := match o with Ret (_, t) => t | _ => TreeNew end.
Definition sample_btree : BTree Z := Eval vm_compute in result_tree (do_calls (BO := btree_ops 0) TreeNew sample_calls).
Definition sample_answers : list (bt_answer Z) := replicate 200 ADone ++ replicate 60 (AFound true).
Lemma sample_btree_run : do_calls (BO := btree_ops 0) TreeNew sample_calls = Ret (sample_answers, sample_btree).
Proof. vm_compute. reflexivity. Qed.

Lemma reachable_trees_well_formed_witness : do_calls (BO := btree_ops 0) TreeNew sample_calls = Ret (sample_answers, sample_btree) ∧ t_c sample_btree = 140 ∧ well_formed sample_btree.
Proof. split; [exact sample_btree_run|]. split; [reflexivity|]. exact (reachable_trees_well_formed 0 sample_calls sample_answers sample_btree sample_btree_run). Defined.

(** An enumerator returned the first item, the key 1, when the tree gets a new key. *)
Definition sample_enum : Enumerator := Eval vm_compute in
  match SeekFirst sample_btree with
  | Ret (Some e, _) => match Next e sample_btree with Ret ((_, e), _) => e | _ => e end
  | _ => mkEnum true false 0 [] None 0
  end.
Definition changed_btree : BTree Z := Eval vm_compute in result_tree (Tree_Set 0 [250] 7 sample_btree).
Lemma changed_btree_ok : tree_ok changed_btree.
Proof.
  eapply (do_calls_tree_ok 0 (sample_calls ++ [CSet [250] 7]) (sample_answers ++ [ADone])). vm_compute. reflexivity.
Qed.

Lemma enumerator_resumes_at_returned_key_witness :
  (e_err sample_enum = false ∧ e_ver sample_enum ≠ t_ver changed_btree ∧ e_k sample_enum = [1] ∧ tree_map changed_btree !! [1] = Some 1) ∧
  ∃ e', Next sample_enum changed_btree = Ret ((Some ([1], 1), e'), changed_btree).
Proof.
  assert (tree_map changed_btree !! e_k sample_enum = Some 1) as Hm by (vm_compute; reflexivity).
  split; [split_and!; [reflexivity|vm_compute; congruence|reflexivity|exact Hm]|].
  refine (proj2 (proj2 (enumerator_resumes_at_returned_key changed_btree sample_enum changed_btree_ok _ _)) 1 Hm); [reflexivity|vm_compute; congruence].
Defined.
