(* ===== verification/IndexTree.v ===== *)
(** * The index tree (indextree/indextree.go)

    [NVTreeMem] maps keys to positions: the latest ones in a B-tree in memory,
    behind the interface [BTreeOps], and the expired ones in RocksDB, under
    the key [0 ++ k ++ height]. The RocksDB is shared with the metadata and
    passed explicitly; [rocksdb] says whether the tree was given one. The
    lock is not modelled: one client runs at a time and closes its iterators
    before it writes. *)
From S2P Require Import Prelude ByteOrder RocksDB BTreeSpec.
From S2P Require Import MetaDB.

Record NVTreeMem (T : Type) : Type := mkNVTreeMem {
  bt : T;
  isWriting : bool;
  rocksdb : bool;
  nv_currHeight : bytes
}.
Arguments mkNVTreeMem {T}.
Arguments bt {T}.
Arguments isWriting {T}.
Arguments rocksdb {T}.
Arguments nv_currHeight {T}.

(** [ForwardIterMem] and [BackwardIterMem] have the same fields; the error is
    nil or io.EOF. *)
Record IterMem (E : Type) : Type := mkIterMem {
  enumerator : option E;
  im_start : bytes;
  im_end : bytes;
  im_key : bytes;
  im_value : Z;
  im_err : bool
}.
Arguments mkIterMem {E}.
Arguments enumerator {E}.
Arguments im_start {E}.
Arguments im_end {E}.
Arguments im_key {E}.
Arguments im_value {E}.
Arguments im_err {E}.

Section indextree.
Context {D T E : Type} `{HD : !Rocks D} `{HT : !BTreeOps Z T E}.
Implicit Types (tree : NVTreeMem T) (kvdb : RocksDB D) (iter : IterMem E) (k : bytes).

Definition set_bt tree (b : T) : NVTreeMem T := mkNVTreeMem b (isWriting tree) (rocksdb tree) (nv_currHeight tree).

Definition NewNVTreeMem (rocksdb : bool) : NVTreeMem T := mkNVTreeMem bt_TreeNew false rocksdb (replicate 8 0).
Definition NVTree_ActiveCount tree : Z := bt_Len (bt tree).

Definition NVTree_BeginWrite tree (height : Z) : outcome (NVTreeMem T) :=
  _ ← require (negb (isWriting tree)) "tree.isWriting cannot be true! bug here...";
  mret (mkNVTreeMem (bt tree) true (rocksdb tree) (be_bytes 8 (to_uint64 height))).
Definition NVTree_EndWrite tree : outcome (NVTreeMem T) :=
  _ ← require (isWriting tree) "tree.isWriting cannot be false! bug here...";
  mret (mkNVTreeMem (bt tree) false (rocksdb tree) (nv_currHeight tree)).

(** [newK]: a zero byte, the key and the height; [expiry_max] overwrites the height. *)
Definition record_key k (height : bytes) : bytes := [0] ++ k ++ height.
Definition expiry_max (newK : bytes) : bytes := splice newK (length newK - 8) (be_bytes 8 MaxUint64).

Definition NVTree_Set tree kvdb k (v : Z) : outcome (NVTreeMem T * RocksDB D) :=
  _ ← require (isWriting tree) "tree.isWriting must be true! bug here...";
  '(old, b) ← bt_PutNewAndGetOld (bt tree) k v;
  let tree := set_bt tree b in
  if negb (rocksdb tree) then mret (tree, kvdb) else
  let newK := record_key k (nv_currHeight tree) in
  kvdb ← batch_Set kvdb newK (match old with Some oldV => le_bytes 8 oldV | None => [] end);
  kvdb ← batch_Set kvdb (expiry_max newK) (le_bytes 8 v);
  mret (tree, kvdb).

Definition NVTree_Get tree k : outcome (option Z) :=
  _ ← require (negb (isWriting tree)) "tree.isWriting cannot be true! bug here...";
  bt_Get (bt tree) k.

(** The position and whether there is one. *)
Definition GetAtHeight tree kvdb k (height : Z) : outcome (Z * bool) :=
  _ ← require (rocksdb tree) "nil pointer dereference";
  let '(h, enable) := GetPruneHeight kvdb in
  if enable && (height <=? h) then mret (0, false) else
  let newK := replicate (1 + length k + 8) 0 in
  let newK := splice newK 1 k in
  let newK := splice newK (1 + length k) (be_bytes 8 (to_uint64 (height + 1))) in
  let iter := rocks_Iterator kvdb (Some newK) None in
  if negb (it_Valid iter) then mret (0, false) else
  let newK := splice newK (length k) (be_bytes 8 MaxUint64) in
  key ← it_Key iter;
  if bytes_ltb newK key then mret (0, false) else
  v ← it_Value iter;
  if zlen v =? 0 then mret (0, false) else
  position ← LE_Uint64 v;
  mret (position, true).

Definition NVTree_Delete tree kvdb k : outcome (NVTreeMem T * RocksDB D) :=
  _ ← require (isWriting tree) "tree.isWriting must be true! bug here...";
  old ← bt_Get (bt tree) k;
  match old with
  | None => Panic "deleting a nonexistent key! bug here..."
  | Some oldV =>
      '(_, b) ← bt_Delete (bt tree) k;
      let tree := set_bt tree b in
      if negb (rocksdb tree) then mret (tree, kvdb) else
      let newK := record_key k (nv_currHeight tree) in
      kvdb ← batch_Set kvdb newK (le_bytes 8 oldV);
      kvdb ← batch_Delete kvdb (expiry_max newK);
      mret (tree, kvdb)
  end.

(** One round of the loop of [Init] at a record with a leading zero; [repFn]
    reports the progress and may be nil. *)
Definition init_record (repFn : option (bytes → outcome unit)) (b : T) (k v : bytes) : outcome T :=
  _ ← match repFn with Some f => f k | None => Panic "nil pointer dereference" end;
  _ ← require (8 <=? zlen k) "key length is too short";
  _ ← require ((zlen v =? 8) || (zlen v =? 0)) "value length is not 8 or 0";
  last8 ← slice k (zlen k - 8) (zlen k);
  if bool_decide (last8 = replicate 8 255) then
    k' ← slice k 0 (zlen k - 8); u ← LE_Uint64 v; bt_Set b k' u
  else mret b.

Fixpoint init_loop (fuel : nat) (repFn : option (bytes → outcome unit)) (d : D) (b : T) (itr : rocksDBIterator) : outcome T :=
  match fuel with
  | O => Panic "out of fuel"
  | S fuel =>
      if it_Valid itr then
        k ← it_Key itr; v ← it_Value itr;
        k0 ← index k 0;
        if negb (k0 =? 0) then init_loop fuel repFn d b itr
        else
          b ← init_record repFn b (drop 1 k) v;
          itr ← it_Next d itr;
          init_loop fuel repFn d b itr
      else mret b
  end.

Definition NVTree_Init (fuel : nat) tree kvdb (repFn : option (bytes → outcome unit)) : outcome (NVTreeMem T) :=
  _ ← require (rocksdb tree) "nil pointer dereference";
  b ← init_loop fuel repFn (rdb kvdb) (bt tree) (rocks_Iterator kvdb (Some []) None);
  mret (set_bt tree b).

(** ** Iterators over the B-tree *)

Definition iter_Valid iter : bool := negb (im_err iter).

(** What both [Next] methods store: the item of the enumerator, and io.EOF
    when there is none or it is [out] of the range. *)
Definition iter_fill iter (o : option (bytes * Z)) (e : E) (out : bytes → bool) : IterMem E :=
  let '(key, value, err) := match o with Some (k, v) => (k, v, false) | None => ([], 0, true) end in
  mkIterMem (Some e) (im_start iter) (im_end iter) key value (err || out key).

Definition Forward_Next tree iter : outcome (IterMem E) :=
  _ ← require (negb (isWriting tree)) "tree.isWriting cannot be true! bug here...";
  if im_err iter then mret iter else
  match enumerator iter with
  | None => Panic "nil pointer dereference"
  | Some e => '(o, e) ← en_Next (bt tree) e; mret (iter_fill iter o e (λ key, negb (bytes_ltb key (im_end iter))))
  end.

Definition Backward_Next tree iter : outcome (IterMem E) :=
  _ ← require (negb (isWriting tree)) "tree.isWriting cannot be true! bug here...";
  if im_err iter then mret iter else
  match enumerator iter with
  | None => Panic "nil pointer dereference"
  | Some e => '(o, e) ← en_Prev (bt tree) e; mret (iter_fill iter o e (λ key, bytes_ltb key (im_start iter)))
  end.

Definition NVTree_Iterator tree (start end_ : bytes) : outcome (IterMem E) :=
  _ ← require (negb (isWriting tree)) "tree.isWriting cannot be true! bug here...";
  if negb (bytes_ltb start end_) then mret (mkIterMem None start end_ [] 0 true) else
  '(e, _) ← bt_Seek (bt tree) start;
  Forward_Next tree (mkIterMem (Some e) start end_ [] 0 false).

Definition NVTree_ReverseIterator tree (start end_ : bytes) : outcome (IterMem E) :=
  _ ← require (negb (isWriting tree)) "tree.isWriting cannot be true! bug here...";
  if negb (bytes_ltb start end_) then mret (mkIterMem None start end_ [] 0 true) else
  '(e, ok) ← bt_Seek (bt tree) end_;
  e ← (if (ok : bool) then '(_, e) ← en_Prev (bt tree) e; mret e else mret e);
  Backward_Next tree (mkIterMem (Some e) start end_ [] 0 false).

(** The loop over an iterator. *)
Fixpoint iter_collect (next : IterMem E → outcome (IterMem E)) (fuel : nat) iter : outcome (list (bytes * Z)) :=
  match fuel with
  | O => Panic "out of fuel"
  | S fuel =>
      if iter_Valid iter then
        let kv := (im_key iter, im_value iter) in
        iter ← next iter;
        l ← iter_collect next fuel iter; mret (kv :: l)
      else mret []
  end.
End indextree.

(** ** The iterators give the items of their range, in order *)

Section index_iterators.
Context {T E : Type} `{HT : !BTreeOps Z T E} `{!BTreeLaws Z T E}.
Implicit Types (tree : NVTreeMem T) (iter : IterMem E) (l : list (bytes * Z)).

Lemma iter_collect_stop next fuel iter : im_err iter = true → iter_collect next (S fuel) iter = Ret [].
Proof. cbn. unfold iter_Valid. by intros ->. Qed.
Lemma iter_collect_step next fuel iter iter' l : im_err iter = false → next iter = Ret iter' →
  iter_collect next fuel iter' = Ret l → iter_collect next (S fuel) iter = Ret ((im_key iter, im_value iter) :: l).
Proof. cbn. unfold iter_Valid. intros -> -> H. cbn. by rewrite H. Qed.

Lemma Forward_Next_ok tree iter e P : isWriting tree = false → bt_ok (bt tree) → im_err iter = false →
  enumerator iter = Some e → en_fwd (bt tree) e P →
  ∃ o e', Forward_Next tree iter = Ret (iter_fill iter o e' (λ key, negb (bytes_ltb key (im_end iter)))) ∧
    first_in (bt_map (bt tree)) P o ∧ match o with Some (k, _) => en_fwd (bt tree) e' (λ k', k <b k') | None => True end.
Proof.
  intros Hw Hok He Hen HP. destruct (en_Next_ok _ _ _ Hok HP) as (o & e' & E1 & H1 & H2).
  exists o, e'. split; [|done]. unfold Forward_Next. rewrite Hw, He, Hen. cbn [negb require mbind outcome_bind]. by rewrite E1.
Qed.
Lemma Backward_Next_ok tree iter e P : isWriting tree = false → bt_ok (bt tree) → im_err iter = false →
  enumerator iter = Some e → en_bwd (bt tree) e P →
  ∃ o e', Backward_Next tree iter = Ret (iter_fill iter o e' (λ key, bytes_ltb key (im_start iter))) ∧
    last_in (bt_map (bt tree)) P o ∧ match o with Some (k, _) => en_bwd (bt tree) e' (λ k', k' <b k) | None => True end.
Proof.
  intros Hw Hok He Hen HP. destruct (en_Prev_ok _ _ _ Hok HP) as (o & e' & E1 & H1 & H2).
  exists o, e'. split; [|done]. unfold Backward_Next. rewrite Hw, He, Hen. cbn [negb require mbind outcome_bind]. by rewrite E1.
Qed.

Lemma forward_collect tree : isWriting tree = false → bt_ok (bt tree) → ∀ l fuel iter e P,
  im_err iter = false → enumerator iter = Some e → en_fwd (bt tree) e P → (∀ k k', P k → k <b k' → P k') →
  ascending (bt_map (bt tree)) (λ k, P k ∧ k <b im_end iter) l → (length l < fuel)%nat →
  ∃ iter', Forward_Next tree iter = Ret iter' ∧ iter_collect (Forward_Next tree) fuel iter' = Ret l.
Proof.
  intros Hw Hok. induction l as [|[k v] l IH]; intros [|fuel] iter e P He Hen HP Hup Hl Hfuel; cbn [length] in Hfuel; try lia;
    destruct (Forward_Next_ok tree iter e P Hw Hok He Hen HP) as (o & e' & E1 & Ho & He'); (eexists; split; [exact E1|]).
  all: pose proof (first_in_ascending _ _ (λ k, k <b im_end iter) _ _ Hup (λ k k' H1 H2, bytes_lt_trans _ _ _ H2 H1) Ho Hl) as H.
  - apply iter_collect_stop. destruct o as [[k v]|]; cbn; [|done].
    destruct (bytes_ltb k (im_end iter)) eqn:Hb; [|done]. apply bytes_ltb_lt in Hb. by destruct (H k v).
  - destruct H as (-> & Hb & Hl'). assert (bytes_ltb k (im_end iter) = true) as Hb' by (by apply bytes_ltb_lt).
    destruct (IH fuel (iter_fill iter (Some (k, v)) e' (λ key, negb (bytes_ltb key (im_end iter)))) e' (λ k', k <b k')) as (iter' & E2 & H2);
      [cbn; by rewrite Hb'|done|done|intros a b Ha Hab; by eapply bytes_lt_trans|done|lia|].
    eapply (iter_collect_step _ _ _ _ _ _ E2 H2). Unshelve. cbn. by rewrite Hb'.
Qed.

Lemma backward_collect tree : isWriting tree = false → bt_ok (bt tree) → ∀ l fuel iter e P,
  im_err iter = false → enumerator iter = Some e → en_bwd (bt tree) e P → (∀ k k', P k' → k <b k' → P k) →
  descending (bt_map (bt tree)) (λ k, P k ∧ im_start iter ≤b k) l → (length l < fuel)%nat →
  ∃ iter', Backward_Next tree iter = Ret iter' ∧ iter_collect (Backward_Next tree) fuel iter' = Ret l.
Proof.
  intros Hw Hok. induction l as [|[k v] l IH]; intros [|fuel] iter e P He Hen HP Hdown Hl Hfuel; cbn [length] in Hfuel; try lia;
    destruct (Backward_Next_ok tree iter e P Hw Hok He Hen HP) as (o & e' & E1 & Ho & He'); (eexists; split; [exact E1|]).
  all: pose proof (last_in_descending _ _ (λ k, im_start iter ≤b k) _ _ Hdown (λ k k' H1 H2, bytes_le_trans _ _ _ H1 (bytes_lt_le _ _ H2)) Ho Hl) as H.
  - apply iter_collect_stop. destruct o as [[k v]|]; cbn; [|done].
    destruct (bytes_ltb k (im_start iter)) eqn:Hb; [done|]. apply bytes_ltb_ge in Hb. by destruct (H k v).
  - destruct H as (-> & Hb & Hl'). assert (bytes_ltb k (im_start iter) = false) as Hb' by (by apply bytes_ltb_ge).
    destruct (IH fuel (iter_fill iter (Some (k, v)) e' (λ key, bytes_ltb key (im_start iter))) e' (λ k', k' <b k)) as (iter' & E2 & H2);
      [done..|intros a b Ha Hab; by eapply bytes_lt_trans|done|lia|].
    by apply (iter_collect_step _ _ (iter_fill iter (Some (k, v)) e' (λ key, bytes_ltb key (im_start iter))) iter').
Qed.

Definition range_items (m : gmap bytes Z) (start end_ : bytes) : list (bytes * Z) :=
  items (λ k, bool_decide (in_range (Some start) (Some end_) k)) m.
Lemma range_items_ascending m start end_ : ascending m (in_range (Some start) (Some end_)) (range_items m start end_).
Proof. eapply items_in_iff; [|apply items_ascending]. intros k _. apply bool_decide_eq_true. Qed.

(** An empty range. *)
Lemma range_items_nil m start end_ : ¬ start <b end_ → range_items m start end_ = [].
Proof.
  intros Hse. destruct (range_items m start end_) as [|[k v] l] eqn:Er; [done|].
  pose proof (range_items_ascending m start end_) as [_ H]. rewrite Er in H. specialize (H k v) as [H _].
  destruct H as [_ [H1 H2]]; [by left|]. destruct Hse. by eapply bytes_le_lt_trans.
Qed.

Lemma Iterator_collect tree start end_ fuel : isWriting tree = false → bt_ok (bt tree) → (size (bt_map (bt tree)) < fuel)%nat →
  (iter ← NVTree_Iterator tree start end_; iter_collect (Forward_Next tree) fuel iter) = Ret (range_items (bt_map (bt tree)) start end_).
Proof.
  intros Hw Hok Hfuel. unfold NVTree_Iterator. rewrite Hw. cbn [negb require mbind outcome_bind].
  destruct (bytes_ltb start end_) eqn:Hse; cbn [negb].
  2:{ rewrite range_items_nil; [|by rewrite <- bytes_ltb_lt, Hse]. destruct fuel; [lia|done]. }
  destruct (bt_Seek_ok _ start Hok) as (e & Ee & Hf & _). rewrite Ee. cbn [mbind outcome_bind].
  pose proof (range_items_ascending (bt_map (bt tree)) start end_) as Hl. set (l := range_items _ start end_) in *.
  pose proof (ascending_length _ _ _ Hl).
  destruct (forward_collect tree Hw Hok l fuel (mkIterMem (Some e) start end_ [] 0 false) e (λ k, start ≤b k)) as (it & -> & H2);
    [done..|intros *; apply (above_mono (Some start))|done|lia|done].
Qed.

Lemma ReverseIterator_collect tree start end_ fuel : isWriting tree = false → bt_ok (bt tree) → (size (bt_map (bt tree)) < fuel)%nat →
  (iter ← NVTree_ReverseIterator tree start end_; iter_collect (Backward_Next tree) fuel iter) = Ret (rev (range_items (bt_map (bt tree)) start end_)).
Proof.
  intros Hw Hok Hfuel. unfold NVTree_ReverseIterator. rewrite Hw. cbn [negb require mbind outcome_bind].
  destruct (bytes_ltb start end_) eqn:Hse; cbn [negb].
  2:{ rewrite range_items_nil; [|by rewrite <- bytes_ltb_lt, Hse]. destruct fuel; [lia|done]. }
  destruct (bt_Seek_ok _ end_ Hok) as (e & Ee & _ & Hb). rewrite Ee. cbn [mbind outcome_bind].
  pose proof (range_items_ascending (bt_map (bt tree)) start end_) as Hl. set (l := range_items _ start end_) in *.
  pose proof (ascending_length _ _ _ Hl). apply descending_rev in Hl.
  assert (∃ e', (if bool_decide (is_Some (bt_map (bt tree) !! end_)) then '(_, e0) ← en_Prev (bt tree) e; mret e0 else mret e) = Ret e' ∧
    ∃ P : bytes → Prop, en_bwd (bt tree) e' P ∧ (∀ k k', P k' → k <b k' → P k) ∧ ∀ k, is_Some (bt_map (bt tree) !! k) → P k ↔ k <b end_) as (e' & E' & P & HP & Hdown & Hiff).
  { case_bool_decide as Hhit.
    - destruct (en_Prev_ok _ _ _ Hok Hb) as (o & e' & E1 & Ho & He'). exists e'. split; [by rewrite E1|].
      exists (λ k, k <b end_). split_and!; [|intros * ??; by eapply bytes_lt_trans|done].
      by destruct (last_in_hit _ _ _ Hhit Ho) as [v ->].
    - exists e. split; [done|]. exists (λ k, k ≤b end_). split_and!; [done| |].
      + intros k k' H1 H2. by eapply bytes_lt_le, bytes_lt_le_trans.
      + intros k Hk. rewrite bytes_le_lteq. split; [intros [?| ->]; [done|by destruct Hhit]|by left]. }
  rewrite E'. cbn [mbind outcome_bind].
  destruct (backward_collect tree Hw Hok (rev l) fuel (mkIterMem (Some e') start end_ [] 0 false) e' P) as (it & -> & H2);
    [done..| |rewrite length_rev; lia|done].
  eapply items_in_iff; [|exact Hl]. intros k Hk. unfold in_range, above, below. cbn [im_start]. rewrite (Hiff k Hk). tauto.
Qed.

(** C29: on an index that is not being written, both iterators terminate and
    give exactly the entries whose keys are in [\[start, end)], in ascending
    and descending order, whether or not the bounds are keys of the index. *)
Theorem index_iterators_exact tree start end_ fuel :
  isWriting tree = false → bt_ok (bt tree) → (size (bt_map (bt tree)) < fuel)%nat →
  ∃ l, ascending (bt_map (bt tree)) (λ k, start ≤b k ∧ k <b end_) l ∧
    (iter ← NVTree_Iterator tree start end_; iter_collect (Forward_Next tree) fuel iter) = Ret l ∧
    (iter ← NVTree_ReverseIterator tree start end_; iter_collect (Backward_Next tree) fuel iter) = Ret (rev l).
Proof.
  intros Hw Hok Hfuel. exists (range_items (bt_map (bt tree)) start end_). split_and!.
  - apply range_items_ascending.
  - by apply Iterator_collect.
  - by apply ReverseIterator_collect.
Qed.
End index_iterators.

Definition sample_index : NVTreeMem (gmap bytes Z) :=
  mkNVTreeMem (<[[1] := 10]> (<[[1; 0] := 11]> (<[[2] := 12]> ∅))) false false (replicate 8 0).

Lemma index_iterators_exact_witness :
  (isWriting sample_index = false ∧ (size (bt sample_index) < 4)%nat ∧
   (iter ← NVTree_ReverseIterator sample_index [1] [2]; iter_collect (Backward_Next sample_index) 4 iter) = Ret [([1; 0], 11); ([1], 10)]) ∧
  ∃ l, ascending (bt_map (bt sample_index)) (λ k, [1] ≤b k ∧ k <b [2]) l ∧
    (iter ← NVTree_Iterator sample_index [1] [2]; iter_collect (Forward_Next sample_index) 4 iter) = Ret l ∧
    (iter ← NVTree_ReverseIterator sample_index [1] [2]; iter_collect (Backward_Next sample_index) 4 iter) = Ret (rev l).
Proof.
  split; [split_and!; [reflexivity|vm_compute; lia|vm_compute; reflexivity]|].
  apply (index_iterators_exact sample_index [1] [2] 4); [reflexivity|exact I|vm_compute; lia].
Defined.
