(* ===== verification/IndexHistory.v ===== *)
(** * The history kept by the index tree

    What [Set] and [Delete] leave in RocksDB over the blocks of a run, what
    [GetAtHeight] reads from it after any compaction, and what [Init] rebuilds. *)
From S2P Require Import Prelude ByteOrder RocksDB BTreeSpec.
From S2P Require Import MetaDB IndexTree.

(** ** The order of the records *)

Definition rk (k : bytes) (e : Z) : bytes := record_key k (be_bytes 8 e).
Arguments rk : simpl never.
Definition is_uint64 (z : Z) : Prop := 0 ≤ z < 2 ^ 64.

Lemma rk_inj k k' e e' : is_uint64 e → is_uint64 e' → rk k e = rk k' e' → k = k' ∧ e = e'.
Proof.
  unfold rk, record_key. intros He He' [= H]. apply app_inj_2 in H as [-> H].
  - split; [done|]. by apply (be_bytes_inj 8).
  - by rewrite !length_be_bytes.
Qed.

Lemma rk_ne k k' e e' : is_uint64 e → is_uint64 e' → k ≠ k' ∨ e ≠ e' → rk k e ≠ rk k' e'.
Proof. intros He He' Hne H. destruct (rk_inj k k' e e' He He' H). naive_solver. Qed.

(** A family of keys none of which is a proper prefix of another. *)
Definition prefix_free (K : bytes → Prop) : Prop := ∀ k k', K k → K k' → k `prefix_of` k' → k = k'.

(** Keys that are not prefixes of each other decide the order of the records. *)
Lemma bytes_compare_diverge k k' x y : ¬ k `prefix_of` k' → ¬ k' `prefix_of` k →
  bytes_compare (k ++ x) (k' ++ y) = bytes_compare k k'.
Proof.
  revert k'. induction k as [|a k IH]; intros [|b k'] H1 H2; cbn.
  - destruct H1. apply prefix_nil.
  - destruct H1. apply prefix_nil.
  - destruct H2. apply prefix_nil.
  - destruct (Z.compare_spec a b) as [->|?|?]; [|done..]. apply IH; intros H; [apply H1|apply H2]; by apply prefix_cons.
Qed.

Lemma rk_lt K k k' e e' : prefix_free K → K k → K k' → k ≠ k' → rk k e <b rk k' e' ↔ k <b k'.
Proof.
  intros HK H1 H2 Hne. unfold bytes_lt, rk, record_key. rewrite bytes_compare_prefix, bytes_compare_diverge; [done|..];
    intros H; [apply HK in H|apply HK in H]; congruence.
Qed.
Lemma rk_same_lt k e e' : is_uint64 e → is_uint64 e' → rk k e <b rk k e' ↔ e < e'.
Proof.
  intros He He'. unfold bytes_lt, rk, record_key. rewrite !bytes_compare_prefix, be_bytes_compare by done. done.
Qed.
Lemma rk_same_le k e e' : is_uint64 e → is_uint64 e' → rk k e ≤b rk k e' ↔ e ≤ e'.
Proof. intros He He'. rewrite <- bytes_nlt_ge, rk_same_lt by done. lia. Qed.

(** Between two records of one key there are only records of that key. *)
Lemma rk_between K k k' e e1 e2 : prefix_free K → K k → K k' → rk k e1 ≤b rk k' e → rk k' e ≤b rk k e2 → k' = k.
Proof.
  intros HK H1 H2 Ha Hb. destruct (decide (k = k')) as [|Hne]; [done|]. exfalso.
  apply bytes_nlt_ge in Ha, Hb. rewrite (rk_lt K) in Ha, Hb by done.
  destruct (bytes_lt_total k k') as [?|[?|?]]; done.
Qed.

Lemma expiry_max_rk k e : expiry_max (rk k e) = rk k MaxUint64.
Proof.
  unfold expiry_max, rk, record_key. rewrite app_assoc. rewrite length_app, length_be_bytes.
  replace (length ([0%Z] ++ k) + 8 - 8)%nat with (length ([0%Z] ++ k) + 0)%nat by lia.
  rewrite splice_app_r. unfold splice. by rewrite drop_ge by (by rewrite !length_be_bytes).
Qed.

(** ** Blocks of changes *)

Inductive index_op : Type :=
| IxSet (k : bytes) (v : Z)
| IxDelete (k : bytes).

Definition op_key (o : index_op) : bytes := match o with IxSet k _ => k | IxDelete k => k end.
Definition spec_op (m : gmap bytes Z) (o : index_op) : gmap bytes Z :=
  match o with IxSet k v => <[k := v]> m | IxDelete k => delete k m end.

(** A block writes each key at most once and deletes keys that are there. *)
Definition valid_op (K : bytes → Prop) (m : gmap bytes Z) (o : index_op) : Prop :=
  K (op_key o) ∧ match o with IxSet _ v => is_uint64 v | IxDelete k => is_Some (m !! k) end.
Definition valid_block (K : bytes → Prop) (m : gmap bytes Z) (ops : list index_op) : Prop :=
  NoDup (op_key <$> ops) ∧ ∀ o, o ∈ ops → valid_op K m o.

Section history.
Context {D T E : Type} `{HD : !Rocks D} `{!RocksLaws D} `{HT : !BTreeOps Z T E} `{!BTreeLaws Z T E}.
Implicit Types (tree : NVTreeMem T) (kvdb : RocksDB D) (k : bytes).

Definition index_step (s : NVTreeMem T * RocksDB D) (o : index_op) : outcome (NVTreeMem T * RocksDB D) :=
  match o with IxSet k v => NVTree_Set s.1 s.2 k v | IxDelete k => NVTree_Delete s.1 s.2 k end.

(** The index tree's part of a block of the store. *)
Definition index_block (s : NVTreeMem T * RocksDB D) (b : Z * list index_op) : outcome (NVTreeMem T * RocksDB D) :=
  let kvdb := OpenNewBatch s.2 in
  tree ← NVTree_BeginWrite s.1 b.1;
  s ← for_state index_step (tree, kvdb) b.2;
  tree ← NVTree_EndWrite s.1;
  mret (tree, CloseOldBatch s.2).

Definition enc (o : option Z) : bytes := match o with Some v => le_bytes 8 v | None => [] end.

(** The contents of the index at every height. *)
Definition add_block (H : Z → gmap bytes Z) (h : Z) (m : gmap bytes Z) : Z → gmap bytes Z :=
  λ x, if x <? h then H x else m.

Context (K : bytes → Prop).

Record history_inv (H : Z → gmap bytes Z) (top : Z) tree (d : gmap bytes bytes) : Prop := {
  hi_writing : isWriting tree = false;
  hi_rocksdb : rocksdb tree = true;
  hi_ok : bt_ok (bt tree);
  hi_top : -1 ≤ top < 2 ^ 63;
  hi_map : bt_map (bt tree) = H top;
  hi_after : ∀ h, top ≤ h → H h = H top;
  hi_before : ∀ h, h < 0 → H h = ∅;
  hi_keys : ∀ h k v, H h !! k = Some v → K k ∧ is_uint64 v;
  hi_shape : ∀ r w, d !! (0 :: r) = Some w → ∃ k e, K k ∧ is_uint64 e ∧ 0 :: r = rk k e;
  hi_hist : ∀ k e w, K k → is_uint64 e → d !! rk k e = Some w →
    w = enc (H (e - 1) !! k) ∧ (e ≤ top ∨ e = MaxUint64);
  hi_complete : ∀ k h, 0 ≤ h → H h !! k ≠ H (h - 1) !! k → is_Some (d !! rk k h);
  hi_live : ∀ k, K k → is_Some (H top !! k) ↔ is_Some (d !! rk k MaxUint64)
}.

(** ** One block *)

Record mid_inv (d0 : gmap bytes bytes) (f : HeightCompactionFilter) (h : Z) (m0 : gmap bytes Z) (W : list bytes)
    (m : gmap bytes Z) tree kvdb : Prop := {
  mi_writing : isWriting tree = true;
  mi_rocksdb : rocksdb tree = true;
  mi_height : nv_currHeight tree = be_bytes 8 h;
  mi_ok : bt_ok (bt tree);
  mi_map : bt_map (bt tree) = m;
  mi_batch : is_Some (batch kvdb);
  mi_filter : filter_ kvdb = f;
  mi_live : ∀ k, K k → pending_map kvdb !! rk k MaxUint64 = le_bytes 8 <$> m !! k;
  mi_hist : ∀ k, K k → k ∈ W → pending_map kvdb !! rk k h = Some (enc (m0 !! k));
  mi_other : ∀ r, (∀ k, K k → r ≠ rk k MaxUint64) → (∀ k, k ∈ W → r ≠ rk k h) → pending_map kvdb !! r = d0 !! r;
  mi_shape : ∀ r w, pending_map kvdb !! (0 :: r) = Some w → ∃ k e, K k ∧ is_uint64 e ∧ 0 :: r = rk k e;
  mi_same : ∀ k, k ∉ W → m !! k = m0 !! k;
  mi_keys : ∀ k v, m !! k = Some v → K k ∧ is_uint64 v
}.

Lemma is_uint64_max : is_uint64 MaxUint64.
Proof. unfold is_uint64, MaxUint64. lia. Qed.
Lemma is_uint64_height h : 0 ≤ h < 2 ^ 63 → is_uint64 h.
Proof. unfold is_uint64. lia. Qed.
Local Hint Resolve is_uint64_max is_uint64_height : onva.

Lemma height_ne_max h : 0 ≤ h < 2 ^ 63 → h ≠ MaxUint64.
Proof. unfold MaxUint64. lia. Qed.

(** The two records a change writes, and nothing else. *)
Lemma mid_inv_write d0 f h m0 W m tree kvdb k o b kvdb' :
  0 ≤ h < 2 ^ 63 → mid_inv d0 f h m0 W m tree kvdb → K k → k ∉ W →
  match o with Some v => is_uint64 v | None => True end →
  bt_ok b → bt_map b = partial_alter (λ _, o) k m →
  is_Some (batch kvdb') → filter_ kvdb' = f →
  pending_map kvdb' = partial_alter (λ _, le_bytes 8 <$> o) (rk k MaxUint64) (<[rk k h := enc (m !! k)]> (pending_map kvdb)) →
  mid_inv d0 f h m0 (k :: W) (partial_alter (λ _, o) k m) (set_bt tree b) kvdb'.
Proof.
  intros Hh [] HK HW Ho Hb Hbm Hbat Hf HP. pose proof (height_ne_max h Hh). pose proof (is_uint64_height h Hh).
  constructor; try done.
  - intros k' HK'. rewrite HP. destruct (decide (k' = k)) as [->|Hne].
    + by rewrite !lookup_partial_alter_eq.
    + rewrite (lookup_partial_alter_ne _ _ k k') by done.
      rewrite lookup_partial_alter_ne, lookup_insert_ne by (apply rk_ne; auto with onva). by apply mi_live0.
  - intros k' HK' Hin. rewrite HP, lookup_partial_alter_ne by (apply rk_ne; auto with onva).
    destruct (decide (k' = k)) as [->|Hne].
    + rewrite lookup_insert_eq. do 2 f_equal. by apply mi_same0.
    + rewrite lookup_insert_ne by (apply rk_ne; auto with onva). apply mi_hist0; [done|].
      by apply elem_of_cons in Hin as [?|?].
  - intros r H1 H2. rewrite HP, lookup_partial_alter_ne, lookup_insert_ne.
    + apply mi_other0; [done|]. intros k' Hk'. apply H2. by right.
    + apply not_eq_sym, H2. by left.
    + apply not_eq_sym. auto.
  - intros r w. rewrite HP. destruct (decide (0 :: r = rk k MaxUint64)) as [E1|H1].
    { intros _. exists k, MaxUint64. auto with onva. }
    destruct (decide (0 :: r = rk k h)) as [E1|H2]. { intros _. exists k, h. auto. }
    rewrite lookup_partial_alter_ne, lookup_insert_ne by done. apply mi_shape0.
  - intros k' [Hne Hk']%not_elem_of_cons. rewrite lookup_partial_alter_ne by done. auto.
  - intros k' v'. destruct (decide (k' = k)) as [->|Hne].
    + rewrite lookup_partial_alter_eq. intros ->. done.
    + rewrite lookup_partial_alter_ne by done. apply mi_keys0.
Qed.

Lemma index_step_ok d0 f h m0 W m tree kvdb o :
  0 ≤ h < 2 ^ 63 → mid_inv d0 f h m0 W m tree kvdb → valid_op K m0 o → op_key o ∉ W →
  ∃ s, index_step (tree, kvdb) o = Ret s ∧ mid_inv d0 f h m0 (op_key o :: W) (spec_op m o) s.1 s.2.
Proof.
  intros Hh Hm [HK Hv] HW. pose proof Hm as []. destruct o as [k v|k]; cbn [index_step op_key spec_op fst snd] in *.
  - unfold NVTree_Set. rewrite mi_writing0. cbn [require mbind outcome_bind].
    destruct (bt_Put_ok (bt tree) k v mi_ok0) as (b & -> & Hb & Hbm). cbn [mbind outcome_bind set_bt rocksdb]. rewrite mi_rocksdb0. cbn [negb].
    change (nv_currHeight (set_bt tree b)) with (nv_currHeight tree).
    rewrite mi_height0. fold (rk k h). rewrite expiry_max_rk. rewrite mi_map0 in Hbm. rewrite ?mi_map0.
    destruct (batch_Set_ok kvdb (rk k h) (enc (m !! k)) mi_batch0) as (d1 & E1 & B1 & _ & F1 & P1). unfold enc in E1. rewrite E1.
    destruct (batch_Set_ok d1 (rk k MaxUint64) (le_bytes 8 v) B1) as (d2 & E2 & B2 & _ & F2 & P2). cbn [mbind outcome_bind]. rewrite E2.
    eexists. split; [reflexivity|]. cbn [fst snd].
    eapply (mid_inv_write _ _ _ _ _ _ _ _ _ (Some v)); [done..|congruence|]. by rewrite P2, P1.
  - unfold NVTree_Delete. rewrite mi_writing0. cbn [require mbind outcome_bind].
    rewrite (bt_Get_ok _ k mi_ok0), mi_map0. cbn [mbind outcome_bind].
    assert (is_Some (m !! k)) as [v Hmk] by (by rewrite mi_same0). rewrite Hmk.
    destruct (bt_Delete_ok (bt tree) k mi_ok0) as (b & -> & Hb & Hbm). cbn [mbind outcome_bind set_bt rocksdb]. rewrite mi_rocksdb0. cbn [negb].
    change (nv_currHeight (set_bt tree b)) with (nv_currHeight tree).
    rewrite mi_height0. fold (rk k h). rewrite expiry_max_rk. rewrite mi_map0 in Hbm. rewrite ?mi_map0.
    destruct (batch_Set_ok kvdb (rk k h) (enc (m !! k)) mi_batch0) as (d1 & E1 & B1 & _ & F1 & P1). rewrite Hmk in E1. unfold enc in E1. rewrite E1.
    destruct (batch_add_ok d1 (BatchDelete (rk k MaxUint64)) B1) as (d2 & E2 & B2 & _ & F2 & P2). cbn [mbind outcome_bind]. unfold batch_Delete. rewrite E2.
    eexists. split; [reflexivity|]. cbn [fst snd].
    eapply (mid_inv_write _ _ _ _ _ _ _ _ _ None); [done..|congruence|]. by rewrite P2, P1.
Qed.

Lemma index_steps_ok d0 f h m0 ops : ∀ W m tree kvdb,
  0 ≤ h < 2 ^ 63 → mid_inv d0 f h m0 W m tree kvdb → NoDup (op_key <$> ops) → (∀ o, o ∈ ops → valid_op K m0 o ∧ op_key o ∉ W) →
  ∃ s, for_state index_step (tree, kvdb) ops = Ret s ∧ mid_inv d0 f h m0 (rev (op_key <$> ops) ++ W) (foldl spec_op m ops) s.1 s.2.
Proof.
  induction ops as [|o ops IH]; intros W m tree kvdb Hh Hm Hnd Hops; [by eexists|].
  cbn in Hnd. apply NoDup_cons in Hnd as [Hno Hnd].
  destruct (Hops o) as [Hv HW]; [by left|]. destruct (index_step_ok _ _ _ _ _ _ _ _ o Hh Hm Hv HW) as ([t1 d1] & E1 & H1).
  rewrite (for_state_step _ _ _ _ _ E1). destruct (IH _ _ _ _ Hh H1 Hnd) as (s & E2 & H2).
  - intros o' Ho'. destruct (Hops o') as [? ?]; [by right|]. split; [done|]. apply not_elem_of_cons. split; [|done].
    intros Heq. apply Hno, list_elem_of_fmap. eauto.
  - exists s. split; [done|]. cbn [fmap list_fmap rev foldl]. by rewrite <- app_assoc.
Qed.

(** ** A whole block *)

Lemma live_records H top tree d : history_inv H top tree d → ∀ k, K k → d !! rk k MaxUint64 = le_bytes 8 <$> H top !! k.
Proof.
  intros [] k HK. destruct (d !! rk k MaxUint64) as [w|] eqn:Hw.
  - destruct (hi_hist0 k MaxUint64 w HK is_uint64_max Hw) as [-> _]. rewrite hi_after0 by (unfold MaxUint64; lia).
    destruct (proj2 (hi_live0 k HK) ltac:(by eexists)) as [v ->]. done.
  - destruct (H top !! k) as [v|] eqn:Hv; [|done]. exfalso. destruct (proj1 (hi_live0 k HK) ltac:(by eexists)) as [w Hw'].
    congruence.
Qed.

Lemma mid_inv_start H top tree kvdb h t : history_inv H top tree (rk_map (rdb kvdb)) → 0 ≤ h < 2 ^ 63 →
  NVTree_BeginWrite tree h = Ret t →
  mid_inv (rk_map (rdb kvdb)) (filter_ kvdb) h (H top) [] (H top) t (OpenNewBatch kvdb).
Proof.
  intros Hi Hh. pose proof Hi as []. unfold NVTree_BeginWrite. rewrite hi_writing0. cbn [negb require mbind outcome_bind].
  intros [= <-]. constructor; try done.
  - cbn [nv_currHeight]. unfold to_uint64, to_uint. by rewrite Z.mod_small by lia.
  - intros k HK. by eapply live_records.
  - intros k HK Hin%elem_of_nil. done.
  - intros k v. apply hi_keys0.
Qed.

Lemma add_block_lt H h m x : x < h → add_block H h m x = H x.
Proof. intros. unfold add_block. destruct (Z.ltb_spec x h); [done|lia]. Qed.
Lemma add_block_ge H h m x : h ≤ x → add_block H h m x = m.
Proof. intros. unfold add_block. destruct (Z.ltb_spec x h); [lia|done]. Qed.

Lemma mid_inv_end H top h W m tree0 tree kvdb0 kvdb :
  history_inv H top tree0 (rk_map (rdb kvdb0)) → 0 ≤ h < 2 ^ 63 → top < h → (∀ k, k ∈ W → K k) →
  mid_inv (rk_map (rdb kvdb0)) (filter_ kvdb0) h (H top) W m tree kvdb →
  history_inv (add_block H h m) h (mkNVTreeMem (bt tree) false (rocksdb tree) (nv_currHeight tree)) (rk_map (rdb (CloseOldBatch kvdb))).
Proof.
  intros Hi Hh Htop HWK []. pose proof (live_records _ _ _ _ Hi) as Hlive0. destruct Hi.
  pose proof (height_ne_max h Hh). pose proof (is_uint64_height h Hh). rewrite CloseOldBatch_map. set (P := pending_map kvdb) in *.
  (* old records *)
  assert (∀ k e, K k → is_uint64 e → e ≠ MaxUint64 → e ≠ h → P !! rk k e = rk_map (rdb kvdb0) !! rk k e) as Hold.
  { intros k e HK He Hm1 Hm2. apply mi_other0; intros; apply rk_ne; auto with onva. }
  constructor; try done; cbn [isWriting rocksdb bt nv_currHeight].
  - lia.
  - by rewrite mi_map0, add_block_ge by lia.
  - intros x Hx. by rewrite !add_block_ge by lia.
  - intros x Hx. rewrite add_block_lt by lia. by apply hi_before0.
  - intros x k v. unfold add_block. destruct (x <? h); [apply hi_keys0|apply mi_keys0].
  - intros k e w HK He Hw. destruct (decide (e = MaxUint64)) as [->|Hmax].
    { split; [|by right]. unfold P in Hw. rewrite mi_live0 in Hw by done. rewrite add_block_ge by (unfold MaxUint64; lia).
      destruct (m !! k); [|done]. by injection Hw as <-. }
    destruct (decide (e = h)) as [->|Heh].
    + destruct (decide (k ∈ W)) as [Hin|Hin].
      * unfold P in Hw. rewrite mi_hist0 in Hw by done. injection Hw as <-. split; [|by left].
        rewrite add_block_lt by lia. by rewrite (hi_after0 (h - 1)) by lia.
      * exfalso. unfold P in Hw. rewrite mi_other0 in Hw; [|intros; apply rk_ne; auto with onva|].
        -- destruct (hi_hist0 k h w HK He Hw) as [_ [?|?]]; [lia|done].
        -- intros k' Hk'. apply rk_ne; auto. left. intros ->. done.
    + rewrite Hold in Hw by done. destruct (hi_hist0 k e w HK He Hw) as [-> [Hle|?]]; [|done].
      rewrite add_block_lt by lia. split; [done|]. left. lia.
  - intros k x Hx Hne. destruct (Z.lt_trichotomy x h) as [Hlt|[->|Hgt]].
    + rewrite !add_block_lt in Hne by lia. pose proof (hi_complete0 k x Hx Hne) as Hs.
      assert (K k) as HK.
      { destruct (H x !! k) eqn:E1; [by eapply hi_keys0|]. destruct (H (x - 1) !! k) eqn:E2; [by eapply hi_keys0|done]. }
      rewrite Hold; [done|done|apply is_uint64_height; lia|unfold MaxUint64; lia|lia].
    + rewrite add_block_ge, add_block_lt, (hi_after0 (h - 1)) in Hne by lia.
      destruct (decide (k ∈ W)) as [Hin|Hin]; [|by rewrite mi_same0 in Hne].
      unfold P. rewrite mi_hist0 by auto. by eexists.
    + by rewrite !add_block_ge in Hne by lia.
  - intros k HK. rewrite add_block_ge by lia. unfold P. rewrite mi_live0 by done. by rewrite fmap_is_Some.
Qed.

Lemma index_block_ok H top tree kvdb h ops : history_inv H top tree (rk_map (rdb kvdb)) → top < h < 2 ^ 63 →
  valid_block K (H top) ops →
  ∃ s, index_block (tree, kvdb) (h, ops) = Ret s ∧ filter_ s.2 = filter_ kvdb ∧
    history_inv (add_block H h (foldl spec_op (H top) ops)) h s.1 (rk_map (rdb s.2)).
Proof.
  intros Hi Hh [Hnd Hops]. pose proof (hi_top _ _ _ _ Hi). assert (0 ≤ h < 2 ^ 63) as Hh' by lia.
  assert (∃ t, NVTree_BeginWrite tree h = Ret t) as [t Et].
  { unfold NVTree_BeginWrite. rewrite (hi_writing _ _ _ _ Hi). by eexists. }
  pose proof (mid_inv_start _ _ _ _ _ _ Hi Hh' Et) as Hm.
  destruct (index_steps_ok _ _ _ _ ops [] _ _ _ Hh' Hm Hnd) as ([t1 d1] & E1 & H1).
  { intros o Ho. split; [by apply Hops|apply not_elem_of_nil]. }
  unfold index_block. cbn [fst snd]. rewrite Et. cbn [mbind outcome_bind]. rewrite E1. cbn [mbind outcome_bind fst snd].
  cbn [fst snd] in H1. unfold NVTree_EndWrite. rewrite (mi_writing _ _ _ _ _ _ _ _ H1). eexists. split; [reflexivity|]. cbn [fst snd]. split.
  - unfold CloseOldBatch. destruct (batch d1); by apply (mi_filter _ _ _ _ _ _ _ _ H1).
  - eapply mid_inv_end; [exact Hi|lia|lia| |exact H1]. rewrite app_nil_r. intros k Hk.
    rewrite list_elem_of_In, <- in_rev, <- list_elem_of_In in Hk. apply list_elem_of_fmap in Hk as (o & -> & Ho). by apply Hops.
Qed.

(** ** A run of blocks *)

Definition spec_block (s : (Z → gmap bytes Z) * Z) (b : Z * list index_op) : (Z → gmap bytes Z) * Z :=
  (add_block s.1 b.1 (foldl spec_op (s.1 s.2) b.2), b.1).

Fixpoint valid_run (s : (Z → gmap bytes Z) * Z) (bs : list (Z * list index_op)) : Prop :=
  match bs with
  | [] => True
  | b :: bs => s.2 < b.1 < 2 ^ 63 ∧ valid_block K (s.1 s.2) b.2 ∧ valid_run (spec_block s b) bs
  end.

(** The contents of the index after the blocks, at every height. *)
Definition contents_at (bs : list (Z * list index_op)) : Z → gmap bytes Z := (foldl spec_block (λ _, ∅, -1) bs).1.

Lemma index_run_ok bs : ∀ H top tree kvdb, history_inv H top tree (rk_map (rdb kvdb)) → valid_run (H, top) bs →
  ∃ s, for_state index_block (tree, kvdb) bs = Ret s ∧ filter_ s.2 = filter_ kvdb ∧
    history_inv (foldl spec_block (H, top) bs).1 (foldl spec_block (H, top) bs).2 s.1 (rk_map (rdb s.2)).
Proof.
  induction bs as [|[h ops] bs IH]; intros H top tree kvdb Hi Hv; [by eexists|]. destruct Hv as (Hh & Hb & Hv).
  destruct (index_block_ok _ _ _ _ h ops Hi Hh Hb) as ([t1 d1] & E1 & F1 & H1).
  rewrite (for_state_step _ _ _ _ _ E1). destruct (IH _ _ _ _ H1 Hv) as (s & E2 & F2 & H2).
  exists s. split_and!; [done| |done]. by rewrite F2.
Qed.

(** A new index tree over a store without records. *)
Lemma history_inv_new (d : gmap bytes bytes) : (∀ r, d !! (0 :: r) = None) → history_inv (λ _, ∅) (-1) (NewNVTreeMem true) d.
Proof.
  intros Hd. destruct bt_TreeNew_ok as [Hok Hm]. constructor; try done.
  - intros r w Hr. by rewrite Hd in Hr.
  - intros k e w _ _ Hr. change (rk k e) with (0 :: (k ++ be_bytes 8 e)) in Hr. by rewrite Hd in Hr.
  - intros k _. rewrite lookup_empty. split; intros [? Hr]; [done|].
    change (rk k MaxUint64) with (0 :: (k ++ be_bytes 8 MaxUint64)) in Hr. by rewrite Hd in Hr.
Qed.

(** ** Reading the history *)

Lemma changes_between (H : Z → gmap bytes Z) k (n : nat) a : H (a + Z.of_nat n) !! k ≠ H a !! k →
  ∃ e, a < e ≤ a + Z.of_nat n ∧ H e !! k ≠ H (e - 1) !! k.
Proof.
  induction n as [|n IH]; intros Hne; [by rewrite Z.add_0_r in Hne|].
  destruct (decide (H (a + Z.of_nat n) !! k = H a !! k)) as [E1|E1].
  - exists (a + Z.of_nat (S n)). split; [lia|]. replace (a + Z.of_nat (S n) - 1) with (a + Z.of_nat n) by lia. congruence.
  - destruct (IH E1) as (e & ? & ?). exists e. split; [lia|done].
Qed.

Lemma Filter_rk f k e : is_uint64 e → Filter f (rk k e) = pruneEnable f && (pruneHeight f >? e).
Proof.
  intros He. unfold Filter, rk, record_key.
  assert (zlen ([0] ++ k ++ be_bytes 8 e) = 9 + zlen k) as Hl by (unfold zlen; rewrite !length_app, length_be_bytes; cbn; lia).
  rewrite Hl. pose proof (zlen_nonneg k). destruct (Z.ltb_spec (9 + zlen k) 8); [lia|]. cbn [head app].
  rewrite bool_decide_eq_true_2 by done. cbn [negb]. do 2 f_equal.
  rewrite app_comm_cons, drop_app_length' by (rewrite length_app, length_be_bytes; cbn; lia).
  rewrite be_val_bytes. unfold is_uint64 in He. by rewrite Z.mod_small.
Qed.

Lemma record_of H top tree d k h1 height : history_inv H top tree d → K k → height ≤ h1 → 0 ≤ height < MaxUint64 →
  is_Some (H h1 !! k) → ∃ e, height < e ∧ is_uint64 e ∧ is_Some (d !! rk k e).
Proof.
  intros Hi HK Hle Hh Hs. pose proof Hi as []. destruct (decide (is_Some (H top !! k))) as [Ht|Ht].
  - exists MaxUint64. split_and!; [lia|apply is_uint64_max|]. by apply hi_live0.
  - destruct (Z.le_gt_cases top h1) as [?|?]; [by rewrite hi_after0 in Hs|].
    destruct (changes_between H k (Z.to_nat (top - h1)) h1) as (e & He & Hne).
    { replace (h1 + Z.of_nat (Z.to_nat (top - h1))) with top by lia. intros Heq. by rewrite Heq in Ht. }
    exists e. split_and!; [lia|unfold is_uint64; lia|]. apply hi_complete0; [lia|done].
Qed.

(** Between the height and the first later record of a key nothing changed. *)
Lemma unchanged_until H top tree d k height e : history_inv H top tree d → K k → 0 ≤ height < e → is_uint64 e → e ≤ top ∨ e = MaxUint64 →
  (∀ e', height < e' < e → is_uint64 e' → d !! rk k e' = None) → H (e - 1) !! k = H height !! k.
Proof.
  intros [] HK Hh He Htop Hnone. destruct (decide (H (e - 1) !! k = H height !! k)) as [|Hne]; [done|]. exfalso.
  destruct (changes_between H k (Z.to_nat (e - 1 - height)) height) as (x & Hx & Hnx).
  { by replace (height + Z.of_nat (Z.to_nat (e - 1 - height))) with (e - 1) by lia. }
  destruct (hi_complete0 k x ltac:(lia) Hnx) as [w Hw]. rewrite Hnone in Hw; [done|lia|unfold is_uint64 in *; lia].
Qed.

Lemma seek_key_rk k height : 0 ≤ height < MaxUint64 →
  splice (splice (replicate (1 + length k + 8) 0) 1 k) (1 + length k) (be_bytes 8 (to_uint64 (height + 1))) = rk k (height + 1).
Proof.
  intros Hh. unfold to_uint64, to_uint. rewrite Z.mod_small by (unfold MaxUint64 in Hh; lia).
  rewrite !replicate_add. change (replicate 1 0) with [0]. rewrite <- app_assoc.
  change (splice ([0] ++ ?l) 1 k) with (splice ([0] ++ l) (length [0] + 0) k). rewrite splice_app_r.
  unfold splice at 2. cbn [firstn Nat.add]. rewrite drop_app_length' by (by rewrite length_replicate). cbn [app].
  change (0 :: take 0 (replicate (length k) 0 ++ replicate 8 0) ++ ?x) with (0 :: x). rewrite app_comm_cons. change (S (length k)) with (length (0 :: k)).
  rewrite <- (Nat.add_0_r (length (0 :: k))), splice_app_r. unfold splice. cbn [firstn Nat.add app].
  rewrite drop_ge by (by rewrite length_be_bytes). by rewrite app_nil_r.
Qed.

Definition small_end k : Prop := ∀ b, last k = Some b → b < 255.

(** The bound the code compares with: it overwrites one byte too early. *)
Lemma bound_key_ge k e x : small_end k → rk k e ≤b splice (rk k x) (length k) (be_bytes 8 MaxUint64).
Proof.
  intros Hend. apply bytes_lt_le. destruct k as [|b k _] using rev_ind; [done|].
  specialize (Hend b). rewrite last_snoc in Hend. specialize (Hend eq_refl).
  unfold rk, record_key. rewrite <- !(app_assoc k). rewrite length_app. change (length [b]) with 1%nat.
  replace (length k + 1)%nat with (length ([0%Z] ++ k) + 0)%nat by (rewrite length_app; cbn; lia).
  rewrite !(app_assoc [0%Z]), splice_app_r. unfold bytes_lt. rewrite bytes_compare_prefix.
  change (be_bytes 8 MaxUint64) with (replicate 8 255). unfold splice. cbn [firstn app replicate bytes_compare].
  by rewrite (proj2 (Z.compare_lt_iff b 255)).
Qed.

Context (HK : prefix_free K).

(** Seeking the first record after a height finds a record of the key. *)
Lemma seek_record H top tree kvdb d k height : history_inv H top tree (rk_map (rdb kvdb)) → compacted kvdb d → K k →
  0 ≤ height < MaxUint64 → (pruneEnable (filter_ kvdb) = true → pruneHeight (filter_ kvdb) < height) →
  (∃ e, height < e ∧ is_uint64 e ∧ is_Some (rk_map (rdb kvdb) !! rk k e)) →
  ∃ e, height < e ∧ is_uint64 e ∧ (e ≤ top ∨ e = MaxUint64) ∧
    rk_Seek d (rk k (height + 1)) = Some (rk k e, enc (H height !! k)).
Proof.
  intros Hi Hd Hk Hh Hp (e0 & He0 & Hu0 & Hs0). pose proof Hi as [].
  assert (∀ e, height < e → is_uint64 e → rk_map d !! rk k e = rk_map (rdb kvdb) !! rk k e) as Hkeep.
  { intros e He Hu. apply (compacted_keeps _ _ _ Hd). rewrite Filter_rk by done. destruct (pruneEnable _); [|done]. cbn.
    specialize (Hp eq_refl). rewrite Z.gtb_ltb. apply Z.ltb_ge. lia. }
  assert (is_uint64 (height + 1)) as Hu1 by (unfold is_uint64, MaxUint64 in *; lia).
  pose proof (rk_Seek_first d (rk k (height + 1))) as Hf.
  destruct (rk_Seek d (rk k (height + 1))) as [[r w]|]; unfold first_in in Hf.
  2:{ rewrite <- (Hkeep e0 He0 Hu0), Hf in Hs0 by (apply rk_same_le; [done..|lia]). by destruct Hs0. }
  destruct Hf as (Hr & Hge & Hmin).
  assert (r ≤b rk k e0) as Hle by (apply Hmin; [apply rk_same_le; [done..|lia]|by rewrite Hkeep]).
  assert (rk_map (rdb kvdb) !! r = Some w) as Hr0.
  { destruct (Hd r) as [Heq|[_ Heq]]; congruence. }
  assert (∃ r', r = 0 :: r') as [r' ->].
  { destruct r as [|a r']; [done|]. exists r'. f_equal. clear - Hge Hle. unfold bytes_le in Hge, Hle. cbn in Hge, Hle.
    destruct a; [done|done|done]. }
  destruct (hi_shape0 _ _ Hr0) as (k1 & e1 & Hk1 & He1 & Er). rewrite Er in Hge, Hle, Hr0, Hmin |- *. clear Er.
  assert (k1 = k) as -> by exact (rk_between K k k1 _ _ _ HK Hk Hk1 Hge Hle).
  rewrite rk_same_le in Hge by done. destruct (hi_hist0 _ _ _ Hk He1 Hr0) as [-> Htop].
  exists e1. split_and!; [lia|done|done|]. do 3 f_equal.
  eapply unchanged_until; [exact Hi|done|lia|done|done|]. intros e' He' Hu'.
  destruct (rk_map (rdb kvdb) !! rk k e') as [w'|] eqn:E1; [|done]. exfalso.
  assert (rk k e1 ≤b rk k e') as Hm. { apply Hmin; [apply rk_same_le; [done..|lia]|]. rewrite Hkeep by (done || lia). by eexists. }
  rewrite rk_same_le in Hm by done. lia.
Qed.

Lemma LE_Uint64_enc v : is_uint64 v → LE_Uint64 (le_bytes 8 v) = Ret v.
Proof.
  intros Hv. pose proof (LE_Uint64_bytes v) as H. unfold to_uint64, to_uint in H. by rewrite Z.mod_small in H.
Qed.

Definition position_of (o : option Z) : Z * bool := match o with Some v => (v, true) | None => (0, false) end.

Lemma GetAtHeight_ok H top tree kvdb d k height h1 : history_inv H top tree (rk_map (rdb kvdb)) → compacted kvdb d → K k → small_end k →
  0 ≤ height < MaxUint64 → (pruneEnable (filter_ kvdb) = true → pruneHeight (filter_ kvdb) < height) →
  height ≤ h1 → is_Some (H h1 !! k) →
  GetAtHeight tree (set_rdb kvdb d) k height = Ret (position_of (H height !! k)).
Proof.
  intros Hi Hd Hk Hend Hh Hp Hh1 Hs1. pose proof Hi as [].
  destruct (seek_record _ _ _ _ _ k height Hi Hd Hk Hh Hp) as (e & He & Hu & _ & Hseek).
  { by eapply record_of. }
  unfold GetAtHeight. rewrite hi_rocksdb0. cbn [require mbind outcome_bind GetPruneHeight].
  change (filter_ (set_rdb kvdb d)) with (filter_ kvdb).
  assert (pruneEnable (filter_ kvdb) && (height <=? pruneHeight (filter_ kvdb)) = false) as ->.
  { destruct (pruneEnable _); [|done]. cbn. specialize (Hp eq_refl). apply Z.leb_gt. lia. }
  rewrite seek_key_rk by done.
  unfold rocks_Iterator, newRocksDBIterator. change (rdb (set_rdb kvdb d)) with d. rewrite Hseek.
  cbn [it_Valid source isReverse it_end negb it_Key it_Value assertIsValid mbind outcome_bind mret outcome_ret].
  rewrite (proj2 (bytes_ltb_ge _ _) (bound_key_ge k e (height + 1) Hend)).
  destruct (H height !! k) as [v|] eqn:Hv; [|done]. cbn [enc position_of]. rewrite zlen_le_bytes. cbn [Z.eqb].
  rewrite LE_Uint64_enc; [done|]. by eapply hi_keys0.
Qed.

(** ** Rebuilding the index from the records *)

Implicit Types (l : list (bytes * bytes)).

(** What a record adds to the index: nothing, unless it is up to date. *)
Definition load_record (m : gmap bytes Z) (r : bytes * bytes) : gmap bytes Z :=
  let k := drop 1 r.1 in
  if bool_decide (drop (length k - 8) k = replicate 8 255) then <[take (length k - 8) k := le_val r.2]> m else m.

Definition good_record (r : bytes * bytes) : Prop :=
  ∃ k e, r.1 = rk k e ∧ is_uint64 e ∧ (r.2 = [] ∧ e ≠ MaxUint64 ∨ ∃ v, is_uint64 v ∧ r.2 = le_bytes 8 v).

Lemma be_max e : is_uint64 e → be_bytes 8 e = replicate 8 255 ↔ e = MaxUint64.
Proof.
  intros He. change (replicate 8 255) with (be_bytes 8 MaxUint64). split; [|by intros ->].
  apply be_bytes_inj; [done|apply is_uint64_max].
Qed.

Lemma load_record_rk m k e w : is_uint64 e → load_record m (rk k e, w) = if decide (e = MaxUint64) then <[k := le_val w]> m else m.
Proof.
  intros He. unfold load_record. change (drop 1 (rk k e, w).1) with (k ++ be_bytes 8 e). cbn zeta. cbn [snd].
  replace (length (k ++ be_bytes 8 e) - 8)%nat with (length k) by (rewrite length_app, length_be_bytes; lia).
  rewrite drop_app_length, take_app_length. repeat case_decide; repeat case_bool_decide; try done;
    exfalso; rewrite be_max in * by done; done.
Qed.

Lemma init_record_ok repFn b r : (∀ x, repFn x = Ret tt) → bt_ok b → good_record r →
  ∃ b', init_record (Some repFn) b (drop 1 r.1) r.2 = Ret b' ∧ bt_ok b' ∧ bt_map b' = load_record (bt_map b) r.
Proof.
  intros Hrep Hb (k & e & Er & He & Hw). destruct r as [r w]. cbn [fst snd] in *. rewrite Er, load_record_rk by done.
  unfold init_record. change (drop 1 (rk k e)) with (k ++ be_bytes 8 e). rewrite Hrep. cbn [mbind outcome_bind].
  assert (zlen (k ++ be_bytes 8 e) = zlen k + 8) as Hz by (unfold zlen; rewrite length_app, length_be_bytes; lia).
  rewrite Hz. pose proof (zlen_nonneg k). rewrite (proj2 (Z.leb_le 8 _)) by lia. cbn [require mbind outcome_bind].
  assert ((zlen w =? 8) || (zlen w =? 0) = true) as ->.
  { destruct Hw as [[-> _]|(v & _ & ->)]; [done|]. by rewrite zlen_le_bytes. }
  cbn [require mbind outcome_bind].
  rewrite (slice_end k (be_bytes 8 e) (zlen k + 8 - 8) (zlen k + 8)) by (change (zlen (be_bytes 8 e)) with 8; lia). cbn [mbind outcome_bind].
  case_bool_decide as Hff; rewrite be_max in Hff by done; case_decide; try done.
  - rewrite (slice_start k (be_bytes 8 e) 0 (zlen k + 8 - 8)) by lia. cbn [mbind outcome_bind].
    destruct Hw as [[_ ?]|(v & Hv & ->)]; [done|]. rewrite LE_Uint64_enc by done. cbn [mbind outcome_bind].
    destruct (bt_Set_ok b k v Hb) as (b' & -> & H1 & H2). exists b'. split_and!; [done|done|].
    unfold is_uint64 in Hv. rewrite le_val_small; [done|]. change (8 * Z.of_nat 8) with 64. done.
  - by exists b.
Qed.

Lemma init_loop_ok repFn d : (∀ x, repFn x = Ret tt) → ∀ l fuel b itr (P : bytes → Prop),
  isReverse itr = false → it_end itr = None → (∀ k k', P k → k <b k' → P k') → first_in (rk_map d) P (source itr) →
  ascending (rk_map d) P l → (∀ r, r ∈ l → good_record r) → bt_ok b → (length l < fuel)%nat →
  ∃ b', init_loop fuel (Some repFn) d b itr = Ret b' ∧ bt_ok b' ∧ bt_map b' = foldl load_record (bt_map b) l.
Proof.
  intros Hrep. induction l as [|[k v] l IH]; intros [|fuel] b itr P Hr He Hup Hsrc Hl Hgood Hb Hfuel; cbn [length] in Hfuel; try lia.
  - exists b. cbn [init_loop foldl]. unfold it_Valid. destruct (source itr) as [[k v]|]; [|done].
    destruct Hsrc as (Hk & HPk & _). by rewrite (ascending_nil _ _ Hl k) in Hk.
  - pose proof (Hgood (k, v) ltac:(by left)) as Hkv.
    apply ascending_cons in Hl as [Hfst Hl]. pose proof (first_in_unique _ _ _ _ Hsrc Hfst) as Hs.
    assert (it_Valid itr = true) as HV by (unfold it_Valid; by rewrite Hs, Hr, He).
    destruct (init_record_ok repFn b (k, v) Hrep Hb Hkv) as (b1 & E1 & Hb1 & M1).
    destruct (IH fuel b1 (mkRocksIter (rk_Next d k) (it_start itr) None false) (λ k', k <b k')) as (b' & E2 & Hb' & M2);
      [done|done| |apply rk_Next_first| |intros r Hr'; apply Hgood; by right|done|lia|].
    { intros a c Ha Hac. by eapply bytes_lt_trans. }
    { eapply items_in_iff; [|exact Hl]. intros k' _. split; [tauto|]. intros Hlt. split; [|done]. destruct Hfst as (_ & HPk & _). by eapply Hup. }
    exists b'. split_and!; [|done|by rewrite M2, M1].
    cbn [init_loop]. rewrite HV. unfold it_Key, it_Value, it_Next, assertIsValid. rewrite Hs, HV, Hr, He.
    cbn [mbind outcome_bind mret outcome_ret]. destruct Hkv as (k0 & e & Ek & _). cbn [fst snd] in *. rewrite Ek in *.
    rewrite (index_zget _ _ 0) by done. cbn [mbind outcome_bind Z.eqb negb]. rewrite E1. cbn [mbind outcome_bind]. by rewrite E2.
Qed.

(** The contents of the index after the records were loaded. *)
Lemma load_records m l : NoDup l.*1 → (∀ r, r ∈ l → good_record r) → ∀ k,
  (∀ w, (rk k MaxUint64, w) ∈ l → foldl load_record m l !! k = Some (le_val w)) ∧
  ((∀ w, (rk k MaxUint64, w) ∉ l) → foldl load_record m l !! k = m !! k).
Proof.
  revert m. induction l as [|[r w] l IH]; intros m Hnd Hgood k; cbn [foldl].
  { split; [intros w Hw; by apply elem_of_nil in Hw|done]. }
  cbn in Hnd. apply NoDup_cons in Hnd as [Hni Hnd].
  destruct (IH (load_record m (r, w)) Hnd ltac:(intros; apply Hgood; by right) k) as [IH1 IH2].
  destruct (Hgood (r, w) ltac:(by left)) as (k' & e & Er & He & _). cbn in Er. subst r.
  split.
  - intros w' [[Ek ->]%pair_equal_spec|Hin]%elem_of_cons; [|by apply IH1].
    rewrite IH2. 2:{ intros w'' Hin. apply Hni, list_elem_of_fmap. exists (rk k MaxUint64, w''). split; [exact (eq_sym Ek)|exact Hin]. }
    rewrite load_record_rk by done. apply (rk_inj k k') in Ek as [-> <-]; [|apply is_uint64_max|done].
    by rewrite decide_True, lookup_insert_eq by done.
  - intros Hno. rewrite IH2 by (intros w' Hin; apply (Hno w'); by right).
    rewrite load_record_rk by done. case_decide as Hmax; [|done]. apply lookup_insert_ne.
    intros ->. apply (Hno w). rewrite Hmax. by left.
Qed.

Lemma compacted_shape H top tree kvdb d : history_inv H top tree (rk_map (rdb kvdb)) → compacted kvdb d →
  ∀ r w, rk_map d !! (0 :: r) = Some w → good_record (0 :: r, w) ∧ ∃ k e, K k ∧ is_uint64 e ∧ 0 :: r = rk k e.
Proof.
  intros Hi Hd r w Hr. pose proof Hi as []. assert (rk_map (rdb kvdb) !! (0 :: r) = Some w) as Hr0.
  { destruct (Hd (0 :: r)) as [?|[_ ?]]; congruence. }
  destruct (hi_shape0 r w Hr0) as (k & e & Hk & He & Er). split; [|by exists k, e].
  exists k, e. split_and!; [done|done|]. cbn [snd]. rewrite Er in Hr0. destruct (decide (e = MaxUint64)) as [->|Hmax].
  - right. rewrite (live_records _ _ _ _ Hi) in Hr0 by done. destruct (H top !! k) as [v|] eqn:Hv; [|done].
    injection Hr0 as <-. exists v. split; [|done]. by eapply hi_keys0.
  - destruct (hi_hist0 k e w Hk He Hr0) as [-> _]. destruct (H (e - 1) !! k) as [v|] eqn:Hv; [|by left].
    right. exists v. split; [|done]. by eapply hi_keys0.
Qed.

Lemma Init_ok H top tree kvdb d fuel repFn : history_inv H top tree (rk_map (rdb kvdb)) → compacted kvdb d →
  pruneHeight (filter_ kvdb) ≤ MaxUint64 →
  (∀ r w, rk_map d !! r = Some w → head r = Some 0) → (∀ x, repFn x = Ret tt) → (size (rk_map d) < fuel)%nat →
  ∃ t, NVTree_Init fuel (NewNVTreeMem true) (set_rdb kvdb d) (Some repFn) = Ret t ∧ ∀ k, NVTree_Get t k = Ret (H top !! k).
Proof.
  intros Hi Hd Hph Hzero Hrep Hfuel. destruct bt_TreeNew_ok as [Hok Hm].
  pose proof (items_ascending (λ _, true) (rk_map d)) as Hl. set (l := items _ _) in Hl.
  assert (∀ r, r ∈ l → good_record r ∧ ∃ k e, K k ∧ is_uint64 e ∧ r.1 = rk k e) as Hgood.
  { intros [r w] Hr. apply (proj2 Hl) in Hr as [Hr _]. pose proof (Hzero r w Hr). destruct r as [|b r]; [done|].
    cbn in H0. injection H0 as ->. by eapply compacted_shape. }
  pose proof (ascending_length _ _ _ Hl).
  destruct (init_loop_ok repFn d Hrep l fuel bt_TreeNew (rocks_Iterator (set_rdb kvdb d) (Some []) None) (λ _, true = true)) as (b & E1 & Hb & Mb);
    [done|done|done| |done|intros; by apply Hgood|done|lia|].
  { eapply first_in_iff; [|apply (new_forward_source d (Some []) None)]. intros k. cbn. split; [done|]. intros _. apply bytes_nil_le. }
  unfold NVTree_Init. cbn [require mbind outcome_bind rocksdb NewNVTreeMem bt rdb set_rdb]. rewrite E1. cbn [mbind outcome_bind].
  eexists. split; [reflexivity|]. intros k. unfold NVTree_Get, set_bt. cbn [isWriting negb require mbind outcome_bind bt].
  rewrite bt_Get_ok, Mb, Hm by done. f_equal.
  assert (NoDup l.*1) as Hnd.
  { destruct Hl as [Hs _]. clear - Hs. induction Hs as [|x l Hs IH Hx]; cbn; constructor; [|done].
    rewrite Forall_forall in Hx. intros (y & Ey & Hy)%list_elem_of_fmap. specialize (Hx y Hy). unfold key_lt in Hx. rewrite Ey in Hx.
    by apply (irreflexivity bytes_lt) in Hx. }
  destruct (load_records ∅ l Hnd ltac:(intros; by apply Hgood) k) as [L1 L2].
  destruct (rk_map d !! rk k MaxUint64) as [w|] eqn:Hw.
  - assert ((rk k MaxUint64, w) ∈ l) as Hin by (by apply (proj2 Hl)). rewrite (L1 w Hin).
    destruct (Hgood _ Hin) as (_ & k' & e & Hk & He & Ek). cbn [fst] in Ek. apply rk_inj in Ek as [<- _]; [|apply is_uint64_max|done].
    pose proof (live_records _ _ _ _ Hi k Hk) as Hlive.
    destruct (Hd (rk k MaxUint64)) as [Heq|[_ Heq]]; [|congruence]. rewrite <- Heq, Hw in Hlive.
    destruct (H top !! k) as [v|] eqn:Hv; [|done]. change (le_bytes 8 <$> Some v) with (Some (le_bytes 8 v)) in Hlive.
    apply (inj Some) in Hlive as ->. rewrite le_val_small; [done|].
    by apply (hi_keys _ _ _ _ Hi _ _ _ Hv).
  - rewrite L2 by (intros w Hin; apply (proj2 Hl) in Hin as [Hin _]; congruence). rewrite lookup_empty.
    destruct (H top !! k) as [v|] eqn:Hv; [|done]. exfalso. pose proof (hi_keys _ _ _ _ Hi _ _ _ Hv) as [Hk _].
    pose proof (live_records _ _ _ _ Hi k Hk) as Hlive. rewrite Hv in Hlive.
    rewrite (compacted_keeps _ _ _ Hd) in Hw; [by rewrite Hw in Hlive|]. rewrite Filter_rk by apply is_uint64_max.
    destruct (pruneEnable _); [|done]. cbn. rewrite Z.gtb_ltb. by apply Z.ltb_ge.
Qed.
End history.

(** ** The theorems *)

Section theorems.
Context {D T E : Type} `{HD : !Rocks D} `{!RocksLaws D} `{HT : !BTreeOps Z T E} `{!BTreeLaws Z T E}.
Implicit Types (tree : NVTreeMem T) (kvdb : RocksDB D) (k : bytes).

Definition with_filter kvdb (f : HeightCompactionFilter) : RocksDB D := mkRocksDB (rdb kvdb) f (batch kvdb).

(** C9: after the blocks of any run over a family of keys none of which is a
    prefix of another, each key written at most once in a block, and after any
    compaction, [GetAtHeight] gives the position - or the absence - a key had
    at every height that is not pruned, for keys that are live at that height
    or later; [Get] gives the latest position of every key. Keys whose last
    byte is 255 are excluded: see [GetAtHeight_bound_too_early]. *)
Theorem GetAtHeight_history (K : bytes → Prop) (bs : list (Z * list index_op)) kvdb0 :
  prefix_free K → valid_run K (λ _, ∅, -1) bs → (∀ r, rk_map (rdb kvdb0) !! (0 :: r) = None) →
  ∃ tree kvdb, for_state index_block (NewNVTreeMem true, kvdb0) bs = Ret (tree, kvdb) ∧
    (∀ k h, (∀ b, b ∈ bs → b.1 ≤ h) → -1 ≤ h → NVTree_Get tree k = Ret (contents_at bs h !! k)) ∧
    ∀ f d, compacted (with_filter kvdb f) d →
    ∀ k height later, K k → small_end k → 0 ≤ height < MaxUint64 → (pruneEnable f = true → pruneHeight f < height) →
      height ≤ later → is_Some (contents_at bs later !! k) →
      GetAtHeight tree (set_rdb (with_filter kvdb f) d) k height = Ret (position_of (contents_at bs height !! k)).
Proof.
  intros HK Hv H0. destruct (index_run_ok K bs _ _ _ kvdb0 (history_inv_new K _ H0) Hv) as ([tree kvdb] & E1 & _ & Hi).
  exists tree, kvdb. cbn [fst snd] in Hi. fold (contents_at bs) in Hi. set (top := (foldl _ _ bs).2) in Hi. split; [done|]. split.
  - intros k h Hbs Hh. unfold NVTree_Get. rewrite (hi_writing _ _ _ _ _ Hi). cbn [negb require mbind outcome_bind].
    rewrite (bt_Get_ok _ _ (hi_ok _ _ _ _ _ Hi)), (hi_map _ _ _ _ _ Hi). do 2 f_equal. symmetry. apply (hi_after _ _ _ _ _ Hi).
    subst top. clear - Hbs Hh. destruct bs as [|b bs _] using rev_ind; [done|]. rewrite foldl_app. cbn. apply Hbs. set_solver.
  - intros f d Hd k height later Hk Hend Hh Hp Hle Hs.
    exact (GetAtHeight_ok K HK _ _ _ (with_filter kvdb f) d k height later Hi Hd Hk Hend Hh Hp Hle Hs).
Qed.

(** C39: the bound [GetAtHeight] compares the found record with is written one
    byte too early, over the last byte of the key. In a store whose compaction
    left one up-to-date record, it answers a query for a key that was never
    written with the position of the next key that differs in the last byte,
    and says that a key that ends in 255 does not exist. *)
Theorem GetAtHeight_bound_too_early tree kvdb (p : bytes) (b c v height : Z) :
  rocksdb tree = true → (pruneEnable (filter_ kvdb) = true → pruneHeight (filter_ kvdb) < height) →
  0 ≤ height < MaxUint64 → is_uint64 v → b < c → c < 255 →
  (rk_map (rdb kvdb) = {[ rk (p ++ [c]) MaxUint64 := le_bytes 8 v ]} →
   GetAtHeight tree kvdb (p ++ [b]) height = Ret (v, true)) ∧
  (rk_map (rdb kvdb) = {[ rk (p ++ [255]) MaxUint64 := le_bytes 8 v ]} → (height + 1) mod 256 ≠ 255 →
   GetAtHeight tree kvdb (p ++ [255]) height = Ret (0, false)).
Proof.
  intros Hr Hp Hh Hv Hbc Hc.
  assert (pruneEnable (filter_ kvdb) && (height <=? pruneHeight (filter_ kvdb)) = false) as Hpr.
  { destruct (pruneEnable _); [|done]. cbn. specialize (Hp eq_refl). apply Z.leb_gt. lia. }
  assert (is_uint64 (height + 1)) as Hu by (unfold is_uint64, MaxUint64 in *; lia).
  (* the query finds the only record *)
  assert (∀ k k1, rk_map (rdb kvdb) = {[ rk k1 MaxUint64 := le_bytes 8 v ]} → rk k (height + 1) ≤b rk k1 MaxUint64 →
    GetAtHeight tree kvdb k height =
      if bytes_ltb (splice (rk k (height + 1)) (length k) (be_bytes 8 MaxUint64)) (rk k1 MaxUint64) then Ret (0, false) else Ret (v, true)) as Hone.
  { intros k k1 Hm Hle. unfold GetAtHeight. rewrite Hr. cbn [require mbind outcome_bind GetPruneHeight]. rewrite Hpr, seek_key_rk by done.
    unfold rocks_Iterator, newRocksDBIterator.
    pose proof (rk_Seek_first (rdb kvdb) (rk k (height + 1))) as Hf. rewrite Hm in Hf.
    rewrite (first_in_unique _ _ _ (Some (rk k1 MaxUint64, le_bytes 8 v)) Hf).
    2:{ split_and!; [apply lookup_singleton_eq|done|]. intros k' _ [w Hw]. apply lookup_singleton_Some in Hw as [<- _]. apply bytes_le_refl. }
    cbn [it_Valid source isReverse it_end negb it_Key it_Value assertIsValid mbind outcome_bind mret outcome_ret].
    rewrite zlen_le_bytes. cbn [Z.eqb]. by rewrite LE_Uint64_enc. }
  assert (∀ e x y, rk (p ++ [x]) e = (0 :: p) ++ (x :: be_bytes 8 e) ∧
    splice (rk (p ++ [x]) e) (length (p ++ [x])) (be_bytes 8 y) = (0 :: p) ++ be_bytes 8 y ++ drop 7 (be_bytes 8 e)) as Hform.
  { intros e x y. assert (rk (p ++ [x]) e = (0 :: p) ++ (x :: be_bytes 8 e)) as E1 by (unfold rk, record_key; by rewrite <- !app_assoc).
    split; [done|]. rewrite E1. rewrite length_app. change (length [x]) with 1%nat.
    replace (length p + 1)%nat with (length (0%Z :: p) + 0)%nat by (cbn; lia). rewrite splice_app_r. unfold splice. cbn [firstn app].
    by rewrite !length_be_bytes. }
  assert (∀ x y e e', x < y → rk (p ++ [x]) e <b rk (p ++ [y]) e') as Hlt.
  { intros x y e e' Hxy. rewrite (proj1 (Hform e x 0)), (proj1 (Hform e' y 0)). unfold bytes_lt. rewrite bytes_compare_prefix.
    cbn [bytes_compare]. by rewrite (proj2 (Z.compare_lt_iff x y)). }
  split.
  - intros Hm. rewrite (Hone _ _ Hm) by (by apply bytes_lt_le, Hlt). rewrite (proj2 (bytes_ltb_ge _ _)); [done|].
    apply bytes_lt_le. rewrite (proj2 (Hform _ b _)), (proj1 (Hform _ c 0)). unfold bytes_lt. rewrite bytes_compare_prefix.
    change (be_bytes 8 MaxUint64) with (replicate 8 255). cbn [replicate app bytes_compare]. by rewrite (proj2 (Z.compare_lt_iff c 255)).
  - intros Hm Hlow. rewrite (Hone _ _ Hm) by (apply rk_same_le; [done|apply is_uint64_max|lia]).
    rewrite (proj2 (bytes_ltb_lt _ _)); [done|]. rewrite (proj2 (Hform _ 255 _)), (proj1 (Hform MaxUint64 255 0)).
    unfold bytes_lt. rewrite bytes_compare_prefix, (be_bytes_S 7 (height + 1)), drop_app_length' by (by rewrite length_be_bytes).
    change (be_bytes 8 MaxUint64) with (replicate 8 255). cbn [replicate app bytes_compare Z.compare Pos.compare Pos.compare_cont].
    rewrite (proj2 (Z.compare_lt_iff _ 255)); [done|]. pose proof (Z.mod_pos_bound (height + 1) 256). lia.
Qed.

(** C28: on a store that holds index records only, [Init] with a [repFn]
    rebuilds, after any compaction, the positions of the index that wrote the
    records. On a store that also holds metadata, as that of the program does,
    it does not return: see [Init_never_returns]. *)
Theorem Init_rebuilds_index (K : bytes → Prop) (bs : list (Z * list index_op)) kvdb0 f d repFn fuel :
  valid_run K (λ _, ∅, -1) bs → (∀ r, rk_map (rdb kvdb0) !! (0 :: r) = None) → pruneHeight f ≤ MaxUint64 → (∀ x, repFn x = Ret tt) →
  ∃ tree kvdb, for_state index_block (NewNVTreeMem true, kvdb0) bs = Ret (tree, kvdb) ∧
    (compacted (with_filter kvdb f) d → (∀ r w, rk_map d !! r = Some w → head r = Some 0) → (size (rk_map d) < fuel)%nat →
     ∃ t, NVTree_Init fuel (NewNVTreeMem true) (set_rdb (with_filter kvdb f) d) (Some repFn) = Ret t ∧
       ∀ k, NVTree_Get t k = NVTree_Get tree k).
Proof.
  intros Hv H0 Hph Hrep. destruct (index_run_ok K bs _ _ _ kvdb0 (history_inv_new K _ H0) Hv) as ([tree kvdb] & E1 & _ & Hi).
  exists tree, kvdb. split; [done|]. cbn [fst snd] in Hi. intros Hd Hzero Hfuel.
  destruct (Init_ok K _ _ _ (with_filter kvdb f) d fuel repFn Hi Hd Hph Hzero Hrep Hfuel) as (t & Et & Ht).
  exists t. split; [done|]. intros k. rewrite Ht. unfold NVTree_Get. rewrite (hi_writing _ _ _ _ _ Hi). cbn [negb require mbind outcome_bind].
  by rewrite (bt_Get_ok _ _ (hi_ok _ _ _ _ _ Hi)), (hi_map _ _ _ _ _ Hi).
Qed.

(** [Init] never returns from a store that holds a record whose key does
    not start with zero, as every store with metadata does: the loop does not
    move past it. *)
Theorem Init_never_returns tree kvdb b r w repFn fuel :
  rk_map (rdb kvdb) !! (b :: r) = Some w → 0 < b → is_ret (NVTree_Init fuel tree kvdb repFn) = false.
Proof.
  intros Hw Hb. unfold NVTree_Init. destruct (rocksdb tree); [|done]. cbn [require mbind outcome_bind].
  assert (∀ fuel b0 itr (P : bytes → Prop), isReverse itr = false → it_end itr = None → first_in (rk_map (rdb kvdb)) P (source itr) →
    P (b :: r) → is_ret (init_loop fuel repFn (rdb kvdb) b0 itr) = false) as Hloop.
  { clear fuel. induction fuel as [|fuel IH]; intros b0 itr P Hr He Hsrc HP; [done|]. cbn [init_loop].
    destruct (source itr) as [[k v]|] eqn:Hs; [|by rewrite (Hsrc _ HP) in Hw].
    assert (it_Valid itr = true) as HV by (unfold it_Valid; by rewrite Hs, Hr, He).
    rewrite HV. unfold it_Key, it_Value, it_Next, assertIsValid. rewrite Hs, HV. cbn [mbind outcome_bind mret outcome_ret].
    destruct k as [|k0 k]; [done|]. rewrite (index_zget _ 0 k0) by done. cbn [mbind outcome_bind].
    destruct (Z.eqb_spec k0 0) as [->|]; cbn [negb]; [|by apply (IH _ _ P); rewrite ?Hs].
    destruct (init_record _ _ _ _) as [b1|]; [|done]. cbn [mbind outcome_bind]. rewrite Hr, He.
    apply (IH _ _ (λ k', (0 :: k) <b k')); [done|done|apply rk_Next_first|]. unfold bytes_lt. cbn.
    by destruct b. }
  specialize (Hloop fuel (bt tree) (rocks_Iterator kvdb (Some []) None) (above (Some []))
    eq_refl eq_refl (new_forward_source _ _ _) (bytes_nil_le _)).
  by destruct (init_loop _ _ _ _ _).
Qed.
End theorems.

(** ** Witnesses *)

Definition two_bytes (k : bytes) : Prop := length k = 2%nat.
Lemma two_bytes_prefix_free : prefix_free two_bytes.
Proof. intros k k' H1 H2 [l ->]. unfold two_bytes in *. rewrite length_app in H2. destruct l; [by rewrite app_nil_r|cbn in *; lia]. Qed.

Definition index_blocks : list (Z * list index_op) :=
  [(3, [IxSet [1; 2] 100; IxSet [1; 3] 200]); (5, [IxSet [1; 2] 300; IxDelete [1; 3]]); (6, [])].
Definition empty_store : RocksDB (gmap bytes bytes) := NewRocksDB ∅.
Definition history_filter : HeightCompactionFilter := mkFilter 4 true.
Definition new_index : NVTreeMem (gmap bytes Z) := NewNVTreeMem (HT := map_btree) true.

Lemma index_blocks_valid : valid_run two_bytes (λ _, ∅, -1) index_blocks.
Proof.
  assert (∀ m ops, NoDup (op_key <$> ops) → Forall (valid_op two_bytes m) ops → valid_block two_bytes m ops) as Hvb.
  { intros m ops Hnd Hops. split; [done|]. by rewrite Forall_forall in Hops. }
  repeat (split; [cbn; lia|split; [apply Hvb; [vm_decide|]|]]); [..|exact I].
  all: repeat (apply Forall_cons; split); try apply Forall_nil; try done.
  all: split; [reflexivity|cbn; first [unfold is_uint64; lia|vm_decide]].
Qed.

(** The index after the blocks. *)
Definition final_index : NVTreeMem (gmap bytes Z) * RocksDB (gmap bytes bytes) :=
  match for_state index_block (new_index, empty_store) index_blocks with Ret s => s | Panic _ => (new_index, empty_store) end.
Definition compacted_store : gmap bytes bytes := filter (λ r, Filter history_filter r.1 = false) (rdb final_index.2).

Lemma compacted_store_ok : compacted (with_filter final_index.2 history_filter) compacted_store.
Proof.
  intros k. cbn [with_filter rdb rk_map map_rocks_laws id filter_]. unfold compacted_store.
  destruct (Filter history_filter k) eqn:Hf.
  - right. split; [done|]. apply map_lookup_filter_None_2. right. intros w _ H. cbn in H. congruence.
  - left. destruct (rdb final_index.2 !! k) as [w|] eqn:Hw.
    + by apply map_lookup_filter_Some_2.
    + apply map_lookup_filter_None_2. by left.
Qed.

Lemma GetAtHeight_history_witness :
  (GetAtHeight final_index.1 (set_rdb (with_filter final_index.2 history_filter) compacted_store) [1; 2] 5 = Ret (300, true) ∧
   is_Some (contents_at index_blocks 6 !! [1; 2])) ∧
  ∃ tree kvdb, for_state index_block (new_index, empty_store) index_blocks = Ret (tree, kvdb) ∧
    (∀ k h, (∀ b, b ∈ index_blocks → b.1 ≤ h) → -1 ≤ h → NVTree_Get tree k = Ret (contents_at index_blocks h !! k)) ∧
    ∀ f d, compacted (with_filter kvdb f) d →
    ∀ k height later, two_bytes k → small_end k → 0 ≤ height < MaxUint64 → (pruneEnable f = true → pruneHeight f < height) →
      height ≤ later → is_Some (contents_at index_blocks later !! k) →
      GetAtHeight tree (set_rdb (with_filter kvdb f) d) k height = Ret (position_of (contents_at index_blocks height !! k)).
Proof.
  split; [split; [vm_compute; reflexivity|by vm_decide]|].
  apply (GetAtHeight_history two_bytes index_blocks empty_store two_bytes_prefix_free index_blocks_valid).
  intros r. reflexivity.
Defined.

(** The store that one block and a compaction leave. *)
Definition one_record (k : bytes) (v : Z) : RocksDB (gmap bytes bytes) :=
  mkRocksDB {[ rk k MaxUint64 := le_bytes 8 v ]} (mkFilter 10 true) None.
Definition one_block (k : bytes) (v : Z) : RocksDB (gmap bytes bytes) :=
  match index_block (new_index, empty_store) (3, [IxSet k v]) with
  | Ret s => set_rdb s.2 (filter (λ r, Filter (mkFilter 10 true) r.1 = false) (rdb s.2))
  | Panic _ => empty_store
  end.

Lemma GetAtHeight_bound_too_early_witness :
  rdb (one_record [7; 9] 42) = rdb (one_block [7; 9] 42) ∧ rdb (one_record [7; 255] 42) = rdb (one_block [7; 255] 42) ∧
  GetAtHeight new_index (one_record [7; 9] 42) [7; 8] 20 = Ret (42, true) ∧
  GetAtHeight new_index (one_record [7; 255] 42) [7; 255] 20 = Ret (0, false).
Proof.
  split; [vm_compute; reflexivity|]. split; [vm_compute; reflexivity|].
  assert (0 ≤ 20 < MaxUint64) as H1 by (unfold MaxUint64; lia).
  assert (is_uint64 42) as H2 by (unfold is_uint64; lia).
  split.
  - apply (proj1 (GetAtHeight_bound_too_early new_index (one_record [7; 9] 42) [7] 8 9 42 20 eq_refl (λ _, eq_refl) H1 H2 eq_refl eq_refl)).
    reflexivity.
  - apply (proj2 (GetAtHeight_bound_too_early new_index (one_record [7; 255] 42) [7] 8 9 42 20 eq_refl (λ _, eq_refl) H1 H2 eq_refl eq_refl));
      [reflexivity|by vm_decide].
Defined.

Definition silent (_ : bytes) : outcome unit := Ret tt.

Lemma compacted_store_zero r w : rk_map compacted_store !! r = Some w → head r = Some 0.
Proof.
  change (rk_map compacted_store) with compacted_store. intros H%map_lookup_filter_Some_1_1.
  assert (map_Forall (λ r' _, head r' = Some 0) (rdb final_index.2)) as Hall by vm_decide. by apply (Hall r w).
Qed.

Lemma Init_rebuilds_index_witness :
  (compacted (with_filter final_index.2 history_filter) compacted_store ∧ (∀ r w, rk_map compacted_store !! r = Some w → head r = Some 0) ∧
   (size (rk_map compacted_store) < 10)%nat) ∧
  ∃ tree kvdb, for_state index_block (new_index, empty_store) index_blocks = Ret (tree, kvdb) ∧
    (compacted (with_filter kvdb history_filter) compacted_store → (∀ r w, rk_map compacted_store !! r = Some w → head r = Some 0) →
     (size (rk_map compacted_store) < 10)%nat →
     ∃ t, NVTree_Init 10 new_index (set_rdb (with_filter kvdb history_filter) compacted_store) (Some silent) = Ret t ∧
       ∀ k, NVTree_Get t k = NVTree_Get tree k).
Proof.
  split; [split_and!; [exact compacted_store_ok|exact compacted_store_zero|vm_compute; lia]|].
  apply (Init_rebuilds_index two_bytes index_blocks empty_store history_filter compacted_store silent 10 index_blocks_valid);
    [intros r; reflexivity|unfold MaxUint64; cbn; lia|intros x; reflexivity].
Defined.

Lemma Init_never_returns_witness :
  (rdb meta_store !! [ByteIsRunning] = None ∧ rdb (SetIsRunning meta_store true) !! [ByteIsRunning] = Some [1] ∧ 0 < ByteIsRunning) ∧
  is_ret (NVTree_Init 1000 new_index (SetIsRunning meta_store true) (Some silent)) = false.
Proof.
  split; [split_and!; [reflexivity|vm_compute; reflexivity|reflexivity]|].
  apply (Init_never_returns new_index (SetIsRunning meta_store true) ByteIsRunning [] [1] (Some silent) 1000); [vm_compute; reflexivity|reflexivity].
Defined.
