(* ===== verification/DataTreeSpec.v ===== *)
(** * What the store relies on: the interface of the data tree

    [types.DataTree] of types/types.go as the class [DataTreeOps], and what its
    methods promise to the store as the class [DataTreeLaws]: serial numbers
    are given out in order, an appended entry can be read at its position once
    the block has ended, deactivation clears one serial number, and the entries
    of the oldest twig can be moved to the end. *)
From S2P Require Import Prelude Types EntryCodec.

Class DataTreeOps (DT : Type) : Type := {
  dt_DeactiviateEntry : DT → Z → outcome (DT * Z);
  dt_AppendEntry : DT → Entry → outcome (DT * Z);
  dt_AppendEntryRawBytes : DT → bytes → Z → outcome (DT * Z);
  dt_ReadEntry : DT → Z → outcome (DT * Entry);
  dt_GetActiveEntriesInTwig : DT → Z → outcome (DT * list bytes);
  dt_EvictTwig : DT → Z → outcome DT;
  dt_ScanEntriesLite : DT → Z → outcome (DT * list KeyAndPos);
  dt_TwigCanBePruned : DT → Z → bool;
  dt_PruneTwigs : DT → Z → Z → outcome (DT * bytes);
  dt_GetFileSizes : DT → Z * Z;
  dt_EndBlock : DT → outcome (DT * bytes)
}.

Class DataTreeLaws (DT : Type) `{!DataTreeOps DT} : Type := {
  dt_ok : DT → Prop;
  (** everything appended can be read *)
  dt_synced : DT → Prop;
  (** the next serial number *)
  dt_next : DT → Z;
  (** how many deactivations wait for the next entry *)
  dt_pending : DT → Z;
  (** the entries by position, and the active serial numbers *)
  dt_entries : DT → gmap Z Entry;
  dt_live : DT → gset Z;
  (** the capacity: serial numbers, and keys and values of one entry *)
  dt_max : Z;
  dt_fits : bytes → bytes → bytes → Prop;
  (** the first serial number after which a block can end *)
  dt_first : Z;
  (** whether the tree gives entries back, so that a twig can be compacted, and
      up to which serial number it does *)
  dt_compacts : Prop;
  dt_compact_max : Z;
  (** the first twig in memory, and how many entries are in the storage *)
  dt_oldest : DT → Z;
  dt_flushed : DT → Z;

  dt_DeactiviateEntry_ok d sn : dt_ok d → sn ∈ dt_live d → dt_pending d < 255 →
    ∃ d' n, dt_DeactiviateEntry d sn = Ret (d', n) ∧ dt_ok d' ∧ dt_next d' = dt_next d ∧
      dt_pending d' = n ∧ n ≤ dt_pending d + 1 ∧ dt_entries d' = dt_entries d ∧ dt_live d' = dt_live d ∖ {[ sn ]} ∧
      dt_oldest d' = dt_oldest d ∧ dt_flushed d' = dt_flushed d;

  dt_AppendEntry_ok d e v : dt_ok d → SerialNum e = dt_next d → dt_next d < dt_max → Value e = Some v →
    dt_fits (Key e) v (NextKey e) → is_int64 (Height e) → is_int64 (LastHeight e) → dt_pending d ≤ 255 →
    ∃ d' pos, dt_AppendEntry d e = Ret (d', pos) ∧ dt_ok d' ∧ dt_next d' = dt_next d + 1 ∧ dt_pending d' = 0 ∧
      0 ≤ pos < 2 ^ 63 ∧ dt_entries d !! pos = None ∧ dt_entries d' = <[pos := e]> (dt_entries d) ∧
      dt_live d' = {[ dt_next d ]} ∪ dt_live d ∧ dt_oldest d' = dt_oldest d ∧ dt_flushed d' = dt_flushed d;

  dt_ReadEntry_ok d pos e : dt_ok d → dt_synced d → dt_entries d !! pos = Some e → SerialNum e ∈ dt_live d →
    ∃ d', dt_ReadEntry d pos = Ret (d', e) ∧ dt_ok d' ∧ dt_synced d' ∧ dt_next d' = dt_next d ∧
      dt_pending d' = dt_pending d ∧ dt_entries d' = dt_entries d ∧ dt_live d' = dt_live d ∧
      dt_oldest d' = dt_oldest d ∧ dt_flushed d' = dt_flushed d;

  dt_EndBlock_ok d : dt_ok d → dt_first ≤ dt_next d →
    ∃ d' root, dt_EndBlock d = Ret (d', root) ∧ dt_ok d' ∧ dt_synced d' ∧ dt_next d' = dt_next d ∧
      dt_pending d' = dt_pending d ∧ dt_entries d' = dt_entries d ∧ dt_live d' = dt_live d ∧
      dt_oldest d' = dt_oldest d ∧ (dt_compacts → dt_flushed d' = dt_next d);

  (** *** Compaction: the active entries of the oldest twig are read raw and
      appended again with new serial numbers, then the twig is evicted. *)

  dt_GetActiveEntriesInTwig_ok d : dt_compacts → dt_ok d → (dt_oldest d + 1) * 2048 < dt_flushed d → dt_next d ≤ dt_compact_max →
    ∃ d' raws, dt_GetActiveEntriesInTwig d (dt_oldest d) = Ret (d', raws) ∧ dt_ok d' ∧ dt_next d' = dt_next d ∧
      dt_pending d' = dt_pending d ∧ dt_entries d' = dt_entries d ∧ dt_live d' = dt_live d ∧
      dt_oldest d' = dt_oldest d ∧ dt_flushed d' = dt_flushed d ∧
      Forall2 (λ sn raw, ∀ pos e, dt_entries d !! pos = Some e → SerialNum e = sn → entry_ok e ∧ ∃ n, raw = raw_bytes n e)
        (filter (λ sn, sn ∈ dt_live d) (seqZ (dt_oldest d * 2048) 2048)) raws;

  dt_AppendEntryRawBytes_ok d e v n : dt_compacts → dt_ok d → SerialNum e = dt_next d → dt_next d < dt_max → Value e = Some v →
    dt_fits (Key e) v (NextKey e) → is_int64 (Height e) → is_int64 (LastHeight e) → dt_pending d ≤ 255 →
    ∃ d' pos, dt_AppendEntryRawBytes d (raw_bytes n e) (dt_next d) = Ret (d', pos) ∧ dt_ok d' ∧ dt_next d' = dt_next d + 1 ∧ dt_pending d' = 0 ∧
      0 ≤ pos < 2 ^ 63 ∧ dt_entries d !! pos = None ∧ dt_entries d' = <[pos := e]> (dt_entries d) ∧
      dt_live d' = {[ dt_next d ]} ∪ dt_live d ∧ dt_oldest d' = dt_oldest d ∧ dt_flushed d' = dt_flushed d;

  dt_EvictTwig_ok d : dt_compacts → dt_ok d → (∀ sn, sn ∈ dt_live d → (dt_oldest d + 1) * 2048 ≤ sn) → (dt_oldest d + 1) * 2048 ≤ dt_next d →
    ∃ d', dt_EvictTwig d (dt_oldest d) = Ret d' ∧ dt_ok d' ∧ dt_next d' = dt_next d ∧ dt_pending d' = dt_pending d ∧
      dt_entries d' = dt_entries d ∧ dt_live d' = dt_live d ∧ dt_oldest d' = dt_oldest d + 1 ∧ dt_flushed d' = dt_flushed d;

  dt_live_next d sn : dt_ok d → sn ∈ dt_live d → 0 ≤ sn < dt_next d;
  dt_live_oldest d sn : dt_ok d → sn ∈ dt_live d → dt_oldest d * 2048 ≤ sn;
  dt_oldest_nonneg d : dt_ok d → 0 ≤ dt_oldest d;
  dt_flushed_next d : dt_ok d → dt_flushed d ≤ dt_next d;
  dt_pending_nonneg d : dt_ok d → 0 ≤ dt_pending d;
  dt_max_bound : dt_max < 2 ^ 63
}.
