(* ===== verification/MockDataTree.v ===== *)
(** * The mock data tree (datatree/mock_datatree.go)

    Entries in arrays, by serial number, without files. It implements the
    interface of the data tree, and keeps what the store relies on, as long as
    no twig is evicted; the number of appended entries, which it does not
    record, is kept beside it. *)
From S2P Require Import Prelude Types EntryCodec Twig DataTreeSpec.

Record MockTwig : Type := mkMockTwig { mk_activeBits : list bool; mk_entries : list Entry }.
Notation MockDataTree := (gmap Z MockTwig).

Definition zero_entry : Entry := mkEntry [] None [] 0 0 0.
Definition zero_MockTwig : MockTwig := mkMockTwig (replicate 2048 false) (replicate 2048 zero_entry).
Definition NewMockDataTree : MockDataTree := {[ 0 := zero_MockTwig ]}.

(** [dt.twigs\[twigID\]], dereferenced *)
Definition mock_twig (dt : MockDataTree) (twigID : Z) : outcome MockTwig :=
  match dt !! twigID with Some t => mret t | None => Panic "nil pointer dereference" end.

Definition Mock_DeactiviateEntry (dt : MockDataTree) (sn : Z) : outcome (MockDataTree * Z) :=
  let twigID := Z.shiftr sn TwigShift in
  t ← mock_twig dt twigID;
  bits ← store_index (mk_activeBits t) (Z.land sn TwigMask) false;
  mret (<[twigID := mkMockTwig bits (mk_entries t)]> dt, 0).

Definition Mock_AppendEntry (dt : MockDataTree) (entry : Entry) : outcome (MockDataTree * Z) :=
  let sn := SerialNum entry in
  let twigID := Z.shiftr sn TwigShift in
  t ← mock_twig dt twigID;
  es ← store_index (mk_entries t) (Z.land sn TwigMask) entry;
  bits ← store_index (mk_activeBits t) (Z.land sn TwigMask) true;
  let dt := <[twigID := mkMockTwig bits es]> dt in
  let dt := if Z.land sn TwigMask =? TwigMask then <[twigID + 1 := zero_MockTwig]> dt else dt in
  mret (dt, to_int64 (sn * 1024)).

Definition Mock_AppendEntryRawBytes (dt : MockDataTree) (entryBz : bytes) (sn : Z) : outcome (MockDataTree * Z) :=
  e ← EntryFromRawBytes entryBz; Mock_AppendEntry dt e.

(** [None] is a nil entry: the one that was deactivated. *)
Definition Mock_ReadEntry (dt : MockDataTree) (pos : Z) : outcome (option Entry) :=
  let sn := Z.quot pos 1024 in
  t ← mock_twig dt (Z.shiftr sn TwigShift);
  active ← index (mk_activeBits t) (Z.land sn TwigMask);
  if negb (active : bool) then mret None else
  e ← index (mk_entries t) (Z.land sn TwigMask); mret (Some e).

Definition Mock_GetActiveBit (dt : MockDataTree) (sn : Z) : outcome bool :=
  t ← mock_twig dt (Z.shiftr sn TwigShift);
  index (mk_activeBits t) (Z.land sn TwigMask).

Definition Mock_EvictTwig (dt : MockDataTree) (twigID : Z) : MockDataTree := delete twigID dt.

(** What the goroutine sends; it never closes the channel. *)
Definition Mock_GetActiveEntriesInTwig (dt : MockDataTree) (twigID : Z) : outcome (list bytes) :=
  t ← mock_twig dt twigID;
  mret (omap (λ p : bool * Entry, if p.1 then Some (EntryToBytes p.2 []) else None) (zip (mk_activeBits t) (mk_entries t))).

Definition Mock_TwigCanBePruned (dt : MockDataTree) (twigID : Z) : bool := bool_decide (dt !! twigID = None).

(** ** As the data tree of a store *)

Record CountedMock : Type := mkCountedMock { cm_tree : MockDataTree; cm_next : Z }.

(** A nil entry is dereferenced by every caller; a range over the channel that
    is never closed does not end. *)
#[export] Instance mock_ops : DataTreeOps CountedMock := {|
  dt_DeactiviateEntry c sn := '(t, n) ← Mock_DeactiviateEntry (cm_tree c) sn; mret (mkCountedMock t (cm_next c), n);
  dt_AppendEntry c e := '(t, pos) ← Mock_AppendEntry (cm_tree c) e; mret (mkCountedMock t (cm_next c + 1), pos);
  dt_AppendEntryRawBytes c bz sn := '(t, pos) ← Mock_AppendEntryRawBytes (cm_tree c) bz sn; mret (mkCountedMock t (cm_next c + 1), pos);
  dt_ReadEntry c pos :=
    oe ← Mock_ReadEntry (cm_tree c) pos;
    match oe with Some e => mret (c, e) | None => Panic "nil pointer dereference" end;
  dt_GetActiveEntriesInTwig c twigID := _ ← Mock_GetActiveEntriesInTwig (cm_tree c) twigID; Panic "the channel is never closed";
  dt_EvictTwig c twigID := mret (mkCountedMock (Mock_EvictTwig (cm_tree c) twigID) (cm_next c));
  dt_ScanEntriesLite c _ := Panic "ScanEntriesLite not implemented.";
  dt_TwigCanBePruned c twigID := Mock_TwigCanBePruned (cm_tree c) twigID;
  dt_PruneTwigs c _ _ := mret (c, []);
  dt_GetFileSizes c := (0, 0);
  dt_EndBlock c := mret (c, [])
|}.

Definition entry_at (dt : MockDataTree) (sn : Z) : Entry :=
  default zero_entry (t ← dt !! (sn / 2048); zget (mk_entries t) (sn mod 2048)).
Definition active_at (dt : MockDataTree) (sn : Z) : bool :=
  default false (t ← dt !! (sn / 2048); zget (mk_activeBits t) (sn mod 2048)).

Definition twig_wf (t : MockTwig) : Prop := zlen (mk_activeBits t) = 2048 ∧ zlen (mk_entries t) = 2048.

Record mock_ok (c : CountedMock) : Prop := {
  mo_next : 0 ≤ cm_next c ≤ 2 ^ 53;
  mo_twig id : 0 ≤ id ≤ cm_next c / 2048 → ∃ t, cm_tree c !! id = Some t ∧ twig_wf t;
  mo_serial sn : 0 ≤ sn < cm_next c → SerialNum (entry_at (cm_tree c) sn) = sn
}.

Definition mock_entries (c : CountedMock) : gmap Z Entry :=
  list_to_map ((λ sn, (sn * 1024, entry_at (cm_tree c) sn)) <$> seqZ 0 (cm_next c)).
Definition mock_live (c : CountedMock) : gset Z :=
  list_to_set (filter (λ sn, active_at (cm_tree c) sn = true) (seqZ 0 (cm_next c))).

Lemma mock_sn sn : 0 ≤ sn → Z.shiftr sn TwigShift = sn / 2048 ∧ Z.land sn TwigMask = sn mod 2048 ∧ 0 ≤ sn mod 2048 < 2048.
Proof.
  intros Hsn. split_and!; [by rewrite Z.shiftr_div_pow2 by (unfold TwigShift; lia)|by apply (Z.land_ones sn 11)|zdiv..].
Qed.

Lemma mock_entries_lookup c pos e : mock_entries c !! pos = Some e ↔ ∃ sn, pos = sn * 1024 ∧ 0 ≤ sn < cm_next c ∧ e = entry_at (cm_tree c) sn.
Proof.
  unfold mock_entries. rewrite <- elem_of_list_to_map, list_elem_of_fmap.
  - split.
    + intros (sn & [= -> ->] & Hsn%elem_of_seqZ). exists sn. split_and!; [done|lia|lia|done].
    + intros (sn & -> & Hsn & ->). exists sn. split; [done|]. apply elem_of_seqZ. lia.
  - rewrite <- list_fmap_compose. apply NoDup_fmap_2; [|apply NoDup_seqZ]. intros x y. cbn. lia.
Qed.
Lemma mock_live_elem c sn : sn ∈ mock_live c ↔ 0 ≤ sn < cm_next c ∧ active_at (cm_tree c) sn = true.
Proof. unfold mock_live. rewrite elem_of_list_to_set, list_elem_of_filter, elem_of_seqZ. naive_solver lia. Qed.
Lemma mock_entries_none c pos : (∀ sn, 0 ≤ sn < cm_next c → pos ≠ sn * 1024) → mock_entries c !! pos = None.
Proof.
  intros H. destruct (mock_entries c !! pos) as [e|] eqn:He; [|done]. apply mock_entries_lookup in He as (sn & -> & Hsn & _). by destruct (H sn Hsn).
Qed.

(** Replacing the twig of a serial number. *)
Lemma entry_at_insert dt sn t t' sn' e : 0 ≤ sn → 0 ≤ sn' → dt !! (sn / 2048) = Some t → mk_entries t' = zset (mk_entries t) (sn mod 2048) e →
  twig_wf t → entry_at (<[sn / 2048 := t']> dt) sn' = if decide (sn' = sn) then e else entry_at dt sn'.
Proof.
  intros H1 H2 Ht Ht' [_ Hl]. unfold entry_at. destruct (decide (sn' / 2048 = sn / 2048)) as [Heq|Hne].
  - rewrite Heq, lookup_insert_eq, Ht. cbn. rewrite Ht'. case_decide as Hs.
    + subst. rewrite zget_set_eq by (rewrite Hl; zdiv). done.
    + rewrite zget_set_ne; [done|]. zdiv.
  - rewrite lookup_insert_ne by done. rewrite decide_False; [done|]. by intros ->.
Qed.
Lemma active_at_insert dt sn t t' sn' b : 0 ≤ sn → 0 ≤ sn' → dt !! (sn / 2048) = Some t → mk_activeBits t' = zset (mk_activeBits t) (sn mod 2048) b →
  twig_wf t → active_at (<[sn / 2048 := t']> dt) sn' = if decide (sn' = sn) then b else active_at dt sn'.
Proof.
  intros H1 H2 Ht Ht' [Hl _]. unfold active_at. destruct (decide (sn' / 2048 = sn / 2048)) as [Heq|Hne].
  - rewrite Heq, lookup_insert_eq, Ht. cbn. rewrite Ht'. case_decide as Hs.
    + subst. rewrite zget_set_eq by (rewrite Hl; zdiv). done.
    + rewrite zget_set_ne; [done|]. zdiv.
  - rewrite lookup_insert_ne by done. rewrite decide_False; [done|]. by intros ->.
Qed.
Lemma at_other dt id t sn' : id ≠ sn' / 2048 → entry_at (<[id := t]> dt) sn' = entry_at dt sn' ∧ active_at (<[id := t]> dt) sn' = active_at dt sn'.
Proof. intros Hne. unfold entry_at, active_at. by rewrite !lookup_insert_ne. Qed.

Lemma mock_entries_ext c c' : cm_next c' = cm_next c → (∀ sn, 0 ≤ sn < cm_next c → entry_at (cm_tree c') sn = entry_at (cm_tree c) sn) →
  mock_entries c' = mock_entries c.
Proof.
  intros Hn He. apply map_eq. intros pos. apply option_eq. intros e. rewrite !mock_entries_lookup, Hn.
  split; intros (sn & -> & Hsn & ->); exists sn; (split_and!; [done|lia|lia|]); by rewrite He.
Qed.

Lemma mock_deactiviate c sn : mock_ok c → sn ∈ mock_live c →
  ∃ c', dt_DeactiviateEntry c sn = Ret (c', 0) ∧ mock_ok c' ∧ cm_next c' = cm_next c ∧
    mock_entries c' = mock_entries c ∧ mock_live c' = mock_live c ∖ {[ sn ]}.
Proof.
  intros [Hn Ht Hs] [Hsn _]%mock_live_elem. destruct (mock_sn sn ltac:(lia)) as (E1 & E2 & Hoff).
  destruct (Ht (sn / 2048)) as (t & Et & Hwf); [zdiv|]. pose proof Hwf as [Hb He].
  cbn. unfold Mock_DeactiviateEntry, mock_twig. rewrite E1, E2, Et. cbn [mbind outcome_bind mret outcome_ret].
  rewrite store_index_Ret by lia. cbn [mbind outcome_bind mret outcome_ret]. eexists. split; [reflexivity|].
  set (t' := mkMockTwig _ _).
  assert (∀ sn', 0 ≤ sn' → entry_at (<[sn / 2048 := t']> (cm_tree c)) sn' = entry_at (cm_tree c) sn') as Hent.
  { intros sn' Hsn'. unfold entry_at. destruct (decide (sn' / 2048 = sn / 2048)) as [->|Hne]; [|by rewrite lookup_insert_ne]. by rewrite lookup_insert_eq, Et. }
  split_and!; cbn; [|done| |].
  - split; cbn; [done| |].
    + intros id Hid. destruct (decide (id = sn / 2048)) as [->|Hne]; [|rewrite lookup_insert_ne by done; by apply Ht].
      exists t'. rewrite lookup_insert_eq. split; [done|]. split; cbn; [by rewrite zlen_zset|done].
    + intros sn' Hsn'. rewrite Hent by lia. by apply Hs.
  - apply mock_entries_ext; [done|]. intros sn' Hsn'. apply Hent. lia.
  - apply set_eq. intros sn'. rewrite elem_of_difference, elem_of_singleton, !mock_live_elem. cbn.
    destruct (decide (0 ≤ sn' < cm_next c)) as [Hin|Hno]; [|naive_solver].
    rewrite (active_at_insert _ sn t t' sn' false) by (done || lia). case_decide; naive_solver.
Qed.

Lemma mock_append c e : mock_ok c → SerialNum e = cm_next c → cm_next c < 2 ^ 53 →
  ∃ c', dt_AppendEntry c e = Ret (c', cm_next c * 1024) ∧ mock_ok c' ∧ cm_next c' = cm_next c + 1 ∧
    mock_entries c !! (cm_next c * 1024) = None ∧ mock_entries c' = <[cm_next c * 1024 := e]> (mock_entries c) ∧
    mock_live c' = {[ cm_next c ]} ∪ mock_live c.
Proof.
  intros [Hn Ht Hs] He Hmax. set (sn := cm_next c) in *. destruct (mock_sn sn ltac:(lia)) as (E1 & E2 & Hoff).
  destruct (Ht (sn / 2048)) as (t & Et & Hwf); [zdiv|]. pose proof Hwf as [Hb Hl].
  cbn. unfold Mock_AppendEntry, mock_twig. rewrite He, E1, E2, Et. cbn [mbind outcome_bind mret outcome_ret].
  rewrite !store_index_Ret by lia. cbn [mbind outcome_bind mret outcome_ret]. fold sn.
  assert (to_int64 (sn * 1024) = sn * 1024) as -> by (rewrite <- (Z.mod_small (sn * 1024) (2 ^ 64)) at 2 by lia; unfold to_int64, to_int; rewrite (proj2 (Z.ltb_lt _ _)); [done|rewrite Z.mod_small; lia]).
  eexists. split; [reflexivity|]. set (t' := mkMockTwig _ _). set (dt' := if sn mod 2048 =? TwigMask then <[sn / 2048 + 1 := zero_MockTwig]> (<[sn / 2048 := t']> (cm_tree c)) else <[sn / 2048 := t']> (cm_tree c)).
  assert (∀ sn', 0 ≤ sn' ≤ sn → entry_at dt' sn' = (if decide (sn' = sn) then e else entry_at (cm_tree c) sn') ∧
    active_at dt' sn' = if decide (sn' = sn) then true else active_at (cm_tree c) sn') as Hat.
  { intros sn' Hsn'. assert (entry_at dt' sn' = entry_at (<[sn / 2048 := t']> (cm_tree c)) sn' ∧ active_at dt' sn' = active_at (<[sn / 2048 := t']> (cm_tree c)) sn') as [-> ->].
    { unfold dt'. destruct (Z.eqb_spec (sn mod 2048) TwigMask); [|done]. apply at_other. zdiv. }
    split; [by apply (entry_at_insert _ _ t); [lia|lia|done|done|done]|by apply (active_at_insert _ _ t); [lia|lia|done|done|done]]. }
  split_and!; cbn; [|done| | |].
  - split; cbn; [lia| |].
    + intros id Hid. assert (twig_wf t') as Hwf' by (split; cbn; by rewrite zlen_zset). unfold dt'.
      destruct (Z.eqb_spec (sn mod 2048) TwigMask) as [Hm|Hm].
      * destruct (decide (id = sn / 2048 + 1)) as [->|H1]; [rewrite lookup_insert_eq; by eexists|]. rewrite lookup_insert_ne by done.
        destruct (decide (id = sn / 2048)) as [->|H2]; [rewrite lookup_insert_eq; by eexists|]. rewrite lookup_insert_ne by done.
        apply Ht. unfold TwigMask, LeafCountInTwig in Hm. zdiv.
      * destruct (decide (id = sn / 2048)) as [->|H2]; [rewrite lookup_insert_eq; by eexists|]. rewrite lookup_insert_ne by done.
        apply Ht. unfold TwigMask, LeafCountInTwig in Hm. zdiv.
    + intros sn' Hsn'. rewrite (proj1 (Hat sn' ltac:(lia))). case_decide; [congruence|]. apply Hs. fold sn. lia.
  - apply mock_entries_none. intros sn'. fold sn. lia.
  - apply map_eq. intros pos. apply option_eq. intros x. rewrite mock_entries_lookup. cbn. fold sn.
    destruct (decide (pos = sn * 1024)) as [->|Hne].
    + rewrite lookup_insert_eq. split.
      * intros (sn' & Heq & Hsn' & ->). assert (sn' = sn) as -> by lia. rewrite (proj1 (Hat sn ltac:(lia))). by rewrite decide_True.
      * intros [= <-]. exists sn. rewrite (proj1 (Hat sn ltac:(lia))), decide_True by done. split_and!; [done|lia|lia|done].
    + rewrite lookup_insert_ne, mock_entries_lookup by done. fold sn. split; intros (sn' & -> & Hsn' & ->); exists sn';
        (rewrite (proj1 (Hat sn' ltac:(lia))), decide_False by lia || rewrite (proj1 (Hat sn' ltac:(lia))), decide_False by (intros ->; done)); (split_and!; [done|lia|try lia|done]).
  - apply set_eq. intros sn'. rewrite elem_of_union, elem_of_singleton, !mock_live_elem. cbn. fold sn.
    destruct (decide (0 ≤ sn' ≤ sn)) as [Hin|Hno].
    + rewrite (proj2 (Hat sn' Hin)). case_decide; [subst; naive_solver lia|]. naive_solver lia.
    + naive_solver lia.
Qed.

(** The mock does not give its entries back: its channel is never closed. *)
#[export] Instance mock_laws : DataTreeLaws CountedMock.
Proof.
  refine {| dt_ok := mock_ok; dt_synced _ := True; dt_next := cm_next; dt_pending _ := 0; dt_entries := mock_entries; dt_live := mock_live;
    dt_max := 2 ^ 53; dt_fits _ _ _ := True; dt_first := 0; dt_compacts := False; dt_compact_max := 0; dt_oldest _ := 0; dt_flushed _ := 0 |}.
  - intros c sn Hok Hsn _. destruct (mock_deactiviate c sn Hok Hsn) as (c' & -> & H1 & H2 & H3 & H4). exists c', 0. split_and!; done || lia.
  - intros c e v Hok He Hmax _ _ _ _ _. destruct (mock_append c e Hok He Hmax) as (c' & -> & H1 & H2 & H3 & H4 & H5).
    eexists c', _. split_and!; try done; pose proof (mo_next c Hok); lia.
  - intros c pos e Hok _ He Hl. apply mock_entries_lookup in He as (sn & -> & Hsn & ->). rewrite (mo_serial c Hok) in Hl by done.
    apply mock_live_elem in Hl as [_ Hl]. exists c. cbn. unfold Mock_ReadEntry, mock_twig. rewrite Z.quot_mul by lia.
    destruct (mock_sn sn ltac:(lia)) as (E1 & E2 & Hoff). rewrite E1, E2. destruct (mo_twig c Hok (sn / 2048)) as (t & Et & Hb & He); [zdiv|].
    unfold active_at, entry_at in *. rewrite Et in *. cbn in Hl |- *.
    destruct (zget_Some (mk_activeBits t) (sn mod 2048)) as [b Eb]; [lia|]. destruct (zget_Some (mk_entries t) (sn mod 2048)) as [e Ee]; [lia|].
    rewrite Eb in Hl. cbn in Hl. subst b. rewrite (index_zget _ _ _ Eb). cbn. rewrite (index_zget _ _ _ Ee), Ee. cbn. by split_and!.
  - intros c Hok _. exists c, []. by split_and!.
  - done.
  - done.
  - done.
  - intros c sn _ [Hsn _]%mock_live_elem. done.
  - intros c sn _ [Hsn _]%mock_live_elem. lia.
  - done.
  - intros c Hok. apply (mo_next c Hok).
  - done.
  - lia.
Defined.

Definition new_mock : CountedMock := mkCountedMock NewMockDataTree 0.
Lemma new_mock_ok : mock_ok new_mock.
Proof.
  split; cbn; [lia| |lia]. intros id Hid. assert (id = 0) as -> by (change (0 / 2048) with 0 in Hid; lia). exists zero_MockTwig.
  split; [by apply lookup_singleton_Some|]. split; vm_compute; reflexivity.
Qed.
