(* ===== verification/DataTreeImpl.v ===== *)
(** * The data tree implements its interface

    [Tree] with its files is a [DataTreeOps], and it keeps the laws the store
    relies on: with the log of what was appended kept beside it, the entries
    by position, a run of appends, deactivations, reads and ends of blocks is
    what [DataTreeLaws] promises. *)
From S2P Require Import Prelude Types EntryCodec Hasher AppendFile HPFile EntryFile TwigMtFile.
From S2P Require Import Twig YoungestTwig Tree ActiveBits UpperNodes TreeInv TreeAppend TreeRun LoadDump DataTreeSpec.

#[local] Opaque Pos null_node NullNodeInHigherTree NullTwig hash2 Z.pow NullMT4Twig active_entries_from.

(** A tree with what it was given: the number of its entries, the entries at
    their positions and their records in the order of the file, the oldest twig
    that was not evicted, and the number of entries at the last end of a block. *)
Record LoggedTree (F : Type) : Type := mkLogged {
  lg_tree : Tree F;
  lg_next : Z;
  lg_entries : gmap Z Entry;
  lg_log : list (Entry * list Z);
  lg_oldest : Z;
  lg_flushed : Z
}.
Arguments mkLogged {F}.
Arguments lg_tree {F}.
Arguments lg_next {F}.
Arguments lg_entries {F}.
Arguments lg_log {F}.
Arguments lg_oldest {F}.
Arguments lg_flushed {F}.

(** The size of a run of records *)
Definition log_size (l : list (Entry * list Z)) : Z := foldr (λ r n, zlen (record r.1 r.2) + n) 0 l.

(** The entry a raw record holds, for the log. *)
Definition entry_of_raw (bz : bytes) : Entry :=
  match (b ← slice bz 4 (zlen bz); p ← recover_payload b; EntryFromBytes p 0) with Ret (e, _) => e | Panic _ => DummyEntry 0 end.

Section impl.
Context `{Hsha : !Sha256, Hmeow : !Meow} {F : Type} `{HF : !AppendFile F}.
Implicit Types (d : LoggedTree F) (tree : Tree F).

Definition with_tree d tree : LoggedTree F := mkLogged tree (lg_next d) (lg_entries d) (lg_log d) (lg_oldest d) (lg_flushed d).
Definition with_entry d tree (pos : Z) (e : Entry) : LoggedTree F :=
  mkLogged tree (lg_next d + 1) (<[pos := e]> (lg_entries d)) (lg_log d ++ [(e, deactivedSNList (lg_tree d))]) (lg_oldest d) (lg_flushed d).
Definition evicted d (id : Z) tree : LoggedTree F := mkLogged tree (lg_next d) (lg_entries d) (lg_log d) (id + 1) (lg_flushed d).
Definition block_ended d tree : LoggedTree F := mkLogged tree (lg_next d) (lg_entries d) (lg_log d) (lg_oldest d) (lg_next d).

#[export] Instance tree_ops : DataTreeOps (LoggedTree F) := {|
  dt_DeactiviateEntry d sn := '(t, n) ← DeactiviateEntry (lg_tree d) sn; mret (with_tree d t, n);
  dt_AppendEntry d e := '(t, pos) ← AppendEntry (lg_tree d) e; mret (with_entry d t pos e, pos);
  dt_AppendEntryRawBytes d bz sn := '(t, pos) ← AppendEntryRawBytes (lg_tree d) bz sn; mret (with_entry d t pos (entry_of_raw bz), pos);
  dt_ReadEntry d pos := '(t, e) ← Tree_ReadEntry (lg_tree d) pos; mret (with_tree d t, e);
  dt_GetActiveEntriesInTwig d id := '(t, l) ← GetActiveEntriesInTwig (lg_tree d) id; mret (with_tree d t, l);
  dt_EvictTwig d id := mret (evicted d id (EvictTwig (lg_tree d) id));
  dt_ScanEntriesLite d id := '(t, l) ← ScanEntriesLite (lg_tree d) id; mret (with_tree d t, l);
  dt_TwigCanBePruned d id := TwigCanBePruned (lg_tree d) id;
  dt_PruneTwigs d a b := '(t, bz) ← PruneTwigs (lg_tree d) a b; mret (with_tree d t, bz);
  dt_GetFileSizes d := GetFileSizes (lg_tree d);
  dt_EndBlock d := '(t, root) ← EndBlock (lg_tree d); mret (block_ended d t, root)
|}.

Context `{!AppendFileLaws F} (limit block : Z).

Definition is_live tree (sn : Z) : bool := match GetActiveBit tree sn with Ret b => b | Panic _ => false end.
Definition live d : gset Z := list_to_set (filter (λ sn, is_live (lg_tree d) sn = true) (seqZ 0 (lg_next d))).

Lemma live_elem d sn : sn ∈ live d ↔ 0 ≤ sn < lg_next d ∧ GetActiveBit (lg_tree d) sn = Ret true.
Proof.
  unfold live, is_live. rewrite elem_of_list_to_set, list_elem_of_filter, elem_of_seqZ.
  destruct (GetActiveBit (lg_tree d) sn) as [b|]; naive_solver lia.
Qed.

Lemma live_same d d' : lg_next d' = lg_next d → activeTwigs (lg_tree d') = activeTwigs (lg_tree d) → live d' = live d.
Proof.
  intros Hn Ha. apply set_eq. intros sn. rewrite !live_elem, Hn. unfold GetActiveBit, get_twig. by rewrite Ha.
Qed.

(** The record of entry [n] is in the file, where the records before it end. *)
Definition log_pos d (n : Z) : Z := log_size (take (Z.to_nat n) (lg_log d)).
Definition logged_at d (n : Z) (e : Entry) (sns : list Z) : Prop := 0 ≤ n ∧ lg_log d !! Z.to_nat n = Some (e, sns).

Record log_entry_ok d (ef : F) (n : Z) (e : Entry) (sns : list Z) : Prop := {
  le_serial : SerialNum e = n;
  le_entry : entry_ok e ∧ is_Some (Value e);
  le_sns : Forall is_int64 sns ∧ zlen sns < 256;
  le_fits : zlen (record e sns) ≤ limit;
  le_holds : af_holds ef (log_pos d n) (record e sns);
  le_durable : n < lg_flushed d → af_durable ef (log_pos d n) (record e sns)
}.

Record tree_ok d : Prop := {
  to_inv : tree_inv (lg_tree d) 0;
  to_seq : seq_inv (lg_tree d) (lg_next d);
  to_files : files_inv (lg_tree d) (lg_next d);
  (** the twigs from the oldest to the youngest are in memory, and no entry before them is active *)
  to_oldest : 0 ≤ lg_oldest d ∧ lg_oldest d * 2048 ≤ lg_next d;
  to_active id : lg_oldest d ≤ id ≤ youngestTwigID (lg_tree d) → is_Some (activeTwigs (lg_tree d) !! id);
  to_evict id : id ∈ twigsToBeDeleted (lg_tree d) → id < lg_oldest d;
  to_dead sn : sn ∈ live d → lg_oldest d * 2048 ≤ sn;
  to_limit : limit ≤ af_limit (entryFile (lg_tree d)) ∧ af_block (entryFile (lg_tree d)) = block;
  to_window : af_window (entryFile (lg_tree d));
  to_len : zlen (lg_log d) = lg_next d;
  to_size : af_Size (entryFile (lg_tree d)) = log_size (lg_log d);
  to_log n e sns : logged_at d n e sns → log_entry_ok d (entryFile (lg_tree d)) n e sns;
  to_entries pos e : lg_entries d !! pos = Some e → ∃ n sns, logged_at d n e sns ∧ pos = log_pos d n;
  to_first id t : id * 2048 < lg_next d → activeTwigs (lg_tree d) !! id = Some t → FirstEntryPos t = log_pos d (id * 2048);
  to_pending : Forall is_int64 (deactivedSNList (lg_tree d));
  to_flushed : lg_flushed d ≤ lg_next d
}.

(** An entry fits, whatever its heights and the serial numbers written with it. *)
Definition fits (k v nk : bytes) : Prop := ∀ h lh sn sns, is_int64 h → is_int64 lh → is_int64 sn → zlen sns < 256 →
  let e := mkEntry k (Some v) nk h lh sn in body_length e < MaxEntryBytes ∧ zlen (record e sns) ≤ limit.
Definition max_entries : Z := Z.min (2 ^ 60) (2 ^ 63 `div` limit).

(** ** The log *)

Lemma log_size_app a b : log_size (a ++ b) = log_size a + log_size b.
Proof. induction a as [|x a IH]; [done|]. cbn [app]. unfold log_size in *. cbn [foldr]. lia. Qed.
Lemma log_size_nonneg l : 0 ≤ log_size l.
Proof. induction l as [|x l IH]; [done|]. unfold log_size in *. cbn [foldr]. pose proof (zlen_nonneg (record x.1 x.2)). lia. Qed.

Lemma log_pos_next d n e sns : logged_at d n e sns → log_pos d (n + 1) = log_pos d n + zlen (record e sns).
Proof.
  intros [Hn Hl]. unfold log_pos. replace (Z.to_nat (n + 1)) with (S (Z.to_nat n)) by lia.
  rewrite (take_S_r _ _ _ Hl), log_size_app. unfold log_size at 2. cbn. lia.
Qed.

Lemma log_pos_mono d m n : m ≤ n → log_pos d m ≤ log_pos d n.
Proof.
  intros Hmn. unfold log_pos. replace (take (Z.to_nat m) (lg_log d)) with (take (Z.to_nat m) (take (Z.to_nat n) (lg_log d))).
  - rewrite <- (take_drop (Z.to_nat m) (take (Z.to_nat n) (lg_log d))) at 2. rewrite log_size_app. pose proof (log_size_nonneg (drop (Z.to_nat m) (take (Z.to_nat n) (lg_log d)))). lia.
  - by rewrite take_take, Nat.min_l by lia.
Qed.

Lemma logged_range d n e sns : logged_at d n e sns → 0 ≤ n < zlen (lg_log d).
Proof. intros [Hn Hl%lookup_lt_Some]. unfold zlen. lia. Qed.
Lemma logged_ex d n : 0 ≤ n < zlen (lg_log d) → ∃ e sns, logged_at d n e sns.
Proof.
  intros Hn. destruct (lookup_lt_is_Some_2 (lg_log d) (Z.to_nat n)) as [[e sns] Hl]; [unfold zlen in *; lia|]. exists e, sns. split; [lia|done].
Qed.
Lemma logged_fun d n e sns e' sns' : logged_at d n e sns → logged_at d n e' sns' → e = e' ∧ sns = sns'.
Proof. intros [_ H1] [_ H2]. rewrite H1 in H2. by injection H2. Qed.

Lemma log_entry_keeps d d' ef ef' n e sns : af_keeps ef ef' → log_pos d' n = log_pos d n → (n < lg_flushed d' → n < lg_flushed d) →
  log_entry_ok d ef n e sns → log_entry_ok d' ef' n e sns.
Proof.
  intros Hk Hp Hf [H1 H2 H3 H4 H5 H6]. split; rewrite ?Hp; try done; [by eapply af_holds_keeps|].
  intros Hn. eapply af_durable_keeps; [done|]. by apply H6, Hf.
Qed.

(** The records are where they are, whatever happens to the tree. *)
Lemma log_pos_bound d n : tree_ok d → 0 ≤ n ≤ lg_next d → log_pos d n ≤ limit * n.
Proof.
  intros Hok Hn. assert (∀ m : nat, (m ≤ Z.to_nat n)%nat → log_pos d (Z.of_nat m) ≤ limit * Z.of_nat m) as H.
  { induction m as [|m IH]; intros Hm; [change (Z.of_nat 0) with 0; by rewrite Z.mul_0_r|].
    destruct (logged_ex d (Z.of_nat m)) as (e & sns & Hl); [rewrite (to_len _ Hok); lia|].
    replace (Z.of_nat (S m)) with (Z.of_nat m + 1) by lia. rewrite (log_pos_next _ _ _ _ Hl).
    pose proof (le_fits _ _ _ _ _ (to_log _ Hok _ _ _ Hl)). specialize (IH ltac:(lia)). lia. }
  specialize (H (Z.to_nat n) ltac:(lia)). by rewrite Z2Nat.id in H by lia.
Qed.

Lemma log_pos_all d : log_pos d (zlen (lg_log d)) = log_size (lg_log d).
Proof. unfold log_pos, zlen. by rewrite Nat2Z.id, firstn_all. Qed.

Lemma entries_before d pos e : tree_ok d → lg_entries d !! pos = Some e → 0 ≤ pos < af_Size (entryFile (lg_tree d)).
Proof.
  intros Hok He. destruct (to_entries d Hok pos e He) as (n & sns & Hl & ->). pose proof (logged_range _ _ _ _ Hl).
  split; [apply log_size_nonneg|]. rewrite (to_size d Hok), <- log_pos_all.
  pose proof (log_pos_mono d (n + 1) (zlen (lg_log d)) ltac:(lia)). rewrite (log_pos_next _ _ _ _ Hl) in *.
  pose proof (zlen_record_pos e sns). lia.
Qed.

Lemma next_small d : tree_ok d → 0 ≤ lg_next d < 2 ^ 61.
Proof.
  intros Hok. destruct (ui_range _ _ _ _ (ti_upper _ _ (to_inv d Hok))) as [_ HY]. rewrite (sq_young _ _ (to_seq d Hok)) in HY.
  pose proof (sq_next _ _ (to_seq d Hok)). zdiv.
Qed.

(** ** The bits *)

Lemma active_bit_Ret d sn : tree_ok d → lg_oldest d * 2048 ≤ sn < lg_next d → is_Some (activeTwigs (lg_tree d) !! (sn / 2048)).
Proof.
  intros Hok Hsn. apply (to_active d Hok). rewrite (sq_young _ _ (to_seq d Hok)). pose proof (Z.div_le_mono sn (lg_next d) 2048).
  pose proof (Z.div_le_mono (lg_oldest d * 2048) sn 2048). rewrite Z.div_mul in * by lia. lia.
Qed.

(** A bit that can be read is in a twig in memory. *)
Lemma readable_active tree sn b : 0 ≤ sn → GetActiveBit tree sn = Ret b → is_Some (activeTwigs tree !! (sn / 2048)).
Proof.
  intros Hsn Hb. unfold GetActiveBit, get_twig in Hb. rewrite (proj1 (sn_parts sn Hsn)) in Hb.
  destruct (activeTwigs tree !! (sn / 2048)); [by eexists|done].
Qed.
Lemma active_readable tree O sn t : tree_inv tree O → 0 ≤ sn → activeTwigs tree !! (sn / 2048) = Some t →
  GetActiveBit tree sn = Ret (active t (sn mod 2048)).
Proof.
  intros Hinv Hsn Ht. unfold GetActiveBit, get_twig. destruct (sn_parts sn Hsn) as (E1 & E2 & _ & Hb). rewrite E1, Ht, E2. cbn [mbind outcome_bind mret outcome_ret].
  rewrite getBit_Ret; [done| |done]. by destruct (proj1 (ti_touched _ _ Hinv) _ _ Ht) as [? _].
Qed.

(** Two trees of which the second can read every bit of the first have the twigs of the first. *)
Lemma readable_twigs tree tree' O id (b : Z → outcome bool) : tree_inv tree O → 0 ≤ id → is_Some (activeTwigs tree !! id) →
  (∀ sn, 0 ≤ sn → is_Some (activeTwigs tree !! (sn / 2048)) → GetActiveBit tree' sn = b sn) →
  (∀ sn, 0 ≤ sn → is_Some (activeTwigs tree !! (sn / 2048)) → is_ret (b sn) = true) → is_Some (activeTwigs tree' !! id).
Proof.
  intros Hinv Hid Hact Hbits Hb. rewrite <- (Z.div_mul id 2048) in Hact by lia. specialize (Hbits (id * 2048) ltac:(lia) Hact).
  specialize (Hb (id * 2048) ltac:(lia) Hact). destruct (b (id * 2048)) as [x|]; [|done].
  apply readable_active in Hbits; [|lia]. by rewrite Z.div_mul in Hbits.
Qed.

(** The bits after an operation that writes one of them. *)
Definition bit_written tree tree' (sn : Z) (b : bool) : Prop := ∀ sn', 0 ≤ sn' → is_Some (activeTwigs tree !! (sn' / 2048)) →
  GetActiveBit tree' sn' = if decide (sn' = sn) then Ret b else GetActiveBit tree sn'.

Lemma bit_written_twigs tree tree' O sn b id : tree_inv tree O → bit_written tree tree' sn b → 0 ≤ id →
  is_Some (activeTwigs tree !! id) → is_Some (activeTwigs tree' !! id).
Proof.
  intros Hinv Hb Hid Hact. eapply (readable_twigs tree tree' O id _ Hinv Hid Hact Hb).
  intros sn' Hsn' [t Ht]. case_decide; [done|]. by rewrite (active_readable tree O sn' t).
Qed.

(** The live entries after such an operation, when no twig came back. *)
Lemma live_after d d' sn (b : bool) : tree_ok d → lg_next d ≤ lg_next d' ≤ Z.max (lg_next d) (sn + 1) → 0 ≤ sn < lg_next d' ∧ sn ≤ lg_next d →
  is_Some (activeTwigs (lg_tree d) !! (sn / 2048)) → bit_written (lg_tree d) (lg_tree d') sn b →
  (∀ id, id * 2048 < lg_next d → is_Some (activeTwigs (lg_tree d') !! id) → is_Some (activeTwigs (lg_tree d) !! id)) →
  live d' = if b then {[ sn ]} ∪ live d else live d ∖ {[ sn ]}.
Proof.
  intros Hok Hn Hsn Hact Hbits Hback. apply set_eq. intros sn'.
  assert (sn' ∈ live d' ↔ (sn' = sn ∧ b = true) ∨ (sn' ≠ sn ∧ sn' ∈ live d)) as ->.
  - rewrite !live_elem. destruct (decide (sn' = sn)) as [->|Hne]; [rewrite Hbits, decide_True by (lia || done); destruct b; naive_solver lia|].
    split.
    + intros [Hr Hb]. right. pose proof (readable_active _ sn' _ ltac:(lia) Hb) as Ht. apply Hback in Ht; [|pose proof (Z.mul_div_le sn' 2048 ltac:(lia)); lia].
      rewrite Hbits, decide_False in Hb by (lia || done). split_and!; [done|lia|lia|done].
    + intros [[? _]|(_ & Hr & Hb)]; [done|]. pose proof (readable_active _ sn' _ ltac:(lia) Hb). rewrite Hbits, decide_False by (lia || done). split; [lia|done].
  - destruct b; [rewrite elem_of_union, elem_of_singleton|rewrite elem_of_difference, elem_of_singleton];
      destruct (decide (sn' = sn)) as [->|]; naive_solver.
Qed.

(** ** The operations *)

Lemma tree_deactiviate d sn : tree_ok d → sn ∈ live d →
  ∃ t', let d' := with_tree d t' in dt_DeactiviateEntry d sn = Ret (d', zlen (deactivedSNList (lg_tree d)) + 1) ∧ tree_ok d' ∧
    zlen (deactivedSNList t') = zlen (deactivedSNList (lg_tree d)) + 1 ∧ live d' = live d ∖ {[ sn ]}.
Proof.
  intros Hok Hlive. pose proof Hlive as [Hsn _]%live_elem. pose proof (to_dead d Hok sn Hlive). pose proof (next_small d Hok).
  pose proof (active_bit_Ret d sn Hok ltac:(lia)) as Hact. pose proof (to_inv d Hok) as H1.
  destruct (setEntryActiviation_ok (lg_tree d) 0 sn false H1) as (t' & E1 & Hinv & Hsb & _ & _ & Edl & Eev & Hbits); [lia|zdiv|done|].
  destruct (same_but_bits_inv _ _ _ Hsb (to_seq d Hok) (to_files d Hok)) as [Hseq Hfiles].
  assert (∀ id t, activeTwigs t' !! id = Some t → ∃ t0, activeTwigs (lg_tree d) !! id = Some t0 ∧ FirstEntryPos t = FirstEntryPos t0) as Hback.
  { intros id t Ht. pose proof (sb_twigs _ _ Hsb id) as Htw. rewrite Ht in Htw. inversion Htw as [? ? [Ef _]|]; subst. eauto. }
  assert (live (with_tree d t') = live d ∖ {[ sn ]}) as Hlv.
  { apply (live_after d (with_tree d t') sn false Hok); cbn [with_tree lg_next lg_tree]; [lia|lia|done|done|].
    intros id _ [t Ht]. destruct (Hback id t Ht) as (t0 & Ht0 & _). by eexists. }
  exists t'. cbn zeta. split_and!; [| |rewrite Edl; zlen|done].
  - cbn. unfold DeactiviateEntry. rewrite E1. cbn [mbind outcome_bind mret outcome_ret]. rewrite Edl. do 3 f_equal. zlen.
  - destruct Hok as [_ H2 H3 H4 H5 H6 H7 H8 Hwin H9 H10 H11 H12 H13 H14 H15].
    split; cbn [with_tree lg_next lg_tree lg_entries lg_log lg_oldest lg_flushed]; rewrite ?(sb_entryFile _ _ Hsb), ?(sb_young _ _ Hsb), ?Eev, ?Edl, ?Hlv; try done.
    + intros id Hid. eapply bit_written_twigs; [exact H1|exact Hbits|lia|by apply H5].
    + intros sn' [Hl _]%elem_of_difference. by apply H7.
    + intros n e sns Hl. by apply (log_entry_keeps d (with_tree d t') _ _ n e sns (reflexivity _) eq_refl id), H11.
    + intros id t Hid Ht. destruct (Hback id t Ht) as (t0 & Ht0 & ->). by apply H13.
    + apply Forall_app. split; [done|]. constructor; [|done]. unfold is_int64. lia.
Qed.

(** What an append leaves behind: the new entry at the end of the file. *)
Record entry_added d d' (pos : Z) (e : Entry) : Prop := {
  ea_ok : tree_ok d';
  ea_next : lg_next d' = lg_next d + 1;
  ea_pending : zlen (deactivedSNList (lg_tree d')) = 0;
  ea_pos : 0 ≤ pos < 2 ^ 63;
  ea_new : lg_entries d !! pos = None;
  ea_entries : lg_entries d' = <[pos := e]> (lg_entries d);
  ea_live : live d' = {[ lg_next d ]} ∪ live d;
  ea_oldest : lg_oldest d' = lg_oldest d;
  ea_flushed : lg_flushed d' = lg_flushed d
}.

Lemma logged_snoc d t' pos e n e' sns' : tree_ok d → logged_at (with_entry d t' pos e) n e' sns' →
  (n < lg_next d ∧ logged_at d n e' sns') ∨ (n = lg_next d ∧ e' = e ∧ sns' = deactivedSNList (lg_tree d)).
Proof.
  intros Hok [Hn Hl]. cbn [with_entry lg_log] in Hl. pose proof (to_len d Hok) as Hlen.
  apply lookup_app_Some in Hl as [Hl|[Hge Hl]].
  - left. pose proof (lookup_lt_Some _ _ _ Hl). split; [unfold zlen in *; lia|done].
  - right. apply list_lookup_singleton_Some in Hl as [Hz [= <- <-]]. unfold zlen in *. split_and!; [lia|done|done].
Qed.

Lemma logged_with_entry d t' pos e n e' sns' : logged_at d n e' sns' → logged_at (with_entry d t' pos e) n e' sns'.
Proof. intros [Hn Hl]. split; [done|]. cbn [with_entry lg_log]. by apply lookup_app_l_Some. Qed.

Lemma log_pos_with_entry d t' pos e n : tree_ok d → n ≤ lg_next d → log_pos (with_entry d t' pos e) n = log_pos d n.
Proof.
  intros Hok Hn. pose proof (to_len d Hok). unfold log_pos. cbn [with_entry lg_log].
  rewrite take_app_le; [done|]. unfold zlen in *. lia.
Qed.

Section added.
Variables (d : LoggedTree F) (e : Entry) (v : bytes) (t' : Tree F).
Notation N := (lg_next d).
Notation tree := (lg_tree d).
Notation sns := (deactivedSNList tree).
Hypothesis Hok : tree_ok d.
Hypothesis He : SerialNum e = N.
Hypothesis Hmax : N < max_entries.
Hypothesis Hv : Value e = Some v.
Hypothesis Hfits : fits (Key e) v (NextKey e).
Hypothesis Hh : is_int64 (Height e) ∧ is_int64 (LastHeight e).
Hypothesis Hpend : zlen sns ≤ 255.

Lemma added_fits : entry_ok e ∧ zlen (record e sns) ≤ limit ∧ N / 2048 + 1 < 2 ^ 50 ∧ limit * (N + 1) ≤ 2 ^ 63.
Proof using Hok He Hmax Hv Hfits Hh Hpend.
  pose proof (next_small d Hok). destruct Hh as [Hh1 Hh2].
  assert (N < 2 ^ 60) as HN60 by (unfold max_entries in Hmax; lia).
  assert (is_int64 (SerialNum e)) as Hsn by (rewrite He; unfold is_int64; lia).
  assert (body_length e < MaxEntryBytes ∧ zlen (record e sns) ≤ limit) as [Hbody Hrec].
  { destruct e as [k v0 nk h lh sn]. cbn in *. subst v0. apply Hfits; done || lia. }
  assert (0 < limit) as Hlimit by (pose proof (zlen_record_pos e sns); lia).
  assert (N + 1 ≤ 2 ^ 63 `div` limit) by (unfold max_entries in Hmax; lia). pose proof (Z.mul_div_le (2 ^ 63) limit Hlimit).
  split_and!; [by split_and!|done|zdiv|nia].
Qed.

Hypothesis Happ : appended (set_deactived tree []) t' 0 N (record e sns).
Notation size := (af_Size (entryFile tree)).
Notation d' := (with_entry d t' size e).

Lemma added_log n e' sns' : logged_at d' n e' sns' → log_entry_ok d' (entryFile t') n e' sns'.
Proof using Hok He Hv Hfits Hh Hpend Hmax Happ.
  destruct added_fits as (Heok & Hrec & _). pose proof (ap_keeps _ _ _ _ _ Happ) as [Hk _]. cbn [entryFile set_deactived] in Hk.
  intros [[Hn Hl]|(-> & -> & ->)]%logged_snoc; [| |done].
  - apply (log_entry_keeps d d' _ _ n e' sns' Hk); [by apply log_pos_with_entry; [|lia]|done|by apply to_log].
  - split; try done.
    + split; [apply (to_pending d Hok)|lia].
    + rewrite log_pos_with_entry, <- (to_len d Hok), log_pos_all, <- (to_size d Hok) by (done || lia). apply (ap_holds _ _ _ _ _ Happ).
    + cbn [with_entry lg_flushed]. pose proof (to_flushed d Hok). lia.
Qed.

Lemma added_bits : bit_written tree t' N true.
Proof using Happ. intros sn Hsn Hact. by apply (ap_bits _ _ _ _ _ Happ sn Hsn). Qed.

Lemma added_live : live d' = {[ N ]} ∪ live d.
Proof using Hok Happ.
  pose proof (next_small d Hok). pose proof (to_oldest d Hok).
  assert (is_Some (activeTwigs tree !! (N / 2048))) as HactN by (apply (to_active d Hok); rewrite (sq_young _ _ (to_seq d Hok)); zdiv).
  apply (live_after d d' N true Hok); cbn [with_entry lg_next lg_tree]; [lia|lia|done|apply added_bits|].
  intros id Hid [t Ht]. destruct (ap_first _ _ _ _ _ Happ id t ltac:(lia) Ht) as (t0 & Ht0 & _). by exists t0.
Qed.

Lemma added_ok : entry_added d d' size e.
Proof using Hok He Hv Hfits Hh Hpend Hmax Happ.
  destruct added_fits as (Heok & Hrec & HN & Hroom). pose proof (next_small d Hok) as Hsmall. pose proof (zlen_record_pos e sns) as Hpos.
  pose proof (log_pos_bound d N Hok ltac:(lia)) as Hsz. rewrite <- (to_len d Hok) in Hsz at 1. rewrite log_pos_all, <- (to_size d Hok) in Hsz.
  pose proof (log_size_nonneg (lg_log d)) as Hsz0. rewrite <- (to_size d Hok) in Hsz0.
  pose proof added_log as Hlog. pose proof added_live as Hlive. pose proof added_bits as Hbits. pose proof (log_pos_with_entry d t' size e) as Hlp.
  destruct Happ as [A1 A2 A3 [A4 A4'] A5 A6 A7 A8 A9 A10]. cbn [entryFile set_deactived twigsToBeDeleted deactivedSNList activeTwigs] in A4, A5, A6, A7, A8, A9, A10.
  split; try done; [|by cbn; rewrite A7|nia|].
  2:{ destruct (lg_entries d !! size) as [e'|] eqn:Ee; [|done]. pose proof (entries_before d size e' Hok Ee). lia. }
  split; try done; cbn [with_entry lg_next lg_tree lg_entries lg_oldest lg_log lg_flushed].
  - pose proof (to_oldest d Hok). lia.
  - intros id Hid. pose proof (sq_young _ _ A2) as Ey. rewrite Ey in Hid. destruct (decide (id ≤ N / 2048)) as [Hle|Hgt].
    + eapply bit_written_twigs; [apply (to_inv d Hok)|exact Hbits|pose proof (to_oldest d Hok); lia|].
      apply (to_active d Hok). rewrite (sq_young _ _ (to_seq d Hok)). lia.
    + destruct (ti_youngest _ _ A1) as (t & Ht & _). rewrite Ey in Ht. replace id with ((N + 1) / 2048) by zdiv. by eexists.
  - rewrite A8. apply (to_evict d Hok).
  - rewrite Hlive. pose proof (to_oldest d Hok). intros sn [->%elem_of_singleton|Hl]%elem_of_union; [lia|by apply to_dead].
  - rewrite (af_limit_keeps _ _ A4), (af_block_keeps _ _ A4). apply (to_limit d Hok).
  - eapply af_window_keeps; [exact A4|apply (to_window d Hok)].
  - rewrite zlen_app, zlen_cons, zlen_nil, (to_len d Hok). lia.
  - rewrite A6, log_size_app, (to_size d Hok). unfold log_size at 3. cbn. lia.
  - intros pos e' [[<- <-]|[_ He']]%lookup_insert_Some.
    + exists N, sns. rewrite Hlp by (done || lia). rewrite <- (to_len d Hok) at 2. rewrite log_pos_all. split; [|apply (to_size d Hok)].
      split; [lia|]. cbn [with_entry lg_log]. rewrite lookup_app_r; [|pose proof (to_len d Hok); unfold zlen in *; lia].
      pose proof (to_len d Hok). replace (Z.to_nat N - length (lg_log d))%nat with 0%nat by (unfold zlen in *; lia). done.
    + destruct (to_entries d Hok pos e' He') as (n & sns' & Hl & ->). exists n, sns'. split; [by apply logged_with_entry|].
      pose proof (logged_range _ _ _ _ Hl). by rewrite Hlp by (done || rewrite <- (to_len d Hok); lia).
  - intros id t Hid Ht. destruct (A10 id t ltac:(lia) Ht) as (t0 & Ht0 & ->). rewrite Hlp by (done || lia). case_decide as HidN.
    + rewrite HidN, (to_size d Hok), <- log_pos_all, (to_len d Hok). done.
    + apply (to_first d Hok); [lia|done].
  - by rewrite A7.
  - pose proof (to_flushed d Hok). lia.
Qed.
End added.

Lemma tree_append d e v : tree_ok d → SerialNum e = lg_next d → lg_next d < max_entries → Value e = Some v →
  fits (Key e) v (NextKey e) → is_int64 (Height e) → is_int64 (LastHeight e) → zlen (deactivedSNList (lg_tree d)) ≤ 255 →
  ∃ d' pos, dt_AppendEntry d e = Ret (d', pos) ∧ entry_added d d' pos e.
Proof.
  intros Hok He Hmax Hv Hfits Hh Hlh Hpend. destruct (added_fits d e v) as (Heok & Hrec & HN & _); [done..|].
  pose proof (to_limit d Hok) as [Hlim _].
  destruct (AppendEntry_appended (lg_tree d) 0 (lg_next d) e) as (t' & E1 & Happ); [apply Hok..|done|done|lia|].
  eexists _, _. split; [cbn; rewrite E1; reflexivity|]. by eapply added_ok.
Qed.

Lemma entry_of_raw_bytes n e : entry_ok e → is_Some (Value e) → entry_of_raw (raw_bytes n e) = e.
Proof.
  intros He [v Hv]. unfold entry_of_raw, raw_bytes. rewrite app_assoc, slice_end; [|unfold PutUint24; zlen|zlen]. cbn [mbind outcome_bind].
  pose proof (recover_entry_body e []) as Hr. rewrite app_nil_r in Hr. rewrite Hr by apply He. cbn [mbind outcome_bind].
  pose proof (EntryFromBytes_payload e [] [] He (Forall_nil_2 _)) as Hp. change (SNListToBytes []) with (@nil Z) in Hp.
  cbn [length] in Hp. rewrite app_nil_r in Hp. rewrite app_nil_r, Hp. unfold read_back, ValueBytes. rewrite Hv. cbn. rewrite <- Hv. by destruct e.
Qed.

Lemma tree_append_raw d e v n : tree_ok d → SerialNum e = lg_next d → lg_next d < max_entries → Value e = Some v →
  fits (Key e) v (NextKey e) → is_int64 (Height e) → is_int64 (LastHeight e) → zlen (deactivedSNList (lg_tree d)) ≤ 255 →
  ∃ d' pos, dt_AppendEntryRawBytes d (raw_bytes n e) (lg_next d) = Ret (d', pos) ∧ entry_added d d' pos e.
Proof.
  intros Hok He Hmax Hv Hfits Hh Hlh Hpend. destruct (added_fits d e v) as (Heok & Hrec & HN & _); [done..|].
  pose proof (to_limit d Hok) as [Hlim _].
  destruct (AppendEntryRawBytes_appended (lg_tree d) 0 (lg_next d) e n) as (t' & E1 & Happ); [apply Hok..|done|lia|].
  eexists _, _. split; [unfold dt_AppendEntryRawBytes, tree_ops; rewrite E1; cbn [mbind outcome_bind mret outcome_ret];
    rewrite entry_of_raw_bytes by (done || by exists v); reflexivity|]. by eapply added_ok.
Qed.

Lemma read_back_Some e : is_Some (Value e) → read_back e = e.
Proof. intros [v Hv]. unfold read_back, ValueBytes. rewrite Hv. cbn. rewrite <- Hv. by destruct e. Qed.

Lemma tree_read d pos e : tree_ok d → af_flushed (entryFile (lg_tree d)) → lg_entries d !! pos = Some e →
  dt_ReadEntry d pos = Ret (d, e).
Proof.
  intros Hok Hf He. destruct (to_entries d Hok pos e He) as (n & sns & Hl & ->).
  destruct (to_log d Hok n e sns Hl) as [_ [He1 He2] [_ Hs] _ Hh _]. cbn. unfold Tree_ReadEntry.
  rewrite (ReadEntry_ok (entryFile (lg_tree d)) _ e sns []) by (done || rewrite app_nil_r; by apply af_durable_flushed).
  cbn [mbind outcome_bind mret outcome_ret]. rewrite read_back_Some by done. by destruct d as [[] ? ? ? ? ?].
Qed.

(** The tree after the end of a block: the evicted twigs are gone. *)
Lemma tree_endblock d : tree_ok d → 2048 ≤ lg_next d →
  ∃ t' root, let d' := block_ended d t' in dt_EndBlock d = Ret (d', root) ∧ tree_ok d' ∧ af_flushed (entryFile t') ∧
    deactivedSNList t' = deactivedSNList (lg_tree d) ∧ live d' = live d.
Proof.
  intros Hok Hn. pose proof Hok as [H1 H2 H3 H4 H5 H6 H7 H8 Hwin H9 H10 H11 H12 H13 H14 H15].
  assert (0 < youngestTwigID (lg_tree d)) as Hy by (rewrite (sq_young _ _ H2); zdiv).
  destruct (EndBlock_ok (lg_tree d) 0 H1 Hy (proj1 (fi_entry _ _ H3)) (proj1 (fi_mt _ _ H3))) as (t1 & t' & root & E1 & Hsy &
    _ & Hsd & Etd & Ey & Edl & _ & _ & Ha & _ & Q1 & Q2 & Q3 & _ & _ & _ & Q7 & _).
  destruct (EndBlock_seq_files (lg_tree d) 0 (lg_next d) t' root H1 H2 H3 Hy E1) as [Hseq Hfiles].
  assert (∀ id t, activeTwigs t' !! id = Some t → ∃ t0, activeTwigs (lg_tree d) !! id = Some t0 ∧ activeBits t = activeBits t0 ∧ FirstEntryPos t = FirstEntryPos t0) as Hback.
  { intros id t Ht. rewrite Ha in Ht. case_decide; [done|]. pose proof (sd_twigs _ _ Hsd id) as Htw. rewrite Ht in Htw.
    inversion Htw as [? ? [[Eb Ef] _]|]; subst. eauto. }
  assert (∀ id, id ∉ twigsToBeDeleted (lg_tree d) → is_Some (activeTwigs (lg_tree d) !! id) → is_Some (activeTwigs t' !! id)) as Hkept.
  { intros id Hid [t Ht]. rewrite Ha, decide_False by done. pose proof (sd_twigs _ _ Hsd id) as Htw. rewrite Ht in Htw. inversion Htw; subst. by eexists. }
  assert (live (block_ended d t') = live d) as Hlive.
  { apply set_eq. intros sn. rewrite !live_elem. cbn [block_ended lg_next lg_tree]. split; intros [Hr Hb]; (split; [done|]).
    - destruct (readable_active _ sn _ ltac:(lia) Hb) as [t Ht]. destruct (Hback _ t Ht) as (t0 & Ht0 & Eb & _).
      rewrite (active_readable t' 0 sn t) in Hb by (done || lia || apply Hsy). rewrite (active_readable _ 0 sn t0) by (done || lia).
      unfold active in *. by rewrite <- Eb.
    - pose proof (H7 sn ltac:(by apply live_elem)) as Hge. destruct (readable_active _ sn _ ltac:(lia) Hb) as [t0 Ht0].
      destruct (Hkept (sn / 2048)) as [t Ht]; [|by eexists|].
      { intros Hin%H6. pose proof (Z.div_le_mono (lg_oldest d * 2048) sn 2048). rewrite Z.div_mul in * by lia. lia. }
      destruct (Hback _ t Ht) as (t0' & Ht0' & Eb & _). rewrite Ht0 in Ht0'. injection Ht0' as <-.
      rewrite (active_readable _ 0 sn t0) in Hb by (done || lia). rewrite (active_readable t' 0 sn t) by (done || lia || apply Hsy).
      unfold active in *. by rewrite Eb. }
  exists t', root. cbn zeta. split_and!; [cbn; by rewrite E1| |done|done|done].
  split; cbn [block_ended lg_next lg_tree lg_entries lg_log lg_oldest lg_flushed]; rewrite ?Ey, ?Etd, ?Edl, ?Hlive, ?Q7; try done.
  - apply Hsy.
  - intros id Hid. apply Hkept; [intros Hin%H6; lia|by apply H5].
  - by intros id Hid%elem_of_nil.
  - rewrite (af_limit_keeps _ _ Q2), (af_block_keeps _ _ Q2). done.
  - by eapply af_window_keeps.
  - intros n e sns Hl. destruct (H11 n e sns Hl) as [L1 L2 L3 L4 L5 L6]. split; try done; [by eapply af_holds_keeps|].
    intros _. apply af_durable_flushed; [done|]. by eapply af_holds_keeps.
  - intros id t Hid Ht. destruct (Hback id t Ht) as (t0 & Ht0 & _ & ->). by apply H13.
Qed.

(** The records of a run of entries that are in the storage, each followed by
    another, are [stored]: the pre-reader can read them when they lie in the
    first block. *)
Lemma log_stored d (k : nat) : tree_ok d → limit * lg_next d ≤ block → ∀ lo, 0 ≤ lo → lo + Z.of_nat k < lg_flushed d →
  stored (entryFile (lg_tree d)) (log_pos d lo) (take k (drop (Z.to_nat lo) (lg_log d))) (log_pos d (lo + Z.of_nat k)).
Proof.
  intros Hok Hblk. pose proof (to_flushed d Hok). pose proof (to_len d Hok) as Hlen. pose proof (to_limit d Hok) as [_ Hb].
  induction k as [|k IH]; intros lo Hlo Hk; [rewrite Z.add_0_r; constructor|].
  destruct (logged_ex d lo) as (e & sns & Hl); [lia|]. destruct (logged_ex d (lo + 1)) as (e' & sns' & Hl'); [lia|].
  rewrite (drop_S _ _ _ (proj2 Hl)). cbn [take].
  destruct (to_log d Hok _ _ _ Hl) as [_ [He _] [Hs1 Hs2] _ _ Hd]. destruct (to_log d Hok _ _ _ Hl') as [_ _ _ _ _ Hd'].
  apply (stored_cons _ _ _ _ (record e' sns')); try done.
  - apply af_durable_join; [by apply Hd; lia|rewrite <- (log_pos_next d lo e sns Hl); by apply Hd'; lia|].
    rewrite <- (log_pos_next d lo e sns Hl), <- (log_pos_next d (lo + 1) e' sns' Hl'), Hb.
    pose proof (log_pos_bound d (lo + 1 + 1) Hok ltac:(lia)). pose proof (log_pos_mono d (lo + 1 + 1) (lg_next d) ltac:(lia)).
    pose proof (log_pos_bound d (lg_next d) Hok ltac:(lia)). lia.
  - intros Hz. apply (f_equal zlen) in Hz. revert Hz. pose proof (zlen_record_pos e' sns'). rewrite zlen_app, zlen_nil. pose proof (zlen_nonneg (padding e sns)). lia.
  - rewrite <- (log_pos_next d lo e sns Hl). specialize (IH (lo + 1) ltac:(lia) ltac:(lia)). replace (Z.to_nat (lo + 1)) with (S (Z.to_nat lo)) in IH by lia.
    by replace (lo + Z.of_nat (S k)) with (lo + 1 + Z.of_nat k) by lia.
Qed.

(** The raw records of the active entries are those of the live ones. *)
Lemma active_raw_live d t (k : nat) : tree_ok d → ∀ lo i, 0 ≤ lo → lo + Z.of_nat k ≤ lg_next d →
  (∀ j, 0 ≤ j < Z.of_nat k → lo + j ∈ live d ↔ active t (i + j) = true) →
  Forall2 (λ sn raw, ∀ e sns, logged_at d sn e sns → entry_ok e ∧ ∃ n, raw = raw_bytes n e)
    (filter (λ sn, sn ∈ live d) (seqZ lo (Z.of_nat k))) (active_raw (active t) i (take k (drop (Z.to_nat lo) (lg_log d)))).
Proof.
  intros Hok. pose proof (to_len d Hok) as Hlen. induction k as [|k IH]; intros lo i Hlo Hk Hbits; [constructor|].
  destruct (logged_ex d lo) as (e & sns & Hl); [lia|]. rewrite (drop_S _ _ _ (proj2 Hl)). cbn [take active_raw].
  replace (Z.of_nat (S k)) with (Z.succ (Z.of_nat k)) by lia. rewrite seqZ_cons by lia. rewrite Z.pred_succ, filter_cons.
  specialize (IH (Z.succ lo) (i + 1) ltac:(lia) ltac:(lia)). replace (Z.to_nat (Z.succ lo)) with (S (Z.to_nat lo)) in IH by lia.
  ospecialize (IH _). { intros j Hj. replace (Z.succ lo + j) with (lo + (j + 1)) by lia. replace (i + 1 + j) with (i + (j + 1)) by lia. apply Hbits. lia. }
  pose proof (Hbits 0 ltac:(lia)) as H0. rewrite !Z.add_0_r in H0. case_decide as Hc.
  - rewrite (proj1 H0 Hc). constructor; [|done]. intros e' sns' Hl'. destruct (logged_fun _ _ _ _ _ _ Hl Hl') as [<- <-].
    split; [apply (to_log d Hok _ _ _ Hl)|]. by eexists.
  - destruct (active t i); [by destruct Hc; apply H0|done].
Qed.

(** A read may move the pre-reader, which nothing depends on. *)
Lemma tree_pre_read d ef : tree_ok d → af_ok ef → af_keeps (entryFile (lg_tree d)) ef → af_Size ef = af_Size (entryFile (lg_tree d)) →
  let d' := with_tree d (set_entryFile (lg_tree d) ef) in tree_ok d' ∧ live d' = live d.
Proof.
  intros Hok Hef Hk Hsz d'. assert (live d' = live d) as Hlive by by apply live_same. split; [|done].
  destruct Hok as [H1 [S1 S2 S3] [F1 F2 F3 F4 F5] H4 H5 H6 H7 H8 Hwin H9 H10 H11 H12 H13 H14 H15].
  split; rewrite ?Hlive; cbn [d' with_tree lg_next lg_tree lg_entries lg_log lg_oldest lg_flushed entryFile set_entryFile]; try done.
  - by apply tree_inv_entryFile.
  - split; cbn [entryFile set_entryFile]; try done. rewrite Hsz. split; [done|apply F1].
  - rewrite (af_limit_keeps _ _ Hk), (af_block_keeps _ _ Hk). done.
  - by eapply af_window_keeps.
  - by rewrite Hsz.
  - intros n e sns Hl. by apply (log_entry_keeps d d' _ _ n e sns Hk eq_refl id), H11.
Qed.

Lemma tree_active_raws d (k : nat) t : tree_ok d → 2048 = Z.of_nat k → (lg_oldest d + 1) * 2048 < lg_flushed d → lg_next d ≤ block `div` limit →
  activeTwigs (lg_tree d) !! lg_oldest d = Some t →
  ∃ ef raws, active_entries_from (entryFile (lg_tree d)) (FirstEntryPos t) (active t) 0 k = Ret (ef, raws) ∧
    af_ok ef ∧ af_keeps (entryFile (lg_tree d)) ef ∧ af_Size ef = af_Size (entryFile (lg_tree d)) ∧
    Forall2 (λ sn raw, ∀ e sns, logged_at d sn e sns → entry_ok e ∧ ∃ n, raw = raw_bytes n e)
      (filter (λ sn, sn ∈ live d) (seqZ (lg_oldest d * 2048) 2048)) raws.
Proof.
  intros Hok Ek Hfl Hblk Ht. pose proof (to_oldest d Hok) as [Ho _]. pose proof (to_flushed d Hok) as Hfn. pose proof (to_inv d Hok) as H1.
  set (o := lg_oldest d) in *. destruct (logged_ex d (o * 2048)) as (e0 & sns0 & Hl0); [rewrite (to_len d Hok); lia|].
  assert (limit * lg_next d ≤ block) as Hblk'.
  { pose proof (le_fits _ _ _ _ _ (to_log d Hok _ _ _ Hl0)). pose proof (zlen_record_pos e0 sns0). pose proof (Z.mul_div_le block limit ltac:(lia)). nia. }
  pose proof (log_stored d k Hok Hblk' (o * 2048) ltac:(lia) ltac:(lia)) as Hst.
  assert (length (take k (drop (Z.to_nat (o * 2048)) (lg_log d))) = k) as Hlen.
  { rewrite length_take, length_drop. pose proof (to_len d Hok). unfold zlen in *. lia. }
  destruct (active_entries_ok _ _ _ _ (active t) 0 (proj1 (fi_entry _ _ (to_files d Hok))) (to_window d Hok) Hst) as (ef & E1 & Hef & Hff & Hk & Hsz).
  rewrite Hlen, <- (to_first d Hok o t) in E1 by (done || lia).
  pose proof (active_raw_live d t k Hok (o * 2048) 0 ltac:(lia) ltac:(lia)) as Hraw. rewrite <- Ek in Hraw. ospecialize (Hraw _).
  { intros j Hj. rewrite live_elem, (active_readable _ 0 (o * 2048 + j) t) by (done || lia || by replace ((o * 2048 + j) / 2048) with o by zdiv).
    replace ((o * 2048 + j) mod 2048) with (0 + j) by zdiv. split; [intros [_ [= Hb]]; done|]. intros ->. split; [lia|done]. }
  eexists _, _. split; [exact E1|]. done.
Qed.

Lemma GetActiveEntriesInTwig_eq tree id t (k : nat) ef raws : Z.to_nat LeafCountInTwig = k → activeTwigs tree !! id = Some t →
  active_entries_from (entryFile tree) (FirstEntryPos t) (active t) 0 k = Ret (ef, raws) →
  GetActiveEntriesInTwig tree id = Ret (set_entryFile tree ef, raws).
Proof. intros Hk Ht E. unfold GetActiveEntriesInTwig. rewrite Hk. unfold get_twig. rewrite Ht. cbn [mbind outcome_bind mret outcome_ret]. by rewrite E. Qed.

Lemma tree_active_entries d : tree_ok d → (lg_oldest d + 1) * 2048 < lg_flushed d → lg_next d ≤ block `div` limit →
  ∃ t' raws, let d' := with_tree d t' in dt_GetActiveEntriesInTwig d (lg_oldest d) = Ret (d', raws) ∧ tree_ok d' ∧
    deactivedSNList t' = deactivedSNList (lg_tree d) ∧ live d' = live d ∧
    Forall2 (λ sn raw, ∀ pos e, lg_entries d !! pos = Some e → SerialNum e = sn → entry_ok e ∧ ∃ n, raw = raw_bytes n e)
      (filter (λ sn, sn ∈ live d) (seqZ (lg_oldest d * 2048) 2048)) raws.
Proof.
  intros Hok Hfl Hblk. destruct (Z_of_nat_complete 2048 ltac:(lia)) as [k Ek]. pose proof (to_oldest d Hok) as [Ho _]. pose proof (to_flushed d Hok) as Hfn.
  destruct (to_active d Hok (lg_oldest d)) as [t Ht]; [split; [done|]; rewrite (sq_young _ _ (to_seq d Hok)); zdiv|].
  destruct (tree_active_raws d k t Hok Ek Hfl Hblk Ht) as (ef & raws & E1 & Hef & Hk & Hsz & Hraw).
  destruct (tree_pre_read d ef Hok Hef Hk Hsz) as [Hok' Hlive].
  exists (set_entryFile (lg_tree d) ef), raws. cbn zeta. split_and!; [|done|done|done|].
  - unfold dt_GetActiveEntriesInTwig, tree_ops. erewrite GetActiveEntriesInTwig_eq; [reflexivity| |exact Ht|exact E1]. change LeafCountInTwig with 2048. lia.
  - eapply Forall2_impl; [exact Hraw|]. intros sn raw Hr pos e He Hs. destruct (to_entries d Hok pos e He) as (n & sns & Hl & _).
    apply (Hr e sns). rewrite <- Hs, (le_serial _ _ _ _ _ (to_log d Hok _ _ _ Hl)). done.
Qed.

Lemma tree_evict d : tree_ok d → (∀ sn, sn ∈ live d → (lg_oldest d + 1) * 2048 ≤ sn) → (lg_oldest d + 1) * 2048 ≤ lg_next d →
  let d' := evicted d (lg_oldest d) (EvictTwig (lg_tree d) (lg_oldest d)) in tree_ok d' ∧ live d' = live d.
Proof.
  intros Hok Hlive Hn d'. assert (live d' = live d) as Hl by by apply live_same. split; [|done].
  destruct Hok as [H1 [S1 S2 S3] [F1 F2 F3 F4 F5] H4 H5 H6 H7 H8 Hwin H9 H10 H11 H12 H13 H14 H15].
  split; cbn [d' evicted lg_next lg_tree lg_entries lg_log lg_oldest lg_flushed EvictTwig set_toDelete]; try done; try lia.
  - apply EvictTwig_inv; [done|rewrite S2; zdiv|apply H5; rewrite S2; split; [lia|zdiv]|]. intros Hin%H6. lia.
  - intros id Hid. cbn. apply H5. cbn in Hid. lia.
  - intros id [Hid%H6|Hid%list_elem_of_singleton]%elem_of_app; lia.
  - intros n e sns Hlg. by apply (log_entry_keeps d d' _ _ n e sns (reflexivity _) eq_refl id), H11.
Qed.

Definition tree_laws : DataTreeLaws (LoggedTree F).
Proof.
  refine {| dt_ok := tree_ok; dt_synced d := af_flushed (entryFile (lg_tree d)); dt_next := lg_next;
    dt_pending d := zlen (deactivedSNList (lg_tree d)); dt_entries := lg_entries; dt_live := live;
    dt_max := max_entries; dt_fits := fits; dt_first := 2048; dt_compacts := True; dt_compact_max := block `div` limit;
    dt_oldest := lg_oldest; dt_flushed := lg_flushed |}.
  - intros d sn Hok Hsn _. destruct (tree_deactiviate d sn Hok Hsn) as (t' & E1 & H1 & H2 & H3).
    eexists _, _. split; [exact E1|]. split_and!; try done.
  - intros d e v Hok He Hmax Hv Hf Hh Hlh Hp. destruct (tree_append d e v Hok He Hmax Hv Hf Hh Hlh Hp) as (d' & pos & E1 & []). by exists d', pos.
  - intros d pos e Hok Hf He _. exists d. split; [by apply tree_read|done].
  - intros d Hok Hn. destruct (tree_endblock d Hok Hn) as (t' & root & E1 & H1 & H2 & H3 & H4). eexists _, root. split; [exact E1|].
    split_and!; try done. cbn. by rewrite H3.
  - intros d _ Hok Hf Hc. destruct (tree_active_entries d Hok Hf Hc) as (t' & raws & E1 & H1 & H2 & H3 & H4). eexists _, raws. split; [exact E1|].
    split_and!; try done. cbn. by rewrite H2.
  - intros d e v n _ Hok He Hmax Hv Hf Hh Hlh Hp. destruct (tree_append_raw d e v n Hok He Hmax Hv Hf Hh Hlh Hp) as (d' & pos & E1 & []). by exists d', pos.
  - intros d _ Hok Hl Hn. destruct (tree_evict d Hok Hl Hn) as [H1 H2]. eexists. by split.
  - intros d sn _ [? _]%live_elem. done.
  - intros d sn Hok. apply (to_dead d Hok).
  - intros d Hok. apply (to_oldest d Hok).
  - intros d Hok. apply (to_flushed d Hok).
  - intros d _. apply zlen_nonneg.
  - unfold max_entries. lia.
Defined.

(** Short enough keys and values fit. *)
Lemma getAllPos_length s sep : (length (getAllPos s sep) ≤ length s)%nat.
Proof.
  unfold getAllPos. assert (∀ fuel start, (length (getAllPos_from fuel s sep start) ≤ fuel)%nat) as H; [|apply H].
  induction fuel as [|fuel IH]; intros start; cbn [getAllPos_from]; [cbn; lia|]. destruct (_ <? _)%nat; [|cbn; lia].
  destruct (Index _ _) as [i|]; cbn; [|lia]. match goal with |- context [getAllPos_from fuel s sep ?st] => specialize (IH st) end. lia.
Qed.

Lemma fits_small k v nk : let n := zlen k + zlen v + zlen nk in 5 * n + 88 < MaxEntryBytes → 5 * n + 2160 ≤ limit → fits k v nk.
Proof.
  intros n Hb Hl h lh sn sns _ _ _ Hs e.
  assert (body_length e ≤ 5 * n + 88) as Hbody.
  { unfold body_length. pose proof (getAllPos_length (payload_strings e) MagicBytes) as Hp. fold (magic_positions e) in Hp.
    pose proof (zlen_payload_strings e) as Hz. unfold e, ValueBytes in Hz. cbn [Key Value NextKey default id] in Hz. fold e in Hz. unfold n. unfold zlen in *. lia. }
  split; [lia|]. unfold record. rewrite !zlen_app, zlen_padding, zlen_EntryToBytes, zlen_MagicBytes.
  destruct (getPaddingSize_spec (4 + body_length e + 8 * zlen sns)) as [Hp _]; [pose proof (body_length_pos e); pose proof (zlen_nonneg sns); lia|]. lia.
Qed.

(** The empty tree. *)
Lemma empty_ok (ef tf : F) : af_ok ef → af_ok tf → 32 ≤ af_limit tf → af_Size ef = 0 → af_Size tf = 0 → limit ≤ af_limit ef → af_block ef = block →
  af_window ef → tree_ok (mkLogged (NewEmptyTree ef tf) 0 ∅ [] 0 0).
Proof.
  intros Hef Htf Hlim Se St Hl Hb Hw. destruct (NewEmptyTree_ok ef tf Hef Htf Hlim Se St) as (I1 & I2 & I3).
  split; cbn [lg_tree lg_next lg_entries lg_log lg_oldest lg_flushed]; try done.
  - intros id Hid. destruct (ti_youngest _ _ I1) as (t & Ht & _). rewrite (sq_young _ _ I2) in Hid, Ht. change (0 / 2048) with 0 in *.
    replace id with 0 by lia. by eexists.
  - intros id Hid. by apply elem_of_nil in Hid.
  - by intros n e sns [_ He].
  - intros id t Hid Ht. cbn [NewEmptyTree activeTwigs] in Ht. apply lookup_singleton_Some in Ht as [<- _]. lia.
Qed.
End impl.

(** A new file, as [NewHPFile] makes it in an empty directory. *)
Definition new_file (buffer_size block_size : Z) : HPFile :=
  mkHPFile {[ 0 := mkosfile [] 0 ]} block_size 0 0 buffer_size [] PreReader_zero.
Lemma new_file_ok buffer_size block_size : 0 < buffer_size ≤ block_size → hpf_ok (new_file buffer_size block_size).
Proof.
  intros Hb. split; [|cbn; lia]. split; cbn; try done; try lia.
  - exists (mkosfile [] 0). by rewrite lookup_singleton_eq.
  - rewrite zlen_nil. lia.
  - intros id Hid. by rewrite lookup_singleton_ne by lia.
Qed.

(** A new entry file: the same with a pre-reader, as [NewEntryFile] makes it. *)
Definition new_entry_file (buffer_size block_size : Z) : HPFile := InitPreReader (new_file buffer_size block_size).
Lemma new_entry_file_made buffer_size block_size : Z.rem block_size buffer_size = 0 →
  NewEntryFile buffer_size block_size [] = Ret (inr (new_entry_file buffer_size block_size)).
Proof. intros E. unfold NewEntryFile, NewHPFile. by rewrite E. Qed.
Lemma new_entry_file_ok buffer_size block_size : 0 < buffer_size ≤ block_size → hpf_ok (new_entry_file buffer_size block_size).
Proof. intros Hb. apply InitPreReader_ok; [by apply new_file_ok|done]. Qed.
