(* ===== verification/StoreTypes.v ===== *)
(** * The data types and interfaces of the store layer (store/types/types.go)

    Store keys, serializable objects, iterators, the status of a cache lookup.
    A Go [\[\]byte] that may be nil is an [option bytes]; a variable of an interface
    type is nil ([None]) or an object. *)
From S2P Require Import Prelude ByteOrder.

(** ** Store keys *)

Record StrStoreKey := NewStrStoreKey { key_name : string; key_prefix : bytes }.
Definition StoreKey_Name (k : StrStoreKey) : string := key_name k.
Definition StoreKey_Prefix (k : StrStoreKey) : bytes := key_prefix k.

(** ** Objects *)

Class Serializable (Ob : Type) := {
  ToBytes : Ob → option bytes;
  FromBytes : Ob → option bytes → outcome Ob;
  DeepCopy : Ob → Ob
}.

(** What the stores rely on: an object has bytes, its copy has the same, and
    an object read from bytes has these bytes. *)
Class SerializableLaws (Ob : Type) `{!Serializable Ob} := {
  ToBytes_slice (o : Ob) : is_Some (ToBytes o);
  FromBytes_ToBytes (o o' : Ob) bz : FromBytes o (Some bz) = Ret o' → ToBytes o' = Some bz;
  DeepCopy_ToBytes (o : Ob) : ToBytes (DeepCopy o) = ToBytes o
}.

(** [( *ptr).FromBytes(bz)] *)
Definition ptr_FromBytes {Ob} `{!Serializable Ob} (ptr : option Ob) (bz : option bytes) : outcome (option Ob) :=
  match ptr with
  | Some o => o ← FromBytes o bz; Ret (Some o)
  | None => Panic "nil pointer dereference"
  end.

(** ** Iterators *)

(** [I] is the iterator, [S] the state of what it iterates over. *)
Class ObjIterator (Ob S I : Type) := {
  oi_Domain : I → bytes * bytes;
  oi_Valid : stM (S * I) bool;
  oi_Next : stM (S * I) unit;
  oi_Key : stM (S * I) bytes;
  oi_Value : stM (S * I) (option bytes);
  oi_ObjValue : option Ob → stM (S * I) (option Ob)
}.

(** [same s s']: reading has changed nothing but buffers. *)
Class Same (S : Type) := same : S → S → Prop.
Class SameLaws (S : Type) `{!Same S} := same_preorder :: PreOrder (same (S := S)).

(** An object read from a key with value [bz]: one with these bytes, or what
    the client's object reads from them. *)
Definition read_object {Ob} `{!Serializable Ob} (ptr : option Ob) (bz : bytes) (o : Ob) : Prop :=
  ToBytes o = Some bz ∨ ∃ o0, ptr = Some o0 ∧ FromBytes o0 (Some bz) = Ret o.

(** What an iterator promises: [yields s it l] says that [l] is what it goes
    through, the keys with their values. *)
Class IterLaws (Ob S I : Type) `{!Same S, !ObjIterator Ob S I} := {
  yields : S → I → list (bytes * option bytes) → Prop;
  yields_same s s' it l : same s s' → yields s it l → yields s' it l;
  Valid_ok s it l : yields s it l → ∃ s' it', oi_Valid (s, it) = Ret (bool_decide (l ≠ []), (s', it')) ∧ same s s' ∧ yields s' it' l;
  Next_ok s it x l : yields s it (x :: l) → ∃ s' it', oi_Next (s, it) = Ret (tt, (s', it')) ∧ same s s' ∧ yields s' it' l;
  Key_ok s it x l : yields s it (x :: l) → ∃ s' it', oi_Key (s, it) = Ret (x.1, (s', it')) ∧ same s s' ∧ yields s' it' (x :: l);
  Value_ok s it x l : yields s it (x :: l) → ∃ s' it', oi_Value (s, it) = Ret (x.2, (s', it')) ∧ same s s' ∧ yields s' it' (x :: l)
}.

(** A client's loop over an iterator. *)
Fixpoint oi_collect {Ob S I} `{!ObjIterator Ob S I} (fuel : nat) : stM (S * I) (list (bytes * option bytes)) :=
  match fuel with
  | O => st_panic "out of fuel"
  | S fuel =>
      valid ← oi_Valid;
      if (valid : bool) then
        k ← oi_Key; v ← oi_Value; _ ← oi_Next; l ← oi_collect fuel; mret ((k, v) :: l)
      else mret []
  end.

Section iterators.
Context {Ob St I : Type} `{!Same St, !SameLaws St, HI : !ObjIterator Ob St I, !IterLaws Ob St I}.
Implicit Types (s : St) (it : I) (l : list (bytes * option bytes)).

Definition at_items s0 l : St * I → Prop := λ '(s, it), same s0 s ∧ yields s it l.

Lemma Valid_returns s0 l : returns (at_items s0 l) oi_Valid (λ b x, b = bool_decide (l ≠ []) ∧ at_items s0 l x).
Proof.
  intros [s it] [Hs Hy]. destruct (Valid_ok _ _ _ Hy) as (s' & it' & E & H1 & H2).
  eexists _, (s', it'). split; [exact E|]. split; [done|]. split; [by etrans|done].
Qed.
Lemma Next_returns s0 x l : returns (at_items s0 (x :: l)) oi_Next (λ _, at_items s0 l).
Proof.
  intros [s it] [Hs Hy]. destruct (Next_ok _ _ _ _ Hy) as (s' & it' & E & H1 & H2).
  eexists _, (s', it'). split; [exact E|]. split; [by etrans|done].
Qed.
Lemma Key_returns s0 x l : returns (at_items s0 (x :: l)) oi_Key (λ k y, k = x.1 ∧ at_items s0 (x :: l) y).
Proof.
  intros [s it] [Hs Hy]. destruct (Key_ok _ _ _ _ Hy) as (s' & it' & E & H1 & H2).
  eexists _, (s', it'). split; [exact E|]. split; [done|]. split; [by etrans|done].
Qed.
Lemma Value_returns s0 x l : returns (at_items s0 (x :: l)) oi_Value (λ v y, v = x.2 ∧ at_items s0 (x :: l) y).
Proof.
  intros [s it] [Hs Hy]. destruct (Value_ok _ _ _ _ Hy) as (s' & it' & E & H1 & H2).
  eexists _, (s', it'). split; [exact E|]. split; [done|]. split; [by etrans|done].
Qed.

Lemma collect_returns s0 l : ∀ fuel, (length l < fuel)%nat →
  returns (at_items s0 l) (oi_collect fuel) (λ r x, r = l ∧ at_items s0 [] x).
Proof.
  induction l as [|[k v] l IH]; intros [|fuel] Hf; cbn [length] in Hf; try lia; cbn [oi_collect].
  - eapply returns_bind; [apply Valid_returns|]. intros b. apply returns_pure. intros ->. rewrite bool_decide_eq_false_2 by naive_solver.
    apply returns_ret.
  - eapply returns_bind; [apply Valid_returns|]. intros b. apply returns_pure. intros ->. rewrite bool_decide_eq_true_2 by done.
    eapply returns_bind; [apply Key_returns|]. intros k'. apply returns_pure. intros ->.
    eapply returns_bind; [apply Value_returns|]. intros v'. apply returns_pure. intros ->.
    eapply returns_bind; [apply Next_returns|]. intros ?.
    eapply returns_bind; [apply IH; lia|]. intros r. apply returns_pure. intros ->. apply returns_ret.
Qed.
End iterators.

(** An iterator over a part of a state is one over the state. *)
Section zoom_iter.
Context {Ob S A I : Type} (L : lens S A) (HI : ObjIterator Ob A I).
Definition iter_lens : lens (S * I) (A * I) := Lens (λ '(s, it), (lget L s, it)) (λ '(a, it) '(s, _), (lset L a s, it)).
Lemma zoom_at {X} (m : stM (A * I) X) s it x a it' :
  m (lget L s, it) = Ret (x, (a, it')) → zoom iter_lens m (s, it) = Ret (x, (lset L a s, it')).
Proof. intros E. unfold zoom. cbn [lget iter_lens]. by rewrite E. Qed.
Definition zoom_iter : ObjIterator Ob S I := {|
  oi_Domain := oi_Domain;
  oi_Valid := zoom iter_lens oi_Valid;
  oi_Next := zoom iter_lens oi_Next;
  oi_Key := zoom iter_lens oi_Key;
  oi_Value := zoom iter_lens oi_Value;
  oi_ObjValue ptr := zoom iter_lens (oi_ObjValue ptr)
|}.
End zoom_iter.

Class LensSame {S A} (L : lens S A) `{!Same S, !Same A} := {
  lget_lset s a : lget L (lset L a s) = a;
  lset_same s a : same (lget L s) a → same s (lset L a s);
  lget_same s s' : same s s' → same (lget L s) (lget L s')
}.

Lemma zoom_iter_laws {Ob S A I} (L : lens S A) (HI : ObjIterator Ob A I) `{!Same S, !Same A, !LensSame L, HL : !IterLaws Ob A I} :
  @IterLaws Ob S I _ (zoom_iter L HI).
Proof.
  unshelve refine {| yields := λ s it l, yields (lget L s) it l |}.
  - intros s s' it l Hs. apply yields_same. by apply lget_same.
  - intros s it l H. destruct (Valid_ok _ _ _ H) as (s' & it' & E & H1 & H2). exists (lset L s' s), it'.
    split; [exact (zoom_at L _ _ _ _ _ _ E)|]. rewrite lget_lset. split; [by apply lset_same|done].
  - intros s it x l H. destruct (Next_ok _ _ _ _ H) as (s' & it' & E & H1 & H2). exists (lset L s' s), it'.
    split; [exact (zoom_at L _ _ _ _ _ _ E)|]. rewrite lget_lset. split; [by apply lset_same|done].
  - intros s it x l H. destruct (Key_ok _ _ _ _ H) as (s' & it' & E & H1 & H2). exists (lset L s' s), it'.
    split; [exact (zoom_at L _ _ _ _ _ _ E)|]. rewrite lget_lset. split; [by apply lset_same|done].
  - intros s it x l H. destruct (Value_ok _ _ _ _ H) as (s' & it' & E & H1 & H2). exists (lset L s' s), it'.
    split; [exact (zoom_at L _ _ _ _ _ _ E)|]. rewrite lget_lset. split; [by apply lset_same|done].
Defined.

Inductive CacheStatus := Missed | Hit | JustDeleted.
