(* ===== verification/Client.v ===== *)
(** * What a client does to a store in a block

    It prepares the keys it may write, then sets and deletes keys; and what
    these writes mean for the contents of the store, a map. *)
From S2P Require Import Prelude.

(** The calls of a client before the block. *)
Inductive prep : Type := PrepUpdate (k : bytes) | PrepDeletion (k : bytes).
Definition prep_key (p : prep) : bytes := match p with PrepUpdate k | PrepDeletion k => k end.

(** The writes of a client in a block. *)
Inductive write : Type := SetKey (k v : bytes) | DeleteKey (k : bytes).
Definition write_key (w : write) : bytes := match w with SetKey k _ | DeleteKey k => k end.
(** The preparation a write needs. *)
Definition write_prep (w : write) : prep := match w with SetKey k _ => PrepUpdate k | DeleteKey k => PrepDeletion k end.

Definition spec_write (m : gmap bytes bytes) (w : write) : gmap bytes bytes :=
  match w with SetKey k v => <[k := v]> m | DeleteKey k => delete k m end.
Definition spec_after (m : gmap bytes bytes) (ws : list write) : gmap bytes bytes := foldl spec_write m ws.

Lemma spec_write_other m w k : write_key w ≠ k → spec_write m w !! k = m !! k.
Proof. destruct w; cbn; intros H; [by rewrite lookup_insert_ne|by rewrite lookup_delete_ne]. Qed.
Lemma spec_after_app m ws ws' : spec_after m (ws ++ ws') = spec_after (spec_after m ws) ws'.
Proof. apply foldl_app. Qed.
