(* ===== verification/CacheStore.v ===== *)
(** * The cache of a store (store/cache.go; the values of store/b/btree.go)

    A B-tree from keys to values: bytes, objects, the marker of a deleted key,
    or nothing, for an object moved out by [GetObj]. The tree is behind the
    interface [BTreeOps]. Objects are values of a type [Ob]: the code moves,
    copies or hands them out as read-only, so a pointer is not written through
    while the cache holds it. Closing an enumerator returns it to a pool and
    is left out. *)
From S2P Require Import Prelude ByteOrder BTreeSpec StoreTypes.

(** ** Values *)

(** The dynamic type of an [interface{}] held in the tree. *)
Inductive any (Ob : Type) : Type :=
| Nil
| Bytes (bz : option bytes)
| Object (o : Ob)
| DeletedMarker.
Arguments Nil {Ob}.
Arguments Bytes {Ob} bz.
Arguments Object {Ob} o.
Arguments DeletedMarker {Ob}.

Section cache.
Context {Ob T E : Type} `{SO : !Serializable Ob}.

Record Value := mkValue { obj : any Ob }.
Context `{BO : !BTreeOps Value T E}.
Implicit Types (cs : T) (key value : bytes) (ptr : option Ob) (v : Value).

Definition NilValue : Value := mkValue Nil.
Definition DeletedValue : Value := mkValue DeletedMarker.
Definition NewValue (o : any Ob) : Value := mkValue o.
Definition HasNilValue v : bool := match obj v with Nil => true | _ => false end.
Definition IsDeleted v : bool := match obj v with DeletedMarker => true | _ => false end.
Definition GetObj v : any Ob := if IsDeleted v then Nil else obj v.

(** [obj.(types.Serializable)] panics on nil and on another type; a
    [types.Serializable] that is nil is the nil [interface{}]. *)
Definition as_serializable (o : any Ob) : outcome Ob :=
  match o with Object o => Ret o | _ => Panic "interface conversion" end.
Definition of_serializable (o : option Ob) : any Ob := match o with Some o => Object o | None => Nil end.

(** The bytes of a value: the value itself, or those of the object. *)
Definition any_bytes (o : any Ob) : outcome (option bytes) :=
  match o with
  | Bytes bz => mret bz
  | _ => o ← as_serializable o; mret (ToBytes o)
  end.
(** [reflect.ValueOf(ptr).Elem().Set(reflect.ValueOf(obj))] panics on nil. *)
Definition reflect_set (o : any Ob) : outcome (option Ob) := o ← as_serializable o; mret (Some o).
Definition any_object ptr (o : any Ob) : outcome (option Ob) :=
  match o with Bytes bz => ptr_FromBytes ptr bz | _ => reflect_set o end.

(** ** The store *)

Definition NewCacheStore : T := bt_TreeNew.
Definition Cache_Size cs : Z := bt_Len cs.

Definition Cache_Get cs key : outcome (option bytes * CacheStatus) :=
  o ← bt_Get cs key;
  match o with
  | None => mret (None, Missed)
  | Some v => if IsDeleted v then mret (None, JustDeleted) else res ← any_bytes (GetObj v); mret (res, Hit)
  end.

Definition Cache_GetObj cs key ptr : outcome ((CacheStatus * option Ob) * T) :=
  bt_Put cs key (λ o, match o with
    | Some oldV =>
        if IsDeleted oldV then mret ((JustDeleted, ptr), None) else
        match GetObj oldV with
        | Bytes bz => p ← ptr_FromBytes ptr bz; mret ((Hit, p), None)
        | o => p ← reflect_set o; mret ((Hit, p), Some NilValue)
        end
    | None => mret ((Missed, ptr), None)
    end).

Definition Cache_GetObjCopy cs key ptr : outcome (CacheStatus * option Ob) :=
  o ← bt_Get cs key;
  match o with
  | None => mret (Missed, ptr)
  | Some v =>
      if IsDeleted v then mret (JustDeleted, ptr) else
      match GetObj v with
      | Bytes bz => p ← ptr_FromBytes ptr bz; mret (Hit, p)
      | o => sobj ← as_serializable o; mret (Hit, Some (DeepCopy sobj))
      end
  end.

Definition Cache_GetReadOnlyObj cs key ptr : outcome (CacheStatus * option Ob) :=
  o ← bt_Get cs key;
  match o with
  | None => mret (Missed, ptr)
  | Some v => if IsDeleted v then mret (JustDeleted, ptr) else p ← any_object ptr (GetObj v); mret (Hit, p)
  end.

Definition Cache_Set cs key (value : option bytes) : outcome T := bt_Set cs key (NewValue (Bytes value)).
Definition Cache_SetObj cs key (o : option Ob) : outcome T := bt_Set cs key (NewValue (of_serializable o)).
Definition Cache_RealDelete cs key : outcome T := '(_, cs) ← bt_Delete cs key; mret cs.
Definition Cache_Delete cs key : outcome T := bt_Set cs key DeletedValue.

(** The callback gets the key, the object and whether the key is deleted; [X] is the state it changes. *)
Fixpoint scan_entries {X} (fn : bytes → any Ob → bool → stM X unit) (fuel : nat) cs (e : E) : stM X unit :=
  match fuel with
  | O => st_panic "out of fuel"
  | S fuel =>
      '(o, e) ← st_lift (en_Next cs e);
      match o with
      | None => mret tt
      | Some (key, value) =>
          if HasNilValue value then st_panic "Dangling Cache Entry" else
          _ ← fn key (GetObj value) (IsDeleted value);
          scan_entries fn fuel cs e
      end
  end.
Definition ScanAllEntries {X} (fn : bytes → any Ob → bool → stM X unit) (fuel : nat) cs : stM X unit :=
  o ← st_lift (bt_SeekFirst cs);
  match o with
  | None => mret tt
  | Some e => scan_entries fn fuel cs e
  end.

(** ** Iterators *)

Record CacheIter := mkCacheIter {
  ci_enumerator : option E; ci_start : bytes; ci_end : bytes;
  ci_key : bytes; ci_value : Value; ci_err : bool
}.
(** [ForwardIter] and [BackwardIter] have the same fields. *)
Inductive CacheObjIter := Forward (iter : CacheIter) | Backward (iter : CacheIter).
Definition ci_of (it : CacheObjIter) : CacheIter := match it with Forward iter | Backward iter => iter end.

(** [iter.key, iter.value, iter.err = ...], then the test of the bound. *)
Definition ci_fill (iter : CacheIter) (o : option (bytes * Value)) (e : E) (beyond : bytes → bool) : CacheIter :=
  match o with
  | Some (key, value) => mkCacheIter (Some e) (ci_start iter) (ci_end iter) key value (beyond key)
  | None => mkCacheIter (Some e) (ci_start iter) (ci_end iter) [] NilValue true
  end.

Definition ForwardIter_Next cs (iter : CacheIter) : outcome CacheIter :=
  match ci_enumerator iter with
  | None => Panic "nil pointer dereference"
  | Some e => '(o, e) ← en_Next cs e; mret (ci_fill iter o e (λ key, negb (bytes_ltb key (ci_end iter))))
  end.
Definition BackwardIter_Next cs (iter : CacheIter) : outcome CacheIter :=
  match ci_enumerator iter with
  | None => Panic "nil pointer dereference"
  | Some e => '(o, e) ← en_Prev cs e; mret (ci_fill iter o e (λ key, bytes_ltb key (ci_start iter)))
  end.

Definition ci_Valid (iter : CacheIter) : bool := negb (ci_err iter).
Definition ci_Value (iter : CacheIter) : outcome (option bytes) :=
  if negb (ci_Valid iter) then mret None else
  if IsDeleted (ci_value iter) then mret None else any_bytes (GetObj (ci_value iter)).
Definition ci_ObjValue (iter : CacheIter) ptr : outcome (option Ob) :=
  if negb (ci_Valid iter) then mret None else
  if IsDeleted (ci_value iter) then mret None else any_object ptr (GetObj (ci_value iter)).

Definition ci_Next cs (it : CacheObjIter) : outcome CacheObjIter :=
  match it with
  | Forward iter => iter ← ForwardIter_Next cs iter; mret (Forward iter)
  | Backward iter => iter ← BackwardIter_Next cs iter; mret (Backward iter)
  end.

Definition Cache_Iterator cs (start end_ : bytes) : outcome CacheObjIter :=
  if negb (bytes_ltb start end_) then mret (Forward (mkCacheIter None start end_ [] NilValue true)) else
  '(e, _) ← bt_Seek cs start;
  ci_Next cs (Forward (mkCacheIter (Some e) start end_ [] NilValue false)).

Definition Cache_ReverseIterator cs (start end_ : bytes) : outcome CacheObjIter :=
  if negb (bytes_ltb start end_) then mret (Backward (mkCacheIter None start end_ [] NilValue true)) else
  '(e, ok) ← bt_Seek cs end_;
  e ← (if (ok : bool) then '(_, e) ← en_Prev cs e; mret e else mret e);
  ci_Next cs (Backward (mkCacheIter (Some e) start end_ [] NilValue false)).

#[export] Instance cache_iterator : ObjIterator Ob T CacheObjIter := {|
  oi_Domain it := (ci_start (ci_of it), ci_end (ci_of it));
  oi_Valid := λ '(cs, it), Ret (ci_Valid (ci_of it), (cs, it));
  oi_Next := λ '(cs, it), it ← ci_Next cs it; Ret (tt, (cs, it));
  oi_Key := λ '(cs, it), Ret (ci_key (ci_of it), (cs, it));
  oi_Value := λ '(cs, it), v ← ci_Value (ci_of it); Ret (v, (cs, it));
  oi_ObjValue ptr := λ '(cs, it), p ← ci_ObjValue (ci_of it) ptr; Ret (p, (cs, it))
|}.
End cache.
Arguments Value Ob : clear implicits.
Arguments CacheIter Ob E : clear implicits.
Arguments CacheObjIter Ob E : clear implicits.

(** ** What a cache means *)

Section cache_laws.
Context {Ob T E : Type} `{SO : !Serializable Ob, !SerializableLaws Ob, BO : !BTreeOps (Value Ob) T E, !BTreeLaws (Value Ob) T E}.
Implicit Types (cs : T) (key value : bytes) (ptr : option Ob) (v : Value Ob).

(** A value stands for bytes, or for a deleted key; a clean one is neither a
    moved-out object nor a nil slice. *)
Definition val_view v : option bytes :=
  match obj v with Bytes bz => bz | Object o => ToBytes o | _ => None end.
Definition clean v : Prop :=
  match obj v with Nil => False | Bytes bz => is_Some bz | _ => True end.

Record cache_ok cs : Prop := { co_tree : bt_ok cs; co_clean k v : bt_map cs !! k = Some v → clean v }.
Definition cache_view cs : gmap bytes (option bytes) := val_view <$> bt_map cs.

Lemma clean_bytes v : clean v → IsDeleted v = false → ∃ bz, val_view v = Some bz ∧ any_bytes (GetObj v) = Ret (Some bz).
Proof.
  destruct v as [[|[bz|]|o|]]; cbn; try done; intros Hc _; [by exists bz|].
  destruct (ToBytes_slice o) as [bz Hbz]. exists bz. rewrite Hbz. done.
Qed.
Lemma deleted_view v : IsDeleted v = true → val_view v = None.
Proof. by destruct v as [[]]. Qed.

Lemma Cache_Get_ok cs key : cache_ok cs → Cache_Get cs key = Ret (match cache_view cs !! key with
  | None => (None, Missed) | Some None => (None, JustDeleted) | Some (Some bz) => (Some bz, Hit) end).
Proof.
  intros [Hok Hc]. unfold Cache_Get, cache_view. rewrite bt_Get_ok, lookup_fmap by done. cbn [mbind outcome_bind].
  destruct (bt_map cs !! key) as [v|] eqn:Hv; [|done]. cbn [fmap option_fmap option_map].
  destruct (IsDeleted v) eqn:Hd; [by rewrite deleted_view|].
  destruct (clean_bytes v (Hc _ _ Hv) Hd) as (bz & -> & ->). done.
Qed.

Lemma any_object_ok ptr v bz p : clean v → IsDeleted v = false → val_view v = Some bz → any_object ptr (GetObj v) = Ret p →
  ∃ o, p = Some o ∧ read_object ptr bz o.
Proof.
  destruct v as [[|bz'|o|]]; cbn; try done; intros Hc _.
  - intros -> H. destruct ptr as [o0|]; [|done]. cbn in H. destruct (FromBytes o0 (Some bz)) as [o|] eqn:Ho; [|done].
    injection H as <-. exists o. split; [done|]. right. by exists o0.
  - intros Hb [= <-]. exists o. split; [done|]. by left.
Qed.

(** Reading an object: the status tells what the key is, and the object has
    the bytes of the key. *)
Lemma Cache_GetReadOnlyObj_ok cs key ptr st p : cache_ok cs → Cache_GetReadOnlyObj cs key ptr = Ret (st, p) →
  match cache_view cs !! key with
  | None => st = Missed ∧ p = ptr
  | Some None => st = JustDeleted ∧ p = ptr
  | Some (Some bz) => st = Hit ∧ ∃ o, p = Some o ∧ read_object ptr bz o
  end.
Proof.
  intros [Hok Hc]. unfold Cache_GetReadOnlyObj, cache_view. rewrite bt_Get_ok, lookup_fmap by done. cbn [mbind outcome_bind].
  destruct (bt_map cs !! key) as [v|] eqn:Hv; [|by intros [= <- <-]]. cbn [fmap option_fmap option_map].
  destruct (IsDeleted v) eqn:Hd; [rewrite (deleted_view _ Hd); by intros [= <- <-]|].
  destruct (clean_bytes v (Hc _ _ Hv) Hd) as (bz & Hview & _). rewrite Hview. intros H. invert_ret.
  split; [done|]. by apply (any_object_ok _ v _ _ (Hc _ _ Hv) Hd Hview).
Qed.
Lemma Cache_GetObjCopy_ok cs key ptr st p : cache_ok cs → Cache_GetObjCopy cs key ptr = Ret (st, p) →
  match cache_view cs !! key with
  | None => st = Missed ∧ p = ptr
  | Some None => st = JustDeleted ∧ p = ptr
  | Some (Some bz) => st = Hit ∧ ∃ o, p = Some o ∧ read_object ptr bz o
  end.
Proof.
  intros [Hok Hc]. unfold Cache_GetObjCopy, cache_view. rewrite bt_Get_ok, lookup_fmap by done. cbn [mbind outcome_bind].
  destruct (bt_map cs !! key) as [v|] eqn:Hv; [|by intros [= <- <-]]. cbn [fmap option_fmap option_map].
  destruct (IsDeleted v) eqn:Hd; [rewrite (deleted_view _ Hd); by intros [= <- <-]|].
  destruct (clean_bytes v (Hc _ _ Hv) Hd) as (bz & Hview & _). rewrite Hview. intros H.
  destruct v as [[|bz'|o|]]; cbn in Hview, H, Hd; try done.
  - subst bz'. destruct ptr as [o0|]; [|done]. cbn in H. destruct (FromBytes o0 (Some bz)) as [o|] eqn:Ho; [|done].
    cbn in H. injection H as <- <-. split; [done|]. exists o. split; [done|]. right. by exists o0.
  - injection H as <- <-. split; [done|]. exists (DeepCopy o). split; [done|]. left. by rewrite DeepCopy_ToBytes.
Qed.

Lemma cache_insert cs cs' key v : cache_ok cs → clean v → bt_ok cs' → bt_map cs' = <[key := v]> (bt_map cs) →
  cache_ok cs' ∧ cache_view cs' = <[key := val_view v]> (cache_view cs).
Proof.
  intros [Hok Hc] Hv Hok' E'. split; [|unfold cache_view; by rewrite E', fmap_insert]. split; [done|]. intros k w. rewrite E'.
  intros [[<- <-]|[Hne Hw]]%lookup_insert_Some; [done|by eapply Hc].
Qed.
Lemma Cache_Set_ok cs key value : cache_ok cs →
  ∃ cs', Cache_Set cs key (Some value) = Ret cs' ∧ cache_ok cs' ∧ cache_view cs' = <[key := Some value]> (cache_view cs).
Proof.
  intros Hc. destruct (bt_Set_ok cs key (NewValue (Bytes (Some value))) (co_tree _ Hc)) as (cs' & E1 & H1 & H2).
  exists cs'. split; [done|]. apply (cache_insert cs cs' key (NewValue (Bytes (Some value)))); [done|by eexists|done|done].
Qed.
Lemma Cache_SetObj_ok cs key (o : Ob) : cache_ok cs →
  ∃ cs', Cache_SetObj cs key (Some o) = Ret cs' ∧ cache_ok cs' ∧ cache_view cs' = <[key := ToBytes o]> (cache_view cs).
Proof.
  intros Hc. destruct (bt_Set_ok cs key (NewValue (Object o)) (co_tree _ Hc)) as (cs' & E1 & H1 & H2).
  exists cs'. split; [done|]. apply (cache_insert cs cs' key (NewValue (Object o))); [done|done|done|done].
Qed.
Lemma Cache_Delete_ok cs key : cache_ok cs →
  ∃ cs', Cache_Delete cs key = Ret cs' ∧ cache_ok cs' ∧ cache_view cs' = <[key := None]> (cache_view cs).
Proof.
  intros Hc. destruct (bt_Set_ok cs key DeletedValue (co_tree _ Hc)) as (cs' & E1 & H1 & H2).
  exists cs'. split; [done|]. apply (cache_insert cs cs' key DeletedValue); [done|done|done|done].
Qed.
Lemma NewCacheStore_ok : cache_ok NewCacheStore ∧ cache_view NewCacheStore = ∅.
Proof.
  destruct bt_TreeNew_ok as [H1 H2]. unfold NewCacheStore. split; [split; [done|]|].
  - intros k v. by rewrite H2.
  - unfold cache_view. by rewrite H2, fmap_empty.
Qed.

(** [ScanAllEntries] calls [fn] on every entry, in order. *)
Definition run_entries {X} (fn : bytes → any Ob → bool → stM X unit) (l : list (bytes * Value Ob)) : stM X unit :=
  foldr (λ '(k, v) m, _ ← fn k (GetObj v) (IsDeleted v); m) (mret tt) l.

Lemma scan_entries_ok {X} (fn : bytes → any Ob → bool → stM X unit) cs : cache_ok cs → ∀ l fuel e P (x : X),
  en_fwd cs e P → (∀ k k', P k → k <b k' → P k') → ascending (bt_map cs) P l → (length l < fuel)%nat →
  scan_entries fn fuel cs e x = run_entries fn l x.
Proof.
  intros [Hok Hc]. induction l as [|[k v] l IH]; intros [|fuel] e P x He Hup Hl Hf; cbn [length] in Hf; try lia; cbn [scan_entries];
    destruct (en_Next_ok _ _ _ Hok He) as (o & e' & E1 & Ho & He'); unfold mbind at 1, stM_bind at 1, st_lift; rewrite E1; cbn [mbind outcome_bind].
  all: assert (ascending (bt_map cs) (λ k, P k ∧ True) _) as Hl2 by (eapply items_in_iff; [|exact Hl]; naive_solver).
  all: pose proof (first_in_ascending _ _ (λ _, True) _ _ Hup (λ _ _ _ _, I) Ho Hl2) as H.
  - destruct o as [[k v]|]; [by destruct (H k v)|done].
  - destruct H as (-> & _ & Hl'). pose proof Hl' as [_ Hin]. assert (HasNilValue v = false) as ->.
    { destruct Ho as (Hv & _ & _). specialize (Hc _ _ Hv). by destruct v as [[]]. }
    cbn. unfold mbind, stM_bind. destruct (fn k (GetObj v) (IsDeleted v) x) as [[u x']|]; [|done]. cbn [mbind outcome_bind].
    eapply IH; [exact He'|intros a b Ha Hab; by eapply bytes_lt_trans| |lia].
    eapply items_in_iff; [|exact Hl']. naive_solver.
Qed.
Lemma ScanAllEntries_ok {X} (fn : bytes → any Ob → bool → stM X unit) cs fuel x : cache_ok cs → (size (bt_map cs) < fuel)%nat →
  ∃ l, ascending (bt_map cs) (λ _, True) l ∧ ScanAllEntries fn fuel cs x = run_entries fn l x.
Proof.
  intros Hc Hf. pose proof (items_ascending (λ _, true) (bt_map cs)) as Hl.
  assert (ascending (bt_map cs) (λ _, True) (items (λ _, true) (bt_map cs))) as Hl' by (eapply items_in_iff; [|exact Hl]; naive_solver).
  exists (items (λ _, true) (bt_map cs)). split; [done|]. set (l := items _ _) in *.
  destruct (bt_SeekFirst_ok cs (co_tree _ Hc)) as (o & E1 & Ho). unfold ScanAllEntries, mbind at 1, stM_bind at 1, st_lift. rewrite E1.
  cbn [mbind outcome_bind]. destruct o as [e|].
  - eapply scan_entries_ok; [done|exact Ho|done|done|]. pose proof (ascending_length _ _ _ Hl'). lia.
  - destruct l as [|[k v] l]; [done|]. pose proof Hl' as [_ Hin]. destruct (proj1 (Hin k v)) as [Hk _]; [by left|]. by rewrite Ho in Hk.
Qed.
End cache_laws.

(** ** The iterators of a cache *)

Section cache_iterators.
Context {Ob T E : Type} `{SO : !Serializable Ob, !SerializableLaws Ob, BO : !BTreeOps (Value Ob) T E, !BTreeLaws (Value Ob) T E}.
Implicit Types (cs : T) (it : CacheObjIter Ob E) (L : list (bytes * Value Ob)) (l : list (bytes * option bytes)).

(** Where the enumerator of an iterator is: [L] is what it has not given yet. *)
Definition ci_rest cs it L : Prop :=
  match it with
  | Forward iter => ∃ e P, ci_enumerator iter = Some e ∧ en_fwd cs e P ∧ (∀ k k', P k → k <b k' → P k') ∧
      ascending (bt_map cs) (λ k, P k ∧ k <b ci_end iter) L
  | Backward iter => ∃ e P, ci_enumerator iter = Some e ∧ en_bwd cs e P ∧ (∀ k k', P k' → k <b k' → P k) ∧
      descending (bt_map cs) (λ k, P k ∧ ci_start iter ≤b k) L
  end.
(** The item it is at comes first. *)
Definition ci_yields cs it l : Prop :=
  cache_ok cs ∧
  match l with
  | [] => ci_err (ci_of it) = true
  | (k, o) :: l => ci_err (ci_of it) = false ∧ ci_key (ci_of it) = k ∧ clean (ci_value (ci_of it)) ∧
      val_view (ci_value (ci_of it)) = o ∧ ∃ L, ci_rest cs it L ∧ l = map_items val_view L
  end.

Lemma ci_Next_ok cs it L : cache_ok cs → ci_rest cs it L → ∃ it', ci_Next cs it = Ret it' ∧ ci_yields cs it' (map_items val_view L).
Proof.
  intros [Hok Hc]. destruct it as [iter|iter]; intros (e & P & He & Hen & HP & HL); cbn [ci_Next].
  - destruct (en_Next_ok _ _ _ Hok Hen) as (o & e' & E1 & Ho & He'). unfold ForwardIter_Next. rewrite He, E1. cbn [mbind outcome_bind].
    eexists. split; [reflexivity|]. split; [done|].
    pose proof (first_in_ascending _ _ (λ k, k <b ci_end iter) _ _ HP (λ k k' H1 H2, bytes_lt_trans _ _ _ H2 H1) Ho HL) as H.
    destruct L as [|[k v] L]; cbn [map_items fmap list_fmap map prod_map fst snd].
    + destruct o as [[k v]|]; [|done]. cbn. specialize (H k v eq_refl). rewrite <- bytes_ltb_lt in H. by destruct (bytes_ltb _ _).
    + destruct H as (-> & Hb & Hl'). cbn. apply bytes_ltb_lt in Hb. rewrite Hb. split_and!; [done|done| |done|].
      * destruct Ho as (Hv & _ & _). by eapply Hc.
      * exists L. split; [|done]. exists e', (λ k', k <b k'). split_and!; [done|done| |done]. intros a b Ha Hab. by eapply bytes_lt_trans.
  - destruct (en_Prev_ok _ _ _ Hok Hen) as (o & e' & E1 & Ho & He'). unfold BackwardIter_Next. rewrite He, E1. cbn [mbind outcome_bind].
    eexists. split; [reflexivity|]. split; [done|].
    pose proof (last_in_descending _ _ (λ k, ci_start iter ≤b k) _ _ HP (λ k k' H1 H2, bytes_le_trans _ _ _ H1 (bytes_lt_le _ _ H2)) Ho HL) as H.
    destruct L as [|[k v] L]; cbn [map_items fmap list_fmap map prod_map fst snd].
    + destruct o as [[k v]|]; [|done]. cbn. specialize (H k v eq_refl). rewrite <- bytes_ltb_ge in H. by destruct (bytes_ltb _ _).
    + destruct H as (-> & Hb & Hl'). cbn. apply bytes_ltb_ge in Hb. rewrite Hb. split_and!; [done|done| |done|].
      * destruct Ho as (Hv & _ & _). by eapply Hc.
      * exists L. split; [|done]. exists e', (λ k', k' <b k). split_and!; [done|done| |done]. intros a b Ha Hab. by eapply bytes_lt_trans.
Qed.

Lemma Cache_Iterator_ok cs start end_ l : cache_ok cs → ascending (cache_view cs) (in_bounds start end_) l →
  ∃ it, Cache_Iterator cs start end_ = Ret it ∧ ci_yields cs it l.
Proof.
  intros Hc Hl. unfold Cache_Iterator. destruct (bytes_ltb start end_) eqn:Hse; cbn [negb].
  2:{ rewrite (ascending_bounds_nil _ _ _ _ ltac:(by rewrite <- bytes_ltb_lt, Hse) Hl). eexists. split; [reflexivity|]. done. }
  destruct (bt_Seek_ok _ start (co_tree _ Hc)) as (e & Ee & Hf & _). rewrite Ee. cbn [mbind outcome_bind].
  pose proof (bounded_items (bt_map cs) start end_) as HL'.
  rewrite (ascending_unique _ _ _ _ Hl (ascending_fmap val_view _ _ _ HL')).
  apply ci_Next_ok; [done|]. exists e, (λ k, start ≤b k). split_and!; [done|done| |done]. intros *; intros ??; by eapply bytes_le_trans, bytes_lt_le.
Qed.
Lemma Cache_ReverseIterator_ok cs start end_ l : cache_ok cs → descending (cache_view cs) (in_bounds start end_) l →
  ∃ it, Cache_ReverseIterator cs start end_ = Ret it ∧ ci_yields cs it l.
Proof.
  intros Hc Hl. unfold Cache_ReverseIterator. destruct (bytes_ltb start end_) eqn:Hse; cbn [negb].
  2:{ rewrite (descending_bounds_nil _ _ _ _ ltac:(by rewrite <- bytes_ltb_lt, Hse) Hl). eexists. split; [reflexivity|]. done. }
  destruct (bt_Seek_ok _ end_ (co_tree _ Hc)) as (e & Ee & _ & Hb). rewrite Ee. cbn [mbind outcome_bind].
  pose proof (descending_rev _ _ _ (bounded_items (bt_map cs) start end_)) as HL'.
  rewrite (descending_unique _ _ _ _ Hl (descending_fmap val_view _ _ _ HL')).
  case_bool_decide as Hhit.
  - destruct (en_Prev_ok _ _ _ (co_tree _ Hc) Hb) as (o & e' & E1 & Ho & He'). rewrite E1. cbn [mbind outcome_bind mret outcome_ret].
    destruct (last_in_hit _ _ _ Hhit Ho) as [v ->].
    apply ci_Next_ok; [done|]. exists e', (λ k, k <b end_). split_and!; [done|done|intros * ??; by eapply bytes_lt_trans|].
    eapply items_in_iff; [|exact HL']. intros k _. unfold in_bounds. cbn. tauto.
  - cbn [mbind outcome_bind mret outcome_ret].
    apply ci_Next_ok; [done|]. exists e, (λ k, k ≤b end_). split_and!; [done|done|intros * ??; by eapply bytes_lt_le, bytes_lt_le_trans|].
    eapply items_in_iff; [|exact HL']. intros k Hk. unfold in_bounds. cbn. rewrite (bytes_le_lteq k end_).
    split; [intros [??]; auto|]. intros [[?| ->] ?]; [done|]. by destruct Hhit.
Qed.

(** Reading a cache does not change it. *)
Definition cache_same : Same T := eq.
#[export] Instance cache_iterator_laws : @IterLaws Ob T (CacheObjIter Ob E) cache_same cache_iterator.
Proof.
  refine {| yields := ci_yields |}.
  - by intros s s' it l <-.
  - intros cs it l [Hc Hl]. exists cs, it. split; [|done]. cbn. unfold ci_Valid.
    destruct l as [|[k o] l]; [by rewrite Hl|]. by destruct Hl as [-> _].
  - intros cs it [k o] l [Hc (He & Hk & Hcl & Hv & L & HL & ->)]. destruct (ci_Next_ok cs it L Hc HL) as (it' & E1 & H).
    exists cs, it'. split; [|done]. cbn. by rewrite E1.
  - intros cs it [k o] l [Hc (He & Hk & H)]. exists cs, it. split; [cbn; by rewrite Hk|]. split; [done|]. done.
  - intros cs it [k o] l [Hc (He & Hk & Hcl & Hv & H)]. exists cs, it. split; [|split; [done|]; done]. cbn. unfold ci_Value, ci_Valid. rewrite He. cbn [negb].
    destruct (IsDeleted (ci_value (ci_of it))) eqn:Hd; [by rewrite <- Hv, deleted_view|].
    destruct (clean_bytes _ Hcl Hd) as (bz & Hb & ->). cbn. by rewrite <- Hv, Hb.
Defined.
End cache_iterators.
