(* ===== verification/CacheBTree.v ===== *)
(** * The two B+trees of the program

    The index tree uses indextree/b, whose values are positions; the caches of
    the store layer use store/b/btree.go, a copy of the same code for values of
    type [Value], with [Put] in place of [PutNewAndGetOld]. Both are the
    definitions of [BTree], and both keep the promises of the interface their
    clients are verified against. *)
From S2P Require Import Prelude ByteOrder BTreeSpec StoreTypes CacheStore.
From S2P Require Import BTree BTreeLaws.

(** ** indextree/b *)

#[export] Instance index_btree : BTreeOps Z (BTree Z) Enumerator := btree_ops 0.
#[export] Instance index_btree_laws : BTreeLaws Z (BTree Z) Enumerator := btree_laws 0.

(** ** store/b *)

Section cache_btree.
Context {Ob : Type}.
Notation V := (Value Ob).
Notation Tree := (BTree V).
Notation M A := (stM Tree A).
Implicit Types (p q r : ptr) (k : bytes) (v : V) (pi i : Z) (e : Enumerator).

(** The zero value *)
Definition zv : V := NilValue.
Definition Cache_d : Type := d_page V.
Definition Cache_x : Type := x_page.
Definition Cache_Tree : Type := Tree.
Definition Cache_Enumerator : Type := Enumerator.

(** *** Pages *)
Definition Cache_clr : nat → page → M unit := clr zv.
Definition Cache_newX : page → M ptr := newX.
Definition Cache_x_extract : x_page → Z → outcome x_page := x_extract.
Definition Cache_x_insert : x_page → Z → bytes → page → outcome x_page := x_insert.
Definition Cache_siblings : x_page → Z → outcome (option ptr * option ptr) := x_siblings.
Definition Cache_mvL l r (c : Z) : M unit := mvL l r c.
Definition Cache_mvR l r (c : Z) : M unit := mvR l r c.

(** *** Trees *)
Definition Cache_TreeNew : Tree := TreeNew.
Definition Cache_Clear : M unit := Clear zv.
Definition Cache_Close : M unit := Tree_Close zv.
Definition Cache_cat p q r pi : M unit := cat zv p q r pi.
Definition Cache_catX p q r pi : M unit := catX zv p q r pi.
Definition Cache_Tree_Delete k : M bool := Tree_Delete zv k.
Definition Cache_extract q i : M unit := t_extract zv q i.
Definition Cache_find (q : page) k : M (Z * bool) := find q k.
Definition Cache_First : M (option (bytes * V)) := First.
Definition Cache_Tree_Get k : M (option V) := Tree_Get k.
Definition Cache_insert q i k v : M unit := t_insert q i k v.
Definition Cache_Last : M (option (bytes * V)) := Last.
Definition Cache_Len (t : Tree) : Z := Tree_Len t.
Definition Cache_overflow (p : option ptr) q pi i k v : M unit := overflow zv p q pi i k v.
Definition Cache_Seek k : M (Enumerator * bool) := Seek k.
Definition Cache_SeekFirst : M (option Enumerator) := SeekFirst.
Definition Cache_SeekLast : M (option Enumerator) := SeekLast.
Definition Cache_Tree_Set k v : M unit := Tree_Set zv k v.
Definition Cache_Put {X} k (upd : option V → outcome (X * option V)) : M (X * (V * bool)) := Tree_Put zv k upd.
Definition Cache_split (p : option ptr) q pi i k v : M unit := split zv p q pi i k v.
Definition Cache_splitX (p : option ptr) q pi i : M (ptr * Z) := splitX p q pi i.
Definition Cache_underflow p q pi : M unit := underflow zv p q pi.
Definition Cache_underflowX (p : option ptr) q pi i : M (ptr * Z) := underflowX zv p q pi i.

(** *** Enumerators *)
Definition Cache_Next e : M (option (bytes * V) * Enumerator) := Next e.
Definition Cache_next e : M Enumerator := e_next e.
Definition Cache_Prev e : M (option (bytes * V) * Enumerator) := Prev e.
Definition Cache_prev e : M Enumerator := e_prev e.

#[export] Instance cache_btree : BTreeOps V Tree Enumerator := btree_ops zv.
#[export] Instance cache_btree_laws : BTreeLaws V Tree Enumerator := btree_laws zv.
End cache_btree.
