(* ===== verification/MockIndexTree.v ===== *)
(** * The mock index tree (indextree/mock_indextree.go)

    A B-tree without history, for tests: there is no writing phase, expired
    positions are dropped, and reading at a height panics. It answers like the
    index tree between blocks. *)
From S2P Require Import Prelude ByteOrder BTreeSpec MetaDB RocksDB IndexTree.
From S2P Require Import BTree BTreeLaws CacheBTree.

Record MockIndexTree (T : Type) : Type := mkMockIndexTree { mi_bt : T }.
Arguments mkMockIndexTree {T}.
Arguments mi_bt {T}.

Section mock.
Context {T E : Type} `{HT : !BTreeOps Z T E}.
Implicit Types (it : MockIndexTree T) (iter : IterMem E) (k : bytes).

Definition NewMockIndexTree : MockIndexTree T := mkMockIndexTree bt_TreeNew.
Definition MockIndex_ActiveCount it : Z := bt_Len (mi_bt it).
Definition MockIndex_Init it (repFn : option (bytes → outcome unit)) : outcome (MockIndexTree T) := mret it.
Definition MockIndex_BeginWrite it (height : Z) : outcome (MockIndexTree T) := mret it.
Definition MockIndex_EndWrite it : outcome (MockIndexTree T) := mret it.
Definition MockIndex_GetAtHeight it k (height : Z) : outcome (Z * bool) := Panic "Not Implemented".
Definition MockIndex_Get it k : outcome (option Z) := bt_Get (mi_bt it) k.
Definition MockIndex_Set it k (v : Z) : outcome (MockIndexTree T) := b ← bt_Set (mi_bt it) k v; mret (mkMockIndexTree b).
Definition MockIndex_Delete it k : outcome (MockIndexTree T) := '(_, b) ← bt_Delete (mi_bt it) k; mret (mkMockIndexTree b).
Definition MockIndex_SetPruneHeight it (h : Z) : outcome (MockIndexTree T) := mret it.

(** [ForwardIter] and [BackwardIter] have the fields of [IterMem]. *)
Definition MockForward_Next it iter : outcome (IterMem E) :=
  if im_err iter then mret iter else
  match enumerator iter with
  | None => Panic "nil pointer dereference"
  | Some e => '(o, e) ← en_Next (mi_bt it) e; mret (iter_fill iter o e (λ key, negb (bytes_ltb key (im_end iter))))
  end.
Definition MockBackward_Next it iter : outcome (IterMem E) :=
  if im_err iter then mret iter else
  match enumerator iter with
  | None => Panic "nil pointer dereference"
  | Some e => '(o, e) ← en_Prev (mi_bt it) e; mret (iter_fill iter o e (λ key, bytes_ltb key (im_start iter)))
  end.
Definition MockIndex_Iterator it (start end_ : bytes) : outcome (IterMem E) :=
  if negb (bytes_ltb start end_) then mret (mkIterMem None start end_ [] 0 true) else
  '(e, _) ← bt_Seek (mi_bt it) start;
  MockForward_Next it (mkIterMem (Some e) start end_ [] 0 false).
Definition MockIndex_ReverseIterator it (start end_ : bytes) : outcome (IterMem E) :=
  if negb (bytes_ltb start end_) then mret (mkIterMem None start end_ [] 0 true) else
  '(e, ok) ← bt_Seek (mi_bt it) end_;
  e ← (if (ok : bool) then '(_, e) ← en_Prev (mi_bt it) e; mret e else mret e);
  MockBackward_Next it (mkIterMem (Some e) start end_ [] 0 false).
End mock.

(** ** It answers like the index tree *)

Section agree.
Context {D T E : Type} `{HD : !Rocks D} `{HT : !BTreeOps Z T E} `{!BTreeLaws Z T E}.
Implicit Types (it : MockIndexTree T) (tree : NVTreeMem T) (kvdb : RocksDB D) (k : bytes).

(** The writes of one block *)
Inductive index_write := IndexSet (k : bytes) (v : Z) | IndexDelete (k : bytes).
Definition mock_write it (w : index_write) : outcome (MockIndexTree T) :=
  match w with IndexSet k v => MockIndex_Set it k v | IndexDelete k => MockIndex_Delete it k end.
Definition index_write_run (s : NVTreeMem T * RocksDB D) (w : index_write) : outcome (NVTreeMem T * RocksDB D) :=
  match w with IndexSet k v => NVTree_Set s.1 s.2 k v | IndexDelete k => NVTree_Delete s.1 s.2 k end.
Definition mock_block it (h : Z) (ws : list index_write) : outcome (MockIndexTree T) :=
  it ← MockIndex_BeginWrite it h; it ← for_state mock_write it ws; MockIndex_EndWrite it.
Definition index_block tree kvdb (h : Z) (ws : list index_write) : outcome (NVTreeMem T * RocksDB D) :=
  tree ← NVTree_BeginWrite tree h; '(tree, kvdb) ← for_state index_write_run (tree, kvdb) ws; tree ← NVTree_EndWrite tree; mret (tree, kvdb).

(** The iterators of an index tree over the same B-tree *)
Definition as_index it : NVTreeMem T := mkNVTreeMem (mi_bt it) false false [].
Lemma mock_Iterator_collect it start end_ fuel : bt_ok (mi_bt it) → (size (bt_map (mi_bt it)) < fuel)%nat →
  (iter ← MockIndex_Iterator it start end_; iter_collect (MockForward_Next it) fuel iter) = Ret (range_items (bt_map (mi_bt it)) start end_).
Proof. intros Hok Hf. exact (Iterator_collect (as_index it) start end_ fuel eq_refl Hok Hf). Qed.
Lemma mock_ReverseIterator_collect it start end_ fuel : bt_ok (mi_bt it) → (size (bt_map (mi_bt it)) < fuel)%nat →
  (iter ← MockIndex_ReverseIterator it start end_; iter_collect (MockBackward_Next it) fuel iter) = Ret (rev (range_items (bt_map (mi_bt it)) start end_)).
Proof. intros Hok Hf. exact (ReverseIterator_collect (as_index it) start end_ fuel eq_refl Hok Hf). Qed.

Definition same_index it tree : Prop := bt_ok (mi_bt it) ∧ bt_ok (bt tree) ∧ bt_map (mi_bt it) = bt_map (bt tree).

Lemma write_same it tree kvdb w tree' kvdb' : same_index it tree → index_write_run (tree, kvdb) w = Ret (tree', kvdb') → ∃ it', mock_write it w = Ret it' ∧ same_index it' tree'.
Proof.
  intros (H1 & H2 & Hm) Hrun. destruct w as [k v|k]; cbn in *.
  - destruct (bt_Set_ok _ k v H1) as (b & Eb & Hb & Mb). exists (mkMockIndexTree b). split; [unfold MockIndex_Set; by rewrite Eb|].
    destruct (bt_Put_ok _ k v H2) as (b' & Eb' & Hb' & Mb'). assert (bt tree' = b') as Hb0; [|split_and!; [done|by rewrite Hb0|]; cbn; by rewrite Hb0, Mb, Mb', Hm].
    revert Hrun. unfold NVTree_Set. destruct (isWriting tree); [|done]. cbn. rewrite Eb'. cbn. destruct (rocksdb tree); cbn; [|by intros [= <- _]].
    destruct (batch_Set kvdb _ _); [|done]. cbn. destruct (batch_Set _ _ _); [|done]. cbn. by intros [= <- _].
  - destruct (bt_Delete_ok _ k H1) as (b & Eb & Hb & Mb). exists (mkMockIndexTree b). split; [unfold MockIndex_Delete; by rewrite Eb|].
    destruct (bt_Delete_ok _ k H2) as (b' & Eb' & Hb' & Mb'). assert (bt tree' = b') as Hb0; [|split_and!; [done|by rewrite Hb0|]; cbn; by rewrite Hb0, Mb, Mb', Hm].
    revert Hrun. unfold NVTree_Delete. destruct (isWriting tree); [|done]. cbn. rewrite (bt_Get_ok _ k H2). cbn. destruct (bt_map (bt tree) !! k); [|done]. rewrite Eb'. cbn.
    destruct (rocksdb tree); cbn; [|by intros [= <- _]]. destruct (batch_Set kvdb _ _); [|done]. cbn. destruct (batch_Delete _ _); [|done]. cbn. by intros [= <- _].
Qed.
Lemma writes_same ws : ∀ it tree kvdb tree' kvdb', same_index it tree → for_state index_write_run (tree, kvdb) ws = Ret (tree', kvdb') →
  ∃ it', for_state mock_write it ws = Ret it' ∧ same_index it' tree'.
Proof.
  induction ws as [|w ws IH]; intros it tree kvdb tree' kvdb' H Hrun; [injection Hrun as <- <-; by exists it|]. cbn [for_state] in *.
  destruct (index_write_run (tree, kvdb) w) as [[tree1 kvdb1]|] eqn:E1; [|done]. destruct (write_same _ _ _ _ _ _ H E1) as (it1 & -> & H'). by apply (IH it1 tree1 kvdb1 tree' kvdb').
Qed.

(** C22: after any block of writes that the index tree accepts, the mock that
    got the same block answers like it: the count of keys, every lookup, and
    every range in both directions. *)
Theorem mock_index_agrees it tree kvdb h ws tree' kvdb' fuel : same_index it tree → index_block tree kvdb h ws = Ret (tree', kvdb') → (size (bt_map (bt tree')) < fuel)%nat →
  ∃ it', mock_block it h ws = Ret it' ∧ MockIndex_ActiveCount it' = NVTree_ActiveCount tree' ∧ (∀ k, MockIndex_Get it' k = NVTree_Get tree' k) ∧
    ∀ start end_, (iter ← MockIndex_Iterator it' start end_; iter_collect (MockForward_Next it') fuel iter) =
        (iter ← NVTree_Iterator tree' start end_; iter_collect (Forward_Next tree') fuel iter) ∧
      (iter ← MockIndex_ReverseIterator it' start end_; iter_collect (MockBackward_Next it') fuel iter) =
        (iter ← NVTree_ReverseIterator tree' start end_; iter_collect (Backward_Next tree') fuel iter).
Proof.
  intros (H1 & H2 & Hm) Hrun Hfuel. unfold index_block, NVTree_BeginWrite in Hrun. destruct (isWriting tree) eqn:Hw; [done|].
  set (tree0 := mkNVTreeMem (bt tree) true (rocksdb tree) (be_bytes 8 (to_uint64 h))).
  change (('(tree, kvdb) ← for_state index_write_run (tree0, kvdb) ws; tree ← NVTree_EndWrite tree; mret (tree, kvdb)) = Ret (tree', kvdb')) in Hrun.
  destruct (for_state index_write_run (tree0, kvdb) ws) as [[tree1 kvdb1]|] eqn:E1; [|done].
  destruct (writes_same ws it tree0 kvdb tree1 kvdb1 (conj H1 (conj H2 Hm)) E1) as (it' & Em & H1' & H2' & Hm').
  cbn in Hrun. unfold NVTree_EndWrite in Hrun. destruct (isWriting tree1); [|done]. cbn in Hrun. injection Hrun as <- <-. cbn [bt] in Hfuel. exists it'.
  split; [unfold mock_block; cbn; by rewrite Em|]. split; [unfold MockIndex_ActiveCount, NVTree_ActiveCount; cbn; by rewrite !bt_Len_ok, Hm'|].
  split; [intros k; unfold MockIndex_Get, NVTree_Get; cbn; by rewrite !bt_Get_ok, Hm'|]. intros start end_.
  rewrite mock_Iterator_collect, mock_ReverseIterator_collect, Iterator_collect, ReverseIterator_collect by (done || by rewrite Hm'). cbn. by rewrite Hm'.
Qed.
End agree.

(** ** A block on both, over the B+tree *)

Definition sample_writes : list index_write := [IndexSet [5] 50; IndexSet [3] 30; IndexSet [5] 51; IndexDelete [3]; IndexSet [4] 40].
Definition sample_mock : MockIndexTree (BTree Z) := NewMockIndexTree.
Definition sample_tree : NVTreeMem (BTree Z) := NewNVTreeMem true.
Definition sample_batch : RocksDB (gmap bytes bytes) := OpenNewBatch (NewRocksDB ∅).
Definition after_block : NVTreeMem (BTree Z) * RocksDB (gmap bytes bytes) := Eval vm_compute in
  match index_block sample_tree sample_batch 7 sample_writes with Ret s => s | _ => (sample_tree, sample_batch) end.

Lemma sample_block_run : index_block sample_tree sample_batch 7 sample_writes = Ret (after_block.1, after_block.2).
Proof. vm_compute. reflexivity. Qed.
Lemma sample_same_index : same_index sample_mock sample_tree.
Proof. split_and!; [apply bt_TreeNew_ok|apply bt_TreeNew_ok|done]. Qed.

Lemma mock_index_agrees_witness :
  (index_block sample_tree sample_batch 7 sample_writes = Ret (after_block.1, after_block.2) ∧
   (iter ← NVTree_ReverseIterator after_block.1 [0] [9]; iter_collect (Backward_Next after_block.1) 4 iter) = Ret [([5], 51); ([4], 40)]) ∧
  ∃ it', mock_block sample_mock 7 sample_writes = Ret it' ∧ MockIndex_ActiveCount it' = NVTree_ActiveCount after_block.1 ∧ (∀ k, MockIndex_Get it' k = NVTree_Get after_block.1 k) ∧
    ∀ start end_, (iter ← MockIndex_Iterator it' start end_; iter_collect (MockForward_Next it') 4 iter) =
        (iter ← NVTree_Iterator after_block.1 start end_; iter_collect (Forward_Next after_block.1) 4 iter) ∧
      (iter ← MockIndex_ReverseIterator it' start end_; iter_collect (MockBackward_Next it') 4 iter) =
        (iter ← NVTree_ReverseIterator after_block.1 start end_; iter_collect (Backward_Next after_block.1) 4 iter).
Proof.
  split; [split; [exact sample_block_run|vm_compute; reflexivity]|].
  apply (mock_index_agrees sample_mock sample_tree sample_batch 7 sample_writes after_block.1 after_block.2 4 sample_same_index sample_block_run).
  vm_compute. lia.
Defined.
