(* ===== verification/MergeIter.v ===== *)
(** * Merging the iterator of a cache with that of its parent (store/mergeiter.go)

    The merged iterator goes through the parent overlaid with the cache: an
    item of the cache shadows the one of the parent with the same key, and
    removes it when its value is nil. Every method first skips the removed
    items, so that even [Valid] and [Key] move the two iterators. *)
From S2P Require Import Prelude ByteOrder StoreTypes.

Section merge.
Context {Ob St P C : Type} (HP : ObjIterator Ob St P) (HC : ObjIterator Ob St C) (fuel : nat).

Record cacheMergeIterator := newCacheMergeIterator { parent : P; cache : C; is_ascending : bool }.
Implicit Types (iter : cacheMergeIterator) (a b key : bytes).
Notation stI A := (stM (St * cacheMergeIterator) A).

Definition parent_lens : lens (St * cacheMergeIterator) (St * P) :=
  Lens (λ '(s, it), (s, parent it)) (λ '(s, p) '(_, it), (s, newCacheMergeIterator p (cache it) (is_ascending it))).
Definition cache_lens : lens (St * cacheMergeIterator) (St * C) :=
  Lens (λ '(s, it), (s, cache it)) (λ '(s, c) '(_, it), (s, newCacheMergeIterator (parent it) c (is_ascending it))).
Definition on_parent {A} (m : stM (St * P) A) : stI A := zoom parent_lens m.
Definition on_cache {A} (m : stM (St * C) A) : stI A := zoom cache_lens m.

(** Like [bytes.Compare] but opposite if not ascending. *)
Definition compare_in (asc : bool) a b : comparison := if asc then bytes_compare a b else CompOpp (bytes_compare a b).
Definition compare a b : stI comparison := λ '(s, it), Ret (compare_in (is_ascending it) a b, (s, it)).

Definition Merge_Domain iter : bytes * bytes :=
  let '(startP, endP) := oi_Domain (parent iter) in
  let '(startC, endC) := oi_Domain (cache iter) in
  let less a b := match compare_in (is_ascending iter) a b with Lt => true | _ => false end in
  (if less startP startC then startP else startC, if less endP endC then endC else endP).

Fixpoint skipCacheDeletes_from (n : nat) (until : option bytes) : stI unit :=
  match n with
  | O => st_panic "out of fuel"
  | S n =>
      valid ← on_cache oi_Valid;
      if negb valid then mret tt else
      value ← on_cache oi_Value;
      if value is Some _ then mret tt else
      go ← match until with
           | None => mret true
           | Some until => key ← on_cache oi_Key; c ← compare key until; mret (match c with Lt => true | _ => false end)
           end;
      if (go : bool) then _ ← on_cache oi_Next; skipCacheDeletes_from n until else mret tt
  end.
Definition skipCacheDeletes (until : option bytes) : stI unit := skipCacheDeletes_from fuel until.

Fixpoint skip_from (n : nat) : stI bool :=
  match n with
  | O => st_panic "out of fuel"
  | S n =>
      validP ← on_parent oi_Valid;
      if negb validP then _ ← skipCacheDeletes None; on_cache oi_Valid else
      validC ← on_cache oi_Valid;
      if negb validC then mret true else
      keyP ← on_parent oi_Key;
      keyC ← on_cache oi_Key;
      c ← compare keyP keyC;
      match c with
      | Lt => mret true
      | Eq =>
          valueC ← on_cache oi_Value;
          if valueC is Some _ then mret true else _ ← on_parent oi_Next; _ ← on_cache oi_Next; skip_from n
      | Gt =>
          valueC ← on_cache oi_Value;
          if valueC is Some _ then mret true else _ ← skipCacheDeletes (Some keyP); skip_from n
      end
  end.
Definition skipUntilExistsOrInvalid : stI bool := skip_from fuel.

Definition Merge_Valid : stI bool := skipUntilExistsOrInvalid.
Definition assertValid : stI unit := valid ← Merge_Valid; if (valid : bool) then mret tt else st_panic "iterator is invalid".

(** What [Next], [Key], [Value] and [ObjValue] have in common: the case is the
    comparison of the keys, or the only valid iterator. *)
Definition Merge_Next : stI unit :=
  _ ← skipUntilExistsOrInvalid; _ ← assertValid;
  validP ← on_parent oi_Valid;
  if negb validP then on_cache oi_Next else
  validC ← on_cache oi_Valid;
  if negb validC then on_parent oi_Next else
  keyP ← on_parent oi_Key;
  keyC ← on_cache oi_Key;
  c ← compare keyP keyC;
  match c with
  | Lt => on_parent oi_Next
  | Eq => _ ← on_parent oi_Next; on_cache oi_Next
  | Gt => on_cache oi_Next
  end.

Definition Merge_Key : stI bytes :=
  _ ← skipUntilExistsOrInvalid; _ ← assertValid;
  validP ← on_parent oi_Valid;
  if negb validP then on_cache oi_Key else
  validC ← on_cache oi_Valid;
  if negb validC then on_parent oi_Key else
  keyP ← on_parent oi_Key;
  keyC ← on_cache oi_Key;
  c ← compare keyP keyC;
  match c with
  | Lt | Eq => mret keyP
  | Gt => mret keyC
  end.

Definition Merge_Value : stI (option bytes) :=
  _ ← skipUntilExistsOrInvalid; _ ← assertValid;
  validP ← on_parent oi_Valid;
  if negb validP then on_cache oi_Value else
  validC ← on_cache oi_Valid;
  if negb validC then on_parent oi_Value else
  keyP ← on_parent oi_Key;
  keyC ← on_cache oi_Key;
  c ← compare keyP keyC;
  match c with
  | Lt => on_parent oi_Value
  | Eq | Gt => on_cache oi_Value
  end.

Definition Merge_ObjValue (ptr : option Ob) : stI (option Ob) :=
  _ ← skipUntilExistsOrInvalid; _ ← assertValid;
  validP ← on_parent oi_Valid;
  if negb validP then on_cache (oi_ObjValue ptr) else
  validC ← on_cache oi_Valid;
  if negb validC then on_parent (oi_ObjValue ptr) else
  keyP ← on_parent oi_Key;
  keyC ← on_cache oi_Key;
  c ← compare keyP keyC;
  match c with
  | Lt => on_parent (oi_ObjValue ptr)
  | Eq | Gt => on_cache (oi_ObjValue ptr)
  end.

Definition merge_iter : ObjIterator Ob St cacheMergeIterator := {|
  oi_Domain := Merge_Domain;
  oi_Valid := Merge_Valid;
  oi_Next := Merge_Next;
  oi_Key := Merge_Key;
  oi_Value := Merge_Value;
  oi_ObjValue := Merge_ObjValue
|}.
End merge.
Arguments cacheMergeIterator P C : clear implicits.
Arguments newCacheMergeIterator {P C}.

(** ** The merged items *)

Notation item := (bytes * option bytes)%type.
Implicit Types (lp lc l : list item).

Definition live (x : item) : Prop := is_Some x.2.
#[export] Instance live_dec x : Decision (live x).
Proof. unfold live. apply _. Defined.

Fixpoint merge_items (asc : bool) lp : list item → list item :=
  fix go lc :=
    match lp, lc with
    | [], _ => filter live lc
    | _, [] => lp
    | (kp, vp) :: lp', (kc, vc) :: lc' =>
        match compare_in asc kp kc with
        | Lt => (kp, vp) :: merge_items asc lp' lc
        | Eq => match vc with None => merge_items asc lp' lc' | Some _ => (kp, vc) :: merge_items asc lp' lc' end
        | Gt => match vc with None => go lc' | Some _ => (kc, vc) :: go lc' end
        end
    end.

(** The cached items that are left after [skipCacheDeletes]. *)
Fixpoint drop_deletes (asc : bool) (until : option bytes) lc : list item :=
  match lc with
  | (k, None) :: lc' =>
      if match until with None => true | Some u => match compare_in asc k u with Lt => true | _ => false end end
      then drop_deletes asc until lc' else lc
  | _ => lc
  end.

(** Nothing is to be skipped. *)
Definition settled (asc : bool) lp lc : Prop :=
  match lp, lc with
  | _, [] => True
  | [], x :: _ => live x
  | (kp, _) :: _, (kc, vc) :: _ => compare_in asc kp kc = Lt ∨ is_Some vc
  end.

Lemma compare_in_antisym asc a b : compare_in asc b a = CompOpp (compare_in asc a b).
Proof. destruct asc; cbn; rewrite (bytes_compare_antisym a b); by destruct (bytes_compare a b). Qed.
Lemma compare_in_Eq asc a b : compare_in asc a b = Eq ↔ a = b.
Proof. rewrite <- bytes_compare_Eq. destruct asc; cbn; [done|]. by destruct (bytes_compare a b). Qed.

Lemma drop_deletes_length asc until lc : (length (drop_deletes asc until lc) ≤ length lc)%nat.
Proof. induction lc as [|[k [v|]] lc IH]; cbn; [done..|]. case_match; cbn; lia. Qed.
Lemma merge_items_nil asc lc : merge_items asc [] lc = filter live lc.
Proof. by destruct lc. Qed.
Lemma drop_deletes_all asc lc : merge_items asc [] (drop_deletes asc None lc) = merge_items asc [] lc ∧ settled asc [] (drop_deletes asc None lc).
Proof.
  rewrite !merge_items_nil. induction lc as [|[k [v|]] lc IH]; cbn [drop_deletes]; [done|split; [done|by eexists]|].
  rewrite filter_cons_False by (intros [? [=]]). done.
Qed.
Lemma drop_deletes_until asc kp vp lp lc : merge_items asc ((kp, vp) :: lp) (drop_deletes asc (Some kp) lc) = merge_items asc ((kp, vp) :: lp) lc.
Proof.
  induction lc as [|[k [v|]] lc IH]; cbn; [done..|]. rewrite (compare_in_antisym asc kp k).
  destruct (compare_in asc kp k) eqn:Hc; cbn; rewrite ?Hc; [done..|]. exact IH.
Qed.
Lemma merge_items_nonempty asc lp lc : settled asc lp lc → merge_items asc lp lc ≠ [] ↔ lp ≠ [] ∨ lc ≠ [].
Proof.
  destruct lp as [|[kp vp] lp]; intros Hs.
  { rewrite merge_items_nil. destruct lc as [|x lc]; [naive_solver|]. rewrite filter_cons_True by done. naive_solver. }
  destruct lc as [|[kc vc] lc]; cbn in *; [naive_solver|].
  destruct (compare_in asc kp kc); destruct Hs as [?|[v ->]]; try done; naive_solver.
Qed.

(** ** The merged iterator goes through the merged items *)

Section merge_laws.
Context {Ob St P C : Type} {HP : ObjIterator Ob St P} {HC : ObjIterator Ob St C}.
Context `{!Same St, !SameLaws St, LP : !IterLaws Ob St P, LC : !IterLaws Ob St C} (asc : bool) (fuel : nat).
Notation mit := (cacheMergeIterator P C).

Definition at_pair s0 lp lc : St * mit → Prop :=
  λ '(s, it), same s0 s ∧ yields s (parent it) lp ∧ yields s (cache it) lc ∧ is_ascending it = asc.

Lemma on_parent_returns {A} (m : stM (St * P) A) (φ : A → Prop) s0 lp lp' lc :
  (∀ s0, returns (at_items s0 lp) m (λ a x, φ a ∧ at_items s0 lp' x)) → returns (at_pair s0 lp lc) (on_parent m) (λ a x, φ a ∧ at_pair s0 lp' lc x).
Proof.
  intros Hm [s it] (Hs & H1 & H2 & Ha). destruct (Hm s (s, parent it)) as (a & [s' p'] & E & Hφ & Hs' & H1'); [by split|].
  eexists a, (s', newCacheMergeIterator p' (cache it) (is_ascending it)).
  split; [unfold on_parent, zoom; cbn; by rewrite E|]. split; [done|]. split_and!; [by etrans|done|by eapply yields_same|done].
Qed.
Lemma on_cache_returns {A} (m : stM (St * C) A) (φ : A → Prop) s0 lp lc lc' :
  (∀ s0, returns (at_items s0 lc) m (λ a x, φ a ∧ at_items s0 lc' x)) → returns (at_pair s0 lp lc) (on_cache m) (λ a x, φ a ∧ at_pair s0 lp lc' x).
Proof.
  intros Hm [s it] (Hs & H1 & H2 & Ha). destruct (Hm s (s, cache it)) as (a & [s' c'] & E & Hφ & Hs' & H2'); [by split|].
  eexists a, (s', newCacheMergeIterator (parent it) c' (is_ascending it)).
  split; [unfold on_cache, zoom; cbn; by rewrite E|]. split; [done|]. split_and!; [by etrans|by eapply yields_same|done|done].
Qed.

Lemma validP s0 lp lc : returns (at_pair s0 lp lc) (on_parent oi_Valid) (λ b x, b = bool_decide (lp ≠ []) ∧ at_pair s0 lp lc x).
Proof. apply on_parent_returns. intros. apply Valid_returns. Qed.
Lemma validC s0 lp lc : returns (at_pair s0 lp lc) (on_cache oi_Valid) (λ b x, b = bool_decide (lc ≠ []) ∧ at_pair s0 lp lc x).
Proof. apply on_cache_returns. intros. apply Valid_returns. Qed.
Lemma keyP s0 x lp lc : returns (at_pair s0 (x :: lp) lc) (on_parent oi_Key) (λ k y, k = x.1 ∧ at_pair s0 (x :: lp) lc y).
Proof. apply on_parent_returns. intros. apply Key_returns. Qed.
Lemma keyC s0 x lp lc : returns (at_pair s0 lp (x :: lc)) (on_cache oi_Key) (λ k y, k = x.1 ∧ at_pair s0 lp (x :: lc) y).
Proof. apply on_cache_returns. intros. apply Key_returns. Qed.
Lemma valueP s0 x lp lc : returns (at_pair s0 (x :: lp) lc) (on_parent oi_Value) (λ v y, v = x.2 ∧ at_pair s0 (x :: lp) lc y).
Proof. apply on_parent_returns. intros. apply Value_returns. Qed.
Lemma valueC s0 x lp lc : returns (at_pair s0 lp (x :: lc)) (on_cache oi_Value) (λ v y, v = x.2 ∧ at_pair s0 lp (x :: lc) y).
Proof. apply on_cache_returns. intros. apply Value_returns. Qed.
Lemma nextP s0 x lp lc : returns (at_pair s0 (x :: lp) lc) (on_parent oi_Next) (λ u y, u = tt ∧ at_pair s0 lp lc y).
Proof. apply on_parent_returns. intros. eapply returns_post; [|apply Next_returns]. by intros [] y Hy. Qed.
Lemma nextC s0 x lp lc : returns (at_pair s0 lp (x :: lc)) (on_cache oi_Next) (λ u y, u = tt ∧ at_pair s0 lp lc y).
Proof. apply on_cache_returns. intros. eapply returns_post; [|apply Next_returns]. by intros [] y Hy. Qed.
Lemma compare_ok s0 lp lc a b : returns (at_pair s0 lp lc) (compare a b) (λ c y, c = compare_in asc a b ∧ at_pair s0 lp lc y).
Proof. intros [s it] H. eexists _, (s, it). split; [reflexivity|]. split; [|done]. by destruct H as (_ & _ & _ & ->). Qed.

(** One step of a method: the call, then its result. *)
Ltac call lem := eapply returns_bind; [apply lem|cbn beta; intros ?; apply returns_pure; intros ->].

Lemma skipCacheDeletes_ok until lp : ∀ lc n s0, (length lc < n)%nat →
  returns (at_pair s0 lp lc) (skipCacheDeletes_from HC n until) (λ u y, u = tt ∧ at_pair s0 lp (drop_deletes asc until lc) y).
Proof.
  induction lc as [|[k v] lc IH]; intros [|n] s0 Hn; cbn [length] in Hn; try lia; cbn [skipCacheDeletes_from drop_deletes]; call validC.
  { rewrite bool_decide_eq_false_2 by naive_solver. apply returns_ret. }
  rewrite bool_decide_eq_true_2 by done. cbn [negb]. call valueC. cbn [snd]. destruct v as [v|]; [apply returns_ret|].
  destruct until as [u|].
  - eapply returns_bind with (Q := λ go y, go = (match compare_in asc k u with Lt => true | _ => false end) ∧ at_pair s0 lp ((k, None) :: lc) y).
    + call keyC. call compare_ok. apply returns_ret.
    + intros go. apply returns_pure. intros ->. destruct (compare_in asc k u); [apply returns_ret| |apply returns_ret].
      call nextC. apply IH. lia.
  - call @returns_ret. call nextC. apply IH. lia.
Qed.

(** What is left after skipping. *)
Definition skipped lp lc s0 (y : St * mit) : Prop := ∃ lp' lc', at_pair s0 lp' lc' y ∧ settled asc lp' lc' ∧
  merge_items asc lp' lc' = merge_items asc lp lc ∧ (length lp' ≤ length lp)%nat ∧ (length lc' ≤ length lc)%nat.

Lemma skipped_here lp lc s0 y : settled asc lp lc → at_pair s0 lp lc y → skipped lp lc s0 y.
Proof. intros Hs Hy. by exists lp, lc. Qed.
Lemma skipped_trans lp lc lp1 lc1 s0 y : merge_items asc lp1 lc1 = merge_items asc lp lc → (length lp1 ≤ length lp)%nat → (length lc1 ≤ length lc)%nat →
  skipped lp1 lc1 s0 y → skipped lp lc s0 y.
Proof. intros E H1 H2 (lp' & lc' & H & Hs & E' & H3 & H4). exists lp', lc'. split_and!; [done|done|congruence|lia|lia]. Qed.

Definition skip_post lp lc s0 (b : bool) y : Prop := b = bool_decide (merge_items asc lp lc ≠ []) ∧ skipped lp lc s0 y.
Lemma skip_post_here lp lc s0 b : settled asc lp lc → b = bool_decide (lp ≠ [] ∨ lc ≠ []) →
  returns (at_pair s0 lp lc) (mret b) (skip_post lp lc s0).
Proof.
  intros Hs ->. eapply returns_post; [|apply returns_ret]. intros b y [-> Hy]. split; [|by apply skipped_here].
  apply bool_decide_ext. symmetry. by apply merge_items_nonempty.
Qed.

Lemma skip_from_ok s0 : ∀ n lp lc, (length lp + length lc < n)%nat → (length lc < fuel)%nat →
  returns (at_pair s0 lp lc) (skip_from HP HC fuel n) (skip_post lp lc s0).
Proof.
  induction n as [|n IH]; intros lp lc Hn Hf; [lia|]. cbn [skip_from]. call validP.
  destruct lp as [|[kp vp] lp].
  { rewrite bool_decide_eq_false_2 by naive_solver. cbn [negb].
    eapply returns_bind; [by apply skipCacheDeletes_ok|]. cbn beta. intros u. apply returns_pure. intros ->.
    destruct (drop_deletes_all asc lc) as [E Hs]. pose proof (drop_deletes_length asc None lc).
    eapply returns_post; [|apply validC]. intros b y [-> Hy]. split.
    - apply bool_decide_ext. rewrite <- E, (merge_items_nonempty _ _ _ Hs). naive_solver.
    - eapply skipped_trans; [exact E|done|done|]. by apply skipped_here. }
  rewrite bool_decide_eq_true_2 by done. cbn [negb]. call validC. destruct lc as [|[kc vc] lc].
  { rewrite (bool_decide_eq_false_2 ([] ≠ [])) by naive_solver. cbn [negb]. apply skip_post_here; [done|].
    symmetry. apply bool_decide_eq_true_2. by left. }
  rewrite bool_decide_eq_true_2 by done. cbn [negb]. call keyP. call keyC. cbn [fst]. call compare_ok.
  assert (∀ b : bool, b = true → b = bool_decide ((kp, vp) :: lp ≠ [] ∨ (kc, vc) :: lc ≠ [])) as Htrue.
  { intros b ->. symmetry. apply bool_decide_eq_true_2. by left. }
  cbn [length] in Hn, Hf. destruct (compare_in asc kp kc) eqn:Hc.
  - call valueC. cbn [snd]. destruct vc as [vc|]; [apply skip_post_here; [right; by eexists|by apply Htrue]|].
    call nextP. call nextC. eapply returns_post; [|apply IH; lia]. intros b y [-> Hy].
    split; [by cbn; rewrite Hc|]. eapply skipped_trans; [by cbn; rewrite Hc|cbn; lia|cbn; lia|done].
  - apply skip_post_here; [by left|by apply Htrue].
  - call valueC. cbn [snd]. destruct vc as [vc|]; [apply skip_post_here; [right; by eexists|by apply Htrue]|].
    eapply returns_bind; [apply skipCacheDeletes_ok; cbn; lia|]. cbn beta. intros u. apply returns_pure. intros ->.
    pose proof (drop_deletes_until asc kp vp lp ((kc, None) :: lc)) as E. cbn [drop_deletes] in *.
    rewrite (compare_in_antisym asc kp kc), Hc in *. cbn [CompOpp] in *. pose proof (drop_deletes_length asc (Some kp) lc).
    eapply returns_post; [|apply IH; cbn [length]; lia]. intros b y [-> Hy]. split; [by rewrite E|].
    eapply skipped_trans; [exact E|done|cbn [length]; lia|done].
Qed.

(** The methods enter with two skips and find the head of the merged items. *)
Lemma merge_items_cons lp lc x l : settled asc lp lc → merge_items asc lp lc = x :: l →
  (lp = [] ∧ ∃ lc', lc = x :: lc' ∧ l = merge_items asc [] lc') ∨ (lc = [] ∧ ∃ lp', lp = x :: lp' ∧ l = merge_items asc lp' []) ∨
  ∃ xp lp' xc lc', lp = xp :: lp' ∧ lc = xc :: lc' ∧
    match compare_in asc xp.1 xc.1 with
    | Lt => x = xp ∧ l = merge_items asc lp' lc
    | Eq => x = (xp.1, xc.2) ∧ l = merge_items asc lp' lc'
    | Gt => x = xc ∧ l = merge_items asc lp lc'
    end.
Proof.
  destruct lp as [|[kp vp] lp]; intros Hs.
  { rewrite merge_items_nil. destruct lc as [|[k v] lc]; [done|]. rewrite filter_cons_True by done. intros [= <- <-]. left.
    split; [done|]. exists lc. by rewrite merge_items_nil. }
  destruct lc as [|[kc vc] lc]; cbn in *.
  { intros [= <- <-]. right; left. split; [done|]. exists lp. split; [done|]. by destruct lp as [|[??]]. }
  intros E. right; right. exists (kp, vp), lp, (kc, vc), lc. split_and!; [done|done|]. cbn [fst snd].
  destruct (compare_in asc kp kc); destruct Hs as [?|[v ->]]; try done; by injection E as <- <-.
Qed.

Definition entered x l n s0 (y : St * mit) : Prop := ∃ lp lc, at_pair s0 lp lc y ∧ settled asc lp lc ∧
  merge_items asc lp lc = x :: l ∧ (length lp + length lc ≤ n)%nat.

Lemma enter_ok s0 lp lc x l : (length lp + length lc < fuel)%nat → merge_items asc lp lc = x :: l →
  returns (at_pair s0 lp lc) (_ ← skipUntilExistsOrInvalid HP HC fuel; assertValid HP HC fuel) (λ _, entered x l (length lp + length lc) s0).
Proof.
  intros Hf Hm. eapply returns_bind; [apply skip_from_ok; lia|]. cbn beta. intros b. apply returns_pure. intros _.
  apply returns_ex. intros lp1. apply returns_ex. intros lc1. intros y (Hy & Hs & E & H1 & H2). revert y Hy.
  unfold assertValid, Merge_Valid. eapply returns_bind; [apply skip_from_ok; lia|]. cbn beta. intros b'. apply returns_pure. intros ->.
  rewrite E, Hm, bool_decide_eq_true_2 by done. eapply returns_post; [|apply returns_ret].
  intros [] y (_ & lp2 & lc2 & Hy & Hs2 & E2 & H3 & H4). exists lp2, lc2. split_and!; [done|done|congruence|lia].
Qed.

(** A method that enters and then treats the three cases of [merge_items_cons]. *)
Lemma dispatch_ok {A} (rest : stM (St * mit) A) (Q : A → St * mit → Prop) s0 lp lc x l :
  (length lp + length lc < fuel)%nat → merge_items asc lp lc = x :: l →
  (∀ lp lc, (length lp + length lc < fuel)%nat → settled asc lp lc → merge_items asc lp lc = x :: l → returns (at_pair s0 lp lc) rest Q) →
  returns (at_pair s0 lp lc) (_ ← skipUntilExistsOrInvalid HP HC fuel; _ ← assertValid HP HC fuel; rest) Q.
Proof.
  intros Hf Hm Hrest y Hy. destruct (enter_ok s0 lp lc x l Hf Hm y Hy) as (u & y1 & E1 & lp1 & lc1 & Hy1 & Hs & Hm1 & Hl).
  destruct (Hrest lp1 lc1 ltac:(lia) Hs Hm1 y1 Hy1) as (a & y2 & E2 & HQ). exists a, y2. split; [|done].
  unfold mbind, stM_bind in *. destruct (skipUntilExistsOrInvalid HP HC fuel y) as [[b y']|]; [|done]. cbn [mbind outcome_bind] in *. by rewrite E1.
Qed.

(** What is left, and the fuel it needs. *)
Definition at_merged l s0 (y : St * mit) : Prop := ∃ lp lc, at_pair s0 lp lc y ∧ l = merge_items asc lp lc ∧ (length lp + length lc < fuel)%nat.

Lemma merged_here lp lc l s0 y : l = merge_items asc lp lc → (length lp + length lc < fuel)%nat → at_pair s0 lp lc y → at_merged l s0 y.
Proof. intros. by exists lp, lc. Qed.

Ltac start_method := eapply dispatch_ok; [done|done|]; intros lpx lcx Hfx Hs Hmx; call validP;
  destruct (merge_items_cons lpx lcx _ _ Hs Hmx) as [(-> & lc' & -> & ->)|[(-> & lp' & -> & ->)|(xp & lp' & xc & lc' & -> & -> & Hcase)]];
  [rewrite bool_decide_eq_false_2 by naive_solver; cbn [negb]
  |rewrite bool_decide_eq_true_2 by done; cbn [negb]; call validC; rewrite bool_decide_eq_false_2 by naive_solver; cbn [negb]
  |rewrite bool_decide_eq_true_2 by done; cbn [negb]; call validC; rewrite bool_decide_eq_true_2 by done; cbn [negb];
   call keyP; call keyC; call compare_ok; destruct (compare_in asc xp.1 xc.1) eqn:Hc; destruct Hcase as [-> ->]].

Lemma Merge_Next_ok s0 lp lc x l : (length lp + length lc < fuel)%nat → merge_items asc lp lc = x :: l →
  returns (at_pair s0 lp lc) (Merge_Next HP HC fuel) (λ _, at_merged l s0).
Proof.
  intros Hf Hm. start_method; cbn [length] in *.
  - eapply returns_post; [|apply nextC]. intros u y [_ Hy]. eapply merged_here; [done| |exact Hy]. cbn [length] in *. lia.
  - eapply returns_post; [|apply nextP]. intros u y [_ Hy]. eapply merged_here; [done| |exact Hy]. cbn [length] in *. lia.
  - call nextP. eapply returns_post; [|apply nextC]. intros u y [_ Hy]. eapply merged_here; [done|lia|exact Hy].
  - eapply returns_post; [|apply nextP]. intros u y [_ Hy]. eapply merged_here; [done|cbn [length]; lia|exact Hy].
  - eapply returns_post; [|apply nextC]. intros u y [_ Hy]. eapply merged_here; [done|cbn [length]; lia|exact Hy].
Qed.
Lemma Merge_Key_ok s0 lp lc x l : (length lp + length lc < fuel)%nat → merge_items asc lp lc = x :: l →
  returns (at_pair s0 lp lc) (Merge_Key HP HC fuel) (λ k y, k = x.1 ∧ at_merged (x :: l) s0 y).
Proof.
  intros Hf Hm. start_method.
  - eapply returns_post; [|apply keyC]. intros k y [-> Hy]. split; [done|]. by eapply merged_here.
  - eapply returns_post; [|apply keyP]. intros k y [-> Hy]. split; [done|]. by eapply merged_here.
  - eapply returns_post; [|apply returns_ret]. intros k y [-> Hy]. split; [done|]. by eapply merged_here.
  - eapply returns_post; [|apply returns_ret]. intros k y [-> Hy]. split; [done|]. by eapply merged_here.
  - eapply returns_post; [|apply returns_ret]. intros k y [-> Hy]. split; [done|]. by eapply merged_here.
Qed.
Lemma Merge_Value_ok s0 lp lc x l : (length lp + length lc < fuel)%nat → merge_items asc lp lc = x :: l →
  returns (at_pair s0 lp lc) (Merge_Value HP HC fuel) (λ v y, v = x.2 ∧ at_merged (x :: l) s0 y).
Proof.
  intros Hf Hm. start_method.
  - eapply returns_post; [|apply valueC]. intros k y [-> Hy]. split; [done|]. by eapply merged_here.
  - eapply returns_post; [|apply valueP]. intros k y [-> Hy]. split; [done|]. by eapply merged_here.
  - eapply returns_post; [|apply valueC]. intros k y [-> Hy]. split; [done|]. by eapply merged_here.
  - eapply returns_post; [|apply valueP]. intros k y [-> Hy]. split; [done|]. by eapply merged_here.
  - eapply returns_post; [|apply valueC]. intros k y [-> Hy]. split; [done|]. by eapply merged_here.
Qed.
Lemma Merge_Valid_ok s0 lp lc : (length lp + length lc < fuel)%nat →
  returns (at_pair s0 lp lc) (Merge_Valid HP HC fuel) (λ b y, b = bool_decide (merge_items asc lp lc ≠ []) ∧ at_merged (merge_items asc lp lc) s0 y).
Proof.
  intros Hf. eapply returns_post; [|apply skip_from_ok; lia]. intros b y (-> & lp' & lc' & Hy & _ & E & H1 & H2).
  split; [done|]. eapply merged_here; [done|lia|done].
Qed.

End merge_laws.

(** ** The merged items are those of the overlaid map *)

(** The map [m] with the changes [c]: [None] deletes a key. *)
Definition overlay (m : gmap bytes bytes) (c : gmap bytes (option bytes)) : gmap bytes bytes :=
  merge (λ v o, match o with Some o => o | None => v end) m c.
Lemma lookup_overlay m c k : overlay m c !! k = match c !! k with Some o => o | None => m !! k end.
Proof. unfold overlay. rewrite lookup_merge. unfold diag_None. by destruct (m !! k), (c !! k). Qed.
Lemma overlay_empty m : overlay m ∅ = m.
Proof. apply map_eq. intros k. by rewrite lookup_overlay, lookup_empty. Qed.
Lemma overlay_insert m c k v : overlay m (<[k := Some v]> c) = <[k := v]> (overlay m c).
Proof.
  apply map_eq. intros j. rewrite lookup_overlay. destruct (decide (j = k)) as [->|Hne]; [by rewrite !lookup_insert_eq|].
  by rewrite !lookup_insert_ne, lookup_overlay by done.
Qed.
Lemma overlay_delete m c k : overlay m (<[k := None]> c) = delete k (overlay m c).
Proof.
  apply map_eq. intros j. rewrite lookup_overlay. destruct (decide (j = k)) as [->|Hne]; [by rewrite lookup_insert_eq, lookup_delete_eq|].
  by rewrite lookup_insert_ne, lookup_delete_ne, lookup_overlay by done.
Qed.
Lemma overlay_overlay m c d : overlay (overlay m c) d = overlay m (d ∪ c).
Proof. apply map_eq. intros k. rewrite !lookup_overlay, lookup_union. by destruct (d !! k), (c !! k). Qed.

(** Items in the order of an iterator. *)
Definition before {V} (asc : bool) (a b : bytes * V) : Prop := compare_in asc a.1 b.1 = Lt.
Definition ordered {V} (asc : bool) (m : gmap bytes V) (P : bytes → Prop) (l : list (bytes * V)) : Prop :=
  if asc then ascending m P l else descending m P l.
Lemma ordered_before {V} (asc : bool) (m : gmap bytes V) P (l : list (bytes * V)) : ordered asc m P l ↔ items_in (before asc) m P l.
Proof.
  destruct asc; [done|]. unfold ordered, descending, items_in. f_equiv.
  split; (induction 1 as [|x l H IH Hx]; constructor; [done|]; eapply Forall_impl; [exact Hx|]; intros y; unfold before, key_gt, bytes_lt; cbn;
    rewrite (bytes_compare_antisym y.1 x.1); by destruct (bytes_compare y.1 x.1)).
Qed.
Lemma ordered_unique {V} (asc : bool) (m : gmap bytes V) P (l k : list (bytes * V)) : ordered asc m P l → ordered asc m P k → l = k.
Proof. destruct asc; [apply ascending_unique|apply descending_unique]. Qed.
Lemma ordered_fmap {V W} (f : V → W) (asc : bool) m P (l : list (bytes * V)) : ordered asc m P l → ordered asc (f <$> m) P (map_items f l).
Proof. destruct asc; [apply ascending_fmap|apply descending_fmap]. Qed.

Lemma compare_in_trans asc a b c : compare_in asc a b = Lt → compare_in asc b c = Lt → compare_in asc a c = Lt.
Proof.
  destruct asc; cbn; [apply bytes_lt_trans|]. rewrite <- !bytes_compare_antisym. intros H1 H2. by eapply (bytes_lt_trans c b a).
Qed.
Lemma compare_in_irrefl asc a : compare_in asc a a ≠ Lt.
Proof. intros H. assert (compare_in asc a a = Eq) as H' by by apply compare_in_Eq. congruence. Qed.

Section merge_spec.
Context (asc : bool).
Notation before := (before (V := option bytes) asc).
Implicit Types x : item.

(** An item beyond the head of a sorted list is in its tail. *)
Lemma sorted_tail k0 v0 l k v : StronglySorted before ((k0, v0) :: l) → compare_in asc k0 k = Lt ∨ k0 ≠ k → (k, v) ∈ (k0, v0) :: l ↔ (k, v) ∈ l.
Proof.
  intros Hs Hk. rewrite elem_of_cons. split; [|tauto]. intros [[= -> ->]|?]; [|done].
  destruct Hk as [Hk|?]; [by apply compare_in_irrefl in Hk|done].
Qed.
Lemma sorted_above k0 v0 l k v : StronglySorted before ((k0, v0) :: l) → (k, v) ∈ l → compare_in asc k0 k = Lt.
Proof. intros Hs Hin. inversion Hs as [|? ? _ Hx]; subst. rewrite Forall_forall in Hx. by apply (Hx (k, v)). Qed.
Lemma sorted_below k0 v0 l k v : StronglySorted before ((k0, v0) :: l) → compare_in asc k k0 = Lt → (k, v) ∉ (k0, v0) :: l.
Proof.
  intros Hs Hk [[= -> ->]|Hin]%elem_of_cons; [by apply compare_in_irrefl in Hk|].
  pose proof (sorted_above _ _ _ _ _ Hs Hin). by apply (compare_in_irrefl asc k), (compare_in_trans asc k k0 k).
Qed.

Definition merged lp lc k v : Prop := ((k, v) ∈ lc ∧ is_Some v) ∨ ((k, v) ∈ lp ∧ ∀ v', (k, v') ∉ lc).

Lemma merged_nil lc k v : merged [] lc k v ↔ (k, v) ∈ lc ∧ is_Some v.
Proof. unfold merged. split; [|tauto]. intros [?|[[]%not_elem_of_nil _]]; done. Qed.

Lemma elem_of_merge_items lp : StronglySorted before lp → ∀ lc, StronglySorted before lc → ∀ k v, (k, v) ∈ merge_items asc lp lc ↔ merged lp lc k v.
Proof.
  induction lp as [|[kp vp] lp IHp]; intros Hp.
  { intros lc _ k v. rewrite merge_items_nil, merged_nil, list_elem_of_filter. unfold live. cbn. tauto. }
  inversion Hp as [|? ? Hp' Hpx]; subst. specialize (IHp Hp').
  induction lc as [|[kc vc] lc IHc]; intros Hc k v.
  { cbn [merge_items]. unfold merged. split; [intros H; right; split; [done|intros v'; apply not_elem_of_nil]|].
    by intros [[[]%not_elem_of_nil _]|[? _]]. }
  inversion Hc as [|? ? Hc' Hcx]; subst. specialize (IHc Hc'). cbn [merge_items].
  destruct (compare_in asc kp kc) eqn:E.
  - apply compare_in_Eq in E as <-.
    assert (∀ w, (kp, w) ∉ lp) as H1 by (intros w Hw; exact (compare_in_irrefl asc kp (sorted_above _ _ _ _ _ Hp Hw))).
    assert (∀ w, (kp, w) ∉ lc) as H2 by (intros w Hw; exact (compare_in_irrefl asc kp (sorted_above _ _ _ _ _ Hc Hw))).
    destruct vc as [vc|]; rewrite ?elem_of_cons, (IHp lc Hc' k v); unfold merged; setoid_rewrite elem_of_cons.
    + split.
      * intros [[= -> ->]|[[??]|[Hk Hn]]]; [left; split; [by left|done]|left; tauto|]. right. split; [by right|].
        intros v' [[= -> ->]|?]; [by apply (H1 v)|by apply (Hn v')].
      * intros [[[[= -> ->]|?] Hv]|[[[= -> ->]|?] Hn]]; [by left|right; left; done|destruct (Hn (Some vc)); by left|].
        right; right. split; [done|]. intros v' ?. apply (Hn v'). by right.
    + split.
      * intros [[??]|[Hk Hn]]; [left; tauto|]. right. split; [by right|]. intros v' [[= -> ->]|?]; [by apply (H1 v)|by apply (Hn v')].
      * intros [[[[= -> ->]|?] Hv]|[[[= -> ->]|?] Hn]]; [by destruct Hv|left; done|destruct (Hn None); by left|].
        right. split; [done|]. intros v' ?. apply (Hn v'). by right.
  - rewrite elem_of_cons, (IHp _ Hc k v). unfold merged. setoid_rewrite (elem_of_cons lp). split.
    + intros [[= -> ->]|[?|[Hk Hn]]]; [|by left|right; split; [by right|done]].
      right. split; [by left|]. intros v'. by apply (sorted_below _ _ _ _ _ Hc).
    + intros [?|[[[= -> ->]|?] Hn]]; [right; by left|by left|right; right; done].
  - assert (compare_in asc kc kp = Lt) as E' by (by rewrite compare_in_antisym, E).
    assert (∀ w, (kc, w) ∉ (kp, vp) :: lp) as H1 by (intros w; by apply (sorted_below _ _ _ _ _ Hp)).
    change ((fix go lc0 := _) lc) with (merge_items asc ((kp, vp) :: lp) lc).
    destruct vc as [vc|]; rewrite ?elem_of_cons, (IHc k v); unfold merged; setoid_rewrite (elem_of_cons lc).
    + split.
      * intros [[= -> ->]|[[??]|[Hk Hn]]]; [left; split; [by left|done]|left; tauto|]. right. split; [done|].
        intros v' [[= -> ->]|?]; [by apply (H1 v)|by apply (Hn v')].
      * intros [[[[= -> ->]|?] Hv]|[? Hn]]; [by left|right; left; done|]. right; right. split; [done|]. intros v' ?. apply (Hn v'). by right.
    + split.
      * intros [[??]|[Hk Hn]]; [left; tauto|]. right. split; [done|]. intros v' [[= -> ->]|?]; [by apply (H1 v)|by apply (Hn v')].
      * intros [[[[= -> ->]|?] Hv]|[? Hn]]; [by destruct Hv|left; done|]. right. split; [done|]. intros v' ?. apply (Hn v'). by right.
Qed.

Lemma merged_key lp lc k v : merged lp lc k v → ∃ w, (k, w) ∈ lp ∨ (k, w) ∈ lc.
Proof. intros [[? _]|[? _]]; eauto. Qed.

(** Whatever is before two sorted lists is before what they merge to. *)
Lemma merge_before x lp lc : StronglySorted before lp → StronglySorted before lc →
  (∀ y, y ∈ lp → before x y) → (∀ y, y ∈ lc → before x y) → Forall (before x) (merge_items asc lp lc).
Proof.
  intros Hp Hc H1 H2. apply Forall_forall. intros [k v] Hin. apply elem_of_merge_items in Hin; [|done..].
  destruct (merged_key _ _ _ _ Hin) as [w [Hw|Hw]]; [exact (H1 _ Hw)|exact (H2 _ Hw)].
Qed.

Lemma merge_items_sorted lp : StronglySorted before lp → ∀ lc, StronglySorted before lc → StronglySorted before (merge_items asc lp lc).
Proof.
  induction lp as [|[kp vp] lp IHp]; intros Hp.
  { intros lc Hc. rewrite merge_items_nil. induction Hc as [|x l Hc IH Hx]; [constructor|].
    destruct (decide (live x)); [|by rewrite filter_cons_False]. rewrite filter_cons_True by done. constructor; [done|].
    rewrite Forall_forall in *. intros y [_ Hy]%list_elem_of_filter. by apply Hx. }
  inversion Hp as [|? ? Hp' Hpx]; subst. specialize (IHp Hp').
  induction lc as [|[kc vc] lc IHc]; intros Hc; [done|].
  inversion Hc as [|? ? Hc' Hcx]; subst. specialize (IHc Hc'). cbn [merge_items]. rewrite Forall_forall in Hpx, Hcx.
  assert (∀ y, before (kp, vp) (kc, vc) → y ∈ (kc, vc) :: lc → before (kp, vp) y) as Hlt.
  { intros y Hb [->|Hy]%elem_of_cons; [done|]. eapply compare_in_trans; [exact Hb|exact (Hcx y Hy)]. }
  destruct (compare_in asc kp kc) eqn:E.
  - apply compare_in_Eq in E as <-. destruct vc as [vc|]; [|by apply IHp]. constructor; [by apply IHp|].
    apply merge_before; [done..|exact Hpx|exact Hcx].
  - constructor; [by apply IHp|]. apply merge_before; [done..|exact Hpx|]. intros y. by apply Hlt.
  - change ((fix go lc0 := _) lc) with (merge_items asc ((kp, vp) :: lp) lc). destruct vc as [vc|]; [|done]. constructor; [done|].
    apply merge_before; [done..| |exact Hcx]. intros y. assert (before (kc, Some vc) (kp, vp)) as Hb by (unfold MergeIter.before; cbn; by rewrite compare_in_antisym, E).
    intros [->|Hy]%elem_of_cons; [done|]. eapply compare_in_trans; [exact Hb|exact (Hpx y Hy)].
Qed.

(** Merging the items of a map with those of changes gives the items of the
    overlaid map. *)
Lemma merge_overlay m c P lm lc lr : ordered asc m P lm → ordered asc c P lc → ordered asc (overlay m c) P lr →
  merge_items asc (map_items Some lm) lc = map_items Some lr.
Proof.
  intros Hm Hc Hr. pose proof (ordered_fmap Some _ _ _ _ Hm) as [Sm Im]%ordered_before.
  pose proof (ordered_fmap Some _ _ _ _ Hr) as [Sr Ir]%ordered_before. apply ordered_before in Hc as [Sc Ic].
  eapply sorted_ext; [| |by apply merge_items_sorted|exact Sr|].
  - intros x y H1 H2. apply (compare_in_irrefl asc x.1). by eapply compare_in_trans.
  - intros x. apply compare_in_irrefl.
  - intros [k v]. rewrite elem_of_merge_items by done. unfold merged. rewrite Ir, Im. setoid_rewrite Ic.
    rewrite !lookup_fmap, lookup_overlay. destruct (c !! k) as [[w|]|] eqn:Hk; cbn.
    + naive_solver.
    + split; [intros [[[[= <-] _] [? [=]]]|[[??] Hn]]|intros [[=] _]]. by destruct (Hn None).
    + split; [intros [[[[=] _] _]|[? _]]; done|]. intros ?. right. split; [done|]. intros v' [[=] _].
Qed.
End merge_spec.

(** ** The laws of the merged iterator *)

Section merge_iter_laws.
Context {Ob St P C : Type} {HP : ObjIterator Ob St P} {HC : ObjIterator Ob St C}.
Context `{!Same St, !SameLaws St, LP : !IterLaws Ob St P, LC : !IterLaws Ob St C} (fuel : nat).
Notation mit := (cacheMergeIterator P C).

Definition merge_yields s (it : mit) l : Prop := at_merged (is_ascending it) fuel l s (s, it).

(** From the methods to the laws of an iterator. *)
Lemma method_ok {A} (m : stM (St * mit) A) (φ : A → Prop) s it l l' :
  (∀ asc lp lc, l = merge_items asc lp lc → (length lp + length lc < fuel)%nat →
     returns (at_pair asc s lp lc) m (λ a y, φ a ∧ at_merged asc fuel l' s y)) →
  merge_yields s it l → ∃ a s' it', m (s, it) = Ret (a, (s', it')) ∧ φ a ∧ same s s' ∧ merge_yields s' it' l'.
Proof.
  intros Hm (lp & lc & Hy & Hl & Hf).
  destruct (Hm _ lp lc Hl Hf (s, it) Hy) as (a & [s' it'] & E & Hφ & lp' & lc' & (Hs & H1' & H2' & Ha') & Hl' & Hf').
  exists a, s', it'. split_and!; [done|done|done|]. exists lp', lc'. by rewrite Ha'.
Qed.

Definition merge_iter_laws : @IterLaws Ob St mit _ (merge_iter HP HC fuel).
Proof.
  unshelve refine {| yields := merge_yields |}.
  - intros s s' it l Hs (lp & lc & (_ & H1 & H2 & H3) & H). exists lp, lc.
    split; [|done]. split_and!; [done|exact (yields_same _ _ _ _ Hs H1)|exact (yields_same _ _ _ _ Hs H2)|done].
  - intros s it l Hy.
    destruct (method_ok (Merge_Valid HP HC fuel) (λ b, b = bool_decide (l ≠ [])) s it l l) as (a & s' & it' & E & -> & H3 & H4); [|done|eauto].
    intros asc lp lc -> Hf. by apply Merge_Valid_ok.
  - intros s it x l Hy.
    destruct (method_ok (Merge_Next HP HC fuel) (λ u, u = tt) s it (x :: l) l) as (a & s' & it' & E & -> & H3 & H4); [|done|eauto].
    intros asc lp lc Hm Hf. eapply returns_post; [|by apply (Merge_Next_ok asc fuel s lp lc x l)]. by intros [] y.
  - intros s it x l Hy.
    destruct (method_ok (Merge_Key HP HC fuel) (λ k, k = x.1) s it (x :: l) (x :: l)) as (a & s' & it' & E & -> & H3 & H4); [|done|eauto].
    intros asc lp lc Hm Hf. by apply Merge_Key_ok.
  - intros s it x l Hy.
    destruct (method_ok (Merge_Value HP HC fuel) (λ v, v = x.2) s it (x :: l) (x :: l)) as (a & s' & it' & E & -> & H3 & H4); [|done|eauto].
    intros asc lp lc Hm Hf. by apply Merge_Value_ok.
Defined.

(** A merged iterator over the items of a map and of changes to it. *)
Lemma merge_yields_overlay (asc : bool) (s : St) (p : P) (c : C) (m : gmap bytes bytes) (ch : gmap bytes (option bytes)) Pk (lm : list (bytes * bytes)) lc (lr : list (bytes * bytes)) :
  ordered asc m Pk lm → ordered asc ch Pk lc → ordered asc (overlay m ch) Pk lr →
  yields s p (map_items Some lm) → yields s c lc → (length lm + length lc < fuel)%nat →
  merge_yields s (newCacheMergeIterator p c asc) (map_items Some lr).
Proof.
  intros Hm Hc Hr Hp Hyc Hf. exists (map_items Some lm), lc. split; [split_and!; [reflexivity|done|done|done]|]. split.
  - symmetry. by apply (merge_overlay asc m ch Pk).
  - unfold map_items. by rewrite length_fmap.
Qed.
End merge_iter_laws.
