(* ===== verification/RootSpec.v ===== *)
(** * What a trunk store relies on: the interface of the root store

    [types.RootStoreI] of store/types/types.go as the class [RootStoreOps], and
    what an implementation promises as [RootStoreLaws]: between two blocks it
    holds a map; keys are prepared, then a batch of writes to prepared keys
    changes the map as the writes say. *)
From S2P Require Import Prelude ByteOrder StoreTypes Client MergeIter.

Class RootStoreOps (Ob R RI : Type) := {
  rs_Get : bytes → stM R (option bytes);
  rs_GetObjCopy : bytes → option Ob → stM R (option Ob);
  rs_GetReadOnlyObj : bytes → option Ob → stM R (option Ob);
  rs_Has : bytes → stM R bool;
  rs_PrepareForUpdate : bytes → stM R unit;
  rs_PrepareForDeletion : bytes → stM R unit;
  rs_Iterator : bytes → bytes → stM R RI;
  rs_ReverseIterator : bytes → bytes → stM R RI;
  rs_iter : ObjIterator Ob R RI;
  rs_BeginWrite : stM R unit;
  rs_Set : bytes → option bytes → stM R unit;
  rs_SetObj : bytes → option Ob → stM R unit;
  rs_Delete : bytes → stM R unit;
  rs_EndWrite : stM R unit;
  rs_ActiveCount : R → Z
}.

(** A write with an object or bytes, and what it means. *)
Inductive root_write (Ob : Type) : Type :=
| RootSet (k v : bytes)
| RootSetObj (k : bytes) (o : Ob)
| RootDelete (k : bytes).
Arguments RootSet {Ob}.
Arguments RootSetObj {Ob}.
Arguments RootDelete {Ob}.

Section writes.
Context {Ob R RI : Type} `{SO : !Serializable Ob, HR : !RootStoreOps Ob R RI}.

Definition as_write (w : root_write Ob) : write :=
  match w with
  | RootSet k v => SetKey k v
  | RootSetObj k o => SetKey k (default [] (ToBytes o))
  | RootDelete k => DeleteKey k
  end.
Definition root_write_step (w : root_write Ob) : stM R unit :=
  match w with
  | RootSet k v => rs_Set k (Some v)
  | RootSetObj k o => rs_SetObj k (Some o)
  | RootDelete k => rs_Delete k
  end.
Definition run_root_writes (ws : list (root_write Ob)) : stM R unit := foldr (λ w m, _ ← root_write_step w; m) (mret tt) ws.
Definition write_batch (ws : list (root_write Ob)) : stM R unit := _ ← rs_BeginWrite; _ ← run_root_writes ws; rs_EndWrite.
Definition prepare_step (p : prep) : stM R unit :=
  match p with PrepUpdate k => rs_PrepareForUpdate k | PrepDeletion k => rs_PrepareForDeletion k end.
End writes.

Class RootStoreLaws (Ob R RI : Type) `{!Serializable Ob, !RootStoreOps Ob R RI} := {
  rs_same :: Same R;
  rs_same_laws :: SameLaws R;
  rs_iter_laws :: @IterLaws Ob R RI _ rs_iter;
  (** the keys and values a client may write *)
  rs_key_ok : bytes → Prop;
  rs_value_ok : bytes → Prop;
  (** how much of its capacity a store has used *)
  rs_used : R → Z;
  (** when a block is served that has prepared so many keys and leaves these
      contents, on a store that has used so much, and what it costs *)
  rs_served : Z → Z → gmap bytes bytes → Prop;
  rs_cost : Z → gmap bytes bytes → Z;
  rs_served_mono u u' n n' m : u' ≤ u → n' ≤ n → rs_served u n m → rs_served u' n' m;
  rs_cost_mono n n' m : n' ≤ n → rs_cost n' m ≤ rs_cost n m;
  (** the contents of a store that is not being written, and the keys prepared *)
  rs_reading : R → gmap bytes bytes → list prep → Prop;
  rs_reading_same r r' m ps : same r r' → rs_reading r m ps → rs_reading r' m ps;
  rs_used_same r r' : same r r' → rs_used r' = rs_used r;
  rs_Get_ok r m ps k : rs_reading r m ps → ∃ r', rs_Get k r = Ret (m !! k, r') ∧ same r r';
  rs_Has_ok r m ps k : rs_reading r m ps → ∃ r', rs_Has k r = Ret (bool_decide (is_Some (m !! k)), r') ∧ same r r';
  rs_GetObjCopy_ok r m ps k ptr p r' : rs_reading r m ps → rs_GetObjCopy k ptr r = Ret (p, r') → same r r' ∧
    match m !! k with None => p = None | Some bz => ∃ o, p = Some o ∧ read_object ptr bz o end;
  rs_GetReadOnlyObj_ok r m ps k ptr p r' : rs_reading r m ps → rs_GetReadOnlyObj k ptr r = Ret (p, r') → same r r' ∧
    match m !! k with None => p = None | Some bz => ∃ o, p = Some o ∧ read_object ptr bz o end;
  rs_prepare_ok r m ps p : rs_reading r m ps → rs_key_ok (prep_key p) →
    ∃ r', prepare_step p r = Ret (tt, r') ∧ rs_reading r' m (ps ++ [p]) ∧ rs_used r' = rs_used r;
  rs_Iterator_ok r m ps start end_ l : rs_reading r m ps → ordered true m (in_bounds start end_) l →
    ∃ it r', rs_Iterator start end_ r = Ret (it, r') ∧ same r r' ∧ yields (ObjIterator0 := rs_iter) r' it (map_items Some l);
  rs_ReverseIterator_ok r m ps start end_ l : rs_reading r m ps → ordered false m (in_bounds start end_) l →
    ∃ it r', rs_ReverseIterator start end_ r = Ret (it, r') ∧ same r r' ∧ yields (ObjIterator0 := rs_iter) r' it (map_items Some l);
  rs_write_ok r m ps (ws : list (root_write Ob)) : rs_reading r m ps → rs_served (rs_used r) (zlen ps) (spec_after m (as_write <$> ws)) →
    NoDup (write_key ∘ as_write <$> ws) →
    (∀ w, w ∈ ws → write_prep (as_write w) ∈ ps ∧ match as_write w with SetKey _ v => rs_value_ok v | DeleteKey _ => True end) →
    ∃ r', write_batch ws r = Ret (tt, r') ∧ rs_reading r' (spec_after m (as_write <$> ws)) [] ∧
      rs_used r' ≤ rs_used r + rs_cost (zlen ps) (spec_after m (as_write <$> ws))
}.
