(* ===== verification/TrunkStore.v ===== *)
(** * Trunk stores and multi stores (store/trunk.go, store/multi.go)

    A [TrunkStore] collects the changes of a block in a cache over the root
    store, a [MultiStore] those of a transaction in a cache over the trunk.
    Closing one with write-back hands its cache to the layer below. Several
    multi stores share a trunk, so a method of [MultiStore] changes its own
    cache and the trunk it is given. A closed store is given up: [Close] leaves
    only the layer below. *)
From S2P Require Import Prelude ByteOrder BTreeSpec StoreTypes Client.
From S2P Require Import CacheStore MergeIter RootSpec.

Section trunk.
Context {Ob T E R RI : Type} `{SO : !Serializable Ob, BO : !BTreeOps (Value Ob) T E, HR : !RootStoreOps Ob R RI} (fuel : nat).
Implicit Types (key : bytes) (value : option bytes) (ptr obj : option Ob).

(** ** TrunkStore *)

Record TrunkStore := mkTrunkStore { ts_cache : T; ts_root : R; isWriting : Z }.

Definition ts_root_lens : lens TrunkStore R :=
  Lens ts_root (λ r ts, mkTrunkStore (ts_cache ts) r (isWriting ts)).
Definition ts_cache_lens : lens TrunkStore T :=
  Lens ts_cache (λ c ts, mkTrunkStore c (ts_root ts) (isWriting ts)).
Notation stT A := (stM TrunkStore A).

(** A read of the cache that leaves it as it is. *)
Definition peek {S A B} (L : lens S A) (f : A → outcome B) : stM S B := λ s, b ← f (lget L s); Ret (b, s).
(** A call that replaces the cache. *)
Definition poke {A} (f : A → outcome A) : stM A unit := λ a, a ← f a; Ret (tt, a).

(** [GetTrunkStore] of the root stores *)
Definition GetTrunkStore (root : R) : TrunkStore := mkTrunkStore NewCacheStore root 0.

Definition not_writing : stT unit :=
  λ ts, if bool_decide (isWriting ts ≠ 0) then Panic "Is Writing" else Ret (tt, ts).

Definition Trunk_Has key : stT bool :=
  _ ← not_writing;
  '(_, status) ← peek ts_cache_lens (λ c, Cache_Get c key);
  match status with
  | JustDeleted => mret false
  | Hit => mret true
  | Missed => zoom ts_root_lens (rs_Has key)
  end.

Definition Trunk_Get key : stT (option bytes) :=
  _ ← not_writing;
  '(res, status) ← peek ts_cache_lens (λ c, Cache_Get c key);
  match status with
  | JustDeleted => mret None
  | Hit => mret res
  | Missed => zoom ts_root_lens (rs_Get key)
  end.

Definition Trunk_GetObjCopy key ptr : stT (option Ob) :=
  _ ← not_writing;
  '(status, ptr) ← peek ts_cache_lens (λ c, Cache_GetObjCopy c key ptr);
  match status with
  | JustDeleted => mret None
  | Missed => zoom ts_root_lens (rs_GetObjCopy key ptr)
  | Hit => mret ptr
  end.

Definition Trunk_GetReadOnlyObj key ptr : stT (option Ob) :=
  _ ← not_writing;
  '(status, ptr) ← peek ts_cache_lens (λ c, Cache_GetReadOnlyObj c key ptr);
  match status with
  | JustDeleted => mret None
  | Missed => zoom ts_root_lens (rs_GetReadOnlyObj key ptr)
  | Hit => mret ptr
  end.

Definition Trunk_PrepareForUpdate key : stT unit := _ ← not_writing; zoom ts_root_lens (rs_PrepareForUpdate key).
Definition Trunk_PrepareForDeletion key : stT unit := _ ← not_writing; zoom ts_root_lens (rs_PrepareForDeletion key).
Definition Trunk_Update (updator : stM T unit) : stT unit := _ ← not_writing; zoom ts_cache_lens updator.

Notation TrunkIter := (cacheMergeIterator RI (CacheObjIter Ob E)).
#[export] Instance trunk_iter : ObjIterator Ob TrunkStore TrunkIter :=
  merge_iter (zoom_iter ts_root_lens rs_iter) (zoom_iter ts_cache_lens cache_iterator) fuel.

Definition Trunk_Iterator (start end_ : bytes) : stT TrunkIter :=
  _ ← not_writing;
  p ← zoom ts_root_lens (rs_Iterator start end_);
  c ← peek ts_cache_lens (λ c, Cache_Iterator c start end_);
  mret (newCacheMergeIterator p c true).
Definition Trunk_ReverseIterator (start end_ : bytes) : stT TrunkIter :=
  _ ← not_writing;
  p ← zoom ts_root_lens (rs_ReverseIterator start end_);
  c ← peek ts_cache_lens (λ c, Cache_ReverseIterator c start end_);
  mret (newCacheMergeIterator p c false).

(** [atomic.AddInt64(&ts.isWriting, d) != want] panics. *)
Definition add_writing (d want : Z) : stT unit :=
  λ ts, let ts := mkTrunkStore (ts_cache ts) (ts_root ts) (isWriting ts + d) in
        if bool_decide (isWriting ts ≠ want) then Panic "Conflict During Writing" else Ret (tt, ts).

(** The callback of [writeBack]: an entry of the cache goes to the root. *)
Definition write_to_root key (obj : any Ob) (isDeleted : bool) : stM R unit :=
  if isDeleted then rs_Delete key else
  match obj with
  | Object sobj => rs_SetObj key (Some sobj)
  | Bytes bz => rs_Set key bz
  | _ => st_panic "interface conversion"
  end.
Definition Trunk_writeBack : stT unit :=
  _ ← add_writing 1 1;
  _ ← zoom ts_root_lens rs_BeginWrite;
  _ ← (λ ts, zoom ts_root_lens (ScanAllEntries write_to_root fuel (ts_cache ts)) ts);
  _ ← zoom ts_root_lens rs_EndWrite;
  add_writing (-1) 0.
Definition Trunk_Close (writeBack : bool) ts : outcome R :=
  '(_, ts) ← (if writeBack then Trunk_writeBack else mret tt) ts; mret (ts_root ts).
Definition Trunk_ActiveCount ts : Z := rs_ActiveCount (ts_root ts).

(** ** MultiStore *)

(** The cache of the transaction; its trunk is the second part of the state. *)
Definition MultiStore : Type := T.
Notation stMS A := (stM (MultiStore * TrunkStore) A).
Definition ms_cache_lens : lens (MultiStore * TrunkStore) T := Lens fst (λ c '(_, ts), (c, ts)).
Definition ms_trunk_lens : lens (MultiStore * TrunkStore) TrunkStore := Lens snd (λ ts '(c, _), (c, ts)).

Definition Cached : MultiStore := NewCacheStore.

Definition Multi_Has key : stMS bool :=
  '(_, status) ← peek ms_cache_lens (λ c, Cache_Get c key);
  match status with
  | JustDeleted => mret false
  | Hit => mret true
  | Missed => zoom ms_trunk_lens (Trunk_Has key)
  end.

Definition Multi_Get key : stMS (option bytes) :=
  '(res, status) ← peek ms_cache_lens (λ c, Cache_Get c key);
  match status with
  | JustDeleted => mret None
  | Hit => mret res
  | Missed => zoom ms_trunk_lens (Trunk_Get key)
  end.

Definition Multi_GetObj key ptr : stMS (option Ob) :=
  '(status, ptr) ← zoom ms_cache_lens (λ c, Cache_GetObj c key ptr);
  match status with
  | JustDeleted => mret None
  | Missed => zoom ms_trunk_lens (Trunk_GetObjCopy key ptr)
  | Hit => mret ptr
  end.

Definition Multi_GetReadOnlyObj key ptr : stMS (option Ob) :=
  '(status, ptr) ← peek ms_cache_lens (λ c, Cache_GetReadOnlyObj c key ptr);
  match status with
  | JustDeleted => mret None
  | Missed => zoom ms_trunk_lens (Trunk_GetReadOnlyObj key ptr)
  | Hit => mret ptr
  end.

Definition Multi_Set key value : stMS unit :=
  _ ← zoom ms_cache_lens (poke (λ c, Cache_Set c key value));
  zoom ms_trunk_lens (Trunk_PrepareForUpdate key).
Definition Multi_SetObj key obj : stMS unit :=
  _ ← zoom ms_cache_lens (poke (λ c, Cache_SetObj c key obj));
  zoom ms_trunk_lens (Trunk_PrepareForUpdate key).
Definition Multi_Delete key : stMS unit :=
  _ ← zoom ms_cache_lens (poke (λ c, Cache_Delete c key));
  zoom ms_trunk_lens (Trunk_PrepareForDeletion key).

(** The callback of [writeBack]: an entry goes to the cache of the trunk. *)
Definition write_to_cache key (obj : any Ob) (isDeleted : bool) : stM T unit :=
  poke (λ cache,
    if isDeleted then Cache_Delete cache key else
    match obj with
    | Object sobj => Cache_SetObj cache key (Some sobj)
    | Bytes bz => Cache_Set cache key bz
    | _ => Panic "interface conversion"
    end).
Definition Multi_writeBack : stMS unit :=
  λ s, zoom ms_trunk_lens (Trunk_Update (ScanAllEntries write_to_cache fuel (fst s))) s.
Definition Multi_Close (writeBack : bool) (s : MultiStore * TrunkStore) : outcome TrunkStore :=
  '(_, s) ← (if writeBack then Multi_writeBack else mret tt) s; mret (snd s).

Notation MultiIter := (cacheMergeIterator TrunkIter (CacheObjIter Ob E)).
#[export] Instance multi_iter : ObjIterator Ob (MultiStore * TrunkStore) MultiIter :=
  merge_iter (zoom_iter ms_trunk_lens trunk_iter) (zoom_iter ms_cache_lens cache_iterator) fuel.

Definition Multi_Iterator (start end_ : bytes) : stMS MultiIter :=
  p ← zoom ms_trunk_lens (Trunk_Iterator start end_);
  c ← peek ms_cache_lens (λ c, Cache_Iterator c start end_);
  mret (newCacheMergeIterator p c true).
Definition Multi_ReverseIterator (start end_ : bytes) : stMS MultiIter :=
  p ← zoom ms_trunk_lens (Trunk_ReverseIterator start end_);
  c ← peek ms_cache_lens (λ c, Cache_ReverseIterator c start end_);
  mret (newCacheMergeIterator p c false).
End trunk.
Arguments TrunkStore T R : clear implicits.
