(* ===== verification/TrunkRun.v ===== *)
(** * Transactions over a trunk store refine a map

    What a client of a [MultiStore] sees is the contents of the root, overlaid
    with the cache of the trunk and then with its own; closing hands a cache
    down. The laws of the root store are all that is needed. *)
From S2P Require Import Prelude ByteOrder BTreeSpec StoreTypes Client.
From S2P Require Import CacheStore MergeIter RootSpec TrunkStore.

Section trunk_run.
Context {Ob T E R RI : Type} `{SO : !Serializable Ob, !SerializableLaws Ob, BO : !BTreeOps (Value Ob) T E, !BTreeLaws (Value Ob) T E}.
Context `{HR : !RootStoreOps Ob R RI, LR : !RootStoreLaws Ob R RI} (fuel : nat).
Notation TrunkStore := (TrunkStore T R).
Notation MultiState := (T * TrunkStore)%type.
Implicit Types (ts : TrunkStore) (key : bytes) (base : gmap bytes bytes) (c d : gmap bytes (option bytes)) (ps : list prep).

(** ** Reading leaves the stores the same *)

#[local] Instance tree_same : Same T := cache_same.

#[export] Instance trunk_same : Same TrunkStore :=
  λ ts ts', ts_cache ts = ts_cache ts' ∧ same (ts_root ts) (ts_root ts') ∧ isWriting ts = isWriting ts'.
#[export] Instance trunk_same_laws : SameLaws TrunkStore.
Proof.
  split; [intros x; split; [done|split; [reflexivity|done]]|].
  intros x y z (H1 & H2 & H3) (H4 & H5 & H6). split; [congruence|split; [by etrans|congruence]].
Qed.
#[export] Instance multi_same : Same MultiState := λ s s', s.1 = s'.1 ∧ same s.2 s'.2.
#[export] Instance multi_same_laws : SameLaws MultiState.
Proof. split; [intros x; split; [done|reflexivity]|]. intros x y z (H1 & H2) (H3 & H4). split; [congruence|by etrans]. Qed.
#[export] Instance ts_root_lens_same : LensSame (ts_root_lens (T := T) (R := R)).
Proof. split; [done|intros ts r H; by split|by intros ts ts' (_ & H & _)]. Qed.
#[export] Instance ts_cache_lens_same : LensSame (ts_cache_lens (T := T) (R := R)).
Proof. split; [done| |by intros ts ts' (H & _ & _)]. intros ts a <-. split; [done|split; [reflexivity|done]]. Qed.
#[export] Instance ms_cache_lens_same : LensSame (ms_cache_lens (T := T) (R := R)).
Proof. split; [by intros []| |by intros s s' (H & _)]. intros [c ts] a <-. split; [done|reflexivity]. Qed.
#[export] Instance ms_trunk_lens_same : LensSame (ms_trunk_lens (T := T) (R := R)).
Proof. split; [by intros []| |by intros s s' (_ & H)]. intros [c ts] a H. by split. Qed.

#[export] Instance trunk_iter_laws : @IterLaws Ob TrunkStore (cacheMergeIterator RI (CacheObjIter Ob E)) _ (trunk_iter fuel) :=
  merge_iter_laws (LP := zoom_iter_laws ts_root_lens rs_iter) (LC := zoom_iter_laws ts_cache_lens cache_iterator) fuel.
#[export] Instance multi_iter_laws : @IterLaws Ob MultiState (cacheMergeIterator (cacheMergeIterator RI (CacheObjIter Ob E)) (CacheObjIter Ob E)) _ (multi_iter fuel) :=
  merge_iter_laws (LP := zoom_iter_laws ms_trunk_lens (trunk_iter fuel)) (LC := zoom_iter_laws ms_cache_lens cache_iterator) fuel.

(** ** The state of a trunk and of a transaction *)

(** The keys of changes are prepared, their values can be stored. *)
Definition prepared ps c : Prop := ∀ k o, c !! k = Some o →
  match o with Some v => PrepUpdate k ∈ ps ∧ rs_value_ok (R := R) v | None => PrepDeletion k ∈ ps end.

Record trunk_at ts base c ps : Prop := {
  ta_root : rs_reading (ts_root ts) base ps;
  ta_cache : cache_ok (ts_cache ts);
  ta_view : cache_view (ts_cache ts) = c;
  ta_idle : isWriting ts = 0;
  ta_prepared : prepared ps c
}.
Record multi_at (s : MultiState) base c d ps : Prop := {
  ma_trunk : trunk_at s.2 base c ps;
  ma_cache : cache_ok s.1;
  ma_view : cache_view s.1 = d;
  ma_prepared : prepared ps d
}.

Lemma trunk_at_same ts ts' base c ps : same ts ts' → trunk_at ts base c ps → trunk_at ts' base c ps.
Proof. intros (H1 & H2 & H3) []. split; [by eapply rs_reading_same|congruence|congruence|congruence|done]. Qed.
Lemma multi_at_same s s' base c d ps : same s s' → multi_at s base c d ps → multi_at s' base c d ps.
Proof. intros (H1 & H2) []. split; [by eapply trunk_at_same|congruence|congruence|done]. Qed.

Lemma prepared_mono ps ps' c : prepared ps c → prepared (ps ++ ps') c.
Proof. intros H k o Hk. specialize (H k o Hk). destruct o; [destruct H; split; [|done]|]; apply elem_of_app; by left. Qed.

(** ** Reading *)

Lemma peek_Ret {S A B} (L : lens S A) (f : A → outcome B) (s : S) b : f (lget L s) = Ret b → peek L f s = Ret (b, s).
Proof. unfold peek. by intros ->. Qed.

(** The shape of the reading methods: the cache, and the layer below when the key is missed. *)
Lemma layer_read {S A B} `{!Same S, !SameLaws S} (L : lens S A) (f : A → outcome (B * CacheStatus)) (below : stM S B) (missed : B) (s : S) st r m :
  f (lget L s) = Ret (r, st) →
  match st with Missed => ∃ s', below s = Ret (m, s') ∧ same s s' | Hit => r = m | JustDeleted => missed = m end →
  ∃ s', ('(res, status) ← peek L f; match status with JustDeleted => mret missed | Hit => mret res | Missed => below end) s = Ret (m, s') ∧ same s s'.
Proof.
  intros Ef H. unfold mbind at 1, stM_bind at 1. rewrite (peek_Ret L f s _ Ef). cbn [mbind outcome_bind].
  destruct st; [done|exists s; by rewrite <- H|exists s; by rewrite <- H].
Qed.

Lemma not_writing_ok ts base c ps {A} (m : stM TrunkStore A) : trunk_at ts base c ps → (_ ← not_writing; m) ts = m ts.
Proof. intros H. unfold mbind, stM_bind, not_writing. rewrite bool_decide_eq_false_2; [done|]. intros Hn. apply Hn, (ta_idle _ _ _ _ H). Qed.

Lemma zoom_same {S A X} (L : lens S A) `{!Same S, !Same A, !LensSame L} (m : stM A X) (s : S) x a :
  m (lget L s) = Ret (x, a) → same (lget L s) a → ∃ s', zoom L m s = Ret (x, s') ∧ same s s'.
Proof. intros Em H. exists (lset L a s). split; [by apply zoom_Ret|by apply lset_same]. Qed.

Lemma Trunk_Get_ok ts base c ps key : trunk_at ts base c ps →
  ∃ ts', Trunk_Get key ts = Ret (overlay base c !! key, ts') ∧ same ts ts'.
Proof.
  intros H. unfold Trunk_Get. rewrite (not_writing_ok _ _ _ _ _ H). destruct H as [H1 H2 H3 H4 H5].
  pose proof (Cache_Get_ok _ key H2) as Hg. rewrite lookup_overlay, <- H3.
  destruct (cache_view (ts_cache ts) !! key) as [[v|]|]; (eapply (layer_read ts_cache_lens (λ x, Cache_Get x key)); [exact Hg|]); [done..|].
  destruct (rs_Get_ok _ _ _ key H1) as (r' & E1 & Hs). by apply (zoom_same _ _ _ _ r').
Qed.
Lemma Multi_Get_ok s base c d ps key : multi_at s base c d ps →
  ∃ s', Multi_Get key s = Ret (overlay (overlay base c) d !! key, s') ∧ same s s'.
Proof.
  intros [H1 H2 H3 H4]. unfold Multi_Get.
  pose proof (Cache_Get_ok _ key H2) as Hg. rewrite lookup_overlay, <- H3.
  destruct (cache_view s.1 !! key) as [[v|]|]; (eapply (layer_read ms_cache_lens (λ x, Cache_Get x key)); [exact Hg|]); [done..|].
  destruct (Trunk_Get_ok _ _ _ _ key H1) as (ts' & E1 & Hs). by apply (zoom_same ms_trunk_lens _ _ _ ts').
Qed.

(** [Has] reads the same way but keeps the status only. *)
Lemma Trunk_Has_ok ts base c ps key : trunk_at ts base c ps →
  ∃ ts', Trunk_Has key ts = Ret (bool_decide (is_Some (overlay base c !! key)), ts') ∧ same ts ts'.
Proof.
  intros H. unfold Trunk_Has. rewrite (not_writing_ok _ _ _ _ _ H). destruct H as [H1 H2 H3 H4 H5].
  pose proof (Cache_Get_ok _ key H2) as Hg. rewrite lookup_overlay, <- H3.
  unfold mbind at 1, stM_bind at 1. rewrite (peek_Ret ts_cache_lens _ _ _ Hg). cbn [mbind outcome_bind].
  destruct (cache_view (ts_cache ts) !! key) as [[v|]|]; [by exists ts..|].
  destruct (rs_Has_ok _ _ _ key H1) as (r' & E1 & Hs). by apply (zoom_same _ _ _ _ r').
Qed.
Lemma Multi_Has_ok s base c d ps key : multi_at s base c d ps →
  ∃ s', Multi_Has key s = Ret (bool_decide (is_Some (overlay (overlay base c) d !! key)), s') ∧ same s s'.
Proof.
  intros [H1 H2 H3 H4]. unfold Multi_Has. pose proof (Cache_Get_ok _ key H2) as Hg. rewrite lookup_overlay, <- H3.
  unfold mbind at 1, stM_bind at 1. rewrite (peek_Ret ms_cache_lens _ _ _ Hg). cbn [mbind outcome_bind].
  destruct (cache_view s.1 !! key) as [[v|]|]; [by exists s..|].
  destruct (Trunk_Has_ok _ _ _ _ key H1) as (ts' & E1 & Hs). by apply (zoom_same ms_trunk_lens _ _ _ ts').
Qed.

(** Objects: what is read has the bytes of the key, or is what the client's
    object reads from them. *)
Definition object_of (ptr : option Ob) (v : option bytes) (p : option Ob) : Prop :=
  match v with None => p = None | Some bz => ∃ o, p = Some o ∧ read_object ptr bz o end.

Lemma layer_object {S A} `{!Same S, !SameLaws S} (L : lens S A) (f : A → outcome (CacheStatus * option Ob)) (below : option Ob → stM S (option Ob)) ptr (v : option (option bytes)) w p (s s' : S) :
  (∀ st q, f (lget L s) = Ret (st, q) → match v with
    | None => st = Missed ∧ q = ptr | Some None => st = JustDeleted | Some (Some bz) => st = Hit ∧ object_of ptr (Some bz) q end) →
  (below ptr s = Ret (p, s') → same s s' ∧ object_of ptr w p) →
  ('(status, q) ← peek L f; match status with JustDeleted => mret None | Missed => below q | Hit => mret q end) s = Ret (p, s') →
  same s s' ∧ object_of ptr (match v with Some o => o | None => w end) p.
Proof.
  intros Hf Hb Hm. unfold mbind at 1, stM_bind at 1, peek in Hm. destruct (f (lget L s)) as [[st q]|]; [|done]. cbn in Hm.
  specialize (Hf st q eq_refl). destruct v as [[bz|]|].
  - destruct Hf as [-> Ho]. injection Hm as <- <-. split; [reflexivity|done].
  - subst st. injection Hm as <- <-. split; [reflexivity|done].
  - destruct Hf as [-> ->]. auto.
Qed.

Lemma zoom_inv {S A X} (L : lens S A) (m : stM A X) (s s' : S) x :
  zoom L m s = Ret (x, s') → ∃ a, m (lget L s) = Ret (x, a) ∧ s' = lset L a s.
Proof. unfold zoom. destruct (m (lget L s)) as [[y a]|]; [|done]. intros [= <- <-]. by exists a. Qed.

Lemma Trunk_GetReadOnlyObj_ok ts base c ps key ptr p ts' : trunk_at ts base c ps → Trunk_GetReadOnlyObj key ptr ts = Ret (p, ts') →
  same ts ts' ∧ object_of ptr (overlay base c !! key) p.
Proof.
  intros H. unfold Trunk_GetReadOnlyObj. rewrite (not_writing_ok _ _ _ _ _ H), lookup_overlay. destruct H as [H1 H2 H3 H4 H5]. rewrite <- H3.
  apply (layer_object ts_cache_lens (λ x, Cache_GetReadOnlyObj x key ptr) (λ ptr, zoom ts_root_lens (rs_GetReadOnlyObj key ptr))).
  - intros st q Hg. pose proof (Cache_GetReadOnlyObj_ok _ _ _ _ _ H2 Hg) as Ho. cbn [ts_cache_lens lget] in *.
    destruct (cache_view (ts_cache ts) !! key) as [[bz|]|]; tauto.
  - intros (r' & E1 & ->)%zoom_inv. apply (rs_GetReadOnlyObj_ok _ _ _ _ _ _ _ H1) in E1 as [Hs Ho]. split; [by apply lset_same|done].
Qed.
Lemma Multi_GetReadOnlyObj_ok s base c d ps key ptr p s' : multi_at s base c d ps → Multi_GetReadOnlyObj key ptr s = Ret (p, s') →
  same s s' ∧ object_of ptr (overlay (overlay base c) d !! key) p.
Proof.
  intros [H1 H2 H3 H4]. unfold Multi_GetReadOnlyObj. rewrite lookup_overlay, <- H3.
  apply (layer_object ms_cache_lens (λ x, Cache_GetReadOnlyObj x key ptr) (λ ptr, zoom ms_trunk_lens (Trunk_GetReadOnlyObj key ptr))).
  - intros st q Hg. pose proof (Cache_GetReadOnlyObj_ok _ _ _ _ _ H2 Hg) as Ho. cbn [ms_cache_lens lget] in *.
    destruct (cache_view s.1 !! key) as [[bz|]|]; tauto.
  - intros (ts' & E1 & ->)%zoom_inv. apply (Trunk_GetReadOnlyObj_ok _ _ _ _ _ _ _ _ H1) in E1 as [Hs Ho]. split; [by apply lset_same|done].
Qed.

(** ** Iterating *)

Lemma ordered_items {V} (asc : bool) (m : gmap bytes V) start end_ :
  ∃ l, ordered asc m (in_bounds start end_) l ∧ (length l ≤ size m)%nat.
Proof.
  pose proof (bounded_items m start end_) as H. pose proof (ascending_length _ _ _ H). destruct asc; [by eexists|].
  exists (rev (items (bounded start end_) m)). rewrite length_rev. split; [by apply descending_rev|done].
Qed.
Lemma ordered_length {V} (asc : bool) (m : gmap bytes V) start end_ l : ordered asc m (in_bounds start end_) l → (length l ≤ size m)%nat.
Proof. intros H. destruct (ordered_items asc m start end_) as (l' & H' & Hl). by rewrite (ordered_unique _ _ _ _ _ H H'). Qed.
Lemma size_overlay base c : (size (overlay base c) ≤ size base + size c)%nat.
Proof.
  assert (dom (overlay base c) ⊆ dom base ∪ dom c) as Hd.
  { intros k [v Hv]%elem_of_dom. rewrite lookup_overlay in Hv. rewrite elem_of_union, !elem_of_dom. destruct (c !! k); [right|left]; by eexists. }
  rewrite <- (size_dom base), <- (size_dom c), <- (size_dom (overlay base c)). etrans; [by apply subseteq_size|]. rewrite size_union_alt.
  assert (size (dom c ∖ dom base) ≤ size (dom c))%nat by (apply subseteq_size; set_solver). lia.
Qed.

(** A layer over a parent: both iterators are created and merged. *)
Lemma layer_iterator {St P} `{!Same St, !SameLaws St} (HP : ObjIterator Ob St P) (HL : @IterLaws Ob St P _ HP) (L : lens St T) `{!LensSame L}
  (asc : bool) (mkP : stM St P) (mkC : T → outcome (CacheObjIter Ob E)) (m : gmap bytes bytes) ch Pk (lm lr : list (bytes * bytes)) lc s :
  ordered asc m Pk lm → ordered asc ch Pk lc → ordered asc (overlay m ch) Pk lr → (length lm + length lc < fuel)%nat →
  (∃ p s', mkP s = Ret (p, s') ∧ same s s' ∧ yields s' p (map_items Some lm)) →
  (∃ it, mkC (lget L s) = Ret it ∧ ci_yields (lget L s) it lc) →
  ∃ it s', (p ← mkP; c ← peek L mkC; mret (newCacheMergeIterator p c asc)) s = Ret (it, s') ∧ same s s' ∧
    @yields Ob St _ _ _ (merge_iter_laws (LP := HL) (LC := zoom_iter_laws L cache_iterator) fuel) s' it (map_items Some lr).
Proof.
  intros Hm Hc Hr Hf (p & s' & Ep & Hs & Hy) (it & Ei & Hi). assert (lget L s' = lget L s) as Hg by (symmetry; by apply (lget_same s s')).
  exists (newCacheMergeIterator p it asc), s'. split; [|split; [done|]].
  - unfold mbind, stM_bind. rewrite Ep. cbn [mbind outcome_bind]. unfold peek. by rewrite Hg, Ei.
  - eapply (merge_yields_overlay (LP := HL) (LC := zoom_iter_laws L cache_iterator) fuel asc s' p it m ch Pk); [done..| |done]. cbn. by rewrite Hg.
Qed.

Notation yields_trunk := (@yields Ob TrunkStore _ _ (trunk_iter fuel) trunk_iter_laws).
Notation yields_multi := (@yields Ob MultiState _ _ (multi_iter fuel) multi_iter_laws).

Lemma root_iterator_ok (asc : bool) r base ps start end_ l : rs_reading r base ps → ordered asc base (in_bounds start end_) l →
  ∃ it r', (if asc then rs_Iterator start end_ else rs_ReverseIterator start end_) r = Ret (it, r') ∧ same r r' ∧
    @yields Ob R RI _ rs_iter _ r' it (map_items Some l).
Proof. destruct asc; [apply rs_Iterator_ok|apply rs_ReverseIterator_ok]. Qed.
Lemma cache_iterator_ok (asc : bool) (t : T) start end_ l : cache_ok t → ordered asc (cache_view t) (in_bounds start end_) l →
  ∃ it, (if asc then Cache_Iterator t start end_ else Cache_ReverseIterator t start end_) = Ret it ∧ ci_yields t it l.
Proof. destruct asc; [apply Cache_Iterator_ok|apply Cache_ReverseIterator_ok]. Qed.

Definition trunk_iterator (asc : bool) (start end_ : bytes) := if asc then Trunk_Iterator start end_ else Trunk_ReverseIterator start end_.
Definition multi_iterator (asc : bool) (start end_ : bytes) := if asc then Multi_Iterator start end_ else Multi_ReverseIterator start end_.

Lemma trunk_iterator_ok asc ts base c ps start end_ l : trunk_at ts base c ps → ordered asc (overlay base c) (in_bounds start end_) l →
  (size base + size c < fuel)%nat →
  ∃ it ts', trunk_iterator asc start end_ ts = Ret (it, ts') ∧ same ts ts' ∧ yields_trunk ts' it (map_items Some l).
Proof.
  intros H Hl Hf. pose proof H as [H1 H2 H3 H4 H5].
  destruct (ordered_items asc base start end_) as (lb & Hlb & Lb). destruct (ordered_items asc c start end_) as (lc & Hlc & Lc).
  assert (trunk_iterator asc start end_ ts = (p ← zoom ts_root_lens ((if asc then rs_Iterator else rs_ReverseIterator) start end_);
    q ← peek ts_cache_lens (λ x, (if asc then Cache_Iterator else Cache_ReverseIterator) x start end_); mret (newCacheMergeIterator p q asc)) ts) as ->.
  { destruct asc; cbn [trunk_iterator]; [unfold Trunk_Iterator|unfold Trunk_ReverseIterator]; by rewrite (not_writing_ok _ _ _ _ _ H). }
  apply (layer_iterator (zoom_iter ts_root_lens rs_iter) (zoom_iter_laws ts_root_lens rs_iter) ts_cache_lens asc _ _ base c (in_bounds start end_) lb l lc);
    [done..|lia| |].
  - destruct (root_iterator_ok asc (ts_root ts) base ps start end_ lb H1 Hlb) as (it & r' & E1 & Hs & Hy).
    destruct (zoom_same ts_root_lens (if asc then rs_Iterator start end_ else rs_ReverseIterator start end_) ts it r' E1 Hs) as (ts' & E2 & Hs2).
    exists it, (lset ts_root_lens r' ts). split; [by destruct asc; apply zoom_Ret|]. split; [by apply lset_same|]. exact Hy.
  - destruct (cache_iterator_ok asc (ts_cache ts) start end_ lc H2) as (it & E1 & Hy); [by rewrite H3|].
    exists it. split; [by destruct asc|done].
Qed.
Lemma multi_iterator_ok asc s base c d ps start end_ l : multi_at s base c d ps → ordered asc (overlay (overlay base c) d) (in_bounds start end_) l →
  (size base + size c + size d < fuel)%nat →
  ∃ it s', multi_iterator asc start end_ s = Ret (it, s') ∧ same s s' ∧ yields_multi s' it (map_items Some l).
Proof.
  intros [H1 H2 H3 H4] Hl Hf. pose proof (size_overlay base c).
  destruct (ordered_items asc (overlay base c) start end_) as (lb & Hlb & Lb). destruct (ordered_items asc d start end_) as (lc & Hlc & Lc).
  assert (multi_iterator asc start end_ s = (p ← zoom ms_trunk_lens (trunk_iterator asc start end_);
    q ← peek ms_cache_lens (λ x, (if asc then Cache_Iterator else Cache_ReverseIterator) x start end_); mret (newCacheMergeIterator p q asc)) s) as ->.
  { by destruct asc. }
  apply (layer_iterator (zoom_iter ms_trunk_lens (trunk_iter fuel)) (zoom_iter_laws ms_trunk_lens (trunk_iter fuel)) ms_cache_lens asc _ _ (overlay base c) d (in_bounds start end_) lb l lc);
    [done..|lia| |].
  - destruct (trunk_iterator_ok asc s.2 base c ps start end_ lb H1 Hlb) as (it & ts' & E1 & Hs & Hy); [lia|].
    exists it, (lset ms_trunk_lens ts' s). split; [by apply zoom_Ret|]. split; [by apply lset_same|]. by destruct s.
  - destruct (cache_iterator_ok asc s.1 start end_ lc H2) as (it & E1 & Hy); [by rewrite H3|].
    exists it. split; [by destruct asc|done].
Qed.

(** ** Writing *)

Definition multi_step (w : root_write Ob) : stM MultiState unit :=
  match w with
  | RootSet k v => Multi_Set k (Some v)
  | RootSetObj k o => Multi_SetObj k (Some o)
  | RootDelete k => Multi_Delete k
  end.
(** A transaction: the writes of a client of the multi store. *)
Definition run_tx (ws : list (root_write Ob)) : stM MultiState unit := foldr (λ w m, _ ← multi_step w; m) (mret tt) ws.

Definition write_value (w : write) : option bytes := match w with SetKey _ v => Some v | DeleteKey _ => None end.
Definition change d (w : write) : gmap bytes (option bytes) := <[write_key w := write_value w]> d.
Definition write_allowed (w : write) : Prop :=
  rs_key_ok (R := R) (write_key w) ∧ match w with SetKey _ v => rs_value_ok (R := R) v | DeleteKey _ => True end.

Lemma overlay_change base d w : overlay base (change d w) = spec_write (overlay base d) w.
Proof. destruct w; [apply overlay_insert|apply overlay_delete]. Qed.
Lemma overlay_changes base ws : ∀ d, overlay base (foldl change d ws) = spec_after (overlay base d) ws.
Proof. induction ws as [|w ws IH]; intros d; [done|]. cbn. by rewrite IH, overlay_change. Qed.
Lemma size_changes ws : ∀ d, (size (foldl change d ws) ≤ size d + length ws)%nat.
Proof.
  induction ws as [|w ws IH]; intros d; [cbn; lia|]. cbn [foldl length]. etrans; [apply IH|].
  assert (size (change d w) ≤ S (size d))%nat; [|lia]. unfold change. rewrite map_size_insert. destruct (d !! write_key w); cbn; lia.
Qed.

Lemma prepared_change ps d w : prepared ps d → write_allowed w → prepared (ps ++ [write_prep w]) (change d w).
Proof.
  intros H [_ Hv] k o. unfold change. intros [[<- <-]|[Hne Hk]]%lookup_insert_Some; [|by apply (prepared_mono ps _ _ H)].
  destruct w; cbn; [split; [|done]|]; apply elem_of_app; right; by left.
Qed.

Lemma trunk_prepare_ok ts base c ps p : trunk_at ts base c ps → rs_key_ok (R := R) (prep_key p) →
  ∃ ts', (_ ← not_writing; zoom ts_root_lens (prepare_step p)) ts = Ret (tt, ts') ∧ trunk_at ts' base c (ps ++ [p]) ∧
    rs_used (ts_root ts') = rs_used (ts_root ts).
Proof.
  intros H Hk. rewrite (not_writing_ok _ _ _ _ _ H). destruct H as [H1 H2 H3 H4 H5].
  destruct (rs_prepare_ok _ _ _ p H1 Hk) as (r' & E1 & Hr & Hl). exists (lset ts_root_lens r' ts).
  split; [by apply zoom_Ret|]. split; [|done]. split; [done..|by apply prepared_mono].
Qed.

Lemma cache_write_ok (t : T) (w : root_write Ob) : cache_ok t → ∃ t',
  (match w with RootSet k v => Cache_Set t k (Some v) | RootSetObj k o => Cache_SetObj t k (Some o) | RootDelete k => Cache_Delete t k end) = Ret t' ∧
  cache_ok t' ∧ cache_view t' = change (cache_view t) (as_write w).
Proof.
  intros H. destruct w as [k v|k o|k]; [by apply Cache_Set_ok| |by apply Cache_Delete_ok].
  destruct (Cache_SetObj_ok t k o H) as (t' & E1 & H1 & H2). exists t'. split_and!; [done..|]. rewrite H2.
  unfold change. cbn. by destruct (ToBytes_slice o) as [bz ->].
Qed.

Lemma multi_step_ok s base c d ps w : multi_at s base c d ps → write_allowed (as_write w) →
  ∃ s', multi_step w s = Ret (tt, s') ∧ multi_at s' base c (change d (as_write w)) (ps ++ [write_prep (as_write w)]) ∧
    rs_used (ts_root s'.2) = rs_used (ts_root s.2).
Proof.
  intros [H1 H2 H3 H4] Hw. destruct s as [t ts]. cbn [fst snd] in *.
  destruct (cache_write_ok t w H2) as (t' & E1 & H2' & Hv).
  destruct (trunk_prepare_ok ts base c ps (write_prep (as_write w)) H1) as (ts' & E2 & H1' & Hl); [by destruct Hw as [Hk _]; destruct w|].
  exists (t', ts'). split.
  - destruct w; cbn [multi_step]; unfold Multi_Set, Multi_SetObj, Multi_Delete, mbind, stM_bind;
      (erewrite (zoom_Ret ms_cache_lens); [|unfold poke; cbn [lget ms_cache_lens fst]; rewrite E1; reflexivity]);
      cbn [mbind outcome_bind lset ms_cache_lens]; exact (zoom_Ret ms_trunk_lens _ (t', ts) _ _ E2).
  - split; [|done]. split; [done..|by rewrite <- H3|by apply prepared_change].
Qed.

Lemma run_tx_ok ws : ∀ s base c d ps, multi_at s base c d ps → (∀ w, w ∈ ws → write_allowed (as_write w)) →
  ∃ s', run_tx ws s = Ret (tt, s') ∧ multi_at s' base c (foldl change d (as_write <$> ws)) (ps ++ (write_prep ∘ as_write <$> ws)) ∧
    rs_used (ts_root s'.2) = rs_used (ts_root s.2).
Proof.
  induction ws as [|w ws IH]; intros s base c d ps H Hws.
  { exists s. cbn. by rewrite app_nil_r. }
  destruct (multi_step_ok s base c d ps w H) as (s1 & E1 & H1 & L1); [by apply Hws; left|].
  destruct (IH s1 base c _ _ H1) as (s2 & E2 & H2 & L2); [intros w' Hw'; apply Hws; by right|].
  exists s2. split; [|split; [|congruence]].
  - unfold run_tx. cbn [foldr]. unfold mbind, stM_bind. rewrite E1. exact E2.
  - cbn. by rewrite <- app_assoc in H2.
Qed.

(** ** Closing a transaction *)

(** What an entry of a cache stands for. *)
Definition entry_write (x : bytes * Value Ob) : root_write Ob :=
  match obj x.2 with Object o => RootSetObj x.1 o | Bytes bz => RootSet x.1 (default [] bz) | _ => RootDelete x.1 end.
Lemma entry_write_key x : write_key (as_write (entry_write x)) = x.1.
Proof. unfold entry_write. by destruct (obj x.2). Qed.
Lemma entry_write_value x : clean x.2 → write_value (as_write (entry_write x)) = val_view x.2.
Proof.
  destruct x as [k [[|[bz|]|o|]]]; cbn; try done. intros _. by destruct (ToBytes_slice o) as [? ->].
Qed.

Lemma write_to_cache_ok x (t : T) : cache_ok t → clean x.2 →
  ∃ t', write_to_cache x.1 (GetObj x.2) (IsDeleted x.2) t = Ret (tt, t') ∧ cache_ok t' ∧ cache_view t' = change (cache_view t) (as_write (entry_write x)).
Proof.
  intros Ht Hc. destruct (cache_write_ok t (entry_write x) Ht) as (t' & E1 & H). exists t'. split; [|done].
  unfold write_to_cache, poke. destruct x as [k [[|[bz|]|o|]]]; cbn in *; try done; try (by rewrite E1).
Qed.
Lemma run_entries_cache l : ∀ t : T, cache_ok t → (∀ x, x ∈ l → clean x.2) →
  ∃ t', run_entries write_to_cache l t = Ret (tt, t') ∧ cache_ok t' ∧ cache_view t' = foldl change (cache_view t) (as_write ∘ entry_write <$> l).
Proof.
  induction l as [|[k v] l IH]; intros t Ht Hl; [by exists t|].
  destruct (write_to_cache_ok (k, v) t Ht) as (t1 & E1 & H1 & V1); [by apply (Hl (k, v)); left|].
  destruct (IH t1 H1) as (t2 & E2 & H2 & V2); [intros x Hx; apply Hl; by right|]. exists t2. split; [|split; [done|]].
  - cbn [run_entries foldr]. unfold mbind, stM_bind. cbn [fst snd] in E1. rewrite E1. exact E2.
  - rewrite V2, V1. done.
Qed.

Lemma lookup_changes l : ∀ c, NoDup l.*1 → (∀ x, x ∈ l → clean x.2) → ∀ k, foldl change c (as_write ∘ entry_write <$> l) !! k =
  match (list_to_map l : gmap bytes (Value Ob)) !! k with Some v => Some (val_view v) | None => c !! k end.
Proof.
  induction l as [|[k v] l IH]; intros c Hnd Hc j; cbn [fmap list_fmap list_to_map foldr foldl uncurry]; [done|].
  cbn in Hnd. apply NoDup_cons in Hnd as [Hk Hnd]. change (foldl change ?a (list_fmap _ _ _ l)) with (foldl change a (as_write ∘ entry_write <$> l)).
  rewrite IH; [|done|intros x Hx; apply Hc; by right]. unfold change at 1. cbn [compose].
  rewrite entry_write_key, entry_write_value by (apply (Hc (k, v)); by left). cbn [fst snd].
  destruct (decide (j = k)) as [->|Hne]; [by rewrite !lookup_insert_eq, (not_elem_of_list_to_map_1 l k Hk)|by rewrite !lookup_insert_ne].
Qed.

(** The entries of a cache, written one after the other, are its changes. *)
Lemma changes_of_entries (t : T) l : cache_ok t → ascending (bt_map t) (λ _, True) l → ∀ c,
  foldl change c (as_write ∘ entry_write <$> l) = cache_view t ∪ c.
Proof.
  intros Ht [Hs Hl] c. assert (NoDup l.*1) as Hnd.
  { clear Hl. induction Hs as [|x l Hs IH Hx]; cbn; constructor; [|done]. rewrite Forall_forall in Hx.
    intros (y & Ey & Hy)%list_elem_of_fmap. apply (irreflexivity bytes_lt x.1). rewrite Ey at 2. by apply Hx. }
  assert (∀ k v, (k, v) ∈ l ↔ bt_map t !! k = Some v) as Hl' by (intros k v; rewrite Hl; tauto). clear Hl Hs.
  apply map_eq. intros k. rewrite lookup_changes; [|done|intros [j v] Hj; by apply (co_clean _ Ht j), Hl']. rewrite lookup_union. unfold cache_view.
  rewrite lookup_fmap. assert ((list_to_map l : gmap bytes (Value Ob)) !! k = bt_map t !! k) as ->; [|by destruct (bt_map t !! k), (c !! k)].
  destruct (bt_map t !! k) as [v|] eqn:Hv.
  - apply elem_of_list_to_map; [done|]. by apply Hl'.
  - apply eq_None_not_Some. intros [v Hin%elem_of_list_to_map_2%Hl']. congruence.
Qed.

Lemma cache_size (t : T) : size (cache_view t) = size (bt_map t).
Proof. apply map_size_fmap. Qed.
Lemma prepared_union ps c d : prepared ps c → prepared ps d → prepared ps (d ∪ c).
Proof. intros Hc Hd k o [Hk|[_ Hk]]%lookup_union_Some_raw; [by apply Hd|by apply Hc]. Qed.

Lemma Multi_commit_ok s base c d ps : multi_at s base c d ps → (size d < fuel)%nat →
  ∃ ts', Multi_Close fuel true s = Ret ts' ∧ trunk_at ts' base (d ∪ c) ps ∧ rs_used (ts_root ts') = rs_used (ts_root s.2).
Proof.
  intros [H1 H2 H3 H4] Hf. destruct s as [t ts]. cbn [fst snd] in *. pose proof H1 as [T1 T2 T3 T4 T5].
  destruct (ScanAllEntries_ok write_to_cache t fuel (ts_cache ts) H2) as (l & Hl & E1); [by rewrite <- cache_size, H3|].
  destruct (run_entries_cache l (ts_cache ts) T2) as (t' & E2 & C1 & C2).
  { intros [k v] Hk. apply (co_clean _ H2 k). by apply (proj2 Hl). }
  exists (lset ts_cache_lens t' ts). split; [|split; [|done]].
  - unfold Multi_Close, Multi_writeBack, Trunk_Update. cbn [fst].
    erewrite (zoom_Ret ms_trunk_lens); [reflexivity|]. cbn [lget ms_trunk_lens snd]. rewrite (not_writing_ok _ _ _ _ _ H1).
    apply zoom_Ret. exact (eq_trans E1 E2).
  - split; [done|done| |done|by apply prepared_union]. cbn [ts_cache lset ts_cache_lens].
    by rewrite C2, (changes_of_entries t l H2 Hl), H3, T3.
Qed.

(** ** Closing the trunk *)

Lemma run_entries_root l : ∀ r : R, (∀ x, x ∈ l → clean x.2) → run_entries write_to_root l r = run_root_writes (entry_write <$> l) r.
Proof.
  induction l as [|[k v] l IH]; intros r Hl; [done|]. cbn [run_entries foldr fmap list_fmap run_root_writes].
  assert (write_to_root k (GetObj v) (IsDeleted v) = root_write_step (entry_write (k, v))) as ->.
  { specialize (Hl (k, v) ltac:(by left)). destruct v as [[|[bz|]|o|]]; cbn in Hl; try done; by destruct Hl. }
  unfold mbind, stM_bind. destruct (root_write_step (entry_write (k, v)) r) as [[u r']|]; [|done]. cbn [mbind outcome_bind].
  apply IH. intros x Hx. apply Hl. by right.
Qed.

Lemma add_writing_ok ts (n want : Z) : isWriting ts + n = want →
  add_writing n want ts = Ret (tt, mkTrunkStore (ts_cache ts) (ts_root ts) want).
Proof. intros <-. unfold add_writing. cbn. by rewrite bool_decide_eq_false_2 by lia. Qed.

Lemma zoom_root {A} (m : stM R A) (t : T) r w x r' : m r = Ret (x, r') →
  zoom ts_root_lens m (mkTrunkStore t r w) = Ret (x, mkTrunkStore t r' w).
Proof. apply (zoom_Ret ts_root_lens m (mkTrunkStore t r w)). Qed.

Lemma Trunk_commit_ok ts base c ps : trunk_at ts base c ps → (size c < fuel)%nat →
  rs_served (R := R) (rs_used (ts_root ts)) (zlen ps) (overlay base c) →
  ∃ r', Trunk_Close fuel true ts = Ret r' ∧ rs_reading r' (overlay base c) [] ∧
    rs_used r' ≤ rs_used (ts_root ts) + rs_cost (R := R) (zlen ps) (overlay base c).
Proof.
  intros [T1 T2 T3 T4 T5] Hf Hserved. destruct ts as [t r w]. cbn in *. subst w.
  destruct (ScanAllEntries_ok write_to_root t fuel r T2) as (l & Hl & _); [by rewrite <- cache_size, T3|].
  assert (∀ x, x ∈ l → clean x.2) as Hclean by (intros [k v] Hk; apply (co_clean _ T2 k); by apply (proj2 Hl)).
  assert (spec_after base (as_write <$> (entry_write <$> l)) = overlay base c) as Hspec.
  { pose proof (overlay_changes base (as_write <$> (entry_write <$> l)) ∅) as E1. rewrite overlay_empty in E1. rewrite <- E1.
    pose proof (changes_of_entries t l T2 Hl ∅) as E2. rewrite list_fmap_compose in E2. by rewrite E2, map_union_empty, T3. }
  destruct (rs_write_ok r base ps (entry_write <$> l) T1) as (r' & E1 & H1 & H2); [by rewrite Hspec| | |].
  - rewrite <- list_fmap_compose. rewrite (list_fmap_ext _ fst l) by (intros; apply entry_write_key). destruct Hl as [Hs _].
    clear -Hs. induction Hs as [|x l Hs IH Hx]; cbn; constructor; [|done]. rewrite Forall_forall in Hx.
    intros (y & Ey & Hy)%list_elem_of_fmap. apply (irreflexivity bytes_lt x.1). rewrite Ey at 2. by apply Hx.
  - intros w ([k v] & -> & Hk)%list_elem_of_fmap. pose proof (proj1 (proj2 Hl k v) Hk) as [Hv _].
    specialize (T5 k (val_view v)). rewrite <- T3 in T5. unfold cache_view in T5. rewrite lookup_fmap, Hv in T5. specialize (T5 eq_refl).
    pose proof (entry_write_value (k, v) (Hclean _ Hk)) as Ev. pose proof (entry_write_key (k, v)) as Ek. cbn [fst snd] in *. rewrite <- Ev in T5.
    destruct (as_write (entry_write (k, v))); cbn in *; by subst.
  - exists r'. rewrite Hspec in H1, H2. split; [|done]. unfold write_batch in E1.
    apply stM_bind_inv in E1 as ([] & r1 & B1 & E1). apply stM_bind_inv in E1 as ([] & r2 & B2 & B3).
    unfold Trunk_Close, Trunk_writeBack. unfold mbind at 2, stM_bind at 1. rewrite add_writing_ok with (want := 1) by done. cbn [mbind outcome_bind].
    cbn [ts_cache ts_root]. unfold mbind, stM_bind. rewrite (zoom_root _ _ _ _ _ _ B1). cbn [mbind outcome_bind].
    destruct (ScanAllEntries_ok write_to_root t fuel r1 T2) as (l' & Hl' & E2); [by rewrite <- cache_size, T3|].
    rewrite (ascending_unique _ _ _ _ Hl' Hl), run_entries_root, B2 in E2 by done. cbn [ts_cache].
    rewrite (zoom_root _ _ _ _ _ _ E2). cbn [mbind outcome_bind]. rewrite (zoom_root _ _ _ _ _ _ B3). cbn [mbind outcome_bind].
    by rewrite add_writing_ok with (want := 0).
Qed.

(** ** A block: transactions that are committed or dropped *)

Notation tx := (list (root_write Ob) * bool)%type.
Implicit Types (txs : list tx).

Fixpoint run_txs txs ts : outcome TrunkStore :=
  match txs with
  | [] => mret ts
  | (ws, commit) :: txs =>
      '(_, s) ← run_tx ws (Cached, ts);
      ts ← Multi_Close fuel commit s;
      run_txs txs ts
  end.
Definition run_trunk_block txs (r : R) : outcome R := ts ← run_txs txs (GetTrunkStore r); Trunk_Close fuel true ts.

Definition tx_writes (x : tx) : list write := as_write <$> x.1.
Definition spec_tx (m : gmap bytes bytes) (x : tx) : gmap bytes bytes := if x.2 then spec_after m (tx_writes x) else m.
Definition spec_txs (m : gmap bytes bytes) txs : gmap bytes bytes := foldl spec_tx m txs.
Definition all_writes txs : list write := mjoin (tx_writes <$> txs).
Lemma all_writes_cons x txs : all_writes (x :: txs) = tx_writes x ++ all_writes txs.
Proof. done. Qed.
Definition writes_allowed txs : Prop := ∀ w, w ∈ all_writes txs → write_allowed w.

Lemma trunk_at_prepared ts base c ps ps' : trunk_at ts base c ps → ps = ps' → trunk_at ts base c ps'.
Proof. by intros H <-. Qed.

Lemma Multi_Close_ok commit s base c d ps : multi_at s base c d ps → (size d < fuel)%nat →
  ∃ ts', Multi_Close fuel commit s = Ret ts' ∧ trunk_at ts' base (if commit then d ∪ c else c) ps ∧ rs_used (ts_root ts') = rs_used (ts_root s.2).
Proof. intros H Hf. destruct commit; [by apply Multi_commit_ok|]. exists s.2. by destruct H. Qed.

Lemma run_txs_ok txs : ∀ ts base c ps, trunk_at ts base c ps → writes_allowed txs → (length (all_writes txs) < fuel)%nat →
  ∃ ts' c', run_txs txs ts = Ret ts' ∧ trunk_at ts' base c' (ps ++ (write_prep <$> all_writes txs)) ∧
    overlay base c' = spec_txs (overlay base c) txs ∧ rs_used (ts_root ts') = rs_used (ts_root ts) ∧
    (size c' ≤ size c + length (all_writes txs))%nat.
Proof.
  induction txs as [|[ws commit] txs IH]; intros ts base c ps H Hw Hf.
  { exists ts, c. cbn. rewrite app_nil_r. split_and!; [done..|lia]. }
  unfold writes_allowed in *. rewrite all_writes_cons in *. unfold tx_writes in *. cbn [fst] in *. rewrite length_app, length_fmap in Hf.
  destruct NewCacheStore_ok as [C1 C2].
  destruct (run_tx_ok ws (Cached, ts) base c ∅ ps) as (s1 & E1 & H1 & L1); [by split; [..|intros k o; rewrite lookup_empty]| |].
  { intros w Hin. apply Hw, elem_of_app. left. by apply list_elem_of_fmap_2. }
  pose proof (size_changes (as_write <$> ws) ∅) as Hsz. rewrite map_size_empty, length_fmap in Hsz.
  destruct (Multi_Close_ok commit _ _ _ _ _ H1) as (ts1 & E2 & H2 & L2); [lia|].
  destruct (IH ts1 base _ _ H2) as (ts2 & c2 & E3 & H3 & Ho & L3 & Hc); [intros w Hin; apply Hw, elem_of_app; by right|lia|].
  exists ts2, c2. split_and!.
  - cbn [run_txs]. rewrite E1. cbn [mbind outcome_bind]. by rewrite E2.
  - eapply trunk_at_prepared; [exact H3|]. by rewrite fmap_app, list_fmap_compose, app_assoc.
  - rewrite Ho. unfold spec_txs. cbn [foldl]. f_equal. unfold spec_tx, tx_writes. cbn [fst snd]. destruct commit; [|done].
    by rewrite <- overlay_overlay, overlay_changes, overlay_empty.
  - cbn [snd] in L1. congruence.
  - rewrite length_app, length_fmap. assert (size (foldl change ∅ (as_write <$> ws) ∪ c) ≤ size c + length ws)%nat.
    { rewrite <- !size_dom, dom_union, size_union_alt. rewrite <- size_dom in Hsz.
      assert (size (dom c ∖ dom (foldl change ∅ (as_write <$> ws))) ≤ size (dom c))%nat by (apply subseteq_size; set_solver). lia. }
    destruct commit; lia.
Qed.

Lemma GetTrunkStore_ok r m : rs_reading r m [] → trunk_at (GetTrunkStore r) m ∅ [].
Proof. intros H. destruct NewCacheStore_ok as [C1 C2]. split; [done..|]. intros k o. by rewrite lookup_empty. Qed.

Lemma trunk_block_run r m txs : rs_reading r m [] → writes_allowed txs → rs_served (R := R) (rs_used r) (zlen (all_writes txs)) (spec_txs m txs) →
  (length (all_writes txs) < fuel)%nat →
  ∃ r', run_trunk_block txs r = Ret r' ∧ rs_reading r' (spec_txs m txs) [] ∧
    rs_used r' ≤ rs_used r + rs_cost (R := R) (zlen (all_writes txs)) (spec_txs m txs).
Proof.
  intros Hr Hw Hserved Hf.
  destruct (run_txs_ok txs (GetTrunkStore r) m ∅ [] (GetTrunkStore_ok r m Hr) Hw Hf) as (ts & c & E1 & H1 & Ho & L1 & Hc).
  rewrite overlay_empty in Ho. rewrite map_size_empty in Hc.
  assert (zlen ([] ++ (write_prep <$> all_writes txs)) = zlen (all_writes txs)) as Hlen by (unfold zlen; cbn; by rewrite length_fmap).
  destruct (Trunk_commit_ok ts m c _ H1) as (r' & E2 & H2 & L2); [lia|rewrite Hlen, L1, Ho; done|].
  exists r'. rewrite Ho in H2, L2. rewrite Hlen, L1 in L2. split; [|done]. unfold run_trunk_block. rewrite E1. exact E2.
Qed.

(** C7: a block. From a root store that holds [m], any sequence of
    transactions, each of which is committed or dropped after any writes of
    bytes, of objects and deletions, and the closing of the trunk, succeed;
    the root then holds [m] with the writes of the committed transactions
    applied in order, with the bytes of the objects, and nothing else; and the
    dropped ones only cost prepared keys. *)
Theorem trunk_block_refines r m txs : rs_reading r m [] → writes_allowed txs → rs_served (R := R) (rs_used r) (zlen (all_writes txs)) (spec_txs m txs) →
  (length (all_writes txs) < fuel)%nat →
  ∃ r', run_trunk_block txs r = Ret r' ∧ rs_reading r' (spec_txs m txs) [] ∧
    rs_used r' ≤ rs_used r + rs_cost (R := R) (zlen (all_writes txs)) (spec_txs m txs).
Proof. apply trunk_block_run. Qed.

(** What is read of a transaction in progress: the contents a client sees. *)
Definition reads_as (s : MultiState) (m : gmap bytes bytes) : Prop :=
  (∀ key, ∃ s', Multi_Get key s = Ret (m !! key, s') ∧ same s s') ∧
  (∀ key, ∃ s', Multi_Has key s = Ret (bool_decide (is_Some (m !! key)), s') ∧ same s s') ∧
  (∀ key ptr p (s' : MultiState), Multi_GetReadOnlyObj key ptr s = Ret (p, s') → same s s' ∧ object_of ptr (m !! key) p) ∧
  (∀ (asc : bool) start end_, ∃ it s1 l s2 it2, multi_iterator asc start end_ s = Ret (it, s1) ∧
     oi_collect (ObjIterator0 := multi_iter fuel) fuel (s1, it) = Ret (map_items Some l, (s2, it2)) ∧ same s s2 ∧ ordered asc m (in_bounds start end_) l).

Lemma multi_reads s base c d ps : multi_at s base c d ps → (size base + size c + size d < fuel)%nat → reads_as s (overlay (overlay base c) d).
Proof.
  intros H Hf. pose proof (size_overlay (overlay base c) d). pose proof (size_overlay base c). split_and!.
  - intros key. by eapply Multi_Get_ok.
  - intros key. by eapply Multi_Has_ok.
  - intros key ptr p s'. by eapply Multi_GetReadOnlyObj_ok.
  - intros asc start end_. destruct (ordered_items asc (overlay (overlay base c) d) start end_) as (l & Hl & Ll).
    destruct (multi_iterator_ok asc s base c d _ start end_ l H Hl) as (it & s1 & E3 & Hs & Hy); [lia|].
    destruct (collect_returns (HI := multi_iter fuel) s1 (map_items Some l) fuel) with (s := (s1, it)) as (l' & [s2 it2] & E4 & -> & Hs2 & _).
    { unfold map_items. rewrite length_fmap. lia. }
    { split; [reflexivity|done]. }
    exists it, s1, l, s2, it2. split_and!; [done|done|by etrans|done].
Qed.

(** C13: reading one's own writes. In a transaction in progress, after any
    transactions of the block were committed or dropped, [Get] and [Has] give
    the contents the writes mean, an object that is read has the bytes of its
    key, and both iterators terminate and give exactly the items of their
    range in order: neither a deleted nor an overwritten item of a lower layer
    shows through. *)
Theorem transactions_read_their_writes r m txs ws : rs_reading r m [] → writes_allowed txs → (∀ w, w ∈ ws → write_allowed (as_write w)) →
  (size m + length (all_writes txs) + length ws < fuel)%nat →
  ∃ ts s, run_txs txs (GetTrunkStore r) = Ret ts ∧ run_tx ws (Cached, ts) = Ret (tt, s) ∧
    reads_as s (spec_after (spec_txs m txs) (as_write <$> ws)).
Proof.
  intros Hr Hw Hws Hf.
  destruct (run_txs_ok txs (GetTrunkStore r) m ∅ [] (GetTrunkStore_ok r m Hr) Hw) as (ts & c & E1 & H1 & Ho & _ & Hc); [lia|].
  rewrite overlay_empty in Ho. rewrite map_size_empty in Hc. destruct NewCacheStore_ok as [C1 C2].
  destruct (run_tx_ok ws (Cached, ts) m c ∅ ([] ++ (write_prep <$> all_writes txs))) as (s & E2 & H2 & _); [split; [exact H1|done|done|intros k o; by rewrite lookup_empty]|done|].
  exists ts, s. split; [done|]. split; [done|].
  pose proof (overlay_changes (overlay m c) (as_write <$> ws) ∅) as Hm. rewrite overlay_empty, Ho in Hm. rewrite <- Hm.
  pose proof (size_changes (as_write <$> ws) ∅) as Hsz. rewrite map_size_empty, length_fmap in Hsz. rewrite <- Ho.
  eapply multi_reads; [exact H2|lia].
Qed.
End trunk_run.
