(* ===== verification/PrefixStore.v ===== *)
(** * Stores of the keys with a prefix (store/prefix.go; SubStore of store/multi.go)

    A [PrefixedStore] puts its prefix in front of every key; its iterators
    take it off again. The parent, a [MultiStore], is passed as the state. *)
From S2P Require Import Prelude ByteOrder BTreeSpec StoreTypes Client.
From S2P Require Import CacheStore MergeIter RootSpec TrunkStore TrunkRun.

Definition cloneAppend (bz tail : bytes) : bytes := bz ++ tail.

(** [bytes.HasPrefix] *)
Definition HasPrefix (s prefix : bytes) : bool := bool_decide (prefix `prefix_of` s).

Definition stripPrefix (key prefix : bytes) : outcome bytes :=
  if (zlen key <? zlen prefix) || negb (bool_decide (take (length prefix) key = prefix)) then Panic "should not happen"
  else Ret (drop (length prefix) key).

Section prefix.
Context {Ob T E R RI : Type} `{SO : !Serializable Ob, BO : !BTreeOps (Value Ob) T E, HR : !RootStoreOps Ob R RI} (fuel : nat).
Notation MultiState := (T * TrunkStore T R)%type.
Notation MultiIter := (cacheMergeIterator (cacheMergeIterator RI (CacheObjIter Ob E)) (CacheObjIter Ob E)).
Implicit Types (key : option bytes) (ptr obj : option Ob).

(** The fields of the store but its parent. *)
Record PrefixedStore := NewPrefixedStore { prefix : bytes }.
Implicit Types ps : PrefixedStore.
Notation stMS A := (stM MultiState A).

(** A key that is nil panics. *)
Definition prefixed_key ps key : outcome bytes :=
  match key with None => Panic "nil key on Store" | Some key => Ret (cloneAppend (prefix ps) key) end.

Definition Prefixed_Get ps key : stMS (option bytes) := k ← st_lift (prefixed_key ps key); Multi_Get k.
Definition Prefixed_GetObj ps key ptr : stMS (option Ob) := k ← st_lift (prefixed_key ps key); Multi_GetObj k ptr.
Definition Prefixed_GetReadOnlyObj ps key ptr : stMS (option Ob) := k ← st_lift (prefixed_key ps key); Multi_GetReadOnlyObj k ptr.
Definition Prefixed_Has ps key : stMS bool := k ← st_lift (prefixed_key ps key); Multi_Has k.
Definition Prefixed_Set ps key (value : option bytes) : stMS unit :=
  match value with
  | None => st_panic "value can not be nil"
  | Some _ => k ← st_lift (prefixed_key ps key); Multi_Set k value
  end.
Definition Prefixed_SetObj ps key obj : stMS unit :=
  match obj with
  | None => st_panic "value can not be nil"
  | Some _ => k ← st_lift (prefixed_key ps key); Multi_SetObj k obj
  end.
Definition Prefixed_Delete ps key : stMS unit := k ← st_lift (prefixed_key ps key); Multi_Delete k.

(** ** The iterator *)

Record prefixIterator := mkPrefixIterator { pi_prefix : bytes; pi_start : bytes; pi_end : bytes; pi_iter : MultiIter; pi_valid : bool }.
Notation stPI A := (stM (MultiState * prefixIterator) A).

Definition inner_lens : lens (MultiState * prefixIterator) (MultiState * MultiIter) :=
  Lens (λ '(s, it), (s, pi_iter it))
       (λ '(s, i) '(_, it), (s, mkPrefixIterator (pi_prefix it) (pi_start it) (pi_end it) i (pi_valid it))).
Definition on_inner {A} (m : stM (MultiState * MultiIter) A) : stPI A := zoom inner_lens m.
Notation inner := (multi_iter fuel).

Definition newPrefixIterator (prefix start end_ : bytes) (parent : MultiIter) : stM MultiState prefixIterator := λ s,
  '(valid, (s, parent)) ← oi_Valid (ObjIterator := inner) (s, parent);
  if (valid : bool) then
    '(key, (s, parent)) ← oi_Key (ObjIterator := inner) (s, parent);
    Ret (mkPrefixIterator prefix start end_ parent (HasPrefix key prefix), s)
  else Ret (mkPrefixIterator prefix start end_ parent false, s).

Definition pi_get {A} (f : prefixIterator → A) : stPI A := λ '(s, it), Ret (f it, (s, it)).
Definition pi_set_valid (b : bool) : stPI unit := λ '(s, it),
  Ret (tt, (s, mkPrefixIterator (pi_prefix it) (pi_start it) (pi_end it) (pi_iter it) b)).
Definition pi_check (why : string) : stPI unit := v ← pi_get pi_valid; if (v : bool) then mret tt else st_panic why.

Definition Prefix_Valid : stPI bool := v ← pi_get pi_valid; if (v : bool) then on_inner (oi_Valid (ObjIterator := inner)) else mret false.
Definition Prefix_Next : stPI unit :=
  _ ← pi_check "prefixIterator invalid, cannot call Next()";
  _ ← on_inner (oi_Next (ObjIterator := inner));
  valid ← on_inner (oi_Valid (ObjIterator := inner));
  if negb valid then pi_set_valid false else
  key ← on_inner (oi_Key (ObjIterator := inner));
  prefix ← pi_get pi_prefix;
  if HasPrefix key prefix then mret tt else pi_set_valid false.
Definition Prefix_Key : stPI bytes :=
  _ ← pi_check "prefixIterator invalid, cannot call Key()";
  key ← on_inner (oi_Key (ObjIterator := inner));
  prefix ← pi_get pi_prefix;
  st_lift (stripPrefix key prefix).
Definition Prefix_Value : stPI (option bytes) :=
  _ ← pi_check "prefixIterator invalid, cannot call Value()";
  on_inner (oi_Value (ObjIterator := inner)).
Definition Prefix_ObjValue ptr : stPI (option Ob) :=
  _ ← pi_check "prefixIterator invalid, cannot call Value()";
  on_inner (oi_ObjValue (ObjIterator := inner) ptr).

#[export] Instance prefix_iter : ObjIterator Ob MultiState prefixIterator := {|
  oi_Domain it := (pi_start it, pi_end it);
  oi_Valid := Prefix_Valid;
  oi_Next := Prefix_Next;
  oi_Key := Prefix_Key;
  oi_Value := Prefix_Value;
  oi_ObjValue := Prefix_ObjValue
|}.

Definition Prefixed_iterator (mk : bytes → bytes → stMS MultiIter) ps (start end_ : option bytes) : stMS prefixIterator :=
  match start, end_ with
  | Some start, Some end_ =>
      iter ← mk (cloneAppend (prefix ps) start) (cloneAppend (prefix ps) end_);
      newPrefixIterator (prefix ps) start end_ iter
  | _, _ => st_panic "OnvaKV does not support nil slices for iterator"
  end.
Definition Prefixed_Iterator : PrefixedStore → option bytes → option bytes → stMS prefixIterator := Prefixed_iterator Multi_Iterator.
Definition Prefixed_ReverseIterator : PrefixedStore → option bytes → option bytes → stMS prefixIterator := Prefixed_iterator Multi_ReverseIterator.

(** ** SubStore of MultiStore *)

(** A store key is a pointer: its address and the key. The registered keys
    are a set of addresses; [None] is the multi store itself. *)
Definition SubStore (storeKeys : gset N) (storeKey : option (N * StrStoreKey)) : outcome (option PrefixedStore) :=
  match storeKey with
  | None => mret None
  | Some (a, k) => if bool_decide (a ∈ storeKeys) then mret (Some (NewPrefixedStore (StoreKey_Prefix k))) else Panic "Invalid StoreKey"
  end.
End prefix.

(** ** The keys between two keys with a prefix have the prefix *)

Lemma take_drop_prefix (p k : bytes) : p `prefix_of` k → k = p ++ drop (length p) k.
Proof. intros [t ->]. by rewrite drop_app_length. Qed.

Lemma between_prefix (p a b k : bytes) : p ++ a ≤b k → k <b p ++ b → p `prefix_of` k.
Proof.
  revert k. induction p as [|x p IH]; intros k H1 H2; [by apply prefix_nil|].
  destruct k as [|y k]; [by destruct H1|]. unfold bytes_le, bytes_lt in *. cbn in H1, H2.
  destruct (Z.compare_spec x y) as [->|Hxy|Hxy].
  - rewrite Z.compare_refl in H2. apply prefix_cons. by apply IH.
  - destruct (Z.compare_spec y x); [lia| |]; [lia|done].
  - done.
Qed.

Lemma prefixed_bounds (p a b k : bytes) : in_bounds (p ++ a) (p ++ b) (p ++ k) ↔ in_bounds a b k.
Proof. unfold in_bounds, bytes_le, bytes_lt. by rewrite !bytes_compare_prefix. Qed.

Lemma stripPrefix_app p k : stripPrefix (p ++ k) p = Ret k.
Proof.
  unfold stripPrefix. rewrite zlen_app. pose proof (zlen_nonneg k). destruct (Z.ltb_spec (zlen p + zlen k) (zlen p)); [lia|].
  rewrite take_app_length, bool_decide_eq_true_2 by done. cbn. by rewrite drop_app_length.
Qed.

(** The part of a map under a prefix. *)
Definition sub_map (p : bytes) (m : gmap bytes bytes) : gmap bytes bytes :=
  map_fold (λ k v acc, if HasPrefix k p then <[drop (length p) k := v]> acc else acc) ∅ m.

Lemma lookup_sub_map p m k : sub_map p m !! k = m !! (p ++ k).
Proof.
  revert k. unfold sub_map. apply (map_fold_weak_ind (λ acc m, ∀ k, acc !! k = m !! (p ++ k))); [done|].
  intros i v m' acc Hi IH k. unfold HasPrefix. case_bool_decide as Hp.
  - apply take_drop_prefix in Hp. destruct (decide (k = drop (length p) i)) as [->|Hne].
    + by rewrite <- Hp, !lookup_insert_eq.
    + rewrite !lookup_insert_ne; [done|rewrite Hp; by intros ?%app_inv_head|done].
  - rewrite lookup_insert_ne; [done|]. intros ->. apply Hp. by eexists.
Qed.

Definition prefix_items {V} (p : bytes) (l : list (bytes * V)) : list (bytes * V) := prod_map (app p) id <$> l.

Lemma sub_map_items asc p m a b l : ordered asc (sub_map p m) (in_bounds a b) l →
  ordered asc m (in_bounds (p ++ a) (p ++ b)) (prefix_items p l).
Proof.
  rewrite !ordered_before. intros [Hs Hl]. split.
  - clear Hl. induction Hs as [|x l Hs IH Hx]; cbn; constructor; [done|]. apply Forall_fmap. eapply Forall_impl; [exact Hx|].
    intros y. unfold before. destruct x, y; cbn. destruct asc; cbn; by rewrite bytes_compare_prefix.
  - intros k v. unfold prefix_items. rewrite list_elem_of_fmap. split.
    + intros ([k' v'] & [= -> ->] & [H1 H2]%Hl). rewrite lookup_sub_map in H1. by rewrite prefixed_bounds.
    + intros [H1 H2]. pose proof (take_drop_prefix p k (between_prefix p a b k (proj1 H2) (proj2 H2))) as Hk.
      exists (drop (length p) k, v). split; [cbn; by rewrite <- Hk|]. apply Hl. rewrite lookup_sub_map, <- Hk. split; [done|].
      rewrite <- (prefixed_bounds p), <- Hk. done.
Qed.

Lemma sub_map_write p m w : sub_map p (spec_write m (match w with SetKey k v => SetKey (p ++ k) v | DeleteKey k => DeleteKey (p ++ k) end)) =
  spec_write (sub_map p m) w.
Proof.
  apply map_eq. intros j. rewrite lookup_sub_map.
  assert (∀ k, p ++ k = p ++ j → j = k) as Hinj by (intros k; by intros ?%app_inv_head).
  destruct w as [k v|k]; cbn [spec_write]; destruct (decide (j = k)) as [->|Hne].
  - by rewrite !lookup_insert_eq.
  - rewrite !lookup_insert_ne by (try done; intros H%Hinj; congruence). by rewrite lookup_sub_map.
  - by rewrite !lookup_delete_eq.
  - rewrite !lookup_delete_ne by (try done; intros H%Hinj; congruence). by rewrite lookup_sub_map.
Qed.

(** ** A prefixed store is the part of its parent under the prefix *)

Section prefix_laws.
Context {Ob T E R RI : Type} `{SO : !Serializable Ob, !SerializableLaws Ob, BO : !BTreeOps (Value Ob) T E, !BTreeLaws (Value Ob) T E}.
Context `{HR : !RootStoreOps Ob R RI, LR : !RootStoreLaws Ob R RI} (fuel : nat).
Notation MultiState := (T * TrunkStore T R)%type.
Notation prefixIterator := (prefixIterator (Ob := Ob) (E := E) (RI := RI)).
Notation inner := (multi_iter fuel).
Notation yields_inner := (@yields Ob MultiState _ _ inner (multi_iter_laws fuel)).
Implicit Types (l : list (bytes * option bytes)).

(** What the parent's iterator goes through, with the prefix off. *)
Definition pi_yields (s : MultiState) (it : prefixIterator) l : Prop :=
  yields_inner s (pi_iter it) (prefix_items (pi_prefix it) l) ∧ (pi_valid it = true ∨ l = []).

Lemma HasPrefix_app p k : HasPrefix (p ++ k) p = true.
Proof. apply bool_decide_eq_true. by eexists. Qed.

Definition pi_with (it : prefixIterator) i : prefixIterator := mkPrefixIterator (pi_prefix it) (pi_start it) (pi_end it) i (pi_valid it).
Lemma on_inner_Ret {A} (m : stM (MultiState * _) A) s it x s' i : m (s, pi_iter it) = Ret (x, (s', i)) → on_inner m (s, it) = Ret (x, (s', pi_with it i)).
Proof. apply (zoom_Ret inner_lens m (s, it)). Qed.

Definition prefix_iter_laws : @IterLaws Ob MultiState prefixIterator _ (prefix_iter fuel).
Proof.
  unshelve refine {| yields := pi_yields |}.
  - intros s s' it l Hs [H1 H2]. split; [|done]. exact (yields_same _ _ _ _ Hs H1).
  - intros s it l [H1 H2]. cbn [oi_Valid prefix_iter]. unfold Prefix_Valid, pi_get, mbind, stM_bind, MultiStore. cbn [mbind outcome_bind].
    destruct (pi_valid it) eqn:Hv.
    + destruct (Valid_ok _ _ _ H1) as (s' & i & E1 & Hs & Hy). exists s', (pi_with it i). split; [|split; [done|split; [done|by left]]].
      rewrite (on_inner_Ret _ _ _ _ _ _ E1). do 2 f_equal. apply bool_decide_ext. unfold prefix_items. by destruct l.
    + destruct H2 as [?| ->]; [congruence|]. exists s, it. split; [done|]. split; [reflexivity|]. split; [done|by right].
  - intros s it [k v] l [H1 [Hv|?]]; [|done]. cbn [oi_Next prefix_iter]. unfold Prefix_Next, pi_check, pi_get, mbind, stM_bind, MultiStore. cbn [mbind outcome_bind]. rewrite Hv.
    cbn [mret stM_ret mbind outcome_bind]. destruct (Next_ok _ _ _ _ H1) as (s1 & i1 & E1 & Hs1 & Y1).
    rewrite (on_inner_Ret _ _ _ _ _ _ E1). cbn [mbind outcome_bind].
    destruct (Valid_ok _ _ _ Y1) as (s2 & i2 & E2 & Hs2 & Y2). erewrite (on_inner_Ret _ s1); [|exact E2]. cbn [mbind outcome_bind].
    destruct l as [|[k2 v2] l].
    + rewrite bool_decide_eq_false_2 by naive_solver. cbn [negb]. eexists s2, _. split; [reflexivity|]. split; [by etrans|]. split; [done|by right].
    + rewrite bool_decide_eq_true_2 by done. cbn [negb]. destruct (Key_ok _ _ _ _ Y2) as (s3 & i3 & E3 & Hs3 & Y3).
      erewrite (on_inner_Ret _ s2); [|exact E3]. cbn [mbind outcome_bind pi_prefix pi_with]. cbn [prod_map fst]. rewrite HasPrefix_app.
      eexists s3, _. split; [reflexivity|]. split; [by do 2 (etrans; [done|])|]. split; [done|by left].
  - intros s it [k v] l [H1 [Hv|?]]; [|done]. cbn [oi_Key prefix_iter]. unfold Prefix_Key, pi_check, pi_get, mbind, stM_bind, MultiStore. cbn [mbind outcome_bind]. rewrite Hv.
    cbn [mret stM_ret mbind outcome_bind]. destruct (Key_ok _ _ _ _ H1) as (s1 & i1 & E1 & Hs1 & Y1).
    rewrite (on_inner_Ret _ _ _ _ _ _ E1). cbn [mbind outcome_bind pi_prefix pi_with]. unfold st_lift. cbn [prod_map fst]. rewrite stripPrefix_app.
    eexists s1, _. split; [reflexivity|]. split; [done|]. split; [done|by left].
  - intros s it [k v] l [H1 [Hv|?]]; [|done]. cbn [oi_Value prefix_iter]. unfold Prefix_Value, pi_check, pi_get, mbind, stM_bind, MultiStore. cbn [mbind outcome_bind]. rewrite Hv.
    cbn [mret stM_ret mbind outcome_bind]. destruct (Value_ok _ _ _ _ H1) as (s1 & i1 & E1 & Hs1 & Y1).
    rewrite (on_inner_Ret _ _ _ _ _ _ E1). eexists s1, _. split; [reflexivity|]. split; [done|]. split; [done|by left].
Defined.

Definition prefixed_iterator (asc : bool) := if asc then Prefixed_Iterator fuel else Prefixed_ReverseIterator fuel.

Lemma newPrefixIterator_ok (s : MultiState) p a b i (l : list item) :
  yields_inner s i (prefix_items p l) → ∃ it s', newPrefixIterator fuel p a b i s = Ret (it, s') ∧ same s s' ∧ pi_yields s' it l.
Proof.
  intros Hy. unfold newPrefixIterator, MultiStore. destruct (Valid_ok _ _ _ Hy) as (s1 & i1 & E1 & Hs1 & Y1). rewrite E1. cbn [mbind outcome_bind].
  destruct l as [|[k v] l].
  - rewrite bool_decide_eq_false_2 by naive_solver. eexists _, s1. split; [reflexivity|]. split; [done|]. split; [done|by right].
  - rewrite bool_decide_eq_true_2 by done. destruct (Key_ok _ _ _ _ Y1) as (s2 & i2 & E2 & Hs2 & Y2). rewrite E2. cbn [mbind outcome_bind prod_map fst].
    rewrite HasPrefix_app. eexists _, s2. split; [reflexivity|]. split; [by etrans|]. split; [done|by left].
Qed.

Lemma prefixed_iterator_ok asc (s : MultiState) base c d ps p a b (l : list (bytes * bytes)) : multi_at s base c d ps →
  (size base + size c + size d < fuel)%nat → ordered asc (sub_map p (overlay (overlay base c) d)) (in_bounds a b) l →
  ∃ it s', prefixed_iterator asc (NewPrefixedStore p) (Some a) (Some b) s = Ret (it, s') ∧ same s s' ∧ pi_yields s' it (map_items Some l).
Proof.
  intros H Hf Hl. apply sub_map_items in Hl.
  destruct (multi_iterator_ok fuel asc s base c d ps _ _ _ H Hl Hf) as (i & s1 & E1 & Hs1 & Y1).
  assert (map_items Some (prefix_items p l) = prefix_items p (map_items Some l)) as Eq.
  { unfold map_items, prefix_items. rewrite <- !list_fmap_compose. apply list_fmap_ext. by intros ? [k v] _. }
  rewrite Eq in Y1. destruct (newPrefixIterator_ok s1 p a b i _ Y1) as (it & s2 & E2 & Hs2 & Y2).
  exists it, s2. split; [|split; [by etrans|done]].
  destruct asc; cbn [prefixed_iterator multi_iterator] in *; unfold Prefixed_Iterator, Prefixed_ReverseIterator, Prefixed_iterator, mbind, stM_bind, cloneAppend;
    cbn [prefix]; rewrite E1; exact E2.
Qed.

(** The writes of a client of the prefixed store, and what they are to the parent. *)
Definition prefixed_step (st : PrefixedStore) (w : root_write Ob) : stM MultiState unit :=
  match w with
  | RootSet k v => Prefixed_Set st (Some k) (Some v)
  | RootSetObj k o => Prefixed_SetObj st (Some k) (Some o)
  | RootDelete k => Prefixed_Delete st (Some k)
  end.
Definition prefixed_write (p : bytes) (w : root_write Ob) : root_write Ob :=
  match w with RootSet k v => RootSet (p ++ k) v | RootSetObj k o => RootSetObj (p ++ k) o | RootDelete k => RootDelete (p ++ k) end.
Lemma prefixed_step_eq p w (s : MultiState) : prefixed_step (NewPrefixedStore p) w s = multi_step (prefixed_write p w) s.
Proof. by destruct w. Qed.

(** C19: a prefixed store is the part of its parent under the prefix. In any
    state of a transaction, with contents [m], reading the store reads
    [sub_map p m]; its iterators terminate and give exactly the items of that
    part between the bounds, without the prefix, in order; a write changes that
    part as it says, and no key without the prefix. *)
Theorem prefixed_store_is_part (s : MultiState) base c d ps p : multi_at s base c d ps → (size base + size c + size d < fuel)%nat →
  let m := overlay (overlay base c) d in let st := NewPrefixedStore p in
  (∀ k, ∃ s', Prefixed_Get st (Some k) s = Ret (sub_map p m !! k, s') ∧ same s s') ∧
  (∀ k, ∃ s', Prefixed_Has st (Some k) s = Ret (bool_decide (is_Some (sub_map p m !! k)), s') ∧ same s s') ∧
  (∀ (asc : bool) a b, ∃ it s1 (l : list (bytes * bytes)) s2 it2, prefixed_iterator asc st (Some a) (Some b) s = Ret (it, s1) ∧
     oi_collect (ObjIterator0 := prefix_iter fuel) fuel (s1, it) = Ret (map_items Some l, (s2, it2)) ∧ same s s2 ∧
     ordered asc (sub_map p m) (in_bounds a b) l) ∧
  (∀ w, write_allowed (R := R) (as_write (prefixed_write p w)) → ∃ s' d', prefixed_step st w s = Ret (tt, s') ∧
     multi_at s' base c d' (ps ++ [write_prep (as_write (prefixed_write p w))]) ∧
     sub_map p (overlay (overlay base c) d') = spec_write (sub_map p m) (as_write w) ∧
     ∀ k, ¬ p `prefix_of` k → overlay (overlay base c) d' !! k = m !! k).
Proof.
  intros H Hf m st. split_and!.
  - intros k. rewrite lookup_sub_map. apply (Multi_Get_ok s base c d ps (p ++ k) H).
  - intros k. rewrite lookup_sub_map. apply (Multi_Has_ok s base c d ps (p ++ k) H).
  - intros asc a b. destruct (ordered_items asc (sub_map p m) a b) as (l & Hl & _).
    destruct (prefixed_iterator_ok asc s base c d ps p a b l H Hf Hl) as (it & s1 & E1 & Hs1 & Y1).
    pose proof (ordered_length _ _ _ _ _ (sub_map_items _ _ _ _ _ _ Hl)) as Hlen. unfold prefix_items in Hlen. rewrite length_fmap in Hlen.
    pose proof (size_overlay (overlay base c) d). pose proof (size_overlay base c). unfold m in Hlen.
    destruct (collect_returns (HI := prefix_iter fuel) (IterLaws0 := prefix_iter_laws) s1 (map_items Some l) fuel) with (s := (s1, it)) as (l' & [s2 it2] & E2 & -> & Hs2 & _).
    { unfold map_items. rewrite length_fmap. lia. }
    { split; [reflexivity|done]. }
    exists it, s1, l, s2, it2. split_and!; [done|done|by etrans|done].
  - intros w Hw. destruct (multi_step_ok s base c d ps (prefixed_write p w) H Hw) as (s' & E1 & H1 & _).
    exists s', (change d (as_write (prefixed_write p w))). unfold st. rewrite prefixed_step_eq, overlay_change. fold m. split_and!; [done|done| |].
    + rewrite <- sub_map_write. by destruct w.
    + intros k Hk. apply spec_write_other. intros <-. apply Hk. destruct w; cbn; by eexists.
Qed.
End prefix_laws.
