(* ===== verification/MockRoot.v ===== *)
(** * The mock root store (store/mock_root.go)

    A cache as the root: it checks that written keys were prepared and that
    writes come between [BeginWrite] and [EndWrite]. It keeps the laws of a
    root store, and serves to apply the theorems on the layers above. *)
From S2P Require Import Prelude ByteOrder BTreeSpec StoreTypes Client.
From S2P Require Import CacheStore MergeIter RootSpec TrunkStore TrunkRun PrefixStore.

Section mock.
Context {Ob T E : Type} `{SO : !Serializable Ob, BO : !BTreeOps (Value Ob) T E}.

Record MockRootStore := mkMockRootStore {
  cacheStore : T; preparedForUpdate : gset bytes; preparedForDeletion : gset bytes; isWritting : bool
}.
Implicit Types (rs : MockRootStore) (key : bytes) (ptr obj : option Ob).
Notation stR A := (stM MockRootStore A).

Definition NewMockRootStore : MockRootStore := mkMockRootStore NewCacheStore ∅ ∅ false.

Definition mock_cache_lens : lens MockRootStore T :=
  Lens cacheStore (λ c rs, mkMockRootStore c (preparedForUpdate rs) (preparedForDeletion rs) (isWritting rs)).
Definition set_prepared rs u d : MockRootStore := mkMockRootStore (cacheStore rs) u d (isWritting rs).
Definition set_writting (b : bool) rs : MockRootStore := mkMockRootStore (cacheStore rs) (preparedForUpdate rs) (preparedForDeletion rs) b.

Definition guard_writting (want : bool) (why : string) : stR unit :=
  λ rs, if bool_decide (isWritting rs = want) then Ret (tt, rs) else Panic why.
Notation not_writting := (guard_writting false "isWritting").
Notation writting := (guard_writting true "notWritting").
Definition guard_prepared (f : MockRootStore → gset bytes) key : stR unit :=
  λ rs, if bool_decide (key ∈ f rs) then Ret (tt, rs) else Panic "not prepared".

Definition MockRoot_Get key : stR (option bytes) :=
  _ ← not_writting;
  '(v, status) ← peek mock_cache_lens (λ c, Cache_Get c key);
  match status with Missed => mret None | _ => mret v end.
Definition MockRoot_GetObjCopy key ptr : stR (option Ob) :=
  _ ← not_writting;
  '(status, p) ← peek mock_cache_lens (λ c, Cache_GetObjCopy c key ptr);
  match status with Hit => mret p | _ => mret None end.
Definition MockRoot_GetReadOnlyObj key ptr : stR (option Ob) :=
  _ ← not_writting;
  '(status, p) ← peek mock_cache_lens (λ c, Cache_GetReadOnlyObj c key ptr);
  match status with Hit => mret p | _ => mret None end.
Definition MockRoot_Has key : stR bool :=
  _ ← not_writting;
  '(_, status) ← peek mock_cache_lens (λ c, Cache_Get c key);
  match status with Hit => mret true | _ => mret false end.

Definition MockRoot_PrepareForUpdate key : stR unit :=
  _ ← not_writting; (λ rs, Ret (tt, set_prepared rs ({[key]} ∪ preparedForUpdate rs) (preparedForDeletion rs))) : stR unit.
Definition MockRoot_PrepareForDeletion key : stR unit :=
  _ ← not_writting; (λ rs, Ret (tt, set_prepared rs (preparedForUpdate rs) ({[key]} ∪ preparedForDeletion rs))) : stR unit.

Definition MockRoot_Iterator (start end_ : bytes) : stR (CacheObjIter Ob E) := peek mock_cache_lens (λ c, Cache_Iterator c start end_).
Definition MockRoot_ReverseIterator (start end_ : bytes) : stR (CacheObjIter Ob E) := peek mock_cache_lens (λ c, Cache_ReverseIterator c start end_).

Definition MockRoot_BeginWrite : stR unit := λ rs, Ret (tt, set_writting true rs).
Definition MockRoot_Set key (value : option bytes) : stR unit :=
  _ ← writting; _ ← guard_prepared preparedForUpdate key; zoom mock_cache_lens (poke (λ c, Cache_Set c key value)).
Definition MockRoot_SetObj key obj : stR unit :=
  _ ← writting; _ ← guard_prepared preparedForUpdate key; zoom mock_cache_lens (poke (λ c, Cache_SetObj c key obj)).
Definition MockRoot_Delete key : stR unit :=
  _ ← writting; _ ← guard_prepared preparedForDeletion key; zoom mock_cache_lens (poke (λ c, Cache_RealDelete c key)).
Definition MockRoot_EndWrite : stR unit := λ rs, Ret (tt, set_prepared (set_writting false rs) ∅ ∅).
Definition MockRoot_ActiveCount rs : Z := Cache_Size (cacheStore rs).

#[export] Instance mock_root_ops : RootStoreOps Ob MockRootStore (CacheObjIter Ob E) := {|
  rs_Get := MockRoot_Get;
  rs_GetObjCopy := MockRoot_GetObjCopy;
  rs_GetReadOnlyObj := MockRoot_GetReadOnlyObj;
  rs_Has := MockRoot_Has;
  rs_PrepareForUpdate := MockRoot_PrepareForUpdate;
  rs_PrepareForDeletion := MockRoot_PrepareForDeletion;
  rs_Iterator := MockRoot_Iterator;
  rs_ReverseIterator := MockRoot_ReverseIterator;
  rs_iter := zoom_iter mock_cache_lens cache_iterator;
  rs_BeginWrite := MockRoot_BeginWrite;
  rs_Set := MockRoot_Set;
  rs_SetObj := MockRoot_SetObj;
  rs_Delete := MockRoot_Delete;
  rs_EndWrite := MockRoot_EndWrite;
  rs_ActiveCount := MockRoot_ActiveCount
|}.
End mock.
Arguments MockRootStore T : clear implicits.

(** ** It is a root store *)

Section mock_laws.
Context {Ob T E : Type} `{SO : !Serializable Ob, !SerializableLaws Ob, BO : !BTreeOps (Value Ob) T E, !BTreeLaws (Value Ob) T E}.
Notation R := (MockRootStore T).
Implicit Types (rs : R) (m : gmap bytes bytes).

Definition prepared_keys rs (p : prep) : Prop :=
  match p with PrepUpdate k => k ∈ preparedForUpdate rs | PrepDeletion k => k ∈ preparedForDeletion rs end.
Record mock_at (w : bool) rs m (ps : list prep) : Prop := {
  mo_cache : cache_ok (cacheStore rs);
  mo_view : cache_view (cacheStore rs) = Some <$> m;
  mo_writing : isWritting rs = w;
  mo_prepared p : p ∈ ps → prepared_keys rs p
}.

Lemma guard_ok {A} (w : bool) why rs m ps (f : stM R A) : mock_at w rs m ps → (_ ← guard_writting w why; f) rs = f rs.
Proof. intros [_ _ H _]. unfold mbind, stM_bind, guard_writting. by rewrite bool_decide_eq_true_2. Qed.

Lemma mock_lookup rs m w ps k : mock_at w rs m ps → cache_view (cacheStore rs) !! k = Some <$> m !! k.
Proof. intros [_ H _ _]. by rewrite H, lookup_fmap. Qed.

Lemma mock_object rs (m : gmap bytes bytes) ps k (f : T → outcome (CacheStatus * option Ob)) ptr p rs' : mock_at false rs m ps →
  (∀ st q, f (cacheStore rs) = Ret (st, q) → match cache_view (cacheStore rs) !! k with
    | None => st = Missed ∧ q = ptr | Some None => st = JustDeleted ∧ q = ptr
    | Some (Some bz) => st = Hit ∧ ∃ o, q = Some o ∧ read_object ptr bz o end) →
  (_ ← guard_writting false "isWritting"; '(status, p) ← peek mock_cache_lens f; match status with Hit => mret p | _ => mret None end) rs = Ret (p, rs') →
  rs = rs' ∧ match m !! k with None => p = None | Some bz => ∃ o, p = Some o ∧ read_object ptr bz o end.
Proof.
  intros H Hf. rewrite (guard_ok _ _ _ _ _ _ H). unfold mbind, stM_bind, peek. cbn [lget mock_cache_lens].
  destruct (f (cacheStore rs)) as [[st q]|]; [|done]. cbn [mbind outcome_bind]. specialize (Hf st q eq_refl).
  rewrite (mock_lookup _ _ _ _ _ H) in Hf. destruct (m !! k) as [bz|]; cbn in Hf; destruct Hf as [-> Hq]; intros [= <- <-]; by split.
Qed.

Lemma mock_set rs m ps k v (t : T) : mock_at true rs m ps → cache_ok t → cache_view t = <[k := Some v]> (cache_view (cacheStore rs)) →
  mock_at true (lset mock_cache_lens t rs) (<[k := v]> m) ps.
Proof. intros [H1 H2 H3 H4] Ht Hv. split; [done| |done|done]. cbn. by rewrite Hv, H2, fmap_insert. Qed.

Lemma mock_write_step w rs m ps : mock_at true rs m ps → write_prep (as_write w) ∈ ps →
  ∃ rs', root_write_step w rs = Ret (tt, rs') ∧ mock_at true rs' (spec_write m (as_write w)) ps.
Proof.
  intros H Hp. pose proof H as [H1 H2 H3 H4]. specialize (H4 _ Hp).
  assert (∀ A (f : R → gset bytes) k (g : stM R A), k ∈ f rs → (_ ← guard_prepared f k; g) rs = g rs) as Hg.
  { intros A f k g Hk. unfold mbind, stM_bind, guard_prepared. by rewrite bool_decide_eq_true_2. }
  destruct w as [k v|k o|k]; cbn [root_write_step rs_Set rs_SetObj rs_Delete mock_root_ops].
  - destruct (Cache_Set_ok _ k v H1) as (t & E1 & T1 & T2). exists (lset mock_cache_lens t rs). split; [|by apply mock_set].
    unfold MockRoot_Set. rewrite (guard_ok _ _ _ _ _ _ H), Hg by exact H4. apply zoom_Ret. unfold poke. cbn [lget mock_cache_lens]. by rewrite E1.
  - destruct (Cache_SetObj_ok _ k o H1) as (t & E1 & T1 & T2). exists (lset mock_cache_lens t rs). split.
    + unfold MockRoot_SetObj. rewrite (guard_ok _ _ _ _ _ _ H), Hg by exact H4. apply zoom_Ret. unfold poke. cbn [lget mock_cache_lens]. by rewrite E1.
    + cbn. destruct (ToBytes_slice o) as [bz Hbz]. rewrite Hbz in *. by apply mock_set.
  - destruct (bt_Delete_ok (cacheStore rs) k (co_tree _ H1)) as (t & E1 & T1 & T2). exists (lset mock_cache_lens t rs). split.
    + unfold MockRoot_Delete. rewrite (guard_ok _ _ _ _ _ _ H), Hg by exact H4. apply zoom_Ret. unfold poke, Cache_RealDelete. cbn [lget mock_cache_lens]. by rewrite E1.
    + split; [|cbn|done|intros p; exact (mo_prepared _ _ _ _ H p)].
      * split; [done|]. intros j v. cbn. rewrite T2. intros [_ Hv]%lookup_delete_Some. by apply (co_clean _ H1 j).
      * unfold cache_view in *. by rewrite T2, fmap_delete, H2, fmap_delete.
Qed.

Lemma mock_writes ws : ∀ rs m ps, mock_at true rs m ps → (∀ w, w ∈ ws → write_prep (as_write w) ∈ ps) →
  ∃ rs', run_root_writes ws rs = Ret (tt, rs') ∧ mock_at true rs' (spec_after m (as_write <$> ws)) ps.
Proof.
  induction ws as [|w ws IH]; intros rs m ps H Hp; [by exists rs|].
  destruct (mock_write_step w rs m ps H) as (r1 & E1 & H1); [by apply Hp; left|].
  destruct (IH r1 _ ps H1) as (r2 & E2 & H2); [intros w' Hw'; apply Hp; by right|]. exists r2. split; [|done].
  cbn [run_root_writes foldr]. unfold mbind, stM_bind. rewrite E1. exact E2.
Qed.

#[local] Instance mock_same : Same R := eq.
#[local] Instance tree_same' : Same T := cache_same.
#[local] Instance mock_lens_same : LensSame (mock_cache_lens (T := T)).
Proof. split; [done| |by intros ?? ->]. by intros [] a <-. Qed.

#[export] Instance mock_root_laws : RootStoreLaws Ob R (CacheObjIter Ob E).
Proof.
  unshelve refine {|
    rs_same := mock_same; rs_iter_laws := zoom_iter_laws mock_cache_lens cache_iterator; rs_key_ok := λ _, True; rs_value_ok := λ _, True;
    rs_used := λ _, 0; rs_served := λ _ _ _, True; rs_cost := λ _ _, 0; rs_reading := mock_at false |}.
  - split; congruence.
  - done.
  - done.
  - by intros r r' m ps <-.
  - done.
  - intros r m ps k H. exists r. split; [|done]. unfold rs_Get. cbn [mock_root_ops]. unfold MockRoot_Get. rewrite (guard_ok _ _ _ _ _ _ H).
    unfold mbind, stM_bind. erewrite peek_Ret; [|exact (Cache_Get_ok _ k (mo_cache _ _ _ _ H))]. rewrite (mock_lookup _ _ _ _ _ H). by destruct (m !! k).
  - intros r m ps k H. exists r. split; [|done]. unfold rs_Has. cbn [mock_root_ops]. unfold MockRoot_Has. rewrite (guard_ok _ _ _ _ _ _ H).
    unfold mbind, stM_bind. erewrite peek_Ret; [|exact (Cache_Get_ok _ k (mo_cache _ _ _ _ H))]. rewrite (mock_lookup _ _ _ _ _ H). by destruct (m !! k).
  - intros r m ps k ptr p r' H. apply (mock_object r m ps k (λ c, Cache_GetObjCopy c k ptr)); [done|]. intros st q. exact (Cache_GetObjCopy_ok _ k ptr st q (mo_cache _ _ _ _ H)).
  - intros r m ps k ptr p r' H. apply (mock_object r m ps k (λ c, Cache_GetReadOnlyObj c k ptr)); [done|]. intros st q. exact (Cache_GetReadOnlyObj_ok _ k ptr st q (mo_cache _ _ _ _ H)).
  - intros r m ps p H _. destruct p as [k|k]; cbn [prepare_step rs_PrepareForUpdate rs_PrepareForDeletion mock_root_ops];
      unfold MockRoot_PrepareForUpdate, MockRoot_PrepareForDeletion; rewrite (guard_ok _ _ _ _ _ _ H); (eexists; split; [reflexivity|]; split; [|done]);
      destruct H as [H1 H2 H3 H4]; (split; [done..|]); intros p [Hp| ->%list_elem_of_singleton]%elem_of_app; cbn; try set_solver;
      specialize (H4 _ Hp); destruct p; cbn in *; set_solver.
  - intros r m ps start end_ l H Hl. pose proof H as [H1 H2 _ _].
    destruct (Cache_Iterator_ok (cacheStore r) start end_ (map_items Some l) H1) as (it & E1 & Hy); [rewrite H2; by apply (ordered_fmap Some true)|].
    exists it, r. split; [|done]. by apply (peek_Ret mock_cache_lens).
  - intros r m ps start end_ l H Hl. pose proof H as [H1 H2 _ _].
    destruct (Cache_ReverseIterator_ok (cacheStore r) start end_ (map_items Some l) H1) as (it & E1 & Hy); [rewrite H2; by apply (ordered_fmap Some false)|].
    exists it, r. split; [|done]. by apply (peek_Ret mock_cache_lens).
  - intros r m ps ws H _ _ Hws. destruct (mock_writes ws (set_writting true r) m ps) as (r' & E1 & H1).
    { destruct H. by split. }
    { intros w Hw. by apply Hws. }
    eexists. split; [unfold write_batch, mbind, stM_bind; cbn [rs_BeginWrite mock_root_ops MockRoot_BeginWrite]; unfold MockRoot_BeginWrite; cbn [mbind outcome_bind]; rewrite E1; reflexivity|].
    destruct H1. split; [split; [done..|by intros p ?%not_elem_of_nil]|]. lia.
Defined.
End mock_laws.

(** ** The layers above, on the mock root *)

(** Objects that are their bytes. *)
#[local] Instance byte_object : Serializable bytes := {|
  ToBytes o := Some o; FromBytes _ bz := match bz with Some bz => Ret bz | None => Panic "nil bytes" end; DeepCopy o := o
|}.
#[local] Instance byte_object_laws : SerializableLaws bytes.
Proof. split; [by eexists|by intros o o' bz [= <-]|done]. Qed.

Notation mock := (MockRootStore (gmap bytes (Value bytes))).
Definition empty_root : mock := NewMockRootStore (Ob := bytes).
Lemma empty_root_reading : rs_reading empty_root ∅ [].
Proof. destruct (NewCacheStore_ok (T := gmap bytes (Value bytes))) as [H1 H2]. split; [done|by rewrite fmap_empty|done|by intros p ?%not_elem_of_nil]. Qed.

Definition sample_txs : list (list (root_write bytes) * bool) :=
  [([RootSet [1] [10]; RootSetObj [2] [20]], true); ([RootDelete [1]; RootSet [3] []], false); ([RootDelete [2]; RootSet [2; 0] [21]], true)].

Lemma sample_allowed : writes_allowed (R := mock) sample_txs.
Proof. intros w _. split; [exact I|]. by destruct w. Qed.

Lemma trunk_block_refines_witness :
  (rs_reading empty_root ∅ [] ∧ writes_allowed (R := mock) sample_txs ∧
   map_to_list (spec_txs ∅ sample_txs) = [([2; 0], [21]); ([1], [10])]) ∧
  ∃ r', run_trunk_block 10 sample_txs empty_root = Ret r' ∧ rs_reading r' (spec_txs ∅ sample_txs) [] ∧
    rs_used r' ≤ rs_used empty_root + rs_cost (R := mock) (zlen (all_writes sample_txs)) (spec_txs ∅ sample_txs).
Proof.
  split; [split; [exact empty_root_reading|split; [exact sample_allowed|vm_compute; reflexivity]]|].
  apply (trunk_block_refines 10 empty_root ∅ sample_txs); [exact empty_root_reading|exact sample_allowed|exact I|vm_compute; lia].
Defined.

Definition sample_ws : list (root_write bytes) := [RootSet [1] [11]; RootDelete [2; 0]; RootSetObj [1; 7] [12]].
Lemma transactions_read_their_writes_witness :
  (rs_reading empty_root ∅ [] ∧ writes_allowed (R := mock) sample_txs ∧
   map_to_list (spec_after (spec_txs ∅ sample_txs) (as_write <$> sample_ws)) = [([1; 7], [12]); ([1], [11])]) ∧
  ∃ ts s, run_txs 20 sample_txs (GetTrunkStore empty_root) = Ret ts ∧ run_tx sample_ws (Cached, ts) = Ret (tt, s) ∧
    reads_as 20 s (spec_after (spec_txs ∅ sample_txs) (as_write <$> sample_ws)).
Proof.
  split; [split; [exact empty_root_reading|split; [exact sample_allowed|vm_compute; reflexivity]]|].
  apply (transactions_read_their_writes 20 empty_root ∅ sample_txs sample_ws);
    [exact empty_root_reading|exact sample_allowed|intros w _; split; [exact I|by destruct (as_write w)]|vm_compute; lia].
Defined.

(** The state of a transaction after two writes, for the prefixed store. *)
Definition sample_multi : gmap bytes (Value bytes) * TrunkStore (gmap bytes (Value bytes)) mock :=
  (<[[1; 5] := NewValue (Bytes (Some [50]))]> (<[[2] := NewValue (Bytes (Some [60]))]> ∅),
   mkTrunkStore ∅ (set_prepared empty_root {[ [1; 5]; [2] ]} ∅) 0).
Definition sample_changes : gmap bytes (option bytes) := <[[1; 5] := Some [50]]> (<[[2] := Some [60]]> ∅).
Lemma sample_multi_at : multi_at sample_multi ∅ ∅ sample_changes [PrepUpdate [1; 5]; PrepUpdate [2]].
Proof.
  destruct (NewCacheStore_ok (T := gmap bytes (Value bytes))) as [H1 H2]. split.
  - split; [|done|done|done|intros k o; by rewrite lookup_empty]. split; [done|by rewrite fmap_empty|done|].
    intros p [-> | [-> | []%not_elem_of_nil]%elem_of_cons]%elem_of_cons; cbn; set_solver.
  - split; [exact I|]. cbn. intros k v [[<- <-]|[_ [[<- <-]|[_ [=]]]%lookup_insert_Some]]%lookup_insert_Some; by eexists.
  - vm_compute. reflexivity.
  - unfold sample_changes. intros k o [[<- <-]|[_ [[<- <-]|[_ [=]]]%lookup_insert_Some]]%lookup_insert_Some; cbn; (split; [set_solver|done]).
Qed.
Lemma prefixed_store_is_part_witness :
  (multi_at sample_multi ∅ ∅ sample_changes [PrepUpdate [1; 5]; PrepUpdate [2]] ∧
   map_to_list (sub_map [1] (overlay (overlay ∅ ∅) sample_changes)) = [([5], [50])]) ∧
  ∃ s', Prefixed_Get (NewPrefixedStore [1]) (Some [5]) sample_multi = Ret (Some [50], s') ∧ same sample_multi s'.
Proof.
  split; [split; [exact sample_multi_at|vm_compute; reflexivity]|].
  destruct (prefixed_store_is_part 10 sample_multi ∅ ∅ sample_changes [PrepUpdate [1; 5]; PrepUpdate [2]] [1] sample_multi_at) as [H _]; [vm_compute; lia|].
  exact (H [5]).
Defined.
