(* ===== verification/Rabbit.v ===== *)
(** * The rabbit store (store/rabbit)

    A store that keeps its entries under eight-byte keys: an entry sits in the
    first free slot of a chain of short keys, the prefixes of the iterated
    SHA-256 of its key. Every slot counts the entries whose chains pass by it
    ([passbyNum]), so that a search knows where to stop and a deletion which
    slots to free. The entries a transaction touches are cached, decoded, in a
    map of pointers that each belong to one short key; the trunk store below
    is passed as part of the state. *)
From S2P Require Import Prelude ByteOrder BTreeSpec StoreTypes CacheStore.
From S2P Require Import MergeIter RootSpec TrunkStore.

Definition KeySize : nat := 8.
Definition MaxFindDepth : nat := 100.
Definition EmptyMarkerIndex : Z := 0.
Definition PassbyNumIndex : Z := 1.
Definition KeyLenStart : Z := PassbyNumIndex + 8.
Definition KeyStart : Z := KeyLenStart + 4.
Inductive FindStatus := NotFount | EmptySlot | Exists.
#[export] Instance FindStatus_eq_dec : EqDecision FindStatus.
Proof. solve_decision. Defined.

Section rabbit.
Context {Ob T E R RI : Type} `{SO : !Serializable Ob, BO : !BTreeOps (Value Ob) T E, HR : !RootStoreOps Ob R RI}.
Context (sha256 : bytes → bytes) (fuel : nat).

(** ** CachedValue and its bytes (simple_cache.go) *)

Record CachedValue := mkCachedValue {
  passbyNum : Z; cv_key : bytes; cv_obj : any Ob; isEmpty : bool; isDeleted : bool; isDirty : bool
}.
Implicit Types (cv : CachedValue) (k key : bytes) (ptr : option Ob).

Definition set_obj cv o := mkCachedValue (passbyNum cv) (cv_key cv) o (isEmpty cv) (isDeleted cv) (isDirty cv).
Definition set_num cv n := mkCachedValue n (cv_key cv) (cv_obj cv) (isEmpty cv) (isDeleted cv) (isDirty cv).
Definition set_isEmpty cv b := mkCachedValue (passbyNum cv) (cv_key cv) (cv_obj cv) b (isDeleted cv) (isDirty cv).
Definition set_isDeleted cv b := mkCachedValue (passbyNum cv) (cv_key cv) (cv_obj cv) (isEmpty cv) b (isDirty cv).
Definition set_isDirty cv b := mkCachedValue (passbyNum cv) (cv_key cv) (cv_obj cv) (isEmpty cv) (isDeleted cv) b.
Definition set_key cv key := mkCachedValue (passbyNum cv) key (cv_obj cv) (isEmpty cv) (isDeleted cv) (isDirty cv).

Definition GetValue cv : outcome (option bytes) := any_bytes (cv_obj cv).

(** Appending a nil slice appends nothing. *)
Definition CachedValue_ToBytes cv : outcome bytes :=
  value ← (if isEmpty cv then mret None else GetValue cv);
  mret ((if isEmpty cv then 1 else 0) :: le_bytes 8 (passbyNum cv) ++ le_bytes 4 (to_uint 32 (zlen (cv_key cv))) ++
        cv_key cv ++ default [] value).

Definition BytesToCachedValue (buf : bytes) : outcome (option CachedValue) :=
  if zlen buf <? KeyStart then mret None else
  lenBytes ← slice buf KeyLenStart KeyStart;
  let keyLen := le_val lenBytes in
  if zlen buf <? KeyStart + keyLen then mret None else
  numBytes ← slice buf PassbyNumIndex (PassbyNumIndex + 8);
  key ← slice buf KeyStart (KeyStart + keyLen);
  marker ← index buf EmptyMarkerIndex;
  if negb (marker =? 0) then mret (Some (mkCachedValue (le_val numBytes) key Nil true false false)) else
  value ← slice buf (KeyStart + keyLen) (zlen buf);
  mret (Some (mkCachedValue (le_val numBytes) key (Bytes (Some value)) false false false)).

(** ** SimpleCacheStore; a pointer in the map may be nil *)

Definition SimpleCacheStore : Type := gmap bytes (option CachedValue).
Definition NewSimpleCacheStore : SimpleCacheStore := ∅.

Definition Simple_GetValue (m : SimpleCacheStore) k : outcome (option CachedValue * CacheStatus) :=
  match m !! k with
  | None => mret (None, Missed)
  | Some None => Panic "nil pointer dereference"
  | Some (Some v) => if isDeleted v then mret (None, JustDeleted) else mret (Some v, Hit)
  end.
Definition Simple_SetValue (m : SimpleCacheStore) k (v : option CachedValue) : SimpleCacheStore := <[k := v]> m.

(** The loop over the entries, in the order [l] in which Go visits the map. *)
Fixpoint ScanAllEntries {X} (fn : bytes → bytes → bool → stM X unit) (l : list (bytes * option CachedValue)) : stM X unit :=
  match l with
  | [] => mret tt
  | (k, None) :: _ => st_panic "nil pointer dereference"
  | (k, Some cv) :: l =>
      if (match cv_obj cv with Nil => true | _ => false end) && negb (isDeleted cv) && negb (isEmpty cv)
      then st_panic "Dangling Cache Entry" else
      _ ← (if isDirty cv then value ← st_lift (CachedValue_ToBytes cv); fn k value (isDeleted cv) else mret tt);
      ScanAllEntries fn l
  end.
Fixpoint ScanAllShortKeys {X} (fn : bytes → stM X bool) (l : list (bytes * option CachedValue)) : stM X unit :=
  match l with
  | [] => mret tt
  | (k, _) :: l => stop ← fn k; if (stop : bool) then mret tt else ScanAllShortKeys fn l
  end.

(** ** SimpleMultiStore (simple_multi.go) *)

Record SimpleMultiStore := mkSimpleMultiStore { sms_cache : SimpleCacheStore; sms_trunk : TrunkStore T R }.
Notation stS A := (stM SimpleMultiStore A).
Definition sms_trunk_lens : lens SimpleMultiStore (TrunkStore T R) :=
  Lens sms_trunk (λ ts s, mkSimpleMultiStore (sms_cache s) ts).
Definition store_value k (v : option CachedValue) : stS unit :=
  λ s, Ret (tt, mkSimpleMultiStore (Simple_SetValue (sms_cache s) k v) (sms_trunk s)).
Definition lookup_value k : stS (option CachedValue * CacheStatus) :=
  λ s, r ← Simple_GetValue (sms_cache s) k; Ret (r, s).

Definition GetCachedValue k : stS (option CachedValue) :=
  '(cv, status) ← lookup_value k;
  match status with
  | JustDeleted => mret None
  | Missed =>
      bz ← zoom sms_trunk_lens (Trunk_Get k);
      match bz with
      | None => mret None
      | Some bz => cv ← st_lift (BytesToCachedValue bz); _ ← store_value k cv; mret cv
      end
  | Hit => mret cv
  end.
Definition MustGetCachedValue k : stS CachedValue :=
  '(cv, status) ← lookup_value k;
  match status, cv with Hit, Some cv => mret cv | _, _ => st_panic "Failed to get cached value" end.
Definition SetCachedValue k cv : stS unit :=
  let cv := set_isDirty cv true in
  _ ← store_value k (Some cv);
  if isDeleted cv then zoom sms_trunk_lens (Trunk_PrepareForDeletion k) else zoom sms_trunk_lens (Trunk_PrepareForUpdate k).

(** The callback of [writeBack], on the cache of the trunk. *)
Definition write_slot k (value : bytes) (deleted : bool) : stM T unit :=
  poke (λ cache, if deleted then Cache_Delete cache k else Cache_Set cache k (Some value)).
Definition Simple_writeBack (l : list (bytes * option CachedValue)) : stS unit :=
  zoom sms_trunk_lens (Trunk_Update (ScanAllEntries write_slot l)).
Definition Simple_Close (writeBack : bool) (l : list (bytes * option CachedValue)) : stS unit :=
  if writeBack then Simple_writeBack l else mret tt.

(** ** RabbitStore (rabbit.go) *)

Definition NewRabbitStore (trunk : TrunkStore T R) : SimpleMultiStore := mkSimpleMultiStore NewSimpleCacheStore trunk.

(** [copy(k\[:\], hash\[:\]); k\[0\] = k\[0\] | 0x1] *)
Definition short_key (hash : bytes) : bytes := alter (λ b, Z.lor b 1) 0%nat (take KeySize hash).

(** The loop of [find]: [n] rounds are left. *)
Fixpoint find_from (n : nat) (hash key : bytes) (earlyExit : bool) (path : list bytes) : stS (option CachedValue * list bytes * FindStatus) :=
  match n with
  | O => st_panic "MaxFindDepth reached!"
  | S n =>
      let k := short_key hash in
      let path := path ++ [k] in
      cv ← GetCachedValue k;
      match cv with
      | None => mret (None, path, NotFount)
      | Some v =>
          if bool_decide (cv_key v = key) then mret (Some v, path, if isEmpty v then EmptySlot else Exists)
          else if earlyExit && (passbyNum v =? 0) then mret (Some v, path, NotFount)
          else find_from n (sha256 hash) key earlyExit path
      end
  end.
Definition find key (earlyExit : bool) : stS (option CachedValue * list bytes * FindStatus) :=
  find_from MaxFindDepth (sha256 key) key earlyExit [].

Definition last_key (path : list bytes) : bytes := List.last path [].

Definition Rabbit_Has key : stS bool := '(_, _, status) ← find key true; mret (bool_decide (status = Exists)).
Definition GetShortKeyPath key : stS (list bytes * bool) :=
  '(_, path, status) ← find key true; mret (path, bool_decide (status = Exists)).

Definition Rabbit_Get key : stS (option bytes) :=
  '(cv, _, status) ← find key true;
  match status, cv with
  | Exists, Some cv =>
      match cv_obj cv with
      | Bytes bz => mret (Some (default [] bz))
      | o => sobj ← st_lift (as_serializable o); mret (ToBytes sobj)
      end
  | Exists, None => st_panic "nil pointer dereference"
  | _, _ => mret None
  end.

Definition getObjHelper (readonly : bool) key ptr : stS (option Ob) :=
  '(cv, path, status) ← find key true;
  match status, cv with
  | Exists, Some cv =>
      ptr ← (match cv_obj cv with
             | Nil => st_panic "Reading a dangling value"
             | Bytes bz => st_lift (ptr_FromBytes ptr bz)
             | o => sobj ← st_lift (as_serializable o); mret (Some sobj)
             end);
      _ ← (if readonly then mret tt else store_value (last_key path) (Some (set_obj cv Nil)));
      mret ptr
  | Exists, None => st_panic "nil pointer dereference"
  | _, _ => mret None
  end.
Definition Rabbit_GetObj key ptr : stS (option Ob) := getObjHelper false key ptr.
Definition Rabbit_GetReadOnlyObj key ptr : stS (option Ob) := getObjHelper true key ptr.

(** The loops over [path\[:len(path)-1\]]. *)
Fixpoint incr_passby (path : list bytes) : stS unit :=
  match path with
  | [] => mret tt
  | k :: path =>
      cv ← MustGetCachedValue k;
      _ ← SetCachedValue k (set_num cv (to_uint64 (passbyNum cv + 1)));
      incr_passby path
  end.
Fixpoint decr_passby (path : list bytes) : stS unit :=
  match path with
  | [] => mret tt
  | k :: path =>
      cv ← MustGetCachedValue k;
      let cv := set_num cv (to_uint64 (passbyNum cv - 1)) in
      let cv := if (passbyNum cv =? 0) && isEmpty cv then set_isDeleted cv true else cv in
      _ ← SetCachedValue k cv;
      decr_passby path
  end.

Definition setHelper key (obj : any Ob) : stS unit :=
  '(_, path, status) ← find key false;
  let k := last_key path in
  match status with
  | Exists => cv ← MustGetCachedValue k; SetCachedValue k (set_obj cv obj)
  | EmptySlot =>
      cv ← MustGetCachedValue k;
      _ ← SetCachedValue k (set_isEmpty (set_obj (set_key cv key) obj) false);
      incr_passby (removelast path)
  | NotFount =>
      _ ← SetCachedValue k (mkCachedValue 0 key obj false false false);
      incr_passby (removelast path)
  end.
Definition Rabbit_Set key (bz : option bytes) : stS unit := setHelper key (Bytes bz).
Definition Rabbit_SetObj key (o : option Ob) : stS unit := setHelper key (of_serializable o).

Definition Rabbit_Delete key : stS unit :=
  '(_, path, status) ← find key true;
  match status with
  | Exists =>
      let k := last_key path in
      cv ← MustGetCachedValue k;
      _ ← SetCachedValue k (if passbyNum cv =? 0 then set_isDeleted cv true else set_isEmpty cv true);
      decr_passby (removelast path)
  | _ => mret tt
  end.

Definition Rabbit_Close (writeBack : bool) (l : list (bytes * option CachedValue)) : stS unit := Simple_Close writeBack l.
Definition Rabbit_ActiveCount (s : SimpleMultiStore) : Z := Trunk_ActiveCount (sms_trunk s).
End rabbit.
Arguments CachedValue Ob : clear implicits.
Arguments SimpleMultiStore Ob T R : clear implicits.

(** ** Encoding and decoding *)

Section codec.
Context {Ob : Type} `{SO : !Serializable Ob, !SerializableLaws Ob}.
Implicit Types (cv : CachedValue Ob).

(** An entry that can be written: its numbers fit and it is not dangling. *)
Definition cv_wf cv : Prop := 0 ≤ passbyNum cv < 2 ^ 64 ∧ zlen (cv_key cv) < 2 ^ 32 ∧
  (isEmpty cv = false → match cv_obj cv with Bytes bz => is_Some bz | Object _ => True | _ => False end).

(** What of an entry survives: empty entries lose their value, objects become bytes. *)
Definition cv_value cv : option bytes :=
  if isEmpty cv then None else match cv_obj cv with Bytes bz => bz | Object o => ToBytes o | _ => None end.
Definition cv_decoded cv : CachedValue Ob :=
  mkCachedValue (passbyNum cv) (cv_key cv) (match cv_value cv with Some v => Bytes (Some v) | None => Nil end) (isEmpty cv) false false.

Definition cv_bytes (empty : bool) (num : Z) (key value : bytes) : bytes :=
  (if empty then 1 else 0) :: le_bytes 8 num ++ le_bytes 4 (zlen key) ++ key ++ value.

Lemma BytesToCachedValue_bytes (empty : bool) num key value : 0 ≤ num < 2 ^ 64 → zlen key < 2 ^ 32 → (empty = true → value = []) →
  BytesToCachedValue (cv_bytes empty num key value) =
    Ret (Some (mkCachedValue (Ob := Ob) num key (if empty then Nil else Bytes (Some value)) empty false false)).
Proof.
  intros Hn Hk He. unfold BytesToCachedValue, cv_bytes. pose proof (zlen_nonneg key). pose proof (zlen_nonneg value).
  set (m := if empty then 1 else 0). change (m :: ?l) with ([m] ++ l).
  assert (zlen ([m] ++ le_bytes 8 num ++ le_bytes 4 (zlen key) ++ key ++ value) = 13 + zlen key + zlen value) as Hlen.
  { rewrite !zlen_app, !zlen_le_bytes. unfold zlen. cbn [length]. lia. }
  rewrite Hlen. change KeyStart with 13. change KeyLenStart with 9. change PassbyNumIndex with 1.
  destruct (Z.ltb_spec (13 + zlen key + zlen value) 13); [lia|].
  rewrite (app_assoc [m]), (slice_mid ([m] ++ le_bytes 8 num) _ _ 9 13); [|rewrite ?zlen_app, !zlen_le_bytes; done..].
  cbn [mbind outcome_bind]. rewrite (le_val_small 4) by (change (8 * Z.of_nat 4) with 32; lia).
  destruct (Z.ltb_spec (13 + zlen key + zlen value) (13 + zlen key)); [lia|].
  rewrite <- app_assoc, (slice_mid [m] _ _ 1 (1 + 8)); [|done|by rewrite zlen_le_bytes]. cbn [mbind outcome_bind].
  rewrite (le_val_small 8) by (change (8 * Z.of_nat 8) with 64; lia).
  rewrite (app_assoc [m]), (app_assoc ([m] ++ _)).
  assert (zlen (([m] ++ le_bytes 8 num) ++ le_bytes 4 (zlen key)) = 13) as Hh by (rewrite !zlen_app, !zlen_le_bytes; done).
  rewrite (slice_mid _ key value 13 (13 + zlen key)) by (rewrite Hh; lia). cbn [mbind outcome_bind].
  assert (index ((([m] ++ le_bytes 8 num) ++ le_bytes 4 (zlen key)) ++ key ++ value) EmptyMarkerIndex = Ret m) as -> by done.
  cbn [mbind outcome_bind]. destruct empty; [done|]. change (negb (m =? 0)) with false. cbv iota.
  rewrite (app_assoc (([m] ++ le_bytes 8 num) ++ le_bytes 4 (zlen key)) key value).
  by rewrite (slice_end _ value (13 + zlen key) (13 + zlen key + zlen value)) by (rewrite zlen_app, Hh; lia).
Qed.

Lemma CachedValue_ToBytes_bytes cv : cv_wf cv →
  CachedValue_ToBytes cv = Ret (cv_bytes (isEmpty cv) (passbyNum cv) (cv_key cv) (default [] (cv_value cv))) ∧
  (isEmpty cv = false → is_Some (cv_value cv)).
Proof.
  intros (Hn & Hk & Ho). pose proof (zlen_nonneg (cv_key cv)). unfold CachedValue_ToBytes, cv_bytes, cv_value, to_uint.
  rewrite Z.mod_small by lia. destruct (isEmpty cv); [done|]. specialize (Ho eq_refl). unfold GetValue.
  destruct (cv_obj cv) as [|bz|o|]; try done. cbn. split; [done|]. intros _. apply ToBytes_slice.
Qed.

(** Entries survive the bytes. Encoding an entry that is not dangling
    succeeds, and decoding the bytes gives the entry back, with the bytes of
    its object, clean; the value of an empty entry is not kept. *)
Theorem CachedValue_roundtrip cv : cv_wf cv →
  ∃ bz, CachedValue_ToBytes cv = Ret bz ∧ BytesToCachedValue bz = Ret (Some (cv_decoded cv)).
Proof.
  intros Hwf. destruct (CachedValue_ToBytes_bytes cv Hwf) as [E Hv]. eexists. split; [exact E|]. destruct Hwf as (Hn & Hk & _).
  rewrite BytesToCachedValue_bytes; [|done|done|unfold cv_value; by intros ->].
  unfold cv_decoded. do 2 f_equal. unfold cv_value in *. destruct (isEmpty cv); [done|]. by destruct (Hv eq_refl) as [v ->].
Qed.
End codec.
