(* ===== verification/RabbitInv.v ===== *)
(** * The chains of short keys of a rabbit store

    The table without its caches: [σ] gives the slot of a short key, [sk K i]
    is the [i]-th short key of the chain of [K]. [chains σ pos m] says that
    the table holds the map [m], the entry of [K] being in the slot [pos K] of
    its chain, behind occupied slots of other keys, and that every slot counts
    the entries that pass by it. Insertion and deletion keep it. *)
From S2P Require Import Prelude.

Record slot := mkSlot { sl_key : bytes; sl_num : Z; sl_val : option bytes }.

Section chains.
Context (sk : bytes → nat → bytes).
Implicit Types (σ : bytes → option slot) (pos : gmap bytes nat) (m : gmap bytes bytes) (K k : bytes) (n i : nat) (e : slot).

(** ** Counting the entries that pass by a slot *)

Definition passes K n k : nat := length (filter (λ i, sk K i = k) (seq 0 n)).
Definition total pos k : nat := map_fold (λ K n acc, (passes K n k + acc)%nat) 0%nat pos.

Lemma passes_S K n k : passes K (S n) k = (passes K n k + if decide (sk K n = k) then 1 else 0)%nat.
Proof.
  unfold passes. rewrite seq_S, filter_app, length_app. cbn [plus]. f_equal.
  destruct (decide (sk K n = k)); [by rewrite filter_cons_True|by rewrite filter_cons_False].
Qed.
Lemma passes_pos K n k : (0 < passes K n k)%nat ↔ ∃ i, (i < n)%nat ∧ sk K i = k.
Proof.
  induction n as [|n IH]; [cbn; split; [lia|intros (i & ? & _); lia]|]. rewrite passes_S. case_decide as Hk.
  - split; [|lia]. intros _. exists n. split; [lia|done].
  - rewrite Nat.add_0_r, IH. split; intros (i & Hi & H); exists i; (split; [|done]); [lia|].
    destruct (decide (i = n)) as [->|]; [done|lia].
Qed.
Lemma passes_le K n k : (passes K n k ≤ n)%nat.
Proof. unfold passes. etrans; [apply length_filter|]. by rewrite length_seq. Qed.

Lemma total_insert pos K n k : pos !! K = None → total (<[K := n]> pos) k = (passes K n k + total pos k)%nat.
Proof. intros H. unfold total. rewrite map_fold_insert_L; [done|lia|done]. Qed.
Lemma total_delete pos K n k : pos !! K = Some n → total pos k = (passes K n k + total (delete K pos) k)%nat.
Proof. intros H. rewrite <- total_insert by apply lookup_delete_eq. by rewrite insert_delete_eq, insert_id. Qed.
Lemma total_ge pos K n k : pos !! K = Some n → (passes K n k ≤ total pos k)%nat.
Proof. intros H. rewrite (total_delete _ _ _ k H). lia. Qed.
Lemma total_passed pos K n i : pos !! K = Some n → (i < n)%nat → (0 < total pos (sk K i))%nat.
Proof.
  intros H Hi. pose proof (total_ge pos K n (sk K i) H).
  assert (0 < passes K n (sk K i))%nat by (apply passes_pos; by exists i). lia.
Qed.
Lemma total_pos pos k : (0 < total pos k)%nat → ∃ K n i, pos !! K = Some n ∧ (i < n)%nat ∧ sk K i = k.
Proof.
  induction pos as [|K n pos Hn IH] using map_ind; [unfold total; rewrite map_fold_empty; lia|].
  rewrite total_insert by done. intros H. destruct (decide (0 < passes K n k)%nat) as [Hp|Hp].
  - apply passes_pos in Hp as (i & Hi & Hk). exists K, n, i. by rewrite lookup_insert_eq.
  - destruct IH as (K' & n' & i & H1 & H2); [lia|]. exists K', n', i. rewrite lookup_insert_ne; [done|]. intros ->. congruence.
Qed.
Lemma total_le pos k b : (∀ K n, pos !! K = Some n → (n ≤ b)%nat) → (total pos k ≤ b * size pos)%nat.
Proof.
  induction pos as [|K n pos Hn IH] using map_ind; intros Hb; [unfold total; rewrite map_fold_empty; lia|].
  rewrite total_insert, map_size_insert_None by done. pose proof (passes_le K n k). pose proof (Hb K n ltac:(by rewrite lookup_insert_eq)).
  assert (total pos k ≤ b * size pos)%nat; [|lia]. apply IH. intros K' n' H'. apply (Hb K'). rewrite lookup_insert_ne; [done|]. intros ->. congruence.
Qed.

(** ** The invariant *)

Record chains σ pos m : Prop := {
  ch_dom K : is_Some (pos !! K) ↔ is_Some (m !! K);
  ch_depth K n : pos !! K = Some n → (n < 100)%nat;
  ch_entry K n : pos !! K = Some n → ∃ e, σ (sk K n) = Some e ∧ sl_key e = K ∧ sl_val e = m !! K;
  ch_before K n i : pos !! K = Some n → (i < n)%nat → ∃ e, σ (sk K i) = Some e ∧ sl_key e ≠ K;
  ch_num k e : σ k = Some e → sl_num e = Z.of_nat (total pos k);
  ch_live k e v : σ k = Some e → sl_val e = Some v → ∃ n, pos !! sl_key e = Some n ∧ sk (sl_key e) n = k;
  ch_empty k e : σ k = Some e → sl_val e = None → 0 < sl_num e
}.

Lemma chains_empty : chains (λ _, None) ∅ ∅.
Proof. split; try done. intros K. by rewrite !lookup_empty. Qed.

Lemma chains_num_bound σ pos m k e : chains σ pos m → σ k = Some e → 0 ≤ sl_num e ≤ 100 * Z.of_nat (size m).
Proof.
  intros H Hk. rewrite (ch_num _ _ _ H _ _ Hk).
  assert (size pos = size m) as Hs.
  { rewrite <- !size_dom. f_equal. apply set_eq. intros K. rewrite !elem_of_dom. apply (ch_dom _ _ _ H). }
  pose proof (total_le pos k 100) as Hle. rewrite Hs in Hle. specialize (Hle (λ K n Hn, Nat.lt_le_incl _ _ (ch_depth _ _ _ H K n Hn))). lia.
Qed.

(** No entry passes by a free slot. *)
Lemma free_slot σ pos m k : chains σ pos m → σ k = None → total pos k = 0%nat.
Proof.
  intros H Hk. destruct (decide (0 < total pos k)%nat) as [Hp|]; [|lia].
  destruct (total_pos _ _ Hp) as (K & n & i & Hn & Hi & <-). destruct (ch_before _ _ _ H _ _ _ Hn Hi) as (e & He & _). congruence.
Qed.

(** A slot that holds the key [K] is a live one at the end of its chain, or an empty one. *)
Lemma slot_of_key σ pos m k e : chains σ pos m → σ k = Some e → sl_val e = m !! sl_key e ∧ is_Some (m !! sl_key e) ∨ sl_val e = None.
Proof.
  intros H Hk. destruct (sl_val e) as [v|] eqn:Hv; [left|by right].
  destruct (ch_live _ _ _ H _ _ _ Hk Hv) as (n & Hn & Hs). destruct (ch_entry _ _ _ H _ _ Hn) as (e' & He' & Hk' & Hv').
  rewrite Hs, Hk in He'. injection He' as <-. rewrite Hv in Hv'. split; [done|]. rewrite <- Hv'. by eexists.
Qed.

(** ** Searching *)

(** Where the loop of [find] stops. *)
Definition stops σ (early : bool) K i : Prop :=
  match σ (sk K i) with None => True | Some e => sl_key e = K ∨ early = true ∧ sl_num e = 0 end.
#[export] Instance stops_dec σ early K i : Decision (stops σ early K i).
Proof. unfold stops. destruct (σ (sk K i)); apply _. Defined.
Definition stops_first σ early K n : Prop := stops σ early K n ∧ ∀ i, (i < n)%nat → ¬ stops σ early K i.

Lemma stops_present σ pos m early K v : chains σ pos m → m !! K = Some v →
  ∃ n e, (n < 100)%nat ∧ pos !! K = Some n ∧ stops_first σ early K n ∧ σ (sk K n) = Some e ∧ sl_key e = K ∧ sl_val e = Some v.
Proof.
  intros H Hv. destruct (proj2 (ch_dom _ _ _ H K)) as [n Hn]; [by eexists|].
  destruct (ch_entry _ _ _ H _ _ Hn) as (e & He & Hk & Hev). exists n, e. rewrite Hv in Hev.
  split_and!; [by eapply ch_depth|done| |done|done|done]. split; [unfold stops; rewrite He; by left|].
  intros i Hi. destruct (ch_before _ _ _ H _ _ _ Hn Hi) as (e' & He' & Hk'). unfold stops. rewrite He'.
  intros [?|[_ H0]]; [done|]. pose proof (total_passed _ _ _ _ Hn Hi). rewrite (ch_num _ _ _ H _ _ He') in H0. lia.
Qed.
Lemma stops_absent σ pos m early K n : chains σ pos m → m !! K = None → stops_first σ early K n →
  match σ (sk K n) with None => True | Some e => sl_key e = K ∧ sl_val e = None ∨ sl_key e ≠ K ∧ early = true ∧ sl_num e = 0 end.
Proof.
  intros H Hm [Hs _]. unfold stops in Hs. destruct (σ (sk K n)) as [e|] eqn:He; [|done].
  destruct (decide (sl_key e = K)) as [Hk|Hk]; [left|right; naive_solver]. split; [done|].
  destruct (slot_of_key _ _ _ _ _ H He) as [[_ Hsome]|?]; [|done]. rewrite Hk, Hm in Hsome. by destruct Hsome.
Qed.

(** ** Changing the table *)

Definition set_slot σ k (o : option slot) : bytes → option slot := λ k', if decide (k' = k) then o else σ k'.
Lemma set_slot_eq σ k o : set_slot σ k o k = o.
Proof. unfold set_slot. by rewrite decide_True. Qed.
Lemma set_slot_ne σ k o k' : k' ≠ k → set_slot σ k o k' = σ k'.
Proof. intros H. unfold set_slot. by rewrite decide_False. Qed.

Definition add_num (d : Z) e : slot := mkSlot (sl_key e) (sl_num e + d) (sl_val e).
Definition incr_slot σ k := set_slot σ k (add_num 1 <$> σ k).
Definition decr_slot σ k := set_slot σ k (match σ k with
  | Some e => let e := add_num (-1) e in if (sl_num e =? 0) && bool_decide (sl_val e = None) then None else Some e
  | None => None end).
Definition chain K n : list bytes := sk K <$> seq 0 n.
Lemma chain_S K n : chain K (S n) = chain K n ++ [sk K n].
Proof. unfold chain. by rewrite seq_S, fmap_app. Qed.
Lemma elem_of_chain K n k : k ∈ chain K n ↔ ∃ i, (i < n)%nat ∧ sk K i = k.
Proof.
  unfold chain. rewrite list_elem_of_fmap. split; [intros (i & -> & Hi%elem_of_seq)|intros (i & Hi & <-)]; exists i.
  - split; [lia|done].
  - split; [done|]. apply elem_of_seq. lia.
Qed.

Lemma add_num_0 e : add_num 0 e = e.
Proof. destruct e. unfold add_num. cbn. by rewrite Z.add_0_r. Qed.

Lemma incr_chain σ K n k : foldl incr_slot σ (chain K n) k = add_num (Z.of_nat (passes K n k)) <$> σ k.
Proof.
  induction n as [|n IH]; [cbn; destruct (σ k); [cbn; by rewrite add_num_0|done]|].
  rewrite chain_S, foldl_app, passes_S. cbn [foldl]. unfold incr_slot at 1. case_decide as Hk.
  - subst k. rewrite set_slot_eq, IH. destruct (σ (sk K n)); [|done]. cbn. f_equal. unfold add_num. cbn. f_equal. lia.
  - rewrite set_slot_ne by done. rewrite IH, Nat.add_0_r. done.
Qed.

(** After the decrements of a deletion: a slot is freed when it is empty and
    nothing passes by any more. *)
Definition decr_result e (d : nat) : option slot :=
  let e' := add_num (- Z.of_nat d) e in
  if (0 <? Z.of_nat d) && (sl_num e' =? 0) && bool_decide (sl_val e' = None) then None else Some e'.

Lemma decr_result_0 e : decr_result e 0 = Some e.
Proof. unfold decr_result. change (- Z.of_nat 0) with 0. by rewrite add_num_0. Qed.

Lemma decr_result_Some e d e' : decr_result e d = Some e' → e' = add_num (- Z.of_nat d) e.
Proof. unfold decr_result. destruct (_ && _ && _); [done|]. by intros [= <-]. Qed.

Lemma decr_chain σ K n k : (∀ e, σ k = Some e → Z.of_nat (passes K n k) ≤ sl_num e) →
  foldl decr_slot σ (chain K n) k = σ k ≫= λ e, decr_result e (passes K n k).
Proof.
  induction n as [|n IH]; intros Hle.
  { cbn [chain foldl fmap list_fmap seq]. destruct (σ k) as [e|]; [|done]. cbn [mbind option_bind]. symmetry. apply decr_result_0. }
  rewrite chain_S, foldl_app. cbn [foldl]. unfold decr_slot at 1. rewrite passes_S in *. case_decide as Hk.
  - subst k. rewrite set_slot_eq, IH by (intros e He; specialize (Hle e He); lia).
    destruct (σ (sk K n)) as [e|] eqn:He; [|done]. specialize (Hle e eq_refl). cbn [mbind option_bind].
    unfold decr_result. cbn [add_num sl_num sl_val sl_key].
    destruct (Z.eqb_spec (sl_num e + - Z.of_nat (passes K n (sk K n))) 0); [lia|]. rewrite andb_false_r. cbn [andb sl_num sl_val sl_key].
    destruct (Z.ltb_spec 0 (Z.of_nat (passes K n (sk K n) + 1))); [|lia]. cbn [andb].
    replace (add_num (-1) (add_num (- Z.of_nat (passes K n (sk K n))) e)) with (add_num (- Z.of_nat (passes K n (sk K n) + 1)) e)
      by (unfold add_num; cbn [sl_num sl_key sl_val]; f_equal; lia).
    change (sl_num (add_num ?d ?e)) with (sl_num e + d). change (sl_val (add_num ?d ?e)) with (sl_val e).
    replace (sl_num e + - Z.of_nat (passes K n (sk K n)) + -1) with (sl_num e + - Z.of_nat (passes K n (sk K n) + 1)) by lia. done.
  - rewrite set_slot_ne by done. rewrite Nat.add_0_r in *. by apply IH.
Qed.

(** ** Insertion, change and deletion *)

Lemma chains_change σ pos m K n e v w : chains σ pos m → pos !! K = Some n → σ (sk K n) = Some e → sl_key e = K → sl_val e = Some w →
  chains (set_slot σ (sk K n) (Some (mkSlot K (sl_num e) (Some v)))) pos (<[K := v]> m).
Proof.
  intros H Hn He Hk Hw. split.
  - intros K'. rewrite (ch_dom _ _ _ H). destruct (decide (K' = K)) as [->|Hne]; [|by rewrite lookup_insert_ne].
    rewrite lookup_insert_eq. rewrite <- (ch_dom _ _ _ H), Hn. split; by eexists.
  - apply (ch_depth _ _ _ H).
  - intros K' n' Hn'. destruct (ch_entry _ _ _ H _ _ Hn') as (e' & He' & Hk' & Hv'). destruct (decide (K' = K)) as [->|Hne].
    + assert (n' = n) as -> by congruence. rewrite set_slot_eq. eexists. split; [done|]. cbn. by rewrite lookup_insert_eq.
    + rewrite set_slot_ne, lookup_insert_ne by congruence. by exists e'.
  - intros K' n' i Hn' Hi. destruct (ch_before _ _ _ H _ _ _ Hn' Hi) as (e' & He' & Hk'). destruct (decide (sk K' i = sk K n)) as [Heq|Hne].
    + rewrite Heq, set_slot_eq. eexists. split; [done|]. cbn. rewrite Heq in He'. congruence.
    + rewrite set_slot_ne by done. by exists e'.
  - intros k e'. destruct (decide (k = sk K n)) as [->|Hne]; [rewrite set_slot_eq; intros [= <-]; exact (ch_num _ _ _ H _ _ He)|].
    rewrite set_slot_ne by done. apply (ch_num _ _ _ H).
  - intros k e' v'. destruct (decide (k = sk K n)) as [->|Hne]; [rewrite set_slot_eq; intros [= <-] _; by exists n|].
    rewrite set_slot_ne by done. apply (ch_live _ _ _ H).
  - intros k e'. destruct (decide (k = sk K n)) as [->|Hne]; [by rewrite set_slot_eq; intros [= <-]|].
    rewrite set_slot_ne by done. apply (ch_empty _ _ _ H).
Qed.

(** The state after an insertion. *)
Lemma chains_insert σ pos m K n (num : Z) v : chains σ pos m → m !! K = None → (n < 100)%nat →
  (∀ i, (i < n)%nat → ∃ e, σ (sk K i) = Some e ∧ sl_key e ≠ K) →
  match σ (sk K n) with None => num = 0 | Some e => sl_key e = K ∧ num = sl_num e end →
  chains (foldl incr_slot (set_slot σ (sk K n) (Some (mkSlot K num (Some v)))) (chain K n)) (<[K := n]> pos) (<[K := v]> m).
Proof.
  intros H Hm Hn Hbefore Hslot.
  assert (pos !! K = None) as Hpos by (apply eq_None_not_Some; rewrite (ch_dom _ _ _ H), Hm; by intros []).
  assert (passes K n (sk K n) = 0%nat) as Hp0.
  { destruct (decide (0 < passes K n (sk K n))%nat) as [Hp|]; [|lia]. apply passes_pos in Hp as (i & Hi & Heq).
    destruct (Hbefore i Hi) as (e & He & Hk). rewrite Heq in He. rewrite He in Hslot. by destruct Hslot. }
  assert (num = Z.of_nat (total pos (sk K n))) as Hnum.
  { destruct (σ (sk K n)) as [e|] eqn:He; [destruct Hslot as [_ ->]; by apply (ch_num _ _ _ H)|]. by rewrite (free_slot _ _ _ _ H He). }
  assert (∀ k, foldl incr_slot (set_slot σ (sk K n) (Some (mkSlot K num (Some v)))) (chain K n) k =
    if decide (k = sk K n) then Some (mkSlot K num (Some v)) else add_num (Z.of_nat (passes K n k)) <$> σ k) as Hσ.
  { intros k. rewrite incr_chain. case_decide as Hk; [subst; rewrite set_slot_eq, Hp0; cbn; by rewrite add_num_0|]. by rewrite set_slot_ne. }
  assert (∀ k e, σ k = Some e → sl_key e ≠ K → ∃ e', foldl incr_slot (set_slot σ (sk K n) (Some (mkSlot K num (Some v)))) (chain K n) k = Some e' ∧
    sl_key e' = sl_key e ∧ sl_val e' = sl_val e) as Hother.
  { intros k e He Hk. rewrite Hσ. rewrite decide_False; [rewrite He; by eexists|]. intros ->. rewrite He in Hslot. by destruct Hslot. }
  split.
  - intros K'. destruct (decide (K' = K)) as [->|]; [rewrite !lookup_insert_eq; split; by eexists|]. rewrite !lookup_insert_ne by done. apply (ch_dom _ _ _ H).
  - intros K' n' [[<- <-]|[_ Hn']]%lookup_insert_Some; [done|by apply (ch_depth _ _ _ H K')].
  - intros K' n' [[<- <-]|[Hne Hn']]%lookup_insert_Some.
    + rewrite Hσ, decide_True by done. eexists. split; [done|]. cbn. by rewrite lookup_insert_eq.
    + rewrite lookup_insert_ne by done. destruct (ch_entry _ _ _ H _ _ Hn') as (e & He & Hk & Hv).
      destruct (Hother _ _ He ltac:(congruence)) as (e' & -> & Hk' & Hv'). exists e'. split_and!; [done|congruence..].
  - intros K' n' i [[<- <-]|[Hne Hn']]%lookup_insert_Some Hi.
    + destruct (Hbefore i Hi) as (e & He & Hk). destruct (Hother _ _ He Hk) as (e' & -> & Hk' & _). exists e'. split; [done|congruence].
    + destruct (ch_before _ _ _ H _ _ _ Hn' Hi) as (e & He & Hk). rewrite Hσ. case_decide as Heq; [by eexists|]. rewrite He. by eexists.
  - intros k e'. rewrite total_insert by done. rewrite Hσ. case_decide as Heq; [subst; intros [= <-]; rewrite Hp0; cbn; lia|].
    intros (e & He & ->)%fmap_Some. cbn. rewrite (ch_num _ _ _ H _ _ He). lia.
  - intros k e' v'. rewrite Hσ. case_decide as Heq; [subst; intros [= <-] _; exists n; cbn; by rewrite lookup_insert_eq|].
    intros (e & He & ->)%fmap_Some. cbn. intros Hv. destruct (ch_live _ _ _ H _ _ _ He Hv) as (n' & Hn' & Hs). exists n'. split; [|done].
    rewrite lookup_insert_ne; [done|]. intros Heq'. rewrite <- Heq' in Hn'. congruence.
  - intros k e'. rewrite Hσ. case_decide as Heq; [by intros [= <-]|]. intros (e & He & ->)%fmap_Some. cbn. intros Hv.
    pose proof (ch_empty _ _ _ H _ _ He Hv). lia.
Qed.

(** The state after a deletion. *)
Lemma chains_delete σ pos m K n e v : chains σ pos m → pos !! K = Some n → σ (sk K n) = Some e → sl_key e = K → sl_val e = Some v →
  chains (foldl decr_slot (set_slot σ (sk K n) (if sl_num e =? 0 then None else Some (mkSlot K (sl_num e) None))) (chain K n))
    (delete K pos) (delete K m).
Proof.
  intros H Hn He Hk Hv.
  assert (passes K n (sk K n) = 0%nat) as Hp0.
  { destruct (decide (0 < passes K n (sk K n))%nat) as [Hp|]; [|lia]. apply passes_pos in Hp as (i & Hi & Heq).
    destruct (ch_before _ _ _ H _ _ _ Hn Hi) as (e' & He' & Hk'). rewrite Heq in He'. congruence. }
  set (σ' := foldl decr_slot _ _).
  assert (∀ k, σ' k = if decide (k = sk K n) then (if sl_num e =? 0 then None else Some (mkSlot K (sl_num e) None))
    else σ k ≫= λ e, decr_result e (passes K n k)) as Hσ.
  { intros k. unfold σ'. rewrite decr_chain.
    - case_decide as Hks; [subst; rewrite set_slot_eq, Hp0|by rewrite set_slot_ne].
      destruct (sl_num e =? 0); [done|]. cbn [mbind option_bind]. apply decr_result_0.
    - intros e0 He0. destruct (decide (k = sk K n)) as [->|Hne].
      + rewrite Hp0. rewrite set_slot_eq in He0. destruct (Z.eqb_spec (sl_num e) 0); [done|]. injection He0 as <-. cbn.
        rewrite (ch_num _ _ _ H _ _ He). lia.
      + rewrite set_slot_ne in He0 by done. rewrite (ch_num _ _ _ H _ _ He0). pose proof (total_ge pos K n k Hn). lia. }
  assert (∀ k e0, σ k = Some e0 → k ≠ sk K n → is_Some (sl_val e0) ∨ (0 < total (delete K pos) k)%nat →
    σ' k = Some (add_num (- Z.of_nat (passes K n k)) e0)) as Hkeep.
  { intros k e0 He0 Hne Hor. rewrite Hσ, decide_False, He0 by done. cbn. unfold decr_result. cbn [add_num sl_num sl_val].
    destruct Hor as [[w ->]|Ht]; [by rewrite andb_false_r|]. rewrite (ch_num _ _ _ H _ _ He0), (total_delete _ _ _ k Hn).
    destruct (Z.eqb_spec (Z.of_nat (passes K n k + total (delete K pos) k) + - Z.of_nat (passes K n k)) 0); [lia|]. by rewrite andb_false_r. }
  assert (∀ K' n', delete K pos !! K' = Some n' → K' ≠ K ∧ pos !! K' = Some n') as Hdel by (intros K' n' [? ?]%lookup_delete_Some; done).
  split.
  - intros K'. destruct (decide (K' = K)) as [->|]; [rewrite !lookup_delete_eq; split; by intros []|]. rewrite !lookup_delete_ne by done. apply (ch_dom _ _ _ H).
  - intros K' n' [_ Hn']%Hdel. by apply (ch_depth _ _ _ H K').
  - intros K' n' [Hne Hn']%Hdel. rewrite lookup_delete_ne by done. destruct (ch_entry _ _ _ H _ _ Hn') as (e' & He' & Hk' & Hv').
    rewrite (Hkeep _ _ He'); [by eexists|congruence|]. left. rewrite Hv'. rewrite <- (ch_dom _ _ _ H), Hn'. by eexists.
  - intros K' n' i Hd Hi. pose proof (Hdel _ _ Hd) as [Hne Hn']. pose proof (total_passed _ _ _ _ Hd Hi) as Ht.
    destruct (ch_before _ _ _ H _ _ _ Hn' Hi) as (e' & He' & Hk'). destruct (decide (sk K' i = sk K n)) as [Heq|Hs].
    + rewrite Hσ, decide_True by done. rewrite Heq in Ht. rewrite (ch_num _ _ _ H _ _ He), (total_delete _ _ _ (sk K n) Hn).
      destruct (Z.eqb_spec (Z.of_nat (passes K n (sk K n) + total (delete K pos) (sk K n))) 0); [lia|]. by eexists.
    + rewrite (Hkeep _ _ He' Hs) by (by right). by eexists.
  - intros k e'. rewrite Hσ. case_decide as Hks.
    + subst k. destruct (Z.eqb_spec (sl_num e) 0); [done|]. intros [= <-]. cbn. rewrite (ch_num _ _ _ H _ _ He), (total_delete _ _ _ (sk K n) Hn), Hp0. done.
    + destruct (σ k) as [e0|] eqn:He0; [|done]. cbn [mbind option_bind]. intros ->%decr_result_Some. cbn.
      rewrite (ch_num _ _ _ H _ _ He0), (total_delete _ _ _ k Hn). lia.
  - intros k e' v'. rewrite Hσ. case_decide as Hks; [subst k; by destruct (Z.eqb_spec (sl_num e) 0); [|intros [= <-]]|].
    destruct (σ k) as [e0|] eqn:He0; [|done]. cbn [mbind option_bind]. intros ->%decr_result_Some. cbn. intros Hv'.
    destruct (ch_live _ _ _ H _ _ _ He0 Hv') as (n' & Hn' & Hs). exists n'. split; [|done]. rewrite lookup_delete_ne; [done|]. congruence.
  - intros k e'. rewrite Hσ. case_decide as Hks.
    + subst k. pose proof (ch_num _ _ _ H _ _ He). destruct (Z.eqb_spec (sl_num e) 0); [done|]. intros [= <-] _. cbn. lia.
    + destruct (σ k) as [e0|] eqn:He0; [|done]. cbn. unfold decr_result. cbn [add_num sl_num sl_val].
      pose proof (ch_num _ _ _ H _ _ He0) as Hn0. rewrite (total_delete _ _ _ k Hn) in Hn0.
      destruct ((0 <? _) && _ && _) eqn:Hc; [done|]. intros [= <-]. cbn. intros Hv0. rewrite (bool_decide_eq_true_2 _ Hv0), andb_true_r in Hc.
      pose proof (ch_empty _ _ _ H _ _ He0 Hv0).
      destruct (Z.ltb_spec 0 (Z.of_nat (passes K n k))), (Z.eqb_spec (sl_num e0 + - Z.of_nat (passes K n k)) 0); cbn in Hc; [done|lia..].
Qed.
End chains.
