(* ===== verification/RabbitRun.v ===== *)
(** * The rabbit store refines a map

    The methods of [Rabbit] on the caches and the trunk, related to the chains
    of short keys of [RabbitInv]: reads give what the map holds, writes change
    it, and the entries written back are the same table. *)
From S2P Require Import Prelude ByteOrder BTreeSpec StoreTypes Client.
From S2P Require Import CacheStore MergeIter RootSpec TrunkStore TrunkRun.
From S2P Require Import Rabbit RabbitInv.

Section rabbit_run.
Context {Ob T E R RI : Type} `{SO : !Serializable Ob, !SerializableLaws Ob, BO : !BTreeOps (Value Ob) T E, !BTreeLaws (Value Ob) T E}.
Context `{HR : !RootStoreOps Ob R RI, LR : !RootStoreLaws Ob R RI} (sha256 : bytes → bytes).
Notation CV := (CachedValue Ob).
Notation State := (SimpleMultiStore Ob T R).
Implicit Types (cv : CV) (K k : bytes) (base m : gmap bytes bytes) (c : gmap bytes (option bytes)) (ps : list prep) (σ : bytes → option slot) (e : slot).

(** The [i]-th short key of a key. *)
Definition sk K (i : nat) : bytes := short_key (Nat.iter (S i) sha256 K).
Hypothesis short_keys_ok : ∀ K i, rs_key_ok (R := R) (sk K i).
Notation stops := (stops sk).
Notation stops_first := (stops_first sk).
Notation chain := (chain sk).
Notation chains := (chains sk).

(** ** Entries and slots *)

Definition cv_slot cv : slot := mkSlot (cv_key cv) (passbyNum cv) (cv_value cv).
Definition slot_bytes e : bytes := cv_bytes (bool_decide (sl_val e = None)) (sl_num e) (sl_key e) (default [] (sl_val e)).
Definition slot_cv e : CV :=
  mkCachedValue (sl_num e) (sl_key e) (match sl_val e with Some v => Bytes (Some v) | None => Nil end) (bool_decide (sl_val e = None)) false false.

(** A key with its value can be stored, whatever passes by its slot. *)
Definition pair_ok K (o : option bytes) : Prop := zlen K < 2 ^ 32 ∧ ∀ num, 0 ≤ num < 2 ^ 64 →
  rs_value_ok (R := R) (cv_bytes true num K []) ∧ ∀ v, o = Some v → rs_value_ok (R := R) (cv_bytes false num K v).
Definition slot_ok e : Prop := 0 ≤ sl_num e < 2 ^ 64 ∧ pair_ok (sl_key e) (sl_val e).

Lemma slot_ok_value e : slot_ok e → rs_value_ok (R := R) (slot_bytes e).
Proof.
  intros [Hn [_ Hv]]. destruct (Hv _ Hn) as [H1 H2]. unfold slot_bytes. destruct (sl_val e) as [v|]; [by apply H2|done].
Qed.
Lemma slot_decode e : slot_ok e → BytesToCachedValue (slot_bytes e) = Ret (Some (slot_cv e)).
Proof.
  intros [Hn [Hk _]]. unfold slot_bytes, slot_cv. rewrite BytesToCachedValue_bytes; [|done|done|].
  - do 3 f_equal. by destruct (sl_val e).
  - by destruct (sl_val e).
Qed.
Lemma slot_cv_wf e : slot_ok e → cv_wf (slot_cv e).
Proof. intros [Hn [Hk _]]. split; [done|]. split; [done|]. unfold slot_cv. destruct e as [K n [v|]]; cbn; [by eexists|done]. Qed.
Lemma slot_cv_slot e : cv_slot (slot_cv e) = e.
Proof. destruct e as [K n [v|]]; done. Qed.

Lemma cv_empty cv : cv_wf cv → isEmpty cv = bool_decide (sl_val (cv_slot cv) = None).
Proof.
  intros (_ & _ & Ho). cbn. unfold cv_value. destruct (isEmpty cv); [done|]. specialize (Ho eq_refl).
  destruct (cv_obj cv) as [|[bz|]|o|]; try done. by destruct (ToBytes_slice o) as [? ->].
Qed.
Lemma cv_encode cv : cv_wf cv → CachedValue_ToBytes cv = Ret (slot_bytes (cv_slot cv)).
Proof. intros H. rewrite (proj1 (CachedValue_ToBytes_bytes cv H)). unfold slot_bytes. by rewrite <- cv_empty. Qed.

(** ** The table behind the caches *)

Definition prep_of k cv : prep := if isDeleted cv then PrepDeletion k else PrepUpdate k.
Definition cv_rep cv : option slot := if isDeleted cv then None else Some (cv_slot cv).

(** [o]: what the cache has for [k]; [stored]: what the trunk has; [se]: the slot. *)
Definition entry_at k (o : option (option CV)) (stored : option bytes) (se : option slot) ps : Prop :=
  match o with
  | None => stored = slot_bytes <$> se
  | Some None => False
  | Some (Some cv) => cv_wf cv ∧ se = cv_rep cv ∧
      if isDirty cv then prep_of k cv ∈ ps else isDeleted cv = false ∧ stored = slot_bytes <$> se
  end.

Record rabbit_at (s : State) base c ps σ : Prop := {
  ra_trunk : trunk_at (sms_trunk s) base c ps;
  ra_entry k : entry_at k (sms_cache s !! k) (overlay base c !! k) (σ k) ps;
  ra_slot k e : σ k = Some e → slot_ok e
}.

Definition cached (s : State) k : Prop := is_Some (sms_cache s !! k).
Definition used_of (s : State) : Z := rs_used (ts_root (sms_trunk s)).

(** What a search does to the state: entries are cached. *)
Definition grows (s s' : State) : Prop := (∀ k o, sms_cache s !! k = Some o → sms_cache s' !! k = Some o) ∧ used_of s' = used_of s.
Lemma grows_refl s : grows s s.
Proof. done. Qed.
Lemma grows_trans s1 s2 s3 : grows s1 s2 → grows s2 s3 → grows s1 s3.
Proof. intros [H1 L1] [H2 L2]. split; [auto|congruence]. Qed.
Lemma grows_cached s s' k : grows s s' → cached s k → cached s' k.
Proof. intros [H _] [o Ho]. exists o. auto. Qed.

(** The entry of an occupied slot that was looked at. *)
Lemma cached_entry s base c ps σ k e : rabbit_at s base c ps σ → cached s k → σ k = Some e →
  ∃ cv, sms_cache s !! k = Some (Some cv) ∧ cv_wf cv ∧ isDeleted cv = false ∧ cv_slot cv = e.
Proof.
  intros H [o Ho] He. pose proof (ra_entry _ _ _ _ _ H k) as Hk. rewrite Ho in Hk. destruct o as [cv|]; [|done].
  destruct Hk as (Hwf & Hr & _). exists cv. rewrite He in Hr. unfold cv_rep in Hr. destruct (isDeleted cv); [done|]. by injection Hr as <-.
Qed.
Lemma cached_free s base c ps σ k o : rabbit_at s base c ps σ → σ k = None → sms_cache s !! k = Some o →
  ∃ cv, o = Some cv ∧ isDeleted cv = true.
Proof.
  intros H He Ho. pose proof (ra_entry _ _ _ _ _ H k) as Hk. rewrite Ho in Hk. destruct o as [cv|]; [|done].
  destruct Hk as (_ & Hr & _). exists cv. split; [done|]. rewrite He in Hr. unfold cv_rep in Hr. by destruct (isDeleted cv).
Qed.

(** ** The methods of the multi store below *)


Lemma lookup_value_ok (s : State) k r : Simple_GetValue (sms_cache s) k = Ret r → lookup_value k s = Ret (r, s).
Proof. unfold lookup_value. by intros ->. Qed.

Lemma sms_trunk_zoom {A} (m : stM (TrunkStore T R) A) (s : State) x ts : m (sms_trunk s) = Ret (x, ts) →
  zoom sms_trunk_lens m s = Ret (x, mkSimpleMultiStore (sms_cache s) ts).
Proof. apply (zoom_Ret sms_trunk_lens m s). Qed.

Lemma SetValue_eq (sc : SimpleCacheStore (Ob := Ob)) k v : Simple_SetValue sc k v !! k = Some v.
Proof. exact (lookup_insert_eq (M := gmap bytes) sc k v). Qed.
Lemma SetValue_ne (sc : SimpleCacheStore (Ob := Ob)) k v k' : k' ≠ k → Simple_SetValue sc k v !! k' = sc !! k'.
Proof. intros H. exact (lookup_insert_ne (M := gmap bytes) sc k k' v (not_eq_sym H)). Qed.

(** What a lookup of a slot gives. *)
Definition looked (s' : State) k (se : option slot) (o : option CV) : Prop :=
  match se, o with
  | None, None => True
  | Some e, Some cv => sms_cache s' !! k = Some (Some cv) ∧ cv_wf cv ∧ isDeleted cv = false ∧ cv_slot cv = e
  | _, _ => False
  end.

Lemma GetCachedValue_ok s base c ps σ k : rabbit_at s base c ps σ →
  ∃ o s', GetCachedValue k s = Ret (o, s') ∧ rabbit_at s' base c ps σ ∧ grows s s' ∧ looked s' k (σ k) o.
Proof.
  intros H. unfold GetCachedValue. destruct (sms_cache s !! k) as [o|] eqn:Ho.
  - destruct (σ k) as [e|] eqn:He.
    + destruct (cached_entry _ _ _ _ _ _ _ H (ltac:(by eexists)) He) as (cv & Hc & Hwf & Hd & Hs). exists (Some cv), s.
      split_and!; [|done|apply grows_refl|done].
      erewrite stM_Ret; [|apply lookup_value_ok; unfold Simple_GetValue; rewrite Hc, Hd; done]. done.
    + destruct (cached_free _ _ _ _ _ _ _ H He Ho) as (cv & -> & Hd). exists None, s. split_and!; [|done|apply grows_refl|done].
      erewrite stM_Ret; [|apply lookup_value_ok; unfold Simple_GetValue; rewrite Ho, Hd; done]. done.
  - erewrite stM_Ret; [|apply lookup_value_ok; unfold Simple_GetValue; by rewrite Ho]. cbv beta iota.
    destruct (Trunk_Get_ok _ _ _ _ k (ra_trunk _ _ _ _ _ H)) as (ts' & E1 & Hsame).
    erewrite stM_Ret; [|by apply sms_trunk_zoom]. pose proof (ra_entry _ _ _ _ _ H k) as Hk. rewrite Ho in Hk. cbn in Hk. rewrite Hk.
    assert (rabbit_at (mkSimpleMultiStore (sms_cache s) ts') base c ps σ) as H'.
    { destruct H. split; [by eapply trunk_at_same|done|done]. }
    assert (rs_used (ts_root ts') = used_of s) as Hl by (apply (rs_used_same (ts_root (sms_trunk s))); apply Hsame).
    destruct (σ k) as [e|] eqn:He; cbn [fmap option_fmap option_map].
    + pose proof (ra_slot _ _ _ _ _ H _ _ He) as Hok. unfold mbind at 1, stM_bind, st_lift. rewrite slot_decode by done. cbn [mbind outcome_bind].
      exists (Some (slot_cv e)). eexists. split; [reflexivity|]. split_and!.
      * split; [apply (ra_trunk _ _ _ _ _ H')| |apply (ra_slot _ _ _ _ _ H)]. intros k'. cbn [sms_cache]. destruct (decide (k' = k)) as [->|Hne].
        -- rewrite SetValue_eq, He. cbn. split; [by apply slot_cv_wf|]. unfold cv_rep. cbn. by rewrite slot_cv_slot.
        -- rewrite SetValue_ne by done. apply (ra_entry _ _ _ _ _ H).
      * split; [|done]. intros k' o' Ho'. cbn. by rewrite SetValue_ne by congruence.
      * cbn [looked sms_cache]. rewrite SetValue_eq. split_and!; [done|by apply slot_cv_wf|done|apply slot_cv_slot].
    + exists None. eexists. split; [reflexivity|]. split_and!; [done|done|done].
Qed.

Lemma MustGetCachedValue_ok s base c ps σ k e : rabbit_at s base c ps σ → cached s k → σ k = Some e →
  ∃ cv, MustGetCachedValue k s = Ret (cv, s) ∧ cv_wf cv ∧ isDeleted cv = false ∧ cv_slot cv = e.
Proof.
  intros H Hc He. destruct (cached_entry _ _ _ _ _ _ _ H Hc He) as (cv & Hcv & Hwf & Hd & Hs). exists cv. split_and!; [|done..].
  unfold MustGetCachedValue. erewrite stM_Ret; [|apply lookup_value_ok; unfold Simple_GetValue; rewrite Hcv, Hd; done]. done.
Qed.

Lemma entry_at_mono k o stored se ps p : entry_at k o stored se ps → entry_at k o stored se (ps ++ [p]).
Proof.
  destruct o as [[cv|]|]; [|done|done]. intros (H1 & H2 & H3). split; [done|]. split; [done|]. destruct (isDirty cv); [|done].
  apply elem_of_app. by left.
Qed.

Lemma SetCachedValue_ok s base c ps σ k cv : rabbit_at s base c ps σ → rs_key_ok (R := R) k → cv_wf cv →
  (isDeleted cv = false → slot_ok (cv_slot cv)) →
  ∃ s', SetCachedValue k cv s = Ret (tt, s') ∧ rabbit_at s' base c (ps ++ [prep_of k cv]) (set_slot σ k (cv_rep cv)) ∧
    used_of s' = used_of s ∧ ∀ k', cached s k' ∨ k' = k → cached s' k'.
Proof.
  intros H Hk Hwf Hok. destruct (trunk_prepare_ok _ _ _ _ (prep_of k cv) (ra_trunk _ _ _ _ _ H)) as (ts' & E1 & Ht & Hl).
  { unfold prep_of. by destruct (isDeleted cv). }
  exists (mkSimpleMultiStore (Simple_SetValue (sms_cache s) k (Some (set_isDirty cv true))) ts'). split_and!.
  - unfold SetCachedValue. cbv zeta. unfold mbind at 1, stM_bind, store_value. cbn [mbind outcome_bind].
    unfold prep_of in E1. cbn [set_isDirty isDeleted]. destruct (isDeleted cv); exact (sms_trunk_zoom _ (mkSimpleMultiStore _ _) _ _ E1).
  - split; [done| |].
    + intros k'. cbn [sms_cache]. destruct (decide (k' = k)) as [->|Hne].
      * rewrite SetValue_eq, set_slot_eq. cbn. split; [done|]. split; [done|]. apply elem_of_app. right. by left.
      * rewrite SetValue_ne, set_slot_ne by done. by apply entry_at_mono, (ra_entry _ _ _ _ _ H).
    + intros k' e. destruct (decide (k' = k)) as [->|Hne]; [rewrite set_slot_eq|rewrite set_slot_ne by done; apply (ra_slot _ _ _ _ _ H)].
      unfold cv_rep. destruct (isDeleted cv); [done|]. intros [= <-]. by apply Hok.
  - done.
  - intros k' Hk'. unfold cached. cbn [sms_cache]. destruct (decide (k' = k)) as [->|Hne]; [by rewrite SetValue_eq; eexists|].
    rewrite SetValue_ne by done. by destruct Hk'.
Qed.

(** ** Searching *)

(** What [find] answers for the slot it stops at. *)
Definition found K (s' : State) k (se : option slot) (o : option CV) (status : FindStatus) : Prop :=
  looked s' k se o ∧ status = match se with
    | Some e => if decide (sl_key e = K) then if sl_val e then Exists else EmptySlot else NotFount
    | None => NotFount
    end.

Lemma chain_of_S K i : chain K i ++ [sk K i] = chain K (S i).
Proof. symmetry. apply chain_S. Qed.

Lemma find_from_ok n : ∀ i s base c ps σ K (early : bool), (i + n = MaxFindDepth)%nat → rabbit_at s base c ps σ →
  (∀ j, (j < i)%nat → ¬ stops σ early K j ∧ cached s (sk K j)) →
  (∃ idx o status s', (idx < MaxFindDepth)%nat ∧ stops_first σ early K idx ∧
     find_from sha256 n (Nat.iter (S i) sha256 K) K early (chain K i) s = Ret ((o, chain K (S idx), status), s') ∧
     rabbit_at s' base c ps σ ∧ grows s s' ∧ (∀ j, (j < idx)%nat → cached s' (sk K j)) ∧ found K s' (sk K idx) (σ (sk K idx)) o status) ∨
  ((∀ j, (j < MaxFindDepth)%nat → ¬ stops σ early K j) ∧
     find_from sha256 n (Nat.iter (S i) sha256 K) K early (chain K i) s = Panic "MaxFindDepth reached!").
Proof.
  induction n as [|n IH]; intros i s base c ps σ K early Hi H Hpre.
  { right. split; [|done]. intros j Hj. apply Hpre. lia. }
  cbn [find_from]. cbv zeta. change (short_key (Nat.iter (S i) sha256 K)) with (sk K i). rewrite chain_of_S.
  destruct (GetCachedValue_ok s base c ps σ (sk K i) H) as (o & s1 & E1 & H1 & G1 & L1). rewrite (stM_Ret _ _ _ _ _ E1).
  assert (∀ st, stops σ early K i → found K s1 (sk K i) (σ (sk K i)) o st → ∃ idx o' status s', (idx < MaxFindDepth)%nat ∧ stops_first σ early K idx ∧
    Ret ((o, chain K (S i), st), s1) = Ret ((o', chain K (S idx), status), s') ∧ rabbit_at s' base c ps σ ∧ grows s s' ∧
    (∀ j, (j < idx)%nat → cached s' (sk K j)) ∧ found K s' (sk K idx) (σ (sk K idx)) o' status) as Hstop.
  { intros st Hs Hf. exists i, o, st, s1. split_and!; [lia| |done..| |done]; [split; [done|apply Hpre]|].
    intros j Hj. eapply grows_cached; [done|by apply Hpre]. }
  unfold looked in L1. destruct (σ (sk K i)) as [e|] eqn:He; destruct o as [cv|]; try done.
  - destruct L1 as (Hc & Hwf & Hd & Hs). pose proof (cv_empty cv Hwf) as Hemp. rewrite Hs in Hemp.
    assert (cv_key cv = sl_key e) as -> by by rewrite <- Hs. assert (passbyNum cv = sl_num e) as -> by by rewrite <- Hs.
    destruct (decide (sl_key e = K)) as [Hk|Hk].
    + rewrite bool_decide_eq_true_2 by done. left. apply Hstop; [unfold RabbitInv.stops; rewrite He; by left|]. split; [done|].
      rewrite decide_True, Hemp by done. by destruct (sl_val e).
    + rewrite bool_decide_eq_false_2 by done. destruct (early && (sl_num e =? 0)) eqn:Hex.
      * apply andb_true_iff in Hex as [-> H0%Z.eqb_eq]. left. apply Hstop; [unfold RabbitInv.stops; rewrite He; by right|]. split; [done|]. by rewrite decide_False.
      * change (sha256 (Nat.iter (S i) sha256 K)) with (Nat.iter (S (S i)) sha256 K).
        destruct (IH (S i) s1 base c ps σ K early) as [(idx & o & st & s2 & Hidx & Hf & E2 & H2 & G2 & C2 & F2)|[Hno E2]]; [lia|done| | |by right].
        { intros j Hj. destruct (decide (j = i)) as [->|Hne]; [|split; [apply Hpre; lia|eapply grows_cached; [done|]; apply Hpre; lia]].
          split; [|by exists (Some cv)]. unfold RabbitInv.stops. rewrite He. intros [?|[-> H0]]; [done|]. by rewrite H0 in Hex. }
        left. exists idx, o, st, s2. split_and!; [done|done|done|done|by eapply grows_trans|done|done].
  - left. apply Hstop; [unfold RabbitInv.stops; by rewrite He|done].
Qed.

(** The search for a key stops at the first slot where [stops], and panics
    exactly when there is none. *)
Lemma find_ok s base c ps σ K (early : bool) : rabbit_at s base c ps σ →
  (∃ idx o status s', (idx < MaxFindDepth)%nat ∧ stops_first σ early K idx ∧
     find sha256 K early s = Ret ((o, chain K (S idx), status), s') ∧
     rabbit_at s' base c ps σ ∧ grows s s' ∧ (∀ j, (j < idx)%nat → cached s' (sk K j)) ∧ found K s' (sk K idx) (σ (sk K idx)) o status) ∨
  ((∀ j, (j < MaxFindDepth)%nat → ¬ stops σ early K j) ∧ find sha256 K early s = Panic "MaxFindDepth reached!").
Proof. intros H. apply (find_from_ok MaxFindDepth 0); [done|done|]. intros j Hj. lia. Qed.

Lemma stops_first_unique σ early K n n' : stops_first σ early K n → stops_first σ early K n' → n = n'.
Proof.
  intros [H1 H2] [H1' H2']. destruct (lt_eq_lt_dec n n') as [[Hl| ->]|Hl]; [by destruct (H2' _ Hl)|done|by destruct (H2 _ Hl)].
Qed.

(** ** The loops over the path *)

Lemma incr_passby_ok path : ∀ s base c ps σ, rabbit_at s base c ps σ →
  (∀ k, k ∈ path → rs_key_ok (R := R) k ∧ cached s k ∧ is_Some (σ k)) → (∀ k e, σ k = Some e → sl_num e + zlen path < 2 ^ 64) →
  ∃ s' ps', incr_passby path s = Ret (tt, s') ∧ rabbit_at s' base c (ps ++ ps') (foldl incr_slot σ path) ∧ used_of s' = used_of s ∧
    zlen ps' = zlen path ∧ ∀ k, cached s k → cached s' k.
Proof.
  induction path as [|k path IH]; intros s base c ps σ H Hp Hn.
  { exists s, []. rewrite app_nil_r. split_and!; done. }
  destruct (Hp k) as (Hk & Hc & [e He]); [by left|]. rewrite zlen_cons in Hn. pose proof (Hn _ _ He). pose proof (zlen_nonneg path).
  destruct (MustGetCachedValue_ok _ _ _ _ _ _ _ H Hc He) as (cv & E1 & Hwf & Hd & Hs).
  destruct (ra_slot _ _ _ _ _ H _ _ He) as [Hne Hpo].
  assert (to_uint64 (passbyNum cv + 1) = sl_num e + 1) as Hadd by (rewrite <- Hs; cbn; unfold to_uint64, to_uint; rewrite <- Hs in *; cbn in *; rewrite Z.mod_small by lia; done).
  destruct (SetCachedValue_ok s base c ps σ k (set_num cv (to_uint64 (passbyNum cv + 1))) H Hk) as (s1 & E2 & H2 & L2 & C2).
  { rewrite Hadd. destruct Hwf as (_ & ?). split; [cbn; lia|done]. }
  { intros _. rewrite Hadd. split; [cbn; lia|]. rewrite <- Hs in Hpo. exact Hpo. }
  assert (cv_rep (set_num cv (to_uint64 (passbyNum cv + 1))) = Some (add_num 1 e)) as Hrep.
  { unfold cv_rep. cbn [set_num isDeleted]. rewrite Hd, Hadd. unfold add_num. by rewrite <- Hs. }
  rewrite Hrep in H2.
  destruct (IH s1 base c _ _ H2) as (s2 & ps2 & E3 & H3 & L3 & Hz & C3).
  - intros k' Hk'. destruct (Hp k') as (? & ? & Hsome); [by right|]. split_and!; [done|apply C2; by left|].
    destruct (decide (k' = k)) as [->|]; [by rewrite set_slot_eq; eexists|by rewrite set_slot_ne].
  - intros k' e'. destruct (decide (k' = k)) as [->|]; [rewrite set_slot_eq; intros [= <-]; cbn; lia|].
    rewrite set_slot_ne by done. intros He'. specialize (Hn _ _ He'). lia.
  - eexists s2, (_ :: ps2). split_and!.
    + cbn [incr_passby]. rewrite (stM_Ret _ _ _ _ _ E1), (stM_Ret _ _ _ _ _ E2). exact E3.
    + rewrite <- app_assoc in H3. cbn [foldl]. unfold incr_slot at 2. by rewrite He.
    + congruence.
    + by rewrite !zlen_cons, Hz.
    + intros k' Hk'. apply C3, C2. by left.
Qed.

(** How often a path visits a slot. *)
Definition visits k (path : list bytes) : nat := length (filter (λ x, x = k) path).
Lemma visits_chain K n k : visits k (chain K n) = passes sk K n k.
Proof.
  unfold visits, passes, RabbitInv.chain. generalize (seq 0 n). intros l. induction l as [|i l IH]; [done|]. cbn [fmap list_fmap].
  rewrite !filter_cons. change (list_fmap _ _ (sk K) l) with (sk K <$> l). destruct (decide (sk K i = k)); cbn; by rewrite IH.
Qed.

Lemma decr_passby_ok path : ∀ s base c ps σ, rabbit_at s base c ps σ →
  (∀ k, k ∈ path → rs_key_ok (R := R) k ∧ cached s k ∧ ∃ e, σ k = Some e ∧ Z.of_nat (visits k path) ≤ sl_num e) →
  ∃ s' ps', decr_passby path s = Ret (tt, s') ∧ rabbit_at s' base c (ps ++ ps') (foldl decr_slot σ path) ∧ used_of s' = used_of s ∧
    zlen ps' = zlen path ∧ ∀ k, cached s k → cached s' k.
Proof.
  induction path as [|k path IH]; intros s base c ps σ H Hp.
  { exists s, []. rewrite app_nil_r. split_and!; done. }
  destruct (Hp k) as (Hk & Hc & e & He & Hv); [by left|].
  assert (visits k (k :: path) = S (visits k path)) as Hvk by (unfold visits; by rewrite filter_cons_True).
  destruct (MustGetCachedValue_ok _ _ _ _ _ _ _ H Hc He) as (cv & E1 & Hwf & Hd & Hs).
  destruct (ra_slot _ _ _ _ _ H _ _ He) as [Hne Hpo].
  assert (to_uint64 (passbyNum cv - 1) = sl_num e - 1) as Hsub by (rewrite <- Hs; cbn; unfold to_uint64, to_uint; rewrite <- Hs in *; cbn in *; rewrite Z.mod_small by lia; done).
  set (cv' := set_num cv (to_uint64 (passbyNum cv - 1))) in *.
  set (cv2 := if (passbyNum cv' =? 0) && isEmpty cv' then set_isDeleted cv' true else cv').
  assert (cv_rep cv2 = (let e := add_num (-1) e in if (sl_num e =? 0) && bool_decide (sl_val e = None) then None else Some e)) as Hrep.
  { unfold cv2, cv'. cbn [set_num passbyNum isEmpty]. rewrite Hsub, (cv_empty cv Hwf), Hs. cbv zeta. cbn [add_num sl_num sl_val].
    change (sl_num e + -1) with (sl_num e - 1). destruct ((sl_num e - 1 =? 0) && bool_decide (sl_val e = None)); [done|].
    unfold cv_rep. cbn [set_num isDeleted]. rewrite Hd. unfold add_num. by rewrite <- Hs. }
  assert (slot_ok (add_num (-1) e)) as Hok by (split; [cbn; lia|exact Hpo]).
  destruct (SetCachedValue_ok s base c ps σ k cv2 H Hk) as (s1 & E2 & H2 & L2 & C2).
  { destruct Hwf as (_ & ?). unfold cv2. destruct (_ && _); (split; [cbn; rewrite Hsub; lia|done]). }
  { intros Hd2. unfold cv_rep in Hrep. rewrite Hd2 in Hrep. cbv zeta in Hrep. destruct ((sl_num (add_num (-1) e) =? 0) && bool_decide (sl_val (add_num (-1) e) = None)); [done|]. by rewrite (inj Some _ _ Hrep). }
  rewrite Hrep in H2.
  destruct (IH s1 base c _ _ H2) as (s2 & ps2 & E3 & H3 & L3 & Hz & C3).
  - intros k' Hk'. destruct (Hp k') as (? & ? & e' & He' & Hv'); [by right|]. split_and!; [done|apply C2; by left|].
    destruct (decide (k' = k)) as [->|Hkk]; [|rewrite set_slot_ne by done; exists e'; split; [done|]; unfold visits in *; by rewrite filter_cons_False in Hv' by done].
    assert (0 < visits k path)%nat by (unfold visits; destruct (filter (λ x, x = k) path) eqn:Ef; [|cbn; lia];
      assert (k ∈ filter (λ x, x = k) path) as Hin by (by apply list_elem_of_filter); rewrite Ef in Hin; by apply not_elem_of_nil in Hin).
    rewrite set_slot_eq. cbv zeta. exists (add_num (-1) e). cbn [add_num sl_num sl_val]. split; [|lia].
    destruct (Z.eqb_spec (sl_num e + -1) 0); [lia|done].
  - eexists s2, (_ :: ps2). split_and!.
    + cbn [decr_passby]. rewrite (stM_Ret _ _ _ _ _ E1), (stM_Ret _ _ _ _ _ E2). exact E3.
    + rewrite <- app_assoc in H3. cbn [foldl]. unfold decr_slot at 2. by rewrite He.
    + congruence.
    + by rewrite !zlen_cons, Hz.
    + intros k' Hk''. apply C3, C2. by left.
Qed.

(** ** Writing *)

Lemma last_chain K n : last_key (chain K (S n)) = sk K n.
Proof. rewrite chain_S. apply List.last_last. Qed.
Lemma removelast_chain K n : removelast (chain K (S n)) = chain K n.
Proof. rewrite chain_S. apply removelast_last. Qed.
Lemma zlen_chain K n : zlen (chain K n) = Z.of_nat n.
Proof. unfold zlen, RabbitInv.chain. by rewrite length_fmap, length_seq. Qed.

(** All the slots a key may use are taken by other keys. *)
Definition taken σ (early : bool) K : Prop := ∀ j, (j < MaxFindDepth)%nat → ¬ stops σ early K j.

Definition obj_value (o : any Ob) : option bytes := match o with Bytes bz => bz | Object o => ToBytes o | _ => None end.

Lemma looked_cached s k se o e : looked s k se o → se = Some e → cached s k.
Proof. unfold looked. intros H ->. destruct o as [cv|]; [|done]. exists (Some cv). apply H. Qed.

(** An entry is put into its slot, then the slots before it count it. *)
Lemma insert_ok s base c ps σ pos m K n cv num v : rabbit_at s base c ps σ → chains σ pos m → m !! K = None → (n < 100)%nat →
  (∀ i, (i < n)%nat → ¬ stops σ false K i ∧ cached s (sk K i)) →
  match σ (sk K n) with None => num = 0 | Some e => sl_key e = K ∧ num = sl_num e end →
  cv_wf cv → cv_rep cv = Some (mkSlot K num (Some v)) → pair_ok K (Some v) → 100 * (Z.of_nat (size m) + 1) < 2 ^ 64 →
  ∃ s' ps' σ' pos', (_ ← SetCachedValue (sk K n) cv; incr_passby (chain K n)) s = Ret (tt, s') ∧ rabbit_at s' base c (ps ++ ps') σ' ∧
    chains σ' pos' (<[K := v]> m) ∧ used_of s' = used_of s ∧ zlen ps' ≤ 100.
Proof.
  intros H Hch Hm Hn Hpre Hslot Hwf Hrep Hpo Hsz.
  assert (0 ≤ num ≤ 100 * Z.of_nat (size m)) as Hnum.
  { destruct (σ (sk K n)) as [e|] eqn:He; [|lia]. destruct Hslot as [_ ->]. by apply (chains_num_bound _ _ _ _ _ _ Hch He). }
  destruct (SetCachedValue_ok s base c ps σ (sk K n) cv H (short_keys_ok K n) Hwf) as (s1 & E1 & H1 & L1 & C1).
  { intros Hd. unfold cv_rep in Hrep. rewrite Hd in Hrep. rewrite (inj Some _ _ Hrep). split; [cbn; lia|exact Hpo]. }
  rewrite Hrep in H1.
  assert (∀ i, (i < n)%nat → ∃ e, σ (sk K i) = Some e ∧ sl_key e ≠ K) as Hbefore.
  { intros i Hi. destruct (Hpre i Hi) as [Hs _]. unfold RabbitInv.stops in Hs. destruct (σ (sk K i)) as [e|]; [|by destruct Hs].
    exists e. split; [done|]. intros Hk. apply Hs. by left. }
  destruct (incr_passby_ok (chain K n) s1 _ _ _ _ H1) as (s2 & ps2 & E2 & H2 & L2 & Hz & _).
  - intros k (i & Hi & <-)%elem_of_chain. split_and!; [done|apply C1; left; by apply Hpre|].
    destruct (decide (sk K i = sk K n)) as [->|Hne]; [by rewrite set_slot_eq; eexists|].
    rewrite set_slot_ne by done. destruct (Hbefore i Hi) as (e & -> & _). by eexists.
  - intros k e. rewrite zlen_chain. destruct (decide (k = sk K n)) as [->|Hne]; [rewrite set_slot_eq; intros [= <-]; cbn; lia|].
    rewrite set_slot_ne by done. intros He. pose proof (chains_num_bound _ _ _ _ _ _ Hch He). lia.
  - eexists s2, (prep_of (sk K n) cv :: ps2), _, (<[K := n]> pos). split_and!.
    + rewrite (stM_Ret _ _ _ _ _ E1). exact E2.
    + rewrite <- app_assoc in H2. exact H2.
    + by apply chains_insert.
    + congruence.
    + rewrite zlen_cons, Hz, zlen_chain. lia.
Qed.

Lemma setHelper_ok s base c ps σ pos m K o v : rabbit_at s base c ps σ → chains σ pos m →
  obj_value o = Some v → pair_ok K (Some v) → 100 * (Z.of_nat (size m) + 1) < 2 ^ 64 →
  (∃ s' ps' σ' pos', setHelper sha256 K o s = Ret (tt, s') ∧ rabbit_at s' base c (ps ++ ps') σ' ∧ chains σ' pos' (<[K := v]> m) ∧
     used_of s' = used_of s ∧ zlen ps' ≤ 100) ∨
  (setHelper sha256 K o s = Panic "MaxFindDepth reached!" ∧ m !! K = None ∧ taken σ false K).
Proof.
  intros H Hch Hv Hpo Hsz. unfold setHelper.
  assert (∀ num (em d b : bool), 0 ≤ num < 2 ^ 64 → cv_wf (mkCachedValue num K o em d b)) as Hwf.
  { intros num em d b Hnum. split; [done|]. split; [apply Hpo|]. intros _. cbn. destruct o as [|bz|o|]; try done. }
  assert (∀ num (d b : bool), cv_slot (mkCachedValue num K o false d b) = mkSlot K num (Some v)) as Hslot.
  { intros num d b. unfold cv_slot, cv_value. cbn. f_equal. by destruct o. }
  destruct (find_ok s base c ps σ K false H) as [(n & o1 & st & s1 & Hn & Hf & E1 & H1 & [G1 L1] & C1 & Hlook & Hst)|[Hno E1]].
  2: { right. split_and!; [by apply stM_Panic| |done]. apply eq_None_not_Some. intros [w Hw].
       destruct (stops_present sk _ _ _ false _ _ Hch Hw) as (n & e & Hn & _ & [Hs _] & _). by apply (Hno n). }
  left. rewrite (stM_Ret _ _ _ _ _ E1). cbv beta iota zeta. rewrite last_chain, removelast_chain. rewrite <- L1.
  destruct (m !! K) as [w|] eqn:Hm.
  - destruct (stops_present sk _ _ _ false _ _ Hch Hm) as (n' & e & _ & Hpos & Hf' & He & Hk & Hw).
    rewrite (stops_first_unique _ _ _ _ _ Hf' Hf) in *. rewrite He, decide_True, Hw in Hst by done. subst st.
    destruct (MustGetCachedValue_ok _ _ _ _ _ _ _ H1 (looked_cached _ _ _ _ _ Hlook He) He) as (cv & E2 & Hcw & Hd & Hs).
    pose proof (cv_empty cv Hcw) as Hemp. rewrite Hs, Hw in Hemp. destruct cv as [num k o0 em d b]. cbn in Hd, Hemp. subst em d.
    assert (k = K ∧ num = sl_num e) as [-> ->] by by rewrite <- Hs, <- Hk, <- Hs.
    destruct (ra_slot _ _ _ _ _ H1 _ _ He) as [Hne _].
    destruct (SetCachedValue_ok s1 base c ps σ (sk K n) (mkCachedValue (sl_num e) K o false false b) H1 (short_keys_ok K n)) as (s2 & E3 & H3 & L3 & _).
    { by apply Hwf. } { intros _. rewrite Hslot. by split. }
    eexists s2, [_], _, pos. split_and!; [|exact H3| |done|done].
    + rewrite (stM_Ret _ _ _ _ _ E2). exact E3.
    + unfold cv_rep. cbn [isDeleted]. rewrite Hslot. eapply chains_change; done.
  - pose proof (stops_absent sk _ _ _ _ _ _ Hch Hm Hf) as Habs. destruct Hf as [Hs1 Hs2].
    assert (∀ i, (i < n)%nat → ¬ stops σ false K i ∧ cached s1 (sk K i)) as Hpre by auto.
    destruct (σ (sk K n)) as [e|] eqn:He.
    + destruct Habs as [[Hk Hw]|(_ & ? & _)]; [|done]. rewrite decide_True, Hw in Hst by done. subst st.
      destruct (MustGetCachedValue_ok _ _ _ _ _ _ _ H1 (looked_cached _ _ _ _ _ Hlook eq_refl) He) as (cv & E2 & Hcw & Hd & Hs).
      destruct (ra_slot _ _ _ _ _ H1 _ _ He) as [Hne _]. destruct cv as [num k o0 em d b]. cbn in Hd. subst d.
      assert (num = sl_num e) as -> by by rewrite <- Hs.
      rewrite (stM_Ret _ _ _ _ _ E2). eapply (insert_ok s1 base c ps σ pos m K n _ (sl_num e)); [done..|by rewrite He|by apply Hwf| |done|done].
      exact (f_equal Some (Hslot _ _ _)).
    + subst st. eapply (insert_ok s1 base c ps σ pos m K n _ 0); [done..|by rewrite He|by apply Hwf| |done|done].
      exact (f_equal Some (Hslot _ _ _)).
Qed.

Lemma Delete_ok s base c ps σ pos m K : rabbit_at s base c ps σ → chains σ pos m →
  (∃ s' ps' σ' pos', Rabbit_Delete sha256 K s = Ret (tt, s') ∧ rabbit_at s' base c (ps ++ ps') σ' ∧ chains σ' pos' (delete K m) ∧
     used_of s' = used_of s ∧ zlen ps' ≤ 100) ∨
  (Rabbit_Delete sha256 K s = Panic "MaxFindDepth reached!" ∧ m !! K = None ∧ taken σ true K).
Proof.
  intros H Hch. unfold Rabbit_Delete.
  destruct (find_ok s base c ps σ K true H) as [(n & o1 & st & s1 & Hn & Hf & E1 & H1 & [G1 L1] & C1 & Hlook & Hst)|[Hno E1]].
  2: { right. split_and!; [by apply stM_Panic| |done]. apply eq_None_not_Some. intros [w Hw].
       destruct (stops_present sk _ _ _ true _ _ Hch Hw) as (n & e & Hn & _ & [Hs _] & _). by apply (Hno n). }
  left. rewrite (stM_Ret _ _ _ _ _ E1). cbv beta iota zeta. rewrite last_chain, removelast_chain. rewrite <- L1.
  destruct (m !! K) as [w|] eqn:Hm.
  - destruct (stops_present sk _ _ _ true _ _ Hch Hm) as (n' & e & _ & Hpos & Hf' & He & Hk & Hw).
    rewrite (stops_first_unique _ _ _ _ _ Hf' Hf) in *. rewrite He, decide_True, Hw in Hst by done. subst st.
    destruct (MustGetCachedValue_ok _ _ _ _ _ _ _ H1 (looked_cached _ _ _ _ _ Hlook He) He) as (cv & E2 & Hcw & Hd & Hs).
    destruct (ra_slot _ _ _ _ _ H1 _ _ He) as [Hne Hpo]. assert (passbyNum cv = sl_num e) as Hnum by by rewrite <- Hs.
    set (cv2 := if passbyNum cv =? 0 then set_isDeleted cv true else set_isEmpty cv true).
    assert (cv_rep cv2 = if sl_num e =? 0 then None else Some (mkSlot K (sl_num e) None)) as Hrep.
    { unfold cv2. rewrite Hnum. destruct (sl_num e =? 0); [done|]. unfold cv_rep. cbn [set_isEmpty isDeleted]. rewrite Hd.
      unfold cv_slot. cbn. rewrite Hnum, <- Hk, <- Hs. done. }
    destruct (SetCachedValue_ok s1 base c ps σ (sk K n) cv2 H1 (short_keys_ok K n)) as (s2 & E3 & H3 & L3 & C3).
    { unfold cv2. destruct Hcw as (? & ? & ?). destruct (_ =? 0); (split; [done|by split]). }
    { intros Hd2. unfold cv_rep in Hrep. rewrite Hd2 in Hrep. destruct (sl_num e =? 0); [done|]. rewrite (inj Some _ _ Hrep).
      split; [done|]. destruct Hpo as [Hkl Hpo]. split; [by rewrite <- Hk|]. cbn. intros num Hr. split; [|done]. rewrite <- Hk. by apply Hpo. }
    rewrite Hrep in H3.
    destruct (decr_passby_ok (chain K n) s2 _ _ _ _ H3) as (s3 & ps3 & E4 & H4 & L4 & Hz & _).
    { intros k (i & Hi & <-)%elem_of_chain. split_and!; [done|apply C3; left; by apply C1|].
      destruct (ch_before _ _ _ _ Hch _ _ _ Hpos Hi) as (e' & He' & Hk'). exists e'. rewrite set_slot_ne.
      2: { intros Heq. rewrite Heq in He'. congruence. }
      split; [done|]. rewrite visits_chain, (ch_num _ _ _ _ Hch _ _ He'). pose proof (total_ge sk pos K n (sk K i) Hpos). lia. }
    eexists s3, (_ :: ps3), _, (delete K pos). split_and!.
    + rewrite (stM_Ret _ _ _ _ _ E2), (stM_Ret _ _ _ _ _ E3). exact E4.
    + rewrite <- app_assoc in H4. exact H4.
    + by eapply chains_delete.
    + congruence.
    + rewrite zlen_cons, Hz, zlen_chain. change MaxFindDepth with 100%nat in Hn. lia.
  - assert (st ≠ Exists) as Hne.
    { pose proof (stops_absent sk _ _ _ _ _ _ Hch Hm Hf) as Habs. subst st. destruct (σ (sk K n)) as [e|]; [|done].
      destruct Habs as [[-> ->]|(Hk & _)]; [by rewrite decide_True|by rewrite decide_False]. }
    exists s1, [], σ, pos. rewrite app_nil_r, delete_id by done. split_and!; [by destruct st|done|done|done|done].
Qed.

(** ** Reading *)

(** What the reading methods find: the entry of a key that the map has. *)
Lemma find_reads s base c ps σ pos m K : rabbit_at s base c ps σ → chains σ pos m →
  (∃ o path status s', find sha256 K true s = Ret ((o, path, status), s') ∧ rabbit_at s' base c ps σ ∧ used_of s' = used_of s ∧
     match m !! K with Some v => status = Exists ∧ ∃ cv, o = Some cv ∧ obj_value (cv_obj cv) = Some v | None => status ≠ Exists end) ∨
  (find sha256 K true s = Panic "MaxFindDepth reached!" ∧ m !! K = None ∧ taken σ true K).
Proof.
  intros H Hch. destruct (find_ok s base c ps σ K true H) as [(n & o & st & s1 & Hn & Hf & E1 & H1 & [G1 L1] & C1 & Hlook & Hst)|[Hno E1]].
  2: { right. split_and!; [done| |done]. apply eq_None_not_Some. intros [w Hw].
       destruct (stops_present sk _ _ _ true _ _ Hch Hw) as (n & e & Hn & _ & [Hs _] & _). by apply (Hno n). }
  left. exists o, (chain K (S n)), st, s1. split_and!; [done..|]. destruct (m !! K) as [v|] eqn:Hm.
  - destruct (stops_present sk _ _ _ true _ _ Hch Hm) as (n' & e & _ & Hpos & Hf' & He & Hk & Hv).
    rewrite (stops_first_unique _ _ _ _ _ Hf' Hf) in *. rewrite He, decide_True, Hv in Hst by done. split; [done|].
    rewrite He in Hlook. destruct o as [cv|]; [|done]. destruct Hlook as (_ & Hwf & _ & Hs). exists cv. split; [done|].
    pose proof (cv_empty cv Hwf) as Hemp. rewrite Hs, Hv in Hemp. rewrite <- Hs in Hv. cbn in Hv. unfold cv_value in Hv. by rewrite Hemp in Hv.
  - pose proof (stops_absent sk _ _ _ _ _ _ Hch Hm Hf) as Habs. subst st. destruct (σ (sk K n)) as [e|]; [|done].
    destruct Habs as [[-> ->]|(Hk & _)]; [by rewrite decide_True|by rewrite decide_False].
Qed.

(** All the slots of a key hold other keys: the only state in which the
    methods panic. *)
Definition full (s : State) K : Prop := ∀ j, (j < MaxFindDepth)%nat →
  ∃ cv s', GetCachedValue (sk K j) s = Ret (Some cv, s') ∧ cv_key cv ≠ K.
Lemma taken_full s base c ps σ (early : bool) K : rabbit_at s base c ps σ → taken σ early K → full s K.
Proof.
  intros H Ht j Hj. specialize (Ht j Hj). destruct (GetCachedValue_ok s base c ps σ (sk K j) H) as (o & s' & E1 & _ & _ & L).
  unfold RabbitInv.stops in Ht. unfold looked in L. destruct (σ (sk K j)) as [e|]; [|by destruct Ht]. destruct o as [cv|]; [|done].
  exists cv, s'. split; [done|]. destruct L as (_ & _ & _ & <-). intros Hk. apply Ht. by left.
Qed.

(** A read gives what the map has, and keeps the table; or the key is not in
    the map and all its slots are taken. *)
Definition reads_map {A} (m : stM State A) (s : State) (a : A) (Q : State → Prop) (absent : Prop) : Prop :=
  (∃ s', m s = Ret (a, s') ∧ Q s') ∨ (m s = Panic "MaxFindDepth reached!" ∧ absent).

Lemma Rabbit_Get_ok s base c ps σ pos m K : rabbit_at s base c ps σ → chains σ pos m →
  reads_map (Rabbit_Get sha256 K) s (m !! K) (λ s', rabbit_at s' base c ps σ ∧ used_of s' = used_of s) (m !! K = None ∧ full s K).
Proof.
  intros H Hch. unfold Rabbit_Get. destruct (find_reads s base c ps σ pos m K H Hch) as [(o & path & st & s' & E1 & H1 & L1 & Hm)|(E1 & Hm & Ht)].
  2: { right. split; [by apply stM_Panic|]. split; [done|by eapply taken_full]. }
  left. exists s'. split; [|done]. rewrite (stM_Ret _ _ _ _ _ E1). destruct (m !! K) as [v|]; [|by destruct st].
  destruct Hm as [-> (cv & -> & Hv)]. destruct (cv_obj cv) as [|bz|o|]; try done; cbn in Hv; [by subst bz|].
  unfold mbind, stM_bind, st_lift. cbn. by rewrite Hv.
Qed.
Lemma Rabbit_Has_ok s base c ps σ pos m K : rabbit_at s base c ps σ → chains σ pos m →
  reads_map (Rabbit_Has sha256 K) s (bool_decide (is_Some (m !! K))) (λ s', rabbit_at s' base c ps σ ∧ used_of s' = used_of s) (m !! K = None ∧ full s K).
Proof.
  intros H Hch. unfold Rabbit_Has. destruct (find_reads s base c ps σ pos m K H Hch) as [(o & path & st & s' & E1 & H1 & L1 & Hm)|(E1 & Hm & Ht)].
  2: { right. split; [by apply stM_Panic|]. split; [done|by eapply taken_full]. }
  left. exists s'. split; [|done]. rewrite (stM_Ret _ _ _ _ _ E1). cbv beta iota. destruct (m !! K) as [v|]; [by destruct Hm as [-> _]|].
  by rewrite bool_decide_eq_false_2.
Qed.
Lemma Rabbit_GetReadOnlyObj_ok s base c ps σ pos m K ptr p s' : rabbit_at s base c ps σ → chains σ pos m →
  Rabbit_GetReadOnlyObj sha256 K ptr s = Ret (p, s') → rabbit_at s' base c ps σ ∧ used_of s' = used_of s ∧ object_of ptr (m !! K) p.
Proof.
  intros H Hch. unfold Rabbit_GetReadOnlyObj, getObjHelper.
  destruct (find_reads s base c ps σ pos m K H Hch) as [(o & path & st & s1 & E1 & H1 & L1 & Hm)|(E1 & Hm & Ht)].
  2: { by rewrite (stM_Panic _ _ _ _ E1). }
  rewrite (stM_Ret _ _ _ _ _ E1). destruct (m !! K) as [v|]; [|by destruct st; try done; intros [= <- <-]].
  destruct Hm as [-> (cv & -> & Hv)]. destruct (cv_obj cv) as [|bz|ob|]; try done; cbn in Hv.
  - subst bz. unfold mbind, stM_bind, st_lift. destruct ptr as [o0|]; [|done]. cbn. destruct (FromBytes o0 (Some v)) as [o'|] eqn:Ho; [|done].
    cbn. intros [= <- <-]. split_and!; [done..|]. exists o'. split; [done|]. right. by exists o0.
  - cbn. intros [= <- <-]. split_and!; [done..|]. exists ob. split; [done|]. by left.
Qed.
End rabbit_run.
