(* ===== verification/RabbitBlock.v ===== *)
(** * A rabbit store over a root store

    A block of writes to a rabbit store that is opened on a trunk and closed
    with write-back: the root ends with a table of the map the writes mean. *)
From S2P Require Import Prelude ByteOrder BTreeSpec StoreTypes Client.
From S2P Require Import CacheStore MergeIter RootSpec TrunkStore TrunkRun.
From S2P Require Import Rabbit RabbitInv RabbitRun MockRoot.

Section rabbit_block.
Context {Ob T E R RI : Type} `{SO : !Serializable Ob, !SerializableLaws Ob, BO : !BTreeOps (Value Ob) T E, !BTreeLaws (Value Ob) T E}.
Context `{HR : !RootStoreOps Ob R RI, LR : !RootStoreLaws Ob R RI} (fuel : nat) (sha256 : bytes → bytes).
Notation CV := (CachedValue Ob).
Notation State := (SimpleMultiStore Ob T R).
Notation sk := (sk sha256).
Notation chains := (chains sk).
Implicit Types (cv : CV) (K k : bytes) (base m : gmap bytes bytes) (c : gmap bytes (option bytes)) (ps : list prep) (σ : bytes → option slot) (e : slot).
Hypothesis short_keys_ok : ∀ K i, rs_key_ok (R := R) (sk K i).

(** ** The writes of a client *)

Definition rabbit_step (w : root_write Ob) : stM State unit :=
  match w with
  | RootSet k v => Rabbit_Set sha256 k (Some v)
  | RootSetObj k o => Rabbit_SetObj sha256 k (Some o)
  | RootDelete k => Rabbit_Delete sha256 k
  end.
Definition run_rabbit (ws : list (root_write Ob)) : stM State unit := foldr (λ w next, _ ← rabbit_step w; next) (mret tt) ws.

Definition rabbit_allowed (w : root_write Ob) : Prop :=
  match as_write w with SetKey k v => pair_ok (R := R) k (Some v) | DeleteKey _ => True end.

Lemma rabbit_step_ok s base c ps σ pos m w : rabbit_at s base c ps σ → chains σ pos m → rabbit_allowed w →
  100 * (Z.of_nat (size m) + 1) < 2 ^ 64 →
  (∃ s' ps' σ' pos', rabbit_step w s = Ret (tt, s') ∧ rabbit_at s' base c (ps ++ ps') σ' ∧ chains σ' pos' (spec_write m (as_write w)) ∧
     used_of s' = used_of s ∧ zlen ps' ≤ 100) ∨
  (rabbit_step w s = Panic "MaxFindDepth reached!" ∧ full sha256 s (write_key (as_write w))).
Proof.
  intros H Hch Hw Hsz. destruct w as [k v|k o|k]; cbn [rabbit_step as_write spec_write write_key] in *.
  - destruct (setHelper_ok sha256 short_keys_ok s base c ps σ pos m k (Bytes (Some v)) v) as [?|(E1 & _ & Ht)]; [done..|by left|].
    right. split; [done|by eapply taken_full].
  - destruct (ToBytes_slice o) as [v Hv]. unfold rabbit_allowed in Hw. cbn in *. rewrite Hv in *. cbn in *.
    destruct (setHelper_ok sha256 short_keys_ok s base c ps σ pos m k (Object o) v) as [?|(E1 & _ & Ht)]; [done..|by left|].
    right. split; [done|by eapply taken_full].
  - destruct (Delete_ok sha256 short_keys_ok s base c ps σ pos m k) as [?|(E1 & _ & Ht)]; [done..|by left|].
    right. split; [done|by eapply taken_full].
Qed.

Lemma size_spec_write m w : (size (spec_write m w) ≤ S (size m))%nat.
Proof.
  destruct w as [k v|k]; cbn; [rewrite map_size_insert; destruct (m !! k); cbn; lia|]. rewrite map_size_delete. destruct (m !! k); cbn; lia.
Qed.

(** The writes before one that finds its slots taken. *)
Definition stuck (ws : list (root_write Ob)) (s : State) : Prop :=
  ∃ ws1 w ws2 s1, ws = ws1 ++ w :: ws2 ∧ run_rabbit ws1 s = Ret (tt, s1) ∧ full sha256 s1 (write_key (as_write w)).

Lemma run_rabbit_ok ws : ∀ s base c ps σ pos m, rabbit_at s base c ps σ → chains σ pos m → (∀ w, w ∈ ws → rabbit_allowed w) →
  100 * (Z.of_nat (size m) + zlen ws) < 2 ^ 64 →
  (∃ s' ps' σ' pos', run_rabbit ws s = Ret (tt, s') ∧ rabbit_at s' base c (ps ++ ps') σ' ∧ chains σ' pos' (spec_after m (as_write <$> ws)) ∧
     used_of s' = used_of s ∧ zlen ps' ≤ 100 * zlen ws) ∨
  (run_rabbit ws s = Panic "MaxFindDepth reached!" ∧ stuck ws s).
Proof.
  induction ws as [|w ws IH]; intros s base c ps σ pos m H Hch Hws Hsz.
  { left. exists s, [], σ, pos. rewrite app_nil_r. split_and!; done. }
  rewrite zlen_cons in *. pose proof (zlen_nonneg ws).
  destruct (rabbit_step_ok s base c ps σ pos m w H Hch) as [(s1 & ps1 & σ1 & pos1 & E1 & H1 & Hch1 & L1 & Z1)|[E1 Hf]]; [by apply Hws; left|lia| |].
  2: { right. split; [by apply stM_Panic|]. exists [], w, ws, s. done. }
  pose proof (size_spec_write m (as_write w)) as Hgrow.
  destruct (IH s1 base c _ _ _ _ H1 Hch1) as [(s2 & ps2 & σ2 & pos2 & E2 & H2 & Hch2 & L2 & Z2)|[E2 Hs]]; [intros w' Hw'; apply Hws; by right|lia| |].
  - left. exists s2, (ps1 ++ ps2), σ2, pos2. rewrite app_assoc. split_and!; [|done|done|congruence|rewrite zlen_app; lia].
    unfold run_rabbit. cbn [foldr]. rewrite (stM_Ret _ _ _ _ _ E1). exact E2.
  - right. destruct Hs as (ws1 & w' & ws2 & s2 & -> & E3 & Hf). split.
    + unfold run_rabbit. cbn [foldr]. rewrite (stM_Ret _ _ _ _ _ E1). exact E2.
    + exists (w :: ws1), w', ws2, s2. split_and!; [done| |done]. unfold run_rabbit. cbn [foldr]. rewrite (stM_Ret _ _ _ _ _ E1). exact E3.
Qed.

(** ** Writing the entries back *)

(** The writes of the entries of the cache, visited in the order [l]. *)
Definition slot_write (x : bytes * option CV) : option write :=
  match x.2 with
  | Some cv => if isDirty cv then Some (if isDeleted cv then DeleteKey x.1 else SetKey x.1 (slot_bytes (cv_slot cv))) else None
  | None => None
  end.
Definition slot_writes (l : list (bytes * option CV)) : list write := omap slot_write l.

Lemma scan_write_ok l : ∀ t : T, cache_ok t → (∀ x, x ∈ l → ∃ cv, x.2 = Some cv ∧ cv_wf cv) →
  ∃ t', ScanAllEntries write_slot l t = Ret (tt, t') ∧ cache_ok t' ∧ cache_view t' = foldl change (cache_view t) (slot_writes l).
Proof.
  induction l as [|[k o] l IH]; intros t Ht Hl; [by exists t|].
  destruct (Hl (k, o) ltac:(by left)) as (cv & Ho & Hwf). cbn in Ho. subst o. cbn [ScanAllEntries].
  assert ((match cv_obj cv with Nil => true | _ => false end) && negb (isDeleted cv) && negb (isEmpty cv) = false) as ->.
  { destruct Hwf as (_ & _ & Ho). destruct (isEmpty cv); [by rewrite andb_false_r|]. specialize (Ho eq_refl). by destruct (cv_obj cv). }
  assert (∃ t1, (if isDirty cv then value ← st_lift (CachedValue_ToBytes cv); write_slot k value (isDeleted cv) else mret tt) t = Ret (tt, t1) ∧
    cache_ok t1 ∧ cache_view t1 = foldl change (cache_view t) (slot_writes [(k, Some cv)])) as (t1 & E1 & H1 & V1).
  { unfold slot_writes. cbn [omap list_omap]. unfold slot_write. cbn [fst snd]. destruct (isDirty cv); [|by exists t].
    unfold mbind, stM_bind, st_lift. rewrite cv_encode by done. cbn [mbind outcome_bind].
    destruct (cache_write_ok t (if isDeleted cv then RootDelete k else RootSet k (slot_bytes (cv_slot cv))) Ht) as (t1 & E1 & H1 & V1).
    exists t1. unfold write_slot, poke. destruct (isDeleted cv); by rewrite E1. }
  destruct (IH t1 H1) as (t2 & E2 & H2 & V2); [intros x Hx; apply Hl; by right|]. exists t2. split; [|split; [done|]].
  - rewrite (stM_Ret _ _ _ _ _ E1). exact E2.
  - rewrite V2, V1. rewrite <- foldl_app. f_equal. unfold slot_writes. by rewrite <- omap_app.
Qed.

(** Writes to different keys: each key has the value of its write. *)
Lemma lookup_foldl_change ws : ∀ c, NoDup (write_key <$> ws) → ∀ k,
  match foldl change c ws !! k with o => (∀ w, w ∈ ws → write_key w = k → o = Some (write_value w)) ∧ (k ∉ write_key <$> ws → o = c !! k) end.
Proof.
  induction ws as [|w ws IH]; intros c Hnd k; [split; [by intros w ?%not_elem_of_nil|done]|].
  cbn in Hnd. apply NoDup_cons in Hnd as [Hw Hnd]. cbn [foldl]. destruct (IH (change c w) Hnd k) as [IH1 IH2]. split.
  - intros w' [->|Hw']%elem_of_cons Hk; [|by apply IH1]. subst k. rewrite IH2 by done. apply lookup_insert_eq.
  - intros [Hne Hk]%not_elem_of_cons. rewrite IH2 by done. by apply lookup_insert_ne.
Qed.

Lemma slot_writes_keys l : NoDup l.*1 → NoDup (write_key <$> slot_writes l) ∧ ∀ k, k ∈ write_key <$> slot_writes l → k ∈ l.*1.
Proof.
  induction l as [|[k o] l IH]; [done|]. cbn [fmap list_fmap fst]. intros [Hk Hnd]%NoDup_cons. destruct (IH Hnd) as [IH1 IH2].
  assert (∀ w, slot_write (k, o) = Some w → write_key w = k) as Hkey.
  { unfold slot_write. cbn. destruct o as [cv|]; [|done]. destruct (isDirty cv); [|done]. intros w [= <-]. by destruct (isDeleted cv). }
  unfold slot_writes in *. cbn [omap list_omap]. destruct (slot_write (k, o)) as [w|].
  - cbn [fmap list_fmap]. rewrite (Hkey w eq_refl). split; [constructor; [by intros ?%IH2|done]|]. intros k' [->|Hk']%elem_of_cons; [by left|right; auto].
  - split; [done|]. intros k' Hk'. right. auto.
Qed.

Lemma Rabbit_Close_ok s base c ps σ l : rabbit_at s base c ps σ → l ≡ₚ map_to_list (sms_cache s : gmap bytes (option CV)) →
  ∃ s' c', Rabbit_Close true l s = Ret (tt, s') ∧ trunk_at (sms_trunk s') base c' ps ∧ used_of s' = used_of s ∧
    ∀ k, overlay base c' !! k = slot_bytes <$> σ k.
Proof.
  intros H Hl. destruct (ra_trunk _ _ _ _ _ H) as [T1 T2 T3 T4 T5].
  assert (∀ k o, (k, o) ∈ l ↔ sms_cache s !! k = Some o) as Hin by (intros k o; rewrite Hl; apply (elem_of_map_to_list (M := gmap bytes))).
  assert (NoDup l.*1) as Hnd by (rewrite Hl; apply (NoDup_fst_map_to_list (M := gmap bytes))).
  destruct (scan_write_ok l (ts_cache (sms_trunk s)) T2) as (t' & E1 & H1 & V1).
  { intros [k o] Hk%Hin. pose proof (ra_entry _ _ _ _ _ H k) as He. rewrite Hk in He. destruct o as [cv|]; [|done]. exists cv. by destruct He. }
  destruct (slot_writes_keys l Hnd) as [Hnk Hsub].
  assert (∀ k, match sms_cache s !! k with
    | Some (Some cv) => if isDirty cv then foldl change c (slot_writes l) !! k = Some (if isDeleted cv then None else Some (slot_bytes (cv_slot cv)))
        else foldl change c (slot_writes l) !! k = c !! k
    | _ => foldl change c (slot_writes l) !! k = c !! k end) as Hlook.
  { intros k. destruct (lookup_foldl_change (slot_writes l) c Hnk k) as [W1 W2]. destruct (sms_cache s !! k) as [[cv|]|] eqn:Hk.
    - destruct (isDirty cv) eqn:Hd.
      + rewrite (W1 (if isDeleted cv then DeleteKey k else SetKey k (slot_bytes (cv_slot cv)))); [by destruct (isDeleted cv)| |by destruct (isDeleted cv)].
        unfold slot_writes. apply list_elem_of_omap. exists (k, Some cv). split; [by apply Hin|]. unfold slot_write. cbn. by rewrite Hd.
      + apply W2. intros (w & Ew & Hw)%list_elem_of_fmap. unfold slot_writes in Hw. apply list_elem_of_omap in Hw as ([k' o] & Ho%Hin & Hw).
        unfold slot_write in Hw. cbn in Hw. destruct o as [cv'|]; [|done]. destruct (isDirty cv') eqn:Hd'; [|done]. injection Hw as <-.
        assert (k' = k) as -> by (rewrite Ew; by destruct (isDeleted cv')). congruence.
    - apply W2. pose proof (ra_entry _ _ _ _ _ H k) as He. by rewrite Hk in He.
    - apply W2. intros (x & Ex & Hx)%Hsub%list_elem_of_fmap. destruct x as [k' o]. cbn in Ex. subst k'. apply Hin in Hx. congruence. }
  exists (mkSimpleMultiStore (sms_cache s) (lset ts_cache_lens t' (sms_trunk s))), (foldl change c (slot_writes l)). split_and!.
  - unfold Rabbit_Close, Simple_Close, Simple_writeBack, Trunk_Update. apply sms_trunk_zoom. rewrite (not_writing_ok _ _ _ _ _ (ra_trunk _ _ _ _ _ H)).
    apply zoom_Ret. exact E1.
  - split; [done|done|by cbn; rewrite V1, T3|done|].
    intros k o Ho. specialize (Hlook k). pose proof (ra_entry _ _ _ _ _ H k) as He. destruct (sms_cache s !! k) as [[cv|]|]; [|done|apply T5; congruence].
    destruct He as (Hwf & Hrep & He). destruct (isDirty cv); [|apply T5; congruence]. rewrite Hlook in Ho. injection Ho as <-.
    unfold prep_of in He. unfold cv_rep in Hrep. destruct (isDeleted cv); [done|]. split; [done|]. apply slot_ok_value. by apply (ra_slot _ _ _ _ _ H k).
  - done.
  - intros k. rewrite lookup_overlay. specialize (Hlook k). pose proof (ra_entry _ _ _ _ _ H k) as He. rewrite lookup_overlay in He.
    destruct (sms_cache s !! k) as [[cv|]|]; [|done|by rewrite Hlook].
    destruct He as (Hwf & Hrep & He). destruct (isDirty cv); [|rewrite Hlook; by destruct He]. rewrite Hlook, Hrep. unfold cv_rep. by destruct (isDeleted cv).
Qed.

(** ** A block over a root store *)

(** [base] is a table of the map [m]. *)
Definition table_of base m : Prop := ∃ σ pos, (∀ k, base !! k = slot_bytes <$> σ k) ∧ (∀ k e, σ k = Some e → slot_ok (R := R) e) ∧ chains σ pos m.

Lemma table_empty : table_of ∅ ∅.
Proof. exists (λ _, None), ∅. split_and!; [by intros k; rewrite lookup_empty|done|apply chains_empty]. Qed.

Lemma size_keys {V} (x : gmap bytes V) (l : list bytes) : (∀ k, is_Some (x !! k) → k ∈ l) → (size x ≤ length l)%nat.
Proof.
  intros H. rewrite <- (size_dom x). etrans; [apply (subseteq_size _ (list_to_set l : gset bytes))|].
  - intros k Hk%elem_of_dom. apply elem_of_list_to_set. by apply H.
  - clear H. induction l as [|k l IH]; [done|]. cbn [list_to_set]. rewrite size_union_alt, size_singleton. cbn [length].
    assert (size ((list_to_set l : gset bytes) ∖ {[k]}) ≤ size (list_to_set l : gset bytes))%nat by (apply subseteq_size; set_solver). lia.
Qed.

(** Every slot is on the chain of a key: a table is at most a hundred times
    the size of its map. *)
Lemma table_size base m : table_of base m → (size base ≤ 100 * size m)%nat.
Proof.
  intros (σ & pos & Hb & _ & H). set (l := map_to_list pos ≫= λ '(K, n), chain sk K (S n)).
  assert (length l ≤ 100 * size pos)%nat as Hl.
  { assert (∀ K n, (K, n) ∈ map_to_list pos → (n < 100)%nat) as Hn by (intros K n Hin%elem_of_map_to_list; by apply (ch_depth _ _ _ _ H K)).
    unfold l. rewrite <- length_map_to_list. revert Hn. generalize (map_to_list pos). clear. intros l Hn.
    induction l as [|[K n] l IH]; [cbn; lia|]. cbn [mbind list_bind]. rewrite length_app. change (list_bind _ _ _ l) with (l ≫= λ '(K, n), chain sk K (S n)).
    pose proof (Hn K n ltac:(by left)). assert (length (l ≫= λ '(K, n), chain sk K (S n)) ≤ 100 * length l)%nat by (apply IH; intros K' n' Hin; apply (Hn K'); by right).
    unfold chain at 1. rewrite length_fmap, length_seq. cbn [length]. lia. }
  assert (size pos = size m) as <-.
  { rewrite <- !size_dom. f_equal. apply set_eq. intros K. rewrite !elem_of_dom. apply (ch_dom _ _ _ _ H). }
  etrans; [|exact Hl]. apply size_keys. intros k [v Hv]. rewrite Hb in Hv. apply fmap_Some in Hv as (e & He & _).
  assert (∃ K n i, pos !! K = Some n ∧ (i ≤ n)%nat ∧ sk K i = k) as (K & n & i & Hn & Hi & <-).
  { destruct (sl_val e) as [w|] eqn:Hw.
    - destruct (ch_live _ _ _ _ H _ _ _ He Hw) as (n & Hn & Hs). by exists (sl_key e), n, n.
    - pose proof (ch_empty _ _ _ _ H _ _ He Hw) as Hpos. rewrite (ch_num _ _ _ _ H _ _ He) in Hpos.
      destruct (total_pos sk pos k) as (K & n & i & Hn & Hi & Hs); [lia|]. exists K, n, i. split_and!; [done|lia|done]. }
  unfold l. apply list_elem_of_bind. exists (K, n). split; [|by apply elem_of_map_to_list]. apply elem_of_chain. exists i. split; [lia|done].
Qed.

Lemma prepared_size ps c : prepared (R := R) ps c → (size c ≤ length ps)%nat.
Proof.
  intros H. rewrite <- (length_fmap prep_key ps). apply size_keys. intros k [o Ho]. apply list_elem_of_fmap. specialize (H k o Ho).
  destruct o as [v|]; [exists (PrepUpdate k); by destruct H|by exists (PrepDeletion k)].
Qed.

(** What reads of a rabbit store give. *)
Definition rabbit_reads (s : State) m : Prop := ∀ K,
  reads_map (Rabbit_Get sha256 K) s (m !! K) (λ _, True) (m !! K = None ∧ full sha256 s K) ∧
  reads_map (Rabbit_Has sha256 K) s (bool_decide (is_Some (m !! K))) (λ _, True) (m !! K = None ∧ full sha256 s K) ∧
  ∀ ptr p s', Rabbit_GetReadOnlyObj sha256 K ptr s = Ret (p, s') → object_of ptr (m !! K) p.

Lemma reads_map_weaken {A} (m : stM State A) (s : State) a Q Q' absent : (∀ s', Q s' → Q' s') → reads_map m s a Q absent → reads_map m s a Q' absent.
Proof. intros HQ [(s' & E1 & H)|H]; [left; exists s'; auto|by right]. Qed.

(** C11: the rabbit store is a map over the root. From a root that holds a
    table of [m], opening a rabbit store on a trunk, writing bytes and objects
    and deleting keys, the writes either all succeed, or one finds all the
    hundred slots of its key taken by other keys and panics. When they succeed,
    reads give what the writes mean (a read of a missing key whose slots are
    all taken panics), and closing with write-back, in whatever order Go visits
    the map of the cache, then closing the trunk, leaves a table of the
    resulting map in the root. *)
Theorem rabbit_block_refines r base m ws : rs_reading r base [] → table_of base m → (∀ w, w ∈ ws → rabbit_allowed w) →
  100 * (Z.of_nat (size m) + zlen ws) < 2 ^ 64 → 100 * zlen ws < Z.of_nat fuel →
  (∀ b, (size b ≤ 100 * size (spec_after m (as_write <$> ws)))%nat → rs_served (R := R) (rs_used r) (100 * zlen ws) b) →
  (∃ s, run_rabbit ws (NewRabbitStore (GetTrunkStore r)) = Ret (tt, s) ∧ rabbit_reads s (spec_after m (as_write <$> ws)) ∧
     ∀ l, l ≡ₚ map_to_list (sms_cache s : gmap bytes (option CV)) → ∃ s' r' base', Rabbit_Close true l s = Ret (tt, s') ∧
       Trunk_Close fuel true (sms_trunk s') = Ret r' ∧ rs_reading r' base' [] ∧ table_of base' (spec_after m (as_write <$> ws))) ∨
  (run_rabbit ws (NewRabbitStore (GetTrunkStore r)) = Panic "MaxFindDepth reached!" ∧ stuck ws (NewRabbitStore (GetTrunkStore r))).
Proof.
  intros Hr (σ & pos & Hb & Hok & Hch) Hws Hsz Hf Hserved.
  assert (rabbit_at (NewRabbitStore (GetTrunkStore r)) base ∅ [] σ) as H0.
  { split; [by apply GetTrunkStore_ok| |done]. intros k. rewrite overlay_empty. exact (Hb k). }
  destruct (run_rabbit_ok ws _ base ∅ [] σ pos m H0 Hch Hws Hsz) as [(s & ps & σ1 & pos1 & E1 & H1 & Hch1 & L1 & Z1)|?]; [left|by right].
  exists s. split; [done|]. split.
  - intros K. split_and!; [by eapply reads_map_weaken; [|by eapply Rabbit_Get_ok]|by eapply reads_map_weaken; [|by eapply Rabbit_Has_ok]|].
    intros ptr p s' E2. by eapply Rabbit_GetReadOnlyObj_ok.
  - intros l Hl. destruct (Rabbit_Close_ok s base ∅ _ σ1 l H1 Hl) as (s' & c' & E2 & Ht & L2 & Hbase).
    assert (table_of (overlay base c') (spec_after m (as_write <$> ws))) as Htab by (exists σ1, pos1; split_and!; [done|apply (ra_slot _ _ _ _ _ H1)|done]).
    pose proof (prepared_size _ _ (ta_prepared _ _ _ _ Ht)) as Hc. unfold used_of in *. cbn [NewRabbitStore sms_trunk GetTrunkStore ts_root] in L1.
    destruct (Trunk_commit_ok fuel _ base c' _ Ht) as (r' & E3 & H3 & _); [unfold zlen in *; cbn in *; lia| |].
    { rewrite L2, L1. eapply rs_served_mono; [reflexivity| |by apply Hserved, table_size]. cbn. lia. }
    by exists s', r', (overlay base c').
Qed.
End rabbit_block.

(** ** A run *)

#[local] Existing Instance byte_object.
#[local] Existing Instance byte_object_laws.
Notation mock := (MockRootStore (gmap bytes (Value bytes))).

Lemma CachedValue_roundtrip_witness :
  cv_wf (mkCachedValue 3 [1; 2] (Object (Ob := bytes) [9; 9]) false false true) ∧
  ∃ bz, CachedValue_ToBytes (mkCachedValue 3 [1; 2] (Object (Ob := bytes) [9; 9]) false false true) = Ret bz ∧
    BytesToCachedValue (Ob := bytes) bz = Ret (Some (mkCachedValue 3 [1; 2] (Bytes (Ob := bytes) (Some [9; 9])) false false false)).
Proof.
  assert (cv_wf (mkCachedValue 3 [1; 2] (Object (Ob := bytes) [9; 9]) false false true)) as H by (split; [cbn; lia|split; [reflexivity|intros _; exact I]]).
  split; [exact H|]. exact (CachedValue_roundtrip _ H).
Defined.

(** A hash under which the first short keys of 2 and 3 are the same. *)
Definition toy_hash (b : bytes) : bytes := match b with [x] => [Z.div x 2; 0] | x :: _ => [x + 2; 0] | [] => [0; 0] end.
Definition rabbit_ws : list (root_write bytes) :=
  [RootSet [2] [20]; RootSetObj [3] [30]; RootSet [5] [50]; RootDelete [2]; RootSet [3] [31]].
Lemma rabbit_block_refines_witness :
  (rs_reading empty_root ∅ [] ∧ table_of (R := mock) toy_hash ∅ ∅ ∧ (∀ w, w ∈ rabbit_ws → rabbit_allowed (R := mock) w) ∧
   map_to_list (spec_after ∅ (as_write <$> rabbit_ws)) = [([3], [31]); ([5], [50])]) ∧
  ∃ s, run_rabbit toy_hash rabbit_ws (NewRabbitStore (GetTrunkStore empty_root)) = Ret (tt, s) ∧
    rabbit_reads toy_hash s (spec_after ∅ (as_write <$> rabbit_ws)) ∧
    ∀ l, l ≡ₚ map_to_list (sms_cache s : gmap bytes (option (CachedValue bytes))) → ∃ s' r' base', Rabbit_Close true l s = Ret (tt, s') ∧
      Trunk_Close 1000 true (sms_trunk s') = Ret r' ∧ rs_reading r' base' [] ∧ table_of (R := mock) toy_hash base' (spec_after ∅ (as_write <$> rabbit_ws)).
Proof.
  assert (∀ w, w ∈ rabbit_ws → rabbit_allowed (R := mock) w) as Hws.
  { assert (∀ k v, zlen k < 2 ^ 32 → pair_ok (R := mock) k v) as Hp by (intros k v Hk; split; [exact Hk|intros num _; split; [exact I|intros ? _; exact I]]).
    unfold rabbit_ws. intros w Hw. repeat (apply elem_of_cons in Hw as [->|Hw]; [first [exact I|apply Hp; vm_compute; reflexivity]|]). by apply not_elem_of_nil in Hw. }
  split; [split; [exact empty_root_reading|split; [apply table_empty|split; [exact Hws|vm_compute; reflexivity]]]|].
  assert (∀ K i, rs_key_ok (R := mock) (sk toy_hash K i)) as Hkeys by (intros K i; exact I).
  destruct (rabbit_block_refines 1000 toy_hash Hkeys empty_root ∅ ∅ rabbit_ws) as [H|[E1 _]];
    [exact empty_root_reading|apply table_empty|exact Hws|vm_compute; reflexivity|vm_compute; reflexivity|intros b _; exact I|exact H|].
  vm_compute in E1. discriminate E1.
Defined.
