(* ===== verification/OnvaKV.v ===== *)
(** * The store (onvakv.go)

    [OnvaKV] puts the index tree, the data tree and the metadata together: the
    clients prepare the keys of a block, which reads the entries the block may
    touch, then set and delete them; [EndWrite] keeps the list of keys linked
    by [NextKey], appends the changed entries and commits. The pointers to hot
    entries are owned by the two bucket maps, one per key; the list
    [cachedEntries] of a block is a list of their values, updated in place. *)
From S2P Require Import Prelude Types ByteOrder RocksDB BTreeSpec.
From S2P Require Import MetaDB IndexTree EntryCodec Twig Tree DataTreeSpec.

Definition StartReapThres : Z := 10000.
Definition KeptEntriesToActiveEntriesRatio : Z := 2.

(** ** Bucket maps *)

Definition BucketMap : Type := list (gmap bytes (option HotEntry)).
Definition NewBucketMap : BucketMap := replicate 64 ∅.

(** The most significant 6 bits of the key. *)
Definition bucket_idx (key : bytes) : outcome Z := b ← index key 0; mret (Z.shiftr b 2).
Definition BM_Load (bm : BucketMap) (key : bytes) : outcome (option (option HotEntry)) :=
  idx ← bucket_idx key; m ← index bm idx; mret (m !! key).
Definition BM_Store (bm : BucketMap) (key : bytes) (value : option HotEntry) : outcome BucketMap :=
  idx ← bucket_idx key; m ← index bm idx; store_index bm idx (<[key := value]> m).

(** ** Hot entries *)

Definition set_Value (e : Entry) (v : option bytes) : Entry := mkEntry (Key e) v (NextKey e) (Height e) (LastHeight e) (SerialNum e).
Definition set_NextKey (e : Entry) (k : bytes) : Entry := mkEntry (Key e) (Value e) k (Height e) (LastHeight e) (SerialNum e).

Definition hot_entry (e : Entry) : HotEntry := mkHotEntry e OpNone false false.
Definition set_Operation (h : HotEntry) (op : OperationOnEntry) : HotEntry := mkHotEntry (EntryPtr h) op (IsModified h) (IsTouchedByNext h).

Definition isFakeInserted (h : HotEntry) : bool :=
  (SerialNum (EntryPtr h) =? -1) && bool_decide (Value (EntryPtr h) = None).
Definition isInserted (h : HotEntry) : bool :=
  bool_decide (Operation h = OpInsertOrChange) && (SerialNum (EntryPtr h) =? -1).
Definition isModified (h : HotEntry) : bool :=
  bool_decide (Operation h = OpInsertOrChange) && (SerialNum (EntryPtr h) >=? 0).
Definition isHintHotEntry (h : HotEntry) : bool := SerialNum (EntryPtr h) =? MinInt64.

Definition makeHintHotEntry (key : bytes) : HotEntry := hot_entry (mkEntry key None [] (-1) (-1) MinInt64).
Definition fake_entry (key : bytes) : Entry := mkEntry key None [] 0 0 (-1).

(** [Operation != OpDelete && !isFakeInserted]: the entry is there after the block. *)
Definition stays (h : HotEntry) : bool := bool_decide (Operation h ≠ OpDelete) && negb (isFakeInserted h).

(** The loop of [getPrev] over the positions below [n]. *)
Fixpoint getPrev_from (l : list HotEntry) (n : nat) : option nat :=
  match n with
  | O => None
  | S j => match l !! j with
           | Some h => if stays h then Some j else getPrev_from l j
           | None => None
           end
  end.
Definition getPrev (l : list HotEntry) (i : nat) : outcome nat :=
  match getPrev_from l i with Some j => mret j | None => Panic "Can not find previous entry" end.

(** The loop of [getNext] over the entries from position [j] on. *)
Fixpoint getNext_from (l : list HotEntry) (j : nat) : option nat :=
  match l with
  | [] => None
  | h :: l => if stays h then Some j else getNext_from l (S j)
  end.
Definition getNext (l : list HotEntry) (i : nat) : outcome nat :=
  match getNext_from (drop (S i) l) (S i) with Some j => mret j | None => Panic "Can not find next entry" end.

(** ** The cached entries of a block *)

(** [bytes.Compare(entries\[i\].EntryPtr.Key, entries\[j\].EntryPtr.Key) < 0] sorts a bucket. *)
Definition hot_le (a b : HotEntry) : Prop := Key (EntryPtr a) ≤b Key (EntryPtr b).
#[export] Instance hot_le_dec a b : Decision (hot_le a b).
Proof. unfold hot_le. apply _. Defined.

(** One bucket: its hot entries, a hint for each next key that has none, sorted. *)
Definition bucket_entries (he : gmap bytes (option HotEntry)) (nk : gmap bytes (option HotEntry)) : outcome (list HotEntry) :=
  if bool_decide (map_Forall (λ _ h, is_Some h) he) then
    mret (merge_sort hot_le (omap id (map_to_list he).*2 ++
      (makeHintHotEntry <$> filter (λ k, he !! k = None) (map_to_list nk).*1)))
  else Panic "nil pointer dereference".

(** The 64 buckets are filled in parallel and concatenated. *)
Fixpoint cached_entries (hes nks : list (gmap bytes (option HotEntry))) : outcome (list HotEntry) :=
  match hes, nks with
  | he :: hes, nk :: nks => l ← bucket_entries he nk; ls ← cached_entries hes nks; mret (l ++ ls)
  | _, _ => mret []
  end.

Definition modify (h : HotEntry) : HotEntry := mkHotEntry (EntryPtr h) (Operation h) true (IsTouchedByNext h).
(** [EntryPtr.NextKey = key], and the mark on an entry whose successor changed. *)
Definition link (key : bytes) (h : HotEntry) : HotEntry :=
  mkHotEntry (set_NextKey (EntryPtr h) key) (Operation h) (IsModified h) (IsTouchedByNext h).
Definition link_touch (key : bytes) (h : HotEntry) : HotEntry :=
  mkHotEntry (set_NextKey (EntryPtr h) key) (Operation h) (IsModified h) true.

Definition key_at (l : list HotEntry) (j : nat) : outcome bytes :=
  match l !! j with Some h => mret (Key (EntryPtr h)) | None => Panic "index out of range" end.

(** The body of the loop that links the keys and marks the changed entries. *)
Definition relink (l : list HotEntry) (i : nat) : outcome (list HotEntry) :=
  match l !! i with
  | None => Panic "index out of range"
  | Some h =>
      _ ← require (negb (bool_decide (Operation h ≠ OpNone) && isHintHotEntry h)) "Operate on a hint entry";
      if isFakeInserted h then mret l
      else if bool_decide (Operation h = OpDelete) then
        let l := alter modify i l in
        next ← getNext l i; nextKey ← key_at l next;
        prev ← getPrev l i;
        mret (alter (link_touch nextKey) prev l)
      else if isInserted h then
        let l := alter modify i l in
        next ← getNext l i; nextKey ← key_at l next;
        let l := alter (link nextKey) i l in
        prev ← getPrev l i;
        mret (alter (link_touch (Key (EntryPtr h))) prev l)
      else if isModified h then mret (alter modify i l)
      else mret l
  end.

Definition relink_all (l : list HotEntry) : outcome (list HotEntry) := for_state relink l (seq 0 (length l)).

(** ** The store *)

Record OnvaKV (D T DT : Type) : Type := mkOnvaKV {
  okv_meta : MetaDB;
  okv_idxTree : NVTreeMem T;
  okv_datTree : DT;
  okv_rocksdb : RocksDB D;
  okv_rootHash : bytes;
  okv_k2heMap : BucketMap;
  okv_k2nkMap : BucketMap;
  okv_startKey : bytes;
  okv_endKey : bytes
}.
Arguments mkOnvaKV {D T DT}.
Arguments okv_meta {D T DT}.
Arguments okv_idxTree {D T DT}.
Arguments okv_datTree {D T DT}.
Arguments okv_rocksdb {D T DT}.
Arguments okv_rootHash {D T DT}.
Arguments okv_k2heMap {D T DT}.
Arguments okv_k2nkMap {D T DT}.
Arguments okv_startKey {D T DT}.
Arguments okv_endKey {D T DT}.

Section onvakv.
Context {D T E DT : Type} `{HD : !Rocks D} `{HT : !BTreeOps Z T E} `{HDT : !DataTreeOps DT}.
Notation OnvaKV := (OnvaKV D T DT).
Implicit Types (okv : OnvaKV) (k : bytes).

Definition set_meta okv m : OnvaKV := mkOnvaKV m (okv_idxTree okv) (okv_datTree okv) (okv_rocksdb okv)
  (okv_rootHash okv) (okv_k2heMap okv) (okv_k2nkMap okv) (okv_startKey okv) (okv_endKey okv).
Definition set_idxTree okv t : OnvaKV := mkOnvaKV (okv_meta okv) t (okv_datTree okv) (okv_rocksdb okv)
  (okv_rootHash okv) (okv_k2heMap okv) (okv_k2nkMap okv) (okv_startKey okv) (okv_endKey okv).
Definition set_datTree okv d : OnvaKV := mkOnvaKV (okv_meta okv) (okv_idxTree okv) d (okv_rocksdb okv)
  (okv_rootHash okv) (okv_k2heMap okv) (okv_k2nkMap okv) (okv_startKey okv) (okv_endKey okv).
Definition set_rocksdb okv r : OnvaKV := mkOnvaKV (okv_meta okv) (okv_idxTree okv) (okv_datTree okv) r
  (okv_rootHash okv) (okv_k2heMap okv) (okv_k2nkMap okv) (okv_startKey okv) (okv_endKey okv).
Definition set_rootHash okv h : OnvaKV := mkOnvaKV (okv_meta okv) (okv_idxTree okv) (okv_datTree okv) (okv_rocksdb okv)
  h (okv_k2heMap okv) (okv_k2nkMap okv) (okv_startKey okv) (okv_endKey okv).
Definition set_maps okv he nk : OnvaKV := mkOnvaKV (okv_meta okv) (okv_idxTree okv) (okv_datTree okv) (okv_rocksdb okv)
  (okv_rootHash okv) he nk (okv_startKey okv) (okv_endKey okv).

Definition GetRootHash okv : bytes := okv_rootHash okv.
Definition OnvaKV_ActiveCount okv : Z := NVTree_ActiveCount (okv_idxTree okv).
Definition OnvaKV_GetCurrHeight okv : Z := GetCurrHeight (okv_meta okv).

(** [okv.datTree.ReadEntry(int64(pos))] *)
Definition read_at okv (pos : Z) : outcome (OnvaKV * Entry) :=
  '(d, e) ← dt_ReadEntry (okv_datTree okv) (to_int64 pos);
  mret (set_datTree okv d, e).

Definition GetEntry okv k : outcome (OnvaKV * option Entry) :=
  pos ← NVTree_Get (okv_idxTree okv) k;
  match pos with
  | None => mret (okv, None)
  | Some pos => '(okv, e) ← read_at okv pos; mret (okv, Some e)
  end.

Definition getPrevEntry okv k : outcome (OnvaKV * Entry) :=
  iter ← NVTree_ReverseIterator (okv_idxTree okv) [] k;
  _ ← require (iter_Valid iter) "The iterator is invalid! Missing a guard node?";
  read_at okv (im_value iter).

Definition store_hot okv (key : bytes) (h : HotEntry) : outcome OnvaKV :=
  he ← BM_Store (okv_k2heMap okv) key (Some h); mret (set_maps okv he (okv_k2nkMap okv)).
Definition store_next okv (key : bytes) : outcome OnvaKV :=
  nk ← BM_Store (okv_k2nkMap okv) key None; mret (set_maps okv (okv_k2heMap okv) nk).

Definition PrepareForUpdate okv k : outcome OnvaKV :=
  pos ← NVTree_Get (okv_idxTree okv) k;
  match pos with
  | Some pos => '(okv, entry) ← read_at okv pos; store_hot okv k (hot_entry entry)
  | None =>
      '(okv, prevEntry) ← getPrevEntry okv k;
      okv ← store_hot okv k (hot_entry (fake_entry k));
      okv ← store_hot okv (Key prevEntry) (hot_entry prevEntry);
      store_next okv (NextKey prevEntry)
  end.

Definition PrepareForDeletion okv k : outcome (OnvaKV * bool) :=
  pos ← NVTree_Get (okv_idxTree okv) k;
  match pos with
  | None => mret (okv, false)
  | Some pos =>
      '(okv, entry) ← read_at okv pos;
      '(okv, prevEntry) ← getPrevEntry okv k;
      okv ← store_hot okv (Key entry) (hot_entry entry);
      okv ← store_hot okv (Key prevEntry) (hot_entry prevEntry);
      okv ← store_next okv (NextKey entry);
      mret (okv, true)
  end.

Definition BeginWrite okv (height : Z) : outcome OnvaKV :=
  let okv := set_rocksdb okv (OpenNewBatch (okv_rocksdb okv)) in
  t ← NVTree_BeginWrite (okv_idxTree okv) height;
  let okv := set_idxTree okv t in
  mret (set_meta okv (SetCurrHeight (okv_meta okv) height)).

Definition OnvaKV_Set okv (key : bytes) (value : option bytes) : outcome OnvaKV :=
  h ← BM_Load (okv_k2heMap okv) key;
  match h with
  | None => Panic "Can not find entry in cache"
  | Some None => Panic "Can not change or insert at a fake entry"
  | Some (Some h) =>
      store_hot okv key (mkHotEntry (set_Value (EntryPtr h) value) OpInsertOrChange (IsModified h) (IsTouchedByNext h))
  end.

Definition OnvaKV_Delete okv (key : bytes) : outcome OnvaKV :=
  h ← BM_Load (okv_k2heMap okv) key;
  match h with
  | Some (Some h) => store_hot okv key (set_Operation h OpDelete)
  | _ => mret okv
  end.

Definition incr_serial okv : outcome OnvaKV :=
  '(m, r) ← IncrMaxSerialNum (okv_meta okv) (okv_rocksdb okv); mret (set_rocksdb (set_meta okv m) r).
Definition dat_append okv (e : Entry) : outcome (OnvaKV * Z) :=
  '(d, pos) ← dt_AppendEntry (okv_datTree okv) e; mret (set_datTree okv d, pos).
Definition dat_deactiviate okv (sn : Z) : outcome (OnvaKV * Z) :=
  '(d, n) ← dt_DeactiviateEntry (okv_datTree okv) sn; mret (set_datTree okv d, n).
(** [okv.idxTree.Set(key, uint64(pos))] *)
Definition idx_set okv k (pos : Z) : outcome OnvaKV :=
  '(t, r) ← NVTree_Set (okv_idxTree okv) (okv_rocksdb okv) k (to_uint64 pos); mret (set_rocksdb (set_idxTree okv t) r).
Definition idx_delete okv k : outcome OnvaKV :=
  '(t, r) ← NVTree_Delete (okv_idxTree okv) (okv_rocksdb okv) k; mret (set_rocksdb (set_idxTree okv t) r).

Definition OnvaKV_DeactiviateEntry okv (sn : Z) : outcome OnvaKV :=
  '(okv, pendingDeactCount) ← dat_deactiviate okv sn;
  if pendingDeactCount >? DeactivedSNListMaxLen then
    let sn := GetMaxSerialNum (okv_meta okv) in
    okv ← incr_serial okv;
    '(okv, _) ← dat_append okv (DummyEntry sn);
    '(okv, _) ← dat_deactiviate okv sn;
    mret okv
  else mret okv.

(** The body of the loop that updates the stored data. *)
Definition write_entry okv (h : HotEntry) : outcome OnvaKV :=
  if negb (IsModified h || IsTouchedByNext h) then mret okv else
  let ptr := EntryPtr h in
  if bool_decide (Operation h = OpDelete) && (SerialNum ptr >=? 0) then
    okv ← idx_delete okv (Key ptr);
    OnvaKV_DeactiviateEntry okv (SerialNum ptr)
  else if bool_decide (Operation h ≠ OpNone) || IsTouchedByNext h then
    okv ← (if SerialNum ptr >=? 0 then OnvaKV_DeactiviateEntry okv (SerialNum ptr) else mret okv);
    let ptr := mkEntry (Key ptr) (Value ptr) (NextKey ptr) (GetCurrHeight (okv_meta okv)) (Height ptr)
                 (GetMaxSerialNum (okv_meta okv)) in
    okv ← incr_serial okv;
    '(okv, pos) ← dat_append okv ptr;
    idx_set okv (Key ptr) pos
  else mret okv.

Definition update okv : outcome OnvaKV :=
  cachedEntries ← cached_entries (okv_k2heMap okv) (okv_k2nkMap okv);
  cachedEntries ← relink_all cachedEntries;
  for_state write_entry okv cachedEntries.

Definition numOfKeptEntries okv : Z :=
  to_int64 (GetMaxSerialNum (okv_meta okv) - to_int64 (GetOldestActiveTwigID (okv_meta okv) * LeafCountInTwig)).

(** The condition of the loop that moves the entries of the oldest twig. *)
Definition must_reap okv : bool :=
  (numOfKeptEntries okv >? OnvaKV_ActiveCount okv * KeptEntriesToActiveEntriesRatio) && (OnvaKV_ActiveCount okv >? StartReapThres).

Definition reap_entry okv (entryBz : bytes) : outcome OnvaKV :=
  sn ← ExtractSerialNum entryBz;
  okv ← OnvaKV_DeactiviateEntry okv sn;
  let sn := GetMaxSerialNum (okv_meta okv) in
  entryBz ← UpdateSerialNum entryBz sn;
  okv ← incr_serial okv;
  '(d, pos) ← dt_AppendEntryRawBytes (okv_datTree okv) entryBz sn;
  let okv := set_datTree okv d in
  key ← ExtractKeyFromRawBytes entryBz;
  idx_set okv key pos.

Definition reap_twig okv : outcome OnvaKV :=
  let twigID := GetOldestActiveTwigID (okv_meta okv) in
  '(d, entries) ← dt_GetActiveEntriesInTwig (okv_datTree okv) twigID;
  okv ← for_state reap_entry (set_datTree okv d) entries;
  d ← dt_EvictTwig (okv_datTree okv) twigID;
  let okv := set_datTree okv d in
  mret (set_meta okv (IncrOldestActiveTwigID (okv_meta okv))).

Fixpoint reap (fuel : nat) okv : outcome OnvaKV :=
  if must_reap okv then
    match fuel with
    | O => Panic "out of fuel"
    | S fuel => okv ← reap_twig okv; reap fuel okv
    end
  else mret okv.

(** The end of [EndWrite]: the root, the file sizes, the commit. *)
Definition end_block okv : outcome OnvaKV :=
  '(d, root) ← dt_EndBlock (okv_datTree okv);
  let okv := set_rootHash (set_datTree okv d) root in
  let okv := set_maps okv NewBucketMap NewBucketMap in
  let '(eS, tS) := dt_GetFileSizes (okv_datTree okv) in
  r ← SetEntryFileSize (okv_rocksdb okv) eS;
  r ← SetTwigMtFileSize r tS;
  r ← Commit (okv_meta okv) r;
  t ← NVTree_EndWrite (okv_idxTree okv);
  mret (set_rocksdb (set_idxTree okv t) (CloseOldBatch r)).

Definition EndWrite (fuel : nat) okv : outcome OnvaKV :=
  okv ← update okv;
  okv ← reap fuel okv;
  end_block okv.

Definition guard_entry okv (key next : bytes) : Entry :=
  mkEntry key (Some []) next (-1) (-1) (GetMaxSerialNum (okv_meta okv)).
Definition append_guard okv (key next : bytes) : outcome OnvaKV :=
  '(okv', pos) ← dat_append okv (guard_entry okv key next);
  okv' ← incr_serial okv';
  idx_set okv' key pos.

Definition InitGuards okv (startKey endKey : bytes) : outcome OnvaKV :=
  let okv := mkOnvaKV (okv_meta okv) (okv_idxTree okv) (okv_datTree okv) (okv_rocksdb okv)
    (okv_rootHash okv) (okv_k2heMap okv) (okv_k2nkMap okv) startKey endKey in
  t ← NVTree_BeginWrite (okv_idxTree okv) (-1);
  let okv := set_idxTree okv t in
  let okv := set_meta okv (SetCurrHeight (okv_meta okv) (-1)) in
  okv ← append_guard okv startKey endKey;
  okv ← append_guard okv endKey endKey;
  t ← NVTree_EndWrite (okv_idxTree okv);
  let okv := set_idxTree okv t in
  '(d, root) ← dt_EndBlock (okv_datTree okv);
  let okv := set_rootHash (set_datTree okv d) root in
  r ← Commit (okv_meta okv) (okv_rocksdb okv);
  mret (set_rocksdb okv (OpenNewBatch (CloseOldBatch r))).

(** The loop of [CheckConsistency] from [endKey] down to [startKey]. *)
Fixpoint check_links (fuel : nat) okv (iter : IterMem E) (nextKey : bytes) : outcome unit :=
  match fuel with
  | O => Panic "out of fuel"
  | S fuel =>
      if iter_Valid iter && negb (bool_decide (im_key iter = okv_startKey okv)) then
        '(okv, entry) ← read_at okv (im_value iter);
        _ ← require (bool_decide (NextKey entry = nextKey)) "Invalid NextKey";
        iter' ← Backward_Next (okv_idxTree okv) iter;
        check_links fuel okv iter' (im_key iter)
      else mret tt
  end.
Definition CheckConsistency (fuel : nat) okv : outcome unit :=
  iter ← NVTree_ReverseIterator (okv_idxTree okv) [] (okv_endKey okv);
  check_links fuel okv iter (okv_endKey okv).

(** ** Iterators over the store *)

(** [OnvaIterator]: an iterator of the index; the store it belongs to is passed
    to [Value], which reads the entry. [None] is nil. *)
Definition OnvaIterator : Type := IterMem E.
Definition OnvaKV_Iterator okv (start end_ : bytes) : outcome OnvaIterator := NVTree_Iterator (okv_idxTree okv) start end_.
Definition OnvaKV_ReverseIterator okv (start end_ : bytes) : outcome OnvaIterator := NVTree_ReverseIterator (okv_idxTree okv) start end_.
Definition Onva_Value okv (iter : OnvaIterator) : outcome (OnvaKV * option bytes) :=
  if negb (iter_Valid iter) then mret (okv, None) else
  '(okv, e) ← read_at okv (im_value iter); mret (okv, Value e).

(** A client's loop over an iterator: the keys and their values. *)
Fixpoint onva_collect (next : NVTreeMem T → OnvaIterator → outcome OnvaIterator) (fuel : nat) okv (iter : OnvaIterator) :
    outcome (OnvaKV * list (bytes * option bytes)) :=
  match fuel with
  | O => Panic "out of fuel"
  | S fuel =>
      if iter_Valid iter then
        '(okv, v) ← Onva_Value okv iter;
        iter' ← next (okv_idxTree okv) iter;
        '(okv, l) ← onva_collect next fuel okv iter';
        mret (okv, (im_key iter, v) :: l)
      else mret (okv, [])
  end.

(** The loop of [PruneBeforeHeight] that looks for the first twig to keep;
    [None] when the method returns early. *)
Fixpoint prune_end (fuel : nat) okv (end_ endHeight height : Z) : outcome (option Z) :=
  match fuel with
  | O => Panic "out of fuel"
  | S fuel =>
      if (endHeight <? height) && dt_TwigCanBePruned (okv_datTree okv) end_ then
        let end_ := to_int64 (end_ + 1) in
        endHeight ← GetTwigHeight (okv_rocksdb okv) end_;
        if endHeight <? 0 then mret None else prune_end fuel okv end_ endHeight height
      else mret (Some end_)
  end.

Definition PruneBeforeHeight (fuel : nat) okv (height : Z) : outcome OnvaKV :=
  let start := to_int64 (GetLastPrunedTwig (okv_meta okv) + 1) in
  let end_ := to_int64 (start + 1) in
  endHeight ← GetTwigHeight (okv_rocksdb okv) end_;
  if endHeight <? 0 then mret okv else
  r ← prune_end fuel okv end_ endHeight height;
  match r with
  | None => mret okv
  | Some end_ =>
      let end_ := to_int64 (end_ - 1) in
      okv ← (if end_ >? start then
        '(d, edgeNodesBytes) ← dt_PruneTwigs (okv_datTree okv) start end_;
        let okv := set_datTree okv d in
        let r := SetEdgeNodes (okv_rocksdb okv) edgeNodesBytes in
        let r := foldl (λ r i, DeleteTwigHeight r (start + Z.of_nat i)) r (seq 0 (Z.to_nat (end_ - start))) in
        mret (set_meta (set_rocksdb okv r) (SetLastPrunedTwig (okv_meta okv) (end_ - 1)))
      else mret okv);
      mret (set_rocksdb okv (SetPruneHeight (okv_rocksdb okv) (to_uint64 height)))
  end.

(** ** Opening the store *)

(** One of the 2048 dummy entries that fill the first twig. *)
Definition append_dummy okv : outcome OnvaKV :=
  let sn := GetMaxSerialNum (okv_meta okv) in
  okv ← incr_serial okv;
  '(okv, _) ← dat_append okv (DummyEntry sn);
  '(okv, _) ← dat_deactiviate okv sn;
  mret okv.

(** [NewOnvaKV] on a directory that does not exist: over an empty data tree
    and an empty RocksDB. *)
Definition NewOnvaKV_create (r : RocksDB D) (newTree : DT) (canQueryHistory : bool) (startKey endKey : bytes) : outcome OnvaKV :=
  let okv := mkOnvaKV NewMetaDB (NewNVTreeMem canQueryHistory) newTree (OpenNewBatch r) [] NewBucketMap NewBucketMap [] [] in
  '(m, r) ← MetaDB_Init (okv_rocksdb okv);
  let okv := set_rocksdb (set_meta okv m) r in
  okv ← for_state (λ okv _, append_dummy okv) okv (seq 0 2048);
  okv ← InitGuards okv startKey endKey;
  let r := CloseOldBatch (okv_rocksdb okv) in
  mret (set_rocksdb okv (SetIsRunning r true)).

(** [NewOnvaKV] on an existing directory: [recoverTree] and [loadTree] are
    [datatree.RecoverTree] - of the edge nodes, the last pruned, the oldest
    active and the youngest twig - and [datatree.LoadTree] on its files. *)
Definition NewOnvaKV_open (fuel : nat) (r : RocksDB D) (recoverTree : option bytes → Z → Z → Z → outcome DT) (loadTree : outcome DT)
    (canQueryHistory : bool) : outcome OnvaKV :=
  m ← ReloadFromKVDB r;
  d ← (if GetIsRunning r then
         recoverTree (GetEdgeNodes r) (GetLastPrunedTwig m) (GetOldestActiveTwigID m) (Z.shiftr (GetMaxSerialNum m) TwigShift)
       else loadTree);
  let okv := mkOnvaKV m (NewNVTreeMem canQueryHistory) d r [] NewBucketMap NewBucketMap [] [] in
  okv ← (if canQueryHistory then
           t ← NVTree_Init fuel (okv_idxTree okv) r None; mret (set_idxTree okv t)
         else
           t ← NVTree_BeginWrite (okv_idxTree okv) 0;
           '(d, kps) ← dt_ScanEntriesLite (okv_datTree okv) (GetOldestActiveTwigID m);
           okv ← for_state (λ okv kp, idx_set okv (kpKey kp) (kpPos kp)) (set_datTree (set_idxTree okv t) d) kps;
           t ← NVTree_EndWrite (okv_idxTree okv);
           mret (set_idxTree okv t));
  mret (set_rocksdb okv (SetIsRunning (okv_rocksdb okv) true)).
End onvakv.
