(* ===== verification/Relink.v ===== *)
(** * Linking the keys of a block

    The loop of [OnvaKV.update] that gives each changed entry and its
    predecessor the right [NextKey]. [S] is the set of keys before the block
    and [S'] the one after it; the cached entries hold every changed key with
    its old neighbours. Then the neighbours the loop finds among the cached
    entries are the neighbours in [S'], and the entries whose successor
    changes are exactly the ones it touches. *)
From S2P Require Import Prelude Types ByteOrder OnvaKV.

(** [p] is the last key of [S] before [k], [n] the first one after it. *)
Definition prev_in (S : bytes → Prop) (k p : bytes) : Prop := S p ∧ p <b k ∧ ∀ k', S k' → k' <b k → k' ≤b p.
Definition next_in (S : bytes → Prop) (k n : bytes) : Prop := S n ∧ k <b n ∧ ∀ k', S k' → k <b k' → n ≤b k'.

Lemma prev_in_unique S k p q : prev_in S k p → prev_in S k q → p = q.
Proof. intros (H1 & H2 & H3) (H4 & H5 & H6). apply bytes_le_antisym; auto. Qed.
Lemma next_in_unique S k p q : next_in S k p → next_in S k q → p = q.
Proof. intros (H1 & H2 & H3) (H4 & H5 & H6). apply bytes_le_antisym; auto. Qed.

(** The successor of a predecessor. *)
Lemma next_of_prev_in (S : bytes → Prop) k p : prev_in S k p → S k → next_in S p k.
Proof.
  intros (Hp & Hlt & Hmax) Hk. split_and!; [done|done|]. intros k' Hk' Hpk'. apply bytes_nlt_ge. intros Hlt'.
  specialize (Hmax k' Hk' Hlt'). by apply bytes_nlt_ge in Hmax.
Qed.
Lemma next_of_prev_out (S : bytes → Prop) k p n : prev_in S k p → ¬ S k → next_in S k n → next_in S p n.
Proof.
  intros (Hp & Hlt & Hmax) Hk (Hn & Hkn & Hmin). split_and!; [done|by eapply bytes_lt_trans|].
  intros k' Hk' Hpk'. destruct (bytes_lt_total k' k) as [Hlt'|[->|Hgt]]; [|done|by apply Hmin].
  specialize (Hmax k' Hk' Hlt'). by apply bytes_nlt_ge in Hmax.
Qed.

Definition hk (h : HotEntry) : bytes := Key (EntryPtr h).

(** Set and not there before; or deleted: the entries that change the keys. *)
Definition is_deleted (h : HotEntry) : Prop := isFakeInserted h = false ∧ Operation h = OpDelete.
Definition is_inserted (h : HotEntry) : Prop := isFakeInserted h = false ∧ isInserted h = true.
Definition changed (h : HotEntry) : Prop := is_deleted h ∨ is_inserted h.
Definition acts (h : HotEntry) : bool :=
  negb (isFakeInserted h) && (bool_decide (Operation h = OpDelete) || isInserted h || isModified h).

(** What the loop does not change. *)
Definition static (h h' : HotEntry) : Prop :=
  Operation h' = Operation h ∧ EntryPtr h' = set_NextKey (EntryPtr h) (NextKey (EntryPtr h')).

Lemma static_refl h : static h h.
Proof. split; [done|]. destruct h as [[] ???]; done. Qed.
Lemma static_hk h h' : static h h' → hk h' = hk h.
Proof. intros [_ H]. unfold hk. by rewrite H. Qed.
Lemma static_tests h h' : static h h' → isFakeInserted h' = isFakeInserted h ∧ isInserted h' = isInserted h ∧
  isModified h' = isModified h ∧ isHintHotEntry h' = isHintHotEntry h ∧ stays h' = stays h.
Proof.
  intros [Ho He]. assert (SerialNum (EntryPtr h') = SerialNum (EntryPtr h)) as Hs by (by rewrite He).
  assert (Value (EntryPtr h') = Value (EntryPtr h)) as Hv by (by rewrite He).
  unfold stays, isFakeInserted, isInserted, isModified, isHintHotEntry. by rewrite Ho, Hs, Hv.
Qed.

(** ** Scanning for the neighbours that stay *)

Lemma getPrev_from_spec l n : (n ≤ length l)%nat →
  match getPrev_from l n with
  | Some j => (j < n)%nat ∧ (∃ h, l !! j = Some h ∧ stays h = true) ∧ ∀ i h, (j < i < n)%nat → l !! i = Some h → stays h = false
  | None => ∀ i h, (i < n)%nat → l !! i = Some h → stays h = false
  end.
Proof.
  induction n as [|n IH]; intros Hn; cbn; [intros; lia|].
  destruct (lookup_lt_is_Some_2 l n ltac:(lia)) as [h Hh]. rewrite Hh. destruct (stays h) eqn:Hs.
  - split; [lia|]. split; [by exists h|]. intros; lia.
  - specialize (IH ltac:(lia)). destruct (getPrev_from l n) as [j|].
    + destruct IH as (Hj & Hlive & Hbetween). split; [lia|]. split; [done|]. intros i h' Hi Hl.
      destruct (decide (i = n)) as [->|]; [congruence|]. apply (Hbetween i); [lia|done].
    + intros i h' Hi Hl. destruct (decide (i = n)) as [->|]; [congruence|]. apply (IH i); [lia|done].
Qed.

(** Scanning passes over the entries that do not stay. *)
Lemma getPrev_from_skip l n m : (m ≤ n ≤ length l)%nat → (∀ i h, (m ≤ i < n)%nat → l !! i = Some h → stays h = false) →
  getPrev_from l n = getPrev_from l m.
Proof.
  induction n as [|n IH]; intros Hmn Hdead; [by replace m with 0%nat by lia|].
  destruct (decide (m = S n)) as [->|]; [done|]. cbn.
  destruct (lookup_lt_is_Some_2 l n ltac:(lia)) as [h Hh]. rewrite Hh, (Hdead n h ltac:(lia) Hh).
  apply IH; [lia|]. intros i h' Hi. apply Hdead. lia.
Qed.

Lemma getNext_from_spec l j : match getNext_from l j with
  | Some m => (j ≤ m < j + length l)%nat ∧ (∃ h, l !! (m - j)%nat = Some h ∧ stays h = true) ∧
      ∀ i h, (j ≤ i < m)%nat → l !! (i - j)%nat = Some h → stays h = false
  | None => ∀ i h, l !! i = Some h → stays h = false
  end.
Proof.
  revert j. induction l as [|h l IH]; intros j; cbn; [done|]. destruct (stays h) eqn:Hs.
  - split; [lia|]. split; [exists h; by rewrite Nat.sub_diag|]. intros; lia.
  - specialize (IH (S j)). destruct (getNext_from l (S j)) as [m|].
    + destruct IH as (Hm & (h' & Hh' & Hlive) & Hbetween). split; [lia|]. split.
      * exists h'. replace (m - j)%nat with (S (m - S j)) by lia. done.
      * intros i h0 Hi Hl. destruct (decide (i = j)) as [->|]; [rewrite Nat.sub_diag in Hl; cbn in Hl; congruence|].
        apply (Hbetween i); [lia|]. by replace (i - j)%nat with (S (i - S j)) in Hl by lia.
    + intros [|i] h0; cbn; [congruence|]. apply IH.
Qed.

Definition next_from (l : list HotEntry) (i : nat) : option nat := getNext_from (drop i l) i.
Lemma next_from_spec l n : match next_from l n with
  | Some j => (n ≤ j < length l)%nat ∧ (∃ h, l !! j = Some h ∧ stays h = true) ∧ ∀ i h, (n ≤ i < j)%nat → l !! i = Some h → stays h = false
  | None => ∀ i h, (n ≤ i)%nat → l !! i = Some h → stays h = false
  end.
Proof.
  unfold next_from. pose proof (getNext_from_spec (drop n l) n) as H. destruct (getNext_from _ _) as [j|].
  - destruct H as (Hj & (h & Hh & Hs) & Hb). rewrite length_drop in Hj. split; [lia|]. split.
    + exists h. rewrite lookup_drop in Hh. by replace (n + (j - n))%nat with j in Hh by lia.
    + intros i h' Hi Hl. apply (Hb i); [lia|]. rewrite lookup_drop. by replace (n + (i - n))%nat with i by lia.
  - intros i h Hi Hl. apply (H (i - n)%nat). rewrite lookup_drop. by replace (n + (i - n))%nat with i by lia.
Qed.
Lemma next_from_skip l n m : (n ≤ m)%nat → (∀ i h, (n ≤ i < m)%nat → l !! i = Some h → stays h = false) →
  next_from l n = next_from l m.
Proof.
  intros Hnm Hdead. pose proof (next_from_spec l n) as H1. pose proof (next_from_spec l m) as H2.
  destruct (next_from l n) as [a|], (next_from l m) as [b|]; [f_equal|exfalso..|done].
  - destruct H1 as (? & (h1 & L1 & S1) & B1), H2 as (? & (h2 & L2 & S2) & B2).
    destruct (lt_eq_lt_dec a b) as [[Hlt| ->]|Hgt]; [|done|].
    + destruct (decide (a < m)%nat); [rewrite (Hdead a h1) in S1|rewrite (B2 a h1) in S1]; done || lia.
    + rewrite (B1 b h2) in S2; [done|lia|done].
  - destruct H1 as (? & (h1 & L1 & S1) & B1). destruct (decide (a < m)%nat); [rewrite (Hdead a h1) in S1|rewrite (H2 a h1) in S1]; done || lia.
  - destruct H2 as (? & (h2 & L2 & S2) & B2). rewrite (H1 b h2) in S2; [done|lia|done].
Qed.

(** ** The cached entries of a block *)

Definition hk_lt (a b : HotEntry) : Prop := hk a <b hk b.

Record cached (S S' : bytes → Prop) (L : list HotEntry) : Prop := {
  ca_sorted : StronglySorted hk_lt L;
  (** the new keys: the cached entries that stay, and the old keys that are not cached *)
  ca_new k : S' k ↔ (∃ h, h ∈ L ∧ hk h = k ∧ stays h = true) ∨ (S k ∧ ∀ h, h ∈ L → hk h ≠ k);
  ca_gone h : h ∈ L → S (hk h) → stays h = false → is_deleted h;
  ca_fresh h : h ∈ L → is_inserted h → ¬ S (hk h);
  ca_stays h : h ∈ L → stays h = true → S (hk h) ∨ is_inserted h;
  (** the old neighbours of a changed key are cached *)
  ca_prev h : h ∈ L → changed h → ∃ p, p ∈ L ∧ isHintHotEntry p = false ∧ prev_in S (hk h) (hk p);
  ca_next h : h ∈ L → changed h → ∃ n, n ∈ L ∧ next_in S (hk h) (hk n);
  ca_hint h : h ∈ L → Operation h ≠ OpNone → isHintHotEntry h = false
}.

Lemma sorted_lookup_lt (L : list HotEntry) i j a b : StronglySorted hk_lt L → L !! i = Some a → L !! j = Some b → hk a <b hk b ↔ (i < j)%nat.
Proof.
  intros Hs Hi Hj. assert (∀ i j a b, L !! i = Some a → L !! j = Some b → (i < j)%nat → hk a <b hk b) as H.
  { clear - Hs. induction Hs as [|x L Hs IH Hx]; intros i j a b Hi Hj Hlt; [done|]. destruct i as [|i], j as [|j]; try lia; cbn in *.
    - injection Hi as <-. rewrite Forall_forall in Hx. apply Hx. by eapply list_elem_of_lookup_2.
    - eapply IH; [done|done|lia]. }
  split; [|by apply H]. intros Hlt. destruct (lt_eq_lt_dec i j) as [[?| ->]|Hgt]; [done| |].
  - assert (a = b) as -> by congruence. by apply (irreflexivity bytes_lt) in Hlt.
  - exfalso. apply (irreflexivity bytes_lt (hk a)). eapply bytes_lt_trans; [done|]. by eapply H.
Qed.
Lemma sorted_lookup_eq (L : list HotEntry) i j a b : StronglySorted hk_lt L → L !! i = Some a → L !! j = Some b → hk a = hk b → i = j.
Proof.
  intros Hs Hi Hj Heq. destruct (lt_eq_lt_dec i j) as [[Hlt|?]|Hlt]; [|done|].
  - apply (sorted_lookup_lt L i j a b Hs Hi Hj) in Hlt. rewrite Heq in Hlt. by apply (irreflexivity bytes_lt) in Hlt.
  - apply (sorted_lookup_lt L j i b a Hs Hj Hi) in Hlt. rewrite Heq in Hlt. by apply (irreflexivity bytes_lt) in Hlt.
Qed.

Section neighbours.
Context (S S' : bytes → Prop) (L : list HotEntry) (HL : cached S S' L).

Lemma cached_lookup_lt i j a b : L !! i = Some a → L !! j = Some b → hk a <b hk b ↔ (i < j)%nat.
Proof. intros. apply (sorted_lookup_lt L); [apply HL|done|done]. Qed.
Lemma cached_lookup_le i j a b : L !! i = Some a → L !! j = Some b → hk a ≤b hk b ↔ (i ≤ j)%nat.
Proof. intros. rewrite <- bytes_nlt_ge, (cached_lookup_lt j i) by done. lia. Qed.
Lemma cached_key i h : L !! i = Some h → S' (hk h) ↔ stays h = true.
Proof.
  intros Hi. assert (h ∈ L) as Hin by (by eapply list_elem_of_lookup_2). rewrite (ca_new _ _ _ HL). split.
  - intros [(h' & Hin' & Hk & Hs)|[_ Hno]]; [|by destruct (Hno h)].
    apply list_elem_of_lookup in Hin' as [j Hj]. assert (j = i) as -> by (eapply sorted_lookup_eq; [apply HL|done..]). congruence.
  - intros Hs. left. by exists h.
Qed.

(** A key of the new set that is not one of the entries at [m..i-1] lies on
    one side of them. *)
Lemma getPrev_ok i c : L !! i = Some c → changed c → ∃ j p, getPrev_from L i = Some j ∧ L !! j = Some p ∧ stays p = true ∧ isHintHotEntry p = false ∧ prev_in S' (hk c) (hk p).
Proof.
  revert c. induction i as [i IH] using lt_wf_ind. intros c Hi Hc.
  pose proof (lookup_lt_Some _ _ _ Hi) as Hlen.
  destruct (ca_prev _ _ _ HL c ltac:(by eapply list_elem_of_lookup_2) Hc) as (p & Hp & Hph & HSp & Hpc & Hmax).
  apply list_elem_of_lookup in Hp as [ip Hip]. pose proof (proj1 (cached_lookup_lt ip i p c Hip Hi) Hpc) as Hlt.
  (* a key of the new set below [c] is an entry below [i], or not above [p] *)
  assert (∀ k', S' k' → k' <b hk c → (∃ m h, (m < i)%nat ∧ L !! m = Some h ∧ hk h = k' ∧ stays h = true) ∨ k' ≤b hk p) as Hbelow.
  { intros k' Hk' Hk'c. apply (ca_new _ _ _ HL) in Hk' as [(h & Hin & <- & Hs)|[HS _]]; [left|right; by apply Hmax].
    apply list_elem_of_lookup in Hin as [m Hm]. exists m, h. split_and!; [|done..]. by apply (cached_lookup_lt m i h c). }
  pose proof (getPrev_from_spec L i ltac:(lia)) as Hspec. assert ((∃ j, getPrev_from L i = Some j ∧ (ip ≤ j)%nat) ∨ ¬ ∃ j, getPrev_from L i = Some j ∧ (ip ≤ j)%nat) as [(j & Ej & Hj)|Hno].
  { destruct (getPrev_from L i) as [j|]; [destruct (decide (ip ≤ j)%nat)|]; naive_solver. }
  - rewrite Ej in Hspec. destruct Hspec as (Hji & (h & Hh & Hs) & Hb). exists j, h.
    assert (isHintHotEntry h = false) as Hhint.
    { destruct (decide (j = ip)) as [->|]; [congruence|].
      assert (h ∈ L) as Hin by (by eapply list_elem_of_lookup_2).
      destruct (ca_stays _ _ _ HL h Hin Hs) as [HSh|Hins].
      - exfalso. assert (hk h ≤b hk p) as Hle by (apply Hmax; [done|by apply (cached_lookup_lt j i)]).
        apply (cached_lookup_le j ip) in Hle; [lia|done|done].
      - apply (ca_hint _ _ _ HL h Hin). destruct Hins as [_ Hi']. unfold isInserted in Hi'. by destruct (Operation h). }
    split_and!; [done|done|done|done|].
    split_and!; [by apply (cached_key j)|by apply (cached_lookup_lt j i)|].
    intros k' Hk' Hlt'. destruct (Hbelow k' Hk' Hlt') as [(m & h' & Hm & Hh' & <- & Hs')|Hle].
    + apply (cached_lookup_le m j); [done|done|]. destruct (decide (m ≤ j)%nat); [done|]. rewrite (Hb m h') in Hs'; [done|lia|done].
    + eapply bytes_le_trans; [done|]. by apply (cached_lookup_le ip j).
  - assert (∀ m h, (ip ≤ m < i)%nat → L !! m = Some h → stays h = false) as Hdead.
    { intros m h Hm Hh. destruct (getPrev_from L i) as [j|]; [|apply (Hspec m); [lia|done]].
      destruct Hspec as (Hji & _ & Hb). apply (Hb m); [|done]. split; [|lia]. destruct (decide (ip ≤ j)%nat); [|lia].
      destruct Hno. by exists j. }
    assert (stays p = false) as Hps by (by apply (Hdead ip)).
    assert (changed p) as Hcp by (left; eapply (ca_gone _ _ _ HL); [by eapply list_elem_of_lookup_2|done|done]).
    destruct (IH ip Hlt p Hip Hcp) as (j & q & Ej & Hq & Hqs & Hqh & HSq & Hqp & Hqmax).
    exists j, q. rewrite (getPrev_from_skip L i ip) by (done || lia). split_and!; [done|done|done|done|].
    split_and!; [done|by eapply bytes_lt_trans|]. intros k' Hk' Hlt'.
    destruct (Hbelow k' Hk' Hlt') as [(m & h' & Hm & Hh' & <- & Hs')|Hle].
    + apply Hqmax; [done|]. apply (cached_lookup_lt m ip); [done|done|].
      destruct (decide (m < ip)%nat); [done|]. rewrite (Hdead m h') in Hs'; [done|lia|done].
    + apply Hqmax; [done|]. apply bytes_le_lteq in Hle as [?| ->]; [done|]. exfalso.
      apply (cached_key ip p Hip) in Hk'. congruence.
Qed.

Lemma getNext_ok i c : L !! i = Some c → changed c → ∃ j n, getNext_from (drop (Datatypes.S i) L) (Datatypes.S i) = Some j ∧ L !! j = Some n ∧ stays n = true ∧ next_in S' (hk c) (hk n).
Proof.
  remember (length L - i)%nat as len eqn:Elen. revert i c Elen. induction len as [len IH] using lt_wf_ind. intros i c -> Hi Hc.
  pose proof (lookup_lt_Some _ _ _ Hi) as Hlen. fold (next_from L (Datatypes.S i)).
  destruct (ca_next _ _ _ HL c ltac:(by eapply list_elem_of_lookup_2) Hc) as (n & Hn & HSn & Hcn & Hmin).
  apply list_elem_of_lookup in Hn as [iN Hin]. pose proof (proj1 (cached_lookup_lt i iN c n Hi Hin) Hcn) as Hlt.
  pose proof (lookup_lt_Some _ _ _ Hin) as HlenN.
  assert (∀ k', S' k' → hk c <b k' → (∃ m h, (i < m)%nat ∧ L !! m = Some h ∧ hk h = k' ∧ stays h = true) ∨ hk n ≤b k') as Habove.
  { intros k' Hk' Hk'c. apply (ca_new _ _ _ HL) in Hk' as [(h & Hh & <- & Hs)|[HS _]]; [left|right; by apply Hmin].
    apply list_elem_of_lookup in Hh as [m Hm]. exists m, h. split_and!; [|done..]. by apply (cached_lookup_lt i m c h). }
  pose proof (next_from_spec L (Datatypes.S i)) as Hspec. assert ((∃ j, next_from L (Datatypes.S i) = Some j ∧ (j ≤ iN)%nat) ∨ ¬ ∃ j, next_from L (Datatypes.S i) = Some j ∧ (j ≤ iN)%nat) as [(j & Ej & Hj)|Hno].
  { destruct (next_from L (Datatypes.S i)) as [j|]; [destruct (decide (j ≤ iN)%nat)|]; naive_solver. }
  - rewrite Ej in Hspec. destruct Hspec as (Hji & (h & Hh & Hs) & Hb). exists j, h. split_and!; [done|done|done|].
    split_and!; [by apply (cached_key j)|apply (cached_lookup_lt i j); [done|done|lia]|].
    intros k' Hk' Hlt'. destruct (Habove k' Hk' Hlt') as [(m & h' & Hm & Hh' & <- & Hs')|Hle].
    + apply (cached_lookup_le j m); [done|done|]. destruct (decide (j ≤ m)%nat); [done|]. rewrite (Hb m h') in Hs'; [done|lia|done].
    + eapply bytes_le_trans; [|done]. by apply (cached_lookup_le j iN).
  - assert (∀ m h, (Datatypes.S i ≤ m < Datatypes.S iN)%nat → L !! m = Some h → stays h = false) as Hdead.
    { intros m h Hm Hh. destruct (next_from L (Datatypes.S i)) as [j|]; [|apply (Hspec m); [lia|done]].
      destruct Hspec as (Hji & _ & Hb). apply (Hb m); [|done]. split; [lia|]. destruct (decide (j ≤ iN)%nat); [|lia].
      destruct Hno. by exists j. }
    assert (stays n = false) as Hns by (apply (Hdead iN); [lia|done]).
    assert (changed n) as Hcn' by (left; eapply (ca_gone _ _ _ HL); [by eapply list_elem_of_lookup_2|done|done]).
    destruct (IH (length L - iN)%nat ltac:(lia) iN n eq_refl Hin Hcn') as (j & q & Ej & Hq & Hqs & HSq & Hnq & Hqmin).
    exists j, q. rewrite (next_from_skip L (Datatypes.S i) (Datatypes.S iN)) by (done || lia). split_and!; [done|done|done|].
    split_and!; [done|by eapply bytes_lt_trans|]. intros k' Hk' Hlt'.
    destruct (Habove k' Hk' Hlt') as [(m & h' & Hm & Hh' & <- & Hs')|Hle].
    + apply Hqmin; [done|]. apply (cached_lookup_lt iN m); [done|done|].
      destruct (decide (iN < m)%nat); [done|]. rewrite (Hdead m h') in Hs'; [done|lia|done].
    + apply Hqmin; [done|]. apply bytes_le_lteq in Hle as [?|<-]; [done|]. exfalso.
      apply (cached_key iN n Hin) in Hk'. congruence.
Qed.
End neighbours.

(** ** The loop *)

Lemma static_trans h h' h'' : static h h' → static h' h'' → static h h''.
Proof. intros [O1 E1] [O2 E2]. split; [congruence|]. rewrite E2, E1. done. Qed.
Lemma static_modify h : static h (modify h).
Proof. split; [done|]. by destruct h as [[] ???]. Qed.
Lemma static_link key h : static h (link key h).
Proof. split; [done|]. by destruct h as [[] ???]. Qed.
Lemma static_link_touch key h : static h (link_touch key h).
Proof. split; [done|]. by destruct h as [[] ???]. Qed.

Lemma getPrev_from_ext l l' n : (∀ i, stays <$> l !! i = stays <$> l' !! i) → getPrev_from l n = getPrev_from l' n.
Proof.
  intros H. induction n as [|n IH]; [done|]. cbn. specialize (H n).
  destruct (l !! n) as [h|], (l' !! n) as [h'|]; cbn in H; try done. injection H as ->. by rewrite IH.
Qed.
Lemma getNext_from_ext l l' j : (∀ i, stays <$> l !! i = stays <$> l' !! i) → getNext_from l j = getNext_from l' j.
Proof.
  revert l' j. induction l as [|h l IH]; intros [|h' l'] j H; [done|by specialize (H 0%nat)..|].
  cbn. pose proof (H 0%nat) as H0. cbn in H0. injection H0 as ->. rewrite (IH l'); [done|]. intros i. apply (H (S i)).
Qed.

Section relinking.
Context (S S' : bytes → Prop) (L : list HotEntry) (HL : cached S S' L).

(** What the loop has done to the entry at [j] after [n] rounds. *)
Record relinked (n j : nat) (h h' : HotEntry) : Prop := {
  rl_static : static h h';
  rl_modified : IsModified h' = (bool_decide (j < n)%nat && acts h);
  rl_inserted : is_inserted h → (j < n)%nat → next_in S' (hk h) (NextKey (EntryPtr h'));
  rl_touched : IsTouchedByNext h' = true → stays h = true ∧ isHintHotEntry h = false ∧ next_in S' (hk h) (NextKey (EntryPtr h'));
  rl_untouched : IsTouchedByNext h' = false → (is_inserted h → (n ≤ j)%nat) → NextKey (EntryPtr h') = NextKey (EntryPtr h);
  rl_before i c : (i < n)%nat → L !! i = Some c → changed c → prev_in S' (hk c) (hk h) → IsTouchedByNext h' = true
}.

Definition relink_inv (n : nat) (l : list HotEntry) : Prop :=
  length l = length L ∧ ∀ j h, L !! j = Some h → ∃ h', l !! j = Some h' ∧ relinked n j h h'.

Lemma relink_inv_static n l : relink_inv n l → ∀ i, stays <$> l !! i = stays <$> L !! i.
Proof.
  intros [Hlen H] i. destruct (L !! i) as [h|] eqn:Hi.
  - destruct (H i h Hi) as (h' & -> & [Hst _ _ _ _ _]). cbn. f_equal. by apply static_tests.
  - apply lookup_ge_None in Hi. by rewrite (lookup_ge_None_2 l i) by lia.
Qed.

Lemma stays_alter f (l : list HotEntry) j : (∀ h, stays (f h) = stays h) → ∀ i, stays <$> alter f j l !! i = stays <$> l !! i.
Proof.
  intros Hf i. destruct (decide (i = j)) as [->|Hne]; [|by rewrite list_lookup_alter_ne].
  rewrite list_lookup_alter_eq. destruct (l !! j) as [h|]; [apply (f_equal Some), Hf|done].
Qed.
Lemma stays_modify h : stays (modify h) = stays h.
Proof. apply static_tests, static_modify. Qed.
Lemma stays_link key h : stays (link key h) = stays h.
Proof. apply static_tests, static_link. Qed.

(** An entry whose neighbours do not change. *)
Lemma relinked_skip n j h h' c : L !! n = Some c → ¬ changed c → (j = n → acts h = false) → (j = n → ¬ is_inserted h) →
  relinked n j h h' → relinked (Datatypes.S n) j h h'.
Proof.
  intros Hn Hc Ha Hi []. constructor; [done| | |done| |].
  - rewrite rl_modified0. destruct (decide (j = n)) as [->|]; [rewrite Ha by done; by rewrite !andb_false_r|].
    f_equal. apply bool_decide_ext. lia.
  - intros H Hj. destruct (decide (j = n)) as [->|]; [by destruct Hi|]. apply rl_inserted0; [done|lia].
  - intros Ht H. apply rl_untouched0; [done|]. intros H'. specialize (H H'). lia.
  - intros i c' Hi' Hc' Hch. destruct (decide (i = n)) as [->|]; [by replace c' with c in Hch by congruence|]. apply (rl_before0 i c'); [lia|done..].
Qed.

(** An entry away from the changed one and its predecessor. *)
Lemma relinked_other n j h h' c p q : L !! n = Some c → j ≠ n → prev_in S' (hk c) (hk q) → L !! p = Some q → L !! j = Some h → j ≠ p →
  relinked n j h h' → relinked (Datatypes.S n) j h h'.
Proof.
  intros Hn Hj Hq Hp Hjh Hjp []. constructor; [done| | |done| |].
  - rewrite rl_modified0. f_equal. apply bool_decide_ext. lia.
  - intros H Hj'. apply rl_inserted0; [done|lia].
  - intros Ht H. apply rl_untouched0; [done|]. intros H'. specialize (H H'). lia.
  - intros i c' Hi' Hc' Hch Hprev. destruct (decide (i = n)) as [->|]; [|apply (rl_before0 i c'); [lia|done..]].
    replace c' with c in * by congruence. destruct Hjp. eapply (sorted_lookup_eq L); [apply HL|done|done|].
    by eapply prev_in_unique.
Qed.

(** The predecessor of a changed entry. *)
Lemma relinked_prev n j h h' key : (j < n)%nat → stays h = true → isHintHotEntry h = false → next_in S' (hk h) key →
  relinked n j h h' → relinked (Datatypes.S n) j h (link_touch key h').
Proof.
  intros Hj Hs Hh Hk []. constructor; cbn; try done.
  - eapply static_trans; [done|apply static_link_touch].
  - rewrite rl_modified0. f_equal. apply bool_decide_ext. lia.
Qed.

(** The changed entry itself. *)
Lemma relinked_self n h h' : L !! n = Some h → acts h = true → ¬ is_inserted h →
  relinked n n h h' → relinked (Datatypes.S n) n h (modify h').
Proof.
  intros Hn Ha Hi []. constructor; cbn.
  - eapply static_trans; [done|apply static_modify].
  - rewrite bool_decide_eq_true_2 by lia. by rewrite Ha.
  - done.
  - done.
  - intros Ht _. by apply rl_untouched0.
  - intros i c Hi' Hc Hch Hprev. destruct (decide (i = n)) as [->|]; [|apply (rl_before0 i c); [lia|done..]].
    exfalso. replace c with h in * by congruence. destruct Hprev as (_ & Hlt & _). by apply (irreflexivity bytes_lt) in Hlt.
Qed.
Lemma relinked_self_inserted n h h' key : L !! n = Some h → acts h = true → stays h = true → is_inserted h → next_in S' (hk h) key →
  relinked n n h h' → relinked (Datatypes.S n) n h (link key (modify h')).
Proof.
  intros Hn Ha Hs Hi Hk []. constructor; cbn.
  - eapply static_trans; [done|]. eapply static_trans; [apply static_modify|apply static_link].
  - rewrite bool_decide_eq_true_2 by lia. by rewrite Ha.
  - done.
  - intros Ht. by destruct (rl_touched0 Ht) as (_ & ? & _).
  - intros _ H. specialize (H Hi). lia.
  - intros i c Hi' Hc Hch Hprev. destruct (decide (i = n)) as [->|]; [|apply (rl_before0 i c); [lia|done..]].
    exfalso. replace c with h in * by congruence. destruct Hprev as (_ & Hlt & _). by apply (irreflexivity bytes_lt) in Hlt.
Qed.

Lemma lookup_alter2 (f g : HotEntry → HotEntry) (l : list HotEntry) n p j h : l !! j = Some h →
  alter g p (alter f n l) !! j = Some ((if decide (j = p) then g else id) ((if decide (j = n) then f else id) h)).
Proof.
  intros Hj. destruct (decide (j = p)) as [->|Hp]; [rewrite list_lookup_alter_eq|rewrite list_lookup_alter_ne by done];
    destruct (decide (_ = n)) as [->|Hn]; rewrite ?list_lookup_alter_eq, ?list_lookup_alter_ne by done; by rewrite Hj.
Qed.

Lemma deleted_not_inserted h : is_deleted h → ¬ is_inserted h.
Proof. intros [_ H1] [_ H2]. unfold isInserted in H2. rewrite H1 in H2. done. Qed.
Lemma deleted_acts h : is_deleted h → acts h = true.
Proof. intros [H1 H2]. unfold acts. by rewrite H1, H2. Qed.
Lemma inserted_acts h : is_inserted h → acts h = true.
Proof. intros [H1 H2]. unfold acts. rewrite H1, H2. by rewrite orb_true_r. Qed.
Lemma inserted_stays h : is_inserted h → stays h = true.
Proof.
  intros [H1 H2]. unfold stays. rewrite H1. unfold isInserted in H2. apply andb_true_iff in H2 as [H2%bool_decide_eq_true _].
  by rewrite H2.
Qed.
Lemma deleted_stays h : is_deleted h → stays h = false.
Proof. intros [_ H]. unfold stays. by rewrite H. Qed.

(** The neighbours found in the current list. *)
Lemma neighbours_ok n l c : relink_inv n l → L !! n = Some c → changed c →
  ∃ j nx p pv, getNext (alter modify n l) n = Ret j ∧ key_at (alter modify n l) j = Ret (hk nx) ∧ next_in S' (hk c) (hk nx) ∧
    (∀ k, getPrev (alter (link k) n (alter modify n l)) n = Ret p) ∧ getPrev (alter modify n l) n = Ret p ∧
    L !! p = Some pv ∧ (p < n)%nat ∧ (stays pv = true ∧ isHintHotEntry pv = false) ∧ prev_in S' (hk c) (hk pv).
Proof.
  intros Hinv Hn Hc. destruct (getNext_ok S S' L HL n c Hn Hc) as (j & nx & Ej & Hnx & _ & Hnext).
  destruct (getPrev_ok S S' L HL n c Hn Hc) as (p & pv & Ep & Hpv & Hs & Hh & Hprev).
  pose proof (relink_inv_static _ _ Hinv) as Hst.
  pose proof (getPrev_from_spec L n ltac:(apply lookup_lt_Some in Hn; lia)) as Hspec. rewrite Ep in Hspec.
  assert (∀ i, stays <$> alter modify n l !! i = stays <$> L !! i) as Hst1 by (intros i; by rewrite (stays_alter modify) by apply stays_modify).
  exists j, nx, p, pv. split_and!; [..|done|apply Hspec|done|done|done].
  - unfold getNext. rewrite (getNext_from_ext _ (drop (Datatypes.S n) L)); [by rewrite Ej|].
    intros i. rewrite !lookup_drop. apply Hst1.
  - unfold key_at. destruct Hinv as [_ Hinv]. destruct (Hinv j nx Hnx) as (nx' & Hnx' & [Hss _ _ _ _ _]).
    destruct (decide (j = n)) as [->|]; [rewrite list_lookup_alter_eq|rewrite list_lookup_alter_ne by done]; rewrite Hnx'; cbn;
      apply static_hk in Hss; unfold hk in Hss; by rewrite Hss.
  - done.
  - intros k. unfold getPrev. rewrite (getPrev_from_ext _ L), Ep; [done|]. intros i. rewrite (stays_alter (link k)) by apply stays_link. apply Hst1.
  - unfold getPrev. by rewrite (getPrev_from_ext _ L), Ep.
Qed.

Lemma relink_step n l : relink_inv n l → (n < length L)%nat → ∃ l', relink l n = Ret l' ∧ relink_inv (Datatypes.S n) l'.
Proof.
  intros Hinv Hlen. destruct (lookup_lt_is_Some_2 L n Hlen) as [c Hc]. pose proof Hinv as [Hll Hl].
  destruct (Hl n c Hc) as (c' & Hc' & Hrl). pose proof (rl_static _ _ _ _ Hrl) as Hst.
  pose proof (static_tests _ _ Hst) as (Tf & Ti & Tm & Th & Ts). pose proof (static_hk _ _ Hst) as Hk. destruct Hst as [Ho _].
  assert (c ∈ L) as Hin by (by eapply list_elem_of_lookup_2).
  unfold relink. rewrite Hc', Ho, Th, Tf, Ti, Tm. fold (hk c'). rewrite Hk.
  assert (negb (bool_decide (Operation c ≠ OpNone) && isHintHotEntry c) = true) as ->.
  { case_bool_decide as Hop; [|done]. by rewrite (ca_hint _ _ _ HL c). }
  cbn [require mbind outcome_bind].
  (* rounds that change no key *)
  assert (¬ changed c → acts c = false → ∃ l', Ret l = Ret l' ∧ relink_inv (Datatypes.S n) l') as Hskip.
  { intros Hnc Ha. exists l. split; [done|]. split; [done|]. intros j h Hj. destruct (Hl j h Hj) as (h' & Hh' & Hr).
    exists h'. split; [done|]. eapply relinked_skip; [exact Hc|done| | |done]; intros ->; replace h with c in * by congruence; [done|].
    intros Hi. apply Hnc. by right. }
  destruct (isFakeInserted c) eqn:Hf.
  { apply Hskip; [|unfold acts; by rewrite Hf]. intros [[H _]|[H _]]; congruence. }
  case_bool_decide as Hd; [|destruct (isInserted c) eqn:Hi; [|destruct (isModified c) eqn:Hm]].
  - assert (is_deleted c) as Hdel by done.
    destruct (neighbours_ok n l c Hinv Hc (or_introl Hdel)) as (j & nx & p & pv & Ej & Ek & Hnext & _ & Ep & Hp & Hpn & [Hps Hph] & Hprev).
    rewrite Ej. cbn [mbind outcome_bind]. rewrite Ek. cbn [mbind outcome_bind]. rewrite Ep. eexists. split; [reflexivity|].
    split; [by rewrite !length_alter|]. intros i h Hih. destruct (Hl i h Hih) as (h' & Hh' & Hr).
    eexists. split; [by apply lookup_alter2|]. destruct (decide (i = n)) as [->|Hin'].
    + rewrite decide_False by lia. cbn [id]. replace h with c in * by congruence. apply relinked_self; [done|by apply deleted_acts|by apply deleted_not_inserted|done].
    + destruct (decide (i = p)) as [->|Hip].
      * replace h with pv in * by congruence. apply relinked_prev; [done|done|done| |done].
        eapply next_of_prev_out; [done| |done]. rewrite (cached_key S S' L HL n c Hc). by rewrite deleted_stays.
      * eapply relinked_other; [exact Hc|done|done|exact Hp|done|done|done].
  - assert (is_inserted c) as Hins by done.
    destruct (neighbours_ok n l c Hinv Hc (or_intror Hins)) as (j & nx & p & pv & Ej & Ek & Hnext & Ep & _ & Hp & Hpn & [Hps Hph] & Hprev).
    rewrite Ej. cbn [mbind outcome_bind]. rewrite Ek. cbn [mbind outcome_bind]. rewrite Ep. eexists. split; [reflexivity|].
    split; [by rewrite !length_alter|]. intros i h Hih. destruct (Hl i h Hih) as (h' & Hh' & Hr).
    destruct (decide (i = n)) as [->|Hin'].
    + exists (link (hk nx) (modify h')). split.
      { rewrite list_lookup_alter_ne by lia. rewrite !list_lookup_alter_eq. by rewrite Hh'. }
      replace h with c in * by congruence. apply relinked_self_inserted; [done|by apply inserted_acts|by apply inserted_stays|done|done|done].
    + destruct (decide (i = p)) as [->|Hip].
      * exists (link_touch (hk c) h'). split.
        { rewrite list_lookup_alter_eq, !list_lookup_alter_ne by done. by rewrite Hh'. }
        replace h with pv in * by congruence. apply relinked_prev; [done|done|done| |done].
        eapply next_of_prev_in; [done|]. apply (cached_key S S' L HL n c Hc). by apply inserted_stays.
      * exists h'. split; [by rewrite !list_lookup_alter_ne by done|]. eapply relinked_other; [exact Hc|done|done|exact Hp|done|done|done].
  - eexists. split; [reflexivity|]. split; [by rewrite length_alter|]. intros i h Hih. destruct (Hl i h Hih) as (h' & Hh' & Hr).
    assert (¬ changed c) as Hnc by (intros [[_ ?]|[_ ?]]; congruence).
    destruct (decide (i = n)) as [->|Hin'].
    + exists (modify h'). split; [rewrite list_lookup_alter_eq; by rewrite Hh'|]. replace h with c in * by congruence.
      apply relinked_self; [done|unfold acts; by rewrite Hf, Hi, Hm, orb_true_r|intros ?; apply Hnc; by right|done].
    + exists h'. split; [by rewrite list_lookup_alter_ne|]. by eapply relinked_skip.
  - apply Hskip; [intros [[_ ?]|[_ ?]]; congruence|]. unfold acts. rewrite Hf, Hi, Hm. by rewrite bool_decide_eq_false_2.
Qed.

Lemma relink_all_ok : (∀ h, h ∈ L → IsModified h = false ∧ IsTouchedByNext h = false) →
  ∃ l, relink_all L = Ret l ∧ relink_inv (length L) l.
Proof.
  intros Hflags. unfold relink_all.
  assert (∀ m n l, (n + m ≤ length L)%nat → relink_inv n l → ∃ l', for_state relink l (seq n m) = Ret l' ∧ relink_inv (n + m) l') as H.
  { induction m as [|m IH]; intros n l Hn Hl; [exists l; by rewrite Nat.add_0_r|]. cbn [seq].
    destruct (relink_step n l Hl ltac:(lia)) as (l1 & E1 & H1). rewrite (for_state_step _ _ _ _ _ E1).
    replace (n + Datatypes.S m)%nat with (Datatypes.S n + m)%nat by lia. apply IH; [lia|done]. }
  apply (H (length L) 0%nat L); [lia|]. split; [done|]. intros j h Hj. exists h. split; [done|].
  destruct (Hflags h) as [Hm Ht]; [by eapply list_elem_of_lookup_2|]. constructor; [apply static_refl|done|intros; lia| |done|intros; lia].
  congruence.
Qed.

(** ** Entries whose successor does not change *)

Lemma not_new_deleted k : S k → ¬ S' k → ∃ c, c ∈ L ∧ hk c = k ∧ changed c.
Proof.
  intros HS HS'. destruct (decide (k ∈ hk <$> L)) as [(c & -> & Hc)%list_elem_of_fmap|Hno].
  - exists c. split_and!; [done|done|]. left. apply (ca_gone _ _ _ HL); [done|done|].
    destruct (stays c) eqn:Hs; [|done]. destruct HS'. apply (ca_new _ _ _ HL). left. by exists c.
  - destruct HS'. apply (ca_new _ _ _ HL). right. split; [done|]. intros h Hh <-. apply Hno, list_elem_of_fmap. by exists h.
Qed.
Lemma new_inserted k : S' k → ¬ S k → ∃ c, c ∈ L ∧ hk c = k ∧ changed c.
Proof.
  intros [(c & Hc & Hk & Hs)|[HS _]]%(ca_new _ _ _ HL) Hno; [|done]. exists c. split_and!; [done|done|]. right.
  destruct (ca_stays _ _ _ HL c Hc Hs) as [HS|?]; [|done]. by rewrite Hk in HS.
Qed.

Lemma next_unchanged k s : (∀ x, S x ∨ ¬ S x) → (∀ x, S' x ∨ ¬ S' x) → S' k → next_in S k s →
  (∀ c, c ∈ L → changed c → ¬ prev_in S' (hk c) k) → next_in S' k s.
Proof.
  intros Hdec Hdec' Hk' (Hs & Hks & Hmin) Hno.
  (* no new key lies between *)
  assert (∀ i c, L !! i = Some c → S' (hk c) → k <b hk c → hk c <b s → False) as Hnone.
  { induction i as [i IH] using lt_wf_ind. intros c Hc HSc Hkc Hcs.
    assert (¬ S (hk c)) as HnS by (intros HS; apply (Hmin _ HS), bytes_nlt_ge in Hkc; done).
    destruct (new_inserted _ HSc HnS) as (c' & Hc' & Ek & Hch). apply list_elem_of_lookup in Hc' as [i' Hi'].
    assert (i' = i) as -> by (eapply (sorted_lookup_eq L); [apply HL|done..]). replace c' with c in * by congruence.
    destruct (getPrev_ok S S' L HL i c Hc Hch) as (j & pv & Ej & Hpv & _ & _ & Hprev).
    pose proof (getPrev_from_spec L i ltac:(apply lookup_lt_Some in Hc; lia)) as Hspec. rewrite Ej in Hspec. destruct Hspec as [Hji _].
    pose proof Hprev as (HSp & Hpc & Hmax). pose proof (Hmax k Hk' Hkc) as [Hlt|Heq]%bytes_le_lteq.
    - apply (IH j Hji pv Hpv HSp Hlt). by eapply bytes_lt_trans.
    - apply (Hno c); [by eapply list_elem_of_lookup_2|done|]. by rewrite Heq. }
  assert (∀ k', S' k' → k <b k' → k' <b s → False) as Hnone'.
  { intros k' HS' Hlt Hlt'. destruct (Hdec k') as [HS|HS]; [apply (Hmin _ HS), bytes_nlt_ge in Hlt; done|].
    destruct (new_inserted _ HS' HS) as (c & Hc & <- & _). apply list_elem_of_lookup in Hc as [i Hi]. by eapply Hnone. }
  split_and!; [|done|].
  - destruct (Hdec' s) as [?|HnS]; [done|]. exfalso. destruct (not_new_deleted s Hs HnS) as (c & Hc & <- & Hch).
    apply list_elem_of_lookup in Hc as [i Hi]. destruct (getPrev_ok S S' L HL i c Hi Hch) as (j & pv & _ & Hpv & _ & _ & Hprev).
    pose proof Hprev as (HSp & Hpc & Hmax). pose proof (Hmax k Hk' Hks) as [Hlt|Heq]%bytes_le_lteq.
    + by eapply Hnone'.
    + apply (Hno c); [by eapply list_elem_of_lookup_2|done|]. by rewrite Heq.
  - intros k' HS' Hlt. apply bytes_nlt_ge. intros Hlt'. by eapply Hnone'.
Qed.
End relinking.
