(* ===== verification/Buckets.v ===== *)
(** * Bucket maps and the cached entries of a block

    A bucket map is one map whose keys are spread over 64 buckets by their six
    most significant bits, so that the sorted buckets, put together, are
    sorted. *)
From S2P Require Import Prelude Types ByteOrder OnvaKV Relink.

(** A key that is not empty, whose first byte is a byte. *)
Definition keyed (k : bytes) : Prop := ∃ b r, k = b :: r ∧ 0 ≤ b < 256.
Definition bucket_of (k : bytes) : nat := match k with [] => 0 | b :: _ => Z.to_nat (Z.shiftr b 2) end.

Lemma bucket_idx_ok k : keyed k → bucket_idx k = Ret (Z.of_nat (bucket_of k)) ∧ (bucket_of k < 64)%nat.
Proof.
  intros (b & r & -> & Hb). unfold bucket_idx, bucket_of. rewrite (index_zget _ 0 b) by done. cbn [mbind outcome_bind].
  rewrite Z.shiftr_div_pow2 by lia. change (2 ^ 2) with 4. assert (0 ≤ b / 4 < 64) by zdiv.
  split; [unfold mret, outcome_ret; f_equal; lia|lia].
Qed.

Lemma bucket_of_mono k k' : keyed k → keyed k' → k <b k' → (bucket_of k ≤ bucket_of k')%nat.
Proof.
  intros (b & r & -> & Hb) (b' & r' & -> & Hb') Hlt. unfold bucket_of, bytes_lt in *. cbn in Hlt.
  rewrite !Z.shiftr_div_pow2 by lia. change (2 ^ 2) with 4. assert (b ≤ b') by (destruct (Z.compare_spec b b'); [lia..|done]).
  apply Z2Nat.inj_le; zdiv.
Qed.

(** The bucket map holds the map [m]. *)
Record holds (bm : BucketMap) (m : gmap bytes (option HotEntry)) : Prop := {
  ho_length : length bm = 64%nat;
  ho_keyed k : is_Some (m !! k) → keyed k;
  ho_lookup i b k : bm !! i = Some b → b !! k = if decide (bucket_of k = i) then m !! k else None
}.

Lemma holds_new : holds NewBucketMap ∅.
Proof.
  split; [done|by intros k [? ?]|]. intros i b k Hb. unfold NewBucketMap in Hb. apply lookup_replicate in Hb as [-> _].
  rewrite !lookup_empty. by case_decide.
Qed.

Lemma BM_Load_ok bm m k : holds bm m → keyed k → BM_Load bm k = Ret (m !! k).
Proof.
  intros [Hl Hk Hb] Hkey. destruct (bucket_idx_ok k Hkey) as [E Hlt]. unfold BM_Load. rewrite E. cbn [mbind outcome_bind].
  destruct (lookup_lt_is_Some_2 bm (bucket_of k) ltac:(lia)) as [b Eb].
  rewrite (proj2 (index_Ret bm _ b)) by (split; [lia|by rewrite Nat2Z.id]). cbn [mbind outcome_bind].
  by rewrite (Hb _ _ k Eb), decide_True.
Qed.

Lemma BM_Store_ok bm m k v : holds bm m → keyed k → ∃ bm', BM_Store bm k v = Ret bm' ∧ holds bm' (<[k := v]> m).
Proof.
  intros Hh Hkey. pose proof Hh as [Hl Hk Hb]. destruct (bucket_idx_ok k Hkey) as [E Hlt]. unfold BM_Store. rewrite E. cbn [mbind outcome_bind].
  destruct (lookup_lt_is_Some_2 bm (bucket_of k) ltac:(lia)) as [b Eb].
  rewrite (proj2 (index_Ret bm _ b)) by (split; [lia|by rewrite Nat2Z.id]). cbn [mbind outcome_bind].
  rewrite store_index_Ret by (unfold zlen; lia). eexists. split; [reflexivity|]. unfold zset. rewrite (proj2 (Z.leb_le 0 _)) by lia. rewrite Nat2Z.id.
  split.
  - by rewrite length_insert.
  - intros k' [x Hx]. destruct (decide (k' = k)) as [->|Hne]; [done|]. rewrite lookup_insert_ne in Hx by done. apply Hk. by eexists.
  - intros i b' k' Hb'. apply list_lookup_insert_Some in Hb' as [(<- & <- & _)|[Hne Hi]].
    + destruct (decide (k' = k)) as [->|Hne]; [by rewrite !lookup_insert_eq, decide_True|].
      rewrite !lookup_insert_ne by done. by apply Hb.
    + rewrite (Hb _ _ k' Hi). case_decide as Hi'; [|done]. rewrite lookup_insert_ne; [done|]. intros <-. done.
Qed.

(** ** One bucket *)

Lemma sorted_strict (L : list HotEntry) : StronglySorted hot_le L → NoDup (hk <$> L) → StronglySorted hk_lt L.
Proof.
  induction 1 as [|x L Hs IH Hx]; intros Hn; [constructor|]. cbn in Hn. apply NoDup_cons in Hn as [Hni Hn].
  constructor; [by apply IH|]. rewrite Forall_forall in Hx |- *. intros y Hy. specialize (Hx y Hy).
  apply bytes_le_lteq in Hx as [?|E]; [done|]. destruct Hni. apply list_elem_of_fmap. exists y. by split.
Qed.

#[export] Instance hot_le_total : Total hot_le.
Proof.
  intros a b. unfold hot_le. destruct (bytes_lt_total (Key (EntryPtr a)) (Key (EntryPtr b))) as [H|[H|H]].
  - left. by apply bytes_lt_le.
  - left. rewrite H. apply bytes_le_refl.
  - right. by apply bytes_lt_le.
Qed.
#[export] Instance hot_le_trans : Transitive hot_le.
Proof. intros a b c. unfold hot_le. apply bytes_le_trans. Qed.

(** The entries that the two maps of a block stand for. *)
Definition is_cached (he nk : gmap bytes (option HotEntry)) (h : HotEntry) : Prop :=
  he !! hk h = Some (Some h) ∨ (he !! hk h = None ∧ is_Some (nk !! hk h) ∧ h = makeHintHotEntry (hk h)).

Definition keys_agree (he : gmap bytes (option HotEntry)) : Prop := ∀ k o, he !! k = Some o → ∃ h, o = Some h ∧ hk h = k.

Lemma bucket_entries_ok he nk : keys_agree he → ∃ L, bucket_entries he nk = Ret L ∧ StronglySorted hk_lt L ∧ ∀ h, h ∈ L ↔ is_cached he nk h.
Proof.
  intros Hag. unfold bucket_entries. rewrite bool_decide_eq_true_2.
  2:{ intros k o Ho. destruct (Hag k o Ho) as (h & -> & _). by eexists. }
  eexists. split; [reflexivity|].
  assert (∀ h, h ∈ omap id (map_to_list he).*2 ↔ he !! hk h = Some (Some h)) as Hhe.
  { intros h. rewrite list_elem_of_omap. split.
    - intros (o & Ho & E). apply list_elem_of_fmap in Ho as ([k o'] & -> & Hin%elem_of_map_to_list). cbn in E. unfold id in E. subst o'.
      destruct (Hag k _ Hin) as (h' & [= ->] & <-). done.
    - intros Hh. exists (Some h). split; [|done]. apply list_elem_of_fmap. exists (hk h, Some h). split; [done|]. by apply elem_of_map_to_list. }
  assert (∀ h, h ∈ makeHintHotEntry <$> filter (λ k, he !! k = None) (map_to_list nk).*1 ↔ he !! hk h = None ∧ is_Some (nk !! hk h) ∧ h = makeHintHotEntry (hk h)) as Hnk.
  { intros h. rewrite list_elem_of_fmap. split.
    - intros (k & -> & [Hk Hin]%list_elem_of_filter). apply list_elem_of_fmap in Hin as ([k' o] & -> & Hin%elem_of_map_to_list). by split_and!; [|eexists|].
    - intros (H1 & [o H2] & H3). exists (hk h). split; [done|]. apply list_elem_of_filter. split; [done|].
      apply list_elem_of_fmap. exists (hk h, o). split; [done|]. by apply elem_of_map_to_list. }
  split.
  - apply sorted_strict; [apply (StronglySorted_merge_sort hot_le)|]. rewrite merge_sort_Permutation, fmap_app. apply NoDup_app. split_and!.
    + assert (∀ l : list (bytes * option HotEntry), NoDup l.*1 → (∀ k o, (k, o) ∈ l → ∃ h, o = Some h ∧ hk h = k) → NoDup (hk <$> omap id l.*2)) as Hl.
      { induction l as [|[k o] l IH]; intros Hnd Hl; [constructor|]. cbn in Hnd. apply NoDup_cons in Hnd as [Hni Hnd].
        destruct (Hl k o ltac:(by left)) as (h & -> & Ek). cbn. apply NoDup_cons. split; [|apply IH; [done|]; intros; apply Hl; by right].
        intros (h' & E' & Hin)%list_elem_of_fmap. apply list_elem_of_omap in Hin as (o' & Ho' & Eo). unfold id in Eo. subst o'.
        apply list_elem_of_fmap in Ho' as ([k' o'] & Eo' & Hin'). cbn in Eo'. subst o'.
        destruct (Hl k' (Some h') ltac:(by right)) as (h'' & [= <-] & Ek'). apply Hni, list_elem_of_fmap. exists (k', Some h'). split; [cbn; congruence|done]. }
      apply Hl; [apply NoDup_fst_map_to_list|]. intros k o Hin%elem_of_map_to_list. by apply Hag.
    + intros k (h & -> & Hh)%list_elem_of_fmap (h' & E & Hh')%list_elem_of_fmap. apply Hhe in Hh. apply Hnk in Hh' as [Hh' _]. congruence.
    + rewrite <- list_fmap_compose. replace (_ <$> _) with (filter (λ k, he !! k = None) (map_to_list nk).*1).
      * apply NoDup_filter, NoDup_fst_map_to_list.
      * symmetry. apply (list_fmap_id).
  - intros h. rewrite merge_sort_Permutation, elem_of_app, Hhe, Hnk. done.
Qed.

(** ** All buckets *)

Lemma StronglySorted_app_lt {A} (R : A → A → Prop) (l k : list A) :
  StronglySorted R l → StronglySorted R k → (∀ x y, x ∈ l → y ∈ k → R x y) → StronglySorted R (l ++ k).
Proof.
  intros Hl Hk Hlk. induction Hl as [|x l Hl IH Hx]; [done|]. cbn. constructor.
  - apply IH. intros y z Hy Hz. apply Hlk; [by right|done].
  - apply Forall_app. split; [done|]. rewrite Forall_forall. intros y Hy. apply Hlk; [by left|done].
Qed.

Lemma cached_entries_ok he nk : keys_agree he → (∀ k, is_Some (he !! k) ∨ is_Some (nk !! k) → keyed k) →
  ∀ hes nks i, (∀ j b, hes !! j = Some b → ∀ k, b !! k = if decide (bucket_of k = (i + j)%nat) then he !! k else None) →
    (∀ j b, nks !! j = Some b → ∀ k, b !! k = if decide (bucket_of k = (i + j)%nat) then nk !! k else None) → length hes = length nks →
  ∃ L, cached_entries hes nks = Ret L ∧ StronglySorted hk_lt L ∧
    ∀ h, h ∈ L ↔ is_cached he nk h ∧ (i ≤ bucket_of (hk h) < i + length hes)%nat.
Proof.
  intros Hag Hkey. induction hes as [|b hes IH]; intros [|c nks] i Hhe Hnk Hlen; try done.
  { exists []. split_and!; [done|constructor|]. intros h. split; [by intros ?%elem_of_nil|]. cbn. lia. }
  cbn [length] in Hlen. injection Hlen as Hlen.
  assert (∀ k, b !! k = if decide (bucket_of k = i) then he !! k else None) as Hb by (intros k; rewrite (Hhe 0%nat b eq_refl k), Nat.add_0_r; done).
  assert (∀ k, c !! k = if decide (bucket_of k = i) then nk !! k else None) as Hc by (intros k; rewrite (Hnk 0%nat c eq_refl k), Nat.add_0_r; done).
  destruct (bucket_entries_ok b c) as (L1 & E1 & S1 & M1).
  { intros k o. rewrite Hb. case_decide; [apply Hag|done]. }
  assert (∀ h, h ∈ L1 ↔ is_cached he nk h ∧ bucket_of (hk h) = i) as M1'.
  { intros h. rewrite M1. unfold is_cached. rewrite Hb, Hc. case_decide; naive_solver. }
  destruct (IH nks (Datatypes.S i)) as (L2 & E2 & S2 & M2); [|..|done|].
  { intros j b' Hj k. rewrite (Hhe (Datatypes.S j) b' Hj k). by replace (i + Datatypes.S j)%nat with (Datatypes.S i + j)%nat by lia. }
  { intros j b' Hj k. rewrite (Hnk (Datatypes.S j) b' Hj k). by replace (i + Datatypes.S j)%nat with (Datatypes.S i + j)%nat by lia. }
  exists (L1 ++ L2). split_and!.
  - cbn [cached_entries]. rewrite E1. cbn [mbind outcome_bind]. rewrite E2. done.
  - apply StronglySorted_app_lt; [done..|]. intros x y Hx Hy. apply M1' in Hx as [Hx Hxi]. apply M2 in Hy as [Hy Hyi].
    assert (∀ h, is_cached he nk h → keyed (hk h)) as Hk.
    { intros h [Hh|(_ & Hh & _)]; apply Hkey; [left; by eexists|by right]. }
    unfold hk_lt. destruct (bytes_lt_total (hk x) (hk y)) as [?|[Heq|Hgt]]; [done| |]; exfalso.
    + rewrite Heq in Hxi. lia.
    + apply bucket_of_mono in Hgt; [lia|by apply Hk..].
  - intros h. rewrite elem_of_app, M1', M2. cbn [length].
    split; [intros [[? ?]|[? ?]]; (split; [done|lia])|]. intros [Hh Hlt]. destruct (decide (bucket_of (hk h) = i)); [by left|right]. split; [done|lia].
Qed.

Lemma cached_entries_holds bm nm he nk : holds bm he → holds nm nk → keys_agree he →
  ∃ L, cached_entries bm nm = Ret L ∧ StronglySorted hk_lt L ∧ ∀ h, h ∈ L ↔ is_cached he nk h.
Proof.
  intros [L1 K1 B1] [L2 K2 B2] Hag.
  destruct (cached_entries_ok he nk Hag ltac:(intros k [?|?]; auto) bm nm 0%nat) as (L & E & HS & HM).
  - intros j b Hj k. by apply B1.
  - intros j b Hj k. by apply B2.
  - congruence.
  - exists L. split_and!; [done|done|]. intros h. rewrite HM, L1. split; [by intros [? _]|]. intros Hh. split; [done|].
    assert (keyed (hk h)) as Hk by (destruct Hh as [Hh|(_ & Hh & _)]; [apply K1; by eexists|by apply K2]).
    destruct (bucket_idx_ok _ Hk). lia.
Qed.
