(* ===== verification/OnvaKVInv.v ===== *)
(** * The invariant of the store and its basic steps

    [store_inv okv ent]: the index leads every key of [ent] to its entry in
    the data tree, which is active. The steps of a block - reading, handing
    out serial numbers, deactivating, appending - keep it. *)
From S2P Require Import Prelude Types ByteOrder RocksDB BTreeSpec.
From S2P Require Import MetaDB IndexTree EntryCodec Twig Tree DataTreeSpec.
From S2P Require Import OnvaKV Relink Buckets.

Section store.
Context {D T E DT : Type} `{HD : !Rocks D} `{!RocksLaws D} `{HT : !BTreeOps Z T E} `{!BTreeLaws Z T E}.
Context `{HDT : !DataTreeOps DT} `{!DataTreeLaws DT}.
Notation OnvaKV := (OnvaKV D T DT).
Implicit Types (okv : OnvaKV) (k : bytes) (ent : gmap bytes Entry).

(** The keys and values the store accepts: they fit an entry. *)
Context (KeyOk ValOk : bytes → Prop).

Record sizes_ok : Prop := {
  so_fits k v nk : KeyOk k → ValOk v → KeyOk nk → dt_fits k v nk;
  so_dummy sn v : Value (DummyEntry sn) = Some v → dt_fits (Key (DummyEntry sn)) v (NextKey (DummyEntry sn));
  so_keyed k : KeyOk k → keyed k
}.
Context (Hsizes : sizes_ok).

Notation index okv := (bt_map (bt (okv_idxTree okv))).

(** The parts fit together. *)
Record parts_ok okv : Prop := {
  po_bt : bt_ok (bt (okv_idxTree okv));
  po_dt : dt_ok (okv_datTree okv);
  po_next : maxSerialNum (okv_meta okv) = dt_next (okv_datTree okv);
  po_pos : 0 ≤ dt_next (okv_datTree okv);
  po_pending : dt_pending (okv_datTree okv) ≤ 64;
  po_oldest : oldestActiveTwigID (okv_meta okv) = dt_oldest (okv_datTree okv)
}.

Definition entry_wf okv k (e : Entry) : Prop :=
  Key e = k ∧ KeyOk k ∧ (∃ v, Value e = Some v ∧ ValOk v) ∧ SerialNum e ∈ dt_live (okv_datTree okv) ∧
  is_int64 (Height e) ∧ is_int64 (LastHeight e).

(** The index leads to the entries. *)
Record store_inv okv ent : Prop := {
  si_parts : parts_ok okv;
  si_index k pos : index okv !! k = Some pos → 0 ≤ pos < 2 ^ 63 ∧ ∃ e, ent !! k = Some e ∧ dt_entries (okv_datTree okv) !! pos = Some e;
  si_indexed k : is_Some (ent !! k) → is_Some (index okv !! k);
  si_entry k e : ent !! k = Some e → entry_wf okv k e;
  si_serials k k' e e' : ent !! k = Some e → ent !! k' = Some e' → SerialNum e = SerialNum e' → k = k';
  si_live sn : sn ∈ dt_live (okv_datTree okv) → ∃ k e, ent !! k = Some e ∧ SerialNum e = sn
}.

(** Between [BeginWrite] and [EndWrite]. *)
Record writing okv : Prop := {
  wr_writing : isWriting (okv_idxTree okv) = true;
  wr_batch : is_Some (batch (okv_rocksdb okv));
  wr_height : is_int64 (currHeight (okv_meta okv))
}.

(** The parts of the state a step of the writing loop keeps. *)
Definition same_frame okv okv' : Prop :=
  currHeight (okv_meta okv') = currHeight (okv_meta okv) ∧ okv_rootHash okv' = okv_rootHash okv ∧
  okv_k2heMap okv' = okv_k2heMap okv ∧ okv_k2nkMap okv' = okv_k2nkMap okv ∧
  okv_startKey okv' = okv_startKey okv ∧ okv_endKey okv' = okv_endKey okv ∧
  dt_flushed (okv_datTree okv') = dt_flushed (okv_datTree okv).

#[export] Instance same_frame_preorder : PreOrder same_frame.
Proof. split; [by intros okv|]. intros a b c (?&?&?&?&?&?&?) (?&?&?&?&?&?&?). split_and!; congruence. Qed.

(** ** Steps of the writing loop *)

Lemma incr_serial_ok okv : writing okv → 0 ≤ maxSerialNum (okv_meta okv) < 2 ^ 63 - 1 →
  ∃ okv', incr_serial okv = Ret okv' ∧ writing okv' ∧ same_frame okv okv' ∧
    okv_idxTree okv' = okv_idxTree okv ∧ okv_datTree okv' = okv_datTree okv ∧
    maxSerialNum (okv_meta okv') = maxSerialNum (okv_meta okv) + 1 ∧ oldestActiveTwigID (okv_meta okv') = oldestActiveTwigID (okv_meta okv).
Proof.
  intros [Hw Hb Hh] Hm. unfold incr_serial.
  destruct (IncrMaxSerialNum_ok (okv_meta okv) (okv_rocksdb okv) Hb Hm Hh) as (r & -> & Hr & _). cbn [mbind outcome_bind].
  eexists. split; [reflexivity|]. split; [by split|]. by split_and!.
Qed.

Lemma idx_set_ok okv k pos : writing okv → bt_ok (bt (okv_idxTree okv)) → 0 ≤ pos < 2 ^ 63 →
  ∃ okv', idx_set okv k pos = Ret okv' ∧ writing okv' ∧ same_frame okv okv' ∧
    okv_datTree okv' = okv_datTree okv ∧ okv_meta okv' = okv_meta okv ∧
    bt_ok (bt (okv_idxTree okv')) ∧ index okv' = <[k := pos]> (index okv).
Proof.
  intros [Hw Hb Hh] Hok Hpos. unfold idx_set, NVTree_Set. rewrite Hw. cbn [require mbind outcome_bind].
  assert (to_uint64 pos = pos) as -> by (unfold to_uint64, to_uint; rewrite Z.mod_small; lia).
  destruct (bt_Put_ok (bt (okv_idxTree okv)) k pos Hok) as (b & -> & Hb1 & Hbm). cbn [mbind outcome_bind].
  change (rocksdb (set_bt (okv_idxTree okv) b)) with (rocksdb (okv_idxTree okv)).
  destruct (rocksdb (okv_idxTree okv)) eqn:Hr; cbn [negb].
  - edestruct (batch_Set_ok (okv_rocksdb okv)) as (r1 & -> & B1 & _); [done|]. cbn [mbind outcome_bind].
    edestruct (batch_Set_ok r1) as (r2 & -> & B2 & _); [done|]. cbn [mbind outcome_bind].
    eexists. split; [reflexivity|]. split; [by split|]. by split_and!.
  - cbn [mbind outcome_bind mret outcome_ret]. eexists. split; [reflexivity|]. split; [by split|]. by split_and!.
Qed.

Lemma idx_delete_ok okv k : writing okv → bt_ok (bt (okv_idxTree okv)) → is_Some (index okv !! k) →
  ∃ okv', idx_delete okv k = Ret okv' ∧ writing okv' ∧ same_frame okv okv' ∧
    okv_datTree okv' = okv_datTree okv ∧ okv_meta okv' = okv_meta okv ∧
    bt_ok (bt (okv_idxTree okv')) ∧ index okv' = delete k (index okv).
Proof.
  intros [Hw Hb Hh] Hok [v Hk]. unfold idx_delete, NVTree_Delete. rewrite Hw. cbn [require mbind outcome_bind].
  rewrite (bt_Get_ok _ k Hok), Hk. cbn [mbind outcome_bind].
  destruct (bt_Delete_ok (bt (okv_idxTree okv)) k Hok) as (b & -> & Hb1 & Hbm). cbn [mbind outcome_bind].
  change (rocksdb (set_bt (okv_idxTree okv) b)) with (rocksdb (okv_idxTree okv)).
  destruct (rocksdb (okv_idxTree okv)) eqn:Hr; cbn [negb].
  - edestruct (batch_Set_ok (okv_rocksdb okv)) as (r1 & -> & B1 & _); [done|]. cbn [mbind outcome_bind].
    edestruct (batch_add_ok r1) as (r2 & E2 & B2 & _); [done|]. unfold batch_Delete. rewrite E2. cbn [mbind outcome_bind].
    eexists. split; [reflexivity|]. split; [by split|]. by split_and!.
  - cbn [mbind outcome_bind mret outcome_ret]. eexists. split; [reflexivity|]. split; [by split|]. by split_and!.
Qed.

(** The entries of the data tree only grow. *)
Definition grown okv okv' : Prop := dt_entries (okv_datTree okv) ⊆ dt_entries (okv_datTree okv').

Lemma deactiviate_ok okv sn : writing okv → parts_ok okv → sn ∈ dt_live (okv_datTree okv) → dt_next (okv_datTree okv) + 1 < dt_max →
  ∃ okv', OnvaKV_DeactiviateEntry okv sn = Ret okv' ∧ writing okv' ∧ parts_ok okv' ∧ same_frame okv okv' ∧ grown okv okv' ∧
    okv_idxTree okv' = okv_idxTree okv ∧ dt_live (okv_datTree okv') = dt_live (okv_datTree okv) ∖ {[ sn ]} ∧
    dt_next (okv_datTree okv) ≤ dt_next (okv_datTree okv') ≤ dt_next (okv_datTree okv) + 1 ∧
    (dt_pending (okv_datTree okv) < 64 → dt_next (okv_datTree okv') = dt_next (okv_datTree okv)) ∧
    dt_oldest (okv_datTree okv') = dt_oldest (okv_datTree okv).
Proof.
  intros Hw [Pb Pd Pn P0 Pp Po] Hsn Hmax. unfold OnvaKV_DeactiviateEntry, dat_deactiviate.
  destruct (dt_DeactiviateEntry_ok (okv_datTree okv) sn Pd Hsn ltac:(lia)) as (d1 & n & -> & D1 & N1 & Q1 & Hn & E1 & L1 & O1 & F1).
  cbn [mbind outcome_bind mret outcome_ret]. unfold DeactivedSNListMaxLen. destruct (Z.gtb_spec n 64) as [Hgt|Hle].
  2:{ eexists. split; [reflexivity|]. split; [destruct Hw; by split|]. split.
      { split; cbn; try done; [by rewrite N1|by rewrite N1|by rewrite Q1|by rewrite O1]. }
      split; [by split_and!|]. split; [unfold grown; cbn; by rewrite E1|]. split; [done|]. split; [done|]. cbn. split_and!; lia. }
  pose proof dt_max_bound as Hmb.
  destruct (incr_serial_ok (set_datTree okv d1)) as (o2 & E2 & W2 & F2 & I2 & T2 & M2 & Mo2); [destruct Hw; by split|cbn; lia|].
  cbn [mbind outcome_bind mret outcome_ret] in *. cbn [okv_meta set_datTree] in *. unfold GetMaxSerialNum in *. rewrite E2. cbn [mbind outcome_bind].
  unfold dat_append. rewrite T2. cbn [okv_datTree set_datTree].
  destruct (dt_AppendEntry_ok d1 (DummyEntry (maxSerialNum (okv_meta okv))) dummy_str) as (d3 & pos & -> & D3 & N3 & Q3 & Hpos & Hfresh & E3 & L3 & O3 & F3);
    [done|cbn; by rewrite N1, Pn|lia|done|by eapply (so_dummy Hsizes)|unfold is_int64; cbn; lia|unfold is_int64; cbn; lia|lia|].
  cbn [mbind outcome_bind mret outcome_ret]. cbn [okv_datTree set_datTree].
  destruct (dt_DeactiviateEntry_ok d3 (maxSerialNum (okv_meta okv)) D3) as (d4 & m & E4' & D4 & N4 & Q4 & Hm & E4 & L4 & O4 & F4);
    [rewrite L3, N1, Pn; by apply elem_of_union_l, elem_of_singleton|lia|].
  rewrite E4'. cbn [mbind outcome_bind mret outcome_ret]. eexists. split; [reflexivity|].
  destruct W2 as [W21 W22 W23]. split; [by split|]. split.
  { split; cbn; [by rewrite I2|done|lia|lia|lia|congruence]. }
  split; [|split; [|split; [|split]]]; cbn.
  - destruct F2 as (? & ? & ? & ? & ? & ? & _). split_and!; cbn; [done..|congruence].
  - unfold grown. cbn. rewrite E4, E3, <- E1. by apply insert_subseteq.
  - by rewrite I2.
  - rewrite L4, L3, L1. rewrite N1, Pn. assert (dt_next (okv_datTree okv) ∉ dt_live (okv_datTree okv)) as Hfr.
    { intros Hin. pose proof (dt_live_next _ _ Pd Hin). lia. }
    clear - Hfr. set_solver.
  - split_and!; lia.
Qed.

(** ** Writing one entry *)

(** The invariant for every key but [k], which may lead to a dead entry. *)
Record store_inv_but okv ent k : Prop := {
  sb_none : ent !! k = None;
  sb_parts : parts_ok okv;
  sb_index k' pos : k' ≠ k → index okv !! k' = Some pos → 0 ≤ pos < 2 ^ 63 ∧ ∃ e, ent !! k' = Some e ∧ dt_entries (okv_datTree okv) !! pos = Some e;
  sb_indexed k' : is_Some (ent !! k') → is_Some (index okv !! k');
  sb_entry k' e : ent !! k' = Some e → entry_wf okv k' e;
  sb_serials k1 k2 e1 e2 : ent !! k1 = Some e1 → ent !! k2 = Some e2 → SerialNum e1 = SerialNum e2 → k1 = k2;
  sb_live sn : sn ∈ dt_live (okv_datTree okv) → ∃ k e, ent !! k = Some e ∧ SerialNum e = sn
}.

Lemma store_inv_but_new okv ent k : store_inv okv ent → ent !! k = None → store_inv_but okv ent k.
Proof. intros [] Hk. split; try done. intros k' pos _. apply si_index0. Qed.

Lemma store_inv_but_delete okv ent k : store_inv_but okv ent k → index okv !! k = None → store_inv okv ent.
Proof.
  intros [] Hk. split; try done. intros k' pos Hk'. destruct (decide (k' = k)) as [->|Hne]; [congruence|]. by apply sb_index0.
Qed.

Lemma store_inv_but_dead okv okv' ent k e : store_inv okv ent → ent !! k = Some e → parts_ok okv' → grown okv okv' →
  (∀ k', k' ≠ k → index okv' !! k' = index okv !! k') → dt_live (okv_datTree okv') = dt_live (okv_datTree okv) ∖ {[ SerialNum e ]} →
  store_inv_but okv' (delete k ent) k.
Proof.
  intros [] Hk Hp Hg Hi Hl. split; [apply lookup_delete_eq|done| | | | |].
  - intros k' pos Hne Hpos. rewrite Hi in Hpos by done. destruct (si_index0 k' pos Hpos) as (Hb & e' & He' & Hd). split; [done|].
    exists e'. rewrite lookup_delete_ne by done. split; [done|]. by eapply lookup_weaken.
  - intros k' [e' He']. apply lookup_delete_Some in He' as [Hne He']. rewrite Hi by done. apply si_indexed0. by eexists.
  - intros k' e' [Hne He']%lookup_delete_Some. destruct (si_entry0 k' e' He') as (H1 & H2 & H3 & H4 & H5 & H6). split_and!; try done.
    rewrite Hl. apply elem_of_difference. split; [done|]. intros Heq%elem_of_singleton. apply Hne. by eapply si_serials0.
  - intros k1 k2 e1 e2 [_ H1]%lookup_delete_Some [_ H2]%lookup_delete_Some. by apply si_serials0.
  - intros sn. rewrite Hl. intros [Hin Hne]%elem_of_difference. destruct (si_live0 sn Hin) as (k' & e' & He' & Hs). exists k', e'. split; [|done].
    apply lookup_delete_Some. split; [|done]. intros <-. apply Hne, elem_of_singleton. congruence.
Qed.

(** The tail of [write_entry]: a serial number, the entry, its position. *)
Definition append_indexed okv (ptr : Entry) : outcome OnvaKV :=
  let ptr := mkEntry (Key ptr) (Value ptr) (NextKey ptr) (GetCurrHeight (okv_meta okv)) (Height ptr) (GetMaxSerialNum (okv_meta okv)) in
  okv ← incr_serial okv;
  '(okv, pos) ← dat_append okv ptr;
  idx_set okv (Key ptr) pos.

Definition refreshed (ptr : Entry) (h sn : Z) : Entry := mkEntry (Key ptr) (Value ptr) (NextKey ptr) h (Height ptr) sn.

(** An entry that was appended and indexed belongs to the store. *)
Lemma store_inv_indexed okv okv' ent e v pos : store_inv_but okv ent (Key e) → parts_ok okv' → SerialNum e = dt_next (okv_datTree okv) →
  KeyOk (Key e) → Value e = Some v → ValOk v → is_int64 (Height e) → is_int64 (LastHeight e) → 0 ≤ pos < 2 ^ 63 →
  dt_entries (okv_datTree okv) !! pos = None → dt_entries (okv_datTree okv') = <[pos := e]> (dt_entries (okv_datTree okv)) →
  dt_live (okv_datTree okv') = {[ dt_next (okv_datTree okv) ]} ∪ dt_live (okv_datTree okv) → index okv' = <[Key e := pos]> (index okv) →
  store_inv okv' (<[Key e := e]> ent).
Proof.
  intros [Hnone Hp Hindex Hindexed Hentry Hserials Hlive] Hp' Hse Hk Hv Hvok Hh Hlh Hpos Hfresh HE HL HI.
  assert (∀ k' e', ent !! k' = Some e' → SerialNum e' ≠ SerialNum e) as Hsn.
  { intros k' e' He'. destruct (Hentry k' e' He') as (_ & _ & _ & Hl & _). pose proof (dt_live_next _ _ (po_dt _ Hp) Hl). lia. }
  split; [done|..].
  - intros k' p. rewrite HI, HE. destruct (decide (k' = Key e)) as [->|Hne].
    + rewrite !lookup_insert_eq. intros [= <-]. split; [done|]. exists e. by rewrite lookup_insert_eq.
    + rewrite !lookup_insert_ne by done. intros Hpk. destruct (Hindex k' p Hne Hpk) as (Hb & e' & He' & Hd). split; [done|].
      exists e'. split; [done|]. rewrite lookup_insert_ne; [done|]. intros ->. congruence.
  - intros k'. rewrite HI. destruct (decide (k' = Key e)) as [->|Hne]; [rewrite !lookup_insert_eq; by eexists|].
    rewrite !lookup_insert_ne by done. apply Hindexed.
  - intros k' e'. unfold entry_wf. rewrite HL. destruct (decide (k' = Key e)) as [->|Hne].
    + rewrite lookup_insert_eq. intros [= <-]. split_and!; [done|done|by exists v| |done|done].
      rewrite Hse. by apply elem_of_union_l, elem_of_singleton.
    + rewrite lookup_insert_ne by done. intros He'. destruct (Hentry k' e' He') as (H1 & H2 & H3 & H4 & H5 & H6). split_and!; try done.
      by apply elem_of_union_r.
  - intros k1 k2 e1 e2 H1 H2 Heq. apply lookup_insert_Some in H1 as [[<- <-]|[N1 H1]], H2 as [[<- <-]|[N3 H2]]; [done| | |by eapply Hserials].
    + by destruct (Hsn k2 e2 H2).
    + by destruct (Hsn k1 e1 H1).
  - intros sn. rewrite HL. intros [->%elem_of_singleton|Hin]%elem_of_union; [exists (Key e), e; by rewrite lookup_insert_eq|].
    destruct (Hlive sn Hin) as (k' & e' & He' & Hs). exists k', e'. split; [|done]. rewrite lookup_insert_ne; [done|]. intros <-. congruence.
Qed.

Lemma append_indexed_ok okv ent ptr v : writing okv → store_inv_but okv ent (Key ptr) → dt_next (okv_datTree okv) < dt_max →
  KeyOk (Key ptr) → Value ptr = Some v → ValOk v → KeyOk (NextKey ptr) → is_int64 (Height ptr) →
  ∃ okv' sn, append_indexed okv ptr = Ret okv' ∧ writing okv' ∧ same_frame okv okv' ∧
    store_inv okv' (<[Key ptr := refreshed ptr (currHeight (okv_meta okv)) sn]> ent) ∧ dt_next (okv_datTree okv') = dt_next (okv_datTree okv) + 1.
Proof.
  intros Hw Hbut Hmax Hk Hv Hvok Hnk Hh. pose proof (sb_parts _ _ _ Hbut) as [Pb Pd Pn P0 Pp Po]. unfold append_indexed. pose proof dt_max_bound as Hmb.
  destruct (incr_serial_ok okv Hw ltac:(lia)) as (o1 & -> & W1 & F1 & I1 & T1 & M1 & Mo1). cbn [mbind outcome_bind]. unfold dat_append. rewrite T1.
  unfold GetMaxSerialNum, GetCurrHeight. rewrite Pn. set (sn := dt_next (okv_datTree okv)) in *.
  fold (refreshed ptr (currHeight (okv_meta okv)) sn). set (e := refreshed _ _ _).
  destruct (dt_AppendEntry_ok (okv_datTree okv) e v) as (d2 & pos & -> & D2 & N2 & Q2 & Hpos & Hfresh & E2 & L2 & O2 & G2);
    [done|done|done|done|by apply (so_fits Hsizes)|apply (wr_height _ Hw)|done|lia|].
  cbn [mbind outcome_bind mret outcome_ret].
  destruct (idx_set_ok (set_datTree o1 d2) (Key e) pos) as (o3 & -> & W3 & F3 & T3 & M3 & B3 & I3);
    [destruct W1; by split|cbn; by rewrite I1|done|].
  cbn [okv_datTree okv_meta set_datTree okv_idxTree] in *. rewrite I1 in I3. exists o3, sn. split; [done|]. split; [done|].
  rewrite T3. split; [|split; [|done]].
  - destruct F1 as (? & ? & ? & ? & ? & ? & ?), F3 as (? & ? & ? & ? & ? & ? & _). cbn in *. split_and!; congruence.
  - change (Key ptr) with (Key e). eapply (store_inv_indexed okv); rewrite ?T3; [done| |done|done|exact Hv|done|apply (wr_height _ Hw)|done|exact Hpos|done|done|done|done].
    split; rewrite ?T3; [done|done|rewrite M3; cbn; lia|lia|lia|rewrite M3; cbn; congruence].
Qed.

(** What [write_entry] does to the entries, by the kind of the hot entry. *)
Lemma write_skip okv h : IsModified h = false → IsTouchedByNext h = false → write_entry okv h = Ret okv.
Proof. intros H1 H2. unfold write_entry. by rewrite H1, H2. Qed.

Lemma write_delete okv ent h e : writing okv → store_inv okv ent → dt_next (okv_datTree okv) + 1 < dt_max →
  ent !! hk h = Some e → IsModified h = true → Operation h = OpDelete → SerialNum (EntryPtr h) = SerialNum e →
  ∃ okv', write_entry okv h = Ret okv' ∧ writing okv' ∧ same_frame okv okv' ∧ store_inv okv' (delete (hk h) ent) ∧
    dt_next (okv_datTree okv) ≤ dt_next (okv_datTree okv') ≤ dt_next (okv_datTree okv) + 1.
Proof.
  intros Hw Hi Hmax He Hmod Hop Hsn. unfold write_entry. rewrite Hmod, Hop. cbn [orb negb]. rewrite bool_decide_eq_true_2 by done.
  pose proof (si_entry _ _ Hi _ _ He) as (HKe & _ & _ & Hlive & _).
  assert (SerialNum (EntryPtr h) >=? 0 = true) as ->.
  { rewrite Hsn. pose proof (dt_live_next _ _ (po_dt _ (si_parts _ _ Hi)) Hlive). rewrite Z.geb_leb. apply Z.leb_le. lia. }
  cbn [andb]. fold (hk h).
  destruct (idx_delete_ok okv (hk h) Hw (po_bt _ (si_parts _ _ Hi))) as (o1 & -> & W1 & F1 & T1 & M1 & B1 & I1);
    [apply (si_indexed _ _ Hi); by eexists|]. cbn [mbind outcome_bind].
  destruct (deactiviate_ok o1 (SerialNum (EntryPtr h)) W1) as (o2 & -> & W2 & P2 & F2 & G2 & I2 & L2 & N2 & _).
  - destruct (si_parts _ _ Hi). split; rewrite ?T1, ?M1; done.
  - by rewrite T1, Hsn.
  - by rewrite T1.
  - exists o2. split; [done|]. split; [done|]. split; [by etrans|]. rewrite T1 in *. split; [|lia].
    eapply store_inv_but_delete; [|by rewrite I2, I1, lookup_delete_eq].
    eapply (store_inv_but_dead okv); [done|done|done| | |by rewrite L2, Hsn].
    + unfold grown in *. by rewrite T1 in G2.
    + intros k' Hne. by rewrite I2, I1, lookup_delete_ne.
Qed.

Lemma write_refresh okv ent h v : writing okv → store_inv okv ent → dt_next (okv_datTree okv) + 2 < dt_max →
  IsModified h || IsTouchedByNext h = true → Operation h ≠ OpDelete → Operation h ≠ OpNone ∨ IsTouchedByNext h = true →
  KeyOk (hk h) → Value (EntryPtr h) = Some v → ValOk v → KeyOk (NextKey (EntryPtr h)) → is_int64 (Height (EntryPtr h)) →
  match ent !! hk h with Some e => SerialNum (EntryPtr h) = SerialNum e | None => SerialNum (EntryPtr h) = -1 end →
  ∃ okv' sn, write_entry okv h = Ret okv' ∧ writing okv' ∧ same_frame okv okv' ∧
    store_inv okv' (<[hk h := refreshed (EntryPtr h) (currHeight (okv_meta okv)) sn]> ent) ∧
    dt_next (okv_datTree okv) ≤ dt_next (okv_datTree okv') ≤ dt_next (okv_datTree okv) + 2.
Proof.
  intros Hw Hi Hmax Hmod Hop Hop' Hk Hv Hvok Hnk Hh Hsn. unfold write_entry. rewrite Hmod. cbn [negb].
  rewrite bool_decide_eq_false_2 by done. cbn [andb].
  assert (bool_decide (Operation h ≠ OpNone) || IsTouchedByNext h = true) as ->.
  { apply orb_true_iff. destruct Hop' as [?|?]; [left; by apply bool_decide_eq_true|by right]. }
  fold (hk h). destruct (ent !! hk h) as [e|] eqn:He.
  - pose proof (si_entry _ _ Hi _ _ He) as (HKe & _ & _ & Hlive & _).
    assert (SerialNum (EntryPtr h) >=? 0 = true) as ->.
    { rewrite Hsn. pose proof (dt_live_next _ _ (po_dt _ (si_parts _ _ Hi)) Hlive). rewrite Z.geb_leb. apply Z.leb_le. lia. }
    destruct (deactiviate_ok okv (SerialNum (EntryPtr h)) Hw (si_parts _ _ Hi)) as (o1 & -> & W1 & P1 & F1 & G1 & I1 & L1 & N1 & _);
      [by rewrite Hsn|lia|]. cbn [mbind outcome_bind].
    assert (store_inv_but o1 (delete (hk h) ent) (hk h)) as Hb.
    { eapply (store_inv_but_dead okv); [done|done|done|done| |by rewrite L1, Hsn]. intros k' _. by rewrite I1. }
    destruct (append_indexed_ok o1 (delete (hk h) ent) (EntryPtr h) v W1 Hb) as (o2 & sn & E2 & W2 & F2 & S2 & N2); [lia|done..|].
    unfold append_indexed in E2. cbn zeta in E2. exists o2, sn. split; [exact E2|]. split; [done|]. split; [by etrans|].
    split; [|lia]. rewrite insert_delete_eq in S2. by rewrite (proj1 F1) in S2.
  - rewrite Hsn. cbn [Z.geb Z.compare mbind outcome_bind mret outcome_ret].
    destruct (append_indexed_ok okv ent (EntryPtr h) v Hw) as (o2 & sn & E2 & W2 & F2 & S2 & N2); [by apply store_inv_but_new|lia|done..|].
    unfold append_indexed in E2. cbn zeta in E2. exists o2, sn. split; [exact E2|]. split_and!; [done|done|done|lia|lia].
Qed.
End store.
