(* ===== verification/OnvaKVRead.v ===== *)
(** * Reading the store between blocks

    [readable okv ent]: the store is not being written and what it has
    appended can be read. Reads, and the search for the entry before a key,
    give the entries and change only the buffers of the data tree. *)
From S2P Require Import Prelude Types ByteOrder RocksDB BTreeSpec.
From S2P Require Import MetaDB IndexTree EntryCodec Twig Tree DataTreeSpec.
From S2P Require Import OnvaKV Relink Buckets OnvaKVInv.

Section reads.
Context {D T E DT : Type} `{HD : !Rocks D} `{!RocksLaws D} `{HT : !BTreeOps Z T E} `{!BTreeLaws Z T E}.
Context `{HDT : !DataTreeOps DT} `{!DataTreeLaws DT} (KeyOk ValOk : bytes → Prop).
Notation OnvaKV := (OnvaKV D T DT).
Notation store_inv := (store_inv KeyOk ValOk).
Notation index okv := (bt_map (bt (okv_idxTree okv))).
Implicit Types (okv : OnvaKV) (ent : gmap bytes Entry) (k : bytes).

Record readable okv ent : Prop := {
  re_inv : store_inv okv ent;
  re_synced : dt_synced (okv_datTree okv);
  re_idle : isWriting (okv_idxTree okv) = false
}.

(** Reading changes the data tree only, and nothing the store relies on. *)
Definition only_read okv okv' : Prop :=
  okv' = set_datTree okv (okv_datTree okv') ∧ dt_next (okv_datTree okv') = dt_next (okv_datTree okv) ∧
  dt_flushed (okv_datTree okv') = dt_flushed (okv_datTree okv).

Lemma only_read_refl okv : only_read okv okv.
Proof. split_and!; [by destruct okv|done..]. Qed.
#[export] Instance only_read_trans : Transitive only_read.
Proof. intros a b c (H1 & N1 & G1) (H2 & N2 & G2). split_and!; [rewrite H2, H1; done|congruence|congruence]. Qed.

(** The data tree of a store may be replaced by one that promises the same. *)
Lemma store_inv_dat okv ent d : store_inv okv ent → dt_ok d → dt_next d = dt_next (okv_datTree okv) →
  dt_pending d = dt_pending (okv_datTree okv) → dt_entries d = dt_entries (okv_datTree okv) → dt_live d = dt_live (okv_datTree okv) →
  dt_oldest d = dt_oldest (okv_datTree okv) →
  store_inv (set_datTree okv d) ent.
Proof.
  intros [[P1 P2 P3 P4 P5 P6] H2 H3 H4 H5 H6] Hd Hn Hp He Hl Ho. split; cbn; rewrite ?He, ?Hl; try done.
  - split; cbn; rewrite ?Hn, ?Hp, ?Ho; done.
  - intros k e Hk. specialize (H4 k e Hk). unfold entry_wf in *. cbn. by rewrite Hl.
Qed.

Lemma read_at_ok okv ent k e pos : readable okv ent → ent !! k = Some e → index okv !! k = Some pos →
  ∃ okv', read_at okv pos = Ret (okv', e) ∧ readable okv' ent ∧ only_read okv okv'.
Proof.
  intros [Hi Hs Hw] He Hpos. destruct (si_index _ _ _ _ Hi k pos Hpos) as (Hb & e' & He' & Hd).
  replace e' with e in * by congruence. unfold read_at. rewrite to_int64_small by (unfold is_int64; lia).
  destruct (dt_ReadEntry_ok (okv_datTree okv) pos e) as (d & -> & D1 & S1 & N1 & P1 & E1 & L1 & O1 & G1).
  { apply (po_dt _ (si_parts _ _ _ _ Hi)). }
  { done. } { done. } { apply (si_entry _ _ _ _ Hi k e He). }
  cbn [mbind outcome_bind mret outcome_ret]. eexists. split; [reflexivity|]. split; [|by split_and!].
  split; [by apply store_inv_dat|done|done].
Qed.

(** The index has the keys of the store. *)
Lemma index_keys okv ent k : store_inv okv ent → is_Some (index okv !! k) ↔ is_Some (ent !! k).
Proof.
  intros Hi. split; [|apply Hi]. intros [pos Hpos]. destruct (si_index _ _ _ _ Hi k pos Hpos) as (_ & e & -> & _). by eexists.
Qed.
Lemma index_none okv ent k : store_inv okv ent → ent !! k = None → index okv !! k = None.
Proof. intros Hi Hk. apply eq_None_not_Some. rewrite index_keys by done. by rewrite Hk, <- eq_None_not_Some. Qed.
Lemma index_size okv ent : store_inv okv ent → size (index okv) = size ent.
Proof.
  intros Hi. rewrite <- !size_dom. f_equal. apply set_eq. intros k. rewrite !elem_of_dom. by apply index_keys.
Qed.

Lemma NVTree_Get_ok okv ent k : readable okv ent → NVTree_Get (okv_idxTree okv) k = Ret (index okv !! k).
Proof.
  intros [Hi _ Hw]. unfold NVTree_Get. rewrite Hw. cbn [negb require mbind outcome_bind].
  apply bt_Get_ok, (po_bt _ (si_parts _ _ _ _ Hi)).
Qed.

Lemma GetEntry_ok okv ent k : readable okv ent →
  ∃ okv', GetEntry okv k = Ret (okv', ent !! k) ∧ readable okv' ent ∧ only_read okv okv'.
Proof.
  intros Hr. unfold GetEntry. rewrite (NVTree_Get_ok okv ent k Hr). cbn [mbind outcome_bind].
  destruct (ent !! k) as [e|] eqn:He.
  - destruct (proj2 (index_keys okv ent k (re_inv _ _ Hr)) ltac:(by eexists)) as [pos Hpos]. rewrite Hpos.
    destruct (read_at_ok okv ent k e pos Hr He Hpos) as (o & -> & H1 & H2). by exists o.
  - rewrite (index_none okv ent k (re_inv _ _ Hr) He). exists okv. split_and!; [done|done|apply only_read_refl].
Qed.

(** The entry before a key. *)
Lemma reverse_iterator_prev okv ent k p : readable okv ent → [] <b k → prev_in (λ k', is_Some (ent !! k')) k p →
  ∃ iter pos, NVTree_ReverseIterator (okv_idxTree okv) [] k = Ret iter ∧ iter_Valid iter = true ∧ im_key iter = p ∧
    im_value iter = pos ∧ index okv !! p = Some pos.
Proof.
  intros [Hi Hs Hw] Hk (Hp & Hpk & Hmax).
  pose proof (ReverseIterator_collect (okv_idxTree okv) [] k (Datatypes.S (size (index okv))) Hw (po_bt _ (si_parts _ _ _ _ Hi)) ltac:(lia)) as Hc.
  pose proof (range_items_ascending (index okv) [] k) as Hl. apply descending_rev in Hl.
  set (l := rev _) in *. destruct (NVTree_ReverseIterator (okv_idxTree okv) [] k) as [iter|]; [|discriminate]. cbn [mbind outcome_bind] in Hc.
  apply (index_keys okv ent p Hi) in Hp.
  destruct l as [|[k1 v1] l].
  { destruct Hp as [v Hp]. rewrite (descending_nil _ _ Hl p) in Hp; [done|]. split; [apply bytes_nil_le|done]. }
  apply descending_cons in Hl as [(Hk1 & [_ Hb1] & Hmax1) _]. cbn [iter_collect] in Hc.
  destruct (iter_Valid iter) eqn:Hv; [|discriminate].
  destruct (Backward_Next (okv_idxTree okv) iter) as [iter'|]; [|discriminate]. cbn [mbind outcome_bind] in Hc.
  destruct (iter_collect _ _ _) as [l'|]; [|discriminate]. cbn [mbind outcome_bind mret outcome_ret] in Hc.
  assert (im_key iter = k1 ∧ im_value iter = v1) as [E1 E2] by (injection Hc as H1 H2 _; by split).
  assert (k1 = p) as ->.
  { apply bytes_le_antisym; [apply Hmax; [apply (index_keys okv ent k1 Hi); by eexists|done]|].
    apply Hmax1; [|done]. split; [apply bytes_nil_le|done]. }
  by exists iter, v1.
Qed.

Lemma getPrevEntry_ok okv ent k p e : readable okv ent → [] <b k → prev_in (λ k', is_Some (ent !! k')) k p → ent !! p = Some e →
  ∃ okv', getPrevEntry okv k = Ret (okv', e) ∧ readable okv' ent ∧ only_read okv okv'.
Proof.
  intros Hr Hk Hp He. unfold getPrevEntry.
  destruct (reverse_iterator_prev okv ent k p Hr Hk Hp) as (iter & pos & -> & Hv & _ & Hval & Hpos). cbn [mbind outcome_bind].
  rewrite Hv. cbn [require mbind outcome_bind]. rewrite Hval. by apply (read_at_ok okv ent p).
Qed.
End reads.
