(* ===== verification/OnvaKVBlock.v ===== *)
(** * A block of the store

    Preparing keys, setting and deleting them, and the end of the block: the
    store then holds the map with the changes applied, and its keys are linked
    in order. *)
From S2P Require Import Prelude Types ByteOrder RocksDB BTreeSpec.
From S2P Require Import MetaDB IndexTree EntryCodec Twig Tree DataTreeSpec.
From S2P Require Import OnvaKV Relink Buckets OnvaKVInv.

(** The entries are linked: each key leads to the next one, the last key to itself. *)
Record linked (startKey endKey : bytes) (ent : gmap bytes Entry) : Prop := {
  li_start : is_Some (ent !! startKey);
  li_end : is_Some (ent !! endKey);
  li_range k : is_Some (ent !! k) → startKey ≤b k ∧ k ≤b endKey;
  li_next k e : ent !! k = Some e → k ≠ endKey → next_in (λ k', is_Some (ent !! k')) k (NextKey e);
  li_last e : ent !! endKey = Some e → NextKey e = endKey
}.

(** The contents of the store. *)
Definition values (ent : gmap bytes Entry) : gmap bytes bytes := ValueBytes <$> ent.

(** ** The writing loop *)

Section write_loop.
Context {D T E DT : Type} `{HD : !Rocks D} `{!RocksLaws D} `{HT : !BTreeOps Z T E} `{!BTreeLaws Z T E}.
Context `{HDT : !DataTreeOps DT} `{!DataTreeLaws DT} (KeyOk ValOk : bytes → Prop) (Hsizes : sizes_ok KeyOk ValOk).
Notation OnvaKV := (OnvaKV D T DT).
Notation store_inv := (store_inv KeyOk ValOk).
Implicit Types (okv : OnvaKV) (ent : gmap bytes Entry).

(** What a hot entry has to do with the entry of its key. *)
Definition hot_wf ent (h : HotEntry) : Prop :=
  KeyOk (hk h) ∧
  match ent !! hk h with
  | Some e => (isHintHotEntry h = true ∧ Operation h = OpNone) ∨
      (isHintHotEntry h = false ∧ SerialNum (EntryPtr h) = SerialNum e ∧ Height (EntryPtr h) = Height e ∧ NextKey (EntryPtr h) = NextKey e ∧
       (Operation h = OpNone → Value (EntryPtr h) = Value e) ∧ ∃ v, Value (EntryPtr h) = Some v ∧ ValOk v)
  | None => SerialNum (EntryPtr h) = -1 ∧ Height (EntryPtr h) = 0 ∧ (∀ v, Value (EntryPtr h) = Some v → ValOk v) ∧
      (Operation h ≠ OpInsertOrChange → Value (EntryPtr h) = None)
  end.

(** The entry of the key after [write_entry]. *)
Definition written (height : Z) (h' : HotEntry) (old new : option Entry) : Prop :=
  if IsModified h' || IsTouchedByNext h' then
    if decide (Operation h' = OpDelete) then new = None
    else ∃ sn, new = Some (refreshed (EntryPtr h') height sn)
  else new = old.

Context (S S' : bytes → Prop) (L : list HotEntry) (HL : cached S S' L).

Lemma write_one okv ent h h' j : writing okv → store_inv okv ent → dt_next (okv_datTree okv) + 2 < dt_max →
  (∀ k, S' k → KeyOk k) → hot_wf ent h → (∀ e, ent !! hk h = Some e → KeyOk (NextKey e)) →
  (j < length L)%nat → relinked S' L (length L) j h h' →
  ∃ okv' ent', write_entry okv h' = Ret okv' ∧ writing okv' ∧ same_frame okv okv' ∧ store_inv okv' ent' ∧
    dt_next (okv_datTree okv) ≤ dt_next (okv_datTree okv') ≤ dt_next (okv_datTree okv) + 2 ∧
    written (currHeight (okv_meta okv)) h' (ent !! hk h) (ent' !! hk h) ∧ ∀ k, k ≠ hk h → ent' !! k = ent !! k.
Proof.
  intros Hw Hi Hmax HS' [HK Hwf] Hnk Hj []. pose proof (static_hk _ _ rl_static) as Hk.
  pose proof (static_tests _ _ rl_static) as (Tf & Ti & Tm & Th & Ts). pose proof rl_static as [Ho He].
  rewrite bool_decide_eq_true_2 in rl_modified by done. cbn [andb] in rl_modified. unfold written.
  destruct (IsModified h' || IsTouchedByNext h') eqn:Hmt.
  2:{ apply orb_false_iff in Hmt as [H1 H2]. exists okv, ent. rewrite write_skip by done. split_and!; done || lia. }
  (* what is written is not a hint and not a fake entry *)
  assert (isFakeInserted h = false ∧ (Operation h = OpNone → IsTouchedByNext h' = true)) as [Hf Hop].
  { apply orb_true_iff in Hmt as [H1|H2].
    - rewrite rl_modified in H1. unfold acts in H1. destruct (isFakeInserted h); [done|]. split; [done|]. intros Hop.
      unfold isInserted, isModified in H1. by rewrite Hop in H1.
    - destruct (rl_touched H2) as (Hs & _). split; [|done]. unfold stays in Hs. by destruct (isFakeInserted h); rewrite ?andb_false_r in Hs. }
  assert (isHintHotEntry h = true → Operation h = OpNone → False) as Hhint.
  { intros H1 H2. by destruct (rl_touched (Hop H2)) as (_ & H3 & _); rewrite H1 in H3. }
  assert (SerialNum (EntryPtr h') = SerialNum (EntryPtr h) ∧ Height (EntryPtr h') = Height (EntryPtr h) ∧ Value (EntryPtr h') = Value (EntryPtr h)) as (HeS & HeH & HeV) by (by rewrite He).
  case_decide as Hd.
  - assert (IsModified h' = true) as Hm.
    { destruct (IsModified h') eqn:Hm; [done|]. cbn in Hmt. destruct (rl_touched Hmt) as (Hs & _). unfold stays in Hs. rewrite <- Ho, Hd in Hs. done. }
    destruct (ent !! hk h) as [e|] eqn:Hent.
    2:{ exfalso. destruct Hwf as (Hs & _ & _ & Hv). unfold isFakeInserted in Hf. rewrite Hs, Hv in Hf by congruence. done. }
    destruct Hwf as [[_ Hn]|(_ & Hs & _)]; [congruence|]. rewrite <- Hk in Hent.
    destruct (write_delete KeyOk ValOk Hsizes okv ent h' e Hw Hi ltac:(lia) Hent Hm Hd ltac:(congruence)) as (o2 & E2 & W2 & F2 & S2 & N2).
    exists o2, (delete (hk h') ent). split_and!; [done|done|done|done|lia|lia|by rewrite <- Hk, lookup_delete_eq|].
    intros k Hne. rewrite lookup_delete_ne; [done|]. congruence.
  - (* the entry is written with its final links *)
    assert (∃ v, Value (EntryPtr h') = Some v ∧ ValOk v) as (v & Hv & Hvok).
    { rewrite HeV. destruct (ent !! hk h) as [e|] eqn:Hent.
      - destruct Hwf as [[? ?]|(_ & _ & _ & _ & _ & Hv)]; [by destruct Hhint|done].
      - destruct Hwf as (Hs & _ & Hv & _). unfold isFakeInserted in Hf. rewrite Hs in Hf. cbn in Hf. apply bool_decide_eq_false in Hf.
        destruct (Value (EntryPtr h)) as [v|]; [|done]. exists v. auto. }
    assert (KeyOk (NextKey (EntryPtr h'))) as Hnext.
    { destruct (IsTouchedByNext h') eqn:Ht; [destruct (rl_touched eq_refl) as (_ & _ & Hn & _); by apply HS'|].
      destruct (ent !! hk h) as [e|] eqn:Hent.
      - destruct Hwf as [[? ?]|(_ & Hs & _ & Hne & _)]; [by destruct Hhint|].
        rewrite rl_untouched; [rewrite Hne; by apply Hnk|done|]. intros [_ Hins]. exfalso. unfold isInserted in Hins.
        apply andb_true_iff in Hins as [_ Hins%Z.eqb_eq]. destruct (si_entry _ _ _ _ Hi _ _ Hent) as (_ & _ & _ & Hlive & _).
        pose proof (dt_live_next _ _ (po_dt _ (si_parts _ _ _ _ Hi)) Hlive). lia.
      - destruct Hwf as (Hs & _ & _ & _). assert (is_inserted h) as Hins.
        { split; [done|]. unfold isInserted. rewrite Hs. rewrite bool_decide_eq_true_2; [done|].
          destruct (Operation h) eqn:E1; [discriminate (Hop eq_refl)|rewrite Ho in Hd; done|done]. }
        destruct (rl_inserted Hins Hj) as [Hn _]. by apply HS'. }
    destruct (write_refresh KeyOk ValOk Hsizes okv ent h' v) as (o2 & sn & E2 & W2 & F2 & S2 & N2); rewrite ?Hk; [done|done|done|done|done| |done|done|done|done| | |].
    + destruct (Operation h') eqn:E1; [right|done|by left]. apply Hop. congruence.
    + rewrite HeH. destruct (ent !! hk h) as [e|] eqn:Hent.
      * destruct Hwf as [[? ?]|(_ & _ & Hh & _)]; [by destruct Hhint|]. rewrite Hh. by apply (si_entry _ _ _ _ Hi _ _ Hent).
      * destruct Hwf as (_ & Hh & _). rewrite Hh. unfold is_int64. lia.
    + rewrite HeS. destruct (ent !! hk h) as [e|] eqn:Hent.
      * destruct Hwf as [[? ?]|(_ & Hs & _)]; [by destruct Hhint|done].
      * by destruct Hwf as (Hs & _).
    + rewrite Hk in S2. eexists o2, _. split_and!; [done|done|done|exact S2|lia|lia| |].
      * rewrite lookup_insert_eq. by exists sn.
      * intros k Hne. by rewrite lookup_insert_ne by congruence.
Qed.

Lemma write_loop_ok okv ent l : writing okv → store_inv okv ent → dt_next (okv_datTree okv) + 2 * zlen L < dt_max →
  (∀ k, S' k → KeyOk k) → (∀ h, h ∈ L → hot_wf ent h) → (∀ k e, ent !! k = Some e → KeyOk (NextKey e)) →
  relink_inv S' L (length L) l →
  ∃ okv' ent', for_state write_entry okv l = Ret okv' ∧ writing okv' ∧ same_frame okv okv' ∧ store_inv okv' ent' ∧
    dt_next (okv_datTree okv) ≤ dt_next (okv_datTree okv') ≤ dt_next (okv_datTree okv) + 2 * zlen L ∧
    (∀ j h h', L !! j = Some h → l !! j = Some h' → written (currHeight (okv_meta okv)) h' (ent !! hk h) (ent' !! hk h)) ∧
    ∀ k, (∀ h, h ∈ L → hk h ≠ k) → ent' !! k = ent !! k.
Proof.
  intros Hw Hi Hmax HS' Hwf Hnk [Hlen Hl].
  assert (∀ m n o e, (n + m = length L)%nat → writing o → same_frame okv o → store_inv o e →
    dt_next (okv_datTree okv) ≤ dt_next (okv_datTree o) ≤ dt_next (okv_datTree okv) + 2 * Z.of_nat n →
    (∀ j h, (n ≤ j)%nat → L !! j = Some h → e !! hk h = ent !! hk h) →
    (∀ j h h', (j < n)%nat → L !! j = Some h → l !! j = Some h' → written (currHeight (okv_meta okv)) h' (ent !! hk h) (e !! hk h)) →
    (∀ k, (∀ h, h ∈ L → hk h ≠ k) → e !! k = ent !! k) →
    ∃ okv' ent', for_state write_entry o (drop n l) = Ret okv' ∧ writing okv' ∧ same_frame okv okv' ∧ store_inv okv' ent' ∧
      dt_next (okv_datTree okv) ≤ dt_next (okv_datTree okv') ≤ dt_next (okv_datTree okv) + 2 * zlen L ∧
      (∀ j h h', L !! j = Some h → l !! j = Some h' → written (currHeight (okv_meta okv)) h' (ent !! hk h) (ent' !! hk h)) ∧
      ∀ k, (∀ h, h ∈ L → hk h ≠ k) → ent' !! k = ent !! k) as Hloop.
  { induction m as [|m IH]; intros n o e Hnm Wo Fo So No Hlater Hdone Hother.
    - rewrite drop_ge by lia. exists o, e. split_and!; try done; [unfold zlen; lia|unfold zlen; lia|].
      intros j h h' Hj Hj'. apply (Hdone j); [apply lookup_lt_Some in Hj; lia|done|done].
    - destruct (lookup_lt_is_Some_2 L n ltac:(lia)) as [h Hh]. destruct (Hl n h Hh) as (h' & Hh' & Hr).
      assert (h ∈ L) as Hin by (by eapply list_elem_of_lookup_2). pose proof (Hlater n h ltac:(lia) Hh) as He.
      destruct (write_one o e h h' n Wo So) as (o1 & e1 & E1 & W1 & F1 & S1 & N1 & Hwr & Hoth);
        [unfold zlen in *; lia|done|unfold hot_wf; rewrite He; by apply Hwf|intros e0; rewrite He; by apply Hnk|lia|done|].
      assert (∀ j h1, j ≠ n → L !! j = Some h1 → e1 !! hk h1 = e !! hk h1) as Hne.
      { intros j h1 Hj Hh1. apply Hoth. intros Heq. apply Hj. eapply (sorted_lookup_eq L); [apply HL|done..]. }
      rewrite (drop_S _ _ _ Hh'), (for_state_step _ _ _ _ _ E1).
      apply (IH (Datatypes.S n) o1 e1); [lia|done|by etrans|done|lia| | |].
      + intros j h1 Hj Hh1. rewrite (Hne j) by (done || lia). apply (Hlater j); [lia|done].
      + intros j h1 h1' Hj Hh1 Hh1'. destruct (decide (j = n)) as [->|Hjn].
        * replace h1 with h in * by congruence. replace h1' with h' in * by congruence. rewrite He, (proj1 Fo) in Hwr. done.
        * rewrite (Hne j) by done. apply (Hdone j); [lia|done|done].
      + intros k Hk. rewrite Hoth; [by apply Hother|]. intros ->. by apply (Hk h). }
  apply (Hloop (length L) 0%nat okv ent); [done|done|done|done|lia|done|intros; lia|done].
Qed.

(** ** The links after the loop *)

Section links.
Context (startKey endKey : bytes) (ent ent' : gmap bytes Entry) (l : list HotEntry) (height : Z).
Context (HS : ∀ k, S k ↔ is_Some (ent !! k)) (HdecS' : ∀ k, S' k ∨ ¬ S' k).
Context (Hwf : ∀ h, h ∈ L → hot_wf ent h) (Hserial : ∀ k e, ent !! k = Some e → 0 ≤ SerialNum e).
Context (Hl : relink_inv S' L (length L) l) (Hlinked : linked startKey endKey ent).
Context (Hrange : ∀ h, h ∈ L → changed h → startKey <b hk h ∧ hk h <b endKey).
Context (Hwritten : ∀ j h h', L !! j = Some h → l !! j = Some h' → written height h' (ent !! hk h) (ent' !! hk h)).
Context (Hother : ∀ k, (∀ h, h ∈ L → hk h ≠ k) → ent' !! k = ent !! k).

Lemma cached_or_not k : (∃ j h h', L !! j = Some h ∧ hk h = k ∧ l !! j = Some h' ∧ relinked S' L (length L) j h h') ∨ (∀ h, h ∈ L → hk h ≠ k).
Proof.
  destruct (decide (k ∈ hk <$> L)) as [(h & -> & Hh)%list_elem_of_fmap|Hno].
  - left. apply list_elem_of_lookup in Hh as [j Hj]. destruct (proj2 Hl j h Hj) as (h' & Hh' & Hr). by exists j, h, h'.
  - right. intros h Hh <-. apply Hno, list_elem_of_fmap. by exists h.
Qed.

(** An entry that is not written is what it was, and stays if it was there. *)
Lemma unwritten_stays h : h ∈ L → acts h = false → is_Some (ent !! hk h) ↔ stays h = true.
Proof.
  intros Hh Ha. destruct (Hwf h Hh) as [_ Hw]. unfold acts in Ha. destruct (ent !! hk h) as [e|] eqn:He.
  - split; [intros _|by eexists]. destruct Hw as [[Hhint Hop]|(_ & Hs & _)].
    + unfold stays, isFakeInserted. rewrite Hop. unfold isHintHotEntry in Hhint. apply Z.eqb_eq in Hhint. by rewrite Hhint.
    + assert (isFakeInserted h = false) as Hf.
      { unfold isFakeInserted. rewrite Hs. destruct (Z.eqb_spec (SerialNum e) (-1)) as [E1|]; [|done]. specialize (Hserial _ _ He). lia. }
      rewrite Hf in Ha. cbn in Ha. apply orb_false_iff in Ha as [[Ha _]%orb_false_iff _]. apply bool_decide_eq_false in Ha.
      unfold stays. rewrite Hf. by rewrite bool_decide_eq_true_2.
  - split; [by intros []|]. intros Hst. exfalso. destruct Hw as (Hs & _ & _ & Hv). unfold stays in Hst.
    apply andb_true_iff in Hst as [Hop%bool_decide_eq_true Hf%negb_true_iff]. rewrite Hf in Ha. cbn in Ha.
    apply orb_false_iff in Ha as [[_ Hi]%orb_false_iff _]. unfold isInserted in Hi. rewrite Hs in Hi. cbn in Hi.
    rewrite andb_true_r in Hi. apply bool_decide_eq_false in Hi. unfold isFakeInserted in Hf. by rewrite Hs, (Hv Hi) in Hf.
Qed.

Lemma after_keys k : is_Some (ent' !! k) ↔ S' k.
Proof.
  destruct (cached_or_not k) as [(j & h & h' & Hj & <- & Hj' & Hr)|Hno].
  - assert (h ∈ L) as Hh by (by eapply list_elem_of_lookup_2). rewrite (cached_key S S' L HL j h Hj).
    pose proof (Hwritten j h h' Hj Hj') as Hw. unfold written in Hw. destruct Hr.
    rewrite bool_decide_eq_true_2 in rl_modified by (by eapply lookup_lt_Some). cbn [andb] in rl_modified.
    rewrite (proj1 rl_static) in Hw.
    destruct (IsModified h' || IsTouchedByNext h') eqn:Hmt.
    + assert (stays h = negb (bool_decide (Operation h = OpDelete))) as ->.
      { apply orb_true_iff in Hmt as [Hm|Ht].
        - rewrite rl_modified in Hm. unfold acts in Hm. apply andb_true_iff in Hm as [Hm _]. unfold stays. rewrite Hm, andb_true_r.
          apply bool_decide_not.
        - destruct (rl_touched Ht) as (Hs & _). rewrite Hs. unfold stays in Hs. apply andb_true_iff in Hs as [Hs%bool_decide_eq_true _].
          by rewrite bool_decide_eq_false_2. }
      case_decide as Hd; [rewrite Hw, bool_decide_eq_true_2 by done|rewrite bool_decide_eq_false_2 by done].
      * split; [by intros []|done].
      * destruct Hw as [sn ->]. split; [done|by eexists].
    + apply orb_false_iff in Hmt as [Hm _]. rewrite Hw. apply unwritten_stays; [done|congruence].
  - rewrite Hother, <- HS by done. rewrite (ca_new _ _ _ HL). split; [by right|]. intros [(h & Hh & Hk & _)|[? _]]; [|done].
    by destruct (Hno h).
Qed.

Lemma unchanged_in_range k : S k → (∀ c, c ∈ L → hk c = k → ¬ changed c) → S' k.
Proof. intros Hk Hno. destruct (HdecS' k) as [?|Hn]; [done|]. destruct (not_new_deleted S S' L HL k Hk Hn) as (c & Hc & Ec & Hch). by destruct (Hno c). Qed.

Lemma linked_after : linked startKey endKey ent'.
Proof.
  pose proof Hlinked as [Ls Le Lr Ln Ll].
  assert (∀ k, S k ∨ ¬ S k) as HdecS by (intros k; rewrite HS; destruct (ent !! k); [left; by eexists|right; by intros []]).
  assert (∀ k, S' k → startKey ≤b k ∧ k ≤b endKey) as Hr'.
  { intros k Hk. destruct (HdecS k) as [Hs|Hs]; [by apply Lr, HS|]. destruct (new_inserted S S' L HL k Hk Hs) as (c & Hc & <- & Hch).
    destruct (Hrange c Hc Hch). split; by apply bytes_lt_le. }
  assert (∀ k e e', ent !! k = Some e → ent' !! k = Some e' → (∀ c, c ∈ L → hk c = k → ¬ is_inserted c) →
    NextKey e' = NextKey e ∨ (next_in S' k (NextKey e'))) as Hold.
  { intros k e e' He He' Hni. destruct (cached_or_not k) as [(j & h & h' & Hj & <- & Hj' & Hr)|Hno]; [|left; rewrite Hother in He' by done; congruence].
    pose proof (Hwritten j h h' Hj Hj') as Hw. unfold written in Hw. destruct Hr.
    assert (h ∈ L) as Hh by (by eapply list_elem_of_lookup_2).
    destruct (IsModified h' || IsTouchedByNext h') eqn:Hmt; [|left; congruence].
    case_decide as Hd; [congruence|]. destruct Hw as [sn Hw]. rewrite Hw in He'. injection He' as <-. cbn [refreshed NextKey].
    destruct (IsTouchedByNext h') eqn:Ht; [right; by apply rl_touched|]. left.
    rewrite rl_untouched by (done || (intros ?; by destruct (Hni h))). destruct (Hwf h Hh) as [_ Hw']. rewrite He in Hw'.
    destruct Hw' as [[Hhint Hop]|(_ & _ & _ & Hn & _)]; [|done]. exfalso. rewrite orb_false_r in Hmt. rewrite Hmt in rl_modified.
    symmetry in rl_modified. apply andb_true_iff in rl_modified as [_ Ha]. unfold acts, isInserted, isModified in Ha.
    rewrite Hop in Ha. by rewrite andb_false_r in Ha. }
  split.
  - apply after_keys, unchanged_in_range; [by apply HS|]. intros c Hc Ec Hch. destruct (Hrange c Hc Hch) as [Hlt _].
    rewrite Ec in Hlt. by apply (irreflexivity bytes_lt) in Hlt.
  - apply after_keys, unchanged_in_range; [by apply HS|]. intros c Hc Ec Hch. destruct (Hrange c Hc Hch) as [_ Hlt].
    rewrite Ec in Hlt. by apply (irreflexivity bytes_lt) in Hlt.
  - intros k Hk%after_keys. by apply Hr'.
  - intros k e' He' Hne. assert (S' k) as Hk' by (apply after_keys; by eexists).
    assert (next_in S' k (NextKey e')) as (H1 & H2 & H3).
    2:{ split_and!; [by apply after_keys|done|]. intros k' Hk''. apply H3. by apply after_keys. }
    destruct (HdecS k) as [Hs|Hs].
    + pose proof (proj1 (HS k) Hs) as [e He].
      destruct (Hold k e e' He He') as [Heq|?]; [|rewrite Heq|done].
      { intros c Hc <- Hins. by apply (ca_fresh _ _ _ HL c). }
      destruct (decide (NextKey e' = NextKey e)) as [_|]; [|congruence].
      assert (next_in S k (NextKey e)) as Hn.
      { destruct (Ln k e He Hne) as (N1 & N2 & N3). split_and!; [by apply HS|done|]. intros k' Hs'. apply N3. by apply HS. }
      destruct (cached_or_not k) as [(j & h & h' & Hj & Ek & Hj' & Hr)|Hno].
      * destruct (IsTouchedByNext h') eqn:Ht.
        -- pose proof (Hwritten j h h' Hj Hj') as Hw. unfold written in Hw. rewrite Ht, orb_true_r, Ek, He' in Hw.
           case_decide; [done|]. destruct Hw as [sn [= ->]]. cbn [refreshed NextKey] in Heq. rewrite <- Heq, <- Ek. by apply (rl_touched _ _ _ _ _ _ Hr).
        -- apply (next_unchanged S S' L HL); [done|done|done|done|]. intros c Hc Hch Hprev.
           apply list_elem_of_lookup in Hc as [i Hi]. rewrite <- Ek in Hprev.
           assert (IsTouchedByNext h' = true) by (eapply (rl_before _ _ _ _ _ _ Hr); [by eapply lookup_lt_Some|done..]). congruence.
      * apply (next_unchanged S S' L HL); [done|done|done|done|]. intros c Hc Hch Hprev.
        apply list_elem_of_lookup in Hc as [i Hi]. destruct (getPrev_ok S S' L HL i c Hi Hch) as (p & pv & _ & Hpv & _ & _ & Hprev').
        apply (Hno pv); [by eapply list_elem_of_lookup_2|]. by eapply prev_in_unique.
    + destruct (new_inserted S S' L HL k Hk' Hs) as (c & Hc & <- & Hch).
      destruct (cached_or_not (hk c)) as [(j & h & h' & Hj & Ek & Hj' & Hr)|Hno]; [|by destruct (Hno c)].
      assert (h ∈ L) as Hh by (by eapply list_elem_of_lookup_2).
      assert (is_inserted h) as Hins.
      { destruct (ca_stays _ _ _ HL h Hh) as [Hs'|?]; [|by rewrite Ek in Hs'|done]. apply (cached_key S S' L HL j h Hj). by rewrite Ek. }
      pose proof (Hwritten j h h' Hj Hj') as Hw. unfold written in Hw. rewrite Ek in Hw.
      rewrite (rl_modified _ _ _ _ _ _ Hr), bool_decide_eq_true_2, (inserted_acts h Hins) in Hw by (by eapply lookup_lt_Some). cbn [andb orb] in Hw.
      rewrite He' in Hw. case_decide; [done|]. destruct Hw as [sn [= ->]]. cbn [refreshed NextKey]. rewrite <- Ek.
      apply (rl_inserted _ _ _ _ _ _ Hr Hins). by eapply lookup_lt_Some.
  - intros e' He'. destruct Le as [e He].
    destruct (Hold endKey e e' He He') as [->|(Hn1 & Hn2 & _)]; [|by apply Ll|].
    + intros c Hc Ec Hins. destruct (Hrange c Hc (or_intror Hins)) as [_ Hlt]. rewrite Ec in Hlt. by apply (irreflexivity bytes_lt) in Hlt.
    + exfalso. destruct (Hr' _ Hn1) as [_ Hle]. by apply bytes_nlt_ge in Hle.
Qed.

(** The values after the loop. *)
Lemma after_value k e' : ent' !! k = Some e' →
  (∃ h, h ∈ L ∧ hk h = k ∧ isHintHotEntry h = false ∧ ValueBytes e' = ValueBytes (EntryPtr h)) ∨
  ((∀ h, h ∈ L → hk h = k → isHintHotEntry h = true) ∧ ∃ e, ent !! k = Some e ∧ ValueBytes e' = ValueBytes e).
Proof.
  intros He'. destruct (cached_or_not k) as [(j & h & h' & Hj & <- & Hj' & Hr)|Hno].
  2:{ right. split; [intros h Hh Hk; by destruct (Hno h)|]. rewrite Hother in He' by done. by exists e'. }
  assert (h ∈ L) as Hh by (by eapply list_elem_of_lookup_2).
  pose proof (Hwritten j h h' Hj Hj') as Hw. unfold written in Hw. destruct Hr.
  assert (Value (EntryPtr h') = Value (EntryPtr h)) as HV by (by rewrite (proj2 rl_static)).
  rewrite bool_decide_eq_true_2 in rl_modified by (by eapply lookup_lt_Some). cbn [andb] in rl_modified.
  destruct (IsModified h' || IsTouchedByNext h') eqn:Hmt.
  - case_decide as Hd; [congruence|]. destruct Hw as [sn Hw]. rewrite Hw in He'. injection He' as <-.
    left. exists h. split_and!; [done|done| |unfold ValueBytes; cbn; by rewrite HV].
    apply orb_true_iff in Hmt as [Hm|Ht]; [|by apply rl_touched].
    destruct (isHintHotEntry h) eqn:Hhint; [|done]. exfalso. rewrite Hm in rl_modified. symmetry in rl_modified.
    assert (Operation h ≠ OpNone) as Hop. { intros Hop. unfold acts, isInserted, isModified in rl_modified. rewrite Hop, andb_false_r in rl_modified. done. }
    by rewrite (ca_hint _ _ _ HL h Hh Hop) in Hhint.
  - rewrite Hw in He'. destruct (isHintHotEntry h) eqn:Hhint.
    + right. split; [|by exists e']. intros h2 Hh2 Hk2. apply list_elem_of_lookup in Hh2 as [j2 Hj2].
      assert (j2 = j) as -> by (eapply (sorted_lookup_eq L); [apply HL|done..]). congruence.
    + left. exists h. split_and!; [done|done|done|]. destruct (Hwf h Hh) as [_ Hw']. rewrite He' in Hw'.
      destruct Hw' as [[? _]|(_ & Hs & _ & _ & Hv & _)]; [congruence|]. unfold ValueBytes. rewrite Hv; [done|].
      apply orb_false_iff in Hmt as [Hm _]. rewrite Hm in rl_modified. unfold acts in rl_modified.
      assert (isFakeInserted h = false) as Hf.
      { unfold isFakeInserted. rewrite Hs. destruct (Z.eqb_spec (SerialNum e') (-1)) as [E1|]; [|done]. specialize (Hserial _ _ He'). lia. }
      rewrite Hf in rl_modified. cbn in rl_modified. symmetry in rl_modified. apply orb_false_iff in rl_modified as [[R1 _]%orb_false_iff R3].
      destruct (Operation h) eqn:Hop; [done|done|]. exfalso. unfold isModified in R3. rewrite Hop, Hs in R3. cbn in R3.
      rewrite Z.geb_leb in R3. apply Z.leb_gt in R3. specialize (Hserial _ _ He'). lia.
Qed.
End links.
End write_loop.
