(* ===== verification/OnvaKVReap.v ===== *)
(** * Compaction

    At the end of a block [EndWrite] moves the active entries of the oldest
    twig to the end of the data tree, and evicts the twig, until the entries it
    keeps are at most twice the active ones. The entries change their serial
    numbers only, so the keys, the values and the links are what they were; and
    the loop stops before it comes to a twig that is not in the storage yet. *)
From S2P Require Import Prelude Types ByteOrder RocksDB BTreeSpec.
From S2P Require Import MetaDB IndexTree EntryCodec Twig Tree DataTreeSpec.
From S2P Require Import OnvaKV Relink Buckets OnvaKVInv OnvaKVBlock.

Lemma Forall2_impl_in {A B} (P Q : A → B → Prop) l k : Forall2 P l k → (∀ x y, x ∈ l → P x y → Q x y) → Forall2 Q l k.
Proof. induction 1 as [|x y l k Hxy _ IH]; intros H; constructor; [by apply H; [left|]|]. apply IH. intros x' y' Hx. apply H. by right. Qed.

(** ** Entries up to their serial numbers *)

Definition unnumbered (ent : gmap bytes Entry) : gmap bytes Entry := (λ e, set_SerialNum e 0) <$> ent.

Lemma unnumbered_values ent ent' : unnumbered ent' = unnumbered ent → values ent' = values ent.
Proof.
  intros H. assert (∀ en, values en = ValueBytes <$> unnumbered en) as Hv by (intros en; unfold unnumbered; rewrite <- map_fmap_compose; by apply map_fmap_ext).
  by rewrite (Hv ent), (Hv ent'), H.
Qed.
Lemma unnumbered_size ent ent' : unnumbered ent' = unnumbered ent → size ent' = size ent.
Proof. intros H. apply (f_equal size) in H. unfold unnumbered in H. by rewrite !map_size_fmap in H. Qed.
Lemma unnumbered_lookup ent ent' k e : unnumbered ent' = unnumbered ent → ent !! k = Some e → ∃ e', ent' !! k = Some e' ∧ NextKey e' = NextKey e.
Proof.
  intros H He. apply (f_equal (lookup k)) in H. unfold unnumbered in H. rewrite !lookup_fmap, He in H. destruct (ent' !! k) as [e'|]; [|done].
  exists e'. split; [done|]. by injection H.
Qed.
Lemma unnumbered_keys ent ent' k : unnumbered ent' = unnumbered ent → is_Some (ent' !! k) ↔ is_Some (ent !! k).
Proof. intros H. split; intros [e He]; [symmetry in H|]; by destruct (unnumbered_lookup _ _ _ _ H He) as (e' & He' & _); eexists. Qed.
Lemma unnumbered_linked startKey endKey ent ent' : unnumbered ent' = unnumbered ent → linked startKey endKey ent → linked startKey endKey ent'.
Proof.
  intros H [L1 L2 L3 L4 L5]. pose proof (λ k, unnumbered_keys ent ent' k H) as Hk. symmetry in H. split.
  - by apply Hk.
  - by apply Hk.
  - intros k Hs. by apply L3, Hk.
  - intros k e' He' Hne. destruct (unnumbered_lookup _ _ _ _ H He') as (e & He & <-). destruct (L4 k e He Hne) as (N1 & N2 & N3).
    split_and!; [by apply Hk|done|]. intros k' Hs. by apply N3, Hk.
  - intros e' He'. destruct (unnumbered_lookup _ _ _ _ H He') as (e & He & <-). by apply L5.
Qed.
Lemma unnumbered_renumber ent k e sn : ent !! k = Some e → unnumbered (<[k := set_SerialNum e sn]> ent) = unnumbered ent.
Proof. intros He. unfold unnumbered. rewrite fmap_insert. apply insert_id. by rewrite lookup_fmap, He. Qed.

(** The entries with serial numbers below [n]. *)
Definition below (ent : gmap bytes Entry) (n : Z) : nat := size (filter (λ kv, SerialNum kv.2 < n) ent).

Lemma below_renumber ent k e sn n : ent !! k = Some e → SerialNum e < n ≤ sn → below ent n = S (below (<[k := set_SerialNum e sn]> ent) n).
Proof.
  intros He Hn. unfold below. rewrite map_filter_insert_False by (cbn; lia). rewrite map_filter_delete. rewrite map_size_delete_Some.
  - assert (size (filter (λ kv, SerialNum kv.2 < n) ent) ≠ 0%nat); [|lia]. intros Hz%map_size_empty_inv.
    assert (filter (λ kv, SerialNum kv.2 < n) ent !! k = Some e) as Hk by (apply map_lookup_filter_Some; split; [done|cbn; lia]). by rewrite Hz in Hk.
  - exists e. apply map_lookup_filter_Some. split; [done|cbn; lia].
Qed.
Lemma below_size ent n : (below ent n ≤ size ent)%nat.
Proof. unfold below. apply map_subseteq_size, map_filter_subseteq. Qed.

Section reap.
Context {D T E DT : Type} `{HD : !Rocks D} `{!RocksLaws D} `{HT : !BTreeOps Z T E} `{!BTreeLaws Z T E}.
Context `{HDT : !DataTreeOps DT} `{!DataTreeLaws DT} (KeyOk ValOk : bytes → Prop) (Hsizes : sizes_ok KeyOk ValOk).
Notation OnvaKV := (OnvaKV D T DT).
Notation store_inv := (store_inv KeyOk ValOk).
Notation index okv := (bt_map (bt (okv_idxTree okv))).
Implicit Types (okv : OnvaKV) (ent : gmap bytes Entry).

(** The keys an entry leads to are keys of the store. *)
Lemma next_key_ok okv ent startKey endKey k e : store_inv okv ent → linked startKey endKey ent → ent !! k = Some e → KeyOk (NextKey e).
Proof.
  intros Hi Hl He. assert (is_Some (ent !! NextKey e)) as [e' He'].
  { destruct (decide (k = endKey)) as [->|Hne]; [rewrite (li_last _ _ _ Hl e He); by eexists|]. by apply (li_next _ _ _ Hl k e He Hne). }
  by apply (si_entry _ _ _ _ Hi _ _ He').
Qed.

(** What the serial numbers can grow to while the entries below [n] move: each
    of them takes one, and one dummy entry may be needed. *)
Definition reach okv ent (n : Z) : Z :=
  dt_next (okv_datTree okv) + Z.of_nat (below ent n) + (if 64 <=? dt_pending (okv_datTree okv) then 1 else 0).

Lemma entry_ok_renumber e sn : entry_ok e → is_int64 sn → entry_ok (set_SerialNum e sn).
Proof. intros (H1 & H2 & _ & H4) Hs. by split_and!. Qed.

(** One entry moves to the end. *)
Lemma reap_entry_ok okv ent k e c n : writing okv → store_inv okv ent → ent !! k = Some e → entry_ok e → KeyOk (NextKey e) → dt_compacts →
  SerialNum e < n ≤ dt_next (okv_datTree okv) → reach okv ent n < dt_max →
  ∃ okv' sn, reap_entry okv (raw_bytes c e) = Ret okv' ∧ writing okv' ∧ same_frame okv okv' ∧ store_inv okv' (<[k := set_SerialNum e sn]> ent) ∧
    n ≤ sn < dt_next (okv_datTree okv') ∧ dt_live (okv_datTree okv') = {[ sn ]} ∪ dt_live (okv_datTree okv) ∖ {[ SerialNum e ]} ∧
    dt_oldest (okv_datTree okv') = dt_oldest (okv_datTree okv) ∧ reach okv' (<[k := set_SerialNum e sn]> ent) n ≤ reach okv ent n.
Proof.
  intros Hw Hi He Hok Hnk Hcomp Hn Hreach. pose proof (si_parts _ _ _ _ Hi) as Hp. pose proof dt_max_bound as Hmb.
  destruct (si_entry _ _ _ _ Hi k e He) as (HKe & HK & (v & Hv & Hvok) & Hlive & Hh & Hlh).
  assert (1 ≤ Z.of_nat (below ent n)) as Hpos by (pose proof (below_renumber ent k e n n He ltac:(lia)); lia).
  unfold reach in Hreach. unfold reap_entry. rewrite raw_bytes_ExtractSerialNum by done. cbn [mbind outcome_bind].
  destruct (deactiviate_ok KeyOk ValOk Hsizes okv (SerialNum e) Hw Hp Hlive) as (o1 & -> & W1 & P1 & F1 & G1 & I1 & L1 & N1 & Np1 & O1);
    [destruct (64 <=? _); lia|]. cbn [mbind outcome_bind].
  assert (dt_next (okv_datTree o1) ≤ dt_next (okv_datTree okv) + (if 64 <=? dt_pending (okv_datTree okv) then 1 else 0)) as Hn1.
  { destruct (Z.leb_spec 64 (dt_pending (okv_datTree okv))); [lia|]. rewrite Np1 by done. lia. }
  assert (store_inv_but KeyOk ValOk o1 (delete k ent) k) as Hbut.
  { eapply (store_inv_but_dead KeyOk ValOk okv); [done|done|done|done| |done]. intros k' _. by rewrite I1. }
  destruct P1 as [Pb Pd Pn P0 Pp Po]. unfold GetMaxSerialNum. rewrite Pn. set (sn := dt_next (okv_datTree o1)) in *.
  rewrite raw_bytes_update. cbn [mbind outcome_bind].
  destruct (incr_serial_ok o1 W1 ltac:(lia)) as (o2 & -> & W2 & F2 & I2 & T2 & M2 & Mo2). cbn [mbind outcome_bind]. rewrite T2.
  set (e' := set_SerialNum e sn).
  destruct (dt_AppendEntryRawBytes_ok (okv_datTree o1) e' v c) as (d3 & pos & E3' & D3 & N3 & Q3 & Hpos3 & Hfresh & E3 & L3 & O3 & G3);
    [done|done|done|fold sn; lia|done| |done|done|lia|].
  { cbn. rewrite HKe. by apply (so_fits _ _ Hsizes). }
  fold sn in E3'. rewrite E3'. cbn [mbind outcome_bind]. rewrite raw_bytes_ExtractKey by (apply entry_ok_renumber; [done|unfold is_int64; lia]). cbn [mbind outcome_bind].
  destruct (idx_set_ok (set_datTree o2 d3) (Key e') pos) as (o4 & -> & W4 & F4 & T4 & M4 & B4 & I4);
    [destruct W2; by split|cbn; by rewrite I2|done|].
  cbn [okv_datTree okv_meta set_datTree okv_idxTree] in *. rewrite I2 in I4. change (Key e') with (Key e) in *. exists o4, sn. split; [done|]. split; [done|].
  rewrite T4. split_and!.
  - etrans; [exact F1|]. destruct F2 as (? & ? & ? & ? & ? & ? & ?), F4 as (? & ? & ? & ? & ? & ? & _). cbn in *. split_and!; congruence.
  - rewrite <- (insert_delete_eq ent). rewrite <- HKe. change (Key e) with (Key e'). rewrite <- HKe in Hbut.
    eapply (store_inv_indexed KeyOk ValOk o1); rewrite ?T4; [exact Hbut| |done|cbn; by rewrite HKe|exact Hv|done|done|done|exact Hpos3|done|done|done|done].
    split; rewrite ?T4; [done|done|rewrite M4; cbn; lia|lia|lia|rewrite M4; cbn; congruence].
  - lia.
  - lia.
  - by rewrite L3, L1.
  - congruence.
  - unfold reach. rewrite T4, N3, Q3. pose proof (below_renumber ent k e sn n He ltac:(lia)). cbn [Z.leb Z.compare]. fold sn e'. fold e' in H. lia.
Qed.

(** The state while the store compacts: [ent0] are its entries at the start,
    below the serial number [n], and [bound] is what they can grow to. *)
Record reaping startKey endKey ent0 (n bound : Z) okv ent : Prop := {
  rp_writing : writing okv;
  rp_inv : store_inv okv ent;
  rp_linked : linked startKey endKey ent;
  rp_same : unnumbered ent = unnumbered ent0;
  rp_next : n ≤ dt_next (okv_datTree okv);
  rp_reach : reach okv ent n ≤ bound
}.

(** A raw record is that of the entry with the serial number. *)
Definition raw_of ent (sn : Z) (raw : bytes) : Prop := ∃ k e c, ent !! k = Some e ∧ SerialNum e = sn ∧ entry_ok e ∧ raw = raw_bytes c e.

Lemma reap_entries_ok startKey endKey ent0 n bound lo sns raws : dt_compacts → bound < dt_max → lo ≤ n → Forall (λ sn, sn < n) sns → NoDup sns →
  ∀ okv ent, reaping startKey endKey ent0 n bound okv ent → Forall2 (raw_of ent) sns raws →
  (∀ sn, sn ∈ dt_live (okv_datTree okv) → lo ≤ sn ∨ sn ∈ sns) →
  ∃ okv' ent', for_state reap_entry okv raws = Ret okv' ∧ same_frame okv okv' ∧ reaping startKey endKey ent0 n bound okv' ent' ∧
    dt_oldest (okv_datTree okv') = dt_oldest (okv_datTree okv) ∧ ∀ sn, sn ∈ dt_live (okv_datTree okv') → lo ≤ sn.
Proof.
  intros Hcomp Hbound Hlo. revert raws. induction sns as [|sn sns IH]; intros raws Hsns Hnd okv ent Hr Hraws Hlive.
  { inversion Hraws; subst. exists okv, ent. split_and!; try done. intros sn Hsn. destruct (Hlive sn Hsn) as [?|[]%elem_of_nil]; done. }
  inversion Hraws as [|? raw ? raws' (k & e & c & He & Hs & Hok & ->) Hraws' E1 E2]; subst.
  apply Forall_cons in Hsns as [Hsn Hsns]. apply NoDup_cons in Hnd as [Hnew Hnd]. destruct Hr as [Rw Ri Rl Rs Rn Rr].
  destruct (reap_entry_ok okv ent k e c n Rw Ri He Hok) as (o1 & sn' & E1 & W1 & F1 & I1 & B1 & L1 & O1 & C1);
    [by eapply next_key_ok|done|lia|lia|].
  set (e' := set_SerialNum e sn') in *. assert (unnumbered (<[k := e']> ent) = unnumbered ent) as Hu by by apply unnumbered_renumber.
  destruct (IH raws' Hsns Hnd o1 (<[k := e']> ent)) as (o2 & ent2 & E2 & F2 & R2 & O2 & L2).
  - split; [done|done|by eapply unnumbered_linked|congruence|lia|lia].
  - eapply Forall2_impl_in; [exact Hraws'|]. intros sn2 raw2 Hin (k2 & e2 & c2 & He2 & Hs2 & Hr2). exists k2, e2, c2. split; [|done].
    rewrite lookup_insert_ne; [done|]. intros <-. apply Hnew. replace e with e2 by congruence. by rewrite Hs2.
  - intros sn2. rewrite L1. intros [->%elem_of_singleton|[Hin Hne]%elem_of_difference]%elem_of_union; [left; lia|].
    destruct (Hlive sn2 Hin) as [?|[->|?]%elem_of_cons]; [by left| |by right]. destruct Hne. by apply elem_of_singleton.
  - exists o2, ent2. rewrite (for_state_step _ _ _ _ _ E1). split_and!; [done|by etrans|done|congruence|done].
Qed.

(** A twig is compacted: it must be in the storage. *)
Lemma reap_twig_ok startKey endKey ent0 n bound okv ent : dt_compacts → bound < dt_max → bound ≤ dt_compact_max →
  reaping startKey endKey ent0 n bound okv ent → (dt_oldest (okv_datTree okv) + 1) * 2048 < dt_flushed (okv_datTree okv) → dt_flushed (okv_datTree okv) ≤ n →
  ∃ okv' ent', reap_twig okv = Ret okv' ∧ same_frame okv okv' ∧ reaping startKey endKey ent0 n bound okv' ent' ∧
    dt_oldest (okv_datTree okv') = dt_oldest (okv_datTree okv) + 1.
Proof.
  intros Hcomp Hbound Hcap [Rw Ri Rl Rs Rn Rr] Hfl Hn. pose proof (si_parts _ _ _ _ Ri) as [Pb Pd Pn P0 Pp Po]. pose proof dt_max_bound as Hmb.
  assert (dt_next (okv_datTree okv) ≤ bound) as Hnb by (unfold reach in Rr; destruct (64 <=? _); lia).
  unfold reap_twig, GetOldestActiveTwigID. rewrite Po. set (o := dt_oldest (okv_datTree okv)) in *. pose proof (dt_oldest_nonneg _ Pd : 0 ≤ o) as Ho0.
  destruct (dt_GetActiveEntriesInTwig_ok (okv_datTree okv) Hcomp Pd Hfl ltac:(lia)) as (d1 & raws & E0 & D1 & N1 & Q1 & E1 & L1 & O1 & G1 & Hraws).
  fold o in E0, Hraws. rewrite E0. cbn [mbind outcome_bind]. set (sns := filter _ _) in Hraws.
  assert (∀ sn, sn ∈ sns ↔ sn ∈ dt_live (okv_datTree okv) ∧ o * 2048 ≤ sn < o * 2048 + 2048) as Hsns.
  { intros sn. unfold sns. rewrite list_elem_of_filter, elem_of_seqZ. done. }
  assert (reaping startKey endKey ent0 n bound (set_datTree okv d1) ent) as R1.
  { split; cbn; [destruct Rw; by split| |done|done|lia|].
    - destruct Ri as [_ I2 I3 I4 I5 I6]. split; cbn; rewrite ?E1, ?L1; try done; [split; cbn; try done; lia || congruence|].
      intros k e He. specialize (I4 k e He). unfold entry_wf in *. cbn. by rewrite L1.
    - unfold reach in *. cbn. by rewrite N1, Q1. }
  destruct (reap_entries_ok startKey endKey ent0 n bound ((o + 1) * 2048) sns raws Hcomp Hbound ltac:(lia)) with (okv := set_datTree okv d1) (ent := ent)
    as (o2 & ent2 & E2 & F2 & R2 & O2 & L2); [| |done| | |].
  - apply Forall_forall. intros sn [_ ?]%Hsns. lia.
  - apply NoDup_filter, NoDup_seqZ.
  - eapply Forall2_impl_in; [exact Hraws|]. intros sn raw Hin Hraw. apply Hsns in Hin as [Hin _].
    destruct (si_live _ _ _ _ Ri sn Hin) as (k & e & He & Hs). destruct (si_indexed _ _ _ _ Ri k ltac:(by eexists)) as [pos Hpos].
    destruct (si_index _ _ _ _ Ri k pos Hpos) as (_ & e' & He' & Hd). replace e' with e in Hd by congruence.
    destruct (Hraw pos e Hd Hs) as [Hok [c ->]]. by exists k, e, c.
  - cbn. rewrite L1. intros sn Hin. pose proof (dt_live_oldest _ _ Pd Hin : o * 2048 ≤ sn). rewrite Hsns.
    destruct (Z.le_gt_cases ((o + 1) * 2048) sn); [by left|right]. split; [done|lia].
  - rewrite E2. cbn [mbind outcome_bind]. cbn [okv_datTree set_datTree] in O2. rewrite O1 in O2. fold o in O2. destruct R2 as [Rw2 Ri2 Rl2 Rs2 Rn2 Rr2].
    pose proof (si_parts _ _ _ _ Ri2) as [Pb2 Pd2 Pn2 P02 Pp2 Po2].
    destruct (dt_EvictTwig_ok (okv_datTree o2) Hcomp Pd2) as (d3 & E3 & D3 & N3 & Q3 & X3 & L3 & O3 & G3); [rewrite O2; exact L2|rewrite O2; lia|].
    rewrite O2 in E3, O3. rewrite E3. cbn [mbind outcome_bind mret outcome_ret]. eexists _, ent2. split; [reflexivity|]. split_and!.
    + etrans; [|etrans; [exact F2|]]; split_and!; cbn; done || congruence.
    + split; cbn; [destruct Rw2; by split| |done|done|lia|unfold reach in *; cbn; by rewrite N3, Q3].
      destruct Ri2 as [_ I2 I3 I4 I5 I6]. split; cbn; rewrite ?X3, ?L3; try done.
      * split; cbn; try done; try lia. rewrite Po2, O2, to_int64_small; [lia|]. assert (dt_next (okv_datTree o2) ≤ bound) by (unfold reach in Rr2; destruct (64 <=? _); lia). unfold is_int64. lia.
      * intros k e He. specialize (I4 k e He). unfold entry_wf in *. cbn. by rewrite L3.
    + done.
Qed.

(** The condition of the loop, on the counts. *)
Lemma must_reap_spec okv ent : store_inv okv ent → dt_next (okv_datTree okv) < 2 ^ 63 →
  must_reap okv = true ↔ StartReapThres < Z.of_nat (size ent) ∧ 2 * Z.of_nat (size ent) < dt_next (okv_datTree okv) - dt_oldest (okv_datTree okv) * 2048.
Proof.
  intros Hi Hn. pose proof (si_parts _ _ _ _ Hi) as [Pb Pd Pn P0 Pp Po]. unfold must_reap, OnvaKV_ActiveCount, NVTree_ActiveCount.
  rewrite (bt_Len_ok _ Pb). assert (size (index okv) = size ent) as ->.
  { rewrite <- !size_dom. f_equal. apply set_eq. intros k. rewrite !elem_of_dom. split; [|apply Hi].
    intros [pos Hpos]. destruct (si_index _ _ _ _ Hi k pos Hpos) as (_ & e & -> & _). by eexists. }
  unfold StartReapThres. destruct (decide (10000 < Z.of_nat (size ent))) as [Ha|Ha].
  2:{ split; [|intros [? _]; lia]. intros [_ H]%andb_true_iff. apply Z.gtb_lt in H. lia. }
  assert (0 ≤ dt_oldest (okv_datTree okv) * 2048 < dt_next (okv_datTree okv)) as Hr.
  { destruct (decide (ent = ∅)) as [->|Hne]; [rewrite map_size_empty in Ha; lia|]. apply map_choose in Hne as (k & e & He).
    destruct (si_entry _ _ _ _ Hi k e He) as (_ & _ & _ & Hl & _). pose proof (dt_live_oldest _ _ Pd Hl). pose proof (dt_live_next _ _ Pd Hl).
    pose proof (dt_oldest_nonneg _ Pd). lia. }
  unfold numOfKeptEntries, GetMaxSerialNum, GetOldestActiveTwigID, KeptEntriesToActiveEntriesRatio, LeafCountInTwig. rewrite Pn, Po.
  rewrite (to_int64_small (_ * 2048)) by (unfold is_int64; lia). rewrite to_int64_small by (unfold is_int64; lia).
  rewrite andb_true_iff, !Z.gtb_lt. lia.
Qed.

(** The loop stops, before it comes to a twig that is not in the storage: when
    the entries appended in this block are few, against those that are active. *)
Lemma reap_loop_ok startKey endKey ent0 n bound fuel : dt_compacts → bound < dt_max → bound ≤ dt_compact_max →
  bound = n + Z.of_nat (size ent0) + 1 → ∀ okv ent, reaping startKey endKey ent0 n bound okv ent → dt_flushed (okv_datTree okv) ≤ n →
  n - dt_flushed (okv_datTree okv) + 2049 ≤ Z.of_nat (size ent0) →
  dt_flushed (okv_datTree okv) / 2048 ≤ dt_oldest (okv_datTree okv) + Z.of_nat fuel →
  ∃ okv' ent', reap fuel okv = Ret okv' ∧ same_frame okv okv' ∧ reaping startKey endKey ent0 n bound okv' ent' ∧ must_reap okv' = false.
Proof.
  intros Hcomp Hbound Hcap Eb. pose proof dt_max_bound as Hmb. induction fuel as [|fuel IH]; intros okv ent Hr Hfn Hgrow Hfuel; cbn [reap].
  all: assert (dt_next (okv_datTree okv) ≤ bound) as Hnb by (pose proof (rp_reach _ _ _ _ _ _ _ Hr) as Hx; unfold reach in Hx; destruct (64 <=? _); lia).
  all: pose proof (must_reap_spec okv ent (rp_inv _ _ _ _ _ _ _ Hr) ltac:(lia)) as Hm; rewrite (unnumbered_size _ _ (rp_same _ _ _ _ _ _ _ Hr)) in Hm.
  all: destruct (must_reap okv) eqn:Hreap; [|by exists okv, ent].
  all: destruct (proj1 Hm eq_refl) as [_ Hkept].
  - exfalso. zdiv.
  - destruct (reap_twig_ok startKey endKey ent0 n bound okv ent Hcomp Hbound Hcap Hr) as (o1 & ent1 & E1 & F1 & R1 & O1); [lia|done|].
    rewrite E1. cbn [mbind outcome_bind]. assert (dt_flushed (okv_datTree o1) = dt_flushed (okv_datTree okv)) as Ef by apply F1.
    destruct (IH o1 ent1 R1) as (o2 & ent2 & E2 & F2 & R2 & M2); [by rewrite Ef|by rewrite Ef|rewrite Ef, O1; lia|].
    exists o2, ent2. split_and!; [done|by etrans|done|done].
Qed.
End reap.
