(* ===== verification/OnvaKVPrepare.v ===== *)
(** * Preparing the keys of a block

    The calls of [PrepareForUpdate] and [PrepareForDeletion] before a block
    fill the two bucket maps: [H] is the set of the hot keys, each with the
    entry the store has for it or the fake entry of an absent key, and [N] the
    set of the next keys. Every key that a block may insert or delete then has
    both its neighbours cached. *)
From S2P Require Import Prelude Types ByteOrder RocksDB BTreeSpec.
From S2P Require Import MetaDB IndexTree EntryCodec Twig Tree DataTreeSpec.
From S2P Require Import Client OnvaKV Relink Buckets OnvaKVInv OnvaKVRead OnvaKVBlock.

(** ** Neighbours in a finite set of keys *)

Lemma prev_exists (ent : gmap bytes Entry) s k : is_Some (ent !! s) → s <b k → ∃ p, prev_in (λ k', is_Some (ent !! k')) k p.
Proof.
  intros Hs Hsk. pose proof (find_last_spec ent (λ k', bytes_ltb k' k)) as H. cbn in H.
  destruct (find_last _ _) as [[p e]|].
  - destruct H as (Hp & Hlt & Hmax). exists p. split_and!; [by eexists|by apply bytes_ltb_lt|].
    intros k' Hk' Hlt'. apply Hmax; [by apply bytes_ltb_lt|done].
  - destruct Hs as [e He]. rewrite (H s) in He; [done|by apply bytes_ltb_lt].
Qed.

Lemma next_of_prev (S : bytes → Prop) k p n : prev_in S k p → ¬ S k → next_in S p n → next_in S k n.
Proof.
  intros (Hp & Hpk & Hmax) Hk (Hn & Hpn & Hmin). split_and!; [done| |].
  - destruct (bytes_lt_total k n) as [?|[?|Hlt]]; [done|by subst|]. specialize (Hmax n Hn Hlt). by apply bytes_nlt_ge in Hmax.
  - intros k' Hk' Hlt. apply Hmin; [done|]. by apply (bytes_lt_trans p k k').
Qed.

(** ** The bucket maps of a block *)

(** The hot entry that a prepared key has. *)
Definition hot0 (ent : gmap bytes Entry) (k : bytes) : HotEntry := hot_entry (default (fake_entry k) (ent !! k)).
Definition hot_of (ent : gmap bytes Entry) (H : gset bytes) : gmap bytes (option HotEntry) :=
  map_imap (λ k _, Some (Some (hot0 ent k))) (gset_to_gmap tt H).
Definition next_of (N : gset bytes) : gmap bytes (option HotEntry) := gset_to_gmap None N.

Lemma hot_of_lookup ent H k : hot_of ent H !! k = if decide (k ∈ H) then Some (Some (hot0 ent k)) else None.
Proof.
  unfold hot_of. rewrite map_lookup_imap, lookup_gset_to_gmap. case_decide as Hk.
  - by rewrite option_guard_True.
  - by rewrite option_guard_False.
Qed.
Lemma hot_of_insert ent H k : <[k := Some (hot0 ent k)]> (hot_of ent H) = hot_of ent ({[k]} ∪ H).
Proof.
  apply map_eq. intros k'. rewrite hot_of_lookup. destruct (decide (k' = k)) as [->|Hne].
  - rewrite lookup_insert_eq, decide_True; [done|]. by apply elem_of_union_l, elem_of_singleton.
  - rewrite lookup_insert_ne, hot_of_lookup by done. apply decide_ext. rewrite elem_of_union, elem_of_singleton. naive_solver.
Qed.
Lemma next_of_insert N k : <[k := None]> (next_of N) = next_of ({[k]} ∪ N).
Proof. unfold next_of. by rewrite gset_to_gmap_union_singleton. Qed.
Lemma next_of_lookup N k : next_of N !! k = if decide (k ∈ N) then Some None else None.
Proof. unfold next_of. rewrite lookup_gset_to_gmap. case_decide; [by rewrite option_guard_True|by rewrite option_guard_False]. Qed.
Lemma hot_of_empty ent : hot_of ent ∅ = ∅.
Proof. apply map_eq. intros k. rewrite hot_of_lookup, decide_False by apply not_elem_of_empty. by rewrite lookup_empty. Qed.

Section prepare.
Context {D T E DT : Type} `{HD : !Rocks D} `{!RocksLaws D} `{HT : !BTreeOps Z T E} `{!BTreeLaws Z T E}.
Context `{HDT : !DataTreeOps DT} `{!DataTreeLaws DT} (KeyOk ValOk : bytes → Prop) (Hsizes : sizes_ok KeyOk ValOk).
Notation OnvaKV := (OnvaKV D T DT).
Notation readable := (readable KeyOk ValOk).
Implicit Types (okv : OnvaKV) (ent : gmap bytes Entry) (k : bytes).

Definition prepare_step okv (p : prep) : outcome OnvaKV :=
  match p with
  | PrepUpdate k => PrepareForUpdate okv k
  | PrepDeletion k => '(okv, _) ← PrepareForDeletion okv k; mret okv
  end.
Definition prepare okv (ps : list prep) : outcome OnvaKV := for_state prepare_step okv ps.

(** Both neighbours of the key are cached, the one before it with its entry. *)
Definition neighbours ent (H N : gset bytes) k : Prop :=
  (∃ p, prev_in (λ k', is_Some (ent !! k')) k p ∧ p ∈ H) ∧ ∃ n, next_in (λ k', is_Some (ent !! k')) k n ∧ n ∈ H ∪ N.

(** What the prepared keys of a block guarantee. *)
Record cache_ok ent (H N : gset bytes) (ps : list prep) : Prop := {
  ck_next n : n ∈ N → is_Some (ent !! n);
  ck_hot k : k ∈ H → KeyOk k;
  ck_absent k : k ∈ H → ent !! k = None → neighbours ent H N k;
  ck_update k : PrepUpdate k ∈ ps → k ∈ H;
  ck_deletion k : PrepDeletion k ∈ ps → is_Some (ent !! k) → k ∈ H ∧ neighbours ent H N k;
  ck_size : (size H ≤ 2 * length ps)%nat ∧ (size N ≤ length ps)%nat
}.

Lemma neighbours_mono ent H N H' N' k : H ⊆ H' → N ⊆ N' → neighbours ent H N k → neighbours ent H' N' k.
Proof.
  intros HH HN [(p & Hp & HpH) (n & Hn & HnH)]. split; [exists p|exists n]; (split; [done|]); [by apply HH|].
  apply elem_of_union in HnH as [?|?]; apply elem_of_union; [left; by apply HH|right; by apply HN].
Qed.

(** What preparing leaves alone. *)
Definition same_counts okv okv' : Prop :=
  dt_next (okv_datTree okv') = dt_next (okv_datTree okv) ∧ dt_flushed (okv_datTree okv') = dt_flushed (okv_datTree okv).
Definition rest okv := (okv_meta okv, okv_idxTree okv, okv_rocksdb okv, okv_rootHash okv, okv_startKey okv, okv_endKey okv).
Lemma only_read_rest okv okv' : only_read okv okv' → rest okv' = rest okv ∧ okv_k2heMap okv' = okv_k2heMap okv ∧
  okv_k2nkMap okv' = okv_k2nkMap okv ∧ same_counts okv okv'.
Proof. intros [-> H]. done. Qed.

(** The state while a block is prepared. *)
Record preparing okv0 okv ent (H N : gset bytes) (ps : list prep) : Prop := {
  pp_readable : readable okv ent;
  pp_rest : rest okv = rest okv0;
  pp_counts : same_counts okv0 okv;
  pp_he : holds (okv_k2heMap okv) (hot_of ent H);
  pp_nk : holds (okv_k2nkMap okv) (next_of N);
  pp_cache : cache_ok ent H N ps
}.

(** Storing a hot entry, or a next key. *)
Lemma store_hot_ok okv ent H k h : holds (okv_k2heMap okv) (hot_of ent H) → keyed k → h = hot0 ent k →
  ∃ he, store_hot okv k h = Ret (set_maps okv he (okv_k2nkMap okv)) ∧ holds he (hot_of ent ({[k]} ∪ H)).
Proof.
  intros Hh Hk ->. destruct (BM_Store_ok _ _ k (Some (hot0 ent k)) Hh Hk) as (he & E1 & H1). exists he. unfold store_hot. rewrite E1.
  split; [done|]. by rewrite <- hot_of_insert.
Qed.
Lemma store_next_ok okv N k : holds (okv_k2nkMap okv) (next_of N) → keyed k →
  ∃ nk, store_next okv k = Ret (set_maps okv (okv_k2heMap okv) nk) ∧ holds nk (next_of ({[k]} ∪ N)).
Proof.
  intros Hh Hk. destruct (BM_Store_ok _ _ k None Hh Hk) as (nk & E1 & H1). exists nk. unfold store_next. rewrite E1.
  split; [done|]. by rewrite <- next_of_insert.
Qed.

Lemma readable_maps okv ent he nk : readable okv ent → readable (set_maps okv he nk) ent.
Proof. intros [[[] H2 H3 H4 H5 H6] Hs Hw]. split; [|done|done]. by split; [split|..]. Qed.

Context (startKey endKey : bytes).
Definition prep_ok (p : prep) : Prop := KeyOk (prep_key p) ∧ startKey <b prep_key p ∧ prep_key p <b endKey.

(** The entries around a prepared key. *)
Lemma prev_of ent k : linked startKey endKey ent → startKey <b k → k <b endKey →
  ∃ p e, prev_in (λ k', is_Some (ent !! k')) k p ∧ ent !! p = Some e ∧ next_in (λ k', is_Some (ent !! k')) p (NextKey e).
Proof.
  intros Hl Hs He. destruct (prev_exists ent startKey k (li_start _ _ _ Hl) Hs) as [p Hp]. pose proof Hp as ([e Hpe] & Hpk & _).
  exists p, e. split_and!; [done|done|]. apply (li_next _ _ _ Hl); [done|]. intros ->.
  apply (irreflexivity bytes_lt endKey). by eapply bytes_lt_trans.
Qed.
Lemma startKey_nonempty k : startKey <b k → [] <b k.
Proof. intros H. eapply bytes_le_lt_trans; [apply bytes_nil_le|done]. Qed.

Lemma cache_ok_cons ent H N H' N' ps p : cache_ok ent H N ps → H ⊆ H' → N ⊆ N' → (size H' ≤ 2 + size H)%nat → (size N' ≤ 1 + size N)%nat →
  (∀ n, n ∈ N' → n ∈ N ∨ is_Some (ent !! n)) →
  (∀ k, k ∈ H' → k ∈ H ∨ KeyOk k ∧ (ent !! k = None → neighbours ent H' N' k)) →
  (∀ k, p = PrepUpdate k → k ∈ H') →
  (∀ k, p = PrepDeletion k → is_Some (ent !! k) → k ∈ H' ∧ neighbours ent H' N' k) →
  cache_ok ent H' N' (p :: ps).
Proof.
  intros [C1 C2 C3 C4 C5 [C6 C7]] HH HN S1 S2 Hnext Hhot Hupd Hdel. split.
  - intros n [?|?]%Hnext; [by apply C1|done].
  - intros k [?|[? _]]%Hhot; [by apply C2|done].
  - intros k Hk Hn. destruct (Hhot k Hk) as [Hk'|[_ Hk']]; [|by apply Hk']. eapply neighbours_mono; [..|by apply C3]; done.
  - intros k [<-|Hin]%elem_of_cons; [by apply Hupd|by apply HH, C4].
  - intros k Hin Hk. apply elem_of_cons in Hin as [<-|Hin]; [by apply Hdel|]. destruct (C5 k Hin Hk) as [H1 H2].
    split; [by apply HH|]. by eapply neighbours_mono.
  - cbn [length]. lia.
Qed.

Lemma preparing_step okv0 okv ent H N H' N' ps p okv' : preparing okv0 okv ent H N ps →
  readable okv' ent → rest okv' = rest okv → same_counts okv okv' →
  holds (okv_k2heMap okv') (hot_of ent H') → holds (okv_k2nkMap okv') (next_of N') → cache_ok ent H' N' (p :: ps) →
  preparing okv0 okv' ent H' N' (p :: ps).
Proof.
  intros [Hr0 Hrest0 [C1 C2] _ _ _] Hr Hrest [C3 C4] Hhe Hnk Hc. split; [done|congruence|split; congruence|done..].
Qed.

(** The size of a set after one key more. *)
Lemma size_add (k : bytes) (H : gset bytes) : (size ({[k]} ∪ H) ≤ 1 + size H)%nat.
Proof. rewrite size_union_alt, size_singleton. pose proof (subseteq_size (H ∖ {[k]}) H ltac:(clear; set_solver)). lia. Qed.

Lemma key_ok ent okv k e : store_inv KeyOk ValOk okv ent → ent !! k = Some e → Key e = k ∧ KeyOk k ∧ keyed k.
Proof.
  intros Hi He. destruct (si_entry _ _ _ _ Hi k e He) as (H1 & H2 & _). split_and!; [done|done|by apply (so_keyed _ _ Hsizes)].
Qed.

Lemma prepare_update_present okv0 okv ent H N ps k e : preparing okv0 okv ent H N ps → ent !! k = Some e →
  ∃ okv', PrepareForUpdate okv k = Ret okv' ∧ preparing okv0 okv' ent ({[k]} ∪ H) N (PrepUpdate k :: ps).
Proof.
  intros Hp He. pose proof Hp as [Hr _ _ Hhe Hnk Hc]. unfold PrepareForUpdate. rewrite (NVTree_Get_ok _ _ okv ent k Hr). cbn [mbind outcome_bind].
  destruct (proj2 (index_keys _ _ okv ent k (re_inv _ _ _ _ Hr)) ltac:(by eexists)) as [pos Hpos]. rewrite Hpos.
  destruct (read_at_ok _ _ okv ent k e pos Hr He Hpos) as (o & -> & R1 & (Q1 & Q2 & Q3 & Q4)%only_read_rest). cbn [mbind outcome_bind].
  destruct (key_ok ent okv k e (re_inv _ _ _ _ Hr) He) as (_ & HK & Hkey).
  destruct (store_hot_ok o ent H k (hot_entry e)) as (he & -> & Hhe'); [by rewrite Q2|done|unfold hot0; by rewrite He|].
  eexists. split; [reflexivity|]. eapply preparing_step; [done|by apply readable_maps|done|done|done|by rewrite Q3|].
  eapply cache_ok_cons; [done|clear; set_solver|done|pose proof (size_add k H); lia|lia|by left| | |].
  - intros k' [->%elem_of_singleton|?]%elem_of_union; [right; by rewrite He|by left].
  - intros k' [= <-]. by apply elem_of_union_l, elem_of_singleton.
  - done.
Qed.

Lemma prepare_update_absent okv0 okv ent H N ps k : preparing okv0 okv ent H N ps → linked startKey endKey ent → prep_ok (PrepUpdate k) → ent !! k = None →
  ∃ okv' p n, PrepareForUpdate okv k = Ret okv' ∧ preparing okv0 okv' ent ({[p]} ∪ ({[k]} ∪ H)) ({[n]} ∪ N) (PrepUpdate k :: ps).
Proof.
  intros Hp Hl (HK & Hs & He) Hnone. cbn [prep_key] in *. pose proof Hp as [Hr _ _ Hhe Hnk Hc]. pose proof (re_inv _ _ _ _ Hr) as Hi.
  unfold PrepareForUpdate. rewrite (NVTree_Get_ok _ _ okv ent k Hr), (index_none _ _ okv ent k Hi Hnone). cbn [mbind outcome_bind].
  destruct (prev_of ent k Hl Hs He) as (p & e & Hprev & Hpe & Hpn).
  destruct (getPrevEntry_ok _ _ okv ent k p e Hr ltac:(by eapply startKey_nonempty) Hprev Hpe) as (o & -> & R1 & (Q1 & Q2 & Q3 & Q4)%only_read_rest). cbn [mbind outcome_bind].
  destruct (key_ok ent okv p e Hi Hpe) as (-> & HKp & Hkp).
  assert (is_Some (ent !! NextKey e)) as [en Hen] by apply Hpn.
  destruct (key_ok ent okv _ en Hi Hen) as (_ & HKn & Hkn).
  destruct (store_hot_ok o ent H k (hot_entry (fake_entry k))) as (he & -> & Hhe'); [by rewrite Q2|by apply (so_keyed _ _ Hsizes)|unfold hot0; by rewrite Hnone|].
  cbn [mbind outcome_bind]. destruct (store_hot_ok (set_maps o he (okv_k2nkMap o)) ent ({[k]} ∪ H) p (hot_entry e)) as (he2 & -> & Hhe2);
    [done|done|unfold hot0; by rewrite Hpe|]. cbn [mbind outcome_bind].
  destruct (store_next_ok (set_maps (set_maps o he (okv_k2nkMap o)) he2 (okv_k2nkMap (set_maps o he (okv_k2nkMap o)))) N (NextKey e)) as (nk & -> & Hnk'); [cbn; by rewrite Q3|done|].
  eexists _, p, (NextKey e). split; [reflexivity|]. eapply preparing_step; [done|by repeat apply readable_maps|done..|].
  eapply cache_ok_cons; [done|clear; set_solver|clear; set_solver|pose proof (size_add p ({[k]} ∪ H)); pose proof (size_add k H); lia|apply size_add| | | |done].
  - intros n [->%elem_of_singleton|?]%elem_of_union; [right; by eexists|by left].
  - intros k' [->%elem_of_singleton|[->%elem_of_singleton|?]%elem_of_union]%elem_of_union; [right|right|by left].
    + by rewrite Hpe.
    + split; [done|]. intros _. split.
      * exists p. split; [done|]. by apply elem_of_union_l, elem_of_singleton.
      * exists (NextKey e). split; [|by apply elem_of_union_r, elem_of_union_l, elem_of_singleton].
        apply (next_of_prev _ k p); [done|by rewrite Hnone, <- eq_None_not_Some|done].
  - intros k' [= <-]. by apply elem_of_union_r, elem_of_union_l, elem_of_singleton.
Qed.

Lemma prepare_deletion_present okv0 okv ent H N ps k e : preparing okv0 okv ent H N ps → linked startKey endKey ent → prep_ok (PrepDeletion k) → ent !! k = Some e →
  ∃ okv' p n, PrepareForDeletion okv k = Ret (okv', true) ∧ preparing okv0 okv' ent ({[p]} ∪ ({[k]} ∪ H)) ({[n]} ∪ N) (PrepDeletion k :: ps).
Proof.
  intros Hp Hl (HK & Hs & Hend) He. cbn [prep_key] in *. pose proof Hp as [Hr _ _ Hhe Hnk Hc]. pose proof (re_inv _ _ _ _ Hr) as Hi.
  unfold PrepareForDeletion. rewrite (NVTree_Get_ok _ _ okv ent k Hr).
  destruct (proj2 (index_keys _ _ okv ent k Hi) ltac:(by eexists)) as [pos Hpos]. rewrite Hpos. cbn [mbind outcome_bind].
  destruct (read_at_ok _ _ okv ent k e pos Hr He Hpos) as (o1 & -> & R1 & (Q1 & Q2 & Q3 & Q4)%only_read_rest). cbn [mbind outcome_bind].
  destruct (prev_of ent k Hl Hs Hend) as (p & pe & Hprev & Hpe & _).
  destruct (getPrevEntry_ok _ _ o1 ent k p pe R1 ltac:(by eapply startKey_nonempty) Hprev Hpe) as (o & -> & R & (U1 & U2 & U3 & U4)%only_read_rest). cbn [mbind outcome_bind].
  destruct (key_ok ent okv p pe Hi Hpe) as (-> & HKp & Hkp). destruct (key_ok ent okv k e Hi He) as (-> & _ & Hkk).
  assert (next_in (λ k', is_Some (ent !! k')) k (NextKey e)) as Hnext.
  { apply (li_next _ _ _ Hl); [done|]. intros ->. by apply (irreflexivity bytes_lt endKey). }
  assert (is_Some (ent !! NextKey e)) as [en Hen] by apply Hnext. destruct (key_ok ent okv _ en Hi Hen) as (_ & HKn & Hkn).
  destruct (store_hot_ok o ent H k (hot_entry e)) as (he & -> & Hhe'); [by rewrite U2, Q2|done|unfold hot0; by rewrite He|].
  cbn [mbind outcome_bind]. destruct (store_hot_ok (set_maps o he (okv_k2nkMap o)) ent ({[k]} ∪ H) p (hot_entry pe)) as (he2 & -> & Hhe2);
    [done|done|unfold hot0; by rewrite Hpe|]. cbn [mbind outcome_bind].
  destruct (store_next_ok (set_maps (set_maps o he (okv_k2nkMap o)) he2 (okv_k2nkMap (set_maps o he (okv_k2nkMap o)))) N (NextKey e)) as (nk & -> & Hnk'); [cbn; by rewrite U3, Q3|done|].
  eexists _, p, (NextKey e). split; [reflexivity|]. eapply preparing_step; [done|by repeat apply readable_maps|etrans; [exact U1|exact Q1]|destruct U4, Q4; split; etrans; eassumption|done..|].
  assert (neighbours ent ({[p]} ∪ ({[k]} ∪ H)) ({[NextKey e]} ∪ N) k) as Hnb.
  { split; [exists p|exists (NextKey e)]; (split; [done|]); [by apply elem_of_union_l, elem_of_singleton|by apply elem_of_union_r, elem_of_union_l, elem_of_singleton]. }
  eapply cache_ok_cons; [done|clear; set_solver|clear; set_solver|pose proof (size_add p ({[k]} ∪ H)); pose proof (size_add k H); lia|apply size_add| | |done|].
  - intros n [->%elem_of_singleton|?]%elem_of_union; [right; by eexists|by left].
  - intros k' [->%elem_of_singleton|[->%elem_of_singleton|?]%elem_of_union]%elem_of_union; [right|right|by left].
    + by rewrite Hpe.
    + by rewrite He.
  - intros k' [= <-] _. split; [by apply elem_of_union_r, elem_of_union_l, elem_of_singleton|done].
Qed.

Lemma cache_ok_permutation ent H N ps ps' : ps ≡ₚ ps' → cache_ok ent H N ps → cache_ok ent H N ps'.
Proof. intros Hperm []. split; try setoid_rewrite <- Hperm; done. Qed.

Lemma prepare_step_ok okv0 okv ent H N ps p : preparing okv0 okv ent H N ps → linked startKey endKey ent → prep_ok p →
  ∃ okv' H' N', prepare_step okv p = Ret okv' ∧ preparing okv0 okv' ent H' N' (p :: ps).
Proof.
  intros Hp Hl Hok. destruct p as [k|k]; cbn [prepare_step].
  - destruct (ent !! k) as [e|] eqn:He.
    + destruct (prepare_update_present okv0 okv ent H N ps k e Hp He) as (o & E1 & P1). by eexists o, _, _.
    + destruct (prepare_update_absent okv0 okv ent H N ps k Hp Hl Hok He) as (o & p & n & E1 & P1). by eexists o, _, _.
  - destruct (ent !! k) as [e|] eqn:He.
    + destruct (prepare_deletion_present okv0 okv ent H N ps k e Hp Hl Hok He) as (o & p & n & -> & P1). by eexists o, _, _.
    + pose proof (pp_readable _ _ _ _ _ _ Hp) as Hr. unfold PrepareForDeletion.
      rewrite (NVTree_Get_ok _ _ okv ent k Hr), (index_none _ _ okv ent k (re_inv _ _ _ _ Hr) He). cbn [mbind outcome_bind mret outcome_ret].
      exists okv, H, N. split; [done|]. eapply preparing_step; [done..|apply Hp|apply Hp|].
      eapply cache_ok_cons; [apply Hp|done|done|lia|lia|by left|by left|done|]. intros k' [= <-] []. congruence.
Qed.

Lemma prepare_ok okv ent ps : readable okv ent → holds (okv_k2heMap okv) ∅ → holds (okv_k2nkMap okv) ∅ → linked startKey endKey ent →
  (∀ p, p ∈ ps → prep_ok p) → ∃ okv' H N, prepare okv ps = Ret okv' ∧ preparing okv okv' ent H N ps.
Proof.
  intros Hr Hhe Hnk Hl. assert (preparing okv okv ent ∅ ∅ []) as Hp0.
  { split; [done..|by rewrite hot_of_empty|done|]. split; [by intros n ?%not_elem_of_empty|by intros k ?%not_elem_of_empty|by intros k ?%not_elem_of_empty|by intros k ?%elem_of_nil|by intros k ?%elem_of_nil|done]. }
  assert (∀ ps' o H N done_, preparing okv o ent H N done_ → (∀ p, p ∈ ps' → prep_ok p) →
    ∃ okv' H' N', prepare o ps' = Ret okv' ∧ preparing okv okv' ent H' N' (rev_append ps' done_)) as Hloop.
  { induction ps' as [|p ps' IH]; intros o H N dn Hp Hok; [by exists o, H, N|].
    destruct (prepare_step_ok okv o ent H N dn p Hp Hl (Hok p ltac:(by left))) as (o1 & H1 & N1 & E1 & P1).
    unfold prepare. rewrite (for_state_step _ _ _ _ _ E1). apply (IH o1 H1 N1); [done|]. intros p' Hp'. apply Hok. by right. }
  intros Hok. destruct (Hloop ps okv ∅ ∅ [] Hp0 Hok) as (o & H & N & E1 & []). exists o, H, N. split; [exact E1|].
  split; [done..|]. eapply cache_ok_permutation; [|done]. rewrite rev_append_rev, app_nil_r. apply Permutation_sym, Permutation_rev.
Qed.
End prepare.
