(* ===== verification/OnvaKVSets.v ===== *)
(** * Setting and deleting the keys of a block

    [spec_after] is what the writes of a client mean for the contents of the
    store. The hot entries follow it: after the writes the cached entries, put
    together from the buckets, stand for the change from the old keys to the
    new ones, which is what the linking of the keys relies on. *)
From S2P Require Import Prelude Types ByteOrder RocksDB BTreeSpec.
From S2P Require Import MetaDB IndexTree EntryCodec Twig Tree DataTreeSpec.
From S2P Require Import Client OnvaKV Relink Buckets OnvaKVInv OnvaKVRead OnvaKVBlock OnvaKVPrepare.

Section sets.
Context {D T E DT : Type} `{HD : !Rocks D} `{!RocksLaws D} `{HT : !BTreeOps Z T E} `{!BTreeLaws Z T E}.
Context `{HDT : !DataTreeOps DT} `{!DataTreeLaws DT} (KeyOk ValOk : bytes → Prop) (Hsizes : sizes_ok KeyOk ValOk).
Notation OnvaKV := (OnvaKV D T DT).
Notation store_inv := (store_inv KeyOk ValOk).
Notation cache_ok := (cache_ok KeyOk).
Implicit Types (okv : OnvaKV) (ent : gmap bytes Entry) (m : gmap bytes bytes) (k : bytes).

Definition write_step okv (w : write) : outcome OnvaKV :=
  match w with
  | SetKey k v => OnvaKV_Set okv k (Some v)
  | DeleteKey k => OnvaKV_Delete okv k
  end.
Definition run_writes okv (ws : list write) : outcome OnvaKV := for_state write_step okv ws.

Context (startKey endKey : bytes) (ps : list prep) (Hps : ∀ p, p ∈ ps → prep_ok KeyOk startKey endKey p).

(** A write is allowed on a prepared key, and a key that is new in the block
    may not be deleted after it was set. *)
Definition write_ok (w : write) : Prop :=
  match w with
  | SetKey k v => PrepUpdate k ∈ ps ∧ ValOk v
  | DeleteKey k => PrepDeletion k ∈ ps
  end.
Lemma write_ok_key w : write_ok w → KeyOk (write_key w) ∧ startKey <b write_key w ∧ write_key w <b endKey.
Proof. destruct w as [k v|k]; [intros [Hk _]; apply (Hps _ Hk)|intros Hk; apply (Hps _ Hk)]. Qed.
Definition no_revival m (ws : list write) : Prop := ∀ i j k v,
  ws !! i = Some (SetKey k v) → ws !! j = Some (DeleteKey k) → (i < j)%nat → is_Some (m !! k).

(** A hot entry after some writes: [m] is the contents now. *)
Record hot_state ent (H N : gset bytes) m (past : list write) k (h : HotEntry) : Prop := {
  hs_entry : EntryPtr h = set_Value (EntryPtr (hot0 ent k)) (Value (EntryPtr h));
  hs_flags : IsModified h = false ∧ IsTouchedByNext h = false;
  hs_op : match Operation h with
          | OpNone => m !! k = values ent !! k ∧ Value (EntryPtr h) = Value (EntryPtr (hot0 ent k))
          | OpInsertOrChange => ∃ v, Value (EntryPtr h) = Some v ∧ ValOk v ∧ m !! k = Some v ∧ SetKey k v ∈ past
          | OpDelete => m !! k = None ∧ (ent !! k = None → Value (EntryPtr h) = None) ∧ (is_Some (ent !! k) → neighbours ent H N k ∧ ∃ v, Value (EntryPtr h) = Some v ∧ ValOk v)
          end;
  hs_range : Operation h ≠ OpNone → startKey <b k ∧ k <b endKey
}.

Record updating okv0 okv ent (H N : gset bytes) (M : gmap bytes (option HotEntry)) m (past : list write) : Prop := {
  up_rest : okv = set_maps okv0 (okv_k2heMap okv) (okv_k2nkMap okv0);
  up_he : holds (okv_k2heMap okv) M;
  up_hot k : k ∈ H → ∃ h, M !! k = Some (Some h) ∧ hot_state ent H N m past k h;
  up_cold k : k ∉ H → M !! k = None ∧ m !! k = values ent !! k
}.

Lemma hot_state_other ent H N m past k h w : hot_state ent H N m past k h → write_key w ≠ k →
  hot_state ent H N (spec_write m w) (past ++ [w]) k h.
Proof.
  intros [] Hne. split; try done. destruct (Operation h); rewrite spec_write_other by done; [done|done|].
  destruct hs_op0 as (v & ? & ? & ? & ?). exists v. split_and!; try done. apply elem_of_app. by left.
Qed.

Lemma updating_start okv ent H N : holds (okv_k2heMap okv) (hot_of ent H) → updating okv okv ent H N (hot_of ent H) (values ent) [].
Proof.
  intros Hhe. split; [by destruct okv|done| |].
  - intros k Hk. rewrite hot_of_lookup, decide_True by done. eexists. split; [done|]. unfold hot0, hot_entry.
    split; [cbn; by destruct (default _ _)|done|by split|done].
  - intros k Hk. by rewrite hot_of_lookup, decide_False.
Qed.

(** Storing a hot entry for the key of a write. *)
Lemma updating_store okv0 okv ent H N M m past w h : updating okv0 okv ent H N M m past → write_key w ∈ H → keyed (write_key w) →
  hot_state ent H N (spec_write m w) (past ++ [w]) (write_key w) h →
  ∃ okv' M', store_hot okv (write_key w) h = Ret okv' ∧ updating okv0 okv' ent H N M' (spec_write m w) (past ++ [w]).
Proof.
  intros [U1 U2 U3 U4] Hk Hkey Hh. destruct (BM_Store_ok _ _ (write_key w) (Some h) U2 Hkey) as (he & E1 & H1).
  unfold store_hot. rewrite E1. cbn [mbind outcome_bind mret outcome_ret]. eexists _, _. split; [reflexivity|]. split.
  - rewrite U1. done.
  - exact H1.
  - intros k Hk'. destruct (decide (k = write_key w)) as [->|Hne]; [exists h; by rewrite lookup_insert_eq|].
    rewrite lookup_insert_ne by done. destruct (U3 k Hk') as (h' & E' & Hh'). exists h'. split; [done|]. by apply hot_state_other.
  - intros k Hk'. assert (k ≠ write_key w) by (intros ->; done). rewrite lookup_insert_ne, spec_write_other by done. by apply U4.
Qed.

(** What an entry of the store has for a key. *)
Lemma entry_facts okv ent k e : store_inv okv ent → ent !! k = Some e →
  KeyOk k ∧ Key e = k ∧ 0 ≤ SerialNum e ∧ ∃ v, Value e = Some v ∧ ValOk v ∧ values ent !! k = Some v.
Proof.
  intros Hi He. destruct (si_entry _ _ _ _ Hi k e He) as (HK & HKok & (v & Hv & Hvok) & Hlive & _).
  pose proof (dt_live_next _ _ (po_dt _ (si_parts _ _ _ _ Hi)) Hlive). split_and!; [done|done|lia|].
  exists v. split_and!; [done|done|]. unfold values. rewrite lookup_fmap, He. cbn. unfold ValueBytes. by rewrite Hv.
Qed.

Lemma write_step_ok okv0 okv ent H N M m past w : store_inv okv0 ent → cache_ok ent H N ps → updating okv0 okv ent H N M m past →
  write_ok w → (∀ k v, w = DeleteKey k → SetKey k v ∈ past → is_Some (ent !! k)) →
  ∃ okv' M', write_step okv w = Ret okv' ∧ updating okv0 okv' ent H N M' (spec_write m w) (past ++ [w]).
Proof.
  intros Hi Hc Hu Hw Hrev. pose proof (write_ok_key w Hw) as (HKw & Hrange). pose proof Hu as [U1 U2 U3 U4]. destruct w as [k v|k]; cbn [write_key write_step] in *.
  - destruct Hw as [Hin Hvok]. pose proof (ck_update _ _ _ _ _ Hc k Hin) as Hk. pose proof (so_keyed _ _ Hsizes k (ck_hot _ _ _ _ _ Hc k Hk)) as Hkey.
    destruct (U3 k Hk) as (h & Hh & []). unfold OnvaKV_Set. rewrite (BM_Load_ok _ _ k U2 Hkey), Hh. cbn [mbind outcome_bind].
    apply (updating_store okv0 okv ent H N M m past (SetKey k v)); [done|done|done|]. split; cbn.
    + by rewrite hs_entry0.
    + done.
    + exists v. split_and!; [done|done|by rewrite lookup_insert_eq|]. apply elem_of_app. right. by apply list_elem_of_singleton.
    + done.
  - unfold OnvaKV_Delete. destruct (decide (k ∈ H)) as [Hk|Hk].
    + pose proof (so_keyed _ _ Hsizes k (ck_hot _ _ _ _ _ Hc k Hk)) as Hkey.
      destruct (U3 k Hk) as (h & Hh & []). rewrite (BM_Load_ok _ _ k U2 Hkey), Hh. cbn [mbind outcome_bind].
      apply (updating_store okv0 okv ent H N M m past (DeleteKey k)); [done|done|done|]. split; cbn.
      * done.
      * done.
      * split; [by rewrite lookup_delete_eq|]. split.
        -- intros Hnone. destruct (Operation h) eqn:Hop.
           ++ destruct hs_op0 as [_ ->]. unfold hot0. by rewrite Hnone.
           ++ by apply hs_op0.
           ++ destruct hs_op0 as (v & _ & _ & _ & Hin). destruct (Hrev k v eq_refl Hin) as [e He]. congruence.
        -- intros Hsome. split; [by apply (ck_deletion _ _ _ _ _ Hc)|]. destruct (Operation h) eqn:Hop.
           ++ destruct hs_op0 as [_ ->]. unfold hot0. destruct Hsome as [e He]. rewrite He. cbn.
              destruct (entry_facts _ _ _ _ Hi He) as (_ & _ & _ & v & ? & ? & _). by exists v.
           ++ by apply hs_op0.
           ++ destruct hs_op0 as (v & ? & ? & _). by exists v.
      * done.
    + assert (ent !! k = None) as Hnone.
      { destruct (ent !! k) as [e|] eqn:He; [|done]. destruct Hk. apply (ck_deletion _ _ _ _ _ Hc k Hw). by eexists. }
      exists okv, M. split.
      * rewrite (BM_Load_ok _ _ k U2) by (by apply (so_keyed _ _ Hsizes)). by rewrite (proj1 (U4 k Hk)).
      * split; [done|done| |].
        -- intros k' Hk'. destruct (U3 k' Hk') as (h & Eh & Hh). exists h. split; [done|]. apply hot_state_other; [done|]. intros <-. done.
        -- intros k' Hk'. destruct (U4 k' Hk') as [? Hm]. split; [done|]. destruct (decide (k' = k)) as [->|Hne].
           ++ cbn. rewrite lookup_delete_eq. unfold values. by rewrite lookup_fmap, Hnone.
           ++ rewrite spec_write_other; [done|]. cbn. congruence.
Qed.

Lemma run_writes_ok okv ent H N ws : store_inv okv ent → cache_ok ent H N ps → holds (okv_k2heMap okv) (hot_of ent H) →
  (∀ w, w ∈ ws → write_ok w) → no_revival (values ent) ws →
  ∃ okv' M, run_writes okv ws = Ret okv' ∧ updating okv okv' ent H N M (spec_after (values ent) ws) ws.
Proof.
  intros Hi Hc Hhe Hok Hrev.
  assert (∀ todo past o M m, ws = past ++ todo → updating okv o ent H N M m past →
    ∃ okv' M', run_writes o todo = Ret okv' ∧ updating okv okv' ent H N M' (spec_after m todo) ws) as Hloop.
  { induction todo as [|w todo IH]; intros past o M m Heq Hu; [exists o, M; rewrite app_nil_r in Heq; subst; done|].
    destruct (write_step_ok okv o ent H N M m past w Hi Hc Hu) as (o1 & M1 & E1 & U1).
    - apply Hok. rewrite Heq. apply elem_of_app. right. by left.
    - intros k v -> Hin. apply list_elem_of_lookup in Hin as [i Hlt]. rewrite <- (fmap_is_Some ValueBytes), <- lookup_fmap. apply (Hrev i (length past) k v).
      + rewrite Heq. by apply lookup_app_l_Some.
      + rewrite Heq. by apply list_lookup_middle.
      + by eapply lookup_lt_Some.
    - unfold run_writes. rewrite (for_state_step _ _ _ _ _ E1). apply (IH (past ++ [w]) o1 M1); [by rewrite <- app_assoc|done]. }
  apply (Hloop ws [] okv (hot_of ent H)); [done|]. by apply updating_start.
Qed.

(** ** The cached entries after the writes *)

Section cache.
Context (okv0 okv : OnvaKV) (ent : gmap bytes Entry) (H N : gset bytes) (M : gmap bytes (option HotEntry)) (m : gmap bytes bytes) (ws : list write).
Context (Hi : store_inv okv0 ent) (Hl : linked startKey endKey ent) (Hc : cache_ok ent H N ps).
Context (Hu : updating okv0 okv ent H N M m ws) (Hnk : holds (okv_k2nkMap okv0) (next_of N)).

Lemma hot0_key k : hk (hot0 ent k) = k.
Proof. unfold hk, hot0. cbn. destruct (ent !! k) as [e|] eqn:He; [|done]. by destruct (entry_facts _ _ _ _ Hi He) as (_ & ? & _). Qed.
Lemma hot_state_key k h : hot_state ent H N m ws k h → hk h = k.
Proof. intros []. unfold hk. rewrite hs_entry0. cbn. apply hot0_key. Qed.

(** The serial number of a hot entry says whether the store had the key. *)
Lemma hot_serial k h : hot_state ent H N m ws k h →
  (is_Some (ent !! k) ∧ 0 ≤ SerialNum (EntryPtr h)) ∨ (ent !! k = None ∧ SerialNum (EntryPtr h) = -1).
Proof.
  intros []. rewrite hs_entry0. cbn. unfold hot0. cbn. destruct (ent !! k) as [e|] eqn:He; [left|by right]. split; [by eexists|].
  by destruct (entry_facts _ _ _ _ Hi He) as (_ & _ & ? & _).
Qed.

(** The hot entry stays exactly when its key is in the contents after the block. *)
Lemma hot_stays k h : hot_state ent H N m ws k h → stays h = true ↔ is_Some (m !! k).
Proof.
  intros Hh. pose proof (hot_serial k h Hh) as Hs. destruct Hh. unfold stays, isFakeInserted. destruct (Operation h) eqn:Hop.
  - destruct hs_op0 as [-> Hv]. unfold values. rewrite lookup_fmap. cbn [bool_decide negb andb].
    rewrite bool_decide_eq_true_2 by done. cbn [andb]. destruct Hs as [[Hsome Hs]|[Hnone Hs]].
    + destruct Hsome as [e He]. rewrite He. split; [by eexists|intros _]. destruct (Z.eqb_spec (SerialNum (EntryPtr h)) (-1)); [lia|done].
    + rewrite Hnone, Hs, Hv. unfold hot0. rewrite Hnone. cbn. split; [done|by intros []].
  - destruct hs_op0 as (-> & _). rewrite bool_decide_eq_false_2 by auto. split; [done|by intros []].
  - destruct hs_op0 as (v & -> & _ & -> & _). rewrite bool_decide_eq_true_2 by done. rewrite andb_false_r. split; [by eexists|done].
Qed.

Lemma hot_not_hint k h : hot_state ent H N m ws k h → isHintHotEntry h = false.
Proof. intros Hh. destruct (hot_serial k h Hh) as [[_ ?]|[_ ?]]; unfold isHintHotEntry; apply Z.eqb_neq; unfold MinInt64; lia. Qed.

Definition in_cache (h : HotEntry) : Prop :=
  (hk h ∈ H ∧ hot_state ent H N m ws (hk h) h) ∨ (hk h ∉ H ∧ hk h ∈ N ∧ h = makeHintHotEntry (hk h)).

Lemma is_cached_iff h : is_cached M (next_of N) h ↔ in_cache h ∧ (hk h ∈ H → M !! hk h = Some (Some h)).
Proof.
  pose proof Hu as [_ _ U3 U4]. unfold is_cached, in_cache. rewrite next_of_lookup. destruct (decide (hk h ∈ H)) as [Hk|Hk].
  - destruct (U3 _ Hk) as (h' & E1 & Hh'). rewrite E1. split.
    + intros [[= ->]|[? _]]; [|done]. split; [by left|done].
    + intros [_ Hm]. left. by rewrite Hm.
  - destruct (U4 _ Hk) as [-> _]. split.
    + intros [?|(_ & Hn & Eh)]; [done|]. case_decide; [|by destruct Hn]. split; [right; by split_and!|done].
    + intros [[[? _]|(_ & Hn & Eh)] _]; [done|]. right. rewrite decide_True by done. by split_and!.
Qed.

(** ** What linking relies on *)

Context (L : list HotEntry) (Hsorted : StronglySorted hk_lt L) (HL : ∀ h, h ∈ L ↔ is_cached M (next_of N) h).

Lemma cache_cases h : h ∈ L → in_cache h.
Proof. intros Hh. by apply HL, is_cached_iff in Hh as [? _]. Qed.
Lemma cache_hot k : k ∈ H → ∃ h, h ∈ L ∧ hk h = k ∧ hot_state ent H N m ws k h.
Proof.
  intros Hk. destruct (up_hot _ _ _ _ _ _ _ _ Hu k Hk) as (h & E1 & Hh). pose proof (hot_state_key k h Hh) as Ek. exists h. split_and!; [|done|done].
  apply HL. left. by rewrite Ek.
Qed.
Lemma cache_next k : k ∈ H ∪ N → ∃ h, h ∈ L ∧ hk h = k.
Proof.
  intros Hk. destruct (decide (k ∈ H)) as [Hin|Hin]; [destruct (cache_hot k Hin) as (h & ? & ? & _); by exists h|].
  exists (makeHintHotEntry k). split; [|done]. apply HL. right. cbn. destruct (up_cold _ _ _ _ _ _ _ _ Hu k Hin) as [-> _].
  apply elem_of_union in Hk as [?|Hk]; [done|]. rewrite next_of_lookup, decide_True by done. split_and!; [done|by eexists|done].
Qed.

Lemma cache_stays h : h ∈ L → stays h = true ↔ is_Some (m !! hk h).
Proof.
  intros [[Hk Hh]|(Hk & Hn & ->)]%cache_cases; [by apply hot_stays|]. cbn. split; [|done]. intros _.
  destruct (up_cold _ _ _ _ _ _ _ _ Hu _ Hk) as [_ ->]. unfold values. rewrite lookup_fmap.
  destruct (ck_next _ _ _ _ _ Hc _ Hn) as [e ->]. by eexists.
Qed.

(** The keys that change have a hot entry with an operation. *)
Lemma cache_changed h : h ∈ L → changed h → hk h ∈ H ∧ neighbours ent H N (hk h) ∧ startKey <b hk h ∧ hk h <b endKey.
Proof.
  intros [[Hk Hh]|(Hk & Hn & ->)]%cache_cases Hch; [|by destruct Hch as [[_ ?]|[_ ?]]]. pose proof (hot_serial _ _ Hh) as Hs. destruct Hh.
  assert (Operation h ≠ OpNone) as Hop.
  { destruct Hch as [[_ ->]|[_ Hins]]; [done|]. unfold isInserted in Hins. apply andb_true_iff in Hins as [->%bool_decide_eq_true _]. done. }
  split; [done|]. split; [|by apply hs_range0]. destruct (ent !! hk h) as [e|] eqn:He.
  - destruct Hch as [[Hf Hd]|[_ Hins]]; [rewrite Hd in hs_op0; apply hs_op0; by eexists|].
    exfalso. unfold isInserted in Hins. apply andb_true_iff in Hins as [_ Hins%Z.eqb_eq]. destruct Hs as [[_ ?]|[? _]]; [lia|done].
  - by apply (ck_absent _ _ _ _ _ Hc).
Qed.

Lemma cached_after : cached (λ k, is_Some (ent !! k)) (λ k, is_Some (m !! k)) L.
Proof.
  split.
  - done.
  - intros k. split.
    + intros Hk. destruct (decide (k ∈ H ∪ N)) as [Hin|Hin].
      * left. destruct (cache_next k Hin) as (h & Hh & <-). exists h. split_and!; [done|done|]. by apply cache_stays.
      * right. assert (k ∉ H) as HkH by (clear - Hin; set_solver). destruct (up_cold _ _ _ _ _ _ _ _ Hu k HkH) as [_ Em]. rewrite Em in Hk.
        unfold values in Hk. rewrite lookup_fmap in Hk. apply fmap_is_Some in Hk. split; [done|].
        intros h Hh <-. apply Hin. apply cache_cases in Hh as [[? _]|(_ & ? & _)]; clear -H0; set_solver.
    + intros [(h & Hh & <- & Hs)|[Hk Hno]]; [by apply cache_stays|].
      destruct (decide (k ∈ H)) as [HkH|HkH]; [destruct (cache_hot k HkH) as (h & Hh & Ek & _); by destruct (Hno h)|].
      destruct (up_cold _ _ _ _ _ _ _ _ Hu k HkH) as [_ ->]. unfold values. rewrite lookup_fmap. by apply fmap_is_Some.
  - intros h Hh Hk Hs. apply cache_cases in Hh as [[Hin Hh]|(_ & _ & Eh)]; [|by rewrite Eh in Hs]. pose proof (hot_serial _ _ Hh) as [[_ Hser]|[? _]]; [|destruct Hk; congruence].
    unfold stays in Hs. assert (isFakeInserted h = false) as Hf by (unfold isFakeInserted; destruct (Z.eqb_spec (SerialNum (EntryPtr h)) (-1)); [lia|done]).
    split; [done|]. rewrite Hf, andb_true_r in Hs. apply bool_decide_eq_false in Hs. by apply dec_stable.
  - intros h Hh [_ Hins] Hk. unfold isInserted in Hins. apply andb_true_iff in Hins as [Hop%bool_decide_eq_true Hs%Z.eqb_eq].
    apply cache_cases in Hh as [[Hin Hh]|(_ & _ & Eh)]; [|by rewrite Eh in Hop]. pose proof (hot_serial _ _ Hh) as [[_ Hser]|[? _]]; [lia|destruct Hk; congruence].
  - intros h Hh Hs. pose proof (proj1 (cache_stays h Hh) Hs) as Hm. apply cache_cases in Hh as [[Hin Hh]|(_ & Hn & _)]; [|left; by apply (ck_next _ _ _ _ _ Hc)].
    pose proof (hot_serial _ _ Hh) as [[? _]|[Hnone Hser]]; [by left|right]. destruct Hh.
    unfold stays in Hs. apply andb_true_iff in Hs as [Hnd%bool_decide_eq_true Hf%negb_true_iff]. split; [done|]. unfold isInserted. rewrite Hser, andb_true_r.
    destruct (Operation h) eqn:Hop; [|done|done]. destruct hs_op0 as [E1 _]. rewrite E1 in Hm. unfold values in Hm. rewrite lookup_fmap, Hnone in Hm. by destruct Hm.
  - intros h Hh Hch. destruct (cache_changed h Hh Hch) as (_ & [(p & Hp & HpH) _] & _).
    destruct (cache_hot p HpH) as (c & Hcin & Ek & Hst). exists c. rewrite Ek. split_and!; [done|by eapply hot_not_hint|done].
  - intros h Hh Hch. destruct (cache_changed h Hh Hch) as (_ & [_ (n & Hn & HnH)] & _).
    destruct (cache_next n HnH) as (c & Hcin & Ek). exists c. by rewrite Ek.
  - intros h Hh Hop. apply cache_cases in Hh as [[Hin Hh]|(_ & _ & Eh)]; [by eapply hot_not_hint|by rewrite Eh in Hop].
Qed.

Lemma cache_flags h : h ∈ L → IsModified h = false ∧ IsTouchedByNext h = false.
Proof. intros [[_ []]|(_ & _ & Eh)]%cache_cases; [done|by rewrite Eh]. Qed.

Lemma cache_wf h : h ∈ L → hot_wf KeyOk ValOk ent h.
Proof.
  intros Hh. unfold hot_wf. apply cache_cases in Hh as [[Hk Hh]|(_ & Hn & Eh)].
  - split; [by apply (ck_hot _ _ _ _ _ Hc)|]. pose proof (hot_not_hint _ _ Hh) as Hhint. destruct Hh. destruct (ent !! hk h) as [e|] eqn:He.
    + right. unfold hot0 in hs_entry0, hs_op0. rewrite He in hs_entry0, hs_op0. cbn in hs_entry0, hs_op0.
      split_and!; [done|by rewrite hs_entry0|by rewrite hs_entry0|by rewrite hs_entry0|intros Hop; rewrite Hop in hs_op0; apply hs_op0|].
      destruct (Operation h) eqn:Hop.
      * destruct (entry_facts _ _ _ _ Hi He) as (_ & _ & _ & v & Hv & Hvok & _). exists v. split; [|done]. destruct hs_op0 as [_ ->]. done.
      * apply hs_op0. by eexists.
      * destruct hs_op0 as (v & ? & ? & _). by exists v.
    + unfold hot0 in hs_entry0, hs_op0. rewrite He in hs_entry0, hs_op0. cbn in hs_entry0, hs_op0. split_and!; [by rewrite hs_entry0|by rewrite hs_entry0| |].
      * intros v Hv. destruct (Operation h) eqn:Hop; [destruct hs_op0; congruence|destruct hs_op0 as (_ & Hnone & _); rewrite Hnone in Hv by done; congruence|].
        destruct hs_op0 as (v' & ? & ? & _). congruence.
      * intros Hop. destruct (Operation h) eqn:Hop'; [apply hs_op0|by apply hs_op0|done].
  - destruct (ck_next _ _ _ _ _ Hc _ Hn) as [e He]. rewrite He. split; [by apply (entry_facts _ _ _ _ Hi He)|]. left. by rewrite Eh.
Qed.

Lemma cache_length : (length L ≤ 3 * length ps)%nat.
Proof.
  assert (NoDup (hk <$> L)) as Hnd.
  { clear - Hsorted. induction Hsorted as [|x l Hs IH Hx]; [constructor|]. cbn. apply NoDup_cons. split; [|by apply IH].
    intros (y & Ey & Hy)%list_elem_of_fmap. rewrite Forall_forall in Hx. specialize (Hx y Hy). unfold hk_lt in Hx. rewrite Ey in Hx.
    by apply (irreflexivity bytes_lt) in Hx. }
  rewrite <- (length_fmap hk L), <- (size_list_to_set (C := gset bytes) _ Hnd).
  assert (list_to_set (hk <$> L) ⊆ H ∪ N) as Hsub.
  { intros k Hk%elem_of_list_to_set. apply list_elem_of_fmap in Hk as (h & -> & Hh). apply elem_of_union.
    apply cache_cases in Hh as [[? _]|(_ & ? & _)]; [by left|by right]. }
  apply subseteq_size in Hsub. pose proof (ck_size _ _ _ _ _ Hc) as [S1 S2]. rewrite size_union_alt in Hsub.
  pose proof (subseteq_size (N ∖ H) N ltac:(clear; set_solver)) as Hle. clear - S1 S2 Hsub Hle. lia.
Qed.

(** The value of a key that is there after the block. *)
Lemma cache_value h v : h ∈ L → isHintHotEntry h = false → m !! hk h = Some v → ValueBytes (EntryPtr h) = v.
Proof.
  intros Hh Hhint Hm. apply cache_cases in Hh as [[Hk Hh]|(_ & _ & Eh)]; [|by rewrite Eh in Hhint]. destruct Hh. unfold ValueBytes.
  destruct (Operation h) eqn:Hop.
  - destruct hs_op0 as [E1 ->]. rewrite Hm in E1. unfold values in E1. rewrite lookup_fmap in E1. unfold hot0. cbn.
    destruct (ent !! hk h) as [e|]; [|done]. cbn in E1. injection E1 as ->. done.
  - destruct hs_op0. congruence.
  - destruct hs_op0 as (v' & -> & _ & ? & _). cbn. congruence.
Qed.
Lemma uncached_value k : (∀ h, h ∈ L → hk h = k → isHintHotEntry h = true) → m !! k = values ent !! k.
Proof.
  intros Hno. apply (up_cold _ _ _ _ _ _ _ _ Hu). intros Hk. destruct (cache_hot k Hk) as (h & Hh & Ek & Hst).
  specialize (Hno h Hh Ek). by rewrite (hot_not_hint _ _ Hst) in Hno.
Qed.
End cache.
End sets.
