(* ===== verification/OnvaKVRun.v ===== *)
(** * Blocks of the store

    A block of a client: the keys are prepared, the writing begins, keys are
    set and deleted, the writing ends. From a store between two blocks whose
    keys are linked this gives such a store again, and it holds what the
    writes mean. *)
From S2P Require Import Prelude Types ByteOrder RocksDB BTreeSpec.
From S2P Require Import MetaDB IndexTree EntryCodec Twig Tree DataTreeSpec.
From S2P Require Import Client OnvaKV Relink Buckets OnvaKVInv OnvaKVRead OnvaKVBlock OnvaKVReap OnvaKVPrepare OnvaKVSets.

Section run.
Context {D T E DT : Type} `{HD : !Rocks D} `{!RocksLaws D} `{HT : !BTreeOps Z T E} `{!BTreeLaws Z T E}.
Context `{HDT : !DataTreeOps DT} `{!DataTreeLaws DT} (KeyOk ValOk : bytes → Prop) (Hsizes : sizes_ok KeyOk ValOk).
Notation OnvaKV := (OnvaKV D T DT).
Notation store_inv := (store_inv KeyOk ValOk).
Notation readable := (readable KeyOk ValOk).
Notation index okv := (bt_map (bt (okv_idxTree okv))).
Implicit Types (okv : OnvaKV) (ent : gmap bytes Entry) (k : bytes).

(** A store between two blocks. *)
Record idle okv ent : Prop := {
  id_read : readable okv ent;
  id_he : okv_k2heMap okv = NewBucketMap;
  id_nk : okv_k2nkMap okv = NewBucketMap;
  id_linked : linked (okv_startKey okv) (okv_endKey okv) ent;
  id_first : dt_first ≤ dt_next (okv_datTree okv);
  id_flushed : dt_compacts → dt_flushed (okv_datTree okv) = dt_next (okv_datTree okv);
  id_compact : must_reap okv = false
}.

Definition run_block (fuel : nat) okv (ps : list prep) (height : Z) (ws : list write) : outcome OnvaKV :=
  okv ← prepare okv ps;
  okv ← BeginWrite okv height;
  okv ← run_writes okv ws;
  EndWrite fuel okv.

(** The store's invariant does not look at the RocksDB, the hot entries and the height. *)
Lemma store_inv_ext okv okv' ent : store_inv okv ent → bt (okv_idxTree okv') = bt (okv_idxTree okv) →
  okv_datTree okv' = okv_datTree okv → maxSerialNum (okv_meta okv') = maxSerialNum (okv_meta okv) →
  oldestActiveTwigID (okv_meta okv') = oldestActiveTwigID (okv_meta okv) → store_inv okv' ent.
Proof.
  intros [[P1 P2 P3 P4 P5 P6] H2 H3 H4 H5 H6] E1 E2 E3 E4. split; rewrite ?E1, ?E2; try done.
  - split; rewrite ?E1, ?E2, ?E3, ?E4; done.
  - intros k e Hk. specialize (H4 k e Hk). unfold entry_wf in *. by rewrite E2.
Qed.

Lemma BeginWrite_ok okv ent height : store_inv okv ent → isWriting (okv_idxTree okv) = false → is_int64 height →
  ∃ okv', BeginWrite okv height = Ret okv' ∧ writing okv' ∧ store_inv okv' ent ∧ currHeight (okv_meta okv') = height ∧
    okv_k2heMap okv' = okv_k2heMap okv ∧ okv_k2nkMap okv' = okv_k2nkMap okv ∧ okv_datTree okv' = okv_datTree okv ∧
    okv_startKey okv' = okv_startKey okv ∧ okv_endKey okv' = okv_endKey okv.
Proof.
  intros Hi Hw Hh. unfold BeginWrite, NVTree_BeginWrite. cbn [okv_idxTree set_rocksdb]. rewrite Hw.
  cbn [negb require mbind outcome_bind mret outcome_ret]. eexists. split; [reflexivity|]. split_and!; try done.
  by eapply store_inv_ext.
Qed.

Lemma writing_maps okv he nk : writing okv → writing (set_maps okv he nk).
Proof. by intros []. Qed.

(** [update]: the cached entries are linked and written. *)
Lemma update_ok okv0 okv ent H N M m ps ws : (∀ p, p ∈ ps → prep_ok KeyOk (okv_startKey okv0) (okv_endKey okv0) p) → store_inv okv0 ent → linked (okv_startKey okv0) (okv_endKey okv0) ent → writing okv0 →
  cache_ok KeyOk ent H N ps → updating ValOk (okv_startKey okv0) (okv_endKey okv0) okv0 okv ent H N M m ws →
  holds (okv_k2nkMap okv0) (next_of N) → dt_next (okv_datTree okv0) + 6 * zlen ps < dt_max → (∀ k, is_Some (m !! k) → KeyOk k) →
  ∃ okv' ent', update okv = Ret okv' ∧ writing okv' ∧ same_frame okv okv' ∧ store_inv okv' ent' ∧
    linked (okv_startKey okv0) (okv_endKey okv0) ent' ∧ values ent' = m ∧
    dt_next (okv_datTree okv0) ≤ dt_next (okv_datTree okv') ≤ dt_next (okv_datTree okv0) + 6 * zlen ps.
Proof.
  intros Hps Hi Hl Hw Hc Hu Hnk Hmax HmK. pose proof Hu as [U1 U2 U3 U4].
  assert (store_inv okv ent) as Hi' by (rewrite U1; by eapply store_inv_ext).
  assert (writing okv) as Hw' by (rewrite U1; by apply writing_maps).
  assert (okv_datTree okv = okv_datTree okv0) as Hd by (by rewrite U1).
  destruct (cached_entries_holds (okv_k2heMap okv) (okv_k2nkMap okv) M (next_of N)) as (L & EL & Hsorted & HL); [done|by rewrite U1| |].
  { intros k o Hk. destruct (decide (k ∈ H)) as [Hin|Hin]; [|by rewrite (proj1 (U4 k Hin)) in Hk].
    destruct (U3 k Hin) as (h & E1 & Hh). exists h. split; [congruence|]. by eapply hot_state_key. }
  set (S := λ k, is_Some (ent !! k)). set (S' := λ k, is_Some (m !! k)).
  pose proof (cached_after KeyOk ValOk _ _ ps okv0 okv ent H N M m ws Hi Hc Hu L Hsorted HL) as Hcached.
  destruct (relink_all_ok S S' L Hcached) as (l & El & Hrl); [exact (cache_flags ValOk _ _ okv0 okv ent H N M m ws Hu L HL)|].
  pose proof (cache_wf KeyOk ValOk _ _ ps okv0 okv ent H N M m ws Hi Hc Hu L HL) as Hwf.
  assert (zlen L ≤ 3 * zlen ps) as Hlen.
  { pose proof (cache_length KeyOk ValOk Hsizes _ _ ps Hps okv0 okv ent H N M m ws Hi Hl Hc Hu Hnk L Hsorted HL). unfold zlen. lia. }
  assert (∀ k e, ent !! k = Some e → 0 ≤ SerialNum e) as Hserial by (intros k e He; by destruct (entry_facts _ _ _ _ _ _ Hi He) as (_ & _ & ? & _)).
  destruct (write_loop_ok KeyOk ValOk Hsizes S S' L Hcached okv ent l Hw' Hi') as (o & ent' & E1 & W1 & F1 & I1 & N1 & Hwr & Hoth);
    [rewrite Hd; lia|done|done|intros k e He; by eapply (next_key_ok KeyOk ValOk okv0)|done|].
  rewrite Hd in N1. exists o, ent'. split; [unfold update; rewrite EL; cbn [mbind outcome_bind]; rewrite El; exact E1|]. split_and!; [done|done|done| | |lia|lia].
  - eapply (linked_after KeyOk ValOk S S' L Hcached); [done| |done|done|done|done| |done|done].
    + intros k. unfold S'. destruct (m !! k); [left; by eexists|right; by intros []].
    + intros h Hh Hch. by apply (cache_changed KeyOk ValOk _ _ ps okv0 okv ent H N M m ws Hi Hc Hu L HL).
  - assert (∀ k, is_Some (ent' !! k) ↔ is_Some (m !! k)) as Hkeys by (by eapply (after_keys KeyOk ValOk S S' L Hcached)).
    apply map_eq. intros k. unfold values. rewrite lookup_fmap. destruct (ent' !! k) as [e'|] eqn:He'; cbn.
    2:{ symmetry. apply eq_None_not_Some. rewrite <- Hkeys, He'. by intros []. }
    destruct (proj1 (Hkeys k) ltac:(by eexists)) as [v Hv]. rewrite Hv. f_equal.
    destruct (after_value KeyOk ValOk S S' L Hcached ent ent' l _ Hwf Hserial Hrl Hwr Hoth k e' He') as [(h & Hh & <- & Hhint & ->)|(Hhint & e & He & ->)].
    + by apply (cache_value ValOk _ _ okv0 okv ent H N M m ws Hu L HL).
    + pose proof (uncached_value KeyOk ValOk _ _ okv0 okv ent H N M m ws Hi Hu L HL k Hhint) as Hmk.
      rewrite Hmk in Hv. unfold values in Hv. rewrite lookup_fmap, He in Hv. cbn in Hv. congruence.
Qed.

(** The serial numbers compaction may take, at the end of a block that leaves [m]. *)
Definition reap_cost (m : gmap bytes bytes) : Z := if Z.of_nat (size m) <=? StartReapThres then 0 else Z.of_nat (size m) + 1.

(** When the end of a block is served that prepared [np] keys, from the serial
    number [next]: there are too few entries to compact; or the data tree gives
    back entries up to what the serial numbers can grow to, and the block has
    few keys against those of the store. *)
Definition reap_served (fuel : nat) (next np : Z) (m : gmap bytes bytes) : Prop :=
  Z.of_nat (size m) ≤ StartReapThres ∨
  (dt_compacts ∧ next + 6 * np + reap_cost m ≤ dt_compact_max ∧ dt_compact_max ≤ 2048 * Z.of_nat fuel ∧ 6 * np + 2049 ≤ Z.of_nat (size m)).

Lemma reap_cost_0 m : reap_cost m = 0 → Z.of_nat (size m) ≤ StartReapThres.
Proof. unfold reap_cost. destruct (Z.leb_spec (Z.of_nat (size m)) StartReapThres); lia. Qed.
Lemma reap_cost_nonneg m : 0 ≤ reap_cost m.
Proof. unfold reap_cost. destruct (_ <=? _); lia. Qed.

(** A store with few active entries does not compact. *)
Lemma reap_skip okv ent : store_inv okv ent → dt_next (okv_datTree okv) < dt_max → Z.of_nat (size ent) ≤ StartReapThres → must_reap okv = false.
Proof. intros Hi Hn Hsize. pose proof dt_max_bound. apply not_true_iff_false. rewrite (must_reap_spec KeyOk ValOk okv ent Hi) by lia. lia. Qed.

Lemma reap_ok fuel startKey endKey okv ent next np : store_inv okv ent → writing okv → linked startKey endKey ent →
  next ≤ dt_next (okv_datTree okv) ≤ next + 6 * np → (dt_compacts → dt_flushed (okv_datTree okv) = next) →
  next + 6 * np + reap_cost (values ent) < dt_max → reap_served fuel next np (values ent) →
  ∃ okv' ent', reap fuel okv = Ret okv' ∧ writing okv' ∧ same_frame okv okv' ∧ store_inv okv' ent' ∧ linked startKey endKey ent' ∧ values ent' = values ent ∧
    dt_next (okv_datTree okv) ≤ dt_next (okv_datTree okv') ≤ next + 6 * np + reap_cost (values ent) ∧ must_reap okv' = false.
Proof.
  intros Hi Hw Hl Hn Hfl Hroom Hserved. pose proof (reap_cost_nonneg (values ent)) as Hc0.
  unfold reap_served in Hserved. assert (size (values ent) = size ent) as Hsz by apply map_size_fmap. rewrite Hsz in Hserved.
  destruct (decide (Z.of_nat (size ent) ≤ StartReapThres)) as [Hsmall|Hbig].
  { exists okv, ent. pose proof (reap_skip okv ent Hi ltac:(lia) Hsmall) as Hr. split_and!; try (done || lia). destruct fuel; cbn [reap]; by rewrite Hr. }
  destruct Hserved as [?|(Hcomp & Hcap & Hfuel & Hfew)]; [done|]. specialize (Hfl Hcomp).
  assert (reap_cost (values ent) = Z.of_nat (size ent) + 1) as Hcost by (unfold reap_cost; rewrite Hsz; destruct (Z.leb_spec (Z.of_nat (size ent)) StartReapThres); lia).
  rewrite Hcost in *. pose proof (si_parts _ _ _ _ Hi) as Hp. pose proof (dt_oldest_nonneg _ (po_dt _ Hp)) as Hold.
  set (n := dt_next (okv_datTree okv)) in *.
  destruct (reap_loop_ok KeyOk ValOk Hsizes startKey endKey ent n (n + Z.of_nat (size ent) + 1) fuel Hcomp) with (okv := okv) (ent := ent)
    as (o & ent' & E1 & F1 & [R1 R2 R3 R4 R5 R6] & M1); [lia|lia|done|..].
  - split; [done|done|done|done|lia|]. unfold reach. fold n. pose proof (below_size ent n). destruct (64 <=? _); lia.
  - lia.
  - lia.
  - rewrite Hfl. zdiv.
  - exists o, ent'. split_and!; [done|done|done|done|done|by apply unnumbered_values|done| |done]. unfold reach in R6. destruct (64 <=? _); lia.
Qed.

Lemma end_block_ok okv ent : store_inv okv ent → writing okv → linked (okv_startKey okv) (okv_endKey okv) ent → dt_first ≤ dt_next (okv_datTree okv) → must_reap okv = false →
  ∃ okv', end_block okv = Ret okv' ∧ idle okv' ent ∧ okv_startKey okv' = okv_startKey okv ∧ okv_endKey okv' = okv_endKey okv ∧
    dt_next (okv_datTree okv') = dt_next (okv_datTree okv).
Proof.
  intros Hi [Hw Hb Hh] Hl Hf Hr. unfold end_block. pose proof (si_parts _ _ _ _ Hi) as Hp.
  destruct (dt_EndBlock_ok (okv_datTree okv) (po_dt _ Hp) Hf) as (d & root & -> & D1 & S1 & N1 & P1 & E1 & L1 & O1 & G1). cbn [mbind outcome_bind].
  destruct (dt_GetFileSizes _) as [eS tS]. cbn [okv_rocksdb set_maps set_rootHash set_datTree okv_meta okv_idxTree].
  unfold SetEntryFileSize, SetTwigMtFileSize. edestruct (batch_Set_ok (okv_rocksdb okv)) as (r1 & -> & B1 & _); [done|]. cbn [mbind outcome_bind].
  edestruct (batch_Set_ok r1) as (r2 & -> & B2 & _); [done|]. cbn [mbind outcome_bind].
  destruct (Commit_ok (okv_meta okv) r2 B2) as (r3 & -> & B3 & _). cbn [mbind outcome_bind].
  unfold NVTree_EndWrite. rewrite Hw. cbn [require mbind outcome_bind mret outcome_ret]. eexists. split; [reflexivity|].
  split_and!; [|done|done|done]. split; [split|..]; try done; [|cbn; lia|intros Hcomp; cbn; by rewrite G1, N1].
  eapply (store_inv_ext (set_datTree okv d)); [by apply store_inv_dat|done..].
Qed.

(** The keys of the contents after the writes are keys of the store. *)
Lemma spec_keys (P : bytes → Prop) ws m : (∀ k, is_Some (m !! k) → P k) → (∀ w, w ∈ ws → P (write_key w)) → ∀ k, is_Some (spec_after m ws !! k) → P k.
Proof.
  revert m. induction ws as [|w ws IH]; intros m Hm Hws k; [apply Hm|]. cbn. apply IH; [|intros w' Hw'; apply Hws; by right].
  intros k' Hk'. destruct (decide (write_key w = k')) as [<-|Hne]; [apply Hws; by left|]. apply Hm. by rewrite spec_write_other in Hk'.
Qed.

(** The end of the writing, from the keys prepared and the writes done. *)
Lemma EndWrite_ok fuel okv0 okv ent H N M m ps ws : (∀ p, p ∈ ps → prep_ok KeyOk (okv_startKey okv0) (okv_endKey okv0) p) → store_inv okv0 ent → linked (okv_startKey okv0) (okv_endKey okv0) ent → writing okv0 →
  cache_ok KeyOk ent H N ps → updating ValOk (okv_startKey okv0) (okv_endKey okv0) okv0 okv ent H N M m ws →
  holds (okv_k2nkMap okv0) (next_of N) → dt_next (okv_datTree okv0) + 6 * zlen ps + reap_cost m < dt_max → (∀ k, is_Some (m !! k) → KeyOk k) →
  dt_first ≤ dt_next (okv_datTree okv0) → (dt_compacts → dt_flushed (okv_datTree okv0) = dt_next (okv_datTree okv0)) →
  reap_served fuel (dt_next (okv_datTree okv0)) (zlen ps) m →
  ∃ okv' ent', EndWrite fuel okv = Ret okv' ∧ idle okv' ent' ∧ values ent' = m ∧
    okv_startKey okv' = okv_startKey okv0 ∧ okv_endKey okv' = okv_endKey okv0 ∧
    dt_next (okv_datTree okv0) ≤ dt_next (okv_datTree okv') ≤ dt_next (okv_datTree okv0) + 6 * zlen ps + reap_cost m.
Proof.
  intros Hps Hi Hl Hw Hc Hu Hnk Hroom HmK Hfirst Hfl Hserved. pose proof (reap_cost_nonneg m).
  destruct (update_ok okv0 okv ent H N M m ps ws Hps Hi Hl Hw Hc Hu Hnk ltac:(lia) HmK) as (o4 & ent4 & E4 & W4 & F4 & I4 & Hl4 & Hv4 & N4).
  unfold EndWrite. rewrite E4. cbn [mbind outcome_bind].
  pose proof F4 as (_ & _ & _ & _ & Fs & Fe & Ff). rewrite (up_rest _ _ _ _ _ _ _ _ _ _ _ Hu) in Fs, Fe, Ff. cbn [okv_startKey okv_endKey okv_datTree set_maps] in Fs, Fe, Ff.
  destruct (reap_ok fuel (okv_startKey okv0) (okv_endKey okv0) o4 ent4 (dt_next (okv_datTree okv0)) (zlen ps) I4 W4 Hl4) as (o5 & ent5 & -> & W5 & F5 & I5 & Hl5 & Hv5 & N5 & M5);
    [done|intros Hcomp; rewrite Ff; auto|by rewrite Hv4|by rewrite Hv4|]. cbn [mbind outcome_bind].
  destruct F5 as (_ & _ & _ & _ & Fs5 & Fe5 & _). rewrite Hv4 in Hv5, N5.
  destruct (end_block_ok o5 ent5 I5 W5) as (o6 & E6 & Hidle & Hs6 & He6 & N6); [by rewrite Fs5, Fe5, Fs, Fe|lia|done|].
  exists o6, ent5. split_and!; [done|done|done|congruence|congruence|lia|lia].
Qed.

(** What a block is given. *)
Record block_ok (fuel : nat) okv ent (ps : list prep) (height : Z) (ws : list write) : Prop := {
  bk_height : is_int64 height;
  bk_preps p : p ∈ ps → prep_ok KeyOk (okv_startKey okv) (okv_endKey okv) p;
  bk_writes w : w ∈ ws → write_ok ValOk ps w;
  bk_revival : no_revival (values ent) ws;
  bk_room : dt_next (okv_datTree okv) + 6 * zlen ps + reap_cost (spec_after (values ent) ws) < dt_max;
  bk_served : reap_served fuel (dt_next (okv_datTree okv)) (zlen ps) (spec_after (values ent) ws)
}.

Lemma run_block_ok fuel okv ent ps height ws : idle okv ent → block_ok fuel okv ent ps height ws →
  ∃ okv' ent', run_block fuel okv ps height ws = Ret okv' ∧ idle okv' ent' ∧ values ent' = spec_after (values ent) ws ∧
    okv_startKey okv' = okv_startKey okv ∧ okv_endKey okv' = okv_endKey okv ∧
    dt_next (okv_datTree okv) ≤ dt_next (okv_datTree okv') ≤ dt_next (okv_datTree okv) + 6 * zlen ps + reap_cost (spec_after (values ent) ws).
Proof.
  intros [Hr Hhe Hnk Hl Hfirst Hfl _] [Hh Hps Hws Hrev Hroom Hserved]. unfold run_block.
  destruct (prepare_ok KeyOk ValOk Hsizes (okv_startKey okv) (okv_endKey okv) okv ent ps Hr) as (o1 & H & N & -> & [Hr1 Hrest [Hn1 Hf1] Hhe1 Hnk1 Hc]);
    [rewrite Hhe; apply holds_new|rewrite Hnk; apply holds_new|done|done|]. cbn [mbind outcome_bind].
  unfold rest in Hrest. injection Hrest as _ _ _ _ Hs1 He1.
  destruct (BeginWrite_ok o1 ent height (re_inv _ _ _ _ Hr1) (re_idle _ _ _ _ Hr1) Hh) as (o2 & -> & W2 & I2 & Hh2 & Hhe2 & Hnk2 & Hd2 & Hs2 & He2).
  cbn [mbind outcome_bind]. rewrite <- Hs1, <- He1, <- Hs2, <- He2 in Hl, Hps. rewrite <- Hhe2 in Hhe1. rewrite <- Hnk2 in Hnk1.
  destruct (run_writes_ok KeyOk ValOk Hsizes _ _ ps Hps o2 ent H N ws I2 Hc Hhe1 Hws Hrev) as (o3 & M & -> & Hu). cbn [mbind outcome_bind].
  destruct (EndWrite_ok fuel o2 o3 ent H N M _ ps ws Hps I2 Hl W2 Hc Hu Hnk1) as (o5 & ent' & E5 & Hidle & Hv5 & Hs5 & He5 & N5);
    [by rewrite Hd2, Hn1| |by rewrite Hd2, Hn1|by rewrite Hd2, Hn1, Hf1|by rewrite Hd2, Hn1|].
  { apply spec_keys.
    - intros k Hk. unfold values in Hk. rewrite lookup_fmap in Hk. apply fmap_is_Some in Hk as [e He]. by apply (si_entry _ _ _ _ I2 k e He).
    - intros w Hw. by apply (write_ok_key KeyOk ValOk _ _ ps Hps w), Hws. }
  rewrite Hd2, Hn1 in N5. exists o5, ent'. split_and!; [done|done|done|congruence|congruence|lia|lia].
Qed.
End run.
