(* ===== verification/OnvaKVCreate.v ===== *)
(** * Creating a store

    [NewOnvaKV] on a new directory fills the first twig with dummy entries and
    appends the two guards: a store between blocks that holds the guards only.
    With it, everything a client does from the creation of the store on. *)
From S2P Require Import Prelude Types ByteOrder RocksDB BTreeSpec.
From S2P Require Import MetaDB IndexTree EntryCodec Twig Tree DataTreeSpec.
From S2P Require Import Client OnvaKV Relink Buckets OnvaKVInv OnvaKVRead OnvaKVBlock OnvaKVReap OnvaKVPrepare OnvaKVSets OnvaKVRun.

Section create.
Context {D T E DT : Type} `{HD : !Rocks D} `{!RocksLaws D} `{HT : !BTreeOps Z T E} `{!BTreeLaws Z T E}.
Context `{HDT : !DataTreeOps DT} `{!DataTreeLaws DT} (KeyOk ValOk : bytes → Prop) (Hsizes : sizes_ok KeyOk ValOk).
Notation OnvaKV := (OnvaKV D T DT).
Notation store_inv := (store_inv KeyOk ValOk).
Notation readable := (readable KeyOk ValOk).
Notation idle := (idle KeyOk ValOk).
Notation index okv := (bt_map (bt (okv_idxTree okv))).
Implicit Types (okv : OnvaKV) (ent : gmap bytes Entry) (k : bytes).

(** What creating the store keeps between its steps. *)
Definition creating okv : Prop := is_Some (batch (okv_rocksdb okv)) ∧ is_int64 (currHeight (okv_meta okv)).

Lemma append_dummy_ok okv : creating okv → store_inv okv ∅ → dt_next (okv_datTree okv) < dt_max →
  ∃ okv', append_dummy okv = Ret okv' ∧ creating okv' ∧ store_inv okv' ∅ ∧ okv_idxTree okv' = okv_idxTree okv ∧
    okv_k2heMap okv' = okv_k2heMap okv ∧ okv_k2nkMap okv' = okv_k2nkMap okv ∧
    dt_next (okv_datTree okv') = dt_next (okv_datTree okv) + 1.
Proof.
  intros [Hb Hh] [[Pb Pd Pn P0 Pp Po] Hindex Hindexed _ _ Hlive] Hmax. unfold append_dummy, incr_serial. pose proof dt_max_bound as Hmb.
  unfold GetMaxSerialNum. rewrite Pn.
  destruct (IncrMaxSerialNum_ok (okv_meta okv) (okv_rocksdb okv) Hb ltac:(lia) Hh) as (r & -> & Hr & _). cbn [mbind outcome_bind mret outcome_ret].
  unfold dat_append. cbn [okv_datTree set_rocksdb set_meta].
  destruct (dt_AppendEntry_ok (okv_datTree okv) (DummyEntry (dt_next (okv_datTree okv))) dummy_str) as (d1 & pos & -> & D1 & N1 & Q1 & Hpos & Hfresh & E1 & L1 & O1 & _);
    [done|done|done|done|by eapply (so_dummy _ _ Hsizes)|unfold is_int64; cbn; lia|unfold is_int64; cbn; lia|lia|].
  cbn [mbind outcome_bind mret outcome_ret]. unfold dat_deactiviate. cbn [okv_datTree set_datTree].
  destruct (dt_DeactiviateEntry_ok d1 (dt_next (okv_datTree okv)) D1) as (d2 & n & -> & D2 & N2 & Q2 & Hn & E2 & L2 & O2 & _);
    [rewrite L1; by apply elem_of_union_l, elem_of_singleton|lia|].
  cbn [mbind outcome_bind mret outcome_ret]. eexists. split; [reflexivity|]. split; [by split|]. split_and!; try done; [|cbn; lia].
  split; cbn [okv_datTree okv_meta okv_idxTree set_datTree set_rocksdb set_meta].
  - split; cbn; try done; lia || congruence.
  - intros k p Hk. destruct (Hindex k p Hk) as (? & e & He & _). by rewrite lookup_empty in He.
  - intros k [e He]. by rewrite lookup_empty in He.
  - intros k e He. by rewrite lookup_empty in He.
  - intros k k' e e' He. by rewrite lookup_empty in He.
  - intros sn. rewrite L2, L1. intros [[?%elem_of_singleton|Hin]%elem_of_union Hne]%elem_of_difference; [by destruct Hne; apply elem_of_singleton|].
    by apply Hlive.
Qed.

Lemma append_dummies_ok n : ∀ okv, creating okv → store_inv okv ∅ → dt_next (okv_datTree okv) + Z.of_nat n ≤ dt_max →
  ∀ i, ∃ okv', for_state (λ okv _, append_dummy okv) okv (seq i n) = Ret okv' ∧ creating okv' ∧ store_inv okv' ∅ ∧
    okv_idxTree okv' = okv_idxTree okv ∧ okv_k2heMap okv' = okv_k2heMap okv ∧ okv_k2nkMap okv' = okv_k2nkMap okv ∧
    dt_next (okv_datTree okv') = dt_next (okv_datTree okv) + Z.of_nat n.
Proof.
  induction n as [|n IH]; intros okv Hc Hi Hmax i; [exists okv; split_and!; try done; lia|].
  destruct (append_dummy_ok okv Hc Hi ltac:(lia)) as (o1 & E1 & C1 & I1 & T1 & A1 & B1 & N1). cbn [seq].
  rewrite (for_state_step _ _ _ _ _ E1). destruct (IH o1 C1 I1 ltac:(lia) (Datatypes.S i)) as (o2 & E2 & C2 & I2 & T2 & A2 & B2 & N2).
  exists o2. split_and!; [done|done|done|congruence|congruence|congruence|lia].
Qed.

(** A guard is appended and indexed; only the order of the first two steps differs. *)
Lemma append_guard_append_indexed okv okv' key next : currHeight (okv_meta okv) = -1 →
  append_indexed okv (guard_entry okv key next) = Ret okv' → append_guard okv key next = Ret okv'.
Proof.
  intros Hh. unfold append_indexed, append_guard, incr_serial, dat_append, guard_entry, GetCurrHeight. rewrite Hh. cbn [Key Value NextKey Height].
  destruct (IncrMaxSerialNum (okv_meta okv) (okv_rocksdb okv)) as [[m r]|] eqn:Ei; [|done]. cbn [mbind outcome_bind mret outcome_ret okv_datTree set_rocksdb set_meta].
  destruct (dt_AppendEntry _ _) as [[d pos]|]; [|done]. cbn [mbind outcome_bind mret outcome_ret]. cbn [okv_meta okv_rocksdb set_datTree]. rewrite Ei. done.
Qed.

Lemma append_guard_ok okv ent key next : writing okv → store_inv okv ent → ent !! key = None → currHeight (okv_meta okv) = -1 →
  dt_next (okv_datTree okv) < dt_max → KeyOk key → KeyOk next → ValOk [] →
  ∃ okv' e, append_guard okv key next = Ret okv' ∧ writing okv' ∧ same_frame okv okv' ∧ store_inv okv' (<[key := e]> ent) ∧
    Value e = Some [] ∧ NextKey e = next ∧ dt_next (okv_datTree okv') = dt_next (okv_datTree okv) + 1.
Proof.
  intros Hw Hi Hnone Hh Hmax HK HN HV.
  destruct (append_indexed_ok KeyOk ValOk Hsizes okv ent (guard_entry okv key next) [] Hw) as (o & sn & E1 & W1 & F1 & I1 & N1);
    [by apply store_inv_but_new|done|done|done|done|done|unfold is_int64; cbn; lia|].
  eexists o, _. split; [by apply append_guard_append_indexed|]. split_and!; done.
Qed.

(** The contents of a new store. *)
Definition guards (startKey endKey : bytes) : gmap bytes bytes := <[endKey := []]> (<[startKey := []]> ∅).

Lemma guards_linked startKey endKey es ee : startKey <b endKey → NextKey es = endKey → NextKey ee = endKey →
  linked startKey endKey (<[endKey := ee]> (<[startKey := es]> ∅)).
Proof.
  intros Hlt Hs He. assert (startKey ≠ endKey) as Hne by (intros ->; by apply (irreflexivity bytes_lt) in Hlt).
  assert (∀ k, is_Some ((<[endKey := ee]> (<[startKey := es]> (∅ : gmap bytes Entry))) !! k) ↔ k = endKey ∨ k = startKey) as Hkeys.
  { intros k. rewrite !lookup_insert_is_Some', lookup_empty. split; [intros [<-|[<-|[]]]; auto; done|intros [->| ->]; auto]. }
  split; try (apply Hkeys; auto; fail).
  - intros k [->| ->]%Hkeys; split; first [apply bytes_le_refl|by apply bytes_lt_le].
  - intros k e Hk Hnk. assert (k = startKey) as -> by (destruct (proj1 (Hkeys k) ltac:(by eexists)); done).
    rewrite lookup_insert_ne, lookup_insert_eq in Hk by done. injection Hk as <-. rewrite Hs.
    split_and!; [apply Hkeys; auto|done|]. intros k' [->| ->]%Hkeys Hlt'; [apply bytes_le_refl|by apply (irreflexivity bytes_lt) in Hlt'].
  - intros e Hk. rewrite lookup_insert_eq in Hk. congruence.
Qed.

Lemma InitGuards_ok okv startKey endKey : creating okv → store_inv okv ∅ → isWriting (okv_idxTree okv) = false →
  okv_k2heMap okv = NewBucketMap → okv_k2nkMap okv = NewBucketMap → dt_next (okv_datTree okv) + 2 < dt_max →
  dt_first ≤ dt_next (okv_datTree okv) + 2 → KeyOk startKey → KeyOk endKey → ValOk [] → startKey <b endKey →
  ∃ okv' ent, InitGuards okv startKey endKey = Ret okv' ∧ idle okv' ent ∧ values ent = guards startKey endKey ∧
    okv_startKey okv' = startKey ∧ okv_endKey okv' = endKey ∧ dt_next (okv_datTree okv') = dt_next (okv_datTree okv) + 2.
Proof.
  intros [Hb Hh] Hi Hw Hhe Hnk Hmax Hfirst HKs HKe HV Hlt. unfold InitGuards, NVTree_BeginWrite. cbn [okv_idxTree]. rewrite Hw.
  cbn [negb require mbind outcome_bind mret outcome_ret]. set (o0 := set_meta _ _).
  assert (startKey ≠ endKey) as Hne by (intros ->; by apply (irreflexivity bytes_lt) in Hlt).
  assert (writing o0) as W0 by (by split). assert (store_inv o0 ∅) as I0 by (by eapply store_inv_ext).
  destruct (append_guard_ok o0 ∅ startKey endKey W0 I0) as (o1 & e1 & -> & W1 & F1 & I1 & V1 & X1 & N1); [done|done|cbn; lia|done..|].
  cbn [mbind outcome_bind].
  destruct (append_guard_ok o1 _ endKey endKey W1 I1) as (o2 & e2 & -> & W2 & F2 & I2 & V2 & X2 & N2);
    [by rewrite lookup_insert_ne, lookup_empty|by rewrite (proj1 F1)|rewrite N1; cbn; lia|done..|].
  change (dt_next (okv_datTree o0)) with (dt_next (okv_datTree okv)) in N1. cbn [mbind outcome_bind].
  unfold NVTree_EndWrite. rewrite (wr_writing _ W2). cbn [require mbind outcome_bind mret outcome_ret okv_datTree set_idxTree].
  pose proof (si_parts _ _ _ _ I2) as Hp.
  destruct (dt_EndBlock_ok (okv_datTree o2) (po_dt _ Hp) ltac:(lia)) as (d & root & -> & D1 & S1 & M1 & P1 & E1 & L1 & O1 & Gf1). cbn [mbind outcome_bind okv_meta okv_rocksdb set_rootHash set_datTree set_idxTree].
  destruct (Commit_ok (okv_meta o2) (okv_rocksdb o2) (wr_batch _ W2)) as (r & -> & B1 & _). cbn [mbind outcome_bind mret outcome_ret].
  destruct F1 as (_ & _ & A1 & B1' & C1 & G1 & _), F2 as (_ & _ & A2 & B2 & C2 & G2 & _).
  eexists _, _. split; [reflexivity|]. split_and!.
  - split; cbn [okv_k2heMap okv_k2nkMap okv_startKey okv_endKey okv_datTree set_rocksdb set_rootHash set_datTree set_idxTree].
    + split; [|done|done]. eapply (store_inv_ext _ _ (set_datTree o2 d)); [by apply store_inv_dat|done..].
    + rewrite A2, A1. exact Hhe.
    + rewrite B2, B1'. exact Hnk.
    + rewrite C2, G2, C1, G1. by apply guards_linked.
    + lia.
    + intros Hcomp. cbn. by rewrite Gf1, M1.
    + eapply (reap_skip KeyOk ValOk); [eapply (store_inv_ext _ _ (set_datTree o2 d)); [by apply store_inv_dat|done..]|cbn; lia|].
      rewrite !map_size_insert_None, map_size_empty by (by rewrite ?lookup_insert_ne, ?lookup_empty). unfold StartReapThres. lia.
  - unfold values, guards. rewrite !fmap_insert, fmap_empty. unfold ValueBytes. by rewrite V1, V2.
  - cbn. by rewrite C2, C1.
  - cbn. by rewrite G2, G1.
  - cbn. lia.
Qed.

(** The data tree [NewOnvaKV] starts from is empty. *)
Record empty_tree (d : DT) : Prop := { et_ok : dt_ok d; et_next : dt_next d = 0; et_pending : dt_pending d ≤ 64; et_oldest : dt_oldest d = 0 }.

Lemma NewOnvaKV_create_ok r d canQueryHistory startKey endKey : empty_tree d → 2050 < dt_max → dt_first ≤ 2050 →
  KeyOk startKey → KeyOk endKey → ValOk [] → startKey <b endKey →
  ∃ okv ent, NewOnvaKV_create r d canQueryHistory startKey endKey = Ret okv ∧ idle okv ent ∧ values ent = guards startKey endKey ∧
    okv_startKey okv = startKey ∧ okv_endKey okv = endKey ∧ dt_next (okv_datTree okv) = 2050.
Proof.
  intros [Hd Hn Hp Ho] Hmax Hfirst HKs HKe HV Hlt. unfold NewOnvaKV_create, MetaDB_Init, SetTwigMtFileSize, SetEntryFileSize. cbn [okv_rocksdb].
  edestruct (batch_Set_ok (SetIsRunning (OpenNewBatch r) false)) as (r1 & -> & B1 & _); [by eexists|]. cbn [mbind outcome_bind].
  edestruct (batch_Set_ok r1) as (r2 & -> & B2 & _); [done|]. cbn [mbind outcome_bind].
  edestruct (Commit_ok (mkMetaDB 0 (-1) 0 0) r2 B2) as (r3 & -> & B3 & _). cbn [mbind outcome_bind mret outcome_ret].
  set (o0 := set_rocksdb _ _). destruct bt_TreeNew_ok as [Hbt Hbm].
  assert (store_inv o0 ∅) as I0.
  { split; cbn.
    - split; cbn; [done|done|by rewrite Hn|by rewrite Hn|done|done].
    - intros k p Hk. rewrite Hbm in Hk. by rewrite lookup_empty in Hk.
    - intros k [e He]. by rewrite lookup_empty in He.
    - intros k e He. by rewrite lookup_empty in He.
    - intros k k' e e' He. by rewrite lookup_empty in He.
    - intros sn Hsn. pose proof (dt_live_next d sn Hd Hsn). lia. }
  destruct (append_dummies_ok 2048 o0 ltac:(by split) I0 ltac:(cbn; lia) 0%nat) as (o1 & E1 & C1 & I1 & T1 & A1 & X1 & N1).
  rewrite E1. cbn [mbind outcome_bind]. cbn in N1. rewrite Hn in N1.
  destruct (InitGuards_ok o1 startKey endKey C1 I1) as (o2 & ent & -> & Hidle & Hv & Hs & He & N2);
    [by rewrite T1|by rewrite A1|by rewrite X1|lia|lia|done..|]. cbn [mbind outcome_bind mret outcome_ret].
  eexists _, ent. split; [reflexivity|]. split_and!; [|done|done|done|cbn; lia].
  destruct Hidle as [[H1 H2 H3] H4 H5 H6 H7 H8 H9]. split; [split|..]; try done. by eapply store_inv_ext.
Qed.
End create.
