(* ===== verification/OnvaKVStore.v ===== *)
(** * The store as its clients see it

    What a client can rely on, from the creation of the store through any
    number of blocks: the contents are what the writes mean, the keys are
    linked in order, reads, iterators and the consistency check agree. *)
From S2P Require Import Prelude Types ByteOrder RocksDB BTreeSpec.
From S2P Require Import Hasher AppendFile HPFile TwigMtFile MetaDB IndexTree EntryCodec Twig Tree DataTreeSpec MockDataTree DataTreeImpl.
From S2P Require Import Client OnvaKV Relink Buckets OnvaKVInv OnvaKVRead OnvaKVBlock OnvaKVReap OnvaKVPrepare OnvaKVSets OnvaKVRun OnvaKVCreate.

(** The loop over an iterator of the index, read backwards. *)
Lemma iter_collect_inv {E} (next : IterMem E → outcome (IterMem E)) fuel iter l : iter_collect next fuel iter = Ret l →
  match l with
  | [] => iter_Valid iter = false
  | (k, v) :: l' => ∃ fuel' iter', fuel = Datatypes.S fuel' ∧ iter_Valid iter = true ∧ im_key iter = k ∧ im_value iter = v ∧ next iter = Ret iter' ∧ iter_collect next fuel' iter' = Ret l'
  end.
Proof.
  destruct fuel as [|fuel]; [done|]. cbn. destruct (iter_Valid iter) eqn:Hv; [|by intros [= <-]].
  destruct (next iter) as [iter'|]; [|done]. cbn. destruct (iter_collect next fuel iter') as [l'|] eqn:El; [|done]. cbn.
  intros [= <-]. by exists fuel, iter'.
Qed.

Lemma fmap_rev {A B} (f : A → B) l : f <$> rev l = rev (f <$> l).
Proof. induction l as [|x l IH]; [done|]. cbn. by rewrite fmap_app, IH. Qed.

Section store.
Context {D T E DT : Type} `{HD : !Rocks D} `{!RocksLaws D} `{HT : !BTreeOps Z T E} `{!BTreeLaws Z T E}.
Context `{HDT : !DataTreeOps DT} `{!DataTreeLaws DT} (KeyOk ValOk : bytes → Prop) (Hsizes : sizes_ok KeyOk ValOk).
Notation OnvaKV := (OnvaKV D T DT).
Notation store_inv := (store_inv KeyOk ValOk).
Notation readable := (readable KeyOk ValOk).
Notation idle := (idle KeyOk ValOk).
Notation index okv := (bt_map (bt (okv_idxTree okv))).
Implicit Types (okv : OnvaKV) (ent : gmap bytes Entry) (m : gmap bytes bytes) (k : bytes).

(** ** Blocks *)

Record block : Type := mkBlock { preps : list prep; height : Z; writes : list write }.

Definition run_blocks (fuel : nat) okv (bs : list block) : outcome OnvaKV :=
  for_state (λ okv b, run_block fuel okv (preps b) (height b) (writes b)) okv bs.
Definition spec_blocks m (bs : list block) : gmap bytes bytes := foldl (λ m b, spec_after m (writes b)) m bs.

(** Blocks that are served, from the contents [m] and at most [top] serial
    numbers: what they prepare and write, and the serial numbers they take. *)
Fixpoint blocks_ok (fuel : nat) (startKey endKey : bytes) (top : Z) m (bs : list block) : Prop :=
  match bs with
  | [] => True
  | b :: bs =>
      let m' := spec_after m (writes b) in
      let top' := top + 6 * zlen (preps b) + reap_cost m' in
      is_int64 (height b) ∧ (∀ p, p ∈ preps b → prep_ok KeyOk startKey endKey p) ∧
      (∀ w, w ∈ writes b → write_ok ValOk (preps b) w) ∧ no_revival m (writes b) ∧
      top' < dt_max ∧ reap_served fuel top (zlen (preps b)) m' ∧ blocks_ok fuel startKey endKey top' m' bs
  end.

Lemma reap_served_mono fuel next top np m : next ≤ top → reap_served fuel top np m → reap_served fuel next np m.
Proof. intros Hle [?|(? & ? & ? & ?)]; [by left|right]. split_and!; done || lia. Qed.

Lemma run_blocks_ok fuel bs : ∀ okv ent top, idle okv ent → dt_next (okv_datTree okv) ≤ top →
  blocks_ok fuel (okv_startKey okv) (okv_endKey okv) top (values ent) bs →
  ∃ okv' ent', run_blocks fuel okv bs = Ret okv' ∧ idle okv' ent' ∧ values ent' = spec_blocks (values ent) bs ∧
    okv_startKey okv' = okv_startKey okv ∧ okv_endKey okv' = okv_endKey okv.
Proof.
  induction bs as [|b bs IH]; intros okv ent top Hi Htop Hok; [by exists okv, ent|].
  destruct Hok as (Hh & Hp & Hw & Hr & Hroom & Hserved & Hok).
  destruct (run_block_ok KeyOk ValOk Hsizes fuel okv ent (preps b) (height b) (writes b) Hi) as (o1 & ent1 & E1 & I1 & V1 & S1 & G1 & N1).
  { split; try done; [lia|]. by eapply reap_served_mono. }
  unfold run_blocks. rewrite (for_state_step _ _ _ _ _ E1).
  destruct (IH o1 ent1 (top + 6 * zlen (preps b) + reap_cost (spec_after (values ent) (writes b))) I1 ltac:(lia)) as (o2 & ent2 & E2 & I2 & V2 & S2 & G2); [rewrite S1, G1, V1; exact Hok|].
  exists o2, ent2. rewrite V2, V1. split_and!; [exact E2|done|done|congruence|congruence].
Qed.

(** What a read gives. *)
Definition reads_as (endKey : bytes) m k (oe : option Entry) : Prop :=
  ValueBytes <$> oe = m !! k ∧
  ∀ e, oe = Some e → Key e = k ∧ (k ≠ endKey → next_in (λ k', is_Some (m !! k')) k (NextKey e)) ∧ (k = endKey → NextKey e = endKey).

Lemma values_is_Some ent k : is_Some (values ent !! k) ↔ is_Some (ent !! k).
Proof. unfold values. by rewrite lookup_fmap, fmap_is_Some. Qed.

Lemma GetEntry_reads okv ent k : idle okv ent → ∃ okv' oe, GetEntry okv k = Ret (okv', oe) ∧ idle okv' ent ∧
  reads_as (okv_endKey okv) (values ent) k oe.
Proof.
  intros [Hr H2 H3 Hl H5 H6 H7]. destruct (GetEntry_ok KeyOk ValOk okv ent k Hr) as (o & E1 & R1 & Hor). exists o, (ent !! k).
  split; [done|]. destruct Hor as (Hor & Hn & Hf). split.
  - split; [done|by rewrite Hor..|by rewrite Hn|by rewrite Hn, Hf|by rewrite Hor].
  - split; [unfold values; by rewrite lookup_fmap|]. intros e He. split_and!.
    + by apply (si_entry _ _ _ _ (re_inv _ _ _ _ Hr) k e He).
    + intros Hne. destruct (li_next _ _ _ Hl k e He Hne) as (N1 & N2 & N3). split_and!; [by apply values_is_Some|done|].
      intros k' Hk'%values_is_Some. by apply N3.
    + intros ->. by apply (li_last _ _ _ Hl).
Qed.

(** ** The consistency check *)

(** The keys between two bounds lead to their successors. *)
Definition links_between ent (lo hi : bytes) : Prop :=
  ∀ k e, lo <b k → k <b hi → ent !! k = Some e → next_in (λ k', is_Some (ent !! k')) k (NextKey e).

Lemma check_links_exact okv ent l : readable okv ent → is_Some (ent !! okv_startKey okv) →
  ∀ (o : OnvaKV) fuel iter fuel' next, readable o ent → okv_idxTree o = okv_idxTree okv → okv_startKey o = okv_startKey okv →
  iter_collect (Backward_Next (okv_idxTree okv)) fuel iter = Ret l → descending (index okv) (λ k, k <b next) l →
  is_Some (ent !! next) → okv_startKey okv <b next → (length l < fuel')%nat →
  check_links fuel' o iter next = Ret tt ↔ links_between ent (okv_startKey okv) next.
Proof.
  intros Hokv Hstart. pose proof (re_inv _ _ _ _ Hokv) as Hi.
  induction l as [|[k v] l IH]; intros o fuel iter [|fuel'] next Hr Ht Hs Hc Hd Hnext Hsn Hlen; cbn [length] in Hlen; try lia.
  { exfalso. pose proof (descending_nil _ _ Hd (okv_startKey okv) Hsn) as Hno.
    apply (index_keys KeyOk ValOk okv ent _ Hi) in Hstart as [? ?]. congruence. }
  apply iter_collect_inv in Hc. cbn [check_links].
  destruct Hc as (f & iter' & -> & -> & Hk & Hv & Hn & Hc). cbn [andb]. rewrite Hk, Hv, Hs.
  apply descending_cons in Hd as [(Hkv & Hlt & Hmax) Hd].
  assert (∀ k', is_Some (ent !! k') → k' <b next → k' ≤b k) as Hmax' by (intros k' Hk' Hlt'; apply Hmax; [done|]; by apply (index_keys KeyOk ValOk okv ent k' Hi)).
  case_bool_decide as Heq; cbn [negb].
  { split; [|done]. intros _ k' e Hlo Hhi He. specialize (Hmax' k' ltac:(by eexists) Hhi). rewrite Heq in Hmax'. by apply bytes_nlt_ge in Hmax'. }
  assert (okv_startKey okv <b k) as Hsk by (destruct (proj1 (bytes_le_lteq _ _) (Hmax' _ Hstart Hsn)) as [?|?]; [done|by destruct Heq]).
  destruct (si_index _ _ _ _ Hi k v Hkv) as (_ & e & He & _).
  destruct (read_at_ok KeyOk ValOk o ent k e v Hr He) as (o1 & E1 & R1 & Q1); [by rewrite Ht|]. rewrite E1. cbn [mbind outcome_bind].
  assert (next_in (λ k', is_Some (ent !! k')) k next) as Hkn.
  { apply next_of_prev_in; [|done]. split_and!; [by eexists|done|]. intros k' Hk' Hlt'. by apply Hmax'. }
  case_bool_decide as Hne; cbn [require mbind outcome_bind].
  2:{ split; [done|]. intros Hall. destruct Hne. by eapply next_in_unique; [apply (Hall k)|]. }
  destruct Q1 as [Q1 _]. replace (okv_idxTree o1) with (okv_idxTree okv) by (rewrite Q1; done). rewrite Hn. cbn [mbind outcome_bind].
  rewrite (IH o1 f iter' fuel' k); [|done|by rewrite Q1|by rewrite Q1|done| |by eexists|done|lia].
  2:{ eapply items_in_iff; [|exact Hd]. intros k' _. cbn. split; [tauto|]. intros Hk'. split; [by eapply bytes_lt_trans|done]. }
  split; intros Hall k' e' Hlo Hhi He'; [|apply Hall; [done|by eapply bytes_lt_trans|done]].
  destruct (proj1 (bytes_le_lteq _ _) (Hmax' k' ltac:(by eexists) Hhi)) as [?| ->]; [by apply Hall|].
  replace e' with e by congruence. by rewrite Hne.
Qed.

Lemma CheckConsistency_links okv ent : readable okv ent → is_Some (ent !! okv_startKey okv) → is_Some (ent !! okv_endKey okv) →
  okv_startKey okv <b okv_endKey okv →
  CheckConsistency (Datatypes.S (size ent)) okv = Ret tt ↔ links_between ent (okv_startKey okv) (okv_endKey okv).
Proof.
  intros Hr Hs He Hlt. pose proof (re_inv _ _ _ _ Hr) as Hi. unfold CheckConsistency.
  pose proof (ReverseIterator_collect (okv_idxTree okv) [] (okv_endKey okv) (Datatypes.S (size (index okv))) (re_idle _ _ _ _ Hr) (po_bt _ (si_parts _ _ _ _ Hi)) ltac:(lia)) as Hc.
  pose proof (range_items_ascending (index okv) [] (okv_endKey okv)) as Hl. pose proof (ascending_length _ _ _ Hl) as Hlen. apply descending_rev in Hl.
  destruct (NVTree_ReverseIterator (okv_idxTree okv) [] (okv_endKey okv)) as [iter|]; [|discriminate]. cbn [mbind outcome_bind] in *.
  eapply check_links_exact; [done|done|done|done|done|exact Hc| |done|done|].
  - eapply items_in_iff; [|exact Hl]. intros k _. cbn. split; [by intros [_ ?]|]. intros ?. split; [apply bytes_nil_le|done].
  - rewrite length_rev. rewrite (index_size _ _ okv ent Hi) in Hlen. lia.
Qed.

(** ** Iterators *)

Lemma onva_collect_ok (next : NVTreeMem T → IterMem E → outcome (IterMem E)) okv ent l : ∀ (o : OnvaKV) fuel iter, readable o ent → okv_idxTree o = okv_idxTree okv →
  iter_collect (next (okv_idxTree okv)) fuel iter = Ret l → (∀ k v, (k, v) ∈ l → index okv !! k = Some v) →
  ∃ o', onva_collect next fuel o iter = Ret (o', (λ kv, (kv.1, ent !! kv.1 ≫= Value)) <$> l) ∧ readable o' ent ∧ only_read o o'.
Proof.
  induction l as [|[k v] l IH]; intros o fuel iter Hr Ht Hc Hl.
  - destruct fuel as [|fuel]; [done|]. apply iter_collect_inv in Hc. exists o. cbn [onva_collect]. rewrite Hc.
    split_and!; [done|done|apply only_read_refl].
  - apply iter_collect_inv in Hc. destruct Hc as (f & iter' & -> & Hv & Hk & Hval & Hn & Hc). cbn [onva_collect]. unfold Onva_Value. rewrite Hv, Hval. cbn [negb].
    assert (index okv !! k = Some v) as Hkv by (apply Hl; by left). rewrite <- Ht in Hkv.
    destruct (si_index _ _ _ _ (re_inv _ _ _ _ Hr) k v Hkv) as (_ & e & He & _).
    destruct (read_at_ok KeyOk ValOk o ent k e v Hr He Hkv) as (o1 & -> & R1 & Q1). cbn [mbind outcome_bind mret outcome_ret].
    pose proof Q1 as [Q2 _]. assert (okv_idxTree o1 = okv_idxTree okv) as Ht1 by (by rewrite Q2). rewrite Ht1, Hn. cbn [mbind outcome_bind].
    destruct (IH o1 f iter' R1 Ht1 Hc) as (o2 & -> & R2 & Q3); [intros; apply Hl; by right|]. cbn [mbind outcome_bind mret outcome_ret].
    exists o2. split_and!; [|done|by etrans]. cbn. by rewrite He, Hk.
Qed.

(** The items of a range, with their values. *)
Definition with_values ent (l : list (bytes * Z)) : list (bytes * bytes) := (λ kv, (kv.1, default [] (ValueBytes <$> ent !! kv.1))) <$> l.

Lemma with_values_items (R : bytes → bytes → Prop) okv ent (P : bytes → Prop) l : store_inv okv ent →
  items_in (λ a b, R a.1 b.1) (index okv) P l → items_in (λ a b, R a.1 b.1) (values ent) P (with_values ent l).
Proof.
  intros Hi [Hs Hl]. split.
  - clear Hl. induction Hs as [|x l Hs IH Hx]; [constructor|]. cbn. constructor; [done|].
    apply Forall_fmap. eapply Forall_impl; [exact Hx|]. done.
  - intros k v. unfold with_values, values. rewrite list_elem_of_fmap, lookup_fmap. split.
    + intros ([k' p] & [= -> ->] & [Hp HP]%Hl). split; [|done]. destruct (si_index _ _ _ _ Hi k' p Hp) as (_ & e & He & _). cbn. by rewrite He.
    + intros [(e & He & ->)%fmap_Some HP]. destruct (proj2 (index_keys KeyOk ValOk okv ent k Hi) ltac:(by eexists)) as [p Hp].
      exists (k, p). cbn. rewrite He. split; [done|]. by apply Hl.
Qed.

Lemma onva_values okv ent l : store_inv okv ent → (∀ k v, (k, v) ∈ l → index okv !! k = Some v) →
  (λ kv, (kv.1, ent !! kv.1 ≫= Value)) <$> l = (λ kv, (kv.1, Some kv.2)) <$> with_values ent l.
Proof.
  intros Hi Hl. unfold with_values. rewrite <- list_fmap_compose. apply list_fmap_ext. intros i [k p] Hk%list_elem_of_lookup_2.
  destruct (si_index _ _ _ _ Hi k p (Hl k p Hk)) as (_ & e & He & _). cbn. rewrite He. cbn.
  destruct (entry_facts _ _ _ _ _ _ Hi He) as (_ & _ & _ & v & Hv & _). unfold ValueBytes. by rewrite Hv.
Qed.

Lemma iterators_ok okv ent start end_ fuel : readable okv ent → (size ent < fuel)%nat →
  ∃ l okv1 okv2, ascending (values ent) (λ k, start ≤b k ∧ k <b end_) l ∧
    (iter ← OnvaKV_Iterator okv start end_; onva_collect Forward_Next fuel okv iter) = Ret (okv1, (λ kv, (kv.1, Some kv.2)) <$> l) ∧
    (iter ← OnvaKV_ReverseIterator okv start end_; onva_collect Backward_Next fuel okv iter) = Ret (okv2, (λ kv, (kv.1, Some kv.2)) <$> rev l).
Proof.
  intros Hr Hfuel. pose proof (re_inv _ _ _ _ Hr) as Hi. rewrite <- (index_size _ _ okv ent Hi) in Hfuel.
  pose proof (po_bt _ (si_parts _ _ _ _ Hi)) as Hb. pose proof (re_idle _ _ _ _ Hr) as Hw.
  pose proof (range_items_ascending (index okv) start end_) as Ha.
  pose proof (Iterator_collect (okv_idxTree okv) start end_ fuel Hw Hb Hfuel) as Hf.
  pose proof (ReverseIterator_collect (okv_idxTree okv) start end_ fuel Hw Hb Hfuel) as Hbk. set (l := range_items _ _ _) in *.
  assert (∀ k v, (k, v) ∈ l → index okv !! k = Some v) as Hl by (intros k v Hk; by apply Ha in Hk as [? _]).
  unfold OnvaKV_Iterator, OnvaKV_ReverseIterator.
  destruct (NVTree_Iterator (okv_idxTree okv) start end_) as [it1|]; [|discriminate].
  destruct (NVTree_ReverseIterator (okv_idxTree okv) start end_) as [it2|]; [|discriminate]. cbn [mbind outcome_bind] in *.
  destruct (onva_collect_ok Forward_Next okv ent l okv fuel it1 Hr eq_refl Hf Hl) as (o1 & E1 & _).
  destruct (onva_collect_ok Backward_Next okv ent (rev l) okv fuel it2 Hr eq_refl Hbk) as (o2 & E2 & _).
  { intros k v Hk. apply Hl. apply list_elem_of_In. apply in_rev. by apply list_elem_of_In. }
  exists (with_values ent l), o1, o2. split_and!.
  - by apply with_values_items with okv.
  - rewrite E1. do 2 f_equal. by apply (onva_values okv).
  - rewrite E2. do 2 f_equal. rewrite !fmap_rev. f_equal. by apply (onva_values okv).
Qed.

(** ** Sessions *)

(** Creating a store on an empty data tree and running blocks. *)
Definition session (fuel : nat) (r : RocksDB D) (d : DT) (canQueryHistory : bool) (startKey endKey : bytes) (bs : list block) : outcome OnvaKV :=
  okv ← NewOnvaKV_create r d canQueryHistory startKey endKey;
  run_blocks fuel okv bs.

(** The contents a session leaves. *)
Definition contents (startKey endKey : bytes) (bs : list block) : gmap bytes bytes := spec_blocks (guards startKey endKey) bs.

Record session_ok (fuel : nat) (d : DT) (startKey endKey : bytes) (bs : list block) : Prop := {
  se_tree : empty_tree d;
  se_guards : startKey <b endKey ∧ KeyOk startKey ∧ KeyOk endKey ∧ ValOk [];
  se_first : dt_first ≤ 2050;
  se_room : 2050 < dt_max;
  se_blocks : blocks_ok fuel startKey endKey 2050 (guards startKey endKey) bs
}.

Lemma session_idle fuel r d canQueryHistory startKey endKey bs : session_ok fuel d startKey endKey bs →
  ∃ okv ent, session fuel r d canQueryHistory startKey endKey bs = Ret okv ∧ idle okv ent ∧
    values ent = contents startKey endKey bs ∧ okv_startKey okv = startKey ∧ okv_endKey okv = endKey.
Proof.
  intros [Ht (Hlt & HKs & HKe & HV) Hf Hroom Hb]. unfold session.
  destruct (NewOnvaKV_create_ok KeyOk ValOk Hsizes r d canQueryHistory startKey endKey Ht) as (o & ent & -> & Hi & Hv & Hs & He & Hn); [done..|].
  cbn [mbind outcome_bind].
  destruct (run_blocks_ok fuel bs o ent 2050 Hi) as (o' & ent' & E1 & Hi' & Hv' & Hs' & He'); [lia|by rewrite Hs, He, Hv|].
  exists o', ent'. split_and!; [done|done|by rewrite Hv', Hv|congruence|congruence].
Qed.

Lemma idle_consistent okv ent : idle okv ent → okv_startKey okv <b okv_endKey okv → CheckConsistency (Datatypes.S (size ent)) okv = Ret tt.
Proof.
  intros [Hr _ _ Hl _ _ _] Hlt. apply CheckConsistency_links; [done|apply Hl|apply Hl|done|].
  intros k e _ Hhi Hk. apply (li_next _ _ _ Hl); [done|]. intros ->. by apply (irreflexivity bytes_lt) in Hhi.
Qed.

(** What a store between blocks that stands for [m] gives to a client *)
Lemma idle_serves okv ent m startKey endKey : idle okv ent → values ent = m → okv_startKey okv = startKey → okv_endKey okv = endKey → startKey <b endKey →
  (∀ k, ∃ okv' oe, GetEntry okv k = Ret (okv', oe) ∧ reads_as endKey m k oe) ∧
  CheckConsistency (Datatypes.S (size m)) okv = Ret tt.
Proof.
  intros Hi <- <- <- Hlt. split; [|unfold values; rewrite map_size_fmap; by apply idle_consistent].
  intros k. destruct (GetEntry_reads okv ent k Hi) as (o' & oe & E2 & _ & Hr). by exists o', oe.
Qed.

(** C2: the store is a map for a client that keeps to the rules of [session_ok]:
    it creates the store on an empty data tree; in each block it prepares keys
    between the two guards, and sets and deletes prepared keys, but does not
    set and then delete a key the store did not hold before the block (see
    [set_then_delete_inserts]); and the serial numbers the blocks take are
    within the capacity [blocks_ok] adds up. Then no call panics, and
    afterwards every read gives the value that the writes, in their order,
    mean; the entry of a key leads to the next key of the store, and the
    consistency check passes. *)
Theorem store_refines_map fuel r d canQueryHistory startKey endKey bs : session_ok fuel d startKey endKey bs →
  ∃ okv, session fuel r d canQueryHistory startKey endKey bs = Ret okv ∧
    (∀ k, ∃ okv' oe, GetEntry okv k = Ret (okv', oe) ∧ reads_as endKey (contents startKey endKey bs) k oe) ∧
    CheckConsistency (Datatypes.S (size (contents startKey endKey bs))) okv = Ret tt.
Proof.
  intros Hs. destruct (session_idle fuel r d canQueryHistory startKey endKey bs Hs) as (o & ent & E1 & Hi & Hv & Hs1 & He1).
  exists o. split; [done|]. eapply idle_serves; [exact Hi|done|done|done|apply (se_guards _ _ _ _ _ Hs)].
Qed.

(** C23: the consistency check of a store between blocks passes exactly when
    every key strictly between the guards leads to its successor; the link of
    the first guard is not looked at. *)
Theorem CheckConsistency_exact okv ent : readable okv ent → is_Some (ent !! okv_startKey okv) → is_Some (ent !! okv_endKey okv) →
  okv_startKey okv <b okv_endKey okv →
  CheckConsistency (Datatypes.S (size ent)) okv = Ret tt ↔
  ∀ k e, okv_startKey okv <b k → k <b okv_endKey okv → ent !! k = Some e → next_in (λ k', is_Some (ent !! k')) k (NextKey e).
Proof. intros Hr Hs He Hlt. by apply CheckConsistency_links. Qed.

(** C24: the iterators of a store between blocks terminate and give the keys
    of the range with their values, in ascending and descending order. *)
Theorem store_iterators_exact fuel r d canQueryHistory startKey endKey bs okv start end_ n : session_ok fuel d startKey endKey bs →
  session fuel r d canQueryHistory startKey endKey bs = Ret okv → (size (contents startKey endKey bs) < n)%nat →
  ∃ l okv1 okv2, ascending (contents startKey endKey bs) (λ k, start ≤b k ∧ k <b end_) l ∧
    (iter ← OnvaKV_Iterator okv start end_; onva_collect Forward_Next n okv iter) = Ret (okv1, (λ kv, (kv.1, Some kv.2)) <$> l) ∧
    (iter ← OnvaKV_ReverseIterator okv start end_; onva_collect Backward_Next n okv iter) = Ret (okv2, (λ kv, (kv.1, Some kv.2)) <$> rev l).
Proof.
  intros Hok E1 Hn. destruct (session_idle fuel r d canQueryHistory startKey endKey bs Hok) as (o & ent & E2 & Hi & Hv & _).
  replace okv with o by congruence. rewrite <- Hv in *. unfold values in Hn. rewrite map_size_fmap in Hn.
  apply iterators_ok; [apply Hi|done].
Qed.
End store.

(** ** A session on the mock data tree *)

Definition any_value (v : bytes) : Prop := True.
Lemma mock_sizes : sizes_ok (DT := CountedMock) keyed any_value.
Proof. split; done. Qed.

Definition sample_blocks : list block := [
  mkBlock [PrepUpdate [5]; PrepUpdate [3]] 1 [SetKey [5] [50]; SetKey [3] [30]];
  mkBlock [PrepDeletion [5]; PrepUpdate [3]; PrepUpdate [4]] 2 [DeleteKey [5]; SetKey [3] [31]; SetKey [4] [40]]].
Definition sample_rocksdb : RocksDB (gmap bytes bytes) := NewRocksDB ∅.

Lemma keyed_byte b : 0 ≤ b < 256 → keyed [b].
Proof. intros Hb. by exists b, []. Qed.

Lemma sample_blocks_ok {DT} `{!DataTreeOps DT} `{!DataTreeLaws DT} (KeyOk ValOk : bytes → Prop) fuel : (∀ b, 0 ≤ b < 256 → KeyOk [b]) → (∀ b, ValOk [b]) →
  2080 < dt_max → blocks_ok KeyOk ValOk fuel [1] [9] 2050 (guards [1] [9]) sample_blocks.
Proof.
  intros HK HV Hmax.
  assert (∀ ws m, (∀ i j k v, ws !! i = Some (SetKey k v) → ws !! j = Some (DeleteKey k) → (i < j)%nat → False) → no_revival m ws) as Hrev.
  { intros ws m H i j k v H1 H2 Hlt. by destruct (H i j k v H1 H2 Hlt). }
  cbn [blocks_ok sample_blocks preps height writes]. set (m1 := spec_after _ _). set (m2 := spec_after m1 _).
  assert (reap_cost m1 = 0) as E1 by (vm_compute; reflexivity). assert (reap_cost m2 = 0) as E2 by (vm_compute; reflexivity).
  rewrite E1, E2. change (zlen [PrepUpdate [5]; PrepUpdate [3]]) with 2. change (zlen [PrepDeletion [5]; PrepUpdate [3]; PrepUpdate [4]]) with 3.
  split_and!; try done; try lia; try (left; by apply reap_cost_0).
  1, 4: apply Forall_forall; repeat (constructor; [split; [by apply HK|by split]|]); constructor.
  1, 3: apply Forall_forall; repeat (constructor; [repeat split; first [apply HV|repeat first [by left|right]]|]); constructor.
  - apply Hrev. intros i [|[|j]] k v H1 H2 Hlt; done.
  - apply Hrev. intros [|i] [|[|[|j]]] k v H1 H2 Hlt; done || lia.
Qed.

Lemma sample_session_ok : session_ok keyed any_value 0 new_mock [1] [9] sample_blocks.
Proof.
  split; [split; [apply new_mock_ok|done..]|split_and!; [done|by apply keyed_byte|by apply keyed_byte|done]|done|vm_compute; reflexivity|].
  apply sample_blocks_ok; [apply keyed_byte|done|vm_compute; reflexivity].
Qed.

(** ** A session on the data tree itself, over the files of hpfile.go *)

Section real.
#[local] Existing Instance toy_sha256.
#[local] Existing Instance toy_meow.

Definition buffer_size : Z := 16 * 1024 * 1024.
Definition file_size : Z := 1024 * 1024 * 1024.
(** Records of at most 4096 bytes: the first file holds 2^18 of them. *)
#[local] Instance real_laws : DataTreeLaws (LoggedTree HPFile) := tree_laws 4096 file_size.

Definition short_key (k : bytes) : Prop := keyed k ∧ zlen k ≤ 128.
Definition short_value (v : bytes) : Prop := zlen v ≤ 128.
Definition new_tree : LoggedTree HPFile :=
  mkLogged (NewEmptyTree (new_entry_file buffer_size file_size) (new_file buffer_size file_size)) 0 ∅ [] 0 0.

Lemma real_sizes : sizes_ok (DT := LoggedTree HPFile) short_key short_value.
Proof.
  split.
  - intros k v nk [_ Hk] Hv [_ Hnk]. unfold short_value in Hv. apply fits_small; unfold MaxEntryBytes; lia.
  - intros sn v [= <-]. apply fits_small; vm_compute; congruence.
  - by intros k [? _].
Qed.

Lemma new_tree_ok : empty_tree new_tree.
Proof.
  split; [|done|vm_compute; congruence|done].
  apply empty_ok; [by apply new_entry_file_ok|by apply new_file_ok|vm_compute; congruence|reflexivity|reflexivity|vm_compute; congruence|reflexivity|apply InitPreReader_windowed].
Qed.

Lemma short_key_byte b : 0 ≤ b < 256 → short_key [b].
Proof. intros Hb. split; [by apply keyed_byte|vm_compute; congruence]. Qed.

Lemma real_session_ok : session_ok short_key short_value 0 new_tree [1] [9] sample_blocks.
Proof.
  split.
  - apply new_tree_ok.
  - split_and!; [done|by apply short_key_byte|by apply short_key_byte|vm_compute; congruence].
  - vm_compute; congruence.
  - vm_compute. reflexivity.
  - apply sample_blocks_ok; [apply short_key_byte|intros b; vm_compute; congruence|vm_compute; reflexivity].
Qed.

(** After two blocks: the guards, and the keys with their last values. *)
Lemma store_refines_map_witness :
  (session_ok short_key short_value 0 new_tree [1] [9] sample_blocks ∧
   contents [1] [9] sample_blocks = <[[1] := []]> (<[[3] := [31]]> (<[[4] := [40]]> (<[[9] := []]> ∅)))) ∧
  ∃ okv : OnvaKV (gmap bytes bytes) (gmap bytes Z) (LoggedTree HPFile), session 0 sample_rocksdb new_tree true [1] [9] sample_blocks = Ret okv ∧
    (∀ k, ∃ okv' oe, GetEntry okv k = Ret (okv', oe) ∧ reads_as [9] (contents [1] [9] sample_blocks) k oe) ∧
    CheckConsistency (Datatypes.S (size (contents [1] [9] sample_blocks))) okv = Ret tt.
Proof.
  split; [split; [apply real_session_ok|vm_compute; reflexivity]|].
  apply (store_refines_map short_key short_value real_sizes). apply real_session_ok.
Defined.
End real.

Lemma CheckConsistency_exact_witness :
  ∃ (okv : OnvaKV (gmap bytes bytes) (gmap bytes Z) CountedMock) ent, readable keyed any_value okv ent ∧ size ent = 4%nat ∧
    (CheckConsistency (Datatypes.S (size ent)) okv = Ret tt ↔
     ∀ k e, okv_startKey okv <b k → k <b okv_endKey okv → ent !! k = Some e → next_in (λ k', is_Some (ent !! k')) k (NextKey e)).
Proof.
  destruct (session_idle keyed any_value mock_sizes 0 sample_rocksdb new_mock true [1] [9] sample_blocks sample_session_ok) as (o & ent & _ & Hi & Hv & Hs & He).
  exists o, ent. split; [apply Hi|]. split.
  - rewrite <- (map_size_fmap ValueBytes). change (ValueBytes <$> ent) with (values ent). rewrite Hv. vm_compute. reflexivity.
  - apply (CheckConsistency_exact keyed any_value); [apply Hi|apply (id_linked _ _ _ _ Hi)|apply (id_linked _ _ _ _ Hi)|by rewrite Hs, He].
Defined.

Lemma store_iterators_exact_witness :
  ∃ (okv : OnvaKV (gmap bytes bytes) (gmap bytes Z) CountedMock), session 0 sample_rocksdb new_mock true [1] [9] sample_blocks = Ret okv ∧
  ∃ l okv1 okv2, ascending (contents [1] [9] sample_blocks) (λ k, [2] ≤b k ∧ k <b [9]) l ∧
    (iter ← OnvaKV_Iterator okv [2] [9]; onva_collect Forward_Next 5 okv iter) = Ret (okv1, (λ kv, (kv.1, Some kv.2)) <$> l) ∧
    (iter ← OnvaKV_ReverseIterator okv [2] [9]; onva_collect Backward_Next 5 okv iter) = Ret (okv2, (λ kv, (kv.1, Some kv.2)) <$> rev l).
Proof.
  destruct (session_idle keyed any_value mock_sizes 0 sample_rocksdb new_mock true [1] [9] sample_blocks sample_session_ok) as (o & ent & E1 & _).
  exists o. split; [done|].
  apply (store_iterators_exact keyed any_value mock_sizes 0 sample_rocksdb new_mock true [1] [9] sample_blocks); [apply sample_session_ok|done|vm_compute; lia].
Defined.

(** Setting and deleting a new key in one block. *)
Definition revived : outcome (option Entry * bool) :=
  okv ← session (T := gmap bytes Z) 0 sample_rocksdb new_mock false [1] [9] [mkBlock [PrepUpdate [5]] 1 [SetKey [5] [50]; DeleteKey [5]]];
  '(okv, e) ← GetEntry okv [5];
  mret (e, is_ret (CheckConsistency 9 okv)).
(** A key set and then deleted in its first block is not gone: the loop of
    [update] takes the deletion of an entry without a serial number for an
    insertion, although its comment says that it is ignored. *)
Theorem set_then_delete_inserts : revived = Ret (Some (mkEntry [5] (Some [50]) [] 1 0 2051), false).
Proof. vm_compute. reflexivity. Qed.
