(* ===== verification/OnvaKVCompact.v ===== *)
(** * A store that compacts

    What compaction gives to a client: after a session that keeps to its rules,
    all keys are still read, and the data tree keeps at most twice as many
    entries as there are active ones. The session of the witness has more than
    ten thousand keys and rewrites most of them, over the data tree of [Tree]
    on the files of hpfile.go. *)
From S2P Require Import Prelude Types ByteOrder RocksDB BTreeSpec.
From S2P Require Import Hasher AppendFile HPFile TwigMtFile MetaDB IndexTree EntryCodec Twig Tree DataTreeSpec MockDataTree DataTreeImpl.
From S2P Require Import Client OnvaKV Relink Buckets OnvaKVInv OnvaKVRead OnvaKVBlock OnvaKVReap OnvaKVPrepare OnvaKVSets OnvaKVRun OnvaKVCreate OnvaKVStore.

Section compact.
Context {D T E DT : Type} `{HD : !Rocks D} `{!RocksLaws D} `{HT : !BTreeOps Z T E} `{!BTreeLaws Z T E}.
Context `{HDT : !DataTreeOps DT} `{!DataTreeLaws DT} (KeyOk ValOk : bytes → Prop) (Hsizes : sizes_ok KeyOk ValOk).
Implicit Types (okv : OnvaKV D T DT).

(** C3: compaction ends, loses nothing, and keeps the storage in proportion to
    the contents. After a session that keeps to the rules of [session_ok] - for
    one that compacts, few keys in a block against those of the store, and
    serial numbers that stay, over the life of the store, below what the data
    tree gives raw records back for - the index counts exactly the keys of the
    contents; unless there are at most ten thousand of them, the entries that
    the data tree keeps, from the oldest active twig to the next serial number,
    are at most twice as many; and the entries that compaction moved are still
    read: every key gives the value the writes mean and leads to the next key,
    and the consistency check passes. *)
Theorem store_stays_compact fuel r d canQueryHistory startKey endKey bs : session_ok KeyOk ValOk fuel d startKey endKey bs →
  ∃ okv, session fuel r d canQueryHistory startKey endKey bs = Ret okv ∧
    OnvaKV_ActiveCount okv = Z.of_nat (size (contents startKey endKey bs)) ∧
    (OnvaKV_ActiveCount okv ≤ StartReapThres ∨ numOfKeptEntries okv ≤ OnvaKV_ActiveCount okv * KeptEntriesToActiveEntriesRatio) ∧
    (∀ k, ∃ okv' oe, GetEntry okv k = Ret (okv', oe) ∧ reads_as endKey (contents startKey endKey bs) k oe) ∧
    CheckConsistency (Datatypes.S (size (contents startKey endKey bs))) okv = Ret tt.
Proof.
  intros Hs. destruct (session_idle KeyOk ValOk Hsizes fuel r d canQueryHistory startKey endKey bs Hs) as (okv & ent & E1 & Hi & Hv & Hs1 & He1).
  exists okv. split; [done|]. split; [|split; [|eapply idle_serves; [exact Hi|done|done|done|apply (se_guards _ _ _ _ _ _ _ Hs)]]].
  - rewrite <- Hv. unfold values. rewrite map_size_fmap. pose proof (re_inv _ _ _ _ (id_read _ _ _ _ Hi)) as Hinv.
    unfold OnvaKV_ActiveCount, NVTree_ActiveCount. by rewrite (bt_Len_ok _ (po_bt _ (si_parts _ _ _ _ Hinv))), (index_size _ _ okv ent Hinv).
  - pose proof (id_compact _ _ _ _ Hi) as Hc. unfold must_reap in Hc. rewrite !Z.gtb_ltb in Hc.
    apply andb_false_iff in Hc as [Hc%Z.ltb_ge|Hc%Z.ltb_ge]; [by right|by left].
Qed.
End compact.

(** ** A session that compacts *)

#[local] Existing Instance toy_sha256.
#[local] Existing Instance toy_meow.
#[local] Existing Instance real_laws.

Definition nth_key (i : Z) : bytes := [2; i / 256; i mod 256].
Definition nth_keys (lo n : Z) : list bytes := nth_key <$> seqZ lo n.
(** A block that sets [n] keys. *)
Definition set_block (lo n h : Z) : block := mkBlock (PrepUpdate <$> nth_keys lo n) h ((λ k, SetKey k [h]) <$> nth_keys lo n).
(** 9990 keys, then 110 more, then ten blocks each of which sets 1300 of them again. *)
Definition big_blocks : list block := set_block 0 9990 1 :: set_block 9990 110 2 :: ((λ j, set_block (900 * j) 1300 (j + 3)) <$> seqZ 0 10).

Lemma nth_key_ok i : 0 ≤ i < 65536 → short_key (nth_key i) ∧ [1] <b nth_key i ∧ nth_key i <b [9].
Proof. intros Hi. split; [split; [by exists 2, [i / 256; i mod 256]|vm_compute; congruence]|done]. Qed.

Lemma set_block_ok lo n h : 0 ≤ lo → lo + n ≤ 65536 →
  (∀ p, p ∈ preps (set_block lo n h) → prep_ok short_key [1] [9] p) ∧
  (∀ w, w ∈ writes (set_block lo n h) → write_ok short_value (preps (set_block lo n h)) w) ∧
  ∀ m, no_revival m (writes (set_block lo n h)).
Proof.
  intros Hlo Hn. assert (∀ k, k ∈ nth_keys lo n → short_key k ∧ [1] <b k ∧ k <b [9]) as Hk.
  { intros k (i & -> & Hi%elem_of_seqZ)%list_elem_of_fmap. apply nth_key_ok. lia. }
  split_and!.
  - intros p (k & -> & Hin)%list_elem_of_fmap. by apply Hk.
  - intros w (k & -> & Hin)%list_elem_of_fmap. split; [by apply list_elem_of_fmap_2|vm_compute; congruence].
  - intros m i j k v _ Hj _. cbn [set_block writes] in Hj. rewrite list_lookup_fmap in Hj. by destruct (nth_keys lo n !! j).
Qed.

(** What the blocks cost, with the sizes of their contents. *)
Definition served_from (top np sz : Z) : bool := (sz <=? StartReapThres) || (6 * np + 2049 <=? sz).
Fixpoint costs_ok (fuel : nat) (top : Z) (m : gmap bytes bytes) (bs : list block) : bool :=
  match bs with
  | [] => true
  | b :: bs =>
      let m' := spec_after m (writes b) in
      let np := zlen (preps b) in
      let top' := top + 6 * np + reap_cost m' in
      (top' <=? 2 ^ 18) && (2 ^ 18 <=? 2048 * Z.of_nat fuel) && served_from top np (Z.of_nat (size m')) && costs_ok fuel top' m' bs
  end.

Lemma costs_blocks_ok fuel bs : ∀ top m, (∀ b, b ∈ bs → ∃ lo n h, b = set_block lo n h ∧ 0 ≤ lo ∧ lo + n ≤ 65536 ∧ is_int64 h) →
  costs_ok fuel top m bs = true → blocks_ok (DT := LoggedTree HPFile) short_key short_value fuel [1] [9] top m bs.
Proof.
  assert (dt_max (DT := LoggedTree HPFile) = 2 ^ 51 ∧ dt_compact_max (DT := LoggedTree HPFile) = 2 ^ 18) as [Hmax Hcap] by (split; vm_compute; reflexivity).
  induction bs as [|b bs IH]; intros top m Hbs Hc; [done|].
  destruct (Hbs b) as (lo & n & h & -> & Hlo & Hn & Hh); [by left|]. cbn [costs_ok] in Hc. apply andb_true_iff in Hc as [Hc Hc'].
  apply andb_true_iff in Hc as [[Htop Hfuel]%andb_true_iff Hserved]. apply Z.leb_le in Htop, Hfuel.
  destruct (set_block_ok lo n h Hlo Hn) as (H1 & H2 & H3). cbn [blocks_ok]. split; [done|]. split; [done|]. split; [done|]. split; [done|].
  split; [rewrite Hmax; lia|]. split; [|apply IH; [intros b' Hb'; apply Hbs; by right|done]].
  unfold served_from in Hserved. apply orb_true_iff in Hserved as [Hs%Z.leb_le|Hs%Z.leb_le]; [by left|right].
  split; [exact I|]. rewrite Hcap. split_and!; lia.
Qed.

Lemma big_session_ok : session_ok short_key short_value 128 new_tree [1] [9] big_blocks.
Proof.
  destruct real_session_ok as [Hd Hg Hf Hroom _]. split; [exact Hd|exact Hg|exact Hf|exact Hroom|].
  apply costs_blocks_ok; [|vm_compute; reflexivity].
  intros b [->|[->|(j & -> & Hj%elem_of_seqZ)%list_elem_of_fmap]%elem_of_cons]%elem_of_cons.
  - exists 0, 9990, 1. by split_and!.
  - exists 9990, 110, 2. by split_and!.
  - exists (900 * j), 1300, (j + 3). unfold is_int64. split_and!; done || lia.
Qed.

Lemma store_stays_compact_witness :
  (session_ok short_key short_value 128 new_tree [1] [9] big_blocks ∧ size (contents [1] [9] big_blocks) = Z.to_nat 10102) ∧
  ∃ okv : OnvaKV (gmap bytes bytes) (gmap bytes Z) (LoggedTree HPFile), session 128 sample_rocksdb new_tree false [1] [9] big_blocks = Ret okv ∧
    OnvaKV_ActiveCount okv = Z.of_nat (size (contents [1] [9] big_blocks)) ∧
    (OnvaKV_ActiveCount okv ≤ StartReapThres ∨ numOfKeptEntries okv ≤ OnvaKV_ActiveCount okv * KeptEntriesToActiveEntriesRatio) ∧
    (∀ k, ∃ okv' oe, GetEntry okv k = Ret (okv', oe) ∧ reads_as [9] (contents [1] [9] big_blocks) k oe) ∧
    CheckConsistency (Datatypes.S (size (contents [1] [9] big_blocks))) okv = Ret tt.
Proof.
  split; [split; [exact big_session_ok|vm_compute; reflexivity]|].
  apply (store_stays_compact short_key short_value real_sizes 128 sample_rocksdb new_tree false [1] [9] big_blocks big_session_ok).
Defined.
