(* ===== verification/RootStore.v ===== *)
(** * The root store (store/root.go)

    [RootStore] puts objects on top of [OnvaKV]: the cacheable keys that were
    written as objects, or read as read-only ones in the last block, are kept
    in a map from keys to objects. The set of store keys, which is only handed
    on to the trunk, is an argument of [SubStore] instead of a field.

    [pick] is the key that a loop over the map [cache] meets first, and
    [visit] the order in which [sync.Map.Range] calls back: the program does
    not determine either. *)
From S2P Require Import Prelude Types ByteOrder RocksDB BTreeSpec.
From S2P Require Import MetaDB IndexTree DataTreeSpec OnvaKV.
From S2P Require Import StoreTypes Client CacheStore MergeIter RootSpec.

Definition CacheSizeLimit : Z := 1024 * 1024.

Section root.
Context {Ob D T E DT : Type} `{SO : !Serializable Ob, HD : !Rocks D, HT : !BTreeOps Z T E, HDT : !DataTreeOps DT}.
Context (pick : gmap bytes Ob → bytes) (visit : gmap bytes Ob → list (bytes * Ob)) (fuel : nat).
Notation OnvaKV := (OnvaKV D T DT).

(** [cacheBuf] is nil while a block is written; [isCacheableKey] may be nil. *)
Record RootStore := mkRootStore {
  rt_cache : gmap bytes Ob;
  rt_cacheBuf : option (gmap bytes Ob);
  rt_isCacheableKey : option (bytes → bool);
  rt_okv : OnvaKV;
  rt_height : Z
}.
Notation stR A := (stM RootStore A).
Implicit Types (root : RootStore) (key : bytes) (ptr : option Ob).

Definition NewRootStore (okv : OnvaKV) (isCacheableKey : option (bytes → bool)) : RootStore :=
  mkRootStore ∅ (Some ∅) isCacheableKey okv (-1).
Definition SetHeight root (h : Z) : RootStore :=
  mkRootStore (rt_cache root) (rt_cacheBuf root) (rt_isCacheableKey root) (rt_okv root) h.
Definition set_cache root c : RootStore :=
  mkRootStore c (rt_cacheBuf root) (rt_isCacheableKey root) (rt_okv root) (rt_height root).
Definition set_cacheBuf root b : RootStore :=
  mkRootStore (rt_cache root) b (rt_isCacheableKey root) (rt_okv root) (rt_height root).
Definition rt_okv_lens : lens RootStore OnvaKV :=
  Lens rt_okv (λ okv root, mkRootStore (rt_cache root) (rt_cacheBuf root) (rt_isCacheableKey root) okv (rt_height root)).

Definition change_root (f : RootStore → RootStore) : stR unit := λ root, Ret (tt, f root).
(** A method of [OnvaKV] that changes it, and one that also returns something. *)
Definition okv_do (f : OnvaKV → outcome OnvaKV) : stR unit := zoom rt_okv_lens (λ okv, okv ← f okv; Ret (tt, okv)).
Definition okv_call {A} (f : OnvaKV → outcome (OnvaKV * A)) : stR A := zoom rt_okv_lens (λ okv, '(okv, a) ← f okv; Ret (a, okv)).

(** [root.isCacheableKey != nil && root.isCacheableKey(key)] *)
Definition cacheable root key : bool := match rt_isCacheableKey root with Some f => f key | None => false end.
(** [obj, ok = root.cache\[string(key)\]] under that condition *)
Definition cached_obj key : stR (option Ob) := λ root, Ret (if cacheable root key then rt_cache root !! key else None, root).

Definition Root_get key : stR (option bytes) :=
  e ← okv_call (λ okv, GetEntry okv key);
  mret (match e with Some e => Types.Value e | None => None end).

Definition Root_Get key : stR (option bytes) :=
  obj ← cached_obj key;
  match obj with Some obj => mret (ToBytes obj) | None => Root_get key end.

(** [root.cacheBuf.Store(string(key), *ptr)], if [root.isCacheableKey(key)] *)
Definition buffer_obj key (o : Ob) : stR unit := λ root,
  match rt_isCacheableKey root with
  | None => Panic "nil pointer dereference"
  | Some f =>
      if f key then
        match rt_cacheBuf root with
        | Some buf => Ret (tt, set_cacheBuf root (Some (<[key := o]> buf)))
        | None => Panic "nil pointer dereference"
        end
      else Ret (tt, root)
  end.

Definition Root_GetReadOnlyObj key ptr : stR (option Ob) :=
  obj ← cached_obj key;
  match obj with
  | Some obj => mret (Some obj)
  | None =>
      bz ← Root_get key;
      match bz with
      | Some bz =>
          p ← st_lift (ptr_FromBytes ptr (Some bz));
          match p with
          | Some o => _ ← buffer_obj key o; mret (Some o)
          | None => st_panic "nil pointer dereference"
          end
      | None => mret None
      end
  end.

Definition Root_GetObjCopy key ptr : stR (option Ob) :=
  obj ← cached_obj key;
  match obj with
  | Some obj => mret (Some (DeepCopy obj))
  | None =>
      bz ← Root_get key;
      match bz with
      | Some bz => st_lift (ptr_FromBytes ptr (Some bz))
      | None => mret None
      end
  end.

Definition Root_Has key : stR bool := e ← okv_call (λ okv, GetEntry okv key); mret (bool_decide (is_Some e)).

Definition Root_PrepareForUpdate key : stR unit := okv_do (λ okv, PrepareForUpdate okv key).
Definition Root_PrepareForDeletion key : stR unit := okv_do (λ okv, '(okv, _) ← PrepareForDeletion okv key; mret okv).

Definition addToCache (cache : gmap bytes Ob) key (obj : Ob) : gmap bytes Ob :=
  let cache := if Z.of_nat (size cache) >? CacheSizeLimit then delete (pick cache) cache else cache in
  <[key := obj]> cache.

Definition Root_BeginWrite : stR unit := λ root,
  if rt_height root <? 0 then Panic "Height is not initialized" else
  '(_, root) ← okv_do (λ okv, BeginWrite okv (rt_height root)) root;
  match rt_cacheBuf root with
  | None => Panic "nil pointer dereference"
  | Some buf =>
      let cache := foldl (λ cache '(key, value), addToCache cache key value) (rt_cache root) (visit buf) in
      Ret (tt, set_cacheBuf (set_cache root cache) None)
  end.

Definition Root_Set key (value : option bytes) : stR unit :=
  _ ← okv_do (λ okv, OnvaKV_Set okv key value);
  obj ← cached_obj key;
  match obj with
  | Some obj => o ← st_lift (FromBytes obj value); change_root (λ root, set_cache root (<[key := o]> (rt_cache root)))
  | None => mret tt
  end.

Definition Root_SetObj key (obj : option Ob) : stR unit :=
  match obj with
  | None => st_panic "nil pointer dereference"
  | Some obj =>
      _ ← okv_do (λ okv, OnvaKV_Set okv key (ToBytes obj));
      change_root (λ root, if cacheable root key then set_cache root (addToCache (rt_cache root) key obj) else root)
  end.

Definition Root_Delete key : stR unit :=
  _ ← okv_do (λ okv, OnvaKV_Delete okv key);
  change_root (λ root, set_cache root (delete key (rt_cache root))).

Definition Root_EndWrite : stR unit :=
  _ ← okv_do (EndWrite fuel);
  change_root (λ root, set_cacheBuf root (Some ∅)).

Definition Root_CheckConsistency (n : nat) root : outcome unit := CheckConsistency n (rt_okv root).
Definition Root_GetRootHash root : bytes := GetRootHash (rt_okv root).
Definition Root_ActiveCount root : Z := OnvaKV_ActiveCount (rt_okv root).

(** ** Iterators *)

(** An iterator of the store, forward or backward. *)
Inductive RootStoreIterator := RootForward (iter : OnvaIterator (E := E)) | RootBackward (iter : OnvaIterator (E := E)).
Definition ri_iter (it : RootStoreIterator) : OnvaIterator (E := E) := match it with RootForward iter | RootBackward iter => iter end.

Definition Root_Iterator (start end_ : bytes) : stR RootStoreIterator :=
  λ root, iter ← OnvaKV_Iterator (rt_okv root) start end_; Ret (RootForward iter, root).
Definition Root_ReverseIterator (start end_ : bytes) : stR RootStoreIterator :=
  λ root, iter ← OnvaKV_ReverseIterator (rt_okv root) start end_; Ret (RootBackward iter, root).

Definition ri_Next root (it : RootStoreIterator) : outcome RootStoreIterator :=
  match it with
  | RootForward iter => iter ← Forward_Next (okv_idxTree (rt_okv root)) iter; mret (RootForward iter)
  | RootBackward iter => iter ← Backward_Next (okv_idxTree (rt_okv root)) iter; mret (RootBackward iter)
  end.
Definition ri_Value (it : RootStoreIterator) : stR (option bytes) := okv_call (λ okv, Onva_Value okv (ri_iter it)).
Definition ri_ObjValue (it : RootStoreIterator) ptr : stR (option Ob) :=
  obj ← cached_obj (im_key (ri_iter it));
  match obj with
  | Some obj => mret (Some obj)
  | None => bz ← ri_Value it; st_lift (ptr_FromBytes ptr bz)
  end.

#[export] Instance root_iterator : ObjIterator Ob RootStore RootStoreIterator := {|
  oi_Domain it := (im_start (ri_iter it), im_end (ri_iter it));
  oi_Valid := λ '(root, it), Ret (iter_Valid (ri_iter it), (root, it));
  oi_Next := λ '(root, it), it ← ri_Next root it; Ret (tt, (root, it));
  oi_Key := λ '(root, it), Ret (im_key (ri_iter it), (root, it));
  oi_Value := λ '(root, it), '(v, root) ← ri_Value it root; Ret (v, (root, it));
  oi_ObjValue ptr := λ '(root, it), '(p, root) ← ri_ObjValue it ptr root; Ret (p, (root, it))
|}.

Definition root_store : RootStoreOps Ob RootStore RootStoreIterator := {|
  rs_Get := Root_Get;
  rs_GetObjCopy := Root_GetObjCopy;
  rs_GetReadOnlyObj := Root_GetReadOnlyObj;
  rs_Has := Root_Has;
  rs_PrepareForUpdate := Root_PrepareForUpdate;
  rs_PrepareForDeletion := Root_PrepareForDeletion;
  rs_Iterator := Root_Iterator;
  rs_ReverseIterator := Root_ReverseIterator;
  rs_iter := root_iterator;
  rs_BeginWrite := Root_BeginWrite;
  rs_Set := Root_Set;
  rs_SetObj := Root_SetObj;
  rs_Delete := Root_Delete;
  rs_EndWrite := Root_EndWrite;
  rs_ActiveCount := Root_ActiveCount
|}.
End root.
Arguments RootStore Ob D T DT : clear implicits.
Arguments RootStoreIterator E : clear implicits.
