(* ===== verification/RootStoreRun.v ===== *)
(** * The root store keeps the laws of a root store

    [RootStore] over a store whose keys are linked: its cache and the objects
    buffered in a block have the bytes of their keys, so reads give what the
    store below holds; preparing, writing a batch and iterating are those of
    [OnvaKV]. *)
From S2P Require Import Prelude Types ByteOrder RocksDB BTreeSpec.
From S2P Require Import MetaDB IndexTree DataTreeSpec OnvaKV Relink Buckets OnvaKVInv OnvaKVRead OnvaKVBlock OnvaKVReap OnvaKVPrepare OnvaKVSets OnvaKVRun OnvaKVStore.
From S2P Require Import StoreTypes Client CacheStore MergeIter RootSpec RootStore.

Section root_run.
Context {Ob D T E DT : Type} `{SO : !Serializable Ob, !SerializableLaws Ob}.
Context `{HD : !Rocks D} `{!RocksLaws D} `{HT : !BTreeOps Z T E} `{!BTreeLaws Z T E} `{HDT : !DataTreeOps DT} `{!DataTreeLaws DT}.
Context (KeyOk ValOk : bytes → Prop) (Hsizes : sizes_ok KeyOk ValOk) (startKey endKey : bytes) (isCacheableKey : option (bytes → bool)).
Context (pick : gmap bytes Ob → bytes) (visit : gmap bytes Ob → list (bytes * Ob)) (visit_ok : ∀ c, visit c ≡ₚ map_to_list c) (fuel : nat).
Notation OnvaKV := (OnvaKV D T DT).
Notation Root := (RootStore Ob D T DT).
Notation readable := (readable KeyOk ValOk).
Notation preparing := (preparing KeyOk ValOk).
Notation index okv := (bt_map (bt (okv_idxTree okv))).
Implicit Types (root : Root) (okv : OnvaKV) (ent : gmap bytes Entry) (m : gmap bytes bytes) (k key : bytes) (ps : list prep) (c buf : gmap bytes Ob).

(** ** The objects *)

Definition cacheable_key k : bool := match isCacheableKey with Some f => f k | None => false end.

(** Cached objects are of cacheable keys and have their bytes. *)
Definition objs_ok m c : Prop := ∀ k o, c !! k = Some o → cacheable_key k = true ∧ is_Some (m !! k) ∧ ToBytes o = m !! k.
Definition buf_ok m root : Prop := ∃ buf, rt_cacheBuf root = Some buf ∧ objs_ok m buf.

Lemma objs_ok_add m c k o : objs_ok m c → cacheable_key k = true → is_Some (m !! k) → ToBytes o = m !! k → objs_ok m (<[k := o]> c).
Proof. intros H ? ? ? k' o' [[<- <-]|[_ Hk]]%lookup_insert_Some; [done|by apply H]. Qed.
Lemma objs_ok_addToCache m c k o : objs_ok m c → cacheable_key k = true → is_Some (m !! k) → ToBytes o = m !! k → objs_ok m (addToCache pick c k o).
Proof.
  intros H Hk Hm Ho. unfold addToCache. apply objs_ok_add; [|done..]. destruct (_ >? _); [|done]. intros k' o' [_ Hk']%lookup_delete_Some. by apply H.
Qed.

(** ** Reading *)

#[export] Instance root_same : Same Root := λ root root',
  rt_cache root' = rt_cache root ∧ rt_isCacheableKey root' = rt_isCacheableKey root ∧ rt_height root' = rt_height root ∧
  only_read (rt_okv root) (rt_okv root') ∧
  ∀ ent, readable (rt_okv root) ent → readable (rt_okv root') ent ∧
    (rt_isCacheableKey root = isCacheableKey → buf_ok (values ent) root → buf_ok (values ent) root').
#[export] Instance root_same_laws : SameLaws Root.
Proof.
  split; [intros x; split_and!; [done..|apply only_read_refl|by intros]|].
  intros x y z (H1 & H2 & H3 & H4 & H5) (K1 & K2 & K3 & K4 & K5). split_and!; [congruence|congruence|congruence|by etrans|].
  intros ent Hr. destruct (H5 ent Hr) as [Hr' Hb]. destruct (K5 ent Hr') as [Hr2 Hb2]. split; [done|]. intros Hck Hx. apply Hb2; [congruence|]. auto.
Qed.

Lemma okv_call_ok {A} (f : OnvaKV → outcome (OnvaKV * A)) root okv' (a : A) : f (rt_okv root) = Ret (okv', a) →
  only_read (rt_okv root) okv' → (∀ ent, readable (rt_okv root) ent → readable okv' ent) →
  ∃ root', okv_call f root = Ret (a, root') ∧ same root root' ∧ rt_okv root' = okv' ∧ rt_cacheBuf root' = rt_cacheBuf root.
Proof.
  intros Ef Ho Hr. eexists. split; [unfold okv_call, zoom; cbn [lget rt_okv_lens]; by rewrite Ef|]. split; [|done].
  split_and!; [done..|]. intros ent He. split; [by apply Hr|done].
Qed.

Lemma GetEntry_call root ent k : readable (rt_okv root) ent →
  ∃ root', okv_call (λ okv, GetEntry okv k) root = Ret (ent !! k, root') ∧ same root root' ∧ rt_cacheBuf root' = rt_cacheBuf root.
Proof.
  intros Hr. destruct (GetEntry_ok KeyOk ValOk (rt_okv root) ent k Hr) as (o & E1 & R1 & Q1).
  destruct (okv_call_ok (λ okv, GetEntry okv k) root o (ent !! k) E1 Q1) as (root' & E2 & Hs & _ & Hb); [|by exists root'].
  intros ent2 Hr2. destruct (GetEntry_ok KeyOk ValOk (rt_okv root) ent2 k Hr2) as (o2 & E3 & R3 & _). congruence.
Qed.

(** What an entry holds. *)
Lemma entry_value okv ent k : readable okv ent → ent !! k ≫= Types.Value = values ent !! k.
Proof.
  intros Hr. unfold values. rewrite lookup_fmap. destruct (ent !! k) as [e|] eqn:He; [|done]. cbn.
  destruct (entry_facts KeyOk ValOk okv ent k e (re_inv _ _ _ _ Hr) He) as (_ & _ & _ & v & Hv & _). unfold ValueBytes. by rewrite Hv.
Qed.

Lemma Root_get_ok root ent k : readable (rt_okv root) ent →
  ∃ root', Root_get k root = Ret (values ent !! k, root') ∧ same root root' ∧ rt_cacheBuf root' = rt_cacheBuf root.
Proof.
  intros Hr. destruct (GetEntry_call root ent k Hr) as (root' & E1 & Hs & Hb). exists root'. split; [|done].
  unfold Root_get. rewrite (stM_Ret _ _ _ _ _ E1), <- (entry_value _ _ _ Hr). by destruct (ent !! k).
Qed.

(** A root store between blocks, with the keys [ps] prepared. *)
Record root_at root m ps : Prop := {
  ro_key : rt_isCacheableKey root = isCacheableKey;
  ro_height : 0 ≤ rt_height root < 2 ^ 63;
  ro_cache : objs_ok m (rt_cache root);
  ro_buf : buf_ok m root;
  ro_okv : ∃ ent H N, preparing (rt_okv root) (rt_okv root) ent H N ps ∧ values ent = m ∧ linked startKey endKey ent;
  ro_first : dt_first ≤ dt_next (okv_datTree (rt_okv root));
  ro_flushed : dt_compacts → dt_flushed (okv_datTree (rt_okv root)) = dt_next (okv_datTree (rt_okv root));
  ro_guards : okv_startKey (rt_okv root) = startKey ∧ okv_endKey (rt_okv root) = endKey;
  ro_preps p : p ∈ ps → prep_ok KeyOk startKey endKey p
}.

Lemma root_readable root m ps : root_at root m ps → ∃ ent, readable (rt_okv root) ent ∧ values ent = m.
Proof. intros []. destruct ro_okv0 as (ent & H & N & Hp & Hv & _). exists ent. split; [apply Hp|done]. Qed.

Lemma root_at_same root root' m ps : same root root' → root_at root m ps → root_at root' m ps.
Proof.
  intros (S1 & S2 & S3 & S4 & S5) []. destruct ro_okv0 as (ent & H & N & Hp & Hv & Hl).
  destruct (S5 ent (pp_readable _ _ _ _ _ _ _ _ Hp)) as [Hr Hb]. destruct (only_read_rest _ _ S4) as (R1 & R2 & R3 & [R4 R5]).
  split; [congruence|congruence|by rewrite S1|rewrite <- Hv in *; by apply Hb| |lia|by rewrite R4, R5|by destruct S4 as [-> _]|done].
  exists ent, H, N. split_and!; [|done|done]. destruct Hp. split; [done..|by rewrite R2|by rewrite R3|done].
Qed.

(** The serial numbers that are used, and those of a block. *)
Definition root_used root : Z := dt_next (okv_datTree (rt_okv root)).
Definition root_cost (np : Z) m : Z := 6 * np + reap_cost m.
Definition root_served (used np : Z) m : Prop := used + root_cost np m < dt_max ∧ reap_served fuel used np m.
Lemma root_used_same root root' : same root root' → root_used root' = root_used root.
Proof. by intros (_ & _ & _ & (_ & H & _) & _). Qed.
Lemma root_served_mono u u' n n' m : u' ≤ u → n' ≤ n → root_served u n m → root_served u' n' m.
Proof.
  unfold root_served, root_cost. intros Hu Hn [H1 [?|(? & ? & ? & ?)]]; (split; [lia|]); [by left|right]. split_and!; done || lia.
Qed.

Lemma cached_obj_lookup root m k : rt_isCacheableKey root = isCacheableKey → objs_ok m (rt_cache root) →
  cached_obj k root = Ret (rt_cache root !! k, root).
Proof.
  intros Hk Hc. unfold cached_obj, cacheable. rewrite Hk. fold (cacheable_key k). destruct (rt_cache root !! k) as [o|] eqn:Ho.
  - by destruct (Hc k o Ho) as [-> _].
  - by destruct (cacheable_key k).
Qed.
Lemma cached_obj_ok root m ps k : root_at root m ps → cached_obj k root = Ret (rt_cache root !! k, root).
Proof. intros []. by eapply cached_obj_lookup. Qed.

Lemma Root_Get_ok root m ps k : root_at root m ps → ∃ root', Root_Get k root = Ret (m !! k, root') ∧ same root root'.
Proof.
  intros H. unfold Root_Get. rewrite (stM_Ret _ _ _ _ _ (cached_obj_ok root m ps k H)). destruct (rt_cache root !! k) as [o|] eqn:Ho.
  - exists root. destruct (ro_cache _ _ _ H k o Ho) as (_ & _ & ->). split; [done|reflexivity].
  - destruct (root_readable _ _ _ H) as (ent & Hr & <-). destruct (Root_get_ok root ent k Hr) as (root' & E1 & Hs & _). by exists root'.
Qed.
Lemma Root_Has_ok root m ps k : root_at root m ps → ∃ root', Root_Has k root = Ret (bool_decide (is_Some (m !! k)), root') ∧ same root root'.
Proof.
  intros H. destruct (root_readable _ _ _ H) as (ent & Hr & <-). destruct (GetEntry_call root ent k Hr) as (root' & E1 & Hs & _).
  exists root'. split; [|done]. unfold Root_Has. rewrite (stM_Ret _ _ _ _ _ E1). unfold values. rewrite lookup_fmap.
  by destruct (ent !! k).
Qed.

(** Objects that are read. *)
Definition object_for (ptr : option Ob) (v : option bytes) (p : option Ob) : Prop :=
  match v with None => p = None | Some bz => ∃ o, p = Some o ∧ read_object ptr bz o end.
Lemma ptr_FromBytes_ok ptr bz p : ptr_FromBytes ptr (Some bz) = Ret p → ∃ o, p = Some o ∧ read_object ptr bz o ∧ ToBytes o = Some bz.
Proof.
  destruct ptr as [o0|]; [|done]. cbn. destruct (FromBytes o0 (Some bz)) as [o|] eqn:Eo; [|done]. intros [= <-]. exists o.
  split_and!; [done|right; by exists o0|by eapply FromBytes_ToBytes].
Qed.

Lemma Root_GetObjCopy_ok root m ps k ptr p root' : root_at root m ps → Root_GetObjCopy k ptr root = Ret (p, root') →
  same root root' ∧ object_for ptr (m !! k) p.
Proof.
  intros H. unfold Root_GetObjCopy. rewrite (stM_Ret _ _ _ _ _ (cached_obj_ok root m ps k H)). destruct (rt_cache root !! k) as [o|] eqn:Ho.
  - destruct (ro_cache _ _ _ H k o Ho) as (_ & [v Hv] & Hb). rewrite Hv in *. intros [= <- <-]. split; [reflexivity|].
    exists (DeepCopy o). split; [done|]. left. by rewrite DeepCopy_ToBytes.
  - destruct (root_readable _ _ _ H) as (ent & Hr & <-). destruct (Root_get_ok root ent k Hr) as (r1 & E1 & Hs & _).
    rewrite (stM_Ret _ _ _ _ _ E1). destruct (values ent !! k) as [bz|]; [|by intros [= <- <-]]. unfold st_lift.
    destruct (ptr_FromBytes ptr (Some bz)) as [q|] eqn:Eq; [|done]. intros [= <- <-]. split; [done|].
    destruct (ptr_FromBytes_ok _ _ _ Eq) as (o & -> & Hro & _). by exists o.
Qed.

Lemma buffer_obj_ok root k o root' : buffer_obj k o root = Ret (tt, root') → (∀ ent, readable (rt_okv root) ent → values ent !! k = ToBytes o ∧ is_Some (ToBytes o)) →
  same root root'.
Proof.
  unfold buffer_obj. destruct (rt_isCacheableKey root) as [f|] eqn:Hf; [|done].
  destruct (f k) eqn:Hk; [|intros [= <-] _; reflexivity]. destruct (rt_cacheBuf root) as [buf|] eqn:Hb; [|done]. intros [= <-] Hv.
  split_and!; [done..|apply only_read_refl|]. intros ent Hr. split; [done|]. intros Hck (buf' & Hb' & Hok). rewrite Hb in Hb'. injection Hb' as <-.
  eexists. split; [reflexivity|]. destruct (Hv ent Hr) as [Hv1 Hv2]. apply objs_ok_add; [done| |by rewrite Hv1|done].
  unfold cacheable_key. by rewrite <- Hck, Hf.
Qed.

Lemma Root_GetReadOnlyObj_ok root m ps k ptr p root' : root_at root m ps → Root_GetReadOnlyObj k ptr root = Ret (p, root') →
  same root root' ∧ object_for ptr (m !! k) p.
Proof.
  intros H. unfold Root_GetReadOnlyObj. rewrite (stM_Ret _ _ _ _ _ (cached_obj_ok root m ps k H)). destruct (rt_cache root !! k) as [o|] eqn:Ho.
  - destruct (ro_cache _ _ _ H k o Ho) as (_ & [v Hv] & Hb). rewrite Hv in *. intros [= <- <-]. split; [reflexivity|].
    exists o. split; [done|]. by left.
  - destruct (root_readable _ _ _ H) as (ent & Hr & <-). destruct (Root_get_ok root ent k Hr) as (r1 & E1 & Hs & _).
    rewrite (stM_Ret _ _ _ _ _ E1). destruct (values ent !! k) as [bz|] eqn:Hbz; [|by intros [= <- <-]].
    unfold mbind at 1, stM_bind at 1, st_lift. destruct (ptr_FromBytes ptr (Some bz)) as [q|] eqn:Eq; [|done]. cbn [mbind outcome_bind].
    destruct (ptr_FromBytes_ok _ _ _ Eq) as (o & -> & Hro & Hto). intros ([] & r2 & E2 & E3)%stM_bind_inv. injection E3 as <- <-.
    split; [|by exists o]. etrans; [exact Hs|]. apply (buffer_obj_ok r1 k o); [done|]. intros ent2 Hr2. rewrite Hto. split; [|by eexists].
    destruct Hs as (_ & _ & _ & _ & Hs). destruct (Hs ent Hr) as [Hr1 _].
    destruct (Root_get_ok r1 ent2 k Hr2) as (r3 & E3 & _). destruct (Root_get_ok r1 ent k Hr1) as (r4 & E4 & _). congruence.
Qed.

(** ** Preparing *)

Lemma okv_do_ok (f : OnvaKV → outcome OnvaKV) root okv' : f (rt_okv root) = Ret okv' →
  okv_do f root = Ret (tt, lset rt_okv_lens okv' root).
Proof. intros Ef. unfold okv_do, zoom. cbn [lget rt_okv_lens]. by rewrite Ef. Qed.

Definition root_prepare (p : prep) : stM Root unit :=
  match p with PrepUpdate k => Root_PrepareForUpdate k | PrepDeletion k => Root_PrepareForDeletion k end.
Lemma root_prepare_do p : root_prepare p = okv_do (λ okv, OnvaKVPrepare.prepare_step okv p).
Proof. by destruct p. Qed.

Lemma preparing_here okv0 okv ent H N ps ps' : preparing okv0 okv ent H N ps → ps ≡ₚ ps' → preparing okv okv ent H N ps'.
Proof. intros [] Hps. split; [done..|by eapply cache_ok_permutation]. Qed.

Lemma Root_prepare_ok root m ps p : root_at root m ps → prep_ok KeyOk startKey endKey p →
  ∃ root', root_prepare p root = Ret (tt, root') ∧ root_at root' m (ps ++ [p]) ∧ root_used root' = root_used root.
Proof.
  intros [] Hp. destruct ro_okv0 as (ent & H & N & Hpr & Hv & Hl).
  destruct (prepare_step_ok KeyOk ValOk Hsizes startKey endKey _ _ ent H N ps p Hpr Hl Hp) as (okv' & H' & N' & E1 & Hp').
  exists (lset rt_okv_lens okv' root). rewrite root_prepare_do. split; [by apply okv_do_ok|].
  pose proof (pp_rest _ _ _ _ _ _ _ _ Hp') as Hrest. pose proof (pp_counts _ _ _ _ _ _ _ _ Hp') as [Hnext Hfl]. unfold rest in Hrest. injection Hrest as _ _ _ _ Hs He.
  split; [|done]. split; cbn; [done..| |lia|by rewrite Hnext, Hfl|by rewrite Hs, He|].
  - exists ent, H', N'. split_and!; [|done|done]. eapply preparing_here; [exact Hp'|]. apply Permutation_cons_append.
  - intros q [?| ->%list_elem_of_singleton]%elem_of_app; [by apply ro_preps0|done].
Qed.

(** ** Iterating *)

(** The loop over the index below. *)
Definition ri_dir (it : RootStoreIterator E) : NVTreeMem T → IterMem E → outcome (IterMem E) :=
  match it with RootForward _ => Forward_Next | RootBackward _ => Backward_Next end.
Definition ri_with (it : RootStoreIterator E) (i : IterMem E) : RootStoreIterator E :=
  match it with RootForward _ => RootForward i | RootBackward _ => RootBackward i end.
Lemma ri_Next_dir root it : ri_Next root it = i ← ri_dir it (okv_idxTree (rt_okv root)) (ri_iter it); mret (ri_with it i).
Proof. by destruct it. Qed.

(** The items the iterator has left, with the values of their entries. *)
Definition root_yields root it (l : list (bytes * option bytes)) : Prop := ∃ ent items n, readable (rt_okv root) ent ∧
  iter_collect (ri_dir it (okv_idxTree (rt_okv root))) n (ri_iter it) = Ret items ∧
  (∀ k p, (k, p) ∈ items → index (rt_okv root) !! k = Some p) ∧ l = (λ kv, (kv.1, ent !! kv.1 ≫= Types.Value)) <$> items.

Lemma root_yields_same root root' it l : same root root' → root_yields root it l → root_yields root' it l.
Proof.
  intros (_ & _ & _ & [Ho _] & Hr) (ent & items & n & H1 & H2 & H3 & H4). exists ent, items, n.
  assert (okv_idxTree (rt_okv root') = okv_idxTree (rt_okv root)) as -> by (by rewrite Ho). split_and!; [by apply Hr|done|done|done].
Qed.

Definition root_iter_laws : @IterLaws Ob Root (RootStoreIterator E) root_same root_iterator.
Proof.
  unshelve refine {| yields := root_yields |}.
  - apply root_yields_same.
  - intros root it l Hy. pose proof Hy as (ent & items & n & H1 & H2 & H3 & ->). exists root, it. split; [|split; [reflexivity|done]].
    cbn. do 2 f_equal. pose proof (iter_collect_inv _ _ _ _ H2) as Hinv. destruct items as [|[k p] items].
    + rewrite Hinv. symmetry. apply bool_decide_eq_false_2. by intros [].
    + destruct Hinv as (f & i & _ & -> & _). by rewrite bool_decide_eq_true_2.
  - intros root it x l (ent & items & n & H1 & H2 & H3 & H4). destruct items as [|[k p] items]; [done|]. injection H4 as -> ->.
    destruct (iter_collect_inv _ _ _ _ H2) as (f & i & _ & _ & _ & _ & Hn & Hc). exists root, (ri_with it i). split; [|split; [reflexivity|]].
    + cbn. rewrite ri_Next_dir, Hn. done.
    + exists ent, items, f. split_and!; [done| |by intros k' p' Hin; apply H3; right|done]. by destruct it.
  - intros root it x l Hy. pose proof Hy as (ent & items & n & H1 & H2 & H3 & H4). destruct items as [|[k p] items]; [done|]. injection H4 as -> ->.
    destruct (iter_collect_inv _ _ _ _ H2) as (f & i & _ & _ & Hk & _). exists root, it. split; [|split; [reflexivity|done]]. cbn. by rewrite Hk.
  - intros root it x l Hy. pose proof Hy as (ent & items & n & H1 & H2 & H3 & H4). destruct items as [|[k p] items]; [done|]. injection H4 as -> ->.
    destruct (iter_collect_inv _ _ _ _ H2) as (f & i & _ & Hv & Hk & Hp & _).
    assert (∀ ent, readable (rt_okv root) ent → ∃ okv', Onva_Value (rt_okv root) (ri_iter it) = Ret (okv', ent !! k ≫= Types.Value) ∧
      readable okv' ent ∧ only_read (rt_okv root) okv') as Hread.
    { intros ent2 Hr2. pose proof (H3 k p ltac:(by left)) as Hi. destruct (si_index _ _ _ _ (re_inv _ _ _ _ Hr2) k p Hi) as (_ & e & He & _).
      destruct (read_at_ok KeyOk ValOk (rt_okv root) ent2 k e p Hr2 He Hi) as (o & E1 & R1 & Q1). exists o. rewrite He. split; [|done].
      unfold Onva_Value. rewrite Hv, Hp. cbn [negb]. by rewrite E1. }
    destruct (Hread ent H1) as (o & E1 & R1 & Q1).
    destruct (okv_call_ok (λ okv, Onva_Value okv (ri_iter it)) root o _ E1 Q1) as (root' & E2 & Hs & _).
    { intros ent2 Hr2. destruct (Hread ent2 Hr2) as (o2 & E3 & R3 & _). congruence. }
    exists root', it. split; [|split; [done|by eapply root_yields_same]]. cbn [oi_Value root_iterator]. unfold ri_Value. by rewrite E2.
Defined.

Lemma root_iterator_laws_ok (asc : bool) root m ps start end_ l : root_at root m ps → ordered asc m (in_bounds start end_) l →
  ∃ it root', (if asc then Root_Iterator start end_ else Root_ReverseIterator start end_) root = Ret (it, root') ∧ same root root' ∧
    root_yields root' it (map_items Some l).
Proof.
  intros H Hl. destruct (root_readable _ _ _ H) as (ent & Hr & <-). pose proof (re_inv _ _ _ _ Hr) as Hi.
  pose proof (po_bt _ (si_parts _ _ _ _ Hi)) as Hb. pose proof (re_idle _ _ _ _ Hr) as Hw.
  pose proof (range_items_ascending (index (rt_okv root)) start end_) as Ha. set (l0 := range_items (index (rt_okv root)) start end_) in *.
  assert (∀ k v, (k, v) ∈ l0 → index (rt_okv root) !! k = Some v) as Hl0 by (intros k v Hk; by apply Ha in Hk as [? _]).
  pose proof (with_values_items KeyOk ValOk bytes_lt (rt_okv root) ent _ l0 Hi Ha) as Hwv.
  assert (∀ items, items = (if asc then l0 else rev l0) → map_items Some l = (λ kv, (kv.1, ent !! kv.1 ≫= Types.Value)) <$> items ∧
    ∀ k p, (k, p) ∈ items → index (rt_okv root) !! k = Some p) as Hitems.
  { intros items ->. assert (∀ k v, (k, v) ∈ (if asc then l0 else rev l0) → index (rt_okv root) !! k = Some v) as Hin.
    { destruct asc; [done|]. intros k v Hk. apply Hl0. apply list_elem_of_In, in_rev. by apply list_elem_of_In. }
    split; [|done]. rewrite (onva_values KeyOk ValOk (rt_okv root) ent _ Hi Hin).
    assert (l = with_values ent (if asc then l0 else rev l0)) as -> by (eapply (ordered_unique asc); [exact Hl|];
      destruct asc; [exact Hwv|]; cbn; unfold with_values; rewrite fmap_rev; by apply descending_rev).
    unfold map_items. apply list_fmap_ext. by intros ? [] _. }
  set (n := Datatypes.S (size (index (rt_okv root)))).
  assert (∃ it, (if asc then Root_Iterator start end_ else Root_ReverseIterator start end_) root = Ret (it, root) ∧
    iter_collect (ri_dir it (okv_idxTree (rt_okv root))) n (ri_iter it) = Ret (if asc then l0 else rev l0)) as (it & E1 & E2).
  { destruct asc.
    - pose proof (Iterator_collect (okv_idxTree (rt_okv root)) start end_ n Hw Hb ltac:(lia)) as Hc. unfold Root_Iterator, OnvaKV_Iterator.
      destruct (NVTree_Iterator _ _ _) as [it|]; [|done]. by exists (RootForward it).
    - pose proof (ReverseIterator_collect (okv_idxTree (rt_okv root)) start end_ n Hw Hb ltac:(lia)) as Hc. unfold Root_ReverseIterator, OnvaKV_ReverseIterator.
      destruct (NVTree_ReverseIterator _ _ _) as [it|]; [|done]. by exists (RootBackward it). }
  exists it, root. split; [done|]. split; [reflexivity|]. destruct (Hitems _ eq_refl) as [-> Hx]. by eexists ent, _, n.
Qed.

(** ** Writing *)

#[local] Instance root_ops : RootStoreOps Ob Root (RootStoreIterator E) := root_store pick visit fuel.

(** Values that are written over a cached object can be parsed. *)
Definition parses (v : bytes) : Prop := isCacheableKey ≠ None → ∀ o : Ob, ∃ o', FromBytes o (Some v) = Ret o'.

(** A root store in the middle of a batch. *)
Record root_writing root okv0 ent (H N : gset bytes) m (past : list write) : Prop := {
  rw_key : rt_isCacheableKey root = isCacheableKey;
  rw_height : 0 ≤ rt_height root < 2 ^ 63;
  rw_cache : objs_ok m (rt_cache root);
  rw_okv : ∃ M, updating ValOk startKey endKey okv0 (rt_okv root) ent H N M m past
}.

Lemma objs_ok_other m c k w : objs_ok m c → c !! k = None → write_key w = k → objs_ok (spec_write m w) c.
Proof. intros H Hk Hw k' o' Ho. rewrite spec_write_other by (rewrite Hw; congruence). by apply H. Qed.
Lemma objs_ok_set m c k v o : objs_ok m c → cacheable_key k = true → ToBytes o = Some v → objs_ok (<[k := v]> m) (<[k := o]> c).
Proof.
  intros H Hk Ho k' o' [[<- <-]|[Hne Hc]]%lookup_insert_Some; [rewrite lookup_insert_eq; split_and!; [done|by eexists|done]|].
  rewrite lookup_insert_ne by done. by apply H.
Qed.
Lemma objs_ok_delete m c k : objs_ok m c → objs_ok (delete k m) (delete k c).
Proof. intros H k' o' [Hne Hc]%lookup_delete_Some. rewrite lookup_delete_ne by done. by apply H. Qed.

Lemma root_write_step_ok root okv0 ent H N m past ps (w : root_write Ob) : (∀ p, p ∈ ps → prep_ok KeyOk startKey endKey p) →
  store_inv KeyOk ValOk okv0 ent → OnvaKVPrepare.cache_ok KeyOk ent H N ps → root_writing root okv0 ent H N m past →
  OnvaKVSets.write_ok ValOk ps (as_write w) → (∀ v, SetKey (write_key (as_write w)) v ∉ past) →
  match as_write w with SetKey _ v => parses v | DeleteKey _ => True end →
  ∃ root', root_write_step w root = Ret (tt, root') ∧ root_writing root' okv0 ent H N (spec_write m (as_write w)) (past ++ [as_write w]).
Proof.
  intros Hps Hi Hc [Hk Hh Hcache (M & Hu)] Hw Hnew Hparse.
  destruct (write_step_ok KeyOk ValOk Hsizes startKey endKey ps Hps okv0 (rt_okv root) ent H N M m past (as_write w) Hi Hc Hu Hw) as (o' & M' & E1 & Hu').
  { intros k v Ew Hin. rewrite Ew in Hnew. by destruct (Hnew v). }
  assert (∀ c, objs_ok (spec_write m (as_write w)) c → root_writing (set_cache (lset rt_okv_lens o' root) c) okv0 ent H N (spec_write m (as_write w)) (past ++ [as_write w])) as Hdone.
  { intros c Hc'. split; [done|done|done|by exists M']. }
  destruct w as [k v|k o|k]; cbn [root_write_step rs_Set rs_SetObj rs_Delete root_ops root_store as_write write_step spec_write write_key] in *.
  - unfold Root_Set. rewrite (stM_Ret _ _ _ _ _ (okv_do_ok (λ okv, OnvaKV_Set okv k (Some v)) root o' E1)).
    rewrite (stM_Ret _ _ _ _ _ (cached_obj_lookup (lset rt_okv_lens o' root) m k Hk Hcache)). cbn [rt_cache lset rt_okv_lens].
    destruct (rt_cache root !! k) as [o|] eqn:Ho.
    + destruct (Hcache k o Ho) as (Hck & _). destruct (Hparse ltac:(intros Hn; unfold cacheable_key in Hck; by rewrite Hn in Hck) o) as [o2 Ho2].
      eexists. split; [unfold mbind, stM_bind, st_lift; rewrite Ho2; reflexivity|]. apply Hdone. apply objs_ok_set; [done|done|by eapply FromBytes_ToBytes].
    + eexists. split; [reflexivity|]. exact (Hdone (rt_cache root) (objs_ok_other m _ k (SetKey k v) Hcache Ho eq_refl)).
  - destruct (ToBytes_slice o) as [v Hv]. rewrite Hv in *. change (default [] (Some v)) with v in *. unfold Root_SetObj. rewrite Hv.
    rewrite (stM_Ret _ _ _ _ _ (okv_do_ok (λ okv, OnvaKV_Set okv k (Some v)) root o' E1)).
    eexists. split; [reflexivity|]. assert (cacheable (lset rt_okv_lens o' root) k = cacheable_key k) as -> by (unfold cacheable; cbn; by rewrite Hk).
    destruct (cacheable_key k) eqn:Hck.
    + apply Hdone. cbn [rt_cache]. unfold addToCache. apply objs_ok_set; [|done|done]. destruct (_ >? _); [|done].
      intros k' o2 [_ Hk']%lookup_delete_Some. by apply Hcache.
    + apply (Hdone (rt_cache root)). apply (objs_ok_other m _ k (SetKey k v)); [done| |done].
      apply eq_None_not_Some. intros [o2 Ho2]. destruct (Hcache k o2 Ho2) as [? _]. congruence.
  - unfold Root_Delete. rewrite (stM_Ret _ _ _ _ _ (okv_do_ok (λ okv, OnvaKV_Delete okv k) root o' E1)).
    eexists. split; [reflexivity|]. apply Hdone. by apply objs_ok_delete.
Qed.

Lemma run_root_writes_ok ws : ∀ root okv0 ent H N m past ps, (∀ p, p ∈ ps → prep_ok KeyOk startKey endKey p) →
  store_inv KeyOk ValOk okv0 ent → OnvaKVPrepare.cache_ok KeyOk ent H N ps → root_writing root okv0 ent H N m past →
  (∀ w, w ∈ ws → OnvaKVSets.write_ok ValOk ps (as_write w) ∧ match as_write w with SetKey _ v => parses v | DeleteKey _ => True end) →
  NoDup (write_key ∘ as_write <$> ws) → (∀ w v, w ∈ ws → SetKey (write_key (as_write w)) v ∉ past) →
  ∃ root', run_root_writes ws root = Ret (tt, root') ∧ root_writing root' okv0 ent H N (spec_after m (as_write <$> ws)) (past ++ (as_write <$> ws)).
Proof.
  induction ws as [|w ws IH]; intros root okv0 ent H N m past ps Hps Hi Hc Hw Hws Hnd Hnew.
  { exists root. cbn. by rewrite app_nil_r. }
  cbn [fmap list_fmap] in Hnd. apply NoDup_cons in Hnd as [Hk Hnd]. destruct (Hws w) as [H1 H2]; [by left|].
  destruct (root_write_step_ok root okv0 ent H N m past ps w Hps Hi Hc Hw H1) as (r1 & E1 & W1); [intros v; by apply Hnew; left|done|].
  destruct (IH r1 okv0 ent H N _ _ ps Hps Hi Hc W1) as (r2 & E2 & W2); [intros w' Hw'; apply Hws; by right|done| |].
  - intros w' v Hw' [Hin|Heq%list_elem_of_singleton]%elem_of_app; [by eapply Hnew; [right|]|].
    apply Hk. apply list_elem_of_fmap. exists w'. split; [|done]. cbn. by rewrite <- Heq.
  - exists r2. split; [|by rewrite <- app_assoc in W2]. unfold run_root_writes. cbn [foldr]. rewrite (stM_Ret _ _ _ _ _ E1). exact E2.
Qed.

Lemma fold_addToCache m l : ∀ c, objs_ok m c → (∀ k o, (k, o) ∈ l → cacheable_key k = true ∧ is_Some (m !! k) ∧ ToBytes o = m !! k) →
  objs_ok m (foldl (λ cache '(key, value), addToCache pick cache key value) c l).
Proof.
  induction l as [|[k o] l IH]; intros c Hc Hl; [done|]. cbn [foldl]. destruct (Hl k o) as (H1 & H2 & H3); [by left|].
  apply IH; [by apply objs_ok_addToCache|]. intros k' o' Hin. apply Hl. by right.
Qed.

Lemma Root_BeginWrite_ok root m ps : root_at root m ps → ∃ root' okv0 ent H N, Root_BeginWrite pick visit root = Ret (tt, root') ∧
  root_writing root' okv0 ent H N m [] ∧ rt_okv root' = okv0 ∧ store_inv KeyOk ValOk okv0 ent ∧ writing okv0 ∧ values ent = m ∧
  linked startKey endKey ent ∧ OnvaKVPrepare.cache_ok KeyOk ent H N ps ∧ holds (okv_k2nkMap okv0) (next_of N) ∧
  okv_startKey okv0 = startKey ∧ okv_endKey okv0 = endKey ∧ okv_datTree okv0 = okv_datTree (rt_okv root).
Proof.
  intros []. destruct ro_okv0 as (ent & H & N & Hp & Hv & Hl). destruct Hp as [Hr _ _ Hhe Hnk Hc]. destruct ro_buf0 as (buf & Eb & Hb).
  destruct (BeginWrite_ok KeyOk ValOk (rt_okv root) ent (rt_height root) (re_inv _ _ _ _ Hr) (re_idle _ _ _ _ Hr)) as (o & E1 & W1 & I1 & Hh1 & Hhe1 & Hnk1 & Hd1 & Hs1 & He1);
    [unfold is_int64; lia|].
  eexists _, o, ent, H, N. split.
  - unfold Root_BeginWrite. destruct (Z.ltb_spec (rt_height root) 0); [lia|]. rewrite (okv_do_ok (λ okv, BeginWrite okv (rt_height root)) root o E1).
    cbn [mbind outcome_bind lset rt_okv_lens rt_cacheBuf]. rewrite Eb. reflexivity.
  - split_and!; [|done|done|done|done|done|done|by rewrite Hnk1|by rewrite Hs1; apply ro_guards0|by rewrite He1; apply ro_guards0|done]. split; [done|done| |].
    + cbn. apply fold_addToCache; [done|]. intros k o' Hin. rewrite visit_ok in Hin. apply elem_of_map_to_list in Hin. by apply Hb.
    + exists (hot_of ent H). cbn. rewrite <- Hv. apply updating_start. by rewrite Hhe1.
Qed.

Lemma Root_write_ok root m ps ws : root_at root m ps → root_served (root_used root) (zlen ps) (spec_after m (as_write <$> ws)) → NoDup (write_key ∘ as_write <$> ws) →
  (∀ w, w ∈ ws → write_prep (as_write w) ∈ ps ∧ match as_write w with SetKey _ v => ValOk v ∧ parses v | DeleteKey _ => True end) →
  ∃ root', write_batch ws root = Ret (tt, root') ∧ root_at root' (spec_after m (as_write <$> ws)) [] ∧
    root_used root' ≤ root_used root + root_cost (zlen ps) (spec_after m (as_write <$> ws)).
Proof.
  intros H [Hroom Hserved] Hnd Hws. unfold root_used, root_cost in *.
  destruct (Root_BeginWrite_ok root m ps H) as (r1 & okv0 & ent & Hs & N & E1 & W1 & Eo & Hi & Hwr & Hv & Hl & Hc & Hnk & Hst & Hen & Hd).
  assert (∀ w, w ∈ ws → OnvaKVSets.write_ok ValOk ps (as_write w) ∧ match as_write w with SetKey _ v => parses v | DeleteKey _ => True end) as Hws'.
  { intros w Hw. destruct (Hws w Hw) as [H1 H2]. destruct (as_write w) as [k v|k]; cbn in *; [|done]. destruct H2. by split_and!. }
  destruct (run_root_writes_ok ws r1 okv0 ent Hs N m [] ps (ro_preps _ _ _ H) Hi Hc W1 Hws' Hnd) as (r2 & E2 & [Hk2 Hh2 Hc2 (M & Hu)]);
    [by intros w v _ ?%not_elem_of_nil|]. cbn [app] in Hu.
  destruct (EndWrite_ok KeyOk ValOk Hsizes fuel okv0 (rt_okv r2) ent Hs N M (spec_after m (as_write <$> ws)) ps (as_write <$> ws)) as (o3 & ent' & E3 & Hidle & Hv3 & Hs3 & He3 & N3);
    rewrite ?Hst, ?Hen; try done; [apply (ro_preps _ _ _ H)|rewrite Hd; lia| |by rewrite Hd; apply (ro_first _ _ _ H)|rewrite Hd; apply (ro_flushed _ _ _ H)|by rewrite Hd|].
  { apply spec_keys.
    - intros k Hk. rewrite <- Hv in Hk. unfold values in Hk. rewrite lookup_fmap in Hk. apply fmap_is_Some in Hk as [e He]. by apply (si_entry _ _ _ _ Hi k e He).
    - intros w (w' & -> & Hw)%list_elem_of_fmap. by apply (write_ok_key KeyOk ValOk startKey endKey ps (ro_preps _ _ _ H)), Hws'. }
  rewrite Hst in Hs3. rewrite Hen in He3. rewrite Hd in N3. destruct Hidle as [Hr Hhe Hnk' Hl' Hfirst Hfl _]. eexists. split; [|split].
  - unfold write_batch. rewrite (stM_Ret _ _ _ _ _ E1), (stM_Ret _ _ _ _ _ E2). cbn [rs_EndWrite root_ops root_store]. unfold Root_EndWrite.
    rewrite (stM_Ret _ _ _ _ _ (okv_do_ok (EndWrite fuel) r2 o3 E3)). reflexivity.
  - split; cbn; [done|done|done| | |done|done|done|by intros p ?%not_elem_of_nil].
    + exists ∅. split; [done|]. intros k o. by rewrite lookup_empty.
    + exists ent', ∅, ∅. rewrite Hs3, He3 in Hl'. split_and!; [|done|done]. split; [done..|by rewrite Hhe, hot_of_empty; apply holds_new|by rewrite Hnk'; apply holds_new|].
      split; [by intros n ?%not_elem_of_empty|by intros k ?%not_elem_of_empty|by intros k ?%not_elem_of_empty|by intros k ?%elem_of_nil|by intros k ?%elem_of_nil|done].
  - cbn. lia.
Qed.

(** ** The laws *)

Definition root_store_laws : RootStoreLaws Ob Root (RootStoreIterator E).
Proof.
  unshelve refine {|
    rs_same := root_same; rs_iter_laws := root_iter_laws; rs_key_ok := λ k, KeyOk k ∧ startKey <b k ∧ k <b endKey;
    rs_value_ok := λ v, ValOk v ∧ parses v; rs_used := root_used;
    rs_served := root_served; rs_cost := root_cost; rs_reading := root_at |}.
  - apply root_served_mono.
  - intros n n' m Hn. unfold root_cost. lia.
  - intros r r' m ps. apply root_at_same.
  - apply root_used_same.
  - intros r m ps k. apply Root_Get_ok.
  - intros r m ps k. apply Root_Has_ok.
  - intros r m ps k ptr p r'. apply Root_GetObjCopy_ok.
  - intros r m ps k ptr p r'. apply Root_GetReadOnlyObj_ok.
  - intros r m ps p H Hp. destruct (Root_prepare_ok r m ps p H Hp) as (r' & E1 & H1). exists r'. split; [|done]. by destruct p.
  - intros r m ps start end_ l H Hl. exact (root_iterator_laws_ok true r m ps start end_ l H Hl).
  - intros r m ps start end_ l H Hl. exact (root_iterator_laws_ok false r m ps start end_ l H Hl).
  - intros r m ps ws H. by apply Root_write_ok.
Defined.
End root_run.
