(* ===== verification/System.v ===== *)
(** * The whole system: transactions over the store

    A client of the store layer over [OnvaKV]: it creates the store, puts a
    root store on it, and in each block sets the height, opens a trunk, runs
    transactions on it and closes it. *)
From S2P Require Import Prelude Types ByteOrder RocksDB BTreeSpec.
From S2P Require Import Hasher AppendFile HPFile TwigMtFile MetaDB IndexTree Tree DataTreeSpec MockDataTree DataTreeImpl.
From S2P Require Import OnvaKV Relink Buckets OnvaKVInv OnvaKVRead OnvaKVBlock OnvaKVReap OnvaKVPrepare OnvaKVSets OnvaKVRun OnvaKVCreate OnvaKVStore.
From S2P Require Import BTree StoreTypes Client CacheStore CacheBTree MergeIter RootSpec TrunkStore TrunkRun RootStore RootStoreRun MockRoot.

Section system.
Context {Ob D T E DT C EC : Type} `{SO : !Serializable Ob, !SerializableLaws Ob}.
Context `{HD : !Rocks D} `{!RocksLaws D} `{HT : !BTreeOps Z T E} `{!BTreeLaws Z T E} `{HDT : !DataTreeOps DT} `{!DataTreeLaws DT}.
Context `{HC : !BTreeOps (Value Ob) C EC} `{!BTreeLaws (Value Ob) C EC}.
Context (KeyOk ValOk : bytes → Prop) (Hsizes : sizes_ok KeyOk ValOk) (startKey endKey : bytes) (isCacheableKey : option (bytes → bool)).
Context (pick : gmap bytes Ob → bytes) (visit : gmap bytes Ob → list (bytes * Ob)) (visit_ok : ∀ c, visit c ≡ₚ map_to_list c) (fuel : nat).
Notation Root := (RootStore Ob D T DT).
Implicit Types (root : Root) (m : gmap bytes bytes) (k : bytes).

#[local] Instance sys_root_ops : RootStoreOps Ob Root (RootStoreIterator E) := root_store pick visit fuel.
#[local] Instance sys_root_laws : RootStoreLaws Ob Root (RootStoreIterator E) :=
  root_store_laws KeyOk ValOk Hsizes startKey endKey isCacheableKey pick visit visit_ok fuel.
Notation root_at := (root_at KeyOk ValOk startKey endKey isCacheableKey).

(** A block: its height and its transactions, each with whether it is closed
    with write-back. *)
Definition block : Type := Z * list (list (root_write Ob) * bool).
Definition run_system_block root (b : block) : outcome Root :=
  run_trunk_block (T := C) (E := EC) fuel b.2 (SetHeight root b.1).
Definition run_system (r : RocksDB D) (d : DT) (canQueryHistory : bool) (bs : list block) : outcome Root :=
  okv ← NewOnvaKV_create r d canQueryHistory startKey endKey;
  for_state run_system_block (NewRootStore okv isCacheableKey) bs.

(** What the blocks mean. *)
Definition spec_system m (bs : list block) : gmap bytes bytes := foldl (λ m b, spec_txs m b.2) m bs.

(** Blocks that are served, from the contents [m] and at most [top] serial
    numbers: what they write, and the serial numbers they take. *)
Fixpoint system_ok (top : Z) m (bs : list block) : Prop :=
  match bs with
  | [] => True
  | b :: bs =>
      let m' := spec_txs m b.2 in let np := zlen (all_writes b.2) in
      0 ≤ b.1 < 2 ^ 63 ∧ writes_allowed (R := Root) b.2 ∧ root_served (DT := DT) fuel top np m' ∧
      (length (all_writes b.2) < fuel)%nat ∧ system_ok (top + root_cost np m') m' bs
  end.

(** A root store whose height is about to be set. *)
Definition ready root m : Prop := ∀ h, 0 ≤ h < 2 ^ 63 → root_at (SetHeight root h) m [].
Lemma ready_next root m : root_at root m [] → ready root m.
Proof. intros [] h Hh. by split. Qed.
Lemma NewRootStore_ready okv ent : idle KeyOk ValOk okv ent → okv_startKey okv = startKey → okv_endKey okv = endKey →
  ready (NewRootStore okv isCacheableKey) (values ent).
Proof.
  intros [Hr Hhe Hnk Hl Hf Hfl _] Hs He h Hh. split; cbn; [done|done|by intros k o|exists ∅; by split| |done|done|done|by intros p ?%not_elem_of_nil].
  exists ent, ∅, ∅. rewrite Hs, He in Hl. split_and!; [|done|done]. split; [done..|by rewrite Hhe, hot_of_empty; apply holds_new|by rewrite Hnk; apply holds_new|].
  split; [by intros n ?%not_elem_of_empty|by intros k ?%not_elem_of_empty|by intros k ?%not_elem_of_empty|by intros k ?%elem_of_nil|by intros k ?%elem_of_nil|done].
Qed.

Lemma system_blocks_ok bs : ∀ root m top, ready root m → root_used root ≤ top → system_ok top m bs →
  ∃ root', for_state run_system_block root bs = Ret root' ∧ ready root' (spec_system m bs).
Proof.
  induction bs as [|[h txs] bs IH]; intros root m top Hr Htop Hok; [by exists root|].
  destruct Hok as (Hh & Hw & Hserved & Hf & Hok). cbn [fst snd] in *.
  destruct (trunk_block_run (T := C) (E := EC) (HR := sys_root_ops) (LR := sys_root_laws) fuel (SetHeight root h) m txs (Hr h Hh) Hw) as (root1 & E1 & R1 & L1); [|done|].
  { eapply (root_served_mono fuel top); [exact Htop|reflexivity|done]. }
  change (rs_used (SetHeight root h)) with (root_used root) in L1. change (rs_used root1) with (root_used root1) in L1.
  change (rs_cost _ _) with (root_cost (zlen (all_writes txs)) (spec_txs m txs)) in L1.
  destruct (IH root1 (spec_txs m txs) (top + root_cost (zlen (all_writes txs)) (spec_txs m txs))) as (root2 & E2 & R2); [by apply ready_next|lia|done|].
  exists root2. split; [|done]. rewrite (for_state_step run_system_block root root1 (h, txs) bs E1). exact E2.
Qed.

(** C1: the system refines a map. A client that creates the store and runs
    blocks of transactions through the store layer is served, as long as its
    keys and values are of the sizes the store takes, its keys are between the
    guards, and the serial numbers of the blocks are within the capacity that
    [system_ok] adds up: nothing panics; afterwards a new transaction reads exactly what the committed writes mean,
    with its reads, its objects and its iterators in both directions, and the
    consistency check passes. *)
Theorem system_refines_map r d canQueryHistory bs h : empty_tree d → startKey <b endKey → KeyOk startKey → KeyOk endKey → ValOk [] →
  dt_first ≤ 2050 → 2050 < dt_max → system_ok 2050 (guards startKey endKey) bs → 0 ≤ h < 2 ^ 63 →
  (size (spec_system (guards startKey endKey) bs) < fuel)%nat →
  ∃ root, run_system r d canQueryHistory bs = Ret root ∧
    reads_as (T := C) fuel (Cached, GetTrunkStore (SetHeight root h)) (spec_system (guards startKey endKey) bs) ∧
    Root_CheckConsistency (Datatypes.S (size (spec_system (guards startKey endKey) bs))) root = Ret tt.
Proof.
  intros Hd Hlt HKs HKe HV Hf Hroom Hok Hh Hfuel.
  destruct (NewOnvaKV_create_ok KeyOk ValOk Hsizes r d canQueryHistory startKey endKey Hd) as (o & ent & E1 & Hi & Hv & Hs & He & Hn); [done..|].
  destruct (system_blocks_ok bs (NewRootStore o isCacheableKey) (values ent) 2050) as (root & E2 & R2); [by apply NewRootStore_ready|unfold root_used; cbn; lia|by rewrite Hv|].
  rewrite Hv in R2. specialize (R2 h Hh). exists root. split; [unfold run_system; rewrite E1; exact E2|].
  destruct (ro_okv _ _ _ _ _ _ _ _ R2) as (ent' & H & N & Hp & Hv' & Hl).
  destruct (ro_guards _ _ _ _ _ _ _ _ R2) as [Hs' He']. cbn [rt_okv SetHeight] in *. pose proof (pp_readable _ _ _ _ _ _ _ _ Hp) as Hread. split.
  - rewrite <- (overlay_empty (spec_system _ bs)), <- (overlay_empty (overlay _ ∅)). destruct (NewCacheStore_ok (T := C)) as [C1 C2].
    apply (multi_reads (HR := sys_root_ops) (LR := sys_root_laws)) with (ps := []); [|rewrite map_size_empty; lia].
    split; [by apply (GetTrunkStore_ok (LR := sys_root_laws))|done|done|intros k v; by rewrite lookup_empty].
  - rewrite <- Hv'. unfold values. rewrite map_size_fmap. unfold Root_CheckConsistency. rewrite <- Hs', <- He' in Hl, Hlt.
    apply (CheckConsistency_links KeyOk ValOk); [done|apply Hl|apply Hl|done|].
    intros k e _ Hhi Hk. apply (li_next _ _ _ Hl); [done|]. intros ->. by apply (irreflexivity bytes_lt) in Hhi.
Qed.
End system.

(** ** A run of the whole program: the data tree of [Tree] on the files of
    hpfile.go, the index and the caches on the B+trees of the program *)

#[local] Existing Instance byte_object.
#[local] Existing Instance byte_object_laws.
#[local] Existing Instance toy_sha256.
#[local] Existing Instance toy_meow.
#[local] Existing Instance real_laws.

Definition sample_cacheable (k : bytes) : bool := bool_decide (head k = Some 3).
Definition first_visited (c : gmap bytes bytes) : bytes := default [] (head (map_to_list c).*1).
Definition in_order (c : gmap bytes bytes) : list (bytes * bytes) := map_to_list c.
Definition sample_system : list (block (Ob := bytes)) :=
  [(1, [([RootSet [5] [50]; RootSetObj [3] [30]], true)]);
   (2, [([RootDelete [3]], false); ([RootSet [3] [31]; RootDelete [5]; RootSetObj [4] [40]], true)])].

Lemma in_order_ok c : in_order c ≡ₚ map_to_list c.
Proof. reflexivity. Qed.

#[local] Instance sample_ops : RootStoreOps bytes (RootStore bytes (gmap bytes bytes) (BTree Z) (LoggedTree HPFile)) (RootStoreIterator Enumerator) :=
  root_store first_visited in_order 20.
#[local] Instance sample_laws : RootStoreLaws bytes (RootStore bytes (gmap bytes bytes) (BTree Z) (LoggedTree HPFile)) (RootStoreIterator Enumerator) :=
  root_store_laws short_key short_value real_sizes [1] [9] (Some sample_cacheable) first_visited in_order in_order_ok 20.

Lemma sample_system_ok : system_ok (DT := LoggedTree HPFile) short_key short_value real_sizes [1] [9] (Some sample_cacheable) first_visited in_order in_order_ok 20
  (T := BTree Z) (D := gmap bytes bytes) 2050 (guards [1] [9]) sample_system.
Proof.
  assert (∀ b, 0 ≤ b < 256 → [1] <b [b] → [b] <b [9] → rs_key_ok (R := RootStore bytes (gmap bytes bytes) (BTree Z) (LoggedTree HPFile)) [b]) as HK.
  { intros b Hb H1 H2. split; [split; [by apply keyed_byte|vm_compute; congruence]|by split]. }
  assert (∀ b, rs_value_ok (R := RootStore bytes (gmap bytes bytes) (BTree Z) (LoggedTree HPFile)) [b]) as HV.
  { intros b. split; [vm_compute; congruence|]. intros _ o. by eexists. }
  cbn [system_ok sample_system fst snd]. set (m1 := spec_txs _ _). set (m2 := spec_txs m1 _).
  assert (reap_cost m1 = 0) as E1 by (vm_compute; reflexivity). assert (reap_cost m2 = 0) as E2 by (vm_compute; reflexivity).
  unfold root_served, root_cost. rewrite E1, E2. split_and!; try done; try (left; apply reap_cost_0; done); try (vm_compute; (reflexivity || lia)).
  1, 2: intros w Hw; cbn in Hw; repeat (apply elem_of_cons in Hw as [->|Hw]; [split; [apply HK; done|first [apply HV|exact I]]|]); by apply not_elem_of_nil in Hw.
Qed.

Lemma system_refines_map_witness :
  (system_ok (DT := LoggedTree HPFile) short_key short_value real_sizes [1] [9] (Some sample_cacheable) first_visited in_order in_order_ok 20
     (T := BTree Z) (D := gmap bytes bytes) 2050 (guards [1] [9]) sample_system ∧
   map_to_list (spec_system (guards [1] [9]) sample_system) = [([3], [31]); ([1], []); ([9], []); ([4], [40])]) ∧
  ∃ root, run_system (Ob := bytes) (D := gmap bytes bytes) (T := BTree Z) (C := BTree (Value bytes)) [1] [9] (Some sample_cacheable) first_visited in_order 20
      sample_rocksdb new_tree true sample_system = Ret root ∧
    reads_as (T := BTree (Value bytes)) 20 (Cached, GetTrunkStore (SetHeight root 3)) (spec_system (guards [1] [9]) sample_system) ∧
    Root_CheckConsistency 5 root = Ret tt.
Proof.
  split; [split; [exact sample_system_ok|vm_compute; reflexivity]|].
  destruct real_session_ok as [Hd (Hlt & HKs & HKe & HV) Hf Hroom _].
  apply (system_refines_map (C := BTree (Value bytes)) short_key short_value real_sizes [1] [9] (Some sample_cacheable) first_visited in_order in_order_ok 20
    sample_rocksdb new_tree true sample_system 3); [exact Hd|exact Hlt|exact HKs|exact HKe|exact HV|exact Hf|exact Hroom|exact sample_system_ok|lia|vm_compute; lia].
Defined.
